(* ===== verification/_CoqProject ===== *)
-Q . S2P
Prelude.v
Vlc.v
Hash.v
Event.v
Dag.v
Coin.v
StateStore.v
Resource.v
Executor.v
ExecutorSpec.v
ExecutorProps.v
SparseMerkle.v
SmtTrie.v
SmtRepr.v
SmtProps.v
BinaryMerkle.v
Aggregation.v
MerkleStore.v
StateManager.v
StateEquiv.v
StateSpec.v
StatePersist.v
StateProps.v
Overlay.v
ConsensusTypes.v
AnchorBuilder.v
AnchorProps.v
Consensus.v
ConsensusProps.v
Election.v
ElectionProps.v
EventStore.v
DagManager.v
DagManagerProps.v
Engine.v
EngineSteps.v
EngineProps.v
FinalityStores.v
Persistence.v
PersistenceProps.v
Sync.v
NodeProps.v
SyncProps.v
Reservation.v
Governance.v
GovernanceInst.v
GovernanceProps.v
GovernanceService.v
GovernanceServiceProps.v
Task.v
Stf.v
Enclave.v
EnclavePanics.v
StateProvider.v
TaskPreparer.v
SelectProps.v
PrepareProps.v
EnclaveProps.v
TransferFlow.v
TransferProps.v
SolverRouter.v
RouterProps.v
TransferService.v
ServiceProps.v
BatchProps.v
ServiceWit.v
Amount.v
AmountProps.v
Keys.v
InfraService.v
UserHandler.v
UserProps.v
MemberProps.v
UserWit.v
