(* ===== verification/Prelude.v ===== *)
(** * Setu, a verification development

    Setu is a distributed ledger: clients submit events, solvers execute them
    against coin objects, validators order them in a DAG stamped with vector
    logical clocks, fold the pending events of the DAG into anchors, vote on
    consensus frames that carry the anchors, and apply the state changes of a
    finalized frame to a forest of sparse Merkle trees, one per subnet, whose
    roots are aggregated into a global state root.  Governance proposals are
    decided by events of the same kind.  This library models that core, from the
    clock to the consensus engine, the persistence of finalized anchors, the
    exchange with peers and the governance handlers, and the path of a transfer
    from the request through its preparation, the choice of a solver and the
    enclave to the state, and proves it.

    ** Parts, and where they are

    - [Prelude]: Rust results with panics ([result]), state passing ([stm]),
      wrap-around, saturating and checked [u64] arithmetic, notations, the hint
      databases and the lemmas shared below.
    - [Vlc]: [crates/setu-vlc/src/lib.rs] and [consensus/src/vlc.rs].  [VC] is
      [VectorClock], [Snap] is [VLCSnapshot], [Node] the clock of a node.
    - [Hash]: bytes, [HashValue] and the domain-separated hashes of
      [crates/setu-merkle/src/hash.rs].
    - [Event]: events, their ids and status ([types/src/event.rs]).
    - [Dag]: the event DAG ([consensus/src/dag.rs]), module [D].
    - [Coin], [Resource]: objects, addresses, coins, balances, envelopes, Flux
      and Power ([types/src/object.rs], [coin.rs], [resource.rs],
      [envelope.rs]) and the resource helpers of the executor.
    - [StateStore]: the trait [StateStore] as a class with its laws, and the two
      stores of [crates/setu-runtime/src/state.rs] as instances.
    - [Executor], [ExecutorSpec], [ExecutorProps]: every handler of
      [crates/setu-runtime/src/executor.rs], their specifications against the
      laws of a store, and the theorems.
    - [SparseMerkle], [SmtTrie], [SmtRepr], [SmtProps]: the rebuilt tree, the
      incremental tree and the proofs of [crates/setu-merkle/src/sparse.rs];
      the canonical trie of a leaf map; the representation relation between the
      node table and the trie; the theorems.
    - [BinaryMerkle], [Aggregation], [MerkleStore]: [binary.rs],
      [aggregation.rs] and [storage.rs] of the same crate; [B4Store] is the
      trait of the persistent store, [IM] the in-memory store.
    - [StateManager], [StateSpec], [StateEquiv], [StatePersist], [StateProps]:
      [storage/src/state/manager.rs]: [SS] is [SubnetStateSMT], [GS] is
      [GlobalStateManager]; the transactional specification; the equivalence of
      replicas; commit and recovery; the theorems.
    - [Overlay]: [speculative_overlay.rs] and [shared.rs] of
      [storage/src/state]: speculative writes, the write state, the published
      snapshot and the read view.
    - [ConsensusTypes]: anchors, votes, frames ([types/src/consensus.rs]), the
      Merkle roots of an anchor ([consensus/src/merkle_integration.rs]) and the
      event router ([consensus/src/router.rs]).
    - [AnchorBuilder], [AnchorProps]: [consensus/src/anchor_builder.rs], module
      [AB]: the fold policy, prepare, commit and the follower's path.
    - [Consensus], [ConsensusProps]: [consensus/src/folder.rs], module [CM]: the
      consensus manager with its tables of frames, builds, events and votes.
    - [Election], [ElectionProps]: [consensus/src/validator_set.rs] ([VS]) and
      [consensus/src/liveness]: rotation ([Rot]), reputation ([LR]) and the
      choice by weight.
    - [EventStore]: [storage/src/memory/event_store.rs] ([ES]) and its trait.
    - [DagManager], [DagManagerProps]: [consensus/src/dag_manager.rs] ([DM]) and
      [recent_cache.rs] ([RC]): parents looked up in the DAG, the cache and the
      store, insertion and retries while other tasks run, collection.
    - [Engine], [EngineSteps], [EngineProps]: [consensus/src/engine.rs], module
      [Eng], with the messages it sends; [EngineSteps] has what each operation
      preserves, [EngineProps] the runs of operations and the theorems.
    - [FinalityStores]: the stores of anchors ([AS]) and of frames ([CFS]) of
      [storage/src/memory], their traits as classes, and the laws of the stores
      that persistence relies on.
    - [Persistence], [PersistenceProps]: [setu-validator/src/persistence.rs]
      ([FP]) and [consensus_integration.rs] ([CV]): a finalized anchor is written
      step by step; recovery after a restart.
    - [Sync], [SyncProps]: messages, the answers to peers ([SH]), the client
      ([SC]), the router of network events ([MR]) and the catch-up loop ([CU]) of
      [setu-validator/src/network_adapter] and [startup_catchup.rs].
    - [NodeProps]: the node as a whole, a step relation over the operations of
      router, validator and catch-up, and its invariant.
    - [Reservation]: [setu-validator/src/coin_reservation.rs], module [CR].
    - [Governance], [GovernanceInst], [GovernanceProps]:
      [types/src/governance.rs], the crate [setu-governance] and
      [setu-validator/src/governance/executor.rs]; a concrete serialization; the
      theorems, against the specification of the state manager.
    - [GovernanceService], [GovernanceServiceProps]: [governance/service.rs]
      ([GovSvc]), [handler.rs], and the request handlers, the polling task and
      the side effects of [network/service.rs] and [main.rs] ([GovNet]).

    - [Task]: subnet ids ([Subnet]), transfers ([Tr]), payloads, tasks ([ST]),
      read sets, attestations ([Att]) and client nonces ([Nonce]) of
      [types/src/transfer.rs], [types/src/task], [types/src/subnet.rs],
      [types/src/hash_utils.rs] and [setu-validator/src/user_transfer_nonce.rs].
    - [Stf]: inputs, outputs and diffs of the state transition function
      ([crates/setu-enclave/src/stf.rs]), the result of a solver ([Tee],
      [setu-solver/src/tee.rs] and [http_server.rs]) and what the validator makes
      of it ([TX], [setu-validator/src/network/tee_executor.rs]).
    - [Enclave]: the mock enclave ([ME], [crates/setu-enclave/src/mock/mod.rs])
      and the writes of published modules ([Linkage]); whether it was built with
      the feature of the Move virtual machine is a field of its parameter.
      [EnclavePanics] has which executions can panic.
    - [StateProvider]: the trait of the provider, its instance over the Merkle
      state ([MSP], [storage/src/state/provider.rs]) and batch snapshots.
    - [TaskPreparer]: coin selection ([Select]) and the preparation of tasks, one
      at a time ([TP]) or in batches ([BTP]), of
      [setu-validator/src/task_preparer].
    - [SelectProps], [PrepareProps], [EnclaveProps]: the theorems on selection,
      preparation and the enclave; [TransferFlow] has one lemma per stage of a
      transfer, against the laws of the encodings, and [TransferProps] composes
      them with the specification of the state manager.
    - [SolverRouter], [RouterProps]: shards by object ([OSS]) and by subnet
      ([SSR]), the unified router ([UR]), the registry ([Reg]) and the hash ring
      ([CH]) of [crates/setu-router-core/src], and the router manager of a
      validator ([RM], [setu-validator/src/router_manager.rs]).
    - [TransferService]: the guard of reservations ([RG]) and the executor of
      tasks ([TEx]) of [setu-validator/src/network/tee_executor.rs], and the
      handlers of single transfers and batches ([TH],
      [network/transfer_handler.rs]).  [ServiceProps] has the theorems on one
      transfer and on one group of tasks, [BatchProps] those on batches of
      requests, [ServiceWit] a concrete service for both.
    - [Amount], [AmountProps]: decimal amounts ([types/src/amount.rs]).
    - [Keys]: schemes, keys, addresses and signatures of [crates/setu-keys/src].
    - [InfraService]: the registries of a validator ([NW]), the submission of
      events ([EH], [network/event_handler.rs]), the events of registrations,
      profiles and memberships ([IE], [infra_executor.rs]) and the handlers of
      registrations ([RH], [network/registration.rs]).
    - [UserHandler]: the requests of users ([UH], [user_handler.rs]).
      [UserProps] has the theorems on signed transfers, [MemberProps] those on
      memberships, [UserWit] concrete requests.

    The calls between the parts are those of the code: the manager calls the
    builder, the builder the shared state, the router and the state manager,
    the state manager the incremental tree and the store; the engine calls the
    manager, the DAG manager, the validator set and the clock; router, validator
    and catch-up call the engine and persist what it finalized; the governance
    handlers read and stage speculative state and submit events; the executor
    calls the state store through its class, and its theorems hold for both
    stores.

    ** What the theorems show

    - Clocks: [happens_before] decides causality on every execution of nodes
      that tick and exchange snapshots; the order and the merge are the
      pointwise order and its least upper bound.
    - DAG: reachable DAGs are well formed, and acyclic while no id comes back;
      insertion answers on every branch, ancestor search is transitive closure and terminates,
      garbage collection terminates and removes exactly what it may.
    - Runtime: supply is conserved, ownership respected and the reported changes
      replay to the new state; each coin operation's result on every branch.
    - Merkle trees: the incremental tree has the root of the rebuilt tree after
      any run; accepted proofs are true unless the hashed strings collide, and
      exist when they should; persisted changes and leaves restore the tree; the
      binary and the aggregation trees likewise.
    - State: applying events implements a transactional specification, replicas
      agree whatever the order of arrival, a processed anchor is recoverable
      from the store, with every subnet that has objects; what a failed commit
      and a restart lose.
    - Speculation: the overlay is a log of writes, and a read is the newest write
      that was not cleared.
    - Consensus: folded events do not conflict; what a leader prepares and
      commits is what a follower verifies and applies; a follower only accepts
      the root that an anchor declares; quorums intersect outside any third of the validators;
      the manager's tables are consistent in every reachable state; what every
      outcome of a decision does; leader and follower stay replicas through a
      finalized frame.
    - Election: nodes with the same validators agree on every proposer in whatever
      orders their hash maps yield the ids, turns are fair, the weighted choice
      is proportional.
    - DAG manager and event store: insertion is safe under interference and
      always answers, parents stay findable through collection, queries of the
      store are exact.
    - Engine: with enforced signatures a finalized frame was approved by a quorum,
      each member of which other than the node itself signed it; frames are broadcast only after they are persisted; the
      engine's state is consistent in every run; every answer to a frame.
    - Persistence: whatever a node does and wherever it is interrupted, a stored
      anchor has its events; every branch of writing an anchor and of indexing
      frames; recovery gives back what was written.
    - Catch-up: what a peer answers, that the loop ends, and that it succeeds with
      an applier that reports what it applied (the one of the engine does not).
    - Reservation: a coin has one holder at a time; a batch reserves all or
      nothing.
    - Governance: a proposal is decided at most once and keeps its content, as long
      as no system subnet is registered under its id; every
      outcome of a decision; who can register a system subnet; every answer of
      the callback; the path from a request to the state.

    - Transfers: coin selection succeeds whenever the coins can cover the amount
      and picks coins that cover it; the coins of a prepared task are reserved by
      it; the enclave writes only what its task was given or creates, settles the
      amounts of a successful transfer, and a Move call gets only inputs its
      sender may use; a prepared transfer that runs in the enclave and is applied
      moves exactly the amount and conserves the supply; the client nonce of a
      transfer without a merge is used at most once; which executions panic.
    - Submission: a transfer is routed to a solver that serves its subnet, and
      the same one while the candidates stay; solvers that leave do not move the
      keys of the others; a submitted transfer and every request of a batch is
      answered truly, every entry of a group of tasks gets its answer, and no
      coin stays reserved, whatever the solver and the network answer.  The
      conditions are those of [submittable] and [steady]; the lemmas
      [unreadable_coin_stays_reserved], [unknown_solver_keeps_coins] and
      [RouterWit.stale_ring_panics] show what happens without them.
    - Users: amounts are parsed and printed exactly; a transfer is submitted for
      a user only when a key of the address signed it, and a signature is good
      for one transfer; memberships follow the joins and leaves that took effect.

    ** Conventions

    A [u64] is a [Z] with the wrap-around of a release build where the code adds
    without a check ([u64_add], [u64_sub]), and the checked or saturating
    operation where the code calls one; [usize] counters of in-memory lists are
    [nat].  A panic is the outcome [Panic].  A [HashMap] is a [gmap].
    Where the order of its keys reaches a result that nodes compare, the order is
    a parameter (class [KeyOrder] of [Election]); elsewhere loops go over the
    bindings of the [gmap], and the candidates of a subnet are listed in that
    order.
    Wall-clock time is an argument.  Hypotheses [is_u64] bound inputs to their
    type.

    Code outside the repository is a parameter: BLAKE3 is a function from bytes
    to hash values (class [Blake3]) and soundness of proofs assumes that it is
    injective on a listed set of preimages ([collision_free_on], decidable);
    the hex crate, BCS, bincode, JSON, ed25519 and the LRU cache are classes with
    the laws the code relies on; the persistent stores are any instances of
    [B4Store] and of the classes of [FinalityStores]; the transport to peers is a
    function.  The
    witnesses instantiate them with concrete functions.  Where the code waits
    (a lock that is released, a peer, consensus), what other tasks do meanwhile
    is an argument, and the theorems say what they assume of it; tasks that a
    group spawns side by side end in an order that is an argument.

    Recursion that is not structural has fuel.  The work list of the DAG's
    collection and the searches are given fuel from the size of the DAG, and the
    theorems state that a result is returned; tree recursion has fuel 256, one
    level per bit of a key; the loops of the binary tree have fuel the number of
    leaves, which halves at each step.  The catch-up loop has one unit per turn,
    and a theorem gives the turns that its time budget allows.

    ** Not modelled

    The Move virtual machine and the engine that wraps it ([setu-move-vm]) are a
    parameter of the enclave, and the tasks of Move calls, whose inputs are
    resolved for it, are not prepared here.  RocksDB, Nitro, the network, RPC and
    HTTP layers, the curves and the key store, the publication of Move packages,
    the command line and the benchmarks are third-party code or input and
    output; the timing of the collector of batches is not modelled,
    only what it does with the entries it took.  The choice of a solver by load
    compares floating-point ratios.  The root executor keeps a table that no
    other part reads, and the TEE verifier compares attestations of hardware
    with a table.  Logging, metrics and diagnostic probes
    are left out everywhere; locks are left out where an operation holds its lock
    for its whole duration. *)

From Stdlib Require Import ZArith Lia.
From stdpp Require Import base gmap sets list sorting strings numbers.

(** ** Notations *)

Declare Scope setu_scope.
Delimit Scope setu_scope with setu.

(** ** Rust results

    A Rust function that returns [Result<A, E>] and that may also panic has
    three outcomes. *)
Inductive result (E A : Type) : Type :=
| Ok (a : A)
| Err (e : E)
| Panic.

Arguments Ok {E A} a.
Arguments Err {E A} e.
Arguments Panic {E A}.

Definition rbind {E A B : Type} (m : result E A) (k : A → result E B) : result E B :=
  match m with
  | Ok a => k a
  | Err e => Err e
  | Panic => Panic
  end.

(** [ok_or e o]: Rust's [Option::ok_or]. *)
Definition ok_or {E A : Type} (e : E) (o : option A) : result E A :=
  match o with
  | Some a => Ok a
  | None => Err e
  end.

Definition is_ok {E A : Type} (m : result E A) : bool :=
  match m with
  | Ok _ => true
  | _ => false
  end.

(** [let? p := m in k] is Rust's [let p = m?; k]. *)
Notation "'let?' p := m 'in' k" := (rbind m (fun x => match x with p => k end))
  (at level 10, p pattern, m at level 100, k at level 200) : setu_scope.

(** ** State and errors

    A method with [&mut self] that returns [Result<A, E>] threads the state on
    every path, also on the one that returns an error. *)
Definition stm (S E A : Type) : Type := S → S * result E A.

Definition sret {S E A : Type} (a : A) : stm S E A := fun s => (s, Ok a).
Definition sfail {S E A : Type} (e : E) : stm S E A := fun s => (s, Err e).
Definition slift {S E A : Type} (r : result E A) : stm S E A := fun s => (s, r).

Definition sbind {S E A B : Type} (m : stm S E A) (k : A → stm S E B) : stm S E B :=
  fun s =>
    match m s with
    | (s', Ok a) => k a s'
    | (s', Err e) => (s', Err e)
    | (s', Panic) => (s', Panic)
    end.

(** [let! p := m in k] is Rust's [let p = self.m()?; k]. *)
Notation "'let!' p := m 'in' k" := (sbind m (fun x => match x with p => k end))
  (at level 10, p pattern, m at level 100, k at level 200) : setu_scope.

(** [refuse! b with e in k]: [if b { return Err(e) }; k]. *)
Notation "'refuse!' b 'with' e 'in' k" := (if b then sfail e else k)
  (at level 10, b at level 100, e at level 100, k at level 200) : setu_scope.

(** ** Machine integers

    The [u64] and [u128] values of the source are kept as [Z] in
    [0 <= z < 2^w]; [wrap64] is the two's complement wrap of a release build. *)
Definition u64_max : Z := 2 ^ 64 - 1.
Definition u128_max : Z := 2 ^ 128 - 1.
Definition is_u64 (z : Z) : Prop := (0 ≤ z ≤ u64_max)%Z.
Definition wrap64 (z : Z) : Z := z mod 2 ^ 64.
Definition u64_add (a b : Z) : Z := wrap64 (a + b).

(** [checked_add] / [checked_mul] at a width given by its maximum. *)
Definition checked_add (mx a b : Z) : option Z :=
  if (a + b <=? mx)%Z then Some (a + b)%Z else None.
Definition checked_mul (mx a b : Z) : option Z :=
  if (a * b <=? mx)%Z then Some (a * b)%Z else None.
(** [saturating_sub] on an unsigned type. *)
Definition saturating_sub (a b : Z) : Z := Z.max 0 (a - b).
(** [saturating_add] on [u64]. *)
Definition saturating_add64 (a b : Z) : Z := Z.min u64_max (a + b).

#[global] Instance is_u64_dec z : Decision (is_u64 z).
Proof. unfold is_u64; apply _. Defined.

(** ** Sums over finite maps *)

(** [map_sum f m] is the sum of [f k v] over the entries of [m]. *)
Definition map_sum {K V} `{Countable K} (f : K → V → nat) (m : gmap K V) : nat :=
  map_fold (fun k v acc => f k v + acc) 0 m.

(** The same for a [Z]-valued measure. *)
Definition map_sumZ {K V} `{Countable K} (f : K → V → Z) (m : gmap K V) : Z :=
  map_fold (fun k v acc => (f k v + acc)%Z) 0%Z m.

(** ** Tactics *)

(** [simp_res]: discharge the impossible outcomes of a [result] equation. *)
Ltac simp_res :=
  repeat match goal with
  | H : Ok _ = Ok _ |- _ => injection H; clear H; intros; subst
  | H : Err _ = Err _ |- _ => injection H; clear H; intros; subst
  | H : Ok _ = Err _ |- _ => discriminate H
  | H : Err _ = Ok _ |- _ => discriminate H
  | H : Ok _ = Panic |- _ => discriminate H
  | H : Panic = Ok _ |- _ => discriminate H
  | H : Err _ = Panic |- _ => discriminate H
  | H : Panic = Err _ |- _ => discriminate H
  | H : Some _ = Some _ |- _ => injection H; clear H; intros; subst
  | H : Some _ = None |- _ => discriminate H
  | H : None = Some _ |- _ => discriminate H
  | H : (_, _) = (_, _) |- _ => injection H; clear H; intros; subst
  end.

(** [break H]: case split on the scrutinee of a match or if in [H]. *)
Ltac break H :=
  match type of H with
  | context [match ?x with _ => _ end] => destruct x eqn:?
  end; simp_res.

Ltac break_goal :=
  match goal with
  | |- context [match ?x with _ => _ end] => destruct x eqn:?
  end; simp_res.

(** ** Shared lemmas *)

(** Sorting is canonical when the order separates the elements of the list. *)
Lemma merge_sort_unique {A} (R : relation A) `{!RelDecision R, !Transitive R, !Total R} (l l' : list A) :
  (∀ x y, x ∈ l → y ∈ l → R x y → R y x → x = y) → l ≡ₚ l' → merge_sort R l = merge_sort R l'.
Proof.
  intros Hanti Hp.
  apply (StronglySorted_unique_strong R); [|by apply StronglySorted_merge_sort..|].
  - intros x y Hx Hy. rewrite merge_sort_Permutation in Hx, Hy. rewrite <-Hp in Hy. by apply Hanti.
  - by rewrite !merge_sort_Permutation.
Qed.

Section MapSum.
Context {K V : Type} `{Countable K}.
Implicit Types (m : gmap K V) (f : K → V → nat).

Lemma map_sum_empty f : map_sum f ∅ = 0.
Proof. apply map_fold_empty. Qed.

Lemma map_sum_insert f m k v :
  m !! k = None → map_sum f (<[k:=v]> m) = f k v + map_sum f m.
Proof.
  intros Hk. unfold map_sum. rewrite map_fold_insert_L; [done| |done].
  intros; lia.
Qed.

Lemma map_sum_delete f m k v :
  m !! k = Some v → map_sum f m = f k v + map_sum f (delete k m).
Proof.
  intros Hk. rewrite <-(map_sum_insert f (delete k m) k v) by apply lookup_delete_eq.
  by rewrite insert_delete_id.
Qed.

Lemma map_sum_ext f g m :
  (∀ k v, m !! k = Some v → f k v = g k v) → map_sum f m = map_sum g m.
Proof.
  induction m as [|k v m Hk IH] using map_ind; intros Hfg; [done|].
  rewrite !map_sum_insert by done. rewrite IH.
  - rewrite (Hfg k v); [done|apply lookup_insert_eq].
  - intros k' v' Hk'. apply Hfg. rewrite lookup_insert_ne; [done|congruence].
Qed.

Implicit Types (g : K → V → Z).

Lemma map_sumZ_empty g : map_sumZ g ∅ = 0%Z.
Proof. apply map_fold_empty. Qed.

Lemma map_sumZ_insert g m k v :
  m !! k = None → map_sumZ g (<[k:=v]> m) = (g k v + map_sumZ g m)%Z.
Proof.
  intros Hk. unfold map_sumZ. rewrite map_fold_insert_L; [done| |done].
  intros; lia.
Qed.

Lemma map_sumZ_delete g m k v :
  m !! k = Some v → map_sumZ g m = (g k v + map_sumZ g (delete k m))%Z.
Proof.
  intros Hk. rewrite <-(map_sumZ_insert g (delete k m) k v) by apply lookup_delete_eq.
  by rewrite insert_delete_id.
Qed.

(** Overwriting an entry moves the sum by the difference of its terms. *)
Lemma map_sumZ_update g m k v v' :
  m !! k = Some v → map_sumZ g (<[k:=v']> m) = (map_sumZ g m - g k v + g k v')%Z.
Proof.
  intros Hk. rewrite <-insert_delete_eq.
  rewrite map_sumZ_insert by apply lookup_delete_eq.
  rewrite (map_sumZ_delete g m k v Hk). lia.
Qed.
End MapSum.

Lemma list_filter_id {A} (P : A → Prop) `{!∀ x, Decision (P x)} (l : list A) :
  (∀ x, x ∈ l → P x) → filter P l = l.
Proof.
  induction l as [|x l IH]; intros Hl; [done|].
  rewrite filter_cons_True by (apply Hl; set_solver). f_equal. apply IH. set_solver.
Qed.

Lemma list_filter_fmap {A B} (f : A → B) (P : B → Prop) `{!∀ x, Decision (P x)} (l : list A) :
  filter P (f <$> l) = f <$> filter (fun x => P (f x)) l.
Proof.
  induction l as [|x l IH]; [done|]. rewrite fmap_cons, !filter_cons, IH. by case_decide.
Qed.

Section Integers.
Open Scope Z_scope.

Lemma wrap64_small z : is_u64 z → wrap64 z = z.
Proof. unfold is_u64, wrap64, u64_max. intros. apply Z.mod_small. lia. Qed.

Lemma wrap64_range z : is_u64 (wrap64 z).
Proof.
  unfold is_u64, wrap64, u64_max. pose proof (Z.mod_pos_bound z (2^64)). lia.
Qed.

Lemma checked_add_Some mx a b c :
  checked_add mx a b = Some c ↔ c = a + b ∧ a + b <= mx.
Proof. unfold checked_add. destruct (Z.leb_spec (a + b) mx); split; intros; simp_res; try lia; intuition congruence || lia. Qed.

Lemma checked_mul_Some mx a b c :
  checked_mul mx a b = Some c ↔ c = a * b ∧ a * b <= mx.
Proof. unfold checked_mul. destruct (Z.leb_spec (a * b) mx); split; intros; simp_res; try lia; intuition congruence || lia. Qed.
End Integers.

Create HintDb setu discriminated.
#[export] Hint Resolve wrap64_small wrap64_range : setu.
