(* ===== verification/Vlc.v ===== *)
(** * Vector logical clocks

    [crates/setu-vlc/src/lib.rs] ([VectorClock], [VLCSnapshot]) and the
    node-local wrapper [consensus/src/vlc.rs] ([VLC]).

    A clock is a finite map from node ids to [u64] counters.  The wall clock
    [SystemTime::now()] that the source reads is the argument [now] of each
    operation that stamps [physical_time].  Counters use the wrapping [u64]
    addition of a release build. *)

From Stdlib Require Import ZArith Lia.
From stdpp Require Import base gmap sets list strings numbers.
From S2P Require Import Prelude.
Open Scope Z_scope.

(** ** Data *)

Record VectorClock := mkVectorClock { clocks : gmap string Z }.

Record VLCSnapshot := mkVLCSnapshot {
  vector_clock : VectorClock;
  logical_time : Z;
  physical_time : Z
}.

#[global] Instance VectorClock_eq_dec : EqDecision VectorClock.
Proof. solve_decision. Defined.

#[global] Instance VLCSnapshot_eq_dec : EqDecision VLCSnapshot.
Proof. solve_decision. Defined.

(** Every counter is a [u64]. *)
Definition vc_wf (vc : VectorClock) : Prop :=
  map_Forall (fun _ t => is_u64 t) (clocks vc).

#[global] Instance vc_wf_dec vc : Decision (vc_wf vc).
Proof. unfold vc_wf; apply _. Defined.

(** ** Operations of [VectorClock] *)
Module VC.

Definition new : VectorClock := mkVectorClock ∅.

Definition with_node (node_id : string) : VectorClock :=
  mkVectorClock (<[node_id := 0]> (clocks new)).

Definition get (self : VectorClock) (node_id : string) : Z :=
  default 0 (clocks self !! node_id).

(** [entry(node).or_insert(0)], then [*entry += 1]; returns the new value. *)
Definition increment (self : VectorClock) (node_id : string) : VectorClock * Z :=
  let entry := default 0 (clocks self !! node_id) in
  let entry' := u64_add entry 1 in
  (mkVectorClock (<[node_id := entry']> (clocks self)), entry').

Definition set (self : VectorClock) (node_id : string) (value : Z) : VectorClock :=
  mkVectorClock (<[node_id := value]> (clocks self)).

(** The body of [merge]'s loop over the entries of [other]. *)
Definition merge_entry (node_id : string) (time : Z) (acc : gmap string Z) : gmap string Z :=
  let entry := default 0 (acc !! node_id) in
  <[node_id := Z.max entry time]> acc.

Definition merge (self other : VectorClock) : VectorClock :=
  mkVectorClock (map_fold merge_entry (clocks self) (clocks other)).

(** First loop of [happens_before]: over the nodes of [self].  [None] is the
    early [return false]; [Some b] carries [strictly_less]. *)
Fixpoint hb_self_loop (entries : list (string * Z)) (other : VectorClock)
    (strictly_less : bool) : option bool :=
  match entries with
  | [] => Some strictly_less
  | (node_id, self_time) :: rest =>
      let other_time := get other node_id in
      if other_time <? self_time then None
      else if self_time <? other_time then hb_self_loop rest other true
      else hb_self_loop rest other strictly_less
  end.

(** Second loop: nodes of [other] that [self] does not have. *)
Fixpoint hb_other_loop (entries : list (string * Z)) (self : VectorClock)
    (strictly_less : bool) : bool :=
  match entries with
  | [] => strictly_less
  | (node_id, other_time) :: rest =>
      if negb (bool_decide (is_Some (clocks self !! node_id))) && (0 <? other_time)
      then hb_other_loop rest self true
      else hb_other_loop rest self strictly_less
  end.

Definition happens_before (self other : VectorClock) : bool :=
  match hb_self_loop (map_to_list (clocks self)) other false with
  | None => false
  | Some strictly_less =>
      hb_other_loop (map_to_list (clocks other)) self strictly_less
  end.

Definition is_concurrent (self other : VectorClock) : bool :=
  negb (happens_before self other) && negb (happens_before other self)
    && negb (bool_decide (self = other)).

Definition len (self : VectorClock) : nat := size (clocks self).

Definition is_empty (self : VectorClock) : bool := bool_decide (clocks self = ∅).

Definition remove_node (self : VectorClock) (node_id : string) : VectorClock * option Z :=
  (mkVectorClock (delete node_id (clocks self)), clocks self !! node_id).

Definition reset_node (self : VectorClock) (node_id : string) : VectorClock :=
  if bool_decide (is_Some (clocks self !! node_id))
  then mkVectorClock (<[node_id := 0]> (clocks self))
  else self.

Definition gc_zero_nodes (self : VectorClock) : VectorClock * nat :=
  let before := size (clocks self) in
  let clocks' := filter (fun kv : string * Z => 0 < kv.2) (clocks self) in
  (mkVectorClock clocks', (before - size clocks')%nat).

Definition retain_active_nodes (self : VectorClock) (active_nodes : list string)
    : VectorClock * nat :=
  let before := size (clocks self) in
  let active_set : gset string := list_to_set active_nodes in
  let clocks' := filter (fun kv : string * Z => kv.1 ∈ active_set) (clocks self) in
  (mkVectorClock clocks', (before - size clocks')%nat).

End VC.

(** ** Operations of [VLCSnapshot] *)
Module Snap.

Definition new (now : Z) : VLCSnapshot := mkVLCSnapshot VC.new 0 now.

Definition new_with_clock (vc : VectorClock) (now : Z) : VLCSnapshot :=
  mkVLCSnapshot vc 0 now.

Definition for_node (node_id : string) (now : Z) : VLCSnapshot :=
  mkVLCSnapshot (VC.with_node node_id) 0 now.

Definition increment (self : VLCSnapshot) (node_id : string) (now : Z) : VLCSnapshot :=
  mkVLCSnapshot (VC.increment (vector_clock self) node_id).1
    (u64_add (logical_time self) 1) now.

Definition receive (self other : VLCSnapshot) (local_node_id : string) (now : Z)
    : VLCSnapshot :=
  let merged := VC.merge (vector_clock self) (vector_clock other) in
  let lt := u64_add (Z.max (logical_time self) (logical_time other)) 1 in
  mkVLCSnapshot (VC.increment merged local_node_id).1 lt now.

Definition happens_before (self other : VLCSnapshot) : bool :=
  if VC.happens_before (vector_clock self) (vector_clock other) then true
  else if bool_decide (vector_clock self = vector_clock other)
  then logical_time self <? logical_time other
  else false.

Definition is_concurrent (self other : VLCSnapshot) : bool :=
  VC.is_concurrent (vector_clock self) (vector_clock other).

Definition gc_inactive_nodes (self : VLCSnapshot) (active_nodes : list string)
    : VLCSnapshot * nat :=
  let '(vc, removed) := VC.retain_active_nodes (vector_clock self) active_nodes in
  (mkVLCSnapshot vc (logical_time self) (physical_time self), removed).

End Snap.

(** ** The node-local clock [VLC] *)
Record VLC := mkVLC { node_id : string; snapshot : VLCSnapshot }.

Module Node.

Definition new (id : string) (now : Z) : VLC := mkVLC id (Snap.for_node id now).

Definition tick (self : VLC) (now : Z) : VLC :=
  mkVLC (node_id self) (Snap.increment (snapshot self) (node_id self) now).

Definition merge (self : VLC) (other : VLCSnapshot) (now : Z) : VLC :=
  mkVLC (node_id self) (Snap.receive (snapshot self) other (node_id self) now).

Definition get_clock (self : VLC) (n : string) : Z :=
  VC.get (vector_clock (snapshot self)) n.

Definition happens_before (self : VLC) (other : VLCSnapshot) : bool :=
  Snap.happens_before (snapshot self) other.

Definition gc_inactive_nodes (self : VLC) (active_nodes : list string) : VLC * nat :=
  let '(s, removed) := Snap.gc_inactive_nodes (snapshot self) active_nodes in
  (mkVLC (node_id self) s, removed).

Definition restore_from_snapshot (self : VLC) (s : VLCSnapshot) : VLC :=
  mkVLC (node_id self) s.

End Node.

(** ** Specification: the pointwise order on clocks *)

(** [vc_le a b]: every component of [a] is at most that of [b]; an absent
    component counts as 0. *)
Definition vc_le (a b : VectorClock) : Prop := ∀ n, VC.get a n ≤ VC.get b n.
Definition vc_lt (a b : VectorClock) : Prop :=
  vc_le a b ∧ ∃ n, VC.get a n < VC.get b n.

(** Clocks that agree on every component; coarser than equality, because an
    entry may be present with the value 0. *)
#[global] Instance vc_equiv : Equiv VectorClock := fun a b => ∀ n, VC.get a n = VC.get b n.

(** ** Lemmas *)

#[global] Instance vc_equiv_equivalence : Equivalence (≡@{VectorClock}).
Proof.
  unfold equiv, vc_equiv. split.
  - intros a n. done.
  - intros a b Hab n. by rewrite Hab.
  - intros a b c Hab Hbc n. by rewrite Hab.
Qed.

Lemma vc_get_nonneg vc n : vc_wf vc → 0 ≤ VC.get vc n.
Proof.
  intros Hwf. unfold VC.get. destruct (clocks vc !! n) as [t|] eqn:E; simpl; [|lia].
  apply Hwf in E. unfold is_u64 in E. lia.
Qed.

Lemma vc_get_u64 vc n : vc_wf vc → is_u64 (VC.get vc n).
Proof.
  intros Hwf. unfold VC.get. destruct (clocks vc !! n) as [t|] eqn:E; simpl.
  - by apply Hwf in E.
  - unfold is_u64, u64_max. lia.
Qed.

Lemma hb_self_loop_spec entries other s :
  VC.hb_self_loop entries other s =
    if forallb (fun kv => kv.2 <=? VC.get other kv.1) entries
    then Some (s || existsb (fun kv => kv.2 <? VC.get other kv.1) entries)
    else None.
Proof.
  revert s; induction entries as [|[k t] es IH]; intros s; simpl.
  { by rewrite orb_false_r. }
  destruct (Z.ltb_spec (VC.get other k) t) as [H1|H1].
  - by destruct (Z.leb_spec t (VC.get other k)); [lia|].
  - destruct (Z.leb_spec t (VC.get other k)); [|lia]. simpl.
    destruct (Z.ltb_spec t (VC.get other k)); rewrite IH; simpl.
    + by rewrite orb_true_r.
    + done.
Qed.

Lemma hb_other_loop_spec entries self s :
  VC.hb_other_loop entries self s =
    s || existsb (fun kv => negb (bool_decide (is_Some (clocks self !! kv.1)))
                            && (0 <? kv.2)) entries.
Proof.
  revert s; induction entries as [|[k t] es IH]; intros s; cbn [VC.hb_other_loop existsb fst snd].
  { by rewrite orb_false_r. }
  rewrite !IH. destruct (negb _ && _); [|done].
  by rewrite orb_true_l, orb_true_r.
Qed.

(** The boolean test decides the strict pointwise order. *)
Lemma happens_before_iff a b :
  vc_wf a → vc_wf b → VC.happens_before a b = true ↔ vc_lt a b.
Proof.
  intros Ha Hb. unfold VC.happens_before. rewrite hb_self_loop_spec.
  assert (Hget : ∀ k t, clocks a !! k = Some t → VC.get a k = t).
  { intros k t E. unfold VC.get. by rewrite E. }
  destruct (forallb _ _) eqn:Hall; rewrite ?hb_other_loop_spec.
  - rewrite forallb_forall in Hall.
    assert (Hle : vc_le a b).
    { intros n. destruct (clocks a !! n) as [t|] eqn:E.
      - rewrite (Hget n t E). apply Z.leb_le.
        apply (Hall (n, t)). apply list_elem_of_In, elem_of_map_to_list. done.
      - unfold VC.get at 1. rewrite E. by apply vc_get_nonneg. }
    rewrite !orb_false_l, orb_true_iff, !existsb_exists. split.
    + intros [((k, t) & Hin & Hlt)|((k, t) & Hin & Hlt)]; (split; [done|]; exists k);
        apply list_elem_of_In, elem_of_map_to_list in Hin; simpl in *.
      * rewrite (Hget k t Hin). lia.
      * apply andb_true_iff in Hlt as [Hnot Hpos].
        unfold VC.get. rewrite Hin. destruct (clocks a !! k); [|simpl; lia].
        by rewrite bool_decide_eq_true_2 in Hnot.
    + intros [_ [n Hn]]. destruct (clocks a !! n) as [t|] eqn:E.
      * left. exists (n, t). rewrite <-list_elem_of_In, elem_of_map_to_list. split; [done|].
        rewrite (Hget n t E) in Hn. simpl. lia.
      * right. unfold VC.get at 1 in Hn. rewrite E in Hn. simpl in Hn.
        unfold VC.get in Hn. destruct (clocks b !! n) as [t|] eqn:E'; simpl in Hn; [|lia].
        exists (n, t). rewrite <-list_elem_of_In, elem_of_map_to_list. split; [done|].
        simpl. rewrite E. simpl. lia.
  - split; [done|]. intros [Hle _]. exfalso.
    apply not_true_iff_false in Hall. apply Hall, forallb_forall.
    intros [k t] Hin. apply list_elem_of_In, elem_of_map_to_list in Hin. simpl.
    apply Z.leb_le. rewrite <-(Hget k t Hin). apply Hle.
Qed.

Lemma merge_entry_comm j1 j2 z1 z2 y :
  j1 ≠ j2 →
  VC.merge_entry j1 z1 (VC.merge_entry j2 z2 y) = VC.merge_entry j2 z2 (VC.merge_entry j1 z1 y).
Proof.
  intros Hne. unfold VC.merge_entry.
  rewrite !lookup_insert_ne by done. by rewrite insert_insert_ne.
Qed.

Lemma merge_fold_lookup m acc n :
  map_fold VC.merge_entry acc m !! n =
    match m !! n with
    | Some t => Some (Z.max (default 0 (acc !! n)) t)
    | None => acc !! n
    end.
Proof.
  induction m as [|k t m Hk IH] using map_ind.
  { by rewrite map_fold_empty, lookup_empty. }
  rewrite map_fold_insert_L; [|intros; by apply merge_entry_comm|done].
  unfold VC.merge_entry at 1. destruct (decide (k = n)) as [->|Hne].
  - rewrite !lookup_insert_eq, IH, Hk. done.
  - rewrite !lookup_insert_ne by done. apply IH.
Qed.

Lemma merge_get a b n :
  vc_wf a → vc_wf b → VC.get (VC.merge a b) n = Z.max (VC.get a n) (VC.get b n).
Proof.
  intros Ha Hb. pose proof (vc_get_nonneg a n Ha) as Hn. unfold VC.get in *. simpl.
  rewrite merge_fold_lookup. destruct (clocks b !! n) as [t|] eqn:E; simpl; lia.
Qed.

Lemma merge_wf a b : vc_wf a → vc_wf b → vc_wf (VC.merge a b).
Proof.
  intros Ha Hb n t. simpl. rewrite merge_fold_lookup.
  pose proof (vc_get_u64 a n Ha) as Hu. unfold VC.get in Hu.
  destruct (clocks b !! n) as [t'|] eqn:E; intros ?; simplify_eq/=.
  - apply Hb in E. unfold is_u64 in *. lia.
  - by apply (Ha n).
Qed.

Lemma increment_get vc n m :
  VC.get (VC.increment vc n).1 m =
    if decide (n = m) then u64_add (VC.get vc n) 1 else VC.get vc m.
Proof.
  unfold VC.get, VC.increment. simpl. rewrite lookup_insert. by case_decide.
Qed.

Lemma increment_wf vc n : vc_wf vc → vc_wf (VC.increment vc n).1.
Proof.
  intros Hwf m t. simpl. rewrite lookup_insert. case_decide; intros ?; simplify_eq.
  - apply wrap64_range.
  - by apply (Hwf m).
Qed.

Lemma with_node_get n m : VC.get (VC.with_node n) m = 0.
Proof. unfold VC.get. simpl. rewrite lookup_insert. by case_decide. Qed.

Lemma with_node_wf n : vc_wf (VC.with_node n).
Proof.
  intros m t. simpl. rewrite lookup_insert. case_decide; intros ?; simplify_eq.
  unfold is_u64, u64_max. lia.
Qed.

Lemma gc_zero_nodes_get vc n : vc_wf vc → VC.get (VC.gc_zero_nodes vc).1 n = VC.get vc n.
Proof.
  intros Hwf. unfold VC.get. simpl. rewrite map_lookup_filter.
  destruct (clocks vc !! n) as [t|] eqn:E; simpl; [|done].
  apply Hwf in E. unfold is_u64 in E.
  destruct (decide (0 < t)); [by rewrite option_guard_True|].
  rewrite option_guard_False by done. simpl. lia.
Qed.

Lemma gc_zero_nodes_wf vc : vc_wf vc → vc_wf (VC.gc_zero_nodes vc).1.
Proof.
  intros Hwf n t. simpl. intros [E _]%map_lookup_filter_Some. by apply (Hwf n).
Qed.

#[export] Hint Resolve merge_wf increment_wf with_node_wf gc_zero_nodes_wf : setu.

Lemma vc_lt_proper a b a' b' : a ≡ a' → b ≡ b' → vc_lt a b → vc_lt a' b'.
Proof.
  intros Ha Hb [Hle [n Hn]]. split.
  - intros m. rewrite <-(Ha m), <-(Hb m). apply Hle.
  - exists n. by rewrite <-(Ha n), <-(Hb n).
Qed.

#[global] Instance vc_lt_Proper : Proper ((≡) ==> (≡) ==> iff) vc_lt.
Proof.
  intros a a' Ha b b' Hb. split; intros H.
  - by apply (vc_lt_proper a b).
  - by apply (vc_lt_proper a' b').
Qed.

Lemma vc_lt_trans a b c : vc_lt a b → vc_lt b c → vc_lt a c.
Proof.
  intros [Hab [n Hn]] [Hbc _]. split.
  - intros m. etrans; [apply Hab|apply Hbc].
  - exists n. specialize (Hbc n). lia.
Qed.

Lemma vc_lt_irrefl a : ¬ vc_lt a a.
Proof. intros [_ [n Hn]]. lia. Qed.

(** ** Executions of a set of nodes that exchange snapshots *)

(** An event of an execution: the node it happens on, the snapshot the node's
    clock has just after it, and, for a receive, the index of the event whose
    snapshot was received. *)
Record ev := mkEv { ev_node : string; ev_snap : VLCSnapshot; ev_msg : option nat }.

Inductive action :=
| ATick (n : string)
| ARecv (n : string) (i : nat).

Section Execution.
(** The wall clock, read once per event. *)
Variable wall : nat → Z.

Definition sys : Type := gmap string VLC * list ev.

Definition node_of (nodes : gmap string VLC) (n : string) : VLC :=
  default (Node.new n (wall 0)) (nodes !! n).

Definition record (s : sys) (n : string) (v : VLC) (msg : option nat) : sys :=
  (<[n := v]> s.1, s.2 ++ [mkEv n (snapshot v) msg]).

Definition sys_step (s : sys) (a : action) : sys :=
  match a with
  | ATick n => record s n (Node.tick (node_of s.1 n) (wall (length s.2))) None
  | ARecv n i =>
      match s.2 !! i with
      | Some e => record s n (Node.merge (node_of s.1 n) (ev_snap e) (wall (length s.2))) (Some i)
      | None => s
      end
  end.

Definition sys_run (acts : list action) : sys := foldl sys_step (∅, []) acts.

(** Direct precedence: program order on one node, or a message. *)
Definition direct (log : list ev) (i j : nat) : Prop :=
  ∃ ei ej, log !! i = Some ei ∧ log !! j = Some ej ∧
    (ev_msg ej = Some i ∨ ((i < j)%nat ∧ ev_node ei = ev_node ej)).

(** Causal precedence is its transitive closure. *)
Definition causal (log : list ev) : nat → nat → Prop := tc (direct log).

(** *** The invariant of an execution *)

Definition snap_ok (bound : nat) (s : VLCSnapshot) : Prop :=
  vc_wf (vector_clock s) ∧
  (∀ m, VC.get (vector_clock s) m ≤ Z.of_nat bound) ∧
  0 ≤ logical_time s ≤ Z.of_nat bound.

Definition vcof (e : ev) : VectorClock := vector_clock (ev_snap e).

Record sys_inv (s : sys) : Prop := mkInv {
  inv_cur : ∀ n, node_id (node_of s.1 n) = n ∧
    snap_ok (length s.2) (snapshot (node_of s.1 n));
  inv_last : ∀ n,
    (∀ m, VC.get (vector_clock (snapshot (node_of s.1 n))) m = 0) ∧
      (∀ i e, s.2 !! i = Some e → ev_node e ≠ n)
    ∨ ∃ l e, s.2 !! l = Some e ∧ ev_node e = n ∧
        ev_snap e = snapshot (node_of s.1 n) ∧
        (∀ i e', s.2 !! i = Some e' → ev_node e' = n → (i ≤ l)%nat);
  inv_ev : ∀ j e, s.2 !! j = Some e →
    snap_ok (length s.2) (ev_snap e) ∧ (∀ i, ev_msg e = Some i → (i < j)%nat);
  inv_lt : ∀ i j ei ej, s.2 !! i = Some ei → s.2 !! j = Some ej → direct s.2 i j →
    vc_lt (vcof ei) (vcof ej) ∧ VC.get (vcof ei) (ev_node ej) < VC.get (vcof ej) (ev_node ej)
    ∧ logical_time (ev_snap ei) < logical_time (ev_snap ej);
  inv_past : ∀ j e m, s.2 !! j = Some e → 0 < VC.get (vcof e) m →
    ∃ i ei, s.2 !! i = Some ei ∧ ev_node ei = m ∧
      VC.get (vcof ei) m = VC.get (vcof e) m ∧ (i = j ∨ causal s.2 i j)
}.

Lemma direct_lt (log : list ev) i j :
  (∀ j e, log !! j = Some e → ∀ i, ev_msg e = Some i → (i < j)%nat) →
  direct log i j → (i < j)%nat.
Proof. intros Hm (ei & ej & _ & Hj & [Hmsg|[? _]]); eauto. Qed.

Lemma direct_app_l (log : list ev) e i j : direct log i j → direct (log ++ [e]) i j.
Proof.
  intros (ei & ej & Hi & Hj & H). exists ei, ej.
  rewrite !lookup_app_l by (eapply lookup_lt_Some; eauto). done.
Qed.

Lemma causal_app_l (log : list ev) e i j : causal log i j → causal (log ++ [e]) i j.
Proof.
  unfold causal. induction 1 as [x y H|x y z H ? IH].
  - by apply tc_once, direct_app_l.
  - eapply tc_l; [by apply direct_app_l|done].
Qed.

Lemma direct_app_inv (log : list ev) e i j :
  (∀ k, ev_msg e = Some k → (k < length log)%nat) →
  direct (log ++ [e]) i j → (j < length log)%nat →
  (∀ j e, log !! j = Some e → ∀ i, ev_msg e = Some i → (i < j)%nat) →
  direct log i j.
Proof.
  intros He (ei & ej & Hi & Hj & H) Hlt Hm.
  rewrite lookup_app_l in Hj by done.
  assert ((i < length log)%nat) as Hil.
  { destruct H as [H|[H _]]; [|lia]. specialize (Hm _ _ Hj _ H). lia. }
  rewrite lookup_app_l in Hi by done. by exists ei, ej.
Qed.

(** The clock of the event that a step records, in terms of the clock [cur]
    of the node and the received clock [oth] (the zero clock for a tick). *)
Definition fresh_clock (n : string) (cur oth : VLCSnapshot) (new : VLCSnapshot) : Prop :=
  vc_wf (vector_clock new) ∧
  (∀ m, VC.get (vector_clock new) m =
     Z.max (VC.get (vector_clock cur) m) (VC.get (vector_clock oth) m) +
     (if decide (n = m) then 1 else 0)) ∧
  logical_time new = Z.max (logical_time cur) (logical_time oth) + 1.

Lemma tick_fresh v b now :
  Z.of_nat b < u64_max → snap_ok b (snapshot v) →
  fresh_clock (node_id v) (snapshot v) (mkVLCSnapshot VC.new 0 0)
    (snapshot (Node.tick v now)).
Proof.
  intros Hb (Hwf & Hle & Hlt). split; [by apply increment_wf|]. split.
  - intros m. cbn [snapshot Node.tick Snap.increment vector_clock]. rewrite increment_get.
    pose proof (vc_get_nonneg _ m Hwf). pose proof (Hle m). pose proof (Hle (node_id v)).
    pose proof (vc_get_nonneg _ (node_id v) Hwf).
    change (VC.get VC.new m) with 0.
    case_decide as E; [subst m|lia].
    unfold u64_add. rewrite wrap64_small; unfold is_u64, u64_max in *; lia.
  - cbn [snapshot Node.tick Snap.increment logical_time].
    unfold u64_add. rewrite wrap64_small; unfold is_u64, u64_max in *; lia.
Qed.

Lemma recv_fresh v oth b now :
  Z.of_nat b < u64_max → snap_ok b (snapshot v) → snap_ok b oth →
  fresh_clock (node_id v) (snapshot v) oth (snapshot (Node.merge v oth now)).
Proof.
  intros Hb (Hwf & Hle & Hlt) (Hwf' & Hle' & Hlt').
  split; [by apply increment_wf, merge_wf|]. split.
  - intros m. cbn [snapshot Node.merge Snap.receive vector_clock].
    rewrite increment_get, !merge_get by done.
    pose proof (vc_get_nonneg _ m Hwf). pose proof (Hle m).
    pose proof (vc_get_nonneg _ m Hwf'). pose proof (Hle' m).
    case_decide as E; [subst m|lia].
    unfold u64_add. rewrite wrap64_small; unfold is_u64, u64_max in *; lia.
  - cbn [snapshot Node.merge Snap.receive logical_time].
    unfold u64_add. rewrite wrap64_small; unfold is_u64, u64_max in *; lia.
Qed.

Lemma fresh_above n cur oth new :
  fresh_clock n cur oth new →
  (∀ a, vc_le a (vector_clock cur) ∨ vc_le a (vector_clock oth) →
     vc_lt a (vector_clock new) ∧ VC.get a n < VC.get (vector_clock new) n).
Proof.
  intros (_ & Hget & _) a Ha.
  assert (VC.get a n < VC.get (vector_clock new) n) as Hn.
  { rewrite Hget, decide_True by done. destruct Ha as [Ha|Ha]; specialize (Ha n); lia. }
  split; [|done]. split; [|by exists n].
  intros m. rewrite Hget. case_decide; destruct Ha as [Ha|Ha]; specialize (Ha m); lia.
Qed.

Lemma node_of_insert nodes n v m :
  node_of (<[n:=v]> nodes) m = if decide (n = m) then v else node_of nodes m.
Proof. unfold node_of. rewrite lookup_insert. by case_decide. Qed.

Lemma snap_ok_mono b b' s : (b ≤ b')%nat → snap_ok b s → snap_ok b' s.
Proof.
  intros Hb (? & Hle & ?). split; [done|]. split; [|lia].
  intros m. specialize (Hle m). lia.
Qed.

Lemma fresh_snap_ok n cur oth new b :
  snap_ok b cur → snap_ok b oth → fresh_clock n cur oth new → snap_ok (S b) new.
Proof.
  intros (_ & H1 & H2) (_ & H3 & H4) (Hwf & Hget & Hl). split; [done|]. split; [|lia].
  intros m. rewrite Hget. specialize (H1 m). specialize (H3 m). case_decide; lia.
Qed.

Lemma zero_snap_ok b : snap_ok b (mkVLCSnapshot VC.new 0 0).
Proof.
  split; [by intros ? ? ?|]. split; [|simpl; lia]. intros m.
  change (VC.get _ m) with 0. lia.
Qed.

Lemma sys_inv_init : sys_inv (∅, []).
Proof.
  assert (∀ n, node_of ∅ n = Node.new n (wall 0)) as Hn.
  { intros n. unfold node_of. by rewrite lookup_empty. }
  split; simpl; intros *; rewrite ?Hn; try (rewrite lookup_nil; done).
  - split; [done|]. simpl. split; [apply with_node_wf|]. split; [|simpl; lia].
    intros m. simpl. rewrite with_node_get. lia.
  - left. split; [intros; apply with_node_get|]. intros i e. by rewrite lookup_nil.
Qed.

(** A node's clock dominates every event recorded on the node. *)
Lemma past_le_cur s n i e :
  sys_inv s → s.2 !! i = Some e → ev_node e = n →
  vc_le (vcof e) (vector_clock (snapshot (node_of s.1 n))) ∧
  logical_time (ev_snap e) ≤ logical_time (snapshot (node_of s.1 n)).
Proof.
  intros Hinv Hi Hn. destruct (inv_last s Hinv n) as [[_ Hno]|(l & el & Hl & Hln & Hls & Hmax)].
  { by destruct (Hno i e Hi). }
  rewrite <-Hls. specialize (Hmax i e Hi Hn).
  destruct (decide (i = l)) as [->|Hne].
  - replace e with el by congruence. split; [by intros m|lia].
  - destruct (inv_lt s Hinv i l e el Hi Hl) as ([Hle _] & _ & Hlt).
    { exists e, el. split_and!; [done..|]. right. split; [lia|congruence]. }
    split; [done|lia].
Qed.

(** The other clock of a step: that of the received event, zero for a tick. *)
Definition oth_of (s : sys) (msg : option nat) (oth : VLCSnapshot) : Prop :=
  match msg with
  | None => oth = mkVLCSnapshot VC.new 0 0
  | Some i => ∃ e, s.2 !! i = Some e ∧ ev_snap e = oth
  end.

Section Record.
Context (s : sys) (n : string) (v' : VLC) (msg : option nat) (oth : VLCSnapshot).
Context (Hinv : sys_inv s) (Hoth : oth_of s msg oth).
Context (Hfresh : fresh_clock n (snapshot (node_of s.1 n)) oth (snapshot v')).
#[local] Abbreviation new := (mkEv n (snapshot v') msg).
#[local] Abbreviation log' := (s.2 ++ [mkEv n (snapshot v') msg]).

Lemma log'_cases j e :
  log' !! j = Some e → s.2 !! j = Some e ∨ (j = length s.2 ∧ e = new).
Proof.
  intros [H|[Hl H]]%lookup_app_Some; [by left|right].
  destruct (j - length s.2)%nat eqn:E; simplify_eq/=. split; [lia|done].
Qed.

Lemma log'_old j e : s.2 !! j = Some e → log' !! j = Some e.
Proof. intros H. rewrite lookup_app_l; [done|by eapply lookup_lt_Some]. Qed.

Lemma log'_new : log' !! length s.2 = Some new.
Proof. by rewrite list_lookup_middle. Qed.

Lemma msg_old k : msg = Some k → (k < length s.2)%nat.
Proof.
  intros ->. destruct Hoth as (e & He & _). by eapply lookup_lt_Some.
Qed.

Lemma record_lt i j ei ej :
  log' !! i = Some ei → log' !! j = Some ej → direct log' i j →
  vc_lt (vcof ei) (vcof ej) ∧ VC.get (vcof ei) (ev_node ej) < VC.get (vcof ej) (ev_node ej)
  ∧ logical_time (ev_snap ei) < logical_time (ev_snap ej).
Proof.
  intros Hi Hj Hd. pose proof Hfresh as (_ & _ & Hlog).
  destruct (log'_cases j ej Hj) as [Hj'|[-> ->]].
  - assert (direct s.2 i j) as Hd'.
    { eapply direct_app_inv; [|exact Hd| |].
      - intros k Hk. by apply msg_old.
      - by eapply lookup_lt_Some.
      - intros ?? H. by apply (inv_ev s Hinv _ _ H). }
    destruct Hd' as (ei' & ej' & Hi' & Hj'' & H).
    replace ei' with ei in * by (apply log'_old in Hi'; congruence).
    eapply (inv_lt s Hinv i j); [done..|]. by exists ei, ej'.
  - destruct Hd as (ei' & ej' & Hi' & Hj' & Hor).
    rewrite log'_new in Hj'. simplify_eq. simpl in Hor.
    assert (s.2 !! i = Some ei) as Hold.
    { destruct (log'_cases i ei Hi) as [|[-> _]]; [done|].
      destruct Hor as [Hm|[? _]]; [|lia]. apply msg_old in Hm. lia. }
    destruct Hor as [Hm|[_ Hn]].
    + assert (ev_snap ei = oth) as Ho.
      { unfold oth_of in Hoth. rewrite Hm in Hoth. destruct Hoth as (e & He & <-). congruence. }
      destruct (fresh_above _ _ _ _ Hfresh (vcof ei)) as [H1 H2].
      { right. unfold vcof. rewrite Ho. by intros m. }
      split_and!; [done..|]. simpl. rewrite Ho, Hlog. lia.
    + destruct (past_le_cur s n i ei Hinv Hold Hn) as [Hle Hll].
      destruct (fresh_above _ _ _ _ Hfresh (vcof ei)) as [H1 H2]; [by left|].
      split_and!; [done..|]. simpl. rewrite Hlog. lia.
Qed.

(** An event that precedes, or is, a direct predecessor of the new event. *)
Lemma causal_to_new i k :
  (i = k ∨ causal s.2 i k) → direct log' k (length s.2) → causal log' i (length s.2).
Proof.
  intros [->|H] Hd; [by apply tc_once|].
  eapply tc_r; [by apply causal_app_l|done].
Qed.

Lemma record_past j e m :
  log' !! j = Some e → 0 < VC.get (vcof e) m →
  ∃ i ei, log' !! i = Some ei ∧ ev_node ei = m ∧
    VC.get (vcof ei) m = VC.get (vcof e) m ∧ (i = j ∨ causal log' i j).
Proof.
  intros Hj Hpos. destruct (log'_cases j e Hj) as [Hj'|[-> ->]].
  { destruct (inv_past s Hinv j e m Hj' Hpos) as (i & ei & Hi & Hn & Hg & Hc).
    exists i, ei. split_and!; [by apply log'_old|done..|].
    destruct Hc; [by left|right; by apply causal_app_l]. }
  destruct (decide (n = m)) as [Hnm|Hne].
  { exists (length s.2), new. split_and!; [by apply log'_new|done..|by left]. }
  pose proof Hfresh as (_ & Hget & _).
  unfold vcof in Hpos. simpl in Hpos. rewrite Hget, decide_False, Z.add_0_r in Hpos by done.
  assert (VC.get (vcof new) m =
    Z.max (VC.get (vector_clock (snapshot (node_of s.1 n))) m) (VC.get (vector_clock oth) m)) as ->.
  { unfold vcof. simpl. rewrite Hget, decide_False by done. lia. }
  destruct (Z.max_spec (VC.get (vector_clock (snapshot (node_of s.1 n))) m)
              (VC.get (vector_clock oth) m)) as [[Hc Hmx]|[Hc Hmx]]; rewrite Hmx in *.
  - assert (∃ k ek, msg = Some k ∧ s.2 !! k = Some ek ∧ ev_snap ek = oth)
      as (k & ek & Em & Hk & Eo).
    { unfold oth_of in Hoth. destruct msg as [k|]; [|subst oth; by cbv in Hpos].
      destruct Hoth as (ek & ? & ?). by exists k, ek. }
    rewrite <-Eo in *.
    destruct (inv_past s Hinv k ek m Hk Hpos) as (i & ei & Hi & Hn & Hg & Hca).
    exists i, ei. split_and!; [by apply log'_old|done..|]. right.
    apply (causal_to_new i k Hca). exists ek, new.
    split_and!; [by apply log'_old|by apply log'_new|]. by left.
  - destruct (inv_last s Hinv n) as [[Hz _]|(l & el & Hl & Hln & Hls & _)].
    { rewrite Hz in Hpos. lia. }
    rewrite <-Hls in *.
    destruct (inv_past s Hinv l el m Hl Hpos) as (i & ei & Hi & Hn & Hg & Hca).
    exists i, ei. split_and!; [by apply log'_old|done..|]. right.
    apply (causal_to_new i l Hca). exists el, new.
    split_and!; [by apply log'_old|by apply log'_new|]. right. simpl.
    split; [by eapply lookup_lt_Some|done].
Qed.

Lemma record_last m :
  (∀ k, VC.get (vector_clock (snapshot (node_of (<[n:=v']> s.1) m))) k = 0) ∧
    (∀ i e, log' !! i = Some e → ev_node e ≠ m)
  ∨ ∃ l e, log' !! l = Some e ∧ ev_node e = m ∧
      ev_snap e = snapshot (node_of (<[n:=v']> s.1) m) ∧
      (∀ i e', log' !! i = Some e' → ev_node e' = m → (i ≤ l)%nat).
Proof.
  rewrite node_of_insert. case_decide as E; [subst m|].
  - right. exists (length s.2), new. split_and!; [by apply log'_new|done..|].
    intros i e Hi _. apply lookup_lt_Some in Hi.
    rewrite length_app in Hi. simpl in Hi. lia.
  - destruct (inv_last s Hinv m) as [[Hz Hno]|(l & el & Hl & Hln & Hls & Hmax)].
    + left. split; [done|]. intros i e [Hi|[_ ->]]%log'_cases; [by eapply Hno|done].
    + right. exists l, el. split_and!; [by apply log'_old|done..|].
      intros i e [Hi|[_ ->]]%log'_cases Hn; [by eapply Hmax|done].
Qed.

Lemma record_inv : node_id v' = n → sys_inv (record s n v' msg).
Proof.
  intros Hid. unfold record.
  assert (length log' = S (length s.2)) as Hlen.
  { rewrite length_app. simpl. lia. }
  assert (snap_ok (length s.2) oth) as Hook.
  { unfold oth_of in Hoth. destruct msg; [|subst; apply zero_snap_ok].
    destruct Hoth as (e & He & <-). by apply (inv_ev s Hinv _ _ He). }
  assert (snap_ok (S (length s.2)) (snapshot v')) as Hnew.
  { eapply fresh_snap_ok; [apply (inv_cur s Hinv n)|done|done]. }
  split; simpl; rewrite ?Hlen.
  - intros m. rewrite node_of_insert. case_decide as E; [by subst m|].
    destruct (inv_cur s Hinv m) as [? ?]. split; [done|]. eapply snap_ok_mono; [|done]. lia.
  - apply record_last.
  - intros j e [Hj|[-> ->]]%log'_cases.
    + destruct (inv_ev s Hinv j e Hj) as [? ?]. split; [|done].
      eapply snap_ok_mono; [|done]. lia.
    + split; [done|]. intros k Hk. by apply msg_old.
  - apply record_lt.
  - apply record_past.
Qed.
End Record.

Lemma sys_step_inv s a :
  Z.of_nat (length s.2) < u64_max → sys_inv s → sys_inv (sys_step s a).
Proof.
  intros Hb Hinv. destruct a as [n|n i]; simpl.
  - destruct (inv_cur s Hinv n) as [Hid Hok].
    apply (record_inv s n _ None (mkVLCSnapshot VC.new 0 0) Hinv); [done| |done].
    rewrite <-Hid at 1. by eapply tick_fresh.
  - destruct (s.2 !! i) as [e|] eqn:Hi; [|done].
    destruct (inv_cur s Hinv n) as [Hid Hok].
    apply (record_inv s n _ (Some i) (ev_snap e) Hinv); [by exists e| |done].
    rewrite <-Hid at 1. eapply recv_fresh; [done..|]. by apply (inv_ev s Hinv _ _ Hi).
Qed.

Lemma sys_step_length s a : (length (sys_step s a).2 ≤ S (length s.2))%nat.
Proof.
  destruct a as [n|n i]; simpl.
  - rewrite length_app. simpl. lia.
  - destruct (s.2 !! i); simpl; rewrite ?length_app; simpl; lia.
Qed.

Lemma sys_run_inv acts : Z.of_nat (length acts) < u64_max → sys_inv (sys_run acts).
Proof.
  unfold sys_run. intros Hb.
  assert (∀ s, sys_inv s → Z.of_nat (length s.2 + length acts) < u64_max →
    sys_inv (foldl sys_step s acts)) as H.
  { clear Hb. induction acts as [|a acts IH]; intros s Hs Hb; [done|]. simpl in *.
    pose proof (sys_step_length s a). apply IH; [apply sys_step_inv; [lia|done]|lia]. }
  apply H; [apply sys_inv_init|simpl; lia].
Qed.

Lemma causal_lt s i j ei ej :
  sys_inv s → s.2 !! i = Some ei → s.2 !! j = Some ej → causal s.2 i j →
  vc_lt (vcof ei) (vcof ej) ∧ logical_time (ev_snap ei) < logical_time (ev_snap ej).
Proof.
  intros Hinv Hi Hj Hc. revert ei Hi. induction Hc as [i j Hd|i k j Hd Hc IH]; intros ei Hi.
  - destruct (inv_lt s Hinv i j ei ej Hi Hj Hd) as (? & _ & ?). done.
  - pose proof Hd as (ei' & ek & Hi' & Hk & _).
    destruct (inv_lt s Hinv i k ei ek Hi Hk Hd) as (H1 & _ & H2).
    destruct (IH Hj ek Hk) as [H3 H4]. split; [by eapply vc_lt_trans|lia].
Qed.

(** An event whose own component is known to [j] is [j] or precedes it. *)
Lemma known_precedes s i j ei ej :
  sys_inv s → s.2 !! i = Some ei → s.2 !! j = Some ej →
  0 < VC.get (vcof ei) (ev_node ei) →
  VC.get (vcof ei) (ev_node ei) ≤ VC.get (vcof ej) (ev_node ei) →
  i = j ∨ causal s.2 i j.
Proof.
  intros Hinv Hi Hj Hpos Hle.
  destruct (inv_past s Hinv j ej (ev_node ei) Hj) as (k & ek & Hk & Hn & Hg & Hc); [lia|].
  destruct (decide (i = k)) as [->|Hne]; [done|].
  destruct (Nat.lt_total i k) as [Hlt|[?|Hgt]]; [|done|].
  - right. assert (direct s.2 i k) as Hd.
    { exists ei, ek. split_and!; [done..|]. right. by split. }
    destruct Hc as [->|Hc]; [by apply tc_once|by eapply tc_l].
  - assert (direct s.2 k i) as Hd.
    { exists ek, ei. split_and!; [done..|]. right. by split. }
    destruct (inv_lt s Hinv k i ek ei Hk Hi Hd) as (_ & H & _). lia.
Qed.
End Execution.

(** ** Properties *)

Lemma happens_before_equal_snap s i j ei ej (wall : nat → Z) :
  sys_inv wall s → s.2 !! i = Some ei → s.2 !! j = Some ej →
  vcof ei = vcof ej → 0 < VC.get (vcof ei) (ev_node ei) → 0 < VC.get (vcof ej) (ev_node ej) →
  i = j.
Proof.
  intros Hinv Hi Hj Heq Hpi Hpj.
  destruct (known_precedes wall s i j ei ej Hinv Hi Hj Hpi) as [->|Hc]; [by rewrite Heq|done|].
  destruct (causal_lt wall s i j ei ej Hinv Hi Hj Hc) as [Hlt _].
  rewrite Heq in Hlt. by apply vc_lt_irrefl in Hlt.
Qed.

(** Every event of an execution has a positive count on its own node. *)
Lemma own_component_pos wall acts i e :
  Z.of_nat (length acts) < u64_max →
  (sys_run wall acts).2 !! i = Some e → 0 < VC.get (vcof e) (ev_node e).
Proof.
  unfold sys_run. intros Hb.
  assert (∀ s, sys_inv wall s →
    (∀ i e, s.2 !! i = Some e → 0 < VC.get (vcof e) (ev_node e)) →
    Z.of_nat (length s.2 + length acts) < u64_max →
    ∀ i e, (foldl (sys_step wall) s acts).2 !! i = Some e → 0 < VC.get (vcof e) (ev_node e)) as H;
    [|apply H; [apply sys_inv_init|intros ?? Hl; simpl in Hl; by rewrite lookup_nil in Hl|simpl; lia]].
  clear Hb i e. induction acts as [|a acts IH]; intros s Hs Hp Hb; [done|]. simpl in *.
  pose proof (sys_step_length wall s a).
  apply IH; [apply sys_step_inv; [lia|done]| |lia].
  intros i e Hi. destruct a as [n|n k]; simpl in Hi.
  - apply lookup_app_Some in Hi as [Hi|[_ Hi]]; [by eapply Hp|].
    apply list_lookup_singleton_Some in Hi as [_ <-].
    destruct (inv_cur wall s Hs n) as [Hid Hok].
    destruct (tick_fresh (node_of wall s.1 n) (length s.2) (wall (length s.2))) as (_ & Hg & _);
      [lia|done|]. unfold vcof. cbn [ev_snap ev_node]. rewrite Hg, Hid, decide_True by done.
    pose proof (vc_get_nonneg _ n (proj1 Hok)). lia.
  - destruct (s.2 !! k) as [ek|] eqn:Hk; [|by eapply Hp]. simpl in Hi.
    apply lookup_app_Some in Hi as [Hi|[_ Hi]]; [by eapply Hp|].
    apply list_lookup_singleton_Some in Hi as [_ <-].
    destruct (inv_cur wall s Hs n) as [Hid Hok].
    destruct (inv_ev wall s Hs k ek Hk) as [Hok' _].
    destruct (recv_fresh (node_of wall s.1 n) (ev_snap ek) (length s.2) (wall (length s.2)))
      as (_ & Hg & _); [lia|done|done|].
    unfold vcof. cbn [ev_snap ev_node]. rewrite Hg, Hid, decide_True by done.
    pose proof (vc_get_nonneg _ n (proj1 Hok)). lia.
Qed.

(** C9: the clock condition.  In every execution of any number of nodes that
    tick and exchange snapshots (fewer than [u64::MAX] steps, so that no
    counter wraps), [VLCSnapshot::happens_before] holds between the snapshots
    of two events exactly when the first causally precedes the second, and
    then the logical time grows strictly. *)
Theorem vlc_happens_before_iff_causal (wall : nat → Z) (acts : list action)
    (i j : nat) (ei ej : ev)
    (Hbound : Z.of_nat (length acts) < u64_max)
    (Hi : (sys_run wall acts).2 !! i = Some ei)
    (Hj : (sys_run wall acts).2 !! j = Some ej) :
  (Snap.happens_before (ev_snap ei) (ev_snap ej) = true ↔
     causal (sys_run wall acts).2 i j) ∧
  (causal (sys_run wall acts).2 i j →
     logical_time (ev_snap ei) < logical_time (ev_snap ej)).
Proof.
  pose proof (sys_run_inv wall acts Hbound) as Hinv.
  pose proof (own_component_pos wall acts i ei Hbound Hi) as Hpi.
  pose proof (own_component_pos wall acts j ej Hbound Hj) as Hpj.
  destruct (inv_ev wall _ Hinv i ei Hi) as [(Hwi & _) _].
  destruct (inv_ev wall _ Hinv j ej Hj) as [(Hwj & _) _].
  split; [|intros Hc; by apply (causal_lt wall _ i j ei ej Hinv Hi Hj Hc)].
  unfold Snap.happens_before. split.
  - destruct (VC.happens_before _ _) eqn:Hhb; intros Hb.
    + apply happens_before_iff in Hhb; [|done..]. destruct Hhb as [Hle Hlt].
      destruct (known_precedes wall _ i j ei ej Hinv Hi Hj Hpi (Hle _)) as [->|]; [|done].
      simplify_eq. destruct Hlt. lia.
    + case_bool_decide as Heq; [|done].
      assert (i = j) as ->
        by (eapply happens_before_equal_snap; [exact Hinv|exact Hi|exact Hj|done..]).
      simplify_eq. lia.
  - intros Hc. destruct (causal_lt wall _ i j ei ej Hinv Hi Hj Hc) as [Hlt _].
    apply happens_before_iff in Hlt; [|done..]. unfold vcof in Hlt. by rewrite Hlt.
Qed.

Definition wit_acts : list action := [ATick "a"; ARecv "b" 0; ATick "c"; ATick "b"].

Definition wit_ev (i : nat) : ev :=
  default (mkEv "" (Snap.new 0) None) ((sys_run (fun _ => 0) wit_acts).2 !! i).

Lemma vlc_happens_before_iff_causal_witness :
  Snap.happens_before (ev_snap (wit_ev 0)) (ev_snap (wit_ev 3)) = true ↔
  causal (sys_run (fun _ => 0) wit_acts).2 0 3.
Proof.
  refine (proj1 (vlc_happens_before_iff_causal (fun _ => 0) wit_acts 0 3
    (wit_ev 0) (wit_ev 3) _ _ _)); vm_compute; reflexivity.
Defined.

(** [happens_before] decides the strict pointwise order on clocks, and
    for any two clocks exactly one of the following holds: the first happens
    before the second, the second before the first, they are equal, or they
    are concurrent. *)
Theorem vc_happens_before_spec (a b : VectorClock) (Ha : vc_wf a) (Hb : vc_wf b) :
  (VC.happens_before a b = true ↔ vc_lt a b) ∧
  (VC.happens_before a b = true → VC.happens_before b a = false ∧ a ≠ b) ∧
  (VC.is_concurrent a b = true ↔
     VC.happens_before a b = false ∧ VC.happens_before b a = false ∧ a ≠ b).
Proof.
  split; [by apply happens_before_iff|]. split.
  - intros Hab. apply happens_before_iff in Hab; [|done..]. split.
    + apply not_true_iff_false. intros Hba. apply happens_before_iff in Hba; [|done..].
      by apply (vc_lt_irrefl a), (vc_lt_trans a b a).
    + intros ->. by apply vc_lt_irrefl in Hab.
  - unfold VC.is_concurrent. rewrite !andb_true_iff, !negb_true_iff, bool_decide_eq_false.
    tauto.
Qed.

Lemma vc_happens_before_spec_witness :
  VC.happens_before (VC.with_node "a") (VC.set VC.new "a" 3) = true ↔
  vc_lt (VC.with_node "a") (VC.set VC.new "a" 3).
Proof.
  refine (proj1 (vc_happens_before_spec _ _ _ _)).
  - apply (bool_decide_unpack _). vm_compute. exact I.
  - apply (bool_decide_unpack _). vm_compute. exact I.
Defined.

(** Merging two clocks gives their least upper bound in the pointwise
    order (so merging is commutative, associative and idempotent up to the
    clock's components), and dropping zero entries with [gc_zero_nodes] does
    not change any [happens_before] answer. *)
Theorem vc_merge_lub (a b : VectorClock) (Ha : vc_wf a) (Hb : vc_wf b) :
  vc_wf (VC.merge a b) ∧ vc_le a (VC.merge a b) ∧ vc_le b (VC.merge a b) ∧
  (∀ c, vc_le a c → vc_le b c → vc_le (VC.merge a b) c) ∧
  (∀ c, vc_wf c →
     VC.happens_before (VC.gc_zero_nodes a).1 c = VC.happens_before a c ∧
     VC.happens_before c (VC.gc_zero_nodes a).1 = VC.happens_before c a).
Proof.
  split; [by apply merge_wf|]. split_and!.
  - intros n. rewrite merge_get by done. lia.
  - intros n. rewrite merge_get by done. lia.
  - intros c Hac Hbc n. rewrite merge_get by done. specialize (Hac n). specialize (Hbc n). lia.
  - intros c Hc.
    assert ((VC.gc_zero_nodes a).1 ≡ a) as He by (intros n; by apply gc_zero_nodes_get).
    split; apply eq_true_iff_eq; rewrite !happens_before_iff by auto with setu; by rewrite He.
Qed.

Lemma vc_merge_lub_witness :
  vc_le (VC.with_node "a") (VC.merge (VC.with_node "a") (VC.set VC.new "b" 7)).
Proof.
  refine (proj1 (proj2 (vc_merge_lub _ _ _ _))).
  - apply (bool_decide_unpack _). vm_compute. exact I.
  - apply (bool_decide_unpack _). vm_compute. exact I.
Defined.
