(* ===== verification/Hash.v ===== *)
(** * Bytes and hash values

    [crates/setu-merkle/src/hash.rs].  A [u8] is a [Byte.byte]; a [HashValue]
    is an array of exactly 32 of them.  BLAKE3 (the [blake3] crate) is not
    part of the repository: it is the operation of the class [Blake3], an
    argument of every definition that hashes. *)

From Stdlib Require Import ZArith Lia NArith Strings.Byte.
From stdpp Require Import base gmap sets list strings numbers countable.
From S2P Require Import Prelude.

Abbreviation bytes := (list byte).

#[global] Instance byte_eq_dec : EqDecision byte := Byte.byte_eq_dec.
#[global] Instance byte_countable : Countable byte :=
  inj_countable Byte.to_N Byte.of_N Byte.of_to_N.

Definition HASH_LENGTH : nat := 32.

(** [HashValue([u8; HASH_LENGTH])]. *)
Record HashValue := mkHash {
  hv_bytes : bytes;
  hv_len : bool_decide (length hv_bytes = HASH_LENGTH) = true
}.

Lemma HashValue_eq (h1 h2 : HashValue) : hv_bytes h1 = hv_bytes h2 → h1 = h2.
Proof.
  destruct h1 as [b1 p1], h2 as [b2 p2]. simpl. intros ->. f_equal. apply proof_irrel.
Qed.

#[global] Instance HashValue_eq_dec : EqDecision HashValue.
Proof.
  intros h1 h2. destruct (decide (hv_bytes h1 = hv_bytes h2)) as [E|E].
  - left. by apply HashValue_eq.
  - right. congruence.
Defined.

Definition hash_of_bytes (b : bytes) : option HashValue :=
  match decide (bool_decide (length b = HASH_LENGTH) = true) with
  | left p => Some (mkHash b p)
  | right _ => None
  end.

Lemma hash_of_hv_bytes h : hash_of_bytes (hv_bytes h) = Some h.
Proof.
  unfold hash_of_bytes. destruct (decide _) as [p|n]; [|by destruct n, h].
  f_equal. by apply HashValue_eq.
Qed.

#[global] Instance HashValue_countable : Countable HashValue :=
  inj_countable hv_bytes hash_of_bytes hash_of_hv_bytes.

Inductive MerkleError :=
| InvalidProof (msg : string)
| IndexOutOfBounds (index sz : nat)
| InvalidHashLength (expected got : nat)
| KeyNotFound
| EmptyTree
| MSerializationError (msg : string)
| StorageError (msg : string)
| InvalidInput (msg : string)
| DeserializationError (msg : string)
| ConsistencyError (msg : string).

(** [HashValue::ZERO]. *)
Definition zero_hash : HashValue := mkHash (replicate 32 Byte.x00) eq_refl.

Module HV.

Definition from_slice (b : bytes) : result MerkleError HashValue :=
  match hash_of_bytes b with
  | Some h => Ok h
  | None => Err (InvalidHashLength HASH_LENGTH (length b))
  end.

Definition is_zero (h : HashValue) : bool := bool_decide (hv_bytes h = hv_bytes zero_hash).

(** The byte at an index, as an integer. *)
Definition byte_at (h : HashValue) (i : nat) : Z :=
  Z.of_N (Byte.to_N (nth i (hv_bytes h) Byte.x00)).

(** [bit(index)]: index 0 is the most significant bit; [None] is the failed
    [assert!]. *)
Definition bit_opt (h : HashValue) (index : nat) : option bool :=
  if (index <? HASH_LENGTH * 8)%nat then
    let byte := byte_at h (index / 8) in
    let bit_pos := (7 - index mod 8)%nat in
    Some (Z.land (Z.shiftr byte (Z.of_nat bit_pos)) 1 =? 1)%Z
  else None.

(** [bit] for an index known to be in range. *)
Definition bit (h : HashValue) (index : nat) : bool := default false (bit_opt h index).

(** [u8::leading_zeros]. *)
Definition leading_zeros8 (x : Z) : nat :=
  if (x =? 0)%Z then 8 else (7 - Z.to_nat (Z.log2 x))%nat.

(** [common_prefix_bits]: the loop over the 32 byte pairs. *)
Fixpoint cpb_loop (i : nat) (a b : bytes) : nat :=
  match a, b with
  | x :: a', y :: b' =>
      if bool_decide (x = y) then cpb_loop (S i) a' b'
      else
        let xor := Z.lxor (Z.of_N (Byte.to_N x)) (Z.of_N (Byte.to_N y)) in
        (i * 8 + leading_zeros8 xor)%nat
  | _, _ => (HASH_LENGTH * 8)%nat
  end.

Definition common_prefix_bits (self other : HashValue) : nat :=
  cpb_loop 0 (hv_bytes self) (hv_bytes other).

(** The derived [Ord]: lexicographic on the bytes. *)
Fixpoint bytes_leb (a b : bytes) : bool :=
  match a, b with
  | [], _ => true
  | _ :: _, [] => false
  | x :: a', y :: b' =>
      if (Byte.to_N x <? Byte.to_N y)%N then true
      else if (Byte.to_N y <? Byte.to_N x)%N then false
      else bytes_leb a' b'
  end.

Definition leb (a b : HashValue) : bool := bytes_leb (hv_bytes a) (hv_bytes b).

End HV.

(** ** BLAKE3 and the domain-separated hashes *)

(** The [blake3] crate: a function from byte strings to 32-byte digests. *)
Class Blake3 := blake3 : bytes → HashValue.

(** The digests are pairwise distinct on the inputs of [dom]. *)
Definition collision_free_on `{Blake3} (dom : list bytes) : Prop :=
  ∀ x y, x ∈ dom → y ∈ dom → blake3 x = blake3 y → x = y.

#[global] Instance collision_free_on_dec `{Blake3} dom : Decision (collision_free_on dom).
Proof.
  destruct (decide (NoDup (blake3 <$> remove_dups dom))) as [Hnd|Hno].
  - left. intros x y Hx Hy E. rewrite <-elem_of_remove_dups in Hx, Hy.
    apply list_elem_of_lookup in Hx as [i Hi], Hy as [j Hj].
    assert (i = j) as ->; [|congruence].
    apply (NoDup_lookup _ _ _ (blake3 x) Hnd); rewrite list_lookup_fmap, ?Hi, ?Hj; simpl; congruence.
  - right. intros Hc. apply Hno. apply NoDup_fmap_2_strong; [|apply NoDup_remove_dups].
    intros x y Hx Hy. rewrite elem_of_remove_dups in Hx, Hy. by apply Hc.
Defined.

(** The same of a predicate. *)
Definition collision_free `{Blake3} (U : bytes → Prop) : Prop :=
  ∀ x y, U x → U y → blake3 x = blake3 y → x = y.

Definition prefix_LEAF : bytes := [Byte.x00].
Definition prefix_INTERNAL : bytes := [Byte.x01].
Definition prefix_SPARSE_LEAF : bytes := [Byte.x02].
Definition prefix_SPARSE_INTERNAL : bytes := [Byte.x03].

Section Hashing.
Context `{Blake3}.

Definition blake3_hash (data : bytes) : HashValue := blake3 data.
Definition blake3_with_prefix (prefix data : bytes) : HashValue := blake3 (prefix ++ data).

(** The strings hashed for each kind of node. *)
Definition leaf_preimage (data : bytes) : bytes := prefix_LEAF ++ data.
Definition internal_preimage (left right : HashValue) : bytes :=
  prefix_INTERNAL ++ hv_bytes left ++ hv_bytes right.
Definition sparse_leaf_preimage (key value_hash : HashValue) : bytes :=
  prefix_SPARSE_LEAF ++ hv_bytes key ++ hv_bytes value_hash.
Definition sparse_internal_preimage (left right : HashValue) : bytes :=
  prefix_SPARSE_INTERNAL ++ hv_bytes left ++ hv_bytes right.

Definition hash_leaf (data : bytes) : HashValue := blake3_with_prefix prefix_LEAF data.
Definition hash_internal (left right : HashValue) : HashValue :=
  blake3 (internal_preimage left right).
Definition hash_sparse_leaf (key value_hash : HashValue) : HashValue :=
  blake3 (sparse_leaf_preimage key value_hash).
Definition hash_sparse_internal (left right : HashValue) : HashValue :=
  blake3 (sparse_internal_preimage left right).
Definition hash_value (value : bytes) : HashValue := blake3_hash value.
End Hashing.

(** ** Encodings shared by the users of the hash *)

(** [str::as_bytes]. *)
Definition as_bytes (s : string) : bytes := String.list_byte_of_string s.

Definition byte_of_Z (z : Z) : byte :=
  default Byte.x00 (Byte.of_N (Z.to_N (z mod 256))).

(** [to_le_bytes] of a [w]-byte integer. *)
Fixpoint to_le_bytes (w : nat) (z : Z) : bytes :=
  match w with
  | O => []
  | S w' => byte_of_Z z :: to_le_bytes w' (z / 256)
  end.

(** [to_be_bytes]. *)
Definition to_be_bytes (w : nat) (z : Z) : bytes := reverse (to_le_bytes w z).

(** A concrete instance for examples: a polynomial digest modulo 2^61 - 1. *)
Definition toy_modulus : Z := Eval vm_compute in (2 ^ 61 - 1)%Z.

Definition toy_digest (data : bytes) : Z :=
  foldl (fun acc b => (acc * 1000003 + Z.of_N (Byte.to_N b) + 1) mod toy_modulus)%Z
    7%Z data.

Lemma to_le_bytes_length w z : length (to_le_bytes w z) = w.
Proof. revert z; induction w as [|w IH]; intros z; simpl; [done|]. by rewrite IH. Qed.

Definition toy_blake3 : Blake3 :=
  fun data => mkHash (to_le_bytes 32 (toy_digest data))
    (bool_decide_eq_true_2 _ (to_le_bytes_length 32 (toy_digest data))).

(** ** Lemmas: bits *)

(** Bit [i] of a byte string, most significant bit first. *)
Definition bitl (l : bytes) (i : nat) : bool :=
  Z.testbit (Z.of_N (Byte.to_N (nth (i / 8) l Byte.x00))) (Z.of_nat (7 - i mod 8)).

Lemma byte_range b : (0 ≤ Z.of_N (Byte.to_N b) < 256)%Z.
Proof. pose proof (Byte.to_N_bounded b). lia. Qed.

Lemma byte_Z_inj b1 b2 : Z.of_N (Byte.to_N b1) = Z.of_N (Byte.to_N b2) → b1 = b2.
Proof.
  intros E. apply N2Z.inj in E. pose proof (Byte.of_to_N b1) as H1.
  rewrite E, Byte.of_to_N in H1. by inversion H1.
Qed.

Lemma land_1_testbit z p :
  (0 ≤ p)%Z → (Z.land (Z.shiftr z p) 1 =? 1)%Z = Z.testbit z p.
Proof.
  intros Hp. change 1%Z with (Z.ones 1) at 1. rewrite Z.land_ones by lia.
  change (2 ^ 1)%Z with 2%Z. rewrite <-Z.bit0_mod, Z.shiftr_spec by lia.
  rewrite Z.add_0_l. by destruct (Z.testbit z p).
Qed.

Lemma bit_bitl h i : i < 256 → HV.bit h i = bitl (hv_bytes h) i.
Proof.
  intros Hi. unfold HV.bit, HV.bit_opt.
  replace (i <? HASH_LENGTH * 8) with true by (symmetry; by apply Nat.ltb_lt).
  simpl default. apply land_1_testbit. lia.
Qed.

Lemma bitl_cons_lo x l j : j < 8 → bitl (x :: l) j = Z.testbit (Z.of_N (Byte.to_N x)) (Z.of_nat (7 - j)).
Proof. intros Hj. unfold bitl. by rewrite Nat.div_small, Nat.mod_small by done. Qed.

Lemma bitl_cons_hi x l j : bitl (x :: l) (8 + j) = bitl l j.
Proof.
  unfold bitl. replace (8 + j) with (j + 1 * 8) by lia.
  rewrite Nat.div_add, Nat.Div0.mod_add by lia.
  by replace (j / 8 + 1) with (S (j / 8)) by lia.
Qed.

Lemma byte_ext x y :
  (∀ j, j < 8 → Z.testbit (Z.of_N (Byte.to_N x)) (Z.of_nat (7 - j)) =
                Z.testbit (Z.of_N (Byte.to_N y)) (Z.of_nat (7 - j))) → x = y.
Proof.
  intros Hb. apply byte_Z_inj, Z.bits_inj'. intros n Hn.
  destruct (decide (n < 8)%Z) as [Hlt|Hge].
  - specialize (Hb (7 - Z.to_nat n) ltac:(lia)).
    by replace (Z.of_nat (7 - (7 - Z.to_nat n))) with n in Hb by lia.
  - pose proof (byte_range x). pose proof (byte_range y).
    assert (∀ z, (0 ≤ z < 256)%Z → Z.testbit z n = false) as Hz.
    { intros z Hr. destruct (decide (z = 0)%Z) as [->|Hz0]; [apply Z.bits_0|].
      apply Z.bits_above_log2; [lia|]. apply Z.log2_lt_pow2; [lia|].
      pose proof (Z.pow_le_mono_r 2 8 n). lia. }
    by rewrite !Hz.
Qed.

Lemma bitl_ext l1 l2 :
  length l1 = length l2 → (∀ i, i < 8 * length l1 → bitl l1 i = bitl l2 i) → l1 = l2.
Proof.
  revert l2; induction l1 as [|x l1 IH]; intros [|y l2] Hlen Hb; simplify_eq/=; [done|].
  f_equal.
  - apply byte_ext. intros j Hj. specialize (Hb j ltac:(lia)).
    by rewrite !bitl_cons_lo in Hb.
  - apply IH; [done|]. intros i Hi. specialize (Hb (8 + i) ltac:(lia)).
    by rewrite !bitl_cons_hi in Hb.
Qed.

Lemma hv_length h : length (hv_bytes h) = 32.
Proof. destruct h as [b p]. exact (bool_decide_eq_true_1 _ p). Qed.

Lemma bit_ext h1 h2 : (∀ i, i < 256 → HV.bit h1 i = HV.bit h2 i) → h1 = h2.
Proof.
  intros Hb. apply HashValue_eq, bitl_ext; rewrite !hv_length; [done|].
  intros i Hi. rewrite <-!bit_bitl by lia. apply Hb. lia.
Qed.

(** Two different bytes agree above the leading one of their xor and differ there. *)
Lemma byte_xor_split x y :
  x ≠ y → let c := HV.leading_zeros8 (Z.lxor (Z.of_N (Byte.to_N x)) (Z.of_N (Byte.to_N y))) in
  c < 8 ∧
  (∀ j, j < c → Z.testbit (Z.of_N (Byte.to_N x)) (Z.of_nat (7 - j)) =
                Z.testbit (Z.of_N (Byte.to_N y)) (Z.of_nat (7 - j))) ∧
  Z.testbit (Z.of_N (Byte.to_N x)) (Z.of_nat (7 - c)) ≠
  Z.testbit (Z.of_N (Byte.to_N y)) (Z.of_nat (7 - c)).
Proof.
  intros Hne. set (a := Z.of_N (Byte.to_N x)). set (b := Z.of_N (Byte.to_N y)).
  pose proof (byte_range x) as Hx. pose proof (byte_range y) as Hy. fold a in Hx. fold b in Hy.
  assert (Hz : Z.lxor a b ≠ 0%Z).
  { intros E. apply Z.lxor_eq in E. destruct Hne. exact (byte_Z_inj x y E). }
  assert (Hpos : (0 < Z.lxor a b)%Z).
  { pose proof (proj2 (Z.lxor_nonneg a b)). lia. }
  assert (HL : (0 ≤ Z.log2 (Z.lxor a b) ≤ 7)%Z).
  { split; [apply Z.log2_nonneg|]. etrans; [apply Z.log2_lxor; lia|].
    assert (∀ z, (0 ≤ z < 256)%Z → (Z.log2 z ≤ 7)%Z) as H7.
    { intros z Hr. change 7%Z with (Z.log2 255). apply Z.log2_le_mono. lia. }
    apply Z.max_lub; by apply H7. }
  unfold HV.leading_zeros8. replace (Z.lxor a b =? 0)%Z with false by lia. simpl.
  split; [lia|]. split.
  - intros j Hj. pose proof (Z.bits_above_log2 (Z.lxor a b) (Z.of_nat (7 - j))) as Hab.
    rewrite Z.lxor_spec in Hab. apply xorb_eq. apply Hab; lia.
  - replace (Z.of_nat (7 - (7 - Z.to_nat (Z.log2 (Z.lxor a b))))) with (Z.log2 (Z.lxor a b)) by lia.
    pose proof (Z.bit_log2 (Z.lxor a b) Hpos) as Hbit. rewrite Z.lxor_spec in Hbit.
    intros E. rewrite E, xorb_nilpotent in Hbit. done.
Qed.

Lemma cpb_loop_spec k a b :
  length a = length b → k + length a = 32 →
  8 * k ≤ HV.cpb_loop k a b ≤ 256 ∧
  (∀ j, 8 * k + j < HV.cpb_loop k a b → bitl a j = bitl b j) ∧
  (a ≠ b → HV.cpb_loop k a b < 256 ∧
     bitl a (HV.cpb_loop k a b - 8 * k) ≠ bitl b (HV.cpb_loop k a b - 8 * k)).
Proof.
  revert k b; induction a as [|x a IH]; intros k [|y b] Hlen Hk; simplify_eq/=.
  { unfold HASH_LENGTH in *. split_and!; [lia..| |done]. intros j Hj. unfold bitl. by destruct (j / 8). }
  case_bool_decide as E; [subst y|].
  - destruct (IH (S k) b ltac:(lia) ltac:(lia)) as ((H1 & H2) & H3 & H4).
    split; [lia|]. split.
    + intros j Hj. destruct (decide (j < 8)) as [Hlo|Hhi]; [by rewrite !bitl_cons_lo|].
      replace j with (8 + (j - 8)) by lia. rewrite !bitl_cons_hi. apply H3. lia.
    + intros Hne. destruct H4 as [H5 H6]; [congruence|]. split; [done|].
      set (c := HV.cpb_loop (S k) a b) in *. replace (c - _) with (8 + (c - 8 * S k)) by lia.
      by rewrite !bitl_cons_hi.
  - destruct (byte_xor_split x y E) as (Hc & Heq & Hdiff).
    set (c := HV.leading_zeros8 _) in *.
    split; [lia|]. split.
    + intros j Hj. rewrite !bitl_cons_lo by lia. apply Heq. lia.
    + intros _. split; [lia|]. replace (k * 8 + c - _) with c by lia.
      by rewrite !bitl_cons_lo by done.
Qed.

(** [common_prefix_bits] is the length of the common prefix. *)
Lemma common_prefix_bits_spec a b :
  (∀ i, i < HV.common_prefix_bits a b → HV.bit a i = HV.bit b i) ∧
  HV.common_prefix_bits a b ≤ 256 ∧
  (a ≠ b → HV.common_prefix_bits a b < 256 ∧
     HV.bit a (HV.common_prefix_bits a b) ≠ HV.bit b (HV.common_prefix_bits a b)).
Proof.
  destruct (cpb_loop_spec 0 (hv_bytes a) (hv_bytes b)) as (H1 & H2 & H3);
    rewrite ?hv_length; [done..|].
  fold (HV.common_prefix_bits a b) in *. rewrite !Nat.sub_0_r in H3.
  split_and!; [|lia|].
  - intros i Hi. rewrite !bit_bitl by lia. apply H2. lia.
  - intros Hne. destruct H3 as [? ?]; [intros E; by apply Hne, HashValue_eq|].
    split; [done|]. by rewrite !bit_bitl.
Qed.

(** ** Lemmas: the order of byte strings *)

Lemma bytes_leb_refl a : HV.bytes_leb a a = true.
Proof. induction a as [|x a IH]; simpl; [done|]. by rewrite N.ltb_irrefl. Qed.

Lemma bytes_leb_total a b : HV.bytes_leb a b = true ∨ HV.bytes_leb b a = true.
Proof.
  revert b; induction a as [|x a IH]; intros [|y b]; simpl; [by auto..|].
  destruct (N.ltb_spec (Byte.to_N x) (Byte.to_N y)), (N.ltb_spec (Byte.to_N y) (Byte.to_N x));
    [exfalso; lia|by auto..|apply IH].
Qed.

Lemma bytes_leb_cons x y a b :
  HV.bytes_leb (x :: a) (y :: b) = true ↔
  (Byte.to_N x < Byte.to_N y)%N ∨ x = y ∧ HV.bytes_leb a b = true.
Proof.
  simpl. destruct (N.ltb_spec (Byte.to_N x) (Byte.to_N y)) as [|H1]; [by naive_solver|].
  destruct (N.ltb_spec (Byte.to_N y) (Byte.to_N x)) as [|H2].
  - split; [done|]. intros [?|[-> _]]; exfalso; lia.
  - assert (x = y) as -> by (apply byte_Z_inj; f_equal; lia). split; [by right|]. intros [?|[_ ?]]; [exfalso; lia|done].
Qed.

Lemma bytes_leb_trans a b c :
  HV.bytes_leb a b = true → HV.bytes_leb b c = true → HV.bytes_leb a c = true.
Proof.
  revert b c; induction a as [|x a IH]; intros [|y b] [|z c]; [done..|].
  rewrite !bytes_leb_cons. intros [?|[-> ?]] [?|[-> ?]]; [left; lia|by left|by left|right; eauto].
Qed.

Lemma bytes_leb_antisym a b : HV.bytes_leb a b = true → HV.bytes_leb b a = true → a = b.
Proof.
  revert b; induction a as [|x a IH]; intros [|y b]; [done..|]. rewrite !bytes_leb_cons.
  intros [?|[-> ?]] [?|[E ?]]; [exfalso; lia|exfalso; subst; lia|exfalso; lia|]. f_equal. eauto.
Qed.

Lemma as_bytes_inj a b : as_bytes a = as_bytes b → a = b.
Proof.
  unfold as_bytes. intros Hb. rewrite <-(String.string_of_list_byte_of_string a), Hb.
  apply String.string_of_list_byte_of_string.
Qed.

(** The order of strings in Rust: lexicographic on the bytes. *)
Definition str_le (a b : string) : Prop := HV.bytes_leb (as_bytes a) (as_bytes b) = true.

#[global] Instance str_le_dec : RelDecision str_le.
Proof. intros a b. unfold str_le. apply _. Defined.
#[global] Instance str_le_trans : Transitive str_le.
Proof. intros a b c. apply bytes_leb_trans. Qed.
#[global] Instance str_le_total : Total str_le.
Proof. intros a b. apply bytes_leb_total. Qed.
Lemma str_le_antisym a b : str_le a b → str_le b a → a = b.
Proof. intros H1 H2. by apply as_bytes_inj, bytes_leb_antisym. Qed.

(** The derived [Ord] of [HashValue] is a total order. *)
Lemma leb_total a b : HV.leb a b = true ∨ HV.leb b a = true.
Proof. apply bytes_leb_total. Qed.
Lemma leb_trans a b c : HV.leb a b = true → HV.leb b c = true → HV.leb a c = true.
Proof. apply bytes_leb_trans. Qed.
Lemma leb_antisym a b : HV.leb a b = true → HV.leb b a = true → a = b.
Proof. intros H1 H2. by apply HashValue_eq, bytes_leb_antisym. Qed.

(** ** Lemmas: the preimages determine the hashed fields *)

Lemma hv_app_inj (a b c d : HashValue) :
  hv_bytes a ++ hv_bytes b = hv_bytes c ++ hv_bytes d → a = c ∧ b = d.
Proof.
  intros E. apply app_inj_1 in E as [E1 E2]; [|by rewrite !hv_length].
  split; by apply HashValue_eq.
Qed.

Lemma internal_preimage_inj a b c d :
  internal_preimage a b = internal_preimage c d → a = c ∧ b = d.
Proof. unfold internal_preimage. intros E. apply app_inv_head in E. by apply hv_app_inj. Qed.

Lemma sparse_leaf_preimage_inj a b c d :
  sparse_leaf_preimage a b = sparse_leaf_preimage c d → a = c ∧ b = d.
Proof. unfold sparse_leaf_preimage. intros E. apply app_inv_head in E. by apply hv_app_inj. Qed.

Lemma sparse_internal_preimage_inj a b c d :
  sparse_internal_preimage a b = sparse_internal_preimage c d → a = c ∧ b = d.
Proof. unfold sparse_internal_preimage. intros E. apply app_inv_head in E. by apply hv_app_inj. Qed.

Lemma sparse_leaf_internal_ne a b c d :
  sparse_leaf_preimage a b ≠ sparse_internal_preimage c d.
Proof. done. Qed.

Lemma leaf_internal_ne d a b : leaf_preimage d ≠ internal_preimage a b.
Proof. done. Qed.

(** ** The [hex] crate *)

(** [hex::encode] and [hex::decode]: decoding inverts encoding. *)
Class HexCrate := {
  hex_encode : bytes → string;
  hex_decode : string → option bytes;
  hex_decode_encode : ∀ b, hex_decode (hex_encode b) = Some b
}.

Lemma hex_encode_inj `{HexCrate} x y : hex_encode x = hex_encode y → x = y.
Proof. intros E. apply (f_equal hex_decode) in E. rewrite !hex_decode_encode in E. congruence. Qed.

(** Hexadecimal, two lower-case digits per byte, upper case accepted when
    decoding, is an instance. *)
Definition hex_digit (n : N) : Ascii.ascii :=
  Ascii.ascii_of_N (if (n <? 10)%N then 48 + n else 87 + n)%N.

Definition hex_val (c : Ascii.ascii) : option N :=
  let n := Ascii.N_of_ascii c in
  if ((48 <=? n) && (n <=? 57))%N then Some (n - 48)%N
  else if ((97 <=? n) && (n <=? 102))%N then Some (n - 87)%N
  else if ((65 <=? n) && (n <=? 70))%N then Some (n - 55)%N
  else None.

Fixpoint hex_string (b : bytes) : string :=
  match b with
  | [] => EmptyString
  | x :: b' =>
      String (hex_digit (Byte.to_N x / 16)) (String (hex_digit (Byte.to_N x mod 16)) (hex_string b'))
  end.

Fixpoint hex_bytes (s : string) : option bytes :=
  match s with
  | EmptyString => Some []
  | String c (String c' s') =>
      match hex_val c, hex_val c', hex_bytes s' with
      | Some h, Some l, Some b => (fun x => x :: b) <$> Byte.of_N (16 * h + l)
      | _, _, _ => None
      end
  | String _ EmptyString => None
  end.

Lemma hex_val_digit n : (n < 16)%N → hex_val (hex_digit n) = Some n.
Proof.
  intros Hn. unfold hex_val, hex_digit. rewrite Ascii.N_ascii_embedding.
  - destruct (N.ltb_spec n 10);
      repeat match goal with
      | |- context [(?a <=? ?b)%N] => destruct (N.leb_spec a b); try lia
      end; simpl; f_equal; lia.
  - destruct (N.ltb_spec n 10); lia.
Qed.

Lemma hex_bytes_string b : hex_bytes (hex_string b) = Some b.
Proof.
  induction b as [|x b IH]; [done|]. cbn [hex_string hex_bytes].
  pose proof (Byte.to_N_bounded x).
  rewrite hex_val_digit by (apply N.Div0.div_lt_upper_bound; lia).
  rewrite hex_val_digit by (apply N.mod_lt; lia). rewrite IH.
  rewrite <-(N.div_mod (Byte.to_N x) 16) by lia. by rewrite Byte.of_to_N.
Qed.

Definition hex_lower : HexCrate :=
  {| hex_encode := hex_string; hex_decode := hex_bytes; hex_decode_encode := hex_bytes_string |}.
