(* ===== verification/Event.v ===== *)
(** * Events

    [types/src/event.rs]: the unit of state change.  [transfer] and [payload]
    are opaque to consensus and are kept as the serialized bytes [payload].
    [SubnetId] ([types/src/subnet.rs]) is a 32-byte identifier. *)

From Stdlib Require Import ZArith Lia Strings.Byte.
From stdpp Require Import base gmap sets list strings numbers.
From S2P Require Import Prelude Hash Vlc.

Abbreviation EventId := string.
Abbreviation SubnetId := HashValue.

Inductive EventStatus :=
| Pending | InWorkQueue | Executed | Confirmed | Finalized | Failed.

Inductive EventType :=
| Genesis | System | Transfer
| ValidatorRegister | ValidatorUnregister
| SolverRegister | SolverUnregister
| SubnetRegister | UserRegister
| PowerConsume | TaskSubmit | AgentChat | Relationship
| ContractCall | ContractPublish
| CoinMerge | CoinSplit | CoinMergeThenTransfer
| Governance.

#[global] Instance EventStatus_eq_dec : EqDecision EventStatus.
Proof. solve_decision. Defined.
#[global] Instance EventType_eq_dec : EqDecision EventType.
Proof. solve_decision. Defined.

Record StateChange := mkStateChange {
  sc_key : string;
  old_value : option bytes;
  new_value : option bytes;
  target_subnet : option SubnetId
}.

Record ExecutionResult := mkExecutionResult {
  er_success : bool;
  er_message : option string;
  state_changes : list StateChange
}.

Record Event := mkEvent {
  ev_id : EventId;
  event_type : EventType;
  parent_ids : list EventId;
  subnet_id : option SubnetId;
  payload : bytes;
  vlc_snapshot : VLCSnapshot;
  creator : string;
  status : EventStatus;
  execution_result : option ExecutionResult;
  timestamp : Z
}.

(** ** Subnet identifiers *)

(** [SubnetId::ROOT] and [SubnetId::GOVERNANCE]. *)
Definition SUBNET_ROOT : SubnetId := zero_hash.
Definition SUBNET_GOVERNANCE : SubnetId :=
  mkHash (Byte.x01 :: Byte.x10 :: replicate 30 Byte.x00) eq_refl.

(** ** Operations of [EventType] *)
Module EType.

Definition requires_solver_execution (t : EventType) : bool :=
  match t with
  | Transfer | ValidatorRegister | ValidatorUnregister | SolverRegister | SolverUnregister
  | SubnetRegister | UserRegister | PowerConsume | TaskSubmit | AgentChat | Relationship
  | ContractCall | ContractPublish | CoinMerge | CoinSplit | CoinMergeThenTransfer
  | Governance => true
  | _ => false
  end.

Definition is_root_event (t : EventType) : bool :=
  match t with
  | Genesis | System | ValidatorRegister | ValidatorUnregister | SolverRegister
  | SolverUnregister | SubnetRegister | UserRegister | ContractPublish => true
  | _ => false
  end.

Definition is_validator_executed (t : EventType) : bool := is_root_event t.

End EType.

(** ** Operations of [Event] *)

Definition set_status (e : Event) (s : EventStatus) : Event :=
  mkEvent (ev_id e) (event_type e) (parent_ids e) (subnet_id e) (payload e)
    (vlc_snapshot e) (creator e) s (execution_result e) (timestamp e).

Definition with_payload (e : Event) (p : bytes) : Event :=
  mkEvent (ev_id e) (event_type e) (parent_ids e) (subnet_id e) p
    (vlc_snapshot e) (creator e) (status e) (execution_result e) (timestamp e).

Definition with_subnet (e : Event) (sn : SubnetId) : Event :=
  mkEvent (ev_id e) (event_type e) (parent_ids e) (Some sn) (payload e)
    (vlc_snapshot e) (creator e) (status e) (execution_result e) (timestamp e).

Definition set_execution_result (e : Event) (r : ExecutionResult) : Event :=
  mkEvent (ev_id e) (event_type e) (parent_ids e) (subnet_id e) (payload e)
    (vlc_snapshot e) (creator e) (if er_success r then Executed else Failed) (Some r)
    (timestamp e).

Definition is_genesis (e : Event) : bool := bool_decide (event_type e = Genesis).
Definition has_parents (e : Event) : bool := negb (bool_decide (parent_ids e = [])).
Definition depends_on (e : Event) (id : EventId) : bool := bool_decide (id ∈ parent_ids e).

Definition is_registration (e : Event) : bool :=
  match event_type e with
  | ValidatorRegister | SolverRegister | SubnetRegister | UserRegister => true
  | _ => false
  end.

Definition is_unregistration (e : Event) : bool :=
  match event_type e with
  | ValidatorUnregister | SolverUnregister => true
  | _ => false
  end.

Definition get_subnet_id (e : Event) : SubnetId :=
  match subnet_id e with
  | Some sn => sn
  | None => if EType.is_root_event (event_type e) then SUBNET_ROOT else SUBNET_ROOT
  end.

Section EventId.
Context `{Blake3} `{HexCrate}.

(** The string hashed by [compute_id]. *)
Definition event_id_preimage (parents : list EventId) (vlc : VLCSnapshot)
    (creator : string) (ts : Z) : bytes :=
  as_bytes "SETU_EVENT_ID:" ++ concat (as_bytes <$> parents)
    ++ to_le_bytes 8 (logical_time vlc) ++ as_bytes creator ++ to_le_bytes 8 ts.

Definition compute_id (parents : list EventId) (vlc : VLCSnapshot)
    (creator : string) (ts : Z) : EventId :=
  hex_encode (hv_bytes (blake3 (event_id_preimage parents vlc creator ts))).

Definition verify_id (e : Event) : bool :=
  bool_decide (compute_id (parent_ids e) (vlc_snapshot e) (creator e) (timestamp e) = ev_id e).

Definition recompute_id (e : Event) : Event :=
  mkEvent (compute_id (parent_ids e) (vlc_snapshot e) (creator e) (timestamp e))
    (event_type e) (parent_ids e) (subnet_id e) (payload e)
    (vlc_snapshot e) (creator e) (status e) (execution_result e) (timestamp e).

(** [Event::new]; [now] is the wall clock. *)
Definition event_new (t : EventType) (parents : list EventId) (vlc : VLCSnapshot)
    (creator : string) (now : Z) : Event :=
  mkEvent (compute_id parents vlc creator now) t parents
    (if EType.is_root_event t then Some SUBNET_ROOT
     else if bool_decide (t = Governance) then Some SUBNET_GOVERNANCE else None)
    [] vlc creator Pending None now.
End EventId.

(** ** Properties *)

(** An event built by [Event::new] or repaired by [recompute_id] passes
    [verify_id]; but the identifier commits only to the parents, the logical
    time, the creator and the timestamp, so [verify_id] gives the same answer
    after the payload and the event type are replaced by anything. *)
Theorem verify_id_ignores_payload (B : Blake3) (X : HexCrate) (e : Event)
    (t : EventType) (parents : list EventId) (vlc : VLCSnapshot) (c : string) (now : Z) :
  verify_id (event_new t parents vlc c now) = true ∧
  verify_id (recompute_id e) = true ∧
  (∀ p sn, verify_id (with_subnet (with_payload e p) sn) = verify_id e) ∧
  (∀ t', verify_id (mkEvent (ev_id e) t' (parent_ids e) (subnet_id e) (payload e)
            (vlc_snapshot e) (creator e) (status e) (execution_result e) (timestamp e))
         = verify_id e).
Proof.
  unfold verify_id. split_and!; [by apply bool_decide_eq_true_2..|done|done].
Qed.
