(* ===== verification/Dag.v ===== *)
(** * The event DAG

    [consensus/src/dag.rs].  The DAG keeps, beside the events, an index of
    children, the depth of each event, the tips and the set of events that are
    pending confirmation.  [HashMap]s are finite maps, [HashSet]s finite sets;
    an operation that iterates over one visits its elements in the order of
    [map_to_list] / [elements], and no theorem depends on that order. *)

From Stdlib Require Import ZArith Lia.
From stdpp Require Import base gmap sets list strings numbers.
From S2P Require Import Prelude Hash Vlc Event.

Record Dag := mkDag {
  events : gmap EventId Event;
  children : gmap EventId (gset EventId);
  depths : gmap EventId Z;
  tips : gset EventId;
  max_depth : Z;
  pending : gset EventId
}.

Inductive DagError :=
| DuplicateEvent (id : EventId)
| MissingParent (id : EventId)
| EventNotFound (id : EventId)
| InvalidEvent (msg : string).

Record GCStats := mkGCStats { removed : nat; retained : nat }.

Module D.

Definition new : Dag := mkDag ∅ ∅ ∅ ∅ 0 ∅.

Definition contains (d : Dag) (id : EventId) : bool := bool_decide (is_Some (events d !! id)).
Definition get_event (d : Dag) (id : EventId) : option Event := events d !! id.
Definition get_depth (d : Dag) (id : EventId) : option Z := depths d !! id.
Definition get_tips (d : Dag) : list EventId := elements (tips d).
Definition node_count (d : Dag) : nat := size (events d).
Definition get_pending_count (d : Dag) : nat := size (pending d).
Definition is_empty (d : Dag) : bool := bool_decide (events d = ∅).

(** Events of the pending set that the DAG still holds. *)
Definition get_pending_events (d : Dag) : list Event :=
  omap (fun id => events d !! id) (elements (pending d)).

Definition get_events_in_range (d : Dag) (from_depth to_depth : Z) : list Event :=
  omap (fun '(id, e) =>
    match depths d !! id with
    | Some depth => if ((from_depth <=? depth) && (depth <=? to_depth))%Z then Some e else None
    | None => None
    end) (map_to_list (events d)).

Definition get_events_at_depth (d : Dag) (depth : Z) : list Event :=
  omap (fun '(id, e) => if bool_decide (depths d !! id = Some depth) then Some e else None)
    (map_to_list (events d)).

Definition get_children (d : Dag) (id : EventId) : list EventId :=
  default [] (elements <$> children d !! id).

(** The loop of [add_event] that checks the parents and takes the maximum of
    their depths. *)
Fixpoint parent_depth_loop (d : Dag) (parents : list EventId) (max_parent_depth : Z)
    : result DagError Z :=
  match parents with
  | [] => Ok max_parent_depth
  | p :: rest =>
      if contains d p then
        parent_depth_loop d rest (Z.max max_parent_depth (default 0%Z (depths d !! p)))
      else Err (MissingParent p)
  end.

(** [children.entry(p).or_insert_with(HashSet::new).insert(id)]. *)
Definition add_child (id p : EventId) (ch : gmap EventId (gset EventId))
    : gmap EventId (gset EventId) :=
  <[p := {[id]} ∪ default ∅ (ch !! p)]> ch.

(** The loop of [add_event] over the parents: link and drop from the tips. *)
Definition link_parents (id : EventId) (parents : list EventId)
    (st : gmap EventId (gset EventId) * gset EventId)
    : gmap EventId (gset EventId) * gset EventId :=
  foldl (fun '(ch, tp) p => (add_child id p ch, tp ∖ {[p]})) st parents.

(** The final stores of [add_event] and [add_event_with_depth]. *)
Definition store_event (d : Dag) (e : Event) (depth : Z)
    (st : gmap EventId (gset EventId) * gset EventId) : Dag :=
  mkDag (<[ev_id e := e]> (events d)) st.1 (<[ev_id e := depth]> (depths d))
    ({[ev_id e]} ∪ st.2) (Z.max (max_depth d) depth) ({[ev_id e]} ∪ pending d).

Definition add_event (d : Dag) (e : Event) : result DagError (Dag * EventId) :=
  let event_id := ev_id e in
  if contains d event_id then Err (DuplicateEvent event_id)
  else
    rbind
      (if bool_decide (parent_ids e = []) then Ok 0%Z
       else rbind (parent_depth_loop d (parent_ids e) 0)
              (fun max_parent_depth => Ok (u64_add max_parent_depth 1)))
      (fun depth =>
         Ok (store_event d e depth (link_parents event_id (parent_ids e) (children d, tips d)),
             event_id)).

(** [add_event_with_depth] links only the parents that are still in the DAG. *)
Definition add_event_with_depth (d : Dag) (e : Event) (depth : Z)
    : result DagError (Dag * EventId) :=
  let event_id := ev_id e in
  if contains d event_id then Err (DuplicateEvent event_id)
  else
    Ok (store_event d e depth
          (link_parents event_id (filter (fun p => contains d p = true) (parent_ids e))
             (children d, tips d)),
        event_id).

Definition confirm_event (d : Dag) (id : EventId) : Dag * bool :=
  match events d !! id with
  | Some e =>
      (mkDag (<[id := set_status e Confirmed]> (events d)) (children d) (depths d) (tips d)
         (max_depth d) (pending d ∖ {[id]}), true)
  | None => (d, false)
  end.

Definition finalize_event (d : Dag) (id : EventId) : Dag :=
  mkDag
    (match events d !! id with
     | Some e => <[id := set_status e Finalized]> (events d)
     | None => events d
     end)
    (children d) (depths d) (tips d) (max_depth d) (pending d ∖ {[id]}).

Definition finalize_events (d : Dag) (ids : list EventId) : Dag := foldl finalize_event d ids.

(** A child counts as active when it is in the DAG and not Finalized. *)
Definition is_active (d : Dag) (id : EventId) : bool :=
  match events d !! id with
  | Some e => bool_decide (status e ≠ Finalized)
  | None => false
  end.

Definition has_active_children (d : Dag) (id : EventId) : bool :=
  match children d !! id with
  | Some cs => existsb (is_active d) (elements cs)
  | None => false
  end.

(** Remove [id] from the children of one parent, if that parent has an entry. *)
Definition unlink (id p : EventId) (ch : gmap EventId (gset EventId))
    : gmap EventId (gset EventId) :=
  match ch !! p with
  | Some cs => <[p := cs ∖ {[id]}]> ch
  | None => ch
  end.

Definition remove_event (d : Dag) (id : EventId) : option (Dag * list EventId) :=
  if has_active_children d id then None
  else
    match events d !! id with
    | None => None
    | Some e =>
        let ch := foldl (fun ch p => unlink id p ch) (children d) (parent_ids e) in
        Some (mkDag (delete id (events d)) (delete id ch) (delete id (depths d))
                (tips d ∖ {[id]}) (max_depth d) (pending d ∖ {[id]}),
              parent_ids e)
    end.

(** The parents of a removed event that are queued for a check of their own. *)
Definition removable_parents (d : Dag) (parents : list EventId) : list EventId :=
  filter (fun p => match events d !! p with
                   | Some e => bool_decide (status e = Finalized)
                   | None => false
                   end = true) parents.

(** The work loop of [gc_finalized_events]; [None] when the fuel runs out. *)
Fixpoint gc_loop (fuel : nat) (d : Dag) (targets : gset EventId) (queue : list EventId)
    (rm rt : nat) : option (Dag * GCStats) :=
  match queue with
  | [] => Some (d, mkGCStats rm rt)
  | event_id :: rest =>
      match fuel with
      | O => None
      | S fuel' =>
          match remove_event d event_id with
          | Some (d', parents) =>
              gc_loop fuel' d' targets (rest ++ removable_parents d' parents) (S rm) rt
          | None =>
              if bool_decide (event_id ∈ targets) && contains d event_id
              then gc_loop fuel' d targets rest rm (S rt)
              else gc_loop fuel' d targets rest rm rt
          end
      end
  end.

(** Edges of the DAG, counted at the child. *)
Definition edge_count (evs : gmap EventId Event) : nat :=
  map_sum (fun _ e => length (parent_ids e)) evs.

Definition gc_fuel (d : Dag) (ids : list EventId) : nat := length ids + edge_count (events d).

Definition gc_finalized_events (d : Dag) (ids : list EventId) : option (Dag * GCStats) :=
  gc_loop (gc_fuel d ids) d (list_to_set ids) ids 0 0.

Definition finalize_up_to_depth (d : Dag) (depth : Z) : Dag :=
  let hit id := match depths d !! id with Some dd => (dd <=? depth)%Z | None => false end in
  mkDag (map_imap (fun id e => Some (if hit id then set_status e Finalized else e)) (events d))
    (children d) (depths d) (tips d) (max_depth d)
    (filter (fun id => ¬ (hit id = true ∧ is_Some (events d !! id))) (pending d)).

(** *** Ancestors: breadth-first search over the parents *)

(** The parents of an event of the DAG, none for an id it does not hold. *)
Definition parents_of (d : Dag) (id : EventId) : list EventId :=
  match events d !! id with
  | Some e => parent_ids e
  | None => []
  end.

(** The loop of [get_ancestors]; [None] when the fuel runs out. *)
Fixpoint ancestors_loop (fuel : nat) (d : Dag) (ancestors : gset EventId)
    (queue : list EventId) : option (gset EventId) :=
  match queue with
  | [] => Some ancestors
  | current :: rest =>
      match fuel with
      | O => None
      | S fuel' =>
          if bool_decide (current ∈ ancestors) then ancestors_loop fuel' d ancestors rest
          else ancestors_loop fuel' d ({[current]} ∪ ancestors) (rest ++ parents_of d current)
      end
  end.

Definition get_ancestors (d : Dag) (id : EventId) : option (gset EventId) :=
  ancestors_loop (length (parents_of d id) + edge_count (events d)) d ∅ (parents_of d id).

(** The loop of [is_ancestor]: stops as soon as an edge reaches [anc]. *)
Fixpoint is_ancestor_loop (fuel : nat) (d : Dag) (anc : EventId) (visited : gset EventId)
    (queue : list EventId) : option bool :=
  match queue with
  | [] => Some false
  | current :: rest =>
      match fuel with
      | O => None
      | S fuel' =>
          if bool_decide (current ∈ visited) then is_ancestor_loop fuel' d anc visited rest
          else if bool_decide (anc ∈ parents_of d current) then Some true
          else is_ancestor_loop fuel' d anc ({[current]} ∪ visited)
                 (rest ++ parents_of d current)
      end
  end.

Definition is_ancestor (d : Dag) (anc desc : EventId) : option bool :=
  if bool_decide (anc = desc) then Some false
  else is_ancestor_loop (1 + edge_count (events d)) d anc ∅ [desc].

End D.

(** ** Invariant *)

Definition children_of (d : Dag) (id : EventId) : gset EventId := default ∅ (children d !! id).

Record dag_wf (d : Dag) : Prop := mkDagWf {
  wf_dom : dom (depths d) = dom (events d);
  wf_id : ∀ id e, events d !! id = Some e → ev_id e = id;
  wf_tips : tips d ⊆ dom (events d);
  wf_pending : pending d ⊆ dom (events d);
  wf_children : ∀ p cs, children d !! p = Some cs →
    p ∈ dom (events d) ∧
    ∀ c, c ∈ cs → ∃ e, events d !! c = Some e ∧ p ∈ parent_ids e;
  wf_leaf : ∀ x, x ∈ tips d → children_of d x = ∅;
  wf_max : ∀ x z, depths d !! x = Some z → (0 ≤ z ≤ max_depth d)%Z;
  wf_max0 : (0 ≤ max_depth d)%Z
}.

(** The edge relation: from an event of the DAG to one of its parents. *)
Definition parent_rel (d : Dag) (x y : EventId) : Prop := y ∈ D.parents_of d x.

(** ** Lemmas *)

Lemma contains_iff d id : D.contains d id = true ↔ id ∈ dom (events d).
Proof. unfold D.contains. by rewrite bool_decide_eq_true, elem_of_dom. Qed.

Lemma contains_false d id : D.contains d id = false ↔ events d !! id = None.
Proof.
  unfold D.contains. rewrite bool_decide_eq_false, <-eq_None_not_Some. done.
Qed.

Lemma link_parents_tips id ps ch tp :
  (D.link_parents id ps (ch, tp)).2 = tp ∖ list_to_set ps.
Proof.
  revert ch tp. induction ps as [|p ps IH]; intros ch tp; simpl; [set_solver|].
  unfold D.link_parents in *. simpl. rewrite IH. set_solver.
Qed.

Lemma link_parents_children id ps ch tp p :
  (D.link_parents id ps (ch, tp)).1 !! p =
    if decide (p ∈ ps) then Some ({[id]} ∪ default ∅ (ch !! p)) else ch !! p.
Proof.
  revert ch tp. induction ps as [|q ps IH]; intros ch tp.
  { case_decide; [set_solver|done]. }
  unfold D.link_parents in *. simpl. rewrite IH. unfold D.add_child.
  destruct (decide (q = p)) as [->|Hne].
  - rewrite lookup_insert_eq. destruct (decide (p ∈ p :: ps)); [|set_solver].
    case_decide; [simpl|done]; f_equal; set_solver.
  - rewrite lookup_insert_ne by done. do 2 case_decide; set_solver.
Qed.

Lemma unlink_fold_lookup id ps ch p :
  foldl (fun ch p => D.unlink id p ch) ch ps !! p =
    if decide (p ∈ ps) then (fun cs => cs ∖ {[id]}) <$> ch !! p else ch !! p.
Proof.
  revert ch. induction ps as [|q ps IH]; intros ch; cbn [foldl].
  { case_decide; [set_solver|done]. }
  rewrite IH. unfold D.unlink.
  destruct (decide (q = p)) as [->|Hne].
  - destruct (decide (p ∈ p :: ps)); [|set_solver].
    destruct (ch !! p) as [cs|] eqn:E; simpl; rewrite ?lookup_insert_eq, ?E; case_decide; simpl;
      [f_equal; set_solver|done..].
  - assert ((match ch !! q with Some cs => <[q:=cs ∖ {[id]}]> ch | None => ch end) !! p = ch !! p)
      as ->.
    { destruct (ch !! q); [by rewrite lookup_insert_ne|done]. }
    do 2 case_decide; set_solver.
Qed.

Lemma parent_depth_loop_ok d ps m m' :
  D.parent_depth_loop d ps m = Ok m' →
  (∀ p, p ∈ ps → p ∈ dom (events d)) ∧ (m ≤ m')%Z ∧
  (∀ p z, p ∈ ps → depths d !! p = Some z → (z ≤ m')%Z) ∧
  (m' = m ∨ ∃ p, p ∈ ps ∧ m' = default 0%Z (depths d !! p)).
Proof.
  revert m. induction ps as [|p ps IH]; intros m H; simpl in H.
  { simp_res. split_and!; [set_solver|lia|set_solver|by left]. }
  destruct (D.contains d p) eqn:Hc; [|done].
  apply IH in H as (H1 & H2 & H3 & H4). apply contains_iff in Hc.
  split_and!; [set_solver|lia| |].
  - intros q z Hq Hz. apply elem_of_cons in Hq as [->|Hq]; [|by eapply H3].
    rewrite Hz in H2. simpl in H2. lia.
  - destruct H4 as [->|(q & Hq & ->)]; [|right; exists q; set_solver].
    destruct (Z.max_spec m (default 0%Z (depths d !! p))) as [[_ ->]|[_ ->]]; [|by left].
    right. exists p. set_solver.
Qed.

Lemma parent_depth_loop_missing d ps m p :
  D.parent_depth_loop d ps m = Err (MissingParent p) → p ∈ ps ∧ p ∉ dom (events d).
Proof.
  revert m. induction ps as [|q ps IH]; intros m H; simpl in H; [done|].
  destruct (D.contains d q) eqn:Hc.
  - apply IH in H as [? ?]. set_solver.
  - injection H as <-. split; [set_solver|]. intros Hin.
    apply contains_iff in Hin. congruence.
Qed.

(** Storing an event under a fresh id, with links to parents the DAG holds,
    keeps the invariant. *)
Lemma store_wf d e depth ps :
  dag_wf d → ev_id e ∉ dom (events d) → (0 ≤ depth)%Z →
  (∀ p, p ∈ ps → p ∈ parent_ids e ∧ p ∈ dom (events d)) →
  dag_wf (D.store_event d e depth (D.link_parents (ev_id e) ps (children d, tips d))).
Proof.
  intros Hwf Hnew Hd Hps. set (id := ev_id e) in *.
  assert (Hnone : events d !! id = None) by by apply not_elem_of_dom.
  assert (Hnoch : children d !! id = None).
  { destruct (children d !! id) eqn:E; [|done]. by apply (wf_children d Hwf) in E as [? _]. }
  unfold D.store_event. fold id. rewrite link_parents_tips.
  split; cbn [events children depths tips max_depth pending].
  - rewrite !dom_insert_L. by rewrite (wf_dom d Hwf).
  - intros x ex. rewrite lookup_insert. case_decide as E; [naive_solver|apply (wf_id d Hwf)].
  - rewrite dom_insert_L. pose proof (wf_tips d Hwf). set_solver.
  - rewrite dom_insert_L. pose proof (wf_pending d Hwf). set_solver.
  - intros p cs. rewrite link_parents_children, dom_insert_L.
    assert (Hold : ∀ p cs, children d !! p = Some cs → p ∈ dom (events d) ∧
      ∀ c, c ∈ cs → ∃ e0, <[id:=e]> (events d) !! c = Some e0 ∧ p ∈ parent_ids e0).
    { intros p' cs' H. apply (wf_children d Hwf) in H as [? H]. split; [done|].
      intros c Hc. destruct (H c Hc) as (e0 & He0 & ?). exists e0.
      rewrite lookup_insert_ne; [done|]. congruence. }
    case_decide as Hp; intros Hcs.
    + destruct (Hps p Hp) as [Hpar Hdom]. simplify_eq. split; [set_solver|].
      intros c [Hc|Hc]%elem_of_union.
      * apply elem_of_singleton in Hc as ->. exists e. by rewrite lookup_insert_eq.
      * destruct (children d !! p) as [cs'|] eqn:Ecs; [|set_solver]. by apply (Hold p cs' Ecs).
    + apply Hold in Hcs as [? ?]. set_solver.
  - intros x Hx. unfold children_of. cbn [children]. rewrite link_parents_children.
    destruct (decide (x ∈ ps)) as [Hin|Hnin].
    + destruct (Hps x Hin). set_solver.
    + apply elem_of_union in Hx as [Hx|Hx].
      * apply elem_of_singleton in Hx as ->. by rewrite Hnoch.
      * apply (wf_leaf d Hwf). set_solver.
  - intros x z. rewrite lookup_insert. case_decide; intros Hz; [naive_solver lia|].
    apply (wf_max d Hwf) in Hz. lia.
  - pose proof (wf_max0 d Hwf). lia.
Qed.

Lemma new_wf : dag_wf D.new.
Proof. split; simpl; try set_solver; lia. Qed.

Lemma add_event_wf d e d' id :
  dag_wf d → D.add_event d e = Ok (d', id) → dag_wf d' ∧ id = ev_id e.
Proof.
  intros Hwf H. unfold D.add_event in H.
  destruct (D.contains d (ev_id e)) eqn:Hc; [done|].
  apply contains_false, not_elem_of_dom in Hc.
  case_bool_decide as Hp; simpl in H.
  - simp_res. split; [|done]. apply store_wf; [done..|]. rewrite Hp. set_solver.
  - destruct (D.parent_depth_loop d (parent_ids e) 0) eqn:Hl; simpl in H; simp_res.
    split; [|done]. apply parent_depth_loop_ok in Hl as (Hin & _).
    apply store_wf; [done..| |].
    + pose proof (wrap64_range (a + 1)) as Hr. unfold is_u64 in Hr. unfold u64_add. lia.
    + intros p Hpp. split; [done|by apply Hin].
Qed.

Lemma add_event_with_depth_wf d e z d' id :
  dag_wf d → (0 ≤ z)%Z → D.add_event_with_depth d e z = Ok (d', id) → dag_wf d' ∧ id = ev_id e.
Proof.
  intros Hwf Hz H. unfold D.add_event_with_depth in H.
  destruct (D.contains d (ev_id e)) eqn:Hc; [done|].
  apply contains_false, not_elem_of_dom in Hc. simp_res.
  split; [|done]. apply store_wf; [done..|].
  intros p [Hp ?]%list_elem_of_filter. by rewrite contains_iff in Hp.
Qed.

(** Changing statuses only, and shrinking the pending set, keeps the
    invariant. *)
Lemma restatus_wf d evs pend :
  dag_wf d → pend ⊆ pending d →
  (∀ id, (fun e => (ev_id e, parent_ids e)) <$> evs !! id =
         (fun e => (ev_id e, parent_ids e)) <$> events d !! id) →
  dag_wf (mkDag evs (children d) (depths d) (tips d) (max_depth d) pend).
Proof.
  intros Hwf Hpend Hev.
  assert (Hdom : dom evs = dom (events d)).
  { apply set_eq. intros x. rewrite !elem_of_dom. specialize (Hev x).
    destruct (evs !! x), (events d !! x); simplify_eq/=; split; intros [? ?]; naive_solver. }
  split; cbn [events children depths tips max_depth pending]; rewrite ?Hdom;
    try apply Hwf; [| |].
  - intros id e He. specialize (Hev id). rewrite He in Hev.
    destruct (events d !! id) as [e'|] eqn:E; simplify_eq/=.
    apply (wf_id d Hwf) in E. congruence.
  - pose proof (wf_pending d Hwf). set_solver.
  - intros p cs H. apply (wf_children d Hwf) in H as [? H]. split; [done|].
    intros c Hc. destruct (H c Hc) as (e & He & Hp). specialize (Hev c). rewrite He in Hev.
    destruct (evs !! c) as [e'|]; simplify_eq/=. exists e'. split; [done|congruence].
Qed.

Lemma confirm_event_wf d id : dag_wf d → dag_wf (D.confirm_event d id).1.
Proof.
  intros Hwf. unfold D.confirm_event. destruct (events d !! id) as [e|] eqn:E; [|done].
  apply restatus_wf; [done|set_solver|]. intros x. rewrite lookup_insert.
  case_decide; [subst; by rewrite E|done].
Qed.

Lemma finalize_event_wf d id : dag_wf d → dag_wf (D.finalize_event d id).
Proof.
  intros Hwf. unfold D.finalize_event. apply restatus_wf; [done|set_solver|]. intros x.
  destruct (events d !! id) as [e|] eqn:E; [|done]. rewrite lookup_insert.
  case_decide; [subst; by rewrite E|done].
Qed.

Lemma finalize_events_wf d ids : dag_wf d → dag_wf (D.finalize_events d ids).
Proof.
  unfold D.finalize_events. revert d. induction ids as [|id ids IH]; intros d Hwf; [done|].
  simpl. by apply IH, finalize_event_wf.
Qed.

Lemma finalize_up_to_depth_wf d z : dag_wf d → dag_wf (D.finalize_up_to_depth d z).
Proof.
  intros Hwf. unfold D.finalize_up_to_depth. apply restatus_wf; [done|set_solver|].
  intros x. rewrite map_lookup_imap. destruct (events d !! x); simpl; [|done].
  by destruct (depths d !! x); simpl; [case_match|].
Qed.

Lemma remove_event_Some d id d' ps :
  D.remove_event d id = Some (d', ps) →
  D.has_active_children d id = false ∧
  ∃ e, events d !! id = Some e ∧ ps = parent_ids e ∧
    events d' = delete id (events d) ∧
    children d' = delete id (foldl (fun ch p => D.unlink id p ch) (children d) ps) ∧
    depths d' = delete id (depths d) ∧ tips d' = tips d ∖ {[id]} ∧
    max_depth d' = max_depth d ∧ pending d' = pending d ∖ {[id]}.
Proof.
  unfold D.remove_event. destruct (D.has_active_children d id); [done|].
  destruct (events d !! id) as [e|] eqn:E; [|done]. intros H. simp_res.
  split; [done|]. exists e. done.
Qed.

Lemma remove_event_None d id :
  D.remove_event d id = None → D.has_active_children d id = true ∨ events d !! id = None.
Proof.
  unfold D.remove_event. destruct (D.has_active_children d id); [by left|].
  destruct (events d !! id); [done|by right].
Qed.

(** The children recorded for a surviving event lose just the removed one. *)
Lemma remove_event_children d id d' ps x :
  dag_wf d → D.remove_event d id = Some (d', ps) → x ≠ id →
  children d' !! x = (fun cs => cs ∖ {[id]}) <$> children d !! x.
Proof.
  intros Hwf H Hx. apply remove_event_Some in H as (_ & e & He & -> & _ & -> & _).
  rewrite lookup_delete_ne by done. rewrite unlink_fold_lookup.
  case_decide as Hp; [done|].
  destruct (children d !! x) as [cs|] eqn:E; [|done]. simpl. f_equal.
  apply set_eq. intros c. apply (wf_children d Hwf) in E as [_ E].
  assert (id ∉ cs); [|set_solver]. intros Hin. destruct (E id Hin) as (e' & He' & ?). naive_solver.
Qed.

Lemma remove_event_wf d id d' ps :
  dag_wf d → D.remove_event d id = Some (d', ps) → dag_wf d'.
Proof.
  intros Hwf H. pose proof (remove_event_children d id d' ps) as Hch.
  pose proof (remove_event_Some d id d' ps H) as (_ & e & He & Hps & Hev & Hc & Hd & Ht & Hm & Hp).
  split; rewrite ?Hev, ?Hd, ?Ht, ?Hm, ?Hp.
  - rewrite !dom_delete_L. by rewrite (wf_dom d Hwf).
  - intros x ex Hx. apply lookup_delete_Some in Hx as [_ Hx]. by apply (wf_id d Hwf).
  - rewrite dom_delete_L. pose proof (wf_tips d Hwf). set_solver.
  - rewrite dom_delete_L. pose proof (wf_pending d Hwf). set_solver.
  - intros p cs Hcs. assert (p ≠ id) as Hpid.
    { intros ->. rewrite Hc, lookup_delete_eq in Hcs. done. }
    rewrite (Hch p Hwf H Hpid) in Hcs. apply fmap_Some in Hcs as (cs0 & Hcs0 & ->).
    apply (wf_children d Hwf) in Hcs0 as [Hpd Hcs0].
    rewrite dom_delete_L. split; [set_solver|]. intros c Hcc.
    destruct (Hcs0 c) as (ec & Hec & ?); [set_solver|]. exists ec.
    rewrite lookup_delete_ne by set_solver. done.
  - intros x Hx. unfold children_of. rewrite (Hch x Hwf H) by set_solver.
    pose proof (wf_leaf d Hwf x ltac:(set_solver)) as Hl. unfold children_of in Hl.
    destruct (children d !! x); set_solver.
  - intros x z Hz. apply lookup_delete_Some in Hz as [_ Hz]. by apply (wf_max d Hwf) in Hz.
  - apply (wf_max0 d Hwf).
Qed.

(** ** Garbage collection *)

Lemma has_active_children_iff d x :
  D.has_active_children d x = true ↔ ∃ c, c ∈ children_of d x ∧ D.is_active d c = true.
Proof.
  unfold D.has_active_children, children_of. destruct (children d !! x) as [cs|]; simpl.
  - rewrite existsb_exists. setoid_rewrite <-list_elem_of_In. by setoid_rewrite elem_of_elements.
  - split; [done|]. intros (c & Hc & _). set_solver.
Qed.

(** Removing a Finalized event does not change whether another event has an
    active child. *)
Lemma remove_active_stable d id d' ps e x :
  dag_wf d → D.remove_event d id = Some (d', ps) →
  events d !! id = Some e → status e = Finalized → x ≠ id →
  D.has_active_children d' x = D.has_active_children d x.
Proof.
  intros Hwf H He Hs Hx.
  assert (Hact : ∀ c, D.is_active d' c = D.is_active d c).
  { intros c. apply remove_event_Some in H as (_ & e' & He' & _ & Hev & _).
    unfold D.is_active. rewrite Hev. destruct (decide (c = id)) as [->|Hne].
    - rewrite lookup_delete_eq, He. by rewrite bool_decide_eq_false_2 by naive_solver.
    - by rewrite lookup_delete_ne. }
  apply eq_true_iff_eq. rewrite !has_active_children_iff.
  assert (Hch : children_of d' x = children_of d x ∖ {[id]}).
  { unfold children_of. rewrite (remove_event_children d id d' ps x Hwf H Hx).
    destruct (children d !! x); set_solver. }
  rewrite Hch. setoid_rewrite Hact. split; intros (c & Hc & Ha); exists c; [set_solver|].
  split; [|done]. apply elem_of_difference. split; [done|]. intros ->%elem_of_singleton.
  unfold D.is_active in Ha. rewrite He in Ha. by rewrite bool_decide_eq_false_2 in Ha by naive_solver.
Qed.

(** What a garbage collection that removes Finalized events guarantees. *)
Record gc_post (d d' : Dag) : Prop := mkGcPost {
  gp_wf : dag_wf d';
  gp_sub : events d' ⊆ events d;
  gp_removed : ∀ x e, events d !! x = Some e → events d' !! x = None →
    status e = Finalized ∧ D.has_active_children d x = false;
  gp_stable : ∀ x, is_Some (events d' !! x) →
    D.has_active_children d' x = D.has_active_children d x;
  gp_max : max_depth d' = max_depth d;
  gp_depths : depths d' ⊆ depths d
}.

Lemma gc_post_refl d : dag_wf d → gc_post d d.
Proof. intros Hwf. split; [done|done| |done|done|done]. intros; congruence. Qed.

Lemma gc_post_trans d1 d2 d3 : gc_post d1 d2 → gc_post d2 d3 → gc_post d1 d3.
Proof.
  intros [Hw1 Hs1 Hr1 Ht1 Hm1 Hd1] [Hw2 Hs2 Hr2 Ht2 Hm2 Hd2].
  split; [done|by etrans| | |congruence|by etrans].
  - intros x e He Hn. destruct (events d2 !! x) as [e'|] eqn:E.
    + assert (e' = e) as -> by (eapply lookup_weaken in E; [|done]; congruence).
      destruct (Hr2 x e E Hn) as [? Ha]. split; [done|]. rewrite <-Ha. symmetry.
      apply Ht1. by exists e.
    + by apply Hr1.
  - intros x [e He]. rewrite Ht2 by by exists e. apply Ht1. exists e.
    by eapply lookup_weaken.
Qed.

Lemma remove_gc_post d id d' ps e :
  dag_wf d → D.remove_event d id = Some (d', ps) →
  events d !! id = Some e → status e = Finalized → gc_post d d'.
Proof.
  intros Hwf H He Hs. pose proof (remove_event_Some d id d' ps H) as
    (Hna & e' & He' & _ & Hev & _ & Hd & _ & Hm & _).
  split; [by eapply remove_event_wf| | | |done|rewrite Hd; apply delete_subseteq].
  - rewrite Hev. apply delete_subseteq.
  - intros x ex Hx. rewrite Hev. intros Hn. apply lookup_delete_None in Hn as [<-|Hn]; [|congruence].
    naive_solver.
  - intros x. rewrite Hev. intros [ex Hx]. apply lookup_delete_Some in Hx as [Hne _].
    eapply (remove_active_stable d id d' ps e x Hwf H He Hs). congruence.
Qed.

Definition finalized_if_present (d : Dag) (id : EventId) : Prop :=
  ∀ e, events d !! id = Some e → status e = Finalized.

Lemma removable_parents_spec d ps :
  (length (D.removable_parents d ps) ≤ length ps)%nat ∧
  ∀ p, p ∈ D.removable_parents d ps → finalized_if_present d p.
Proof.
  unfold D.removable_parents. split; [apply length_filter|].
  intros p [Hp _]%list_elem_of_filter e He. rewrite He in Hp. by case_bool_decide.
Qed.

Lemma remove_event_edges d id d' ps :
  D.remove_event d id = Some (d', ps) →
  (D.edge_count (events d) = length ps + D.edge_count (events d'))%nat ∧
  size (events d) = S (size (events d')).
Proof.
  intros H. apply remove_event_Some in H as (_ & e & He & -> & -> & _).
  unfold D.edge_count. split.
  - by rewrite (map_sum_delete _ _ _ _ He).
  - rewrite map_size_delete, He. simpl.
    assert (size (events d) ≠ 0%nat); [|lia]. intros Hz.
    apply map_size_empty_inv in Hz. rewrite Hz in He. by rewrite lookup_empty in He.
Qed.

Lemma gc_loop_spec fuel d targets queue rm rt :
  dag_wf d → (∀ q, q ∈ queue → finalized_if_present d q) →
  (length queue + D.edge_count (events d) ≤ fuel)%nat →
  ∃ d' st, D.gc_loop fuel d targets queue rm rt = Some (d', st) ∧ gc_post d d' ∧
    (removed st + size (events d') = rm + size (events d))%nat ∧
    (∀ q, q ∈ queue → is_Some (events d' !! q) → D.has_active_children d q = true).
Proof.
  revert d queue rm rt. induction fuel as [|fuel IH]; intros d [|id queue] rm rt Hwf Hq Hf;
    simpl in *; try lia.
  1, 2: exists d, (mkGCStats rm rt); split_and!; [done|by apply gc_post_refl|done|set_solver].
  destruct (D.remove_event d id) as [[d1 ps]|] eqn:Hr.
  - pose proof (remove_event_Some d id d1 ps Hr) as (Hna & e & He & _ & Hev & _).
    assert (Hs : status e = Finalized) by (apply (Hq id); [set_solver|done]).
    pose proof (remove_gc_post d id d1 ps e Hwf Hr He Hs) as Hp1.
    destruct (remove_event_edges d id d1 ps Hr) as [Hedge Hsize].
    destruct (removable_parents_spec d1 ps) as [Hlen Hfin].
    edestruct (IH d1 (queue ++ D.removable_parents d1 ps) (S rm) rt) as (d2 & st & Hl & Hp2 & Hrm & Hqq).
    + apply Hp1.
    + intros q [Hin|Hin]%elem_of_app; [|by apply Hfin]. intros eq Heq.
      apply (Hq q); [set_solver|]. eapply lookup_weaken; [done|apply Hp1].
    + rewrite length_app. lia.
    + exists d2, st. split_and!; [done|by eapply gc_post_trans|lia|].
      intros q [->|Hin]%elem_of_cons Hsome.
      * destruct Hsome as [e2 He2]. exfalso. eapply lookup_weaken in He2; [|apply Hp2].
        rewrite Hev, lookup_delete_eq in He2. done.
      * assert (is_Some (events d1 !! q)) as Hs1.
        { destruct Hsome as [e2 He2]. exists e2. eapply lookup_weaken; [done|apply Hp2]. }
        rewrite <-(gp_stable d d1 Hp1 q Hs1). apply Hqq; [set_solver|done].
  - assert (Hhead : is_Some (events d !! id) → D.has_active_children d id = true).
    { intros [? ?]. apply remove_event_None in Hr as [?|?]; [done|congruence]. }
    assert (∀ rt', ∃ d' st, D.gc_loop fuel d targets queue rm rt' = Some (d', st) ∧ gc_post d d' ∧
      (removed st + size (events d') = rm + size (events d))%nat ∧
      (∀ q, q ∈ id :: queue → is_Some (events d' !! q) → D.has_active_children d q = true)) as Hgo.
    { intros rt'. destruct (IH d queue rm rt') as (d2 & st & Hl & Hp2 & Hrm & Hqq);
        [done|intros; apply Hq; set_solver|lia|].
      exists d2, st. split_and!; [done..|]. intros q [->|Hin]%elem_of_cons [e2 He2].
      - apply Hhead. exists e2. eapply lookup_weaken; [done|apply Hp2].
      - apply Hqq; [done|by exists e2]. }
    case_match; apply Hgo.
Qed.

(** The fuel of [gc_finalized_events] is enough: every turn of its loop pops
    an id, and pushes ids only when it removes an event, at most one per edge
    the event carried. *)
Lemma gc_finalized_spec d ids :
  dag_wf d → (∀ id, id ∈ ids → finalized_if_present d id) →
  ∃ d' st, D.gc_finalized_events d ids = Some (d', st) ∧ gc_post d d' ∧
    (removed st + size (events d') = size (events d))%nat ∧
    (∀ id, id ∈ ids → is_Some (events d' !! id) → D.has_active_children d id = true).
Proof.
  intros Hwf Hids. apply (gc_loop_spec _ d (list_to_set ids) ids 0 0 Hwf Hids).
  unfold D.gc_fuel. lia.
Qed.

(** ** Ancestors *)

(** Edges out of the events not visited yet. *)
Definition edges_left (d : Dag) (visited : gset EventId) : nat :=
  D.edge_count (filter (fun '(id, _) => id ∉ visited) (events d)).

Lemma edges_left_empty d : edges_left d ∅ = D.edge_count (events d).
Proof.
  unfold edges_left. f_equal. apply map_filter_id. set_solver.
Qed.

Lemma edges_left_visit d visited x :
  x ∉ visited →
  edges_left d visited = (length (D.parents_of d x) + edges_left d ({[x]} ∪ visited))%nat.
Proof.
  intros Hx. unfold edges_left, D.edge_count, D.parents_of.
  assert (Hdel : filter (fun '(id, _) => id ∉ {[x]} ∪ visited) (events d) =
    delete x (filter (fun '(id, _) => id ∉ visited) (events d))).
  { apply map_eq. intros y. apply option_eq. intros e.
    rewrite lookup_delete_Some, !map_lookup_filter_Some. set_solver. }
  rewrite Hdel. destruct (events d !! x) as [e|] eqn:E.
  - rewrite (map_sum_delete _ (filter _ (events d)) x e); [done|].
    by apply map_lookup_filter_Some.
  - rewrite delete_id; [done|]. apply map_lookup_filter_None. by left.
Qed.

Definition closed_under_parents (d : Dag) (a : gset EventId) : Prop :=
  ∀ x y, x ∈ a → parent_rel d x y → y ∈ a.

Lemma closed_tc d a x y : closed_under_parents d a → x ∈ a → tc (parent_rel d) x y → y ∈ a.
Proof. intros Hc Hx. induction 1 as [x y|x y z]; eauto. Qed.

Lemma closed_no_tc d a x anc :
  closed_under_parents d a → (∀ x, x ∈ a → ¬ parent_rel d x anc) → x ∈ a →
  ¬ tc (parent_rel d) x anc.
Proof.
  intros Hc Hn Hx Ht. induction Ht as [x anc|x y anc]; [by eapply Hn|eauto].
Qed.

Lemma ancestors_loop_spec fuel d a q :
  (length q + edges_left d a ≤ fuel)%nat →
  (∀ x y, x ∈ a → parent_rel d x y → y ∈ a ∨ y ∈ q) →
  ∃ a', D.ancestors_loop fuel d a q = Some a' ∧ a ⊆ a' ∧ (∀ x, x ∈ q → x ∈ a') ∧
    closed_under_parents d a' ∧
    (∀ x, x ∈ a' → x ∈ a ∨ ∃ s, s ∈ q ∧ rtc (parent_rel d) s x).
Proof.
  revert a q. induction fuel as [|fuel IH]; intros a [|c q] Hf Hinv; simpl in Hf; try lia.
  1, 2: exists a; split_and!; [done..|set_solver| |by left];
    intros x y Hx Hxy; destruct (Hinv x y Hx Hxy); [done|set_solver].
  cbn [D.ancestors_loop]. case_bool_decide as Hc.
  - destruct (IH a q) as (a' & Hl & Hs & Hq & Hcl & Hr); [lia|set_solver|].
    exists a'. split_and!; [done..|set_solver|done|]. intros x Hx.
    destruct (Hr x Hx) as [?|(s & ? & ?)]; [by left|right; exists s; set_solver].
  - rewrite (edges_left_visit d a c Hc) in Hf.
    destruct (IH ({[c]} ∪ a) (q ++ D.parents_of d c)) as (a' & Hl & Hs & Hq & Hcl & Hr).
    { rewrite length_app. lia. }
    { unfold parent_rel in *. set_solver. }
    exists a'. split_and!; [done|set_solver|set_solver|done|]. intros x Hx.
    destruct (Hr x Hx) as [Hxa|(s & Hsq & Hsx)].
    + destruct (decide (x = c)) as [->|]; [right; exists c; split; [set_solver|done]|set_solver].
    + right. apply elem_of_app in Hsq as [?|?]; [exists s; set_solver|].
      exists c. split; [set_solver|]. by apply rtc_l with s.
Qed.

Lemma is_ancestor_loop_spec fuel d anc v q :
  (length q + edges_left d v ≤ fuel)%nat →
  (∀ x y, x ∈ v → parent_rel d x y → y ≠ anc ∧ (y ∈ v ∨ y ∈ q)) →
  ∃ b, D.is_ancestor_loop fuel d anc v q = Some b ∧
    if b then ∃ s, s ∈ q ∧ tc (parent_rel d) s anc
    else ∃ v', v ⊆ v' ∧ (∀ x, x ∈ q → x ∈ v') ∧ closed_under_parents d v' ∧
           ∀ x, x ∈ v' → ¬ parent_rel d x anc.
Proof.
  revert v q. induction fuel as [|fuel IH]; intros v [|c q] Hf Hinv; simpl in Hf; try lia.
  1, 2: exists false; split; [done|]; exists v; split_and!; [done|set_solver| |];
    [intros x y Hx Hxy; destruct (Hinv x y Hx Hxy); set_solver
    |intros x Hx Hxy; destruct (Hinv x anc Hx Hxy); done].
  cbn [D.is_ancestor_loop]. case_bool_decide as Hc; [|case_bool_decide as Ha].
  - destruct (IH v q) as (b & Hl & Hb); [lia|set_solver|]. exists b. split; [done|].
    destruct b.
    + destruct Hb as (s & ? & ?). exists s. set_solver.
    + destruct Hb as (v' & ? & ? & ? & ?). exists v'. set_solver.
  - exists true. split; [done|]. exists c. split; [set_solver|]. by apply tc_once.
  - rewrite (edges_left_visit d v c Hc) in Hf.
    destruct (IH ({[c]} ∪ v) (q ++ D.parents_of d c)) as (b & Hl & Hb).
    { rewrite length_app. lia. }
    { intros x y [->%elem_of_singleton|Hx]%elem_of_union Hxy; unfold parent_rel in *.
      - split; [congruence|set_solver].
      - destruct (Hinv x y Hx Hxy). set_solver. }
    exists b. split; [done|]. destruct b.
    + destruct Hb as (s & Hs & Hsa). apply elem_of_app in Hs as [?|?]; [exists s; set_solver|].
      exists c. split; [set_solver|]. by apply tc_l with s.
    + destruct Hb as (v' & ? & ? & ? & ?). exists v'. set_solver.
Qed.

(** ** Reachable DAGs *)

Definition max_depth_room (d : Dag) : Prop := (max_depth d < u64_max)%Z.

(** The histories of a DAG, with [seen] every id that was ever added or named
    as a parent.  [fresh]: no id is added that was seen before, as the ids of
    events are hashes over those of their parents and an event is added once.
    [above]: [add_event_with_depth] is called with a depth above those of the
    parents it links, and [add_event] below the largest [u64].  Events that are
    collected are finalized. *)
Inductive dag_reach (fresh above : bool) : gset EventId → Dag → Prop :=
| reach_new : dag_reach fresh above ∅ D.new
| reach_add seen d e d' id :
    dag_reach fresh above seen d → (fresh = true → ev_id e ∉ seen) → (above = true → max_depth_room d) →
    D.add_event d e = Ok (d', id) →
    dag_reach fresh above ({[id]} ∪ list_to_set (parent_ids e) ∪ seen) d'
| reach_add_with_depth seen d e z d' id :
    dag_reach fresh above seen d → (fresh = true → ev_id e ∉ seen ∧ ev_id e ∉ parent_ids e) → is_u64 z →
    (above = true → ∀ p zp, p ∈ parent_ids e → depths d !! p = Some zp → zp < z)%Z →
    D.add_event_with_depth d e z = Ok (d', id) →
    dag_reach fresh above ({[id]} ∪ list_to_set (parent_ids e) ∪ seen) d'
| reach_confirm seen d id : dag_reach fresh above seen d → dag_reach fresh above seen (D.confirm_event d id).1
| reach_finalize seen d ids : dag_reach fresh above seen d → dag_reach fresh above seen (D.finalize_events d ids)
| reach_finalize_depth seen d z :
    dag_reach fresh above seen d → dag_reach fresh above seen (D.finalize_up_to_depth d z)
| reach_remove seen d id d' ps :
    dag_reach fresh above seen d → D.remove_event d id = Some (d', ps) → dag_reach fresh above seen d'
| reach_gc seen d ids d' st :
    dag_reach fresh above seen d → (∀ id, id ∈ ids → finalized_if_present d id) →
    D.gc_finalized_events d ids = Some (d', st) → dag_reach fresh above seen d'.

(** The depth of an event is above the depth of each of its parents that the
    DAG still holds. *)
Definition depth_increasing (d : Dag) : Prop :=
  ∀ x y zx zy, parent_rel d x y → depths d !! x = Some zx → depths d !! y = Some zy → (zy < zx)%Z.

Definition ids_in (d : Dag) (seen : gset EventId) : Prop :=
  ∀ x e, events d !! x = Some e → x ∈ seen ∧ ∀ p, p ∈ parent_ids e → p ∈ seen.

Definition acyclic (d : Dag) : Prop := ∀ x, ¬ tc (parent_rel d) x x.

Record dag_inv (fresh above : bool) (seen : gset EventId) (d : Dag) : Prop := mkDagInv {
  inv_wf : dag_wf d;
  inv_acyclic : fresh = true → acyclic d;
  inv_depth : fresh = true → above = true → depth_increasing d;
  inv_seen : ids_in d seen
}.

Lemma tc_subrel (R R' : EventId → EventId → Prop) x y : (∀ x y, R x y → R' x y) → tc R x y → tc R' x y.
Proof. intros HR. induction 1; [apply tc_once; auto|eapply tc_l; eauto]. Qed.

(** Operations that only drop events, or only change their status, keep the
    part of the invariant that speaks about parents. *)
Lemma shrink_inv fresh above seen d d' :
  dag_inv fresh above seen d → dag_wf d' → depths d' ⊆ depths d →
  (∀ x e', events d' !! x = Some e' →
     ∃ e, events d !! x = Some e ∧ parent_ids e = parent_ids e') →
  dag_inv fresh above seen d'.
Proof.
  intros [Hwf Ha Hd Hs] Hwf' Hdep Hev.
  assert (Hrel : ∀ x y, parent_rel d' x y → parent_rel d x y).
  { intros x y. unfold parent_rel, D.parents_of. destruct (events d' !! x) as [e'|] eqn:E; [|set_solver].
    by destruct (Hev x e' E) as (e & -> & ->). }
  split; [done| | |].
  - intros Hf x Hx. apply (Ha Hf x). by eapply tc_subrel.
  - intros Hf Hab x y zx zy Hxy Hx Hy. apply (Hd Hf Hab x y); [by apply Hrel|by eapply lookup_weaken..].
  - intros x e' He'. destruct (Hev x e' He') as (e & He & <-). by apply Hs.
Qed.

(** A new event of a fresh id is nobody's parent. *)
Lemma store_rel seen d e z st x y :
  ids_in d seen → ev_id e ∉ seen → ev_id e ∉ parent_ids e → parent_rel (D.store_event d e z st) x y →
  y ≠ ev_id e ∧ (x ≠ ev_id e → parent_rel d x y) ∧ (x = ev_id e → y ∈ parent_ids e).
Proof.
  intros Hs Hfresh Hself. unfold parent_rel, D.parents_of. simpl. rewrite lookup_insert. case_decide as Hx; [set_solver|].
  intros Hp. destruct (events d !! x) as [ex|] eqn:E; [|set_solver]. apply Hs in E as [_ E]. pose proof (E y Hp). set_solver.
Qed.

Lemma store_acyclic seen d e z st :
  ids_in d seen → ev_id e ∉ seen → ev_id e ∉ parent_ids e → acyclic d → acyclic (D.store_event d e z st).
Proof.
  intros Hs Hfresh Hself Ha.
  assert (Htc : ∀ x y, tc (parent_rel (D.store_event d e z st)) x y → y ≠ ev_id e ∧ (x ≠ ev_id e → tc (parent_rel d) x y)).
  { intros x y Hxy. induction Hxy as [x y Hxy|x w y Hxw _ [IH1 IH2]].
    - destruct (store_rel seen d e z st x y Hs Hfresh Hself Hxy) as (H1 & H2 & _). split; [done|]. intros. by apply tc_once, H2.
    - destruct (store_rel seen d e z st x w Hs Hfresh Hself Hxw) as (H1 & H2 & _). split; [done|].
      intros Hx. eapply tc_l; [by apply H2|by apply IH2]. }
  intros x Hx. destruct (Htc x x Hx) as [H1 H2]. by apply (Ha x), H2.
Qed.

Lemma store_inv fresh above seen d e z st :
  dag_inv fresh above seen d → dag_wf (D.store_event d e z st) →
  (fresh = true → ev_id e ∉ seen ∧ ev_id e ∉ parent_ids e) →
  (above = true → ∀ p zp, p ∈ parent_ids e → depths d !! p = Some zp → zp < z)%Z →
  dag_inv fresh above ({[ev_id e]} ∪ list_to_set (parent_ids e) ∪ seen) (D.store_event d e z st).
Proof.
  intros [Hwf Ha Hd Hs] Hwf' Hfresh Hz. split; [done| | |].
  - intros Hf. destruct (Hfresh Hf) as [H1 H2]. by apply (store_acyclic seen); [..|by apply Ha].
  - intros Hf Hab x y zx zy Hxy. destruct (Hfresh Hf) as [H1 H2].
    destruct (store_rel seen d e z st x y Hs H1 H2 Hxy) as (Hy & Hne & Heq). simpl.
    rewrite (lookup_insert_ne _ _ y) by done. rewrite lookup_insert. case_decide as Hx; intros Hzx Hzy.
    + simplify_eq. eapply Hz; [done|by apply Heq|done].
    + eapply (Hd Hf Hab x y); [by apply Hne; congruence|done|done].
  - intros x ex. simpl. rewrite lookup_insert. case_decide; intros Hx; simplify_eq.
    + set_solver.
    + apply Hs in Hx as [? Hx]. set_solver.
Qed.

Lemma restatus_shrink (f : Event → Event) d (evs : gmap EventId Event) :
  (∀ e, parent_ids (f e) = parent_ids e) →
  (∀ x e', evs !! x = Some e' → ∃ e, events d !! x = Some e ∧ (e' = e ∨ e' = f e)) →
  ∀ x e', evs !! x = Some e' → ∃ e, events d !! x = Some e ∧ parent_ids e = parent_ids e'.
Proof. intros Hf H x e' He'. destruct (H x e' He') as (e & He & [->| ->]); eauto. Qed.

Lemma finalize_event_inv fresh above seen d id : dag_inv fresh above seen d → dag_inv fresh above seen (D.finalize_event d id).
Proof.
  intros Hi. eapply shrink_inv; [done|apply finalize_event_wf, Hi|done|].
  apply (restatus_shrink (fun e => set_status e Finalized)); [done|]. simpl. intros x e'.
  destruct (events d !! id) as [e|] eqn:E; [|eauto]. rewrite lookup_insert.
  case_decide; subst; naive_solver.
Qed.

Lemma confirm_event_inv fresh above seen d id : dag_inv fresh above seen d → dag_inv fresh above seen (D.confirm_event d id).1.
Proof.
  intros Hi. pose proof (confirm_event_wf d id (inv_wf _ _ _ _ Hi)) as Hwf.
  unfold D.confirm_event in *. destruct (events d !! id) as [e|] eqn:E; [|done].
  eapply shrink_inv; [done|done|done|].
  apply (restatus_shrink (fun e => set_status e Confirmed)); [done|]. simpl. intros x e'.
  rewrite lookup_insert. case_decide; subst; naive_solver.
Qed.

Lemma finalize_up_to_depth_inv fresh above seen d z :
  dag_inv fresh above seen d → dag_inv fresh above seen (D.finalize_up_to_depth d z).
Proof.
  intros Hi. eapply shrink_inv; [done|apply finalize_up_to_depth_wf, Hi|done|].
  apply (restatus_shrink (fun e => set_status e Finalized)); [done|]. simpl. intros x e'.
  rewrite map_lookup_imap. destruct (events d !! x) as [e|]; simpl; [|done].
  intros [= <-]. exists e. split; [done|]. case_match; [|by left].
  case_match; [by right|by left].
Qed.

Lemma add_event_ok d e d' id :
  dag_wf d → max_depth_room d → D.add_event d e = Ok (d', id) →
  id = ev_id e ∧ (ev_id e ∉ dom (events d)) ∧ (∀ p, p ∈ parent_ids e → p ∈ dom (events d)) ∧
  ∃ z, d' = D.store_event d e z (D.link_parents id (parent_ids e) (children d, tips d)) ∧
    (∀ p zp, p ∈ parent_ids e → depths d !! p = Some zp → zp < z)%Z ∧
    ((z = 0%Z ∧ parent_ids e = []) ∨
     (∃ p zp, p ∈ parent_ids e ∧ depths d !! p = Some zp ∧ z = (zp + 1)%Z)).
Proof.
  intros Hwf Hroom H. unfold D.add_event in H.
  destruct (D.contains d (ev_id e)) eqn:Hc; [done|].
  apply contains_false, not_elem_of_dom in Hc.
  case_bool_decide as Hp; simpl in H.
  - simp_res. split_and!; [done|done|rewrite Hp; set_solver|].
    exists 0%Z. split_and!; [done|rewrite Hp; set_solver|by left].
  - destruct (D.parent_depth_loop d (parent_ids e) 0) as [m| |] eqn:Hl; simpl in H; simp_res.
    apply parent_depth_loop_ok in Hl as (Hin & H0 & Hall & Hmax).
    assert (Hfind : ∃ p zp, p ∈ parent_ids e ∧ depths d !! p = Some zp ∧ m = zp).
    { destruct Hmax as [->|(p & Hpp & ->)].
      - destruct (parent_ids e) as [|p ps] eqn:Epar; [done|].
        assert (Hpd : p ∈ dom (depths d)) by (rewrite (wf_dom d Hwf); apply Hin; set_solver).
        apply elem_of_dom in Hpd as [zp Hzp]. exists p, zp. split_and!; [set_solver|done|].
        pose proof (wf_max d Hwf p zp Hzp).
        pose proof (Hall p zp ltac:(set_solver) Hzp). lia.
      - assert (Hpd : p ∈ dom (depths d)) by (rewrite (wf_dom d Hwf); by apply Hin).
        apply elem_of_dom in Hpd as [zp Hzp]. exists p, zp. by rewrite Hzp. }
    destruct Hfind as (q & zq & Hq & Hzq & ->).
    assert (u64_add zq 1 = zq + 1)%Z as Hadd.
    { pose proof (wf_max d Hwf q zq Hzq). unfold max_depth_room in Hroom.
      unfold u64_add. apply wrap64_small. unfold is_u64. lia. }
    rewrite Hadd. split_and!; [done..|]. exists (zq + 1)%Z. split_and!; [done| |].
    + intros p zp Hpp Hzp. pose proof (Hall p zp Hpp Hzp). lia.
    + right. by exists q, zq.
Qed.

Lemma tc_source d x y : tc (parent_rel d) x y → x ∈ dom (events d).
Proof.
  intros H. assert (∃ w, parent_rel d x w) as [w Hw] by (inversion H; eauto).
  unfold parent_rel, D.parents_of in Hw. apply elem_of_dom.
  destruct (events d !! x); [eauto|set_solver].
Qed.

(** The event is stored, with or without room. *)
Lemma add_event_stored d e d' id :
  dag_wf d → D.add_event d e = Ok (d', id) →
  id = ev_id e ∧ (ev_id e ∉ dom (events d)) ∧ (∀ p, p ∈ parent_ids e → p ∈ dom (events d)) ∧
  ∃ z, d' = D.store_event d e z (D.link_parents id (parent_ids e) (children d, tips d)) ∧
    (max_depth_room d → ∀ p zp, p ∈ parent_ids e → depths d !! p = Some zp → zp < z)%Z.
Proof.
  intros Hwf H. assert (Hroom : max_depth_room d → D.add_event d e = Ok (d', id)) by done.
  unfold D.add_event in H. destruct (D.contains d (ev_id e)) eqn:Hc; [done|]. apply contains_false, not_elem_of_dom in Hc.
  case_bool_decide as Hp; simpl in H.
  - simp_res. split_and!; [done|done|rewrite Hp; set_solver|]. exists 0%Z. split; [done|]. rewrite Hp. set_solver.
  - destruct (D.parent_depth_loop d (parent_ids e) 0) as [m| |] eqn:Hl; simpl in H; simp_res.
    apply parent_depth_loop_ok in Hl as (Hin & _). split_and!; [done..|]. exists (u64_add m 1). split; [done|].
    intros Hr. destruct (add_event_ok d e _ _ Hwf Hr (Hroom Hr)) as (_ & _ & _ & z & Hst & Hlt & _).
    apply (f_equal (fun d => depths d !! ev_id e)) in Hst. simpl in Hst. rewrite !lookup_insert_eq in Hst.
    by injection Hst as ->.
Qed.

Lemma dag_reach_inv fresh above seen d : dag_reach fresh above seen d → dag_inv fresh above seen d.
Proof.
  induction 1 as [|seen d e d' id _ Hi Hf Hroom Ha|seen d e z d' id _ Hi Hf Hz Hp Ha
                 |seen d id _ Hi|seen d ids _ Hi|seen d z _ Hi|seen d id d' ps _ Hi Hr
                 |seen d ids d' st _ Hi Hfin Hgc].
  - split; [apply new_wf| | |by intros x e ?].
    + intros _ x Hx. apply tc_source in Hx. set_solver.
    + intros _ _ x y zx zy Hxy. unfold parent_rel, D.parents_of in Hxy. set_solver.
  - pose proof (add_event_wf d e d' id (inv_wf _ _ _ _ Hi) Ha) as [Hwf' _].
    destruct (add_event_stored d e d' id (inv_wf _ _ _ _ Hi) Ha) as (-> & Hnew & Hin & z & -> & Hlt).
    apply store_inv; [done|done| |by intros Hab; apply Hlt, Hroom].
    intros Hfr. split; [by apply Hf|]. intros Hself. by apply Hnew, Hin.
  - pose proof (add_event_with_depth_wf d e z d' id (inv_wf _ _ _ _ Hi) (proj1 Hz) Ha) as [Hwf' _].
    unfold D.add_event_with_depth in Ha. destruct (D.contains d (ev_id e)); [done|]. simp_res.
    by apply store_inv.
  - by apply confirm_event_inv.
  - unfold D.finalize_events. revert d Hi. induction ids as [|id ids IH]; intros d Hi; [done|].
    by apply IH, finalize_event_inv.
  - by apply finalize_up_to_depth_inv.
  - pose proof (remove_event_wf d id d' ps (inv_wf _ _ _ _ Hi) Hr) as Hwf'.
    apply remove_event_Some in Hr as (_ & e & _ & _ & Hev & _ & Hd & _).
    eapply shrink_inv; [done|done|rewrite Hd; apply delete_subseteq|].
    intros x e'. rewrite Hev. intros [_ ?]%lookup_delete_Some. eauto.
  - destruct (gc_finalized_spec d ids (inv_wf _ _ _ _ Hi) Hfin) as (d2 & st2 & Hl & Hp & _).
    assert (d2 = d') as -> by congruence.
    eapply shrink_inv; [done|apply Hp|apply Hp|]. intros x e' He'. exists e'.
    split; [|done]. eapply lookup_weaken; [done|apply Hp].
Qed.

Lemma depth_increasing_tc d x y zx zy :
  dag_wf d → depth_increasing d → tc (parent_rel d) x y →
  depths d !! x = Some zx → depths d !! y = Some zy → (zy < zx)%Z.
Proof.
  intros Hwf Hd Hxy. revert zx. induction Hxy as [x y Hxy|x w y Hxw Hwy IH]; intros zx Hx Hy.
  - by apply (Hd x y).
  - assert (Hw : is_Some (depths d !! w)).
    { apply elem_of_dom. rewrite (wf_dom d Hwf). apply elem_of_dom.
      apply tc_rtc, rtc_inv in Hwy as [->|(v & Hwv & _)].
      - apply elem_of_dom. rewrite <-(wf_dom d Hwf). apply elem_of_dom. eauto.
      - unfold parent_rel, D.parents_of in Hwv. destruct (events d !! w); [eauto|set_solver]. }
    destruct Hw as [zw Hw]. specialize (IH zw Hw Hy). pose proof (Hd x w zx zw Hxw Hx Hw). lia.
Qed.

Lemma parent_depth_loop_total d ps m :
  (∃ m', D.parent_depth_loop d ps m = Ok m') ∨
  (∃ p, D.parent_depth_loop d ps m = Err (MissingParent p)).
Proof.
  revert m. induction ps as [|p ps IH]; intros m; simpl; [eauto|].
  destruct (D.contains d p); [apply IH|eauto].
Qed.

(** ** A concrete DAG for the witnesses: [g] <- [p] <- [c], and [a] above [p] *)

Definition wit_event (id : EventId) (parents : list EventId) : Event :=
  mkEvent id System parents None [] (Snap.new 0) "v1" Pending None 0.

Definition dag_of (r : result DagError (Dag * EventId)) : Dag :=
  match r with
  | Ok (d, _) => d
  | _ => D.new
  end.

Definition wit_g : Dag := dag_of (D.add_event D.new (wit_event "g" [])).
Definition wit_p : Dag := dag_of (D.add_event wit_g (wit_event "p" ["g"])).
Definition wit_c : Dag := dag_of (D.add_event wit_p (wit_event "c" ["p"])).
Definition wit_a : Dag := dag_of (D.add_event wit_c (wit_event "a" ["p"])).
Definition wit_fin : Dag := D.finalize_events wit_a ["c"; "p"].

Definition wit_seen_next (e : Event) (seen : gset EventId) : gset EventId :=
  {[ev_id e]} ∪ list_to_set (parent_ids e) ∪ seen.
Definition wit_seen : gset EventId :=
  wit_seen_next (wit_event "a" ["p"]) (wit_seen_next (wit_event "c" ["p"])
    (wit_seen_next (wit_event "p" ["g"]) (wit_seen_next (wit_event "g" []) ∅))).

Lemma wit_reach_step seen d e :
  dag_reach true true seen d →
  bool_decide (ev_id e ∉ seen) && bool_decide (max_depth d < u64_max)%Z = true →
  D.add_event d e = Ok (dag_of (D.add_event d e), ev_id e) →
  dag_reach true true (wit_seen_next e seen) (dag_of (D.add_event d e)).
Proof.
  intros Hr Hb Ha. apply andb_true_iff in Hb as [?%bool_decide_eq_true ?%bool_decide_eq_true].
  by eapply reach_add.
Qed.

Lemma wit_fin_reach : dag_reach true true wit_seen wit_fin.
Proof.
  apply reach_finalize. unfold wit_seen.
  do 4 (apply wit_reach_step; [|vm_compute; reflexivity|vm_compute; reflexivity]).
  apply reach_new.
Qed.

Lemma wit_fin_wf : dag_wf wit_fin.
Proof. apply (dag_reach_inv true true wit_seen), wit_fin_reach. Qed.

(** ** Properties *)

(** C28: the DAG is well formed, acyclic and ordered by depth.  After any
    operations, with any ids and depths and collections of finalized events, the
    indexes agree: depths, children, tips and pending events speak of events the
    DAG holds, a tip has no child, no depth is above [max_depth].  When no id is
    added that was added or named as a parent before, no event is its own
    ancestor, whatever depths are given.  When moreover the given depths are
    above those of the parents that are linked, and no depth is the largest
    [u64], the depth strictly decreases along every chain of parents. *)
Theorem dag_reachable_acyclic (fresh above : bool) (seen : gset EventId) (d : Dag) (Hr : dag_reach fresh above seen d) :
  dag_wf d ∧
  (fresh = true → ∀ x, ¬ tc (parent_rel d) x x) ∧
  (fresh = true → above = true → ∀ x y zx zy, tc (parent_rel d) x y →
     depths d !! x = Some zx → depths d !! y = Some zy → (zy < zx)%Z).
Proof.
  destruct (dag_reach_inv fresh above seen d Hr) as [Hwf Ha Hd _]. split_and!; [done|done|].
  intros Hf Hab x y zx zy. apply depth_increasing_tc; [done|by apply Hd].
Qed.

Lemma dag_reachable_acyclic_witness : dag_reach true true wit_seen wit_fin ∧ ¬ tc (parent_rel wit_fin) "c" "c".
Proof.
  split; [apply wit_fin_reach|].
  exact (proj1 (proj2 (dag_reachable_acyclic true true wit_seen wit_fin wit_fin_reach)) eq_refl "c").
Defined.

(** [add_event] answers in exactly one of three ways: a known id is
    refused as a duplicate; otherwise an event with a parent the DAG does not
    hold is refused and the reported id is such a parent; otherwise the event
    is stored, becomes a tip and pending, its parents stop being tips and get
    it as a child, and its depth is 0 without parents and otherwise one more
    than the depth of its deepest parent. *)
Theorem add_event_behaviour (d : Dag) (e : Event) (Hwf : dag_wf d) (Hroom : max_depth_room d) :
  (ev_id e ∈ dom (events d) ∧ D.add_event d e = Err (DuplicateEvent (ev_id e))) ∨
  ((ev_id e ∉ dom (events d)) ∧
   ∃ p, p ∈ parent_ids e ∧ (p ∉ dom (events d)) ∧ D.add_event d e = Err (MissingParent p)) ∨
  ((ev_id e ∉ dom (events d)) ∧ (∀ p, p ∈ parent_ids e → p ∈ dom (events d)) ∧
   ∃ d' z, D.add_event d e = Ok (d', ev_id e) ∧ dag_wf d' ∧
     events d' = <[ev_id e := e]> (events d) ∧ depths d' = <[ev_id e := z]> (depths d) ∧
     tips d' = {[ev_id e]} ∪ (tips d ∖ list_to_set (parent_ids e)) ∧
     pending d' = {[ev_id e]} ∪ pending d ∧
     (∀ p, p ∈ parent_ids e → children_of d' p = {[ev_id e]} ∪ children_of d p) ∧
     (∀ p zp, p ∈ parent_ids e → depths d !! p = Some zp → zp < z)%Z ∧
     ((z = 0%Z ∧ parent_ids e = []) ∨
      (∃ p zp, p ∈ parent_ids e ∧ depths d !! p = Some zp ∧ z = (zp + 1)%Z))).
Proof.
  destruct (D.add_event d e) as [[d' id]|err|] eqn:Ha.
  - right; right. pose proof (add_event_wf d e d' id Hwf Ha) as [Hwf' _].
    apply add_event_ok in Ha as (-> & Hnew & Hin & z & -> & Hlt & Hz); [|done..].
    split_and!; [done..|]. eexists _, z. split_and!; [done..| | | | |].
    + simpl. by rewrite link_parents_tips.
    + done.
    + intros p Hp. unfold children_of. simpl. rewrite link_parents_children.
      by rewrite decide_True.
    + done.
    + done.
  - unfold D.add_event in Ha. destruct (D.contains d (ev_id e)) eqn:Hc.
    + left. apply contains_iff in Hc. split; [done|congruence].
    + right; left. apply contains_false, not_elem_of_dom in Hc. split; [done|].
      case_bool_decide; simpl in Ha; [done|].
      destruct (parent_depth_loop_total d (parent_ids e) 0) as [[m Hm]|[p Hp]].
      * by rewrite Hm in Ha.
      * rewrite Hp in Ha. simpl in Ha. exists p. apply parent_depth_loop_missing in Hp.
        split_and!; [apply Hp|apply Hp|congruence].
  - exfalso. unfold D.add_event in Ha. destruct (D.contains d (ev_id e)); [done|].
    case_bool_decide; simpl in Ha; [done|].
    destruct (parent_depth_loop_total d (parent_ids e) 0) as [[m Hm]|[p Hp]];
      by rewrite ?Hm, ?Hp in Ha.
Qed.

Lemma add_event_behaviour_witness :
  D.add_event wit_fin (wit_event "x" ["c"; "nope"]) = Err (MissingParent "nope").
Proof.
  destruct (add_event_behaviour wit_fin (wit_event "x" ["c"; "nope"]) wit_fin_wf)
    as [[? _]|[[_ (p & _ & _ & Ha)]|[_ [_ (d' & z & Ha & _)]]]]; vm_compute; reflexivity.
Defined.

(** Garbage collection of finalized ids terminates and is exact: only
    Finalized events without a child that is still active are removed, a
    requested event survives only because it has such a child, the invariant
    is kept, [removed] is the number of events that left the DAG and the
    recorded maximum depth does not change. *)
Theorem gc_finalized_events_correct (d : Dag) (ids : list EventId) (Hwf : dag_wf d)
    (Hfin : ∀ id, id ∈ ids → finalized_if_present d id) :
  ∃ d' st, D.gc_finalized_events d ids = Some (d', st) ∧
    dag_wf d' ∧ events d' ⊆ events d ∧
    (∀ x e, events d !! x = Some e → events d' !! x = None →
       status e = Finalized ∧ D.has_active_children d x = false) ∧
    (∀ id, id ∈ ids → is_Some (events d !! id) →
       is_Some (events d' !! id) ↔ D.has_active_children d id = true) ∧
    (removed st + size (events d') = size (events d))%nat ∧
    max_depth d' = max_depth d.
Proof.
  destruct (gc_finalized_spec d ids Hwf Hfin) as (d' & st & Hgc & Hp & Hrm & Hq).
  exists d', st. split_and!; [done|apply Hp..| | |apply Hp].
  - intros id Hid [e He]. split; [by apply Hq|]. intros Hact.
    destruct (events d' !! id) eqn:E; [by eexists|].
    destruct (gp_removed d d' Hp id e He E). congruence.
  - done.
Qed.

Lemma gc_finalized_events_correct_witness :
  ∃ d' st, D.gc_finalized_events wit_fin ["c"; "p"] = Some (d', st) ∧ dag_wf d' ∧
    events d' ⊆ events wit_fin.
Proof.
  destruct (gc_finalized_events_correct wit_fin ["c"; "p"] wit_fin_wf) as (d' & st & H1 & H2 & H3 & _).
  - intros id Hid e He. apply list_elem_of_In in Hid. destruct Hid as [<-|[<-|[]]];
      vm_compute in He; injection He as <-; reflexivity.
  - exists d', st. done.
Defined.

(** The [retained] statistic counts a kept event once per visit: here [p] is
    requested once, is kept once (its child [a] is still pending), and is
    reported as two retained events, because removing [c] queues it again. *)
Theorem gc_retained_overcounts :
  (fun '(d', st) => (retained st, elements (dom (events d')))) <$>
    D.gc_finalized_events wit_fin ["c"; "p"] = Some (2%nat, ["g"; "a"; "p"]).
Proof. vm_compute. reflexivity. Qed.

(** [get_ancestors] always returns exactly the transitive parents of an
    event, and [is_ancestor] always answers whether one event is a transitive
    parent of another, different one; neither search needs the DAG to be
    acyclic to terminate. *)
Theorem ancestors_correct (d : Dag) (id anc : EventId) :
  (∃ a, D.get_ancestors d id = Some a ∧ ∀ x, x ∈ a ↔ tc (parent_rel d) id x) ∧
  (∃ b, D.is_ancestor d anc id = Some b ∧
     (b = true ↔ anc ≠ id ∧ tc (parent_rel d) id anc)).
Proof.
  split.
  - destruct (ancestors_loop_spec (length (D.parents_of d id) + D.edge_count (events d)) d ∅
      (D.parents_of d id)) as (a & Hl & _ & Hq & Hc & Hr).
    { by rewrite edges_left_empty. }
    { set_solver. }
    exists a. split; [done|]. intros x. split.
    + intros Hx. destruct (Hr x Hx) as [?|(s & Hs & Hsx)]; [set_solver|].
      apply tc_rtc_r with s; [by apply tc_once|done].
    + intros Hx. inversion Hx as [? Hp|? w ? Hp Hw]; subst; [by apply Hq|].
      eapply closed_tc; [done|by apply Hq|done].
  - unfold D.is_ancestor. case_bool_decide as Heq; [exists false; naive_solver|].
    destruct (is_ancestor_loop_spec (1 + D.edge_count (events d)) d anc ∅ [id])
      as (b & Hl & Hb); [by rewrite edges_left_empty|set_solver|].
    exists b. split; [done|]. destruct b.
    + destruct Hb as (s & ->%list_elem_of_singleton & ?). done.
    + split; [done|]. intros [_ Ht]. destruct Hb as (v & _ & Hq & Hc & Hn). exfalso.
      eapply closed_no_tc; [exact Hc|exact Hn| |exact Ht]. apply Hq. set_solver.
Qed.
