(* ===== verification/Coin.v ===== *)
(** * Objects, coins and resources

    [types/src/object.rs], [types/src/coin.rs], [types/src/envelope.rs] and
    [types/src/resource.rs]: owned objects, the coin object with its balance,
    its storage format [CoinState], the object envelope, and the Flux, Power and
    parameter records with their deterministic object ids.  [SystemTime::now]
    is an argument.  BCS is a parameter ([Bcs]). *)

From Stdlib Require Import ZArith Lia.
From stdpp Require Import base gmap sets list strings numbers pretty.
From S2P Require Import Prelude Hash.

Abbreviation ObjectId := HashValue.
Abbreviation Address := HashValue.
Abbreviation ObjectDigest := HashValue.

Inductive ObjectType := OwnedObject | SharedObject | ImmutableObject.

Inductive Ownership :=
| AddressOwner (a : Address)
| ObjectOwner (id : ObjectId)
| Shared (initial_shared_version : Z)
| Immutable.

#[global] Instance ObjectType_eq_dec : EqDecision ObjectType.
Proof. solve_decision. Defined.
#[global] Instance Ownership_eq_dec : EqDecision Ownership.
Proof. solve_decision. Defined.

Record ObjectMetadata := mkObjectMetadata {
  om_id : ObjectId;
  om_version : Z;
  om_digest : ObjectDigest;
  om_object_type : ObjectType;
  om_owner : option Address;
  om_ownership : Ownership;
  om_created_at : Z;
  om_updated_at : Z
}.

(** [CoinType] wraps the subnet id, [Balance] a [u64]. *)
Record CoinType := mkCoinType { ct_str : string }.
Record Balance := mkBalance { bal_value : Z }.

Record CoinData := mkCoinData { coin_type : CoinType; balance : Balance }.

(** [Object<T>], and [Coin = Object<CoinData>]. *)
Record Object (T : Type) := mkObject { metadata : ObjectMetadata; data : T }.
Arguments mkObject {T} metadata data.
Arguments metadata {T} _.
Arguments data {T} _.

Abbreviation Coin := (Object CoinData).

(** The storage format of a coin. *)
Record CoinState := mkCoinState {
  cs_owner : string;
  cs_balance : Z;
  cs_version : Z;
  cs_coin_type : string
}.

#[global] Instance CoinType_eq_dec : EqDecision CoinType.
Proof. solve_decision. Defined.
#[global] Instance CoinType_countable : Countable CoinType :=
  inj_countable' ct_str mkCoinType ltac:(by intros []).
#[global] Instance Balance_eq_dec : EqDecision Balance.
Proof. solve_decision. Defined.
#[global] Instance CoinData_eq_dec : EqDecision CoinData.
Proof. solve_decision. Defined.
#[global] Instance ObjectMetadata_eq_dec : EqDecision ObjectMetadata.
Proof. solve_decision. Defined.
#[global] Instance Coin_eq_dec : EqDecision Coin.
Proof. solve_decision. Defined.
#[global] Instance CoinState_eq_dec : EqDecision CoinState.
Proof. solve_decision. Defined.

(** ** The [bcs] crate

    Serialization of [CoinState] and [CoinData] (the format's length limit of
    2^31 - 1 on a string is not modelled), and the documented round trip of
    [CoinData]. *)
Class Bcs := {
  bcs_coin_state : CoinState → bytes;
  bcs_coin_data : CoinData → bytes;
  bcs_coin_data_de : bytes → option CoinData;
  bcs_coin_data_de_ser : ∀ d, is_u64 (bal_value (balance d)) →
    bcs_coin_data_de (bcs_coin_data d) = Some d
}.

(** ** Formatting *)

Definition fmt_u64 (z : Z) : string := pretty z.

Fixpoint fmt_hex_loop (fuel : nat) (z : Z) (acc : string) : string :=
  match fuel with
  | O => acc
  | S fuel' =>
      let acc' := String (hex_digit (Z.to_N (z mod 16))) acc in
      if (z / 16 =? 0)%Z then acc' else fmt_hex_loop fuel' (z / 16) acc'
  end.

(** [format!("{:x}", z)]; a [u64] has at most 16 hexadecimal digits. *)
Definition fmt_hex (z : Z) : string := fmt_hex_loop 16 z EmptyString.

Definition to_ascii_lowercase_char (c : Ascii.ascii) : Ascii.ascii :=
  let n := Ascii.N_of_ascii c in
  if ((65 <=? n) && (n <=? 90))%N then Ascii.ascii_of_N (n + 32) else c.

Fixpoint to_ascii_lowercase (s : string) : string :=
  match s with
  | EmptyString => EmptyString
  | String c s' => String (to_ascii_lowercase_char c) (to_ascii_lowercase s')
  end.

(** [s.strip_prefix("0x").unwrap_or(s)]. *)
Definition strip_0x (s : string) : string :=
  match s with
  | String c (String c' s') =>
      if bool_decide (c = Ascii.Ascii false false false false true true false false)
         && bool_decide (c' = Ascii.Ascii false false false true true true true false)
      then s' else s
  | _ => s
  end.

(** ** Hashing of ids *)

Section Ids.
Context `{Blake3} `{HexCrate}.

(** [setu_hash_with_domain]. *)
Definition setu_hash_with_domain (domain : string) (d : bytes) : HashValue :=
  blake3 (as_bytes domain ++ d).

(** [Display] of [ObjectId] and [Address]. *)
Definition show_id (a : HashValue) : string := ("0x" +:+ hex_encode (hv_bytes a))%string.

Definition address_from_bytes (b : bytes) : result string Address :=
  match HV.from_slice b with
  | Ok h => Ok h
  | _ => Err "Address must be 32 bytes"%string
  end.

Definition address_from_hex (s : string) : result string Address :=
  match hex_decode (strip_0x s) with
  | None => Err "Invalid hex string"%string
  | Some b => address_from_bytes b
  end.

Definition object_id_from_hex (s : string) : result string ObjectId :=
  match hex_decode (strip_0x s) with
  | None => Err "Invalid hex string"%string
  | Some b =>
      match HV.from_slice b with
      | Ok h => Ok h
      | _ => Err "ObjectId must be 32 bytes"%string
      end
  end.

(** [Address::normalize]. *)
Definition address_normalize (s : string) : Address :=
  match address_from_hex s with
  | Ok a => a
  | _ => blake3 (as_bytes s)
  end.

Definition generate_object_id (seed : bytes) : ObjectId :=
  blake3 (as_bytes "SETU_GEN_OID:" ++ seed).

Definition deterministic_coin_id (owner : Address) (subnet_id : string) : ObjectId :=
  blake3 (as_bytes "SETU_COIN_ID:" ++ as_bytes (show_id owner) ++ as_bytes ":"
            ++ as_bytes subnet_id).

Definition deterministic_coin_id_from_str (owner subnet_id : string) : ObjectId :=
  blake3 (as_bytes "SETU_COIN_ID:" ++ as_bytes owner ++ as_bytes ":" ++ as_bytes subnet_id).

Definition deterministic_genesis_coin_id (owner subnet_id : string) (index : Z) : ObjectId :=
  blake3 (as_bytes "SETU_GENESIS_MULTI:" ++ as_bytes owner ++ as_bytes ":"
            ++ as_bytes subnet_id ++ as_bytes ":" ++ to_le_bytes 4 index).

(** The string hashed by [coin_id_from_tx]. *)
Definition coin_tx_preimage (tx_hash : HashValue) (output_index : Z) : bytes :=
  as_bytes "SETU_COIN_TX:" ++ hv_bytes tx_hash ++ as_bytes ":" ++ to_le_bytes 4 output_index.

Definition coin_id_from_tx (tx_hash : HashValue) (output_index : Z) : ObjectId :=
  blake3 (coin_tx_preimage tx_hash output_index).

Definition flux_state_object_id (address : string) : ObjectId :=
  setu_hash_with_domain "SETU_FLUX:" (as_bytes (to_ascii_lowercase address)).

Definition power_state_object_id (address : string) : ObjectId :=
  setu_hash_with_domain "SETU_POWER:" (as_bytes (to_ascii_lowercase address)).

Definition resource_params_object_id : ObjectId :=
  setu_hash_with_domain "SETU_RESOURCE_PARAMS:" [].
End Ids.

(** ** [Balance] *)
Module Bal.

Definition withdraw (self : Balance) (amount : Z) : result string (Balance * Balance) :=
  if (bal_value self <? amount)%Z then
    Err ("Insufficient balance: have " +:+ fmt_u64 (bal_value self)
           +:+ ", need " +:+ fmt_u64 amount)%string
  else Ok (mkBalance (bal_value self - amount), mkBalance amount).

Definition deposit (self b : Balance) : result string Balance :=
  match checked_add u64_max (bal_value self) (bal_value b) with
  | Some v => Ok (mkBalance v)
  | None => Err "Balance overflow"%string
  end.

End Bal.

(** ** [Object] *)
Module Obj.
Section Obj.
Context `{Blake3} `{Bcs}.

(** The string hashed by [compute_digest]. *)
Definition digest_preimage (m : ObjectMetadata) (d : CoinData) : bytes :=
  as_bytes "SETU_OBJ_DIGEST:" ++ hv_bytes (om_id m) ++ to_le_bytes 8 (om_version m)
    ++ bcs_coin_data d.

Definition set_metadata (o : Coin) (version : Z) (digest : ObjectDigest)
    (owner : option Address) (ownership : Ownership) : Coin :=
  let m := metadata o in
  mkObject (mkObjectMetadata (om_id m) version digest (om_object_type m) owner ownership
              (om_created_at m) (om_updated_at m)) (data o).

Definition compute_digest (o : Coin) : Coin :=
  let m := metadata o in
  set_metadata o (om_version m) (blake3 (digest_preimage m (data o)))
    (om_owner m) (om_ownership m).

Definition increment_version (o : Coin) : Coin :=
  let m := metadata o in
  compute_digest
    (set_metadata o (u64_add (om_version m) 1) (om_digest m) (om_owner m) (om_ownership m)).

Definition is_owned (o : Coin) : bool := bool_decide (om_object_type (metadata o) = OwnedObject).

Definition is_owned_by (o : Coin) (a : Address) : bool :=
  bool_decide (om_owner (metadata o) = Some a).

Definition transfer_to (o : Coin) (new_owner : Address) : Coin :=
  if is_owned o then
    let m := metadata o in
    increment_version
      (set_metadata o (om_version m) (om_digest m) (Some new_owner) (AddressOwner new_owner))
  else o.

Definition new_owned_at (id : ObjectId) (owner : Address) (d : CoinData) (timestamp : Z) : Coin :=
  compute_digest
    (mkObject (mkObjectMetadata id 1 zero_hash OwnedObject (Some owner) (AddressOwner owner)
                 timestamp timestamp) d).

Definition new_shared (id : ObjectId) (d : CoinData) (initial_version now : Z) : Coin :=
  compute_digest
    (mkObject (mkObjectMetadata id initial_version zero_hash SharedObject None
                 (Shared initial_version) now now) d).

Definition new_immutable (id : ObjectId) (d : CoinData) (now : Z) : Coin :=
  compute_digest
    (mkObject (mkObjectMetadata id 1 zero_hash ImmutableObject None Immutable now now) d).
End Obj.
End Obj.

(** ** [Coin] *)
Section CoinOps.
Context `{Blake3} `{Bcs} `{HexCrate}.

Definition coin_balance (c : Coin) : Z := bal_value (balance (data c)).
Definition coin_ty (c : Coin) : CoinType := coin_type (data c).
Definition coin_owner (c : Coin) : option Address := om_owner (metadata c).

(** [coin.data.balance = b]. *)
Definition set_balance (c : Coin) (b : Balance) : Coin :=
  mkObject (metadata c) (mkCoinData (coin_type (data c)) b).

Definition to_coin_state (c : Coin) : CoinState :=
  mkCoinState (default EmptyString (show_id <$> om_owner (metadata c))) (coin_balance c)
    (om_version (metadata c)) (ct_str (coin_ty c)).

Definition to_coin_state_bytes (c : Coin) : bytes := bcs_coin_state (to_coin_state c).

Definition create_coin_with_id (id : ObjectId) (owner : Address) (value : Z) (ct : string)
    (timestamp : Z) : Coin :=
  Obj.new_owned_at id owner (mkCoinData (mkCoinType ct) (mkBalance value)) timestamp.

(** [Coin::new_with_type]; [now] is the wall clock. *)
Definition coin_new_with_type (owner : Address) (value : Z) (ct : CoinType) (now : Z) : Coin :=
  Obj.new_owned_at
    (generate_object_id
       (as_bytes ("coin:" +:+ show_id owner +:+ ":" +:+ ct_str ct +:+ ":" +:+ fmt_u64 value)%string))
    owner (mkCoinData ct (mkBalance value)) now.
End CoinOps.

(** ** Lemmas *)

(** An address is read back from its displayed form. *)
Lemma address_from_hex_show `{HexCrate} (a : Address) : address_from_hex (show_id a) = Ok a.
Proof.
  unfold address_from_hex, show_id. change (strip_0x ("0x" +:+ hex_encode (hv_bytes a))%string)
    with (hex_encode (hv_bytes a)).
  rewrite hex_decode_encode. unfold address_from_bytes, HV.from_slice.
  by rewrite hash_of_hv_bytes.
Qed.

(** ** A concrete encoding, for the witnesses *)

Fixpoint of_le_bytes (b : bytes) : Z :=
  match b with
  | [] => 0
  | x :: b' => Z.of_N (Byte.to_N x) + 256 * of_le_bytes b'
  end.

Lemma byte_of_Z_spec z : Z.of_N (Byte.to_N (byte_of_Z z)) = (z mod 256)%Z.
Proof.
  unfold byte_of_Z. pose proof (Z.mod_pos_bound z 256 ltac:(lia)) as Hb.
  destruct (Byte.of_N (Z.to_N (z mod 256))) as [b|] eqn:E; simpl.
  - apply Byte.to_of_N in E. rewrite E. lia.
  - apply Byte.of_N_None_iff in E. lia.
Qed.

Lemma of_to_le_bytes w z : (0 ≤ z < 256 ^ Z.of_nat w)%Z → of_le_bytes (to_le_bytes w z) = z.
Proof.
  revert z. induction w as [|w IH]; intros z Hz.
  { simpl. change (256 ^ Z.of_nat 0)%Z with 1%Z in Hz. lia. }
  cbn [to_le_bytes of_le_bytes]. rewrite IH.
  - rewrite byte_of_Z_spec. pose proof (Z.div_mod z 256). lia.
  - replace (Z.of_nat (S w)) with (Z.of_nat w + 1)%Z in Hz by lia.
    rewrite Z.pow_add_r in Hz by lia. split; [apply Z.div_pos; lia|].
    apply Z.div_lt_upper_bound; lia.
Qed.

Definition bcs_toy_data (d : CoinData) : bytes :=
  to_le_bytes 8 (bal_value (balance d)) ++ as_bytes (ct_str (coin_type d)).

Definition bcs_toy_data_de (b : bytes) : option CoinData :=
  Some (mkCoinData (mkCoinType (String.string_of_list_byte (drop 8 b)))
          (mkBalance (of_le_bytes (take 8 b)))).

Lemma bcs_toy_roundtrip d :
  is_u64 (bal_value (balance d)) → bcs_toy_data_de (bcs_toy_data d) = Some d.
Proof.
  intros Hu. unfold bcs_toy_data_de, bcs_toy_data.
  rewrite drop_app_length', take_app_length' by by rewrite to_le_bytes_length.
  rewrite of_to_le_bytes by (unfold is_u64, u64_max in Hu; lia).
  unfold as_bytes. rewrite String.string_of_list_byte_of_string. by destruct d as [[] []].
Qed.

Definition bcs_toy : Bcs := {|
  bcs_coin_state cs :=
    as_bytes (cs_owner cs) ++ to_le_bytes 8 (cs_balance cs) ++ to_le_bytes 8 (cs_version cs)
      ++ as_bytes (cs_coin_type cs);
  bcs_coin_data := bcs_toy_data;
  bcs_coin_data_de := bcs_toy_data_de;
  bcs_coin_data_de_ser := bcs_toy_roundtrip
|}.
