(* ===== verification/StateStore.v ===== *)
(** * The state store of the runtime

    [crates/setu-runtime/src/state.rs] and [error.rs], with the object
    envelope of [types/src/envelope.rs].  The trait [StateStore] is a class of
    operations; [StateStoreLaws] is what the executor relies on, proved here for
    the two implementations, [InMemoryStateStore] and [InMemoryObjectStore]. *)

From Stdlib Require Import ZArith Lia.
From stdpp Require Import base gmap sets list strings numbers.
From S2P Require Import Prelude Hash Coin.

Inductive RuntimeError :=
| ObjectNotFound (id : ObjectId)
| InsufficientBalance (address : string) (required available : Z)
| InvalidOwnership (object_id : ObjectId) (address : string)
| InvalidAddress (s : string)
| InvalidTransaction (s : string)
| StateError (s : string)
| SerializationError
| AccountFrozen (s : string)
| Unknown (s : string)
| VMNotEnabled
| VMInitError (s : string)
| VMExecutionError (s : string)
| PtbArgumentOutOfBounds (s : string)
| PtbArgumentAlreadyConsumed (s : string)
| PtbInvalidCoinLayout (s : string)
| PtbUnsupportedTransferType (s : string)
| PtbInvalidTypeTag (s : string)
| OutOfGas (used : Z).

(** ** The trait *)
Class StateStore (St : Type) := {
  get_object : St → ObjectId → result RuntimeError (option Coin);
  set_object : ObjectId → Coin → stm St RuntimeError unit;
  delete_object : ObjectId → stm St RuntimeError unit;
  get_owned_objects : St → Address → result RuntimeError (list ObjectId);
  get_raw_object : St → ObjectId → result RuntimeError (option bytes);
  set_raw_object : ObjectId → bytes → stm St RuntimeError unit
}.

(** ** [InMemoryStateStore] *)

Record InMemoryStateStore := mkInMemoryStateStore {
  objects : gmap ObjectId Coin;
  ownership_index : gmap Address (list ObjectId);
  object_owner : gmap ObjectId Address;
  raw_objects : gmap ObjectId bytes
}.

(** The ownership index and its reverse, as both stores keep them. *)
Definition owner_index : Type := gmap Address (list ObjectId) * gmap ObjectId Address.

(** [remove_from_ownership_index]. *)
Definition index_remove (object_id : ObjectId) (ix : owner_index) : owner_index :=
  match ix.2 !! object_id with
  | Some old_owner =>
      (match ix.1 !! old_owner with
       | Some ids => <[old_owner := filter (fun id => id ≠ object_id) ids]> ix.1
       | None => ix.1
       end, delete object_id ix.2)
  | None => ix
  end.

(** [update_ownership_index]: drop from the old owner, append to the new. *)
Definition index_set (object_id : ObjectId) (new_owner : Address) (ix : owner_index)
    : owner_index :=
  let ix' := index_remove object_id ix in
  (<[new_owner := default [] (ix'.1 !! new_owner) ++ [object_id]]> ix'.1,
   <[object_id := new_owner]> ix'.2).

Module Mem.

Definition new : InMemoryStateStore := mkInMemoryStateStore ∅ ∅ ∅ ∅.

Definition index (s : InMemoryStateStore) : owner_index := (ownership_index s, object_owner s).

Definition set_object (object_id : ObjectId) (object : Coin) (s : InMemoryStateStore)
    : InMemoryStateStore :=
  let ix := match om_owner (metadata object) with
            | Some owner => index_set object_id owner (index s)
            | None => index s
            end in
  mkInMemoryStateStore (<[object_id := object]> (objects s)) ix.1 ix.2 (raw_objects s).

Definition delete_object (object_id : ObjectId) (s : InMemoryStateStore) : InMemoryStateStore :=
  let ix := index_remove object_id (index s) in
  mkInMemoryStateStore (delete object_id (objects s)) ix.1 ix.2 (raw_objects s).

Definition get_owned_objects (s : InMemoryStateStore) (owner : Address) : list ObjectId :=
  default [] (ownership_index s !! owner).

(** [get_total_balance]. *)
Definition get_total_balance (s : InMemoryStateStore) (owner : Address) : Z :=
  foldl (fun acc c => saturating_add64 acc (coin_balance c)) 0%Z
    (omap (fun id => objects s !! id) (get_owned_objects s owner)).

End Mem.

#[global] Instance InMemoryStateStore_store : StateStore InMemoryStateStore := {|
  get_object s id := Ok (objects s !! id);
  set_object id c s := (Mem.set_object id c s, Ok tt);
  delete_object id s := (Mem.delete_object id s, Ok tt);
  get_owned_objects s a := Ok (Mem.get_owned_objects s a);
  get_raw_object s id := Ok (raw_objects s !! id);
  set_raw_object id b s :=
    (mkInMemoryStateStore (objects s) (ownership_index s) (object_owner s)
       (<[id := b]> (raw_objects s)), Ok tt)
|}.

(** ** Object envelopes *)

Record EnvelopeMetadata := mkEnvelopeMetadata {
  em_id : ObjectId;
  em_owner : Address;
  em_version : Z;
  em_ownership : Ownership;
  em_digest : ObjectDigest
}.

Record ObjectEnvelope := mkObjectEnvelope {
  magic : Z;
  env_metadata : EnvelopeMetadata;
  type_tag : string;
  env_data : bytes
}.

Definition ENVELOPE_MAGIC : Z := 17747. (* 0x4553 *)

Section Envelope.
Context `{Blake3} `{Bcs} `{HexCrate}.

Definition env_digest (d : bytes) : ObjectDigest := blake3 (as_bytes "SETU_OBJ_DIGEST:" ++ d).

Definition from_move_result (id : ObjectId) (owner : Address) (version : Z)
    (ownership : Ownership) (tag : string) (bcs_data : bytes) : ObjectEnvelope :=
  mkObjectEnvelope ENVELOPE_MAGIC
    (mkEnvelopeMetadata id owner version ownership (env_digest bcs_data)) tag bcs_data.

Definition coin_tag (ct : string) : string := ("0x1::coin::Coin<0x1::setu::" +:+ ct +:+ ">")%string.

Definition from_coin_object (obj : Coin) : ObjectEnvelope :=
  let m := metadata obj in
  from_move_result (om_id m) (default zero_hash (om_owner m)) (om_version m) (om_ownership m)
    (coin_tag (ct_str (coin_ty obj))) (bcs_coin_data (data obj)).

Definition from_legacy_coin_state (id : ObjectId) (cs : CoinState) : ObjectEnvelope :=
  let owner := address_normalize (cs_owner cs) in
  from_move_result id owner (cs_version cs) (AddressOwner owner) (coin_tag (cs_coin_type cs))
    (bcs_coin_data (mkCoinData (mkCoinType (cs_coin_type cs)) (mkBalance (cs_balance cs)))).

Definition try_as_coin_object (e : ObjectEnvelope) : option Coin :=
  match bcs_coin_data_de (env_data e) with
  | None => None
  | Some d =>
      let m := env_metadata e in
      Some (mkObject (mkObjectMetadata (em_id m) (em_version m) (em_digest m) OwnedObject
                        (Some (em_owner m)) (em_ownership m) 0 0) d)
  end.
End Envelope.

(** ** [InMemoryObjectStore] *)

Record InMemoryObjectStore := mkInMemoryObjectStore {
  envelopes : gmap ObjectId ObjectEnvelope;
  os_raw : gmap string bytes;
  os_raw_objects : gmap ObjectId bytes;
  os_ownership_index : gmap Address (list ObjectId);
  os_object_owner : gmap ObjectId Address
}.

Module OS.

Definition new : InMemoryObjectStore := mkInMemoryObjectStore ∅ ∅ ∅ ∅ ∅.

Definition index (s : InMemoryObjectStore) : owner_index :=
  (os_ownership_index s, os_object_owner s).

Definition get_raw (s : InMemoryObjectStore) (key : string) : option bytes := os_raw s !! key.

Definition set_raw (key : string) (value : bytes) (s : InMemoryObjectStore)
    : InMemoryObjectStore :=
  mkInMemoryObjectStore (envelopes s) (<[key := value]> (os_raw s)) (os_raw_objects s)
    (os_ownership_index s) (os_object_owner s).

Definition delete_raw (key : string) (s : InMemoryObjectStore) : InMemoryObjectStore :=
  mkInMemoryObjectStore (envelopes s) (delete key (os_raw s)) (os_raw_objects s)
    (os_ownership_index s) (os_object_owner s).

Definition get_envelope (s : InMemoryObjectStore) (id : ObjectId) : option ObjectEnvelope :=
  envelopes s !! id.

Definition set_envelope (id : ObjectId) (e : ObjectEnvelope) (s : InMemoryObjectStore)
    : InMemoryObjectStore :=
  let ix := index_set id (em_owner (env_metadata e)) (index s) in
  mkInMemoryObjectStore (<[id := e]> (envelopes s)) (os_raw s) (os_raw_objects s) ix.1 ix.2.

Definition delete_envelope (id : ObjectId) (s : InMemoryObjectStore) : InMemoryObjectStore :=
  let ix := index_remove id (index s) in
  mkInMemoryObjectStore (delete id (envelopes s)) (os_raw s) (os_raw_objects s) ix.1 ix.2.

Definition get_owned_ids (s : InMemoryObjectStore) (owner : Address) : list ObjectId :=
  default [] (os_ownership_index s !! owner).

End OS.

#[global] Instance InMemoryObjectStore_store `{Blake3} `{Bcs} `{HexCrate}
    : StateStore InMemoryObjectStore := {|
  get_object s id := Ok (envelopes s !! id ≫= try_as_coin_object);
  set_object id c s := (OS.set_envelope id (from_coin_object c) s, Ok tt);
  delete_object id s := (OS.delete_envelope id s, Ok tt);
  get_owned_objects s a := Ok (OS.get_owned_ids s a);
  get_raw_object s id := Ok (os_raw_objects s !! id);
  set_raw_object id b s :=
    (mkInMemoryObjectStore (envelopes s) (os_raw s) (<[id := b]> (os_raw_objects s))
       (os_ownership_index s) (os_object_owner s), Ok tt)
|}.

(** ** What the executor relies on *)

(** A coin that may be written: a [u64] balance and an owner. *)
Definition coin_ok (c : Coin) : Prop := is_u64 (coin_balance c) ∧ is_Some (coin_owner c).

Class StateStoreLaws (St : Type) `{StateStore St} := {
  ss_coins : St → gmap ObjectId Coin;
  ss_raw : St → gmap ObjectId bytes;
  ss_inv : St → Prop;
  (** What a write and a read leave of a coin. *)
  ss_norm : Coin → Coin;
  ss_norm_data c : data (ss_norm c) = data c;
  ss_norm_owner c : is_Some (coin_owner c) → coin_owner (ss_norm c) = coin_owner c;
  ss_norm_version c : om_version (metadata (ss_norm c)) = om_version (metadata c);
  ss_norm_owned c : Obj.is_owned c = true → Obj.is_owned (ss_norm c) = true;
  ss_balance s id c : ss_inv s → ss_coins s !! id = Some c → is_u64 (coin_balance c);
  ss_get s id : ss_inv s → get_object s id = Ok (ss_coins s !! id);
  ss_set s id c : ss_inv s → coin_ok c →
    ∃ s', set_object id c s = (s', Ok tt) ∧ ss_inv s' ∧
      ss_coins s' = <[id := ss_norm c]> (ss_coins s) ∧ ss_raw s' = ss_raw s;
  ss_delete s id : ss_inv s →
    ∃ s', delete_object id s = (s', Ok tt) ∧ ss_inv s' ∧
      ss_coins s' = delete id (ss_coins s) ∧ ss_raw s' = ss_raw s;
  ss_owned s a : ss_inv s →
    ∃ l, get_owned_objects s a = Ok l ∧ NoDup l ∧
      ∀ id c, ss_coins s !! id = Some c → (id ∈ l ↔ coin_owner c = Some a);
  ss_get_raw s id : ss_inv s → get_raw_object s id = Ok (ss_raw s !! id);
  ss_set_raw s id b : ss_inv s →
    ∃ s', set_raw_object id b s = (s', Ok tt) ∧ ss_inv s' ∧
      ss_coins s' = ss_coins s ∧ ss_raw s' = <[id := b]> (ss_raw s)
}.

(** ** The ownership index *)

(** An id is listed once, and exactly under the owner the reverse index names. *)
Definition index_ok (ix : owner_index) : Prop :=
  ∀ a, NoDup (default [] (ix.1 !! a)) ∧
       ∀ id, id ∈ default [] (ix.1 !! a) ↔ ix.2 !! id = Some a.

Lemma index_remove_reverse id ix : (index_remove id ix).2 = delete id ix.2.
Proof.
  unfold index_remove. destruct (ix.2 !! id) eqn:E; [done|]. by rewrite delete_id.
Qed.

Lemma index_remove_owned id ix a :
  index_ok ix →
  default [] ((index_remove id ix).1 !! a) = filter (fun x => x ≠ id) (default [] (ix.1 !! a)).
Proof.
  intros Hok. assert (Hf : ∀ b, ix.2 !! id ≠ Some b →
    filter (fun x => x ≠ id) (default [] (ix.1 !! b)) = default [] (ix.1 !! b)).
  { intros b Hb. destruct (Hok b) as [_ Hin].
    apply list_filter_id. intros x Hx ->. by apply Hb, Hin. }
  unfold index_remove. destruct (ix.2 !! id) as [o|] eqn:E; [|by rewrite Hf].
  simpl. destruct (ix.1 !! o) as [l|] eqn:Eo; [|rewrite Hf; [done|]].
  - rewrite lookup_insert. case_decide; subst; [by rewrite Eo|]. rewrite Hf; [done|congruence].
  - intros [= ->]. destruct (Hok a) as [_ Hin]. apply Hin in E. rewrite Eo in E. set_solver.
Qed.

Lemma index_remove_ok id ix : index_ok ix → index_ok (index_remove id ix).
Proof.
  intros Hok a. rewrite index_remove_owned, index_remove_reverse by done.
  destruct (Hok a) as [Hnd Hin]. split; [by apply list.NoDup_filter|].
  intros x. rewrite list_elem_of_filter, Hin, lookup_delete_Some. naive_solver.
Qed.

Lemma index_set_ok id o ix : index_ok ix → index_ok (index_set id o ix).
Proof.
  intros Hok a. pose proof (index_remove_ok id ix Hok) as Hok'.
  unfold index_set. simpl. rewrite !lookup_insert, index_remove_reverse.
  assert (Hnot : ∀ b, id ∉ default [] ((index_remove id ix).1 !! b)).
  { intros b. rewrite (proj2 (Hok' b)), index_remove_reverse, lookup_delete_eq. done. }
  destruct (decide (o = a)) as [->|Hne]; simpl.
  - destruct (Hok' a) as [Hnd Hin]. split.
    + apply list.NoDup_app. split_and!; [done| |apply list.NoDup_singleton].
      intros x Hx ->%list_elem_of_singleton. by apply (Hnot a).
    + intros x. rewrite elem_of_app, list_elem_of_singleton, Hin, index_remove_reverse.
      rewrite lookup_insert, !lookup_delete_Some. destruct (decide (id = x)) as [->|].
      * split; [done|by right].
      * rewrite lookup_delete_ne by done. split; [intros [[_ ?]|?]; congruence|by left].
  - destruct (Hok' a) as [Hnd Hin]. split; [done|].
    intros x. rewrite Hin, index_remove_reverse, lookup_insert.
    destruct (decide (id = x)) as [->|]; [|done]. rewrite lookup_delete_eq. split; congruence.
Qed.

(** ** The two implementations satisfy the interface *)

Record mem_inv (s : InMemoryStateStore) : Prop := mkMemInv {
  mi_index : index_ok (Mem.index s);
  mi_owner : object_owner s = omap coin_owner (objects s);
  mi_u64 : ∀ id c, objects s !! id = Some c → is_u64 (coin_balance c)
}.

Lemma mem_new_inv : mem_inv Mem.new.
Proof.
  split; [|by simpl; rewrite omap_empty|set_solver].
  intros a. simpl. rewrite !lookup_empty. split; [by apply list.NoDup_nil|set_solver].
Qed.

Lemma mem_set_inv s id c : mem_inv s → coin_ok c → mem_inv (Mem.set_object id c s).
Proof.
  intros [Hi Ho Hu] [Hc [a Ha]]. unfold coin_owner in Ha. unfold Mem.set_object. rewrite Ha.
  split; simpl.
  - by apply (index_set_ok id a) in Hi.
  - rewrite index_remove_reverse. simpl. rewrite Ho. apply map_eq. intros x.
    rewrite lookup_omap, !lookup_insert. case_decide; subst; simpl; [done|].
    by rewrite lookup_delete_ne, lookup_omap.
  - intros x cx. rewrite lookup_insert. case_decide; naive_solver.
Qed.

Lemma mem_delete_inv s id : mem_inv s → mem_inv (Mem.delete_object id s).
Proof.
  intros [Hi Ho Hu]. split; simpl.
  - by apply (index_remove_ok id) in Hi.
  - rewrite index_remove_reverse. simpl. by rewrite Ho, omap_delete.
  - intros x c [_ Hx]%lookup_delete_Some. by eapply Hu.
Qed.

#[global] Instance InMemoryStateStore_laws : StateStoreLaws InMemoryStateStore.
Proof.
  refine {| ss_coins := objects; ss_raw := raw_objects; ss_inv := mem_inv; ss_norm := id |};
    try done.
  - intros s id c Hi. by apply Hi.
  - intros s id c Hi Hc. eexists. split_and!; [done|by apply mem_set_inv|done|done].
  - intros s id Hi. eexists. split_and!; [done|by apply mem_delete_inv|done|done].
  - intros s a [Hi Ho _]. eexists. split_and!; [done|apply (Hi a)|]. intros id c Hc.
    unfold Mem.get_owned_objects. rewrite (proj2 (Hi a) id). simpl.
    by rewrite Ho, lookup_omap, Hc.
  - intros s id b [Hi Ho Hu]. eexists. split_and!; [done|by split|done|done].
Defined.

Section ObjectStoreLaws.
Context `{B : Blake3} `{C : Bcs} `{X : HexCrate}.

Definition os_coins (s : InMemoryObjectStore) : gmap ObjectId Coin :=
  omap try_as_coin_object (envelopes s).

Record os_inv (s : InMemoryObjectStore) : Prop := mkOsInv {
  oi_index : index_ok (OS.index s);
  oi_owner : os_object_owner s = (fun e => em_owner (env_metadata e)) <$> envelopes s;
  oi_u64 : ∀ id c, os_coins s !! id = Some c → is_u64 (coin_balance c)
}.

(** A coin read back from its envelope. *)
Definition env_norm (c : Coin) : Coin :=
  let m := metadata c in
  mkObject (mkObjectMetadata (om_id m) (om_version m) (env_digest (bcs_coin_data (data c)))
              OwnedObject (Some (default zero_hash (om_owner m))) (om_ownership m) 0 0) (data c).

Lemma envelope_roundtrip c :
  is_u64 (coin_balance c) → try_as_coin_object (from_coin_object c) = Some (env_norm c).
Proof. intros Hu. unfold try_as_coin_object. simpl. by rewrite bcs_coin_data_de_ser. Qed.

Lemma os_new_inv : os_inv OS.new.
Proof.
  split; [|by simpl; rewrite fmap_empty|].
  - intros a. simpl. rewrite !lookup_empty. split; [by apply list.NoDup_nil|set_solver].
  - intros id c. unfold os_coins. simpl. by rewrite omap_empty, lookup_empty.
Qed.

Lemma os_set_inv s id c :
  os_inv s → coin_ok c →
  os_inv (OS.set_envelope id (from_coin_object c) s) ∧
  os_coins (OS.set_envelope id (from_coin_object c) s) = <[id := env_norm c]> (os_coins s).
Proof.
  intros [Hi Ho Hu] [Hc [a Ha]].
  assert (Hcoins : os_coins (OS.set_envelope id (from_coin_object c) s) =
                   <[id := env_norm c]> (os_coins s)).
  { unfold os_coins. simpl. by apply omap_insert_Some, envelope_roundtrip. }
  split; [|done]. split; simpl.
  - by apply (index_set_ok id (default zero_hash (om_owner (metadata c)))) in Hi.
  - rewrite index_remove_reverse. simpl. rewrite Ho. apply map_eq. intros x.
    rewrite lookup_fmap, !lookup_insert. case_decide; subst; simpl; [done|].
    by rewrite lookup_delete_ne, lookup_fmap.
  - intros x cx. rewrite Hcoins, lookup_insert. case_decide; naive_solver.
Qed.

Lemma os_delete_inv s id :
  os_inv s → os_inv (OS.delete_envelope id s) ∧
  os_coins (OS.delete_envelope id s) = delete id (os_coins s).
Proof.
  intros [Hi Ho Hu].
  assert (Hcoins : os_coins (OS.delete_envelope id s) = delete id (os_coins s)).
  { unfold os_coins. simpl. apply omap_delete. }
  split; [|done]. split; simpl.
  - by apply (index_remove_ok id) in Hi.
  - rewrite index_remove_reverse. simpl. by rewrite Ho, fmap_delete.
  - intros x c. rewrite Hcoins. intros [_ Hx]%lookup_delete_Some. by eapply Hu.
Qed.

#[global] Instance InMemoryObjectStore_laws : StateStoreLaws InMemoryObjectStore.
Proof.
  refine {| ss_coins := os_coins; ss_raw := os_raw_objects; ss_inv := os_inv;
            ss_norm := env_norm |}; try done.
  - intros c [a Ha]. unfold coin_owner in *. simpl. by rewrite Ha.
  - intros s id c Hi. by apply Hi.
  - intros s id Hi. simpl. unfold os_coins. by rewrite lookup_omap.
  - intros s id c Hi Hc. destruct (os_set_inv s id c Hi Hc). eexists. split_and!; done.
  - intros s id Hi. destruct (os_delete_inv s id Hi). eexists. split_and!; done.
  - intros s a [Hi Ho _]. eexists. split_and!; [done|apply (Hi a)|]. intros id c Hc.
    unfold OS.get_owned_ids. rewrite (proj2 (Hi a) id). simpl. rewrite Ho, lookup_fmap.
    unfold os_coins in Hc. rewrite lookup_omap in Hc.
    destruct (envelopes s !! id) as [e|]; [|done]. simpl in *. unfold try_as_coin_object in Hc.
    destruct (bcs_coin_data_de (env_data e)); [|done]. by simplify_eq/=.
  - intros s id b [Hi Ho Hu]. eexists. split_and!; [done|by split|done|done].
Defined.
End ObjectStoreLaws.
