(* ===== verification/Resource.v ===== *)
(** * Flux, Power and the resource parameters

    [types/src/resource.rs] and the Power / Flux helpers of
    [crates/setu-runtime/src/executor.rs].  JSON values are a data type;
    [serde_json]'s printer and readers are a parameter. *)

From Stdlib Require Import ZArith Lia.
From stdpp Require Import base gmap sets list strings numbers.
From S2P Require Import Prelude Hash Vlc Event Coin StateStore.

(** ** JSON *)

#[warnings="-register-all"]
Inductive json :=
| JNull
| JNum (z : Z)
| JStr (s : string)
| JArr (l : list json)
| JObj (l : list (string * json)).

Definition JOpt (o : option string) : json :=
  match o with
  | Some s => JStr s
  | None => JNull
  end.

(** [value.get(key)] on an object. *)
Definition json_get (v : json) (key : string) : option json :=
  match v with
  | JObj l =>
      match List.find (fun kv => bool_decide (kv.1 = key)) l with
      | Some kv => Some kv.2
      | None => None
      end
  | _ => None
  end.

(** [serde_json]: printing ([None] is an error), reading an id or address
    out of a value, and the value of an object query. *)
Class SerdeJson := {
  json_to_vec : json → option bytes;
  json_to_id : json → option HashValue;
  json_of_object : option Coin → json
}.

(** ** State changes *)

Inductive StateChangeType := Create | Update | Delete.

(** The runtime's [StateChange]; [Event.StateChange] is the event layer's. *)
Record RtStateChange := mkRtStateChange {
  change_type : StateChangeType;
  rc_object_id : ObjectId;
  old_state : option bytes;
  new_state : option bytes
}.

(** [StateChange::to_event_state_change]; [object_key] is ["oid:" ++ hex]. *)
Definition to_event_state_change `{HexCrate} (c : RtStateChange) : StateChange :=
  mkStateChange ("oid:" +:+ hex_encode (hv_bytes (rc_object_id c)))%string (old_state c)
    (new_state c) None.

(** ** Records *)

Definition INITIAL_POWER : Z := 21000000.
Definition INITIAL_FLUX : Z := 0.

Record FluxState := mkFluxState {
  fx_address : string;
  flux : Z;
  last_active_at : Z;
  fx_version : Z
}.

Record PowerState := mkPowerState {
  pw_address : string;
  power_remaining : Z;
  pw_version : Z
}.

Definition flux_new (address : string) (timestamp : Z) : FluxState :=
  mkFluxState address INITIAL_FLUX timestamp 0.

Definition power_new (address : string) : PowerState := mkPowerState address INITIAL_POWER 0.

Definition flux_json (f : FluxState) : json :=
  JObj [("address"%string, JStr (fx_address f)); ("flux"%string, JNum (flux f));
        ("last_active_at"%string, JNum (last_active_at f)); ("version"%string, JNum (fx_version f))].

Definition power_json (p : PowerState) : json :=
  JObj [("address"%string, JStr (pw_address p)); ("power_remaining"%string, JNum (power_remaining p));
        ("version"%string, JNum (pw_version p))].

Inductive ResourceGovernanceMode := Enabled | Disabled | DryRun.

Record ResourceParams := mkResourceParams {
  power_mode : ResourceGovernanceMode;
  power_cost_per_event : Z;
  flux_mode : ResourceGovernanceMode;
  flux_reward_on_success : Z;
  flux_penalty_on_failure : Z;
  gas_mode : ResourceGovernanceMode;
  gas_base_price : Z;
  min_transfer_amount : Z;
  max_transfer_amount : Z;
  max_merge_sources : Z;
  max_split_outputs : Z;
  power_revival_price : Z;
  transfer_fee_rate_bps : Z;
  rp_version : Z;
  last_updated_at : Z
}.

Definition params_default : ResourceParams :=
  mkResourceParams Disabled 1 Disabled 1 0 Disabled 0 1 u64_max 50 50 0 0 0 0.

Inductive ResourceParamChange :=
| SetPowerMode (v : ResourceGovernanceMode)
| SetPowerCostPerEvent (v : Z)
| SetFluxMode (v : ResourceGovernanceMode)
| SetFluxRewardOnSuccess (v : Z)
| SetFluxPenaltyOnFailure (v : Z)
| SetGasMode (v : ResourceGovernanceMode)
| SetGasBasePrice (v : Z)
| SetMinTransferAmount (v : Z)
| SetMaxTransferAmount (v : Z)
| SetMaxMergeSources (v : Z)
| SetMaxSplitOutputs (v : Z)
| SetPowerRevivalPrice (v : Z)
| SetTransferFeeRateBps (v : Z).

(** The field assignment of one change. *)
Definition set_param (p : ResourceParams) (c : ResourceParamChange) : ResourceParams :=
  let '(mkResourceParams pm pc fm fr fp gm gb mn mx ms so pr tf vn up) := p in
  match c with
  | SetPowerMode v => mkResourceParams v pc fm fr fp gm gb mn mx ms so pr tf vn up
  | SetPowerCostPerEvent v => mkResourceParams pm v fm fr fp gm gb mn mx ms so pr tf vn up
  | SetFluxMode v => mkResourceParams pm pc v fr fp gm gb mn mx ms so pr tf vn up
  | SetFluxRewardOnSuccess v => mkResourceParams pm pc fm v fp gm gb mn mx ms so pr tf vn up
  | SetFluxPenaltyOnFailure v => mkResourceParams pm pc fm fr v gm gb mn mx ms so pr tf vn up
  | SetGasMode v => mkResourceParams pm pc fm fr fp v gb mn mx ms so pr tf vn up
  | SetGasBasePrice v => mkResourceParams pm pc fm fr fp gm v mn mx ms so pr tf vn up
  | SetMinTransferAmount v => mkResourceParams pm pc fm fr fp gm gb v mx ms so pr tf vn up
  | SetMaxTransferAmount v => mkResourceParams pm pc fm fr fp gm gb mn v ms so pr tf vn up
  | SetMaxMergeSources v => mkResourceParams pm pc fm fr fp gm gb mn mx v so pr tf vn up
  | SetMaxSplitOutputs v => mkResourceParams pm pc fm fr fp gm gb mn mx ms v pr tf vn up
  | SetPowerRevivalPrice v => mkResourceParams pm pc fm fr fp gm gb mn mx ms so v tf vn up
  | SetTransferFeeRateBps v => mkResourceParams pm pc fm fr fp gm gb mn mx ms so pr v vn up
  end.

Definition apply_resource_param_change (p : ResourceParams) (c : ResourceParamChange)
    (timestamp : Z) : ResourceParams :=
  let '(mkResourceParams pm pc fm fr fp gm gb mn mx ms so pr tf vn up) := set_param p c in
  mkResourceParams pm pc fm fr fp gm gb mn mx ms so pr tf (u64_add vn 1) timestamp.

(** ** Power and Flux accounting *)

Definition should_consume_power (t : EventType) : bool := negb (EType.is_validator_executed t).

Section Accounting.
Context `{Blake3} `{SerdeJson}.

Definition json_vec {A} (j : json) (k : bytes → result RuntimeError A) : result RuntimeError A :=
  match json_to_vec j with
  | Some b => k b
  | None => Err SerializationError
  end.

Definition decrement_power (cost : Z) (state : PowerState)
    : PowerState * result RuntimeError RtStateChange :=
  if (power_remaining state <? cost)%Z then (state, Err (AccountFrozen "Power depleted"))
  else
    let object_id := power_state_object_id (pw_address state) in
    match json_to_vec (power_json state) with
    | None => (state, Err SerializationError)
    | Some old =>
        let state' := mkPowerState (pw_address state) (power_remaining state - cost)
                        (u64_add (pw_version state) 1) in
        (state', json_vec (power_json state') (fun new =>
           Ok (mkRtStateChange Update object_id (Some old) (Some new))))
    end.

(** The common shape of [increment_flux] and [penalize_flux]: they differ in
    the new score. *)
Definition write_flux (new_flux : Z → Z) (timestamp : Z) (state : FluxState)
    : FluxState * result RuntimeError RtStateChange :=
  let object_id := flux_state_object_id (fx_address state) in
  match json_to_vec (flux_json state) with
  | None => (state, Err SerializationError)
  | Some old =>
      let state' := mkFluxState (fx_address state) (new_flux (flux state)) timestamp
                      (u64_add (fx_version state) 1) in
      (state', json_vec (flux_json state') (fun new =>
         Ok (mkRtStateChange Update object_id (Some old) (Some new))))
  end.

Definition increment_flux (timestamp reward : Z) : FluxState → FluxState * result RuntimeError RtStateChange :=
  write_flux (fun f => u64_add f reward) timestamp.

Definition penalize_flux (timestamp penalty : Z) : FluxState → FluxState * result RuntimeError RtStateChange :=
  write_flux (fun f => saturating_sub f penalty) timestamp.
End Accounting.
