(* ===== verification/Executor.v ===== *)
(** * The runtime executor

    [crates/setu-runtime/src/executor.rs] and [transaction.rs]: transfers,
    merges, splits, mints, the account-based transfer with its automatic merge,
    queries and registrations, over any [StateStore].  A method threads the
    store and the output counter of the execution context on every path, the
    paths that return an error included, because [&mut self] keeps what was
    written before the error. *)

From Stdlib Require Import ZArith Lia.
From stdpp Require Import base gmap sets list strings numbers.
From S2P Require Import Prelude Hash Vlc Event Coin StateStore Resource.

#[local] Open Scope string_scope.
#[local] Open Scope setu_scope.

(** ** Transactions *)

Record TransferTx := mkTransferTx {
  coin_id : ObjectId;
  recipient : Address;
  amount : option Z
}.

Inductive QueryType := QBalance | QObject | QOwnedObjects.

Record QueryTx := mkQueryTx { query_type : QueryType; params : json }.

Inductive TransactionType :=
| TxTransfer (t : TransferTx)
| TxQuery (q : QueryTx).

Record Transaction := mkTransaction {
  tx_id : string;
  sender : Address;
  tx_type : TransactionType;
  input_objects : list ObjectId;
  tx_timestamp : Z
}.

(** The execution context without its output counter, which is state. *)
Record ExecutionContext := mkExecutionContext {
  executor_id : string;
  ctx_timestamp : Z;
  in_tee : bool;
  tx_hash : HashValue;
  gas_budget : option Z
}.

Record ExecutionOutput := mkExecutionOutput {
  success : bool;
  message : option string;
  out_changes : list RtStateChange;
  created_objects : list ObjectId;
  deleted_objects : list ObjectId;
  query_result : option json
}.

Definition u32_max : Z := 2 ^ 32 - 1.
Definition MAX_MERGE_SOURCES : nat := 50.
Definition MAX_SPLIT_OUTPUTS : nat := 50.

(** The first [n] characters of a string. *)
Definition str_prefix (n : nat) (s : string) : string := String.substring 0 n s.

(** A stable sort, as [sort_by_key] and [sort_by] are. *)
Section Sort.
Context {A : Type} (le : A → A → bool).

Fixpoint sort_insert (x : A) (l : list A) : list A :=
  match l with
  | [] => [x]
  | y :: l' => if le x y then x :: l else y :: sort_insert x l'
  end.

Definition stable_sort (l : list A) : list A := foldr sort_insert [] l.
End Sort.

(** [iter.try_fold(0u64, |acc, x| acc.checked_add(f x))]. *)
Fixpoint try_sum (l : list Z) (acc : Z) : option Z :=
  match l with
  | [] => Some acc
  | x :: l' =>
      match checked_add u64_max acc x with
      | Some acc' => try_sum l' acc'
      | None => None
      end
  end.

Module Exec.
Section Exec.
Context {St : Type} `{StateStore St} `{Blake3} `{Bcs} `{HexCrate} `{SerdeJson}.

(** The store, and the counter in the context's [Cell]. *)
Definition machine : Type := St * Z.
Definition exec (A : Type) : Type := stm machine RuntimeError A.

Definition on_store {A} (m : stm St RuntimeError A) : exec A :=
  fun '(s, n) => let '(s', r) := m s in ((s', n), r).

Definition read {A} (f : St → result RuntimeError A) : exec A := fun st => (st, f st.1).

Definition next_output_index : exec Z :=
  fun '(s, n) =>
    match checked_add u32_max n 1 with
    | Some n' => ((s, n'), Ok n)
    | None => ((s, n), Panic)
    end.

Definition new_coin_id (ctx : ExecutionContext) : exec ObjectId :=
  let! i := next_output_index in sret (coin_id_from_tx (tx_hash ctx) i).

(** [self.state.get_object(&id)?.ok_or(ObjectNotFound(id))?]. *)
Definition load_coin (id : ObjectId) : exec Coin :=
  let! o := read (fun s => get_object s id) in
  slift (ok_or (ObjectNotFound id) o).

(** [coin.metadata.owner.as_ref().ok_or(InvalidOwnership {..})?]. *)
Definition owner_or (id : ObjectId) (who : Address) (c : Coin) : exec Address :=
  slift (ok_or (InvalidOwnership id (show_id who)) (coin_owner c)).

(** [.map_err(RuntimeError::InvalidTransaction)?]. *)
Definition or_invalid {A} (r : result string A) : exec A :=
  slift (match r with
         | Ok a => Ok a
         | Err e => Err (InvalidTransaction e)
         | Panic => Panic
         end).

(** ** Transfers *)

Definition execute_transfer (tx : Transaction) (t : TransferTx) (ctx : ExecutionContext)
    : exec ExecutionOutput :=
  let cid := coin_id t in
  let! coin := load_coin cid in
  refuse! (negb (Obj.is_owned coin))
    with InvalidTransaction ("Coin " +:+ show_id cid +:+ " is not an owned object — cannot transfer") in
  let! owner := owner_or cid (sender tx) coin in
  refuse! (bool_decide (owner ≠ sender tx))
    with InvalidOwnership cid (show_id (sender tx)) in
  let old := to_coin_state_bytes coin in
  refuse! (bool_decide (amount t = Some 0%Z))
    with InvalidTransaction "Transfer amount must be > 0" in
  let is_full_transfer :=
    match amount t with
    | None => true
    | Some a => (a =? coin_balance coin)%Z
    end in
  let msg := "Transfer completed: " +:+ show_id (sender tx) +:+ " -> " +:+ show_id (recipient t) in
  if is_full_transfer then
    let coin' := Obj.transfer_to coin (recipient t) in
    let! _ := on_store (set_object cid coin') in
    sret (mkExecutionOutput true (Some msg)
            [mkRtStateChange Update cid (Some old) (Some (to_coin_state_bytes coin'))] [] [] None)
  else
    let! amt := slift (match amount t with Some a => Ok a | None => Panic end) in
    let! w := or_invalid (Bal.withdraw (balance (data coin)) amt) in
    let coin' := Obj.increment_version (set_balance coin w.1) in
    let! _ := on_store (set_object cid coin') in
    let! nid := new_coin_id ctx in
    let new_coin := create_coin_with_id nid (recipient t) amt (ct_str (coin_ty coin))
                      (ctx_timestamp ctx) in
    let! _ := on_store (set_object nid new_coin) in
    sret (mkExecutionOutput true (Some msg)
            [mkRtStateChange Update cid (Some old) (Some (to_coin_state_bytes coin'));
             mkRtStateChange Create nid None (Some (to_coin_state_bytes new_coin))]
            [nid] [] None).

(** ** Queries *)

(** The loop of the balance query over the owned objects. *)
Fixpoint balance_loop (s : St) (ids : list ObjectId) (total : gmap CoinType Z)
    : result RuntimeError (gmap CoinType Z) :=
  match ids with
  | [] => Ok total
  | id :: rest =>
      rbind (get_object s id) (fun o =>
        match o with
        | None => balance_loop s rest total
        | Some coin =>
            match checked_add u64_max (default 0%Z (total !! coin_ty coin)) (coin_balance coin) with
            | Some v => balance_loop s rest (<[coin_ty coin := v]> total)
            | None => Err (InvalidTransaction "Balance overflow in query")
            end
        end)
  end.

Definition query_param (q : QueryTx) (name : string) : result RuntimeError HashValue :=
  match json_get (params q) name with
  | None => Err (InvalidTransaction ("Missing '" +:+ name +:+ "' parameter"))
  | Some v => match json_to_id v with Some a => Ok a | None => Err SerializationError end
  end.

Definition query_value (q : QueryTx) (s : St) : result RuntimeError json :=
  match query_type q with
  | QBalance =>
      rbind (query_param q "address") (fun a =>
      rbind (get_owned_objects s a) (fun ids =>
      rbind (balance_loop s ids ∅) (fun total =>
      Ok (JObj ((fun kv => (ct_str kv.1, JNum kv.2)) <$> map_to_list total)))))
  | QObject =>
      rbind (query_param q "object_id") (fun id =>
      rbind (get_object s id) (fun o => Ok (json_of_object o)))
  | QOwnedObjects =>
      rbind (query_param q "address") (fun a =>
      rbind (get_owned_objects s a) (fun ids =>
      Ok (JArr ((fun id => JArr ((fun b => JNum (Z.of_N (Byte.to_N b))) <$> hv_bytes id)) <$> ids))))
  end.

Definition execute_query (q : QueryTx) : exec ExecutionOutput :=
  let! v := read (query_value q) in
  sret (mkExecutionOutput true (Some "Query executed successfully") [] [] [] (Some v)).

Definition execute_transaction (tx : Transaction) (ctx : ExecutionContext)
    : exec ExecutionOutput :=
  match tx_type tx with
  | TxTransfer t => execute_transfer tx t ctx
  | TxQuery q => execute_query q
  end.

Definition new_transfer_deterministic (from : Address) (cid : ObjectId) (to : Address)
    (amt : option Z) (ts : Z) : Transaction :=
  mkTransaction ("tx_" +:+ str_prefix 8 (show_id cid) +:+ "_" +:+ fmt_hex ts) from
    (TxTransfer (mkTransferTx cid to amt)) [cid] ts.

(** [Address::from_hex(s).map_err(|_| InvalidAddress(s))?]. *)
Definition parse_address (s : string) : exec Address :=
  slift (match address_from_hex s with
         | Ok a => Ok a
         | _ => Err (InvalidAddress s)
         end).

Definition execute_transfer_with_coin (cid : ObjectId) (from to : string) (amt : option Z)
    (ctx : ExecutionContext) : exec ExecutionOutput :=
  let! sender_addr := parse_address from in
  let! recipient_addr := parse_address to in
  execute_transaction
    (new_transfer_deterministic sender_addr cid recipient_addr amt (ctx_timestamp ctx)) ctx.

(** ** Minting *)

Definition mint_tokens (to : Address) (subnet : string) (amt : Z) (ctx : ExecutionContext)
    : exec ExecutionOutput :=
  if (amt =? 0)%Z then
    sret (mkExecutionOutput true (Some "No tokens to mint (amount=0)") [] [] [] None)
  else
    let! cid := new_coin_id ctx in
    let coin := create_coin_with_id cid to amt subnet (ctx_timestamp ctx) in
    let! _ := on_store (set_object cid coin) in
    sret (mkExecutionOutput true
            (Some ("Minted " +:+ fmt_u64 amt +:+ " tokens to " +:+ show_id to
                     +:+ " in subnet " +:+ subnet))
            [mkRtStateChange Create cid None (Some (to_coin_state_bytes coin))] [cid] [] None).

(** ** Merging *)

(** The loop over the source coins; [target] accumulates the balance in
    memory, the sources are deleted from the store one by one. *)
Fixpoint merge_loop (owner : Address) (ty : CoinType) (sources : list ObjectId) (target : Coin)
    (changes : list RtStateChange) (deleted : list ObjectId)
    : exec (Coin * list RtStateChange * list ObjectId) :=
  match sources with
  | [] => sret (target, changes, deleted)
  | sid :: rest =>
      let! source := load_coin sid in
      let! source_owner := owner_or sid owner source in
      refuse! (bool_decide (source_owner ≠ owner))
        with InvalidTransaction
               ("Source coin " +:+ show_id sid +:+ " not owned by " +:+ show_id owner) in
      refuse! (bool_decide (coin_ty source ≠ ty))
        with InvalidTransaction
               ("Coin type mismatch: target=" +:+ ct_str ty +:+ ", source="
                  +:+ ct_str (coin_ty source)) in
      let old := to_coin_state_bytes source in
      let! b := or_invalid (Bal.deposit (balance (data target)) (balance (data source))) in
      let! _ := on_store (delete_object sid) in
      merge_loop owner ty rest (set_balance target b)
        (changes ++ [mkRtStateChange Delete sid (Some old) None]) (deleted ++ [sid])
  end.

(** The first source that occurs twice, as the [HashSet] loop finds it. *)
Fixpoint first_duplicate (ids : list ObjectId) (seen : gset ObjectId) : option ObjectId :=
  match ids with
  | [] => None
  | id :: rest =>
      if bool_decide (id ∈ seen) then Some id else first_duplicate rest ({[id]} ∪ seen)
  end.

Definition execute_merge_coins (owner : Address) (target_id : ObjectId) (sources : list ObjectId)
    (ctx : ExecutionContext) : exec ExecutionOutput :=
  refuse! (bool_decide (sources = []))
    with InvalidTransaction "Must provide at least one source coin to merge" in
  refuse! (MAX_MERGE_SOURCES <? length sources)%nat
    with InvalidTransaction
           ("Too many source coins: " +:+ fmt_u64 (Z.of_nat (length sources)) +:+ " (max "
              +:+ fmt_u64 (Z.of_nat MAX_MERGE_SOURCES) +:+ ")") in
  refuse! (bool_decide (target_id ∈ sources))
    with InvalidTransaction ("Target coin " +:+ show_id target_id +:+ " cannot also be a source") in
  match first_duplicate sources ∅ with
  | Some id => sfail (InvalidTransaction ("Duplicate source coin: " +:+ show_id id))
  | None =>
      let! target := load_coin target_id in
      let! target_owner := owner_or target_id owner target in
      refuse! (bool_decide (target_owner ≠ owner))
        with InvalidOwnership target_id (show_id owner) in
      let old := to_coin_state_bytes target in
      let! (target', changes, deleted) := merge_loop owner (coin_ty target) sources target [] [] in
      let target'' := Obj.increment_version target' in
      let! _ := on_store (set_object target_id target'') in
      sret (mkExecutionOutput true
              (Some ("Merged " +:+ fmt_u64 (Z.of_nat (length sources)) +:+ " coins"))
              (mkRtStateChange Update target_id (Some old) (Some (to_coin_state_bytes target''))
                 :: changes) [] deleted None)
  end.

(** ** Splitting *)

(** The loop that creates the new coins and takes their amounts off the
    source, which is written back only afterwards. *)
Fixpoint split_loop (owner : Address) (ctx : ExecutionContext) (amounts : list Z) (source : Coin)
    (changes : list RtStateChange) (created : list ObjectId)
    : exec (Coin * list RtStateChange * list ObjectId) :=
  match amounts with
  | [] => sret (source, changes, created)
  | amt :: rest =>
      let! nid := new_coin_id ctx in
      let new_coin := create_coin_with_id nid owner amt (ct_str (coin_ty source))
                        (ctx_timestamp ctx) in
      let! _ := on_store (set_object nid new_coin) in
      let! w := or_invalid (Bal.withdraw (balance (data source)) amt) in
      split_loop owner ctx rest (set_balance source w.1)
        (changes ++ [mkRtStateChange Create nid None (Some (to_coin_state_bytes new_coin))])
        (created ++ [nid])
  end.

Definition execute_split_coin (owner : Address) (source_id : ObjectId) (amounts : list Z)
    (ctx : ExecutionContext) : exec ExecutionOutput :=
  refuse! (bool_decide (amounts = []))
    with InvalidTransaction "Split amounts cannot be empty" in
  refuse! (existsb (fun a => a =? 0)%Z amounts)
    with InvalidTransaction "Split amount must be > 0 (zero-balance coins are not allowed)" in
  refuse! (MAX_SPLIT_OUTPUTS <? length amounts)%nat
    with InvalidTransaction
           ("Too many split outputs: " +:+ fmt_u64 (Z.of_nat (length amounts)) +:+ " (max "
              +:+ fmt_u64 (Z.of_nat MAX_SPLIT_OUTPUTS) +:+ ")") in
  let! source := load_coin source_id in
  let! source_owner := owner_or source_id owner source in
  refuse! (bool_decide (source_owner ≠ owner))
    with InvalidOwnership source_id (show_id owner) in
  let old := to_coin_state_bytes source in
  let! total_split := slift (ok_or (InvalidTransaction "Split amounts overflow u64")
                               (try_sum amounts 0)) in
  refuse! (coin_balance source <? total_split)%Z
    with InsufficientBalance (show_id owner) total_split (coin_balance source) in
  let is_exact_split := (coin_balance source =? total_split)%Z in
  let! (source', changes, created) := split_loop owner ctx amounts source [] [] in
  let msg := "Split into " +:+ fmt_u64 (Z.of_nat (length amounts)) +:+ " coins"
               +:+ (if is_exact_split then " (source deleted)" else "") in
  if is_exact_split then
    let! _ := on_store (delete_object source_id) in
    sret (mkExecutionOutput true (Some msg)
            (mkRtStateChange Delete source_id (Some old) None :: changes) created [source_id] None)
  else
    let source'' := Obj.increment_version source' in
    let! _ := on_store (set_object source_id source'') in
    sret (mkExecutionOutput true (Some msg)
            (mkRtStateChange Update source_id (Some old) (Some (to_coin_state_bytes source''))
               :: changes) created [] None).

(** ** The account-based transfer *)

(** The owned coins of the requested type. *)
Fixpoint collect_coins (s : St) (ids : list ObjectId) (ty : string)
    : result RuntimeError (list (ObjectId * Coin)) :=
  match ids with
  | [] => Ok []
  | id :: rest =>
      rbind (get_object s id) (fun o =>
      rbind (collect_coins s rest ty) (fun l =>
        match o with
        | Some coin => if bool_decide (ct_str (coin_ty coin) = ty) then Ok ((id, coin) :: l) else Ok l
        | None => Ok l
        end))
  end.

Definition by_balance (a b : ObjectId * Coin) : bool := (coin_balance a.2 <=? coin_balance b.2)%Z.
Definition by_balance_desc (a b : ObjectId * Coin) : bool := (coin_balance b.2 <=? coin_balance a.2)%Z.

Definition combine_outputs (m t : ExecutionOutput) (msg : string) : ExecutionOutput :=
  mkExecutionOutput (success m) (Some msg) (out_changes m ++ out_changes t)
    (created_objects m ++ created_objects t) (deleted_objects m ++ deleted_objects t)
    (query_result m).

Definition execute_simple_transfer (from to : string) (amt : Z) (ctx : ExecutionContext)
    (ty : option string) : exec ExecutionOutput :=
  refuse! (in_tee ctx)
    with InvalidTransaction
           "execute_simple_transfer must not be called in TEE path — use execute_transfer_with_coin with pre-selected coin_id" in
  let! from_addr := parse_address from in
  let! to_addr := parse_address to in
  let! owned := read (fun s => get_owned_objects s from_addr) in
  let! coins := read (fun s => collect_coins s owned (default "ROOT" ty)) in
  let! total := slift (ok_or (InvalidTransaction "Total balance overflow")
                         (try_sum ((fun kc => coin_balance kc.2) <$> coins) 0)) in
  refuse! (total <? amt)%Z with InsufficientBalance (show_id from_addr) amt total in
  let ascending := stable_sort by_balance coins in
  match List.find (fun kc => (amt <=? coin_balance kc.2)%Z) ascending with
  | Some (id, _) =>
      execute_transaction
        (new_transfer_deterministic from_addr id to_addr (Some amt) (ctx_timestamp ctx)) ctx
  | None =>
      match stable_sort by_balance_desc ascending with
      | [] => slift Panic
      | (target_id, _) :: others =>
          let source_ids := others.*1 in
          let! merge_output := execute_merge_coins from_addr target_id source_ids ctx in
          let! transfer_output :=
            execute_transaction
              (new_transfer_deterministic from_addr target_id to_addr (Some amt)
                 (ctx_timestamp ctx)) ctx in
          sret (combine_outputs merge_output transfer_output
                  ("Auto-merged " +:+ fmt_u64 (Z.of_nat (length source_ids + 1))
                     +:+ " coins, then transferred " +:+ fmt_u64 amt +:+ " to " +:+ show_id to_addr))
      end
  end.
(** ** Registrations *)

(** [serde_json::to_vec(&v)?]. *)
Definition to_vec (v : json) : exec bytes := slift (ok_or SerializationError (json_to_vec v)).

Definition meta_id (domain key : string) : ObjectId := setu_hash_with_domain domain (as_bytes key).

Definition created (id : ObjectId) (b : bytes) : RtStateChange :=
  mkRtStateChange Create id None (Some b).

Definition execute_subnet_register (subnet name : string) (owner : Address)
    (token_symbol : option string) (initial_supply : option Z) (ctx : ExecutionContext)
    : exec ExecutionOutput :=
  let subnet_data :=
    JObj [("subnet_id", JStr subnet); ("name", JStr name); ("owner", JStr (show_id owner));
          ("token_symbol", JOpt token_symbol); ("created_at", JNum (ctx_timestamp ctx))] in
  let oid := meta_id "SETU_SUBNET_META:" ("subnet:" +:+ subnet) in
  let! b := to_vec subnet_data in
  let msg := "Subnet '" +:+ name +:+ "' registered with owner " +:+ show_id owner
               +:+ (match token_symbol with Some t => ", token: " +:+ t | None => "" end) in
  let! (changes, objs) :=
    match initial_supply with
    | Some supply =>
        if (0 <? supply)%Z then
          let! m := mint_tokens owner subnet supply ctx in
          sret (created oid b :: out_changes m, created_objects m)
        else sret ([created oid b], [])
    | None => sret ([created oid b], [])
    end in
  sret (mkExecutionOutput true (Some msg) changes objs [] None).

(** Create a raw object unless it exists. *)
Definition create_raw_if_absent (oid : ObjectId) (v : json) (changes : list RtStateChange)
    (objs : list ObjectId) : exec (list RtStateChange * list ObjectId) :=
  let! o := read (fun s => get_raw_object s oid) in
  match o with
  | Some _ => sret (changes, objs)
  | None =>
      let! b := to_vec v in
      let! _ := on_store (set_raw_object oid b) in
      sret ((changes ++ [created oid b])%list, (objs ++ [oid])%list)
  end.

Definition membership_id (user : Address) (subnet : string) : ObjectId :=
  meta_id "SETU_MEMBERSHIP:" ("user:" +:+ show_id user +:+ ":subnet:" +:+ subnet).

Definition reverse_member_id (user : Address) (subnet : string) : ObjectId :=
  meta_id "SETU_SUBNET_MEMBER:" ("subnet:" +:+ subnet +:+ ":member:" +:+ show_id user).

Definition membership_json (user : Address) (subnet : string) (joined_at : Z) : json :=
  JObj [("user", JStr (show_id user)); ("subnet_id", JStr subnet); ("joined_at", JNum joined_at)].

Definition execute_user_register (user : Address) (subnet : string) (ctx : ExecutionContext)
    : exec ExecutionOutput :=
  let oid := membership_id user subnet in
  let! b := to_vec (membership_json user subnet (ctx_timestamp ctx)) in
  let addr := show_id user in
  let! (ch1, ob1) :=
    create_raw_if_absent (flux_state_object_id addr) (flux_json (flux_new addr (ctx_timestamp ctx)))
      [created oid b] [oid] in
  let! (ch2, ob2) :=
    create_raw_if_absent (power_state_object_id addr) (power_json (power_new addr)) ch1 ob1 in
  sret (mkExecutionOutput true
          (Some ("User " +:+ show_id user +:+ " registered in subnet '" +:+ subnet +:+ "'"))
          ch2 ob2 [] None).

Definition execute_profile_update (user : Address) (display_name avatar_url bio : option string)
    (attributes : gmap string string) (ctx : ExecutionContext) : exec ExecutionOutput :=
  let oid := meta_id "SETU_PROFILE:" ("profile:" +:+ show_id user) in
  let! b := to_vec
    (JObj [("owner", JStr (show_id user)); ("display_name", JOpt display_name);
           ("avatar_url", JOpt avatar_url); ("bio", JOpt bio);
           ("attributes", JObj ((fun kv => (kv.1, JStr kv.2)) <$> map_to_list attributes));
           ("created_at", JNum (ctx_timestamp ctx)); ("updated_at", JNum (ctx_timestamp ctx))]) in
  sret (mkExecutionOutput true (Some ("Profile updated for " +:+ show_id user))
          [created oid b] [] [] None).

Definition execute_subnet_join (user : Address) (subnet : string) (ctx : ExecutionContext)
    : exec ExecutionOutput :=
  let! b := to_vec (membership_json user subnet (ctx_timestamp ctx)) in
  let! b' := to_vec (membership_json user subnet (ctx_timestamp ctx)) in
  sret (mkExecutionOutput true
          (Some ("User " +:+ show_id user +:+ " joined subnet '" +:+ subnet +:+ "'"))
          [created (membership_id user subnet) b; created (reverse_member_id user subnet) b']
          [] [] None).

Definition execute_subnet_leave (user : Address) (subnet : string) : exec ExecutionOutput :=
  sret (mkExecutionOutput true
          (Some ("User " +:+ show_id user +:+ " left subnet '" +:+ subnet +:+ "'"))
          [mkRtStateChange Delete (membership_id user subnet) None None;
           mkRtStateChange Delete (reverse_member_id user subnet) None None]
          [] [] None).
End Exec.
End Exec.
