(* ===== verification/ExecutorSpec.v ===== *)
(** * Correctness of the runtime executor

    A small weakest-precondition calculus for the executor's methods, the
    contract [op_post] that every successful coin operation fulfils (supply,
    other owners' coins, no empty coin, and state changes that replay to the new
    store), and the theorems about [Executor].  Everything is proved against
    [StateStoreLaws], so it holds for both stores. *)

From Stdlib Require Import ZArith Lia.
From stdpp Require Import base gmap sets list strings numbers.
From S2P Require Import Prelude Hash Vlc Event Coin StateStore Resource Executor.

#[local] Open Scope Z_scope.

(** ** Weakest preconditions of [stm] *)

Definition wp {S E A : Type} (m : stm S E A) (s : S) (Q : S → result E A → Prop) : Prop :=
  Q (m s).1 (m s).2.

Section Wp.
Context {S E A B : Type}.
Implicit Types (Q : S → result E B → Prop).

Lemma wp_bind (m : stm S E A) (k : A → stm S E B) s Q :
  wp m s (fun s' r => match r with
                      | Ok a => wp (k a) s' Q
                      | Err e => Q s' (Err e)
                      | Panic => Q s' Panic
                      end) → wp (sbind m k) s Q.
Proof. unfold wp, sbind. destruct (m s) as [s' [a|e|]]; done. Qed.

Lemma wp_ret (b : B) s Q : Q s (Ok b) → wp (sret b) s Q.
Proof. done. Qed.

Lemma wp_refuse (c : bool) (e : E) (k : stm S E B) s Q :
  (c = true → Q s (Err e)) → (c = false → wp k s Q) → wp (if c then sfail e else k) s Q.
Proof. destruct c; intros H1 H2; [by apply H1|by apply H2]. Qed.

Lemma wp_ok_or (e : E) (o : option B) s Q :
  (∀ a, o = Some a → Q s (Ok a)) → (o = None → Q s (Err e)) → wp (slift (ok_or e o)) s Q.
Proof. destruct o; intros H1 H2; [by apply H1|by apply H2]. Qed.

Lemma wp_mono (m : stm S E B) s (Q Q' : S → result E B → Prop) :
  wp m s Q → (∀ s' r, Q s' r → Q' s' r) → wp m s Q'.
Proof. unfold wp. auto. Qed.
End Wp.

(** ** The abstract state: coins, supply, the view that state changes describe *)

(** An account: which coins, by owner and type, it counts. *)
Definition account : Type := option Address → CoinType → bool.

(** What a coin contributes to an account, and the total of an account. *)
Definition coin_term (P : account) (c : Coin) : Z :=
  if P (coin_owner c) (coin_ty c) then coin_balance c else 0.

Definition tally (m : gmap ObjectId Coin) (P : account) : Z :=
  map_sumZ (fun _ c => coin_term P c) m.

(** The account of all coins of a type, and of one owner's coins of a type. *)
Definition supply_of (ty : CoinType) : account := fun _ ty' => bool_decide (ty' = ty).
Definition held_by (a : Address) (ty : CoinType) : account :=
  fun o ty' => bool_decide (o = Some a ∧ ty' = ty).

Definition no_empty_coin (m : gmap ObjectId Coin) : Prop :=
  ∀ id c, m !! id = Some c → coin_balance c ≠ 0.

(** The ids that the context would give to the next [k] outputs are new. *)
Definition fresh_outputs `{Blake3} (m : gmap ObjectId Coin) (h : HashValue) (n : Z) (k : nat) : Prop :=
  NoDup (coin_id_from_tx h <$> seqZ n (Z.of_nat k)) ∧
  Forall (fun id => m !! id = None) (coin_id_from_tx h <$> seqZ n (Z.of_nat k)).

#[global] Instance fresh_outputs_dec `{Blake3} m h n k : Decision (fresh_outputs m h n k).
Proof.
  unfold fresh_outputs. apply and_dec; [apply _|]. apply list.Forall_dec. intros id.
  destruct (m !! id); [by right|by left].
Defined.

(** Replay of recorded state changes on stored bytes: each change must name
    the bytes it replaces. *)
Fixpoint replay (v : gmap ObjectId bytes) (chs : list RtStateChange) : option (gmap ObjectId bytes) :=
  match chs with
  | [] => Some v
  | ch :: rest =>
      if bool_decide (old_state ch = v !! rc_object_id ch) then
        replay (match new_state ch with
                | Some b => <[rc_object_id ch := b]> v
                | None => delete (rc_object_id ch) v
                end) rest
      else None
  end.

Section Spec.
Context {St : Type} `{ST : StateStore St} `{L : !StateStoreLaws St}.
Context `{B : Blake3} `{C : Bcs} `{X : HexCrate} `{J : SerdeJson}.

(** The stored bytes of the coins. *)
Definition coin_view (s : St) : gmap ObjectId bytes := to_coin_state_bytes <$> ss_coins s.

(** What a successful operation of [who] that changes every account [P] by
    [delta P] guarantees. *)
Record op_post (who : Address) (delta : account → Z) (s s' : St) (chs : list RtStateChange)
    : Prop := mkOpPost {
  op_inv : ss_inv s';
  op_tally : ∀ P, tally (ss_coins s') P = tally (ss_coins s) P + delta P;
  op_frame : ∀ id c, ss_coins s !! id = Some c → coin_owner c ≠ Some who →
    ss_coins s' !! id = Some c;
  op_nonempty : no_empty_coin (ss_coins s) → no_empty_coin (ss_coins s');
  op_replay : replay (coin_view s) chs = Some (coin_view s')
}.

Definition no_change : account → Z := fun _ => 0.

(** [a] tokens of type [ty] enter the account of owner [o]. *)
Definition credit (o : Address) (ty : CoinType) (a : Z) : account → Z :=
  fun P => if P (Some o) ty then a else 0.

(** [a] tokens of type [ty] move between two owners. *)
Definition moved (from to : Address) (ty : CoinType) (a : Z) : account → Z :=
  fun P => credit to ty a P - credit from ty a P.

(** ** Lemmas on coins *)

Lemma compute_digest_data c : data (Obj.compute_digest c) = data c.
Proof. done. Qed.

Lemma norm_term P c : is_Some (coin_owner c) → coin_term P (ss_norm c) = coin_term P c.
Proof.
  intros Ho. unfold coin_term, coin_ty, coin_balance. by rewrite ss_norm_data, ss_norm_owner.
Qed.

Lemma norm_balance c : coin_balance (ss_norm c) = coin_balance c.
Proof. unfold coin_balance. by rewrite ss_norm_data. Qed.

Lemma norm_bytes c : is_Some (coin_owner c) → to_coin_state_bytes (ss_norm c) = to_coin_state_bytes c.
Proof.
  intros Ho. unfold to_coin_state_bytes, to_coin_state, coin_balance, coin_ty.
  rewrite ss_norm_data, ss_norm_version. f_equal. f_equal.
  pose proof (ss_norm_owner c Ho) as E. unfold coin_owner in E. by rewrite E.
Qed.

(** ** Rules for the primitives *)

Lemma wp_load id s n (Q : Exec.machine → result RuntimeError Coin → Prop) :
  ss_inv s → (∀ c, ss_coins s !! id = Some c → Q (s, n) (Ok c)) →
  (ss_coins s !! id = None → Q (s, n) (Err (ObjectNotFound id))) →
  wp (Exec.load_coin id) (s, n) Q.
Proof.
  intros Hi H1 H2. unfold Exec.load_coin, Exec.read. apply wp_bind. unfold wp. simpl.
  rewrite ss_get by done. simpl. destruct (ss_coins s !! id); [by apply H1|by apply H2].
Qed.

Lemma wp_set id c s n (Q : Exec.machine → result RuntimeError unit → Prop) :
  ss_inv s → coin_ok c →
  (∀ s', ss_inv s' → ss_coins s' = <[id := ss_norm c]> (ss_coins s) → Q (s', n) (Ok tt)) →
  wp (Exec.on_store (set_object id c)) (s, n) Q.
Proof.
  intros Hi Hc HQ. destruct (ss_set s id c Hi Hc) as (s' & He & Hi' & Hco & _).
  unfold wp, Exec.on_store. rewrite He. simpl. by apply HQ.
Qed.

Lemma wp_delete id s n (Q : Exec.machine → result RuntimeError unit → Prop) :
  ss_inv s →
  (∀ s', ss_inv s' → ss_coins s' = delete id (ss_coins s) → Q (s', n) (Ok tt)) →
  wp (Exec.on_store (delete_object id)) (s, n) Q.
Proof.
  intros Hi HQ. destruct (ss_delete s id Hi) as (s' & He & Hi' & Hco & _).
  unfold wp, Exec.on_store. rewrite He. simpl. by apply HQ.
Qed.

Lemma wp_new_id ctx (s : St) n (Q : Exec.machine → result RuntimeError ObjectId → Prop) :
  n < u32_max → Q (s, n + 1) (Ok (coin_id_from_tx (tx_hash ctx) n)) →
  wp (Exec.new_coin_id ctx) (s, n) Q.
Proof.
  intros Hn HQ. unfold Exec.new_coin_id. apply wp_bind. unfold wp, Exec.next_output_index.
  unfold checked_add. destruct (Z.leb_spec (n + 1) u32_max); [done|lia].
Qed.

Lemma wp_withdraw b amt (s : Exec.machine) (Q : Exec.machine → result RuntimeError (Balance * Balance) → Prop) :
  (∀ msg, bal_value b < amt → Q s (Err (InvalidTransaction msg))) →
  (amt ≤ bal_value b → Q s (Ok (mkBalance (bal_value b - amt), mkBalance amt))) →
  wp (Exec.or_invalid (St := St) (Bal.withdraw b amt)) s Q.
Proof.
  intros H1 H2. unfold wp, Exec.or_invalid, Bal.withdraw.
  destruct (Z.ltb_spec (bal_value b) amt); simpl; auto.
Qed.

Lemma wp_deposit b b' (s : Exec.machine) (Q : Exec.machine → result RuntimeError Balance → Prop) :
  (∀ msg, u64_max < bal_value b + bal_value b' → Q s (Err (InvalidTransaction msg))) →
  (bal_value b + bal_value b' ≤ u64_max → Q s (Ok (mkBalance (bal_value b + bal_value b')))) →
  wp (Exec.or_invalid (St := St) (Bal.deposit b b')) s Q.
Proof.
  intros H1 H2. unfold wp, Exec.or_invalid, Bal.deposit, checked_add.
  destruct (Z.leb_spec (bal_value b + bal_value b') u64_max); simpl; auto.
Qed.

(** ** Changes of the coin map *)

Lemma tally_update m id c c' P :
  m !! id = Some c → tally (<[id := c']> m) P = tally m P - coin_term P c + coin_term P c'.
Proof. intros Hc. unfold tally. by rewrite (map_sumZ_update _ _ _ _ _ Hc). Qed.

Lemma tally_insert m id c P :
  m !! id = None → tally (<[id := c]> m) P = coin_term P c + tally m P.
Proof. intros Hc. unfold tally. by rewrite map_sumZ_insert. Qed.

Lemma tally_delete m id c P :
  m !! id = Some c → tally (delete id m) P = tally m P - coin_term P c.
Proof. intros Hc. unfold tally. rewrite (map_sumZ_delete _ m id c Hc). lia. Qed.

Lemma op_post_trans who mint1 mint2 s1 s2 s3 chs1 chs2 :
  op_post who mint1 s1 s2 chs1 → op_post who mint2 s2 s3 chs2 →
  op_post who (fun P => mint1 P + mint2 P) s1 s3 (chs1 ++ chs2).
Proof.
  intros [Hi1 Hs1 Hf1 Hn1 Hr1] [Hi2 Hs2 Hf2 Hn2 Hr2]. split; auto.
  - intros P. rewrite Hs2, Hs1. lia.
  - revert Hr1. generalize (coin_view s1). induction chs1 as [|ch chs1 IH]; intros v; simpl.
    + by intros [= ->].
    + case_bool_decide; [apply IH|done].
Qed.

Lemma op_post_ext who f g s s' chs :
  (∀ P, f P = g P) → op_post who f s s' chs → op_post who g s s' chs.
Proof. intros Hfg [Hi Hs Hf Hn Hr]. split; auto. intros P. rewrite Hs. by rewrite Hfg. Qed.

Lemma op_post_refl who s : ss_inv s → op_post who no_change s s [].
Proof. intros Hi. split; auto. intros P. unfold no_change. lia. Qed.

Definition old_term (m : gmap ObjectId Coin) (id : ObjectId) (P : account) : Z :=
  default 0 (coin_term P <$> m !! id).

(** Writing a coin of [who], or a new one. *)
Lemma op_set who k s s' id c' :
  ss_inv s' → ss_coins s' = <[id := ss_norm c']> (ss_coins s) → coin_ok c' →
  coin_balance c' ≠ 0 ∨ (∃ c, ss_coins s !! id = Some c ∧ coin_balance c' = coin_balance c) →
  (∀ c, ss_coins s !! id = Some c → coin_owner c = Some who) →
  op_post who (fun P => coin_term P c' - old_term (ss_coins s) id P) s s'
    [mkRtStateChange k id (to_coin_state_bytes <$> ss_coins s !! id) (Some (to_coin_state_bytes c'))].
Proof.
  intros Hi Hco [Hu Ho] Hne Hown. split; [done| | | |].
  - intros P. rewrite Hco. unfold old_term. destruct (ss_coins s !! id) as [c|] eqn:E; simpl.
    + rewrite (tally_update _ _ _ _ _ E), norm_term by done. lia.
    + rewrite (tally_insert _ _ _ _ E), norm_term by done. lia.
  - intros x c Hx Hw. rewrite Hco, lookup_insert_ne; [done|]. intros ->. by apply Hw, Hown.
  - intros Hall x c. rewrite Hco, lookup_insert. case_decide as E; [|apply Hall].
    intros [= <-]. rewrite norm_balance.
    destruct Hne as [?|(c & Hc & ->)]; [done|]. by eapply Hall.
  - unfold coin_view. simpl. rewrite lookup_fmap, bool_decide_eq_true_2 by done.
    by rewrite Hco, fmap_insert, norm_bytes.
Qed.

Lemma op_del who s s' id c :
  ss_inv s' → ss_coins s' = delete id (ss_coins s) →
  ss_coins s !! id = Some c → coin_owner c = Some who →
  op_post who (fun P => - coin_term P c) s s'
    [mkRtStateChange Delete id (Some (to_coin_state_bytes c)) None].
Proof.
  intros Hi Hco Hc Ho. split; [done| | | |].
  - intros P. rewrite Hco, (tally_delete _ _ _ _ Hc). lia.
  - intros x c' Hx Hw. rewrite Hco, lookup_delete_ne; [done|]. intros ->. naive_solver.
  - intros Hall x c'. rewrite Hco. intros [_ Hx]%lookup_delete_Some. by eapply Hall.
  - unfold coin_view. simpl. rewrite lookup_fmap, Hc, bool_decide_eq_true_2 by done.
    by rewrite Hco, fmap_delete.
Qed.

(** A change of an object that the others do not touch may come first. *)
Lemma replay_to_front (u : RtStateChange) chs v :
  Forall (fun ch => rc_object_id ch ≠ rc_object_id u) chs →
  replay v (chs ++ [u]) = replay v (u :: chs).
Proof.
  intros Hne. revert v. induction Hne as [|ch chs Hne _ IH]; intros v; [done|].
  cbn [app replay]. rewrite IH. cbn [replay].
  assert (E1 : (match new_state ch with
               | Some b => <[rc_object_id ch:=b]> v
               | None => delete (rc_object_id ch) v
               end) !! rc_object_id u = v !! rc_object_id u).
  { destruct (new_state ch); [by rewrite lookup_insert_ne|by rewrite lookup_delete_ne]. }
  assert (E2 : (match new_state u with
               | Some b => <[rc_object_id u:=b]> v
               | None => delete (rc_object_id u) v
               end) !! rc_object_id ch = v !! rc_object_id ch).
  { destruct (new_state u); [by rewrite lookup_insert_ne|by rewrite lookup_delete_ne]. }
  rewrite E1, E2. do 2 case_bool_decide; [|done..]. f_equal.
  destruct (new_state u), (new_state ch).
  - by apply insert_insert_ne.
  - symmetry. by apply delete_insert_ne.
  - by apply delete_insert_ne.
  - apply delete_delete.
Qed.

Lemma op_post_to_front who f s s' u chs :
  Forall (fun ch => rc_object_id ch ≠ rc_object_id u) chs →
  op_post who f s s' (chs ++ [u]) → op_post who f s s' (u :: chs).
Proof. intros Hne [Hi Hs Hf Hn Hr]. split; auto. by rewrite <-replay_to_front. Qed.

(** ** Fresh output ids *)

Lemma fresh_outputs_S m h n k :
  fresh_outputs m h n (S k) ↔
  m !! coin_id_from_tx h n = None ∧ (coin_id_from_tx h n ∉ (coin_id_from_tx h <$> seqZ (n + 1) (Z.of_nat k))) ∧
  fresh_outputs m h (n + 1) k.
Proof.
  unfold fresh_outputs. rewrite (seqZ_cons n (Z.of_nat (S k))) by lia.
  replace (Z.pred (Z.of_nat (S k))) with (Z.of_nat k) by lia.
  change (Z.succ n) with (n + 1). rewrite fmap_cons, list.NoDup_cons, list.Forall_cons. tauto.
Qed.

Lemma fresh_outputs_insert m h n k id c :
  id ∉ (coin_id_from_tx h <$> seqZ n (Z.of_nat k)) →
  fresh_outputs m h n k → fresh_outputs (<[id := c]> m) h n k.
Proof.
  intros Hid [Hnd Hall]. split; [done|]. rewrite list.Forall_forall in *. intros x Hx.
  rewrite lookup_insert_ne; [by apply Hall|]. by intros ->.
Qed.

Lemma fresh_outputs_le m h n k k' : (k' ≤ k)%nat → fresh_outputs m h n k → fresh_outputs m h n k'.
Proof.
  intros Hle [Hnd Hall]. unfold fresh_outputs.
  replace (Z.of_nat k) with (Z.of_nat k' + Z.of_nat (k - k')) in Hnd, Hall by lia.
  rewrite seqZ_app, fmap_app in Hnd, Hall by lia. split.
  - by apply list.NoDup_app in Hnd as [? _].
  - by apply list.Forall_app in Hall as [? _].
Qed.

(** ** Transfers *)

Lemma increment_version_ok c : coin_ok c → coin_ok (Obj.increment_version c).
Proof. done. Qed.

Lemma set_balance_ok c z : coin_ok c → is_u64 z → coin_ok (set_balance c (mkBalance z)).
Proof. intros [_ Ho] Hz. done. Qed.

Lemma created_ok id owner z ct ts : is_u64 z → coin_ok (create_coin_with_id id owner z ct ts).
Proof. intros Hz. split; [done|by eexists]. Qed.

Lemma created_term id owner z (ty : CoinType) ts P :
  coin_term P (create_coin_with_id id owner z (ct_str ty) ts) = credit owner ty z P.
Proof. by destruct ty. Qed.

Lemma coin_term_withdraw c z owner P :
  coin_owner c = Some owner →
  coin_term P (Obj.increment_version (set_balance c (mkBalance z))) = credit owner (coin_ty c) z P.
Proof. intros Ho. unfold credit. by rewrite <-Ho. Qed.

Lemma coin_term_owner c owner P :
  coin_owner c = Some owner → coin_term P c = credit owner (coin_ty c) (coin_balance c) P.
Proof. intros Ho. unfold coin_term, credit. by rewrite Ho. Qed.

Lemma credit_add o ty a b P : credit o ty (a + b) P = credit o ty a P + credit o ty b P.
Proof. unfold credit. case_match; lia. Qed.

Lemma credit_sub o ty a b P : credit o ty (a - b) P = credit o ty a P - credit o ty b P.
Proof. unfold credit. case_match; lia. Qed.

Lemma credit_opp o ty a P : credit o ty (- a) P = - credit o ty a P.
Proof. unfold credit. case_match; lia. Qed.

Lemma credit_0 o ty P : credit o ty 0 P = 0.
Proof. unfold credit. by case_match. Qed.

(** The amount that a transfer of a coin asks for. *)
Definition asked (t : TransferTx) (c : Coin) : Z := default (coin_balance c) (amount t).

(** The two outcomes of a successful transfer on the coin map. *)
Inductive transfer_effect (t : TransferTx) (from : Address) (nid : ObjectId)
    (m m' : gmap ObjectId Coin) : Prop :=
| effect_full c c' :
    m !! coin_id t = Some c → coin_owner c = Some from → Obj.is_owned c = true →
    (amount t = None ∨ amount t = Some (coin_balance c)) → amount t ≠ Some 0 →
    m' = <[coin_id t := c']> m → data c' = data c → coin_owner c' = Some (recipient t) →
    transfer_effect t from nid m m'
| effect_partial c c' d a :
    m !! coin_id t = Some c → coin_owner c = Some from → Obj.is_owned c = true →
    amount t = Some a → a < coin_balance c → a ≠ 0 →
    m' = <[nid := d]> (<[coin_id t := c']> m) →
    coin_owner c' = Some from → coin_ty c' = coin_ty c →
    coin_balance c' = coin_balance c - a →
    coin_owner d = Some (recipient t) → coin_ty d = coin_ty c → coin_balance d = a →
    transfer_effect t from nid m m'.

(** Why a transfer is refused, and with which error. *)
Inductive transfer_refused (t : TransferTx) (from : Address) (m : gmap ObjectId Coin)
    : RuntimeError → Prop :=
| refused_missing :
    m !! coin_id t = None → transfer_refused t from m (ObjectNotFound (coin_id t))
| refused_kind c msg :
    m !! coin_id t = Some c → Obj.is_owned c = false →
    transfer_refused t from m (InvalidTransaction msg)
| refused_owner c :
    m !! coin_id t = Some c → coin_owner c ≠ Some from →
    transfer_refused t from m (InvalidOwnership (coin_id t) (show_id from))
| refused_zero msg :
    amount t = Some 0 → transfer_refused t from m (InvalidTransaction msg)
| refused_balance c a msg :
    m !! coin_id t = Some c → amount t = Some a → coin_balance c < a →
    transfer_refused t from m (InvalidTransaction msg).

Lemma transfer_effect_not_refused t from nid m m' e :
  transfer_effect t from nid m m' → ¬ transfer_refused t from m e.
Proof.
  intros [c c' Hc Ho Hown Ha H0 _ _ _|c c' d a Hc Ho Hown Ha Hlt H0 _ _ _ _ _ _ _] Hr;
    inversion Hr; simplify_eq; try congruence; try lia.
  destruct Ha; simplify_eq; lia.
Qed.

Definition amount_ok (a : option Z) : Prop := ∀ z, a = Some z → is_u64 z.

Lemma transfer_wp tx t ctx s n :
  ss_inv s → amount_ok (amount t) → n < u32_max → fresh_outputs (ss_coins s) (tx_hash ctx) n 1 →
  wp (Exec.execute_transfer tx t ctx) (s, n) (fun st r =>
    match r with
    | Ok o => (∃ c, ss_coins s !! coin_id t = Some c ∧
                 op_post (sender tx) (moved (sender tx) (recipient t) (coin_ty c) (asked t c))
                   s st.1 (out_changes o)) ∧
              transfer_effect t (sender tx) (coin_id_from_tx (tx_hash ctx) n)
                (ss_coins s) (ss_coins st.1)
    | Err e => st = (s, n) ∧ transfer_refused t (sender tx) (ss_coins s) e
    | Panic => False
    end).
Proof.
  intros Hi Ha Hn Hfresh. unfold Exec.execute_transfer.
  apply wp_bind, wp_load; [done| |split; [done|by apply refused_missing]]. intros c Hc.
  apply wp_refuse; [intros ?%negb_true_iff; split; [done|by eapply refused_kind]|].
  intros Howned%negb_false_iff.
  apply wp_bind, wp_ok_or; [|intros Hno; split; [done|eapply refused_owner; [done|congruence]]].
  intros owner Howner. apply wp_refuse.
  { intros Hs%bool_decide_eq_true. split; [done|]. eapply refused_owner; [done|congruence]. }
  intros Hs%bool_decide_eq_false. apply dec_stable in Hs as ->.
  apply wp_refuse; [intros ?%bool_decide_eq_true; split; [done|by apply refused_zero]|].
  intros Hz%bool_decide_eq_false.
  pose proof (ss_balance s _ c Hi Hc) as Hu.
  destruct (match amount t with None => true | Some a => a =? coin_balance c end) eqn:Hfull.
  - assert (Hdata : data (Obj.transfer_to c (recipient t)) = data c).
    { unfold Obj.transfer_to. by rewrite Howned. }
    assert (Hown' : coin_owner (Obj.transfer_to c (recipient t)) = Some (recipient t)).
    { unfold Obj.transfer_to. by rewrite Howned. }
    assert (Hok : coin_ok (Obj.transfer_to c (recipient t))).
    { split; [unfold coin_balance; by rewrite Hdata|by rewrite Hown']. }
    apply wp_bind, wp_set; [done..|]. intros s' Hi' Hco. apply wp_ret. simpl. split.
    + exists c. split; [done|]. assert (E : Some (to_coin_state_bytes c) = to_coin_state_bytes <$> ss_coins s !! coin_id t)
        by by rewrite Hc.
      rewrite E. eapply op_post_ext; [|eapply op_set; try done].
      * intros P. unfold old_term, moved. rewrite Hc. simpl.
        rewrite (coin_term_owner c (sender tx) P Howner), (coin_term_owner _ _ P Hown').
        unfold asked, coin_ty, coin_balance. rewrite Hdata.
        destruct (amount t); simpl; [|done]. apply Z.eqb_eq in Hfull as ->. done.
      * right. exists c. split; [done|]. unfold coin_balance. by rewrite Hdata.
      * naive_solver.
    + eapply effect_full; [done|done|done| |done|done| |].
      * destruct (amount t) as [a|]; [right|by left]. f_equal. lia.
      * by rewrite ss_norm_data.
      * rewrite ss_norm_owner; [done|by eexists].
  - destruct (amount t) as [a|] eqn:Hamt; [|done]. specialize (Ha a eq_refl).
    apply wp_bind, wp_ret, wp_bind, wp_withdraw.
    { intros e Hlt. split; [done|by eapply refused_balance]. }
    intros Hle. simpl.
    apply Z.eqb_neq in Hfull. fold (coin_balance c) in Hle |- *.
    assert (Hrest : is_u64 (coin_balance c - a)) by (unfold is_u64 in *; lia).
    assert (Hcok : coin_ok c) by (split; [done|by exists (sender tx)]).
    apply wp_bind, wp_set; [done|by apply increment_version_ok, set_balance_ok|].
    intros s1 Hi1 Hco1. apply wp_bind, wp_new_id; [done|].
    apply fresh_outputs_S in Hfresh as (Hnid & _ & _).
    set (nid := coin_id_from_tx (tx_hash ctx) n) in *.
    assert (Hnid1 : ss_coins s1 !! nid = None).
    { rewrite Hco1, lookup_insert_ne; [done|]. congruence. }
    apply wp_bind, wp_set; [done|by apply created_ok|]. intros s2 Hi2 Hco2. apply wp_ret. simpl.
    split.
    + exists c. split; [done|]. eapply op_post_ext; [|eapply (op_post_trans _ _ _ s s1 s2 [_] [_])].
      2: { assert (E : Some (to_coin_state_bytes c) = to_coin_state_bytes <$> ss_coins s !! coin_id t)
             by by rewrite Hc.
           rewrite E. apply op_set; [done|done|by apply increment_version_ok, set_balance_ok| |].
           - left. unfold coin_balance. simpl. unfold coin_balance in *. lia.
           - naive_solver. }
      2: { assert (E : None = to_coin_state_bytes <$> ss_coins s1 !! nid) by by rewrite Hnid1.
           rewrite E. apply op_set; [done|done|by apply created_ok| |].
           - left. unfold coin_balance. simpl. congruence.
           - congruence. }
      intros P. cbn beta. rewrite (coin_term_withdraw _ _ _ _ Howner), created_term, credit_sub.
      unfold old_term, moved, asked. rewrite Hc, Hnid1, Hamt. simpl.
      rewrite (coin_term_owner c _ P Howner). lia.
    + eapply effect_partial with (c := c) (a := a);
        [done|done|done|done|lia|congruence|rewrite Hco2, Hco1; reflexivity|..].
      * rewrite ss_norm_owner; [done|by eexists].
      * unfold coin_ty. by rewrite ss_norm_data.
      * unfold coin_balance. by rewrite ss_norm_data.
      * rewrite ss_norm_owner; [done|by eexists].
      * unfold coin_ty. rewrite ss_norm_data. by destruct (coin_type (data c)).
      * unfold coin_balance. by rewrite ss_norm_data.
Qed.

(** ** Merges *)

(** The balances of the coins of a list of ids. *)
Definition total_of (m : gmap ObjectId Coin) (ids : list ObjectId) : Z :=
  foldr (fun id acc => default 0 (coin_balance <$> m !! id) + acc) 0 ids.

Lemma total_of_delete m id ids : id ∉ ids → total_of (delete id m) ids = total_of m ids.
Proof.
  induction ids as [|x ids IH]; intros Hid; [done|]. simpl.
  rewrite lookup_delete_ne by set_solver. rewrite IH by set_solver. done.
Qed.

Lemma total_of_nonneg m ids :
  (∀ id c, m !! id = Some c → 0 ≤ coin_balance c) → 0 ≤ total_of m ids.
Proof.
  intros Hm. induction ids as [|id ids IH]; simpl; [done|].
  destruct (m !! id) as [c|] eqn:E; simpl; [apply Hm in E|]; lia.
Qed.

(** The sources can be merged into a target of balance [b]. *)
Definition mergeable (owner : Address) (ty : CoinType) (sources : list ObjectId) (b : Z)
    (m : gmap ObjectId Coin) : Prop :=
  (∀ id, id ∈ sources → ∃ c, m !! id = Some c ∧ coin_owner c = Some owner ∧ coin_ty c = ty) ∧
  b + total_of m sources ≤ u64_max.

(** The effect of the loop: the sources leave the store, their balances
    accumulate in the target. *)
Definition merge_loop_post (owner : Address) (ty : CoinType) (sources : list ObjectId)
    (target : Coin) (chs : list RtStateChange) (del : list ObjectId) (s : St) (n : Z)
    (st : Exec.machine) (r : result RuntimeError (Coin * list RtStateChange * list ObjectId)) : Prop :=
  match r with
  | Ok (target', chs', del') =>
      ∃ s' cs z, st = (s', n) ∧ chs' = chs ++ cs ∧ del' = del ++ sources ∧
        target' = set_balance target (mkBalance z) ∧
        z = coin_balance target + total_of (ss_coins s) sources ∧ is_u64 z ∧
        op_post owner (credit owner ty (- total_of (ss_coins s) sources))
          s s' cs ∧
        (∀ id, id ∉ sources → ss_coins s' !! id = ss_coins s !! id) ∧
        (∀ id, id ∈ sources → ss_coins s' !! id = None ∧
           ∃ c, ss_coins s !! id = Some c ∧ coin_owner c = Some owner ∧ coin_ty c = ty) ∧
        Forall (fun ch => rc_object_id ch ∈ sources) cs
  | Err _ => ¬ mergeable owner ty sources (coin_balance target) (ss_coins s)
  | Panic => False
  end.

Lemma merge_loop_wp owner ty sources target chs del s n :
  ss_inv s → NoDup sources → is_u64 (coin_balance target) →
  wp (Exec.merge_loop owner ty sources target chs del) (s, n)
    (merge_loop_post owner ty sources target chs del s n).
Proof.
  revert target chs del s. induction sources as [|sid rest IH]; intros target chs del s Hi Hnd Hu.
  { apply wp_ret. exists s, [], (coin_balance target). rewrite !app_nil_r.
    split_and!; [done|done|done|by destruct target as [? [? []]]|simpl; lia|done| |done|set_solver|done].
    eapply op_post_ext; [|by apply op_post_refl]. intros P. simpl. by rewrite credit_0. }
  apply list.NoDup_cons in Hnd as [Hnin Hnd]. cbn [Exec.merge_loop].
  assert (Hhead : mergeable owner ty (sid :: rest) (coin_balance target) (ss_coins s) →
    ∃ c, ss_coins s !! sid = Some c ∧ coin_owner c = Some owner ∧ coin_ty c = ty).
  { intros [Hm _]. apply Hm. set_solver. }
  apply wp_bind, wp_load; [done| |intros ? Hm; apply Hhead in Hm as (? & ? & _); congruence].
  intros c Hc.
  apply wp_bind, wp_ok_or; [|intros ? Hm; apply Hhead in Hm as (? & ? & ? & _); congruence].
  intros o Ho. apply wp_refuse.
  { intros Hs%bool_decide_eq_true Hm. apply Hhead in Hm as (? & ? & ? & _). congruence. }
  intros Hs%bool_decide_eq_false. apply dec_stable in Hs as ->. apply wp_refuse.
  { intros Hs%bool_decide_eq_true Hm. apply Hhead in Hm as (? & ? & _ & ?). congruence. }
  intros Ht%bool_decide_eq_false. apply dec_stable in Ht.
  assert (Hnn : 0 ≤ total_of (ss_coins s) rest).
  { apply total_of_nonneg. intros id d Hd. apply (ss_balance s id d Hi) in Hd. by destruct Hd. }
  apply wp_bind, wp_deposit.
  { intros e Hov [_ Hm]. simpl in Hm. rewrite Hc in Hm. simpl in Hm.
    unfold coin_balance in *. lia. }
  intros Hmax.
  fold (coin_balance target) in Hmax |- *. fold (coin_balance c) in Hmax |- *.
  pose proof (ss_balance s sid c Hi Hc) as Hcu.
  assert (Hu' : is_u64 (coin_balance target + coin_balance c)) by (unfold is_u64 in *; lia).
  apply wp_bind, wp_delete; [done|]. intros s1 Hi1 Hco1.
  eapply wp_mono; [by apply IH|].
  intros st [[[t' chs'] del']|e|]; simpl; [|intros Hno [Hm Hsum]; apply Hno; split|done].
  2: { intros id Hid. destruct (Hm id) as (d & ? & ?); [set_solver|]. exists d.
       rewrite Hco1, lookup_delete_ne by set_solver. done. }
  2: { rewrite Hco1, total_of_delete by done. simpl in Hsum. rewrite Hc in Hsum. simpl in Hsum.
       unfold coin_balance in *. simpl. lia. }
  intros (s' & cs & z & -> & -> & -> & -> & Hz & Huz & Hop & Hsame & Hgone & Hall).
  rewrite Hco1, total_of_delete in Hz, Hop by done.
  exists s', (mkRtStateChange Delete sid (Some (to_coin_state_bytes c)) None :: cs), z.
  rewrite <-!app_assoc. simpl. rewrite Hc. simpl.
  split_and!; [done|done|done|done| |done| | | |].
  - unfold coin_balance in *. simpl in Hz. lia.
  - eapply op_post_ext; [|eapply (op_post_trans _ _ _ s s1 s' [_] cs);
      [by eapply op_del|exact Hop]].
    intros P. cbn beta. rewrite (coin_term_owner c _ P Ho), Ht, !credit_opp, credit_add. lia.
  - intros id Hid. rewrite Hsame by set_solver. rewrite Hco1. apply lookup_delete_ne. set_solver.
  - intros id [->|Hid]%elem_of_cons.
    + split; [|by exists c]. rewrite Hsame by done. rewrite Hco1. apply lookup_delete_eq.
    + destruct (Hgone id Hid) as (Hn & c' & Hc' & ?). split; [done|]. exists c'.
      rewrite Hco1, lookup_delete_ne in Hc' by set_solver. done.
  - constructor; [simpl; set_solver|]. eapply list.Forall_impl; [exact Hall|]. simpl. set_solver.
Qed.

Lemma first_duplicate_NoDup ids seen :
  Exec.first_duplicate ids seen = None → NoDup ids ∧ ∀ x, x ∈ ids → x ∉ seen.
Proof.
  revert seen. induction ids as [|id ids IH]; intros seen; simpl; [intros _; split; [constructor|set_solver]|].
  case_bool_decide as Hin; [done|]. intros [Hnd Hns]%IH. split; [|set_solver].
  constructor; [|done]. intros H. apply (Hns id H). set_solver.
Qed.

Lemma first_duplicate_Some ids seen id :
  Exec.first_duplicate ids seen = Some id → NoDup ids → (∀ x, x ∈ ids → x ∉ seen) → False.
Proof.
  revert seen. induction ids as [|x ids IH]; intros seen; simpl; [done|].
  intros H Hnd Hns. apply list.NoDup_cons in Hnd as [Hx Hnd].
  case_bool_decide as Hin; [eapply Hns; [|done]; set_solver|].
  eapply IH; [done|done|]. intros y Hy. assert (y ≠ x) by (intros ->; done). set_solver.
Qed.

(** The requests that [execute_merge_coins] accepts. *)
Record merge_valid (owner : Address) (tid : ObjectId) (sources : list ObjectId)
    (m : gmap ObjectId Coin) : Prop := mkMergeValid {
  mv_some : sources ≠ [];
  mv_max : (length sources ≤ MAX_MERGE_SOURCES)%nat;
  mv_distinct : NoDup (tid :: sources);
  mv_coins : ∃ c, m !! tid = Some c ∧ coin_owner c = Some owner ∧
    mergeable owner (coin_ty c) sources (coin_balance c) m
}.

(** A successful merge: the sources, all coins of the owner and of the
    target's type, are gone; the target holds the sum; nothing else moved. *)
Record merge_effect (owner : Address) (tid : ObjectId) (sources : list ObjectId)
    (m m' : gmap ObjectId Coin) : Prop := mkMergeEffect {
  me_nodup : NoDup (tid :: sources);
  me_target : ∃ c c', m !! tid = Some c ∧ m' !! tid = Some c' ∧
    coin_owner c = Some owner ∧ coin_owner c' = Some owner ∧ coin_ty c' = coin_ty c ∧
    coin_balance c' = coin_balance c + total_of m sources ∧
    (Obj.is_owned c = true → Obj.is_owned c' = true) ∧
    ∀ id, id ∈ sources → ∃ d, m !! id = Some d ∧ coin_owner d = Some owner ∧ coin_ty d = coin_ty c;
  me_sources : ∀ id, id ∈ sources → m' !! id = None;
  me_others : ∀ id, id ∉ tid :: sources → m' !! id = m !! id
}.

Lemma merge_wp owner tid sources ctx s n :
  ss_inv s →
  wp (Exec.execute_merge_coins owner tid sources ctx) (s, n) (fun st r =>
    match r with
    | Ok o => ∃ s', st = (s', n) ∧ op_post owner no_change s s' (out_changes o) ∧
                    merge_effect owner tid sources (ss_coins s) (ss_coins s') ∧
                    deleted_objects o = sources ∧ merge_valid owner tid sources (ss_coins s)
    | Err _ => ¬ merge_valid owner tid sources (ss_coins s)
    | Panic => False
    end).
Proof.
  intros Hi. unfold Exec.execute_merge_coins.
  apply wp_refuse; [intros ?%bool_decide_eq_true [??]; done|]. intros Hsome%bool_decide_eq_false.
  apply wp_refuse; [intros ?%Nat.ltb_lt [? Hlen]; lia|]. intros Hlen%Nat.ltb_ge.
  apply wp_refuse; [intros ?%bool_decide_eq_true [??[]%list.NoDup_cons]; done|].
  intros Htin%bool_decide_eq_false.
  destruct (Exec.first_duplicate sources ∅) eqn:Hdup.
  { intros [?? [_ Hnd]%list.NoDup_cons]. apply first_duplicate_Some in Hdup; [done|done|set_solver]. }
  apply first_duplicate_NoDup in Hdup as [Hnd _].
  apply wp_bind, wp_load; [done| |intros ? [??? (? & ? & _)]; congruence]. intros c Hc.
  apply wp_bind, wp_ok_or; [|intros ? [??? (? & ? & ? & _)]; congruence]. intros o Ho.
  apply wp_refuse; [intros ?%bool_decide_eq_true [??? (? & ? & ? & _)]; congruence|].
  intros Hs%bool_decide_eq_false. apply dec_stable in Hs as ->.
  pose proof (ss_balance s tid c Hi Hc) as Hcu.
  apply wp_bind. eapply wp_mono; [by apply merge_loop_wp|].
  intros st [[[t' chs] del]|e|]; simpl;
    [|intros Hno [??? (c' & Hc' & _ & Hm)]; apply Hno; congruence|done].
  intros (s1 & cs & z & -> & -> & -> & -> & Hz & Huz & Hop & Hsame & Hgone & Hall).
  assert (Hok : coin_ok (Obj.increment_version (set_balance c (mkBalance z)))).
  { apply increment_version_ok, set_balance_ok; [|done]. split; [done|by exists owner]. }
  assert (Hc1 : ss_coins s1 !! tid = Some c) by by rewrite Hsame.
  apply wp_bind, wp_set; [apply Hop|done|]. intros s' Hi' Hco. apply wp_ret.
  exists s'. simpl. split_and!; [done| | |done|].
  3: { split; [done|done|by constructor|]. exists c. split_and!; [done|done|]. split.
       - intros id Hid. by apply (Hgone id).
       - unfold is_u64 in Huz. lia. }
  - apply op_post_to_front.
    { eapply list.Forall_impl; [exact Hall|]. simpl. intros ch Hch E. by rewrite E in Hch. }
    eapply op_post_ext; [|eapply (op_post_trans _ _ _ s s1 s' cs [_]); [exact Hop|]].
    2: { assert (E : Some (to_coin_state_bytes c) = to_coin_state_bytes <$> ss_coins s1 !! tid)
           by by rewrite Hc1.
         rewrite E. apply op_set; [done|done|done| |naive_solver].
         destruct (decide (total_of (ss_coins s) sources = 0)) as [H0|H0].
         - right. exists c. split; [done|]. unfold coin_balance in *. simpl. lia.
         - left. pose proof (total_of_nonneg (ss_coins s) sources) as Hnn.
           assert (0 ≤ total_of (ss_coins s) sources).
           { apply Hnn. intros id d Hd. apply (ss_balance s id d Hi) in Hd. by destruct Hd. }
           destruct Hcu. unfold coin_balance in *. simpl. lia. }
    intros P. cbn beta. rewrite (coin_term_withdraw _ _ _ _ Ho), Hz, credit_opp, credit_add.
    unfold old_term, no_change. rewrite Hc1. simpl. rewrite (coin_term_owner c _ P Ho). lia.
  - split.
    + by constructor.
    + exists c, (ss_norm (Obj.increment_version (set_balance c (mkBalance z)))).
      rewrite Hco, lookup_insert_eq. split_and!; [done|done|done| | | | |].
      * rewrite ss_norm_owner; [done|by exists owner].
      * unfold coin_ty. by rewrite ss_norm_data.
      * unfold coin_balance. rewrite ss_norm_data. simpl. done.
      * intros How. apply ss_norm_owned. exact How.
      * intros id Hid. destruct (Hgone id Hid) as [_ ?]. done.
    + intros id Hid. rewrite Hco, lookup_insert_ne by (intros ->; done). by apply Hgone.
    + intros id Hid. rewrite Hco, lookup_insert_ne by set_solver. apply Hsame. set_solver.
Qed.

(** ** Splits and mints *)

Definition sumZ (l : list Z) : Z := foldr Z.add 0 l.

Lemma try_sum_Some l acc z : try_sum l acc = Some z → z = acc + sumZ l.
Proof.
  revert acc. induction l as [|x l IH]; intros acc H; simpl in *; [simp_res; lia|].
  destruct (checked_add u64_max acc x) as [acc'|] eqn:E; [|done].
  apply checked_add_Some in E as [-> _]. apply IH in H. lia.
Qed.

(** The ids of the next [k] outputs. *)
Definition output_ids (h : HashValue) (n : Z) (k : nat) : list ObjectId :=
  coin_id_from_tx h <$> seqZ n (Z.of_nat k).

Lemma output_ids_S h n k : output_ids h n (S k) = coin_id_from_tx h n :: output_ids h (n + 1) k.
Proof.
  unfold output_ids. rewrite (seqZ_cons n (Z.of_nat (S k))) by lia.
  replace (Z.pred (Z.of_nat (S k))) with (Z.of_nat k) by lia. done.
Qed.

(** The new coins of a split: one per amount, at the output ids in order. *)
Definition outputs_at (owner : Address) (ty : CoinType) (m : gmap ObjectId Coin)
    (ids : list ObjectId) (amounts : list Z) : Prop :=
  Forall2 (fun id a => ∃ d, m !! id = Some d ∧ coin_owner d = Some owner ∧ coin_ty d = ty ∧
                            coin_balance d = a) ids amounts.

Definition split_loop_post (owner : Address) (ctx : ExecutionContext) (amounts : list Z)
    (source : Coin) (chs : list RtStateChange) (cre : list ObjectId) (s : St) (n : Z)
    (st : Exec.machine) (r : result RuntimeError (Coin * list RtStateChange * list ObjectId)) : Prop :=
  match r with
  | Ok (source', chs', cre') =>
      ∃ s' cs, let ids := output_ids (tx_hash ctx) n (length amounts) in
        st = (s', n + Z.of_nat (length amounts)) ∧ chs' = chs ++ cs ∧ cre' = cre ++ ids ∧
        source' = set_balance source (mkBalance (coin_balance source - sumZ amounts)) ∧
        op_post owner (credit owner (coin_ty source) (sumZ amounts)) s s' cs ∧
        (∀ id, id ∉ ids → ss_coins s' !! id = ss_coins s !! id) ∧
        outputs_at owner (coin_ty source) (ss_coins s') ids amounts ∧
        Forall (fun ch => rc_object_id ch ∈ ids) cs
  | _ => False
  end.

Definition amounts_ok (amounts : list Z) : Prop := Forall (fun a => is_u64 a ∧ a ≠ 0) amounts.

Lemma sumZ_nonneg l : amounts_ok l → 0 ≤ sumZ l.
Proof. induction 1 as [|x l [[? _] _] _ IH]; simpl; [done|]. unfold sumZ in *. lia. Qed.

Lemma split_loop_wp owner ctx amounts source chs cre s n :
  ss_inv s → amounts_ok amounts → sumZ amounts ≤ coin_balance source →
  n + Z.of_nat (length amounts) ≤ u32_max →
  fresh_outputs (ss_coins s) (tx_hash ctx) n (length amounts) →
  wp (Exec.split_loop owner ctx amounts source chs cre) (s, n)
    (split_loop_post owner ctx amounts source chs cre s n).
Proof.
  revert source chs cre s n. induction amounts as [|a rest IH];
    intros source chs cre s n Hi Hok Hsum Hn Hfresh.
  { apply wp_ret. exists s, []. simpl. rewrite !app_nil_r, Z.add_0_r, Z.sub_0_r.
    split_and!; [done|done|done|by destruct source as [? [? []]]| |done|constructor|constructor].
    eapply op_post_ext; [|by apply op_post_refl]. intros P. simpl. by rewrite credit_0. }
  pose proof Hok as [[Hau Ha0] Hrest]%list.Forall_cons.
  pose proof (sumZ_nonneg rest Hrest) as Hnn.
  cbn [length] in Hn, Hfresh. apply fresh_outputs_S in Hfresh as (Hnid & Hnotin & Hfresh).
  cbn [Exec.split_loop]. apply wp_bind, wp_new_id; [lia|].
  set (nid := coin_id_from_tx (tx_hash ctx) n) in *.
  apply wp_bind, wp_set; [done|by apply created_ok|]. intros s1 Hi1 Hco1.
  simpl in Hsum. unfold sumZ in Hsum; fold (sumZ rest) in Hsum.
  apply wp_bind, wp_withdraw; fold (coin_balance source); [lia|]. intros _. cbn [fst].
  eapply wp_mono; [apply IH|].
  - done.
  - done.
  - unfold coin_balance in *. simpl. lia.
  - lia.
  - rewrite Hco1. by apply fresh_outputs_insert.
  - intros st [[[src' chs'] cre']|e|]; simpl; [|done|done].
    intros (s' & cs & -> & -> & -> & -> & Hop & Hsame & Hout & Hall).
    exists s', (mkRtStateChange Create nid None
                  (Some (to_coin_state_bytes
                     (create_coin_with_id nid owner a (ct_str (coin_ty source)) (ctx_timestamp ctx)))) :: cs).
    rewrite output_ids_S, <-!app_assoc. fold nid. simpl.
    assert (Hnid1 : ss_coins s1 !! nid = Some (ss_norm
      (create_coin_with_id nid owner a (ct_str (coin_ty source)) (ctx_timestamp ctx))))
      by (by rewrite Hco1, lookup_insert_eq).
    split_and!; [f_equal; lia|done|done| | | | |].
    + unfold set_balance. simpl. f_equal. f_equal. f_equal.
      unfold coin_balance in *. simpl. unfold sumZ. lia.
    + eapply op_post_ext; [|eapply (op_post_trans _ _ _ s s1 s' [_] cs); [|exact Hop]].
      2: { assert (E : None = to_coin_state_bytes <$> ss_coins s !! nid) by by rewrite Hnid.
           rewrite E at 1. apply op_set; [done|done|by apply created_ok| |congruence].
           left. done. }
      intros P. cbn beta. rewrite created_term. unfold old_term. rewrite Hnid. simpl.
      change (coin_ty (set_balance source _)) with (coin_ty source).
      rewrite credit_add. unfold sumZ. lia.
    + intros id Hid. rewrite Hsame by set_solver. rewrite Hco1. apply lookup_insert_ne. set_solver.
    + constructor; [|done]. rewrite Hsame by done. rewrite Hnid1. eexists. split; [done|].
      rewrite ss_norm_owner by by eexists. unfold coin_ty, coin_balance. rewrite ss_norm_data.
      split_and!; [done| |done]. simpl. by destruct (coin_type (data source)).
    + constructor; [simpl; set_solver|]. eapply list.Forall_impl; [exact Hall|]. simpl. set_solver.
Qed.

(** A successful split: one new coin per amount, the rest stays in the source,
    which is deleted when nothing is left. *)
Record split_effect (owner : Address) (sid : ObjectId) (amounts : list Z) (ids : list ObjectId)
    (m m' : gmap ObjectId Coin) : Prop := mkSplitEffect {
  se_source : ∃ c, m !! sid = Some c ∧ coin_owner c = Some owner ∧
    sumZ amounts ≤ coin_balance c ∧ outputs_at owner (coin_ty c) m' ids amounts ∧
    if decide (coin_balance c = sumZ amounts) then m' !! sid = None
    else ∃ c', m' !! sid = Some c' ∧ coin_owner c' = Some owner ∧ coin_ty c' = coin_ty c ∧
               coin_balance c' = coin_balance c - sumZ amounts;
  se_others : ∀ id, id ∉ sid :: ids → m' !! id = m !! id
}.

Lemma existsb_zero amounts :
  existsb (fun a => a =? 0) amounts = false → Forall is_u64 amounts → amounts_ok amounts.
Proof.
  intros H Hu. induction Hu as [|a l Ha Hl IH]; [constructor|].
  simpl in H. apply orb_false_iff in H as [H0%Z.eqb_neq H]. constructor; [done|by apply IH].
Qed.

Lemma outputs_at_same owner ty m m' ids amounts :
  (∀ id, id ∈ ids → m' !! id = m !! id) → outputs_at owner ty m ids amounts →
  outputs_at owner ty m' ids amounts.
Proof.
  intros Hs H. induction H as [|id a ids amounts Hd H IH]; constructor.
  - rewrite Hs by set_solver. done.
  - apply IH. set_solver.
Qed.

Lemma split_wp owner sid amounts ctx s n :
  ss_inv s → Forall is_u64 amounts → n + Z.of_nat (length amounts) ≤ u32_max →
  fresh_outputs (ss_coins s) (tx_hash ctx) n (length amounts) →
  wp (Exec.execute_split_coin owner sid amounts ctx) (s, n) (fun st r =>
    match r with
    | Ok o => op_post owner no_change s st.1 (out_changes o) ∧
              split_effect owner sid amounts (output_ids (tx_hash ctx) n (length amounts))
                (ss_coins s) (ss_coins st.1)
    | Err _ => st = (s, n)
    | Panic => False
    end).
Proof.
  intros Hi Hu Hn Hfresh. unfold Exec.execute_split_coin.
  apply wp_refuse; [done|]. intros _. apply wp_refuse; [done|]. intros Hz.
  pose proof (existsb_zero amounts Hz Hu) as Hok. apply wp_refuse; [done|]. intros _.
  apply wp_bind, wp_load; [done| |done]. intros c Hc.
  apply wp_bind, wp_ok_or; [|done]. intros o Ho.
  apply wp_refuse; [done|]. intros Hs%bool_decide_eq_false. apply dec_stable in Hs as ->.
  apply wp_bind, wp_ok_or; [|done]. intros total Htot. apply try_sum_Some in Htot as ->.
  rewrite Z.add_0_l. apply wp_refuse; [done|]. intros Hle%Z.ltb_ge.
  pose proof (ss_balance s sid c Hi Hc) as Hcu. pose proof (sumZ_nonneg amounts Hok) as Hnn.
  apply wp_bind. eapply wp_mono; [by apply split_loop_wp|].
  intros st [[[src chs] cre]|e|]; simpl; [|done|done].
  intros (s1 & cs & -> & -> & -> & -> & Hop & Hsame & Hout & Hall).
  set (ids := output_ids (tx_hash ctx) n (length amounts)) in *.
  assert (Hsid : sid ∉ ids).
  { intros Hin. destruct Hfresh as [_ Hf]. rewrite list.Forall_forall in Hf.
    specialize (Hf sid Hin). congruence. }
  assert (Hc1 : ss_coins s1 !! sid = Some c) by by rewrite Hsame.
  assert (Hne : Forall (fun ch => rc_object_id ch ≠ sid) cs).
  { eapply list.Forall_impl; [exact Hall|]. simpl. intros ch Hch E. by rewrite E in Hch. }
  destruct (Z.eqb_spec (coin_balance c) (sumZ amounts)) as [Heq|Hneq].
  - apply wp_bind, wp_delete; [apply Hop|]. intros s' Hi' Hco. apply wp_ret. simpl. split.
    + apply op_post_to_front; [done|].
      eapply op_post_ext; [|eapply (op_post_trans _ _ _ s s1 s' cs [_]); [exact Hop|by eapply op_del]].
      intros P. cbn beta. rewrite (coin_term_owner c _ P Ho), Heq. unfold no_change. lia.
    + split.
      * exists c. split_and!; [done|done|done| |].
        -- eapply outputs_at_same; [|exact Hout]. intros id Hid. rewrite Hco.
           apply lookup_delete_ne. by intros ->.
        -- rewrite decide_True by done. rewrite Hco. apply lookup_delete_eq.
      * intros id Hid. rewrite Hco, lookup_delete_ne by set_solver. apply Hsame. set_solver.
  - assert (Hok' : coin_ok (Obj.increment_version
                     (set_balance c (mkBalance (coin_balance c - sumZ amounts))))).
    { apply increment_version_ok, set_balance_ok; [split; [done|by exists owner]|].
      unfold is_u64 in *. lia. }
    apply wp_bind, wp_set; [apply Hop|done|]. intros s' Hi' Hco. apply wp_ret. simpl. split.
    + apply op_post_to_front; [done|].
      eapply op_post_ext; [|eapply (op_post_trans _ _ _ s s1 s' cs [_]); [exact Hop|]].
      2: { assert (E : Some (to_coin_state_bytes c) = to_coin_state_bytes <$> ss_coins s1 !! sid)
             by by rewrite Hc1.
           rewrite E. apply op_set; [done|done|done| |naive_solver].
           left. unfold coin_balance in *. simpl. lia. }
      intros P. cbn beta. rewrite (coin_term_withdraw _ _ _ _ Ho), credit_sub.
      unfold old_term, no_change. rewrite Hc1. simpl. rewrite (coin_term_owner c _ P Ho). lia.
    + split.
      * exists c. split_and!; [done|done|done| |].
        -- eapply outputs_at_same; [|exact Hout]. intros id Hid. rewrite Hco.
           apply lookup_insert_ne. by intros ->.
        -- rewrite decide_False by done. eexists. rewrite Hco, lookup_insert_eq. split; [done|].
           rewrite ss_norm_owner by (by exists owner). unfold coin_ty, coin_balance.
           rewrite ss_norm_data. done.
      * intros id Hid. rewrite Hco, lookup_insert_ne by set_solver. apply Hsame. set_solver.
Qed.

Lemma mint_wp to subnet amt ctx s n who :
  ss_inv s → is_u64 amt → n < u32_max → fresh_outputs (ss_coins s) (tx_hash ctx) n 1 →
  wp (Exec.mint_tokens to subnet amt ctx) (s, n) (fun st r =>
    match r with
    | Ok o => op_post who (credit to (mkCoinType subnet) amt) s st.1 (out_changes o)
    | _ => False
    end).
Proof.
  intros Hi Hu Hn Hfresh. unfold Exec.mint_tokens.
  destruct (Z.eqb_spec amt 0) as [->|Hne].
  - apply wp_ret. eapply op_post_ext; [|by apply op_post_refl]. intros P. by rewrite credit_0.
  - apply wp_bind, wp_new_id; [done|]. apply fresh_outputs_S in Hfresh as (Hnid & _ & _).
    set (nid := coin_id_from_tx (tx_hash ctx) n) in *.
    apply wp_bind, wp_set; [done|by apply created_ok|]. intros s' Hi' Hco. apply wp_ret. simpl.
    assert (E : None = to_coin_state_bytes <$> ss_coins s !! nid) by by rewrite Hnid.
    rewrite E at 1. eapply op_post_ext;
      [|eapply op_set; [done|done|by apply created_ok|by left|congruence]].
    intros P. cbn beta. unfold old_term. rewrite Hnid. simpl.
    change subnet with (ct_str (mkCoinType subnet)) at 1. rewrite created_term. simpl. lia.
Qed.

End Spec.
