(* ===== verification/ExecutorProps.v ===== *)
(** * Theorems about the runtime executor

    The account-based transfer (selection of coins and the automatic merge),
    the accounting theorem over all operations, the behaviour of transfers,
    merges and splits with their errors, and what an error leaves behind. *)

From Stdlib Require Import ZArith Lia.
From stdpp Require Import base gmap sets list strings numbers.
From S2P Require Import Prelude Hash Vlc Event Coin StateStore Resource Executor ExecutorSpec.

#[local] Open Scope Z_scope.

(** ** Sorting *)

Section Sort.
Context {A : Type} (le : A → A → bool).

Lemma sort_insert_perm x l : sort_insert le x l ≡ₚ x :: l.
Proof.
  induction l as [|y l IH]; simpl; [done|]. case_match; [done|]. rewrite IH. constructor.
Qed.

Lemma stable_sort_perm l : stable_sort le l ≡ₚ l.
Proof. induction l as [|x l IH]; simpl; [done|]. by rewrite sort_insert_perm, IH. Qed.
End Sort.

(** ** Sums *)

Lemma sumZ_perm l l' : l ≡ₚ l' → sumZ l = sumZ l'.
Proof. induction 1; simpl; unfold sumZ in *; lia. Qed.

Lemma map_sumZ_list {K V} `{Countable K} (f : K → V → Z) (m : gmap K V) :
  map_sumZ f m = sumZ ((fun kv => f kv.1 kv.2) <$> map_to_list m).
Proof.
  induction m as [|k v m Hk IH] using map_ind.
  - by rewrite map_sumZ_empty, map_to_list_empty.
  - rewrite map_sumZ_insert by done. rewrite (sumZ_perm _ (((fun kv => f kv.1 kv.2) <$> (k, v) :: map_to_list m))).
    + rewrite IH. done.
    + by rewrite map_to_list_insert.
Qed.

Lemma map_sumZ_filter {K V} `{Countable K} (P : K * V → Prop) `{!∀ x, Decision (P x)}
    (f g : K → V → Z) (m : gmap K V) :
  (∀ k v, f k v = if decide (P (k, v)) then g k v else 0) →
  map_sumZ f m = map_sumZ g (filter P m).
Proof.
  intros Hfg. induction m as [|k v m Hk IH] using map_ind.
  - by rewrite map_filter_empty, !map_sumZ_empty.
  - rewrite map_sumZ_insert by done. rewrite Hfg, IH, map_filter_insert. case_decide.
    + rewrite map_sumZ_insert; [done|]. apply map_lookup_filter_None. by left.
    + rewrite delete_id by done. lia.
Qed.

Lemma sumZ_in x l : x ∈ l → Forall (fun z => 0 ≤ z) l → x ≤ sumZ l.
Proof.
  intros Hx Hl. induction Hl as [|y l Hy Hl IH]; [set_solver|]. simpl. unfold sumZ in *.
  assert (0 ≤ foldr Z.add 0 l) by (clear -Hl; induction Hl; simpl; lia).
  apply elem_of_cons in Hx as [->|Hx]; [lia|]. specialize (IH Hx). lia.
Qed.

Lemma try_sum_le l acc :
  Forall (fun z => 0 ≤ z) l → acc + sumZ l ≤ u64_max → try_sum l acc = Some (acc + sumZ l).
Proof.
  intros Hl. revert acc. induction Hl as [|x l Hx Hl IH]; intros acc Hmax; simpl in *.
  - f_equal. lia.
  - unfold sumZ in Hmax; fold (sumZ l) in Hmax.
    assert (0 ≤ sumZ l) by (clear -Hl; unfold sumZ; induction Hl; simpl; lia).
    rewrite (proj2 (checked_add_Some u64_max acc x (acc + x))) by lia.
    rewrite IH by lia. f_equal. unfold sumZ. lia.
Qed.

Section Props.
Context {St : Type} `{ST : StateStore St} `{L : !StateStoreLaws St}.
Context `{B : Blake3} `{C : Bcs} `{X : HexCrate} `{J : SerdeJson}.

(** ** The wallet: one owner's coins of one type *)

Definition in_wallet (a : Address) (ty : string) (kc : ObjectId * Coin) : Prop :=
  coin_owner kc.2 = Some a ∧ ct_str (coin_ty kc.2) = ty.

#[global] Instance in_wallet_dec a ty kc : Decision (in_wallet a ty kc).
Proof. unfold in_wallet. apply _. Defined.

Definition wallet (m : gmap ObjectId Coin) (a : Address) (ty : string) : gmap ObjectId Coin :=
  filter (in_wallet a ty) m.

Lemma wallet_lookup m a ty id c :
  wallet m a ty !! id = Some c ↔
  m !! id = Some c ∧ coin_owner c = Some a ∧ ct_str (coin_ty c) = ty.
Proof. unfold wallet. by rewrite map_lookup_filter_Some. Qed.

Lemma wallet_tally m a ty :
  tally m (held_by a (mkCoinType ty)) = map_sumZ (fun _ c => coin_balance c) (wallet m a ty).
Proof.
  apply map_sumZ_filter. intros k c. unfold coin_term, held_by.
  assert (E : (coin_owner c = Some a ∧ coin_ty c = mkCoinType ty) ↔ in_wallet a ty (k, c)).
  { unfold in_wallet. simpl. destruct (coin_ty c) as [t]. simpl. naive_solver. }
  case_bool_decide; case_decide; tauto || naive_solver.
Qed.

Lemma collect_coins_spec s ids ty :
  ss_inv s → NoDup ids →
  ∃ l, Exec.collect_coins s ids ty = Ok l ∧ NoDup l.*1 ∧
    ∀ id c, (id, c) ∈ l ↔ id ∈ ids ∧ ss_coins s !! id = Some c ∧ ct_str (coin_ty c) = ty.
Proof.
  intros Hi Hnd. induction Hnd as [|id ids Hid Hnd IH].
  { exists []. split_and!; [done|constructor|set_solver]. }
  destruct IH as (l & Hl & Hln & Hlin). cbn [Exec.collect_coins].
  rewrite ss_get by done. simpl. rewrite Hl. simpl.
  assert (Hnot : id ∉ l.*1).
  { intros ((?, c) & -> & Hin)%list_elem_of_fmap. apply Hlin in Hin as [? _]. done. }
  destruct (ss_coins s !! id) as [c|] eqn:E; [case_bool_decide as Ht|]; simpl.
  - exists ((id, c) :: l). split_and!; [done|by constructor|]. intros x cx.
    rewrite !elem_of_cons, Hlin. naive_solver.
  - exists l. split_and!; [done..|]. intros x cx. rewrite Hlin, elem_of_cons. naive_solver.
  - exists l. split_and!; [done..|]. intros x cx. rewrite Hlin, elem_of_cons. naive_solver.
Qed.

(** The list that [execute_simple_transfer] collects is the wallet. *)
Lemma collected_wallet s a ty owned :
  ss_inv s → get_owned_objects s a = Ok owned →
  ∃ l, Exec.collect_coins s owned ty = Ok l ∧ l ≡ₚ map_to_list (wallet (ss_coins s) a ty).
Proof.
  intros Hi Ho. destruct (ss_owned s a Hi) as (owned' & Ho' & Hnd & Hin).
  assert (owned' = owned) as -> by congruence.
  destruct (collect_coins_spec s owned ty Hi Hnd) as (l & Hl & Hln & Hlin).
  exists l. split; [done|]. apply NoDup_Permutation.
  - by eapply NoDup_fmap_1.
  - apply NoDup_map_to_list.
  - intros [id c]. rewrite Hlin, elem_of_map_to_list, wallet_lookup.
    split; [|naive_solver]. intros (Hid & Hc & Ht). split_and!; [done| |done].
    by apply (Hin id c).
Qed.

Lemma wallet_balances m a ty l :
  l ≡ₚ map_to_list (wallet m a ty) →
  sumZ ((fun kc => coin_balance kc.2) <$> l) = tally m (held_by a (mkCoinType ty)).
Proof.
  intros Hl. rewrite wallet_tally, map_sumZ_list. apply sumZ_perm.
  rewrite Hl. done.
Qed.

(** ** The account-based transfer *)

Lemma wp_read {A} (f : St → result RuntimeError A) s n (a : A)
    (Q : Exec.machine → result RuntimeError A → Prop) :
  f s = Ok a → Q (s, n) (Ok a) → wp (Exec.read f) (s, n) Q.
Proof. intros Hf HQ. unfold wp, Exec.read. simpl. by rewrite Hf. Qed.

Lemma wp_parse_address str a (st : Exec.machine) (Q : Exec.machine → result RuntimeError Address → Prop) :
  address_from_hex str = Ok a → Q st (Ok a) → wp (Exec.parse_address (St := St) str) st Q.
Proof. intros Hp HQ. unfold wp, Exec.parse_address. simpl. by rewrite Hp. Qed.

Lemma find_None_Forall {A} (f : A → bool) l : List.find f l = None → ∀ x, x ∈ l → f x = false.
Proof. intros H x Hx. apply (find_none f l H). by apply list_elem_of_In. Qed.

(** A transfer that no refusal applies to succeeds. *)
Lemma transfer_succeeds from cid to amt ts ctx s n c :
  ss_inv s → n < u32_max → fresh_outputs (ss_coins s) (tx_hash ctx) n 1 →
  ss_coins s !! cid = Some c → Obj.is_owned c = true → coin_owner c = Some from →
  0 < amt ≤ coin_balance c → is_u64 amt →
  wp (Exec.execute_transaction (Exec.new_transfer_deterministic from cid to (Some amt) ts) ctx)
    (s, n) (fun st r => ∃ o, r = Ok o ∧
      op_post from (moved from to (coin_ty c) amt) s st.1 (out_changes o)).
Proof.
  intros Hi Hn Hf Hc How Ho Hle Hu. unfold Exec.execute_transaction. simpl.
  eapply wp_mono; [apply transfer_wp; [done|by intros z [= <-]|done|done]|].
  intros st [o|e|]; simpl.
  - intros [(c' & Hc' & Hop) _]. assert (c' = c) as -> by congruence. by exists o.
  - intros [_ Hr]. exfalso. inversion Hr; simpl in *; simplify_eq; first [congruence | lia].
  - done.
Qed.

Lemma total_of_list m (l : list (ObjectId * Coin)) :
  (∀ id c, (id, c) ∈ l → m !! id = Some c) →
  total_of m l.*1 = sumZ ((fun kc => coin_balance kc.2) <$> l).
Proof.
  induction l as [|[id c] l IH]; intros Hl; [done|].
  change (default 0 (coin_balance <$> m !! id) + total_of m l.*1 =
          coin_balance c + sumZ ((fun kc => coin_balance kc.2) <$> l)).
  rewrite (Hl id c) by set_solver. simpl. rewrite IH; [done|]. set_solver.
Qed.

Lemma merge_keeps_fresh owner tid sources h n k m m' :
  merge_effect owner tid sources m m' → fresh_outputs m h n k → fresh_outputs m' h n k.
Proof.
  intros [_ (c & c' & Hc & _ & _ & _ & _ & _ & _ & Hs) _ Ho] [Hnd Hf]. split; [done|].
  eapply list.Forall_impl; [exact Hf|]. simpl. intros id Hid.
  destruct (decide (id ∈ tid :: sources)) as [Hin|Hnin]; [|by rewrite Ho].
  exfalso. apply elem_of_cons in Hin as [->|Hin]; [congruence|].
  destruct (Hs id Hin) as (d & ? & _). congruence.
Qed.

(** The parameters under which a transfer between accounts must go through:
    the sender's coins of the type cover a positive amount, their total is a
    [u64], and one merge can take them all. *)
Record simple_ok (a : Address) (ty : string) (amt : Z) (s : St) : Prop := mkSimpleOk {
  so_amount : 0 < amt ≤ tally (ss_coins s) (held_by a (mkCoinType ty));
  so_u64 : tally (ss_coins s) (held_by a (mkCoinType ty)) ≤ u64_max;
  so_count : (size (wallet (ss_coins s) a ty) ≤ MAX_MERGE_SOURCES + 1)%nat;
  so_owned : ∀ id c, wallet (ss_coins s) a ty !! id = Some c → Obj.is_owned c = true
}.

(** The merge branch: the first coin of the list takes the others, then pays. *)
Lemma merge_then_transfer_wp a b ty amt ts ctx s n tid ct others :
  ss_inv s → n < u32_max → fresh_outputs (ss_coins s) (tx_hash ctx) n 1 → simple_ok a ty amt s →
  ((tid, ct) :: others) ≡ₚ map_to_list (wallet (ss_coins s) a ty) → coin_balance ct < amt →
  ∀ msg,
  wp (sbind (Exec.execute_merge_coins a tid others.*1 ctx) (fun mo =>
      sbind (Exec.execute_transaction
               (Exec.new_transfer_deterministic a tid b (Some amt) ts) ctx) (fun tr =>
      sret (Exec.combine_outputs mo tr msg))))
    (s, n) (fun st r => ∃ o, r = Ok o ∧
      op_post a (moved a b (mkCoinType ty) amt) s st.1 (out_changes o)).
Proof.
  intros Hi Hn Hf [Hamt Hmax Hcnt Hown] Hperm Hct msg.
  assert (Hin : ∀ id c, (id, c) ∈ (tid, ct) :: others →
    wallet (ss_coins s) a ty !! id = Some c).
  { intros id c H. rewrite Hperm in H. by apply elem_of_map_to_list in H. }
  pose proof (wallet_balances (ss_coins s) a ty _ Hperm) as Hsum. simpl in Hsum.
  assert (Hct' := Hin tid ct ltac:(set_solver)). pose proof Hct' as (Hc & Hco & Hty)%wallet_lookup.
  assert (Hto : total_of (ss_coins s) others.*1 = sumZ ((fun kc => coin_balance kc.2) <$> others)).
  { apply total_of_list. intros id c H. apply wallet_lookup with a ty. apply Hin. set_solver. }
  assert (Hbal : coin_balance ct + total_of (ss_coins s) others.*1 =
                 tally (ss_coins s) (held_by a (mkCoinType ty))).
  { rewrite Hto, <-Hsum. done. }
  assert (Hvalid : merge_valid a tid others.*1 (ss_coins s)).
  { split.
    - intros E. rewrite E in Hbal. simpl in Hbal. lia.
    - assert (Hlen : length ((tid, ct) :: others) = size (wallet (ss_coins s) a ty)).
      { rewrite Hperm. apply length_map_to_list. }
      rewrite length_fmap. cbn [length] in Hlen. lia.
    - change (NoDup ((tid, ct) :: others).*1). rewrite Hperm. apply NoDup_fst_map_to_list.
    - exists ct. split_and!; [done|done|]. split; [|lia].
      intros id ([id' c] & -> & Hid)%list_elem_of_fmap. simpl.
      destruct (proj1 (wallet_lookup _ _ _ _ _) (Hin id' c ltac:(set_solver))) as (? & ? & Hty').
      exists c. split_and!; [done|done|]. destruct (coin_ty c), (coin_ty ct). simpl in *. congruence. }
  apply wp_bind. eapply wp_mono; [by apply merge_wp|].
  intros st [o|e|]; [|done|done]. intros (s1 & -> & Hop1 & Heff & _).
  pose proof (merge_keeps_fresh _ _ _ _ _ _ _ _ Heff Hf) as Hf1.
  pose proof Heff as [_ (c & c' & Ec & Hc' & _ & Hco' & Hty' & Hb' & How' & _) _ _].
  assert (c = ct) as -> by congruence.
  apply wp_bind. eapply wp_mono; [apply (transfer_succeeds a tid b amt ts ctx s1 n c')|].
  - apply Hop1.
  - done.
  - done.
  - done.
  - apply How'. by apply (Hown tid).
  - done.
  - lia.
  - unfold is_u64. lia.
  - intros st r (o' & -> & Hop2). apply wp_ret. eexists. split; [done|]. simpl.
    eapply op_post_ext; [|eapply op_post_trans; [exact Hop1|exact Hop2]].
    intros P. cbn beta. unfold no_change. rewrite Hty'.
    destruct (coin_ty ct) as [t]. simpl in Hty. by subst t.
Qed.

Lemma simple_transfer_wp from to amt ctx ty s n a b :
  ss_inv s → n < u32_max → fresh_outputs (ss_coins s) (tx_hash ctx) n 1 → in_tee ctx = false →
  address_from_hex from = Ok a → address_from_hex to = Ok b →
  simple_ok a (default "ROOT"%string ty) amt s →
  wp (Exec.execute_simple_transfer from to amt ctx ty) (s, n) (fun st r => ∃ o, r = Ok o ∧
      op_post a (moved a b (mkCoinType (default "ROOT"%string ty)) amt) s st.1 (out_changes o)).
Proof.
  set (tyv := default "ROOT"%string ty).
  intros Hi Hn Hf Htee Ha Hb Hok. unfold Exec.execute_simple_transfer. rewrite Htee.
  apply wp_bind, (wp_parse_address from a); [done|]. apply wp_bind, (wp_parse_address to b); [done|].
  destruct (ss_owned s a Hi) as (owned & Howned & _).
  apply wp_bind, (wp_read _ s n owned); [done|].
  destruct (collected_wallet s a tyv owned Hi Howned) as (l & Hl & Hperm).
  apply wp_bind, (wp_read _ s n l); [done|].
  pose proof (wallet_balances (ss_coins s) a tyv l Hperm) as Hsum.
  pose proof Hok as [Hamt Hmax Hcnt Hown].
  assert (Hin : ∀ id c, (id, c) ∈ l → wallet (ss_coins s) a tyv !! id = Some c).
  { intros id c H. rewrite Hperm in H. by apply elem_of_map_to_list in H. }
  apply wp_bind, wp_ok_or; rewrite try_sum_le; rewrite ?Hsum, ?Z.add_0_l; try done.
  2, 3: apply list.Forall_forall; intros z ([id c] & -> & Hc)%list_elem_of_fmap; simpl;
    apply Hin, wallet_lookup in Hc as [Hc _]; apply (ss_balance s id c Hi Hc).
  intros total [= <-]. apply wp_refuse; [intros ?%Z.ltb_lt; lia|]. intros _.
  pose proof (stable_sort_perm Exec.by_balance l) as Hp1.
  destruct (List.find _ _) as [[id c]|] eqn:Hfind.
  - apply find_some in Hfind as [Hid Hle]. simpl in Hle. apply Z.leb_le in Hle.
    apply list_elem_of_In in Hid. rewrite Hp1 in Hid. pose proof (Hin id c Hid) as Hw.
    pose proof Hw as (Hc & Hco & Hty)%wallet_lookup.
    eapply wp_mono; [apply (transfer_succeeds a id b amt _ ctx s n c); try done|].
    + by apply (Hown id).
    + lia.
    + unfold is_u64. lia.
    + intros st r (o & -> & Hop). exists o. split; [done|].
      destruct (coin_ty c) as [t]. simpl in Hty. by subst t.
  - pose proof (stable_sort_perm Exec.by_balance_desc (stable_sort Exec.by_balance l)) as Hp2.
    destruct (stable_sort Exec.by_balance_desc _) as [|[tid ct] others] eqn:Hdesc.
    + exfalso. apply Permutation_nil in Hp2. rewrite Hp2 in Hp1. apply Permutation_nil_l in Hp1.
      rewrite <-Hp1 in Hsum. simpl in Hsum. unfold sumZ in Hsum. simpl in Hsum. lia.
    + apply (merge_then_transfer_wp a b tyv amt _ ctx s n tid ct others); try done.
      * by rewrite Hp2, Hp1.
      * assert (Hin2 : (tid, ct) ∈ stable_sort Exec.by_balance l) by (rewrite <-Hp2; set_solver).
        apply (find_None_Forall _ _ Hfind) in Hin2. simpl in Hin2. apply Z.leb_gt in Hin2. lia.
Qed.

(** ** All coin operations *)

Inductive rt_op :=
| OpTransaction (tx : Transaction)
| OpTransferWithCoin (cid : ObjectId) (from to : string) (amt : option Z)
| OpMerge (owner : Address) (target : ObjectId) (sources : list ObjectId)
| OpSplit (owner : Address) (source : ObjectId) (amounts : list Z)
| OpMint (to : Address) (subnet : string) (amt : Z)
| OpSimple (from to : string) (amt : Z) (ty : option string).

Definition run_op (op : rt_op) (ctx : ExecutionContext) : Exec.exec (St := St) ExecutionOutput :=
  match op with
  | OpTransaction tx => Exec.execute_transaction tx ctx
  | OpTransferWithCoin cid from to amt => Exec.execute_transfer_with_coin cid from to amt ctx
  | OpMerge owner target sources => Exec.execute_merge_coins owner target sources ctx
  | OpSplit owner source amounts => Exec.execute_split_coin owner source amounts ctx
  | OpMint to subnet amt => Exec.mint_tokens to subnet amt ctx
  | OpSimple from to amt ty => Exec.execute_simple_transfer from to amt ctx ty
  end.

Definition parsed (a : string) : option Address :=
  match address_from_hex a with
  | Ok x => Some x
  | _ => None
  end.

(** On whose behalf an operation runs; a mint acts for nobody. *)
Definition actor (op : rt_op) : option Address :=
  match op with
  | OpTransaction tx => Some (sender tx)
  | OpTransferWithCoin _ from _ _ => parsed from
  | OpMerge owner _ _ => Some owner
  | OpSplit owner _ _ => Some owner
  | OpMint _ _ _ => None
  | OpSimple from _ _ _ => parsed from
  end.

Definition minted (op : rt_op) (ty : CoinType) : Z :=
  match op with
  | OpMint _ subnet amt => if decide (mkCoinType subnet = ty) then amt else 0
  | _ => 0
  end.

(** The most coins an operation creates, and that its amounts are [u64]s. *)
Definition op_outputs (op : rt_op) : nat :=
  match op with
  | OpMerge _ _ _ => 0
  | OpSplit _ _ amounts => length amounts
  | _ => 1
  end.

Definition op_amounts_ok (op : rt_op) : Prop :=
  match op with
  | OpTransaction tx =>
      match tx_type tx with
      | TxTransfer t => amount_ok (amount t)
      | TxQuery _ => True
      end
  | OpTransferWithCoin _ _ _ amt => amount_ok amt
  | OpMerge _ _ _ => True
  | OpSplit _ _ amounts => Forall is_u64 amounts
  | OpMint _ _ amt => is_u64 amt
  | OpSimple _ _ amt _ => is_u64 amt
  end.

Definition supply_neutral (delta : account → Z) : Prop := ∀ ty, delta (supply_of ty) = 0.

Lemma moved_neutral from to ty a : supply_neutral (moved from to ty a).
Proof. intros ty'. unfold moved, credit, supply_of. lia. Qed.

Lemma transaction_ok_wp tx ctx s n :
  ss_inv s → op_amounts_ok (OpTransaction tx) → n < u32_max →
  fresh_outputs (ss_coins s) (tx_hash ctx) n 1 →
  wp (Exec.execute_transaction tx ctx) (s, n) (fun st r => ∀ o, r = Ok o →
    ∃ delta, supply_neutral delta ∧ op_post (sender tx) delta s st.1 (out_changes o)).
Proof.
  intros Hi Ham Hn Hf. unfold Exec.execute_transaction. simpl in Ham.
  destruct (tx_type tx) as [t|q].
  - eapply wp_mono; [by apply transfer_wp|]. intros st [o| |]; simpl; [|done|done].
    intros [(c & _ & Hop) _] o' [= <-]. eexists. split; [apply moved_neutral|exact Hop].
  - unfold Exec.execute_query. apply wp_bind. unfold wp, Exec.read. simpl.
    destruct (Exec.query_value q s); simpl; [|done|done]. intros o [= <-].
    exists no_change. split; [done|]. by apply op_post_refl.
Qed.

Lemma simple_ok_wp from to amt ctx ty s n :
  ss_inv s → is_u64 amt → n < u32_max → fresh_outputs (ss_coins s) (tx_hash ctx) n 1 →
  wp (Exec.execute_simple_transfer from to amt ctx ty) (s, n) (fun st r => ∀ o, r = Ok o →
    ∃ a delta, parsed from = Some a ∧ supply_neutral delta ∧
      op_post a delta s st.1 (out_changes o)).
Proof.
  intros Hi Hu Hn Hf. unfold Exec.execute_simple_transfer. apply wp_refuse; [done|]. intros _.
  apply wp_bind. unfold parsed, wp at 1, Exec.parse_address at 1. simpl.
  destruct (address_from_hex from) as [a| |]; simpl; [|done|done].
  apply wp_bind. unfold wp at 1, Exec.parse_address. simpl.
  destruct (address_from_hex to) as [b| |]; simpl; [|done|done].
  destruct (ss_owned s a Hi) as (owned & Howned & _).
  apply wp_bind, (wp_read _ s n owned); [done|].
  destruct (collected_wallet s a (default "ROOT"%string ty) owned Hi Howned) as (l & Hl & _).
  apply wp_bind, (wp_read _ s n l); [done|].
  apply wp_bind, wp_ok_or; [|done]. intros total _. apply wp_refuse; [done|]. intros _.
  assert (Hpay : ∀ id s, ss_inv s → fresh_outputs (ss_coins s) (tx_hash ctx) n 1 →
    wp (Exec.execute_transaction
          (Exec.new_transfer_deterministic a id b (Some amt) (ctx_timestamp ctx)) ctx) (s, n)
      (fun st r => ∀ o, r = Ok o → ∃ delta, supply_neutral delta ∧
         op_post a delta s st.1 (out_changes o))).
  { intros id s0 Hi0 Hf0. apply transaction_ok_wp; [done| |done|done]. by intros z [= <-]. }
  destruct (List.find _ _) as [[id c]|].
  - eapply wp_mono; [by apply Hpay|]. intros st r Hr o Ho.
    destruct (Hr o Ho) as (delta & ? & ?). by exists a, delta.
  - destruct (stable_sort Exec.by_balance_desc _) as [|[tid ct] others]; [done|].
    apply wp_bind. eapply wp_mono; [by apply merge_wp|].
    intros st [o|e|]; [|done|done]. intros (s1 & -> & Hop1 & Heff & _).
    apply wp_bind. eapply wp_mono;
      [apply Hpay; [apply Hop1|by eapply merge_keeps_fresh]|].
    intros st [o'|e|] Hr; [|done|done]. destruct (Hr o' eq_refl) as (delta & Hneu & Hop2).
    apply wp_ret. intros o'' [= <-]. simpl. eexists a, _. split_and!; [done| |].
    + shelve.
    + eapply op_post_trans; [exact Hop1|exact Hop2].
    Unshelve. intros ty'. cbn beta. rewrite Hneu. done.
Qed.

Lemma run_op_wp op ctx s n :
  ss_inv s → op_amounts_ok op → n + Z.of_nat (op_outputs op) ≤ u32_max →
  fresh_outputs (ss_coins s) (tx_hash ctx) n (op_outputs op) →
  wp (run_op op ctx) (s, n) (fun st r => ∀ o, r = Ok o →
    ∃ delta, (∀ ty, delta (supply_of ty) = minted op ty) ∧
      ∀ who, (actor op = None ∨ actor op = Some who) → op_post who delta s st.1 (out_changes o)).
Proof.
  intros Hi Ham Hn Hf. destruct op as [tx|cid from to amt|owner tid src|owner sid ams|to sub amt|from to amt ty];
    simpl in *.
  - eapply wp_mono; [apply transaction_ok_wp; try done; lia|]. intros st r Hr o Ho.
    destruct (Hr o Ho) as (delta & ? & ?). exists delta. split; [done|]. naive_solver.
  - unfold Exec.execute_transfer_with_coin. apply wp_bind. unfold wp at 1, Exec.parse_address at 1.
    simpl. unfold parsed. destruct (address_from_hex from) as [a| |]; simpl; [|done|done].
    apply wp_bind. unfold wp at 1, Exec.parse_address. simpl.
    destruct (address_from_hex to) as [b| |]; simpl; [|done|done].
    eapply wp_mono; [apply transaction_ok_wp; try done; lia|]. intros st r Hr o Ho.
    destruct (Hr o Ho) as (delta & ? & ?). exists delta. split; [done|]. naive_solver.
  - eapply wp_mono; [by apply merge_wp|]. intros st [o|e|]; [|done|done].
    intros (s' & -> & Hop & _) o' [= <-]. exists no_change. split; [done|]. naive_solver.
  - eapply wp_mono; [by apply split_wp|]. intros st [o|e|]; [|done|done].
    intros [Hop _] o' [= <-]. exists no_change. split; [done|]. naive_solver.
  - assert (Hall : ∀ who, wp (Exec.mint_tokens to sub amt ctx) (s, n) (fun st r =>
      match r with
      | Ok o => op_post who (credit to (mkCoinType sub) amt) s st.1 (out_changes o)
      | _ => False
      end)) by (intros who; apply mint_wp; try done; lia).
    unfold wp in *. intros o Ho. exists (credit to (mkCoinType sub) amt). split.
    + intros ty. unfold credit, supply_of. case_bool_decide; case_decide; naive_solver.
    + intros who _. specialize (Hall who). by rewrite Ho in Hall.
  - eapply wp_mono; [apply simple_ok_wp; try done; lia|]. intros st r Hr o Ho.
    destruct (Hr o Ho) as (a & delta & ? & ? & ?). exists delta. split; [done|]. naive_solver.
Qed.

End Props.

(** ** A concrete store for the witnesses *)

Definition json_toy : SerdeJson := {|
  json_to_vec := fun _ => Some [];
  json_to_id := fun _ => None;
  json_of_object := fun _ => JNull
|}.

#[local] Existing Instance toy_blake3.
#[local] Existing Instance bcs_toy.
#[local] Existing Instance hex_lower.
#[local] Existing Instance json_toy.

(** The id whose 32 bytes are all [z]. *)
Definition wid (z : Z) : HashValue :=
  mkHash (replicate 32 (byte_of_Z z)) (bool_decide_eq_true_2 _ (length_replicate 32 (byte_of_Z z))).

Definition alice : Address := wid 10.
Definition bob : Address := wid 11.

Definition wit_coin (id : Z) (owner : Address) (v : Z) : Coin :=
  create_coin_with_id (wid id) owner v "ROOT" 0.

Definition wit_put (l : list (Z * Address * Z)) : InMemoryStateStore :=
  foldr (fun '(id, o, v) s => Mem.set_object (wid id) (wit_coin id o v) s) Mem.new l.

(** Alice has coins of 5 and 7, Bob one of 3. *)
Definition wit_store : InMemoryStateStore := wit_put [(1, alice, 5); (2, alice, 7); (3, bob, 3)].

Definition wit_ctx : ExecutionContext := mkExecutionContext "solver" 1000 false (wid 99) None.

Lemma wit_put_inv l : Forall (fun '(_, _, v) => is_u64 v) l → mem_inv (wit_put l).
Proof.
  induction 1 as [|[[id o] v] l Hv _ IH]; [apply mem_new_inv|]. simpl.
  apply mem_set_inv; [done|by apply created_ok].
Qed.

Lemma wit_store_inv : mem_inv wit_store.
Proof. apply wit_put_inv. repeat constructor; unfold u64_max; lia. Qed.

(** ** Properties *)

(** C7: accounting of every coin operation (transfer, transfer of a given
    coin, merge, split, mint, account transfer).  When it succeeds, the supply
    of every coin type changes by exactly what a mint creates and by nothing
    otherwise; every coin that belongs to somebody other than the actor is
    untouched; no coin is left empty if none was; and replaying the reported
    state changes, each of which must name the bytes it replaces, on the stored
    bytes gives the stored bytes of the new state. *)
Theorem runtime_accounting {St : Type} (ST : StateStore St) (L : StateStoreLaws St)
    (B : Blake3) (C : Bcs) (X : HexCrate) (J : SerdeJson)
    (op : rt_op) (ctx : ExecutionContext) (s s' : St) (n n' : Z) (o : ExecutionOutput)
    (Hinv : ss_inv s) (Hamounts : op_amounts_ok op)
    (Hcounter : n + Z.of_nat (op_outputs op) ≤ u32_max)
    (Hfresh : fresh_outputs (ss_coins s) (tx_hash ctx) n (op_outputs op))
    (Hrun : run_op op ctx (s, n) = ((s', n'), Ok o)) :
  ss_inv s' ∧
  (∀ ty, tally (ss_coins s') (supply_of ty) = tally (ss_coins s) (supply_of ty) + minted op ty) ∧
  (∀ id c, ss_coins s !! id = Some c → coin_owner c ≠ actor op → ss_coins s' !! id = Some c) ∧
  (no_empty_coin (ss_coins s) → no_empty_coin (ss_coins s')) ∧
  replay (coin_view s) (out_changes o) = Some (coin_view s').
Proof.
  pose proof (run_op_wp op ctx s n Hinv Hamounts Hcounter Hfresh) as Hwp.
  unfold wp in Hwp. rewrite Hrun in Hwp. simpl in Hwp.
  destruct (Hwp o eq_refl) as (delta & Hdelta & Hpost).
  assert (Hsome : ∃ who, actor op = None ∨ actor op = Some who).
  { destruct (actor op) as [a|]; [by exists a; right|by exists zero_hash; left]. }
  destruct Hsome as [who Hwho]. pose proof (Hpost who Hwho) as [Hi Ht _ Hn Hr].
  split_and!; [done| | |done|done].
  - intros ty. by rewrite Ht, Hdelta.
  - intros id c Hc Hne. destruct (actor op) as [a|] eqn:Ea.
    + by apply (Hpost a (or_intror eq_refl)).
    + destruct (coin_owner c) as [b|] eqn:Eb; [|done].
      apply (Hpost (if decide (b = alice) then bob else alice) (or_introl eq_refl)); [done|].
      rewrite Eb. case_decide; subst; [by vm_compute|congruence].
Qed.

Definition wit_split_run := run_op (OpSplit alice (wid 2) [2; 4]) wit_ctx (wit_store, 0).

Lemma runtime_accounting_witness :
  match wit_split_run with
  | ((s', _), Ok o) => replay (coin_view wit_store) (out_changes o) = Some (coin_view s')
  | _ => False
  end.
Proof.
  assert (Hok : is_ok wit_split_run.2 = true) by (vm_compute; reflexivity).
  destruct wit_split_run as [[s' n'] [o| |]] eqn:E; [clear Hok|discriminate Hok..].
  refine (proj2 (proj2 (proj2 (proj2 (runtime_accounting _ _ _ _ _ _
    (OpSplit alice (wid 2) [2; 4]) wit_ctx wit_store s' 0 n' o _ _ _ _ E))))).
  - exact wit_store_inv.
  - repeat constructor; unfold u64_max; lia.
  - vm_compute. discriminate.
  - apply (bool_decide_unpack _). vm_compute. exact I.
Defined.

(** A transfer never panics.  It is refused, with the error of the first
    failing check and the store and the counter unchanged, exactly for a missing
    coin, a coin that is not an owned object, a coin of somebody else, a zero
    amount or an amount above the balance.  Otherwise the whole coin changes
    owner, or a new coin of exactly the amount goes to the recipient and the rest
    stays with the sender; every account changes by exactly that movement. *)
Theorem transfer_behaviour {St : Type} (ST : StateStore St) (L : StateStoreLaws St)
    (B : Blake3) (C : Bcs) (X : HexCrate) (tx : Transaction) (t : TransferTx)
    (ctx : ExecutionContext) (s : St) (n : Z)
    (Hinv : ss_inv s) (Hamount : amount_ok (amount t)) (Hcounter : n < u32_max)
    (Hfresh : fresh_outputs (ss_coins s) (tx_hash ctx) n 1) :
  (∃ e, Exec.execute_transfer tx t ctx (s, n) = ((s, n), Err e) ∧
        transfer_refused t (sender tx) (ss_coins s) e) ∨
  (∃ s' n' o c, Exec.execute_transfer tx t ctx (s, n) = ((s', n'), Ok o) ∧
     (∀ e, ¬ transfer_refused t (sender tx) (ss_coins s) e) ∧
     transfer_effect t (sender tx) (coin_id_from_tx (tx_hash ctx) n) (ss_coins s) (ss_coins s') ∧
     ss_coins s !! coin_id t = Some c ∧
     ∀ P, tally (ss_coins s') P =
          tally (ss_coins s) P + moved (sender tx) (recipient t) (coin_ty c) (asked t c) P).
Proof.
  pose proof (transfer_wp tx t ctx s n Hinv Hamount Hcounter Hfresh) as Hwp. unfold wp in Hwp.
  destruct (Exec.execute_transfer tx t ctx (s, n)) as [[s' n'] [o|e|]] eqn:E; simpl in Hwp; [| |done].
  - destruct Hwp as [(c & Hc & Hop) Heff]. right. exists s', n', o, c.
    split_and!; [done| |done|done|apply Hop]. intros e. by eapply transfer_effect_not_refused.
  - left. exists e. destruct Hwp as [[= -> ->] Hr]. done.
Qed.

Definition wit_tx : Transaction :=
  Exec.new_transfer_deterministic alice (wid 2) bob (Some 4) 1000.
Definition wit_transfer : TransferTx := mkTransferTx (wid 2) bob (Some 4).

Lemma transfer_behaviour_witness :
  ∃ s' n' o, Exec.execute_transfer wit_tx wit_transfer wit_ctx (wit_store, 0) = ((s', n'), Ok o) ∧
    tally (ss_coins s') (held_by bob (mkCoinType "ROOT")) = 7.
Proof.
  destruct (transfer_behaviour _ InMemoryStateStore_laws _ _ _ wit_tx wit_transfer wit_ctx wit_store 0 wit_store_inv)
    as [(e & He & _)|(s' & n' & o & c & He & _ & _ & Hc & Ht)].
  - intros z [= <-]. unfold is_u64, u64_max. lia.
  - reflexivity.
  - apply (bool_decide_unpack _). vm_compute. exact I.
  - exfalso. apply (f_equal (fun p => is_ok p.2)) in He. vm_compute in He. discriminate He.
  - exists s', n', o. split; [exact He|]. rewrite Ht. vm_compute in Hc. injection Hc as <-.
    vm_compute. reflexivity.
Defined.

(** A merge succeeds exactly when it is valid: 1 to 50 distinct sources
    other than the target, all present, owned by the owner and of the target's
    type, with a total that fits a [u64].  Then the target holds the sum, the
    sources are gone, every other coin and every account is unchanged, and the
    output counter did not move. *)
Theorem merge_behaviour {St : Type} (ST : StateStore St) (L : StateStoreLaws St)
    (B : Blake3) (C : Bcs) (X : HexCrate) (owner : Address) (target : ObjectId)
    (sources : list ObjectId) (ctx : ExecutionContext) (s : St) (n : Z) (Hinv : ss_inv s) :
  (merge_valid owner target sources (ss_coins s) ↔
   ∃ s' o, Exec.execute_merge_coins owner target sources ctx (s, n) = ((s', n), Ok o) ∧
     merge_effect owner target sources (ss_coins s) (ss_coins s') ∧
     deleted_objects o = sources ∧
     ∀ P, tally (ss_coins s') P = tally (ss_coins s) P) ∧
  (Exec.execute_merge_coins owner target sources ctx (s, n)).2 ≠ Panic.
Proof.
  pose proof (merge_wp owner target sources ctx s n Hinv) as Hwp. unfold wp in Hwp.
  destruct (Exec.execute_merge_coins owner target sources ctx (s, n)) as [[s' n'] [o|e|]] eqn:E;
    simpl in Hwp; [| |done].
  - split; [|done]. destruct Hwp as (s1 & [= -> ->] & Hop & Heff & Hdel & Hv).
    split; [|done]. intros _. exists s1, o. split_and!; [done|done|done|].
    intros P. rewrite (op_tally _ _ _ _ _ Hop). unfold no_change. lia.
  - split; [|done]. split; [done|]. intros (s1 & o & [=] & _).
Qed.

Lemma merge_behaviour_witness :
  ∃ s' o, Exec.execute_merge_coins alice (wid 2) [wid 1] wit_ctx (wit_store, 0) = ((s', 0), Ok o) ∧
    merge_effect alice (wid 2) [wid 1] (ss_coins wit_store) (ss_coins s').
Proof.
  destruct (merge_behaviour _ InMemoryStateStore_laws _ _ _ alice (wid 2) [wid 1] wit_ctx wit_store 0 wit_store_inv)
    as [[Hv _] _].
  destruct Hv as (s' & o & He & Heff & _); [|exists s', o; split; [exact He|exact Heff]].
  split.
  - discriminate.
  - unfold MAX_MERGE_SOURCES. simpl. lia.
  - apply (bool_decide_unpack _). vm_compute. exact I.
  - exists (wit_coin 2 alice 7). split_and!; [vm_compute; reflexivity|reflexivity|]. split.
    + intros id ->%list_elem_of_singleton. exists (wit_coin 1 alice 5).
      split_and!; [vm_compute; reflexivity|reflexivity|reflexivity].
    + vm_compute. discriminate.
Defined.

(** A split never panics and changes nothing when it is refused.  When it
    succeeds there is one new coin per amount, at the derived ids in order, the
    source keeps the difference and is deleted when the amounts use it up, and
    every account and every other coin is unchanged. *)
Theorem split_behaviour {St : Type} (ST : StateStore St) (L : StateStoreLaws St)
    (B : Blake3) (C : Bcs) (X : HexCrate) (owner : Address) (source : ObjectId)
    (amounts : list Z) (ctx : ExecutionContext) (s : St) (n : Z)
    (Hinv : ss_inv s) (Hu : Forall is_u64 amounts)
    (Hcounter : n + Z.of_nat (length amounts) ≤ u32_max)
    (Hfresh : fresh_outputs (ss_coins s) (tx_hash ctx) n (length amounts)) :
  match Exec.execute_split_coin owner source amounts ctx (s, n) with
  | (st, Ok o) =>
      split_effect owner source amounts (output_ids (tx_hash ctx) n (length amounts))
        (ss_coins s) (ss_coins st.1) ∧
      (∀ P, tally (ss_coins st.1) P = tally (ss_coins s) P) ∧
      ss_inv st.1
  | (st, Err _) => st = (s, n)
  | (_, Panic) => False
  end.
Proof.
  pose proof (split_wp owner source amounts ctx s n Hinv Hu Hcounter Hfresh) as Hwp.
  unfold wp in Hwp.
  destruct (Exec.execute_split_coin owner source amounts ctx (s, n)) as [st [o|e|]];
    simpl in Hwp; [|done|done].
  destruct Hwp as [Hop Heff]. split_and!; [done| |apply Hop].
  intros P. rewrite (op_tally _ _ _ _ _ Hop). unfold no_change. lia.
Qed.

Lemma split_behaviour_witness :
  match Exec.execute_split_coin alice (wid 2) [3; 4] wit_ctx (wit_store, 0) with
  | (st, Ok o) => ∀ P, tally (ss_coins st.1) P = tally (ss_coins wit_store) P
  | _ => False
  end.
Proof.
  assert (Hok : is_ok (Exec.execute_split_coin alice (wid 2) [3; 4] wit_ctx (wit_store, 0)).2 = true)
    by (vm_compute; reflexivity).
  pose proof (split_behaviour _ InMemoryStateStore_laws _ _ _ alice (wid 2) [3; 4] wit_ctx wit_store 0 wit_store_inv) as H.
  destruct (Exec.execute_split_coin alice (wid 2) [3; 4] wit_ctx (wit_store, 0)) as [st [o| |]];
    [|discriminate Hok..].
  apply H.
  - repeat constructor; unfold u64_max; lia.
  - vm_compute. discriminate.
  - apply (bool_decide_unpack _). vm_compute. exact I.
Defined.

(** The account-based transfer goes through whenever it can: if the
    sender's owned coins of the type are at most 51, total at most a [u64] and
    cover a positive amount, the transfer succeeds, merging coins when no single
    one suffices, and exactly the amount moves from sender to recipient. *)
Theorem simple_transfer_complete {St : Type} (ST : StateStore St) (L : StateStoreLaws St)
    (B : Blake3) (C : Bcs) (X : HexCrate) (J : SerdeJson) (from to : string) (amt : Z)
    (ctx : ExecutionContext) (ty : option string) (s : St) (n : Z) (a b : Address)
    (Hinv : ss_inv s) (Hcounter : n < u32_max)
    (Hfresh : fresh_outputs (ss_coins s) (tx_hash ctx) n 1) (Htee : in_tee ctx = false)
    (Hfrom : address_from_hex from = Ok a) (Hto : address_from_hex to = Ok b)
    (Hok : simple_ok a (default "ROOT"%string ty) amt s) :
  ∃ s' n' o, Exec.execute_simple_transfer from to amt ctx ty (s, n) = ((s', n'), Ok o) ∧
    ss_inv s' ∧
    (∀ P, tally (ss_coins s') P =
          tally (ss_coins s) P + moved a b (mkCoinType (default "ROOT"%string ty)) amt P) ∧
    replay (coin_view s) (out_changes o) = Some (coin_view s').
Proof.
  pose proof (simple_transfer_wp from to amt ctx ty s n a b Hinv Hcounter Hfresh Htee Hfrom Hto Hok)
    as Hwp. unfold wp in Hwp.
  destruct (Exec.execute_simple_transfer from to amt ctx ty (s, n)) as [[s' n'] r].
  destruct Hwp as (o & E & Hop). simpl in *. subst r. exists s', n', o.
  split_and!; [done|apply Hop..].
Qed.

Lemma simple_transfer_complete_witness :
  ∃ s' n' o, Exec.execute_simple_transfer (show_id alice) (show_id bob) 12 wit_ctx None
               (wit_store, 0) = ((s', n'), Ok o) ∧
    replay (coin_view wit_store) (out_changes o) = Some (coin_view s').
Proof.
  destruct (simple_transfer_complete _ InMemoryStateStore_laws _ _ _ _ (show_id alice) (show_id bob) 12 wit_ctx None
    wit_store 0 alice bob wit_store_inv) as (s' & n' & o & He & _ & _ & Hr).
  - reflexivity.
  - apply (bool_decide_unpack _). vm_compute. exact I.
  - reflexivity.
  - apply address_from_hex_show.
  - apply address_from_hex_show.
  - split.
    + vm_compute. split; [reflexivity|discriminate].
    + vm_compute. discriminate.
    + vm_compute. lia.
    + assert (Hall : map_Forall (fun _ c => Obj.is_owned c = true)
                       (wallet (ss_coins wit_store) alice "ROOT")).
      { apply (bool_decide_unpack _). vm_compute. exact I. }
      exact Hall.
  - exists s', n', o. split; [exact He|exact Hr].
Defined.

(** ** What an error leaves behind *)

Definition result_kind {A} (r : result RuntimeError A) : string :=
  match r with
  | Ok _ => "ok"
  | Err _ => "err"
  | Panic => "panic"
  end.

(** A merge whose second source does not exist returns an error after the
    first source has been deleted and before the target is written: Alice's five
    tokens are gone from the store.  The executor offers no rollback, and the
    caller's loop over the events of a task keeps using the same store. *)
Theorem merge_error_drops_coins :
  (fun '(st, r) => (result_kind r, tally (ss_coins st.1) (supply_of (mkCoinType "ROOT"))))
    (Exec.execute_merge_coins alice (wid 2) [wid 1; wid 77] wit_ctx (wit_store, 0)) = ("err"%string, 10) ∧
  tally (ss_coins wit_store) (supply_of (mkCoinType "ROOT")) = 15.
Proof. split; vm_compute; reflexivity. Qed.

(** An account transfer of nothing from an account without coins panics: the
    balance check passes (0 is not below 0), no coin is found, and [coins[0]]
    is out of bounds.  With a coin the same request is refused with an error. *)
Theorem simple_transfer_zero_panics :
  result_kind (Exec.execute_simple_transfer (show_id (wid 50)) (show_id bob) 0 wit_ctx None
                 (wit_store, 0)).2 = "panic"%string ∧
  result_kind (Exec.execute_simple_transfer (show_id alice) (show_id bob) 0 wit_ctx None
                 (wit_store, 0)).2 = "err"%string.
Proof. split; vm_compute; reflexivity. Qed.
