(* ===== verification/SparseMerkle.v ===== *)
(** * Sparse Merkle trees

    [crates/setu-merkle/src/sparse.rs].  [Proof] are the inclusion and
    non-inclusion proofs, [Smt] the tree that is rebuilt from its leaves at
    every change, [Ismt] the incremental tree that the state manager uses:
    nodes are stored by hash and an update touches one path only.

    A depth runs from 0 to 256; the recursions that descend carry
    [fuel = 256 - depth], so that [fuel = 0] is the test [depth >= 256].
    [Panic] is the failed assertion of [HashValue::bit] beyond bit 255. *)

From Stdlib Require Import ZArith Lia Strings.Byte.
From stdpp Require Import base gmap sets list sorting strings numbers.
From S2P Require Import Prelude Hash.
#[local] Open Scope setu_scope.

(** ** Nodes and proofs *)

Inductive SparseMerkleNode :=
| SEmpty
| SLeaf (key value_hash : HashValue)
| SInternal (left right : HashValue).

Record SparseMerkleLeafNode := mkLeafNode { ln_key : HashValue; ln_value_hash : HashValue }.

Record SparseMerkleProof := mkSmtProof {
  siblings : list HashValue;
  proof_leaf : option SparseMerkleLeafNode
}.

#[global] Instance SparseMerkleNode_eq_dec : EqDecision SparseMerkleNode.
Proof. solve_decision. Defined.

Section Nodes.
Context `{Blake3}.

Definition empty_preimage : bytes := as_bytes "SPARSE_EMPTY".
Definition empty_hash : HashValue := blake3 empty_preimage.

Definition smn_hash (n : SparseMerkleNode) : HashValue :=
  match n with
  | SEmpty => empty_hash
  | SLeaf key value_hash => hash_sparse_leaf key value_hash
  | SInternal l r => hash_sparse_internal l r
  end.

Definition ln_hash (l : SparseMerkleLeafNode) : HashValue :=
  hash_sparse_leaf (ln_key l) (ln_value_hash l).
End Nodes.

Module Proof.
Section Proof.
Context `{Blake3}.

Definition depth (p : SparseMerkleProof) : nat := length (siblings p).
Definition is_inclusion (p : SparseMerkleProof) : bool := bool_decide (is_Some (proof_leaf p)).

(** One step of [compute_root_from_leaf]: the sibling at depth [i]. *)
Definition root_step (key : HashValue) (i : nat) (sibling current : HashValue)
    : result MerkleError HashValue :=
  match HV.bit_opt key i with
  | Some true => Ok (hash_sparse_internal sibling current)
  | Some false => Ok (hash_sparse_internal current sibling)
  | None => Panic
  end.

(** The loop of [compute_root_from_leaf], from the last sibling to the first:
    [i] is the depth of the first sibling of the list. *)
Fixpoint root_loop (key : HashValue) (i : nat) (sibs : list HashValue) (leaf_hash : HashValue)
    : result MerkleError HashValue :=
  match sibs with
  | [] => Ok leaf_hash
  | sibling :: rest =>
      let? current := root_loop key (S i) rest leaf_hash in
      root_step key i sibling current
  end.

Definition compute_root_from_leaf (p : SparseMerkleProof) (key leaf_hash : HashValue)
    : result MerkleError HashValue :=
  root_loop key 0 (siblings p) leaf_hash.

Definition verify_inclusion (p : SparseMerkleProof) (root key : HashValue) (value : bytes)
    : result MerkleError unit :=
  let value_hash := hash_value value in
  let? leaf := ok_or (InvalidProof "Inclusion proof must have a leaf") (proof_leaf p) in
  if bool_decide (ln_key leaf ≠ key) then Err (InvalidProof "Leaf key mismatch")
  else if bool_decide (ln_value_hash leaf ≠ value_hash) then
    Err (InvalidProof "Value hash mismatch")
  else
    let? computed_root := compute_root_from_leaf p key (ln_hash leaf) in
    if bool_decide (computed_root = root) then Ok tt else Err (InvalidProof "Root mismatch").

Definition verify_non_inclusion (p : SparseMerkleProof) (root key : HashValue)
    : result MerkleError unit :=
  let? computed_root :=
    match proof_leaf p with
    | None => compute_root_from_leaf p key empty_hash
    | Some leaf =>
        if bool_decide (ln_key leaf = key) then
          Err (InvalidProof "Key exists in tree, cannot prove non-inclusion")
        else if (HV.common_prefix_bits key (ln_key leaf) <? length (siblings p))%nat then
          Err (InvalidProof "Proof path doesn't match key")
        else compute_root_from_leaf p (ln_key leaf) (ln_hash leaf)
    end in
  if bool_decide (computed_root = root) then Ok tt else Err (InvalidProof "Root mismatch").
End Proof.
End Proof.

(** ** The rebuilt tree *)

Record SparseMerkleTree := mkSmt {
  smt_root_hash : HashValue;
  smt_leaves : gmap HashValue bytes;
  smt_nodes : gmap HashValue SparseMerkleNode
}.

Record SparseMerkleTreeSnapshot := mkSmtSnapshot {
  snap_root_hash : HashValue;
  snap_leaves : gmap HashValue bytes
}.

Module Smt.
Section Smt.
Context `{Blake3}.

(** [leaves.iter().partition(|(k, _)| !k.bit(depth))]. *)
Definition partition_left (depth : nat) (leaves : list (HashValue * HashValue)) :=
  filter (fun kv => HV.bit kv.1 depth = false) leaves.
Definition partition_right (depth : nat) (leaves : list (HashValue * HashValue)) :=
  filter (fun kv => HV.bit kv.1 depth = true) leaves.

(** [build_subtree]: the hash of the subtree, and the node cache. *)
Fixpoint build_subtree (fuel : nat) (nodes : gmap HashValue SparseMerkleNode)
    (leaves : list (HashValue * HashValue)) (depth : nat)
    : gmap HashValue SparseMerkleNode * HashValue :=
  match leaves with
  | [] => (nodes, empty_hash)
  | [leaf] => (nodes, leaf.2)
  | leaf0 :: _ =>
      match fuel with
      | O => (nodes, leaf0.2)
      | S fuel' =>
          let left_leaves := partition_left depth leaves in
          let right_leaves := partition_right depth leaves in
          let '(nodes1, left_hash) := build_subtree fuel' nodes left_leaves (S depth) in
          let '(nodes2, right_hash) := build_subtree fuel' nodes1 right_leaves (S depth) in
          let internal := SInternal left_hash right_hash in
          let hash := smn_hash internal in
          (<[hash := internal]> nodes2, hash)
      end
  end.

(** [compute_subtree_hash]: the same recursion without the cache. *)
Fixpoint compute_subtree_hash (fuel : nat) (leaves : list (HashValue * HashValue)) (depth : nat)
    : HashValue :=
  match leaves with
  | [] => empty_hash
  | [leaf] => leaf.2
  | leaf0 :: _ =>
      match fuel with
      | O => leaf0.2
      | S fuel' =>
          hash_sparse_internal
            (compute_subtree_hash fuel' (partition_left depth leaves) (S depth))
            (compute_subtree_hash fuel' (partition_right depth leaves) (S depth))
      end
  end.

(** The pairs of key and leaf hash of a leaf map, in iteration order. *)
Definition leaf_hashes (leaves : gmap HashValue bytes) : list (HashValue * HashValue) :=
  (fun kv => (kv.1, smn_hash (SLeaf kv.1 (hash_value kv.2)))) <$> map_to_list leaves.

(** The order of [sort_by_key(|(k, _)| *k)]. *)
Definition key_le {A} (a b : HashValue * A) : Prop := HV.leb a.1 b.1 = true.

#[global] Instance key_le_dec {A} : RelDecision (@key_le A).
Proof. intros a b. unfold key_le. apply _. Defined.

Definition rebuild_tree (t : SparseMerkleTree) : SparseMerkleTree :=
  if bool_decide (smt_leaves t = ∅) then mkSmt empty_hash (smt_leaves t) ∅
  else
    let sorted := merge_sort key_le (leaf_hashes (smt_leaves t)) in
    let '(nodes, root) := build_subtree 256 ∅ sorted 0 in
    mkSmt root (smt_leaves t) nodes.

Definition new : SparseMerkleTree := mkSmt empty_hash ∅ ∅.
Definition root (t : SparseMerkleTree) : HashValue := smt_root_hash t.
Definition is_empty (t : SparseMerkleTree) : bool := bool_decide (smt_leaves t = ∅).
Definition len (t : SparseMerkleTree) : nat := size (smt_leaves t).
Definition get (t : SparseMerkleTree) (key : HashValue) : option bytes := smt_leaves t !! key.
Definition contains (t : SparseMerkleTree) (key : HashValue) : bool :=
  bool_decide (is_Some (smt_leaves t !! key)).

Definition insert (t : SparseMerkleTree) (key : HashValue) (value : bytes)
    : SparseMerkleTree * option bytes :=
  (rebuild_tree (mkSmt (smt_root_hash t) (<[key := value]> (smt_leaves t)) (smt_nodes t)),
   smt_leaves t !! key).

Definition remove (t : SparseMerkleTree) (key : HashValue) : SparseMerkleTree * option bytes :=
  let old_value := smt_leaves t !! key in
  let t' := mkSmt (smt_root_hash t) (delete key (smt_leaves t)) (smt_nodes t) in
  (if bool_decide (is_Some old_value) then rebuild_tree t' else t', old_value).

Definition batch_insert (t : SparseMerkleTree) (entries : list (HashValue * bytes))
    : SparseMerkleTree :=
  rebuild_tree (mkSmt (smt_root_hash t)
    (foldl (fun m kv => <[kv.1 := kv.2]> m) (smt_leaves t) entries) (smt_nodes t)).

(** [build_proof_path]: the siblings on the path to [target_key], top down. *)
Fixpoint build_proof_path (fuel : nat) (target_key : HashValue)
    (leaves : list (HashValue * HashValue)) (depth : nat) : list HashValue :=
  match leaves with
  | [] | [_] => []
  | _ =>
      match fuel with
      | O => []
      | S fuel' =>
          let left_leaves := partition_left depth leaves in
          let right_leaves := partition_right depth leaves in
          if HV.bit target_key depth then
            compute_subtree_hash fuel' left_leaves (S depth)
              :: build_proof_path fuel' target_key right_leaves (S depth)
          else
            compute_subtree_hash fuel' right_leaves (S depth)
              :: build_proof_path fuel' target_key left_leaves (S depth)
      end
  end.

(** [max_by_key(common_prefix_bits(key))]: the last of the maxima. *)
Fixpoint closest (key : HashValue) (best : option HashValue) (ks : list HashValue)
    : option HashValue :=
  match ks with
  | [] => best
  | k :: rest =>
      match best with
      | None => closest key (Some k) rest
      | Some b =>
          if (HV.common_prefix_bits k key <? HV.common_prefix_bits b key)%nat
          then closest key (Some b) rest
          else closest key (Some k) rest
      end
  end.

Definition get_proof (t : SparseMerkleTree) (key : HashValue) : SparseMerkleProof :=
  if bool_decide (smt_leaves t = ∅) then mkSmtProof [] None
  else
    let leaf_nodes := leaf_hashes (smt_leaves t) in
    let node_for k := (fun v => mkLeafNode k (hash_value v)) <$> smt_leaves t !! k in
    let target_leaf := node_for key in
    let pleaf :=
      match target_leaf with
      | Some l => Some l
      | None => closest key None (leaf_nodes.*1) ≫= node_for
      end in
    let path_key :=
      match target_leaf, pleaf with
      | Some _, _ => key
      | None, Some l => ln_key l
      | None, None => key
      end in
    mkSmtProof (build_proof_path 256 path_key leaf_nodes 0) pleaf.

Definition snapshot (t : SparseMerkleTree) : SparseMerkleTreeSnapshot :=
  mkSmtSnapshot (smt_root_hash t) (smt_leaves t).

Definition restore (s : SparseMerkleTreeSnapshot) : SparseMerkleTree :=
  rebuild_tree (mkSmt (snap_root_hash s) (snap_leaves s) ∅).
End Smt.
End Smt.

(** ** The incremental tree *)

Inductive TreeNode :=
| NEmpty
| NLeaf (key value_hash node_hash : HashValue)
| NInternal (left right node_hash : HashValue).

Abbreviation NodeMap := (gmap HashValue TreeNode).

Record IncrementalSparseMerkleTree := mkIsmt {
  root_hash : HashValue;
  leaves : gmap HashValue bytes;
  nodes : NodeMap;
  dirty_leaves : gset HashValue;
  deleted_leaves : gset HashValue
}.

Record LeafChanges := mkLeafChanges {
  upserts : list (HashValue * bytes);
  deletes : list HashValue
}.

Module Ismt.
Section Ismt.
Context `{Blake3}.

Definition node_hash (n : TreeNode) : HashValue :=
  match n with
  | NEmpty => empty_hash
  | NLeaf _ _ h => h
  | NInternal _ _ h => h
  end.

Definition new_leaf (key value_hash : HashValue) : TreeNode :=
  NLeaf key value_hash (hash_sparse_leaf key value_hash).
Definition new_internal (left right : HashValue) : TreeNode :=
  NInternal left right (hash_sparse_internal left right).

(** [let hash = n.hash(); self.nodes.insert(hash, n); hash]. *)
Definition put_node (ns : NodeMap) (n : TreeNode) : NodeMap * HashValue :=
  (<[node_hash n := n]> ns, node_hash n).

Definition put_internal (ns : NodeMap) (left right : HashValue) : NodeMap * HashValue :=
  put_node ns (new_internal left right).

Fixpoint split_leaf (fuel : nat) (ns : NodeMap) (existing_key existing_vh new_key : HashValue)
    (new_lf : TreeNode) (depth : nat) : NodeMap * HashValue :=
  match fuel with
  | O => (ns, node_hash new_lf)
  | S fuel' =>
      let existing_bit := HV.bit existing_key depth in
      let new_bit := HV.bit new_key depth in
      if Bool.eqb existing_bit new_bit then
        let '(ns1, subtree) :=
          split_leaf fuel' ns existing_key existing_vh new_key new_lf (S depth) in
        if existing_bit then put_internal ns1 empty_hash subtree
        else put_internal ns1 subtree empty_hash
      else
        let '(ns1, existing_hash) := put_node ns (new_leaf existing_key existing_vh) in
        let '(ns2, new_hash) := put_node ns1 new_lf in
        if new_bit then put_internal ns2 existing_hash new_hash
        else put_internal ns2 new_hash existing_hash
  end.

Fixpoint insert_at_node (fuel : nat) (ns : NodeMap) (current_hash key : HashValue)
    (new_lf : TreeNode) (depth : nat) : NodeMap * HashValue :=
  match fuel with
  | O => put_node ns new_lf
  | S fuel' =>
      let current_node :=
        if bool_decide (current_hash = empty_hash) then NEmpty
        else default NEmpty (ns !! current_hash) in
      match current_node with
      | NEmpty => put_node ns new_lf
      | NLeaf existing_key existing_vh _ =>
          if bool_decide (existing_key = key) then put_node ns new_lf
          else split_leaf fuel ns existing_key existing_vh key new_lf depth
      | NInternal lft rgt _ =>
          if HV.bit key depth then
            let '(ns1, new_right) := insert_at_node fuel' ns rgt key new_lf (S depth) in
            put_internal ns1 lft new_right
          else
            let '(ns1, new_left) := insert_at_node fuel' ns lft key new_lf (S depth) in
            put_internal ns1 new_left rgt
      end
  end.

(** Is the node stored under this hash a leaf? *)
Definition stored_leaf (ns : NodeMap) (h : HashValue) : bool :=
  match ns !! h with
  | Some (NLeaf _ _ _) => true
  | _ => false
  end.

(** The end of [remove_at_node]: collapse a node with one leaf below it. *)
Definition collapse (ns : NodeMap) (new_left new_right : HashValue) : NodeMap * HashValue :=
  let left_empty := bool_decide (new_left = empty_hash) in
  let right_empty := bool_decide (new_right = empty_hash) in
  if left_empty && right_empty then (ns, empty_hash)
  else if left_empty then
    if stored_leaf ns new_right then (ns, new_right) else put_internal ns new_left new_right
  else if right_empty then
    if stored_leaf ns new_left then (ns, new_left) else put_internal ns new_left new_right
  else put_internal ns new_left new_right.

(** [remove_at_node] has no depth test: an internal node at depth 256 fails
    the assertion of [bit]. *)
Fixpoint remove_at_node (fuel : nat) (ns : NodeMap) (current_hash key : HashValue) (depth : nat)
    : result MerkleError (NodeMap * HashValue) :=
  if bool_decide (current_hash = empty_hash) then Ok (ns, empty_hash)
  else
    match ns !! current_hash with
    | None => Ok (ns, empty_hash)
    | Some NEmpty => Ok (ns, empty_hash)
    | Some (NLeaf leaf_key _ _) =>
        Ok (ns, if bool_decide (leaf_key = key) then empty_hash else current_hash)
    | Some (NInternal lft rgt _) =>
        match fuel with
        | O => Panic
        | S fuel' =>
            if HV.bit key depth then
              let? (ns1, new_right) := remove_at_node fuel' ns rgt key (S depth) in
              Ok (collapse ns1 lft new_right)
            else
              let? (ns1, new_left) := remove_at_node fuel' ns lft key (S depth) in
              Ok (collapse ns1 new_left rgt)
        end
    end.

Definition new : IncrementalSparseMerkleTree := mkIsmt empty_hash ∅ ∅ ∅ ∅.

(** [clone] resets the dirty tracking. *)
Definition clone (t : IncrementalSparseMerkleTree) : IncrementalSparseMerkleTree :=
  mkIsmt (root_hash t) (leaves t) (nodes t) ∅ ∅.

Definition root (t : IncrementalSparseMerkleTree) : HashValue := root_hash t.
Definition is_empty (t : IncrementalSparseMerkleTree) : bool := bool_decide (leaves t = ∅).
Definition len (t : IncrementalSparseMerkleTree) : nat := size (leaves t).
Definition leaf_count (t : IncrementalSparseMerkleTree) : nat := size (leaves t).
Definition node_count (t : IncrementalSparseMerkleTree) : nat := size (nodes t).
Definition get (t : IncrementalSparseMerkleTree) (key : HashValue) : option bytes := leaves t !! key.
Definition contains (t : IncrementalSparseMerkleTree) (key : HashValue) : bool :=
  bool_decide (is_Some (leaves t !! key)).

Definition insert_without_tracking (t : IncrementalSparseMerkleTree) (key : HashValue)
    (value : bytes) : IncrementalSparseMerkleTree * option bytes :=
  let lf := new_leaf key (hash_value value) in
  let '(ns, rh) := insert_at_node 256 (nodes t) (root_hash t) key lf 0 in
  (mkIsmt rh (<[key := value]> (leaves t)) ns (dirty_leaves t) (deleted_leaves t),
   leaves t !! key).

Definition insert (t : IncrementalSparseMerkleTree) (key : HashValue) (value : bytes)
    : IncrementalSparseMerkleTree * option bytes :=
  let lf := new_leaf key (hash_value value) in
  let '(ns, rh) := insert_at_node 256 (nodes t) (root_hash t) key lf 0 in
  (mkIsmt rh (<[key := value]> (leaves t)) ns
     ({[key]} ∪ dirty_leaves t) (deleted_leaves t ∖ {[key]}),
   leaves t !! key).

Definition remove (t : IncrementalSparseMerkleTree) (key : HashValue)
    : result MerkleError (IncrementalSparseMerkleTree * option bytes) :=
  match leaves t !! key with
  | None => Ok (t, None)
  | Some old =>
      let? (ns, rh) := remove_at_node 256 (nodes t) (root_hash t) key 0 in
      Ok (mkIsmt rh (delete key (leaves t)) ns
            (dirty_leaves t ∖ {[key]}) ({[key]} ∪ deleted_leaves t),
          Some old)
  end.

Definition batch_insert (t : IncrementalSparseMerkleTree) (entries : list (HashValue * bytes))
    : IncrementalSparseMerkleTree :=
  foldl (fun t kv => (insert t kv.1 kv.2).1) t entries.

Definition from_leaves (m : gmap HashValue bytes) : IncrementalSparseMerkleTree :=
  foldl (fun t kv => (insert_without_tracking t kv.1 kv.2).1) new
    (merge_sort Smt.key_le (map_to_list m)).

(** The loop of [get_proof]: [depth] runs over [0..256]. *)
Fixpoint proof_loop (fuel : nat) (ns : NodeMap) (current_hash key : HashValue) (depth : nat)
    (sibs : list HashValue) : SparseMerkleProof :=
  match fuel with
  | O => mkSmtProof sibs None
  | S fuel' =>
      if bool_decide (current_hash = empty_hash) then mkSmtProof sibs None
      else
        match ns !! current_hash with
        | None | Some NEmpty => mkSmtProof sibs None
        | Some (NLeaf leaf_key value_hash _) =>
            mkSmtProof sibs (Some (mkLeafNode leaf_key value_hash))
        | Some (NInternal lft rgt _) =>
            if HV.bit key depth
            then proof_loop fuel' ns rgt key (S depth) (sibs ++ [lft])
            else proof_loop fuel' ns lft key (S depth) (sibs ++ [rgt])
        end
  end.

Definition get_proof (t : IncrementalSparseMerkleTree) (key : HashValue) : SparseMerkleProof :=
  proof_loop 256 (nodes t) (root_hash t) key 0 [].

(** [mark_reachable]; [None] when the fuel runs out. *)
Fixpoint mark_reachable (fuel : nat) (ns : NodeMap) (h : HashValue) (reachable : gset HashValue)
    : option (gset HashValue) :=
  if bool_decide (h = empty_hash) || bool_decide (h ∈ reachable) then Some reachable
  else
    let reachable1 := {[h]} ∪ reachable in
    match ns !! h with
    | Some (NInternal lft rgt _) =>
        match fuel with
        | O => None
        | S fuel' =>
            r ← mark_reachable fuel' ns lft reachable1;
            mark_reachable fuel' ns rgt r
        end
    | _ => Some reachable1
    end.

Definition gc (t : IncrementalSparseMerkleTree) : option IncrementalSparseMerkleTree :=
  reachable ← mark_reachable (size (nodes t)) (nodes t) (root_hash t) ∅;
  Some (mkIsmt (root_hash t) (leaves t)
          (filter (fun hn => hn.1 ∈ reachable) (nodes t))
          (dirty_leaves t) (deleted_leaves t)).

Definition iter_leaves (t : IncrementalSparseMerkleTree) : list (HashValue * bytes) :=
  map_to_list (leaves t).
Definition all_leaves (t : IncrementalSparseMerkleTree) : list (HashValue * bytes) :=
  map_to_list (leaves t).

Definition take_changes (t : IncrementalSparseMerkleTree)
    : IncrementalSparseMerkleTree * LeafChanges :=
  (mkIsmt (root_hash t) (leaves t) (nodes t) ∅ ∅,
   mkLeafChanges
     (omap (fun k => (fun v => (k, v)) <$> leaves t !! k) (elements (dirty_leaves t)))
     (elements (deleted_leaves t))).

Definition has_pending_changes (t : IncrementalSparseMerkleTree) : bool :=
  negb (bool_decide (dirty_leaves t = ∅)) || negb (bool_decide (deleted_leaves t = ∅)).
Definition pending_upsert_count (t : IncrementalSparseMerkleTree) : nat := size (dirty_leaves t).
Definition pending_delete_count (t : IncrementalSparseMerkleTree) : nat := size (deleted_leaves t).
End Ismt.
End Ismt.
