(* ===== verification/SmtTrie.v ===== *)
(** * The canonical trie of a leaf map

    The specification of the sparse Merkle trees of [SparseMerkle]: the trie
    that a set of leaves determines, with its hash.  A subtree without leaves
    is [TEmpty], one with a single leaf is that leaf, any other branches on the
    bit of its depth.  [tinsert] and [tremove] are the pure counterparts of the
    incremental updates; on well-formed tries they give the canonical trie of
    the updated leaves, because a well-formed trie is determined by its leaves
    ([twf_unique]). *)

From Stdlib Require Import ZArith Lia Strings.Byte.
From stdpp Require Import base gmap sets list sorting strings numbers.
From S2P Require Import Prelude Hash SparseMerkle.

Abbreviation kvh := (HashValue * HashValue)%type.

Inductive trie :=
| TEmpty
| TLeaf (k vh : HashValue)
| TNode (l r : trie).

Fixpoint tleaves (t : trie) : list kvh :=
  match t with
  | TEmpty => []
  | TLeaf k vh => [(k, vh)]
  | TNode l r => tleaves l ++ tleaves r
  end.

Section Hash.
Context `{Blake3}.

Fixpoint thash (t : trie) : HashValue :=
  match t with
  | TEmpty => empty_hash
  | TLeaf k vh => hash_sparse_leaf k vh
  | TNode l r => hash_sparse_internal (thash l) (thash r)
  end.

(** The strings hashed for the nodes of a trie. *)
Fixpoint tpre (t : trie) : list bytes :=
  match t with
  | TEmpty => []
  | TLeaf k vh => [sparse_leaf_preimage k vh]
  | TNode l r => sparse_internal_preimage (thash l) (thash r) :: tpre l ++ tpre r
  end.
End Hash.

(** [t] is a well-formed subtree at depth [d]. *)
Fixpoint twf (d : nat) (t : trie) : Prop :=
  match t with
  | TEmpty | TLeaf _ _ => True
  | TNode l r =>
      d < 256 ∧ twf (S d) l ∧ twf (S d) r ∧
      (∀ kv, kv ∈ tleaves l → HV.bit kv.1 d = false) ∧
      (∀ kv, kv ∈ tleaves r → HV.bit kv.1 d = true) ∧
      2 ≤ length (tleaves l) + length (tleaves r)
  end.

(** The keys agree on their first [d] bits. *)
Definition agree (d : nat) (k1 k2 : HashValue) : Prop := ∀ i, i < d → HV.bit k1 i = HV.bit k2 i.

(** ** Building the trie of a list of leaves *)

Fixpoint trie_of (fuel d : nat) (l : list kvh) : trie :=
  match l with
  | [] => TEmpty
  | [kv] => TLeaf kv.1 kv.2
  | kv :: _ =>
      match fuel with
      | O => TLeaf kv.1 kv.2
      | S fuel' =>
          TNode (trie_of fuel' (S d) (Smt.partition_left d l))
                (trie_of fuel' (S d) (Smt.partition_right d l))
      end
  end.

(** ** Updates *)

(** Two different keys that meet at depth [d]. *)
Fixpoint tsplit (fuel d : nat) (k1 v1 k2 v2 : HashValue) : trie :=
  match fuel with
  | O => TLeaf k2 v2
  | S fuel' =>
      if Bool.eqb (HV.bit k1 d) (HV.bit k2 d) then
        let sub := tsplit fuel' (S d) k1 v1 k2 v2 in
        if HV.bit k1 d then TNode TEmpty sub else TNode sub TEmpty
      else if HV.bit k2 d then TNode (TLeaf k1 v1) (TLeaf k2 v2)
      else TNode (TLeaf k2 v2) (TLeaf k1 v1)
  end.

Fixpoint tinsert (d : nat) (t : trie) (k vh : HashValue) : trie :=
  match t with
  | TEmpty => TLeaf k vh
  | TLeaf k' vh' =>
      if bool_decide (k' = k) then TLeaf k vh else tsplit (256 - d) d k' vh' k vh
  | TNode l r =>
      if HV.bit k d then TNode l (tinsert (S d) r k vh) else TNode (tinsert (S d) l k vh) r
  end.

Definition tcollapse (l r : trie) : trie :=
  match l, r with
  | TEmpty, TEmpty => TEmpty
  | TEmpty, TLeaf _ _ => r
  | TLeaf _ _, TEmpty => l
  | _, _ => TNode l r
  end.

Fixpoint tremove (d : nat) (t : trie) (k : HashValue) : trie :=
  match t with
  | TEmpty => TEmpty
  | TLeaf k' _ => if bool_decide (k' = k) then TEmpty else t
  | TNode l r =>
      if HV.bit k d then tcollapse l (tremove (S d) r k) else tcollapse (tremove (S d) l k) r
  end.

(** ** Lemmas: agreement of keys *)

Lemma agree_refl d k : agree d k k.
Proof. by intros i. Qed.

Lemma agree_S d k1 k2 : agree d k1 k2 → HV.bit k1 d = HV.bit k2 d → agree (S d) k1 k2.
Proof. intros Ha Hb i Hi. destruct (decide (i = d)) as [->|]; [done|]. apply Ha. lia. Qed.

Lemma agree_256 k1 k2 : agree 256 k1 k2 → k1 = k2.
Proof. apply bit_ext. Qed.

(** The leaves of the list agree with [k] on the first [d] bits. *)
Definition agree_all (d : nat) (k : HashValue) (l : list kvh) : Prop :=
  ∀ kv, kv ∈ l → agree d kv.1 k.

Lemma agree_all_0 k l : agree_all 0 k l.
Proof. intros kv _ i Hi. lia. Qed.

Lemma agree_all_S d k l l' :
  agree_all d k l → l' ⊆ l → (∀ kv, kv ∈ l' → HV.bit kv.1 d = HV.bit k d) → agree_all (S d) k l'.
Proof. intros Ha Hs Hb kv Hkv. apply agree_S; [apply Ha; set_solver|by apply Hb]. Qed.

(** ** Lemmas: a well-formed trie is determined by its leaves *)

Lemma twf_NoDup d t : twf d t → NoDup (tleaves t).*1.
Proof.
  revert d; induction t as [|k vh|l IHl r IHr]; intros d Hwf; simpl.
  - constructor.
  - repeat constructor. set_solver.
  - destruct Hwf as (_ & Hl & Hr & Hbl & Hbr & _). rewrite fmap_app, list.NoDup_app.
    split_and!; [by eapply IHl| |by eapply IHr].
    intros k (kv & -> & Hkv)%list_elem_of_fmap (kv' & Heq & Hkv')%list_elem_of_fmap.
    pose proof (Hbl _ Hkv) as H1. pose proof (Hbr _ Hkv') as H2. rewrite <-Heq in H2. congruence.
Qed.

Lemma partition_perm d (l : list kvh) :
  Smt.partition_left d l ++ Smt.partition_right d l ≡ₚ l.
Proof.
  unfold Smt.partition_left, Smt.partition_right.
  induction l as [|kv l IH]; [done|]. rewrite !filter_cons.
  destruct (HV.bit kv.1 d) eqn:E; repeat case_decide; try congruence.
  - rewrite <-Permutation_middle. by rewrite IH.
  - simpl. by rewrite IH.
Qed.

Lemma list_filter_none {A} (P : A → Prop) `{!∀ x, Decision (P x)} (l : list A) :
  (∀ x, x ∈ l → ¬ P x) → filter P l = [].
Proof.
  induction l as [|x l IH]; intros Hl; [done|].
  rewrite filter_cons_False by (apply Hl; set_solver). apply IH. set_solver.
Qed.

Lemma partition_TNode d l r :
  twf d (TNode l r) →
  Smt.partition_left d (tleaves l ++ tleaves r) = tleaves l ∧
  Smt.partition_right d (tleaves l ++ tleaves r) = tleaves r.
Proof.
  intros (_ & _ & _ & Hbl & Hbr & _). unfold Smt.partition_left, Smt.partition_right.
  rewrite !list.filter_app. split.
  - rewrite (list_filter_id _ (tleaves l)), (list_filter_none _ (tleaves r)), app_nil_r; [done|..].
    + intros kv Hkv. rewrite Hbr by done. done.
    + intros kv Hkv. by apply Hbl.
  - rewrite (list_filter_none _ (tleaves l)), (list_filter_id _ (tleaves r)); [done|..].
    + intros kv Hkv. by apply Hbr.
    + intros kv Hkv. rewrite Hbl by done. done.
Qed.

Lemma tleaves_nil d t : twf d t → tleaves t = [] → t = TEmpty.
Proof.
  destruct t as [|k vh|l r]; [done..|]. intros (_ & _ & _ & _ & _ & Hlen). cbn [tleaves].
  intros E%(f_equal length). rewrite length_app in E. simpl in E. lia.
Qed.

Theorem twf_unique d t1 t2 :
  twf d t1 → twf d t2 → tleaves t1 ≡ₚ tleaves t2 → t1 = t2.
Proof.
  revert d t2; induction t1 as [|k1 v1|l1 IHl r1 IHr]; intros d t2 H1 H2 Hp.
  - simpl in Hp. symmetry in Hp. apply Permutation_nil_r in Hp. by rewrite (tleaves_nil d t2).
  - destruct t2 as [|k2 v2|l2 r2]; simpl in Hp.
    + by apply Permutation_length in Hp.
    + apply Permutation_singleton_r in Hp. by simplify_eq.
    + apply Permutation_length in Hp. rewrite length_app in Hp. simpl in Hp, H2. lia.
  - destruct t2 as [|k2 v2|l2 r2]; cbn [tleaves] in Hp.
    + apply Permutation_length in Hp. rewrite length_app in Hp. simpl in Hp, H1. lia.
    + apply Permutation_length in Hp. rewrite length_app in Hp. simpl in Hp, H1. lia.
    + pose proof (partition_TNode d l1 r1 H1) as [Hl1 Hr1].
      pose proof (partition_TNode d l2 r2 H2) as [Hl2 Hr2].
      destruct H1 as (_ & ? & ? & _), H2 as (_ & ? & ? & _). f_equal.
      * eapply IHl; [done..|]. rewrite <-Hl1, <-Hl2. unfold Smt.partition_left. by rewrite Hp.
      * eapply IHr; [done..|]. rewrite <-Hr1, <-Hr2. unfold Smt.partition_right. by rewrite Hp.
Qed.

(** ** Lemmas: building *)

Lemma partition_left_sub d l : Smt.partition_left d l ⊆ l.
Proof. intros kv. unfold Smt.partition_left. rewrite list_elem_of_filter. tauto. Qed.
Lemma partition_right_sub d l : Smt.partition_right d l ⊆ l.
Proof. intros kv. unfold Smt.partition_right. rewrite list_elem_of_filter. tauto. Qed.
Lemma partition_left_bit d l kv : kv ∈ Smt.partition_left d l → HV.bit kv.1 d = false.
Proof. unfold Smt.partition_left. rewrite list_elem_of_filter. tauto. Qed.
Lemma partition_right_bit d l kv : kv ∈ Smt.partition_right d l → HV.bit kv.1 d = true.
Proof. unfold Smt.partition_right. rewrite list_elem_of_filter. tauto. Qed.

Lemma NoDup_fst_perm (l l' : list kvh) : l ≡ₚ l' → NoDup l.*1 → NoDup l'.*1.
Proof. intros Hp. by rewrite Hp. Qed.

Lemma NoDup_fst_partition d (l : list kvh) :
  NoDup l.*1 → NoDup (Smt.partition_left d l).*1 ∧ NoDup (Smt.partition_right d l).*1.
Proof.
  rewrite <-(partition_perm d l) at 1. rewrite fmap_app, list.NoDup_app. tauto.
Qed.

(** At depth 256 at most one key is left. *)
Lemma agree_all_256 k (l : list kvh) kv1 kv2 l' :
  l = kv1 :: kv2 :: l' → NoDup l.*1 → ¬ agree_all 256 k l.
Proof.
  intros -> Hnd Ha. rewrite !fmap_cons, list.NoDup_cons in Hnd. destruct Hnd as [Hin _].
  apply Hin. rewrite (agree_256 _ _ (Ha kv1 ltac:(set_solver))),
    (agree_256 _ _ (Ha kv2 ltac:(set_solver))). set_solver.
Qed.

Lemma trie_of_spec fuel d k l :
  d + fuel = 256 → NoDup l.*1 → agree_all d k l →
  twf d (trie_of fuel d l) ∧ tleaves (trie_of fuel d l) ≡ₚ l.
Proof.
  revert d k l; induction fuel as [|fuel IH]; intros d k l Hd Hnd Ha.
  { replace d with 256 in * by lia. destruct l as [|kv1 [|kv2 l]]; simpl; [done|by destruct kv1|].
    exfalso. by eapply agree_all_256. }
  destruct l as [|kv1 [|kv2 l]]; [done|by destruct kv1|].
  cbn [trie_of]. set (L := kv1 :: kv2 :: l) in *.
  pose proof (NoDup_fst_partition d L Hnd) as [Hndl Hndr].
  assert (Hext : ∀ b l', l' ⊆ L → (∀ kv, kv ∈ l' → HV.bit kv.1 d = b) → ∃ k', agree_all (S d) k' l').
  { intros b [|kv l'] Hs Hb; [exists k; intros ? ?; set_solver|]. exists kv.1.
    intros kv' Hkv'. apply agree_S; [|by rewrite !Hb by set_solver].
    intros i Hi. rewrite (Ha kv') by set_solver. rewrite (Ha kv); set_solver. }
  destruct (Hext false _ (partition_left_sub d L) (partition_left_bit d L)) as [kl Hal].
  destruct (Hext true _ (partition_right_sub d L) (partition_right_bit d L)) as [kr Har].
  destruct (IH (S d) kl _ ltac:(lia) Hndl Hal) as [Hwl Hpl].
  destruct (IH (S d) kr _ ltac:(lia) Hndr Har) as [Hwr Hpr].
  split.
  - cbn [twf]. split_and!; [lia|done|done|..].
    + intros kv Hkv. rewrite Hpl in Hkv. by eapply partition_left_bit.
    + intros kv Hkv. rewrite Hpr in Hkv. by eapply partition_right_bit.
    + rewrite Hpl, Hpr, <-length_app, partition_perm. unfold L. simpl. lia.
  - cbn [tleaves]. by rewrite Hpl, Hpr, partition_perm.
Qed.

Lemma trie_of_perm l l' :
  NoDup l.*1 → l ≡ₚ l' → trie_of 256 0 l = trie_of 256 0 l'.
Proof.
  intros Hnd Hp. pose proof (NoDup_fst_perm l l' Hp Hnd) as Hnd'.
  destruct (trie_of_spec 256 0 zero_hash l) as [? Hl]; [done..|apply agree_all_0|].
  destruct (trie_of_spec 256 0 zero_hash l') as [? Hl']; [done..|apply agree_all_0|].
  eapply twf_unique; [done..|]. by rewrite Hl, Hl'.
Qed.

(** ** Lemmas: insertion *)

Lemma tsplit_spec fuel d k1 v1 k2 v2 :
  d + fuel = 256 → k1 ≠ k2 → agree d k1 k2 →
  twf d (tsplit fuel d k1 v1 k2 v2) ∧ tleaves (tsplit fuel d k1 v1 k2 v2) ≡ₚ [(k1, v1); (k2, v2)].
Proof.
  revert d; induction fuel as [|fuel IH]; intros d Hd Hne Ha.
  { replace d with 256 in * by lia. by apply agree_256 in Ha. }
  cbn [tsplit]. destruct (Bool.eqb_spec (HV.bit k1 d) (HV.bit k2 d)) as [Heq|Hb].
  - destruct (IH (S d) ltac:(lia) Hne (agree_S _ _ _ Ha Heq)) as [Hw Hp].
    assert (∀ kv, kv ∈ tleaves (tsplit fuel (S d) k1 v1 k2 v2) → HV.bit kv.1 d = HV.bit k1 d).
    { intros kv Hkv. rewrite Hp in Hkv.
      apply list_elem_of_In in Hkv as [<-|[<-|[]]]; simpl; congruence. }
    pose proof (Permutation_length Hp) as Hlen. simpl in Hlen.
    destruct (HV.bit k1 d) eqn:E; simpl; rewrite ?app_nil_r, ?Hlen;
      (split; [split_and!; try done; try lia; set_solver|done]).
  - destruct (HV.bit k1 d) eqn:E1, (HV.bit k2 d) eqn:E2; try done; simpl;
      (split; [split_and!; try done; try lia; intros kv ->%list_elem_of_singleton; done|]); [|done].
    apply Permutation_swap.
Qed.

(** The leaves without key [k]. *)
Definition without (k : HashValue) (l : list kvh) : list kvh := filter (fun kv => kv.1 ≠ k) l.

Lemma without_id k l : (∀ kv, kv ∈ l → kv.1 ≠ k) → without k l = l.
Proof. apply list_filter_id. Qed.

Lemma without_app k l l' : without k (l ++ l') = without k l ++ without k l'.
Proof. apply list.filter_app. Qed.

Lemma bit_ne_key d (l : list kvh) b k :
  (∀ kv, kv ∈ l → HV.bit kv.1 d = b) → HV.bit k d ≠ b → ∀ kv, kv ∈ l → kv.1 ≠ k.
Proof. intros Hb Hk kv Hkv <-. by apply Hk, Hb. Qed.

Lemma length_without k (l : list kvh) :
  NoDup l.*1 → length l ≤ S (length (without k l)).
Proof.
  unfold without. induction l as [|kv l IH]; intros Hnd; simpl; [lia|].
  rewrite filter_cons. rewrite fmap_cons, list.NoDup_cons in Hnd. destruct Hnd as [Hni Hnd].
  case_decide as E; simpl; [specialize (IH Hnd); lia|].
  rewrite list_filter_id; [lia|]. intros kv' Hkv' Heq. apply Hni.
  rewrite E, <-Heq. by apply list_elem_of_fmap_2.
Qed.

Lemma without_bit d b k vh (l : list kvh) kv :
  (∀ kv, kv ∈ l → HV.bit kv.1 d = b) → HV.bit k d = b →
  kv ∈ (k, vh) :: without k l → HV.bit kv.1 d = b.
Proof.
  intros Hl Hk. unfold without. rewrite elem_of_cons, list_elem_of_filter.
  intros [->|[_ ?]]; [done|by apply Hl].
Qed.

Lemma tinsert_spec d t k vh :
  d ≤ 256 → twf d t → agree_all d k (tleaves t) →
  twf d (tinsert d t k vh) ∧ tleaves (tinsert d t k vh) ≡ₚ (k, vh) :: without k (tleaves t).
Proof.
  revert d; induction t as [|k' vh'|l IHl r IHr]; intros d Hd Hwf Ha; [done|..].
  - cbn [tinsert tleaves]. case_bool_decide as Hk; [subst k'|].
    + unfold without. by rewrite filter_cons_False by (by intros []).
    + rewrite without_id by (intros kv ->%list_elem_of_singleton; done).
      destruct (tsplit_spec (256 - d) d k' vh' k vh) as [Hw Hp];
        [lia|done|by apply (Ha (k', vh')); set_solver|].
      split; [done|]. rewrite Hp. apply perm_swap.
  - destruct Hwf as (Hlt & Hl & Hr & Hbl & Hbr & Hlen). cbn [tinsert tleaves].
    rewrite without_app. cbn [tleaves] in Ha. destruct (HV.bit k d) eqn:Hbit.
    + destruct (IHr (S d) ltac:(lia) Hr) as [Hw Hp].
      { eapply agree_all_S; [exact Ha|set_solver|]. intros kv Hkv. by rewrite Hbr. }
      rewrite (without_id k (tleaves l)) by (eapply bit_ne_key; [exact Hbl|congruence]).
      cbn [twf tleaves]. rewrite Hp, Permutation_middle. split_and!; try done.
      * intros kv. rewrite Hp. by apply without_bit.
      * pose proof (length_without k _ (twf_NoDup _ _ Hr)). simpl. lia.
    + destruct (IHl (S d) ltac:(lia) Hl) as [Hw Hp].
      { eapply agree_all_S; [exact Ha|set_solver|]. intros kv Hkv. by rewrite Hbl. }
      rewrite (without_id k (tleaves r)) by (eapply bit_ne_key; [exact Hbr|congruence]).
      cbn [twf tleaves]. rewrite Hp. split_and!; try done.
      * intros kv. rewrite Hp. by apply without_bit.
      * pose proof (length_without k _ (twf_NoDup _ _ Hl)). simpl. lia.
Qed.

(** ** Lemmas: removal *)

Lemma tcollapse_spec d l r :
  d < 256 → twf (S d) l → twf (S d) r →
  (∀ kv, kv ∈ tleaves l → HV.bit kv.1 d = false) →
  (∀ kv, kv ∈ tleaves r → HV.bit kv.1 d = true) →
  twf d (tcollapse l r) ∧ tleaves (tcollapse l r) = tleaves l ++ tleaves r.
Proof.
  intros Hd Hl Hr Hbl Hbr.
  assert (∀ d l r, twf d (TNode l r) → 2 ≤ length (tleaves (TNode l r))) as H2.
  { intros d' l' r' (_ & _ & _ & _ & _ & ?). cbn [tleaves]. by rewrite length_app. }
  destruct l as [|kl vl|ll lr], r as [|kr vr|rl rr]; try done; split; try done.
  all: split_and!; try done; try lia.
  all: repeat match goal with
       | H : twf _ (TNode _ _) |- _ => apply H2 in H
       end; cbn [length tleaves] in *; lia.
Qed.

Lemma tremove_spec d t k :
  twf d t → twf d (tremove d t k) ∧ tleaves (tremove d t k) = without k (tleaves t).
Proof.
  revert d; induction t as [|k' vh'|l IHl r IHr]; intros d Hwf; [done|..].
  - cbn [tremove tleaves]. unfold without. case_bool_decide as Hk; [subst k'|].
    + by rewrite filter_cons_False by (by intros []).
    + by rewrite filter_cons_True.
  - destruct Hwf as (Hlt & Hl & Hr & Hbl & Hbr & Hlen). cbn [tremove tleaves].
    rewrite without_app. destruct (HV.bit k d) eqn:Hbit.
    + destruct (IHr (S d) Hr) as [Hw Hp].
      rewrite (without_id k (tleaves l)) by (eapply bit_ne_key; [exact Hbl|congruence]).
      rewrite <-Hp. apply tcollapse_spec; [done..|].
      rewrite Hp. intros kv [_ ?]%list_elem_of_filter. by apply Hbr.
    + destruct (IHl (S d) Hl) as [Hw Hp].
      rewrite (without_id k (tleaves r)) by (eapply bit_ne_key; [exact Hbr|congruence]).
      rewrite <-Hp. apply tcollapse_spec; [done..| |done].
      rewrite Hp. intros kv [_ ?]%list_elem_of_filter. by apply Hbl.
Qed.

(** ** The canonical trie of a leaf map *)

Section State.
Context `{Blake3}.

Definition value_hashes (m : gmap HashValue bytes) : list kvh :=
  (fun kv => (kv.1, hash_value kv.2)) <$> map_to_list m.

Definition state_trie (m : gmap HashValue bytes) : trie := trie_of 256 0 (value_hashes m).

Definition state_root (m : gmap HashValue bytes) : HashValue := thash (state_trie m).

(** Every string hashed for the tree of [m]: the marker of empty subtrees, the
    values and the nodes. *)
Definition state_preimages (m : gmap HashValue bytes) : list bytes :=
  empty_preimage :: (map_to_list m).*2 ++ tpre (state_trie m).

Lemma value_hashes_NoDup m : NoDup (value_hashes m).*1.
Proof.
  unfold value_hashes. rewrite <-list_fmap_compose. apply NoDup_fst_map_to_list.
Qed.

Lemma state_trie_spec m : twf 0 (state_trie m) ∧ tleaves (state_trie m) ≡ₚ value_hashes m.
Proof. eapply trie_of_spec; [done|apply value_hashes_NoDup|apply (agree_all_0 zero_hash)]. Qed.

Lemma elem_of_state_trie m k vh :
  (k, vh) ∈ tleaves (state_trie m) ↔ ∃ v, m !! k = Some v ∧ vh = hash_value v.
Proof.
  rewrite (proj2 (state_trie_spec m)). unfold value_hashes. rewrite list_elem_of_fmap. split.
  - intros ([k' v] & [= -> ->] & Hin). apply elem_of_map_to_list in Hin. eauto.
  - intros (v & Hm & ->). exists (k, v). split; [done|]. by apply elem_of_map_to_list.
Qed.

Lemma value_hashes_without m k :
  without k (value_hashes m) ≡ₚ value_hashes (delete k m).
Proof.
  apply NoDup_Permutation.
  - apply list.NoDup_filter, (NoDup_fmap_1 fst), value_hashes_NoDup.
  - apply (NoDup_fmap_1 fst), value_hashes_NoDup.
  - intros [k' vh]. unfold without. rewrite list_elem_of_filter.
    rewrite <-(proj2 (state_trie_spec m)), <-(proj2 (state_trie_spec (delete k m))).
    rewrite !elem_of_state_trie. simpl. split.
    + intros (Hne & v & Hm & ->). exists v. by rewrite lookup_delete_ne.
    + intros (v & [Hne Hm]%lookup_delete_Some & ->). eauto.
Qed.

Lemma value_hashes_insert m k v :
  value_hashes (<[k := v]> m) ≡ₚ (k, hash_value v) :: without k (value_hashes m).
Proof.
  rewrite value_hashes_without, <-insert_delete_eq. unfold value_hashes.
  by rewrite map_to_list_insert by apply lookup_delete_eq.
Qed.

Lemma state_trie_insert m k v :
  tinsert 0 (state_trie m) k (hash_value v) = state_trie (<[k := v]> m).
Proof.
  destruct (state_trie_spec m) as [Hw Hp]. destruct (state_trie_spec (<[k:=v]> m)) as [Hw' Hp'].
  destruct (tinsert_spec 0 (state_trie m) k (hash_value v)) as [Hwi Hpi];
    [lia|done|apply agree_all_0|].
  eapply twf_unique; [done..|]. rewrite Hpi, Hp', value_hashes_insert.
  constructor. unfold without. by rewrite Hp.
Qed.

Lemma state_trie_delete m k : tremove 0 (state_trie m) k = state_trie (delete k m).
Proof.
  destruct (state_trie_spec m) as [Hw Hp]. destruct (state_trie_spec (delete k m)) as [Hw' Hp'].
  destruct (tremove_spec 0 (state_trie m) k Hw) as [Hwi Hpi].
  eapply twf_unique; [done..|]. rewrite Hpi, Hp', <-value_hashes_without. unfold without. by rewrite Hp.
Qed.

Lemma state_trie_empty : state_trie ∅ = TEmpty.
Proof. unfold state_trie, value_hashes. by rewrite map_to_list_empty. Qed.
End State.
