(* ===== verification/SmtRepr.v ===== *)
(** * Correctness of the sparse Merkle trees

    The incremental tree stores its nodes by hash, so its updates are right
    only as long as no two hashed strings collide.  [U] collects the strings
    that are hashed; [collision_free U] is assumed of it, never of BLAKE3 as a
    whole (which maps infinitely many strings to finitely many digests).  Under
    that assumption the stored nodes under the root represent the canonical
    trie of the leaf map ([ismt_repr]), and every operation keeps it so. *)

From Stdlib Require Import ZArith Lia Strings.Byte.
From stdpp Require Import base gmap sets list sorting strings numbers.
From S2P Require Import Prelude Hash SparseMerkle SmtTrie.

Section Sim.
Context `{B : Blake3} (U : bytes → Prop) (HU : collision_free U) (HE : U empty_preimage).

(** ** Stored tries *)

(** A stored node is filed under its own hash, and its string is in [U]. *)
Inductive node_in : HashValue → TreeNode → Prop :=
| ni_leaf k vh : U (sparse_leaf_preimage k vh) →
    node_in (hash_sparse_leaf k vh) (Ismt.new_leaf k vh)
| ni_internal l r : U (sparse_internal_preimage l r) →
    node_in (hash_sparse_internal l r) (Ismt.new_internal l r).

Definition nodes_ok (ns : NodeMap) : Prop := ∀ h n, ns !! h = Some n → node_in h n.

(** Every node of the trie is stored. *)
Fixpoint stored (ns : NodeMap) (t : trie) : Prop :=
  match t with
  | TEmpty => True
  | TLeaf k vh => ns !! hash_sparse_leaf k vh = Some (Ismt.new_leaf k vh)
  | TNode l r =>
      ns !! hash_sparse_internal (thash l) (thash r)
        = Some (Ismt.new_internal (thash l) (thash r)) ∧
      stored ns l ∧ stored ns r
  end.

Definition covered (t : trie) : Prop := ∀ x, x ∈ tpre t → U x.

Lemma node_in_inj h n n' : node_in h n → node_in h n' → n = n'.
Proof.
  inversion 1; subst; inversion 1; subst.
  - match goal with E : hash_sparse_leaf _ _ = _ |- _ => apply HU in E; [|done..] end.
    match goal with E : sparse_leaf_preimage _ _ = _ |- _ => apply sparse_leaf_preimage_inj in E as [-> ->] end.
    done.
  - match goal with E : _ = hash_sparse_leaf _ _ |- _ => apply HU in E; [|done..]; done
    | E : hash_sparse_leaf _ _ = _ |- _ => apply HU in E; [|done..]; done
    | E : hash_sparse_internal _ _ = _ |- _ => apply HU in E; [|done..]; done end.
  - match goal with E : _ = hash_sparse_leaf _ _ |- _ => apply HU in E; [|done..]; done
    | E : hash_sparse_leaf _ _ = _ |- _ => apply HU in E; [|done..]; done
    | E : hash_sparse_internal _ _ = _ |- _ => apply HU in E; [|done..]; done end.
  - match goal with E : hash_sparse_internal _ _ = _ |- _ => apply HU in E; [|done..] end.
    match goal with E : sparse_internal_preimage _ _ = _ |- _ => apply sparse_internal_preimage_inj in E as [-> ->] end.
    done.
Qed.

Lemma put_node_spec ns n ns' h :
  nodes_ok ns → node_in (Ismt.node_hash n) n → Ismt.put_node ns n = (ns', h) →
  h = Ismt.node_hash n ∧ nodes_ok ns' ∧ ns ⊆ ns' ∧ ns' !! h = Some n.
Proof.
  intros Hok Hin [= <- <-]. split_and!; [done| | |by rewrite lookup_insert_eq].
  - intros h n' [[<- <-]|[_ ?]]%lookup_insert_Some; [done|by apply Hok].
  - apply map_subseteq_spec. intros h n' Hn. rewrite lookup_insert_Some.
    destruct (decide (Ismt.node_hash n = h)) as [<-|]; [left|by right].
    split; [done|]. by eapply node_in_inj; [|apply Hok].
Qed.

Lemma stored_mono ns ns' t : ns ⊆ ns' → stored ns t → stored ns' t.
Proof.
  intros Hs. induction t as [|k vh|l IHl r IHr]; simpl; [done|intros; by eapply lookup_weaken|].
  intros (? & ? & ?). split_and!; [by eapply lookup_weaken|auto..].
Qed.

Lemma covered_node l r :
  covered (TNode l r) ↔ U (sparse_internal_preimage (thash l) (thash r)) ∧ covered l ∧ covered r.
Proof.
  clear HE HU. unfold covered. cbn [tpre]. split.
  - intros Hc. split_and!; [|intros x Hx..]; apply Hc; set_solver.
  - intros (Hn & Hl & Hr) x. rewrite elem_of_cons, elem_of_app. intros [->|[?|?]]; auto.
Qed.

Lemma thash_empty t : covered t → thash t = empty_hash → t = TEmpty.
Proof.
  intros Hc. destruct t as [|k vh|l r]; [done|..]; simpl; intros E; exfalso.
  - apply HU in E; [done| |done]. apply Hc. simpl. set_solver.
  - apply HU in E; [done| |done]. apply Hc. simpl. set_solver.
Qed.

(** What a step of an update establishes of its result: the hash of [t'],
    all of it stored, and nothing lost. *)
Definition step_to (ns : NodeMap) (res : NodeMap * HashValue) (t' : trie) : Prop :=
  res.2 = thash t' ∧ nodes_ok res.1 ∧ ns ⊆ res.1 ∧ stored res.1 t'.

Lemma put_leaf_step ns k vh :
  nodes_ok ns → covered (TLeaf k vh) → step_to ns (Ismt.put_node ns (Ismt.new_leaf k vh)) (TLeaf k vh).
Proof.
  intros Hok Hc. destruct (Ismt.put_node _ _) as [ns' h] eqn:E.
  apply put_node_spec in E as (-> & ? & ? & ?); [done|done|].
  constructor. apply Hc. simpl. set_solver.
Qed.

Lemma put_internal_step ns0 ns l r :
  nodes_ok ns → ns0 ⊆ ns → stored ns l → stored ns r → covered (TNode l r) →
  step_to ns0 (Ismt.put_internal ns (thash l) (thash r)) (TNode l r).
Proof.
  intros Hok Hs Hl Hr (Hc & _ & _)%covered_node.
  unfold Ismt.put_internal. destruct (Ismt.put_node _ _) as [ns' h] eqn:E.
  apply put_node_spec in E as (-> & ? & Hs' & ?); [|done|by constructor].
  split_and!; [done|done|by etrans|]. split_and!; [done|by eapply stored_mono..].
Qed.

(** ** Insertion *)

Lemma split_leaf_step fuel ns k1 v1 k2 v2 d :
  nodes_ok ns → d + fuel = 256 → k1 ≠ k2 → agree d k1 k2 →
  covered (tsplit fuel d k1 v1 k2 v2) →
  step_to ns (Ismt.split_leaf fuel ns k1 v1 k2 (Ismt.new_leaf k2 v2) d) (tsplit fuel d k1 v1 k2 v2).
Proof.
  revert ns d; induction fuel as [|fuel IH]; intros ns d Hok Hd Hne Ha Hc.
  { replace d with 256 in * by lia. by apply agree_256 in Ha. }
  cbn [Ismt.split_leaf tsplit] in *.
  destruct (Bool.eqb_spec (HV.bit k1 d) (HV.bit k2 d)) as [Heq|Hb].
  - assert (Hcs : covered (tsplit fuel (S d) k1 v1 k2 v2)).
    { destruct (HV.bit k1 d); apply covered_node in Hc; tauto. }
    specialize (IH ns (S d) Hok ltac:(lia) Hne (agree_S _ _ _ Ha Heq) Hcs).
    destruct (Ismt.split_leaf _ _ _ _ _ _ _) as [ns1 sub]. destruct IH as (? & ? & ? & ?); simpl in *; subst sub.
    destruct (HV.bit k1 d).
    + by apply (put_internal_step ns ns1 TEmpty).
    + by apply (put_internal_step ns ns1 _ TEmpty).
  - assert (Hcc : covered (TLeaf k1 v1) ∧ covered (TLeaf k2 v2)).
    { destruct (HV.bit k2 d); apply covered_node in Hc; tauto. }
    destruct Hcc as [Hc1 Hc2].
    pose proof (put_leaf_step ns k1 v1 Hok Hc1) as (He & Hok1 & Hs1 & Hst1).
    destruct (Ismt.put_node ns _) as [ns1 h1]; simpl in He, Hok1, Hs1, Hst1; subst h1.
    pose proof (put_leaf_step ns1 k2 v2 Hok1 Hc2) as (He & Hok2 & Hs2 & Hst2).
    destruct (Ismt.put_node ns1 _) as [ns2 h2]; simpl in He, Hok2, Hs2, Hst2; subst h2.
    pose proof (stored_mono _ _ (TLeaf k1 v1) Hs2 Hst1).
    assert (ns ⊆ ns2) by by etrans.
    destruct (HV.bit k2 d).
    + by apply (put_internal_step ns ns2 (TLeaf k1 v1) (TLeaf k2 v2)).
    + by apply (put_internal_step ns ns2 (TLeaf k2 v2) (TLeaf k1 v1)).
Qed.

(** Reading the node stored for a trie. *)
Lemma read_node ns t :
  stored ns t → covered t →
  (if bool_decide (thash t = empty_hash) then NEmpty else default NEmpty (ns !! thash t)) =
    match t with
    | TEmpty => NEmpty
    | TLeaf k vh => Ismt.new_leaf k vh
    | TNode l r => Ismt.new_internal (thash l) (thash r)
    end.
Proof.
  intros Hs Hc. case_bool_decide as E; [by apply thash_empty in E as ->|].
  destruct t as [|k vh|l r]; simpl in *; [done|by rewrite Hs|by rewrite (proj1 Hs)].
Qed.

Lemma insert_at_node_step fuel ns t k vh d :
  nodes_ok ns → stored ns t → covered t → d + fuel = 256 → twf d t →
  agree_all d k (tleaves t) → covered (tinsert d t k vh) →
  step_to ns (Ismt.insert_at_node fuel ns (thash t) k (Ismt.new_leaf k vh) d) (tinsert d t k vh).
Proof.
  revert ns t d; induction fuel as [|fuel IH]; intros ns t d Hok Hs Hct Hd Hwf Ha Hc.
  { replace d with 256 in * by lia. destruct t as [|k' vh'|l r]; cbn [tinsert] in *.
    - by apply put_leaf_step.
    - rewrite (agree_256 k' k) in * by (apply (Ha (k', vh')); set_solver).
      rewrite bool_decide_true in * by done. by apply put_leaf_step.
    - destruct Hwf. lia. }
  cbn [Ismt.insert_at_node]. rewrite read_node by done.
  destruct t as [|k' vh'|l r]; cbn [tinsert] in *.
  - by apply put_leaf_step.
  - unfold Ismt.new_leaf at 1. case_bool_decide as Hk; [by apply put_leaf_step|].
    replace (256 - d) with (S fuel) in * by lia. apply split_leaf_step; [done..| |done].
    apply (Ha (k', vh')). set_solver.
  - destruct Hs as (Hs & Hsl & Hsr). apply covered_node in Hct as (_ & Hcl & Hcr).
    destruct Hwf as (Hlt & Hl & Hr & Hbl & Hbr & Hlen). cbn [tleaves] in Ha.
    unfold Ismt.new_internal. destruct (HV.bit k d) eqn:Hbit.
    + specialize (IH ns r (S d) Hok Hsr Hcr ltac:(lia) Hr). pose proof Hc as (_ & _ & Hc')%covered_node.
      assert (agree_all (S d) k (tleaves r)) as Har.
      { eapply agree_all_S; [exact Ha|set_solver|]. intros kv Hkv. by rewrite Hbr. }
      specialize (IH Har Hc'). destruct (Ismt.insert_at_node _ _ _ _ _ _) as [ns1 h].
      destruct IH as (? & ? & ? & ?); simpl in *; subst h. by apply put_internal_step; [..|eapply stored_mono| |].
    + specialize (IH ns l (S d) Hok Hsl Hcl ltac:(lia) Hl). pose proof Hc as (_ & Hc' & _)%covered_node.
      assert (agree_all (S d) k (tleaves l)) as Hal.
      { eapply agree_all_S; [exact Ha|set_solver|]. intros kv Hkv. by rewrite Hbl. }
      specialize (IH Hal Hc'). destruct (Ismt.insert_at_node _ _ _ _ _ _) as [ns1 h].
      destruct IH as (? & ? & ? & ?); simpl in *; subst h. by apply put_internal_step; [..|eapply stored_mono|].
Qed.

(** ** Removal *)

Lemma stored_leaf_spec ns t :
  stored ns t → nodes_ok ns → covered t → t ≠ TEmpty →
  Ismt.stored_leaf ns (thash t) = match t with TLeaf _ _ => true | _ => false end.
Proof.
  unfold Ismt.stored_leaf. destruct t as [|k vh|l r]; simpl; [done|..].
  - by intros ->.
  - by intros (-> & _).
Qed.

Lemma collapse_step ns0 ns l r :
  nodes_ok ns → ns0 ⊆ ns → stored ns l → stored ns r → covered l → covered r →
  covered (tcollapse l r) →
  step_to ns0 (Ismt.collapse ns (thash l) (thash r)) (tcollapse l r).
Proof.
  intros Hok Hs Hl Hr Hcl Hcr Hc. unfold Ismt.collapse.
  assert (∀ t, covered t → bool_decide (thash t = empty_hash) = match t with TEmpty => true | _ => false end) as Hbd.
  { intros t Ht. case_bool_decide as E; [by apply thash_empty in E as ->|by destruct t]. }
  rewrite !Hbd by done.
  assert (∀ t, covered t → stored ns t → step_to ns0 (ns, thash t) t) as Hkeep by done.
  destruct l as [|kl vl|ll lr], r as [|kr vr|rl rr]; cbn [tcollapse andb] in *;
    rewrite ?stored_leaf_spec by done; first [by apply Hkeep|by apply (Hkeep TEmpty)|by apply put_internal_step].
Qed.

Lemma covered_collapse l r : covered (tcollapse l r) → covered l ∧ covered r.
Proof.
  assert (covered TEmpty) by (intros x Hx; set_solver).
  destruct l as [|kl vl|ll lr], r as [|kr vr|rl rr]; cbn [tcollapse]; try done;
    intros (_ & ? & ?)%covered_node; done.
Qed.

Lemma remove_at_node_step fuel ns t k d :
  nodes_ok ns → stored ns t → covered t → d + fuel = 256 → twf d t → covered (tremove d t k) →
  ∃ res, Ismt.remove_at_node fuel ns (thash t) k d = Ok res ∧ step_to ns res (tremove d t k).
Proof.
  revert ns t d; induction fuel as [|fuel IH]; intros ns t d Hok Hs Hct Hd Hwf Hc.
  all: pose proof (thash_empty t Hct) as Hemp.
  all: destruct t as [|k' vh'|l r]; cbn [Ismt.remove_at_node tremove] in *.
  1, 4: rewrite bool_decide_true by done; by eexists.
  1, 3: rewrite bool_decide_false by (by intros ?%Hemp); simpl in Hs; cbn [thash]; rewrite Hs;
    cbn [Ismt.new_leaf]; eexists; split; [done|]; case_bool_decide; [done|]; by split_and!.
  { destruct Hwf. lia. }
  destruct Hs as (Hs & Hsl & Hsr). apply covered_node in Hct as (_ & Hcl & Hcr).
  destruct Hwf as (Hlt & Hl & Hr & _).
  rewrite bool_decide_false by (by intros ?%Hemp). cbn [thash]. rewrite Hs. cbn [Ismt.new_internal].
  destruct (HV.bit k d); pose proof (covered_collapse _ _ Hc) as [Hc1 Hc2].
  - destruct (IH ns r (S d)) as ([ns1 h] & -> & ? & ? & ? & ?); [done..|lia|done|done|]. simpl in *. subst h.
    eexists; split; [done|]. apply collapse_step; try done. by eapply stored_mono.
  - destruct (IH ns l (S d)) as ([ns1 h] & -> & ? & ? & ? & ?); [done..|lia|done|done|]. simpl in *. subst h.
    eexists; split; [done|]. apply collapse_step; try done. by eapply stored_mono.
Qed.

(** ** Proof paths *)

Lemma root_loop_ok k i sibs h :
  i + length sibs ≤ 256 → ∃ r, Proof.root_loop k i sibs h = Ok r.
Proof.
  revert i; induction sibs as [|s sibs IH]; intros i Hi; simpl in *; [by eexists|].
  destruct (IH (S i) ltac:(lia)) as [r ->]. simpl. unfold Proof.root_step, HV.bit_opt.
  replace (i <? HASH_LENGTH * 8) with true by (symmetry; apply Nat.ltb_lt; unfold HASH_LENGTH; lia).
  case_match; by eexists.
Qed.

Lemma root_loop_cons k i s sibs h r :
  i < 256 →
  Proof.root_loop k i (s :: sibs) h = Ok r ↔
  ∃ c, Proof.root_loop k (S i) sibs h = Ok c ∧
       r = if HV.bit k i then hash_sparse_internal s c else hash_sparse_internal c s.
Proof.
  intros Hi. cbn [Proof.root_loop]. unfold Proof.root_step.
  assert (HV.bit_opt k i = Some (HV.bit k i)) as ->.
  { unfold HV.bit, HV.bit_opt.
    by replace (i <? HASH_LENGTH * 8) with true by (symmetry; apply Nat.ltb_lt; unfold HASH_LENGTH; lia). }
  destruct (Proof.root_loop k (S i) sibs h) as [c| |]; simpl.
  - destruct (HV.bit k i); (split; [intros; simp_res; by eexists|intros (c' & ? & ->); by simp_res]).
  - split; [done|intros (? & ? & ?); done].
  - split; [done|intros (? & ? & ?); done].
Qed.
Lemma root_loop_bound k i sibs h r :
  sibs ≠ [] → Proof.root_loop k i sibs h = Ok r → i + length sibs ≤ 256.
Proof.
  revert i r; induction sibs as [|s sibs IH]; intros i r Hne Hr; [done|].
  cbn [Proof.root_loop] in Hr. destruct (Proof.root_loop k (S i) sibs h) as [c| |] eqn:E; [|done..].
  cbn [rbind] in Hr. unfold Proof.root_step, HV.bit_opt in Hr.
  destruct (Nat.ltb_spec i (HASH_LENGTH * 8)) as [Hlt|]; [|done]. unfold HASH_LENGTH in Hlt.
  destruct sibs as [|s' sibs]; simpl; [lia|]. specialize (IH (S i) c ltac:(done) E). simpl in IH. lia.
Qed.

(** The node reached from [t] along the bits of [k], and the siblings met. *)
Fixpoint tend (d : nat) (t : trie) (k : HashValue) : trie :=
  match t with
  | TNode l r => if HV.bit k d then tend (S d) r k else tend (S d) l k
  | _ => t
  end.

Fixpoint tpath (d : nat) (t : trie) (k : HashValue) : list HashValue :=
  match t with
  | TNode l r =>
      if HV.bit k d then thash l :: tpath (S d) r k else thash r :: tpath (S d) l k
  | _ => []
  end.

Definition leaf_node (t : trie) : option SparseMerkleLeafNode :=
  match t with
  | TLeaf k vh => Some (mkLeafNode k vh)
  | _ => None
  end.

Lemma proof_loop_spec fuel ns t k d sibs :
  nodes_ok ns → stored ns t → covered t → d + fuel = 256 → twf d t →
  Ismt.proof_loop fuel ns (thash t) k d sibs =
    mkSmtProof (sibs ++ tpath d t k)
      (if decide (length (tpath d t k) < fuel) then leaf_node (tend d t k) else None).
Proof.
  revert ns t d sibs; induction fuel as [|fuel IH]; intros ns t d sibs Hok Hs Hc Hd Hwf.
  { destruct t as [|k' vh'|l r]; simpl; rewrite ?app_nil_r; [done..|]. destruct Hwf. lia. }
  pose proof (thash_empty t Hc) as Hemp. cbn [Ismt.proof_loop].
  destruct t as [|k' vh'|l r]; cbn [tpath tend length leaf_node]; rewrite ?app_nil_r.
  - rewrite bool_decide_true by done. case_decide; done.
  - rewrite bool_decide_false by (by intros ?%Hemp). simpl in Hs. cbn [thash]. rewrite Hs.
    cbn [Ismt.new_leaf]. rewrite decide_True by lia. done.
  - rewrite bool_decide_false by (by intros ?%Hemp). destruct Hs as (Hs & Hsl & Hsr).
    apply covered_node in Hc as (_ & Hcl & Hcr). destruct Hwf as (Hlt & Hl & Hr & _).
    cbn [thash]. rewrite Hs. cbn [Ismt.new_internal].
    destruct (HV.bit k d); rewrite IH by (done || lia); rewrite <-app_assoc; f_equal;
      cbn [length]; (do 2 case_decide); try done; lia.
Qed.

(** Folding the siblings back up gives the hash of the trie. *)
Lemma root_loop_tpath d t k k' :
  twf d t → agree (d + length (tpath d t k)) k' k →
  Proof.root_loop k' d (tpath d t k) (thash (tend d t k)) = Ok (thash t).
Proof.
  revert d; induction t as [|k1 v1|l IHl r IHr]; intros d Hwf Ha; [done..|].
  destruct Hwf as (Hlt & Hl & Hr & _). cbn [tpath tend].
  destruct (HV.bit k d) eqn:Hb; cbn [tpath] in Ha; rewrite Hb in Ha; cbn [length] in Ha;
    apply root_loop_cons; try done; (eexists; split; [first [apply IHl|apply IHr]; [done|]|]);
    try (by replace (S d + _) with (d + S (length (tpath (S d) l k))) by lia);
    try (by replace (S d + _) with (d + S (length (tpath (S d) r k))) by lia);
    rewrite (Ha d) by lia; by rewrite Hb.
Qed.

Lemma tend_leaf_or_empty d t k : tend d t k = TEmpty ∨ ∃ k' vh, tend d t k = TLeaf k' vh.
Proof.
  revert d; induction t as [|k1 v1|l IHl r IHr]; intros d; simpl; [by left|eauto|].
  destruct (HV.bit k d); auto.
Qed.

Lemma tend_sub d t k kv : kv ∈ tleaves (tend d t k) → kv ∈ tleaves t.
Proof.
  revert d; induction t as [|k1 v1|l IHl r IHr]; intros d; simpl; [done..|].
  destruct (HV.bit k d); intros; apply elem_of_app; eauto.
Qed.

(** The leaf of a key is found at the end of its own path. *)
Lemma tend_own d t kv : twf d t → kv ∈ tleaves t → kv ∈ tleaves (tend d t kv.1).
Proof.
  revert d; induction t as [|k1 v1|l IHl r IHr]; intros d Hwf Hin; [done..|].
  destruct Hwf as (Hlt & Hl & Hr & Hbl & Hbr & _). cbn [tend tleaves] in *.
  apply elem_of_app in Hin as [Hin|Hin].
  - rewrite (Hbl _ Hin). by apply IHl.
  - rewrite (Hbr _ Hin). by apply IHr.
Qed.

Lemma tpath_length d t k : twf d t → d ≤ 256 → d + length (tpath d t k) ≤ 256.
Proof.
  revert d; induction t as [|k1 v1|l IHl r IHr]; intros d Hwf Hd; simpl; [lia..|].
  destruct Hwf as (Hlt & Hl & Hr & _). destruct (HV.bit k d); simpl;
    [specialize (IHr (S d) Hr)|specialize (IHl (S d) Hl)]; lia.
Qed.

(** The leaf at the end of the path of [k] agrees with [k] on it. *)
Lemma tend_agree d t k kv :
  twf d t → agree_all d k (tleaves t) → kv ∈ tleaves (tend d t k) →
  agree (d + length (tpath d t k)) kv.1 k.
Proof.
  clear HE HU U.
  revert d; induction t as [|k1 v1|l IHl r IHr]; intros d Hwf Ha Hin.
  - simpl in Hin. set_solver.
  - simpl. rewrite Nat.add_0_r. by apply Ha.
  - destruct Hwf as (Hlt & Hl & Hr & Hbl & Hbr & _). cbn [tend tpath tleaves] in *.
    destruct (HV.bit k d) eqn:Hb; cbn [length].
    + replace (d + _) with (S d + length (tpath (S d) r k)) by lia. apply IHr; [done| |done].
      eapply agree_all_S; [exact Ha|set_solver|]. intros kv' Hkv'. by rewrite Hbr.
    + replace (d + _) with (S d + length (tpath (S d) l k)) by lia. apply IHl; [done| |done].
      eapply agree_all_S; [exact Ha|set_solver|]. intros kv' Hkv'. by rewrite Hbl.
Qed.

(** A node on the path has two leaves that agree with the key before it. *)
Lemma tpath_pair d t k n :
  twf d t → agree_all d k (tleaves t) → length (tpath d t k) = S n →
  ∃ kv1 kv2, kv1 ∈ tleaves t ∧ kv2 ∈ tleaves t ∧ kv1.1 ≠ kv2.1 ∧
    agree (d + n) kv1.1 k ∧ agree (d + n) kv2.1 k.
Proof.
  clear HE HU U.
  revert d n; induction t as [|k1 v1|l IHl r IHr]; intros d n Hwf Ha Hlen; [done..|].
  pose proof (twf_NoDup _ _ Hwf) as Hnd. pose proof Hwf as (Hlt & Hl & Hr & Hbl & Hbr & H2).
  destruct n as [|n].
  { rewrite Nat.add_0_r. cbn [tleaves] in *. rewrite <-length_app in H2.
    destruct (tleaves l ++ tleaves r) as [|kv1 [|kv2 l']] eqn:E; [simpl in H2; lia..|].
    rewrite !fmap_cons, list.NoDup_cons in Hnd.
    exists kv1, kv2. split_and!; [set_solver..| |apply Ha; set_solver|apply Ha; set_solver].
    intros Heq. apply (proj1 Hnd). rewrite Heq. set_solver. }
  cbn [tpath tleaves] in *. destruct (HV.bit k d) eqn:Hb; cbn [length] in Hlen.
  - destruct (IHr (S d) n) as (kv1 & kv2 & ? & ? & ? & ? & ?); [done| |lia|].
    { eapply agree_all_S; [exact Ha|set_solver|]. intros kv' Hkv'. by rewrite Hbr. }
    exists kv1, kv2. rewrite !elem_of_app. replace (d + S n) with (S d + n) by lia. naive_solver.
  - destruct (IHl (S d) n) as (kv1 & kv2 & ? & ? & ? & ? & ?); [done| |lia|].
    { eapply agree_all_S; [exact Ha|set_solver|]. intros kv' Hkv'. by rewrite Hbl. }
    exists kv1, kv2. rewrite !elem_of_app. replace (d + S n) with (S d + n) by lia. naive_solver.
Qed.

(** ** Marking *)

Lemma mark_reachable_spec fuel ns h R :
  size (dom ns ∖ R) ≤ fuel →
  ∃ R', Ismt.mark_reachable fuel ns h R = Some R' ∧ R ⊆ R' ∧ (h = empty_hash ∨ h ∈ R') ∧
    ∀ x l r hh, x ∈ R' → x ∉ R → ns !! x = Some (NInternal l r hh) →
      (l = empty_hash ∨ l ∈ R') ∧ (r = empty_hash ∨ r ∈ R').
Proof.
  clear HE HU U.
  revert h R; induction fuel as [|fuel IH]; intros h R Hfuel.
  all: cbn [Ismt.mark_reachable].
  all: destruct (bool_decide (h = empty_hash) || bool_decide (h ∈ R)) eqn:Eh.
  1, 3: exists R; split_and!; [done|done| |by intros];
    apply orb_true_iff in Eh as [?%bool_decide_eq_true|?%bool_decide_eq_true]; auto.
  all: apply orb_false_iff in Eh as [Hne%bool_decide_eq_false Hni%bool_decide_eq_false].
  all: destruct (ns !! h) as [[|k v hh|l r hh]|] eqn:En.
  1, 2, 4, 5, 6, 8: exists ({[h]} ∪ R); split_and!; [done|set_solver|set_solver|];
    intros x l r hh' Hx Hx' Hl; assert (x = h) as -> by set_solver; congruence.
  - exfalso. assert (h ∈ dom ns ∖ R) by (apply elem_of_difference; split; [by eapply elem_of_dom_2|done]).
    assert (size (dom ns ∖ R) ≠ 0); [|lia]. rewrite size_non_empty_iff. set_solver.
  - assert (Hdom : h ∈ dom ns) by by eapply elem_of_dom_2.
    assert (Hs1 : size (dom ns ∖ ({[h]} ∪ R)) ≤ fuel).
    { assert (size (dom ns ∖ ({[h]} ∪ R)) < size (dom ns ∖ R)); [|lia].
      apply subset_size. set_solver. }
    destruct (IH l _ Hs1) as (R1 & -> & Hsub1 & Hl1 & Hc1). cbn [mbind option_bind].
    destruct (IH r R1) as (R2 & -> & Hsub2 & Hr2 & Hc2).
    { etrans; [|exact Hs1]. apply subseteq_size. set_solver. }
    exists R2. split_and!; [done|set_solver|set_solver|].
    intros x xl xr xh Hx HxR Hnx. destruct (decide (x ∈ R1)) as [Hx1|Hx1]; [|by eapply Hc2].
    destruct (decide (x = h)) as [->|Hxh].
    + rewrite En in Hnx. injection Hnx as <- <- <-. set_solver.
    + destruct (Hc1 x xl xr xh) as [? ?]; [done|set_solver|done|]. set_solver.
Qed.

Lemma stored_filter ns t (R : gset HashValue) :
  covered t → stored ns t → (thash t = empty_hash ∨ thash t ∈ R) →
  (∀ x l r hh, x ∈ R → ns !! x = Some (NInternal l r hh) →
      (l = empty_hash ∨ l ∈ R) ∧ (r = empty_hash ∨ r ∈ R)) →
  stored (filter (fun hn => hn.1 ∈ R) ns) t.
Proof.
  intros Hc Hs Hr Hcl. induction t as [|k vh|l IHl r IHr]; [done|..].
  - destruct Hr as [E|Hr]; [by apply thash_empty in E|]. simpl in *.
    by apply map_lookup_filter_Some.
  - destruct Hr as [E|Hr]; [by apply thash_empty in E|]. simpl in Hs, Hr.
    destruct Hs as (Hn & Hsl & Hsr). apply covered_node in Hc as (_ & Hcl' & Hcr').
    destruct (Hcl _ _ _ _ Hr Hn). split_and!; [by apply map_lookup_filter_Some|auto..].
Qed.
End Sim.

(** ** The representation invariant of the incremental tree *)

Section Repr.
Context `{B : Blake3} (U : bytes → Prop).
Opaque state_trie.

Record ismt_repr (t : IncrementalSparseMerkleTree) : Prop := mkIsmtRepr {
  ir_nodes : nodes_ok U (nodes t);
  ir_stored : stored (nodes t) (state_trie (leaves t));
  ir_covered : covered U (state_trie (leaves t));
  ir_root : root_hash t = state_root (leaves t);
  ir_dirty : dirty_leaves t ⊆ dom (leaves t);
  ir_deleted : deleted_leaves t ## dom (leaves t)
}.

Context (HU : collision_free U) (HE : U empty_preimage).

Lemma ismt_new_repr : ismt_repr Ismt.new.
Proof.
  split; simpl; unfold state_root; rewrite ?state_trie_empty; try done.
  intros x Hx. simpl in Hx. set_solver.
Qed.

Lemma ismt_insert_nodes t k v :
  ismt_repr t → covered U (state_trie (<[k := v]> (leaves t))) →
  let res := Ismt.insert_at_node 256 (nodes t) (root_hash t) k (Ismt.new_leaf k (hash_value v)) 0 in
  nodes_ok U res.1 ∧ stored res.1 (state_trie (<[k := v]> (leaves t))) ∧
  res.2 = state_root (<[k := v]> (leaves t)).
Proof.
  intros [Hok Hs Hc Hr _ _] Hc'. rewrite Hr.
  pose proof (insert_at_node_step U HU HE 256 (nodes t) (state_trie (leaves t)) k (hash_value v) 0) as Hstep.
  rewrite state_trie_insert in Hstep.
  destruct Hstep as (H1 & H2 & H3 & H4);
    [exact Hok|exact Hs|exact Hc|done|apply state_trie_spec|apply agree_all_0|exact Hc'|].
  done.
Qed.

Lemma ismt_insert_repr t k v :
  ismt_repr t → covered U (state_trie (<[k := v]> (leaves t))) →
  ismt_repr (Ismt.insert t k v).1 ∧
  (k ∉ deleted_leaves t → ismt_repr (Ismt.insert_without_tracking t k v).1).
Proof.
  intros Ht Hc. pose proof (ismt_insert_nodes t k v Ht Hc) as Hn. destruct Ht as [_ _ _ _ Hd Hdel].
  unfold Ismt.insert, Ismt.insert_without_tracking.
  destruct (Ismt.insert_at_node _ _ _ _ _ _) as [ns rh]. destruct Hn as (? & ? & ?).
  split; [|intros ?]; split; simpl in *; try done; rewrite dom_insert_L; set_solver.
Qed.

Lemma ismt_remove_repr t k :
  ismt_repr t → covered U (state_trie (delete k (leaves t))) →
  ∃ t', Ismt.remove t k = Ok (t', leaves t !! k) ∧ ismt_repr t' ∧ leaves t' = delete k (leaves t).
Proof.
  intros Ht Hc. unfold Ismt.remove. destruct (leaves t !! k) as [v|] eqn:Hk.
  2: { exists t. by rewrite delete_id. }
  destruct Ht as [Hok Hs Hct Hr Hd Hdel].
  destruct (remove_at_node_step U HU HE 256 (nodes t) (state_trie (leaves t)) k 0)
    as ([ns rh] & Heq & He & Hok' & Hsub & Hs');
    [exact Hok|exact Hs|exact Hct|done|apply state_trie_spec|by rewrite state_trie_delete|].
  rewrite Hr. unfold state_root. rewrite Heq. eexists; split; [done|]. split; [|done].
  rewrite state_trie_delete in Hs', He. simpl in Hok', Hs', He.
  split; simpl; [exact Hok'|exact Hs'|exact Hc|exact He|rewrite dom_delete_L..].
  - clear -Hd. set_solver.
  - clear -Hdel. set_solver.
Qed.

Lemma ismt_gc_repr t :
  ismt_repr t →
  ∃ t', Ismt.gc t = Some t' ∧ ismt_repr t' ∧ leaves t' = leaves t ∧ nodes t' ⊆ nodes t ∧
    dirty_leaves t' = dirty_leaves t ∧ deleted_leaves t' = deleted_leaves t.
Proof.
  intros [Hok Hs Hct Hr Hd Hdel]. unfold Ismt.gc.
  destruct (mark_reachable_spec (size (nodes t)) (nodes t) (root_hash t) ∅) as (R & -> & _ & Hroot & Hcl).
  { rewrite difference_empty_L, size_dom. done. }
  eexists; split; [done|]. simpl. split_and!; [|done|apply map_filter_subseteq|done|done].
  split; simpl; [| |exact Hct|exact Hr|exact Hd|exact Hdel].
  - intros h n [? _]%map_lookup_filter_Some. by apply Hok.
  - rewrite Hr in Hroot. apply (stored_filter U HU HE); [exact Hct|exact Hs|exact Hroot|].
    intros x l r hh Hx Hn. eapply Hcl; [exact Hx|set_solver|exact Hn].
Qed.

Lemma ismt_clone_repr t : ismt_repr t → ismt_repr (Ismt.clone t).
Proof. intros [? ? ? ? ? ?]. split; simpl; set_solver. Qed.

(** *** Proofs of a represented tree *)

Lemma ismt_get_proof_eq t k :
  ismt_repr t →
  Ismt.get_proof t k =
    mkSmtProof (tpath 0 (state_trie (leaves t)) k)
      (if decide (length (tpath 0 (state_trie (leaves t)) k) < 256)
       then leaf_node (tend 0 (state_trie (leaves t)) k) else None).
Proof.
  intros [Hok Hs Hct Hr _ _]. unfold Ismt.get_proof. rewrite Hr. unfold state_root.
  rewrite (proof_loop_spec U HU HE 256 (nodes t) (state_trie (leaves t)) k 0 [] Hok Hs Hct eq_refl
    (proj1 (state_trie_spec (leaves t)))). by rewrite app_nil_l.
Qed.

Lemma ismt_proof_root t k k' :
  ismt_repr t → agree (length (tpath 0 (state_trie (leaves t)) k)) k' k →
  Proof.root_loop k' 0 (tpath 0 (state_trie (leaves t)) k) (thash (tend 0 (state_trie (leaves t)) k))
    = Ok (Ismt.root t).
Proof.
  intros [_ _ _ Hr _ _] Ha. unfold Ismt.root. rewrite Hr.
  apply root_loop_tpath; [apply state_trie_spec|done].
Qed.

(** No other leaf shares all but the last bit of the key. *)
Definition no_twin (m : gmap HashValue bytes) (k : HashValue) : Prop :=
  ∀ k', is_Some (m !! k') → agree 255 k' k → k' = k.

Lemma no_twin_path m k :
  no_twin m k → length (tpath 0 (state_trie m) k) < 256.
Proof.
  intros Hnt. destruct (state_trie_spec m) as [Hw Hp].
  pose proof (tpath_length 0 _ k Hw ltac:(lia)) as Hle.
  destruct (decide (length (tpath 0 (state_trie m) k) = 256)) as [E|]; [exfalso|lia].
  destruct (tpath_pair 0 _ k 255 Hw (agree_all_0 _ _) E) as ([k1 v1] & [k2 v2] & H1 & H2 & Hne & Ha1 & Ha2).
  apply elem_of_state_trie in H1 as (w1 & Hw1 & _), H2 as (w2 & Hw2 & _). simpl in *.
  apply Hne. by rewrite (Hnt k1), (Hnt k2).
Qed.

(** An absent key has no two leaves that agree with it on 255 bits. *)
Lemma absent_path m k : m !! k = None → length (tpath 0 (state_trie m) k) < 256.
Proof.
  intros Hk. destruct (state_trie_spec m) as [Hw Hp].
  pose proof (tpath_length 0 _ k Hw ltac:(lia)) as Hle.
  destruct (decide (length (tpath 0 (state_trie m) k) = 256)) as [E|]; [exfalso|lia].
  destruct (tpath_pair 0 _ k 255 Hw (agree_all_0 _ _) E) as ([k1 v1] & [k2 v2] & H1 & H2 & Hne & Ha1 & Ha2).
  apply elem_of_state_trie in H1 as (w1 & Hw1 & _), H2 as (w2 & Hw2 & _). simpl in *.
  assert (∀ k', is_Some (m !! k') → agree 255 k' k → HV.bit k' 255 = negb (HV.bit k 255)) as Hneg.
  { intros k' Hk' Ha. destruct (Bool.bool_dec (HV.bit k' 255) (HV.bit k 255)) as [Heq|Hn].
    - rewrite (agree_256 k' k (agree_S _ _ _ Ha Heq)), Hk in Hk'. by destruct Hk'.
    - by destruct (HV.bit k' 255), (HV.bit k 255). }
  apply Hne, agree_256, agree_S.
  - intros i Hi. by rewrite Ha1, Ha2.
  - rewrite (Hneg k1), (Hneg k2); eauto.
Qed.
End Repr.
