(* ===== verification/SmtProps.v ===== *)
(** * Theorems on the sparse Merkle trees

    Runs of operations on the incremental tree refine the abstract leaf map:
    the root is the one of the rebuilt tree of [Smt], proofs verify against it
    and only true statements have proofs, and the tracked changes bring
    persisted leaves up to date. *)

From Stdlib Require Import ZArith Lia Strings.Byte.
From stdpp Require Import base gmap sets list sorting strings numbers.
From S2P Require Import Prelude Hash SparseMerkle SmtTrie SmtRepr.
#[local] Open Scope setu_scope.

(** ** The rebuilt tree has the root of the canonical trie *)

Section Rebuilt.
Context `{B : Blake3}.

(** A leaf with its hash, as [build_subtree] receives it. *)
Definition with_hash (kv : kvh) : HashValue * HashValue := (kv.1, hash_sparse_leaf kv.1 kv.2).

Lemma partition_with_hash d l :
  Smt.partition_left d (with_hash <$> l) = with_hash <$> Smt.partition_left d l ∧
  Smt.partition_right d (with_hash <$> l) = with_hash <$> Smt.partition_right d l.
Proof.
  unfold Smt.partition_left, Smt.partition_right.
  induction l as [|kv l [IH1 IH2]]; [done|]. rewrite !fmap_cons, !filter_cons, IH1, IH2.
  simpl. repeat case_decide; done.
Qed.

Lemma build_subtree_hash fuel ns l d :
  (Smt.build_subtree fuel ns (with_hash <$> l) d).2 = thash (trie_of fuel d l).
Proof.
  revert ns l d; induction fuel as [|fuel IH]; intros ns l d.
  { by destruct l as [|kv1 [|kv2 l]]. }
  destruct l as [|kv1 [|kv2 l]]; [done..|].
  pose proof (partition_with_hash d (kv1 :: kv2 :: l)) as [Hl Hr].
  rewrite !fmap_cons in Hl, Hr |- *. cbn [Smt.build_subtree trie_of thash]. rewrite Hl, Hr.
  pose proof (IH ns (Smt.partition_left d (kv1 :: kv2 :: l)) (S d)) as H1.
  destruct (Smt.build_subtree fuel ns _ _) as [ns1 lh]. simpl in H1. subst lh.
  pose proof (IH ns1 (Smt.partition_right d (kv1 :: kv2 :: l)) (S d)) as H2.
  destruct (Smt.build_subtree fuel ns1 _ _) as [ns2 rh]. simpl in H2. by subst rh.
Qed.

Lemma leaf_hashes_eq m : Smt.leaf_hashes m = with_hash <$> value_hashes m.
Proof. unfold Smt.leaf_hashes, value_hashes. by rewrite <-list_fmap_compose. Qed.

Lemma rebuild_tree_root t :
  smt_leaves (Smt.rebuild_tree t) = smt_leaves t ∧
  Smt.root (Smt.rebuild_tree t) = state_root (smt_leaves t).
Proof.
  unfold Smt.rebuild_tree. case_bool_decide as E.
  { rewrite E. unfold state_root. by rewrite state_trie_empty. }
  destruct (Smt.build_subtree 256 ∅ _ 0) as [ns r] eqn:Eb. split; [done|].
  unfold Smt.root. cbn [smt_root_hash].
  assert (∃ l, merge_sort Smt.key_le (Smt.leaf_hashes (smt_leaves t)) = with_hash <$> l ∧
               value_hashes (smt_leaves t) ≡ₚ l) as (l & El & Hp).
  { apply Permutation_map_inv. rewrite merge_sort_Permutation. by rewrite leaf_hashes_eq. }
  rewrite El in Eb. pose proof (build_subtree_hash 256 ∅ l 0) as Hb. rewrite Eb in Hb.
  cbn [snd] in Hb. rewrite Hb. unfold state_root, state_trie. f_equal. symmetry.
  apply trie_of_perm; [apply value_hashes_NoDup|done].
Qed.
End Rebuilt.

(** ** Runs *)

Inductive smt_op :=
| OpInsert (key : HashValue) (value : bytes)
| OpRemove (key : HashValue)
| OpGc
| OpCommit.

(** Looking up in a map after a batch of upserts and deletes. *)
Lemma apply_deletes_lookup {K A} `{Countable K} (ds : list K) (m : gmap K A) k :
  foldl (fun m k => delete k m) m ds !! k = if decide (k ∈ ds) then None else m !! k.
Proof.
  revert m; induction ds as [|d ds IH]; intros m; simpl; [done|]. rewrite IH.
  destruct (decide (k = d)) as [->|Hne].
  - rewrite lookup_delete_eq. repeat case_decide; set_solver.
  - rewrite lookup_delete_ne by done. repeat case_decide; set_solver.
Qed.

Lemma apply_upserts_lookup {K A} `{Countable K} (us : list (K * A)) (m : gmap K A) (L : K → option A) k :
  (∀ kv, kv ∈ us → L kv.1 = Some kv.2) →
  foldl (fun m kv => <[kv.1 := kv.2]> m) m us !! k = if decide (k ∈ us.*1) then L k else m !! k.
Proof.
  revert m; induction us as [|[k' v'] us IH]; intros m HL; simpl; [done|].
  rewrite IH by set_solver. pose proof (HL (k', v') ltac:(set_solver)) as Hk. simpl in Hk.
  destruct (decide (k' = k)) as [<-|Hne].
  - rewrite lookup_insert_eq, Hk. repeat case_decide; set_solver.
  - rewrite lookup_insert_ne by done. repeat case_decide; set_solver.
Qed.

Section Runs.
Context `{B : Blake3}.

(** One operation on the incremental tree; a commit takes the changes. *)
Definition ismt_step (t : IncrementalSparseMerkleTree) (op : smt_op)
    : result MerkleError IncrementalSparseMerkleTree :=
  match op with
  | OpInsert k v => Ok (Ismt.insert t k v).1
  | OpRemove k => let? (t', _) := Ismt.remove t k in Ok t'
  | OpGc => match Ismt.gc t with Some t' => Ok t' | None => Panic end
  | OpCommit => Ok (Ismt.take_changes t).1
  end.

Fixpoint ismt_run (t : IncrementalSparseMerkleTree) (ops : list smt_op)
    : result MerkleError IncrementalSparseMerkleTree :=
  match ops with
  | [] => Ok t
  | op :: ops' => let? t' := ismt_step t op in ismt_run t' ops'
  end.

(** The same operations on the rebuilt tree. *)
Definition smt_step (t : SparseMerkleTree) (op : smt_op) : SparseMerkleTree :=
  match op with
  | OpInsert k v => (Smt.insert t k v).1
  | OpRemove k => (Smt.remove t k).1
  | OpGc | OpCommit => t
  end.

(** The abstract state: the leaf map and the copy of it last persisted. *)
Definition map_step (m : gmap HashValue bytes) (op : smt_op) : gmap HashValue bytes :=
  match op with
  | OpInsert k v => <[k := v]> m
  | OpRemove k => delete k m
  | OpGc | OpCommit => m
  end.

Definition spec_step (st : gmap HashValue bytes * gmap HashValue bytes) (op : smt_op) :=
  (map_step st.1 op, match op with OpCommit => st.1 | _ => st.2 end).

(** The leaf maps that a run goes through, and the strings hashed for them. *)
Fixpoint map_trace (m : gmap HashValue bytes) (ops : list smt_op) : list (gmap HashValue bytes) :=
  m :: match ops with
       | [] => []
       | op :: ops' => map_trace (map_step m op) ops'
       end.

Definition run_preimages (ops : list smt_op) : list bytes :=
  concat (state_preimages <$> map_trace ∅ ops).

(** Writing a batch of changes to persisted leaves: upserts, then deletes. *)
Definition apply_changes (P : gmap HashValue bytes) (c : LeafChanges) : gmap HashValue bytes :=
  foldl (fun m k => delete k m) (foldl (fun m kv => <[kv.1 := kv.2]> m) P (upserts c)) (deletes c).

(** Outside the tracked keys the persisted leaves are current. *)
Definition tracked (P : gmap HashValue bytes) (t : IncrementalSparseMerkleTree) : Prop :=
  ∀ k, k ∉ dirty_leaves t → k ∉ deleted_leaves t → P !! k = leaves t !! k.

Lemma take_changes_current P t :
  dirty_leaves t ⊆ dom (leaves t) → deleted_leaves t ## dom (leaves t) → tracked P t →
  apply_changes P (Ismt.take_changes t).2 = leaves t.
Proof.
  intros Hd Hdel Ht. apply map_eq. intros k. unfold apply_changes. simpl.
  rewrite apply_deletes_lookup.
  set (us := omap _ _). assert (∀ kv, kv ∈ us → leaves t !! kv.1 = Some kv.2) as HL.
  { intros [k' v]. unfold us. rewrite list_elem_of_omap.
    intros (k'' & _ & (v' & ? & [= -> ->])%fmap_Some). done. }
  rewrite (apply_upserts_lookup us P (fun k => leaves t !! k) k HL). case_decide as Hk.
  { apply elem_of_elements in Hk. symmetry. apply not_elem_of_dom. set_solver. }
  case_decide as Hu; [done|]. apply Ht; [|by rewrite elem_of_elements in Hk].
  intros Hkd. apply Hu. assert (is_Some (leaves t !! k)) as [v Hv] by (apply elem_of_dom; set_solver).
  apply list_elem_of_fmap. exists (k, v). split; [done|]. unfold us. apply list_elem_of_omap.
  exists k. rewrite elem_of_elements, Hv. done.
Qed.

Context (U : bytes → Prop) (HU : collision_free U) (HE : U empty_preimage).

Lemma ismt_step_refines P t op :
  ismt_repr U t → tracked P t → covered U (state_trie (map_step (leaves t) op)) →
  ∃ t', ismt_step t op = Ok t' ∧ ismt_repr U t' ∧
    (leaves t', if op is OpCommit then leaves t else P) = spec_step (leaves t, P) op ∧
    tracked (if op is OpCommit then leaves t else P) t'.
Proof.
  intros Ht Htr Hc. destruct op as [k v|k| |]; simpl in *.
  - eexists; split; [done|]. destruct (ismt_insert_repr U HU HE t k v Ht Hc) as [Hr _].
    split; [exact Hr|]. unfold Ismt.insert. destruct (Ismt.insert_at_node _ _ _ _ _ _) as [ns rh]. simpl.
    split; [done|]. intros k' Hk1 Hk2. simpl in *. rewrite lookup_insert_ne by set_solver.
    apply Htr; set_solver.
  - destruct (ismt_remove_repr U HU HE t k Ht Hc) as (t' & Heq & Hr & Hl).
    rewrite Heq. cbn [rbind]. exists t'. rewrite Hl. split_and!; [done|done|done|].
    intros k' Hk1 Hk2. rewrite Hl. unfold Ismt.remove in Heq.
    destruct (leaves t !! k) as [old|] eqn:Hk.
    + destruct (Ismt.remove_at_node _ _ _ _ _) as [[ns rh]| |]; [|done..]. cbn [rbind] in Heq.
      simp_res. simpl in *. rewrite lookup_delete_ne by set_solver. apply Htr; set_solver.
    + simp_res. rewrite <-Hl. by apply Htr.
  - destruct (ismt_gc_repr U HU HE t Ht) as (t' & -> & Hr & Hl & _ & Hdi & Hde).
    exists t'. rewrite Hl. split_and!; [done|done|done|].
    intros k' Hk1 Hk2. rewrite Hl. apply Htr; by rewrite <-?Hdi, <-?Hde.
  - eexists; split; [done|]. split; [|done]. destruct Ht as [? ? ? ? ? ?].
    split; simpl; try done; set_solver.
Qed.

Lemma map_trace_head m ops : m ∈ map_trace m ops.
Proof. clear HE HU U. destruct ops; simpl; set_solver. Qed.

Lemma ismt_run_refines ops P t :
  ismt_repr U t → tracked P t → (∀ m, m ∈ map_trace (leaves t) ops → covered U (state_trie m)) →
  ∃ t', ismt_run t ops = Ok t' ∧ ismt_repr U t' ∧
    leaves t' = (foldl spec_step (leaves t, P) ops).1 ∧
    tracked (foldl spec_step (leaves t, P) ops).2 t'.
Proof.
  revert P t; induction ops as [|op ops IH]; intros P t Ht Htr Hc; [by exists t|].
  cbn [ismt_run foldl]. destruct (ismt_step_refines P t op Ht Htr) as (t1 & -> & Ht1 & Hs & Htr1).
  { apply Hc. simpl. apply elem_of_cons. right. apply map_trace_head. }
  cbn [rbind]. rewrite <-Hs. apply IH; [done|done|]. intros m Hm. apply Hc. cbn [map_trace].
  apply elem_of_cons. right. assert (leaves t1 = map_step (leaves t) op) as <-; [|done].
  by injection Hs.
Qed.
End Runs.

(** The strings of a list of leaf maps, as a set to be collision free. *)
Lemma trace_covered `{B : Blake3} (ms : list (gmap HashValue bytes)) (extra : list bytes) m :
  m ∈ ms → covered (fun x => x ∈ concat (state_preimages <$> ms) ++ extra) (state_trie m).
Proof.
  intros Hm x Hx. apply elem_of_app. left. apply list_elem_of_In, in_concat. exists (state_preimages m).
  split.
  - apply list_elem_of_In, list_elem_of_fmap. eauto.
  - apply list_elem_of_In. unfold state_preimages. rewrite elem_of_cons, elem_of_app. auto.
Qed.

Lemma trace_empty `{B : Blake3} (ms : list (gmap HashValue bytes)) (extra : list bytes) m :
  m ∈ ms → empty_preimage ∈ concat (state_preimages <$> ms) ++ extra.
Proof.
  intros Hm. apply elem_of_app. left. apply list_elem_of_In, in_concat. exists (state_preimages m).
  split.
  - apply list_elem_of_In, list_elem_of_fmap. eauto.
  - apply list_elem_of_In. unfold state_preimages. set_solver.
Qed.

Lemma run_repr `{B : Blake3} ops :
  collision_free_on (run_preimages ops) →
  ∃ U t, collision_free U ∧ U empty_preimage ∧ ismt_run Ismt.new ops = Ok t ∧ ismt_repr U t ∧
    leaves t = (foldl spec_step (∅, ∅) ops).1 ∧ tracked (foldl spec_step (∅, ∅) ops).2 t.
Proof.
  intros Hcf. set (U := fun x => x ∈ run_preimages ops ++ []).
  assert (HU : collision_free U).
  { intros x y Hx Hy. unfold U in Hx, Hy. rewrite app_nil_r in Hx, Hy. by apply Hcf. }
  assert (HE : U empty_preimage) by (apply (trace_empty _ [] ∅), map_trace_head).
  destruct (ismt_run_refines U HU HE ops ∅ Ismt.new) as (t & ? & ? & ? & ?).
  - by apply ismt_new_repr.
  - done.
  - intros m Hm. by apply trace_covered.
  - exists U, t. done.
Qed.

Lemma smt_run_root `{B : Blake3} ops s :
  Smt.root s = state_root (smt_leaves s) →
  smt_leaves (foldl smt_step s ops) = foldl map_step (smt_leaves s) ops ∧
  Smt.root (foldl smt_step s ops) = state_root (smt_leaves (foldl smt_step s ops)).
Proof.
  revert s; induction ops as [|op ops IH]; intros s Hs; [done|]. cbn [foldl].
  assert (Smt.root (smt_step s op) = state_root (smt_leaves (smt_step s op)) ∧
          smt_leaves (smt_step s op) = map_step (smt_leaves s) op) as [Hr Hl].
  { destruct op as [k v|k| |]; cbn [smt_step map_step Smt.insert Smt.remove fst]; try done.
    - match goal with |- context [Smt.rebuild_tree ?x] => destruct (rebuild_tree_root x) as [-> ->] end.
      done.
    - unfold Smt.remove. case_bool_decide as Hk; cbn [fst].
      + match goal with |- context [Smt.rebuild_tree ?x] => destruct (rebuild_tree_root x) as [-> ->] end.
        done.
      + rewrite <-eq_None_not_Some in Hk. unfold Smt.root in *. cbn [smt_root_hash smt_leaves].
        by rewrite delete_id. }
  destruct (IH _ Hr) as [-> ->]. split; [by rewrite Hl|]. done.
Qed.

Lemma spec_step_fst ops m P : (foldl spec_step (m, P) ops).1 = foldl map_step m ops.
Proof. revert m P; induction ops as [|op ops IH]; intros m P; [done|]. cbn [foldl]. apply IH. Qed.

(** ** Verification, as conditions on the folded root *)

Section Verify.
Context `{B : Blake3}.

Lemma verify_inclusion_iff sibs lf root k v :
  Proof.verify_inclusion (mkSmtProof sibs lf) root k v = Ok tt ↔
  lf = Some (mkLeafNode k (hash_value v)) ∧
  Proof.root_loop k 0 sibs (hash_sparse_leaf k (hash_value v)) = Ok root.
Proof.
  unfold Proof.verify_inclusion, Proof.compute_root_from_leaf, ln_hash. cbn [siblings proof_leaf].
  destruct lf as [[k' vh]|]; cbn [ok_or rbind ln_key ln_value_hash]; [|naive_solver].
  case_bool_decide as Hk; [naive_solver|]. subst k'.
  case_bool_decide as Hv; [naive_solver|]. subst vh.
  destruct (Proof.root_loop k 0 sibs _) as [r| |]; cbn [rbind]; [|naive_solver..].
  case_bool_decide; naive_solver.
Qed.

Lemma verify_non_inclusion_iff sibs lf root k :
  Proof.verify_non_inclusion (mkSmtProof sibs lf) root k = Ok tt ↔
  match lf with
  | None => Proof.root_loop k 0 sibs empty_hash = Ok root
  | Some l =>
      ln_key l ≠ k ∧ length sibs ≤ HV.common_prefix_bits k (ln_key l) ∧
      Proof.root_loop (ln_key l) 0 sibs (ln_hash l) = Ok root
  end.
Proof.
  unfold Proof.verify_non_inclusion, Proof.compute_root_from_leaf. cbn [siblings proof_leaf].
  destruct lf as [l|].
  - case_bool_decide as Hk; [naive_solver|].
    destruct (Nat.ltb_spec (HV.common_prefix_bits k (ln_key l)) (length sibs)); [cbn [rbind]; naive_solver lia|].
    destruct (Proof.root_loop _ 0 sibs _) as [r| |]; cbn [rbind]; [|naive_solver..].
    case_bool_decide; naive_solver.
  - destruct (Proof.root_loop _ 0 sibs _) as [r| |]; cbn [rbind]; [|naive_solver..].
    case_bool_decide; naive_solver.
Qed.

(** Keys that share the first [n] bits have a common prefix that long. *)
Lemma agree_common_prefix n k k' : k ≠ k' → agree n k' k ↔ n ≤ HV.common_prefix_bits k k'.
Proof.
  intros Hne. destruct (common_prefix_bits_spec k k') as (Heq & _ & Hcp).
  destruct (Hcp Hne) as [_ Hd]. split.
  - intros Ha. apply Nat.nlt_ge. intros Hlt. apply Hd. by rewrite (Ha _ Hlt).
  - intros Hle i Hi. symmetry. apply Heq. lia.
Qed.
End Verify.

(** ** Twin keys *)

(** Two leaves that agree with [k] on [n] bits put more than [n] nodes on its path. *)
Lemma twin_path `{B : Blake3} d t k n kv1 kv2 :
  twf d t → d ≤ n → kv1 ∈ tleaves t → kv2 ∈ tleaves t → kv1 ≠ kv2 →
  agree n kv1.1 k → agree n kv2.1 k → n < d + length (tpath d t k).
Proof.
  revert d; induction t as [|k1 v1|l IHl r IHr]; intros d Hwf Hd H1 H2 Hne Ha1 Ha2.
  - simpl in H1. set_solver.
  - simpl in H1, H2. set_solver.
  - destruct Hwf as (Hlt & Hl & Hr & Hbl & Hbr & _). cbn [tpath tleaves] in *.
    destruct (decide (d = n)) as [->|Hdn]; [destruct (HV.bit k n); simpl; lia|].
    pose proof (Ha1 d ltac:(lia)) as Hb1. pose proof (Ha2 d ltac:(lia)) as Hb2.
    rewrite elem_of_app in H1, H2.
    destruct (HV.bit k d) eqn:Hb; cbn [length].
    + destruct H1 as [H1|H1]; [by rewrite (Hbl _ H1) in Hb1|].
      destruct H2 as [H2|H2]; [by rewrite (Hbl _ H2) in Hb2|].
      specialize (IHr (S d) Hr ltac:(lia) H1 H2 Hne Ha1 Ha2). lia.
    + destruct H1 as [H1|H1]; [|by rewrite (Hbr _ H1) in Hb1].
      destruct H2 as [H2|H2]; [|by rewrite (Hbr _ H2) in Hb2].
      specialize (IHl (S d) Hl ltac:(lia) H1 H2 Hne Ha1 Ha2). lia.
Qed.

Lemma path_no_twin `{B : Blake3} m k :
  is_Some (m !! k) → length (tpath 0 (state_trie m) k) < 256 → no_twin m k.
Proof.
  intros [v Hk] Hlen k' [v' Hk'] Ha. destruct (decide (k' = k)) as [|Hne]; [done|exfalso].
  destruct (state_trie_spec m) as [Hw _].
  pose proof (twin_path 0 (state_trie m) k 255 (k, hash_value v) (k', hash_value v') Hw) as Ht.
  rewrite Nat.add_0_l in Ht. assert (255 < length (tpath 0 (state_trie m) k)); [apply Ht|lia].
  - lia.
  - apply elem_of_state_trie. by exists v.
  - apply elem_of_state_trie. by exists v'.
  - congruence.
  - apply agree_refl.
  - exact Ha.
Qed.

(** ** Soundness of proofs *)

Section Sound.
Context `{B : Blake3}.

(** The strings that [compute_root_from_leaf] hashes. *)
Fixpoint path_preimages (k : HashValue) (i : nat) (sibs : list HashValue) (h : HashValue)
    : list bytes :=
  match sibs with
  | [] => []
  | s :: rest =>
      match Proof.root_loop k (S i) rest h with
      | Ok c =>
          (if HV.bit k i then sparse_internal_preimage s c else sparse_internal_preimage c s)
            :: path_preimages k (S i) rest h
      | _ => []
      end
  end.

(** The strings hashed when the proof [p] for [key] is verified. *)
Definition proof_preimages (p : SparseMerkleProof) (key : HashValue) : list bytes :=
  empty_preimage ::
  match proof_leaf p with
  | Some l => sparse_leaf_preimage (ln_key l) (ln_value_hash l)
                :: path_preimages (ln_key l) 0 (siblings p) (ln_hash l)
  | None => path_preimages key 0 (siblings p) empty_hash
  end.

Context (U : bytes → Prop) (HU : collision_free U) (HE : U empty_preimage).

Lemma thash_internal t l r :
  covered U t → U (sparse_internal_preimage l r) → thash t = hash_sparse_internal l r →
  ∃ tl tr, t = TNode tl tr ∧ thash tl = l ∧ thash tr = r.
Proof.
  intros Hc Hin E. destruct t as [|k vh|tl tr]; cbn [thash] in E.
  - by apply HU in E.
  - apply HU in E; [done| |done]. apply Hc. cbn [tpre]. set_solver.
  - apply covered_node in Hc as (Hc & _). apply HU in E; [|done..].
    apply sparse_internal_preimage_inj in E as [<- <-]. by exists tl, tr.
Qed.

Lemma thash_leaf t k vh :
  covered U t → U (sparse_leaf_preimage k vh) → thash t = hash_sparse_leaf k vh → t = TLeaf k vh.
Proof.
  intros Hc Hin E. destruct t as [|k' vh'|tl tr]; cbn [thash] in E.
  - by apply HU in E.
  - apply HU in E; [|apply Hc; cbn [tpre]; set_solver|done].
    by apply sparse_leaf_preimage_inj in E as [-> ->].
  - apply covered_node in Hc as (Hc & _). by apply HU in E.
Qed.

(** A path that folds up to the hash of [t] leads to a subtree of [t] with the
    hash at its bottom, which holds every leaf of [t] on that path. *)
Lemma path_sound k d sibs h t :
  Proof.root_loop k d sibs h = Ok (thash t) → twf d t → covered U t →
  (∀ x, x ∈ path_preimages k d sibs h → U x) →
  ∃ st, thash st = h ∧ covered U st ∧ (∀ kv, kv ∈ tleaves st → kv ∈ tleaves t) ∧
    (∀ kv, kv ∈ tleaves t → agree (d + length sibs) kv.1 k → kv ∈ tleaves st).
Proof.
  revert d t; induction sibs as [|s sibs IH]; intros d t Hr Hwf Hc Hp.
  { simpl in Hr. simp_res. by exists t. }
  pose proof (root_loop_bound k d (s :: sibs) h _ ltac:(done) Hr) as Hlen. cbn [length] in Hlen.
  apply root_loop_cons in Hr as (c & Hrc & Heq); [|lia].
  cbn [path_preimages] in Hp. rewrite Hrc in Hp.
  destruct (HV.bit k d) eqn:Hb.
  all: pose proof (thash_internal t _ _ Hc (Hp _ (list_elem_of_here _ _)) Heq) as (l & r & -> & <- & <-).
  all: apply covered_node in Hc as (_ & Hcl & Hcr).
  all: destruct Hwf as (Hlt & Hl & Hr & Hbl & Hbr & _); cbn [tleaves].
  - destruct (IH (S d) r Hrc Hr Hcr) as (st & He & Hcs & Hsub & Hin); [intros; apply Hp; set_solver|].
    exists st. split_and!; [done|done|set_solver|]. intros kv Hkv Ha. cbn [length] in Ha.
    apply elem_of_app in Hkv as [Hkv|Hkv].
    + pose proof (Hbl _ Hkv). rewrite (Ha d) in H by lia. congruence.
    + apply Hin; [done|]. by replace (S d + length sibs) with (d + S (length sibs)) by lia.
  - destruct (IH (S d) l Hrc Hl Hcl) as (st & He & Hcs & Hsub & Hin); [intros; apply Hp; set_solver|].
    exists st. split_and!; [done|done|set_solver|]. intros kv Hkv Ha. cbn [length] in Ha.
    apply elem_of_app in Hkv as [Hkv|Hkv].
    + apply Hin; [done|]. by replace (S d + length sibs) with (d + S (length sibs)) by lia.
    + pose proof (Hbr _ Hkv). rewrite (Ha d) in H by lia. congruence.
Qed.

Lemma inclusion_sound p k v t :
  twf 0 t → covered U t → (∀ x, x ∈ proof_preimages p k → U x) →
  Proof.verify_inclusion p (thash t) k v = Ok tt → (k, hash_value v) ∈ tleaves t.
Proof.
  intros Hw Hc HP. destruct p as [sibs lf]. intros (-> & Hr)%verify_inclusion_iff.
  unfold proof_preimages in HP. cbn [proof_leaf siblings ln_key ln_value_hash] in HP.
  unfold ln_hash in HP. cbn [ln_key ln_value_hash] in HP.
  destruct (path_sound k 0 sibs _ t Hr Hw Hc) as (st & He & Hcs & Hsub & _).
  { intros x Hx. apply HP. do 2 apply list_elem_of_further. exact Hx. }
  apply thash_leaf in He as ->; [apply Hsub; cbn [tleaves]; set_solver|done|].
  apply HP, list_elem_of_further, list_elem_of_here.
Qed.

Lemma non_inclusion_sound p k vh t :
  twf 0 t → covered U t → (∀ x, x ∈ proof_preimages p k → U x) →
  Proof.verify_non_inclusion p (thash t) k = Ok tt → (k, vh) ∉ tleaves t.
Proof.
  intros Hw Hc HP. destruct p as [sibs lf]. intros Hv%verify_non_inclusion_iff Hin.
  unfold proof_preimages in HP. cbn [proof_leaf siblings] in HP. destruct lf as [[k' vh']|].
  - destruct Hv as (Hne & Hlen & Hr). cbn [ln_key ln_value_hash] in *.
    unfold ln_hash in *. cbn [ln_key ln_value_hash] in *.
    destruct (path_sound k' 0 sibs _ t Hr Hw Hc) as (st & He & Hcs & _ & Hst).
    { intros x Hx. apply HP. do 2 apply list_elem_of_further. exact Hx. }
    apply thash_leaf in He as ->; [|done|apply HP, list_elem_of_further, list_elem_of_here].
    specialize (Hst _ Hin). cbn [fst tleaves] in Hst.
    assert (agree (length sibs) k k') as Ha.
    { intros i Hi. symmetry. by apply (proj2 (agree_common_prefix _ k k' (not_eq_sym Hne)) Hlen). }
    specialize (Hst Ha). set_solver.
  - destruct (path_sound k 0 sibs _ t Hv Hw Hc) as (st & He & Hcs & _ & Hst).
    { intros x Hx. apply HP. apply list_elem_of_further. exact Hx. }
    apply (thash_empty U HU HE) in He as ->; [|done].
    specialize (Hst _ Hin (agree_refl _ _)). cbn [tleaves] in Hst. set_solver.
Qed.
End Sound.

(** ** Theorems *)

(** C8: for every sequence of inserts, removals, garbage collections and
    commits from the empty tree, as long as the strings hashed on the way do
    not collide, the incremental tree returns (no assertion fails, the marking
    of the collector terminates), holds exactly the leaves of the abstract
    map, and has the same root as the tree that is rebuilt from scratch at
    every change. *)
Theorem ismt_root_is_rebuilt_root (B : Blake3) (ops : list smt_op)
    (Hcf : collision_free_on (run_preimages ops)) :
  ∃ t, ismt_run Ismt.new ops = Ok t ∧
    (∀ k, Ismt.get t k = foldl map_step ∅ ops !! k) ∧
    Ismt.root t = Smt.root (foldl smt_step Smt.new ops) ∧
    Ismt.root t = state_root (foldl map_step ∅ ops).
Proof.
  destruct (run_repr ops Hcf) as (U & t & _ & _ & Hrun & [_ _ _ Hr _ _] & Hl & _).
  rewrite spec_step_fst in Hl.
  destruct (smt_run_root ops Smt.new) as [Hsl Hsr].
  { unfold Smt.root, state_root. by rewrite state_trie_empty. }
  exists t. unfold Ismt.get, Ismt.root in *. rewrite Hsr, Hsl, Hr, Hl. done.
Qed.

(** After any run, taking the tracked changes and writing them (upserts,
    then deletes) to the leaves persisted at the last commit gives exactly the
    current leaves; nothing is pending any more, and neither the leaves nor
    the root move. *)
Theorem take_changes_persists_run (B : Blake3) (ops : list smt_op)
    (Hcf : collision_free_on (run_preimages ops)) :
  ∃ t, ismt_run Ismt.new ops = Ok t ∧
    apply_changes (foldl spec_step (∅, ∅) ops).2 (Ismt.take_changes t).2 = leaves t ∧
    Ismt.has_pending_changes (Ismt.take_changes t).1 = false ∧
    leaves (Ismt.take_changes t).1 = leaves t ∧
    Ismt.root (Ismt.take_changes t).1 = Ismt.root t.
Proof.
  destruct (run_repr ops Hcf) as (U & t & _ & _ & Hrun & [_ _ _ _ Hd Hdel] & Hl & Htr).
  exists t. split_and!; [done|by apply take_changes_current|done|done|done].
Qed.

(** Proofs of the incremental tree verify against its root: an absent key
    has a valid proof of non-inclusion; a present key has a valid proof of
    inclusion of its value exactly when no other key of the tree differs from
    it in the last bit only (two such leaves sit at depth 256, which the loop
    of [get_proof] does not visit). *)
Theorem ismt_proofs_complete (B : Blake3) (ops : list smt_op)
    (Hcf : collision_free_on (run_preimages ops)) :
  ∃ t, ismt_run Ismt.new ops = Ok t ∧
    ∀ k,
      match Ismt.get t k with
      | None => Proof.verify_non_inclusion (Ismt.get_proof t k) (Ismt.root t) k = Ok tt
      | Some v =>
          Proof.verify_inclusion (Ismt.get_proof t k) (Ismt.root t) k v = Ok tt ↔
          no_twin (leaves t) k
      end.
Proof.
  destruct (run_repr ops Hcf) as (U & t & HU & HE & Hrun & Ht & _ & _).
  exists t. split; [done|]. intros k. unfold Ismt.get.
  rewrite (ismt_get_proof_eq U HU HE t k Ht).
  destruct (state_trie_spec (leaves t)) as [Hw _].
  pose proof (λ k', ismt_proof_root U t k k' Ht) as Hroot.
  destruct (leaves t !! k) as [v|] eqn:Hk.
  - split.
    { intros Hv%verify_inclusion_iff. destruct Hv as [Hlf _]. case_decide; [|done].
      by apply path_no_twin. }
    intros Hnt. rewrite decide_True by by apply no_twin_path.
    pose proof (proj2 (elem_of_state_trie (leaves t) k (hash_value v)) (ex_intro _ v (conj Hk eq_refl))) as Hin.
    apply (tend_own 0) in Hin; [|done]. cbn [fst] in Hin. apply verify_inclusion_iff.
    destruct (tend_leaf_or_empty 0 (state_trie (leaves t)) k) as [He|(k' & vh & He)];
      rewrite He in Hin; cbn [tleaves] in Hin; [set_solver|].
    apply list_elem_of_singleton in Hin. simplify_eq. rewrite He in Hroot |- *.
    split; [done|]. apply Hroot, agree_refl.
  - rewrite decide_True by by apply absent_path. apply verify_non_inclusion_iff.
    destruct (tend_leaf_or_empty 0 (state_trie (leaves t)) k) as [He|(k' & vh & He)];
      rewrite He in Hroot |- *; cbn [leaf_node ln_key ln_value_hash].
    + apply Hroot, agree_refl.
    + assert (Hin : (k', vh) ∈ tleaves (tend 0 (state_trie (leaves t)) k)) by (rewrite He; set_solver).
      pose proof (tend_agree 0 _ k (k', vh) Hw (agree_all_0 _ _) Hin) as Ha.
      rewrite Nat.add_0_l in Ha. cbn [fst] in Ha. unfold ln_hash. cbn [ln_key ln_value_hash].
      apply tend_sub, elem_of_state_trie in Hin as (w & Hkw & _).
      assert (k' ≠ k) as Hne by (intros ->; congruence).
      split; [exact Hne|]. split; [|exact (Hroot k' Ha)].
      exact (proj1 (agree_common_prefix _ k k' (not_eq_sym Hne)) Ha).
Qed.

(** C27: proofs are sound: against the root of a leaf map, a proof of inclusion
    is accepted only for an entry of the map and a proof of non-inclusion only
    for an absent key, whoever made the proof, unless the strings hashed for
    the tree and by the verification contain a collision. *)
Theorem smt_proofs_sound (B : Blake3) (m : gmap HashValue bytes) (p : SparseMerkleProof)
    (key : HashValue) (value : bytes)
    (Hcf : collision_free_on (state_preimages m ++ proof_preimages p key ++ [value])) :
  (Proof.verify_inclusion p (state_root m) key value = Ok tt → m !! key = Some value) ∧
  (Proof.verify_non_inclusion p (state_root m) key = Ok tt → m !! key = None).
Proof.
  set (U := fun x => x ∈ state_preimages m ++ proof_preimages p key ++ [value]).
  assert (HU : collision_free U) by (intros x y; apply Hcf).
  assert (HE : U empty_preimage) by (unfold U, state_preimages; set_solver).
  destruct (state_trie_spec m) as [Hw _]. unfold state_root.
  assert (Hc : covered U (state_trie m)) by (intros x Hx; unfold U, state_preimages; set_solver).
  assert (HP : ∀ x, x ∈ proof_preimages p key → U x) by (unfold U; set_solver). split.
  - intros Hin%(inclusion_sound U HU HE); [|exact Hw|exact Hc|exact HP].
    apply elem_of_state_trie in Hin as (v & Hv & Hh). rewrite Hv. f_equal. symmetry.
    apply HU; [unfold U; set_solver| |exact Hh]. unfold U, state_preimages. apply elem_of_app. left.
    apply elem_of_cons. right. apply elem_of_app. left. apply list_elem_of_fmap.
    exists (key, v). by rewrite elem_of_map_to_list.
  - intros Hni. apply eq_None_not_Some. intros [v Hk].
    apply (non_inclusion_sound U HU HE p key (hash_value v)) in Hni; [|exact Hw|exact Hc|exact HP].
    apply Hni, elem_of_state_trie. by exists v.
Qed.

(** ** Recovery *)

(** The leaf maps that [from_leaves] goes through. *)
Definition load_trace (m : gmap HashValue bytes) : list (gmap HashValue bytes) :=
  map_trace ∅ ((fun kv => OpInsert kv.1 kv.2) <$> merge_sort Smt.key_le (map_to_list m)).

Section Load.
Context `{B : Blake3} (U : bytes → Prop) (HU : collision_free U) (HE : U empty_preimage).

Lemma load_refines l t :
  ismt_repr U t → dirty_leaves t = ∅ → deleted_leaves t = ∅ →
  (∀ m, m ∈ map_trace (leaves t) ((fun kv => OpInsert kv.1 kv.2) <$> l) → covered U (state_trie m)) →
  let t' := foldl (fun t kv => (Ismt.insert_without_tracking t kv.1 kv.2).1) t l in
  ismt_repr U t' ∧ dirty_leaves t' = ∅ ∧ deleted_leaves t' = ∅ ∧
  leaves t' = foldl (fun m kv => <[kv.1 := kv.2]> m) (leaves t) l.
Proof.
  revert t; induction l as [|[k v] l IH]; intros t Ht Hdi Hde Hc; [done|].
  cbn [foldl fmap list_fmap map_trace] in Hc |- *.
  assert (Hc1 : covered U (state_trie (<[k := v]> (leaves t)))).
  { apply Hc. apply list_elem_of_further, map_trace_head. }
  pose proof (proj2 (ismt_insert_repr U HU HE t k v Ht Hc1) ltac:(set_solver)) as Ht1.
  assert (leaves (Ismt.insert_without_tracking t k v).1 = <[k := v]> (leaves t) ∧
                dirty_leaves (Ismt.insert_without_tracking t k v).1 = ∅ ∧
                deleted_leaves (Ismt.insert_without_tracking t k v).1 = ∅) as (Hl1 & Hd1 & He1).
  { unfold Ismt.insert_without_tracking. by destruct (Ismt.insert_at_node _ _ _ _ _ _). }
  cbn [fst snd] in *. rewrite <-Hl1. apply IH; [done..|]. intros m Hm. apply Hc, list_elem_of_further.
  cbn [map_step fst snd]. by rewrite <-Hl1.
Qed.
End Load.

Lemma foldl_insert_NoDup {K A} `{Countable K} (l : list (K * A)) (m : gmap K A) :
  NoDup l.*1 → foldl (fun m kv => <[kv.1 := kv.2]> m) m l = list_to_map l ∪ m.
Proof.
  revert m; induction l as [|[k v] l IH]; intros m Hnd; simpl.
  { by rewrite (left_id_L ∅ (∪)). }
  rewrite fmap_cons, list.NoDup_cons in Hnd. destruct Hnd as [Hk Hnd]. rewrite IH by done.
  rewrite <-insert_union_r, <-insert_union_l; [done|]. by apply not_elem_of_list_to_map_1.
Qed.

(** A tree loaded from persisted leaves. *)
Lemma from_leaves_repr `{B : Blake3} (U : bytes → Prop) (HU : collision_free U) (HE : U empty_preimage) m :
  (∀ m', m' ∈ load_trace m → covered U (state_trie m')) →
  ismt_repr U (Ismt.from_leaves m) ∧ leaves (Ismt.from_leaves m) = m ∧
  dirty_leaves (Ismt.from_leaves m) = ∅ ∧ deleted_leaves (Ismt.from_leaves m) = ∅.
Proof.
  intros Hcov.
  destruct (load_refines U HU HE (merge_sort Smt.key_le (map_to_list m)) Ismt.new)
    as (Hr & Hdi & Hde & Hl).
  { by apply ismt_new_repr. }
  { done. }
  { done. }
  { exact Hcov. }
  fold (Ismt.from_leaves m) in Hr, Hdi, Hde, Hl. split; [exact Hr|]. split; [|split; [exact Hdi|exact Hde]].
  rewrite Hl, foldl_insert_NoDup.
  - cbn [Ismt.new leaves]. rewrite (right_id_L ∅ (∪)).
    rewrite (list_to_map_proper _ (map_to_list m)), list_to_map_to_list; [done| |apply merge_sort_Permutation].
    rewrite merge_sort_Permutation. apply NoDup_fst_map_to_list.
  - rewrite merge_sort_Permutation. apply NoDup_fst_map_to_list.
Qed.

(** A tree recovered from persisted leaves holds exactly those leaves, has
    the root of the canonical trie (so the root the tree had when they were
    persisted) and nothing pending, whatever the order of the stored leaves. *)
Theorem from_leaves_root (B : Blake3) (m : gmap HashValue bytes)
    (Hcf : collision_free_on (concat (state_preimages <$> load_trace m))) :
  leaves (Ismt.from_leaves m) = m ∧
  Ismt.root (Ismt.from_leaves m) = state_root m ∧
  Ismt.has_pending_changes (Ismt.from_leaves m) = false.
Proof.
  set (U := fun x => x ∈ concat (state_preimages <$> load_trace m) ++ []).
  assert (HU : collision_free U).
  { intros x y Hx Hy. unfold U in Hx, Hy. rewrite app_nil_r in Hx, Hy. by apply Hcf. }
  assert (HE : U empty_preimage) by (apply (trace_empty _ [] ∅), map_trace_head).
  destruct (from_leaves_repr U HU HE m) as ([_ _ _ Hr _ _] & Hm & Hdi & Hde).
  { intros m' Hm'. by apply trace_covered. }
  split; [exact Hm|]. unfold Ismt.root, Ismt.has_pending_changes. rewrite Hr, Hm, Hdi, Hde. done.
Qed.

(** ** Behaviour at the edges *)

Lemma root_loop_panics `{B : Blake3} k i sibs h :
  sibs ≠ [] → 256 < i + length sibs → Proof.root_loop k i sibs h = Panic.
Proof.
  revert i; induction sibs as [|s sibs IH]; intros i Hne Hlen; [done|].
  destruct sibs as [|s' sibs].
  - cbn [Proof.root_loop rbind]. unfold Proof.root_step, HV.bit_opt.
    replace (i <? HASH_LENGTH * 8) with false; [done|].
    symmetry. apply Nat.ltb_ge. unfold HASH_LENGTH. simpl in Hlen. lia.
  - change (Proof.root_loop k i (s :: s' :: sibs) h) with
      (rbind (Proof.root_loop k (S i) (s' :: sibs) h) (Proof.root_step k i s)).
    rewrite IH; [done|done|]. simpl in *. lia.
Qed.

(** A proof with more than 256 siblings is not rejected: its verification
    fails the assertion of [HashValue::bit]. *)
Theorem long_proof_panics (B : Blake3) (sibs : list HashValue) (root key : HashValue) (value : bytes)
    (Hlen : 256 < length sibs) :
  Proof.verify_non_inclusion (mkSmtProof sibs None) root key = Panic ∧
  Proof.verify_inclusion (mkSmtProof sibs (Some (mkLeafNode key (hash_value value)))) root key value
    = Panic.
Proof.
  assert (sibs ≠ []) by (intros ->; simpl in Hlen; lia).
  unfold Proof.verify_non_inclusion, Proof.verify_inclusion, Proof.compute_root_from_leaf.
  cbn [proof_leaf siblings ok_or rbind ln_key ln_value_hash].
  rewrite !bool_decide_false by (by intros []). by rewrite !root_loop_panics by done.
Qed.

(** ** Witnesses *)

(** A key given by its first and last byte. *)
Definition key2 (first last : byte) : HashValue :=
  mkHash (first :: replicate 30 Byte.x00 ++ [last]) eq_refl.

Definition wit_ops : list smt_op :=
  [OpInsert (key2 Byte.x00 Byte.x01) [Byte.x61]; OpInsert (key2 Byte.x80 Byte.x02) [Byte.x62];
   OpCommit; OpInsert (key2 Byte.xc0 Byte.x03) [Byte.x63]; OpRemove (key2 Byte.x80 Byte.x02); OpGc].

Lemma wit_collision_free : collision_free_on (H := toy_blake3) (run_preimages (B := toy_blake3) wit_ops).
Proof. apply (bool_decide_unpack _). vm_compute. exact I. Qed.

Lemma ismt_root_is_rebuilt_root_witness :
  ∃ t, ismt_run (B := toy_blake3) (Ismt.new (H := toy_blake3)) wit_ops = Ok t ∧
    Ismt.get t (key2 Byte.xc0 Byte.x03) = Some [Byte.x63] ∧
    Ismt.get t (key2 Byte.x80 Byte.x02) = None.
Proof.
  destruct (ismt_root_is_rebuilt_root toy_blake3 wit_ops wit_collision_free) as (t & Hrun & Hg & _).
  exists t. split; [exact Hrun|]. rewrite !Hg. split; vm_compute; reflexivity.
Defined.

Lemma take_changes_persists_run_witness :
  ∃ t, ismt_run (B := toy_blake3) (Ismt.new (H := toy_blake3)) wit_ops = Ok t ∧
    apply_changes (foldl spec_step (∅, ∅) wit_ops).2 (Ismt.take_changes t).2 = leaves t.
Proof.
  destruct (take_changes_persists_run toy_blake3 wit_ops wit_collision_free) as (t & Hrun & Hp & _).
  exists t. split; [exact Hrun|exact Hp].
Defined.

Lemma ismt_proofs_complete_witness :
  ∃ t, ismt_run (B := toy_blake3) (Ismt.new (H := toy_blake3)) wit_ops = Ok t ∧
    match Ismt.get t (key2 Byte.x80 Byte.x02) with
    | None =>
        Proof.verify_non_inclusion (H := toy_blake3)
          (Ismt.get_proof (H := toy_blake3) t (key2 Byte.x80 Byte.x02)) (Ismt.root t)
          (key2 Byte.x80 Byte.x02) = Ok tt
    | Some _ => True
    end.
Proof.
  destruct (ismt_proofs_complete toy_blake3 wit_ops wit_collision_free) as (t & Hrun & Hp).
  exists t. split; [exact Hrun|]. specialize (Hp (key2 Byte.x80 Byte.x02)).
  destruct (Ismt.get t (key2 Byte.x80 Byte.x02)); [exact I|exact Hp].
Defined.

Definition wit_map : gmap HashValue bytes :=
  <[key2 Byte.x00 Byte.x01 := [Byte.x61]]> {[ key2 Byte.x80 Byte.x02 := [Byte.x62] ]}.

(** The proof for the first key of [wit_map]: one sibling, the other leaf. *)
Definition wit_proof : SparseMerkleProof :=
  mkSmtProof
    [hash_sparse_leaf (H := toy_blake3) (key2 Byte.x80 Byte.x02) (hash_value (H := toy_blake3) [Byte.x62])]
    (Some (mkLeafNode (key2 Byte.x00 Byte.x01) (hash_value (H := toy_blake3) [Byte.x61]))).

Lemma smt_proofs_sound_witness :
  Proof.verify_inclusion (H := toy_blake3) wit_proof (state_root (H := toy_blake3) wit_map)
    (key2 Byte.x00 Byte.x01) [Byte.x61] = Ok tt ∧
  wit_map !! key2 Byte.x00 Byte.x01 = Some [Byte.x61].
Proof.
  assert (Hv : Proof.verify_inclusion (H := toy_blake3) wit_proof
            (state_root (H := toy_blake3) wit_map) (key2 Byte.x00 Byte.x01) [Byte.x61] = Ok tt)
    by (vm_compute; reflexivity).
  split; [exact Hv|].
  refine (proj1 (smt_proofs_sound toy_blake3 wit_map wit_proof _ [Byte.x61] _) Hv).
  apply (bool_decide_unpack _). vm_compute. exact I.
Defined.

Lemma from_leaves_root_witness :
  leaves (Ismt.from_leaves (H := toy_blake3) wit_map) = wit_map ∧
  Ismt.root (Ismt.from_leaves (H := toy_blake3) wit_map) = state_root (H := toy_blake3) wit_map.
Proof.
  destruct (from_leaves_root toy_blake3 wit_map) as (Hl & Hr & _).
  - apply (bool_decide_unpack _). vm_compute. exact I.
  - split; [exact Hl|exact Hr].
Defined.

Lemma long_proof_panics_witness :
  Proof.verify_non_inclusion (H := toy_blake3) (mkSmtProof (replicate 257 zero_hash) None)
    zero_hash zero_hash = Panic.
Proof.
  apply (long_proof_panics toy_blake3 (replicate 257 zero_hash) zero_hash zero_hash []).
  rewrite length_replicate. lia.
Defined.

(** The rebuilt tree proves an absent key with its nearest leaf, whose path is
    longer than the common prefix when the key's own subtree is empty: the
    proof it returns is then rejected. *)
Theorem rebuilt_tree_absence_proof_rejected :
  let t := (Smt.insert (H := toy_blake3)
              (Smt.insert (H := toy_blake3) (Smt.new (H := toy_blake3)) (key2 Byte.x80 Byte.x01) [Byte.x61]).1
              (key2 Byte.xc0 Byte.x01) [Byte.x62]).1 in
  Smt.get t (key2 Byte.x00 Byte.x01) = None ∧
  is_ok (Proof.verify_non_inclusion (H := toy_blake3)
           (Smt.get_proof (H := toy_blake3) t (key2 Byte.x00 Byte.x01))
           (Smt.root t) (key2 Byte.x00 Byte.x01)) = false.
Proof. split; vm_compute; reflexivity. Qed.
