(* ===== verification/BinaryMerkle.v ===== *)
(** * Binary Merkle trees

    [crates/setu-merkle/src/binary.rs].  The nodes of a tree are one array,
    level by level from the leaves; a level of odd size is padded with an empty
    node.  The specification is the list of levels: [next] pairs the nodes of a
    padded level, [flatten] is the array that a list of leaves stands for. *)

From Stdlib Require Import ZArith Lia ZifyNat Strings.Byte.
From stdpp Require Import base gmap sets list strings numbers.
From S2P Require Import Prelude Hash.
#[local] Open Scope setu_scope.

Inductive Node :=
| BEmpty
| BHash (h : HashValue).

#[global] Instance Node_eq_dec : EqDecision Node.
Proof. solve_decision. Defined.

Record BinaryMerkleProof := mkBinProof { bp_siblings : list Node }.

Record BinaryMerkleTree := mkBinTree { bt_nodes : list Node; n_leaves : nat }.

Module Bin.
Section Bin.
Context `{Blake3}.

Definition node_hash (n : Node) : HashValue :=
  match n with
  | BEmpty => zero_hash
  | BHash h => h
  end.

Definition node_is_empty (n : Node) : bool :=
  match n with
  | BEmpty => true
  | BHash _ => false
  end.

(** [impl From<HashValue> for Node]. *)
Definition node_from (h : HashValue) : Node := if HV.is_zero h then BEmpty else BHash h.

(** *** Proofs *)

(** The loop of [compute_root] over the siblings. *)
Fixpoint root_loop (sibs : list Node) (current : HashValue) (index : nat) : HashValue :=
  match sibs with
  | [] => current
  | sibling :: rest =>
      let sibling_hash := node_hash sibling in
      root_loop rest
        (if (index mod 2 =? 0)%nat then hash_internal current sibling_hash
         else hash_internal sibling_hash current)
        (index / 2)
  end.

(** [leaf_index >> n] on a 64-bit [usize]: a release build shifts by [n mod 64]. *)
Definition usize_shr (index n : nat) : nat := Nat.shiftr index (n mod 64).

Definition compute_root (p : BinaryMerkleProof) (leaf : bytes) (leaf_index : nat)
    : result MerkleError HashValue :=
  if negb (usize_shr leaf_index (length (bp_siblings p)) =? 0)%nat then
    Err (InvalidProof "Leaf index too large for proof depth")
  else Ok (root_loop (bp_siblings p) (hash_leaf leaf) leaf_index).

Definition verify (p : BinaryMerkleProof) (root : HashValue) (leaf : bytes) (leaf_index : nat)
    : result MerkleError unit :=
  let? computed_root := compute_root p leaf leaf_index in
  if bool_decide (computed_root = root) then Ok tt else Err (InvalidProof "Root mismatch").

Definition depth (p : BinaryMerkleProof) : nat := length (bp_siblings p).

(** The loop of [is_rightmost]. *)
Fixpoint rightmost_loop (sibs : list Node) (index : nat) : bool :=
  match sibs with
  | [] => true
  | sibling :: rest =>
      if (index mod 2 =? 0)%nat && negb (node_is_empty sibling) then false
      else rightmost_loop rest (index / 2)
  end.

Definition is_rightmost (p : BinaryMerkleProof) (leaf_index : nat) : bool :=
  rightmost_loop (bp_siblings p) leaf_index.

(** *** Trees *)

Definition compute_parent (lft rgt : Node) : Node :=
  match lft, rgt with
  | BEmpty, BEmpty => BEmpty
  | _, _ => BHash (hash_internal (node_hash lft) (node_hash rgt))
  end.

(** The inner loop of [build_from_leaf_nodes]: [k] parents, from the pair at [i]. *)
Fixpoint push_parents (k i : nat) (nodes : list Node) : list Node :=
  match k with
  | O => nodes
  | S k' =>
      let lft := nth i nodes BEmpty in
      let rgt := nth (i + 1) nodes BEmpty in
      push_parents k' (i + 2) (nodes ++ [compute_parent lft rgt])
  end.

(** The loop over the levels; each round halves the level, so [level_nodes]
    rounds are enough. *)
Fixpoint build_loop (fuel : nat) (nodes : list Node) (prev_level_start level_nodes : nat)
    : list Node :=
  match fuel with
  | O => nodes
  | S fuel' =>
      if (1 <? level_nodes)%nat then
        let '(nodes, level_nodes) :=
          if (level_nodes mod 2 =? 1)%nat then (nodes ++ [BEmpty], level_nodes + 1)
          else (nodes, level_nodes) in
        let new_level_start := prev_level_start + level_nodes in
        build_loop fuel' (push_parents (level_nodes / 2) prev_level_start nodes)
          new_level_start (level_nodes / 2)
      else nodes
  end.

Definition build_from_leaf_nodes (leaf_nodes : list Node) : BinaryMerkleTree :=
  let n := length leaf_nodes in
  if (n =? 0)%nat then mkBinTree [] 0
  else mkBinTree (build_loop n leaf_nodes 0 n) n.

Definition build (leaves : list bytes) : BinaryMerkleTree :=
  if bool_decide (leaves = []) then mkBinTree [] 0
  else build_from_leaf_nodes ((fun leaf => BHash (hash_leaf leaf)) <$> leaves).

Definition build_from_hashes (leaf_hashes : list HashValue) : BinaryMerkleTree :=
  build_from_leaf_nodes (node_from <$> leaf_hashes).

(** The loop of [calculate_total_nodes]. *)
Fixpoint total_loop (fuel total level_size : nat) : nat :=
  match fuel with
  | O => total
  | S fuel' =>
      if (1 <? level_size)%nat then
        let level_size := (level_size + 1) / 2 * 2 in
        total_loop fuel' (total + level_size) (level_size / 2)
      else total
  end.

Definition calculate_total_nodes (n : nat) : nat :=
  if (n =? 0)%nat then 0 else total_loop n 0 n + 1.

Definition root (t : BinaryMerkleTree) : HashValue :=
  from_option node_hash zero_hash (list.last (bt_nodes t)).

Definition num_leaves (t : BinaryMerkleTree) : nat := n_leaves t.
Definition is_empty (t : BinaryMerkleTree) : bool := (n_leaves t =? 0)%nat.

(** The loop of [get_proof]. *)
Fixpoint proof_loop (fuel : nat) (nodes : list Node) (index level_start level_size : nat)
    : list Node :=
  match fuel with
  | O => []
  | S fuel' =>
      if (1 <? level_size)%nat then
        let padded_size := (level_size + 1) / 2 * 2 in
        let sibling_index :=
          if (index mod 2 =? 0)%nat then level_start + index + 1 else level_start + index - 1 in
        let sibling :=
          if (sibling_index <? level_start + padded_size)%nat
          then default BEmpty (nodes !! sibling_index) else BEmpty in
        sibling :: proof_loop fuel' nodes (index / 2) (level_start + padded_size) (padded_size / 2)
      else []
  end.

Definition get_proof (t : BinaryMerkleTree) (leaf_index : nat)
    : result MerkleError BinaryMerkleProof :=
  if (n_leaves t <=? leaf_index)%nat then Err (IndexOutOfBounds leaf_index (n_leaves t))
  else if (n_leaves t =? 0)%nat then Err EmptyTree
  else Ok (mkBinProof (proof_loop (n_leaves t) (bt_nodes t) leaf_index 0 (n_leaves t))).
End Bin.
End Bin.

(** ** Levels *)

(** Linear arithmetic with division and remainder by constants. *)
Ltac div_lia := zify; Z.to_euclidean_division_equations; lia.

Section Levels.
Context `{B : Blake3}.

Definition pad (l : list Node) : list Node := if (length l mod 2 =? 1)%nat then l ++ [BEmpty] else l.

Fixpoint pair_up (l : list Node) : list Node :=
  match l with
  | a :: b :: rest => Bin.compute_parent a b :: pair_up rest
  | _ => []
  end.

Definition next (l : list Node) : list Node := pair_up (pad l).

(** The array of a tree: the padded levels, then the root. *)
Fixpoint flatten (fuel : nat) (l : list Node) : list Node :=
  match fuel with
  | O => l
  | S fuel' => if (1 <? length l)%nat then pad l ++ flatten fuel' (next l) else l
  end.

(** The root of a level. *)
Fixpoint top (fuel : nat) (l : list Node) : Node :=
  match fuel with
  | O => default BEmpty (head l)
  | S fuel' => if (1 <? length l)%nat then top fuel' (next l) else default BEmpty (head l)
  end.

(** The siblings on the path of index [i]. *)
Fixpoint path (fuel : nat) (l : list Node) (i : nat) : list Node :=
  match fuel with
  | O => []
  | S fuel' =>
      if (1 <? length l)%nat then
        default BEmpty (pad l !! (if (i mod 2 =? 0)%nat then i + 1 else i - 1))
          :: path fuel' (next l) (i / 2)
      else []
  end.

Lemma length_pad l : length (pad l) = (length l + 1) / 2 * 2.
Proof.
  unfold pad. destruct (Nat.eqb_spec (length l mod 2) 1); rewrite ?length_app; simpl length; div_lia.
Qed.

Lemma length_pair_up l : length (pair_up l) = length l / 2.
Proof.
  induction l as [l IH] using (induction_ltof1 _ (@length _)); unfold ltof in IH.
  destruct l as [|a [|b l]]; [done..|]. cbn [pair_up length]. rewrite IH by (simpl; lia).
  div_lia.
Qed.

Lemma length_next l : length (next l) = (length l + 1) / 2.
Proof. unfold next. rewrite length_pair_up, length_pad. by apply Nat.div_mul. Qed.

Lemma length_next_lt l : 1 < length l → length (next l) < length l ∧ 1 ≤ length (next l).
Proof.
  intros Hl. rewrite length_next. div_lia.
Qed.

Lemma pair_up_lookup l i :
  length l mod 2 = 0 →
  pair_up l !! i =
    match l !! (2 * i), l !! (2 * i + 1) with
    | Some a, Some b => Some (Bin.compute_parent a b)
    | _, _ => None
    end.
Proof.
  revert i. induction l as [l IH] using (induction_ltof1 _ (@length _)); unfold ltof in IH.
  intros i Hm. destruct l as [|a [|b l]]; [done..|]. cbn [pair_up].
  destruct i as [|i]; [done|].
  replace (2 * S i) with (S (S (2 * i))) by lia. cbn [lookup list_lookup Nat.add].
  rewrite IH; [done|simpl; lia|]. simpl length in Hm. div_lia.
Qed.

Lemma pad_even l : length (pad l) mod 2 = 0.
Proof. rewrite length_pad. apply Nat.Div0.mod_mul. Qed.

Lemma pad_lookup l i : pad l !! i = l !! i ∨ (l !! i = None ∧ pad l !! i = Some BEmpty).
Proof.
  unfold pad. destruct (_ =? 1)%nat; [|by left]. destruct (l !! i) eqn:E.
  - left. by apply lookup_app_l_Some.
  - destruct (decide (i = length l)) as [->|]; [right|left].
    + by rewrite lookup_app_r, Nat.sub_diag by lia.
    + apply lookup_ge_None in E. apply lookup_ge_None_2. rewrite length_app. simpl. lia.
Qed.

Lemma push_parents_spec k pre l :
  length l = 2 * k →
  ∀ post, Bin.push_parents k (length pre) (pre ++ l ++ post) = pre ++ l ++ post ++ pair_up l.
Proof.
  revert pre l; induction k as [|k IH]; intros pre l Hl post.
  { destruct l; [|done]. simpl. by rewrite app_nil_r. }
  destruct l as [|a [|b l]]; simpl in Hl; [lia..|]. cbn [Bin.push_parents pair_up].
  assert (Ha : nth (length pre) (pre ++ (a :: b :: l) ++ post) BEmpty = a).
  { by rewrite app_nth2, Nat.sub_diag by lia. }
  assert (Hb : nth (length pre + 1) (pre ++ (a :: b :: l) ++ post) BEmpty = b).
  { rewrite app_nth2 by lia. by replace (length pre + 1 - length pre) with 1 by lia. }
  rewrite Ha, Hb. specialize (IH (pre ++ [a; b]) l ltac:(lia) (post ++ [Bin.compute_parent a b])).
  rewrite length_app in IH. simpl length in IH.
  rewrite <-!app_assoc in IH. rewrite <-!app_assoc. simpl in *. exact IH.
Qed.

Lemma build_loop_spec fuel pre l :
  length l ≤ fuel →
  Bin.build_loop fuel (pre ++ l) (length pre) (length l) = pre ++ flatten fuel l.
Proof.
  revert pre l; induction fuel as [|fuel IH]; intros pre l Hl; [done|]. cbn [Bin.build_loop flatten].
  destruct (Nat.ltb_spec 1 (length l)) as [H1|]; [|done].
  pose proof (length_next_lt l H1) as [Hlt _]. pose proof (length_next l) as Hn.
  pose proof (length_pad l) as Hp.
  assert (Hpad : (if (length l mod 2 =? 1)%nat then ((pre ++ l) ++ [BEmpty], length l + 1) else (pre ++ l, length l))
            = (pre ++ pad l, length (pad l))).
  { unfold pad. destruct (_ =? 1)%nat; [|done]. by rewrite length_app, app_assoc. }
  rewrite Hpad. replace (length (pad l) / 2) with (length (next l)) by div_lia.
  pose proof (push_parents_spec (length (next l)) pre (pad l) ltac:(div_lia) []) as Hpp.
  rewrite app_nil_r, app_nil_l in Hpp. rewrite Hpp. rewrite app_assoc, <-length_app.
  rewrite IH by (unfold next in *; lia). by rewrite app_assoc.
Qed.

Lemma flatten_last fuel l :
  length l ≤ fuel → l ≠ [] → list.last (flatten fuel l) = Some (top fuel l).
Proof.
  revert l; induction fuel as [|fuel IH]; intros l Hl Hne.
  { destruct l; [done|simpl in Hl; lia]. }
  cbn [flatten top]. destruct (Nat.ltb_spec 1 (length l)) as [H1|H1].
  - pose proof (length_next_lt l H1) as [Hlt Hge]. rewrite last_app.
    rewrite IH; [done|lia|]. intros E. rewrite E in Hge. simpl in Hge. lia.
  - destruct l as [|a [|b l]]; [done|done|simpl in H1; lia].
Qed.

Lemma bin_proof_loop_spec fuel fuel' pre l i :
  length l ≤ fuel → length l ≤ fuel' → i < length l →
  Bin.proof_loop fuel (pre ++ flatten fuel' l) i (length pre) (length l) = path fuel l i.
Proof.
  revert fuel' pre l i; induction fuel as [|fuel IH]; intros fuel' pre l i Hl Hl' Hi; [done|].
  cbn [Bin.proof_loop path]. destruct (Nat.ltb_spec 1 (length l)) as [H1|]; [|done].
  pose proof (length_next_lt l H1) as [Hlt Hge]. pose proof (length_next l) as Hn.
  pose proof (length_pad l) as Hp. rewrite <-Hp.
  destruct fuel' as [|fuel']; [lia|]. cbn [flatten].
  replace (1 <? length l) with true by (symmetry; by apply Nat.ltb_lt).
  f_equal.
  - set (j := if (i mod 2 =? 0)%nat then i + 1 else i - 1).
    assert (Hj : j < length (pad l)).
    { unfold j. destruct (Nat.eqb_spec (i mod 2) 0); div_lia. }
    replace (if (i mod 2 =? 0)%nat then length pre + i + 1 else length pre + i - 1) with (length pre + j).
    2: { unfold j. destruct (Nat.eqb_spec (i mod 2) 0); div_lia. }
    replace (_ <? _) with true by (symmetry; apply Nat.ltb_lt; lia).
    rewrite lookup_app_r, (Nat.add_comm _ j), Nat.add_sub by lia. by rewrite lookup_app_l.
  - rewrite app_assoc. replace (length pre + length (pad l)) with (length (pre ++ pad l)) by apply length_app.
    replace (length (pad l) / 2) with (length (next l)) by div_lia. apply IH; div_lia.
Qed.

(** Folding the siblings of a non-empty node back up gives the root. *)
Lemma root_loop_path fuel l i h :
  length l ≤ fuel → l !! i = Some (BHash h) →
  Bin.root_loop (path fuel l i) h i = Bin.node_hash (top fuel l).
Proof.
  revert l i h; induction fuel as [|fuel IH]; intros l i h Hl Hi.
  { destruct l; [done|simpl in Hl; lia]. }
  cbn [path top]. pose proof (lookup_lt_Some _ _ _ Hi) as Hlt.
  destruct (Nat.ltb_spec 1 (length l)) as [H1|H1].
  2: { destruct l as [|a [|b l]]; [done| |simpl in H1; lia]. destruct i; [|done]. by simplify_eq/=. }
  pose proof (length_next_lt l H1) as [Hnl Hge]. pose proof (length_pad l) as Hp.
  assert (Hpi : pad l !! i = Some (BHash h)) by (destruct (pad_lookup l i) as [->|[? _]]; congruence).
  cbn [Bin.root_loop]. apply IH; [lia|]. unfold next. rewrite pair_up_lookup by apply pad_even.
  destruct (Nat.eqb_spec (i mod 2) 0) as [E|E].
  - replace (2 * (i / 2)) with i by div_lia. rewrite Hpi.
    destruct (pad l !! (i + 1)) as [b|] eqn:Eb; [done|]. apply lookup_ge_None in Eb. div_lia.
  - replace (2 * (i / 2) + 1) with i by div_lia. replace (2 * (i / 2)) with (i - 1) by div_lia.
    rewrite Hpi. destruct (pad l !! (i - 1)) as [a|] eqn:Ea; [by destruct a|].
    apply lookup_ge_None in Ea. div_lia.
Qed.

Lemma path_shift fuel l i :
  length l ≤ fuel → i < length l → Nat.shiftr i (length (path fuel l i)) = 0.
Proof.
  revert l i; induction fuel as [|fuel IH]; intros l i Hl Hi; [lia|]. cbn [path].
  destruct (Nat.ltb_spec 1 (length l)) as [H1|H1]; [|simpl; lia].
  pose proof (length_next_lt l H1) as [Hnl Hge]. pose proof (length_next l). cbn [length].
  specialize (IH (next l) (i / 2) ltac:(lia) ltac:(div_lia)).
  rewrite Nat.shiftr_div_pow2 in IH |- *. rewrite Nat.pow_succ_r', <-Nat.Div0.div_div. done.
Qed.

Lemma path_length fuel l i k :
  (Z.of_nat (length l) ≤ 2 ^ Z.of_nat k)%Z → length (path fuel l i) ≤ k.
Proof.
  revert l i k; induction fuel as [|fuel IH]; intros l i k Hk; simpl; [lia|].
  destruct (Nat.ltb_spec 1 (length l)) as [H1|H1]; [|simpl; lia]. cbn [length].
  destruct k as [|k]; [simpl in Hk; lia|]. apply le_n_S, IH. rewrite length_next.
  rewrite Nat2Z.inj_succ, Z.pow_succ_r in Hk by lia. div_lia.
Qed.

(** The node is the last one of its level at every level: only empty siblings
    to its right. *)
Lemma rightmost_path fuel l i :
  length l ≤ fuel → i < length l → (∀ n, n ∈ l → n ≠ BEmpty) →
  Bin.rightmost_loop (path fuel l i) i = true ↔ i = length l - 1.
Proof.
  revert l i; induction fuel as [|fuel IH]; intros l i Hl Hi Hne; [lia|]. cbn [path].
  destruct (Nat.ltb_spec 1 (length l)) as [H1|H1]; [|simpl; split; [lia|done]].
  pose proof (length_next_lt l H1) as [Hnl Hge]. pose proof (length_next l) as Hn.
  assert (Hne' : ∀ n, n ∈ next l → n ≠ BEmpty).
  { intros n (j & Hj)%list_elem_of_lookup. unfold next in Hj. rewrite pair_up_lookup in Hj by apply pad_even.
    destruct (pad l !! (2 * j)) as [a|] eqn:Ea; [|done].
    destruct (pad l !! (2 * j + 1)) as [b|] eqn:Eb; [|done]. simp_res.
    assert (a ≠ BEmpty); [|by destruct a].
    destruct (pad_lookup l (2 * j)) as [E|[E _]].
    - apply Hne. apply (list_elem_of_lookup_2 _ (2 * j)). congruence.
    - apply lookup_ge_None in E. apply lookup_lt_Some in Eb. rewrite length_pad in Eb. div_lia. }
  specialize (IH (next l) (i / 2) ltac:(lia) ltac:(div_lia) Hne').
  cbn [Bin.rightmost_loop]. destruct (Nat.eqb_spec (i mod 2) 0) as [E|E]; cbn [andb].
  - destruct (pad_lookup l (i + 1)) as [Ep|[Ep1 Ep2]].
    + destruct (l !! (i + 1)) as [n|] eqn:En.
      * rewrite Ep. cbn [default]. assert (n ≠ BEmpty) by (eapply Hne, list_elem_of_lookup_2, En).
        destruct n; [done|]. simpl. apply lookup_lt_Some in En. split; [done|lia].
      * apply lookup_ge_None in Ep. rewrite length_pad in Ep. div_lia.
    + rewrite Ep2. simpl. rewrite IH. apply lookup_ge_None in Ep1. div_lia.
  - rewrite IH. div_lia.
Qed.

(** ** Soundness *)

(** Level [k] above the leaves [l]. *)
Fixpoint level (k : nat) (l : list Node) : list Node :=
  match k with
  | O => l
  | S k' => next (level k' l)
  end.

Lemma root_loop_snoc sibs s c i :
  Bin.root_loop (sibs ++ [s]) c i =
    let r := Bin.root_loop sibs c i in
    if (Nat.shiftr i (length sibs) mod 2 =? 0)%nat then hash_internal r (Bin.node_hash s)
    else hash_internal (Bin.node_hash s) r.
Proof.
  revert c i; induction sibs as [|s' sibs IH]; intros c i; [done|]. cbn [app Bin.root_loop length].
  rewrite IH. cbn zeta. rewrite !Nat.shiftr_div_pow2, Nat.pow_succ_r', <-Nat.Div0.div_div. done.
Qed.

(** The strings hashed for the levels, and along a proof. *)
Definition parent_preimages (l : list Node) : list bytes :=
  (fun i => internal_preimage (Bin.node_hash (default BEmpty (pad l !! (2 * i))))
              (Bin.node_hash (default BEmpty (pad l !! (2 * i + 1))))) <$> seq 0 (length (next l)).

Fixpoint level_preimages (fuel : nat) (l : list Node) : list bytes :=
  match fuel with
  | O => []
  | S fuel' => if (1 <? length l)%nat then parent_preimages l ++ level_preimages fuel' (next l) else []
  end.

Fixpoint fold_preimages (sibs : list Node) (current : HashValue) (index : nat) : list bytes :=
  match sibs with
  | [] => []
  | s :: rest =>
      let l := if (index mod 2 =? 0)%nat then current else Bin.node_hash s in
      let r := if (index mod 2 =? 0)%nat then Bin.node_hash s else current in
      internal_preimage l r :: fold_preimages rest (hash_internal l r) (index / 2)
  end.

Lemma fold_preimages_snoc sibs s c i :
  fold_preimages (sibs ++ [s]) c i =
    fold_preimages sibs c i ++
    [if (Nat.shiftr i (length sibs) mod 2 =? 0)%nat
     then internal_preimage (Bin.root_loop sibs c i) (Bin.node_hash s)
     else internal_preimage (Bin.node_hash s) (Bin.root_loop sibs c i)].
Proof.
  revert c i; induction sibs as [|s' sibs IH]; intros c i; cbn [app fold_preimages Bin.root_loop length].
  { simpl Nat.shiftr. by destruct (i mod 2 =? 0)%nat. }
  rewrite IH. rewrite !Nat.shiftr_div_pow2, Nat.pow_succ_r', <-Nat.Div0.div_div.
  by destruct (i mod 2 =? 0)%nat.
Qed.
End Levels.

Section Sound.
Context `{B : Blake3} (U : bytes → Prop) (HU : collision_free U).
Context (HZ : ∀ x, U x → blake3 x ≠ zero_hash).
Context {A : Type} (lp : A → bytes) (Hlp : ∀ a x y, lp a ≠ internal_preimage x y).

(** The leaf nodes of the data, whose strings are [lp]. *)
Definition leaf_nodes (data : list A) : list Node := (fun a => BHash (blake3 (lp a))) <$> data.

Definition parents_covered (l : list Node) : Prop := ∀ x, x ∈ parent_preimages l → U x.

Lemma next_lookup l i n :
  parents_covered l → next l !! i = Some n →
  ∃ a b, pad l !! (2 * i) = Some a ∧ pad l !! (2 * i + 1) = Some b ∧
    (n = BEmpty ∨
     n = BHash (hash_internal (Bin.node_hash a) (Bin.node_hash b)) ∧
     U (internal_preimage (Bin.node_hash a) (Bin.node_hash b))).
Proof.
  intros Hc Hn. pose proof (lookup_lt_Some _ _ _ Hn) as Hlt.
  assert (HU' : U (internal_preimage (Bin.node_hash (default BEmpty (pad l !! (2 * i))))
              (Bin.node_hash (default BEmpty (pad l !! (2 * i + 1)))))).
  { apply Hc. unfold parent_preimages. apply list_elem_of_fmap. exists i. split; [done|].
    apply elem_of_seq. lia. }
  unfold next in Hn. rewrite pair_up_lookup in Hn by apply pad_even.
  destruct (pad l !! (2 * i)) as [a|]; [|done]. destruct (pad l !! (2 * i + 1)) as [b|]; [|done].
  exists a, b. split; [done|]. split; [done|]. simp_res. destruct a, b; auto.
Qed.

(** The folded value is the digest of one of the strings. *)
Lemma root_loop_digest sibs x i :
  U x → (∀ y, y ∈ fold_preimages sibs (blake3 x) i → U y) →
  ∃ z, U z ∧ Bin.root_loop sibs (blake3 x) i = blake3 z.
Proof.
  clear HU HZ Hlp. destruct sibs as [|s sibs _] using rev_ind; intros Hx Hp; [by exists x|].
  rewrite root_loop_snoc. rewrite fold_preimages_snoc in Hp. cbn zeta.
  destruct (_ =? 0)%nat; (eexists; split; [|reflexivity]); apply Hp; set_solver.
Qed.

Lemma bin_path_sound sibs : ∀ i k data leaf n,
  (∀ a, a ∈ data → U (lp a)) → U (lp leaf) →
  (∀ j, j < k → parents_covered (level j (leaf_nodes data))) →
  (∀ x, x ∈ fold_preimages sibs (blake3 (lp leaf)) i → U x) →
  level k (leaf_nodes data) !! Nat.shiftr i (length sibs) = Some n →
  Bin.root_loop sibs (blake3 (lp leaf)) i = Bin.node_hash n →
  ∃ a, data !! i = Some a ∧ lp a = lp leaf.
Proof.
  induction sibs as [|s sibs IH] using rev_ind; intros i k data leaf n Hd Hl Hc Hp Hn Hr.
  - cbn [length Nat.shiftr Bin.root_loop] in *. destruct k as [|k].
    + cbn [level] in Hn. unfold leaf_nodes in Hn. rewrite list_lookup_fmap in Hn.
      apply fmap_Some in Hn as (a & Ha & ->). exists a. split; [done|].
      apply HU; [by eapply Hd, list_elem_of_lookup_2|done|]. by cbn in Hr.
    + cbn [level] in Hn. apply next_lookup in Hn as (a & b & _ & _ & [->|[-> Hu]]); [| |apply Hc; lia].
      * by apply HZ in Hr.
      * apply HU in Hr; [|done..]. by apply Hlp in Hr.
  - rewrite root_loop_snoc in Hr. rewrite fold_preimages_snoc in Hp. rewrite length_app in Hn.
    cbn [length] in Hn. set (r := Bin.root_loop sibs (blake3 (lp leaf)) i) in *. cbn zeta in Hr.
    assert (Hsh : Nat.shiftr i (length sibs + 1) = Nat.shiftr i (length sibs) / 2).
    { rewrite !Nat.shiftr_div_pow2, Nat.pow_add_r. simpl (2 ^ 1). by rewrite Nat.Div0.div_div. }
    rewrite Hsh in Hn. set (idx := Nat.shiftr i (length sibs)) in *.
    assert (Hpi : ∃ x y, U (internal_preimage x y) ∧ hash_internal x y = Bin.node_hash n ∧
              r = if (idx mod 2 =? 0)%nat then x else y).
    { destruct (idx mod 2 =? 0)%nat.
      - exists r, (Bin.node_hash s). split; [apply Hp; set_solver|done].
      - exists (Bin.node_hash s), r. split; [apply Hp; set_solver|done]. }
    destruct Hpi as (x & y & Hu & Hxy & Hrx).
    destruct (root_loop_digest sibs (lp leaf) i Hl) as (z & Hz & Hrz); [set_solver|]. fold r in Hrz.
    destruct k as [|k].
    + exfalso. cbn [level] in Hn. unfold leaf_nodes in Hn. rewrite list_lookup_fmap in Hn.
      apply fmap_Some in Hn as (a & Ha & ->). cbn in Hxy. apply HU in Hxy; [|done|by eapply Hd, list_elem_of_lookup_2].
      by apply (Hlp a x y).
    + cbn [level] in Hn. apply next_lookup in Hn as (a & b & Ha & Hb & [->|[-> Hu2]]); [| |apply Hc; lia].
      { exfalso. by apply (HZ (internal_preimage x y)). }
      cbn in Hxy. apply HU in Hxy; [|done..]. apply internal_preimage_inj in Hxy as [-> ->].
      assert (Hpad : ∃ m, pad (level k (leaf_nodes data)) !! idx = Some m ∧ r = Bin.node_hash m).
      { destruct (Nat.eqb_spec (idx mod 2) 0).
        - exists a. split; [|done]. by replace (2 * (idx / 2)) with idx in Ha by div_lia.
        - exists b. split; [|done]. by replace (2 * (idx / 2) + 1) with idx in Hb by div_lia. }
      destruct Hpad as (m & Hm & Hrm).
      destruct (pad_lookup (level k (leaf_nodes data)) idx) as [E|[_ E]].
      * rewrite E in Hm. eapply (IH i k data leaf m); [done|done| |..|done|done].
        { intros j Hj. apply Hc. lia. }
        { intros w Hw. apply Hp. set_solver. }
      * exfalso. rewrite E in Hm. simplify_eq. apply (HZ z Hz). by rewrite <-Hrz, Hrm.
Qed.
End Sound.

(** ** Trees as levels *)

Section Trees.
Context `{B : Blake3}.

Lemma build_from_leaf_nodes_eq l :
  l ≠ [] → Bin.build_from_leaf_nodes l = mkBinTree (flatten (length l) l) (length l).
Proof.
  intros Hne. unfold Bin.build_from_leaf_nodes.
  destruct l as [|a l]; [done|]. cbn [length Nat.eqb]. f_equal.
  apply (build_loop_spec (S (length l)) [] (a :: l)). done.
Qed.

Lemma root_eq l :
  l ≠ [] → Bin.root (Bin.build_from_leaf_nodes l) = Bin.node_hash (top (length l) l).
Proof.
  intros Hne. rewrite build_from_leaf_nodes_eq by done. unfold Bin.root. cbn [bt_nodes].
  by rewrite flatten_last.
Qed.

Lemma get_proof_eq l i :
  i < length l → Bin.get_proof (Bin.build_from_leaf_nodes l) i = Ok (mkBinProof (path (length l) l i)).
Proof.
  intros Hi. rewrite build_from_leaf_nodes_eq by (intros ->; simpl in Hi; lia).
  unfold Bin.get_proof. cbn [n_leaves bt_nodes].
  destruct (Nat.leb_spec (length l) i); [lia|]. destruct (Nat.eqb_spec (length l) 0); [lia|].
  do 2 f_equal. by apply (bin_proof_loop_spec _ _ []).
Qed.

Lemma level_next k l : level k (next l) = next (level k l).
Proof. induction k as [|k IH]; [done|]. cbn [level]. by rewrite IH. Qed.

Lemma top_level fuel l :
  length l ≤ fuel → l ≠ [] →
  ∃ k, level k l !! 0 = Some (top fuel l) ∧
    ∀ j x, j < k → x ∈ parent_preimages (level j l) → x ∈ level_preimages fuel l.
Proof.
  revert l; induction fuel as [|fuel IH]; intros l Hl Hne; [by destruct l; [|simpl in Hl; lia]|].
  cbn [top level_preimages]. destruct (Nat.ltb_spec 1 (length l)) as [H1|H1].
  - pose proof (length_next_lt l H1) as [Hlt Hge].
    destruct (IH (next l)) as (k & Hk & Hsub); [lia|intros E; rewrite E in Hge; simpl in Hge; lia|].
    exists (S k). cbn [level]. rewrite <-level_next. split; [done|]. intros j x Hj Hx.
    apply elem_of_app. destruct j as [|j]; [by left|right]. apply (Hsub j); [lia|].
    cbn [level] in Hx. by rewrite level_next.
  - exists 0. split; [|lia]. by destruct l.
Qed.

Lemma shift_check i n : Bin.usize_shr i n = 0 → Nat.shiftr i n = 0.
Proof.
  unfold Bin.usize_shr. rewrite !Nat.shiftr_div_pow2, !Nat.div_small_iff by (apply Nat.pow_nonzero; lia).
  intros Hi. eapply Nat.lt_le_trans; [exact Hi|]. apply Nat.pow_le_mono_r; [lia|].
  apply Nat.Div0.mod_le.
Qed.

(** A vector holds fewer than 2^63 elements. *)
Definition vec_len_ok {A} (l : list A) : Prop := (Z.of_nat (length l) < 2 ^ 63)%Z.

#[global] Instance vec_len_ok_dec {A} (l : list A) : Decision (vec_len_ok l).
Proof. unfold vec_len_ok. apply _. Defined.

Lemma path_usize_shr l i :
  vec_len_ok l → i < length l → Bin.usize_shr i (length (path (length l) l i)) = 0.
Proof.
  intros Hv Hi. unfold Bin.usize_shr. unfold vec_len_ok in Hv.
  assert (length (path (length l) l i) ≤ 63) by (apply path_length; simpl; lia).
  rewrite Nat.mod_small by lia. by apply path_shift.
Qed.

(** The string of a leaf, the strings of a tree and of a proof. *)
Definition leaf_list (leaves : list bytes) : list Node := leaf_nodes leaf_preimage leaves.

Definition tree_preimages (leaves : list bytes) : list bytes :=
  (leaf_preimage <$> leaves) ++ level_preimages (length leaves) (leaf_list leaves).

Definition bin_proof_preimages (p : BinaryMerkleProof) (leaf : bytes) (i : nat) : list bytes :=
  leaf_preimage leaf :: fold_preimages (bp_siblings p) (hash_leaf leaf) i.

(** No string of the list has the all-zero digest. *)
Definition no_zero_digest (dom : list bytes) : Prop := Forall (fun x => blake3 x ≠ zero_hash) dom.

#[global] Instance no_zero_digest_dec dom : Decision (no_zero_digest dom).
Proof. unfold no_zero_digest. apply _. Defined.

Lemma build_eq leaves : leaves ≠ [] → Bin.build leaves = Bin.build_from_leaf_nodes (leaf_list leaves).
Proof. intros Hne. unfold Bin.build. by rewrite bool_decide_false. Qed.
End Trees.

(** ** Theorems *)

(** For a list of leaves and an index into it, [get_proof] returns a proof
    that verifies the leaf against the root, and [is_rightmost] recognises the
    last leaf; an index out of range is refused. *)
Theorem bin_proofs_complete (B : Blake3) (leaves : list bytes) (i : nat) (leaf : bytes)
    (Hlen : vec_len_ok leaves) (Hi : leaves !! i = Some leaf) :
  (∃ p, Bin.get_proof (Bin.build leaves) i = Ok p ∧
     Bin.verify p (Bin.root (Bin.build leaves)) leaf i = Ok tt ∧
     (Bin.is_rightmost p i = true ↔ i = length leaves - 1)) ∧
  (∀ j, length leaves ≤ j →
     Bin.get_proof (Bin.build leaves) j = Err (IndexOutOfBounds j (length leaves))).
Proof.
  pose proof (lookup_lt_Some _ _ _ Hi) as Hlt.
  assert (Hne : leaves ≠ []) by (intros ->; done). rewrite build_eq by done.
  assert (Hl : length (leaf_list leaves) = length leaves) by (unfold leaf_list; apply length_fmap).
  assert (Hln : leaf_list leaves !! i = Some (BHash (hash_leaf leaf))).
  { unfold leaf_list, leaf_nodes. by rewrite list_lookup_fmap, Hi. }
  assert (Hne' : leaf_list leaves ≠ []) by (intros E; rewrite E in Hl; simpl in Hl; lia).
  split.
  - eexists. rewrite get_proof_eq by lia. split; [done|]. split.
    + unfold Bin.verify, Bin.compute_root. cbn [bp_siblings].
      rewrite path_usize_shr by (unfold vec_len_ok in *; lia). cbn [Nat.eqb negb rbind].
      rewrite root_loop_path with (h := hash_leaf leaf) by done. rewrite root_eq by done.
      by rewrite bool_decide_true.
    + unfold Bin.is_rightmost. cbn [bp_siblings]. rewrite rightmost_path; [by rewrite Hl|done|lia|].
      intros n (a & -> & _)%list_elem_of_fmap. done.
  - intros j Hj. rewrite build_from_leaf_nodes_eq by done. unfold Bin.get_proof. cbn [n_leaves].
    rewrite Hl. by replace (length leaves <=? j) with true by (symmetry; by apply Nat.leb_le).
Qed.

(** A proof that verifies against the root of a tree, for any leaf and
    index, comes from a tree that has that leaf at that index, unless the
    strings hashed for the tree and along the proof collide or have the zero
    digest, which stands for the empty node. *)
Theorem bin_proofs_sound (B : Blake3) (leaves : list bytes) (p : BinaryMerkleProof) (leaf : bytes)
    (i : nat) (Hne : leaves ≠ [])
    (Hcf : collision_free_on (tree_preimages leaves ++ bin_proof_preimages p leaf i))
    (Hz : no_zero_digest (tree_preimages leaves ++ bin_proof_preimages p leaf i))
    (Hv : Bin.verify p (Bin.root (Bin.build leaves)) leaf i = Ok tt) :
  leaves !! i = Some leaf.
Proof.
  set (U := fun x => x ∈ tree_preimages leaves ++ bin_proof_preimages p leaf i).
  rewrite build_eq in Hv by done.
  assert (Hl : length (leaf_list leaves) = length leaves) by (unfold leaf_list; apply length_fmap).
  assert (Hne' : leaf_list leaves ≠ []) by (intros E; rewrite E in Hl; by destruct leaves).
  unfold Bin.verify, Bin.compute_root in Hv.
  destruct (Nat.eqb_spec (Bin.usize_shr i (length (bp_siblings p))) 0) as [Hsh|]; [|done].
  cbn [negb rbind] in Hv. case_bool_decide as Hr; [|done]. rewrite root_eq in Hr by done.
  destruct (top_level (length (leaf_list leaves)) (leaf_list leaves)) as (k & Hk & Hsub); [done..|].
  destruct (bin_path_sound U) with (lp := leaf_preimage) (sibs := bp_siblings p) (i := i) (k := k)
    (data := leaves) (leaf := leaf) (n := top (length (leaf_list leaves)) (leaf_list leaves))
    as (a & Ha & E).
  - intros x y. apply Hcf.
  - unfold no_zero_digest in Hz. rewrite list.Forall_forall in Hz. exact Hz.
  - done.
  - intros a Ha. unfold U, tree_preimages. rewrite !elem_of_app. do 2 left. by apply list_elem_of_fmap_2.
  - unfold U, bin_proof_preimages. set_solver.
  - intros j Hj x Hx. unfold U, tree_preimages. rewrite !elem_of_app. left. right. rewrite <-Hl. eauto.
  - intros x Hx. unfold U, bin_proof_preimages. rewrite elem_of_app. right. by apply list_elem_of_further.
  - by rewrite shift_check.
  - done.
  - rewrite Ha. f_equal. unfold leaf_preimage in E. by apply app_inv_head in E.
Qed.

(** ** Witnesses *)

Definition wit_leaves : list bytes := [[Byte.x61]; [Byte.x62]; [Byte.x63]].

Lemma bin_proofs_complete_witness :
  ∃ p, Bin.get_proof (Bin.build (H := toy_blake3) wit_leaves) 2 = Ok p ∧
    Bin.verify (H := toy_blake3) p (Bin.root (Bin.build (H := toy_blake3) wit_leaves)) [Byte.x63] 2
      = Ok tt.
Proof.
  destruct (bin_proofs_complete toy_blake3 wit_leaves 2 [Byte.x63]) as [(p & Hp & Hv & _) _].
  - apply (bool_decide_unpack _). vm_compute. exact I.
  - reflexivity.
  - exists p. split; [exact Hp|exact Hv].
Defined.

(** The proof of leaf 2 of [wit_leaves]: an empty sibling, then the pair to its left. *)
Definition wit_bin_proof : BinaryMerkleProof :=
  mkBinProof [BEmpty; BHash (hash_internal (H := toy_blake3) (hash_leaf (H := toy_blake3) [Byte.x61])
                               (hash_leaf (H := toy_blake3) [Byte.x62]))].

Lemma bin_proofs_sound_witness : wit_leaves !! 2 = Some [Byte.x63].
Proof.
  apply (bin_proofs_sound toy_blake3 wit_leaves wit_bin_proof [Byte.x63] 2).
  - discriminate.
  - apply (bool_decide_unpack _). vm_compute. exact I.
  - apply (bool_decide_unpack _). vm_compute. exact I.
  - vm_compute. reflexivity.
Defined.
