(* ===== verification/Aggregation.v ===== *)
(** * The subnet aggregation tree

    [crates/setu-merkle/src/aggregation.rs]: the state roots of the subnets,
    sorted by subnet with the root subnet first, are the leaves of a binary
    Merkle tree whose root is the global state root. *)

From Stdlib Require Import ZArith Lia ZifyNat Strings.Byte.
From stdpp Require Import base gmap sets list sorting strings numbers.
From S2P Require Import Prelude Hash BinaryMerkle.
#[local] Open Scope setu_scope.

Definition AGGREGATION_LEAF_PREFIX : bytes := [Byte.x10].

(** [ROOT_SUBNET]: all zeros. *)
Definition ROOT_SUBNET : HashValue := zero_hash.

Record SubnetStateEntry := mkEntry {
  e_subnet_id : HashValue;
  e_state_root : HashValue;
  e_object_count : option Z;
  e_last_anchor_id : option Z
}.

#[global] Instance SubnetStateEntry_eq_dec : EqDecision SubnetStateEntry.
Proof. solve_decision. Defined.

Record SubnetAggregationProof := mkAggProof {
  ap_entry : SubnetStateEntry;
  ap_index : nat;
  ap_siblings : list HashValue
}.

Record SubnetAggregationTree := mkAgg {
  entries : list SubnetStateEntry;
  agg_tree : BinaryMerkleTree;
  global_root : HashValue
}.

Module Agg.
Section Agg.
Context `{Blake3}.

Definition entry_new (subnet_id state_root : HashValue) : SubnetStateEntry :=
  mkEntry subnet_id state_root None None.

Definition with_metadata (subnet_id state_root : HashValue) (object_count last_anchor_id : Z)
    : SubnetStateEntry :=
  mkEntry subnet_id state_root (Some object_count) (Some last_anchor_id).

(** The string hashed by [leaf_hash]. *)
Definition entry_preimage (e : SubnetStateEntry) : bytes :=
  AGGREGATION_LEAF_PREFIX ++ hv_bytes (e_subnet_id e) ++ hv_bytes (e_state_root e).

Definition leaf_hash (e : SubnetStateEntry) : HashValue := blake3 (entry_preimage e).

Definition is_root (e : SubnetStateEntry) : bool := bool_decide (e_subnet_id e = ROOT_SUBNET).

(** The comparison of [build]'s sort, as "not greater". *)
Definition entry_le (a b : SubnetStateEntry) : Prop :=
  match is_root a, is_root b with
  | true, false => True
  | false, true => False
  | _, _ => HV.leb (e_subnet_id a) (e_subnet_id b) = true
  end.

#[global] Instance entry_le_dec : RelDecision entry_le.
Proof. intros a b. unfold entry_le. destruct (is_root a), (is_root b); apply _. Defined.

Definition build (es : list SubnetStateEntry) : SubnetAggregationTree :=
  if bool_decide (es = []) then mkAgg [] (Bin.build []) zero_hash
  else
    let sorted := merge_sort entry_le es in
    let tree := Bin.build_from_hashes (leaf_hash <$> sorted) in
    mkAgg sorted tree (Bin.root tree).

Definition root (t : SubnetAggregationTree) : HashValue := global_root t.
Definition num_subnets (t : SubnetAggregationTree) : nat := length (entries t).
Definition is_empty (t : SubnetAggregationTree) : bool := bool_decide (entries t = []).

(** [entries.iter().find(|e| &e.subnet_id == subnet_id)]. *)
Definition get_subnet (t : SubnetAggregationTree) (subnet_id : HashValue) : option SubnetStateEntry :=
  find (fun e => bool_decide (e_subnet_id e = subnet_id)) (entries t).
Definition get_subnet_root (t : SubnetAggregationTree) (subnet_id : HashValue) : option HashValue :=
  e_state_root <$> get_subnet t subnet_id.
Definition root_subnet_state (t : SubnetAggregationTree) : option HashValue :=
  get_subnet_root t ROOT_SUBNET.

(** The loop of [compute_root]. *)
Fixpoint root_loop (sibs : list HashValue) (current : HashValue) (index : nat) : HashValue :=
  match sibs with
  | [] => current
  | sibling :: rest =>
      root_loop rest
        (if (index mod 2 =? 0)%nat then hash_internal current sibling
         else hash_internal sibling current)
        (index / 2)
  end.

Definition compute_root (p : SubnetAggregationProof) (leaf : HashValue) : HashValue :=
  root_loop (ap_siblings p) leaf (ap_index p).

Definition verify (p : SubnetAggregationProof) (groot : HashValue) : result MerkleError unit :=
  if bool_decide (compute_root p (leaf_hash (ap_entry p)) = groot) then Ok tt
  else Err (InvalidProof "Root mismatch").

(** [entries.iter().position(..)]. *)
Fixpoint position (subnet_id : HashValue) (es : list SubnetStateEntry) : option nat :=
  match es with
  | [] => None
  | e :: rest =>
      if bool_decide (e_subnet_id e = subnet_id) then Some 0 else S <$> position subnet_id rest
  end.

Definition get_proof (t : SubnetAggregationTree) (subnet_id : HashValue)
    : result MerkleError SubnetAggregationProof :=
  let? index := ok_or KeyNotFound (position subnet_id (entries t)) in
  match entries t !! index with
  | None => Panic
  | Some entry =>
      let? binary_proof := Bin.get_proof (agg_tree t) index in
      Ok (mkAggProof entry index (Bin.node_hash <$> bp_siblings binary_proof))
  end.

Definition verify_proof (t : SubnetAggregationTree) (p : SubnetAggregationProof)
    : result MerkleError unit :=
  verify p (global_root t).

Definition update_subnet (t : SubnetAggregationTree) (entry : SubnetStateEntry)
    : SubnetAggregationTree :=
  build (filter (fun e => e_subnet_id e ≠ e_subnet_id entry) (entries t) ++ [entry]).

Definition remove_subnet (t : SubnetAggregationTree) (subnet_id : HashValue)
    : SubnetAggregationTree :=
  build (filter (fun e => e_subnet_id e ≠ subnet_id) (entries t)).

(** [collect] into a map: a later entry of the same subnet wins. *)
Definition to_map (t : SubnetAggregationTree) : gmap HashValue HashValue :=
  foldl (fun m e => <[e_subnet_id e := e_state_root e]> m) ∅ (entries t).
End Agg.
End Agg.

(** ** Lemmas *)

#[global] Instance entry_le_trans : Transitive Agg.entry_le.
Proof.
  intros a b c. unfold Agg.entry_le. destruct (Agg.is_root a), (Agg.is_root b), (Agg.is_root c);
    try done; apply leb_trans.
Qed.

#[global] Instance entry_le_total : Total Agg.entry_le.
Proof.
  intros a b. unfold Agg.entry_le. destruct (Agg.is_root a), (Agg.is_root b);
    first [by auto|apply leb_total].
Qed.

Lemma entry_le_antisym a b : Agg.entry_le a b → Agg.entry_le b a → e_subnet_id a = e_subnet_id b.
Proof.
  unfold Agg.entry_le. destruct (Agg.is_root a), (Agg.is_root b); try done; apply leb_antisym.
Qed.

Definition ids (es : list SubnetStateEntry) : list HashValue := e_subnet_id <$> es.

Lemma NoDup_ids_inj es e e' :
  NoDup (ids es) → e ∈ es → e' ∈ es → e_subnet_id e = e_subnet_id e' → e = e'.
Proof.
  intros Hnd [i Hi]%list_elem_of_lookup [j Hj]%list_elem_of_lookup E.
  assert (i = j) as ->; [|congruence]. unfold ids in Hnd.
  apply (NoDup_lookup _ _ _ (e_subnet_id e) Hnd); rewrite list_lookup_fmap, ?Hi, ?Hj; simpl; congruence.
Qed.

(** The sort puts the root subnet first and the others in order; with distinct
    subnets it does not depend on the order of the entries. *)
Lemma sort_entries_perm es es' :
  NoDup (ids es) → es ≡ₚ es' → merge_sort Agg.entry_le es = merge_sort Agg.entry_le es'.
Proof.
  intros Hnd. apply merge_sort_unique; [apply _..|].
  intros x y Hx Hy H1 H2. eapply NoDup_ids_inj; [done..|]. by apply entry_le_antisym.
Qed.

Lemma position_spec id es i :
  Agg.position id es = Some i → ∃ e, es !! i = Some e ∧ e_subnet_id e = id.
Proof.
  revert i; induction es as [|e es IH]; intros i; simpl; [done|].
  case_bool_decide as E; [intros [= <-]; eauto|].
  intros (j & Hj & ->)%fmap_Some. apply IH in Hj. done.
Qed.

Lemma position_None id es : Agg.position id es = None ↔ id ∉ ids es.
Proof.
  unfold ids. induction es as [|e es IH]; simpl; [set_solver|].
  case_bool_decide as E; [set_solver|]. rewrite fmap_None, IH. set_solver.
Qed.

Section Props.
Context `{B : Blake3}.

Lemma agg_root_loop sibs c i :
  Agg.root_loop (Bin.node_hash <$> sibs) c i = Bin.root_loop sibs c i.
Proof. revert c i; induction sibs as [|s sibs IH]; intros c i; [done|]. cbn. apply IH. Qed.

Lemma agg_root_loop_nodes sibs c i : Agg.root_loop sibs c i = Bin.root_loop (BHash <$> sibs) c i.
Proof. revert c i; induction sibs as [|s sibs IH]; intros c i; [done|]. cbn. apply IH. Qed.

Lemma node_from_digest h : h ≠ zero_hash → Bin.node_from h = BHash h.
Proof.
  intros Hz. unfold Bin.node_from, HV.is_zero. rewrite bool_decide_false; [done|].
  intros E. by apply Hz, HashValue_eq.
Qed.

(** Only the index modulo the size of the level matters. *)
Lemma root_loop_mod sibs c i :
  Bin.root_loop sibs c (i mod 2 ^ length sibs) = Bin.root_loop sibs c i.
Proof.
  revert c i; induction sibs as [|s sibs IH]; intros c i; [done|]. cbn [Bin.root_loop length].
  assert (E1 : (i mod 2 ^ S (length sibs)) mod 2 = i mod 2).
  { rewrite Nat.pow_succ_r'. rewrite (Nat.Div0.mod_mul_r i 2 (2 ^ length sibs)).
    rewrite Nat.mul_comm, Nat.Div0.mod_add. apply Nat.Div0.mod_mod. }
  assert (E2 : (i mod 2 ^ S (length sibs)) / 2 = (i / 2) mod 2 ^ length sibs).
  { rewrite Nat.pow_succ_r'. rewrite (Nat.Div0.mod_mul_r i 2 (2 ^ length sibs)).
    rewrite Nat.mul_comm, Nat.div_add by lia.
    by rewrite (Nat.div_small (i mod 2)) by (apply Nat.mod_upper_bound; lia). }
  by rewrite E1, E2, IH.
Qed.

Definition entry_nodes (es : list SubnetStateEntry) : list Node :=
  leaf_nodes Agg.entry_preimage es.

(** The strings hashed for the aggregation tree, and for a proof. *)
Definition agg_preimages (es : list SubnetStateEntry) : list bytes :=
  (Agg.entry_preimage <$> es) ++
  level_preimages (length es) (entry_nodes es).

Definition agg_proof_preimages (p : SubnetAggregationProof) : list bytes :=
  Agg.entry_preimage (ap_entry p) ::
  fold_preimages (BHash <$> ap_siblings p) (Agg.leaf_hash (ap_entry p))
    (ap_index p mod 2 ^ length (ap_siblings p)).

Lemma build_nodes es :
  no_zero_digest (Agg.entry_preimage <$> es) → Bin.node_from <$> (Agg.leaf_hash <$> es) = entry_nodes es.
Proof.
  unfold no_zero_digest. intros Hz. rewrite <-list_fmap_compose. unfold entry_nodes, leaf_nodes.
  apply list_fmap_ext. intros i e He. unfold compose. apply node_from_digest.
  rewrite list.Forall_forall in Hz. apply (Hz (Agg.entry_preimage e)).
  apply list_elem_of_fmap_2. by eapply list_elem_of_lookup_2.
Qed.

Lemma entry_preimage_inj e e' :
  Agg.entry_preimage e = Agg.entry_preimage e' →
  e_subnet_id e = e_subnet_id e' ∧ e_state_root e = e_state_root e'.
Proof. unfold Agg.entry_preimage. intros E. apply app_inv_head in E. by apply hv_app_inj. Qed.

Lemma agg_build_root es :
  es ≠ [] → no_zero_digest (Agg.entry_preimage <$> es) →
  let sorted := merge_sort Agg.entry_le es in
  entries (Agg.build es) = sorted ∧ sorted ≠ [] ∧ length sorted = length es ∧
  agg_tree (Agg.build es) = Bin.build_from_leaf_nodes (entry_nodes sorted) ∧
  global_root (Agg.build es) = Bin.root (Bin.build_from_leaf_nodes (entry_nodes sorted)).
Proof.
  intros Hne Hz sorted. unfold Agg.build. rewrite bool_decide_false by done. fold sorted.
  assert (Hp : sorted ≡ₚ es) by apply merge_sort_Permutation.
  assert (Hz' : no_zero_digest (Agg.entry_preimage <$> sorted)).
  { unfold no_zero_digest in *. by rewrite Hp. }
  cbn [entries agg_tree global_root]. unfold Bin.build_from_hashes. rewrite build_nodes by done.
  split_and!; [done| |by rewrite Hp|done|done]. intros E. rewrite E in Hp.
  by apply Permutation_nil_l in Hp.
Qed.
End Props.

(** ** Lemmas: lookup and updates *)

Section Lookup.
Context `{B : Blake3}.

Lemma agg_entries es : entries (Agg.build es) = merge_sort Agg.entry_le es.
Proof. unfold Agg.build. by case_bool_decide as E; [subst es|]. Qed.

Lemma find_entry es id e :
  NoDup (ids es) → e ∈ es → e_subnet_id e = id →
  find (fun e => bool_decide (e_subnet_id e = id)) es = Some e.
Proof.
  intros Hnd Hin Hid. destruct (find _ es) as [e'|] eqn:Ef.
  - apply find_some in Ef as [Hin' E%bool_decide_eq_true]. apply list_elem_of_In in Hin'.
    f_equal. eapply NoDup_ids_inj; [done..|congruence].
  - exfalso. apply list_elem_of_In in Hin. pose proof (find_none _ _ Ef e Hin) as E.
    by apply bool_decide_eq_false in E.
Qed.

Lemma find_no_entry es id :
  id ∉ ids es → find (fun e => bool_decide (e_subnet_id e = id)) es = None.
Proof.
  intros Hni. destruct (find _ es) as [e'|] eqn:Ef; [|done]. exfalso.
  apply find_some in Ef as [Hin' E%bool_decide_eq_true]. apply list_elem_of_In in Hin'.
  apply Hni. unfold ids. rewrite <-E. by apply list_elem_of_fmap_2.
Qed.

(** The map of a list of entries with distinct subnets. *)
Lemma to_map_lookup (es : list SubnetStateEntry) (m : gmap HashValue HashValue) id :
  NoDup (ids es) →
  foldl (fun (m : gmap HashValue HashValue) e => <[e_subnet_id e := e_state_root e]> m) m es !! id =
    match find (fun e => bool_decide (e_subnet_id e = id)) es with
    | Some e => Some (e_state_root e)
    | None => m !! id
    end.
Proof.
  revert m; induction es as [|e es IH]; intros m Hnd; simpl; [done|].
  unfold ids in Hnd. rewrite fmap_cons, list.NoDup_cons in Hnd. destruct Hnd as [Hni Hnd].
  rewrite IH by done. case_bool_decide as E.
  - subst id. rewrite find_no_entry by done. by rewrite lookup_insert_eq.
  - destruct (find _ es); [done|]. by rewrite lookup_insert_ne.
Qed.

Lemma to_map_build es id :
  NoDup (ids es) →
  Agg.to_map (Agg.build es) !! id =
    e_state_root <$> find (fun e => bool_decide (e_subnet_id e = id)) es.
Proof.
  intros Hnd. unfold Agg.to_map. rewrite agg_entries.
  assert (Hp : merge_sort Agg.entry_le es ≡ₚ es) by apply merge_sort_Permutation.
  assert (Hnd' : NoDup (ids (merge_sort Agg.entry_le es))) by (unfold ids in *; by rewrite Hp).
  rewrite to_map_lookup by done. destruct (find _ es) as [e|] eqn:Ef.
  - apply find_some in Ef as [Hin E%bool_decide_eq_true]. apply list_elem_of_In in Hin.
    by rewrite (find_entry _ id e) by (done || by rewrite Hp).
  - rewrite find_no_entry; [done|]. intros (e & -> & Hin)%list_elem_of_fmap. rewrite Hp in Hin.
    by rewrite (find_entry es _ e) in Ef.
Qed.

Lemma NoDup_ids_filter es (P : SubnetStateEntry → Prop) `{!∀ x, Decision (P x)} :
  NoDup (ids es) → NoDup (ids (filter P es)).
Proof.
  unfold ids. induction es as [|e es IH]; [done|]. rewrite fmap_cons, list.NoDup_cons.
  intros [Hni Hnd]. rewrite filter_cons. case_decide; [|by apply IH].
  rewrite fmap_cons, list.NoDup_cons. split; [|by apply IH].
  intros (e' & E & [_ ?]%list_elem_of_filter)%list_elem_of_fmap. apply Hni. rewrite E.
  by apply list_elem_of_fmap_2.
Qed.

Lemma find_app es es' f :
  find f (es ++ es') = match find f es with Some e => Some e | None => find f es' end
  :> option SubnetStateEntry.
Proof. induction es as [|e es IH]; simpl; [done|]. by destruct (f e). Qed.

Lemma find_filter_ids es i j :
  i ≠ j → find (fun e => bool_decide (e_subnet_id e = j)) (filter (fun e => e_subnet_id e ≠ i) es) =
          find (fun e => bool_decide (e_subnet_id e = j)) es.
Proof.
  intros Hne. induction es as [|e es IH]; [done|]. rewrite filter_cons. cbn [find].
  case_decide as E; cbn [find]; [by rewrite IH|]. rewrite IH.
  rewrite bool_decide_false; [done|]. congruence.
Qed.

Lemma find_perm es es' id :
  es ≡ₚ es' → NoDup (ids es) →
  find (fun e => bool_decide (e_subnet_id e = id)) es = find (fun e => bool_decide (e_subnet_id e = id)) es'.
Proof.
  intros Hp Hnd. assert (Hnd' : NoDup (ids es')) by (unfold ids in *; by rewrite <-Hp).
  destruct (find _ es') as [e|] eqn:Ef.
  - apply find_some in Ef as [Hin E%bool_decide_eq_true]. apply list_elem_of_In in Hin.
    apply find_entry; [done|by rewrite Hp|done].
  - apply find_no_entry. intros (e & -> & Hin)%list_elem_of_fmap. rewrite Hp in Hin.
    by rewrite (find_entry es' _ e) in Ef.
Qed.

Lemma agg_build_perm es es' : NoDup (ids es) → es ≡ₚ es' → Agg.build es = Agg.build es'.
Proof.
  intros Hnd Hp. destruct es as [|e es]; [apply Permutation_nil_l in Hp; by subst|].
  unfold Agg.build. rewrite (bool_decide_false (e :: es = [])) by done.
  rewrite (bool_decide_false (es' = [])) by (intros ->; by apply Permutation_nil_r in Hp).
  by rewrite (sort_entries_perm (e :: es) es' Hnd Hp).
Qed.
End Lookup.

(** ** Theorems *)

(** The global root commits to the set of subnet roots: for distinct
    subnets it does not depend on the order in which the entries are given, the
    entries are sorted with the root subnet first, and looking a subnet up
    gives its root. *)
Theorem agg_order_independent (B : Blake3) (es es' : list SubnetStateEntry)
    (Hnd : NoDup (ids es)) (Hp : es ≡ₚ es') :
  Agg.build es = Agg.build es' ∧
  Sorted Agg.entry_le (entries (Agg.build es)) ∧ entries (Agg.build es) ≡ₚ es ∧
  (∀ e, e ∈ es → Agg.get_subnet_root (Agg.build es) (e_subnet_id e) = Some (e_state_root e)) ∧
  (∀ id, id ∉ ids es → Agg.get_subnet_root (Agg.build es) id = None).
Proof.
  rewrite agg_entries.
  assert (Hpm : merge_sort Agg.entry_le es ≡ₚ es) by apply merge_sort_Permutation.
  assert (Hnd' : NoDup (ids (merge_sort Agg.entry_le es))) by (unfold ids in *; by rewrite Hpm).
  split_and!; [|apply Sorted_merge_sort; apply _|done|..].
  - by apply agg_build_perm.
  - intros e Hin. unfold Agg.get_subnet_root, Agg.get_subnet. rewrite agg_entries.
    by rewrite (find_entry _ _ e) by (done || by rewrite Hpm).
  - intros id Hni. unfold Agg.get_subnet_root, Agg.get_subnet. rewrite agg_entries.
    rewrite find_no_entry; [done|]. unfold ids in *. by rewrite Hpm.
Qed.

(** Every subnet of the tree has a proof that verifies against the global
    root and carries its state root; other subnets are refused. *)
Theorem agg_proofs_complete (B : Blake3) (es : list SubnetStateEntry) (id : HashValue)
    (Hlen : vec_len_ok es) (Hnd : NoDup (ids es))
    (Hz : no_zero_digest (Agg.entry_preimage <$> es)) (Hid : id ∈ ids es) :
  (∃ p, Agg.get_proof (Agg.build es) id = Ok p ∧ Agg.verify p (Agg.root (Agg.build es)) = Ok tt ∧
     ap_entry p ∈ es ∧ e_subnet_id (ap_entry p) = id) ∧
  (∀ id', id' ∉ ids es → Agg.get_proof (Agg.build es) id' = Err KeyNotFound).
Proof.
  assert (Hne : es ≠ []) by (intros ->; set_solver).
  destruct (agg_build_root es Hne Hz) as (He & Hsne & Hsl & Ht & Hr).
  set (sorted := merge_sort Agg.entry_le es) in *.
  assert (Hp : sorted ≡ₚ es) by apply merge_sort_Permutation.
  assert (Hpi : ids sorted ≡ₚ ids es) by (unfold ids; by rewrite Hp).
  assert (Hln : length (entry_nodes sorted) = length sorted) by apply length_fmap.
  assert (Hnn : entry_nodes sorted ≠ []) by (intros E; rewrite E in Hln; by destruct sorted).
  unfold Agg.get_proof, Agg.root, Agg.verify, Agg.compute_root. rewrite He, Ht, Hr. split.
  - destruct (Agg.position id sorted) as [i|] eqn:Ei; [|by rewrite position_None, Hpi in Ei].
    destruct (position_spec _ _ _ Ei) as (e & Hei & Hide). cbn [ok_or rbind]. rewrite Hei.
    pose proof (lookup_lt_Some _ _ _ Hei) as Hlt. rewrite get_proof_eq by lia.
    cbn [rbind bp_siblings]. eexists; split; [done|]. cbn [ap_entry ap_index ap_siblings].
    split_and!; [|rewrite <-Hp; by eapply list_elem_of_lookup_2|done].
    rewrite agg_root_loop, root_loop_path with (h := Agg.leaf_hash e); [|done|].
    + rewrite root_eq by done. by rewrite bool_decide_true.
    + unfold entry_nodes, leaf_nodes. by rewrite list_lookup_fmap, Hei.
  - intros id' Hni. rewrite <-Hpi in Hni. apply position_None in Hni as ->. done.
Qed.

(** A proof that verifies against the global root proves an entry of the
    tree: some entry of the tree has its subnet and its state root, unless the
    hashed strings collide or have the zero digest.  The index of the proof is
    not part of what is verified: it can be shifted by the size of the level. *)
Theorem agg_proofs_sound (B : Blake3) (es : list SubnetStateEntry) (p : SubnetAggregationProof)
    (Hne : es ≠ [])
    (Hcf : collision_free_on (agg_preimages (merge_sort Agg.entry_le es) ++ agg_proof_preimages p))
    (Hz : no_zero_digest (agg_preimages (merge_sort Agg.entry_le es) ++ agg_proof_preimages p))
    (Hv : Agg.verify p (Agg.root (Agg.build es)) = Ok tt) :
  (∃ e, e ∈ es ∧ e_subnet_id e = e_subnet_id (ap_entry p) ∧
     e_state_root e = e_state_root (ap_entry p)) ∧
  Agg.verify (mkAggProof (ap_entry p) (ap_index p + 2 ^ length (ap_siblings p)) (ap_siblings p))
    (Agg.root (Agg.build es)) = Ok tt.
Proof.
  set (sorted := merge_sort Agg.entry_le es) in *.
  set (U := fun x => x ∈ agg_preimages sorted ++ agg_proof_preimages p).
  assert (Hp : sorted ≡ₚ es) by apply merge_sort_Permutation.
  unfold no_zero_digest in Hz. rewrite list.Forall_forall in Hz.
  assert (Hze : no_zero_digest (Agg.entry_preimage <$> es)).
  { unfold no_zero_digest. rewrite <-Hp. apply list.Forall_forall. intros x Hx. apply Hz.
    unfold agg_preimages. set_solver. }
  destruct (agg_build_root es Hne Hze) as (_ & Hsne & _ & _ & Hr). fold sorted in Hsne, Hr.
  assert (Hln : length (entry_nodes sorted) = length sorted) by apply length_fmap.
  assert (Hnn : entry_nodes sorted ≠ []) by (intros E; rewrite E in Hln; by destruct sorted).
  unfold Agg.verify, Agg.compute_root, Agg.root in *. cbn [ap_entry ap_index ap_siblings].
  rewrite !agg_root_loop_nodes in *. rewrite <-(root_loop_mod _ _ (ap_index p + _)).
  rewrite <-(root_loop_mod _ _ (ap_index p)) in Hv. rewrite length_fmap in *.
  replace (ap_index p + 2 ^ length (ap_siblings p)) with (ap_index p + 1 * 2 ^ length (ap_siblings p)) by lia.
  rewrite Nat.Div0.mod_add. split; [|done].
  case_bool_decide as Hroot; [|done]. rewrite Hr, root_eq in Hroot by done.
  destruct (top_level (length (entry_nodes sorted)) (entry_nodes sorted)) as (k & Hk & Hsub); [done..|].
  destruct (bin_path_sound U) with (lp := Agg.entry_preimage) (sibs := BHash <$> ap_siblings p)
    (i := ap_index p mod 2 ^ length (ap_siblings p)) (k := k) (data := sorted) (leaf := ap_entry p)
    (n := top (length (entry_nodes sorted)) (entry_nodes sorted)) as (e & He & E).
  - intros x y. apply Hcf.
  - exact Hz.
  - done.
  - intros e He. unfold U, agg_preimages. rewrite !elem_of_app. do 2 left. by apply list_elem_of_fmap_2.
  - unfold U, agg_proof_preimages. set_solver.
  - intros j Hj x Hx. unfold U, agg_preimages. rewrite !elem_of_app. left. right. rewrite <-Hln. eauto.
  - intros x Hx. unfold U, agg_proof_preimages. rewrite elem_of_app. right. by apply list_elem_of_further.
  - rewrite Nat.shiftr_div_pow2, length_fmap, Nat.div_small; [done|].
    apply Nat.mod_upper_bound, Nat.pow_nonzero. lia.
  - done.
  - exists e. apply entry_preimage_inj in E as [? ?]. split; [|done]. rewrite <-Hp.
    by eapply list_elem_of_lookup_2.
Qed.

(** On a tree of distinct subnets, [update_subnet] sets the root of one
    subnet and [remove_subnet] forgets one, and the other subnets keep theirs. *)
Theorem agg_update_spec (B : Blake3) (es : list SubnetStateEntry) (entry : SubnetStateEntry)
    (id : HashValue) (Hnd : NoDup (ids es)) :
  Agg.to_map (Agg.update_subnet (Agg.build es) entry)
    = <[e_subnet_id entry := e_state_root entry]> (Agg.to_map (Agg.build es)) ∧
  Agg.to_map (Agg.remove_subnet (Agg.build es) id) = delete id (Agg.to_map (Agg.build es)).
Proof.
  unfold Agg.update_subnet, Agg.remove_subnet. rewrite agg_entries.
  set (sorted := merge_sort Agg.entry_le es).
  assert (Hp : sorted ≡ₚ es) by apply merge_sort_Permutation.
  assert (Hnd' : NoDup (ids sorted)) by (unfold ids in *; by rewrite Hp).
  assert (Hdel : ∀ i, NoDup (ids (filter (fun e => e_subnet_id e ≠ i) sorted)) ∧
            i ∉ ids (filter (fun e => e_subnet_id e ≠ i) sorted)).
  { intros i. split; [by apply NoDup_ids_filter|]. unfold ids.
    intros (e & -> & [Hne _]%list_elem_of_filter)%list_elem_of_fmap. done. }
  assert (Hfind : ∀ i j, find (fun e => bool_decide (e_subnet_id e = j))
            (filter (fun e => e_subnet_id e ≠ i) sorted) =
            if decide (i = j) then None else find (fun e => bool_decide (e_subnet_id e = j)) sorted).
  { intros i j. case_decide as E; [subst j; apply find_no_entry, Hdel|]. by apply find_filter_ids. }
  assert (Hfs : ∀ j, find (fun e => bool_decide (e_subnet_id e = j)) sorted =
                     find (fun e => bool_decide (e_subnet_id e = j)) es).
  { intros j. by apply find_perm. }
  split; apply map_eq; intros j.
  - rewrite to_map_build.
    2: { unfold ids. rewrite fmap_app, list.NoDup_app. split_and!; [apply Hdel| |apply NoDup_singleton].
         intros i Hi ->%list_elem_of_singleton. by apply (Hdel (e_subnet_id entry)). }
    rewrite find_app, Hfind. case_decide as E.
    + subst j. simpl. rewrite bool_decide_true by done. by rewrite lookup_insert_eq.
    + rewrite lookup_insert_ne, to_map_build, Hfs by done.
      destruct (find _ es); [done|]. simpl. by rewrite bool_decide_false.
  - rewrite to_map_build by apply Hdel. rewrite Hfind. case_decide as E.
    + subst j. by rewrite lookup_delete_eq.
    + rewrite lookup_delete_ne, to_map_build by done. by rewrite Hfs.
Qed.

(** ** Witnesses *)

Definition wit_entries : list SubnetStateEntry :=
  [Agg.entry_new (mkHash (Byte.x02 :: replicate 31 Byte.x00) eq_refl)
     (mkHash (replicate 32 Byte.x11) eq_refl);
   Agg.entry_new ROOT_SUBNET (mkHash (replicate 32 Byte.x22) eq_refl);
   Agg.entry_new (mkHash (Byte.x01 :: replicate 31 Byte.x00) eq_refl)
     (mkHash (replicate 32 Byte.x33) eq_refl)].

Lemma agg_order_independent_witness :
  Agg.build (H := toy_blake3) wit_entries = Agg.build (H := toy_blake3) (reverse wit_entries).
Proof.
  apply (agg_order_independent toy_blake3 wit_entries (reverse wit_entries)).
  - apply (bool_decide_unpack _). vm_compute. exact I.
  - symmetry. apply reverse_Permutation.
Defined.

Lemma agg_proofs_complete_witness :
  ∃ p, Agg.get_proof (Agg.build (H := toy_blake3) wit_entries) ROOT_SUBNET = Ok p ∧
    Agg.verify (H := toy_blake3) p (Agg.root (Agg.build (H := toy_blake3) wit_entries)) = Ok tt.
Proof.
  destruct (agg_proofs_complete toy_blake3 wit_entries ROOT_SUBNET) as [(p & Hp & Hv & _) _].
  1-4: apply (bool_decide_unpack _); vm_compute; exact I.
  exists p. split; [exact Hp|exact Hv].
Defined.

(** The proof of a tree with one subnet has no siblings. *)
Lemma agg_proofs_sound_witness :
  ∃ e, e ∈ take 1 wit_entries ∧ e_subnet_id e = mkHash (Byte.x02 :: replicate 31 Byte.x00) eq_refl.
Proof.
  destruct (agg_proofs_sound toy_blake3 (take 1 wit_entries)
              (mkAggProof (Agg.entry_new (mkHash (Byte.x02 :: replicate 31 Byte.x00) eq_refl)
                 (mkHash (replicate 32 Byte.x11) eq_refl)) 0 [])) as [(e & He & Hid & _) _].
  - discriminate.
  - apply (bool_decide_unpack _). vm_compute. exact I.
  - apply (bool_decide_unpack _). vm_compute. exact I.
  - vm_compute. reflexivity.
  - exists e. split; [exact He|exact Hid].
Defined.

Lemma agg_update_spec_witness :
  Agg.to_map (Agg.remove_subnet (H := toy_blake3) (Agg.build (H := toy_blake3) wit_entries) ROOT_SUBNET)
    = delete ROOT_SUBNET (Agg.to_map (Agg.build (H := toy_blake3) wit_entries)).
Proof.
  refine (proj2 (agg_update_spec toy_blake3 wit_entries
    (Agg.entry_new ROOT_SUBNET ROOT_SUBNET) ROOT_SUBNET _)).
  apply (bool_decide_unpack _). vm_compute. exact I.
Defined.
