(* ===== verification/MerkleStore.v ===== *)
(** * Persistence of the Merkle state

    [crates/setu-merkle/src/storage.rs]: the trait [B4Store] that the state
    manager commits to and recovers from, as a class with the laws the manager
    relies on, and [InMemoryMerkleStore], which implements it. *)

From Stdlib Require Import ZArith Lia.
From stdpp Require Import base gmap sets list sorting strings numbers.
From S2P Require Import Prelude Hash SparseMerkle.
#[local] Open Scope setu_scope.

(** ** The trait *)

(** The operations of [B4Store] and of its supertraits that a commit and a
    recovery use.  A batch accumulates writes; [commit_batch] performs them. *)
Class B4Store (St : Type) := {
  Batch : Type;
  begin_batch : St → result MerkleError Batch;
  commit_batch : Batch → stm St MerkleError unit;
  batch_put_leaves_to_batch : HashValue → list (HashValue * bytes) → Batch → result MerkleError Batch;
  batch_delete_leaves_to_batch : HashValue → list HashValue → Batch → result MerkleError Batch;
  batch_register_subnet : HashValue → Batch → result MerkleError Batch;
  batch_set_last_anchor : HashValue → Z → Batch → result MerkleError Batch;
  batch_put_subnet_root : HashValue → Z → HashValue → Batch → result MerkleError Batch;
  batch_put_global_root : Z → HashValue → Batch → result MerkleError Batch;
  list_registered_subnets : St → result MerkleError (list HashValue);
  load_all_leaves : St → HashValue → result MerkleError (gmap HashValue bytes);
  get_last_anchor : St → HashValue → result MerkleError (option Z);
  get_subnet_root : St → HashValue → Z → result MerkleError (option HashValue)
}.

(** ** The in-memory store *)

Record InMemoryMerkleStore := mkMemStore {
  im_nodes : gmap (HashValue * HashValue) SparseMerkleNode;
  im_subnet_roots : gmap (HashValue * Z) HashValue;
  im_global_roots : gmap Z HashValue;
  im_leaves : gmap (HashValue * HashValue) bytes;
  im_registered : gset HashValue;
  im_last_anchors : gmap HashValue Z;
  im_meta : gmap string bytes
}.

Record InMemoryBatch := mkMemBatch {
  leaf_upserts : list (HashValue * HashValue * bytes);
  leaf_deletes : list (HashValue * HashValue);
  subnet_registrations : list HashValue;
  b_last_anchors : list (HashValue * Z);
  b_subnet_roots : list (HashValue * Z * HashValue);
  b_global_roots : list (Z * HashValue)
}.

Module IM.

Definition new : InMemoryMerkleStore := mkMemStore ∅ ∅ ∅ ∅ ∅ ∅ ∅.

Definition set_nodes (f : gmap (HashValue * HashValue) SparseMerkleNode → gmap (HashValue * HashValue) SparseMerkleNode)
    (s : InMemoryMerkleStore) : InMemoryMerkleStore :=
  mkMemStore (f (im_nodes s)) (im_subnet_roots s) (im_global_roots s) (im_leaves s)
    (im_registered s) (im_last_anchors s) (im_meta s).
Definition set_leaves (f : gmap (HashValue * HashValue) bytes → gmap (HashValue * HashValue) bytes)
    (s : InMemoryMerkleStore) : InMemoryMerkleStore :=
  mkMemStore (im_nodes s) (im_subnet_roots s) (im_global_roots s) (f (im_leaves s))
    (im_registered s) (im_last_anchors s) (im_meta s).
Definition set_roots (f : gmap (HashValue * Z) HashValue → gmap (HashValue * Z) HashValue)
    (g : gmap Z HashValue → gmap Z HashValue) (s : InMemoryMerkleStore) : InMemoryMerkleStore :=
  mkMemStore (im_nodes s) (f (im_subnet_roots s)) (g (im_global_roots s)) (im_leaves s)
    (im_registered s) (im_last_anchors s) (im_meta s).
Definition set_registry (f : gset HashValue → gset HashValue) (g : gmap HashValue Z → gmap HashValue Z)
    (s : InMemoryMerkleStore) : InMemoryMerkleStore :=
  mkMemStore (im_nodes s) (im_subnet_roots s) (im_global_roots s) (im_leaves s)
    (f (im_registered s)) (g (im_last_anchors s)) (im_meta s).

(** *** Nodes *)
Definition node_count (s : InMemoryMerkleStore) : nat := size (im_nodes s).
Definition put_node (subnet_id hash : HashValue) (node : SparseMerkleNode) (s : InMemoryMerkleStore) :=
  set_nodes <[(subnet_id, hash) := node]> s.
Definition get_node (s : InMemoryMerkleStore) (subnet_id hash : HashValue) : option SparseMerkleNode :=
  im_nodes s !! (subnet_id, hash).
Definition has_node (s : InMemoryMerkleStore) (subnet_id hash : HashValue) : bool :=
  bool_decide (is_Some (im_nodes s !! (subnet_id, hash))).
Definition delete_node (subnet_id hash : HashValue) (s : InMemoryMerkleStore) :=
  set_nodes (delete (subnet_id, hash)) s.
Definition batch_put_nodes (subnet_id : HashValue) (ns : list (HashValue * SparseMerkleNode))
    (s : InMemoryMerkleStore) : InMemoryMerkleStore :=
  set_nodes (fun m => foldl (fun m hn => <[(subnet_id, hn.1) := hn.2]> m) m ns) s.

(** *** Roots *)
Definition put_subnet_root (subnet_id : HashValue) (anchor_id : Z) (root : HashValue)
    (s : InMemoryMerkleStore) :=
  set_roots <[(subnet_id, anchor_id) := root]> id s.
Definition put_global_root (anchor_id : Z) (root : HashValue) (s : InMemoryMerkleStore) :=
  set_roots id <[anchor_id := root]> s.
Definition get_global_root (s : InMemoryMerkleStore) (anchor_id : Z) : option HashValue :=
  im_global_roots s !! anchor_id.

(** [max_by_key] on the anchor: the last of the maxima. *)
Fixpoint max_anchor {A} (best : option (Z * A)) (l : list (Z * A)) : option (Z * A) :=
  match l with
  | [] => best
  | x :: rest =>
      match best with
      | Some b => if (x.1 <? b.1)%Z then max_anchor best rest else max_anchor (Some x) rest
      | None => max_anchor (Some x) rest
      end
  end.

Definition get_latest_subnet_root (s : InMemoryMerkleStore) (subnet_id : HashValue)
    : option (Z * HashValue) :=
  max_anchor None
    (omap (fun kv : HashValue * Z * HashValue =>
             if bool_decide (kv.1.1 = subnet_id) then Some (kv.1.2, kv.2) else None)
       (map_to_list (im_subnet_roots s))).

Definition get_latest_global_root (s : InMemoryMerkleStore) : option (Z * HashValue) :=
  max_anchor None (map_to_list (im_global_roots s)).

Definition list_anchors (s : InMemoryMerkleStore) (subnet_id : HashValue) (first last : Z) : list Z :=
  merge_sort Z.le
    (omap (fun kv : HashValue * Z * HashValue =>
             if bool_decide (kv.1.1 = subnet_id) && (first <=? kv.1.2)%Z && (kv.1.2 <=? last)%Z
             then Some kv.1.2 else None)
       (map_to_list (im_subnet_roots s))).

Definition prune_before (anchor_id : Z) (s : InMemoryMerkleStore) : InMemoryMerkleStore * nat :=
  let old_subnet := filter (fun kv : HashValue * Z * HashValue => (kv.1.2 < anchor_id)%Z) (im_subnet_roots s) in
  let old_global := filter (fun kv : Z * HashValue => (kv.1 < anchor_id)%Z) (im_global_roots s) in
  (set_roots (fun m => m ∖ old_subnet) (fun m => m ∖ old_global) s, size old_subnet + size old_global).

(** *** Leaves *)
Definition batch_put_leaves (subnet_id : HashValue) (ls : list (HashValue * bytes))
    (s : InMemoryMerkleStore) : InMemoryMerkleStore :=
  set_leaves (fun m => foldl (fun m kv => <[(subnet_id, kv.1) := kv.2]> m) m ls) s.
Definition batch_delete_leaves (subnet_id : HashValue) (ks : list HashValue)
    (s : InMemoryMerkleStore) : InMemoryMerkleStore :=
  set_leaves (fun m => foldl (fun m k => delete (subnet_id, k) m) m ks) s.

Definition load_all_leaves (s : InMemoryMerkleStore) (subnet_id : HashValue) : gmap HashValue bytes :=
  list_to_map
    (omap (fun kv : HashValue * HashValue * bytes =>
             if bool_decide (kv.1.1 = subnet_id) then Some (kv.1.2, kv.2) else None)
       (map_to_list (im_leaves s))).

Definition hash_le (a b : HashValue) : Prop := HV.leb a b = true.
#[global] Instance hash_le_dec : RelDecision hash_le.
Proof. intros a b. unfold hash_le. apply _. Defined.

Definition list_subnets (s : InMemoryMerkleStore) : list HashValue :=
  merge_sort hash_le (remove_dups ((map_to_list (im_leaves s)).*1.*1)).
Definition get_leaf (s : InMemoryMerkleStore) (subnet_id object_id : HashValue) : option bytes :=
  im_leaves s !! (subnet_id, object_id).
Definition has_leaf (s : InMemoryMerkleStore) (subnet_id object_id : HashValue) : bool :=
  bool_decide (is_Some (im_leaves s !! (subnet_id, object_id))).
Definition leaf_count (s : InMemoryMerkleStore) (subnet_id : HashValue) : nat :=
  size (filter (fun kv : HashValue * HashValue * bytes => kv.1.1 = subnet_id) (im_leaves s)).

(** *** Metadata *)
Definition register_subnet (subnet_id : HashValue) (s : InMemoryMerkleStore) :=
  set_registry (fun r => {[subnet_id]} ∪ r) id s.
Definition unregister_subnet (subnet_id : HashValue) (s : InMemoryMerkleStore) :=
  set_registry (fun r => r ∖ {[subnet_id]}) id s.
Definition is_subnet_registered (s : InMemoryMerkleStore) (subnet_id : HashValue) : bool :=
  bool_decide (subnet_id ∈ im_registered s).
Definition list_registered_subnets (s : InMemoryMerkleStore) : list HashValue :=
  merge_sort hash_le (elements (im_registered s)).
Definition set_last_anchor (subnet_id : HashValue) (anchor_id : Z) (s : InMemoryMerkleStore) :=
  set_registry id <[subnet_id := anchor_id]> s.
Definition set_meta (key : string) (value : bytes) (s : InMemoryMerkleStore) :=
  mkMemStore (im_nodes s) (im_subnet_roots s) (im_global_roots s) (im_leaves s)
    (im_registered s) (im_last_anchors s) (<[key := value]> (im_meta s)).
Definition get_meta (s : InMemoryMerkleStore) (key : string) : option bytes := im_meta s !! key.

(** *** Batches *)
Definition batch_new : InMemoryBatch := mkMemBatch [] [] [] [] [] [].

(** [commit_batch]: leaf upserts, leaf deletes, registrations, anchors, roots. *)
Definition commit_batch (b : InMemoryBatch) (s : InMemoryMerkleStore) : InMemoryMerkleStore :=
  mkMemStore (im_nodes s)
    (foldl (fun m r => <[(r.1.1, r.1.2) := r.2]> m) (im_subnet_roots s) (b_subnet_roots b))
    (foldl (fun m r => <[r.1 := r.2]> m) (im_global_roots s) (b_global_roots b))
    (foldl (fun m k => delete k m)
       (foldl (fun m u => <[u.1 := u.2]> m) (im_leaves s) (leaf_upserts b)) (leaf_deletes b))
    (foldl (fun r i => {[i]} ∪ r) (im_registered s) (subnet_registrations b))
    (foldl (fun m a => <[a.1 := a.2]> m) (im_last_anchors s) (b_last_anchors b))
    (im_meta s).

Definition b_put_leaves (subnet_id : HashValue) (ls : list (HashValue * bytes)) (b : InMemoryBatch) :=
  mkMemBatch (leaf_upserts b ++ ((fun kv => ((subnet_id, kv.1), kv.2)) <$> ls)) (leaf_deletes b)
    (subnet_registrations b) (b_last_anchors b) (b_subnet_roots b) (b_global_roots b).
Definition b_delete_leaves (subnet_id : HashValue) (ks : list HashValue) (b : InMemoryBatch) :=
  mkMemBatch (leaf_upserts b) (leaf_deletes b ++ ((fun k => (subnet_id, k)) <$> ks))
    (subnet_registrations b) (b_last_anchors b) (b_subnet_roots b) (b_global_roots b).
Definition b_register (subnet_id : HashValue) (b : InMemoryBatch) :=
  mkMemBatch (leaf_upserts b) (leaf_deletes b) (subnet_registrations b ++ [subnet_id])
    (b_last_anchors b) (b_subnet_roots b) (b_global_roots b).
Definition b_set_last_anchor (subnet_id : HashValue) (anchor_id : Z) (b : InMemoryBatch) :=
  mkMemBatch (leaf_upserts b) (leaf_deletes b) (subnet_registrations b)
    (b_last_anchors b ++ [(subnet_id, anchor_id)]) (b_subnet_roots b) (b_global_roots b).
Definition b_put_subnet_root (subnet_id : HashValue) (anchor_id : Z) (root : HashValue) (b : InMemoryBatch) :=
  mkMemBatch (leaf_upserts b) (leaf_deletes b) (subnet_registrations b) (b_last_anchors b)
    (b_subnet_roots b ++ [(subnet_id, anchor_id, root)]) (b_global_roots b).
Definition b_put_global_root (anchor_id : Z) (root : HashValue) (b : InMemoryBatch) :=
  mkMemBatch (leaf_upserts b) (leaf_deletes b) (subnet_registrations b) (b_last_anchors b)
    (b_subnet_roots b) (b_global_roots b ++ [(anchor_id, root)]).
End IM.

#[global] Instance InMemoryMerkleStore_b4 : B4Store InMemoryMerkleStore := {|
  Batch := InMemoryBatch;
  begin_batch _ := Ok IM.batch_new;
  commit_batch b s := (IM.commit_batch b s, Ok tt);
  batch_put_leaves_to_batch i ls b := Ok (IM.b_put_leaves i ls b);
  batch_delete_leaves_to_batch i ks b := Ok (IM.b_delete_leaves i ks b);
  batch_register_subnet i b := Ok (IM.b_register i b);
  batch_set_last_anchor i a b := Ok (IM.b_set_last_anchor i a b);
  batch_put_subnet_root i a r b := Ok (IM.b_put_subnet_root i a r b);
  batch_put_global_root a r b := Ok (IM.b_put_global_root a r b);
  list_registered_subnets s := Ok (IM.list_registered_subnets s);
  load_all_leaves s i := Ok (IM.load_all_leaves s i);
  get_last_anchor s i := Ok (im_last_anchors s !! i);
  get_subnet_root s i a := Ok (im_subnet_roots s !! (i, a))
|}.
