(* ===== verification/StateManager.v ===== *)
(** * The global state manager

    [storage/src/state/manager.rs]: one incremental sparse Merkle tree per
    subnet, indexes of objects by owner, and the tracker of the last event that
    modified an object.  [apply_committed_events] is the only way consensus
    changes state; [commit] persists the dirty leaves, [recover] reloads them.

    [Panic] is a failed assertion inside the tree (see [SparseMerkle]); the BCS
    codec of the stored values is a parameter.  Waking the waiters of the
    version watcher has no effect on the state and is not modelled. *)

From Stdlib Require Import ZArith Lia Strings.Byte.
From stdpp Require Import base gmap sets list sorting strings numbers.
From S2P Require Import Prelude Hash Vlc Event Coin StateStore SparseMerkle MerkleStore Aggregation BinaryMerkle.
#[local] Open Scope setu_scope.

(** ** Strings *)

(** [str::strip_prefix]. *)
Fixpoint strip_prefix (p s : string) : option string :=
  match p, s with
  | EmptyString, _ => Some s
  | String c p', String c' s' => if bool_decide (c = c') then strip_prefix p' s' else None
  | String _ _, EmptyString => None
  end.

Definition starts_with (s p : string) : bool := bool_decide (is_Some (strip_prefix p s)).

(** What follows the first ([str::find]) or the last ([rsplit]) occurrence of [p]. *)
Fixpoint after_first (p s : string) : option string :=
  match strip_prefix p s with
  | Some rest => Some rest
  | None => match s with EmptyString => None | String _ s' => after_first p s' end
  end.

Fixpoint after_last (p s : string) : option string :=
  match s with
  | EmptyString => strip_prefix p s
  | String _ s' =>
      match after_last p s' with
      | Some rest => Some rest
      | None => strip_prefix p s
      end
  end.

(** What precedes the last occurrence of a character ([rfind]). *)
Fixpoint before_last (c : Ascii.ascii) (s : string) : option string :=
  match s with
  | EmptyString => None
  | String c' s' =>
      match before_last c s' with
      | Some pre => Some (String c' pre)
      | None => if bool_decide (c = c') then Some EmptyString else None
      end
  end.

(** [extract_coin_type_from_tag]: the type argument of a coin tag, without its
    path; [None] for an empty argument or one not closed after it opens. *)
Definition extract_coin_type_from_tag (tag : string) : option string :=
  match after_first "::coin::Coin<" tag with
  | None => None
  | Some rest =>
      match before_last (Ascii.ascii_of_N 62) rest with
      | None => None
      | Some EmptyString => None
      | Some inner => Some (default inner (after_last "::" inner))
      end
  end.

(** ** Storage formats *)

(** BCS decoding of the two formats of stored values. *)
Class StateBcs := {
  bcs_envelope_de : bytes → option ObjectEnvelope;
  bcs_coin_state_de : bytes → option CoinState
}.

Inductive StorageFormat :=
| Envelope (env : ObjectEnvelope)
| LegacyCoinState (cs : CoinState)
| UnknownFormat.

Definition detect_and_parse `{StateBcs} (b : bytes) : StorageFormat :=
  let envelope :=
    match b with
    | b0 :: b1 :: _ =>
        let magic := (Z.of_N (Byte.to_N b0) + 256 * Z.of_N (Byte.to_N b1))%Z in
        if (magic =? ENVELOPE_MAGIC)%Z then bcs_envelope_de b else None
    | _ => None
    end in
  match envelope with
  | Some env => Envelope env
  | None =>
      match bcs_coin_state_de b with
      | Some cs => LegacyCoinState cs
      | None => UnknownFormat
      end
  end.

(** ** One subnet *)

Record SubnetStateSMT := mkSubnet {
  ss_subnet_id : SubnetId;
  ss_tree : IncrementalSparseMerkleTree;
  object_count : Z;
  last_updated_anchor : Z
}.

Module SS.
Section SS.
Context `{Blake3}.

Definition new (subnet_id : SubnetId) : SubnetStateSMT := mkSubnet subnet_id Ismt.new 0 0.

Definition get (s : SubnetStateSMT) (object_id : HashValue) : option bytes := Ismt.get (ss_tree s) object_id.
Definition root (s : SubnetStateSMT) : HashValue := Ismt.root (ss_tree s).
Definition prove (s : SubnetStateSMT) (object_id : HashValue) : SparseMerkleProof :=
  Ismt.get_proof (ss_tree s) object_id.
Definition is_empty (s : SubnetStateSMT) : bool := (object_count s =? 0)%Z.
Definition has_pending_changes (s : SubnetStateSMT) : bool := Ismt.has_pending_changes (ss_tree s).
Definition all_objects (s : SubnetStateSMT) : list (HashValue * bytes) := Ismt.iter_leaves (ss_tree s).

Definition upsert (s : SubnetStateSMT) (object_id : HashValue) (value : bytes)
    : SubnetStateSMT * HashValue :=
  let count :=
    match Ismt.get (ss_tree s) object_id with
    | None => u64_add (object_count s) 1
    | Some _ => object_count s
    end in
  let t := (Ismt.insert (ss_tree s) object_id value).1 in
  (mkSubnet (ss_subnet_id s) t count (last_updated_anchor s), Ismt.root t).

Definition delete (s : SubnetStateSMT) (object_id : HashValue)
    : result MerkleError (SubnetStateSMT * option bytes) :=
  let? (t, removed) := Ismt.remove (ss_tree s) object_id in
  let count :=
    match removed with
    | Some _ => saturating_sub (object_count s) 1
    | None => object_count s
    end in
  Ok (mkSubnet (ss_subnet_id s) t count (last_updated_anchor s), removed).

Definition batch_update (s : SubnetStateSMT) (updates : list (HashValue * bytes))
    : SubnetStateSMT * HashValue :=
  let s' := foldl (fun s kv => (upsert s kv.1 kv.2).1) s updates in
  (s', root s').

Definition set_last_anchor (s : SubnetStateSMT) (anchor_id : Z) : SubnetStateSMT :=
  mkSubnet (ss_subnet_id s) (ss_tree s) (object_count s) anchor_id.

Definition take_changes (s : SubnetStateSMT) : SubnetStateSMT * LeafChanges :=
  let '(t, changes) := Ismt.take_changes (ss_tree s) in
  (mkSubnet (ss_subnet_id s) t (object_count s) (last_updated_anchor s), changes).

Definition from_persisted_leaves (subnet_id : SubnetId) (ls : gmap HashValue bytes) : SubnetStateSMT :=
  let t := Ismt.from_leaves ls in
  mkSubnet subnet_id t (Z.of_nat (Ismt.leaf_count t)) 0.

(** The derived [Clone]: the tree's clone resets its dirty tracking. *)
Definition clone (s : SubnetStateSMT) : SubnetStateSMT :=
  mkSubnet (ss_subnet_id s) (Ismt.clone (ss_tree s)) (object_count s) (last_updated_anchor s).
End SS.
End SS.

(** ** The manager *)

Record ConflictRecord := mkConflict { cr_event_id : EventId; conflicting_object : string }.

Record SubnetApplyStats := mkStats {
  event_count : nat;
  change_count : nat;
  event_ids : list EventId;
  final_root : HashValue
}.

Record StateApplySummary := mkSummary {
  subnet_stats : gmap SubnetId SubnetApplyStats;
  failed_events : list EventId;
  conflicted_events : list ConflictRecord;
  total_events : nat;
  total_changes : nat
}.

Inductive ApplyResult :=
| Updated (object_id new_root : HashValue)
| Deleted (object_id : HashValue) (existed : bool).

Record AnchorMerkleRoots := mkRoots {
  events_root : HashValue;
  global_state_root : HashValue;
  anchor_chain_root : HashValue;
  subnet_roots : gmap SubnetId HashValue
}.

(** The store is a parameter; [St] is the type of its contents. *)
Record GlobalStateManager (St : Type) := mkGsm {
  subnet_states : gmap SubnetId SubnetStateSMT;
  gs_store : option St;
  current_anchor : Z;
  coin_type_index : gmap string (gset string);
  owner_object_index : gmap string (gset (HashValue * string));
  modification_tracker : gmap HashValue (EventId * Z);
  last_finalized_depth : Z
}.
Arguments mkGsm {St}.
Arguments subnet_states {St} _.
Arguments gs_store {St} _.
Arguments current_anchor {St} _.
Arguments coin_type_index {St} _.
Arguments owner_object_index {St} _.
Arguments modification_tracker {St} _.
Arguments last_finalized_depth {St} _.

(** The order in which events are applied: logical time, then event id. *)
Definition event_le (a b : Event) : Prop :=
  (logical_time (vlc_snapshot a) < logical_time (vlc_snapshot b))%Z ∨
  logical_time (vlc_snapshot a) = logical_time (vlc_snapshot b) ∧
  HV.bytes_leb (as_bytes (ev_id a)) (as_bytes (ev_id b)) = true.

#[global] Instance event_le_dec : RelDecision event_le.
Proof. intros a b. unfold event_le. apply _. Defined.

Module Summary.
Definition new : StateApplySummary := mkSummary ∅ [] [] 0 0.

Definition record_failed (sm : StateApplySummary) (id : EventId) : StateApplySummary :=
  mkSummary (subnet_stats sm) (failed_events sm ++ [id]) (conflicted_events sm)
    (total_events sm) (total_changes sm).

Definition record_conflict (sm : StateApplySummary) (id : EventId) (key : string) : StateApplySummary :=
  mkSummary (subnet_stats sm) (failed_events sm) (conflicted_events sm ++ [mkConflict id key])
    (total_events sm) (total_changes sm).

Definition record_event (sm : StateApplySummary) (subnet : SubnetId) (id : EventId)
    (changes_count : nat) (new_root : HashValue) : StateApplySummary :=
  let stats := default (mkStats 0 0 [] zero_hash) (subnet_stats sm !! subnet) in
  mkSummary
    (<[subnet := mkStats (S (event_count stats)) (change_count stats + changes_count)
                   (event_ids stats ++ [id]) new_root]> (subnet_stats sm))
    (failed_events sm) (conflicted_events sm) (S (total_events sm)) (total_changes sm + changes_count).

Definition subnets_updated (sm : StateApplySummary) : nat := size (subnet_stats sm).
End Summary.

Module GS.
Section GS.
Context `{Blake3} `{HexCrate} `{StateBcs} {St : Type}.

Abbreviation GSM := (GlobalStateManager St).

Definition set_subnets (f : gmap SubnetId SubnetStateSMT → gmap SubnetId SubnetStateSMT) (s : GSM) : GSM :=
  mkGsm (f (subnet_states s)) (gs_store s) (current_anchor s) (coin_type_index s)
    (owner_object_index s) (modification_tracker s) (last_finalized_depth s).
Definition set_indexes (ct : gmap string (gset string)) (oo : gmap string (gset (HashValue * string)))
    (s : GSM) : GSM :=
  mkGsm (subnet_states s) (gs_store s) (current_anchor s) ct oo (modification_tracker s)
    (last_finalized_depth s).
Definition set_tracker (f : gmap HashValue (EventId * Z) → gmap HashValue (EventId * Z)) (s : GSM) : GSM :=
  mkGsm (subnet_states s) (gs_store s) (current_anchor s) (coin_type_index s)
    (owner_object_index s) (f (modification_tracker s)) (last_finalized_depth s).
Definition set_depth (d : Z) (s : GSM) : GSM :=
  mkGsm (subnet_states s) (gs_store s) (current_anchor s) (coin_type_index s)
    (owner_object_index s) (modification_tracker s) d.

Definition new : GSM :=
  mkGsm (<[SUBNET_GOVERNANCE := SS.new SUBNET_GOVERNANCE]> {[ SUBNET_ROOT := SS.new SUBNET_ROOT ]})
    None 0 ∅ ∅ ∅ 0.

Definition with_store (store : St) : GSM :=
  mkGsm (subnet_states new) (Some store) 0 ∅ ∅ ∅ 0.

(** [Clone]: for temporary computations; no store, no indexes. *)
Definition clone (s : GSM) : GSM :=
  mkGsm (SS.clone <$> subnet_states s) None (current_anchor s) ∅ ∅ ∅ (last_finalized_depth s).

Definition clone_for_read_snapshot (s : GSM) : GSM :=
  mkGsm (SS.clone <$> subnet_states s) None (current_anchor s) (coin_type_index s)
    (owner_object_index s) (modification_tracker s) (last_finalized_depth s).

(** [get_subnet_mut]: the subnet, created when absent. *)
Definition subnet_or_new (s : GSM) (subnet : SubnetId) : SubnetStateSMT :=
  default (SS.new subnet) (subnet_states s !! subnet).
Definition get_subnet_mut (s : GSM) (subnet : SubnetId) : GSM * SubnetStateSMT :=
  let smt := subnet_or_new s subnet in
  (set_subnets <[subnet := smt]> s, smt).

Definition get_subnet (s : GSM) (subnet : SubnetId) : option SubnetStateSMT := subnet_states s !! subnet.
Definition get_subnet_root (s : GSM) (subnet : SubnetId) : option HashValue :=
  SS.root <$> subnet_states s !! subnet.
Definition has_subnet (s : GSM) (subnet : SubnetId) : bool := bool_decide (is_Some (subnet_states s !! subnet)).
Definition subnet_count (s : GSM) : nat := size (subnet_states s).
Definition subnet_ids (s : GSM) : list SubnetId := (map_to_list (subnet_states s)).*1.

Definition remove_subnet (s : GSM) (subnet : SubnetId) : GSM * bool :=
  if bool_decide (subnet = SUBNET_ROOT) then (s, false)
  else (set_subnets (delete subnet) s, has_subnet s subnet).

Definition upsert_object (s : GSM) (subnet : SubnetId) (object_id : HashValue) (value : bytes)
    : GSM * HashValue :=
  let '(smt, root) := SS.upsert (subnet_or_new s subnet) object_id value in
  (set_subnets <[subnet := smt]> s, root).

Definition has_pending_changes (s : GSM) : bool :=
  existsb (fun kv => SS.has_pending_changes kv.2) (map_to_list (subnet_states s)).

Definition total_pending_changes (s : GSM) : nat * nat :=
  foldl (fun (acc : nat * nat) kv =>
           (acc.1 + Ismt.pending_upsert_count (ss_tree kv.2),
            acc.2 + Ismt.pending_delete_count (ss_tree kv.2))%nat)
    (0%nat, 0%nat) (map_to_list (subnet_states s)).

(** *** Roots *)

Definition compute_global_root (s : GSM) : HashValue * gmap SubnetId HashValue :=
  let es := (fun kv => Agg.entry_new kv.1 (SS.root kv.2)) <$> map_to_list (subnet_states s) in
  if bool_decide (es = []) then (zero_hash, ∅)
  else (Agg.root (Agg.build es), SS.root <$> subnet_states s).

Definition build_anchor_roots (s : GSM) (ev_root chain_root : HashValue) : AnchorMerkleRoots :=
  let '(groot, sroots) := compute_global_root s in
  mkRoots ev_root groot chain_root sroots.

(** *** Keys *)

(** [parse_state_change_key]: an object id in hexadecimal, or the hash of the key. *)
Definition parse_state_change_key (key : string) : HashValue :=
  match strip_prefix "oid:" key with
  | Some hex_str =>
      match hex_decode hex_str with
      | Some b => default (blake3 (as_bytes key)) (hash_of_bytes b)
      | None => blake3 (as_bytes key)
      end
  | None => blake3 (as_bytes key)
  end.

(** *** Indexes *)

(** [entry(k).or_default().insert(v)]. *)
Definition index_add {V} `{Countable V} (k : string) (v : V) (m : gmap string (gset V))
    : gmap string (gset V) :=
  <[k := {[v]} ∪ default ∅ (m !! k)]> m.

(** Remove from a set of the index, and the set when it becomes empty. *)
Definition index_drop {V} `{Countable V} (k : string) (v : V) (m : gmap string (gset V))
    : gmap string (gset V) :=
  match m !! k with
  | Some set =>
      let set' := set ∖ {[v]} in
      if bool_decide (set' = ∅) then delete k m else <[k := set']> m
  | None => m
  end.

(** Keys that do not name objects are not indexed. *)
Definition is_metadata_key (key : string) : bool :=
  starts_with key "mod:" || starts_with key "user:" || starts_with key "solver:"
  || starts_with key "validator:" || starts_with key "event:" || starts_with key "linkage:".

Definition update_indexes_for_value (s : GSM) (object_id : HashValue) (value : bytes) (key : string) : GSM :=
  if is_metadata_key key then s
  else
    match detect_and_parse value with
    | Envelope env =>
        let owner := show_id (em_owner (env_metadata env)) in
        let oo := index_add owner (object_id, type_tag env) (owner_object_index s) in
        match extract_coin_type_from_tag (type_tag env) with
        | Some ct => set_indexes (index_add owner ct (coin_type_index s)) oo s
        | None => set_indexes (coin_type_index s) oo s
        end
    | LegacyCoinState cs =>
        set_indexes (index_add (cs_owner cs) (cs_coin_type cs) (coin_type_index s))
          (index_add (cs_owner cs) (object_id, cs_coin_type cs) (owner_object_index s)) s
    | UnknownFormat => s
    end.

Definition remove_from_indexes_for_value (s : GSM) (object_id : HashValue) (old : bytes) : GSM :=
  match detect_and_parse old with
  | Envelope env =>
      set_indexes (coin_type_index s)
        (index_drop (show_id (em_owner (env_metadata env))) (object_id, type_tag env)
           (owner_object_index s)) s
  | LegacyCoinState cs =>
      set_indexes (coin_type_index s)
        (index_drop (cs_owner cs) (object_id, cs_coin_type cs) (owner_object_index s)) s
  | UnknownFormat => s
  end.

Definition resolve_address (address : string) : string := show_id (address_normalize address).

Definition get_coin_types_for_address (s : GSM) (address : string) : gset string :=
  default ∅ (coin_type_index s !! resolve_address address).

Definition register_coin_type (s : GSM) (address coin_ty : string) : GSM :=
  set_indexes (index_add (resolve_address address) coin_ty (coin_type_index s)) (owner_object_index s) s.

Definition register_coin_object (s : GSM) (address coin_ty : string) (object_id : HashValue) : GSM :=
  let canonical := resolve_address address in
  let s := register_coin_type s canonical coin_ty in
  set_indexes (coin_type_index s)
    (index_add canonical (object_id, coin_ty) (owner_object_index s)) s.

Definition get_coin_objects_for_address (s : GSM) (address : string) : list (HashValue * string) :=
  default [] (elements <$> owner_object_index s !! resolve_address address).

(** The owner, tag and coin type under which a value is indexed. *)
Definition index_entry (value : bytes) : option (string * string * option string) :=
  match detect_and_parse value with
  | Envelope env =>
      Some (show_id (em_owner (env_metadata env)), type_tag env, extract_coin_type_from_tag (type_tag env))
  | LegacyCoinState cs => Some (cs_owner cs, cs_coin_type cs, Some (cs_coin_type cs))
  | UnknownFormat => None
  end.

Definition iter_all_objects (s : GSM) : list (SubnetId * HashValue * bytes) :=
  concat ((fun kv => (fun ov => (kv.1, ov.1, ov.2)) <$> SS.all_objects kv.2) <$> map_to_list (subnet_states s)).

Definition rebuild_coin_type_index (s : GSM) : GSM * nat :=
  let object_data :=
    omap (fun o : SubnetId * HashValue * bytes =>
            (fun e => (e.1.1, e.1.2, o.1.2, e.2)) <$> index_entry o.2) (iter_all_objects s) in
  let '(ct, oo) :=
    foldl (fun (ix : gmap string (gset string) * gmap string (gset (HashValue * string)))
               (d : string * string * HashValue * option string) =>
             let '(owner, tag, object_id, coin_ty) := d in
             (match coin_ty with Some c => index_add owner c ix.1 | None => ix.1 end,
              index_add owner (object_id, tag) ix.2))
      (∅, ∅) object_data in
  (set_indexes ct oo s, map_sum (fun _ set => size set) oo).

Definition coin_type_index_stats (s : GSM) : nat * nat :=
  (size (coin_type_index s), map_sum (fun _ set => size set) (coin_type_index s)).

(** *** Modification tracking *)

Definition get_last_modifying_event (s : GSM) (object_id : HashValue) : option EventId :=
  fst <$> modification_tracker s !! object_id.
Definition get_last_modifying_event_depth (s : GSM) (object_id : HashValue) : option (EventId * Z) :=
  modification_tracker s !! object_id.
Definition record_modification (s : GSM) (event_id : EventId) (object_id : HashValue) (depth : Z) : GSM :=
  set_tracker <[object_id := (event_id, depth)]> s.

(** *** State changes *)

Definition apply_state_change (s : GSM) (subnet : SubnetId) (change : StateChange)
    : result MerkleError (GSM * ApplyResult) :=
  let object_id := parse_state_change_key (sc_key change) in
  match new_value change with
  | Some value =>
      let '(s1, smt) := get_subnet_mut s subnet in
      let '(smt', root) := SS.upsert smt object_id value in
      let s2 := set_subnets <[subnet := smt']> s1 in
      let s3 :=
        match old_value change with
        | Some old => remove_from_indexes_for_value s2 object_id old
        | None => s2
        end in
      let s4 := update_indexes_for_value s3 object_id value (sc_key change) in
      Ok (s4, Updated object_id root)
  | None =>
      let '(s1, effective_old) :=
        match old_value change with
        | Some old => (s, Some old)
        | None => let '(s1, smt) := get_subnet_mut s subnet in (s1, SS.get smt object_id)
        end in
      let s2 :=
        match effective_old with
        | Some old => remove_from_indexes_for_value s1 object_id old
        | None => s1
        end in
      let '(s3, smt) := get_subnet_mut s2 subnet in
      let? (smt', removed) := SS.delete smt object_id in
      Ok (set_subnets <[subnet := smt']> s3, Deleted object_id (bool_decide (is_Some removed)))
  end.

(** The target of a change: its own subnet, or the one of the event. *)
Definition change_target (subnet : SubnetId) (change : StateChange) : SubnetId :=
  default subnet (target_subnet change).

Fixpoint apply_changes (s : GSM) (subnet : SubnetId) (changes : list StateChange)
    : result MerkleError GSM :=
  match changes with
  | [] => Ok s
  | change :: rest =>
      let? (s', _) := apply_state_change s (change_target subnet change) change in
      apply_changes s' subnet rest
  end.

Definition apply_execution_result (s : GSM) (subnet : SubnetId) (res : ExecutionResult)
    : result MerkleError (GSM * HashValue) :=
  let? s' := apply_changes s subnet (state_changes res) in
  let '(s'', smt) := get_subnet_mut s' subnet in
  Ok (s'', SS.root smt).

Abbreviation Pending := (gmap (SubnetId * HashValue) (option bytes)).

(** The conflict check of one event, change by change; [Some key] is the first
    conflicting key.  Looking a value up creates an absent subnet. *)
Fixpoint check_changes (s : GSM) (subnet : SubnetId) (pending_writes : Pending)
    (changes : list StateChange) : GSM * option string :=
  match changes with
  | [] => (s, None)
  | change :: rest =>
      let target := change_target subnet change in
      let object_id := parse_state_change_key (sc_key change) in
      let '(s1, conflict) :=
        match old_value change with
        | Some expected_old =>
            let '(s1, effective_current) :=
              match pending_writes !! (target, object_id) with
              | Some p => (s, p)
              | None => let '(s1, smt) := get_subnet_mut s target in (s1, SS.get smt object_id)
              end in
            (s1, negb (bool_decide (effective_current = Some expected_old)))
        | None =>
            match new_value change with
            | Some _ =>
                let exists_in_pending :=
                  match pending_writes !! (target, object_id) with
                  | Some (Some _) => true
                  | _ => false
                  end in
                let '(s1, smt) := get_subnet_mut s target in
                let exists_in_smt := bool_decide (is_Some (SS.get smt object_id)) in
                (s1, exists_in_pending || exists_in_smt)
            | None => (s, false)
            end
        end in
      if (conflict : bool) then (s1, Some (sc_key change))
      else check_changes s1 subnet (<[(target, object_id) := new_value change]> pending_writes) rest
  end.

(** The body of the loop of [apply_committed_events]. *)
Definition apply_event (finalized_depth : Z) (st : GSM * StateApplySummary) (event : Event)
    : result MerkleError (GSM * StateApplySummary) :=
  let '(s, summary) := st in
  let subnet := get_subnet_id event in
  match execution_result event with
  | None => Ok (s, summary)
  | Some res =>
      if negb (er_success res) then Ok (s, Summary.record_failed summary (ev_id event))
      else
        match check_changes s subnet ∅ (state_changes res) with
        | (s1, Some key) => Ok (s1, Summary.record_conflict summary (ev_id event) key)
        | (s1, None) =>
            let? (s2, new_root) := apply_execution_result s1 subnet res in
            let s3 :=
              set_tracker (fun m =>
                foldl (fun m change =>
                  <[parse_state_change_key (sc_key change) := (ev_id event, finalized_depth)]> m)
                  m (state_changes res)) s2 in
            Ok (s3, Summary.record_event summary subnet (ev_id event)
                      (length (state_changes res)) new_root)
        end
  end.

Fixpoint apply_events (finalized_depth : Z) (st : GSM * StateApplySummary) (evs : list Event)
    : result MerkleError (GSM * StateApplySummary) :=
  match evs with
  | [] => Ok st
  | e :: rest => let? st' := apply_event finalized_depth st e in apply_events finalized_depth st' rest
  end.

Definition apply_committed_events (s : GSM) (evs : list Event) (finalized_depth : Z)
    : result MerkleError (GSM * StateApplySummary) :=
  let s := set_depth (Z.max (last_finalized_depth s) finalized_depth) s in
  apply_events finalized_depth (s, Summary.new) (merge_sort event_le evs).
End GS.

(** *** Persistence *)
Section Persist.
Context `{Blake3} {St : Type} `{B4Store St}.

(** The writes of one subnet to the batch; the subnet's changes are taken. *)
Definition commit_subnet (anchor_id : Z) (subnet : SubnetId) (smt : SubnetStateSMT) (b : Batch)
    : SubnetStateSMT * result MerkleError Batch :=
  let '(smt', r) :=
    if SS.has_pending_changes smt then
      let '(smt', changes) := SS.take_changes smt in
      (smt',
       let? b1 := if bool_decide (upserts changes = []) then Ok b
                  else batch_put_leaves_to_batch subnet (upserts changes) b in
       if bool_decide (deletes changes = []) then Ok b1
       else batch_delete_leaves_to_batch subnet (deletes changes) b1)
    else (smt, Ok b) in
  (smt',
   let? b1 := r in
   let? b2 := if (0 <? object_count smt')%Z then batch_register_subnet subnet b1 else Ok b1 in
   let? b3 := batch_put_subnet_root subnet anchor_id (SS.root smt') b2 in
   batch_set_last_anchor subnet anchor_id b3).

(** The loop over the subnets; an error stops it, with the changes of the
    subnets visited so far taken. *)
Fixpoint commit_subnets (anchor_id : Z) (l : list (SubnetId * SubnetStateSMT)) (b : Batch)
    (acc : gmap SubnetId SubnetStateSMT) : gmap SubnetId SubnetStateSMT * result MerkleError Batch :=
  match l with
  | [] => (acc, Ok b)
  | (subnet, smt) :: rest =>
      let '(smt', r) := commit_subnet anchor_id subnet smt b in
      let acc' := <[subnet := smt']> acc in
      match r with
      | Ok b' => commit_subnets anchor_id rest b' acc'
      | Err e => (acc', Err e)
      | Panic => (acc', Panic)
      end
  end.

Definition set_store (st : option St) (anchor : Z) (s : GlobalStateManager St) : GlobalStateManager St :=
  mkGsm (subnet_states s) st anchor (coin_type_index s)
    (owner_object_index s) (modification_tracker s) (last_finalized_depth s).

Definition commit (anchor_id : Z) : stm (GlobalStateManager St) MerkleError unit := fun s =>
  let s1 := set_subnets (fmap (fun smt => SS.set_last_anchor smt anchor_id)) s in
  match gs_store s1 with
  | None => (set_store None anchor_id s1, Ok tt)
  | Some store =>
      match begin_batch store with
      | Err e => (s1, Err e)
      | Panic => (s1, Panic)
      | Ok b0 =>
          let '(subnets, r) :=
            commit_subnets anchor_id (map_to_list (subnet_states s1)) b0 (subnet_states s1) in
          let s2 := set_subnets (fun _ => subnets) s1 in
          match (let? b := r in batch_put_global_root anchor_id (compute_global_root s2).1 b) with
          | Err e => (s2, Err e)
          | Panic => (s2, Panic)
          | Ok b =>
              match commit_batch b store with
              | (store', Ok _) => (set_store (Some store') anchor_id s2, Ok tt)
              | (store', Err e) => (set_store (Some store') (current_anchor s2) s2, Err e)
              | (store', Panic) => (set_store (Some store') (current_anchor s2) s2, Panic)
              end
          end
      end
  end.

Record RecoverySummary := mkRecovery {
  subnets_recovered : nat;
  total_leaves : nat;
  root_mismatches : nat
}.

(** One round of the loop of [recover]. *)
Definition recover_subnet (store : St) (st : GlobalStateManager St * RecoverySummary) (subnet : SubnetId)
    : result MerkleError (GlobalStateManager St * RecoverySummary) :=
  let '(s, summary) := st in
  let? ls := load_all_leaves store subnet in
  let leaf_count := size ls in
  if (leaf_count =? 0)%nat then Ok (s, summary)
  else
    let smt := SS.from_persisted_leaves subnet ls in
    let? anchor := get_last_anchor store subnet in
    let smt := match anchor with Some a => SS.set_last_anchor smt a | None => smt end in
    let current :=
      match anchor with
      | Some a => if (current_anchor s <? a)%Z then a else current_anchor s
      | None => current_anchor s
      end in
    let last_anchor := default 0%Z anchor in
    let? mismatch :=
      if (0 <? last_anchor)%Z then
        let? expected := MerkleStore.get_subnet_root store subnet last_anchor in
        Ok (match expected with
            | Some r => negb (bool_decide (SS.root smt = r))
            | None => false
            end)
      else Ok false in
    Ok (set_store (gs_store s) current (set_subnets <[subnet := smt]> s),
        mkRecovery (S (subnets_recovered summary)) (total_leaves summary + leaf_count)
          (root_mismatches summary + if (mismatch : bool) then 1 else 0)).

Fixpoint recover_subnets (store : St) (st : GlobalStateManager St * RecoverySummary) (l : list SubnetId)
    : result MerkleError (GlobalStateManager St * RecoverySummary) :=
  match l with
  | [] => Ok st
  | subnet :: rest => let? st' := recover_subnet store st subnet in recover_subnets store st' rest
  end.

Definition recover (s : GlobalStateManager St) : result MerkleError (GlobalStateManager St * RecoverySummary) :=
  match gs_store s with
  | None => Ok (s, mkRecovery 0 0 0)
  | Some store =>
      let? l := list_registered_subnets store in
      let? (s', summary) := recover_subnets store (s, mkRecovery 0 0 0) l in
      Ok (if has_subnet s' SUBNET_ROOT then s'
          else set_subnets <[SUBNET_ROOT := SS.new SUBNET_ROOT]> s', summary)
  end.

Inductive StateApplyError :=
| CommitFailed (msg : string)
| InvalidStateChange (msg : string).

Definition process_anchor `{HexCrate} `{StateBcs} (evs : list Event) (ev_root chain_root : HashValue) (anchor_id : Z)
    : stm (GlobalStateManager St) StateApplyError (AnchorMerkleRoots * StateApplySummary) := fun s =>
  match apply_committed_events s evs anchor_id with
  | Ok (s1, summary) =>
      let anchor_roots := build_anchor_roots s1 ev_root chain_root in
      match commit anchor_id s1 with
      | (s2, Ok _) => (s2, Ok (anchor_roots, summary))
      | (s2, Err _) => (s2, Err (CommitFailed "commit"))
      | (s2, Panic) => (s2, Panic)
      end
  | Err _ | Panic => (s, Panic)
  end.
End Persist.
End GS.
