(* ===== verification/StateEquiv.v ===== *)
(** * Replicas of the state

    Two managers are replicas of each other when their subnets hold the same
    trees, up to the tracking of dirty leaves; indexes, trackers and stores do
    not matter.  Clones and read snapshots are replicas of the original.
    Applying events respects this equivalence, so two validators that start from
    replicas and apply the same events stay replicas and report the same
    summary and roots. *)

From Stdlib Require Import ZArith Lia Strings.Byte.
From stdpp Require Import base gmap sets list sorting strings numbers.
From S2P Require Import Prelude Hash Vlc Event Coin StateStore SparseMerkle MerkleStore Aggregation StateManager.
#[local] Open Scope setu_scope.

(** ** Trees and subnets up to dirty tracking *)

Definition tree_eqv (a b : IncrementalSparseMerkleTree) : Prop :=
  root_hash a = root_hash b ∧ leaves a = leaves b ∧ nodes a = nodes b.

Definition smt_eqv (a b : SubnetStateSMT) : Prop :=
  ss_subnet_id a = ss_subnet_id b ∧ tree_eqv (ss_tree a) (ss_tree b) ∧ object_count a = object_count b.

(** Results that agree up to a relation on their values. *)
Definition result_rel {E A B} (R : A → B → Prop) (x : result E A) (y : result E B) : Prop :=
  match x, y with
  | Ok a, Ok b => R a b
  | Err e, Err e' => e = e'
  | Panic, Panic => True
  | _, _ => False
  end.

Lemma result_rel_bind {E A B A' B'} (R : A → B → Prop) (R' : A' → B' → Prop) (x : result E A) (y : result E B)
    (f : A → result E A') (g : B → result E B') :
  result_rel R x y → (∀ a b, R a b → result_rel R' (f a) (g b)) → result_rel R' (rbind x f) (rbind y g).
Proof. destruct x, y; simpl; try done; auto. Qed.

#[global] Instance tree_eqv_equiv : Equivalence tree_eqv.
Proof.
  unfold tree_eqv. split.
  - intros a. done.
  - intros a b (? & ? & ?). by split_and!.
  - intros a b c (? & ? & ?) (? & ? & ?). split_and!; congruence.
Qed.

#[global] Instance smt_eqv_equiv : Equivalence smt_eqv.
Proof.
  unfold smt_eqv. split.
  - intros a. done.
  - intros a b (? & ? & ?). split_and!; [done|by symmetry|done].
  - intros a b c (? & ? & ?) (? & ? & ?). split_and!; [congruence|by etrans|congruence].
Qed.

Section Trees.
Context `{B : Blake3}.

Lemma insert_eqv a b k v :
  tree_eqv a b → tree_eqv (Ismt.insert a k v).1 (Ismt.insert b k v).1.
Proof.
  intros (Hr & Hl & Hn). unfold Ismt.insert. rewrite Hr, Hl, Hn.
  by destruct (Ismt.insert_at_node _ _ _ _ _ _).
Qed.

Lemma remove_eqv a b k :
  tree_eqv a b → result_rel (fun x y => tree_eqv x.1 y.1 ∧ x.2 = y.2) (Ismt.remove a k) (Ismt.remove b k).
Proof.
  intros (Hr & Hl & Hn). unfold Ismt.remove. rewrite Hr, Hl, Hn.
  destruct (leaves b !! k); [|done]. by destruct (Ismt.remove_at_node _ _ _ _ _) as [[ns rh]| |].
Qed.

Lemma clone_eqv t : tree_eqv (Ismt.clone t) t.
Proof. done. Qed.

Lemma ss_clone_eqv s : smt_eqv (SS.clone s) s.
Proof. done. Qed.

Lemma ss_root_eqv a b : smt_eqv a b → SS.root a = SS.root b.
Proof. by intros (_ & (? & _) & _). Qed.

Lemma ss_get_eqv a b k : smt_eqv a b → SS.get a k = SS.get b k.
Proof. intros (_ & (_ & Hl & _) & _). unfold SS.get, Ismt.get. by rewrite Hl. Qed.

Lemma ss_upsert_eqv a b k v :
  smt_eqv a b → smt_eqv (SS.upsert a k v).1 (SS.upsert b k v).1 ∧ (SS.upsert a k v).2 = (SS.upsert b k v).2.
Proof.
  intros Hab. pose proof (ss_get_eqv a b k Hab) as Hg. unfold SS.get in Hg. destruct Hab as (Hi & Ht & Hc).
  pose proof (insert_eqv _ _ k v Ht) as Hins. unfold SS.upsert, smt_eqv. simpl. rewrite Hg, Hc.
  split; [done|]. apply Hins.
Qed.

Lemma ss_delete_eqv a b k :
  smt_eqv a b → result_rel (fun x y => smt_eqv x.1 y.1 ∧ x.2 = y.2) (SS.delete a k) (SS.delete b k).
Proof.
  intros (Hi & Ht & Hc). unfold SS.delete. eapply result_rel_bind; [by apply remove_eqv|].
  intros [t1 r1] [t2 r2] [Ht' Hr]. simpl in *. subst r2. unfold smt_eqv. simpl. by rewrite Hc.
Qed.
End Trees.

(** ** Managers *)

Definition gsm_eqv {St1 St2} (s1 : GlobalStateManager St1) (s2 : GlobalStateManager St2) : Prop :=
  ∀ subnet, option_Forall2 smt_eqv (subnet_states s1 !! subnet) (subnet_states s2 !! subnet).

#[global] Instance gsm_eqv_equiv {St} : Equivalence (@gsm_eqv St St).
Proof.
  split.
  - intros s subnet. reflexivity.
  - intros s1 s2 Hs subnet. symmetry. apply Hs.
  - intros s1 s2 s3 H1 H2 subnet. etrans; [apply H1|apply H2].
Qed.

Section Managers.
Context `{B : Blake3} `{X : HexCrate} `{SB : StateBcs} {St1 St2 : Type}.

Lemma gsm_eqv_insert (s1 : GlobalStateManager St1) (s2 : GlobalStateManager St2) subnet a b :
  gsm_eqv s1 s2 → smt_eqv a b →
  gsm_eqv (GS.set_subnets <[subnet := a]> s1) (GS.set_subnets <[subnet := b]> s2).
Proof.
  intros Hs Hab n. simpl. destruct (decide (subnet = n)) as [->|Hne].
  - rewrite !lookup_insert_eq. by constructor.
  - rewrite !lookup_insert_ne by done. apply Hs.
Qed.

Lemma subnet_or_new_eqv (s1 : GlobalStateManager St1) (s2 : GlobalStateManager St2) subnet :
  gsm_eqv s1 s2 → smt_eqv (GS.subnet_or_new s1 subnet) (GS.subnet_or_new s2 subnet).
Proof. intros Hs. unfold GS.subnet_or_new. by destruct (Hs subnet). Qed.

Lemma get_subnet_mut_eqv (s1 : GlobalStateManager St1) (s2 : GlobalStateManager St2) subnet :
  gsm_eqv s1 s2 →
  gsm_eqv (GS.get_subnet_mut s1 subnet).1 (GS.get_subnet_mut s2 subnet).1 ∧
  smt_eqv (GS.get_subnet_mut s1 subnet).2 (GS.get_subnet_mut s2 subnet).2.
Proof.
  intros Hs. pose proof (subnet_or_new_eqv s1 s2 subnet Hs). split; [|done]. by apply gsm_eqv_insert.
Qed.

(** Indexes and trackers are not part of the equivalence. *)
Lemma remove_indexes_subnets {St} (s : GlobalStateManager St) k old :
  subnet_states (GS.remove_from_indexes_for_value s k old) = subnet_states s.
Proof. unfold GS.remove_from_indexes_for_value. by destruct (detect_and_parse old). Qed.

Lemma update_indexes_subnets {St} (s : GlobalStateManager St) k v key :
  subnet_states (GS.update_indexes_for_value s k v key) = subnet_states s.
Proof.
  unfold GS.update_indexes_for_value. destruct (GS.is_metadata_key key); [done|].
  destruct (detect_and_parse v); [|done..]. by destruct (extract_coin_type_from_tag _).
Qed.

Lemma gsm_eqv_subnets {St1' St2'} (s1 : GlobalStateManager St1) (s2 : GlobalStateManager St2) (s1' : GlobalStateManager St1') (s2' : GlobalStateManager St2') :
  subnet_states s1' = subnet_states s1 → subnet_states s2' = subnet_states s2 →
  gsm_eqv s1 s2 → gsm_eqv s1' s2'.
Proof. intros H1 H2 Hs n. rewrite H1, H2. apply Hs. Qed.

Lemma apply_state_change_eqv (s1 : GlobalStateManager St1) (s2 : GlobalStateManager St2) subnet change :
  gsm_eqv s1 s2 →
  result_rel (fun x y => gsm_eqv x.1 y.1 ∧ x.2 = y.2)
    (GS.apply_state_change s1 subnet change) (GS.apply_state_change s2 subnet change).
Proof.
  intros Hs. unfold GS.apply_state_change. destruct (new_value change) as [v|].
  - destruct (get_subnet_mut_eqv s1 s2 subnet Hs) as [Hg Hm].
    destruct (GS.get_subnet_mut s1 subnet) as [g1 m1], (GS.get_subnet_mut s2 subnet) as [g2 m2].
    simpl in Hg, Hm. cbn beta iota.
    destruct (ss_upsert_eqv m1 m2 (GS.parse_state_change_key (sc_key change)) v Hm) as [Hu Hr].
    destruct (SS.upsert m1 _ v) as [m1' r1], (SS.upsert m2 _ v) as [m2' r2]. simpl in *. subst r2.
    split; [|done].
    eapply gsm_eqv_subnets; [..|exact (gsm_eqv_insert _ _ subnet _ _ Hg Hu)];
      rewrite update_indexes_subnets; destruct (old_value change); by rewrite ?remove_indexes_subnets.
  - assert (Hold : ∃ o g1 g2, gsm_eqv g1 g2 ∧
      (match old_value change with
       | Some old => (s1, Some old)
       | None => let '(g, m) := GS.get_subnet_mut s1 subnet in
                 (g, SS.get m (GS.parse_state_change_key (sc_key change)))
       end = (g1, o)) ∧
      (match old_value change with
       | Some old => (s2, Some old)
       | None => let '(g, m) := GS.get_subnet_mut s2 subnet in
                 (g, SS.get m (GS.parse_state_change_key (sc_key change)))
       end = (g2, o))).
    { destruct (old_value change) as [old|]; [by exists (Some old), s1, s2|].
      destruct (get_subnet_mut_eqv s1 s2 subnet Hs) as [Hg Hm].
      destruct (GS.get_subnet_mut s1 subnet) as [g1 m1], (GS.get_subnet_mut s2 subnet) as [g2 m2].
      eexists _, g1, g2. split; [done|]. split; [done|]. by rewrite (ss_get_eqv m1 m2). }
    destruct Hold as (o & g1 & g2 & Hg & -> & ->).
    set (h1 := match o with Some old => _ | None => g1 end).
    set (h2 := match o with Some old => _ | None => g2 end).
    assert (Hh : gsm_eqv h1 h2).
    { eapply gsm_eqv_subnets; [..|exact Hg]; subst h1 h2; destruct o; by rewrite ?remove_indexes_subnets. }
    destruct (get_subnet_mut_eqv h1 h2 subnet Hh) as [Hk Hm].
    destruct (GS.get_subnet_mut h1 subnet) as [k1 m1], (GS.get_subnet_mut h2 subnet) as [k2 m2].
    eapply result_rel_bind; [apply (ss_delete_eqv m1 m2 _ Hm)|].
    intros [a r1] [b r2] [Hab Hr]. simpl in *. subst r2. split; [by apply gsm_eqv_insert|done].
Qed.

Lemma apply_changes_eqv (s1 : GlobalStateManager St1) (s2 : GlobalStateManager St2) subnet changes :
  gsm_eqv s1 s2 → result_rel gsm_eqv (GS.apply_changes s1 subnet changes) (GS.apply_changes s2 subnet changes).
Proof.
  revert s1 s2; induction changes as [|c cs IH]; intros s1 s2 Hs; [done|]. cbn [GS.apply_changes].
  eapply result_rel_bind; [by apply apply_state_change_eqv|].
  intros [a r1] [b r2] [Hab _]. by apply IH.
Qed.

Lemma check_changes_eqv (s1 : GlobalStateManager St1) (s2 : GlobalStateManager St2) subnet pend changes :
  gsm_eqv s1 s2 →
  gsm_eqv (GS.check_changes s1 subnet pend changes).1 (GS.check_changes s2 subnet pend changes).1 ∧
  (GS.check_changes s1 subnet pend changes).2 = (GS.check_changes s2 subnet pend changes).2.
Proof.
  revert s1 s2 pend; induction changes as [|c cs IH]; intros s1 s2 pend Hs; [done|].
  cbn [GS.check_changes]. set (target := GS.change_target subnet c).
  set (k := GS.parse_state_change_key (sc_key c)).
  destruct (get_subnet_mut_eqv s1 s2 target Hs) as [Hg Hm].
  pose proof (ss_get_eqv _ _ k Hm) as Hk.
  destruct (GS.get_subnet_mut s1 target) as [g1 m1], (GS.get_subnet_mut s2 target) as [g2 m2].
  simpl in Hg, Hk. rewrite Hk.
  destruct (old_value c) as [old|]; [destruct (pend !! (target, k)) as [p|]|destruct (new_value c) as [v|]].
  all: cbn beta iota; try by apply IH.
  all: match goal with |- context [if ?b then (_, Some _) else _] => destruct b; [done|] end; by apply IH.
Qed.

Lemma apply_event_eqv d1 d2 (s1 : GlobalStateManager St1) (s2 : GlobalStateManager St2) sm e :
  gsm_eqv s1 s2 →
  result_rel (fun x y => gsm_eqv x.1 y.1 ∧ x.2 = y.2)
    (GS.apply_event d1 (s1, sm) e) (GS.apply_event d2 (s2, sm) e).
Proof.
  intros Hs. unfold GS.apply_event. destruct (execution_result e) as [res|]; [|done].
  destruct (er_success res); simpl; [|done].
  destruct (check_changes_eqv s1 s2 (get_subnet_id e) ∅ (state_changes res) Hs) as [Hg Hc].
  destruct (GS.check_changes s1 _ _ _) as [g1 c1], (GS.check_changes s2 _ _ _) as [g2 c2]. simpl in *.
  subst c2. destruct c1 as [key|]; [done|].
  eapply (result_rel_bind (fun x y => gsm_eqv x.1 y.1 ∧ x.2 = y.2)).
  - unfold GS.apply_execution_result. eapply result_rel_bind; [by apply apply_changes_eqv|].
    intros a b Hab. destruct (get_subnet_mut_eqv a b (get_subnet_id e) Hab) as [Hk Hm].
    destruct (GS.get_subnet_mut a _) as [k1 m1], (GS.get_subnet_mut b _) as [k2 m2]. simpl.
    split; [done|]. by apply ss_root_eqv.
  - intros [a r1] [b r2] [Hab Hr]. simpl in *. subst r2. split; [|done].
    by eapply gsm_eqv_subnets; [..|exact Hab].
Qed.

Lemma apply_events_eqv d1 d2 (s1 : GlobalStateManager St1) (s2 : GlobalStateManager St2) sm evs :
  gsm_eqv s1 s2 →
  result_rel (fun x y => gsm_eqv x.1 y.1 ∧ x.2 = y.2)
    (GS.apply_events d1 (s1, sm) evs) (GS.apply_events d2 (s2, sm) evs).
Proof.
  revert s1 s2 sm; induction evs as [|e evs IH]; intros s1 s2 sm Hs; [done|]. cbn [GS.apply_events].
  eapply result_rel_bind; [by apply apply_event_eqv|].
  intros [a sm1] [b sm2] [Hab Hsm]. simpl in *. subst sm2. by apply IH.
Qed.

Lemma apply_committed_eqv d1 d2 (s1 : GlobalStateManager St1) (s2 : GlobalStateManager St2) evs :
  gsm_eqv s1 s2 →
  result_rel (fun x y => gsm_eqv x.1 y.1 ∧ x.2 = y.2)
    (GS.apply_committed_events s1 evs d1) (GS.apply_committed_events s2 evs d2).
Proof. intros Hs. unfold GS.apply_committed_events. apply apply_events_eqv. exact Hs. Qed.
End Managers.
