(* ===== verification/StateSpec.v ===== *)
(** * What the state manager promises

    The abstract state is a map of objects per subnet.  An event is a
    transaction on it: either every change is applied, in order, or none is and
    the first conflicting key is reported.  The lemmas show that the manager
    follows this specification step by step, with every subnet's tree a faithful
    representation of its objects. *)

From Stdlib Require Import ZArith Lia Strings.Byte.
From stdpp Require Import base gmap sets list sorting strings numbers.
From S2P Require Import Prelude Hash Vlc Event Coin StateStore SparseMerkle SmtTrie SmtRepr MerkleStore Aggregation StateManager StateEquiv.
#[local] Open Scope setu_scope.

(** ** The specification *)

Abbreviation world := (gmap SubnetId (gmap HashValue bytes)).

Definition w_objects (w : world) (n : SubnetId) : gmap HashValue bytes := default ∅ (w !! n).
Definition w_get (w : world) (n : SubnetId) (k : HashValue) : option bytes := w_objects w n !! k.
Definition w_write (w : world) (n : SubnetId) (k : HashValue) (v : option bytes) : world :=
  <[n := match v with Some x => <[k := x]> (w_objects w n) | None => delete k (w_objects w n) end]> w.

Inductive verdict :=
| NoResult
| ExecutionFailed
| Conflicted (key : string)
| Applied.

Section Spec.
Context `{Blake3} `{HexCrate}.

Definition change_id (c : StateChange) : HashValue := GS.parse_state_change_key (sc_key c).

(** An update or a delete needs the value it read to be current; a creation
    needs the object to be absent, and to have been absent when the event
    started. *)
Definition spec_allowed (w0 w : world) (n : SubnetId) (c : StateChange) : bool :=
  match old_value c, new_value c with
  | Some old, _ => bool_decide (w_get w n (change_id c) = Some old)
  | None, Some _ =>
      bool_decide (w_get w0 n (change_id c) = None) && bool_decide (w_get w n (change_id c) = None)
  | None, None => true
  end.

Definition spec_change (subnet : SubnetId) (w : world) (c : StateChange) : world :=
  w_write w (GS.change_target subnet c) (change_id c) (new_value c).

Fixpoint spec_conflict (subnet : SubnetId) (w0 w : world) (cs : list StateChange) : option string :=
  match cs with
  | [] => None
  | c :: cs' =>
      if spec_allowed w0 w (GS.change_target subnet c) c
      then spec_conflict subnet w0 (spec_change subnet w c) cs'
      else Some (sc_key c)
  end.

Definition spec_event (w : world) (e : Event) : world * verdict :=
  match execution_result e with
  | None => (w, NoResult)
  | Some res =>
      if er_success res then
        match spec_conflict (get_subnet_id e) w w (state_changes res) with
        | Some key => (w, Conflicted key)
        | None => (foldl (spec_change (get_subnet_id e)) w (state_changes res), Applied)
        end
      else (w, ExecutionFailed)
  end.

Fixpoint spec_events (w : world) (es : list Event) : world * list (Event * verdict) :=
  match es with
  | [] => (w, [])
  | e :: es' =>
      let '(w1, v) := spec_event w e in
      let '(w2, vs) := spec_events w1 es' in
      (w2, (e, v) :: vs)
  end.

(** The worlds an accepted event goes through, after each of its changes. *)
Fixpoint change_trace (subnet : SubnetId) (w : world) (cs : list StateChange) : list world :=
  match cs with
  | [] => []
  | c :: cs' => spec_change subnet w c :: change_trace subnet (spec_change subnet w c) cs'
  end.

Definition event_changes (e : Event) : list StateChange :=
  match execution_result e with Some res => state_changes res | None => [] end.

Definition event_trace (w : world) (e : Event) : list world :=
  match (spec_event w e).2 with
  | Applied => change_trace (get_subnet_id e) w (event_changes e)
  | _ => []
  end.

Fixpoint events_trace (w : world) (es : list Event) : list world :=
  match es with
  | [] => []
  | e :: es' => event_trace w e ++ events_trace (spec_event w e).1 es'
  end.

(** What the summary reports of the verdicts. *)
Definition spec_failed (vs : list (Event * verdict)) : list EventId :=
  omap (fun ev => match ev.2 with ExecutionFailed => Some (ev_id ev.1) | _ => None end) vs.
Definition spec_conflicted (vs : list (Event * verdict)) : list ConflictRecord :=
  omap (fun ev => match ev.2 with Conflicted key => Some (mkConflict (ev_id ev.1) key) | _ => None end) vs.
Definition spec_applied (vs : list (Event * verdict)) : list Event :=
  omap (fun ev => match ev.2 with Applied => Some ev.1 | _ => None end) vs.

(** The last event to write each object. *)
Definition spec_tracker (depth : Z) (m : gmap HashValue (EventId * Z)) (e : Event)
    : gmap HashValue (EventId * Z) :=
  foldl (fun m c => <[change_id c := (ev_id e, depth)]> m) m (event_changes e).
End Spec.

(** ** Representation *)

Section Refine.
Context `{B : Blake3} `{X : HexCrate} `{SB : StateBcs} {St : Type}.
Context (U : bytes → Prop) (HU : collision_free U) (HE : U empty_preimage).
Opaque state_trie.

Definition world_covered (w : world) : Prop :=
  ∀ n, covered U (state_trie (w_objects w n)) ∧ (Z.of_nat (size (w_objects w n)) ≤ u64_max)%Z.

Record subnet_ok (n : SubnetId) (smt : SubnetStateSMT) (m : gmap HashValue bytes) : Prop := mkSubnetOk {
  so_id : ss_subnet_id smt = n;
  so_repr : ismt_repr U (ss_tree smt);
  so_leaves : leaves (ss_tree smt) = m;
  so_count : object_count smt = Z.of_nat (size m)
}.

Definition state_refines (s : GlobalStateManager St) (w : world) : Prop :=
  ∀ n, match subnet_states s !! n with
       | Some smt => subnet_ok n smt (w_objects w n)
       | None => w_objects w n = ∅
       end.

Lemma subnet_new_ok n : subnet_ok n (SS.new n) ∅.
Proof using HE HU. split; [done|by apply ismt_new_repr|done|done]. Qed.

Lemma gs_new_refines : state_refines GS.new ∅.
Proof using HE HU.
  intros n. unfold GS.new. simpl. unfold w_objects. rewrite lookup_empty. simpl.
  destruct (decide (SUBNET_GOVERNANCE = n)) as [<-|Hg].
  { rewrite lookup_insert_eq. apply subnet_new_ok. }
  rewrite lookup_insert_ne by done. destruct (decide (SUBNET_ROOT = n)) as [<-|Hr].
  - rewrite lookup_singleton_eq. apply subnet_new_ok.
  - by rewrite lookup_singleton_ne.
Qed.

Lemma w_objects_write w n k v n' :
  w_objects (w_write w n k v) n' =
    if decide (n = n')
    then match v with Some x => <[k := x]> (w_objects w n) | None => delete k (w_objects w n) end
    else w_objects w n'.
Proof.
  clear HU HE U. unfold w_write. unfold w_objects at 1. case_decide as Hn.
  - subst n'. by rewrite lookup_insert_eq.
  - by rewrite lookup_insert_ne.
Qed.

Lemma w_get_write w n k v n' k' :
  w_get (w_write w n k v) n' k' = if decide ((n, k) = (n', k')) then v else w_get w n' k'.
Proof.
  clear HU HE U. unfold w_get. rewrite w_objects_write. destruct (decide (n = n')) as [<-|Hn].
  - destruct (decide (k = k')) as [<-|Hk].
    + rewrite decide_True by done. destruct v; by rewrite ?lookup_insert_eq, ?lookup_delete_eq.
    + rewrite decide_False by congruence. destruct v; by rewrite ?lookup_insert_ne, ?lookup_delete_ne.
  - by rewrite decide_False by congruence.
Qed.

Lemma refines_subnets s s' w : subnet_states s' = subnet_states s → state_refines s w → state_refines s' w.
Proof. clear HU HE. intros Hs Hw n. rewrite Hs. apply Hw. Qed.

Lemma refines_or_new s w n : state_refines s w → subnet_ok n (GS.subnet_or_new s n) (w_objects w n).
Proof using HE HU.
  intros Hs. specialize (Hs n). unfold GS.subnet_or_new. destruct (subnet_states s !! n); [done|].
  rewrite Hs. apply subnet_new_ok.
Qed.

Lemma refines_get_mut s w n : state_refines s w → state_refines (GS.get_subnet_mut s n).1 w.
Proof using HE HU.
  intros Hs n'. unfold GS.get_subnet_mut. simpl. destruct (decide (n = n')) as [<-|Hn].
  - rewrite lookup_insert_eq. by apply refines_or_new.
  - rewrite lookup_insert_ne by done. apply Hs.
Qed.

Lemma refines_get s w n k : state_refines s w → SS.get (GS.subnet_or_new s n) k = w_get w n k.
Proof using HE HU.
  intros Hs. destruct (refines_or_new s w n Hs) as [_ _ Hl _]. unfold SS.get, Ismt.get, w_get. by rewrite Hl.
Qed.

(** Storing the new tree of a subnet. *)
Lemma refines_put s w n k v smt :
  state_refines s w → subnet_ok n smt (w_objects (w_write w n k v) n) →
  state_refines (GS.set_subnets <[n := smt]> s) (w_write w n k v).
Proof.
  clear HU HE. intros Hs Hok n'. simpl. destruct (decide (n = n')) as [<-|Hn].
  - by rewrite lookup_insert_eq.
  - rewrite lookup_insert_ne by done. rewrite w_objects_write, decide_False by done. apply Hs.
Qed.

Lemma upsert_ok n smt m k v :
  subnet_ok n smt m → covered U (state_trie (<[k := v]> m)) → (Z.of_nat (size (<[k := v]> m)) ≤ u64_max)%Z →
  subnet_ok n (SS.upsert smt k v).1 (<[k := v]> m).
Proof using HE HU.
  intros [Hid Hr Hl Hc] Hcov Hsz. unfold SS.upsert, Ismt.get. rewrite Hl.
  subst m. split; cbn [fst ss_subnet_id ss_tree object_count].
  - done.
  - exact (proj1 (ismt_insert_repr U HU HE _ k v Hr Hcov)).
  - unfold Ismt.insert. by destruct (Ismt.insert_at_node _ _ _ _ _ _).
  - rewrite map_size_insert in *. unfold u64_add. destruct (leaves (ss_tree smt) !! k); [done|].
    rewrite Hc, wrap64_small; unfold is_u64; lia.
Qed.

Lemma delete_ok n smt m k :
  subnet_ok n smt m → covered U (state_trie (delete k m)) →
  ∃ smt', SS.delete smt k = Ok (smt', m !! k) ∧ subnet_ok n smt' (delete k m).
Proof using HE HU.
  intros [Hid Hr Hl Hc] Hcov. subst m. unfold SS.delete.
  destruct (ismt_remove_repr U HU HE (ss_tree smt) k Hr Hcov) as (t' & -> & Hr' & Hl').
  cbn [rbind]. eexists; split; [reflexivity|].
  split; cbn [ss_subnet_id ss_tree object_count]; [exact Hid|exact Hr'|exact Hl'|].
  rewrite map_size_delete. unfold saturating_sub. destruct (leaves (ss_tree smt) !! k) as [v|] eqn:Hk; [|done].
  rewrite Hc. assert (size (leaves (ss_tree smt)) ≠ 0%nat) by (apply map_size_ne_0_lookup; eauto). lia.
Qed.

(** Fields that the changes of an event do not touch. *)
Definition same_fields (s s' : GlobalStateManager St) : Prop :=
  modification_tracker s' = modification_tracker s ∧ last_finalized_depth s' = last_finalized_depth s ∧
  gs_store s' = gs_store s ∧ current_anchor s' = current_anchor s.

Lemma same_fields_refl s : same_fields s s.
Proof. clear HU HE U. done. Qed.
Lemma same_fields_trans s1 s2 s3 : same_fields s1 s2 → same_fields s2 s3 → same_fields s1 s3.
Proof. clear HU HE U. unfold same_fields. intuition congruence. Qed.

Lemma remove_indexes_fields s k old : same_fields s (GS.remove_from_indexes_for_value s k old).
Proof. clear HU HE U. unfold GS.remove_from_indexes_for_value. by destruct (detect_and_parse old). Qed.
Lemma update_indexes_fields s k v key : same_fields s (GS.update_indexes_for_value s k v key).
Proof.
  clear HU HE U. unfold GS.update_indexes_for_value. destruct (GS.is_metadata_key key); [done|].
  destruct (detect_and_parse v); [|done..]. by destruct (extract_coin_type_from_tag _).
Qed.

(** *** Applying changes *)

Lemma apply_state_change_refines s w n c :
  state_refines s w → world_covered (w_write w n (change_id c) (new_value c)) →
  ∃ s' r, GS.apply_state_change s n c = Ok (s', r) ∧ same_fields s s' ∧
    state_refines s' (w_write w n (change_id c) (new_value c)).
Proof using HE HU.
  intros Hs Hcov. specialize (Hcov n) as [Hcov Hsz]. unfold GS.apply_state_change. fold (change_id c).
  rewrite w_objects_write, decide_True in Hcov, Hsz by done.
  destruct (new_value c) as [v|] eqn:Hnew.
  - unfold GS.get_subnet_mut.
    pose proof (upsert_ok n _ _ (change_id c) v (refines_or_new s w n Hs) Hcov Hsz) as Hu.
    destruct (SS.upsert _ _ _) as [smt' root]. cbn [fst] in Hu. eexists _, _; split; [reflexivity|].
    match goal with |- context [GS.update_indexes_for_value ?x _ _ _] => set (s3 := x) end.
    assert (subnet_states s3 = <[n := smt']> (subnet_states s) ∧ same_fields s s3) as [H3 Hf].
    { subst s3. destruct (old_value c) as [old|].
      - rewrite remove_indexes_subnets. cbn. rewrite insert_insert_eq. split; [done|].
        eapply same_fields_trans; [|apply remove_indexes_fields]. done.
      - cbn. by rewrite insert_insert_eq. }
    split; [eapply same_fields_trans; [exact Hf|apply update_indexes_fields]|].
    eapply (refines_subnets (GS.set_subnets <[n := smt']> s)).
    + by rewrite update_indexes_subnets, H3.
    + apply refines_put; [done|]. by rewrite w_objects_write, decide_True.
  - match goal with |- context [let '(s1, effective_old) := ?x in _] => set (m := x) end.
    assert (∃ s1 o, m = (s1, o) ∧ state_refines s1 w ∧ same_fields s s1) as (s1 & o & -> & Hs1 & Hf1).
    { subst m. destruct (old_value c) as [old|]; [by exists s, (Some old)|].
      unfold GS.get_subnet_mut. eexists _, _; split; [reflexivity|]. split; [by apply (refines_get_mut s w n)|done]. }
    match goal with |- context [GS.get_subnet_mut ?x n] => set (s2 := x) end.
    assert (state_refines s2 w ∧ same_fields s s2) as [Hs2 Hf2].
    { subst s2. destruct o as [old|]; [|done]. split.
      - by eapply refines_subnets; [apply remove_indexes_subnets|].
      - eapply same_fields_trans; [exact Hf1|apply remove_indexes_fields]. }
    unfold GS.get_subnet_mut.
    destruct (delete_ok n _ _ (change_id c) (refines_or_new s2 w n Hs2) Hcov) as (smt' & -> & Hok).
    cbn [rbind]. eexists _, _; split; [reflexivity|]. split; [done|].
    eapply (refines_subnets (GS.set_subnets <[n := smt']> s2)); [cbn; by rewrite insert_insert_eq|].
    apply refines_put; [done|]. by rewrite w_objects_write, decide_True.
Qed.

Lemma apply_changes_refines s w subnet cs :
  state_refines s w → (∀ w', w' ∈ change_trace subnet w cs → world_covered w') →
  ∃ s', GS.apply_changes s subnet cs = Ok s' ∧ same_fields s s' ∧
    state_refines s' (foldl (spec_change subnet) w cs).
Proof using HE HU.
  revert s w; induction cs as [|c cs IH]; intros s w Hs Hcov; [by exists s|].
  cbn [GS.apply_changes change_trace foldl] in *.
  destruct (apply_state_change_refines s w (GS.change_target subnet c) c Hs) as (s1 & r & -> & Hf & Hs1).
  { apply Hcov. apply list_elem_of_here. }
  cbn [rbind]. destruct (IH s1 (spec_change subnet w c) Hs1) as (s2 & -> & Hf2 & Hs2).
  { intros w' Hw'. apply Hcov. by apply list_elem_of_further. }
  exists s2. split; [done|]. split; [by eapply same_fields_trans|done].
Qed.

(** *** The conflict check *)

(** The pending writes of an event lead from the world it started in to the
    current one. *)
Definition pending_ok (w0 w : world) (pend : gmap (SubnetId * HashValue) (option bytes)) : Prop :=
  ∀ n k, w_get w n k = match pend !! (n, k) with Some p => p | None => w_get w0 n k end.

Lemma pending_ok_write w0 w pend n k v :
  pending_ok w0 w pend → pending_ok w0 (w_write w n k v) (<[(n, k) := v]> pend).
Proof.
  clear HU HE U. intros Hp n' k'. rewrite w_get_write. case_decide as Hk.
  - by rewrite Hk, lookup_insert_eq.
  - rewrite lookup_insert_ne by done. apply Hp.
Qed.

Lemma bool_decide_is_Some {A} (o : option A) :
  bool_decide (is_Some o) = match o with Some _ => true | None => false end.
Proof. clear HU HE U. destruct o; [by apply bool_decide_eq_true|apply bool_decide_eq_false]. by intros [? ?]. Qed.

Lemma check_changes_refines s w0 w subnet pend cs :
  state_refines s w0 → pending_ok w0 w pend →
  state_refines (GS.check_changes s subnet pend cs).1 w0 ∧
  same_fields s (GS.check_changes s subnet pend cs).1 ∧
  (GS.check_changes s subnet pend cs).2 = spec_conflict subnet w0 w cs.
Proof using HE HU.
  revert s w pend; induction cs as [|c cs IH]; intros s w pend Hs Hp; [done|].
  cbn [GS.check_changes spec_conflict].
  set (target := GS.change_target subnet c). fold (change_id c).
  pose proof (refines_get_mut s w0 target Hs) as Hm.
  pose proof (refines_get s w0 target (change_id c) Hs) as Hg.
  unfold GS.get_subnet_mut in *. cbn [fst] in Hm.
  set (x := match old_value c with Some _ => _ | None => _ end).
  assert (∃ s1, x = (s1, negb (spec_allowed w0 w target c)) ∧ state_refines s1 w0 ∧ same_fields s s1)
    as (s1 & -> & Hs1 & Hf1).
  { subst x. unfold spec_allowed. specialize (Hp target (change_id c)). rewrite Hp.
    destruct (old_value c) as [old|]; [|destruct (new_value c) as [v|]].
    - destruct (pend !! (target, change_id c)) as [p|]; [by exists s|].
      eexists; split; [by rewrite Hg|done].
    - eexists; split; [rewrite Hg, bool_decide_is_Some|done].
      destruct (pend !! (target, change_id c)) as [[p|]|], (w_get w0 target (change_id c)); done.
    - by exists s. }
  destruct (spec_allowed w0 w target c); [|done]. cbn [negb].
  destruct (IH s1 (spec_change subnet w c) (<[(target, change_id c) := new_value c]> pend) Hs1)
    as (? & Hf2 & ?); [by apply pending_ok_write|].
  split; [done|]. split; [by eapply same_fields_trans|done].
Qed.

(** *** Events *)

(** The summary after an event with this verdict. *)
Definition summary_step (sm sm' : StateApplySummary) (e : Event) (v : verdict) : Prop :=
  failed_events sm' = failed_events sm ++ spec_failed [(e, v)] ∧
  conflicted_events sm' = conflicted_events sm ++ spec_conflicted [(e, v)] ∧
  total_events sm' = (total_events sm + length (spec_applied [(e, v)]))%nat ∧
  total_changes sm' = (total_changes sm + sum_list_with (fun e => length (event_changes e)) (spec_applied [(e, v)]))%nat.

Lemma apply_event_refines s sm w depth e :
  state_refines s w → (∀ w', w' ∈ event_trace w e → world_covered w') →
  ∃ s' sm', GS.apply_event depth (s, sm) e = Ok (s', sm') ∧
    state_refines s' (spec_event w e).1 ∧ summary_step sm sm' e (spec_event w e).2 ∧
    modification_tracker s' =
      foldl (spec_tracker depth) (modification_tracker s) (spec_applied [(e, (spec_event w e).2)]) ∧
    last_finalized_depth s' = last_finalized_depth s ∧ gs_store s' = gs_store s.
Proof using HE HU.
  intros Hs. unfold GS.apply_event, event_trace, spec_event, event_changes, summary_step, spec_tracker.
  unfold event_changes.
  destruct (execution_result e) as [res|] eqn:Hres.
  2: { intros _. exists s, sm. cbn. rewrite !app_nil_r, !Nat.add_0_r. done. }
  destruct (er_success res); cbn [negb].
  2: { intros _. eexists _, _; split; [reflexivity|]. cbn. rewrite !app_nil_r, !Nat.add_0_r. done. }
  destruct (check_changes_refines s w w (get_subnet_id e) ∅ (state_changes res) Hs) as (Hs1 & Hf1 & Hc).
  { intros n k. by rewrite lookup_empty. }
  destruct (GS.check_changes s _ _ _) as [s1 c]. cbn [fst snd] in *. rewrite <-Hc.
  destruct c as [key|]; cbn [fst snd].
  { intros _. eexists _, _; split; [reflexivity|]. destruct Hf1 as (? & ? & ? & _). cbn.
    rewrite !app_nil_r, !Nat.add_0_r. done. }
  intros Hcov. unfold GS.apply_execution_result.
  destruct (apply_changes_refines s1 w (get_subnet_id e) (state_changes res) Hs1 Hcov) as (s2 & -> & Hf2 & Hs2).
  unfold GS.get_subnet_mut. cbn [rbind]. eexists _, _; split; [reflexivity|].
  destruct Hf1 as (Ht1 & Hd1 & Hg1 & _), Hf2 as (Ht2 & Hd2 & Hg2 & _). split_and!.
  - eapply refines_subnets; [|exact (refines_get_mut s2 _ (get_subnet_id e) Hs2)]. done.
  - cbn. by rewrite app_nil_r.
  - cbn. by rewrite app_nil_r.
  - cbn. lia.
  - cbn. rewrite Hres. lia.
  - cbn. rewrite Hres, Ht2, Ht1. done.
  - cbn. by rewrite Hd2.
  - cbn. by rewrite Hg2.
Qed.

Definition summary_spec (sm sm' : StateApplySummary) (vs : list (Event * verdict)) : Prop :=
  failed_events sm' = failed_events sm ++ spec_failed vs ∧
  conflicted_events sm' = conflicted_events sm ++ spec_conflicted vs ∧
  total_events sm' = (total_events sm + length (spec_applied vs))%nat ∧
  total_changes sm' = (total_changes sm + sum_list_with (fun e => length (event_changes e)) (spec_applied vs))%nat.

Lemma apply_events_refines s sm w depth es :
  state_refines s w → (∀ w', w' ∈ events_trace w es → world_covered w') →
  ∃ s' sm', GS.apply_events depth (s, sm) es = Ok (s', sm') ∧
    state_refines s' (spec_events w es).1 ∧ summary_spec sm sm' (spec_events w es).2 ∧
    modification_tracker s' =
      foldl (spec_tracker depth) (modification_tracker s) (spec_applied (spec_events w es).2) ∧
    last_finalized_depth s' = last_finalized_depth s ∧ gs_store s' = gs_store s.
Proof using HE HU.
  revert s sm w; induction es as [|e es IH]; intros s sm w Hs Hcov.
  { exists s, sm. cbn. unfold summary_spec. cbn. rewrite !app_nil_r, !Nat.add_0_r. done. }
  cbn [GS.apply_events spec_events events_trace] in *.
  destruct (apply_event_refines s sm w depth e Hs) as (s1 & sm1 & -> & Hs1 & Hsm1 & Ht1 & Hd1 & Hg1).
  { intros w' Hw'. apply Hcov, elem_of_app. by left. }
  cbn [rbind]. destruct (spec_event w e) as [w1 v]. cbn [fst snd] in *.
  destruct (IH s1 sm1 w1 Hs1) as (s2 & sm2 & -> & Hs2 & Hsm2 & Ht2 & Hd2 & Hg2).
  { intros w' Hw'. apply Hcov, elem_of_app. by right. }
  destruct (spec_events w1 es) as [w2 vs]. cbn [fst snd] in *.
  exists s2, sm2. split_and!; [done|done|..].
  - destruct Hsm1 as (Ha & Hb & Hc & Hd), Hsm2 as (Ha2 & Hb2 & Hc2 & Hd2').
    unfold summary_spec. rewrite Ha2, Hb2, Hc2, Hd2', Ha, Hb, Hc, Hd.
    destruct v; cbn; rewrite <-?(assoc_L (++)); cbn; rewrite ?app_nil_r; split_and!; try done;
      fold (spec_applied vs); lia.
  - rewrite Ht2, Ht1. by destruct v.
  - by rewrite Hd2.
  - by rewrite Hg2.
Qed.
End Refine.
