(* ===== verification/StatePersist.v ===== *)
(** * Commit and recovery of the state

    The state manager over [InMemoryMerkleStore]: what a commit leaves in the
    store, and what a fresh manager recovers from it. *)

From Stdlib Require Import ZArith Lia Strings.Byte.
From stdpp Require Import base gmap sets list sorting strings numbers.
From S2P Require Import Prelude Hash Vlc Event Coin StateStore SparseMerkle SmtTrie SmtRepr SmtProps MerkleStore Aggregation StateManager StateEquiv StateSpec.
#[local] Open Scope setu_scope.

(** ** The batch of a commit *)

Section Commit.
Context `{B : Blake3}.

Definition taken (smt : SubnetStateSMT) : SubnetStateSMT := (SS.take_changes smt).1.
Definition changes_of (smt : SubnetStateSMT) : LeafChanges := (SS.take_changes smt).2.

Definition batch_add (anchor : Z) (b : InMemoryBatch) (e : SubnetId * SubnetStateSMT) : InMemoryBatch :=
  let '(n, smt) := e in
  mkMemBatch
    (leaf_upserts b ++ ((fun kv => ((n, kv.1), kv.2)) <$> upserts (changes_of smt)))
    (leaf_deletes b ++ ((fun k => (n, k)) <$> deletes (changes_of smt)))
    (subnet_registrations b ++ if (0 <? object_count smt)%Z then [n] else [])
    (b_last_anchors b ++ [(n, anchor)])
    (b_subnet_roots b ++ [(n, anchor, SS.root smt)])
    (b_global_roots b).

Lemma no_pending_changes smt :
  SS.has_pending_changes smt = false → SS.take_changes smt = (smt, mkLeafChanges [] []).
Proof.
  destruct smt as [i [r l ns d x] c a]. unfold SS.has_pending_changes, Ismt.has_pending_changes. simpl.
  rewrite orb_false_iff, !negb_false_iff, !bool_decide_eq_true. intros [-> ->]. done.
Qed.

Lemma commit_subnet_im anchor n smt b :
  GS.commit_subnet anchor n smt b = (taken smt, Ok (batch_add anchor b (n, smt))).
Proof.
  unfold GS.commit_subnet, taken, batch_add, changes_of.
  destruct (SS.has_pending_changes smt) eqn:Hp.
  - unfold SS.take_changes. destruct (Ismt.take_changes (ss_tree smt)) as [t [us ds]] eqn:Ht.
    assert (root_hash t = root_hash (ss_tree smt)) as Hroot.
    { unfold Ismt.take_changes in Ht. by injection Ht as <-. }
    destruct b. cbn. unfold SS.root, Ismt.root, IM.b_put_leaves, IM.b_delete_leaves. cbn. rewrite Hroot.
    repeat case_bool_decide; subst; cbn; destruct (0 <? object_count smt)%Z; cbn; by rewrite ?app_nil_r.
  - rewrite (no_pending_changes smt Hp). destruct b. cbn.
    destruct (0 <? object_count smt)%Z; cbn; by rewrite ?app_nil_r.
Qed.

Lemma commit_subnets_im anchor l b acc :
  GS.commit_subnets anchor l b acc =
    (foldl (fun m kv => <[kv.1 := kv.2]> m) acc (prod_map id taken <$> l), Ok (foldl (batch_add anchor) b l)).
Proof.
  revert b acc; induction l as [|[n smt] l IH]; intros b acc; [done|].
  cbn [GS.commit_subnets]. rewrite commit_subnet_im. apply IH.
Qed.

(** The subnets that leave a batch, and where they end up. *)
Definition all_upserts (l : list (SubnetId * SubnetStateSMT)) : list (SubnetId * HashValue * bytes) :=
  concat ((fun e => (fun kv => ((e.1, kv.1), kv.2)) <$> upserts (changes_of e.2)) <$> l).
Definition all_deletes (l : list (SubnetId * SubnetStateSMT)) : list (SubnetId * HashValue) :=
  concat ((fun e => (fun k => (e.1, k)) <$> deletes (changes_of e.2)) <$> l).

Lemma batch_of_list anchor l b :
  foldl (batch_add anchor) b l =
    mkMemBatch (leaf_upserts b ++ all_upserts l) (leaf_deletes b ++ all_deletes l)
      (subnet_registrations b ++ (filter (fun e => (0 < object_count e.2)%Z) l).*1)
      (b_last_anchors b ++ ((fun e => (e.1, anchor)) <$> l))
      (b_subnet_roots b ++ ((fun e => (e.1, anchor, SS.root e.2)) <$> l))
      (b_global_roots b).
Proof.
  revert b; induction l as [|[n smt] l IH]; intros b.
  { destruct b. cbn. by rewrite !app_nil_r. }
  cbn [foldl]. rewrite IH, filter_cons. unfold batch_add, all_upserts, all_deletes.
  destruct (Z.ltb_spec 0 (object_count smt)); [rewrite decide_True by done|rewrite decide_False by (cbn; lia)];
    cbn; rewrite <-?(assoc_L (++)); done.
Qed.

Lemma elem_of_all_upserts m n k v :
  (n, k, v) ∈ all_upserts (map_to_list m) ↔ ∃ smt, m !! n = Some smt ∧ (k, v) ∈ upserts (changes_of smt).
Proof.
  unfold all_upserts. rewrite list_elem_of_In, in_concat. split.
  - intros (x & Hx & Hin). apply list_elem_of_In, list_elem_of_fmap in Hx as ([n' smt] & -> & Hm).
    apply list_elem_of_In, list_elem_of_fmap in Hin as ([k' v'] & [= -> -> ->] & Hkv). exists smt.
    split; [by apply elem_of_map_to_list|done].
  - intros (smt & Hm & Hkv). exists ((fun kv => ((n, kv.1), kv.2)) <$> upserts (changes_of smt)). split.
    + apply list_elem_of_In, list_elem_of_fmap. exists (n, smt). by rewrite elem_of_map_to_list.
    + apply list_elem_of_In, list_elem_of_fmap. by exists (k, v).
Qed.

Lemma elem_of_all_deletes m n k :
  (n, k) ∈ all_deletes (map_to_list m) ↔ ∃ smt, m !! n = Some smt ∧ k ∈ deletes (changes_of smt).
Proof.
  unfold all_deletes. rewrite list_elem_of_In, in_concat. split.
  - intros (x & Hx & Hin). apply list_elem_of_In, list_elem_of_fmap in Hx as ([n' smt] & -> & Hm).
    apply list_elem_of_In, list_elem_of_fmap in Hin as (k' & [= -> ->] & Hkv). exists smt.
    split; [by apply elem_of_map_to_list|done].
  - intros (smt & Hm & Hkv). exists ((fun k => (n, k)) <$> deletes (changes_of smt)). split.
    + apply list_elem_of_In, list_elem_of_fmap. exists (n, smt). by rewrite elem_of_map_to_list.
    + apply list_elem_of_In, list_elem_of_fmap. by exists k.
Qed.

Lemma elem_of_upserts smt k v :
  (k, v) ∈ upserts (changes_of smt) ↔ k ∈ dirty_leaves (ss_tree smt) ∧ leaves (ss_tree smt) !! k = Some v.
Proof.
  unfold changes_of. cbn. rewrite list_elem_of_omap. setoid_rewrite elem_of_elements.
  setoid_rewrite fmap_Some. naive_solver.
Qed.

Lemma elem_of_deletes smt k : k ∈ deletes (changes_of smt) ↔ k ∈ deleted_leaves (ss_tree smt).
Proof. unfold changes_of. cbn. by rewrite elem_of_elements. Qed.
End Commit.

(** ** What a commit persists *)

Section Persisted.
Context `{B : Blake3}.

(** Outside the tracked leaves the store is current, and a subnet that is not
    in memory has nothing in the store. *)
Definition store_tracks (s : GlobalStateManager InMemoryMerkleStore) (store : InMemoryMerkleStore) : Prop :=
  ∀ n k, match subnet_states s !! n with
         | Some smt => k ∉ dirty_leaves (ss_tree smt) → k ∉ deleted_leaves (ss_tree smt) →
                       im_leaves store !! (n, k) = leaves (ss_tree smt) !! k
         | None => im_leaves store !! (n, k) = None
         end.

Definition tracking_ok (s : GlobalStateManager InMemoryMerkleStore) : Prop :=
  ∀ n smt, subnet_states s !! n = Some smt →
    dirty_leaves (ss_tree smt) ⊆ dom (leaves (ss_tree smt)) ∧ deleted_leaves (ss_tree smt) ## dom (leaves (ss_tree smt)).

(** The store holds the state. *)
Record store_holds (anchor : Z) (s : GlobalStateManager InMemoryMerkleStore) (store : InMemoryMerkleStore) : Prop := mkHolds {
  sh_leaves : ∀ n k, im_leaves store !! (n, k) = subnet_states s !! n ≫= fun smt => leaves (ss_tree smt) !! k;
  sh_registered : ∀ n smt, subnet_states s !! n = Some smt → (0 < object_count smt)%Z → n ∈ im_registered store;
  sh_anchor : ∀ n smt, subnet_states s !! n = Some smt → im_last_anchors store !! n = Some anchor;
  sh_root : ∀ n smt, subnet_states s !! n = Some smt → im_subnet_roots store !! (n, anchor) = Some (SS.root smt)
}.

Lemma committed_leaves (m : gmap SubnetId SubnetStateSMT) s store n k :
  subnet_states s = m → store_tracks s store → tracking_ok s →
  foldl (fun m k => delete k m)
    (foldl (fun m u => <[u.1 := u.2]> m) (im_leaves store) (all_upserts (map_to_list m)))
    (all_deletes (map_to_list m)) !! (n, k) =
  m !! n ≫= fun smt => leaves (ss_tree smt) !! k.
Proof.
  intros Hm Htr Hok. rewrite apply_deletes_lookup.
  rewrite (apply_upserts_lookup _ _ (fun nk => m !! nk.1 ≫= fun smt => leaves (ss_tree smt) !! nk.2)).
  2: { intros [[n' k'] v]. rewrite elem_of_all_upserts. intros (smt & Hn & [_ Hv]%elem_of_upserts). cbn. by rewrite Hn. }
  specialize (Htr n k). rewrite Hm in Htr. cbn [fst snd]. case_decide as Hd; [|case_decide as Hu; [done|]].
  - apply elem_of_all_deletes in Hd as (smt & Hn & Hd%elem_of_deletes). rewrite Hn. cbn.
    rewrite <-Hm in Hn. destruct (Hok n smt Hn) as [_ Hdel]. symmetry. apply not_elem_of_dom. set_solver.
  - destruct (m !! n) as [smt|] eqn:Hn; [cbn|done]. apply Htr.
    + intros Hdi. apply Hu. rewrite <-Hm in Hn. destruct (Hok n smt Hn) as [Hdom _].
      assert (is_Some (leaves (ss_tree smt) !! k)) as [v Hv] by (apply elem_of_dom; set_solver).
      apply list_elem_of_fmap. exists (n, k, v). split; [done|]. apply elem_of_all_upserts.
      exists smt. rewrite <-Hm. split; [done|]. by apply elem_of_upserts.
    + intros Hde. apply Hd, elem_of_all_deletes. exists smt. split; [done|]. by apply elem_of_deletes.
Qed.

Lemma foldl_insert_lookup {K A} `{Countable K} (l : list (K * A)) (m : gmap K A) k v :
  NoDup l.*1 → (k, v) ∈ l → foldl (fun m kv => <[kv.1 := kv.2]> m) m l !! k = Some v.
Proof.
  intros Hnd Hin. rewrite foldl_insert_NoDup by done. apply lookup_union_Some_l.
  by apply elem_of_list_to_map_1.
Qed.

Lemma foldl_register (l : list SubnetId) (r : gset SubnetId) n :
  n ∈ foldl (fun r i => {[i]} ∪ r) r l ↔ n ∈ r ∨ n ∈ l.
Proof. revert r; induction l as [|x l IH]; intros r; cbn; [set_solver|]. rewrite IH. set_solver. Qed.

Lemma foldl_taken (m : gmap SubnetId SubnetStateSMT) :
  foldl (fun m kv => <[kv.1 := kv.2]> m) m (prod_map id taken <$> map_to_list m) = taken <$> m.
Proof.
  rewrite foldl_insert_NoDup; [rewrite list_to_map_fmap, list_to_map_to_list|].
  - apply map_eq. intros n. rewrite lookup_union, lookup_fmap. by destruct (m !! n).
  - rewrite <-list_fmap_compose. apply NoDup_fst_map_to_list.
Qed.

Lemma commit_persists anchor s store :
  gs_store s = Some store → store_tracks s store → tracking_ok s →
  ∃ s' store', GS.commit anchor s = (s', Ok tt) ∧ gs_store s' = Some store' ∧ current_anchor s' = anchor ∧
    subnet_states s' = (fun smt => taken (SS.set_last_anchor smt anchor)) <$> subnet_states s ∧
    store_holds anchor s' store' ∧
    im_registered store' ⊆ im_registered store ∪ dom (subnet_states s) ∧
    im_global_roots store' !! anchor = Some (GS.compute_global_root s').1.
Proof.
  intros Hst Htr Hok. unfold GS.commit. cbn [gs_store GS.set_subnets]. rewrite Hst.
  cbn [begin_batch InMemoryMerkleStore_b4]. rewrite commit_subnets_im. cbn [GS.set_subnets subnet_states].
  set (m := _ <$> subnet_states s).
  rewrite foldl_taken, batch_of_list. cbn.
  set (store' := IM.commit_batch _ _). set (s' := GS.set_store _ _ _).
  exists s', store'. split_and!; [done|done|done| | | |].
  - cbn. unfold m. by rewrite <-map_fmap_compose.
  - assert (Hnd : NoDup (map_to_list m).*1) by apply NoDup_fst_map_to_list.
    assert (Hs' : ∀ n smt, subnet_states s' !! n = Some smt →
              ∃ smt0, m !! n = Some smt0 ∧ smt = taken smt0 ∧ (n, smt0) ∈ map_to_list m).
    { intros n smt. cbn. rewrite lookup_fmap, fmap_Some. intros (smt0 & Hn & ->).
      exists smt0. by rewrite elem_of_map_to_list. }
    split.
    + intros n k. unfold store'.
      cbn [IM.commit_batch IM.b_put_global_root im_leaves leaf_upserts leaf_deletes].
      rewrite (committed_leaves m (GS.set_subnets (fun _ => m) s) store n k); [|done|..].
      * cbn. rewrite lookup_fmap. by destruct (m !! n).
      * intros n' k'. specialize (Htr n' k'). cbn. unfold m. rewrite lookup_fmap.
        revert Htr. destruct (subnet_states s !! n'); exact id.
      * intros n' smt. cbn. unfold m. rewrite lookup_fmap, fmap_Some. intros (smt0 & Hn & ->). exact (Hok n' smt0 Hn).
    + intros n smt Hn Hc. destruct (Hs' n smt Hn) as (smt0 & _ & -> & Hin). cbn. apply foldl_register. right.
      apply list_elem_of_fmap. exists (n, smt0). split; [done|]. by apply list_elem_of_filter.
    + intros n smt Hn. destruct (Hs' n smt Hn) as (smt0 & _ & -> & Hin). cbn.
      apply foldl_insert_lookup; [by rewrite <-list_fmap_compose|]. apply list_elem_of_fmap. by exists (n, smt0).
    + intros n smt Hn. destruct (Hs' n smt Hn) as (smt0 & _ & -> & Hin). cbn.
      pose proof (foldl_insert_lookup ((fun e => ((e.1, anchor), SS.root e.2)) <$> map_to_list m)
                    (im_subnet_roots store) (n, anchor) (SS.root smt0)) as Hl.
      etrans; [|apply Hl].
      * rewrite !foldl_fmap. done.
      * rewrite <-list_fmap_compose.
        change (NoDup (((fun x => (x, anchor)) ∘ fst) <$> map_to_list m)).
        rewrite list_fmap_compose. apply NoDup_fmap_2; [intros x y [=]; done|done].
      * apply list_elem_of_fmap. by exists (n, smt0).
  - intros n. cbn. rewrite foldl_register, list_elem_of_fmap, elem_of_union, elem_of_dom.
    intros [?|([n' smt] & -> & [_ Hin]%list_elem_of_filter)]; [by left|right].
    apply elem_of_map_to_list in Hin. unfold m in Hin. rewrite lookup_fmap, fmap_Some in Hin. naive_solver.
  - cbn. rewrite lookup_insert_eq. done.
Qed.
End Persisted.

(** ** Recovery *)

Section Recover.
Context `{B : Blake3} (U : bytes → Prop) (HU : collision_free U) (HE : U empty_preimage).
Opaque state_trie.

Lemma load_all_leaves_lookup store n k : IM.load_all_leaves store n !! k = im_leaves store !! (n, k).
Proof.
  clear HU HE U. unfold IM.load_all_leaves. set (l := omap _ _).
  assert (Hin : ∀ k v, (k, v) ∈ l ↔ im_leaves store !! (n, k) = Some v).
  { intros k' v. unfold l. rewrite list_elem_of_omap. split.
    - intros ([[n' k''] v'] & Hm & Hd). cbn in Hd. case_bool_decide; [|done]. simplify_eq.
      by apply elem_of_map_to_list.
    - intros Hm. exists (n, k', v). rewrite elem_of_map_to_list. split; [done|]. cbn. by rewrite bool_decide_true. }
  destruct (im_leaves store !! (n, k)) as [v|] eqn:Hv.
  - apply elem_of_list_to_map_1'; [|by apply Hin]. intros v' Hv'%Hin. congruence.
  - apply not_elem_of_list_to_map_1. intros ([k' v] & -> & Hk)%list_elem_of_fmap. apply Hin in Hk. cbn in *. congruence.
Qed.

Context (w : world) (anchor : Z) (s : GlobalStateManager InMemoryMerkleStore) (store : InMemoryMerkleStore).
Context (Hs : state_refines U s w) (Hst : store_holds anchor s store).
Context (Hload : ∀ n m, m ∈ load_trace (w_objects w n) → covered U (state_trie m)).

Lemma load_world n : IM.load_all_leaves store n = w_objects w n.
Proof using Hs Hst.
  apply map_eq. intros k. rewrite load_all_leaves_lookup, (sh_leaves _ _ _ Hst). specialize (Hs n).
  destruct (subnet_states s !! n) as [smt|]; cbn; [by destruct Hs as [_ _ -> _]|by rewrite Hs].
Qed.

Definition recovered (n : SubnetId) : SubnetStateSMT :=
  SS.set_last_anchor (SS.from_persisted_leaves n (w_objects w n)) anchor.

Lemma recovered_ok n : subnet_ok U n (recovered n) (w_objects w n).
Proof using HE HU Hload.
  destruct (from_leaves_repr U HU HE (w_objects w n) (Hload n)) as (Hr & Hl & _).
  split; cbn [recovered SS.set_last_anchor SS.from_persisted_leaves ss_subnet_id ss_tree object_count].
  - reflexivity.
  - exact Hr.
  - exact Hl.
  - unfold Ismt.leaf_count. by rewrite Hl.
Qed.

(** A subnet with objects is in memory when it was committed. *)
Lemma nonempty_in_memory n :
  w_objects w n ≠ ∅ → ∃ smt, subnet_states s !! n = Some smt ∧ SS.root smt = SS.root (recovered n) ∧
    (0 < object_count smt)%Z.
Proof using HE HU Hload Hs.
  intros Hne. specialize (Hs n). destruct (subnet_states s !! n) as [smt|]; [|done].
  destruct Hs as [_ [_ _ _ Hr _ _] Hl Hc]. destruct (recovered_ok n) as [_ [_ _ _ Hr' _ _] Hl' _].
  exists smt. split; [done|]. unfold SS.root, Ismt.root. rewrite Hr, Hr', Hl, Hl', Hc. split; [done|].
  assert (size (w_objects w n) ≠ 0%nat) by (by apply map_size_non_empty_iff). lia.
Qed.

Lemma recover_subnet_spec r sum n :
  ∃ r' sum', GS.recover_subnet store (r, sum) n = Ok (r', sum') ∧
    GS.root_mismatches sum' = GS.root_mismatches sum ∧ gs_store r' = gs_store r ∧
    subnet_states r' =
      if decide (w_objects w n = ∅) then subnet_states r else <[n := recovered n]> (subnet_states r).
Proof using HE HU Hload Hs Hst.
  unfold GS.recover_subnet. cbn [load_all_leaves InMemoryMerkleStore_b4 rbind]. rewrite load_world.
  case_decide as He.
  - exists r, sum. by rewrite He, map_size_empty.
  - destruct (Nat.eqb_spec (size (w_objects w n)) 0) as [Hz|_]; [by apply map_size_empty_iff in Hz|].
    destruct (nonempty_in_memory n He) as (smt & Hn & Hroot & _).
    cbn [get_last_anchor MerkleStore.get_subnet_root InMemoryMerkleStore_b4 rbind].
    rewrite (sh_anchor _ _ _ Hst n smt Hn). change (default 0%Z (Some anchor)) with anchor.
    destruct (0 <? anchor)%Z; cbn [rbind].
    + rewrite (sh_root _ _ _ Hst n smt Hn). rewrite Hroot. unfold recovered.
      rewrite bool_decide_true by reflexivity. cbn [negb].
      eexists _, _; split; [reflexivity|]. cbn. rewrite Nat.add_0_r. done.
    + eexists _, _; split; [reflexivity|]. cbn. rewrite Nat.add_0_r. done.
Qed.

Lemma recover_subnets_spec l r sum :
  ∃ r' sum', GS.recover_subnets store (r, sum) l = Ok (r', sum') ∧
    GS.root_mismatches sum' = GS.root_mismatches sum ∧ gs_store r' = gs_store r ∧
    ∀ n, subnet_states r' !! n =
      if decide (n ∈ l ∧ w_objects w n ≠ ∅) then Some (recovered n) else subnet_states r !! n.
Proof using HE HU Hload Hs Hst.
  revert r sum; induction l as [|x l IH]; intros r sum.
  { exists r, sum. split_and!; [done..|]. intros n. rewrite decide_False; [done|]. intros [Hx _]. by apply not_elem_of_nil in Hx. }
  cbn [GS.recover_subnets]. destruct (recover_subnet_spec r sum x) as (r1 & sum1 & -> & Hm1 & Hg1 & Hs1).
  cbn [rbind]. destruct (IH r1 sum1) as (r2 & sum2 & -> & Hm2 & Hg2 & Hs2).
  exists r2, sum2. split_and!; [done|congruence|congruence|].
  intros n. rewrite Hs2, Hs1. clear -Hs. destruct (decide (n = x)) as [->|Hne].
  - destruct (decide (w_objects w x = ∅)) as [He|He].
    + rewrite !decide_False by (by intros []). done.
    + rewrite (decide_True (P := x ∈ x :: l ∧ _)) by (split; [apply list_elem_of_here|done]).
      case_decide; [done|]. apply lookup_insert_eq.
  - rewrite (decide_ext (n ∈ x :: l ∧ w_objects w n ≠ ∅) (n ∈ l ∧ w_objects w n ≠ ∅)).
    + case_decide; [done|]. case_decide; [done|]. by apply lookup_insert_ne.
    + rewrite elem_of_cons. naive_solver.
Qed.

Lemma recover_spec :
  ∃ r sum, GS.recover (GS.with_store store) = Ok (r, sum) ∧ GS.root_mismatches sum = 0%nat ∧
    gs_store r = Some store ∧ state_refines U r w ∧
    (∀ n, w_objects w n ≠ ∅ → subnet_states r !! n = Some (recovered n)) ∧
    (∀ n, w_objects w n = ∅ → subnet_states r !! n = subnet_states (GS.with_store store) !! n).
Proof using HE HU Hload Hs Hst.
  unfold GS.recover. cbn [gs_store GS.with_store list_registered_subnets InMemoryMerkleStore_b4 rbind].
  destruct (recover_subnets_spec (IM.list_registered_subnets store) (GS.with_store store) (GS.mkRecovery 0 0 0))
    as (r & sum & -> & Hm & Hg & Hr). cbn [rbind].
  assert (Hroot : GS.has_subnet r SUBNET_ROOT = true).
  { unfold GS.has_subnet. apply bool_decide_eq_true. rewrite Hr. case_decide; [done|]. done. }
  rewrite Hroot. exists r, sum.
  assert (Hne : ∀ n, w_objects w n ≠ ∅ → subnet_states r !! n = Some (recovered n)).
  { intros n Hn. rewrite Hr, decide_True; [done|]. split; [|done].
    destruct (nonempty_in_memory n Hn) as (smt & Hin & _ & Hc).
    unfold IM.list_registered_subnets. rewrite merge_sort_Permutation, elem_of_elements.
    by apply (sh_registered _ _ _ Hst n smt). }
  assert (Hem : ∀ n, w_objects w n = ∅ → subnet_states r !! n = subnet_states (GS.with_store store) !! n).
  { intros n Hn. rewrite Hr, decide_False; [done|]. by intros []. }
  split_and!; [done|done|done| |done|done].
  intros n. destruct (decide (w_objects w n = ∅)) as [He|He].
  - rewrite (Hem n He), He. pose proof (gs_new_refines U HU HE (St := InMemoryMerkleStore) n) as Hn.
    unfold w_objects in Hn. rewrite lookup_empty in Hn. exact Hn.
  - rewrite (Hne n He). apply recovered_ok.
Qed.

(** The store is current for the recovered state. *)
Lemma recovered_tracks r : state_refines U r w → store_tracks r store.
Proof using Hs Hst.
  intros Hr n k. pose proof (load_world n) as Hl. specialize (Hr n).
  rewrite <-load_all_leaves_lookup, Hl. destruct (subnet_states r !! n) as [smt|].
  - intros _ _. by destruct Hr as [_ _ -> _].
  - by rewrite Hr.
Qed.
End Recover.

(** Taking the changes of every subnet does not change the objects. *)
Lemma taken_refines `{B : Blake3} U (s s' : GlobalStateManager InMemoryMerkleStore) w anchor :
  subnet_states s' = (fun smt => taken (SS.set_last_anchor smt anchor)) <$> subnet_states s →
  state_refines U s w → state_refines U s' w.
Proof.
  intros Hsub Hs n. specialize (Hs n). rewrite Hsub, lookup_fmap.
  destruct (subnet_states s !! n) as [smt|]; [|exact Hs]. destruct Hs as [Hi [H1 H2 H3 H4 H5 H6] Hl Hc].
  split; [exact Hi| |exact Hl|exact Hc].
  split; [exact H1|exact H2|exact H3|exact H4|apply empty_subseteq|apply disjoint_empty_l].
Qed.

(** ** Applying events keeps the store current outside the tracked leaves *)

(** A property of single subnets that upserts and deletes preserve is preserved
    by the application of events. *)
Section SubnetInvariant.
Context `{B : Blake3} `{X : HexCrate} `{SB : StateBcs} {St : Type}.
Context (I : SubnetId → SubnetStateSMT → Prop).
Context (Iup : ∀ n smt k v, I n smt → I n (SS.upsert smt k v).1).
Context (Idel : ∀ n smt k smt' r, I n smt → SS.delete smt k = Ok (smt', r) → I n smt').

Definition all_subnets (s : GlobalStateManager St) : Prop := ∀ n, I n (GS.subnet_or_new s n).

Lemma or_new_insert (s : GlobalStateManager St) n smt n' :
  GS.subnet_or_new (GS.set_subnets <[n := smt]> s) n' =
    if decide (n = n') then smt else GS.subnet_or_new s n'.
Proof.
  clear Iup Idel I. unfold GS.subnet_or_new. cbn. case_decide as Hn.
  - subst n'. by rewrite lookup_insert_eq.
  - by rewrite lookup_insert_ne.
Qed.

Lemma or_new_subnets (s s' : GlobalStateManager St) n : subnet_states s' = subnet_states s → GS.subnet_or_new s' n = GS.subnet_or_new s n.
Proof. clear Iup Idel I. unfold GS.subnet_or_new. by intros ->. Qed.

Lemma all_subnets_eq s s' : subnet_states s' = subnet_states s → all_subnets s → all_subnets s'.
Proof. clear Iup Idel. intros Hs Ha n. rewrite (or_new_subnets s s' n Hs). apply Ha. Qed.

Lemma all_subnets_insert s n smt : all_subnets s → I n smt → all_subnets (GS.set_subnets <[n := smt]> s).
Proof. clear Iup Idel. intros Ha Hi n'. rewrite or_new_insert. case_decide; [by subst|apply Ha]. Qed.

Lemma all_subnets_mut s n : all_subnets s → all_subnets (GS.get_subnet_mut s n).1.
Proof. clear Iup Idel. intros Ha. apply all_subnets_insert; [done|apply Ha]. Qed.

Lemma apply_state_change_inv s n c s' r :
  all_subnets s → GS.apply_state_change s n c = Ok (s', r) → all_subnets s'.
Proof using Iup Idel.
  intros Ha. unfold GS.apply_state_change, GS.get_subnet_mut. destruct (new_value c) as [v|].
  - pose proof (Iup n (GS.subnet_or_new s n) (GS.parse_state_change_key (sc_key c)) v (Ha n)) as Hi.
    destruct (SS.upsert _ _ _) as [smt' root]. intros [= <- _]. cbn [fst] in Hi.
    eapply (all_subnets_eq (GS.set_subnets <[n := smt']> s)); [|by apply all_subnets_insert].
    rewrite update_indexes_subnets. destruct (old_value c); rewrite ?remove_indexes_subnets; cbn;
      by rewrite insert_insert_eq.
  - set (m := match old_value c with Some _ => _ | None => _ end).
    assert (∃ s1 o, m = (s1, o) ∧ all_subnets s1) as (s1 & o & -> & Ha1).
    { subst m. destruct (old_value c); [by eexists _, _|]. eexists _, _; split; [reflexivity|].
      by apply all_subnets_mut. }
    set (s2 := match o with Some _ => _ | None => _ end).
    assert (Ha2 : all_subnets s2).
    { subst s2. destruct o; [|done]. by eapply all_subnets_eq; [apply remove_indexes_subnets|]. }
    destruct (SS.delete _ _) as [[smt' rm]| |] eqn:Hd; [|done..]. cbn [rbind]. intros [= <- _].
    eapply (all_subnets_eq (GS.set_subnets <[n := smt']> s2)); [cbn; by rewrite insert_insert_eq|].
    apply all_subnets_insert; [done|]. exact (Idel _ _ _ _ _ (Ha2 n) Hd).
Qed.

Lemma apply_changes_inv s n cs s' : all_subnets s → GS.apply_changes s n cs = Ok s' → all_subnets s'.
Proof using Iup Idel.
  revert s; induction cs as [|c cs IH]; intros s Ha; cbn [GS.apply_changes]; [by intros [= <-]|].
  destruct (GS.apply_state_change _ _ _) as [[s1 r]| |] eqn:Hc; [|done..]. cbn [rbind].
  apply IH. by eapply apply_state_change_inv.
Qed.

Lemma check_changes_inv s n pend cs : all_subnets s → all_subnets (GS.check_changes s n pend cs).1.
Proof.
  clear Iup Idel. revert s pend; induction cs as [|c cs IH]; intros s pend Ha; [done|]. cbn [GS.check_changes].
  pose proof (all_subnets_mut s (GS.change_target n c) Ha) as Hm. unfold GS.get_subnet_mut in *. cbn [fst] in Hm.
  destruct (old_value c); [destruct (pend !! _)|destruct (new_value c)]; cbn beta iota.
  all: try match goal with |- context [if ?b then (_, Some _) else _] => destruct b; [done|] end; by apply IH.
Qed.

Lemma apply_events_inv depth s sm es s' sm' :
  all_subnets s → GS.apply_events depth (s, sm) es = Ok (s', sm') → all_subnets s'.
Proof using Iup Idel.
  revert s sm; induction es as [|e es IH]; intros s sm Ha; cbn [GS.apply_events]; [by intros [= <- _]|].
  destruct (GS.apply_event _ _ _) as [[s1 sm1]| |] eqn:He; [|done..]. cbn [rbind]. apply IH. clear IH.
  unfold GS.apply_event in He. destruct (execution_result e) as [res|]; [|by injection He as <- _].
  destruct (er_success res); cbn [negb] in He; [|by injection He as <- _].
  pose proof (check_changes_inv s (get_subnet_id e) ∅ (state_changes res) Ha) as Hc.
  destruct (GS.check_changes _ _ _ _) as [s2 [key|]]; [by injection He as <- _|].
  unfold GS.apply_execution_result, GS.get_subnet_mut in He.
  destruct (GS.apply_changes _ _ _) as [s3| |] eqn:Hac; [|done..]. cbn [rbind] in He. injection He as <- _.
  eapply all_subnets_eq; [|exact (all_subnets_mut s3 (get_subnet_id e) (apply_changes_inv _ _ _ _ Hc Hac))].
  done.
Qed.
End SubnetInvariant.

(** The leaves a subnet does not track are current in the store. *)
Definition subnet_tracked (store : InMemoryMerkleStore) (n : SubnetId) (smt : SubnetStateSMT) : Prop :=
  ∀ k, k ∉ dirty_leaves (ss_tree smt) → k ∉ deleted_leaves (ss_tree smt) →
    im_leaves store !! (n, k) = leaves (ss_tree smt) !! k.

Lemma store_tracks_all `{B : Blake3} s store : store_tracks s store ↔ all_subnets (subnet_tracked store) s.
Proof.
  unfold store_tracks, all_subnets, subnet_tracked, GS.subnet_or_new. split; intros Hs n; specialize (Hs n).
  - intros k. specialize (Hs k). destruct (subnet_states s !! n); cbn; [exact Hs|]. intros _ _. by rewrite Hs.
  - intros k. specialize (Hs k). destruct (subnet_states s !! n); cbn in *; [exact Hs|].
    by rewrite Hs by set_solver.
Qed.

Lemma insert_fields `{B : Blake3} t k v :
  leaves (Ismt.insert t k v).1 = <[k := v]> (leaves t) ∧
  dirty_leaves (Ismt.insert t k v).1 = {[k]} ∪ dirty_leaves t ∧
  deleted_leaves (Ismt.insert t k v).1 = deleted_leaves t ∖ {[k]}.
Proof. unfold Ismt.insert. by destruct (Ismt.insert_at_node _ _ _ _ _ _). Qed.

Lemma remove_fields `{B : Blake3} t k t' r :
  Ismt.remove t k = Ok (t', r) →
  leaves t' = delete k (leaves t) ∧
  (t' = t ∨ dirty_leaves t' = dirty_leaves t ∖ {[k]} ∧ deleted_leaves t' = {[k]} ∪ deleted_leaves t).
Proof.
  unfold Ismt.remove. destruct (leaves t !! k) eqn:Hk; [|intros [= <- _]; split; [by rewrite delete_id|by left]].
  destruct (Ismt.remove_at_node _ _ _ _ _) as [[ns rh]| |]; [|done..]. cbn [rbind]. intros [= <- _].
  split; [done|]. by right.
Qed.

Lemma upsert_tracked `{B : Blake3} store n smt k v :
  subnet_tracked store n smt → subnet_tracked store n (SS.upsert smt k v).1.
Proof.
  intros Hi k'. cbn [SS.upsert fst ss_tree]. destruct (insert_fields (ss_tree smt) k v) as (-> & -> & ->).
  intros H1 H2. rewrite lookup_insert_ne by set_solver. apply Hi; set_solver.
Qed.

Lemma delete_tracked `{B : Blake3} store n smt k smt' r :
  subnet_tracked store n smt → SS.delete smt k = Ok (smt', r) → subnet_tracked store n smt'.
Proof.
  intros Hi. unfold SS.delete. destruct (Ismt.remove _ _) as [[t rm]| |] eqn:Hr; [|done..].
  cbn [rbind]. intros [= <- _] k'. cbn [ss_tree].
  destruct (remove_fields _ _ _ _ Hr) as [Hl [->|[-> ->]]]; [apply Hi|].
  intros H1 H2. rewrite Hl, lookup_delete_ne by set_solver. apply Hi; set_solver.
Qed.

Lemma apply_events_tracks `{B : Blake3} `{X : HexCrate} `{SB : StateBcs} store depth s sm es s' sm' :
  store_tracks s store → GS.apply_events depth (s, sm) es = Ok (s', sm') → store_tracks s' store.
Proof.
  rewrite !store_tracks_all. apply apply_events_inv; [apply upsert_tracked|apply delete_tracked].
Qed.
