(* ===== verification/StateProps.v ===== *)
(** * Properties of the state manager *)

From Stdlib Require Import ZArith Lia Strings.Byte.
From stdpp Require Import base gmap sets list sorting strings numbers.
From S2P Require Import Prelude Hash Vlc Event Coin StateStore SparseMerkle SmtTrie SmtRepr SmtProps MerkleStore Aggregation StateManager StateEquiv StateSpec StatePersist.
#[local] Open Scope setu_scope.

(** ** The order of events *)

#[global] Instance event_le_trans : Transitive event_le.
Proof.
  unfold event_le. intros a b c [Hab|[Hab Hab']] [Hbc|[Hbc Hbc']]; [left; lia..|].
  right. split; [lia|]. by eapply bytes_leb_trans.
Qed.

#[global] Instance event_le_total : Total event_le.
Proof.
  unfold event_le. intros a b.
  destruct (Z.lt_trichotomy (logical_time (vlc_snapshot a)) (logical_time (vlc_snapshot b))) as [?|[?|?]];
    [by left; left| |by right; left].
  destruct (bytes_leb_total (as_bytes (ev_id a)) (as_bytes (ev_id b))); [left|right]; right; auto.
Qed.

Lemma event_le_antisym a b : event_le a b → event_le b a → ev_id a = ev_id b.
Proof.
  unfold event_le. intros [?|[? Hab]] [?|[? Hba]]; [lia..|]. by apply as_bytes_inj, bytes_leb_antisym.
Qed.

(** Events with distinct ids have one order. *)
Lemma sort_events_perm es es' :
  NoDup (ev_id <$> es) → es ≡ₚ es' → merge_sort event_le es = merge_sort event_le es'.
Proof.
  intros Hnd Hp. apply (merge_sort_unique event_le); [|exact Hp]. intros x y Hx Hy Hxy Hyx.
  pose proof (event_le_antisym x y Hxy Hyx) as Hid.
  apply list_elem_of_lookup in Hx as [i Hi]. apply list_elem_of_lookup in Hy as [j Hj].
  assert (i = j) as ->; [|congruence].
  eapply (NoDup_lookup (ev_id <$> es)); [done|..]; rewrite list_lookup_fmap.
  - by rewrite Hi.
  - by rewrite Hj, Hid.
Qed.

(** ** Roots *)

Section Roots.
Context `{B : Blake3} {St1 St2 : Type}.

Definition subnet_roots_of {St} (s : GlobalStateManager St) : gmap SubnetId HashValue :=
  SS.root <$> subnet_states s.

Lemma root_entries {St} (s : GlobalStateManager St) :
  ((fun kv => Agg.entry_new kv.1 (SS.root kv.2)) <$> map_to_list (subnet_states s)) ≡ₚ
  ((fun kv => Agg.entry_new kv.1 kv.2) <$> map_to_list (subnet_roots_of s)).
Proof. unfold subnet_roots_of. rewrite map_to_list_fmap, <-list_fmap_compose. done. Qed.

Lemma root_entries_NoDup (m : gmap SubnetId HashValue) :
  NoDup (ids ((fun kv => Agg.entry_new kv.1 kv.2) <$> map_to_list m)).
Proof. unfold ids. rewrite <-list_fmap_compose. apply NoDup_fst_map_to_list. Qed.

(** The global root is a function of the roots of the subnets. *)
Lemma compute_global_root_roots (s1 : GlobalStateManager St1) (s2 : GlobalStateManager St2) :
  subnet_roots_of s1 = subnet_roots_of s2 → GS.compute_global_root s1 = GS.compute_global_root s2.
Proof.
  intros Hr. unfold GS.compute_global_root.
  pose proof (root_entries s1) as H1. pose proof (root_entries s2) as H2.
  set (es1 := _ <$> map_to_list (subnet_states s1)) in *.
  set (es2 := _ <$> map_to_list (subnet_states s2)) in *.
  rewrite Hr in H1. assert (Hp : es1 ≡ₚ es2) by (etrans; [exact H1|by symmetry]).
  assert (Hnd : NoDup (ids es1)) by (unfold ids; rewrite H1; apply root_entries_NoDup).
  unfold subnet_roots_of in Hr. rewrite (agg_build_perm es1 es2 Hnd Hp), Hr.
  rewrite (bool_decide_ext (es1 = []) (es2 = [])); [done|].
  split; intros ->; [by apply Permutation_nil_l in Hp|by apply Permutation_nil_r in Hp].
Qed.

Lemma gsm_eqv_roots (s1 : GlobalStateManager St1) (s2 : GlobalStateManager St2) :
  gsm_eqv s1 s2 → subnet_roots_of s1 = subnet_roots_of s2.
Proof.
  intros Hs. apply map_eq. intros n. unfold subnet_roots_of. rewrite !lookup_fmap.
  destruct (Hs n) as [a b Hab|]; [|done]. simpl. f_equal. by apply ss_root_eqv.
Qed.
End Roots.

(** C15: two validators whose states hold the same trees (whatever their
    indexes, trackers, stores and dirty leaves), and that apply the same events
    with distinct ids, listed in any order and with any finality depth, succeed
    or fail together; when they succeed their states hold the same trees again,
    the summaries are equal and so are the global root and the subnet roots. *)
Theorem replicas_agree (B : Blake3) (X : HexCrate) (SB : StateBcs) (St1 St2 : Type)
    (s1 : GlobalStateManager St1) (s2 : GlobalStateManager St2) (es1 es2 : list Event) (d1 d2 : Z)
    (Hs : gsm_eqv s1 s2) (Hp : es1 ≡ₚ es2) (Hnd : NoDup (ev_id <$> es1)) :
  result_rel (fun x y => gsm_eqv x.1 y.1 ∧ x.2 = y.2 ∧
                GS.compute_global_root x.1 = GS.compute_global_root y.1)
    (GS.apply_committed_events s1 es1 d1) (GS.apply_committed_events s2 es2 d2).
Proof.
  pose proof (apply_committed_eqv d1 d2 s1 s2 es1 Hs) as Ha.
  unfold GS.apply_committed_events in *. rewrite <-(sort_events_perm es1 es2 Hnd Hp).
  destruct (GS.apply_events d1 _ _) as [[a sm]| |], (GS.apply_events d2 _ _) as [[b sm']| |]; try done.
  destruct Ha as [Hab Hsm]. cbn in *. split_and!; [done|done|].
  by apply compute_global_root_roots, gsm_eqv_roots.
Qed.

(** C6: [apply_committed_events] implements the transactional specification.
    If no strings hashed for the worlds on the way collide (and no subnet holds
    [2^64] objects), it returns without a failed assertion; every subnet's tree
    then represents exactly the objects of the specification's world (so its
    root is the canonical root of those objects and its object count is exact),
    the summary lists the failed and the conflicting events with their first
    conflicting key, the totals count the applied ones, the modification tracker
    names for every object the last applied event that wrote it, and the
    finality depth never decreases. *)
Theorem apply_committed_refines (B : Blake3) (X : HexCrate) (SB : StateBcs) (St : Type)
    (U : bytes → Prop) (s : GlobalStateManager St) (w : world) (es : list Event) (depth : Z)
    (HU : collision_free U) (HE : U empty_preimage) (Hs : state_refines U s w)
    (Hcov : ∀ w', w' ∈ events_trace w (merge_sort event_le es) → world_covered U w') :
  ∃ s' sm, GS.apply_committed_events s es depth = Ok (s', sm) ∧
    let '(w', vs) := spec_events w (merge_sort event_le es) in
    state_refines U s' w' ∧
    (∀ n smt, subnet_states s' !! n = Some smt →
       SS.root smt = state_root (w_objects w' n) ∧ (∀ k, SS.get smt k = w_get w' n k)) ∧
    failed_events sm = spec_failed vs ∧ conflicted_events sm = spec_conflicted vs ∧
    total_events sm = length (spec_applied vs) ∧
    total_changes sm = sum_list_with (fun e => length (event_changes e)) (spec_applied vs) ∧
    modification_tracker s' = foldl (spec_tracker depth) (modification_tracker s) (spec_applied vs) ∧
    last_finalized_depth s' = Z.max (last_finalized_depth s) depth.
Proof.
  unfold GS.apply_committed_events.
  destruct (apply_events_refines U HU HE (GS.set_depth (Z.max (last_finalized_depth s) depth) s)
              Summary.new w depth (merge_sort event_le es)) as (s' & sm & -> & Hs' & Hsm & Ht & Hd & _);
    [exact Hs|exact Hcov|].
  exists s', sm. split; [done|]. destruct (spec_events w _) as [w' vs]. cbn [fst snd] in *.
  destruct Hsm as (H1 & H2 & H3 & H4). cbn in H1, H2, H3, H4.
  split_and!; [done| |done..]. intros n smt Hn. specialize (Hs' n). rewrite Hn in Hs'.
  destruct Hs' as [_ [_ _ _ Hr _ _] Hl _]. unfold SS.root, Ismt.root, SS.get, Ismt.get, w_get.
  by rewrite Hr, Hl.
Qed.

(** C17: an anchor survives a restart.  As long as the strings that are hashed do
    not collide, from a state that represents world [w] and whose store is
    current outside the tracked leaves, [process_anchor]
    succeeds: it applies the events as specified, returns the global root of the
    new state and commits.  The new state can process the next anchor (it
    represents the specified world and its store is current), and a fresh
    manager over the same store recovers without a root mismatch to a state that
    represents the same world, in which every subnet that has objects has the
    root it had.  A subnet without objects, which an event that conflicts can
    leave, is not stored and is not recovered ([restart_changes_global_root]). *)
Theorem process_anchor_recoverable (B : Blake3) (X : HexCrate) (SB : StateBcs) (U : bytes → Prop)
    (s : GlobalStateManager InMemoryMerkleStore) (store : InMemoryMerkleStore) (w : world)
    (es : list Event) (ev_root chain_root : HashValue) (anchor : Z)
    (HU : collision_free U) (HE : U empty_preimage) (Hs : state_refines U s w)
    (Hst : gs_store s = Some store) (Htr : store_tracks s store)
    (Hcov : ∀ w', w' ∈ events_trace w (merge_sort event_le es) → world_covered U w')
    (Hload : ∀ n m, m ∈ load_trace (w_objects (spec_events w (merge_sort event_le es)).1 n) →
               covered U (state_trie m)) :
  let w' := (spec_events w (merge_sort event_le es)).1 in
  ∃ s' store' roots sm r sum,
    GS.process_anchor es ev_root chain_root anchor s = (s', Ok (roots, sm)) ∧
    roots = GS.build_anchor_roots s' ev_root chain_root ∧ gs_store s' = Some store' ∧
    state_refines U s' w' ∧ store_tracks s' store' ∧
    GS.recover (GS.with_store store') = Ok (r, sum) ∧ GS.root_mismatches sum = 0%nat ∧
    state_refines U r w' ∧ gs_store r = Some store' ∧ store_tracks r store' ∧
    (∀ n, w_objects w' n ≠ ∅ → GS.get_subnet_root r n = GS.get_subnet_root s' n).
Proof.
  intros w'. unfold GS.process_anchor, GS.apply_committed_events.
  destruct (apply_events_refines U HU HE (GS.set_depth (Z.max (last_finalized_depth s) anchor) s)
              Summary.new w anchor (merge_sort event_le es)) as (s1 & sm & Ha & Hs1 & _ & _ & _ & Hg1);
    [exact Hs|exact Hcov|].
  assert (Htr1 : store_tracks s1 store) by (by eapply apply_events_tracks; [|exact Ha]). rewrite Ha.
  cbn [GS.set_depth gs_store] in Hg1. rewrite Hst in Hg1. fold w' in Hs1.
  assert (Hok : tracking_ok s1).
  { intros n smt Hn. specialize (Hs1 n). rewrite Hn in Hs1. by destruct Hs1 as [_ [_ _ _ _ ? ?] _ _]. }
  destruct (commit_persists anchor s1 store Hg1 Htr1 Hok) as (s' & store' & Hc & Hg & _ & Hsub & Hh & _).
  assert (Hs' : state_refines U s' w') by (by apply (taken_refines U s1 s' w' anchor)).
  destruct (recover_spec U HU HE w' anchor s' store' Hs' Hh Hload) as (r & sum & Hr & Hm & Hgr & Hrw & Hne & Hem).
  rewrite Hc. exists s', store', (GS.build_anchor_roots s1 ev_root chain_root), sm, r, sum.
  split_and!; [done| |done|done| |done|done|done|done| |].
  - unfold GS.build_anchor_roots. rewrite (compute_global_root_roots s1 s'); [done|].
    unfold subnet_roots_of. rewrite Hsub, <-map_fmap_compose. by apply map_fmap_ext.
  - exact (recovered_tracks U w' anchor s' store' Hs' Hh s' Hs').
  - exact (recovered_tracks U w' anchor s' store' Hs' Hh r Hrw).
  - intros n Hn. unfold GS.get_subnet_root. rewrite (Hne n Hn).
    destruct (nonempty_in_memory U HU HE w' anchor s' Hs' Hload n Hn) as (smt & Hsn & Hroot & _).
    rewrite Hsn. cbn [fmap option_fmap option_map]. by rewrite Hroot.
Qed.

(** A store whose disk fails at [commit_batch]: nothing is written. *)
Definition failing_store (e : MerkleError) : B4Store InMemoryMerkleStore := {|
  Batch := InMemoryBatch;
  begin_batch _ := Ok IM.batch_new;
  commit_batch b s := (s, Err e);
  batch_put_leaves_to_batch i ls b := Ok (IM.b_put_leaves i ls b);
  batch_delete_leaves_to_batch i ks b := Ok (IM.b_delete_leaves i ks b);
  batch_register_subnet i b := Ok (IM.b_register i b);
  batch_set_last_anchor i a b := Ok (IM.b_set_last_anchor i a b);
  batch_put_subnet_root i a r b := Ok (IM.b_put_subnet_root i a r b);
  batch_put_global_root a r b := Ok (IM.b_put_global_root a r b);
  list_registered_subnets s := Ok (IM.list_registered_subnets s);
  load_all_leaves s i := Ok (IM.load_all_leaves s i);
  get_last_anchor s i := Ok (im_last_anchors s !! i);
  get_subnet_root s i a := Ok (im_subnet_roots s !! (i, a))
|}.

(** A commit that fails forgets what it had to write.  When the batch cannot
    be written, the error is returned and the store and the current anchor are
    as before, but every subnet's pending changes are gone: no later commit
    writes them. *)
Theorem failed_commit_loses_changes (B : Blake3) (e : MerkleError)
    (s : GlobalStateManager InMemoryMerkleStore) (store : InMemoryMerkleStore) (anchor : Z)
    (Hst : gs_store s = Some store) :
  ∃ s', GS.commit (H0 := failing_store e) anchor s = (s', Err e) ∧
    gs_store s' = Some store ∧ current_anchor s' = current_anchor s ∧
    GS.has_pending_changes s' = false ∧
    ∀ n, GS.get_subnet_root s' n = GS.get_subnet_root s n.
Proof.
  unfold GS.commit. cbn [gs_store GS.set_subnets]. rewrite Hst.
  cbn [begin_batch failing_store]. set (m := subnet_states _).
  change (GS.commit_subnets (H0 := failing_store e) anchor (map_to_list m) IM.batch_new m)
    with (GS.commit_subnets anchor (map_to_list m) IM.batch_new m).
  rewrite commit_subnets_im, foldl_taken. cbn.
  eexists. split; [reflexivity|]. cbn. split_and!; [done|done| |].
  - unfold GS.has_pending_changes. apply not_true_iff_false. rewrite existsb_exists.
    intros ([n smt] & Hin & Hp). apply list_elem_of_In, elem_of_map_to_list in Hin. cbn in Hin.
    rewrite lookup_fmap, fmap_Some in Hin. destruct Hin as (smt0 & _ & ->). done.
  - intros n. unfold GS.get_subnet_root. cbn. unfold m. cbn. rewrite !lookup_fmap. by destruct (subnet_states s !! n).
Qed.

(** ** Instances *)

Definition wit_bcs : StateBcs := {| bcs_envelope_de _ := None; bcs_coin_state_de _ := None |}.

Definition wit_subnet : SubnetId := mkHash (Byte.x07 :: replicate 31 Byte.x00) eq_refl.

Definition wit_event (id : EventId) (t : Z) (changes : list StateChange) : Event :=
  mkEvent id Transfer [] None [] (mkVLCSnapshot VC.new t 0) "v" Executed
    (Some (mkExecutionResult true None changes)) 0.

(** Creates two objects, updates one of them in another event, and a stale
    third event on a subnet that does not exist. *)
Definition wit_create : Event :=
  wit_event "a" 1 [mkStateChange "user:1" None (Some [Byte.x01]) None; mkStateChange "user:2" None (Some [Byte.x02]) None].
Definition wit_update : Event :=
  wit_event "b" 2 [mkStateChange "user:1" (Some [Byte.x01]) (Some [Byte.x03]) None; mkStateChange "user:2" None None None].
Definition wit_stale : Event :=
  wit_event "c" 3 [mkStateChange "user:9" (Some [Byte.x01]) (Some [Byte.x03]) (Some wit_subnet)].
Definition wit_events : list Event := [wit_stale; wit_update; wit_create].

#[local] Existing Instance toy_blake3.
#[local] Existing Instance hex_lower.
#[local] Existing Instance wit_bcs.

Definition wit_U : bytes → Prop := fun x =>
  x ∈ concat ((fun w => concat (state_preimages <$> (∅ :: (map_to_list w).*2)))
                <$> ∅ :: events_trace ∅ (merge_sort event_le wit_events)).

Lemma wit_U_free : collision_free wit_U.
Proof.
  assert (Hcf : collision_free_on (concat ((fun w => concat (state_preimages <$> (∅ :: (map_to_list w).*2)))
                <$> ∅ :: events_trace ∅ (merge_sort event_le wit_events)))).
  { apply (bool_decide_unpack _). vm_compute. exact I. }
  exact Hcf.
Qed.

(** The strings of every world of a trace are in the list. *)
Lemma covered_by_trace `{B : Blake3} (ws : list world) w n :
  w ∈ ws →
  covered (fun x => x ∈ concat ((fun w => concat (state_preimages <$> (∅ :: (map_to_list w).*2))) <$> ws))
    (state_trie (w_objects w n)).
Proof.
  intros Hw x Hx. apply list_elem_of_In, in_concat. eexists. split.
  { apply in_map_iff. exists w. split; [reflexivity|by apply list_elem_of_In]. }
  apply in_concat. exists (state_preimages (w_objects w n)). split.
  - apply in_map_iff. eexists. split; [reflexivity|]. apply list_elem_of_In. unfold w_objects.
    destruct (w !! n) as [m|] eqn:Hn; [|apply list_elem_of_here]. apply list_elem_of_further.
    apply list_elem_of_fmap. exists (n, m). split; [done|]. by apply elem_of_map_to_list.
  - apply list_elem_of_In. unfold state_preimages. rewrite elem_of_cons, elem_of_app. auto.
Qed.

Lemma wit_U_empty : wit_U empty_preimage.
Proof.
  unfold wit_U. apply (bool_decide_unpack _). vm_compute. exact I.
Qed.

Lemma wit_worlds_small :
  Forall (fun w : world => Forall (fun nm => (Z.of_nat (size nm.2) ≤ u64_max)%Z) (map_to_list w))
    (events_trace ∅ (merge_sort event_le wit_events)).
Proof. apply (bool_decide_unpack _). vm_compute. exact I. Qed.

Lemma wit_covered w : w ∈ events_trace ∅ (merge_sort event_le wit_events) → world_covered wit_U w.
Proof.
  intros Hw n. split.
  - apply (covered_by_trace _ w n). by apply list_elem_of_further.
  - pose proof wit_worlds_small as Hf. rewrite list.Forall_forall in Hf. specialize (Hf w Hw).
    rewrite list.Forall_forall in Hf. unfold w_objects. destruct (w !! n) as [m|] eqn:Hn.
    + apply (Hf (n, m)). by apply elem_of_map_to_list.
    + cbn. unfold u64_max. rewrite map_size_empty. lia.
Qed.

Lemma replicas_agree_witness :
  result_rel (fun x y => x.2 = y.2 ∧ GS.compute_global_root x.1 = GS.compute_global_root y.1)
    (GS.apply_committed_events (St := unit) GS.new wit_events 1)
    (GS.apply_committed_events (St := InMemoryMerkleStore) (GS.with_store IM.new) (reverse wit_events) 7).
Proof.
  pose proof (replicas_agree toy_blake3 hex_lower wit_bcs unit InMemoryMerkleStore GS.new (GS.with_store IM.new)
                wit_events (reverse wit_events) 1 7) as Ha.
  destruct (GS.apply_committed_events GS.new wit_events 1) as [x| |],
    (GS.apply_committed_events (GS.with_store IM.new) (reverse wit_events) 7) as [y| |]; cbn [result_rel] in *.
  all: try (destruct Ha as (_ & H1 & H2); [| | |split; [exact H1|exact H2]]).
  all: try (apply Ha).
  all: try exact I.
  all: try (intros n; reflexivity).
  all: try (symmetry; apply reverse_Permutation).
  all: try (apply (bool_decide_unpack _); vm_compute; exact I).
Defined.

Lemma apply_committed_refines_witness :
  ∃ s' sm, GS.apply_committed_events (St := unit) GS.new wit_events 5 = Ok (s', sm) ∧
    conflicted_events sm = [mkConflict "c" "user:9"] ∧ failed_events sm = [] ∧ total_events sm = 2%nat ∧
    last_finalized_depth s' = 5%Z.
Proof.
  destruct (apply_committed_refines toy_blake3 hex_lower wit_bcs unit wit_U GS.new ∅ wit_events 5
              wit_U_free wit_U_empty (gs_new_refines wit_U wit_U_free wit_U_empty) wit_covered)
    as (s' & sm & Heq & Hs).
  exists s', sm. split; [exact Heq|].
  assert (Hv : spec_failed (spec_events ∅ (merge_sort event_le wit_events)).2 = [] ∧
               spec_conflicted (spec_events ∅ (merge_sort event_le wit_events)).2 = [mkConflict "c" "user:9"] ∧
               length (spec_applied (spec_events ∅ (merge_sort event_le wit_events)).2) = 2%nat).
  { split; [|split]; vm_compute; reflexivity. }
  destruct (spec_events ∅ (merge_sort event_le wit_events)) as [w' vs].
  destruct Hs as (_ & _ & Hf & Hc & Ht & _ & _ & Hd). destruct Hv as (Hv1 & Hv2 & Hv3). cbn [snd] in *.
  split; [rewrite Hc; exact Hv2|]. split; [rewrite Hf; exact Hv1|]. split; [rewrite Ht; exact Hv3|].
  rewrite Hd. reflexivity.
Defined.

(** The strings hashed when the final world is loaded again. *)
Definition world_load_trace (w : world) : list (gmap HashValue bytes) :=
  concat (load_trace <$> ∅ :: (map_to_list w).*2).

Lemma world_load_trace_spec w n m : m ∈ load_trace (w_objects w n) → m ∈ world_load_trace w.
Proof.
  intros Hm. unfold world_load_trace. apply list_elem_of_In, in_concat. exists (load_trace (w_objects w n)).
  split; [|by apply list_elem_of_In]. apply in_map. apply list_elem_of_In. unfold w_objects.
  destruct (w !! n) as [x|] eqn:Hx; [|apply list_elem_of_here].
  apply list_elem_of_further, list_elem_of_fmap. exists (n, x). by rewrite elem_of_map_to_list.
Qed.

Lemma wit_load_covered n m :
  m ∈ load_trace (w_objects (spec_events ∅ (merge_sort event_le wit_events)).1 n) →
  covered wit_U (state_trie m).
Proof.
  assert (Hall : Forall (fun m => Forall wit_U (tpre (state_trie m)))
                   (world_load_trace (spec_events ∅ (merge_sort event_le wit_events)).1)).
  { apply (bool_decide_unpack _). vm_compute. exact I. }
  intros Hm%world_load_trace_spec. rewrite list.Forall_forall in Hall.
  specialize (Hall m Hm). rewrite list.Forall_forall in Hall. exact Hall.
Qed.

Lemma wit_tracks : store_tracks (GS.with_store IM.new) IM.new.
Proof.
  intros n k. unfold GS.with_store, GS.new. cbn [subnet_states].
  destruct (decide (SUBNET_GOVERNANCE = n)) as [<-|Hg]; [by rewrite lookup_insert_eq|].
  rewrite lookup_insert_ne by done. destruct (decide (SUBNET_ROOT = n)) as [<-|Hr].
  - by rewrite lookup_singleton_eq.
  - by rewrite lookup_singleton_ne.
Qed.

Lemma process_anchor_recoverable_witness :
  ∃ s' store' roots sm r sum,
    GS.process_anchor wit_events zero_hash zero_hash 1 (GS.with_store IM.new) = (s', Ok (roots, sm)) ∧
    gs_store s' = Some store' ∧ GS.recover (GS.with_store store') = Ok (r, sum) ∧
    GS.get_subnet_root r SUBNET_ROOT = GS.get_subnet_root s' SUBNET_ROOT.
Proof.
  destruct (process_anchor_recoverable toy_blake3 hex_lower wit_bcs wit_U (GS.with_store IM.new) IM.new ∅
              wit_events zero_hash zero_hash 1 wit_U_free wit_U_empty
              (gs_new_refines wit_U wit_U_free wit_U_empty) eq_refl wit_tracks wit_covered wit_load_covered)
    as (s' & store' & roots & sm & r & sum & H1 & _ & H2 & _ & _ & H3 & _ & _ & _ & _ & H4).
  exists s', store', roots, sm, r, sum. split; [exact H1|]. split; [exact H2|]. split; [exact H3|].
  apply H4. apply (bool_decide_unpack _). vm_compute. exact I.
Defined.

(** Process an anchor from a fresh state, restart, and test the outcome. *)
Definition restart_check (es : list Event) (n : SubnetId) : bool :=
  match GS.process_anchor es zero_hash zero_hash 1 (GS.with_store IM.new) with
  | (s', Ok (roots, _)) =>
      match gs_store s' with
      | Some store' =>
          match GS.recover (GS.with_store store') with
          | Ok (r, _) =>
              bool_decide (im_global_roots store' !! 1%Z = Some (global_state_root roots)) &&
              GS.has_subnet s' n && negb (GS.has_subnet r n) &&
              bool_decide ((GS.compute_global_root r).1 ≠ global_state_root roots)
          | _ => false
          end
      | None => false
      end
  | _ => false
  end.

(** An empty subnet does not survive a restart.  Checking the stale event
    of [wit_events] creates the subnet it targets, which then takes part in the
    global root although it holds nothing; recovery does not bring it back, so a
    validator that restarts computes another global root than the one it
    committed (and than the validators that did not restart). *)
Theorem restart_changes_global_root :
  ∃ s' store' roots sm r sum,
    GS.process_anchor wit_events zero_hash zero_hash 1 (GS.with_store IM.new) = (s', Ok (roots, sm)) ∧
    gs_store s' = Some store' ∧ GS.recover (GS.with_store store') = Ok (r, sum) ∧
    im_global_roots store' !! 1%Z = Some (global_state_root roots) ∧
    GS.has_subnet s' wit_subnet = true ∧ GS.has_subnet r wit_subnet = false ∧
    (GS.compute_global_root r).1 ≠ global_state_root roots.
Proof.
  assert (Hc : restart_check wit_events wit_subnet = true) by (vm_compute; reflexivity).
  unfold restart_check in Hc.
  destruct (GS.process_anchor _ _ _ _ _) as [s' [[roots sm]| |]]; [|discriminate Hc..].
  destruct (gs_store s') as [store'|] eqn:Hg; [|discriminate Hc].
  destruct (GS.recover _) as [[r sum]| |] eqn:Hr; [|discriminate Hc..].
  rewrite !andb_true_iff, negb_true_iff, !bool_decide_eq_true in Hc. destruct Hc as [[[H1 H2] H3] H4].
  exists s', store', roots, sm, r, sum. split_and!; [reflexivity|exact Hg|exact Hr|exact H1|exact H2|exact H3|exact H4].
Qed.

Lemma failed_commit_loses_changes_witness :
  let s := (GS.upsert_object (GS.with_store IM.new) SUBNET_ROOT zero_hash [Byte.x01]).1 in
  GS.has_pending_changes s = true ∧
  ∃ s', GS.commit (H0 := failing_store EmptyTree) 1 s = (s', Err EmptyTree) ∧
    GS.has_pending_changes s' = false.
Proof.
  split; [vm_compute; reflexivity|].
  destruct (failed_commit_loses_changes toy_blake3 EmptyTree
              (GS.upsert_object (GS.with_store IM.new) SUBNET_ROOT zero_hash [Byte.x01]).1 IM.new 1 eq_refl)
    as (s' & H1 & _ & _ & H2 & _).
  exists s'. split; [exact H1|exact H2].
Defined.
