(* ===== verification/Overlay.v ===== *)
(** * Speculative writes and the shared state

    [storage/src/state/speculative_overlay.rs] and [shared.rs]: the writes of
    events that are executed but not final yet are kept per key in a stack, read
    before the state snapshot, and dropped when their event is final.  The mutex
    and the atomic pointer make every operation one step; instants are [Z]. *)

From Stdlib Require Import ZArith Lia.
From stdpp Require Import base gmap sets list strings numbers.
From S2P Require Import Prelude Hash Vlc Event Coin StateStore SparseMerkle MerkleStore StateManager.
#[local] Open Scope setu_scope.

Record SpeculativeEntry := mkSpec {
  se_event_id : EventId;
  se_value : option bytes;
  staged_at : Z
}.

Abbreviation OverlayKey := (SubnetId * HashValue)%type.

Record SpeculativeOverlay := mkOverlay { index : gmap OverlayKey (list SpeculativeEntry) }.

Record OverlayStats := mkOverlayStats {
  entry_count : nat;
  oldest_age : option Z;
  unique_events : nat
}.

Inductive StageError := MalformedKey (key : string).

Inductive ParsedKey :=
| Oid (hv : HashValue)
| NonOid
| BadOid.

Module Overlay.
Section Overlay.
Context `{HexCrate}.

Definition parse_oid_hex_key (key : string) : ParsedKey :=
  match strip_prefix "oid:" key with
  | None => NonOid
  | Some hex_str =>
      if negb (String.length hex_str =? 64)%nat then BadOid
      else
        match hex_decode hex_str with
        | None => BadOid
        | Some b => match hash_of_bytes b with Some hv => Oid hv | None => BadOid end
        end
  end.

Definition new : SpeculativeOverlay := mkOverlay ∅.

Definition get (o : SpeculativeOverlay) (subnet : SubnetId) (oid : HashValue) : option (option bytes) :=
  se_value <$> (index o !! (subnet, oid) ≫= list.last).

(** Phase 1 of [stage]: parse every key, without touching the index. *)
Fixpoint parse_changes (event_id : EventId) (event_subnet : SubnetId) (now : Z) (changes : list StateChange)
    : result StageError (list (OverlayKey * SpeculativeEntry)) :=
  match changes with
  | [] => Ok []
  | change :: rest =>
      match parse_oid_hex_key (sc_key change) with
      | Oid hv =>
          let? staged := parse_changes event_id event_subnet now rest in
          Ok (((default event_subnet (target_subnet change), hv),
               mkSpec event_id (new_value change) now) :: staged)
      | NonOid => parse_changes event_id event_subnet now rest
      | BadOid => Err (MalformedKey (sc_key change))
      end
  end.

Definition push (m : gmap OverlayKey (list SpeculativeEntry)) (kv : OverlayKey * SpeculativeEntry)
    : gmap OverlayKey (list SpeculativeEntry) :=
  <[kv.1 := default [] (m !! kv.1) ++ [kv.2]]> m.

Definition stage (event_id : EventId) (event_subnet : SubnetId) (changes : list StateChange) (now : Z)
    : stm SpeculativeOverlay StageError unit := fun o =>
  match parse_changes event_id event_subnet now changes with
  | Ok staged => (mkOverlay (foldl push (index o) staged), Ok tt)
  | Err e => (o, Err e)
  | Panic => (o, Panic)
  end.

(** [clear_events]: the overlay and the number of entries dropped. *)
Definition clear_events (event_ids : list EventId) (o : SpeculativeOverlay) : SpeculativeOverlay * nat :=
  if bool_decide (event_ids = []) then (o, 0%nat)
  else
    let kept := fmap (M := gmap OverlayKey) (filter (fun e => se_event_id e ∉ event_ids)) (index o) in
    (mkOverlay (filter (fun kv => kv.2 ≠ []) kept),
     (map_sum (fun _ stack => length stack) (index o) - map_sum (fun _ stack => length stack) kept)%nat).

Definition stats (now : Z) (o : SpeculativeOverlay) : OverlayStats :=
  let es := concat (map_to_list (index o)).*2 in
  mkOverlayStats (map_sum (fun _ stack => length stack) (index o))
    (match es with
     | [] => None
     | e :: rest => Some (now - foldr Z.min (staged_at e) (staged_at <$> rest))%Z
     end)
    (length (remove_dups (se_event_id <$> es))).
End Overlay.
End Overlay.

(** ** The shared state *)

Record SharedStateManager (St : Type) := mkShared {
  read_snapshot : GlobalStateManager St;
  write_gsm : GlobalStateManager St;
  sh_overlay : SpeculativeOverlay
}.
Arguments mkShared {St}.
Arguments read_snapshot {St} _.
Arguments write_gsm {St} _.
Arguments sh_overlay {St} _.

Record OverlayView (St : Type) := mkView {
  ov_snapshot : GlobalStateManager St;
  ov_overlay : SpeculativeOverlay
}.
Arguments mkView {St}.
Arguments ov_snapshot {St} _.
Arguments ov_overlay {St} _.

Module Shared.
Section Shared.
Context `{Blake3} `{HexCrate} {St : Type}.

Definition new (gsm : GlobalStateManager St) : SharedStateManager St :=
  mkShared (GS.clone_for_read_snapshot gsm) gsm Overlay.new.

Definition load_snapshot (s : SharedStateManager St) : GlobalStateManager St := read_snapshot s.

(** The state behind the write lock, replaced as a whole. *)
Definition set_write (gsm : GlobalStateManager St) (s : SharedStateManager St) : SharedStateManager St :=
  mkShared (read_snapshot s) gsm (sh_overlay s).

Definition publish_snapshot (gsm : GlobalStateManager St) (s : SharedStateManager St) : SharedStateManager St :=
  mkShared (GS.clone_for_read_snapshot gsm) (write_gsm s) (sh_overlay s).

Definition load_overlay_view (s : SharedStateManager St) : OverlayView St :=
  mkView (read_snapshot s) (sh_overlay s).

Definition stage_overlay (event_id : EventId) (event_subnet : SubnetId) (changes : list StateChange) (now : Z)
    : stm (SharedStateManager St) StageError unit := fun s =>
  let '(o, r) := Overlay.stage event_id event_subnet changes now (sh_overlay s) in
  (mkShared (read_snapshot s) (write_gsm s) o, r).

Definition clear_overlay_events (event_ids : list EventId) (s : SharedStateManager St)
    : SharedStateManager St * nat :=
  let '(o, n) := Overlay.clear_events event_ids (sh_overlay s) in
  (mkShared (read_snapshot s) (write_gsm s) o, n).

Definition view_lookup (v : OverlayView St) (subnet : SubnetId) (hv : HashValue) : option bytes :=
  match Overlay.get (ov_overlay v) subnet hv with
  | Some (Some b) => Some b
  | Some None => None
  | None => GS.get_subnet (ov_snapshot v) subnet ≫= fun smt => SS.get smt hv
  end.

(** [get_subnet_object] and [get_raw_data]; the id of the first has 32 bytes. *)
Definition get_subnet_object (v : OverlayView St) (subnet : SubnetId) (oid : HashValue) : option bytes :=
  view_lookup v subnet oid.
Definition get_raw_data (v : OverlayView St) (key : string) : option bytes :=
  view_lookup v SUBNET_ROOT (blake3 (as_bytes key)).
End Shared.
End Shared.

(** ** The overlay is a log of writes *)

Section Log.
Context `{X : HexCrate}.

(** A write that is staged and not cleared. *)
Abbreviation log := (list (OverlayKey * SpeculativeEntry)).

Definition log_at (l : log) (k : OverlayKey) : list SpeculativeEntry :=
  snd <$> filter (fun kv => kv.1 = k) l.

Definition overlay_log (o : SpeculativeOverlay) (l : log) : Prop :=
  ∀ k, index o !! k = if decide (log_at l k = []) then None else Some (log_at l k).

Inductive overlay_op :=
| OpStage (event_id : EventId) (event_subnet : SubnetId) (changes : list StateChange) (now : Z)
| OpClear (event_ids : list EventId).

Definition overlay_step (o : SpeculativeOverlay) (op : overlay_op) : SpeculativeOverlay :=
  match op with
  | OpStage id sn cs now => (Overlay.stage id sn cs now o).1
  | OpClear ids => (Overlay.clear_events ids o).1
  end.

(** Staging appends the writes of the object keys, or nothing when a key is
    malformed; clearing removes the writes of the events. *)
Definition log_step (l : log) (op : overlay_op) : log :=
  match op with
  | OpStage id sn cs now =>
      match Overlay.parse_changes id sn now cs with Ok staged => l ++ staged | _ => l end
  | OpClear ids => filter (fun kv => se_event_id kv.2 ∉ ids) l
  end.

Lemma log_at_app l l' k : log_at (l ++ l') k = log_at l k ++ log_at l' k.
Proof. unfold log_at. by rewrite list.filter_app, fmap_app. Qed.

Lemma log_at_one k v k' : log_at [(k, v)] k' = if decide (k = k') then [v] else [].
Proof. unfold log_at. rewrite filter_cons, filter_nil. cbn. by case_decide. Qed.

Lemma push_log o l kv : overlay_log o l → overlay_log (mkOverlay (Overlay.push (index o) kv)) (l ++ [kv]).
Proof.
  intros Hl k. destruct kv as [k0 v]. rewrite log_at_app, log_at_one. unfold Overlay.push. cbn.
  destruct (decide (k0 = k)) as [->|Hne].
  - rewrite lookup_insert_eq, (Hl k), (decide_False (P := log_at l k ++ [v] = [])) by (by intros [_ [=]]%app_eq_nil).
    case_decide as He; [by rewrite He|done].
  - rewrite lookup_insert_ne by done. rewrite app_nil_r. apply Hl.
Qed.

Lemma pushes_log o l staged :
  overlay_log o l → overlay_log (mkOverlay (foldl Overlay.push (index o) staged)) (l ++ staged).
Proof.
  revert o l; induction staged as [|kv staged IH]; intros o l Hl; cbn; [by rewrite app_nil_r; destruct o|].
  change (kv :: staged) with ([kv] ++ staged). rewrite app_assoc. apply (IH (mkOverlay (Overlay.push (index o) kv))). by apply push_log.
Qed.

Lemma log_at_filter (P : SpeculativeEntry → Prop) `{!∀ x, Decision (P x)} l k :
  log_at (filter (fun kv => P kv.2) l) k = filter P (log_at l k).
Proof.
  unfold log_at. rewrite list_filter_fmap. f_equal. rewrite !list_filter_filter.
  apply list_filter_iff. intros x. cbn. tauto.
Qed.

Lemma clear_log o l ids : overlay_log o l → overlay_log (Overlay.clear_events ids o).1 (log_step l (OpClear ids)).
Proof.
  intros Hl. unfold Overlay.clear_events. cbn [log_step]. case_bool_decide as He.
  - subst ids. rewrite list_filter_id; [done|]. intros x _. apply not_elem_of_nil.
  - intros k. cbn [fst index]. pose proof (log_at_filter (fun e => se_event_id e ∉ ids) l k) as Hf.
    cbn in Hf. rewrite Hf, map_lookup_filter, lookup_fmap, (Hl k).
    destruct (decide (log_at l k = [])) as [Hk|Hk]; cbn.
    + by rewrite Hk, filter_nil, decide_True.
    + case_decide as He'; [by rewrite option_guard_False by (by intros [])|by rewrite option_guard_True].
Qed.

Lemma overlay_step_log o l op : overlay_log o l → overlay_log (overlay_step o op) (log_step l op).
Proof.
  intros Hl. destruct op as [id sn cs now|ids]; [|by apply clear_log].
  cbn. unfold Overlay.stage. destruct (Overlay.parse_changes id sn now cs); [|done..].
  by apply pushes_log.
Qed.

Lemma overlay_run_log ops o l : overlay_log o l → overlay_log (foldl overlay_step o ops) (foldl log_step l ops).
Proof. revert o l; induction ops as [|op ops IH]; intros o l Hl; [done|]. cbn. by apply IH, overlay_step_log. Qed.
End Log.

(** ** Theorems *)

(** C39: the overlay is the log of the writes that were staged and not cleared.
    After any sequence of stagings and clearings, reading a key through the
    merged view gives the value of the last such write (absent for a staged
    delete), and the value of the state snapshot when there is none; a staging
    with a malformed key returns an error and leaves everything as it was, and
    clearing removes exactly the writes of the given events. *)
Theorem overlay_is_write_log (B : Blake3) (X : HexCrate) (St : Type) (gsm : GlobalStateManager St)
    (ops : list overlay_op) :
  let o := foldl overlay_step Overlay.new ops in
  let l := foldl log_step [] ops in
  (∀ n k, Shared.view_lookup (mkView gsm o) n k =
     match list.last (log_at l (n, k)) with
     | Some e => se_value e
     | None => GS.get_subnet gsm n ≫= fun smt => SS.get smt k
     end) ∧
  (∀ n k, is_Some (Overlay.get o n k) ↔ ∃ e, ((n, k), e) ∈ l) ∧
  (∀ id sn cs now e, Overlay.parse_changes id sn now cs = Err e → Overlay.stage id sn cs now o = (o, Err e)) ∧
  (∀ ids n k e, ((n, k), e) ∈ foldl log_step [] (ops ++ [OpClear ids]) ↔
     ((n, k), e) ∈ l ∧ se_event_id e ∉ ids).
Proof.
  intros o l. assert (Hl : overlay_log o l) by (by apply overlay_run_log).
  assert (Hget : ∀ n k, Overlay.get o n k = se_value <$> list.last (log_at l (n, k))).
  { intros n k. unfold Overlay.get. rewrite (Hl (n, k)). case_decide as He; [by rewrite He|done]. }
  split_and!.
  - intros n k. unfold Shared.view_lookup. cbn. rewrite Hget. by destruct (list.last (log_at l (n, k))) as [[? [?|] ?]|].
  - intros n k. rewrite Hget, fmap_is_Some, last_is_Some. unfold log_at. split.
    + intros Hne. destruct (filter (fun kv => kv.1 = (n, k)) l) as [|[k' e] l'] eqn:Hf; [done|].
      exists e. assert (Hin : (k', e) ∈ filter (fun kv => kv.1 = (n, k)) l) by (rewrite Hf; apply list_elem_of_here).
      apply list_elem_of_filter in Hin as [Hk Hin]. cbn in Hk. by subst k'.
    + intros [e He] Hnil. apply fmap_nil_inv in Hnil.
      assert (Hin : ((n, k), e) ∈ filter (fun kv => kv.1 = (n, k)) l) by (by apply list_elem_of_filter).
      rewrite Hnil in Hin. by apply not_elem_of_nil in Hin.
  - intros id sn cs now e He. unfold Overlay.stage. by rewrite He.
  - intros ids n k e. rewrite foldl_snoc. cbn. rewrite list_elem_of_filter. cbn. tauto.
Qed.
