(* ===== verification/ConsensusTypes.v ===== *)
(** * Anchors, votes and consensus frames

    [types/src/consensus.rs], the roots of [consensus/src/merkle_integration.rs]
    and the event router of [consensus/src/router.rs].  The wall clock is an
    argument [now] of the operations that read it; ed25519 is a parameter. *)

From Stdlib Require Import ZArith Lia Strings.Byte.
From stdpp Require Import base gmap sets list sorting strings numbers.
From S2P Require Import Prelude Hash Vlc Event Coin StateStore BinaryMerkle Aggregation SparseMerkle MerkleStore StateManager.
#[local] Open Scope setu_scope.

Abbreviation AnchorId := string.
Abbreviation CFId := string.

Record Anchor := mkAnchor {
  a_id : AnchorId;
  a_event_ids : list EventId;
  a_vlc_snapshot : VLCSnapshot;
  a_state_root : string;
  merkle_roots : option AnchorMerkleRoots;
  previous_anchor : option AnchorId;
  a_depth : Z;
  a_timestamp : Z
}.

Module Anch.
Section Anch.
Context `{Blake3} `{HexCrate}.

Definition id_preimage (event_ids : list EventId) (vlc : VLCSnapshot) (state_root : string) (ts : Z) : bytes :=
  as_bytes "SETU_ANCHOR_ID:" ++ concat (as_bytes <$> event_ids) ++ to_le_bytes 8 (logical_time vlc)
    ++ as_bytes state_root ++ to_le_bytes 8 ts.

Definition compute_id (event_ids : list EventId) (vlc : VLCSnapshot) (state_root : string) (ts : Z) : AnchorId :=
  hex_encode (hv_bytes (blake3 (id_preimage event_ids vlc state_root ts))).

Definition new (event_ids : list EventId) (vlc : VLCSnapshot) (state_root : string)
    (previous : option AnchorId) (depth now : Z) : Anchor :=
  mkAnchor (compute_id event_ids vlc state_root now) event_ids vlc state_root None previous depth now.

Definition with_merkle_roots (event_ids : list EventId) (vlc : VLCSnapshot) (roots : AnchorMerkleRoots)
    (previous : option AnchorId) (depth now : Z) : Anchor :=
  let state_root := hex_encode (hv_bytes (global_state_root roots)) in
  mkAnchor (compute_id event_ids vlc state_root now) event_ids vlc state_root (Some roots) previous depth now.

Definition event_count (a : Anchor) : nat := length (a_event_ids a).
Definition get_subnet_root (a : Anchor) (subnet : SubnetId) : option HashValue :=
  merkle_roots a ≫= fun m => subnet_roots m !! subnet.

Definition hash_preimage (a : Anchor) : bytes :=
  as_bytes "SETU_ANCHOR_HASH:" ++ as_bytes (a_id a) ++ to_le_bytes 8 (a_depth a)
    ++ match previous_anchor a with Some prev => as_bytes prev | None => [] end
    ++ match merkle_roots a with
       | Some roots => hv_bytes (events_root roots) ++ hv_bytes (global_state_root roots)
                         ++ hv_bytes (anchor_chain_root roots)
       | None => []
       end
    ++ to_le_bytes 8 (logical_time (a_vlc_snapshot a)) ++ to_le_bytes 8 (a_timestamp a).

Definition compute_hash (a : Anchor) : HashValue := blake3 (hash_preimage a).
End Anch.
End Anch.

(** [hash_utils::chain_hash]. *)
Definition chain_hash `{Blake3} (prev_root new_hash : HashValue) : HashValue :=
  blake3 (as_bytes "SETU_ANCHOR_CHAIN:" ++ hv_bytes prev_root ++ hv_bytes new_hash).

(** ** Votes *)

(** The ed25519 functions the votes use; a verifying key may fail to parse. *)
Class Ed25519 := {
  VerifyingKey : Type;
  key_from_bytes : bytes → option VerifyingKey;
  ed_sign : bytes → bytes → bytes;
  ed_verify : VerifyingKey → bytes → bytes → bool
}.

Record Vote := mkVote {
  v_validator_id : string;
  v_cf_id : CFId;
  v_approve : bool;
  v_signature : bytes;
  v_timestamp : Z
}.

Module Vt.
Definition new (validator_id : string) (cf_id : CFId) (approve : bool) (now : Z) : Vote :=
  mkVote validator_id cf_id approve [] now.

Definition with_signature (v : Vote) (signature : bytes) : Vote :=
  mkVote (v_validator_id v) (v_cf_id v) (v_approve v) signature (v_timestamp v).

Definition signing_message (v : Vote) : bytes :=
  as_bytes "SETU_VOTE_V1" ++ as_bytes (v_cf_id v) ++ as_bytes (v_validator_id v)
    ++ [if v_approve v then Byte.x01 else Byte.x00] ++ to_le_bytes 8 (v_timestamp v).

Section Sign.
Context `{Ed25519}.

Definition sign (v : Vote) (private_key : bytes) : result string Vote :=
  if negb (length private_key =? 32)%nat then Err "Invalid private key length"
  else Ok (with_signature v (ed_sign private_key (signing_message v))).

Definition verify_signature (v : Vote) (public_key : bytes) : bool :=
  if bool_decide (v_signature v = []) then false
  else if negb (length public_key =? 32)%nat then false
  else
    match key_from_bytes public_key with
    | None => false
    | Some key => ed_verify key (signing_message v) (v_signature v)
    end.
End Sign.
End Vt.

(** ** Consensus frames *)

Inductive CFStatus := Proposed | Voting | Approved | CFFinalized | Rejected.

#[global] Instance CFStatus_eq_dec : EqDecision CFStatus.
Proof. solve_decision. Defined.

Record ConsensusFrame := mkCF {
  cf_id : CFId;
  cf_round : Z;
  cf_anchor : Anchor;
  cf_proposer : string;
  cf_status : CFStatus;
  cf_votes : gmap string Vote;
  cf_created_at : Z;
  cf_finalized_at : option Z
}.

Module CF.
Section CF.
Context `{Blake3} `{HexCrate}.

Definition id_preimage (round : Z) (anchor : Anchor) (proposer : string) (ts : Z) : bytes :=
  as_bytes "SETU_CF_ID_V2:" ++ to_le_bytes 8 round ++ as_bytes (a_id anchor) ++ as_bytes proposer
    ++ to_le_bytes 8 ts.

Definition compute_id (round : Z) (anchor : Anchor) (proposer : string) (ts : Z) : CFId :=
  hex_encode (hv_bytes (blake3 (id_preimage round anchor proposer ts))).

Definition new (round : Z) (anchor : Anchor) (proposer : string) (now : Z) : ConsensusFrame :=
  mkCF (compute_id round anchor proposer now) round anchor proposer Proposed ∅ now None.

Definition verify_id (cf : ConsensusFrame) : bool :=
  bool_decide (cf_id cf = compute_id (cf_round cf) (cf_anchor cf) (cf_proposer cf) (cf_created_at cf)).
End CF.

Definition set_status (cf : ConsensusFrame) (s : CFStatus) (fin : option Z) : ConsensusFrame :=
  mkCF (cf_id cf) (cf_round cf) (cf_anchor cf) (cf_proposer cf) s (cf_votes cf) (cf_created_at cf) fin.

Definition add_vote (cf : ConsensusFrame) (v : Vote) : ConsensusFrame :=
  mkCF (cf_id cf) (cf_round cf) (cf_anchor cf) (cf_proposer cf) (cf_status cf)
    (<[v_validator_id v := v]> (cf_votes cf)) (cf_created_at cf) (cf_finalized_at cf).

Definition approve_count (cf : ConsensusFrame) : nat :=
  size (filter (fun kv => v_approve kv.2 = true) (cf_votes cf)).
Definition reject_count (cf : ConsensusFrame) : nat :=
  size (filter (fun kv => v_approve kv.2 = false) (cf_votes cf)).

Definition quorum_threshold (total : nat) : nat := (total * 2) / 3 + 1.
Definition rejection_threshold (total : nat) : nat := total / 3 + 1.

Definition check_quorum (cf : ConsensusFrame) (total_validators : nat) : bool :=
  (quorum_threshold total_validators <=? approve_count cf)%nat.
Definition check_rejection (cf : ConsensusFrame) (total_validators : nat) : bool :=
  (rejection_threshold total_validators <=? reject_count cf)%nat.

Definition is_timeout (cf : ConsensusFrame) (timeout_ms now : Z) : bool :=
  (timeout_ms <? saturating_sub now (cf_created_at cf))%Z.

Definition finalize (cf : ConsensusFrame) (now : Z) : ConsensusFrame := set_status cf CFFinalized (Some now).
Definition reject (cf : ConsensusFrame) : ConsensusFrame := set_status cf Rejected (cf_finalized_at cf).
End CF.

Record ConsensusConfig := mkConfig {
  vlc_delta_threshold : Z;
  min_events_per_cf : nat;
  max_events_per_cf : nat;
  cf_timeout_ms : Z;
  validator_count : nat
}.

Definition config_default : ConsensusConfig := mkConfig 10 1 1000 5000 3.

(** ** Roots of events and anchors *)

Section Roots.
Context `{Blake3}.

Definition compute_events_root_with_sorted (evs : list Event) : HashValue * list Event :=
  if bool_decide (evs = []) then (zero_hash, [])
  else
    let sorted_events := merge_sort event_le evs in
    (Bin.root (Bin.build ((fun e => as_bytes (ev_id e)) <$> sorted_events)), sorted_events).

Definition compute_events_root (evs : list Event) : HashValue :=
  if bool_decide (evs = []) then zero_hash
  else Bin.root (Bin.build ((fun e => as_bytes (ev_id e)) <$> merge_sort event_le evs)).

Definition compute_anchor_chain_root (anchors : list Anchor) : HashValue :=
  if bool_decide (anchors = []) then zero_hash
  else Bin.root (Bin.build ((fun a => as_bytes (a_id a)) <$> anchors)).

Definition compute_anchor_chain_root_from_hashes (hashes : list HashValue) : HashValue :=
  if bool_decide (hashes = []) then zero_hash
  else Bin.root (Bin.build (hv_bytes <$> hashes)).

Definition compute_global_state_root (roots : gmap SubnetId HashValue) : HashValue :=
  if bool_decide (roots = ∅) then zero_hash
  else Agg.root (Agg.build ((fun kv => Agg.entry_new kv.1 kv.2) <$> map_to_list roots)).

(** [AnchorMerkleRootsBuilder::build]. *)
Definition build_merkle_roots (evs : list Event) (anchors : list Anchor) (roots : gmap SubnetId HashValue)
    : AnchorMerkleRoots :=
  mkRoots (compute_events_root evs) (compute_global_state_root roots) (compute_anchor_chain_root anchors) roots.
End Roots.

(** ** Routing *)

Record RoutedEvents := mkRouted {
  root_events : list Event;
  system_events : gmap SubnetId (list Event);
  app_events : gmap SubnetId (list Event);
  unrouted_events : list Event
}.

Module Router.
Definition new : RoutedEvents := mkRouted [] ∅ ∅ [].

(** [SubnetId::is_system] and [is_app]: the type byte. *)
Definition type_byte (n : SubnetId) : Z := HV.byte_at n 0.
Definition is_system (n : SubnetId) : bool := (type_byte n <=? 1)%Z.
Definition is_app (n : SubnetId) : bool := (type_byte n =? 2)%Z.

Definition push_to (m : gmap SubnetId (list Event)) (n : SubnetId) (e : Event) : gmap SubnetId (list Event) :=
  <[n := default [] (m !! n) ++ [e]]> m.

Definition route_event (r : RoutedEvents) (e : Event) : RoutedEvents :=
  match subnet_id e with
  | None => mkRouted (root_events r) (system_events r) (app_events r) (unrouted_events r ++ [e])
  | Some _ =>
      let n := get_subnet_id e in
      if EType.is_validator_executed (event_type e) || bool_decide (n = SUBNET_ROOT)
      then mkRouted (root_events r ++ [e]) (system_events r) (app_events r) (unrouted_events r)
      else if is_system n
      then mkRouted (root_events r) (push_to (system_events r) n e) (app_events r) (unrouted_events r)
      else if is_app n
      then mkRouted (root_events r) (system_events r) (push_to (app_events r) n e) (unrouted_events r)
      else mkRouted (root_events r) (system_events r) (app_events r) (unrouted_events r ++ [e])
  end.

Definition route_events (evs : list Event) : RoutedEvents := foldl route_event new evs.

Definition total_count (r : RoutedEvents) : nat :=
  (length (root_events r) + map_sum (fun _ l => length l) (system_events r)
   + map_sum (fun _ l => length l) (app_events r) + length (unrouted_events r))%nat.

Definition active_subnets (r : RoutedEvents) : list SubnetId :=
  let subnets := (map_to_list (app_events r)).*1 ++ (map_to_list (system_events r)).*1 in
  if bool_decide (root_events r = []) then subnets else SUBNET_ROOT :: subnets.

Record SubnetExecutionBatch := mkExecBatch {
  eb_subnet_id : SubnetId;
  eb_events : list Event;
  validator_executed : bool;
  requires_tee : bool
}.

Definition batch_new (n : SubnetId) (evs : list Event) : SubnetExecutionBatch :=
  mkExecBatch n evs (is_system n) (is_app n).

Definition create_execution_batches (r : RoutedEvents) : list SubnetExecutionBatch :=
  (if bool_decide (root_events r = []) then [] else [batch_new SUBNET_ROOT (root_events r)])
    ++ ((fun kv => batch_new kv.1 kv.2) <$> map_to_list (app_events r)).

(** [PendingAnchorBuild::all_events]. *)
Definition all_events (r : RoutedEvents) : list Event :=
  root_events r ++ concat (map_to_list (system_events r)).*2 ++ concat (map_to_list (app_events r)).*2
    ++ unrouted_events r.
End Router.

(** Routing keeps every event, in exactly one place. *)
Lemma push_to_perm m n e :
  concat (map_to_list (Router.push_to m n e)).*2 ≡ₚ concat (map_to_list m).*2 ++ [e].
Proof.
  unfold Router.push_to. destruct (m !! n) as [l|] eqn:Hn.
  - rewrite <-(insert_delete_id m n l) at 2 by done. rewrite <-insert_delete_eq.
    rewrite !map_to_list_insert by apply lookup_delete_eq. cbn.
    rewrite <-!(assoc_L (++)). f_equiv. apply Permutation_app_comm.
  - rewrite map_to_list_insert by done. cbn. rewrite (Permutation_app_comm _ [e]). done.
Qed.

Lemma route_event_perm r e : Router.all_events (Router.route_event r e) ≡ₚ Router.all_events r ++ [e].
Proof.
  unfold Router.route_event, Router.all_events. destruct (subnet_id e).
  2: { cbn. by rewrite <-!(assoc_L (++)). }
  destruct (_ || _); [|destruct (Router.is_system _); [|destruct (Router.is_app _)]];
    cbn [root_events system_events app_events unrouted_events]; rewrite ?push_to_perm;
    generalize (root_events r), (concat (map_to_list (system_events r)).*2),
      (concat (map_to_list (app_events r)).*2), (unrouted_events r); intros; solve_Permutation.
Qed.

Lemma route_events_perm evs : Router.all_events (Router.route_events evs) ≡ₚ evs.
Proof.
  unfold Router.route_events. assert (Hg : ∀ r, Router.all_events (foldl Router.route_event r evs) ≡ₚ Router.all_events r ++ evs).
  { induction evs as [|e evs IH]; intros r; cbn; [by rewrite app_nil_r|].
    rewrite IH, route_event_perm, <-(assoc_L (++)). done. }
  by rewrite Hg.
Qed.
