(* ===== verification/AnchorBuilder.v ===== *)
(** * The anchor builder

    [consensus/src/anchor_builder.rs]: a leader prepares an anchor on a clone of
    the state, and commits it when its frame is final; a follower checks the
    declared root on a clone before it applies and commits the same events.
    [outcomes_sink] holds the calls made to the outcome sink, when there is one.
    The diagnostics behind a feature flag are not modelled. *)

From Stdlib Require Import ZArith Lia.
From stdpp Require Import base gmap sets list sorting strings numbers.
From S2P Require Import Prelude Hash Vlc Event Dag Coin StateStore SparseMerkle MerkleStore StateManager Overlay ConsensusTypes.
#[local] Open Scope setu_scope.

(** ** The same-key fold policy *)

Abbreviation ClaimedWriteKey := (SubnetId * HashValue)%type.

Section Policy.
Context `{Blake3} `{HexCrate}.

Definition collect_event_write_keys (event : Event) : gset ClaimedWriteKey :=
  match execution_result event with
  | None => ∅
  | Some res =>
      if er_success res then
        list_to_set ((fun change => (GS.change_target (get_subnet_id event) change,
                                     GS.parse_state_change_key (sc_key change))) <$> state_changes res)
      else ∅
  end.

(** The scan of the sorted events; [claimed] are the keys of the events kept so far. *)
Fixpoint fold_scan (claimed : gset ClaimedWriteKey) (evs : list Event) : list Event * list Event :=
  match evs with
  | [] => ([], [])
  | e :: rest =>
      let write_keys := collect_event_write_keys e in
      if bool_decide (write_keys ## claimed) then
        let '(kept, deferred) := fold_scan (write_keys ∪ claimed) rest in (e :: kept, deferred)
      else
        let '(kept, deferred) := fold_scan claimed rest in (kept, e :: deferred)
  end.

Definition apply_strict_same_key_fold_policy (evs : list Event) : list Event * list Event :=
  fold_scan ∅ (merge_sort event_le evs).
End Policy.

(** ** Data *)

Record StateChangeEntry := mkSCEntry {
  sce_event_id : EventId;
  sce_subnet_id : SubnetId;
  sce_changes : list StateChange
}.

Record BuilderStateSnapshot := mkBSnap {
  bs_last_anchor_id : option AnchorId;
  bs_anchor_depth : Z;
  bs_last_fold_vlc : Z;
  bs_last_anchor_chain_root : HashValue;
  bs_total_anchor_count : Z
}.

Record PendingAnchorBuild := mkPending {
  pb_anchor : Anchor;
  routed_events : RoutedEvents;
  pending_state_changes : gmap SubnetId (list StateChangeEntry);
  pre_build_snapshot : BuilderStateSnapshot;
  pb_events_root : HashValue;
  new_anchor_chain_root : HashValue;
  new_anchor_depth : Z;
  new_last_fold_vlc : Z
}.

Inductive AnchorBuildError :=
| InsufficientEvents (required found : nat)
| DeltaNotReached (required current : Z)
| ABStateApplyError (e : GS.StateApplyError)
| ABMerkleError (e : MerkleError)
| NoEvents
| SnapshotMismatch (expected_depth actual_depth : Z)
| MissingEvents (expected found : nat)
| RootMismatch (expected actual : HashValue).

Inductive ExecutionOutcome :=
| OApplied (oc_cf_id : string)
| OExecutionFailed (oc_cf_id : string) (reason : option string)
| OStaleRead (oc_cf_id conflicting_object retry_hint : string).

Record AnchorBuilder (St : Type) := mkBuilder {
  ab_config : ConsensusConfig;
  ab_shared : SharedStateManager St;
  last_anchor : option Anchor;
  anchor_depth : Z;
  last_fold_vlc : Z;
  last_anchor_chain_root : HashValue;
  total_anchor_count : Z;
  last_fold_instant : option Z;
  outcomes_sink : option (list (EventId * ExecutionOutcome))
}.
Arguments mkBuilder {St}.
Arguments ab_config {St} _.
Arguments ab_shared {St} _.
Arguments last_anchor {St} _.
Arguments anchor_depth {St} _.
Arguments last_fold_vlc {St} _.
Arguments last_anchor_chain_root {St} _.
Arguments total_anchor_count {St} _.
Arguments last_fold_instant {St} _.
Arguments outcomes_sink {St} _.

Module AB.
Section AB.
Context `{Blake3} `{HexCrate} `{StateBcs} {St : Type} `{B4Store St}.

Abbreviation Builder := (AnchorBuilder St).

Definition with_shared_state_manager (config : ConsensusConfig) (shared : SharedStateManager St) : Builder :=
  mkBuilder config shared None 0 0 zero_hash 0 None None.

Definition new (config : ConsensusConfig) : Builder :=
  with_shared_state_manager config (Shared.new GS.new).

Definition set_shared (f : SharedStateManager St → SharedStateManager St) (b : Builder) : Builder :=
  mkBuilder (ab_config b) (f (ab_shared b)) (last_anchor b) (anchor_depth b) (last_fold_vlc b)
    (last_anchor_chain_root b) (total_anchor_count b) (last_fold_instant b) (outcomes_sink b).

Definition set_outcomes_sink (b : Builder) : Builder :=
  mkBuilder (ab_config b) (ab_shared b) (last_anchor b) (anchor_depth b) (last_fold_vlc b)
    (last_anchor_chain_root b) (total_anchor_count b) (last_fold_instant b) (Some []).

Definition restore_state (chain_root : HashValue) (depth count fold_vlc : Z) (b : Builder) : Builder :=
  mkBuilder (ab_config b) (ab_shared b) (last_anchor b) depth fold_vlc chain_root count
    (last_fold_instant b) (outcomes_sink b).

Definition should_fold (b : Builder) (current_vlc : VLC) : bool :=
  (vlc_delta_threshold (ab_config b) <=?
     saturating_sub (logical_time (Vlc.snapshot current_vlc)) (last_fold_vlc b))%Z.

(** *** Outcomes *)

(** The verdict on one event; a map built from the conflict list keeps the last
    record of an id. *)
Definition outcome_of (cf_id : string) (summary : StateApplySummary) (ev : Event) : ExecutionOutcome :=
  let conflicted : gmap EventId string :=
    foldl (fun m r => <[cr_event_id r := conflicting_object r]> m) ∅ (conflicted_events summary) in
  if is_genesis ev then OApplied cf_id
  else
    match conflicted !! ev_id ev with
    | Some obj =>
        OStaleRead cf_id obj
          ("object " +:+ obj +:+ " was concurrently modified; re-read and retry")
    | None =>
        if bool_decide (ev_id ev ∈ failed_events summary)
        then OExecutionFailed cf_id (execution_result ev ≫= er_message)
        else OApplied cf_id
    end.

Definition ingest_outcomes (cf_id : string) (applied : list Event) (summary : StateApplySummary)
    (b : Builder) : Builder :=
  mkBuilder (ab_config b) (ab_shared b) (last_anchor b) (anchor_depth b) (last_fold_vlc b)
    (last_anchor_chain_root b) (total_anchor_count b) (last_fold_instant b)
    ((fun calls => calls ++ ((fun ev => (ev_id ev, outcome_of cf_id summary ev)) <$> applied))
       <$> outcomes_sink b).

(** *** Preparing *)

Definition take_snapshot (b : Builder) : BuilderStateSnapshot :=
  mkBSnap (a_id <$> last_anchor b) (anchor_depth b) (last_fold_vlc b) (last_anchor_chain_root b)
    (total_anchor_count b).

Definition verify_snapshot (b : Builder) (s : BuilderStateSnapshot) : bool :=
  (anchor_depth b =? bs_anchor_depth s)%Z && (last_fold_vlc b =? bs_last_fold_vlc s)%Z
  && bool_decide (last_anchor_chain_root b = bs_last_anchor_chain_root s)
  && bool_decide (a_id <$> last_anchor b = bs_last_anchor_id s).

Definition collect_state_changes (evs : list Event) : gmap SubnetId (list StateChangeEntry) :=
  foldl (fun m e =>
    match execution_result e with
    | Some res =>
        if er_success res && negb (bool_decide (length (state_changes res) = 0%nat)) then
          let n := get_subnet_id e in
          <[n := default [] (m !! n) ++ [mkSCEntry (ev_id e) n (state_changes res)]]> m
        else m
    | None => m
    end) ∅ evs.

(** The root of the events on a detached clone of the state. *)
Definition compute_state_root_from_events (b : Builder) (evs : list Event)
    : result MerkleError (HashValue * gmap SubnetId HashValue) :=
  let temp := GS.clone (write_gsm (ab_shared b)) in
  let? (temp', _) := GS.apply_committed_events temp evs 0 in
  Ok (GS.compute_global_root temp').

Definition prepare_build_internal (b : Builder) (evs : list Event) (vlc : VLC) (to_depth now : Z)
    : result AnchorBuildError PendingAnchorBuild :=
  let ev_root := compute_events_root evs in
  match compute_state_root_from_events b evs with
  | Ok (state_root, sroots) =>
      let chain_root := last_anchor_chain_root b in
      let roots := mkRoots ev_root state_root chain_root sroots in
      let anchor := Anch.with_merkle_roots (ev_id <$> evs) (Vlc.snapshot vlc) roots
                      (a_id <$> last_anchor b) to_depth now in
      Ok (mkPending anchor (Router.route_events evs) (collect_state_changes evs) (take_snapshot b) ev_root
            (chain_hash chain_root (Anch.compute_hash anchor)) (u64_add to_depth 1)
            (logical_time (Vlc.snapshot vlc)))
  | _ => Panic
  end.

(** The pending events that no frame in flight references, after the fold
    policy and the cut at [max_events_per_cf]. *)
Definition select_events (b : Builder) (dag : Dag) (in_flight : gset EventId) : list Event :=
  take (max_events_per_cf (ab_config b))
    (apply_strict_same_key_fold_policy
       (filter (fun e => ev_id e ∉ in_flight) (D.get_pending_events dag))).1.

Definition prepare_selected (b : Builder) (dag : Dag) (vlc : VLC) (in_flight : gset EventId) (now : Z)
    : result AnchorBuildError PendingAnchorBuild :=
  let evs := select_events b dag in_flight in
  if (length evs <? min_events_per_cf (ab_config b))%nat
  then Err (InsufficientEvents (min_events_per_cf (ab_config b)) (length evs))
  else if bool_decide (length evs = 0%nat) then Err NoEvents
  else prepare_build_internal b evs vlc (max_depth dag) now.

Definition prepare_build (b : Builder) (dag : Dag) (vlc : VLC) (in_flight : gset EventId) (now : Z)
    : result AnchorBuildError PendingAnchorBuild :=
  let delta := saturating_sub (logical_time (Vlc.snapshot vlc)) (last_fold_vlc b) in
  if (delta <? vlc_delta_threshold (ab_config b))%Z
  then Err (DeltaNotReached (vlc_delta_threshold (ab_config b)) delta)
  else prepare_selected b dag vlc in_flight now.

(** Milliseconds; [None] (no fold yet) counts as [u64::MAX] seconds. *)
Definition elapsed_since_last_fold (b : Builder) (now : Z) : Z :=
  match last_fold_instant b with
  | Some t => (now - t)%Z
  | None => (u64_max * 1000)%Z
  end.

Definition prepare_build_heartbeat (b : Builder) (dag : Dag) (vlc : VLC) (heartbeat_interval : Z)
    (in_flight : gset EventId) (now : Z) : result AnchorBuildError PendingAnchorBuild :=
  if (elapsed_since_last_fold b now <? heartbeat_interval)%Z
  then Err (DeltaNotReached (vlc_delta_threshold (ab_config b))
              (saturating_sub (logical_time (Vlc.snapshot vlc)) (last_fold_vlc b)))
  else prepare_selected b dag vlc in_flight now.

Definition force_prepare_build (b : Builder) (evs : list Event) (vlc : VLC) (depth now : Z)
    : result AnchorBuildError PendingAnchorBuild :=
  if bool_decide (length evs = 0%nat) then Err NoEvents
  else prepare_build_internal b (take (max_events_per_cf (ab_config b)) evs) vlc depth now.

(** *** Committing *)

Definition clear_overlay (ids : list EventId) (b : Builder) : Builder :=
  set_shared (fun sh => (Shared.clear_overlay_events ids sh).1) b.

(** Under the write lock: apply, commit, publish the snapshot.  The state keeps
    what was applied also when the commit fails. *)
Definition apply_and_commit (evs : list Event) (finalized_depth anchor_id : Z)
    : stm Builder AnchorBuildError StateApplySummary := fun b =>
  match GS.apply_committed_events (write_gsm (ab_shared b)) evs finalized_depth with
  | Ok (g1, summary) =>
      match GS.commit anchor_id g1 with
      | (g2, Ok _) =>
          (set_shared (fun sh => Shared.publish_snapshot g2 (Shared.set_write g2 sh)) b, Ok summary)
      | (g2, Err e) => (set_shared (Shared.set_write g2) b, Err (ABMerkleError e))
      | (g2, Panic) => (set_shared (Shared.set_write g2) b, Panic)
      end
  | _ => (b, Panic)
  end.

Definition commit_build (pending : PendingAnchorBuild) (now : Z)
    : stm Builder AnchorBuildError StateApplySummary := fun b =>
  let evs := Router.all_events (routed_events pending) in
  if negb (verify_snapshot b (pre_build_snapshot pending)) then
    (clear_overlay (ev_id <$> evs) b,
     Err (SnapshotMismatch (bs_anchor_depth (pre_build_snapshot pending)) (anchor_depth b)))
  else
    match apply_and_commit evs (new_anchor_depth pending) (u64_add (anchor_depth b) 1) b with
    | (b1, Ok summary) =>
        let b2 := clear_overlay (ev_id <$> evs)
                    (ingest_outcomes (a_id (pb_anchor pending)) evs summary b1) in
        (mkBuilder (ab_config b2) (ab_shared b2) (Some (pb_anchor pending)) (new_anchor_depth pending)
           (new_last_fold_vlc pending) (new_anchor_chain_root pending) (u64_add (total_anchor_count b2) 1)
           (Some now) (outcomes_sink b2), Ok summary)
    | (b1, Err e) => (clear_overlay (ev_id <$> evs) b1, Err e)
    | (b1, Panic) => (b1, Panic)
    end.

Definition synchronize_finalized_anchor (anchor : Anchor) (now : Z) (b : Builder) : Builder :=
  let chain_root :=
    match merkle_roots anchor with
    | Some roots => chain_hash (anchor_chain_root roots) (Anch.compute_hash anchor)
    | None => last_anchor_chain_root b
    end in
  mkBuilder (ab_config b) (ab_shared b) (Some anchor) (u64_add (a_depth anchor) 1)
    (logical_time (a_vlc_snapshot anchor)) chain_root (u64_add (total_anchor_count b) 1) (Some now)
    (outcomes_sink b).

Definition apply_follower_finalized_cf (evs : list Event) (cf : ConsensusFrame) (now : Z)
    : stm Builder AnchorBuildError StateApplySummary := fun b =>
  let anchor := cf_anchor cf in
  if negb (length evs =? length (a_event_ids anchor))%nat then
    (clear_overlay (a_event_ids anchor) b, Err (MissingEvents (length (a_event_ids anchor)) (length evs)))
  else
    let anchor_id := u64_add (anchor_depth b) 1 in
    let finalized_depth := u64_add (a_depth anchor) 1 in
    let '(b1, inner) :=
      match merkle_roots anchor with
      | Some roots =>
          match GS.apply_committed_events (GS.clone (write_gsm (ab_shared b))) evs finalized_depth with
          | Ok (temp, _) =>
              let expected := (GS.compute_global_root temp).1 in
              if bool_decide (expected = global_state_root roots)
              then apply_and_commit evs finalized_depth anchor_id b
              else (b, Err (RootMismatch expected (global_state_root roots)))
          | _ => (b, Panic)
          end
      | None => apply_and_commit evs finalized_depth anchor_id b
      end in
    match inner with
    | Ok summary =>
        let b2 := clear_overlay (ev_id <$> evs) (ingest_outcomes (a_id anchor) evs summary b1) in
        (synchronize_finalized_anchor anchor now b2, Ok summary)
    | Err e => (clear_overlay (ev_id <$> evs) b1, Err e)
    | Panic => (b1, Panic)
    end.

Definition get_subnet_root (b : Builder) (subnet : SubnetId) : option HashValue :=
  GS.get_subnet_root (read_snapshot (ab_shared b)) subnet.
Definition get_global_root (b : Builder) : HashValue :=
  (GS.compute_global_root (read_snapshot (ab_shared b))).1.
End AB.
End AB.
