(* ===== verification/AnchorProps.v ===== *)
(** * Properties of the anchor builder *)

From Stdlib Require Import ZArith Lia Strings.Byte.
From stdpp Require Import base gmap sets list sorting strings numbers.
From S2P Require Import Prelude Hash Vlc Event Dag Coin StateStore SparseMerkle MerkleStore Aggregation StateManager StateEquiv StateSpec StatePersist StateProps Overlay ConsensusTypes AnchorBuilder.
#[local] Open Scope setu_scope.

(** ** The fold policy *)

Lemma StronglySorted_sublist {A} (R : relation A) (l l' : list A) :
  l `sublist_of` l' → StronglySorted R l' → StronglySorted R l.
Proof.
  induction 1 as [|x l l' Hl IH|x l l' Hl IH]; intros Hs; [done| |].
  - apply StronglySorted_inv in Hs as [Hs Hx]. constructor; [by apply IH|].
    rewrite list.Forall_forall in *. intros y Hy. apply Hx. by eapply elem_of_sublist.
  - apply StronglySorted_inv in Hs as [Hs _]. by apply IH.
Qed.

Section Fold.
Context `{B : Blake3} `{X : HexCrate}.

Abbreviation keys := collect_event_write_keys.

Definition keys_of (es : list Event) : gset ClaimedWriteKey := ⋃ (keys <$> es).

Lemma elem_of_keys_of k es : k ∈ keys_of es ↔ ∃ e, e ∈ es ∧ k ∈ keys e.
Proof. unfold keys_of. rewrite elem_of_union_list. setoid_rewrite list_elem_of_fmap. naive_solver. Qed.

(** The scan after the events [past] were kept. *)
Lemma fold_scan_spec past claimed es :
  claimed = keys_of past → (∀ p e, p ∈ past → e ∈ es → event_le p e) → StronglySorted event_le es →
  let '(kept, deferred) := fold_scan claimed es in
  kept ++ deferred ≡ₚ es ∧ kept `sublist_of` es ∧
  (∀ e, e ∈ kept → keys e ## claimed) ∧
  ForallPairs (fun a b => a = b ∨ keys a ## keys b) kept ∧
  (∀ e, e ∈ deferred → ∃ e', e' ∈ past ++ kept ∧ event_le e' e ∧ ¬ keys e ## keys e').
Proof.
  revert past claimed; induction es as [|e es IH]; intros past claimed Hc Hp Hs; cbn [fold_scan].
  { split_and!; [done|done|..]; intros ?; try by intros ?%not_elem_of_nil. intros ? []. }
  apply StronglySorted_inv in Hs as [Hs He]. rewrite list.Forall_forall in He. case_bool_decide as Hd.
  - specialize (IH (past ++ [e]) (keys e ∪ claimed)). destruct (fold_scan _ es) as [kept deferred].
    destruct IH as (H1 & H2 & H3 & H4 & H5); [..|done|].
    { subst claimed. unfold keys_of. rewrite fmap_app, union_list_app_L. cbn. set_solver. }
    { intros p x [Hin| ->%list_elem_of_singleton]%elem_of_app Hx; [|by apply He].
      apply Hp; [done|]. by apply list_elem_of_further. }
    split_and!; [cbn; by rewrite H1|by apply sublist_skip| | |].
    + intros x [->|Hx]%elem_of_cons; [done|]. specialize (H3 x Hx). set_solver.
    + intros a b [<-|Ha]%list_elem_of_In%elem_of_cons [<-|Hb]%list_elem_of_In%elem_of_cons; [by left|..].
      * right. specialize (H3 b Hb). set_solver.
      * right. specialize (H3 a Ha). set_solver.
      * apply H4; by apply list_elem_of_In.
    + intros x Hx. destruct (H5 x Hx) as (e' & Hin & ?). exists e'. split; [|done].
      rewrite !elem_of_app, list_elem_of_singleton in Hin. rewrite elem_of_app, elem_of_cons. tauto.
  - specialize (IH past claimed Hc). destruct (fold_scan claimed es) as [kept deferred].
    destruct IH as (H1 & H2 & H3 & H4 & H5); [|done|].
    { intros p x Hin Hx. apply Hp; [done|]. by apply list_elem_of_further. }
    split_and!; [by rewrite <-Permutation_middle, H1|by apply sublist_cons|done|done|].
    intros x [->|Hx]%elem_of_cons; [|by apply H5].
    assert (∃ k, k ∈ keys e ∧ k ∈ claimed) as (k & Hk & Hkc).
    { clear -Hd. apply dec_stable. intros Hn. apply Hd. intros k ??. apply Hn. eauto. }
    rewrite Hc in Hkc. apply elem_of_keys_of in Hkc as (p & Hpp & Hkp). exists p. split; [set_solver|].
    split; [apply Hp; [done|apply list_elem_of_here]|]. set_solver.
Qed.
End Fold.

(** ** Events that write different keys do not interfere *)

Section Independent.
Context `{B : Blake3} `{X : HexCrate}.

Abbreviation keys := collect_event_write_keys.

(** Two worlds that hold the same values under the keys. *)
Definition agree_on (K : gset ClaimedWriteKey) (w w' : world) : Prop :=
  ∀ n k, (n, k) ∈ K → w_get w n k = w_get w' n k.

Definition change_key (subnet : SubnetId) (c : StateChange) : ClaimedWriteKey :=
  (GS.change_target subnet c, change_id c).

Lemma spec_change_get subnet w c n k :
  w_get (spec_change subnet w c) n k = if decide (change_key subnet c = (n, k)) then new_value c else w_get w n k.
Proof. apply w_get_write. Qed.

Lemma agree_on_change K subnet w w' c :
  agree_on K w w' → agree_on K (spec_change subnet w c) (spec_change subnet w' c).
Proof. intros Hw n k Hk. rewrite !spec_change_get. case_decide; [done|by apply Hw]. Qed.

(** The verdict on the changes depends on the values under their keys only. *)
Lemma spec_conflict_agree K subnet w0 w0' w w' cs :
  (∀ c, c ∈ cs → change_key subnet c ∈ K) → agree_on K w0 w0' → agree_on K w w' →
  spec_conflict subnet w0 w cs = spec_conflict subnet w0' w' cs.
Proof.
  revert w w'; induction cs as [|c cs IH]; intros w w' HK H0 Hw; [done|]. cbn [spec_conflict].
  assert (Hk : change_key subnet c ∈ K) by (apply HK, list_elem_of_here).
  assert (Ha : spec_allowed w0 w (GS.change_target subnet c) c = spec_allowed w0' w' (GS.change_target subnet c) c).
  { unfold spec_allowed. rewrite (H0 _ _ Hk), (Hw _ _ Hk). done. }
  rewrite Ha. destruct (spec_allowed w0' w' (GS.change_target subnet c) c); [|done]. apply IH; [|done|by apply agree_on_change].
  intros c' Hc'. apply HK. by apply list_elem_of_further.
Qed.

Lemma spec_event_agree w w' e :
  agree_on (keys e) w w' → (spec_event w e).2 = (spec_event w' e).2.
Proof.
  intros Hw. unfold spec_event, collect_event_write_keys in *.
  destruct (execution_result e) as [res|]; [|done]. destruct (er_success res); [|done].
  assert (Hc : spec_conflict (get_subnet_id e) w w (state_changes res) =
               spec_conflict (get_subnet_id e) w' w' (state_changes res)).
  { eapply spec_conflict_agree; [|exact Hw|exact Hw]. intros c Hc. apply elem_of_list_to_set.
    apply list_elem_of_fmap. by exists c. }
  rewrite Hc. by destruct (spec_conflict (get_subnet_id e) w' w' (state_changes res)).
Qed.

(** An event writes under its keys only. *)
Lemma foldl_change_get subnet cs w n k :
  (∀ c, c ∈ cs → change_key subnet c ≠ (n, k)) → w_get (foldl (spec_change subnet) w cs) n k = w_get w n k.
Proof.
  revert w; induction cs as [|c cs IH]; intros w Hk; [done|]. cbn. rewrite IH.
  - rewrite spec_change_get, decide_False; [done|]. apply Hk, list_elem_of_here.
  - intros c' Hc'. apply Hk. by apply list_elem_of_further.
Qed.

Lemma spec_event_frame w e n k : (n, k) ∉ keys e → w_get (spec_event w e).1 n k = w_get w n k.
Proof.
  unfold spec_event, collect_event_write_keys. destruct (execution_result e) as [res|]; [|done].
  destruct (er_success res); [|done]. destruct (spec_conflict _ _ _ _); [done|]. intros Hk.
  apply foldl_change_get. intros c Hc Heq. apply Hk, elem_of_list_to_set, list_elem_of_fmap.
  exists c. split; [by rewrite <-Heq|done].
Qed.

Lemma spec_events_independent w es :
  NoDup es → ForallPairs (fun a b => a = b ∨ keys a ## keys b) es →
  (spec_events w es).2 = (fun e => (e, (spec_event w e).2)) <$> es.
Proof.
  intros Hnd Hp. cut (∀ w', (∀ e, e ∈ es → agree_on (keys e) w w') →
    (spec_events w' es).2 = (fun e => (e, (spec_event w e).2)) <$> es); [by intros Hc; apply Hc|].
  induction es as [|e es IH]; intros w' Hw; [done|]. apply list.NoDup_cons in Hnd as [Hni Hnd].
  cbn [spec_events fmap list_fmap].
  rewrite (spec_event_agree w w' e) by (apply Hw, list_elem_of_here).
  destruct (spec_event w' e) as [w1 v] eqn:He. cbn [snd].
  assert (IHe : (spec_events w1 es).2 = (fun e => (e, (spec_event w e).2)) <$> es).
  { apply IH; [done|intros a b Ha Hb; apply Hp; by right|].
    intros x Hx n k Hk. rewrite (Hw x); [|by apply list_elem_of_further|done].
    symmetry. replace w1 with (spec_event w' e).1 by (by rewrite He). apply spec_event_frame.
    destruct (Hp e x) as [<-|Hd]; [by left|right; by apply list_elem_of_In|done|]. set_solver. }
  destruct (spec_events w1 es) as [w2 vs]. cbn [snd] in *. by rewrite IHe.
Qed.
End Independent.

(** ** Commits keep the trees *)

Section Commit.
Context `{B : Blake3} {St : Type} `{B4 : B4Store St}.

Lemma take_changes_eqv smt : smt_eqv (SS.take_changes smt).1 smt.
Proof. done. Qed.

Lemma commit_subnet_eqv a n smt b : smt_eqv (GS.commit_subnet a n smt b).1 smt.
Proof. unfold GS.commit_subnet. by destruct (SS.has_pending_changes smt). Qed.

Lemma commit_subnets_eqv a l b acc :
  (∀ n smt, (n, smt) ∈ l → ∃ x, acc !! n = Some x ∧ smt_eqv x smt) →
  ∀ n, option_Forall2 smt_eqv ((GS.commit_subnets a l b acc).1 !! n) (acc !! n).
Proof.
  revert b acc; induction l as [|[n0 smt] l IH]; intros b acc Hl n; [reflexivity|].
  cbn [GS.commit_subnets]. pose proof (commit_subnet_eqv a n0 smt b) as Hc.
  destruct (GS.commit_subnet a n0 smt b) as [smt' r]. cbn [fst] in Hc.
  destruct (Hl n0 smt) as (x & Hx & Hxs); [apply list_elem_of_here|].
  assert (Hins : ∀ n, option_Forall2 smt_eqv (<[n0 := smt']> acc !! n) (acc !! n)).
  { intros m. destruct (decide (n0 = m)) as [<-|Hne]; [|by rewrite lookup_insert_ne].
    rewrite lookup_insert_eq, Hx. constructor. etrans; [exact Hc|by symmetry]. }
  destruct r as [b'| |]; [|apply Hins..]. etrans; [|apply Hins]. apply IH.
  intros m y Hy. destruct (Hl m y) as (z & Hz & Hzy); [by apply list_elem_of_further|].
  pose proof (Hins m) as Hm. rewrite Hz in Hm. inversion Hm as [q z' Hq|]; subst.
  exists q. split; [done|]. by etrans.
Qed.

Lemma commit_eqv a (s : GlobalStateManager St) : gsm_eqv (GS.commit a s).1 s.
Proof.
  assert (H1 : gsm_eqv (GS.set_subnets (fmap (fun smt => SS.set_last_anchor smt a)) s) s).
  { intros n. cbn. rewrite lookup_fmap. destruct (subnet_states s !! n); constructor. done. }
  unfold GS.commit. set (s1 := GS.set_subnets _ s) in *.
  destruct (gs_store s1) as [store|]; [|exact H1].
  destruct (begin_batch store) as [b0| |]; [|exact H1..].
  pose proof (commit_subnets_eqv a (map_to_list (subnet_states s1)) b0 (subnet_states s1)) as Hc.
  destruct (GS.commit_subnets _ _ _ _) as [subnets r]. cbn [fst] in Hc.
  assert (H2 : gsm_eqv (GS.set_subnets (fun _ => subnets) s1) s).
  { intros n. etrans; [|apply H1]. apply Hc. intros m smt Hm%elem_of_map_to_list. by exists smt. }
  destruct (rbind r _) as [b| |]; [|exact H2..].
  destruct (commit_batch b store) as [store' [u| |]]; exact H2.
Qed.
End Commit.

Lemma commit_im_ok `{B : Blake3} a (s : GlobalStateManager InMemoryMerkleStore) : (GS.commit a s).2 = Ok tt.
Proof.
  unfold GS.commit. destruct (gs_store _) as [store|]; [|done]. cbn [begin_batch InMemoryMerkleStore_b4].
  by rewrite commit_subnets_im.
Qed.

Lemma clone_gsm_eqv `{B : Blake3} {St} (s : GlobalStateManager St) : gsm_eqv (GS.clone s) s.
Proof. intros n. cbn. rewrite lookup_fmap. destruct (subnet_states s !! n); constructor. apply ss_clone_eqv. Qed.

(** ** Leader and follower *)

Section Agree.
Context `{B : Blake3} `{X : HexCrate} `{SB : StateBcs}.

(** A store that never refuses a commit. *)
Definition store_never_fails (St : Type) `{B4Store St} : Prop :=
  ∀ a (g : GlobalStateManager St), (GS.commit a g).2 = Ok tt.

Lemma apply_and_commit_ok {St} `{B4Store St} evs d a (b : AnchorBuilder St) g sm :
  store_never_fails St → GS.apply_committed_events (write_gsm (ab_shared b)) evs d = Ok (g, sm) →
  ∃ sh, AB.apply_and_commit evs d a b = (AB.set_shared (fun _ => sh) b, Ok sm) ∧
    gsm_eqv (write_gsm sh) g ∧ read_snapshot sh = GS.clone_for_read_snapshot (write_gsm sh) ∧
    sh_overlay sh = sh_overlay (ab_shared b).
Proof.
  intros Hst Ha. unfold AB.apply_and_commit. rewrite Ha. pose proof (commit_eqv a g) as Hc.
  specialize (Hst a g). destruct (GS.commit a g) as [g2 r]. cbn [fst snd] in *. subst r.
  eexists. split; [reflexivity|]. done.
Qed.

Lemma clear_overlay_state {St} ids (sh : SharedStateManager St) :
  write_gsm (Shared.clear_overlay_events ids sh).1 = write_gsm sh ∧
  read_snapshot (Shared.clear_overlay_events ids sh).1 = read_snapshot sh.
Proof. unfold Shared.clear_overlay_events. by destruct (Overlay.clear_events ids (sh_overlay sh)). Qed.

(** Preparing succeeds exactly when the events apply; it declares the root they lead to. *)
Lemma prepare_internal_ok {St} `{B4Store St} (b : AnchorBuilder St) evs vlc d now p :
  AB.prepare_build_internal b evs vlc d now = Ok p →
  ∃ temp sm, GS.apply_committed_events (GS.clone (write_gsm (ab_shared b))) evs 0 = Ok (temp, sm) ∧
    merkle_roots (pb_anchor p) =
      Some (mkRoots (compute_events_root evs) (GS.compute_global_root temp).1 (last_anchor_chain_root b)
              (GS.compute_global_root temp).2) ∧
    a_event_ids (pb_anchor p) = ev_id <$> evs ∧ a_depth (pb_anchor p) = d ∧
    logical_time (a_vlc_snapshot (pb_anchor p)) = new_last_fold_vlc p ∧
    routed_events p = Router.route_events evs ∧ pre_build_snapshot p = AB.take_snapshot b ∧
    new_anchor_chain_root p = chain_hash (last_anchor_chain_root b) (Anch.compute_hash (pb_anchor p)) ∧
    new_anchor_depth p = u64_add d 1.
Proof.
  unfold AB.prepare_build_internal, AB.compute_state_root_from_events.
  destruct (GS.apply_committed_events _ evs 0) as [[temp sm]| |]; [|done..]. cbn [rbind].
  destruct (GS.compute_global_root temp) as [r rs] eqn:Hr. intros [= <-]. exists temp, sm.
  cbn. rewrite Hr. done.
Qed.

Lemma verify_take_snapshot {St} (b : AnchorBuilder St) : AB.verify_snapshot b (AB.take_snapshot b) = true.
Proof. unfold AB.verify_snapshot, AB.take_snapshot. cbn. by rewrite !Z.eqb_refl, !bool_decide_true. Qed.

(** What two builders agree on once they have the same anchor. *)
Definition builders_agree {St1 St2} (b : AnchorBuilder St1) (f : AnchorBuilder St2) : Prop :=
  gsm_eqv (write_gsm (ab_shared b)) (write_gsm (ab_shared f)) ∧
  last_anchor b = last_anchor f ∧ anchor_depth b = anchor_depth f ∧ last_fold_vlc b = last_fold_vlc f ∧
  last_anchor_chain_root b = last_anchor_chain_root f.

Lemma apply_eqv_ok {St1 St2} (s1 : GlobalStateManager St1) (s2 : GlobalStateManager St2) es1 es2 d1 d2 g sm :
  gsm_eqv s1 s2 → es1 ≡ₚ es2 → NoDup (ev_id <$> es1) → GS.apply_committed_events s1 es1 d1 = Ok (g, sm) →
  ∃ g', GS.apply_committed_events s2 es2 d2 = Ok (g', sm) ∧ gsm_eqv g g' ∧
    GS.compute_global_root g = GS.compute_global_root g'.
Proof.
  intros Hs Hp Hnd Ha. pose proof (apply_committed_eqv d1 d2 s1 s2 es1 Hs) as He.
  rewrite Ha in He. unfold GS.apply_committed_events in *. rewrite <-(sort_events_perm es1 es2 Hnd Hp).
  destruct (GS.apply_events d2 _ _) as [[g' sm']| |]; [|done..]. cbn in He. destruct He as [Hg <-].
  exists g'. split; [done|]. split; [done|]. by apply compute_global_root_roots, gsm_eqv_roots.
Qed.
End Agree.

Lemma leader_follower_step (B : Blake3) (X : HexCrate) (SB : StateBcs) (St1 St2 : Type)
    (B1 : B4Store St1) (B2 : B4Store St2) (b : AnchorBuilder St1) (f : AnchorBuilder St2)
    (evs evs' : list Event) (vlc : VLC) (depth now t1 t2 : Z) (p : PendingAnchorBuild) (cf : ConsensusFrame)
    (Hprep : AB.prepare_build_internal b evs vlc depth now = Ok p)
    (Hnd : NoDup (ev_id <$> evs)) (Hevs : evs ≡ₚ evs') (Hcf : cf_anchor cf = pb_anchor p)
    (Hst : gsm_eqv (write_gsm (ab_shared b)) (write_gsm (ab_shared f)))
    (H1 : store_never_fails St1) (H2 : store_never_fails St2) :
  ∃ b' f' sm,
    AB.commit_build p t1 b = (b', Ok sm) ∧
    AB.apply_follower_finalized_cf evs' cf t2 f = (f', Ok sm) ∧
    builders_agree b' f' ∧
    Some (GS.compute_global_root (write_gsm (ab_shared b'))).1 = global_state_root <$> merkle_roots (pb_anchor p) ∧
    Some (AB.get_global_root f') = global_state_root <$> merkle_roots (pb_anchor p).
Proof.
  destruct (prepare_internal_ok b evs vlc depth now p Hprep)
    as (temp & sm & Htemp & Hroots & Hids & Hdep & Hvlc & Hrt & Hsnap & Hch & Hnd').
  pose proof (route_events_perm evs) as Hall. rewrite <-Hrt in Hall. symmetry in Hall.
  destruct (apply_eqv_ok _ (write_gsm (ab_shared b)) evs (Router.all_events (routed_events p)) 0 (new_anchor_depth p)
              temp sm (clone_gsm_eqv _) Hall Hnd Htemp) as (g1 & Hg1 & He1 & Hr1).
  assert (Hcl : gsm_eqv (GS.clone (write_gsm (ab_shared b))) (GS.clone (write_gsm (ab_shared f)))).
  { intros n. cbn. rewrite !lookup_fmap. destruct (Hst n); constructor. done. }
  destruct (apply_eqv_ok _ _ evs evs' 0 (u64_add depth 1) temp sm Hcl Hevs Hnd Htemp) as (g2 & Hg2 & He2 & Hr2).
  assert (Hbf : gsm_eqv (GS.clone (write_gsm (ab_shared b))) (write_gsm (ab_shared f))).
  { intros n. cbn. rewrite lookup_fmap. destruct (Hst n); constructor. done. }
  destruct (apply_eqv_ok _ _ evs evs' 0 (u64_add depth 1) temp sm Hbf Hevs Hnd Htemp) as (g3 & Hg3 & He3 & Hr3).
  destruct (apply_and_commit_ok (Router.all_events (routed_events p)) (new_anchor_depth p)
              (u64_add (anchor_depth b) 1) b g1 sm H1 Hg1) as (sh1 & Hc1 & Hw1 & _).
  destruct (apply_and_commit_ok evs' (u64_add depth 1) (u64_add (anchor_depth f) 1) f g3 sm H2 Hg3)
    as (sh3 & Hc3 & Hw3 & Hrd3 & _).
  unfold AB.commit_build. rewrite Hsnap, verify_take_snapshot, Hc1. cbn [negb].
  unfold AB.apply_follower_finalized_cf. rewrite Hcf, Hids, Hdep, Hroots, length_fmap.
  rewrite (Permutation_length Hevs), Nat.eqb_refl. cbn [negb]. rewrite Hg2.
  rewrite bool_decide_true by (cbn; by rewrite <-Hr2). rewrite Hc3.
  eexists _, _, sm. split; [reflexivity|]. split; [reflexivity|].
  assert (Hww : gsm_eqv (write_gsm sh1) (write_gsm sh3)).
  { intros n. etrans; [apply Hw1|]. etrans; [symmetry; apply He1|]. etrans; [apply He3|]. symmetry. apply Hw3. }
  split.
  - split_and!; cbn; rewrite ?(proj1 (clear_overlay_state _ _)); [exact Hww|done|by rewrite Hdep|by rewrite Hvlc|by rewrite Hroots, Hch].
  - unfold AB.get_global_root. cbn -[GS.compute_global_root].
    rewrite (proj1 (clear_overlay_state _ _)), (proj2 (clear_overlay_state _ _)). split; f_equal.
    + rewrite Hr1. f_equal. by apply compute_global_root_roots, gsm_eqv_roots.
    + rewrite Hrd3, Hr3. f_equal.
      apply compute_global_root_roots, gsm_eqv_roots. intros n. cbn. rewrite lookup_fmap.
      destruct (Hw3 n); constructor. done.
Qed.

(** The leader and a follower agree on an anchor.  A leader prepares an
    anchor for some events (with distinct ids) and commits it from the same
    state; a follower whose state holds the same trees receives the frame with
    the same events in any order.  If the stores accept the commits, the leader
    commits, the follower neither reports a root mismatch nor missing events,
    both return the same summary, the state of each has the declared root, and
    afterwards they agree on the trees, the last anchor, the depth, the fold
    time and the root of the anchor chain, which is what the next anchor
    depends on. *)
Theorem leader_follower_agree (B : Blake3) (X : HexCrate) (SB : StateBcs) (St1 St2 : Type)
    (B1 : B4Store St1) (B2 : B4Store St2) (b : AnchorBuilder St1) (f : AnchorBuilder St2)
    (evs evs' : list Event) (vlc : VLC) (depth now t1 t2 : Z) (p : PendingAnchorBuild) (cf : ConsensusFrame)
    (Hprep : AB.prepare_build_internal b evs vlc depth now = Ok p)
    (Hnd : NoDup (ev_id <$> evs)) (Hevs : evs ≡ₚ evs') (Hcf : cf_anchor cf = pb_anchor p)
    (Hst : gsm_eqv (write_gsm (ab_shared b)) (write_gsm (ab_shared f)))
    (H1 : store_never_fails St1) (H2 : store_never_fails St2) :
  ∃ b' f' sm,
    AB.commit_build p t1 b = (b', Ok sm) ∧
    AB.apply_follower_finalized_cf evs' cf t2 f = (f', Ok sm) ∧
    builders_agree b' f' ∧
    Some (GS.compute_global_root (write_gsm (ab_shared b'))).1 = global_state_root <$> merkle_roots (pb_anchor p) ∧
    Some (AB.get_global_root f') = global_state_root <$> merkle_roots (pb_anchor p).
Proof. by eapply leader_follower_step. Qed.

(** C16: a follower accepts no frame whose declared root is not the one the
    events lead to.  Whatever the frame and the events, unless the state manager
    panics: when the follower applies a frame whose anchor declares roots, its
    state then has the declared root and its chain extends the declared one; an
    anchor without roots is applied unchecked.  When it answers with missing
    events or a root mismatch, its state, its snapshot and its anchor chain are
    unchanged (only speculative writes of the events are dropped).  The only other
    error is that the store fails to commit: then the snapshot, the chain and the
    outcomes are unchanged, and the state holds the events, whose root was found
    to be the declared one before. *)
Theorem follower_accepts_declared_root (B : Blake3) (X : HexCrate) (SB : StateBcs) (St : Type) (B4 : B4Store St)
    (f : AnchorBuilder St) (evs : list Event) (cf : ConsensusFrame) (now : Z) :
  let declared f' := ∀ roots, merkle_roots (cf_anchor cf) = Some roots →
    (GS.compute_global_root (write_gsm (ab_shared f'))).1 = global_state_root roots in
  let unpublished f' := read_snapshot (ab_shared f') = read_snapshot (ab_shared f) ∧
    AB.take_snapshot f' = AB.take_snapshot f ∧ outcomes_sink f' = outcomes_sink f in
  match AB.apply_follower_finalized_cf evs cf now f with
  | (f', Ok sm) =>
      length evs = length (a_event_ids (cf_anchor cf)) ∧ last_anchor f' = Some (cf_anchor cf) ∧ declared f' ∧
      ∀ roots, merkle_roots (cf_anchor cf) = Some roots →
        last_anchor_chain_root f' = chain_hash (anchor_chain_root roots) (Anch.compute_hash (cf_anchor cf))
  | (f', Err (RootMismatch _ _ | MissingEvents _ _)) =>
      write_gsm (ab_shared f') = write_gsm (ab_shared f) ∧ unpublished f'
  | (f', Err e) =>
      (∃ m, e = ABMerkleError m) ∧ unpublished f' ∧ declared f' ∧
      ∃ g sm, GS.apply_committed_events (write_gsm (ab_shared f)) evs (u64_add (a_depth (cf_anchor cf)) 1) = Ok (g, sm) ∧
        gsm_eqv (write_gsm (ab_shared f')) g
  | (_, Panic) => True
  end.
Proof.
  cbv zeta.
  assert (Hac : ∀ d a, match AB.apply_and_commit evs d a f with
     | (f1, Ok sm) => ∃ g, GS.apply_committed_events (write_gsm (ab_shared f)) evs d = Ok (g, sm) ∧
                        gsm_eqv (write_gsm (ab_shared f1)) g
     | (f1, Err e) => (∃ m, e = ABMerkleError m) ∧
         (read_snapshot (ab_shared f1) = read_snapshot (ab_shared f) ∧
          AB.take_snapshot f1 = AB.take_snapshot f ∧ outcomes_sink f1 = outcomes_sink f) ∧
         ∃ g sm, GS.apply_committed_events (write_gsm (ab_shared f)) evs d = Ok (g, sm) ∧ gsm_eqv (write_gsm (ab_shared f1)) g
     | (_, Panic) => True
     end).
  { intros d a. unfold AB.apply_and_commit. destruct (GS.apply_committed_events _ evs d) as [[g sm]| |]; [|done..].
    pose proof (commit_eqv a g) as Hc. destruct (GS.commit a g) as [g2 [u|m|]]; cbn in *; [| |done].
    - exists g. done.
    - split; [by exists m|]. split; [by split_and!|]. by exists g, sm. }
  unfold AB.apply_follower_finalized_cf.
  destruct (Nat.eqb_spec (length evs) (length (a_event_ids (cf_anchor cf)))) as [Hlen|]; cbn [negb].
  2: { cbn. rewrite (proj1 (clear_overlay_state _ _)), (proj2 (clear_overlay_state _ _)). done. }
  specialize (Hac (u64_add (a_depth (cf_anchor cf)) 1) (u64_add (anchor_depth f) 1)).
  destruct (merkle_roots (cf_anchor cf)) as [roots|] eqn:Hroots.
  - destruct (GS.apply_committed_events (GS.clone _) evs _) as [[temp sm0]| |] eqn:Htemp; [|done..].
    case_bool_decide as Hr.
    2: { cbn. rewrite (proj1 (clear_overlay_state _ _)), (proj2 (clear_overlay_state _ _)). done. }
    assert (Hdecl : ∀ g sm (s' : GlobalStateManager St), GS.apply_committed_events (write_gsm (ab_shared f)) evs (u64_add (a_depth (cf_anchor cf)) 1) = Ok (g, sm) →
              gsm_eqv s' g → (GS.compute_global_root s').1 = global_state_root roots).
    { intros g sm s' Hg Hw. rewrite <-Hr. f_equal. apply compute_global_root_roots. rewrite (gsm_eqv_roots _ g Hw).
      pose proof (apply_committed_eqv (u64_add (a_depth (cf_anchor cf)) 1) (u64_add (a_depth (cf_anchor cf)) 1)
                    _ _ evs (clone_gsm_eqv (write_gsm (ab_shared f)))) as He.
      rewrite Htemp, Hg in He. symmetry. apply gsm_eqv_roots, He. }
    destruct (AB.apply_and_commit _ _ _ f) as [f1 [sm|e|]]; [| |done].
    + destruct Hac as (g & Hg & Hw). split; [done|]. split; [done|]. split.
      * intros roots' [= <-]. cbn -[GS.compute_global_root]. rewrite (proj1 (clear_overlay_state _ _)). by eapply Hdecl.
      * intros roots' [= <-]. cbn. by rewrite Hroots.
    + destruct Hac as ([m ->] & (H1 & H2 & H3) & g & sm & Hg & Hw). split; [by eexists|].
      cbn -[GS.compute_global_root]. rewrite (proj1 (clear_overlay_state _ _)), (proj2 (clear_overlay_state _ _)).
      split; [done|]. split; [intros roots' [= <-]; by eapply Hdecl|]. by exists g, sm.
  - destruct (AB.apply_and_commit _ _ _ f) as [f1 [sm|e|]]; [by split_and!| |done].
    destruct Hac as ([m ->] & (H1 & H2 & H3) & g & sm & Hg & Hw). split; [by eexists|].
    cbn. rewrite (proj1 (clear_overlay_state _ _)), (proj2 (clear_overlay_state _ _)). split; [done|]. split; [done|]. by exists g, sm.
Qed.

(** Builds prepared from the same state exclude each other.  Once one of
    them is committed, committing another one that was prepared from the same
    state is refused with a snapshot mismatch and changes neither the state nor
    the anchor chain, provided that the committed anchor has a new id. *)
Theorem second_build_refused (B : Blake3) (X : HexCrate) (SB : StateBcs) (St : Type) (B4 : B4Store St)
    (b b' : AnchorBuilder St) (p q : PendingAnchorBuild) (t t' : Z) (sm : StateApplySummary)
    (Hp : pre_build_snapshot p = AB.take_snapshot b) (Hq : pre_build_snapshot q = AB.take_snapshot b)
    (Hc : AB.commit_build p t b = (b', Ok sm))
    (Hid : Some (a_id (pb_anchor p)) ≠ a_id <$> last_anchor b) :
  ∃ b'', AB.commit_build q t' b' = (b'', Err (SnapshotMismatch (anchor_depth b) (anchor_depth b'))) ∧
    write_gsm (ab_shared b'') = write_gsm (ab_shared b') ∧
    read_snapshot (ab_shared b'') = read_snapshot (ab_shared b') ∧
    AB.take_snapshot b'' = AB.take_snapshot b'.
Proof.
  assert (Hla : last_anchor b' = Some (pb_anchor p)).
  { unfold AB.commit_build in Hc. rewrite Hp, verify_take_snapshot in Hc. cbn [negb] in Hc.
    destruct (AB.apply_and_commit _ _ _ b) as [b1 [sm1|e|]]; [|discriminate Hc..]. by injection Hc as <- _. }
  unfold AB.commit_build. rewrite Hq.
  assert (Hv : AB.verify_snapshot b' (AB.take_snapshot b) = false).
  { unfold AB.verify_snapshot. cbn. rewrite Hla. cbn. rewrite (bool_decide_false (Some _ = _)) by done.
    apply andb_false_r. }
  rewrite Hv. cbn [negb]. eexists. split; [reflexivity|]. cbn.
  rewrite (proj1 (clear_overlay_state _ _)), (proj2 (clear_overlay_state _ _)). done.
Qed.

(** C18: the events of one anchor do not interfere.  The fold policy splits the
    candidates into kept and deferred events: the kept ones are in the order of
    application, write pairwise different keys, and every deferred one writes a
    key of an earlier kept event.  So the verdict on each kept event, when they
    are applied together, is the verdict it would get alone on the base state:
    no event of an anchor conflicts because of another one. *)
Theorem fold_policy_conflict_free (B : Blake3) (X : HexCrate) (evs : list Event) (Hnd : NoDup evs) :
  let '(kept, deferred) := apply_strict_same_key_fold_policy evs in
  kept ++ deferred ≡ₚ evs ∧ StronglySorted event_le kept ∧
  (∀ a b, a ∈ kept → b ∈ kept → a = b ∨ collect_event_write_keys a ## collect_event_write_keys b) ∧
  (∀ e, e ∈ deferred → ∃ e', e' ∈ kept ∧ event_le e' e ∧
     ¬ collect_event_write_keys e ## collect_event_write_keys e') ∧
  (∀ w, (spec_events w kept).2 = (fun e => (e, (spec_event w e).2)) <$> kept).
Proof.
  unfold apply_strict_same_key_fold_policy.
  pose proof (fold_scan_spec [] ∅ (merge_sort event_le evs)) as Hs.
  destruct (fold_scan ∅ (merge_sort event_le evs)) as [kept deferred].
  assert (Hsort : StronglySorted event_le (merge_sort event_le evs)) by (apply StronglySorted_merge_sort; apply _).
  destruct Hs as (H1 & H2 & _ & H4 & H5); [done|by intros p e Hp%not_elem_of_nil|done|].
  rewrite merge_sort_Permutation in H1. split_and!; [done|..|done|].
  - by apply (StronglySorted_sublist _ _ (merge_sort event_le evs)).
  - intros a b Ha Hb. by apply H4; apply list_elem_of_In.
  - intros w. apply spec_events_independent; [|done].
    eapply sublist_NoDup; [|exact H2]. by rewrite merge_sort_Permutation.
Qed.

(** What [prepare_build] proposes.  A build is prepared only when the clock
    has advanced by the threshold; it lists between [min] and [max] events, at
    least one, all pending in the DAG, none referenced by a frame in flight, with
    pairwise different write keys; its anchor extends the last anchor and the
    chain root, and its declared roots are those of the listed events.  Every
    refusal states the bound that was not met, and preparing has no other
    error. *)
Theorem prepare_build_spec (B : Blake3) (X : HexCrate) (SB : StateBcs) (St : Type) (B4 : B4Store St)
    (b : AnchorBuilder St) (dag : Dag) (vlc : VLC) (in_flight : gset EventId) (now : Z) :
  let cfg := ab_config b in
  let delta := saturating_sub (logical_time (Vlc.snapshot vlc)) (last_fold_vlc b) in
  let evs := AB.select_events b dag in_flight in
  match AB.prepare_build b dag vlc in_flight now with
  | Ok p =>
      (vlc_delta_threshold cfg ≤ delta)%Z ∧ (min_events_per_cf cfg ≤ length evs ≤ max_events_per_cf cfg)%nat ∧
      (0 < length evs)%nat ∧ a_event_ids (pb_anchor p) = ev_id <$> evs ∧
      (∀ e, e ∈ evs → e ∈ D.get_pending_events dag ∧ ev_id e ∉ in_flight) ∧
      (∀ a c, a ∈ evs → c ∈ evs → a = c ∨ collect_event_write_keys a ## collect_event_write_keys c) ∧
      previous_anchor (pb_anchor p) = a_id <$> last_anchor b ∧
      new_anchor_chain_root p = chain_hash (last_anchor_chain_root b) (Anch.compute_hash (pb_anchor p)) ∧
      events_root <$> merkle_roots (pb_anchor p) = Some (compute_events_root evs) ∧
      Ok (global_state_root <$> merkle_roots (pb_anchor p)) =
        (let? r := AB.compute_state_root_from_events b evs in Ok (Some r.1))
  | Err (DeltaNotReached r c) => r = vlc_delta_threshold cfg ∧ c = delta ∧ (delta < r)%Z
  | Err (InsufficientEvents r n) => r = min_events_per_cf cfg ∧ n = length evs ∧ (n < r)%nat
  | Err NoEvents => min_events_per_cf cfg = 0%nat ∧ evs = []
  | Err _ => False
  | Panic => is_ok (AB.compute_state_root_from_events b evs) = false
  end.
Proof.
  cbn zeta. unfold AB.prepare_build, AB.prepare_selected.
  destruct (Z.ltb_spec (saturating_sub (logical_time (Vlc.snapshot vlc)) (last_fold_vlc b))
              (vlc_delta_threshold (ab_config b))) as [Hd|Hd]; [done|].
  set (evs := AB.select_events b dag in_flight).
  destruct (Nat.ltb_spec (length evs) (min_events_per_cf (ab_config b))) as [Hm|Hm]; [done|].
  case_bool_decide as H0.
  { split; [lia|]. by apply length_zero_iff_nil. }
  unfold AB.prepare_build_internal.
  destruct (AB.compute_state_root_from_events b evs) as [[r rs]| |]; [|done..]. cbn.
  assert ((∀ e, e ∈ evs → e ∈ D.get_pending_events dag ∧ ev_id e ∉ in_flight) ∧
    (∀ a c, a ∈ evs → c ∈ evs → a = c ∨ collect_event_write_keys a ## collect_event_write_keys c)) as [Hs1 Hs2].
  { unfold evs, AB.select_events, apply_strict_same_key_fold_policy.
    set (l := filter _ _). pose proof (fold_scan_spec [] ∅ (merge_sort event_le l)) as Hs.
    destruct (fold_scan ∅ (merge_sort event_le l)) as [kept deferred].
    destruct Hs as (H1 & H2 & _ & H4 & _);
      [done|by intros p e Hp%not_elem_of_nil|apply StronglySorted_merge_sort; apply _|].
    assert (Ht : ∀ e, e ∈ take (max_events_per_cf (ab_config b)) kept → e ∈ kept).
    { intros e He. eapply elem_of_sublist; [exact He|apply sublist_take]. }
    split.
    - intros e He%Ht. assert (Hl : e ∈ l).
      { rewrite merge_sort_Permutation in H1. rewrite <-H1. apply elem_of_app. by left. }
      unfold l in Hl. apply list_elem_of_filter in Hl as [? ?]. done.
    - intros a c Ha%Ht Hc%Ht. apply H4; by apply list_elem_of_In. }
  split_and!; [done|done| |lia|done|done|done|done|done|done|done].
  unfold evs, AB.select_events. rewrite length_take. lia.
Qed.

(** ** Instances *)

Section Instances.
#[local] Existing Instance toy_blake3.
#[local] Existing Instance hex_lower.
#[local] Existing Instance wit_bcs.

Definition wit_builder : AnchorBuilder InMemoryMerkleStore :=
  AB.with_shared_state_manager config_default (Shared.new (GS.with_store IM.new)).

Definition wit_clock : VLC := Node.tick (Node.new "v" 0) 1.

Lemma leader_follower_agree_witness :
  ∃ p b' f' sm,
    AB.prepare_build_internal wit_builder wit_events wit_clock 3 5 = Ok p ∧
    AB.commit_build p 6 wit_builder = (b', Ok sm) ∧
    AB.apply_follower_finalized_cf (reverse wit_events) (CF.new 0 (pb_anchor p) "v" 6) 7 wit_builder = (f', Ok sm) ∧
    builders_agree b' f'.
Proof.
  destruct (AB.prepare_build_internal wit_builder wit_events wit_clock 3 5) as [p| |] eqn:Hp.
  2, 3: exfalso; assert (Hok : is_ok (AB.prepare_build_internal wit_builder wit_events wit_clock 3 5) = true)
          by (vm_compute; reflexivity); rewrite Hp in Hok; discriminate Hok.
  destruct (leader_follower_agree toy_blake3 hex_lower wit_bcs InMemoryMerkleStore InMemoryMerkleStore _ _
              wit_builder wit_builder wit_events (reverse wit_events) wit_clock 3 5 6 7 p
              (CF.new 0 (pb_anchor p) "v" 6) Hp) as (b' & f' & sm & H1 & H2 & H3 & _).
  - apply (bool_decide_unpack _). vm_compute. exact I.
  - symmetry. apply reverse_Permutation.
  - reflexivity.
  - intros n. reflexivity.
  - exact commit_im_ok.
  - exact commit_im_ok.
  - exists p, b', f', sm. split; [reflexivity|]. split; [exact H1|]. split; [exact H2|exact H3].
Defined.

Lemma second_build_refused_witness :
  ∃ p b' b'' sm, AB.commit_build p 6 wit_builder = (b', Ok sm) ∧
    AB.commit_build p 7 b' = (b'', Err (SnapshotMismatch 0 4)).
Proof.
  destruct (AB.prepare_build_internal wit_builder wit_events wit_clock 3 5) as [p| |] eqn:Hp.
  2, 3: exfalso; assert (Hok : is_ok (AB.prepare_build_internal wit_builder wit_events wit_clock 3 5) = true)
          by (vm_compute; reflexivity); rewrite Hp in Hok; discriminate Hok.
  destruct (prepare_internal_ok _ _ _ _ _ _ Hp) as (temp & sm0 & Htemp & _ & _ & _ & _ & Hrt & Hsnap & _ & Hnd).
  destruct (AB.commit_build p 6 wit_builder) as [b' r] eqn:Hc.
  assert (Hb : ∃ sm, r = Ok sm ∧ anchor_depth b' = 4%Z).
  { unfold AB.commit_build in Hc. rewrite Hsnap, verify_take_snapshot in Hc. cbn [negb] in Hc.
    pose proof (route_events_perm wit_events) as Hall. rewrite <-Hrt in Hall. symmetry in Hall.
    destruct (apply_eqv_ok _ (write_gsm (ab_shared wit_builder)) wit_events (Router.all_events (routed_events p)) 0
                (new_anchor_depth p) temp sm0 (clone_gsm_eqv _) Hall) as (g1 & Hg1 & _);
      [apply (bool_decide_unpack _); vm_compute; exact I|exact Htemp|].
    destruct (apply_and_commit_ok (Router.all_events (routed_events p)) (new_anchor_depth p)
                (u64_add (anchor_depth wit_builder) 1) wit_builder g1 sm0 commit_im_ok Hg1) as (sh & Heq & _).
    rewrite Heq in Hc. injection Hc as <- <-. exists sm0. split; [reflexivity|]. cbn. rewrite Hnd. reflexivity. }
  destruct Hb as (sm & -> & Hdepth).
  destruct (second_build_refused toy_blake3 hex_lower wit_bcs InMemoryMerkleStore _ wit_builder b' p p 6 7 sm
              Hsnap Hsnap Hc) as (b'' & H1 & _); [discriminate|].
  exists p, b', b'', sm. split; [exact Hc|]. rewrite H1, Hdepth. reflexivity.
Defined.

Lemma fold_policy_conflict_free_witness :
  let '(kept, deferred) := apply_strict_same_key_fold_policy wit_events in
  ev_id <$> kept = ["a"; "c"] ∧ ev_id <$> deferred = ["b"] ∧
  (spec_events ∅ kept).2 = (fun e => (e, (spec_event ∅ e).2)) <$> kept.
Proof.
  pose proof (fold_policy_conflict_free toy_blake3 hex_lower wit_events) as Hf.
  assert (Hi : ev_id <$> (apply_strict_same_key_fold_policy wit_events).1 = ["a"; "c"] ∧
               ev_id <$> (apply_strict_same_key_fold_policy wit_events).2 = ["b"]).
  { split; vm_compute; reflexivity. }
  destruct (apply_strict_same_key_fold_policy wit_events) as [kept deferred]. destruct Hi as [H1 H2].
  split; [exact H1|]. split; [exact H2|]. apply Hf.
  apply (NoDup_fmap_1 ev_id). apply (bool_decide_unpack _). vm_compute. exact I.
Defined.
End Instances.
