(* ===== verification/Consensus.v ===== *)
(** * The consensus manager

    [consensus/src/folder.rs]: frames wait for votes, are finalized by a quorum
    of approvals, rejected by enough rejections or dropped at a timeout; the
    state is applied when a frame is finalized.  [now] is the wall clock; the
    text of an error is kept as the error itself. *)

From Stdlib Require Import ZArith Lia.
From stdpp Require Import base gmap sets list strings numbers.
From S2P Require Import Prelude Hash Vlc Event Dag Coin StateStore SparseMerkle MerkleStore StateManager Overlay ConsensusTypes AnchorBuilder.
#[local] Open Scope setu_scope.

Inductive CFDecision := DFinalize | DReject | DTimeout.

Inductive ApplyFailureRole := LeaderCommitError | LeaderFollowerFallback | FollowerRole.

Record ApplyFailure := mkFailure {
  af_cf_id : CFId;
  af_anchor_id : AnchorId;
  af_anchor_depth : Z;
  af_role : ApplyFailureRole;
  af_reason : AnchorBuildError
}.

Inductive CfLifecycleOutcome :=
| CfPending
| CfFinalized (fin_cf_id : CFId)
| CfApplyFailed (failure : ApplyFailure)
| CfRejected (rej_cf_id : CFId)
| CfTimedOut (to_cf_id : CFId).

Definition is_terminal (o : CfLifecycleOutcome) : bool :=
  match o with CfPending => false | _ => true end.
Definition is_finalized (o : CfLifecycleOutcome) : bool :=
  match o with CfFinalized _ => true | _ => false end.

Record AnchorBuildResult := mkBuildResult {
  br_anchor : Anchor;
  br_summary : StateApplySummary;
  br_routed : RoutedEvents
}.

(** ** The legacy folder *)

Record DagFolder := mkFolder {
  df_config : ConsensusConfig;
  df_last_anchor : option Anchor;
  df_anchor_depth : Z;
  df_last_fold_vlc : Z
}.

Module Folder.
Section Folder.
Context `{Blake3} `{HexCrate}.

Definition new (config : ConsensusConfig) : DagFolder := mkFolder config None 0 0.

Definition should_fold (f : DagFolder) (vlc : VLC) : bool :=
  (vlc_delta_threshold (df_config f) <=?
     saturating_sub (logical_time (Vlc.snapshot vlc)) (df_last_fold_vlc f))%Z.

Definition fold (f : DagFolder) (dag : Dag) (vlc : VLC) (state_root : string) (now : Z)
    : DagFolder * option Anchor :=
  if negb (should_fold f vlc) then (f, None)
  else
    let to_depth := max_depth dag in
    let evs := D.get_events_in_range dag (df_anchor_depth f) to_depth in
    if (length evs <? min_events_per_cf (df_config f))%nat then (f, None)
    else
      let anchor := Anch.new (ev_id <$> take (max_events_per_cf (df_config f)) evs) (Vlc.snapshot vlc)
                      state_root (a_id <$> df_last_anchor f) to_depth now in
      (mkFolder (df_config f) (Some anchor) (u64_add to_depth 1) (logical_time (Vlc.snapshot vlc)),
       Some anchor).
End Folder.
End Folder.

(** ** The manager *)

Record ConsensusManager (St : Type) := mkManager {
  cm_config : ConsensusConfig;
  anchor_builder : AnchorBuilder St;
  legacy_folder : DagFolder;
  pending_cfs : gmap CFId ConsensusFrame;
  pending_builds : gmap CFId PendingAnchorBuild;
  pending_cf_events : gmap CFId (list Event);
  buffered_votes : gmap CFId (list Vote);
  finalized_cfs : list ConsensusFrame;
  persisted_anchor_ids : gset AnchorId;
  local_validator_id : string;
  last_build_result : option AnchorBuildResult;
  last_apply_failure : option ApplyFailure
}.
Arguments mkManager {St}.
Arguments cm_config {St} _.
Arguments anchor_builder {St} _.
Arguments legacy_folder {St} _.
Arguments pending_cfs {St} _.
Arguments pending_builds {St} _.
Arguments pending_cf_events {St} _.
Arguments buffered_votes {St} _.
Arguments finalized_cfs {St} _.
Arguments persisted_anchor_ids {St} _.
Arguments local_validator_id {St} _.
Arguments last_build_result {St} _.
Arguments last_apply_failure {St} _.

Definition MAX_FINALIZED_CFS : nat := 1000.

Module CM.
Section CM.
Context `{Blake3} `{HexCrate} `{StateBcs} {St : Type} `{B4Store St}.

Abbreviation Mgr := (ConsensusManager St).

Definition with_shared_state_manager (config : ConsensusConfig) (validator_id : string)
    (shared : SharedStateManager St) : Mgr :=
  mkManager config (AB.with_shared_state_manager config shared) (Folder.new config) ∅ ∅ ∅ ∅ [] ∅
    validator_id None None.

Definition new (config : ConsensusConfig) (validator_id : string) : Mgr :=
  with_shared_state_manager config validator_id (Shared.new GS.new).

(** Field updates. *)
Definition set_builder (b : AnchorBuilder St) (m : Mgr) : Mgr :=
  mkManager (cm_config m) b (legacy_folder m) (pending_cfs m) (pending_builds m) (pending_cf_events m)
    (buffered_votes m) (finalized_cfs m) (persisted_anchor_ids m) (local_validator_id m)
    (last_build_result m) (last_apply_failure m).
Definition set_cfs (f : gmap CFId ConsensusFrame → gmap CFId ConsensusFrame) (m : Mgr) : Mgr :=
  mkManager (cm_config m) (anchor_builder m) (legacy_folder m) (f (pending_cfs m)) (pending_builds m)
    (pending_cf_events m) (buffered_votes m) (finalized_cfs m) (persisted_anchor_ids m)
    (local_validator_id m) (last_build_result m) (last_apply_failure m).
Definition set_builds (f : gmap CFId PendingAnchorBuild → gmap CFId PendingAnchorBuild) (m : Mgr) : Mgr :=
  mkManager (cm_config m) (anchor_builder m) (legacy_folder m) (pending_cfs m) (f (pending_builds m))
    (pending_cf_events m) (buffered_votes m) (finalized_cfs m) (persisted_anchor_ids m)
    (local_validator_id m) (last_build_result m) (last_apply_failure m).
Definition set_cf_events (f : gmap CFId (list Event) → gmap CFId (list Event)) (m : Mgr) : Mgr :=
  mkManager (cm_config m) (anchor_builder m) (legacy_folder m) (pending_cfs m) (pending_builds m)
    (f (pending_cf_events m)) (buffered_votes m) (finalized_cfs m) (persisted_anchor_ids m)
    (local_validator_id m) (last_build_result m) (last_apply_failure m).
Definition set_buffered (f : gmap CFId (list Vote) → gmap CFId (list Vote)) (m : Mgr) : Mgr :=
  mkManager (cm_config m) (anchor_builder m) (legacy_folder m) (pending_cfs m) (pending_builds m)
    (pending_cf_events m) (f (buffered_votes m)) (finalized_cfs m) (persisted_anchor_ids m)
    (local_validator_id m) (last_build_result m) (last_apply_failure m).
Definition set_finalized (cfs : list ConsensusFrame) (ids : gset AnchorId) (m : Mgr) : Mgr :=
  mkManager (cm_config m) (anchor_builder m) (legacy_folder m) (pending_cfs m) (pending_builds m)
    (pending_cf_events m) (buffered_votes m) cfs ids (local_validator_id m) (last_build_result m)
    (last_apply_failure m).
Definition set_build_result (r : option AnchorBuildResult) (m : Mgr) : Mgr :=
  mkManager (cm_config m) (anchor_builder m) (legacy_folder m) (pending_cfs m) (pending_builds m)
    (pending_cf_events m) (buffered_votes m) (finalized_cfs m) (persisted_anchor_ids m)
    (local_validator_id m) r (last_apply_failure m).
Definition set_failure (f : option ApplyFailure) (m : Mgr) : Mgr :=
  mkManager (cm_config m) (anchor_builder m) (legacy_folder m) (pending_cfs m) (pending_builds m)
    (pending_cf_events m) (buffered_votes m) (finalized_cfs m) (persisted_anchor_ids m)
    (local_validator_id m) (last_build_result m) f.

Definition set_outcomes_sink (m : Mgr) : Mgr := set_builder (AB.set_outcomes_sink (anchor_builder m)) m.

(** *** Proposing *)

Definition can_start_new_pending_build (m : Mgr) : bool := bool_decide (pending_builds m = ∅).

Definition collect_in_flight_event_ids (m : Mgr) : gset EventId :=
  list_to_set (concat ((fun b => a_event_ids (pb_anchor b)) <$> (map_to_list (pending_builds m)).*2))
  ∪ list_to_set (concat ((fun evs : list Event => ev_id <$> evs) <$> (map_to_list (pending_cf_events m)).*2)).

Definition finalize_pending_build (pending : PendingAnchorBuild) (round now : Z) (m : Mgr)
    : Mgr * option ConsensusFrame :=
  let cf := CF.new round (pb_anchor pending) (local_validator_id m) now in
  (set_cfs <[cf_id cf := cf]> (set_builds <[cf_id cf := pending]> m), Some cf).

Definition create_from (r : result AnchorBuildError PendingAnchorBuild) (round now : Z)
    : stm Mgr Empty_set (option ConsensusFrame) := fun m =>
  match r with
  | Ok pending => let '(m', cf) := finalize_pending_build pending round now m in (m', Ok cf)
  | Err _ => (m, Ok None)
  | Panic => (m, Panic)
  end.

Definition try_create_cf (dag : Dag) (vlc : VLC) (round now : Z)
    : stm Mgr Empty_set (option ConsensusFrame) := fun m =>
  if negb (can_start_new_pending_build m) then (m, Ok None)
  else create_from (AB.prepare_build (anchor_builder m) dag vlc (collect_in_flight_event_ids m) now) round now m.

Definition try_create_cf_heartbeat (dag : Dag) (vlc : VLC) (heartbeat_interval round now : Z)
    : stm Mgr Empty_set (option ConsensusFrame) := fun m =>
  if negb (can_start_new_pending_build m) then (m, Ok None)
  else create_from (AB.prepare_build_heartbeat (anchor_builder m) dag vlc heartbeat_interval
                      (collect_in_flight_event_ids m) now) round now m.

Definition is_finalized_cf (m : Mgr) (id : CFId) : bool :=
  existsb (fun cf => bool_decide (cf_id cf = id)) (finalized_cfs m).
Definition has_cf (m : Mgr) (id : CFId) : bool :=
  bool_decide (is_Some (pending_cfs m !! id)) || is_finalized_cf m id.

(** *** Receiving *)

(** A vote counts once per validator: the first one stays. *)
Definition add_first_vote (cf : ConsensusFrame) (v : Vote) : ConsensusFrame :=
  if bool_decide (is_Some (cf_votes cf !! v_validator_id v)) then cf else CF.add_vote cf v.

Definition receive_cf (cf : ConsensusFrame) (m : Mgr) : Mgr :=
  let id := cf_id cf in
  match pending_cfs m !! id with
  | Some _ => m
  | None =>
      match buffered_votes m !! id with
      | Some buffered =>
          set_buffered (delete id) (set_cfs <[id := foldl add_first_vote cf buffered]> m)
      | None => set_cfs <[id := cf]> m
      end
  end.

(** *** Deciding *)

Definition decide_cf (cfg : ConsensusConfig) (cf : ConsensusFrame) (now : Z) : option CFDecision :=
  if CF.check_quorum cf (validator_count cfg) then Some DFinalize
  else if CF.check_rejection cf (validator_count cfg) then Some DReject
  else if CF.is_timeout cf (cf_timeout_ms cfg) now then Some DTimeout
  else None.

(** [retain] of [gc_finalized_cfs]: drop at most [excess] persisted frames. *)
Fixpoint gc_retain (excess : nat) (persisted : gset AnchorId) (cfs : list ConsensusFrame)
    : list ConsensusFrame * list AnchorId :=
  match cfs with
  | [] => ([], [])
  | cf :: rest =>
      match excess with
      | O => (cfs, [])
      | S excess' =>
          if bool_decide (a_id (cf_anchor cf) ∈ persisted) then
            let '(kept, removed) := gc_retain excess' persisted rest in
            (kept, a_id (cf_anchor cf) :: removed)
          else
            let '(kept, removed) := gc_retain excess persisted rest in (cf :: kept, removed)
      end
  end.

Definition gc_finalized_cfs (m : Mgr) : Mgr :=
  if (length (finalized_cfs m) <=? MAX_FINALIZED_CFS)%nat then m
  else
    let '(kept, removed) :=
      gc_retain (length (finalized_cfs m) - MAX_FINALIZED_CFS) (persisted_anchor_ids m) (finalized_cfs m) in
    set_finalized kept (persisted_anchor_ids m ∖ list_to_set removed) m.

(** Applying the state of a finalized frame: the leader commits its build, and
    falls back to the follower's path when another frame was committed first. *)
Definition apply_finalized (id : CFId) (cf : ConsensusFrame) (now : Z) : stm Mgr ApplyFailure unit := fun m =>
  let fail role e := mkFailure id (a_id (cf_anchor cf)) (a_depth (cf_anchor cf)) role e in
  match pending_builds m !! id with
  | Some pending =>
      let m := set_cf_events (delete id) (set_builds (delete id) m) in
      match AB.commit_build pending now (anchor_builder m) with
      | (b, Ok summary) =>
          (set_build_result (Some (mkBuildResult (cf_anchor cf) summary (routed_events pending)))
             (set_builder b m), Ok tt)
      | (b, Err (SnapshotMismatch _ _)) =>
          match AB.apply_follower_finalized_cf (Router.all_events (routed_events pending)) cf now b with
          | (b', Ok _) => (set_builder b' m, Ok tt)
          | (b', Err e) => (set_builder b' m, Err (fail LeaderFollowerFallback e))
          | (b', Panic) => (set_builder b' m, Panic)
          end
      | (b, Err e) => (set_builder b m, Err (fail LeaderCommitError e))
      | (b, Panic) => (set_builder b m, Panic)
      end
  | None =>
      let evs := default [] (pending_cf_events m !! id) in
      let m := set_cf_events (delete id) m in
      match AB.apply_follower_finalized_cf evs cf now (anchor_builder m) with
      | (b, Ok _) => (set_builder b m, Ok tt)
      | (b, Err e) => (set_builder b m, Err (fail FollowerRole e))
      | (b, Panic) => (set_builder b m, Panic)
      end
  end.

Definition discard (id : CFId) (m : Mgr) : Mgr :=
  set_cf_events (delete id) (set_builds (delete id) (set_cfs (delete id) m)).

Definition classify_finalization (id : CFId) (now : Z) : stm Mgr Empty_set CfLifecycleOutcome := fun m =>
  match pending_cfs m !! id with
  | None => (m, Ok CfPending)
  | Some cf =>
      match decide_cf (cm_config m) cf now with
      | Some DFinalize =>
          let cf := CF.finalize cf now in
          match apply_finalized id cf now (set_cfs (delete id) m) with
          | (m1, Ok _) =>
              (gc_finalized_cfs
                 (set_finalized (finalized_cfs m1 ++ [cf]) (persisted_anchor_ids m1) (set_failure None m1)),
               Ok (CfFinalized id))
          | (m1, Err failure) => (set_failure (Some failure) m1, Ok (CfApplyFailed failure))
          | (m1, Panic) => (m1, Panic)
          end
      | Some DReject => (discard id m, Ok (CfRejected id))
      | Some DTimeout => (discard id m, Ok (CfTimedOut id))
      | None => (m, Ok CfPending)
      end
  end.

Definition receive_finalized_cf (cf : ConsensusFrame) (now : Z) : stm Mgr Empty_set CfLifecycleOutcome := fun m =>
  let id := cf_id cf in
  if is_finalized_cf m id then (m, Ok CfPending)
  else
    let m' :=
      match pending_cfs m !! id with
      | Some existing => set_cfs <[id := foldl add_first_vote existing (map_to_list (cf_votes cf)).*2]> m
      | None => receive_cf cf m
      end in
    classify_finalization id now m'.

(** *** Voting *)

Definition vote_for_cf `{Ed25519} (id : CFId) (approve : bool) (private_key : option bytes) (now : Z) (m : Mgr)
    : Mgr * option Vote :=
  match pending_cfs m !! id with
  | None => (m, None)
  | Some cf =>
      if bool_decide (is_Some (cf_votes cf !! local_validator_id m)) then (m, None)
      else
        let vote := Vt.new (local_validator_id m) id approve now in
        let vote :=
          match private_key with
          | Some key => match Vt.sign vote key with Ok v => v | _ => vote end
          | None => vote
          end in
        (set_cfs <[id := CF.add_vote cf vote]> m, Some vote)
  end.

Definition receive_vote (vote : Vote) (now : Z) : stm Mgr Empty_set CfLifecycleOutcome := fun m =>
  let id := v_cf_id vote in
  match pending_cfs m !! id with
  | Some cf =>
      if bool_decide (is_Some (cf_votes cf !! v_validator_id vote)) then (m, Ok CfPending)
      else classify_finalization id now (set_cfs <[id := CF.add_vote cf vote]> m)
  | None =>
      (set_buffered <[id := default [] (buffered_votes m !! id) ++ [vote]]> m, Ok CfPending)
  end.

(** *** Maintenance *)

Definition mark_anchor_persisted (id : AnchorId) (m : Mgr) : Mgr :=
  set_finalized (finalized_cfs m) ({[id]} ∪ persisted_anchor_ids m) m.

Definition cleanup_one (m : Mgr) (id : CFId) : Mgr :=
  let m1 :=
    match pending_cfs m !! id with
    | Some _ => set_buffered (delete id) (discard id m)
    | None => m
    end in
  match last_apply_failure m1 with
  | Some f => if bool_decide (af_cf_id f = id) then set_failure None m1 else m1
  | None => m1
  end.

Definition cleanup_timeout_cfs (now : Z) (m : Mgr) : Mgr * nat :=
  let timeout_ids :=
    (filter (fun kv : CFId * ConsensusFrame => CF.is_timeout kv.2 (cf_timeout_ms (cm_config m)) now = true)
       (map_to_list (pending_cfs m))).*1 in
  (foldl cleanup_one m timeout_ids, length timeout_ids).

Definition get_last_finalized_anchor (m : Mgr) : option Anchor := cf_anchor <$> list.last (finalized_cfs m).
Definition get_pending_cf (m : Mgr) (id : CFId) : option ConsensusFrame := pending_cfs m !! id.
Definition finalized_count (m : Mgr) : nat := length (finalized_cfs m).
Definition last_finalized_cf (m : Mgr) : option ConsensusFrame := list.last (finalized_cfs m).
Definition should_fold (m : Mgr) (vlc : VLC) : bool := AB.should_fold (anchor_builder m) vlc.

Definition update_validator_count (count : nat) (m : Mgr) : Mgr :=
  let c := cm_config m in
  mkManager (mkConfig (vlc_delta_threshold c) (min_events_per_cf c) (max_events_per_cf c) (cf_timeout_ms c) count)
    (anchor_builder m) (legacy_folder m) (pending_cfs m) (pending_builds m) (pending_cf_events m)
    (buffered_votes m) (finalized_cfs m) (persisted_anchor_ids m) (local_validator_id m)
    (last_build_result m) (last_apply_failure m).

(** *** Frames of others *)

Definition apply_cf_state_changes (dag : Dag) (cf : ConsensusFrame) (m : Mgr) : Mgr * bool :=
  (set_cf_events <[cf_id cf := omap (fun id => D.get_event dag id) (a_event_ids (cf_anchor cf))]> m, true).

Definition verify_cf_merkle_roots (cf : ConsensusFrame) : bool :=
  match merkle_roots (cf_anchor cf) with
  | None => true
  | Some roots =>
      negb (bool_decide (a_event_ids (cf_anchor cf) = []) && negb (bool_decide (events_root roots = zero_hash)))
      && negb (bool_decide (global_state_root roots = zero_hash) && negb (bool_decide (subnet_roots roots = ∅)))
      && (bool_decide (subnet_roots roots = ∅) || bool_decide (is_Some (subnet_roots roots !! SUBNET_ROOT)))
  end.
End CM.
End CM.
