(* ===== verification/ConsensusProps.v ===== *)
(** * Properties of the consensus manager *)

From Stdlib Require Import ZArith Lia Strings.Byte ZifyNat.
From stdpp Require Import base gmap sets list sorting strings numbers.
From S2P Require Import Prelude Hash Vlc Event Dag Coin StateStore SparseMerkle MerkleStore StateManager StateEquiv StateProps Overlay ConsensusTypes AnchorBuilder AnchorProps Consensus.
#[local] Open Scope setu_scope.

(** ** Quorums *)

Definition approvers (cf : ConsensusFrame) : gset string :=
  dom (filter (fun kv => v_approve kv.2 = true) (cf_votes cf)).
Definition rejecters (cf : ConsensusFrame) : gset string :=
  dom (filter (fun kv => v_approve kv.2 = false) (cf_votes cf)).

Lemma approve_count_size cf : CF.approve_count cf = size (approvers cf).
Proof. symmetry. apply size_dom. Qed.
Lemma reject_count_size cf : CF.reject_count cf = size (rejecters cf).
Proof. symmetry. apply size_dom. Qed.

Lemma approvers_voters cf : approvers cf ⊆ dom (cf_votes cf).
Proof. apply dom_filter_subseteq. Qed.
Lemma rejecters_voters cf : rejecters cf ⊆ dom (cf_votes cf).
Proof. apply dom_filter_subseteq. Qed.

Lemma approvers_rejecters cf : approvers cf ## rejecters cf.
Proof.
  intros x. unfold approvers, rejecters. rewrite !elem_of_dom.
  intros [v Hv] [v' Hv']. apply map_lookup_filter_Some in Hv as [Hv Ha], Hv' as [Hv' Hr]. cbn in *. congruence.
Qed.

Lemma size_inter (A C V : gset string) : A ⊆ V → C ⊆ V → (size A + size C ≤ size V + size (A ∩ C))%nat.
Proof.
  intros HA HC. pose proof (size_union_alt A C) as Hu.
  assert (size (A ∪ C) ≤ size V)%nat by (apply subseteq_size; set_solver).
  assert (size C = size (C ∖ A) + size (A ∩ C))%nat; [|lia].
  rewrite <-size_union by set_solver. f_equal. apply set_eq. intros x.
  destruct (decide (x ∈ A)); set_solver.
Qed.

(** C4: the thresholds are those of Byzantine agreement.  For frames whose
    voters are among [n] validators: a frame with a quorum cannot also collect
    the rejections that reject it; two frames with a quorum have more than a
    third of the validators among the approvers of both, so at least one
    validator outside any set of at most a third of them approved both; and the
    validators left when fewer than a third fail to vote still form a quorum. *)
Theorem quorum_safety (V : gset string) (cf cf' : ConsensusFrame)
    (Hv : dom (cf_votes cf) ⊆ V) (Hv' : dom (cf_votes cf') ⊆ V) :
  (CF.check_quorum cf (size V) = true → CF.check_rejection cf (size V) = false) ∧
  (CF.check_quorum cf (size V) = true → CF.check_quorum cf' (size V) = true →
   ∀ F : gset string, (3 * size F ≤ size V)%nat → ∃ x, x ∈ approvers cf ∧ x ∈ approvers cf' ∧ x ∉ F) ∧
  (∀ F : gset string, (3 * size F < size V)%nat → V ∖ F ⊆ approvers cf →
   CF.check_quorum cf (size V) = true).
Proof.
  unfold CF.check_quorum, CF.check_rejection, CF.quorum_threshold, CF.rejection_threshold.
  rewrite !approve_count_size, reject_count_size, !Nat.leb_le. split_and!.
  - intros Hq. apply Nat.leb_gt.
    pose proof (approvers_voters cf). pose proof (rejecters_voters cf). pose proof (approvers_rejecters cf).
    assert (size (approvers cf ∪ rejecters cf) ≤ size V)%nat by (apply subseteq_size; set_solver).
    rewrite size_union in * by done. pose proof (Nat.div_mod_eq (size V * 2) 3). pose proof (Nat.div_mod_eq (size V) 3).
    pose proof (Nat.mod_upper_bound (size V * 2) 3). pose proof (Nat.mod_upper_bound (size V) 3). lia.
  - intros Hq Hq' F HF. pose proof (approvers_voters cf). pose proof (approvers_voters cf').
    pose proof (size_inter (approvers cf) (approvers cf') V ltac:(set_solver) ltac:(set_solver)) as Hi.
    assert (Hgt : (size F < size (approvers cf ∩ approvers cf'))%nat).
    { pose proof (Nat.div_mod_eq (size V * 2) 3). pose proof (Nat.mod_upper_bound (size V * 2) 3). lia. }
    assert (Hne : (approvers cf ∩ approvers cf') ∖ F ≢ ∅).
    { intros He. apply (Nat.lt_irrefl (size F)). eapply Nat.lt_le_trans; [exact Hgt|]. apply subseteq_size. set_solver. }
    apply set_choose in Hne as [x Hx]. exists x. set_solver.
  - intros F HF Hsub. apply Nat.leb_le. assert (Hs : (size V ≤ size (V ∖ F) + size F)%nat).
    { pose proof (size_union_alt F V). assert (size V ≤ size (F ∪ V))%nat by (apply subseteq_size; set_solver). lia. }
    assert (size (V ∖ F) ≤ size (approvers cf))%nat by (by apply subseteq_size).
    pose proof (Nat.div_mod_eq (size V * 2) 3). pose proof (Nat.mod_upper_bound (size V * 2) 3). lia.
Qed.

(** ** What deciding a frame does to the manager *)

Section manager.
Context `{B : Blake3} `{X : HexCrate} `{SB : StateBcs} {St : Type} `{B4 : B4Store St}.
Implicit Types (m : ConsensusManager St) (cf : ConsensusFrame) (id : CFId).

(** The fields the application of a frame's state touches. *)
Lemma apply_finalized_frame id cf now m :
  let m1 := (CM.apply_finalized id cf now m).1 in
  cm_config m1 = cm_config m ∧ legacy_folder m1 = legacy_folder m ∧ pending_cfs m1 = pending_cfs m ∧
  pending_builds m1 = delete id (pending_builds m) ∧
  pending_cf_events m1 = delete id (pending_cf_events m) ∧
  buffered_votes m1 = buffered_votes m ∧ finalized_cfs m1 = finalized_cfs m ∧
  persisted_anchor_ids m1 = persisted_anchor_ids m ∧ local_validator_id m1 = local_validator_id m ∧
  last_apply_failure m1 = last_apply_failure m.
Proof.
  unfold CM.apply_finalized. destruct (pending_builds m !! id) as [p|] eqn:Hp.
  - destruct (AB.commit_build _ _ _) as [b [sm|[]|]]; cbn; try done.
    by destruct (AB.apply_follower_finalized_cf _ _ _ _) as [b' []].
  - rewrite (delete_id (pending_builds m)) by done.
    by destruct (AB.apply_follower_finalized_cf _ _ _ _) as [b' []].
Qed.

Lemma apply_finalized_failure id cf now m m1 f :
  CM.apply_finalized id cf now m = (m1, Err f) →
  af_cf_id f = id ∧ af_anchor_id f = a_id (cf_anchor cf) ∧ af_anchor_depth f = a_depth (cf_anchor cf) ∧
  (af_role f = FollowerRole ↔ pending_builds m !! id = None).
Proof.
  unfold CM.apply_finalized. destruct (pending_builds m !! id) as [p|].
  - destruct (AB.commit_build _ _ _) as [b [sm|[]|]]; cbn; try (intros [= _ <-]; done); try done.
    destruct (AB.apply_follower_finalized_cf _ _ _ _) as [b' []]; try done. by intros [= _ <-].
  - destruct (AB.apply_follower_finalized_cf _ _ _ _) as [b' []]; try done. by intros [= _ <-].
Qed.

(** ** Garbage collection of finalized frames *)

Lemma gc_retain_spec n ids cfs :
  let '(kept, removed) := CM.gc_retain n ids cfs in
  kept `sublist_of` cfs ∧
  (length kept + length removed = length cfs)%nat ∧
  length removed = Nat.min n (length (filter (fun cf => a_id (cf_anchor cf) ∈ ids) cfs)) ∧
  filter (fun cf => a_id (cf_anchor cf) ∉ ids) kept = filter (fun cf => a_id (cf_anchor cf) ∉ ids) cfs ∧
  Forall (fun a => a ∈ ids) removed.
Proof.
  revert n. induction cfs as [|cf cfs IH]; intros n; cbn [CM.gc_retain].
  - split_and!; [done|done|by rewrite filter_nil, Nat.min_0_r|done|constructor].
  - destruct n as [|n]; [by split_and!|]. case_bool_decide as Hin.
    + specialize (IH n). destruct (CM.gc_retain n ids cfs) as [kept removed].
      destruct IH as (H1 & H2 & H3 & H4 & H5). rewrite !filter_cons, (decide_True _ _ Hin), (decide_False (P := _ ∉ _)) by tauto.
      split_and!; [by apply sublist_cons|rewrite ?length_cons in *; lia|rewrite ?length_cons in *; lia|done|by constructor].
    + specialize (IH (S n)). destruct (CM.gc_retain (S n) ids cfs) as [kept removed].
      destruct IH as (H1 & H2 & H3 & H4 & H5). rewrite !filter_cons, (decide_False _ _ Hin), !(decide_True (P := _ ∉ _)) by done.
      split_and!; [by apply sublist_skip|rewrite ?length_cons in *; lia|rewrite ?length_cons in *; lia|by f_equal|done].
Qed.

Lemma gc_retain_last n ids cfs cf :
  a_id (cf_anchor cf) ∉ ids → list.last (CM.gc_retain n ids (cfs ++ [cf])).1 = Some cf.
Proof.
  intros Hni. revert n. induction cfs as [|c cfs IH]; intros n; cbn [app CM.gc_retain].
  - destruct n; [done|]. by rewrite bool_decide_false.
  - destruct n as [|n].
    + cbn [fst]. by rewrite app_comm_cons, last_snoc.
    + case_bool_decide; [specialize (IH n)|specialize (IH (S n))];
        destruct (CM.gc_retain _ ids (cfs ++ [cf])) as [kept removed]; cbn in *; [done|].
      by rewrite last_cons, IH.
Qed.

(** Collection keeps the last frame unless it is persisted. *)
Lemma gc_last m cfs cf :
  finalized_cfs m = cfs ++ [cf] → a_id (cf_anchor cf) ∉ persisted_anchor_ids m →
  CM.last_finalized_cf (CM.gc_finalized_cfs m) = Some cf.
Proof.
  intros Hm Hp. unfold CM.last_finalized_cf, CM.gc_finalized_cfs.
  destruct (length (finalized_cfs m) <=? MAX_FINALIZED_CFS)%nat; [rewrite Hm; apply last_snoc|].
  pose proof (gc_retain_last (length (finalized_cfs m) - MAX_FINALIZED_CFS) (persisted_anchor_ids m) cfs cf Hp) as Hl.
  rewrite <-Hm in Hl. by destruct (CM.gc_retain _ _ _).
Qed.

Lemma gc_frame m :
  let m1 := CM.gc_finalized_cfs m in
  cm_config m1 = cm_config m ∧ anchor_builder m1 = anchor_builder m ∧ pending_cfs m1 = pending_cfs m ∧
  pending_builds m1 = pending_builds m ∧ pending_cf_events m1 = pending_cf_events m ∧
  buffered_votes m1 = buffered_votes m ∧ last_build_result m1 = last_build_result m ∧
  last_apply_failure m1 = last_apply_failure m ∧ finalized_cfs m1 `sublist_of` finalized_cfs m.
Proof.
  unfold CM.gc_finalized_cfs. destruct (_ <=? _)%nat; [by split_and!|].
  pose proof (gc_retain_spec (length (finalized_cfs m) - MAX_FINALIZED_CFS) (persisted_anchor_ids m) (finalized_cfs m)) as Hg.
  destruct (CM.gc_retain _ _ _) as [kept removed]. cbn. by split_and!; try apply Hg.
Qed.

(** ** The invariant of the manager *)

Record Inv m : Prop := {
  inv_keyed : ∀ id cf, pending_cfs m !! id = Some cf → cf_id cf = id;
  inv_builds : ∀ id p, pending_builds m !! id = Some p →
    ∃ cf, pending_cfs m !! id = Some cf ∧ cf_anchor cf = pb_anchor p;
  inv_one_build : ∀ id id' p p', pending_builds m !! id = Some p → pending_builds m !! id' = Some p' → id = id';
  inv_buffered : ∀ id vs, buffered_votes m !! id = Some vs → Forall (fun v => v_cf_id v = id) vs;
  inv_final : Forall (fun cf => cf_status cf = CFFinalized ∧ is_Some (cf_finalized_at cf)) (finalized_cfs m)
}.

(** Two managers the invariant does not tell apart. *)
Definition same_tables m m' : Prop :=
  pending_cfs m' = pending_cfs m ∧ pending_builds m' = pending_builds m ∧
  buffered_votes m' = buffered_votes m ∧ finalized_cfs m' = finalized_cfs m.

Lemma inv_same m m' : same_tables m m' → Inv m → Inv m'.
Proof. intros (H1 & H2 & H3 & H4) []. by constructor; rewrite ?H1, ?H2, ?H3, ?H4. Qed.

(** A frame replaced by one of the same anchor. *)
Lemma inv_update m id cf cf' :
  Inv m → pending_cfs m !! id = Some cf → cf_id cf' = id → cf_anchor cf' = cf_anchor cf →
  Inv (CM.set_cfs <[id := cf']> m).
Proof.
  intros [Hk Hb Ho Hv Hf] Hcf Hid Ha. constructor; cbn; try done.
  - intros j c [[<- <-]|[? ?]]%lookup_insert_Some; eauto.
  - intros j p Hp. destruct (Hb j p Hp) as (c & Hc & Hca). destruct (decide (j = id)) as [->|].
    + exists cf'. rewrite lookup_insert_eq. split; [done|]. congruence.
    + exists c. by rewrite lookup_insert_ne.
Qed.

Lemma inv_add m cf cf' :
  Inv m → pending_cfs m !! cf_id cf = None → cf_id cf' = cf_id cf → Inv (CM.set_cfs <[cf_id cf := cf']> m).
Proof.
  intros [Hk Hb Ho Hv Hf] Hn Hid. constructor; cbn; try done.
  - intros j c [[<- <-]|[? ?]]%lookup_insert_Some; eauto.
  - intros j p Hp. destruct (Hb j p Hp) as (c & Hc & Hca). exists c.
    rewrite lookup_insert_ne; [done|]. congruence.
Qed.

Lemma inv_discard m id : Inv m → Inv (CM.discard id m).
Proof.
  intros [Hk Hb Ho Hv Hf]. constructor; cbn; try done.
  - intros j c [? ?]%lookup_delete_Some. eauto.
  - intros j p [? Hp]%lookup_delete_Some. destruct (Hb j p Hp) as (c & ? & ?).
    exists c. by rewrite lookup_delete_ne.
  - intros j j' p p' [? ?]%lookup_delete_Some [? ?]%lookup_delete_Some. eauto.
Qed.

Lemma inv_buffer m f :
  Inv m → (∀ id vs, f (buffered_votes m) !! id = Some vs → Forall (fun v => v_cf_id v = id) vs) →
  Inv (CM.set_buffered f m).
Proof. intros [] Hf. by constructor. Qed.

Lemma add_first_vote_anchor cf vs :
  cf_id (foldl CM.add_first_vote cf vs) = cf_id cf ∧ cf_anchor (foldl CM.add_first_vote cf vs) = cf_anchor cf.
Proof.
  revert cf. induction vs as [|v vs IH]; intros cf; [done|]. cbn. destruct (IH (CM.add_first_vote cf v)) as [-> ->].
  unfold CM.add_first_vote. by case_bool_decide.
Qed.

Lemma inv_receive_cf cf m : Inv m → Inv (CM.receive_cf cf m).
Proof.
  intros Hm. unfold CM.receive_cf. destruct (pending_cfs m !! cf_id cf) eqn:Hp; [done|].
  destruct (buffered_votes m !! cf_id cf) as [vs|] eqn:Hb; [|by apply inv_add].
  apply inv_buffer; [apply inv_add; [done..|apply add_first_vote_anchor]|].
  intros id vs' [_ Hvs]%lookup_delete_Some. by eapply inv_buffered.
Qed.

Lemma inv_classify id now m : Inv m → Inv (CM.classify_finalization id now m).1.
Proof.
  intros Hm. unfold CM.classify_finalization. destruct (pending_cfs m !! id) as [cf|] eqn:Hcf; [|done].
  destruct (CM.decide_cf _ cf now) as [[]|]; try done; try by apply inv_discard.
  destruct (apply_finalized_frame id (CF.finalize cf now) now (CM.set_cfs (delete id) m))
    as (_ & _ & Hc & Hb & _ & Hv & Hf & _).
  destruct (CM.apply_finalized _ _ now _) as [m1 r]. cbn in *.
  destruct (inv_discard m id Hm) as [Hk' Hb' Ho' Hv' Hf']. cbn in *.
  assert (Hm1 : Inv m1) by (by constructor; rewrite ?Hc, ?Hb, ?Hv, ?Hf).
  destruct r; cbn; [|by eapply inv_same; [|exact Hm1]|done].
  match goal with |- Inv (CM.gc_finalized_cfs ?x) =>
    destruct (gc_frame x) as (_ & _ & Gc & Gb & _ & Gv & _ & _ & Gs) end.
  destruct Hm1 as [Hk1 Hb1 Ho1 Hv1 Hf1]. cbn in *. constructor; rewrite ?Gc, ?Gb, ?Gv; try done.
  apply list.Forall_forall. intros c Hc'. apply (elem_of_sublist _ _ _ Hc') in Gs. clear Hc'. revert c Gs.
  apply list.Forall_forall, Forall_app_2; [done|]. by repeat constructor.
Qed.

Lemma classify_finalized id now m m' i :
  CM.classify_finalization id now m = (m', Ok (CfFinalized i)) →
  ∃ cf, pending_cfs m !! id = Some cf ∧
    (a_id (cf_anchor cf) ∉ persisted_anchor_ids m → CM.last_finalized_cf m' = Some (CF.finalize cf now)).
Proof.
  unfold CM.classify_finalization. destruct (pending_cfs m !! id) as [cf|]; [|done].
  destruct (CM.decide_cf _ cf now) as [[]|]; try done.
  destruct (apply_finalized_frame id (CF.finalize cf now) now (CM.set_cfs (delete id) m))
    as (_ & _ & _ & _ & _ & _ & _ & Hp & _).
  destruct (CM.apply_finalized _ _ now _) as [m1 [u|f|]]; cbn in Hp; intros [= <- <-].
  exists cf. split; [done|]. intros Hn. eapply gc_last; [done|]. cbn. by rewrite Hp.
Qed.

Lemma inv_propose r round now m :
  Inv m → CM.can_start_new_pending_build m = true → Inv (CM.create_from r round now m).1.
Proof.
  intros [Hk Hb Ho Hv Hf] He%bool_decide_eq_true. unfold CM.create_from. destruct r as [p| |]; cbn; [|done..].
  constructor; cbn; try done.
  - intros j c [[<- <-]|[? ?]]%lookup_insert_Some; eauto.
  - intros j q. rewrite He. intros [[<- <-]|[? ?]]%lookup_insert_Some; [|done].
    eexists. by rewrite lookup_insert_eq.
  - intros j j' q q'. rewrite He.
    intros [[<- <-]|[? ?]]%lookup_insert_Some [[<- <-]|[? ?]]%lookup_insert_Some; done.
Qed.

Lemma inv_cleanup_one m id : Inv m → Inv (CM.cleanup_one m id).
Proof.
  intros Hm. unfold CM.cleanup_one.
  assert (Hm1 : Inv (match pending_cfs m !! id with
                     | Some _ => CM.set_buffered (delete id) (CM.discard id m) | None => m end)).
  { destruct (pending_cfs m !! id); [|done]. apply inv_buffer; [by apply inv_discard|].
    intros j vs [_ Hvs]%lookup_delete_Some. by eapply (inv_buffered m). }
  destruct (last_apply_failure _); [case_bool_decide|]; [|done..]. by eapply inv_same; [|exact Hm1].
Qed.

(** The operations the engine calls, each with its arguments. *)
Inductive mop :=
| OpPropose (dag : Dag) (vlc : VLC) (round now : Z)
| OpHeartbeat (dag : Dag) (vlc : VLC) (interval round now : Z)
| OpReceiveCf (cf : ConsensusFrame)
| OpReceiveFinalized (cf : ConsensusFrame) (now : Z)
| OpCfEvents (dag : Dag) (cf : ConsensusFrame)
| OpVote (E : Ed25519) (id : CFId) (approve : bool) (key : option bytes) (now : Z)
| OpReceiveVote (v : Vote) (now : Z)
| OpCheck (id : CFId) (now : Z)
| OpPersisted (a : AnchorId)
| OpCleanup (now : Z)
| OpValidators (count : nat).

Definition run_mop (o : mop) m : ConsensusManager St :=
  match o with
  | OpPropose dag vlc round now => (CM.try_create_cf dag vlc round now m).1
  | OpHeartbeat dag vlc interval round now => (CM.try_create_cf_heartbeat dag vlc interval round now m).1
  | OpReceiveCf cf => CM.receive_cf cf m
  | OpReceiveFinalized cf now => (CM.receive_finalized_cf cf now m).1
  | OpCfEvents dag cf => (CM.apply_cf_state_changes dag cf m).1
  | OpVote E id approve key now => (CM.vote_for_cf id approve key now m).1
  | OpReceiveVote v now => (CM.receive_vote v now m).1
  | OpCheck id now => (CM.classify_finalization id now m).1
  | OpPersisted a => CM.mark_anchor_persisted a m
  | OpCleanup now => (CM.cleanup_timeout_cfs now m).1
  | OpValidators count => CM.update_validator_count count m
  end.

Inductive reachable (m0 : ConsensusManager St) : ConsensusManager St → Prop :=
| reach_init : reachable m0 m0
| reach_step m o : reachable m0 m → reachable m0 (run_mop o m).

Lemma inv_new cfg vid sh : Inv (CM.with_shared_state_manager cfg vid sh).
Proof. by constructor. Qed.

Lemma inv_run_mop o m : Inv m → Inv (run_mop o m).
Proof.
  intros Hm. destruct o; cbn [run_mop].
  - unfold CM.try_create_cf. destruct (CM.can_start_new_pending_build m) eqn:Hc; [by apply inv_propose|done].
  - unfold CM.try_create_cf_heartbeat. destruct (CM.can_start_new_pending_build m) eqn:Hc; [by apply inv_propose|done].
  - by apply inv_receive_cf.
  - unfold CM.receive_finalized_cf. destruct (CM.is_finalized_cf m _); [done|]. apply inv_classify.
    destruct (pending_cfs m !! cf_id cf) as [c|] eqn:Hc; [|by apply inv_receive_cf].
    destruct (add_first_vote_anchor c (map_to_list (cf_votes cf)).*2) as [H1 H2].
    eapply inv_update; [done|exact Hc| |done]. rewrite H1. by eapply inv_keyed.
  - by eapply inv_same; [|exact Hm].
  - unfold CM.vote_for_cf. destruct (pending_cfs m !! id) as [c|] eqn:Hc; [|done].
    case_bool_decide; [done|]. cbn. eapply inv_update; [done|exact Hc|exact (inv_keyed m Hm _ _ Hc)|done].
  - unfold CM.receive_vote. destruct (pending_cfs m !! v_cf_id v) as [c|] eqn:Hc.
    + case_bool_decide; [done|]. apply inv_classify. eapply inv_update; [done|exact Hc|exact (inv_keyed m Hm _ _ Hc)|done].
    + apply inv_buffer; [done|]. intros id vs [[<- <-]|[? ?]]%lookup_insert_Some; [|by eapply inv_buffered].
      apply Forall_app_2; [|by repeat constructor].
      destruct (buffered_votes m !! v_cf_id v) as [vs|] eqn:Hb; [by eapply inv_buffered|constructor].
  - by apply inv_classify.
  - by eapply inv_same; [|exact Hm].
  - cbn. generalize ((filter (fun kv : CFId * ConsensusFrame =>
       CF.is_timeout kv.2 (cf_timeout_ms (cm_config m)) now = true) (map_to_list (pending_cfs m))).*1) as ids.
    intros ids. revert m Hm. induction ids as [|id ids IH]; intros m Hm; [done|]. cbn. by apply IH, inv_cleanup_one.
  - by eapply inv_same; [|exact Hm].
Qed.
End manager.

(** C12: whatever a node's manager receives and in whatever order (proposals,
    frames, frames announced as final, votes of its own and of others, events,
    persistence notices, clean-ups, changes of the validator count, and also a
    step that fails): the frames under vote are filed under their own id, at
    most one anchor of this node is in flight and the frame it belongs to is
    still under vote with exactly the anchor that was prepared, the buffered
    votes are for the frame they are buffered for, and the chain of finalized
    frames holds only frames marked final. *)
Theorem manager_invariant (B : Blake3) (X : HexCrate) (SB : StateBcs) (St : Type) (B4 : B4Store St)
    (cfg : ConsensusConfig) (vid : string) (sh : SharedStateManager St) (m : ConsensusManager St)
    (Hm : reachable (CM.with_shared_state_manager cfg vid sh) m) :
  (∀ id cf, CM.get_pending_cf m id = Some cf → cf_id cf = id) ∧
  (size (pending_builds m) ≤ 1)%nat ∧
  (∀ id p, pending_builds m !! id = Some p →
     ∃ cf, CM.get_pending_cf m id = Some cf ∧ cf_anchor cf = pb_anchor p) ∧
  (∀ id vs, buffered_votes m !! id = Some vs → Forall (fun v => v_cf_id v = id) vs) ∧
  Forall (fun cf => cf_status cf = CFFinalized ∧ is_Some (cf_finalized_at cf)) (finalized_cfs m).
Proof.
  assert (Hi : Inv m) by (induction Hm; [apply inv_new|by apply inv_run_mop]).
  destruct Hi as [Hk Hb Ho Hv Hf]. split_and!; try done.
  destruct (decide (size (pending_builds m) ≤ 1)%nat) as [|Hgt]; [done|]. exfalso.
  destruct (map_choose (pending_builds m)) as (id & p & Hp); [intros He; apply Hgt; rewrite He, map_size_empty; lia|].
  destruct (map_choose (delete id (pending_builds m))) as (id' & p' & Hp').
  { intros He. apply Hgt. rewrite <-(insert_delete_id _ _ _ Hp), He. by rewrite insert_empty, map_size_singleton. }
  apply lookup_delete_Some in Hp' as [Hne Hp']. apply Hne. by eapply Ho.
Qed.

(** [gc_finalized_cfs] forgets only frames whose anchor is persisted, keeps
    the order of the others, and keeps the number of frames within the bound
    of 1000 unless more than that many wait to be persisted. *)
Theorem gc_keeps_unpersisted (B : Blake3) (X : HexCrate) (SB : StateBcs) (St : Type) (m : ConsensusManager St) :
  let pers := fun cf : ConsensusFrame => a_id (cf_anchor cf) ∈ persisted_anchor_ids m in
  let m' := CM.gc_finalized_cfs m in
  finalized_cfs m' `sublist_of` finalized_cfs m ∧
  filter (fun cf => ¬ pers cf) (finalized_cfs m') = filter (fun cf => ¬ pers cf) (finalized_cfs m) ∧
  CM.finalized_count m' =
    Nat.min (CM.finalized_count m)
      (Nat.max MAX_FINALIZED_CFS (CM.finalized_count m - length (filter pers (finalized_cfs m)))) ∧
  persisted_anchor_ids m' ⊆ persisted_anchor_ids m.
Proof.
  cbn zeta. unfold CM.gc_finalized_cfs, CM.finalized_count.
  destruct (Nat.leb_spec (length (finalized_cfs m)) MAX_FINALIZED_CFS) as [Hle|Hgt]; [split_and!; [done|done|lia|done]|].
  pose proof (gc_retain_spec (length (finalized_cfs m) - MAX_FINALIZED_CFS) (persisted_anchor_ids m) (finalized_cfs m)) as Hg.
  destruct (CM.gc_retain _ _ _) as [kept removed]. destruct Hg as (H1 & H2 & H3 & H4 & H5). cbn [finalized_cfs persisted_anchor_ids CM.set_finalized].
  split_and!; [done|done|lia|set_solver].
Qed.

(** C29: what [classify_finalization] does to a frame under vote, on every
    outcome.  Without a decision nothing changes.  With one the frame, its
    prepared build and its events leave the tables, those of other frames stay.
    Only a quorum of approvals lets the state be applied: a rejected or timed
    out frame leaves the builder untouched, in that order of precedence.  A
    frame whose state could not be applied is not finalized and the failure is
    recorded with its own id; a finalized one is appended as the last of the
    finalized frames (unless its anchor was already marked as persisted) and
    clears the recorded failure. *)
Theorem classify_outcomes (B : Blake3) (X : HexCrate) (SB : StateBcs) (St : Type) (B4 : B4Store St)
    (m : ConsensusManager St) (id : CFId) (cf : ConsensusFrame) (now : Z)
    (Hcf : pending_cfs m !! id = Some cf) :
  let n := validator_count (cm_config m) in
  let gone m' := pending_cfs m' = delete id (pending_cfs m) ∧ pending_builds m' = delete id (pending_builds m) ∧
                 pending_cf_events m' = delete id (pending_cf_events m) ∧
                 buffered_votes m' = buffered_votes m ∧ cm_config m' = cm_config m in
  match CM.classify_finalization id now m with
  | (m', Ok CfPending) =>
      m' = m ∧ CF.check_quorum cf n = false ∧ CF.check_rejection cf n = false ∧
      CF.is_timeout cf (cf_timeout_ms (cm_config m)) now = false
  | (m', Ok (CfFinalized i)) =>
      i = id ∧ gone m' ∧ CF.check_quorum cf n = true ∧ last_apply_failure m' = None ∧
      finalized_cfs m' `sublist_of` finalized_cfs m ++ [CF.finalize cf now] ∧
      (a_id (cf_anchor cf) ∉ persisted_anchor_ids m → CM.last_finalized_cf m' = Some (CF.finalize cf now))
  | (m', Ok (CfApplyFailed f)) =>
      af_cf_id f = id ∧ gone m' ∧ CF.check_quorum cf n = true ∧ last_apply_failure m' = Some f ∧
      finalized_cfs m' = finalized_cfs m ∧ (af_role f = FollowerRole ↔ pending_builds m !! id = None)
  | (m', Ok (CfRejected i)) =>
      i = id ∧ gone m' ∧ CF.check_quorum cf n = false ∧ CF.check_rejection cf n = true ∧
      anchor_builder m' = anchor_builder m ∧ finalized_cfs m' = finalized_cfs m
  | (m', Ok (CfTimedOut i)) =>
      i = id ∧ gone m' ∧ CF.check_quorum cf n = false ∧ CF.check_rejection cf n = false ∧
      CF.is_timeout cf (cf_timeout_ms (cm_config m)) now = true ∧
      anchor_builder m' = anchor_builder m ∧ finalized_cfs m' = finalized_cfs m
  | (_, Err _) => False
  | (_, Panic) => CF.check_quorum cf n = true
  end.
Proof.
  cbn zeta. unfold CM.classify_finalization. rewrite Hcf. unfold CM.decide_cf.
  destruct (CF.check_quorum cf _) eqn:Hq.
  2: { destruct (CF.check_rejection cf _) eqn:Hr; [by split_and!|].
       destruct (CF.is_timeout cf _ now) eqn:Ht; by split_and!. }
  pose proof (apply_finalized_frame id (CF.finalize cf now) now (CM.set_cfs (delete id) m)) as Hfr.
  pose proof (apply_finalized_failure id (CF.finalize cf now) now (CM.set_cfs (delete id) m)) as Hfail.
  destruct (CM.apply_finalized _ _ now _) as [m1 r]. cbn in Hfr, Hfail.
  destruct Hfr as (H1 & _ & H2 & H3 & H4 & H5 & H6 & H7 & _).
  destruct r as [u|f|]; cbn [fst snd]; [|by destruct (Hfail m1 f eq_refl) as (? & _ & _ & ?)|done].
  set (m2 := CM.set_finalized _ _ _). pose proof (gc_frame m2) as (G1 & _ & G2 & G3 & G4 & G5 & _ & G7 & G8).
  assert (Hlast : a_id (cf_anchor cf) ∉ persisted_anchor_ids m →
                  CM.last_finalized_cf (CM.gc_finalized_cfs m2) = Some (CF.finalize cf now)).
  { intros Hp. eapply gc_last; [done|]. cbn. by rewrite H7. }
  cbn in G1, G2, G3, G4, G5, G7, G8. rewrite H6 in G8. cbn in G8.
  split_and!; congruence || done.
Qed.

(** C1: nodes stay replicas of each other through consensus.  A leader with a
    prepared anchor and a follower that collected the events of its frame, from
    states with the same contents: when each has seen a quorum, each finalizes
    the frame, and then both have the same state, anchor chain, depth, clock
    baseline and recorded state root, the one the anchor declares. *)
Theorem finalized_frame_replicates (B : Blake3) (X : HexCrate) (SB : StateBcs) (St1 St2 : Type)
    (B1 : B4Store St1) (B2 : B4Store St2) (ml : ConsensusManager St1) (mf : ConsensusManager St2)
    (id : CFId) (evs evs' : list Event) (vlc : VLC) (depth now t1 t2 : Z) (p : PendingAnchorBuild)
    (cfl cff : ConsensusFrame)
    (Hprep : AB.prepare_build_internal (anchor_builder ml) evs vlc depth now = Ok p)
    (Hnd : NoDup (ev_id <$> evs)) (Hevs : evs ≡ₚ evs')
    (Hl : pending_cfs ml !! id = Some cfl) (Hla : cf_anchor cfl = pb_anchor p)
    (Hlb : pending_builds ml !! id = Some p)
    (Hf : pending_cfs mf !! id = Some cff) (Hfa : cf_anchor cff = pb_anchor p)
    (Hfb : pending_builds mf !! id = None) (Hfe : pending_cf_events mf !! id = Some evs')
    (Hql : CF.check_quorum cfl (validator_count (cm_config ml)) = true)
    (Hqf : CF.check_quorum cff (validator_count (cm_config mf)) = true)
    (Hst : gsm_eqv (write_gsm (ab_shared (anchor_builder ml))) (write_gsm (ab_shared (anchor_builder mf))))
    (H1 : store_never_fails St1) (H2 : store_never_fails St2) :
  ∃ ml' mf',
    CM.classify_finalization id t1 ml = (ml', Ok (CfFinalized id)) ∧
    CM.classify_finalization id t2 mf = (mf', Ok (CfFinalized id)) ∧
    builders_agree (anchor_builder ml') (anchor_builder mf') ∧
    Some (AB.get_global_root (anchor_builder mf')) = global_state_root <$> merkle_roots (pb_anchor p) ∧
    (br_anchor <$> last_build_result ml') = Some (pb_anchor p).
Proof.
  destruct (leader_follower_step B X SB St1 St2 B1 B2 (anchor_builder ml) (anchor_builder mf) evs evs' vlc depth now
              t1 t2 p (CF.finalize cff t2) Hprep Hnd Hevs Hfa Hst H1 H2)
    as (b' & f' & sm & Hc & Ha & Hag & _ & Hroot).
  unfold CM.classify_finalization. rewrite Hl, Hf. unfold CM.decide_cf. rewrite Hql, Hqf.
  unfold CM.apply_finalized. cbn [CM.set_cfs CF.finalize CF.set_status pending_builds pending_cf_events cf_id cf_anchor].
  rewrite Hlb, Hfb, Hfe. change (default [] (Some evs')) with evs'. cbn [CM.set_cf_events CM.set_builds anchor_builder].
  change (anchor_builder (CM.set_cfs (delete id) ml)) with (anchor_builder ml).
  change (anchor_builder (CM.set_cfs (delete id) mf)) with (anchor_builder mf). rewrite Hc, Ha.
  eexists _, _. split; [reflexivity|]. split; [reflexivity|].
  match goal with |- context [anchor_builder (CM.gc_finalized_cfs ?x)] =>
    rewrite (proj1 (proj2 (gc_frame x))) end.
  match goal with |- context [anchor_builder (CM.gc_finalized_cfs ?x)] =>
    rewrite (proj1 (proj2 (gc_frame x))) end.
  split; [exact Hag|]. split; [exact Hroot|].
  match goal with |- context [last_build_result (CM.gc_finalized_cfs ?x)] =>
    destruct (gc_frame x) as (_ & _ & _ & _ & _ & _ & -> & _) end.
  cbn. by rewrite Hla.
Qed.

(** ** Witnesses *)

(** The frame of [p], approved by validator [v] of one; a leader that prepared
    it and a follower that received it with its events. *)
Definition wit_frame `{Blake3} `{HexCrate} (p : PendingAnchorBuild) : ConsensusFrame :=
  CF.add_vote (CF.new 0 (pb_anchor p) "v" 6) (Vt.new "v" (cf_id (CF.new 0 (pb_anchor p) "v" 6)) true 6).

Definition wit_config : ConsensusConfig := mkConfig 1 1 10 1000 1.

Definition wit_manager `{Blake3} `{HexCrate} (b : AnchorBuilder InMemoryMerkleStore) (p : PendingAnchorBuild)
    (builds : gmap CFId PendingAnchorBuild) (evs : gmap CFId (list Event)) : ConsensusManager InMemoryMerkleStore :=
  mkManager wit_config b (Folder.new wit_config) {[cf_id (wit_frame p) := wit_frame p]} builds evs ∅ [] ∅ "v" None None.

Lemma wit_frame_quorum `{Blake3} `{HexCrate} p : CF.check_quorum (wit_frame p) 1 = true.
Proof. unfold wit_frame. generalize (cf_id (CF.new 0 (pb_anchor p) "v" 6)). intros i. reflexivity. Qed.

Section Instances.
#[local] Existing Instance toy_blake3.
#[local] Existing Instance hex_lower.
#[local] Existing Instance wit_bcs.

(** Three approvals and one rejection of four validators. *)
Definition wit_votes : ConsensusFrame :=
  mkCF "cf" 0 (Anch.new [] (Vlc.snapshot wit_clock) "" None 0 0) "a" Proposed
    (list_to_map ((fun v => (v_validator_id v, v)) <$>
       [Vt.new "a" "cf" true 0; Vt.new "b" "cf" true 0; Vt.new "c" "cf" true 0; Vt.new "d" "cf" false 0])) 0 None.

Lemma quorum_safety_witness :
  let V : gset string := {["a"; "b"; "c"; "d"]} in
  CF.check_quorum wit_votes (size V) = true ∧ CF.check_rejection wit_votes (size V) = false ∧
  ∃ x, x ∈ approvers wit_votes ∧ x ∉ ({["a"]} : gset string).
Proof.
  intros V. assert (Hv : dom (cf_votes wit_votes) ⊆ V) by (apply (bool_decide_unpack _); vm_compute; exact I).
  assert (Hq : CF.check_quorum wit_votes (size V) = true) by (vm_compute; reflexivity).
  destruct (quorum_safety V wit_votes wit_votes Hv Hv) as (H1 & H2 & _).
  split; [exact Hq|]. split; [exact (H1 Hq)|].
  destruct (H2 Hq Hq {["a"]}) as (x & Hx & _ & Hn); [apply (bool_decide_unpack _); vm_compute; exact I|].
  exists x. split; [exact Hx|exact Hn].
Defined.

(** A node that proposes nothing, receives a frame of another with its vote in
    front of it, and a clean-up. *)
Lemma manager_invariant_witness :
  let m0 := CM.with_shared_state_manager wit_config "v" (Shared.new (GS.with_store IM.new)) in
  let m := run_mop (OpReceiveCf wit_votes) (run_mop (OpReceiveVote (Vt.new "e" "cf" true 1) 1) m0) in
  ∃ cf, CM.get_pending_cf m "cf" = Some cf ∧ cf_id cf = "cf" ∧ size (cf_votes cf) = 5%nat.
Proof.
  intros m0 m. assert (Hr : reachable m0 m) by (repeat constructor).
  destruct (manager_invariant _ _ _ _ _ _ _ _ m Hr) as (Hk & _).
  destruct (CM.get_pending_cf m "cf") as [cf|] eqn:Hc; [|discriminate Hc].
  exists cf. split; [reflexivity|]. split; [exact (Hk _ _ Hc)|].
  unfold m, m0, CM.get_pending_cf in Hc. vm_compute in Hc. injection Hc as <-. vm_compute. reflexivity.
Defined.

Lemma classify_outcomes_witness :
  let m := run_mop (OpReceiveCf wit_votes)
             (run_mop (OpValidators 9) (CM.with_shared_state_manager wit_config "v" (Shared.new (GS.with_store IM.new)))) in
  let m' := (CM.classify_finalization "cf" 2000 m).1 in
  (CM.classify_finalization "cf" 2000 m).2 = Ok (CfTimedOut "cf") ∧ pending_cfs m' = delete "cf" (pending_cfs m).
Proof.
  intros m m'. pose proof (classify_outcomes toy_blake3 hex_lower wit_bcs InMemoryMerkleStore _ m "cf" wit_votes 2000
                             eq_refl) as Hc.
  assert (Ho : (CM.classify_finalization "cf" 2000 m).2 = Ok (CfTimedOut "cf")) by (vm_compute; reflexivity).
  split; [exact Ho|]. unfold m'. destruct (CM.classify_finalization "cf" 2000 m) as [m1 r]. cbn [snd fst] in *.
  rewrite Ho in Hc. apply Hc.
Defined.

Lemma finalized_frame_replicates_witness :
  ∃ p ml' mf', AB.prepare_build_internal wit_builder wit_events wit_clock 3 5 = Ok p ∧
    let id := cf_id (wit_frame p) in
    CM.classify_finalization id 7 (wit_manager wit_builder p {[id := p]} ∅) = (ml', Ok (CfFinalized id)) ∧
    CM.classify_finalization id 8 (wit_manager wit_builder p ∅ {[id := reverse wit_events]}) = (mf', Ok (CfFinalized id)) ∧
    builders_agree (anchor_builder ml') (anchor_builder mf').
Proof.
  destruct (AB.prepare_build_internal wit_builder wit_events wit_clock 3 5) as [p| |] eqn:Hp.
  2, 3: exfalso; assert (Hok : is_ok (AB.prepare_build_internal wit_builder wit_events wit_clock 3 5) = true)
          by (vm_compute; reflexivity); rewrite Hp in Hok; discriminate Hok.
  set (id := cf_id (wit_frame p)).
  destruct (finalized_frame_replicates toy_blake3 hex_lower wit_bcs InMemoryMerkleStore InMemoryMerkleStore _ _
              (wit_manager wit_builder p {[id := p]} ∅) (wit_manager wit_builder p ∅ {[id := reverse wit_events]})
              id wit_events (reverse wit_events) wit_clock 3 5 7 8 p (wit_frame p) (wit_frame p) Hp)
    as (ml' & mf' & H1 & H2 & H3 & _).
  - apply (bool_decide_unpack _). vm_compute. exact I.
  - symmetry. apply reverse_Permutation.
  - apply lookup_singleton_eq.
  - reflexivity.
  - apply lookup_singleton_eq.
  - apply lookup_singleton_eq.
  - reflexivity.
  - apply lookup_empty.
  - apply lookup_singleton_eq.
  - apply wit_frame_quorum.
  - apply wit_frame_quorum.
  - intros n. reflexivity.
  - exact commit_im_ok.
  - exact commit_im_ok.
  - exists p, ml', mf'. split; [reflexivity|]. split; [exact H1|]. split; [exact H2|exact H3].
Defined.
End Instances.
