(* ===== verification/Election.v ===== *)
(** * The validator set and the election of proposers

    [consensus/src/validator_set.rs] and [consensus/src/liveness].  A round is a
    [u64], a voting power a [u128]; the participation ratio, which every
    implementation answers with the constant 1.0, is left out. *)

From Stdlib Require Import ZArith Lia.
From stdpp Require Import base gmap sets list sorting strings numbers.
From S2P Require Import Prelude Hash Coin.
#[local] Open Scope setu_scope.
#[local] Open Scope Z_scope.

Abbreviation ValidatorId := string.
Abbreviation VotingPower := Z.

Definition wrap128 (z : Z) : Z := z mod 2 ^ 128.
Definition wrap32 (z : Z) : Z := z mod 2 ^ 32.

(** [Iterator::sum] of [u128] values. *)
Definition sum_u128 (l : list Z) : Z := foldl (fun a x => wrap128 (a + x)) 0 l.

(** ** The trait *)

Class ProposerElection (E : Type) := {
  get_valid_proposer : E → Z → result Empty_set (option ValidatorId);
  get_candidates : E → list ValidatorId
}.

Definition is_valid_proposer `{ProposerElection E} (e : E) (v : ValidatorId) (round : Z) : result Empty_set bool :=
  let? p := get_valid_proposer e round in Ok (bool_decide (p = Some v)).

(** *** Weighted choice *)

Section Choice.
Context `{Blake3}.

(** The loop that turns the weights into cumulative weights. *)
Fixpoint cumulate (total : VotingPower) (ws : list VotingPower) : result Empty_set (list VotingPower * VotingPower) :=
  match ws with
  | [] => Ok ([], total)
  | w :: rest =>
      match checked_add u128_max total w with
      | None => Panic
      | Some total' => let? (cs, t) := cumulate total' rest in Ok (total' :: cs, t)
      end
  end.

(** A remainder by zero panics. *)
Definition next_in_range (seed : bytes) (mx : VotingPower) : result Empty_set VotingPower :=
  if (mx =? 0)%Z then Panic else Ok (of_le_bytes (take 16 (hv_bytes (blake3 seed))) mod mx)%Z.

(** [binary_search_by] with a comparison that is never [Equal], on a sorted
    slice: the insertion point, before the first weight above [chosen]. *)
Fixpoint insertion_point (cs : list VotingPower) (chosen : VotingPower) : nat :=
  match cs with
  | [] => 0%nat
  | w :: rest => if (w <=? chosen)%Z then S (insertion_point rest chosen) else 0%nat
  end.

Definition choose_index (weights : list VotingPower) (seed : bytes) : result Empty_set nat :=
  let? (cs, total_weight) := cumulate 0 weights in
  let? chosen_weight := next_in_range seed total_weight in
  Ok (insertion_point cs chosen_weight).
End Choice.

(** ** Rotation *)

Record RotatingProposer := mkRotating {
  proposers : list ValidatorId;
  contiguous_rounds : Z;
  voting_powers : list VotingPower
}.

(** The order of [sort_proposers]. *)
Definition id_le (a b : ValidatorId * VotingPower) : Prop := str_le a.1 b.1.
#[global] Instance id_le_dec : RelDecision id_le.
Proof. intros a b. unfold id_le. apply _. Defined.

Module Rot.
Definition new (ids : list ValidatorId) : RotatingProposer :=
  mkRotating ids 1 (replicate (length ids) 1%Z).

Definition with_contiguous_rounds (ids : list ValidatorId) (rounds : Z) : RotatingProposer :=
  mkRotating ids (Z.max rounds 1) (replicate (length ids) 1%Z).

Definition with_voting_powers (l : list (ValidatorId * VotingPower)) (rounds : Z) : RotatingProposer :=
  mkRotating l.*1 (Z.max rounds 1) l.*2.

(** The constructors keep [contiguous_rounds] positive. *)
Definition get_proposer_index (r : RotatingProposer) (round : Z) : nat :=
  if bool_decide (proposers r = []) then 0%nat
  else Z.to_nat ((round / contiguous_rounds r) mod Z.of_nat (length (proposers r))).

Definition sort_proposers (r : RotatingProposer) : RotatingProposer :=
  let combined := merge_sort id_le (zip (proposers r) (voting_powers r)) in
  mkRotating combined.*1 (contiguous_rounds r) combined.*2.

Definition add_proposer (p : ValidatorId) (power : VotingPower) (r : RotatingProposer) : RotatingProposer :=
  if bool_decide (p ∈ proposers r) then r
  else sort_proposers (mkRotating (proposers r ++ [p]) (contiguous_rounds r) (voting_powers r ++ [power])).

Definition position (p : ValidatorId) (l : list ValidatorId) : option nat := fst <$> list_find (fun q => q = p) l.

Definition remove_proposer (p : ValidatorId) (r : RotatingProposer) : RotatingProposer * bool :=
  match position p (proposers r) with
  | Some idx => (mkRotating (delete idx (proposers r)) (contiguous_rounds r) (delete idx (voting_powers r)), true)
  | None => (r, false)
  end.

Definition total_voting_power (r : RotatingProposer) : VotingPower := sum_u128 (voting_powers r).

Definition get_voting_power (r : RotatingProposer) (p : ValidatorId) : option VotingPower :=
  position p (proposers r) ≫= fun idx => voting_powers r !! idx.

Definition proposer_count (r : RotatingProposer) : nat := length (proposers r).

Definition valid_proposer (r : RotatingProposer) (round : Z) : option ValidatorId :=
  if bool_decide (proposers r = []) then None else proposers r !! get_proposer_index r round.
End Rot.

#[global] Instance RotatingProposer_election : ProposerElection RotatingProposer := {
  get_valid_proposer r round := Ok (Rot.valid_proposer r round);
  get_candidates r := proposers r
}.

(** The smallest of the ids. *)
Fixpoint choose_leader (peers : list ValidatorId) : option ValidatorId :=
  match peers with
  | [] => None
  | p :: rest =>
      match choose_leader rest with
      | None => Some p
      | Some q => if bool_decide (str_le p q) then Some p else Some q
      end
  end.

(** ** Reputation *)

Record ConsensusFrameMetadata := mkFrameMeta {
  fm_epoch : Z;
  fm_round : Z;
  fm_proposer : ValidatorId;
  fm_voters : list ValidatorId;
  fm_success : bool;
  fm_failed_voters : list ValidatorId;
  fm_timestamp : Z
}.

Record ReputationConfig := mkRepConfig {
  voter_window_size : nat;
  proposer_window_size : nat;
  active_weight : Z;
  inactive_weight : Z;
  failed_weight : Z;
  failure_threshold_percent : Z
}.

Definition reputation_default : ReputationConfig := mkRepConfig 10%nat 10%nat 100 10 1 20.

Class MetadataBackend (B : Type) := get_block_metadata : B → Z → Z → list ConsensusFrameMetadata * HashValue.

Abbreviation Candidates := (gmap Z (list ValidatorId)).

Class ReputationHeuristic (H : Type) :=
  get_weights : H → Z → Candidates → list ConsensusFrameMetadata → list Z.

Record ConsensusFrameAggregation := mkAggregation { ag_voter_window : nat; ag_proposer_window : nat }.

Module Aggr.
(** [*map.entry(v).or_insert(0) += 1] on [u32] counters. *)
Definition bump (m : gmap ValidatorId Z) (v : ValidatorId) : gmap ValidatorId Z :=
  <[v := wrap32 (default 0 (m !! v) + 1)]> m.

Definition known (ec : Candidates) (f : ConsensusFrameMetadata) : bool := bool_decide (is_Some (ec !! fm_epoch f)).

Definition count_votes (a : ConsensusFrameAggregation) (ec : Candidates) (history : list ConsensusFrameMetadata)
    : gmap ValidatorId Z :=
  foldl (fun votes f => if known ec f then foldl bump votes (fm_voters f) else votes)
    ∅ (take (ag_voter_window a) history).

Definition count_proposals (a : ConsensusFrameAggregation) (ec : Candidates) (history : list ConsensusFrameMetadata)
    : gmap ValidatorId Z :=
  foldl (fun m f => if negb (known ec f) || negb (fm_success f) then m else bump m (fm_proposer f))
    ∅ (take (ag_proposer_window a) history).

Definition count_failed_proposals (a : ConsensusFrameAggregation) (ec : Candidates)
    (history : list ConsensusFrameMetadata) : gmap ValidatorId Z :=
  foldl (fun m f => if negb (known ec f) || fm_success f then m else bump m (fm_proposer f))
    ∅ (take (ag_proposer_window a) history).

Definition get_aggregated_metrics (a : ConsensusFrameAggregation) (ec : Candidates)
    (history : list ConsensusFrameMetadata) :=
  (count_votes a ec history, count_proposals a ec history, count_failed_proposals a ec history).
End Aggr.

Record ProposerAndVoterHeuristic := mkHeuristic {
  pv_author : ValidatorId;
  pv_config : ReputationConfig;
  pv_aggregation : ConsensusFrameAggregation
}.

Module PV.
Definition new (author : ValidatorId) (config : ReputationConfig) : ProposerAndVoterHeuristic :=
  mkHeuristic author config (mkAggregation (voter_window_size config) (proposer_window_size config)).

(** The weight of one candidate. *)
Definition weight (c : ReputationConfig) (cur_votes cur_proposals cur_failed : Z) : Z :=
  let total_proposals := wrap32 (cur_proposals + cur_failed) in
  if ((0 <? total_proposals) && (failure_threshold_percent c <? wrap32 (cur_failed * 100) / total_proposals))%Z
  then failed_weight c
  else if ((0 <? cur_proposals) || (0 <? cur_votes))%Z then active_weight c
  else inactive_weight c.

#[global] Instance get_weights : ReputationHeuristic ProposerAndVoterHeuristic := fun h epoch ec history =>
  match ec !! epoch with
  | None => []
  | Some candidates =>
      let '(votes, proposals, failed) := Aggr.get_aggregated_metrics (pv_aggregation h) ec history in
      (fun author => weight (pv_config h) (default 0 (votes !! author)) (default 0 (proposals !! author))
                       (default 0 (failed !! author))) <$> candidates
  end.
End PV.

Record InMemoryMetadataBackend := mkMetaBackend {
  mb_history : list ConsensusFrameMetadata;
  max_history_size : nat
}.

Module MB.
Definition new (size : nat) : InMemoryMetadataBackend := mkMetaBackend [] size.

Definition add_frame (f : ConsensusFrameMetadata) (b : InMemoryMetadataBackend) : InMemoryMetadataBackend :=
  let history := f :: mb_history b in
  mkMetaBackend (if (max_history_size b <? length history)%nat then removelast history else history)
    (max_history_size b).

#[global] Instance get_block_metadata : MetadataBackend InMemoryMetadataBackend := fun b _ _ => (mb_history b, zero_hash).
End MB.

Record LeaderReputation (B H : Type) := mkLeaderRep {
  lr_epoch : Z;
  epoch_to_candidates : Candidates;
  lr_voting_powers : gmap ValidatorId VotingPower;
  lr_backend : B;
  lr_heuristic : H;
  exclude_inactive : bool
}.
Arguments mkLeaderRep {B H}.
Arguments lr_epoch {B H} _.
Arguments epoch_to_candidates {B H} _.
Arguments lr_voting_powers {B H} _.
Arguments lr_backend {B H} _.
Arguments lr_heuristic {B H} _.
Arguments exclude_inactive {B H} _.

Module LR.
Section LR.
Context `{Blake3} {Bk Hr : Type} `{MetadataBackend Bk} `{ReputationHeuristic Hr}.
Abbreviation Rep := (LeaderReputation Bk Hr).

Definition new (epoch : Z) (candidates : list ValidatorId) (powers : gmap ValidatorId VotingPower) (b : Bk) (h : Hr) : Rep :=
  mkLeaderRep epoch {[epoch := candidates]} powers b h false.

Definition set_exclude_inactive (exclude : bool) (r : Rep) : Rep :=
  mkLeaderRep (lr_epoch r) (epoch_to_candidates r) (lr_voting_powers r) (lr_backend r) (lr_heuristic r) exclude.

Definition update_epoch (epoch : Z) (candidates : list ValidatorId) (r : Rep) : Rep :=
  mkLeaderRep epoch (<[epoch := candidates]> (epoch_to_candidates r)) (lr_voting_powers r) (lr_backend r)
    (lr_heuristic r) (exclude_inactive r).

Definition get_reputation_weights (r : Rep) (round : Z) : list Z :=
  let '(history, _) := Election.get_block_metadata (lr_backend r) (lr_epoch r) round in
  Election.get_weights (lr_heuristic r) (lr_epoch r) (epoch_to_candidates r) history.

(** [candidates[idx]] panics when there are more weights than candidates. *)
Fixpoint voting_weights (powers : gmap ValidatorId VotingPower) (weights : list Z) (candidates : list ValidatorId)
    : result Empty_set (list VotingPower) :=
  match weights, candidates with
  | [], _ => Ok []
  | _ :: _, [] => Panic
  | w :: ws, v :: vs =>
      let? rest := voting_weights powers ws vs in Ok (wrap128 (w * default 1 (powers !! v)) :: rest)
  end.

Definition valid_proposer (r : Rep) (round : Z) : result Empty_set (option ValidatorId) :=
  match epoch_to_candidates r !! lr_epoch r with
  | None | Some [] => Ok None
  | Some candidates =>
      let? ws := voting_weights (lr_voting_powers r) (get_reputation_weights r round) candidates in
      let? idx := choose_index ws (to_le_bytes 8 round) in
      Ok (candidates !! idx)
  end.

#[global] Instance election : ProposerElection Rep := {
  get_valid_proposer := valid_proposer;
  get_candidates r := default [] (epoch_to_candidates r !! lr_epoch r)
}.
End LR.
End LR.

Definition create_reputation_election (epoch : Z) (candidates : list ValidatorId) (config : ReputationConfig)
    : LeaderReputation InMemoryMetadataBackend ProposerAndVoterHeuristic :=
  LR.new epoch candidates ∅ (MB.new (proposer_window_size config * 2)%nat) (PV.new (default "" (head candidates)) config).

(** ** The validator set *)

Inductive NodeRole := Validator | Solver | LightNode.
Inductive NodeStatus := Initializing | Syncing | Active | Inactive | Disconnected.

Record NodeInfo := mkNode {
  node_id : string;
  node_role : NodeRole;
  node_status : NodeStatus;
  node_address : string;
  node_port : Z;
  node_public_key : bytes;
  stake : Z;
  tee_enabled : bool
}.

Definition new_validator (id address : string) (port : Z) : NodeInfo :=
  mkNode id Validator Initializing address port [] 0 false.
Definition is_active (n : NodeInfo) : bool := match node_status n with Active => true | _ => false end.

Record ValidatorInfo := mkValidator { vi_node : NodeInfo; vi_is_leader : bool; leader_round : Z }.
Definition validator_info_new (n : NodeInfo) (is_leader : bool) : ValidatorInfo := mkValidator n is_leader 0.

Inductive ElectionStrategy :=
| Rotating (rounds : Z)
| Reputation (config : ReputationConfig)
| Fixed (id : ValidatorId).

Definition strategy_default : ElectionStrategy := Rotating 1.

(** The order in which a [HashMap] yields its keys: its hasher is seeded at
    random, so two maps with the same keys may yield them in any two orders. *)
Class KeyOrder := {
  hash_keys : gset ValidatorId → list ValidatorId;
  hash_keys_perm : ∀ X, hash_keys X ≡ₚ elements X
}.

(** One of them. *)
Definition elements_order : KeyOrder := {| hash_keys X := elements X; hash_keys_perm X := reflexivity _ |}.

Record ValidatorSet := mkVSet {
  validators : gmap ValidatorId ValidatorInfo;
  leader_id : option ValidatorId;
  current_round : Z;
  strategy : ElectionStrategy;
  election : option RotatingProposer;
  key_order : KeyOrder
}.

Module VS.
Definition with_strategy `{O : KeyOrder} (s : ElectionStrategy) : ValidatorSet := mkVSet ∅ None 0 s None O.
Definition new `{O : KeyOrder} : ValidatorSet := with_strategy strategy_default.

(** [validators.keys()], in the order of the map. *)
Definition keys (vs : ValidatorSet) : list ValidatorId := @hash_keys (key_order vs) (dom (validators vs)).

(** [let mut ids = validators.keys().collect(); ids.sort()]. *)
Definition sorted_ids (vs : ValidatorSet) : list ValidatorId := merge_sort str_le (keys vs).

Definition rebuild_election (vs : ValidatorSet) : ValidatorSet :=
  mkVSet (validators vs) (leader_id vs) (current_round vs) (strategy vs)
    (match strategy vs with
     | Rotating rounds => Some (Rot.with_contiguous_rounds (sorted_ids vs) rounds)
     | Fixed _ => None
     | Reputation _ => Some (Rot.new (sorted_ids vs))
     end) (key_order vs).

Definition set_leader (id : ValidatorId) (vs : ValidatorSet) : ValidatorSet :=
  mkVSet
    (map_imap (fun k info =>
       let is_new_leader := bool_decide (k = id) in
       Some (mkValidator (vi_node info) is_new_leader
               (if is_new_leader then current_round vs else leader_round info))) (validators vs))
    (Some id) (current_round vs) (strategy vs) (election vs) (key_order vs).

Definition elect_fallback_leader (vs : ValidatorSet) : ValidatorSet :=
  match choose_leader (keys vs) with
  | Some id => set_leader id vs
  | None => mkVSet (validators vs) None (current_round vs) (strategy vs) (election vs) (key_order vs)
  end.

(** The proposer the set rotates to; without an election, the sorted ids. *)
Definition leader_for_round (vs : ValidatorSet) (round : Z) : option ValidatorId :=
  match election vs with
  | Some e => Rot.valid_proposer e round
  | None =>
      let ids := sorted_ids vs in
      if bool_decide (ids = []) then None else ids !! Z.to_nat (round mod Z.of_nat (length ids))
  end.

Definition update_leader_for_round (round : Z) (vs : ValidatorSet) : ValidatorSet :=
  match leader_for_round vs round with
  | Some id => set_leader id vs
  | None => vs
  end.

Definition elect_next_leader (vs : ValidatorSet) : ValidatorSet :=
  match strategy vs with
  | Fixed id =>
      if bool_decide (is_Some (validators vs !! id)) then set_leader id vs else elect_fallback_leader vs
  | Rotating _ | Reputation _ => update_leader_for_round (current_round vs) vs
  end.

Definition add_validator (info : ValidatorInfo) (vs : ValidatorSet) : ValidatorSet :=
  let is_first := bool_decide (validators vs = ∅) in
  let id := node_id (vi_node info) in
  let info := if is_first then mkValidator (vi_node info) true (leader_round info) else info in
  rebuild_election
    (mkVSet (<[id := info]> (validators vs)) (if is_first then Some id else leader_id vs) (current_round vs)
       (strategy vs) (election vs) (key_order vs)).

Definition remove_validator (id : ValidatorId) (vs : ValidatorSet) : ValidatorSet * option ValidatorInfo :=
  let vs1 := rebuild_election
    (mkVSet (delete id (validators vs)) (leader_id vs) (current_round vs) (strategy vs) (election vs) (key_order vs)) in
  (if bool_decide (leader_id vs1 = Some id) then elect_next_leader vs1 else vs1, validators vs !! id).

Definition get_validator (vs : ValidatorSet) (id : ValidatorId) : option ValidatorInfo := validators vs !! id.
Definition get_leader (vs : ValidatorSet) : option ValidatorInfo := leader_id vs ≫= fun id => validators vs !! id.
Definition is_leader (vs : ValidatorSet) (id : ValidatorId) : bool := bool_decide (leader_id vs = Some id).

Definition get_valid_proposer (vs : ValidatorSet) (round : Z) : option ValidatorId :=
  match election vs with
  | Some e => Rot.valid_proposer e round
  | None => leader_id vs
  end.

Definition is_valid_proposer (vs : ValidatorSet) (id : ValidatorId) (round : Z) : bool :=
  bool_decide (get_valid_proposer vs round = Some id).

Definition set_round (round : Z) (vs : ValidatorSet) : ValidatorSet :=
  update_leader_for_round round
    (mkVSet (validators vs) (leader_id vs) round (strategy vs) (election vs) (key_order vs)).

Definition advance_round (vs : ValidatorSet) : ValidatorSet := set_round (u64_add (current_round vs) 1) vs.
Definition rotate_leader (vs : ValidatorSet) : ValidatorSet := advance_round vs.

Definition set_strategy (s : ElectionStrategy) (vs : ValidatorSet) : ValidatorSet :=
  rebuild_election (mkVSet (validators vs) (leader_id vs) (current_round vs) s (election vs) (key_order vs)).

Definition count (vs : ValidatorSet) : nat := size (validators vs).
Definition quorum_size (vs : ValidatorSet) : nat := (count vs * 2 / 3 + 1)%nat.
Definition has_quorum (vs : ValidatorSet) (vote_count : nat) : bool := (quorum_size vs <=? vote_count)%nat.
Definition active_validators (vs : ValidatorSet) : list ValidatorInfo :=
  filter (fun v => is_active (vi_node v) = true) (map_to_list (validators vs)).*2.
Definition total_voting_power (vs : ValidatorSet) : VotingPower :=
  sum_u128 (stake ∘ vi_node <$> (map_to_list (validators vs)).*2).
Definition get_voting_power (vs : ValidatorSet) (id : ValidatorId) : VotingPower :=
  default 0 (stake ∘ vi_node <$> validators vs !! id).
End VS.
