(* ===== verification/ElectionProps.v ===== *)
(** * Properties of the election of proposers *)

From Stdlib Require Import ZArith Lia.
From stdpp Require Import base gmap sets list sorting strings numbers.
From S2P Require Import Prelude Hash Coin Election.
#[local] Open Scope setu_scope.
#[local] Open Scope Z_scope.

(** ** Counting over ranges *)

Section Ranges.
Context (P : Z → Prop) `{!∀ x, Decision (P x)}.

Definition count_in (s len : Z) : nat := length (filter P (seqZ s len)).

Lemma count_in_app s a b : 0 ≤ a → 0 ≤ b → count_in s (a + b) = (count_in s a + count_in (s + a) b)%nat.
Proof. intros Ha Hb. unfold count_in. by rewrite seqZ_app, list.filter_app, length_app. Qed.

Lemma count_in_all s len : (∀ x, s ≤ x < s + len → P x) → count_in s len = Z.to_nat len.
Proof.
  intros HP. unfold count_in. rewrite list_filter_id.
  - apply length_seqZ.
  - intros x Hx%elem_of_seqZ. by apply HP.
Qed.

Lemma count_in_none s len : (∀ x, s ≤ x < s + len → ¬ P x) → count_in s len = 0%nat.
Proof.
  intros HP. unfold count_in. destruct (filter P (seqZ s len)) as [|x l] eqn:E; [done|].
  assert (Hx : x ∈ filter P (seqZ s len)) by (rewrite E; left).
  apply list_elem_of_filter in Hx as [Hp Hx%elem_of_seqZ]. by destruct (HP x).
Qed.

Lemma count_in_one s : count_in s 1 = if decide (P s) then 1%nat else 0%nat.
Proof.
  unfold count_in. rewrite (seqZ_cons s 1), (seqZ_nil (Z.succ s)), filter_cons, filter_nil by lia.
  by destruct (decide (P s)).
Qed.

(** A window as long as a period holds as many hits wherever it starts. *)
Lemma count_in_periodic s p :
  0 ≤ s → 0 < p → (∀ x, P (x + p) ↔ P x) → count_in s p = count_in 0 p.
Proof.
  intros Hs Hp Hper. revert s Hs. apply (natlike_ind (fun s => count_in s p = count_in 0 p)); [done|].
  intros s Hs IH. rewrite <-IH.
  pose proof (count_in_app s 1 (p - 1) ltac:(lia) ltac:(lia)) as H1.
  pose proof (count_in_app (s + 1) (p - 1) 1 ltac:(lia) ltac:(lia)) as H2.
  replace (1 + (p - 1)) with p in H1 by lia. replace (p - 1 + 1) with p in H2 by lia.
  replace (s + 1 + (p - 1)) with (s + p) in H2 by lia. replace (Z.succ s) with (s + 1) by lia.
  rewrite H1, H2. assert (count_in (s + p) 1 = count_in s 1); [|lia].
  rewrite !count_in_one. destruct (decide (P (s + p))) as [Ha|Ha], (decide (P s)) as [Hb|Hb]; [done| | |done];
    exfalso; [apply Hb|apply Ha]; by apply Hper.
Qed.
End Ranges.

(** ** Rotation *)

Lemma rotating_at ids c p r :
  1 ≤ c → ids ≠ [] →
  Rot.valid_proposer (mkRotating ids c p) r = ids !! Z.to_nat ((r / c) mod Z.of_nat (length ids)).
Proof. intros Hc Hne. unfold Rot.valid_proposer, Rot.get_proposer_index. cbn. by rewrite !bool_decide_false. Qed.

Lemma rotating_total ids c p r : 1 ≤ c → ids ≠ [] → ∃ v, Rot.valid_proposer (mkRotating ids c p) r = Some v ∧ v ∈ ids.
Proof.
  intros Hc Hne. rewrite rotating_at by done.
  assert (Hl : 0 < Z.of_nat (length ids)) by (destruct ids; [done|cbn; lia]).
  destruct (lookup_lt_is_Some_2 ids (Z.to_nat ((r / c) mod Z.of_nat (length ids)))) as [v Hv].
  { pose proof (Z.mod_pos_bound (r / c) _ Hl). lia. }
  exists v. split; [done|]. by eapply list_elem_of_lookup_2.
Qed.

(** Rotation is fair.  With [n] validators that lead [c] rounds in a row: the
    [k]-th block of [c] rounds belongs to validator [k mod n], and wherever it
    starts, every window of [n * c] consecutive rounds has each validator as the
    proposer of exactly [c] of them. *)
Theorem rotation_fair (ids : list ValidatorId) (c : Z) (Hne : ids ≠ []) (Hnd : NoDup ids) :
  let r := Rot.with_contiguous_rounds ids c in
  let c' := contiguous_rounds r in
  let n := Z.of_nat (length ids) in
  1 ≤ c' ∧
  (∀ k j, 0 ≤ j < c' → Rot.valid_proposer r (k * c' + j) = ids !! Z.to_nat (k mod n)) ∧
  (∀ s v, 0 ≤ s → v ∈ ids →
     count_in (fun round => Rot.valid_proposer r round = Some v) s (n * c') = Z.to_nat c').
Proof.
  unfold Rot.with_contiguous_rounds. cbn [contiguous_rounds]. set (c' := Z.max c 1). set (n := Z.of_nat (length ids)).
  assert (Hc : 1 ≤ c') by lia. assert (Hn : 0 < n) by (destruct ids; [done|cbn in n; lia]).
  assert (Hblock : ∀ k j, 0 ≤ j < c' →
    Rot.valid_proposer (mkRotating ids c' (replicate (length ids) 1)) (k * c' + j) = ids !! Z.to_nat (k mod n)).
  { intros k j Hj. rewrite rotating_at by done. rewrite Z.div_add_l, (Z.div_small j) by lia. by rewrite Z.add_0_r. }
  split; [done|]. split; [done|]. intros s v Hs [i Hi]%list_elem_of_lookup_1.
  rewrite (count_in_periodic _ s); [|lia|lia|].
  2: { intros x. rewrite !rotating_at by done. rewrite (Z.add_comm x), Z.div_add_l by lia.
       by rewrite Z.add_comm, <-Z.add_mod_idemp_r, Z.mod_same, Z.add_0_r by lia. }
  pose proof (lookup_lt_Some _ _ _ Hi) as Hin.
  assert (Hhit : ∀ k j, 0 ≤ k < n → 0 ≤ j < c' →
    Rot.valid_proposer (mkRotating ids c' (replicate (length ids) 1)) (k * c' + j) = Some v ↔ k = Z.of_nat i).
  { intros k j Hk Hj. rewrite Hblock, Z.mod_small by lia. split; [|by intros ->; rewrite Nat2Z.id].
    intros Hkv. assert (Z.to_nat k = i) by (by eapply NoDup_lookup). lia. }
  replace (n * c') with (Z.of_nat i * c' + (c' + (n - 1 - Z.of_nat i) * c')) by lia.
  rewrite !count_in_app by nia. rewrite count_in_none, count_in_all, count_in_none; [lia|..].
  - intros x Hx. rewrite (Z.div_mod x c') by lia. rewrite Z.mul_comm.
    pose proof (Z.mod_pos_bound x c' ltac:(lia)). rewrite Hhit; [|split; [apply Z.div_pos; nia|apply Z.div_lt_upper_bound; nia]|done].
    intros Hq. assert (x / c' * c' ≤ x) by (pose proof (Z.mul_div_le x c'); lia). pose proof (Z.div_mod x c'). nia.
  - intros x Hx. replace x with (Z.of_nat i * c' + (x - Z.of_nat i * c')) by lia. apply Hhit; lia.
  - intros x Hx. rewrite (Z.div_mod x c') by lia. rewrite Z.mul_comm.
    pose proof (Z.mod_pos_bound x c' ltac:(lia)). rewrite Hhit; [|split; [apply Z.div_pos; nia|apply Z.div_lt_upper_bound; nia]|done].
    pose proof (Z.div_mod x c'). nia.
Qed.

(** ** Weighted choice *)

Fixpoint sumZ (l : list Z) : Z :=
  match l with
  | [] => 0
  | w :: rest => w + sumZ rest
  end.

Lemma weights_nonneg l : Forall (fun w => 0 ≤ w) l → 0 ≤ sumZ l.
Proof. induction 1; cbn [sumZ]; lia. Qed.

Lemma sumZ_app l l' : sumZ (l ++ l') = sumZ l + sumZ l'.
Proof. induction l as [|x l IH]; cbn [app sumZ]; lia. Qed.

(** The cumulative weights above [t]. *)
Fixpoint running (t : Z) (ws : list Z) : list Z :=
  match ws with
  | [] => []
  | w :: rest => t + w :: running (t + w) rest
  end.

Lemma cumulate_running t ws :
  0 ≤ t → Forall (fun w => 0 ≤ w) ws → t + sumZ ws ≤ u128_max → cumulate t ws = Ok (running t ws, t + sumZ ws).
Proof.
  revert t. induction ws as [|w ws IH]; intros t Ht Hws Hmax; cbn [cumulate running sumZ] in *; [by rewrite Z.add_0_r|].
  apply list.Forall_cons in Hws as [Hw Hws]. pose proof (weights_nonneg ws Hws).
  unfold checked_add. rewrite (proj2 (Z.leb_le (t + w) u128_max)) by lia.
  rewrite IH by (done || lia). cbn [rbind]. by rewrite Z.add_assoc.
Qed.

Lemma insertion_point_spec t ws v i :
  Forall (fun w => 0 ≤ w) ws → t ≤ v < t + sumZ ws →
  insertion_point (running t ws) v = i ↔ t + sumZ (take i ws) ≤ v < t + sumZ (take (S i) ws).
Proof.
  revert t i. induction ws as [|w ws IH]; intros t i Hws Hv; cbn [sumZ] in Hv; [lia|].
  apply list.Forall_cons in Hws as [Hw Hws]. cbn [running insertion_point].
  destruct (Z.leb_spec (t + w) v) as [Hle|Hgt].
  - destruct i as [|i]; cbn [firstn sumZ]; rewrite ?take_0; cbn [sumZ].
    + split; [done|]. intros ?. lia.
    + specialize (IH (t + w) i Hws ltac:(lia)). rewrite Nat.succ_inj_wd, IH. cbn [firstn sumZ]. lia.
  - destruct i as [|i]; cbn [firstn sumZ]; rewrite ?take_0; cbn [sumZ]; [split; [intros _; lia|done]|].
    split; [done|]. intros [Hlo _]. exfalso.
    assert (0 ≤ sumZ (take i ws)) by (by apply weights_nonneg, Forall_take). lia.
Qed.

Lemma sumZ_take_S ws i w : ws !! i = Some w → sumZ (take (S i) ws) = sumZ (take i ws) + w.
Proof. intros Hi. rewrite (take_S_r _ _ _ Hi), sumZ_app. cbn [sumZ]. lia. Qed.

Lemma sumZ_take_le ws i : Forall (fun w => 0 ≤ w) ws → sumZ (take i ws) ≤ sumZ ws.
Proof.
  intros Hws. rewrite <-(take_drop i ws) at 2. rewrite sumZ_app.
  pose proof (weights_nonneg (drop i ws) ltac:(by apply Forall_drop)). lia.
Qed.

Lemma insertion_point_in_range (B : Blake3) ws seed :
  Forall (fun w => 0 ≤ w) ws → sumZ ws ≤ u128_max → 0 < sumZ ws →
  ∃ i, choose_index ws seed = Ok i ∧ (i < length ws)%nat.
Proof.
  intros Hws Hmax Hpos. unfold choose_index, next_in_range. rewrite (cumulate_running 0 ws) by (done || lia).
  cbn [rbind]. rewrite Z.add_0_l, (proj2 (Z.eqb_neq _ 0)) by lia. cbn [rbind].
  pose proof (Z.mod_pos_bound (of_le_bytes (take 16 (hv_bytes (blake3 seed)))) _ Hpos) as Hv.
  set (v := _ mod sumZ ws) in *. eexists. split; [reflexivity|].
  destruct (insertion_point_spec 0 ws v (insertion_point (running 0 ws) v) Hws ltac:(lia)) as [Hi _].
  specialize (Hi eq_refl). destruct (decide (insertion_point (running 0 ws) v < length ws)%nat); [done|].
  rewrite !take_ge in Hi by lia. lia.
Qed.

(** C40: [choose_index] chooses in proportion to the weights.  When the weights do
    not all vanish and their sum fits, it returns an index whose interval of
    cumulative weights holds the digest modulo the total, and of the residues
    below the total exactly [w] choose an index of weight [w], so that an index
    of weight 0 is never chosen; a total of 0 panics. *)
Theorem choose_index_proportional (B : Blake3) (ws : list VotingPower) (seed : bytes)
    (Hws : Forall (fun w => 0 ≤ w) ws) (Hmax : sumZ ws ≤ u128_max) :
  (sumZ ws = 0 → choose_index ws seed = Panic) ∧
  (0 < sumZ ws →
   (∃ i v w, choose_index ws seed = Ok i ∧ ws !! i = Some w ∧ next_in_range seed (sumZ ws) = Ok v ∧
      sumZ (take i ws) ≤ v < sumZ (take i ws) + w) ∧
   ∀ i w, ws !! i = Some w →
     count_in (fun v => insertion_point (running 0 ws) v = i) 0 (sumZ ws) = Z.to_nat w).
Proof.
  unfold choose_index. rewrite (cumulate_running 0 ws) by (done || lia). cbn [rbind]. rewrite Z.add_0_l.
  split; [intros ->; done|]. intros Hpos. split.
  - unfold next_in_range. rewrite (proj2 (Z.eqb_neq _ 0)) by lia. cbn [rbind].
    set (v := _ mod sumZ ws). pose proof (Z.mod_pos_bound (of_le_bytes (take 16 (hv_bytes (blake3 seed)))) _ Hpos) as Hv.
    fold v in Hv. exists (insertion_point (running 0 ws) v), v.
    destruct (insertion_point_spec 0 ws v (insertion_point (running 0 ws) v) Hws ltac:(lia)) as [Hi _]. specialize (Hi eq_refl).
    destruct (ws !! insertion_point (running 0 ws) v) as [w|] eqn:Hw.
    + exists w. rewrite (sumZ_take_S _ _ _ Hw) in Hi. split_and!; try done; lia.
    + exfalso. apply lookup_ge_None in Hw. rewrite !take_ge in Hi by lia. lia.
  - intros i w Hw. pose proof (sumZ_take_S _ _ _ Hw) as HS. pose proof (sumZ_take_le ws (S i) Hws) as Hle.
    assert (0 ≤ sumZ (take i ws)) by (by apply weights_nonneg, Forall_take).
    assert (0 ≤ w) by (rewrite Forall_lookup in Hws; by eapply Hws).
    replace (sumZ ws) with (sumZ (take i ws) + (w + (sumZ ws - sumZ (take (S i) ws)))) by lia.
    rewrite !count_in_app by lia. rewrite count_in_none, count_in_all, count_in_none; [lia|..];
      intros x Hx; rewrite insertion_point_spec by (done || lia); lia.
Qed.

(** ** The validator set *)

Inductive vs_op :=
| AddV (info : ValidatorInfo)
| RemoveV (id : ValidatorId)
| AdvanceR
| SetR (round : Z)
| SetS (s : ElectionStrategy).

Definition run_vs (o : vs_op) (vs : ValidatorSet) : ValidatorSet :=
  match o with
  | AddV info => VS.add_validator info vs
  | RemoveV id => (VS.remove_validator id vs).1
  | AdvanceR => VS.advance_round vs
  | SetR round => VS.set_round round vs
  | SetS s => VS.set_strategy s vs
  end.

Definition vs_run `{O : KeyOrder} (s : ElectionStrategy) (ops : list vs_op) : ValidatorSet :=
  foldl (fun vs o => run_vs o vs) (VS.with_strategy s) ops.

(** The election is the one of the current members and strategy, or the set was
    never filled. *)
Definition expected_election (vs : ValidatorSet) : option RotatingProposer := election (VS.rebuild_election vs).
Definition election_inv (vs : ValidatorSet) : Prop :=
  election vs = expected_election vs ∨ validators vs = ∅ ∧ election vs = None.

Lemma set_leader_dom id vs : dom (validators (VS.set_leader id vs)) = dom (validators vs).
Proof.
  apply set_eq. intros k. unfold VS.set_leader. cbn. rewrite !elem_of_dom, map_lookup_imap.
  destruct (validators vs !! k); split; by intros [? ?].
Qed.

Lemma set_leader_frame id vs :
  election (VS.set_leader id vs) = election vs ∧ strategy (VS.set_leader id vs) = strategy vs ∧
  VS.sorted_ids (VS.set_leader id vs) = VS.sorted_ids vs.
Proof.
  split_and!; [done|done|]. unfold VS.sorted_ids, VS.keys. change (key_order (VS.set_leader id vs)) with (key_order vs).
  by rewrite set_leader_dom.
Qed.

Lemma rebuild_inv vs : election_inv (VS.rebuild_election vs).
Proof. by left. Qed.

Lemma expected_of vs vs' :
  strategy vs' = strategy vs → VS.sorted_ids vs' = VS.sorted_ids vs → expected_election vs' = expected_election vs.
Proof. unfold expected_election, VS.rebuild_election. cbn. by intros -> ->. Qed.

Lemma inv_set_leader id vs : election_inv vs → election_inv (VS.set_leader id vs).
Proof.
  destruct (set_leader_frame id vs) as (He & Hs & Hi). intros [H|[H1 H2]].
  - left. by rewrite He, (expected_of vs).
  - right. split; [|done]. apply (dom_empty_inv_L (D := gset string)). by rewrite set_leader_dom, H1, dom_empty_L.
Qed.

Lemma inv_update_leader r vs : election_inv vs → election_inv (VS.update_leader_for_round r vs).
Proof. unfold VS.update_leader_for_round. destruct (VS.leader_for_round vs r); [apply inv_set_leader|done]. Qed.

Lemma inv_run_vs o vs : election_inv vs → election_inv (run_vs o vs).
Proof.
  intros Hv. destruct o as [info|id| |round|s]; cbn [run_vs]; [apply rebuild_inv| |by apply inv_update_leader..|apply rebuild_inv].
  unfold VS.remove_validator. cbn [fst]. case_bool_decide; [|apply rebuild_inv].
  set (vs1 := VS.rebuild_election _). pose proof (rebuild_inv _ : election_inv vs1) as H1. clearbody vs1.
  unfold VS.elect_next_leader. destruct (strategy vs1); try by apply inv_update_leader.
  case_bool_decide; [by apply inv_set_leader|]. unfold VS.elect_fallback_leader.
  destruct (choose_leader _); [by apply inv_set_leader|]. done.
Qed.

Lemma vs_run_inv `{O : KeyOrder} s ops : election_inv (vs_run s ops).
Proof.
  unfold vs_run. assert (H0 : election_inv (VS.with_strategy s)) by (by right).
  revert H0. generalize (VS.with_strategy s). induction ops as [|o ops IH]; intros vs Hv; [done|].
  cbn. by apply IH, inv_run_vs.
Qed.

Lemma sorted_ids_nonempty vs : validators vs ≠ ∅ → VS.sorted_ids vs ≠ [].
Proof.
  intros Hne Hs. apply Hne, (dom_empty_inv_L (D := gset string)). apply leibniz_equiv, elements_empty_iff.
  apply Permutation_nil. rewrite <-Hs. unfold VS.sorted_ids, VS.keys. by rewrite merge_sort_Permutation, hash_keys_perm.
Qed.

Lemma elem_of_sorted_ids vs v : v ∈ VS.sorted_ids vs ↔ v ∈ dom (validators vs).
Proof. unfold VS.sorted_ids, VS.keys. by rewrite merge_sort_Permutation, hash_keys_perm, elem_of_elements. Qed.

#[global] Instance str_le_anti : AntiSymm (=) str_le.
Proof. intros a b. apply str_le_antisym. Qed.

(** The sort removes the order of the map. *)
Lemma sorted_ids_agree vs1 vs2 :
  dom (validators vs1) = dom (validators vs2) → VS.sorted_ids vs1 = VS.sorted_ids vs2.
Proof.
  intros Hdom. unfold VS.sorted_ids, VS.keys. apply (StronglySorted_unique str_le).
  - apply (StronglySorted_merge_sort str_le).
  - apply (StronglySorted_merge_sort str_le).
  - by rewrite !merge_sort_Permutation, !hash_keys_perm, Hdom.
Qed.

Lemma inv_rotating vs :
  election_inv vs → validators vs ≠ ∅ → (∀ id, strategy vs ≠ Fixed id) →
  ∃ c p, 1 ≤ c ∧ election vs = Some (mkRotating (VS.sorted_ids vs) c p).
Proof.
  intros [He|[? _]] Hne Hs; [|done]. rewrite He. unfold expected_election, VS.rebuild_election. cbn.
  destruct (strategy vs) as [r|cfg|id]; [| |by destruct (Hs id)]; eexists _, _; (split; [|reflexivity]); lia.
Qed.

(** C38: the nodes agree on the proposer of every round.  Two validator sets
    whose maps yield their keys in different orders and that went through any
    additions, removals, rounds and changes of strategy, in any order, but have
    the same members and the same strategy, which is not that of a fixed
    proposer, name the same proposer for every round, and it is a member. *)
Theorem proposer_agreement (O1 O2 : KeyOrder) (s1 s2 : ElectionStrategy) (ops1 ops2 : list vs_op)
    (Hs : strategy (vs_run (O := O1) s1 ops1) = strategy (vs_run (O := O2) s2 ops2))
    (Hrot : ∀ id, strategy (vs_run (O := O1) s1 ops1) ≠ Fixed id)
    (Hdom : dom (validators (vs_run (O := O1) s1 ops1)) = dom (validators (vs_run (O := O2) s2 ops2)))
    (Hne : validators (vs_run (O := O1) s1 ops1) ≠ ∅) (round : Z) :
  ∃ v, VS.get_valid_proposer (vs_run (O := O1) s1 ops1) round = Some v ∧
       VS.get_valid_proposer (vs_run (O := O2) s2 ops2) round = Some v ∧
       v ∈ dom (validators (vs_run (O := O1) s1 ops1)).
Proof.
  set (vs1 := vs_run (O := O1) s1 ops1) in *. set (vs2 := vs_run (O := O2) s2 ops2) in *.
  assert (Hne2 : validators vs2 ≠ ∅).
  { intros He. apply Hne, (dom_empty_inv_L (D := gset string)). by rewrite Hdom, He, dom_empty_L. }
  destruct (vs_run_inv (O := O1) s1 ops1) as [H1|[? _]]; [|done].
  destruct (vs_run_inv (O := O2) s2 ops2) as [H2|[? _]]; [|done].
  fold vs1 in H1. fold vs2 in H2. clearbody vs1 vs2.
  destruct (inv_rotating vs1 (or_introl H1) Hne Hrot) as (c & p & Hc & He).
  assert (He2 : election vs2 = election vs1) by (rewrite H1, H2; symmetry; apply expected_of; [done|by apply sorted_ids_agree]).
  unfold VS.get_valid_proposer. rewrite He2, He.
  destruct (rotating_total (VS.sorted_ids vs1) c p round Hc) as (v & Hv & Hin); [by apply sorted_ids_nonempty|].
  exists v. split; [done|]. split; [done|]. by apply elem_of_sorted_ids.
Qed.

(** Moving to a round makes its proposer the leader.  On a set with members
    and a rotating election, [set_round] (and so [advance_round]) makes the
    proposer of that round the leader; it is a member, it alone is marked as
    leader, and its mark carries the round. *)
Theorem set_round_leader (O : KeyOrder) (s : ElectionStrategy) (ops : list vs_op) (round : Z)
    (Hne : validators (vs_run s ops) ≠ ∅) (Hs : ∀ id, strategy (vs_run s ops) ≠ Fixed id) :
  let vs' := VS.set_round round (vs_run s ops) in
  current_round vs' = round ∧ dom (validators vs') = dom (validators (vs_run s ops)) ∧
  ∃ v, VS.get_valid_proposer vs' round = Some v ∧ leader_id vs' = Some v ∧ v ∈ dom (validators vs') ∧
    ∀ id info, validators vs' !! id = Some info →
      (vi_is_leader info = true ↔ id = v) ∧ (id = v → leader_round info = round).
Proof.
  intros vs'. destruct (inv_rotating _ (vs_run_inv s ops) Hne Hs) as (c & p & Hc & He).
  destruct (rotating_total (VS.sorted_ids (vs_run s ops)) c p round Hc) as (v & Hv & Hin); [by apply sorted_ids_nonempty|].
  unfold vs', VS.set_round, VS.update_leader_for_round, VS.leader_for_round. cbn [election]. rewrite He, Hv.
  split; [done|]. rewrite set_leader_dom. cbn [validators]. split; [done|].
  exists v. unfold VS.get_valid_proposer. cbn [VS.set_leader election leader_id current_round].
  split; [done|]. split; [done|]. split; [by apply elem_of_sorted_ids|].
  intros id info. cbn [VS.set_leader validators current_round]. rewrite map_lookup_imap.
  destruct (validators (vs_run s ops) !! id); [|done]. cbn. intros [= <-]. cbn.
  rewrite bool_decide_eq_true. split; [done|]. intros ->. by rewrite bool_decide_true.
Qed.

(** Removing the last validator leaves it the leader: the rotation has no
    proposer to replace it, and the leader id is only cleared on the fixed
    strategy's path. *)
Theorem removed_leader_stays :
  let vs := (VS.remove_validator "v"
               (VS.add_validator (validator_info_new (new_validator "v" "h" 1) false) (VS.new (O := elements_order)))).1 in
  validators vs = ∅ ∧ VS.is_leader vs "v" = true ∧ VS.get_leader vs = None ∧ VS.get_valid_proposer vs 0 = None.
Proof. vm_compute. done. Qed.

(** ** Reputation *)

(** The reputation election names a candidate in every round.  With candidates
    in the current epoch, positive weights of at most 2^32, stakes of at least 1
    in [u64] and at most 2^32 candidates, whatever the history: no addition
    overflows, no remainder is by zero, and the answer is a candidate. *)
Theorem reputation_elects (B : Blake3) (r : LeaderReputation InMemoryMetadataBackend ProposerAndVoterHeuristic)
    (cs : list ValidatorId) (round : Z)
    (Hcs : epoch_to_candidates r !! lr_epoch r = Some cs) (Hne : cs ≠ [])
    (Hlen : Z.of_nat (length cs) ≤ 2 ^ 32)
    (Hw : ∀ w, w ∈ [active_weight (pv_config (lr_heuristic r)); inactive_weight (pv_config (lr_heuristic r));
                    failed_weight (pv_config (lr_heuristic r))] → 1 ≤ w ≤ 2 ^ 32)
    (Hst : ∀ v s, lr_voting_powers r !! v = Some s → 1 ≤ s ≤ u64_max) :
  ∃ v, LR.valid_proposer r round = Ok (Some v) ∧ v ∈ cs.
Proof.
  assert (Hweights : ∃ g : ValidatorId → Z, LR.get_reputation_weights r round = g <$> cs ∧ ∀ v, 1 ≤ g v ≤ 2 ^ 32).
  { unfold LR.get_reputation_weights, get_block_metadata, MB.get_block_metadata, get_weights, PV.get_weights.
    rewrite Hcs. unfold Aggr.get_aggregated_metrics. eexists. split; [reflexivity|].
    intros v. cbv beta. unfold PV.weight. destruct (_ && _); [apply Hw; set_solver|].
    destruct (_ || _); apply Hw; set_solver. }
  destruct Hweights as (g & Hg & Hrange). set (powers := lr_voting_powers r) in *.
  assert (Hvw : ∀ l, LR.voting_weights powers (g <$> l) l = Ok ((fun v => g v * default 1 (powers !! v)) <$> l) ∧
     Forall (fun w => 0 ≤ w) ((fun v => g v * default 1 (powers !! v)) <$> l) ∧
     Z.of_nat (length l) ≤ sumZ ((fun v => g v * default 1 (powers !! v)) <$> l) ≤ Z.of_nat (length l) * (2 ^ 32 * u64_max)).
  { induction l as [|v l (IH1 & IH2 & IH3)]; [by split_and!|]. cbn [fmap list_fmap LR.voting_weights length sumZ].
    fold (list_fmap ValidatorId VotingPower). change (list_fmap _ _ g l) with (g <$> l). rewrite IH1. cbn [rbind].
    assert (Hp : 1 ≤ default 1 (powers !! v) ≤ u64_max).
    { destruct (powers !! v) eqn:Hv; cbn; [by eapply Hst|]. unfold u64_max. lia. }
    pose proof (Hrange v) as Hgv.
    assert (Hprod : 1 ≤ g v * default 1 (powers !! v) ≤ 2 ^ 32 * u64_max) by nia.
    assert (Hwr : wrap128 (g v * default 1 (powers !! v)) = g v * default 1 (powers !! v)).
    { unfold wrap128. apply Z.mod_small. unfold u64_max in *. lia. }
    rewrite Hwr. split; [done|]. split; [by constructor; [lia|]|].
    change (list_fmap _ _ (fun v => g v * default 1 (powers !! v)) l) with ((fun v => g v * default 1 (powers !! v)) <$> l).
    rewrite Nat2Z.inj_succ. nia. }
  destruct (Hvw cs) as (H1 & H2 & H3). unfold LR.valid_proposer. fold powers. rewrite Hcs, Hg.
  assert (Hpos : 0 < Z.of_nat (length cs)) by (destruct cs; [done|cbn; lia]).
  destruct (insertion_point_in_range B ((fun v => g v * default 1 (powers !! v)) <$> cs) (to_le_bytes 8 round)) as (i & Hi & Hlt);
    [done|unfold u128_max, u64_max in *; nia|lia|].
  rewrite length_fmap in Hlt. destruct (lookup_lt_is_Some_2 cs i Hlt) as [v Hv]. exists v.
  destruct cs as [|c0 cs]; [done|]. rewrite H1. cbn [rbind]. rewrite Hi. cbn [rbind]. rewrite Hv.
  split; [done|]. by eapply list_elem_of_lookup_2.
Qed.

(** ** Witnesses *)

Section Instances.
#[local] Existing Instance toy_blake3.

Lemma rotation_fair_witness :
  let r := Rot.with_contiguous_rounds ["a"; "b"; "c"] 2 in
  count_in (fun round => Rot.valid_proposer r round = Some "b") 5 6 = 2%nat.
Proof.
  destruct (rotation_fair ["a"; "b"; "c"] 2) as (_ & _ & H).
  - discriminate.
  - apply (bool_decide_unpack _). vm_compute. exact I.
  - apply (H 5 "b"); [lia|]. apply (bool_decide_unpack _). vm_compute. exact I.
Defined.

Lemma choose_index_proportional_witness :
  ∃ i w, choose_index [3; 0; 5] [Byte.x07] = Ok i ∧ [3; 0; 5] !! i = Some w ∧ w ≠ 0.
Proof.
  destruct (choose_index_proportional toy_blake3 [3; 0; 5] [Byte.x07]) as (_ & H).
  - repeat constructor; lia.
  - vm_compute. discriminate.
  - destruct H as ((i & v & w & H1 & H2 & _ & H3) & _); [vm_compute; reflexivity|].
    exists i, w. split; [exact H1|]. split; [exact H2|]. lia.
Defined.

Definition wit_validator (id : string) : ValidatorInfo := validator_info_new (new_validator id "h" 1) false.

(** A map that yields its keys in the opposite order. *)
Definition backward : KeyOrder := {| hash_keys X := reverse (elements X); hash_keys_perm X := reverse_Permutation _ |}.

Lemma proposer_agreement_witness :
  let o1 := [AddV (wit_validator "a"); AddV (wit_validator "b"); AdvanceR] in
  let o2 := [AddV (wit_validator "c"); AddV (wit_validator "b"); RemoveV "c"; AddV (wit_validator "a")] in
  VS.keys (vs_run (O := elements_order) strategy_default o1) ≠ VS.keys (vs_run (O := backward) strategy_default o2) ∧
  ∃ v, VS.get_valid_proposer (vs_run (O := elements_order) strategy_default o1) 3 = Some v ∧
       VS.get_valid_proposer (vs_run (O := backward) strategy_default o2) 3 = Some v.
Proof.
  intros o1 o2. split; [vm_compute; discriminate|].
  destruct (proposer_agreement elements_order backward strategy_default strategy_default o1 o2) with (round := 3) as (v & H1 & H2 & _).
  - reflexivity.
  - intros id. discriminate.
  - apply (bool_decide_unpack _). vm_compute. exact I.
  - intros He. apply (f_equal size) in He. vm_compute in He. discriminate He.
  - exists v. split; [exact H1|exact H2].
Defined.

Lemma set_round_leader_witness :
  let o := [AddV (wit_validator "a"); AddV (wit_validator "b")] in
  ∃ v, leader_id (VS.set_round 1 (vs_run (O := elements_order) strategy_default o)) = Some v ∧
       VS.get_valid_proposer (VS.set_round 1 (vs_run (O := elements_order) strategy_default o)) 1 = Some v.
Proof.
  intros o. destruct (set_round_leader elements_order strategy_default o 1) as (_ & _ & v & H1 & H2 & _).
  - intros He. apply (f_equal size) in He. vm_compute in He. discriminate He.
  - intros id. discriminate.
  - exists v. split; [exact H2|exact H1].
Defined.

Lemma reputation_elects_witness :
  ∃ v, LR.valid_proposer (create_reputation_election 1 ["a"; "b"] reputation_default) 4 = Ok (Some v) ∧ v ∈ ["a"; "b"].
Proof.
  apply (reputation_elects toy_blake3 (create_reputation_election 1 ["a"; "b"] reputation_default) ["a"; "b"] 4).
  - reflexivity.
  - discriminate.
  - cbn. lia.
  - intros w Hw. cbn in Hw. rewrite !elem_of_cons, elem_of_nil in Hw. destruct Hw as [->|[->|[->|[]]]]; lia.
  - intros v s Hs. discriminate Hs.
Defined.
End Instances.
