(* ===== verification/EventStore.v ===== *)
(** * The event store

    [storage/src/memory/event_store.rs] and the part of the trait
    [EventStoreBackend] ([storage/src/backends/event.rs]) that the DAG manager
    and the persistence of finalized anchors use.  A [DashMap] is a finite map;
    its iteration order does not matter to any result below. *)

From Stdlib Require Import ZArith Lia.
From stdpp Require Import base gmap sets list sorting strings numbers.
From S2P Require Import Prelude Hash Vlc Event.
#[local] Open Scope setu_scope.

#[global] Instance EventStatus_countable : Countable EventStatus.
Proof.
  refine (inj_countable'
    (fun s => match s with Pending => 0 | InWorkQueue => 1 | Executed => 2 | Confirmed => 3 | Finalized => 4 | Failed => 5 end)
    (fun n => match n with 0 => Pending | 1 => InWorkQueue | 2 => Executed | 3 => Confirmed | 4 => Finalized | _ => Failed end) _).
  by intros [].
Defined.

Record BatchStoreResult := mkBatchResult {
  stored : nat;
  skipped : nat;
  failed : nat;
  skipped_ids : list EventId;
  failed_errors : list (EventId * string)
}.

Record EventStore := mkEventStore {
  es_events : gmap EventId Event;
  by_creator : gmap string (list EventId);
  by_status : gmap EventStatus (list EventId);
  es_depths : gmap EventId Z
}.

Module BSR.
Definition new : BatchStoreResult := mkBatchResult 0 0 0 [] [].
Definition has_critical_failures (r : BatchStoreResult) : bool := (0 <? failed r)%nat.
Definition total (r : BatchStoreResult) : nat := stored r + skipped r + failed r.
Definition is_complete_success (r : BatchStoreResult) : bool := (failed r =? 0)%nat && (skipped r =? 0)%nat.
Definition is_success (r : BatchStoreResult) : bool := (failed r =? 0)%nat.
Definition merge (other r : BatchStoreResult) : BatchStoreResult :=
  mkBatchResult (stored r + stored other) (skipped r + skipped other) (failed r + failed other)
    (skipped_ids r ++ skipped_ids other) (failed_errors r ++ failed_errors other).
End BSR.

Module ES.
Definition new : EventStore := mkEventStore ∅ ∅ ∅ ∅.

(** [map.entry(k).or_insert_with(Vec::new).push(id)]. *)
Definition push {K} `{Countable K} (k : K) (id : EventId) (m : gmap K (list EventId)) : gmap K (list EventId) :=
  <[k := default [] (m !! k) ++ [id]]> m.

(** The three inserts of [store], [store_with_depth] and [store_batch_with_depth]. *)
Definition store (e : Event) (s : EventStore) : EventStore :=
  mkEventStore (<[ev_id e := e]> (es_events s)) (push (creator e) (ev_id e) (by_creator s))
    (push (status e) (ev_id e) (by_status s)) (es_depths s).

Definition set_depth (id : EventId) (depth : Z) (s : EventStore) : EventStore :=
  mkEventStore (es_events s) (by_creator s) (by_status s) (<[id := depth]> (es_depths s)).

Definition store_with_depth (e : Event) (depth : Z) (s : EventStore) : EventStore :=
  set_depth (ev_id e) depth (store e s).

Definition get (s : EventStore) (id : EventId) : option Event := es_events s !! id.
Definition get_many (s : EventStore) (ids : list EventId) : list Event := omap (fun id => es_events s !! id) ids.
Definition exists_ (s : EventStore) (id : EventId) : bool := bool_decide (is_Some (es_events s !! id)).
Definition exists_many (s : EventStore) (ids : list EventId) : list bool := exists_ s <$> ids.
Definition count (s : EventStore) : nat := size (es_events s).

Definition update_status (id : EventId) (new_status : EventStatus) (s : EventStore) : EventStore :=
  match es_events s !! id with
  | None => s
  | Some e =>
      let old := status e in
      let by_status1 := match by_status s !! old with
                        | Some ids => <[old := filter (fun i => i ≠ id) ids]> (by_status s)
                        | None => by_status s
                        end in
      mkEventStore (<[id := set_status e new_status]> (es_events s)) (by_creator s)
        (push new_status id by_status1) (es_depths s)
  end.

Definition get_by_creator (s : EventStore) (c : string) : list Event :=
  default [] (get_many s <$> by_creator s !! c).
Definition get_by_status (s : EventStore) (st : EventStatus) : list Event :=
  default [] (get_many s <$> by_status s !! st).
Definition count_by_status (s : EventStore) (st : EventStatus) : nat := default 0%nat (length <$> by_status s !! st).

Definition get_depth (s : EventStore) (id : EventId) : option Z := es_depths s !! id.
Definition get_depths_batch (s : EventStore) (ids : list EventId) : gmap EventId Z :=
  list_to_map (omap (fun id => (fun d => (id, d)) <$> es_depths s !! id) ids).
Definition get_parent_ids (s : EventStore) (id : EventId) : option (list EventId) := parent_ids <$> es_events s !! id.

Definition get_max_depth (s : EventStore) : option Z :=
  foldr (fun d acc => Some (match acc with Some m => Z.max d m | None => d end)) None (map_to_list (es_depths s)).*2.

(** The order of the replay: depth, then id. *)
Definition depth_le (a b : Event * Z) : Prop := (a.2 < b.2)%Z ∨ a.2 = b.2 ∧ str_le (ev_id a.1) (ev_id b.1).
#[global] Instance depth_le_dec : RelDecision depth_le.
Proof. intros a b. unfold depth_le. apply _. Defined.

Definition get_events_by_depth_range (s : EventStore) (min_depth max_depth : Z) : list (Event * Z) :=
  merge_sort depth_le
    (omap (fun kv : EventId * Z =>
       if ((min_depth <=? kv.2) && (kv.2 <=? max_depth))%Z then (fun e => (e, kv.2)) <$> es_events s !! kv.1 else None)
       (map_to_list (es_depths s))).

(** The body of the loop of [store_batch_with_depth]. *)
Definition batch_step (st : EventStore * BatchStoreResult) (ed : Event * Z) : EventStore * BatchStoreResult :=
  let '(s, r) := st in
  let '(e, depth) := ed in
  if exists_ s (ev_id e) then
    (set_depth (ev_id e) depth s,
     mkBatchResult (stored r) (S (skipped r)) (failed r) (skipped_ids r ++ [ev_id e]) (failed_errors r))
  else
    (store_with_depth e depth s,
     mkBatchResult (S (stored r)) (skipped r) (failed r) (skipped_ids r) (failed_errors r)).

Definition store_batch_with_depth (l : list (Event * Z)) (s : EventStore) : EventStore * BatchStoreResult :=
  foldl batch_step (s, BSR.new) l.
End ES.

(** ** The trait *)

Class EventStoreBackend (S : Type) := {
  eb_store : Event → S → S * result string unit;
  eb_get : S → EventId → option Event;
  eb_get_events_batch : S → list EventId → list Event;
  eb_exists : S → EventId → bool;
  eb_get_depth : S → EventId → option Z;
  eb_get_parent_ids : S → EventId → option (list EventId);
  eb_store_batch_with_depth : list (Event * Z) → S → S * BatchStoreResult
}.

#[global] Instance EventStore_backend : EventStoreBackend EventStore := {
  eb_store e s := (ES.store e s, Ok tt);
  eb_get := ES.get;
  eb_get_events_batch := ES.get_many;
  eb_exists := ES.exists_;
  eb_get_depth := ES.get_depth;
  eb_get_parent_ids := ES.get_parent_ids;
  eb_store_batch_with_depth := ES.store_batch_with_depth
}.

(** ** The indexes *)

Section Index.
Context {K : Type} `{Countable K} (key : Event → K).

Definition indexed (idx : gmap K (list EventId)) (evs : gmap EventId Event) : Prop :=
  ∀ k, NoDup (default [] (idx !! k)) ∧
       ∀ id, id ∈ default [] (idx !! k) ↔ ∃ e, evs !! id = Some e ∧ key e = k.

Lemma push_lookup (k k' : K) id (idx : gmap K (list EventId)) :
  default [] (ES.push k id idx !! k') = default [] (idx !! k') ++ (if decide (k = k') then [id] else []).
Proof.
  unfold ES.push. destruct (decide (k = k')) as [->|Hne]; [by rewrite lookup_insert_eq|].
  by rewrite lookup_insert_ne, app_nil_r.
Qed.

Lemma indexed_push idx evs e :
  indexed idx evs → evs !! ev_id e = None → indexed (ES.push (key e) (ev_id e) idx) (<[ev_id e := e]> evs).
Proof.
  intros Hi Hn k. rewrite push_lookup. destruct (Hi k) as [Hnd Hk].
  assert (Hni : ev_id e ∉ default [] (idx !! k)) by (rewrite Hk; by intros (? & ? & _); simplify_eq).
  split.
  - apply list.NoDup_app. split; [done|]. destruct (decide _); [|by split; [|constructor]; set_solver].
    split; [set_solver|apply NoDup_singleton].
  - intros id. rewrite elem_of_app, Hk. destruct (decide (id = ev_id e)) as [->|Hne].
    + rewrite lookup_insert_eq. destruct (decide (key e = k)) as [<-|Hkk].
      * split; [intros _; eauto|]. intros _. right. by left.
      * split; [intros [(? & ? & _)|[]%not_elem_of_nil]; simplify_eq|]. by intros (e' & [= <-] & ?).
    + rewrite lookup_insert_ne by done. split; [|by left].
      intros [?|Hin]; [done|]. destruct (decide _); set_solver.
Qed.

(** Reading an index gives the events of that key, each once. *)
Lemma indexed_values idx evs k :
  indexed idx evs →
  omap (fun id => evs !! id) (default [] (idx !! k)) ≡ₚ filter (fun e => key e = k) (map_to_list evs).*2.
Proof.
  intros Hi. destruct (Hi k) as [Hnd Hk].
  set (M := filter (fun kv : EventId * Event => key kv.2 = k) evs).
  assert (Hp : default [] (idx !! k) ≡ₚ (map_to_list M).*1).
  { apply NoDup_Permutation; [done|apply NoDup_fst_map_to_list|]. intros id. rewrite Hk, list_elem_of_fmap. split.
    - intros (e & He & Hke). exists (id, e). split; [done|]. apply elem_of_map_to_list, map_lookup_filter_Some. done.
    - intros ([id' e] & -> & [Hm Hke]%elem_of_map_to_list%map_lookup_filter_Some). by exists e. }
  rewrite Hp, list_filter_fmap.
  assert (HM : map_to_list M ≡ₚ filter (fun kv : EventId * Event => key kv.2 = k) (map_to_list evs)).
  { unfold M. rewrite map_filter_alt. apply map_to_list_to_map.
    eapply sublist_NoDup; [|apply (fmap_sublist fst), sublist_filter]. apply NoDup_fst_map_to_list. }
  rewrite <-HM.
  assert (Hs : ∀ kv, kv ∈ map_to_list M → evs !! kv.1 = Some kv.2).
  { intros [id e] [Hm _]%elem_of_map_to_list%map_lookup_filter_Some. done. }
  clear Hp HM. revert Hs. generalize (map_to_list M). intros l. induction l as [|kv l IH]; intros Hs; [done|].
  cbn. rewrite (Hs kv) by left. f_equiv. apply IH. intros ? ?. apply Hs. by right.
Qed.
End Index.

Record es_inv (s : EventStore) : Prop := mkEsInv {
  es_keyed : ∀ id e, es_events s !! id = Some e → ev_id e = id;
  es_creators : indexed creator (by_creator s) (es_events s);
  es_statuses : indexed status (by_status s) (es_events s);
  es_depth_dom : dom (es_depths s) ⊆ dom (es_events s)
}.

Lemma new_es_inv : es_inv ES.new.
Proof.
  constructor; cbn; [done| | |set_solver]; intros k; rewrite lookup_empty; cbn; split;
    try constructor; try (intros ?%not_elem_of_nil; done); by intros (? & ? & ?).
Qed.

Lemma es_store_inv s e : es_inv s → es_events s !! ev_id e = None → es_inv (ES.store e s).
Proof.
  intros [Hk Hc Hs Hd] Hn. constructor; cbn.
  - intros id e' [[<- <-]|[_ ?]]%lookup_insert_Some; eauto.
  - by apply indexed_push.
  - by apply indexed_push.
  - rewrite dom_insert. set_solver.
Qed.

Lemma set_depth_inv s id d : es_inv s → id ∈ dom (es_events s) → es_inv (ES.set_depth id d s).
Proof. intros [Hk Hc Hs Hd] Hn. constructor; cbn; [done..|]. rewrite dom_insert. set_solver. Qed.

Lemma store_with_depth_inv s e d : es_inv s → es_events s !! ev_id e = None → es_inv (ES.store_with_depth e d s).
Proof. intros Hi Hn. apply set_depth_inv; [by apply es_store_inv|]. cbn. rewrite dom_insert. set_solver. Qed.

Lemma batch_step_inv s r ed : es_inv s → es_inv (ES.batch_step (s, r) ed).1.
Proof.
  intros Hi. destruct ed as [e d]. unfold ES.batch_step, ES.exists_. case_bool_decide as Hx; cbn [fst].
  - apply set_depth_inv; [done|]. by apply elem_of_dom.
  - apply store_with_depth_inv; [done|]. by apply eq_None_not_Some.
Qed.

Lemma store_batch_inv l s : es_inv s → es_inv (ES.store_batch_with_depth l s).1.
Proof.
  unfold ES.store_batch_with_depth. generalize BSR.new. revert s. induction l as [|ed l IH]; intros s r Hi; [done|].
  cbn [foldl]. pose proof (batch_step_inv s r ed Hi) as H1. destruct (ES.batch_step (s, r) ed) as [s1 r1]. by apply IH.
Qed.

Lemma update_status_inv id st s : es_inv s → es_inv (ES.update_status id st s).
Proof.
  intros [Hk Hc Hs Hd]. unfold ES.update_status. destruct (es_events s !! id) as [e|] eqn:He; [|done].
  pose proof (Hk _ _ He) as Hid. constructor; cbn.
  - intros i e' [[<- <-]|[_ ?]]%lookup_insert_Some; [done|eauto].
  - intros k. destruct (Hc k) as [Hnd Hin]. split; [done|]. intros i. rewrite Hin.
    destruct (decide (i = id)) as [->|Hne]; [|by rewrite lookup_insert_ne]. rewrite lookup_insert_eq, He.
    split; intros (? & [= <-] & ?); by eexists.
  - set (m1 := match by_status s !! status e with Some ids => _ | None => _ end).
    assert (Hm1 : ∀ k, default [] (m1 !! k) = filter (fun i => i ≠ id) (default [] (by_status s !! k))).
    { intros k. unfold m1. destruct (by_status s !! status e) as [ids|] eqn:Hids.
      - destruct (decide (k = status e)) as [->|Hne]; [by rewrite lookup_insert_eq, Hids|].
        rewrite lookup_insert_ne by done. rewrite list_filter_id; [done|].
        intros i Hi ->. apply (Hs k) in Hi as (? & ? & ?). simplify_eq.
      - rewrite list_filter_id; [done|]. intros i Hi ->. apply (Hs k) in Hi as (e' & ? & <-). simplify_eq.
        destruct (Hs (status e)) as [_ Hx]. rewrite Hids in Hx. cbn in Hx.
        apply (not_elem_of_nil (ev_id e)), Hx. by eexists. }
    intros k. rewrite push_lookup, Hm1. destruct (Hs k) as [Hnd Hin]. split.
    + apply list.NoDup_app. split; [by apply list.NoDup_filter|].
      destruct (decide (st = k)); [|by split; [set_solver|constructor]].
      split; [|apply NoDup_singleton]. intros i Hi Hj. apply list_elem_of_filter in Hi. set_solver.
    + intros i. rewrite elem_of_app, list_elem_of_filter, Hin. destruct (decide (i = id)) as [->|Hne].
      * rewrite lookup_insert_eq. destruct (decide (st = k)) as [<-|Hkk].
        -- split; [intros _; by eexists|]. intros _. right. by left.
        -- split; [intros [[? _]|[]%not_elem_of_nil]; done|]. by intros (? & [= <-] & ?).
      * rewrite lookup_insert_ne by done. destruct (decide (st = k)); set_solver.
  - rewrite dom_insert. set_solver.
Qed.

(** Runs of the store in which a single [store] is of a new event. *)
Inductive es_reach : EventStore → Prop :=
| es_init : es_reach ES.new
| es_store s e : es_reach s → ES.get s (ev_id e) = None → es_reach (ES.store e s)
| es_store_depth s e d : es_reach s → ES.get s (ev_id e) = None → es_reach (ES.store_with_depth e d s)
| es_batch s l : es_reach s → es_reach (ES.store_batch_with_depth l s).1
| es_update s id st : es_reach s → es_reach (ES.update_status id st s).

Lemma es_reach_inv s : es_reach s → es_inv s.
Proof. induction 1; auto using new_es_inv, es_store_inv, store_with_depth_inv, store_batch_inv, update_status_inv. Qed.

Lemma batch_fold l s r :
  let '(s', r') := foldl ES.batch_step (s, r) l in
  (stored r' + skipped r' = stored r + skipped r + length l)%nat ∧ failed r' = failed r ∧
  (∀ id e, es_events s !! id = Some e → es_events s' !! id = Some e) ∧
  (∀ ed, ed ∈ l → is_Some (es_events s' !! ev_id ed.1)) ∧
  es_depths s' = foldl (fun m ed => <[ev_id ed.1 := ed.2]> m) (es_depths s) l.
Proof.
  revert s r. induction l as [|[e d] l IH]; intros s r.
  - cbn [foldl]. split_and!; [cbn; lia|done|done|by intros ? ?%not_elem_of_nil|done].
  - cbn [foldl]. set (s1 := (ES.batch_step (s, r) (e, d)).1). set (r1 := (ES.batch_step (s, r) (e, d)).2).
    specialize (IH s1 r1). replace (ES.batch_step (s, r) (e, d)) with (s1, r1) by (by destruct (ES.batch_step _ _)).
    assert (H1 : (stored r1 + skipped r1 = S (stored r + skipped r))%nat ∧ failed r1 = failed r ∧
       (∀ id e', es_events s !! id = Some e' → es_events s1 !! id = Some e') ∧
       is_Some (es_events s1 !! ev_id e) ∧ es_depths s1 = <[ev_id e := d]> (es_depths s)).
    { unfold s1, r1, ES.batch_step, ES.exists_. case_bool_decide as Hx; cbn; [split_and!; done || lia|].
      split_and!; [lia|done| |by rewrite lookup_insert_eq|done]. intros id e' He'.
      rewrite lookup_insert_ne; [done|]. intros <-. apply Hx. by eexists. }
    destruct (foldl ES.batch_step (s1, r1) l) as [s' r'].
    destruct H1 as (A1 & A2 & A3 & A4 & A5), IH as (B1 & B2 & B3 & B4 & B5).
    split_and!; [cbn; lia|congruence|by eauto| |].
    + intros ed [->|Hin]%elem_of_cons; [|by apply B4]. destruct A4 as [e' He']. exists e'. by apply B3.
    + by rewrite B5, A5.
Qed.

(** After any run of single stores of new events, batches and status
    updates, reading by creator or by status gives exactly the stored events of
    that creator or status, each once, and counting by status counts them; and a
    batch, from any such state, loses nothing: every event of it is stored with
    the last depth given for it, events already there keep their data, and
    stored and skipped add up to the batch. *)
Theorem event_store_consistent (s : EventStore) (Hs : es_reach s) :
  (∀ c, ES.get_by_creator s c ≡ₚ filter (fun e => creator e = c) (map_to_list (es_events s)).*2) ∧
  (∀ st, ES.get_by_status s st ≡ₚ filter (fun e => status e = st) (map_to_list (es_events s)).*2 ∧
         ES.count_by_status s st = length (ES.get_by_status s st)) ∧
  ∀ l, let '(s', r) := ES.store_batch_with_depth l s in
    (stored r + skipped r = length l)%nat ∧ BSR.is_success r = true ∧
    (∀ id e, ES.get s id = Some e → ES.get s' id = Some e) ∧
    (∀ ed, ed ∈ l → ES.exists_ s' (ev_id ed.1) = true) ∧
    (∀ id, ES.get_depth s' id = foldl (fun m ed => <[ev_id ed.1 := ed.2]> m) (es_depths s) l !! id).
Proof.
  pose proof (es_reach_inv s Hs) as Hi.
  assert (Hget : ∀ o, default [] (ES.get_many s <$> o) = omap (fun id => es_events s !! id) (default [] o)) by (by intros []).
  split; [|split].
  - intros c. unfold ES.get_by_creator. rewrite Hget. apply (indexed_values creator), Hi.
  - intros st. unfold ES.get_by_status, ES.count_by_status. rewrite Hget.
    split; [apply (indexed_values status), Hi|].
    destruct (by_status s !! st) as [ids|] eqn:Hids; [|done]. cbn.
    pose proof (proj2 (es_statuses s Hi st)) as Hin. rewrite Hids in Hin. cbn in Hin.
    clear Hids. induction ids as [|i ids IH]; [done|]. cbn.
    destruct (proj1 (Hin i) ltac:(left)) as (e & He & _). rewrite He. cbn. f_equal.
    assert (Hall : ∀ j, j ∈ ids → is_Some (es_events s !! j)).
    { intros j Hj. destruct (proj1 (Hin j) ltac:(by right)) as (e' & -> & _). by eexists. }
    clear -Hall. induction ids as [|j ids IH]; [done|]. cbn. destruct (Hall j ltac:(left)) as [e ->]. cbn.
    f_equal. apply IH. intros k Hk. apply Hall. by right.
  - intros l. pose proof (batch_fold l s BSR.new) as Hb. unfold ES.store_batch_with_depth.
    destruct (foldl ES.batch_step _ l) as [s' r]. cbn in Hb. destruct Hb as (B1 & B2 & B3 & B4 & B5).
    split_and!; [done|unfold BSR.is_success; by rewrite B2|done| |].
    + intros ed Hed. by apply bool_decide_eq_true, B4.
    + intros id. unfold ES.get_depth. by rewrite B5.
Qed.

(** Storing an event that is already there lists it twice, and under its old
    status as well. *)
Theorem store_twice_duplicates (e : Event) :
  ES.get_by_creator (ES.store e (ES.store e ES.new)) (creator e) = [e; e].
Proof.
  unfold ES.get_by_creator, ES.store, ES.push, ES.get_many. cbn [by_creator es_events ES.new].
  rewrite !lookup_insert_eq, lookup_empty. cbn [default fmap option_fmap option_map omap list_omap app].
  cbn [id app omap list_omap]. by rewrite !lookup_insert_eq.
Qed.

Lemma event_store_consistent_witness :
  let e id := set_status (mkEvent id System [] None [] (mkVLCSnapshot (mkVectorClock ∅) 0 0) "alice" Pending None 0) Pending in
  let s := ES.update_status "a" Confirmed (ES.store_batch_with_depth [(e "a", 1%Z); (e "b", 2%Z); (e "a", 3%Z)] ES.new).1 in
  length (ES.get_by_creator s "alice") = 2%nat ∧ ES.count_by_status s Confirmed = length (ES.get_by_status s Confirmed).
Proof.
  intros e s. assert (Hs : es_reach s) by (repeat constructor).
  destruct (event_store_consistent s Hs) as (_ & H2 & _). split; [vm_compute; reflexivity|apply H2].
Defined.
