(* ===== verification/DagManager.v ===== *)
(** * The DAG manager

    [consensus/src/recent_cache.rs] and [consensus/src/dag_manager.rs]: parents
    are looked up in the active DAG, then in a cache of finalized events, then in
    the event store; events enter with a depth computed from what was found; a
    finalized anchor moves its events to the cache and collects the DAG.

    Each layer has its own lock, taken for one query at a time, so other tasks
    run between the lookup of the parents and the insertion: [add_event] takes
    what they do as an argument.  The LRU cache of the crate [lru] is the class
    [LruCache]. *)

From Stdlib Require Import ZArith Lia.
From stdpp Require Import base gmap sets list strings numbers.
From S2P Require Import Prelude Hash Vlc Event EventStore Dag StateManager ConsensusTypes.
#[local] Open Scope setu_scope.

Record FinalizedEventMeta := mkMeta {
  fe_depth : Z;
  fe_anchor_id : AnchorId;
  finalized_at : Z;
  fe_parent_ids : list EventId
}.

(** ** The LRU cache *)

Abbreviation entry := (EventId * FinalizedEventMeta)%type.

Fixpoint assoc (k : EventId) (l : list entry) : option FinalizedEventMeta :=
  match l with
  | [] => None
  | (k', v) :: rest => if bool_decide (k' = k) then Some v else assoc k rest
  end.
Definition drop_key (k : EventId) (l : list entry) : list entry := filter (fun e => e.1 ≠ k) l.

(** The documented behaviour of [lru::LruCache]: the entries, the most recently
    used first, within a capacity. *)
Class LruCache (L : Type) := {
  lru_new : nat → L;
  lru_put : EventId → FinalizedEventMeta → L → L;
  lru_get : EventId → L → L * option FinalizedEventMeta;
  lru_peek : L → EventId → option FinalizedEventMeta;
  lru_pop_lru : L → L * option entry;
  lru_clear : L → L;
  lru_iter : L → list entry;
  lru_cap : L → nat;

  lru_new_iter c : lru_iter (lru_new c) = [] ∧ lru_cap (lru_new c) = c;
  lru_put_iter k v l :
    lru_iter (lru_put k v l) = take (lru_cap l) ((k, v) :: drop_key k (lru_iter l)) ∧ lru_cap (lru_put k v l) = lru_cap l;
  lru_get_iter k l :
    (lru_get k l).2 = assoc k (lru_iter l) ∧ lru_cap (lru_get k l).1 = lru_cap l ∧
    lru_iter (lru_get k l).1 =
      match assoc k (lru_iter l) with Some v => (k, v) :: drop_key k (lru_iter l) | None => lru_iter l end;
  lru_peek_iter k l : lru_peek l k = assoc k (lru_iter l);
  lru_pop_iter l :
    (lru_pop_lru l).2 = list.last (lru_iter l) ∧ lru_cap (lru_pop_lru l).1 = lru_cap l ∧
    lru_iter (lru_pop_lru l).1 = take (length (lru_iter l) - 1) (lru_iter l);
  lru_clear_iter l : lru_iter (lru_clear l) = [] ∧ lru_cap (lru_clear l) = lru_cap l
}.

Definition lru_contains `{LruCache L} (l : L) (k : EventId) : bool := bool_decide (is_Some (lru_peek l k)).
Definition lru_len `{LruCache L} (l : L) : nat := length (lru_iter l).

(** A list of entries with a capacity is such a cache. *)
Program Definition list_lru : LruCache (nat * list entry) := {|
  lru_new c := (c, []);
  lru_put k v l := (l.1, take l.1 ((k, v) :: drop_key k l.2));
  lru_get k l := match assoc k l.2 with
                 | Some v => ((l.1, (k, v) :: drop_key k l.2), Some v)
                 | None => (l, None)
                 end;
  lru_peek l k := assoc k l.2;
  lru_pop_lru l := ((l.1, take (length l.2 - 1) l.2), list.last l.2);
  lru_clear l := (l.1, []);
  lru_iter := snd;
  lru_cap := fst
|}.
Next Obligation. done. Qed.
Next Obligation. done. Qed.
Next Obligation. intros k l. cbn. by destruct (assoc k l.2). Qed.
Next Obligation. done. Qed.
Next Obligation. done. Qed.
Next Obligation. done. Qed.

Record RecentEventCache (L : Type) := mkRecent {
  rc_cache : L;
  rc_capacity : nat;
  hits : Z;
  misses : Z;
  evictions : Z
}.
Arguments mkRecent {L}.
Arguments rc_cache {L} _.
Arguments rc_capacity {L} _.
Arguments hits {L} _.
Arguments misses {L} _.
Arguments evictions {L} _.

Module RC.
Section RC.
Context {L : Type} `{LruCache L}.
Abbreviation Cache := (RecentEventCache L).

(** [NonZeroUsize::new(capacity).expect(..)]. *)
Definition new (capacity : nat) : result Empty_set Cache :=
  if (capacity =? 0)%nat then Panic else Ok (mkRecent (lru_new capacity) capacity 0 0 0).

Definition set_cache (f : L → L) (c : Cache) : Cache :=
  mkRecent (f (rc_cache c)) (rc_capacity c) (hits c) (misses c) (evictions c).

Definition put (id : EventId) (meta : FinalizedEventMeta) (c : Cache) : Cache * option entry :=
  if lru_contains (rc_cache c) id then (set_cache (lru_put id meta) c, None)
  else
    let '(cache, evicted) :=
      if (rc_capacity c <=? lru_len (rc_cache c))%nat then lru_pop_lru (rc_cache c) else (rc_cache c, None) in
    (mkRecent (lru_put id meta cache) (rc_capacity c) (hits c) (misses c)
       (if bool_decide (is_Some evicted) then u64_add (evictions c) 1 else evictions c), evicted).

Definition get (id : EventId) (c : Cache) : Cache * option FinalizedEventMeta :=
  let '(cache, r) := lru_get id (rc_cache c) in
  (mkRecent cache (rc_capacity c)
     (if bool_decide (is_Some r) then u64_add (hits c) 1 else hits c)
     (if bool_decide (is_Some r) then misses c else u64_add (misses c) 1) (evictions c), r).

Definition contains (c : Cache) (id : EventId) : bool := lru_contains (rc_cache c) id.
Definition peek (c : Cache) (id : EventId) : option FinalizedEventMeta := lru_peek (rc_cache c) id.
Definition len (c : Cache) : nat := lru_len (rc_cache c).
Definition clear (c : Cache) : Cache := set_cache lru_clear c.
End RC.
End RC.

(** ** The manager *)

Record DagManagerConfig := mkDagConfig {
  recent_cache_capacity : nat;
  max_cross_cf_depth : Z;
  enable_disk_fallback : bool;
  warmup_anchor_count : nat;
  max_pending_queue_size : nat
}.

Definition dag_config_default : DagManagerConfig := mkDagConfig (Z.to_nat 15000) 200 true 10 (Z.to_nat 10000).

Inductive ParentInfo :=
| InDag (pi_depth : Z)
| InCache (pi_depth : Z) (pi_anchor : AnchorId)
| InStore (pi_depth : Z).

Record ResolvedParents := mkResolved { rp_results : list (EventId * ParentInfo); new_event_depth : Z }.

Record GcStats := mkGcStats { gs_removed : nat; gs_retained : nat }.

Inductive DagManagerError :=
| DmMissingParent (id : EventId)
| ParentTooOld (parent : EventId) (depth_diff max_allowed : Z)
| ParentGCed (id : EventId)
| DmDuplicateEvent (id : EventId)
| WarmupQueueFull (max_size : nat)
| DmDag (e : DagError)
| DmInternal (attempts : nat) (id : EventId).

Definition MAX_RETRY : nat := 3.

Record DagManager (L Es : Type) := mkDagManager {
  dm_dag : Dag;
  recent_cache : RecentEventCache L;
  event_store : Es;
  dm_config : DagManagerConfig;
  dm_min_depth : Z;
  warming_up : bool;
  pending_queue : list Event
}.
Arguments mkDagManager {L Es}.
Arguments dm_dag {L Es} _.
Arguments recent_cache {L Es} _.
Arguments event_store {L Es} _.
Arguments dm_config {L Es} _.
Arguments dm_min_depth {L Es} _.
Arguments warming_up {L Es} _.
Arguments pending_queue {L Es} _.

Definition info_depth (i : ParentInfo) : Z :=
  match i with InDag d => d | InCache d _ => d | InStore d => d end.

Module DM.
Section DM.
Context {L Es : Type} `{LruCache L} `{EventStoreBackend Es}.
Abbreviation Mgr := (DagManager L Es).

Definition new (dag : Dag) (store : Es) (config : DagManagerConfig) : result Empty_set Mgr :=
  let? cache := RC.new (recent_cache_capacity config) in
  Ok (mkDagManager dag cache store config 0 false []).

Definition set_dag (f : Dag → Dag) (m : Mgr) : Mgr :=
  mkDagManager (f (dm_dag m)) (recent_cache m) (event_store m) (dm_config m) (dm_min_depth m) (warming_up m) (pending_queue m).
Definition set_cache (c : RecentEventCache L) (m : Mgr) : Mgr :=
  mkDagManager (dm_dag m) c (event_store m) (dm_config m) (dm_min_depth m) (warming_up m) (pending_queue m).
Definition set_queue (q : list Event) (m : Mgr) : Mgr :=
  mkDagManager (dm_dag m) (recent_cache m) (event_store m) (dm_config m) (dm_min_depth m) (warming_up m) q.
Definition set_warming (b : bool) (m : Mgr) : Mgr :=
  mkDagManager (dm_dag m) (recent_cache m) (event_store m) (dm_config m) (dm_min_depth m) b (pending_queue m).

(** [exists]. *)
Definition exists_ (m : Mgr) (id : EventId) : bool :=
  if D.contains (dm_dag m) id then true
  else if RC.contains (recent_cache m) id then true
  else if enable_disk_fallback (dm_config m) then eb_exists (event_store m) id
  else false.

Definition query_parent (id : EventId) (m : Mgr) : Mgr * option ParentInfo :=
  match D.get_depth (dm_dag m) id with
  | Some depth => (m, Some (InDag depth))
  | None =>
      let '(c, r) := RC.get id (recent_cache m) in
      let m := set_cache c m in
      match r with
      | Some meta => (m, Some (InCache (fe_depth meta) (fe_anchor_id meta)))
      | None =>
          (m, if enable_disk_fallback (dm_config m) then InStore <$> eb_get_depth (event_store m) id else None)
      end
  end.

(** Phase 1 of [resolve_parents]. *)
Fixpoint collect_parents (parents : list EventId) (acc : list (EventId * ParentInfo)) (max_parent_depth : Z)
    : stm Mgr DagManagerError (list (EventId * ParentInfo) * Z) := fun m =>
  match parents with
  | [] => (m, Ok (acc, max_parent_depth))
  | p :: rest =>
      match query_parent p m with
      | (m, Some info) => collect_parents rest (acc ++ [(p, info)]) (Z.max max_parent_depth (info_depth info)) m
      | (m, None) => (m, Err (DmMissingParent p))
      end
  end.

Definition base_depth (m : Mgr) (results : list (EventId * ParentInfo)) (max_parent_depth : Z) : Z :=
  if bool_decide (results = []) then
    if D.is_empty (dm_dag m) && (max_depth (dm_dag m) =? 0)%Z then 0 else u64_add (max_depth (dm_dag m)) 1
  else u64_add max_parent_depth 1.

(** The loop over the parents found outside the DAG. *)
Fixpoint check_depth_diff (max_allowed depth : Z) (results : list (EventId * ParentInfo)) : result DagManagerError unit :=
  match results with
  | [] => Ok tt
  | (_, InDag _) :: rest => check_depth_diff max_allowed depth rest
  | (p, InCache d _) :: rest | (p, InStore d) :: rest =>
      let depth_diff := saturating_sub depth d in
      if (max_allowed <? depth_diff)%Z then Err (ParentTooOld p depth_diff max_allowed)
      else check_depth_diff max_allowed depth rest
  end.

Definition resolve_parents (event : Event) : stm Mgr DagManagerError ResolvedParents :=
  let! (results, max_parent_depth) := collect_parents (parent_ids event) [] 0 in
  fun m =>
    let depth := Z.max (base_depth m results max_parent_depth) (dm_min_depth m) in
    (m, let? _ := check_depth_diff (max_cross_cf_depth (dm_config m)) depth results in
        Ok (mkResolved results depth)).

(** Phase 3: under the write lock of the DAG. *)
Fixpoint check_in_dag (d : Dag) (results : list (EventId * ParentInfo)) : result DagManagerError unit :=
  match results with
  | [] => Ok tt
  | (p, InDag _) :: rest => if D.contains d p then check_in_dag d rest else Err (ParentGCed p)
  | _ :: rest => check_in_dag d rest
  end.

Definition insert_resolved (event : Event) (r : ResolvedParents) : stm Mgr DagManagerError EventId := fun m =>
  match check_in_dag (dm_dag m) (rp_results r) with
  | Ok _ =>
      match D.add_event_with_depth (dm_dag m) event (new_event_depth r) with
      | Ok (d, id) => (set_dag (fun _ => d) m, Ok id)
      | Err e => (m, Err (DmDag e))
      | Panic => (m, Panic)
      end
  | Err e => (m, Err e)
  | Panic => (m, Panic)
  end.

(** Phases 1 and 3, with [env] what other tasks do in between. *)
Definition resolve_and_insert (env : Mgr → Mgr) (event : Event) : stm Mgr DagManagerError EventId :=
  let! resolved := resolve_parents event in
  fun m => insert_resolved event resolved (env m).

Definition add_event (env : Mgr → Mgr) (event : Event) : stm Mgr DagManagerError EventId := fun m =>
  if warming_up m then
    match resolve_parents event m with
    | (m, Ok _) => resolve_and_insert env event m
    | (m, Err (DmMissingParent _)) =>
        if (max_pending_queue_size (dm_config m) <=? length (pending_queue m))%nat
        then (m, Err (WarmupQueueFull (max_pending_queue_size (dm_config m))))
        else (set_queue (pending_queue m ++ [event]) m, Ok (ev_id event))
    | (m, Err e) => (m, Err e)
    | (m, Panic) => (m, Panic)
    end
  else resolve_and_insert env event m.

(** The attempts; [envs] is the interference during each of them. *)
Fixpoint retry_loop (left attempt : nat) (envs : nat → Mgr → Mgr) (event : Event) : stm Mgr DagManagerError EventId :=
  fun m =>
  match left with
  | O => (m, Err (DmInternal MAX_RETRY (ev_id event)))
  | S left' =>
      match add_event (envs attempt) event m with
      | (m, Ok id) => (m, Ok id)
      | (m, Err (ParentGCed p)) =>
          if (attempt <? MAX_RETRY - 1)%nat then retry_loop left' (S attempt) envs event m
          else (m, Err (ParentGCed p))
      | (m, Err e) => (m, Err e)
      | (m, Panic) => (m, Panic)
      end
  end.

Definition add_event_with_retry (envs : nat → Mgr → Mgr) (event : Event) : stm Mgr DagManagerError EventId :=
  retry_loop MAX_RETRY 0 envs event.

(** *** Finalization *)

Definition update_min_depth (depth : Z) (m : Mgr) : Mgr :=
  mkDagManager (dm_dag m) (recent_cache m) (event_store m) (dm_config m) (Z.max (dm_min_depth m) depth)
    (warming_up m) (pending_queue m).

(** The loop that fills the cache; an event of the DAG without a depth panics. *)
Fixpoint cache_events (d : Dag) (anchor_id : AnchorId) (now : Z) (ids : list EventId) (c : RecentEventCache L)
    : result Empty_set (RecentEventCache L) :=
  match ids with
  | [] => Ok c
  | id :: rest =>
      match D.get_event d id with
      | None => cache_events d anchor_id now rest c
      | Some event =>
          match D.get_depth d id with
          | None => Panic
          | Some depth =>
              cache_events d anchor_id now rest (RC.put id (mkMeta depth anchor_id now (parent_ids event)) c).1
          end
      end
  end.

(** The steps of [on_anchor_finalized]: each takes the locks for itself. *)
Definition finalize_step (anchor : Anchor) (m : Mgr) : Mgr :=
  set_dag (fun d => D.finalize_events d (a_event_ids anchor)) (update_min_depth (u64_add (a_depth anchor) 1) m).

Definition cache_step (anchor : Anchor) (now : Z) (m : Mgr) : result Empty_set Mgr :=
  let? c := cache_events (dm_dag m) (a_id anchor) now (a_event_ids anchor) (recent_cache m) in Ok (set_cache c m).

(** The collection always ends; the other case stands for an endless loop. *)
Definition gc_step (anchor : Anchor) (m : Mgr) : result Empty_set (Mgr * GcStats) :=
  match D.gc_finalized_events (dm_dag m) (a_event_ids anchor) with
  | Some (d, stats) => Ok (set_dag (fun _ => d) m, mkGcStats (removed stats) (retained stats))
  | None => Panic
  end.

Definition on_anchor_finalized (anchor : Anchor) (now : Z) (m : Mgr) : result Empty_set (Mgr * GcStats) :=
  let? m := cache_step anchor now (finalize_step anchor m) in gc_step anchor m.

(** *** Warm-up *)

Definition start_warmup (m : Mgr) : Mgr := set_warming true m.

Fixpoint drain_queue (envs : nat → Mgr → Mgr) (i : nat) (pending : list Event) (errors : list DagManagerError)
    : stm Mgr Empty_set (list DagManagerError) := fun m =>
  match pending with
  | [] => (m, Ok errors)
  | e :: rest =>
      match add_event (envs i) e m with
      | (m, Ok _) => drain_queue envs (S i) rest errors m
      | (m, Err err) => drain_queue envs (S i) rest (errors ++ [err]) m
      | (m, Panic) => (m, Panic)
      end
  end.

Definition complete_warmup (envs : nat → Mgr → Mgr) : stm Mgr Empty_set (list DagManagerError) := fun m =>
  drain_queue envs 0 (pending_queue m) [] (set_queue [] (set_warming false m)).

Definition warm_event (anchor : Anchor) (st : Mgr * nat) (id : EventId) : Mgr * nat :=
  let '(m, loaded) := st in
  match eb_get_depth (event_store m) id, eb_get_parent_ids (event_store m) id with
  | Some depth, Some parents =>
      (set_cache (RC.put id (mkMeta depth (a_id anchor) (a_timestamp anchor) parents) (recent_cache m)).1 m, S loaded)
  | _, _ => (m, loaded)
  end.

Definition warmup_from_anchors (anchors : list Anchor) (m : Mgr) : Mgr * nat :=
  foldl (fun st anchor => foldl (warm_event anchor) st (a_event_ids anchor)) (m, 0%nat) anchors.
End DM.
End DM.
