(* ===== verification/DagManagerProps.v ===== *)
(** * Properties of the DAG manager *)

From Stdlib Require Import ZArith Lia.
From stdpp Require Import base gmap sets list strings numbers.
From S2P Require Import Prelude Hash Vlc Event EventStore Dag StateManager ConsensusTypes DagManager.
#[local] Open Scope setu_scope.

(** ** The cache *)

Lemma assoc_drop_ne k k' l : k ≠ k' → assoc k' (drop_key k l) = assoc k' l.
Proof.
  intros Hne. unfold drop_key. induction l as [|[k0 v0] l IH]; [done|]. rewrite filter_cons. cbn.
  destruct (decide (k0 ≠ k)) as [|Hk]; cbn.
  - by rewrite IH.
  - rewrite bool_decide_false; [done|]. intros ->. by apply Hk, not_eq_sym.
Qed.

Lemma assoc_front k v l k' : assoc k l = Some v → assoc k' ((k, v) :: drop_key k l) = assoc k' l.
Proof.
  intros Hk. cbn. case_bool_decide as Hkk; [by subst|]. by apply assoc_drop_ne.
Qed.

Lemma assoc_take k n l v : assoc k (take n l) = Some v → assoc k l = Some v.
Proof.
  revert n. induction l as [|[k0 v0] l IH]; intros [|n]; cbn; [done..|]. case_bool_decide; [done|]. apply IH.
Qed.

Lemma assoc_drop_key k k' l v : assoc k' (drop_key k l) = Some v → assoc k' l = Some v ∧ k' ≠ k.
Proof.
  destruct (decide (k = k')) as [->|Hne]; [|rewrite assoc_drop_ne by done; auto].
  intros Ha. exfalso. unfold drop_key in Ha. induction l as [|[k0 v0] l IH]; [done|].
  rewrite filter_cons in Ha. destruct (decide _) as [Hd|]; [|auto]. cbn in Ha. case_bool_decide; [|auto]. subst. by apply Hd.
Qed.

Section cache.
Context {L : Type} `{LC : LruCache L}.
Implicit Types (c : RecentEventCache L).

Lemma peek_get k k' c : RC.peek (RC.get k c).1 k' = RC.peek c k'.
Proof.
  unfold RC.get, RC.peek. pose proof (lru_get_iter k (rc_cache c)) as (Hr & _ & Hi).
  destruct (lru_get k (rc_cache c)) as [l r]. cbn in *. rewrite !lru_peek_iter, Hi.
  destruct (assoc k (lru_iter (rc_cache c))) as [v|] eqn:Hk; [by apply assoc_front|done].
Qed.

Lemma get_peek k c : (RC.get k c).2 = RC.peek c k.
Proof.
  unfold RC.get, RC.peek. pose proof (lru_get_iter k (rc_cache c)) as (Hr & _ & _).
  destruct (lru_get k (rc_cache c)) as [l r]. cbn in *. by rewrite lru_peek_iter.
Qed.

(** What a cache holds after a [put] was put now or was there before. *)
Lemma peek_put k v c k' v' :
  RC.peek (RC.put k v c).1 k' = Some v' → k' = k ∧ v' = v ∨ k' ≠ k ∧ RC.peek c k' = Some v'.
Proof.
  assert (Hput : ∀ l, lru_peek (lru_put k v l) k' = Some v' → k' = k ∧ v' = v ∨ k' ≠ k ∧ lru_peek l k' = Some v').
  { intros l. rewrite !lru_peek_iter, (proj1 (lru_put_iter k v l)). intros Ha%assoc_take. cbn in Ha.
    case_bool_decide; [left; by simplify_eq|]. apply assoc_drop_key in Ha as [? ?]. by right. }
  unfold RC.put, RC.peek. destruct (lru_contains (rc_cache c) k); cbn [fst rc_cache RC.set_cache]; [apply Hput|].
  destruct (_ <=? _)%nat; [|apply Hput]. pose proof (lru_pop_iter (rc_cache c)) as (_ & _ & Hi).
  destruct (lru_pop_lru (rc_cache c)) as [l ev]. cbn in *. intros [?|[? Hp]]%Hput; [by left|].
  right. split; [done|]. rewrite lru_peek_iter in Hp |- *. rewrite Hi in Hp. by eapply assoc_take.
Qed.
End cache.

(** ** Looking a parent up *)

Section manager.
Context {L Es : Type} `{LC : LruCache L} `{EB : EventStoreBackend Es}.
Implicit Types (m : DagManager L Es).

(** The depth the three layers know for an event. *)
Definition lookup_depth m (id : EventId) : option Z :=
  match D.get_depth (dm_dag m) id with
  | Some d => Some d
  | None =>
      match RC.peek (recent_cache m) id with
      | Some meta => Some (fe_depth meta)
      | None => if enable_disk_fallback (dm_config m) then eb_get_depth (event_store m) id else None
      end
  end.

(** Managers that differ in the recency of the cache and its statistics only. *)
Definition same_layers m m' : Prop :=
  dm_dag m' = dm_dag m ∧ event_store m' = event_store m ∧ dm_config m' = dm_config m ∧
  dm_min_depth m' = dm_min_depth m ∧ warming_up m' = warming_up m ∧ pending_queue m' = pending_queue m ∧
  ∀ id, RC.peek (recent_cache m') id = RC.peek (recent_cache m) id.

#[global] Instance same_layers_equiv : Equivalence same_layers.
Proof.
  split.
  - by intros m.
  - intros m m' (? & ? & ? & ? & ? & ? & ?). unfold same_layers. split_and!; done || by symmetry.
  - intros m1 m2 m3 (? & ? & ? & ? & ? & ? & Hp) (? & ? & ? & ? & ? & ? & Hq).
    unfold same_layers. split_and!; congruence.
Qed.

Lemma same_layers_lookup m m' id : same_layers m m' → lookup_depth m' id = lookup_depth m id.
Proof. intros (Hd & Hs & Hc & _ & _ & _ & Hp). unfold lookup_depth. by rewrite Hd, Hs, Hc, Hp. Qed.

(** Where a parent is found. *)
Definition found_in m (id : EventId) (i : ParentInfo) : Prop :=
  lookup_depth m id = Some (info_depth i) ∧
  match i with InDag d => D.get_depth (dm_dag m) id = Some d | _ => D.get_depth (dm_dag m) id = None end.

Lemma query_parent_spec id m :
  let '(m', r) := DM.query_parent id m in
  same_layers m m' ∧
  match r with Some i => found_in m id i | None => lookup_depth m id = None end.
Proof.
  unfold DM.query_parent, found_in, lookup_depth. destruct (D.get_depth (dm_dag m) id) as [d|] eqn:Hd; [done|].
  pose proof (get_peek id (recent_cache m)) as Hg. pose proof (fun k' => peek_get id k' (recent_cache m)) as Hp.
  destruct (RC.get id (recent_cache m)) as [c r]. cbn in Hg, Hp. subst r.
  destruct (RC.peek (recent_cache m) id) as [meta|] eqn:Hm; cbn; [by split_and!|].
  split; [by split_and!|]. destruct (enable_disk_fallback _); [|done]. by destruct (eb_get_depth _ _).
Qed.

Lemma found_in_same m m' id i : same_layers m m' → found_in m id i → found_in m' id i.
Proof. intros Hs [H1 H2]. split; [by rewrite (same_layers_lookup m m')|]. destruct Hs as (-> & _). done. Qed.

(** The largest depth of the parents found, at least [mx]. *)
Definition max_found (mx : Z) (l : list (EventId * ParentInfo)) : Z := foldl (fun a pi => Z.max a (info_depth pi.2)) mx l.

Lemma max_found_ge mx l : (mx ≤ max_found mx l)%Z ∧ ∀ pi, pi ∈ l → (info_depth pi.2 ≤ max_found mx l)%Z.
Proof.
  unfold max_found. revert mx. induction l as [|pi l IH]; intros mx; cbn.
  - split; [lia|]. by intros ? ?%not_elem_of_nil.
  - destruct (IH (Z.max mx (info_depth pi.2))) as [H1 H2]. split; [lia|].
    intros pi' [->|Hin]%elem_of_cons; [lia|by apply H2].
Qed.

Lemma collect_parents_spec ps acc mx m :
  let '(m', r) := DM.collect_parents ps acc mx m in
  same_layers m m' ∧
  match r with
  | Ok (results, mx') =>
      ∃ l, results = acc ++ l ∧ l.*1 = ps ∧ mx' = max_found mx l ∧ ∀ p i, (p, i) ∈ l → found_in m p i
  | Err (DmMissingParent p) => p ∈ ps ∧ lookup_depth m p = None
  | _ => False
  end.
Proof.
  revert acc mx m. induction ps as [|p ps IH]; intros acc mx m; cbn [DM.collect_parents].
  { split; [done|]. exists []. rewrite app_nil_r. split_and!; try done. by intros ? ? ?%not_elem_of_nil. }
  pose proof (query_parent_spec p m) as Hq. destruct (DM.query_parent p m) as [m1 [i|]]; destruct Hq as [Hs Hf].
  2: { split; [done|]. split; [by left|done]. }
  specialize (IH (acc ++ [(p, i)]) (Z.max mx (info_depth i)) m1).
  destruct (DM.collect_parents ps _ _ m1) as [m2 r]. destruct IH as [Hs2 Hr]. split; [by etrans|].
  destruct r as [[results mx']|[]|]; try done.
  - destruct Hr as (l & -> & Hl & -> & Hfound). exists ((p, i) :: l). rewrite <-app_assoc. cbn. split_and!; [done|by f_equal|done|].
    intros p' i' [[= -> ->]|Hin]%elem_of_cons; [done|].
    eapply (found_in_same m1); [by symmetry|]. by apply Hfound.
  - destruct Hr as [Hin Hn]. split; [by right|]. by rewrite <-(same_layers_lookup m m1).
Qed.

Lemma check_depth_diff_spec mx depth l :
  match DM.check_depth_diff mx depth l with
  | Ok _ => ∀ p i, (p, i) ∈ l → (∃ d, i = InDag d) ∨ (saturating_sub depth (info_depth i) ≤ mx)%Z
  | Err (ParentTooOld p diff mx') =>
      ∃ i, (p, i) ∈ l ∧ (∀ d, i ≠ InDag d) ∧ diff = saturating_sub depth (info_depth i) ∧ mx' = mx ∧ (mx < diff)%Z
  | _ => False
  end.
Proof.
  induction l as [|[p i] l IH]; [by intros ? ? ?%not_elem_of_nil|].
  assert (Hout : (∀ d, i ≠ InDag d) →
    match (if (mx <? saturating_sub depth (info_depth i))%Z
           then Err (ParentTooOld p (saturating_sub depth (info_depth i)) mx) else DM.check_depth_diff mx depth l) with
    | Ok _ => ∀ p0 i0, (p0, i0) ∈ (p, i) :: l → (∃ d, i0 = InDag d) ∨ (saturating_sub depth (info_depth i0) ≤ mx)%Z
    | Err (ParentTooOld p0 diff mx') =>
        ∃ i0, (p0, i0) ∈ (p, i) :: l ∧ (∀ d, i0 ≠ InDag d) ∧ diff = saturating_sub depth (info_depth i0) ∧ mx' = mx ∧ (mx < diff)%Z
    | _ => False
    end).
  { intros Hi. destruct (Z.ltb_spec mx (saturating_sub depth (info_depth i))).
    - exists i. split_and!; try done. by left.
    - destruct (DM.check_depth_diff mx depth l) as [|[]|]; try done.
      + intros p0 i0 [[= -> ->]|Hin]%elem_of_cons; [by right|by apply (IH p0)].
      + destruct IH as (i0 & ? & ?). exists i0. split; [by right|done]. }
  destruct i as [d|d a|d]; cbn [DM.check_depth_diff info_depth] in *; [|by apply Hout..]. clear Hout.
  destruct (DM.check_depth_diff mx depth l) as [|[]|]; try done.
  - intros p0 i0 [[= -> ->]|Hin]%elem_of_cons; [left; by eexists|by apply (IH p0)].
  - destruct IH as (i0 & ? & ?). exists i0. split; [by right|done].
Qed.

(** ** Resolving all parents *)

(** The depth of a new event: one above its deepest parent, or above the whole
    DAG without parents (0 for the first event), and at least the floor. *)
Definition event_depth m (e : Event) (l : list (EventId * ParentInfo)) : Z :=
  Z.max (DM.base_depth m l (max_found 0 l)) (dm_min_depth m).

Lemma resolve_parents_ok e m :
  let '(m', r) := DM.resolve_parents e m in
  same_layers m m' ∧
  match r with
  | Ok rp =>
      (rp_results rp).*1 = parent_ids e ∧ new_event_depth rp = event_depth m e (rp_results rp) ∧
      ∀ p i, (p, i) ∈ rp_results rp → found_in m p i ∧
        ((∃ d, i = InDag d) ∨ (saturating_sub (new_event_depth rp) (info_depth i) ≤ max_cross_cf_depth (dm_config m))%Z)
  | Err (DmMissingParent p) => p ∈ parent_ids e ∧ lookup_depth m p = None
  | Err (ParentTooOld p diff mx) =>
      p ∈ parent_ids e ∧ D.get_depth (dm_dag m) p = None ∧ mx = max_cross_cf_depth (dm_config m) ∧ (mx < diff)%Z ∧
      ∃ d l, lookup_depth m p = Some d ∧ l.*1 = parent_ids e ∧ (∀ p i, (p, i) ∈ l → found_in m p i) ∧
        diff = saturating_sub (event_depth m e l) d
  | _ => False
  end.
Proof.
  unfold DM.resolve_parents, sbind. pose proof (collect_parents_spec (parent_ids e) [] 0 m) as Hc.
  destruct (DM.collect_parents (parent_ids e) [] 0 m) as [m1 r]. destruct Hc as [Hs Hr].
  destruct r as [[results mx]|[]|]; try done. destruct Hr as (l & -> & Hl & -> & Hf). cbn [app] in *.
  assert (Hdepth : Z.max (DM.base_depth m1 l (max_found 0 l)) (dm_min_depth m1) = event_depth m e l).
  { destruct Hs as (Hd & _ & _ & Hm & _). unfold event_depth, DM.base_depth. by rewrite Hd, Hm. }
  rewrite Hdepth. split; [done|].
  replace (dm_config m1) with (dm_config m) by (destruct Hs as (_ & _ & -> & _); done).
  pose proof (check_depth_diff_spec (max_cross_cf_depth (dm_config m)) (event_depth m e l) l) as Hk.
  destruct (DM.check_depth_diff _ _ l) as [u|[]|]; cbn [rbind]; try done.
  - split_and!; [done|done|]. intros p i Hin. split; [by apply Hf|]. by apply (Hk p).
  - destruct Hk as (i & Hin & Hi & -> & -> & Hlt). pose proof (Hf _ _ Hin) as [Hld Hi'].
    split_and!; try done.
    + rewrite <-Hl. apply list_elem_of_fmap. by exists (parent, i).
    + destruct i; [by destruct (Hi pi_depth)|done..].
    + exists (info_depth i), l. by split_and!.
Qed.

(** ** Inserting, with other tasks in between *)

Lemma check_in_dag_spec d l :
  match DM.check_in_dag d l with
  | Ok _ => ∀ p z, (p, InDag z) ∈ l → D.contains d p = true
  | Err (ParentGCed p) => ∃ z, (p, InDag z) ∈ l ∧ D.contains d p = false
  | _ => False
  end.
Proof.
  induction l as [|[p i] l IH]; [by intros ? ? ?%not_elem_of_nil|].
  assert (Hskip : (∀ z, i ≠ InDag z) ∨ D.contains d p = true →
    match DM.check_in_dag d l with
    | Ok _ => ∀ p0 z, (p0, InDag z) ∈ (p, i) :: l → D.contains d p0 = true
    | Err (ParentGCed p0) => ∃ z, (p0, InDag z) ∈ (p, i) :: l ∧ D.contains d p0 = false
    | _ => False
    end).
  { intros Hi. destruct (DM.check_in_dag d l) as [|[]|]; try done.
    - intros p0 z [[= -> <-]|Hin]%elem_of_cons; [|by eapply IH]. destruct Hi as [Hi|]; [by destruct (Hi z)|done].
    - destruct IH as (z & ? & ?). exists z. split; [by right|done]. }
  destruct i as [z|z a|z]; cbn [DM.check_in_dag]; [|by apply Hskip; left..].
  destruct (D.contains d p) eqn:Hc; [by apply Hskip; right|]. exists z. split; [by left|done].
Qed.

(** No depth is the largest [u64]. *)
Definition depth_room m : Prop := ∀ id d, lookup_depth m id = Some d → (0 ≤ d < u64_max)%Z.

Lemma event_depth_above m e l :
  depth_room m → (∀ p i, (p, i) ∈ l → found_in m p i) →
  (0 ≤ event_depth m e l)%Z ∧ (dm_min_depth m ≤ event_depth m e l)%Z ∧
  ∀ p i, (p, i) ∈ l → (info_depth i < event_depth m e l)%Z.
Proof.
  intros Hroom Hf. unfold event_depth, DM.base_depth.
  pose proof (wrap64_range (max_depth (dm_dag m) + 1)) as H1. pose proof (wrap64_range (max_found 0 l + 1)) as H2.
  unfold is_u64 in *. split; [|split].
  - case_bool_decide; [destruct (_ && _)|]; unfold u64_add; lia.
  - lia.
  - intros p i Hin. rewrite bool_decide_false by (intros ->; by apply not_elem_of_nil in Hin).
    destruct (max_found_ge 0 l) as [H0 Hge]. pose proof (Hge _ Hin) as Hle. cbn in Hle.
    assert (Hmax : (max_found 0 l < u64_max)%Z).
    { clear Hin Hle Hge H0 H2. unfold max_found. assert (Ha : (0 < u64_max)%Z) by (unfold u64_max; lia). revert Ha.
      generalize 0%Z. induction l as [|[p' i'] l IH]; intros a Ha; cbn; [done|].
      apply IH; [intros; apply (Hf p0); by right|]. destruct (Hf p' i' ltac:(left)) as [Hd _].
      apply Hroom in Hd. lia. }
    unfold u64_add. rewrite wrap64_small by (unfold is_u64; lia). lia.
Qed.

(** With parents, the depth is the floor or one above a parent. *)
Lemma event_depth_exact m e l :
  depth_room m → (∀ p i, (p, i) ∈ l → found_in m p i) → l ≠ [] →
  event_depth m e l = dm_min_depth m ∨ ∃ p i, (p, i) ∈ l ∧ event_depth m e l = (info_depth i + 1)%Z.
Proof.
  intros Hroom Hf Hne. unfold event_depth, DM.base_depth. rewrite bool_decide_false by done.
  assert (Hmax : ∃ p i, (p, i) ∈ l ∧ max_found 0 l = info_depth i).
  { destruct l as [|[p i] l]; [done|]. clear Hne. unfold max_found. cbn [foldl snd].
    destruct (Hf p i ltac:(left)) as [Hd _]. apply Hroom in Hd. rewrite Z.max_r by lia.
    assert (Hex : ∃ p' i', (p', i') ∈ (p, i) :: l ∧ info_depth i = info_depth i') by (exists p, i; split; [left|done]).
    revert Hex. clear. generalize (info_depth i) as a.
    assert (Hgo : ∀ (l L : list (EventId * ParentInfo)) a, l ⊆ L → (∃ p i, (p, i) ∈ L ∧ a = info_depth i) →
      ∃ p i, (p, i) ∈ L ∧ foldl (fun a pi => Z.max a (info_depth pi.2)) a l = info_depth i).
    { clear. intros l L. induction l as [|[q j] l IH]; intros a Hsub Ha; [done|]. cbn [foldl snd].
      apply IH; [intros x Hx; apply Hsub; by right|].
      destruct (Z.max_spec a (info_depth j)) as [[_ ->]|[_ ->]]; [|done]. exists q, j. split; [apply Hsub; by left|done]. }
    intros a Ha. apply Hgo; [intros x Hx; by right|done]. }
  destruct Hmax as (p & i & Hin & ->). destruct (Hf p i Hin) as [Hd _]. apply Hroom in Hd.
  unfold u64_add. rewrite wrap64_small by (unfold is_u64; lia).
  destruct (Z.max_spec (info_depth i + 1) (dm_min_depth m)) as [[_ ->]|[_ ->]]; [by left|right; by exists p, i].
Qed.

Lemma insert_resolved_cases e rp m1 :
  dag_wf (dm_dag m1) → (0 ≤ new_event_depth rp)%Z →
  match DM.insert_resolved e rp m1 with
  | (m2, Ok id) =>
      id = ev_id e ∧ events (dm_dag m1) !! id = None ∧ dag_wf (dm_dag m2) ∧
      events (dm_dag m2) = <[id := e]> (events (dm_dag m1)) ∧
      depths (dm_dag m2) = <[id := new_event_depth rp]> (depths (dm_dag m1)) ∧
      (∀ p z, (p, InDag z) ∈ rp_results rp → D.contains (dm_dag m1) p = true)
  | (m2, Err (ParentGCed p)) => m2 = m1 ∧ ∃ z, (p, InDag z) ∈ rp_results rp ∧ D.contains (dm_dag m1) p = false
  | (m2, Err (DmDag err)) => m2 = m1 ∧ err = DuplicateEvent (ev_id e) ∧ D.contains (dm_dag m1) (ev_id e) = true
  | _ => False
  end.
Proof.
  intros Hwf Hz. unfold DM.insert_resolved. pose proof (check_in_dag_spec (dm_dag m1) (rp_results rp)) as Hc.
  destruct (DM.check_in_dag _ _) as [u|[]|]; try done.
  destruct (D.add_event_with_depth (dm_dag m1) e (new_event_depth rp)) as [[d id]|err|] eqn:Ha.
  - destruct (add_event_with_depth_wf _ _ _ _ _ Hwf Hz Ha) as [Hwf' ->]. unfold D.add_event_with_depth in Ha.
    destruct (D.contains (dm_dag m1) (ev_id e)) eqn:Hn; [done|]. apply contains_false in Hn. injection Ha as <-. by split_and!.
  - unfold D.add_event_with_depth in Ha. destruct (D.contains (dm_dag m1) (ev_id e)); [|done]. by injection Ha as <-.
  - unfold D.add_event_with_depth in Ha. by destruct (D.contains (dm_dag m1) (ev_id e)).
Qed.

(** ** Retrying *)

(** The answers of one attempt. *)
Lemma add_event_answers env e m :
  match (DM.add_event env e m).2 with
  | Ok _ | Err (DmMissingParent _ | ParentTooOld _ _ _ | ParentGCed _ | WarmupQueueFull _ | DmDag _) => True
  | _ => False
  end.
Proof.
  assert (Hri : ∀ m, match (DM.resolve_and_insert env e m).2 with
      | Ok _ | Err (DmMissingParent _ | ParentTooOld _ _ _ | ParentGCed _ | DmDag _) => True | _ => False end).
  { intros m0. unfold DM.resolve_and_insert, sbind. pose proof (resolve_parents_ok e m0) as Hr.
    destruct (DM.resolve_parents e m0) as [m1 [rp|[]|]]; destruct Hr as [_ Hr]; try done. cbn.
    unfold DM.insert_resolved. pose proof (check_in_dag_spec (dm_dag (env m1)) (rp_results rp)) as Hc.
    destruct (DM.check_in_dag _ _) as [u|[]|]; try done.
    unfold D.add_event_with_depth. by destruct (D.contains _ _). }
  unfold DM.add_event. destruct (warming_up m).
  - pose proof (resolve_parents_ok e m) as Hr. destruct (DM.resolve_parents e m) as [m1 [rp|[]|]]; destruct Hr as [_ Hr]; try done.
    + specialize (Hri m1). by destruct (DM.resolve_and_insert env e m1) as [? [|[]|]].
    + by destruct (_ <=? _)%nat.
  - specialize (Hri m). by destruct (DM.resolve_and_insert env e m) as [? [|[]|]].
Qed.

(** An attempt nobody disturbs finds the parents it resolved. *)
Lemma undisturbed_no_gc e m p :
  dag_wf (dm_dag m) → (DM.add_event (fun m => m) e m).2 ≠ Err (ParentGCed p).
Proof.
  assert (Hri : ∀ m, dag_wf (dm_dag m) → (DM.resolve_and_insert (fun m => m) e m).2 ≠ Err (ParentGCed p)).
  { intros m0 Hwf. unfold DM.resolve_and_insert, sbind. pose proof (resolve_parents_ok e m0) as Hr.
    destruct (DM.resolve_parents e m0) as [m1 [rp|[]|]]; destruct Hr as [Hs Hr]; try done. cbn.
    unfold DM.insert_resolved. pose proof (check_in_dag_spec (dm_dag m1) (rp_results rp)) as Hc.
    destruct (DM.check_in_dag _ _) as [u|[]|]; try done.
    - unfold D.add_event_with_depth. by destruct (D.contains _ _).
    - destruct Hc as (z & Hin & Hc). destruct Hr as (_ & _ & Hf). destruct (Hf _ _ Hin) as [[_ Hd] _].
      destruct Hs as (Hdag & _). rewrite Hdag in Hc. apply contains_false in Hc.
      unfold D.get_depth in Hd. apply (elem_of_dom_2 (D := gset string)) in Hd. rewrite (wf_dom _ Hwf) in Hd. by apply not_elem_of_dom in Hc. }
  intros Hwf. unfold DM.add_event. destruct (warming_up m).
  - pose proof (resolve_parents_ok e m) as Hr. destruct (DM.resolve_parents e m) as [m1 [rp|[]|]]; destruct Hr as [Hs Hr]; try done.
    + apply Hri. by destruct Hs as (-> & _).
    + by destruct (_ <=? _)%nat.
  - by apply Hri.
Qed.

Lemma resolve_dag e m : dm_dag (DM.resolve_parents e m).1 = dm_dag m.
Proof. pose proof (resolve_parents_ok e m) as Hr. destruct (DM.resolve_parents e m). by destruct Hr as [(Hd & _) _]. Qed.

(** What other tasks may do to the DAG: anything that keeps it well formed. *)
Definition tame (env : DagManager L Es → DagManager L Es) : Prop := ∀ m, dag_wf (dm_dag m) → dag_wf (dm_dag (env m)).

Lemma resolve_and_insert_wf env e m :
  tame env → dag_wf (dm_dag m) → dag_wf (dm_dag (DM.resolve_and_insert env e m).1).
Proof.
  intros Henv Hwf. unfold DM.resolve_and_insert, sbind. pose proof (resolve_dag e m) as Hd.
  pose proof (resolve_parents_ok e m) as Hr. destruct (DM.resolve_parents e m) as [m1 r]. cbn in Hd.
  destruct Hr as [_ Hr]. destruct r as [rp|err|]; cbn; [|by rewrite Hd..].
  assert (H1 : dag_wf (dm_dag (env m1))) by (apply Henv; by rewrite Hd). destruct Hr as (_ & Hz & _).
  assert (H0 : (0 ≤ new_event_depth rp)%Z).
  { rewrite Hz. unfold event_depth, DM.base_depth. pose proof (wrap64_range (max_depth (dm_dag m) + 1)) as R1.
    pose proof (wrap64_range (max_found 0 (rp_results rp) + 1)) as R2. unfold is_u64, u64_add in *.
    case_bool_decide; [destruct (_ && _)|]; lia. }
  pose proof (insert_resolved_cases e rp (env m1) H1 H0) as Hi.
  destruct (DM.insert_resolved e rp (env m1)) as [m2 [id|[]|]]; try done; [by destruct Hi as (_ & _ & ? & _)|..];
    by destruct Hi as [-> _].
Qed.

Lemma dm_add_event_wf env e m : tame env → dag_wf (dm_dag m) → dag_wf (dm_dag (DM.add_event env e m).1).
Proof.
  intros Henv Hwf. unfold DM.add_event. destruct (warming_up m); [|by apply resolve_and_insert_wf].
  pose proof (resolve_dag e m) as Hd. destruct (DM.resolve_parents e m) as [m1 [rp|[]|]]; cbn in Hd |- *;
    try by rewrite Hd.
  - apply resolve_and_insert_wf; [done|]. by rewrite Hd.
  - destruct (_ <=? _)%nat; cbn; by rewrite Hd.
Qed.

Lemma retry_loop_wf left attempt envs e m :
  (∀ i, tame (envs i)) → dag_wf (dm_dag m) → dag_wf (dm_dag (DM.retry_loop left attempt envs e m).1).
Proof.
  intros Henv. revert attempt m. induction left as [|left IH]; intros attempt m Hwf; cbn [DM.retry_loop]; [done|].
  pose proof (dm_add_event_wf (envs attempt) e m (Henv attempt) Hwf) as H1.
  destruct (DM.add_event (envs attempt) e m) as [m1 [id|[]|]]; cbn in *; try done.
  destruct (attempt <=? 1)%nat; [by apply IH|done].
Qed.

Lemma retry_loop_spec left attempt envs e m :
  (left + attempt = MAX_RETRY)%nat → (0 < left)%nat →
  match (DM.retry_loop left attempt envs e m).2 with
  | Ok _ | Err (DmMissingParent _ | ParentTooOld _ _ _ | WarmupQueueFull _ | DmDag _) => True
  | Err (ParentGCed _) =>
      (∀ i m, dag_wf (dm_dag m) → dag_wf (dm_dag (envs i m))) → dag_wf (dm_dag m) →
      ∀ i, (attempt ≤ i < MAX_RETRY)%nat → envs i ≠ fun m => m
  | _ => False
  end.
Proof.
  revert attempt m. induction left as [|left IH]; intros attempt m Hn Hpos; [lia|]. cbn [DM.retry_loop].
  pose proof (add_event_answers (envs attempt) e m) as Ha.
  destruct (DM.add_event (envs attempt) e m) as [m1 [id|[]|]] eqn:He; try done.
  assert (Hatt : dag_wf (dm_dag m) → envs attempt ≠ fun m => m).
  { intros Hwf Heq. rewrite Heq in He. eapply (undisturbed_no_gc e m); [done|]. by rewrite He. }
  unfold MAX_RETRY in *. destruct (Nat.ltb_spec attempt (3 - 1)) as [Hlt|Hge].
  - specialize (IH (S attempt) m1 ltac:(lia) ltac:(lia)).
    destruct (DM.retry_loop left (S attempt) envs e m1) as [m2 [id'|[]|]]; try done. cbn in *.
    intros Henv Hwf i Hi. destruct (decide (i = attempt)) as [->|Hne]; [by apply Hatt|].
    apply IH; [done| |lia]. pose proof (dm_add_event_wf (envs attempt) e m (Henv attempt) Hwf) as H1. by rewrite He in H1.
  - cbn. intros _ Hwf i Hi. replace i with attempt by lia. by apply Hatt.
Qed.

(** ** Finalizing an anchor *)

Lemma finalize_events_depths d ids : depths (D.finalize_events d ids) = depths d.
Proof. unfold D.finalize_events. revert d. induction ids as [|i ids IH]; intros d; [done|]. cbn. by rewrite IH. Qed.

Lemma finalize_events_lookup d ids id :
  events (D.finalize_events d ids) !! id =
    (fun e => if decide (id ∈ ids) then set_status e Finalized else e) <$> events d !! id.
Proof.
  unfold D.finalize_events. revert d. induction ids as [|i ids IH]; intros d.
  - cbn. destruct (events d !! id) as [e|]; [|done]. cbn. by rewrite decide_False by apply not_elem_of_nil.
  - cbn [foldl]. rewrite IH. cbn.
    assert (Hi : events (D.finalize_event d i) !! id =
                 (fun e => if decide (id = i) then set_status e Finalized else e) <$> events d !! id).
    { cbn. destruct (decide (id = i)) as [->|Hne].
      - destruct (events d !! i) eqn:Hi; [by rewrite lookup_insert_eq|]. by rewrite Hi.
      - destruct (events d !! i); [rewrite lookup_insert_ne by done|]; by rewrite option_fmap_id. }
    cbn in Hi. rewrite Hi. destruct (events d !! id) as [e|]; [|done]. cbn. f_equal.
    destruct (decide (id = i)) as [->|Hne].
    + rewrite (decide_True (P := i ∈ i :: ids)) by left. by destruct (decide (i ∈ ids)).
    + destruct (decide (id ∈ ids)); [rewrite decide_True by by right|rewrite decide_False by set_solver]; done.
Qed.

(** What the store must hold: the finalized events of the DAG and those of the
    anchor, and whatever the cache remembers, with the same depths. *)
Record layered m (ids : list EventId) : Prop := mkLayered {
  ly_wf : dag_wf (dm_dag m);
  ly_fallback : enable_disk_fallback (dm_config m) = true;
  ly_cache : ∀ id meta, RC.peek (recent_cache m) id = Some meta → eb_get_depth (event_store m) id = Some (fe_depth meta);
  ly_final : ∀ id ev d, D.get_event (dm_dag m) id = Some ev → D.get_depth (dm_dag m) id = Some d →
    status ev = Finalized ∨ id ∈ ids → eb_get_depth (event_store m) id = Some d
}.

Lemma layered_lookup m ids id :
  layered m ids → D.get_depth (dm_dag m) id = None → lookup_depth m id = eb_get_depth (event_store m) id.
Proof.
  intros [Hwf Hfb Hc Hf] Hd. unfold lookup_depth. rewrite Hd, Hfb.
  destruct (RC.peek (recent_cache m) id) as [meta|] eqn:Hp; [|done]. symmetry. by apply Hc.
Qed.

Lemma finalize_step_layered anchor m :
  layered m (a_event_ids anchor) → layered (DM.finalize_step anchor m) [].
Proof.
  intros [Hwf Hfb Hc Hf]. constructor; cbn; [by apply finalize_events_wf|done|done|].
  intros id ev d. unfold D.get_event, D.get_depth. rewrite finalize_events_lookup, finalize_events_depths.
  intros Hev Hd [Hst|[]%not_elem_of_nil]. destruct (events (dm_dag m) !! id) as [e0|] eqn:He; [|done]. cbn in Hev.
  apply (Hf id e0 d); [done..|]. destruct (decide _); [by right|left; congruence].
Qed.

Lemma cache_events_ok d aid now ids c st :
  dag_wf d →
  (∀ id meta, RC.peek c id = Some meta → eb_get_depth st id = Some (fe_depth meta)) →
  (∀ id ev z, id ∈ ids → D.get_event d id = Some ev → D.get_depth d id = Some z → eb_get_depth st id = Some z) →
  ∃ c', DM.cache_events d aid now ids c = Ok c' ∧
    ∀ id meta, RC.peek c' id = Some meta → eb_get_depth (S := Es) st id = Some (fe_depth meta).
Proof.
  intros Hwf Hc Hids. revert c Hc. induction ids as [|i ids IH]; intros c Hc; [by exists c|].
  cbn [DM.cache_events]. assert (Hrec : ∀ id ev z, id ∈ ids → D.get_event d id = Some ev → D.get_depth d id = Some z →
    eb_get_depth st id = Some z) by (intros id ev z ?; apply Hids; by right).
  destruct (D.get_event d i) as [ev|] eqn:Hev; [|by apply IH].
  destruct (D.get_depth d i) as [z|] eqn:Hz.
  2: { exfalso. unfold D.get_event in Hev. unfold D.get_depth in Hz. apply (not_elem_of_dom (D := gset string)) in Hz.
       rewrite (wf_dom _ Hwf) in Hz. apply Hz. by apply elem_of_dom_2 in Hev. }
  apply IH; [done|]. intros id meta [[-> ->]|[Hne Hp]]%peek_put; [|by apply Hc]. cbn.
  apply (Hids i ev z); [by left|done..].
Qed.
End manager.

(** Resolving the parents of an event.  Only the recency and the counters of
    the cache change.  A parent unknown to the DAG, the cache and (with the
    fallback) the store is reported; a parent outside the DAG that lies more
    than the allowed number of levels below the new event is refused, with the
    distance; otherwise every parent is found with the depth the layers record
    for it, the DAG first, and the event is placed one above the deepest parent,
    or above the whole DAG, never below the floor. *)
Theorem resolve_parents_behaviour (L Es : Type) (LC : LruCache L) (EB : EventStoreBackend Es)
    (m : DagManager L Es) (e : Event) :
  let '(m', r) := DM.resolve_parents e m in
  same_layers m m' ∧
  match r with
  | Ok rp =>
      (rp_results rp).*1 = parent_ids e ∧ new_event_depth rp = event_depth m e (rp_results rp) ∧
      ∀ p i, (p, i) ∈ rp_results rp → found_in m p i ∧
        ((∃ d, i = InDag d) ∨ (saturating_sub (new_event_depth rp) (info_depth i) ≤ max_cross_cf_depth (dm_config m))%Z)
  | Err (DmMissingParent p) => p ∈ parent_ids e ∧ lookup_depth m p = None
  | Err (ParentTooOld p diff mx) =>
      p ∈ parent_ids e ∧ D.get_depth (dm_dag m) p = None ∧ mx = max_cross_cf_depth (dm_config m) ∧ (mx < diff)%Z ∧
      ∃ d l, lookup_depth m p = Some d ∧ l.*1 = parent_ids e ∧ (∀ p i, (p, i) ∈ l → found_in m p i) ∧
        diff = saturating_sub (event_depth m e l) d
  | _ => False
  end.
Proof. apply resolve_parents_ok. Qed.


(** Retrying.  [add_event_with_retry] always answers: it never reaches the
    internal error after the loop nor panics, and gives up on a collected parent
    only when every one of its three attempts was disturbed.  It never answers
    [DuplicateEvent]: an event that is in the DAG is reported as an error of the
    DAG. *)
Theorem retry_answers (L Es : Type) (LC : LruCache L) (EB : EventStoreBackend Es) (m : DagManager L Es)
    (envs : nat → DagManager L Es → DagManager L Es) (e : Event) :
  match (DM.add_event_with_retry envs e m).2 with
  | Ok _ | Err (DmMissingParent _ | ParentTooOld _ _ _ | WarmupQueueFull _ | DmDag _) => True
  | Err (ParentGCed _) =>
      (∀ i m, dag_wf (dm_dag m) → dag_wf (dm_dag (envs i m))) → dag_wf (dm_dag m) →
      ∀ i, (i < MAX_RETRY)%nat → envs i ≠ fun m => m
  | Err (DmDuplicateEvent _ | DmInternal _ _) | Panic => False
  end.
Proof.
  pose proof (retry_loop_spec MAX_RETRY 0 envs e m eq_refl ltac:(unfold MAX_RETRY; lia)) as Hr.
  unfold DM.add_event_with_retry. destruct (DM.retry_loop MAX_RETRY 0 envs e m) as [m' [id|[]|]]; try done.
  cbn in *. intros Henv Hwf i Hi. apply Hr; [done..|lia].
Qed.

(** Finalizing an anchor loses no parent.  When the events of the anchor were
    persisted first, as the contract asks, [on_anchor_finalized] completes, and at
    each of its three steps, so also for a lookup that runs between them, every
    event is known with the depth it had before, whatever was evicted from the
    cache and collected from the DAG.  The floor rises above the anchor, the
    events of the anchor that leave the DAG are those without a child that is
    still active, and the layers agree again for the next anchor. *)
Theorem finalization_keeps_lookups (L Es : Type) (LC : LruCache L) (EB : EventStoreBackend Es)
    (m : DagManager L Es) (anchor : Anchor) (now : Z) (Hl : layered m (a_event_ids anchor)) :
  let m1 := DM.finalize_step anchor m in
  ∃ m2 m3 st,
    DM.cache_step anchor now m1 = Ok m2 ∧ DM.gc_step anchor m2 = Ok (m3, st) ∧
    DM.on_anchor_finalized anchor now m = Ok (m3, st) ∧
    (∀ id, lookup_depth m1 id = lookup_depth m id ∧ lookup_depth m2 id = lookup_depth m id ∧
           lookup_depth m3 id = lookup_depth m id) ∧
    dm_min_depth m3 = Z.max (dm_min_depth m) (u64_add (a_depth anchor) 1) ∧
    (∀ id, id ∈ a_event_ids anchor → D.contains (dm_dag m) id = true →
       D.contains (dm_dag m3) id = D.has_active_children (dm_dag m1) id) ∧
    layered m3 [].
Proof.
  cbn zeta. pose proof (finalize_step_layered anchor m Hl) as Hl1. set (m1 := DM.finalize_step anchor m) in *.
  assert (Hfin : ∀ id, id ∈ a_event_ids anchor → finalized_if_present (dm_dag m1) id).
  { intros id Hid e. cbn. rewrite finalize_events_lookup. destruct (events (dm_dag m) !! id); [|done].
    cbn. rewrite decide_True by done. by intros [= <-]. }
  destruct (cache_events_ok (dm_dag m1) (a_id anchor) now (a_event_ids anchor) (recent_cache m1) (event_store m1))
    as (c & Hc & Hcs); [apply Hl1|apply Hl1| |].
  { intros id ev z Hid Hev Hz. apply (ly_final _ _ Hl1 id ev z Hev Hz). left. by apply (Hfin id Hid). }
  destruct (gc_finalized_spec (dm_dag m1) (a_event_ids anchor) (ly_wf _ _ Hl1) Hfin) as (d & st & Hgc & Hp & Hrm & Hq).
  assert (Hl2 : layered (DM.set_cache c m1) []) by (constructor; apply Hl1 || done).
  assert (Hl3 : layered (DM.set_dag (fun _ => d) (DM.set_cache c m1)) []).
  { constructor; cbn; [apply Hp|apply Hl1|done|]. intros id ev z Hev Hz Hst.
    apply (ly_final _ _ Hl1 id ev z); [|eapply lookup_weaken; [exact Hz|apply Hp]|done].
    eapply lookup_weaken; [exact Hev|apply Hp]. }
  eexists (DM.set_cache c m1), (DM.set_dag (fun _ => d) (DM.set_cache c m1)), _.
  unfold DM.on_anchor_finalized, DM.cache_step, DM.gc_step. fold m1. rewrite Hc. cbn [rbind DM.set_cache dm_dag]. rewrite Hgc.
  split_and!; [done..| |done| |done].
  - intros id. assert (H1 : lookup_depth m1 id = lookup_depth m id).
    { unfold lookup_depth. cbn. unfold D.get_depth. by rewrite finalize_events_depths. }
    rewrite <-H1. split; [done|]. destruct (D.get_depth (dm_dag m1) id) as [z|] eqn:Hz.
    2: { rewrite (layered_lookup m1 [] id Hl1 Hz), (layered_lookup (DM.set_cache c m1) [] id Hl2 Hz). split; [done|].
         apply (layered_lookup _ _ _ Hl3). cbn. unfold D.get_depth. eapply lookup_weaken_None; [exact Hz|apply Hp]. }
    split; [unfold lookup_depth; cbn [DM.set_cache dm_dag]; by rewrite Hz|].
    destruct (D.get_depth d id) as [z'|] eqn:Hz'.
    + unfold lookup_depth. cbn [DM.set_dag DM.set_cache dm_dag]. rewrite Hz, Hz'.
      pose proof (lookup_weaken _ _ _ _ Hz' (gp_depths _ _ Hp)) as Hw. unfold D.get_depth in Hz. congruence.
    + rewrite (layered_lookup _ _ _ Hl3 Hz'). cbn [event_store DM.set_dag DM.set_cache].
      transitivity (Some z); [|unfold lookup_depth; by rewrite Hz].
      unfold D.get_depth in Hz. pose proof (elem_of_dom_2 (D := gset string) _ _ _ Hz) as Hdom.
      rewrite (wf_dom _ (ly_wf _ _ Hl1)) in Hdom. apply elem_of_dom in Hdom as [ev Hev].
      apply (ly_final _ _ Hl1 id ev z Hev Hz). left. eapply (gp_removed _ _ Hp id ev Hev).
      apply (not_elem_of_dom (D := gset string)). rewrite <-(wf_dom _ (gp_wf _ _ Hp)). by apply not_elem_of_dom.
  - intros id Hid Hc0. cbn [DM.set_dag dm_dag]. destruct (D.contains d id) eqn:Hcd.
    + symmetry. apply Hq; [done|]. apply contains_iff, elem_of_dom in Hcd. done.
    + symmetry. apply contains_false in Hcd. apply contains_iff, elem_of_dom in Hc0 as [e0 He0].
      eapply (gp_removed _ _ Hp id); [|done]. cbn. rewrite finalize_events_lookup, He0. done.
Qed.

(** ** Instances *)

Section Instances.
#[local] Existing Instance list_lru.

Definition wit_anchor (ids : list EventId) (depth : Z) : Anchor :=
  mkAnchor "anchor" ids (mkVLCSnapshot (mkVectorClock ∅) 0 0) "" None None depth 0.

Definition wit_manager (d : Dag) : DagManager (nat * list entry) EventStore :=
  mkDagManager d (mkRecent (lru_new 4) 4 0 0 0) ES.new dag_config_default 0 false [].

(** The event ["g"], added, persisted and finalized. *)
Definition wit_finalized : DagManager (nat * list entry) EventStore :=
  let m := (DM.add_event (fun m => m) (wit_event "g" []) (wit_manager D.new)).1 in
  let m := mkDagManager (dm_dag m) (recent_cache m) (ES.store_batch_with_depth [(wit_event "g" [], 0%Z)] (event_store m)).1
             (dm_config m) (dm_min_depth m) (warming_up m) (pending_queue m) in
  match DM.on_anchor_finalized (wit_anchor ["g"] 0) 5 m with Ok (m, _) => m | _ => m end.

(** A finalized event that was collected is known to every layer below the DAG,
    and yet it is accepted again, as a new pending event. *)
Theorem finalized_event_readmitted :
  DM.exists_ wit_finalized "g" = true ∧ D.contains (dm_dag wit_finalized) "g" = false ∧
  let '(m, r) := DM.add_event_with_retry (fun _ m => m) (wit_event "g" []) wit_finalized in
  r = Ok "g" ∧ D.get_pending_count (dm_dag m) = 1%nat.
Proof. vm_compute. done. Qed.

(** An event that is in the DAG is not answered with [DuplicateEvent]. *)
Theorem duplicate_is_dag_error :
  (DM.add_event_with_retry (fun _ m => m) (wit_event "g" [])
     (DM.add_event (fun m => m) (wit_event "g" []) (wit_manager D.new)).1).2 = Err (DmDag (DuplicateEvent "g")).
Proof. vm_compute. done. Qed.

Lemma wit_manager_lookup d id : lookup_depth (wit_manager d) id = depths d !! id.
Proof. unfold lookup_depth, D.get_depth. cbn. by destruct (depths d !! id). Qed.

Lemma wit_g_wf : dag_wf wit_g.
Proof. eapply (add_event_wf D.new (wit_event "g" [])); [apply new_wf|reflexivity]. Qed.


Lemma finalization_keeps_lookups_witness :
  let m := mkDagManager wit_g (mkRecent (lru_new 4) 4 0 0 0)
             (ES.store_batch_with_depth [(wit_event "g" [], 0%Z)] ES.new).1 dag_config_default 0 false [] in
  ∃ m3 st, DM.on_anchor_finalized (wit_anchor ["g"] 0) 5 m = Ok (m3, st) ∧
    lookup_depth m3 "g" = lookup_depth m "g" ∧ D.contains (dm_dag m3) "g" = false.
Proof.
  intros m. destruct (finalization_keeps_lookups _ _ _ _ m (wit_anchor ["g"] 0) 5) as (m2 & m3 & st & _ & _ & Ho & Hk & _ & Hc & _).
  - constructor.
    + apply wit_g_wf.
    + reflexivity.
    + intros id meta Hp. discriminate Hp.
    + intros id ev d Hev Hd _. revert id ev d Hev Hd. unfold D.get_event, D.get_depth.
      assert (Hall : map_Forall (fun id d => ES.get_depth (event_store m) id = Some d) (depths wit_g))
        by (apply (bool_decide_unpack _); vm_compute; exact I).
      intros id ev d _ Hd. exact (Hall id d Hd).
  - exists m3, st. split; [exact Ho|]. split; [apply Hk|].
    rewrite (Hc "g" ltac:(left) ltac:(vm_compute; reflexivity)). vm_compute. reflexivity.
Defined.
End Instances.
