(* ===== verification/Engine.v ===== *)
(** * The consensus engine

    [consensus/src/engine.rs]: the node's clock, the DAG manager, the validator
    set and the consensus manager behind one object.  The DAG the engine locks is
    the one of its DAG manager.  What leaves the engine is kept in order: the
    bounded local channel ([legacy_queue], never read in production) and the
    messages to the network and to subscribers ([outbox]); the results of
    broadcasts are only logged.  [now] is the wall clock.

    The peers' answers to a request of events are an argument, and so is what
    other tasks do while the engine waits: [envs] during the insertion of an
    event, [env] between the fetching of the events of a frame and the lock of
    the manager. *)

From Stdlib Require Import ZArith Lia.
From stdpp Require Import base gmap sets list strings numbers.
From S2P Require Import Prelude Hash Vlc Event Dag Coin StateStore SparseMerkle MerkleStore StateManager Overlay ConsensusTypes AnchorBuilder Consensus Election EventStore DagManager.
#[local] Open Scope setu_scope.

Record CompletionEntry := mkCompletion {
  ce_cf : ConsensusFrame;
  ce_anchor_id : AnchorId;
  ce_expected_round : Z;
  ce_persisted : bool
}.

Inductive ConsensusMessage :=
| MNewEvent (e : Event)
| MProposeFrame (cf : ConsensusFrame)
| MVote (v : Vote)
| MFrameFinalized (cf : ConsensusFrame)
| MLeaderChanged (round : Z) (new_leader : string).

(** The calls of the broadcaster, and the notification of subscribers. *)
Inductive Output :=
| BroadcastEvent (e : Event)
| BroadcastCf (cf : ConsensusFrame)
| BroadcastVote (v : Vote)
| BroadcastFinalized (cf : ConsensusFrame)
| NotifySubscribers (cf : ConsensusFrame).

Inductive CfReceiveOutcome :=
| Accepted (finalized : bool) (anchor : option Anchor)
| NeedsCatchUp (up_to_depth : Z) (cf : ConsensusFrame)
| Stale (cf_round local_round : Z).

Inductive FetchError := StillMissing (n : nat) | FetchFailed.

(** The texts of [SetuError::InvalidData]; texts that differ in wording only
    share a constructor. *)
Inductive EngineError :=
| EDagManager (e : DagManagerError)
| ECfId (id : CFId)
| EProposer (proposer : string) (round : Z)
| EChainRoot (expected got : HashValue)
| EMerkleRoots
| EStrictNeedsKey
| ENoQuorum (id : CFId) (approve_count validator_count : nat)
| EVoteForOther (id other : CFId)
| ENonValidator (id : string)
| EUnsigned (id : string)
| EMissingKey (id : string)
| EInvalidSignature (id : string)
| ENoBroadcaster (id : CFId) (missing : nat)
| EMissingEvents (id : CFId) (last : option FetchError).

Definition LEGACY_CAPACITY : nat := Z.to_nat 1000.
Definition FETCH_RETRY : nat := 3.

Record ConsensusEngine (L Es St : Type) := mkEngine {
  en_config : ConsensusConfig;
  dag_manager : DagManager L Es;
  vlc : VLC;
  logical_time_counter : Z;
  validator_set : ValidatorSet;
  consensus_manager : ConsensusManager St;
  en_local_id : string;
  private_key : option bytes;
  strict_vote_signatures : bool;
  legacy_queue : list ConsensusMessage;
  legacy_drop_logged : bool;
  broadcaster : bool;
  pending_persist_anchors : list Anchor;
  pending_persist_cfs : list ConsensusFrame;
  pending_completions : list CompletionEntry;
  finalization_tx : bool;
  outbox : list Output
}.
Arguments mkEngine {L Es St}.
Arguments en_config {L Es St} _.
Arguments dag_manager {L Es St} _.
Arguments vlc {L Es St} _.
Arguments logical_time_counter {L Es St} _.
Arguments validator_set {L Es St} _.
Arguments consensus_manager {L Es St} _.
Arguments en_local_id {L Es St} _.
Arguments private_key {L Es St} _.
Arguments strict_vote_signatures {L Es St} _.
Arguments legacy_queue {L Es St} _.
Arguments legacy_drop_logged {L Es St} _.
Arguments broadcaster {L Es St} _.
Arguments pending_persist_anchors {L Es St} _.
Arguments pending_persist_cfs {L Es St} _.
Arguments pending_completions {L Es St} _.
Arguments finalization_tx {L Es St} _.
Arguments outbox {L Es St} _.

(** [all_validators().find(|v| v.node.id == id)]. *)
Definition find_validator (vs : ValidatorSet) (id : string) : option ValidatorInfo :=
  List.find (fun v => bool_decide (node_id (vi_node v) = id)) (map_to_list (validators vs)).*2.

Module Eng.
Section Eng.
Context `{Blake3} `{HexCrate} `{StateBcs} {St : Type} `{B4Store St} `{Ed25519}.
Context {L Es : Type} `{LruCache L} `{EventStoreBackend Es}.

Abbreviation Engine := (ConsensusEngine L Es St).
Abbreviation Dm := (DagManager L Es).

(** *** Construction *)

Definition build (config : ConsensusConfig) (id : string) (vs : ValidatorSet) (m : ConsensusManager St) (store : Es)
    (now : Z) : result Empty_set Engine :=
  let? dm := DM.new D.new store dag_config_default in
  Ok (mkEngine config dm (Node.new id now) 0 vs m id None false [] false false [] [] [] false []).

Definition with_event_store (config : ConsensusConfig) (id : string) (vs : ValidatorSet) (store : Es) (now : Z)
    : result Empty_set Engine :=
  build config id vs (CM.new config id) store now.

Definition with_stores (config : ConsensusConfig) (id : string) (vs : ValidatorSet) (shared : SharedStateManager St)
    (store : Es) (now : Z) : result Empty_set Engine :=
  build config id vs (CM.with_shared_state_manager config id shared) store now.

(** Field updates. *)
Definition set_dm (d : Dm) (e : Engine) : Engine :=
  mkEngine (en_config e) d (vlc e) (logical_time_counter e) (validator_set e) (consensus_manager e) (en_local_id e)
    (private_key e) (strict_vote_signatures e) (legacy_queue e) (legacy_drop_logged e) (broadcaster e)
    (pending_persist_anchors e) (pending_persist_cfs e) (pending_completions e) (finalization_tx e) (outbox e).
Definition set_vlc (c : VLC) (counter : Z) (e : Engine) : Engine :=
  mkEngine (en_config e) (dag_manager e) c counter (validator_set e) (consensus_manager e) (en_local_id e)
    (private_key e) (strict_vote_signatures e) (legacy_queue e) (legacy_drop_logged e) (broadcaster e)
    (pending_persist_anchors e) (pending_persist_cfs e) (pending_completions e) (finalization_tx e) (outbox e).
Definition set_validators (vs : ValidatorSet) (e : Engine) : Engine :=
  mkEngine (en_config e) (dag_manager e) (vlc e) (logical_time_counter e) vs (consensus_manager e) (en_local_id e)
    (private_key e) (strict_vote_signatures e) (legacy_queue e) (legacy_drop_logged e) (broadcaster e)
    (pending_persist_anchors e) (pending_persist_cfs e) (pending_completions e) (finalization_tx e) (outbox e).
Definition set_manager (m : ConsensusManager St) (e : Engine) : Engine :=
  mkEngine (en_config e) (dag_manager e) (vlc e) (logical_time_counter e) (validator_set e) m (en_local_id e)
    (private_key e) (strict_vote_signatures e) (legacy_queue e) (legacy_drop_logged e) (broadcaster e)
    (pending_persist_anchors e) (pending_persist_cfs e) (pending_completions e) (finalization_tx e) (outbox e).
Definition set_signing (key : option bytes) (strict : bool) (e : Engine) : Engine :=
  mkEngine (en_config e) (dag_manager e) (vlc e) (logical_time_counter e) (validator_set e) (consensus_manager e)
    (en_local_id e) key strict (legacy_queue e) (legacy_drop_logged e) (broadcaster e)
    (pending_persist_anchors e) (pending_persist_cfs e) (pending_completions e) (finalization_tx e) (outbox e).
Definition set_legacy (q : list ConsensusMessage) (dropped : bool) (e : Engine) : Engine :=
  mkEngine (en_config e) (dag_manager e) (vlc e) (logical_time_counter e) (validator_set e) (consensus_manager e)
    (en_local_id e) (private_key e) (strict_vote_signatures e) q dropped (broadcaster e)
    (pending_persist_anchors e) (pending_persist_cfs e) (pending_completions e) (finalization_tx e) (outbox e).
Definition set_channels (bcast tx : bool) (e : Engine) : Engine :=
  mkEngine (en_config e) (dag_manager e) (vlc e) (logical_time_counter e) (validator_set e) (consensus_manager e)
    (en_local_id e) (private_key e) (strict_vote_signatures e) (legacy_queue e) (legacy_drop_logged e) bcast
    (pending_persist_anchors e) (pending_persist_cfs e) (pending_completions e) tx (outbox e).
Definition set_persist (anchors : list Anchor) (cfs : list ConsensusFrame) (e : Engine) : Engine :=
  mkEngine (en_config e) (dag_manager e) (vlc e) (logical_time_counter e) (validator_set e) (consensus_manager e)
    (en_local_id e) (private_key e) (strict_vote_signatures e) (legacy_queue e) (legacy_drop_logged e) (broadcaster e)
    anchors cfs (pending_completions e) (finalization_tx e) (outbox e).
Definition set_completions (q : list CompletionEntry) (e : Engine) : Engine :=
  mkEngine (en_config e) (dag_manager e) (vlc e) (logical_time_counter e) (validator_set e) (consensus_manager e)
    (en_local_id e) (private_key e) (strict_vote_signatures e) (legacy_queue e) (legacy_drop_logged e) (broadcaster e)
    (pending_persist_anchors e) (pending_persist_cfs e) q (finalization_tx e) (outbox e).
Definition emit (o : Output) (e : Engine) : Engine :=
  mkEngine (en_config e) (dag_manager e) (vlc e) (logical_time_counter e) (validator_set e) (consensus_manager e)
    (en_local_id e) (private_key e) (strict_vote_signatures e) (legacy_queue e) (legacy_drop_logged e) (broadcaster e)
    (pending_persist_anchors e) (pending_persist_cfs e) (pending_completions e) (finalization_tx e) (outbox e ++ [o]).

(** *** Settings and channels *)

Definition set_private_key (key : bytes) (e : Engine) : Engine := set_signing (Some key) (strict_vote_signatures e) e.
Definition clear_private_key (e : Engine) : Engine := set_signing None (strict_vote_signatures e) e.
Definition enable_strict_vote_signatures (e : Engine) : Engine := set_signing (private_key e) true e.
Definition set_broadcaster (e : Engine) : Engine := set_channels true (finalization_tx e) e.
Definition set_finalization_tx (e : Engine) : Engine := set_channels (broadcaster e) true e.
Definition set_outcomes_sink (e : Engine) : Engine := set_manager (CM.set_outcomes_sink (consensus_manager e)) e.

(** [try_send] on a channel of capacity 1000 whose reader the engine keeps. *)
Definition send_legacy_message (msg : ConsensusMessage) (e : Engine) : Engine :=
  if (length (legacy_queue e) <? LEGACY_CAPACITY)%nat
  then set_legacy (legacy_queue e ++ [msg]) (legacy_drop_logged e) e
  else set_legacy (legacy_queue e) true e.

Definition broadcast (o : Output) (e : Engine) : Engine := if broadcaster e then emit o e else e.
Definition notify (cf : ConsensusFrame) (e : Engine) : Engine :=
  if finalization_tx e then emit (NotifySubscribers cf) e else e.

(** *** Persistence and completion *)

Definition take_pending_anchors (e : Engine) : Engine * list Anchor :=
  (set_persist [] (pending_persist_cfs e) e, pending_persist_anchors e).
Definition take_pending_finalized_cfs (e : Engine) : Engine * list ConsensusFrame :=
  (set_persist (pending_persist_anchors e) [] e, pending_persist_cfs e).
Definition drain_pending_finalized_cfs (ids : list CFId) (e : Engine) : Engine :=
  set_persist (pending_persist_anchors e) (filter (fun cf => cf_id cf ∉ ids) (pending_persist_cfs e)) e.

Definition complete_entry (e : Engine) (entry : CompletionEntry) : Engine :=
  let cf := ce_cf entry in
  let e := broadcast (BroadcastFinalized cf) (notify cf (send_legacy_message (MFrameFinalized cf) e)) in
  if (current_round (validator_set e) =? ce_expected_round entry)%Z
  then set_validators (VS.advance_round (validator_set e)) e
  else e.

Definition complete_pending_finalizations (e : Engine) : Engine :=
  foldl complete_entry
    (set_completions (filter (fun c => ce_persisted c = false) (pending_completions e)) e)
    (filter (fun c => ce_persisted c = true) (pending_completions e)).

Definition mark_entry (anchor_id : AnchorId) (c : CompletionEntry) : CompletionEntry :=
  if bool_decide (ce_anchor_id c = anchor_id)
  then mkCompletion (ce_cf c) (ce_anchor_id c) (ce_expected_round c) true else c.

Definition mark_anchor_persisted (anchor_id : AnchorId) (e : Engine) : Engine :=
  set_manager (CM.mark_anchor_persisted anchor_id (consensus_manager e))
    (set_completions (mark_entry anchor_id <$> pending_completions e) e).

Definition mark_anchor_events_finalized_in_active_dag (anchor : Anchor) (e : Engine) : Engine :=
  set_dm (DM.set_dag (fun d => D.finalize_events d (a_event_ids anchor)) (dag_manager e)) e.

(** *** Validators and rounds *)

Definition add_consensus_validator (info : ValidatorInfo) (e : Engine) : Engine :=
  let vs := VS.add_validator info (validator_set e) in
  set_manager (CM.update_validator_count (VS.count vs) (consensus_manager e)) (set_validators vs e).

Definition is_current_leader (e : Engine) : bool := VS.is_leader (validator_set e) (en_local_id e).
Definition is_valid_proposer_for_round (e : Engine) (round : Z) : bool :=
  VS.is_valid_proposer (validator_set e) (en_local_id e) round.

Definition advance_round (e : Engine) : Engine * Z :=
  let vs := VS.advance_round (validator_set e) in
  let e := set_validators vs e in
  (match leader_id vs with
   | Some new_leader => send_legacy_message (MLeaderChanged (current_round vs) new_leader) e
   | None => e
   end, current_round vs).

(** *** Clock *)

Definition tick (now : Z) (e : Engine) : Engine := set_vlc (Node.tick (vlc e) now) (logical_time_counter e) e.
Definition merge_clock (other : VLCSnapshot) (now : Z) (e : Engine) : Engine :=
  set_vlc (Node.merge (vlc e) other now) (logical_time_counter e) e.

Definition tick_and_get_vlc (now : Z) (e : Engine) : Engine * VLCSnapshot :=
  let e := tick now e in (e, Vlc.snapshot (vlc e)).
Definition allocate_logical_time (e : Engine) : Engine * Z :=
  let t := u64_add (logical_time_counter e) 1 in (set_vlc (vlc e) t e, t).
Definition restore_logical_time_counter (t : Z) (e : Engine) : Engine := set_vlc (vlc e) t e.

Definition create_event (parents : list EventId) (now : Z) (e : Engine) : Engine * Event :=
  let '(e, s) := tick_and_get_vlc now e in
  (e, event_new Transfer parents s (en_local_id e) now).

(** *** Proposing *)

(** A call of the manager under its lock. *)
Definition with_manager {A} (f : stm (ConsensusManager St) Empty_set A) : stm Engine EngineError A := fun e =>
  match f (consensus_manager e) with
  | (m, Ok a) => (set_manager m e, Ok a)
  | (m, Err x) => match x with end
  | (m, Panic) => (set_manager m e, Panic)
  end.

(** A frame finalized by the proposer's own vote: it is queued for persistence
    and announced to the subscribers at once. *)
Definition inline_finalize (frame : ConsensusFrame) (e : Engine) : Engine :=
  let e := set_dm (DM.update_min_depth (anchor_depth (anchor_builder (consensus_manager e))) (dag_manager e)) e in
  let e := mark_anchor_events_finalized_in_active_dag (cf_anchor frame) e in
  match CM.last_finalized_cf (consensus_manager e) with
  | Some cf => notify cf (set_persist (pending_persist_anchors e ++ [cf_anchor cf]) (pending_persist_cfs e ++ [cf]) e)
  | None => e
  end.

Definition vote_for_cf (id : CFId) (now : Z) (e : Engine) : Engine * option Vote :=
  let '(m, v) := CM.vote_for_cf id true (private_key e) now (consensus_manager e) in (set_manager m e, v).

(** The proposer votes for its frame, checks it, and sends it with the vote in
    it; [backup] says whether the vote is also sent alone. *)
Definition announce (backup : bool) (frame : ConsensusFrame) (self_vote : option Vote) (e : Engine) : Engine :=
  let e := send_legacy_message (MProposeFrame frame) e in
  match self_vote with
  | Some v =>
      let e := broadcast (BroadcastCf (CF.add_vote frame v)) e in
      if backup then broadcast (BroadcastVote v) e else e
  | None => broadcast (BroadcastCf frame) e
  end.

Definition propose (backup : bool) (frame : ConsensusFrame) (now : Z) : stm Engine EngineError unit := fun e =>
  let '(e, self_vote) := vote_for_cf (cf_id frame) now e in
  match self_vote with
  | None => (announce backup frame None e, Ok tt)
  | Some v =>
      match with_manager (CM.classify_finalization (cf_id frame) now) e with
      | (e, Ok outcome) =>
          (announce backup frame (Some v) (if is_finalized outcome then inline_finalize frame e else e), Ok tt)
      | (e, Err x) => (e, Err x)
      | (e, Panic) => (e, Panic)
      end
  end.

Definition propose_created (backup : bool) (now : Z) (cf : option ConsensusFrame)
    : stm Engine EngineError (option ConsensusFrame) :=
  match cf with
  | Some frame => let! _ := propose backup frame now in sret (Some frame)
  | None => sret None
  end.

Definition try_create_cf (now : Z) : stm Engine EngineError (option ConsensusFrame) := fun e =>
  let round := current_round (validator_set e) in
  if negb (VS.is_valid_proposer (validator_set e) (en_local_id e) round) then (e, Ok None)
  else if negb (CM.should_fold (consensus_manager e) (vlc e)) then (e, Ok None)
  else
    (let! cf := with_manager (CM.try_create_cf (dm_dag (dag_manager e)) (vlc e) round now) in
     propose_created true now cf) e.

Definition try_create_cf_heartbeat (heartbeat_interval now : Z) : stm Engine EngineError (option ConsensusFrame) :=
  fun e =>
  let round := current_round (validator_set e) in
  if negb (VS.is_valid_proposer (validator_set e) (en_local_id e) round) then (e, Ok None)
  else
    (let! cf := with_manager
       (CM.try_create_cf_heartbeat (dm_dag (dag_manager e)) (vlc e) heartbeat_interval round now) in
     propose_created false now cf) e.

(** *** Events *)

Definition insert_event (envs : nat → Dm → Dm) (event : Event) (e : Engine) : Engine * result DagManagerError EventId :=
  let '(d, r) := DM.add_event_with_retry envs event (dag_manager e) in (set_dm d e, r).

(** [after] runs when the event was inserted. *)
Definition admit_event (after : Engine → Engine) (envs : nat → Dm → Dm) (event : Event) (now : Z)
    : stm Engine EngineError EventId := fun e =>
  let e := tick now (merge_clock (vlc_snapshot event) now e) in
  match insert_event envs event e with
  | (e, Ok id) => (let! _ := try_create_cf now in sret id) (after e)
  | (e, Err (DmDuplicateEvent id)) => (e, Ok id)
  | (e, Err x) => (e, Err (EDagManager x))
  | (e, Panic) => (e, Panic)
  end.

Definition add_event (envs : nat → Dm → Dm) (event : Event) (now : Z) : stm Engine EngineError EventId :=
  admit_event (fun e => send_legacy_message (MNewEvent event) (broadcast (BroadcastEvent event) e)) envs event now.

Definition receive_event_from_network (envs : nat → Dm → Dm) (event : Event) (now : Z)
    : stm Engine EngineError EventId :=
  admit_event (fun e => e) envs event now.

(** *** Fetching the events of a frame *)

Definition missing_events (cf : ConsensusFrame) (e : Engine) : list EventId :=
  filter (fun id => D.contains (dm_dag (dag_manager e)) id = false) (a_event_ids (cf_anchor cf)).

(** Errors of single events are only logged. *)
Fixpoint add_fetched (envs : nat → nat → Dm → Dm) (i : nat) (evs : list Event) (now : Z) (e : Engine) : Engine * bool :=
  match evs with
  | [] => (e, true)
  | event :: rest =>
      match insert_event (envs i) event (merge_clock (vlc_snapshot event) now e) with
      | (e, Panic) => (e, false)
      | (e, _) => add_fetched envs (S i) rest now e
      end
  end.

(** The answer of the peers to each request, with the interference while the
    events of the answer are inserted. *)
Record Peers := mkPeers {
  request_events : nat → list EventId → option (list Event);
  fetch_envs : nat → nat → nat → Dm → Dm
}.

Fixpoint fetch_loop (left retry : nat) (peers : Peers) (cf : ConsensusFrame) (missing : list EventId)
    (last : option FetchError) (now : Z) : stm Engine EngineError unit := fun e =>
  match left with
  | O => (e, Err (EMissingEvents (cf_id cf) last))
  | S left' =>
      match request_events peers retry missing with
      | Some fetched =>
          match add_fetched (fetch_envs peers retry) 0 fetched now e with
          | (e, true) =>
              let missing := missing_events cf e in
              if bool_decide (missing = []) then (e, Ok tt)
              else fetch_loop left' (S retry) peers cf missing (Some (StillMissing (length missing))) now e
          | (e, false) => (e, Panic)
          end
      | None => fetch_loop left' (S retry) peers cf missing (Some FetchFailed) now e
      end
  end.

Definition ensure_cf_events_available (peers : Peers) (cf : ConsensusFrame) (now : Z) : stm Engine EngineError unit :=
  fun e =>
  let missing := missing_events cf e in
  if bool_decide (missing = []) then (e, Ok tt)
  else if negb (broadcaster e) then (e, Err (ENoBroadcaster (cf_id cf) (length missing)))
  else fetch_loop FETCH_RETRY 0 peers cf missing None now e.

(** *** Votes *)

Definition verify_vote_signature_policy (e : Engine) (vote : Vote) (public_key : bytes) : result EngineError unit :=
  if bool_decide (v_signature vote = []) then
    if strict_vote_signatures e then Err (EUnsigned (v_validator_id vote)) else Ok tt
  else if bool_decide (public_key = []) then
    if strict_vote_signatures e then Err (EMissingKey (v_validator_id vote)) else Ok tt
  else if negb (Vt.verify_signature vote public_key) then Err (EInvalidSignature (v_validator_id vote))
  else Ok tt.

Fixpoint verify_votes (e : Engine) (id : CFId) (votes : list Vote) : result EngineError unit :=
  match votes with
  | [] => Ok tt
  | vote :: rest =>
      if bool_decide (v_cf_id vote ≠ id) then Err (EVoteForOther id (v_cf_id vote))
      else
        match find_validator (validator_set e) (v_validator_id vote) with
        | None => Err (ENonValidator (v_validator_id vote))
        | Some validator =>
            let? _ := verify_vote_signature_policy e vote (node_public_key (vi_node validator)) in
            verify_votes e id rest
        end
  end.

Definition verify_finalized_cf_votes (cf : ConsensusFrame) (e : Engine) : result EngineError unit :=
  let count := VS.count (validator_set e) in
  if negb (CF.check_quorum cf count) then Err (ENoQuorum (cf_id cf) (CF.approve_count cf) count)
  else verify_votes e (cf_id cf) (map_to_list (cf_votes cf)).*2.

Definition keep_vote (e : Engine) (id : CFId) (voter : string) (vote : Vote) : bool :=
  if bool_decide (v_cf_id vote ≠ id) then false
  else
    match find_validator (validator_set e) voter with
    | None => false
    | Some validator =>
        let key := node_public_key (vi_node validator) in
        if bool_decide (v_signature vote = []) || bool_decide (key = []) then false
        else Vt.verify_signature vote key
    end.

Definition filter_embedded_votes_for_strict_mode (e : Engine) (cf : ConsensusFrame) : ConsensusFrame :=
  if negb (strict_vote_signatures e) || bool_decide (cf_votes cf = ∅) then cf
  else
    mkCF (cf_id cf) (cf_round cf) (cf_anchor cf) (cf_proposer cf) (cf_status cf)
      (filter (fun kv => keep_vote e (cf_id cf) kv.1 kv.2 = true) (cf_votes cf))
      (cf_created_at cf) (cf_finalized_at cf).

(** *** Frames of others *)

Definition handle_finalization (e : Engine) : Engine * (bool * option Anchor) :=
  match CM.last_finalized_cf (consensus_manager e) with
  | None => (e, (true, None))
  | Some cf =>
      let anchor := cf_anchor cf in
      let e := set_dm (DM.update_min_depth (u64_add (a_depth anchor) 1) (dag_manager e)) e in
      let e := mark_anchor_events_finalized_in_active_dag anchor e in
      let e := set_persist (pending_persist_anchors e) (pending_persist_cfs e ++ [cf]) e in
      (set_completions
         (pending_completions e ++ [mkCompletion cf (a_id anchor) (current_round (validator_set e)) false]) e,
       (true, Some anchor))
  end.

(** The last step of every path that may finalize a frame. *)
Definition after_outcome (outcome : CfLifecycleOutcome) : stm Engine EngineError (bool * option Anchor) := fun e =>
  if is_finalized outcome then let '(e, r) := handle_finalization e in (e, Ok r) else (e, Ok (false, None)).

Definition check_chain_root (cf : ConsensusFrame) (e : Engine) : result EngineError unit :=
  match merkle_roots (cf_anchor cf) with
  | None => Ok tt
  | Some roots =>
      let local := last_anchor_chain_root (anchor_builder (consensus_manager e)) in
      if bool_decide (anchor_chain_root roots = local) then Ok tt else Err (EChainRoot local (anchor_chain_root roots))
  end.

(** The part of [receive_cf] under the locks of the DAG and of the manager. *)
Definition vote_on_cf (cf : ConsensusFrame) (now : Z) : stm Engine EngineError CfReceiveOutcome := fun e =>
  if CM.has_cf (consensus_manager e) (cf_id cf) then (e, Ok (Accepted false None))
  else if negb (CM.verify_cf_merkle_roots cf) then (e, Err EMerkleRoots)
  else
    let m := (CM.apply_cf_state_changes (dm_dag (dag_manager e)) cf (consensus_manager e)).1 in
    let e := set_manager (CM.receive_cf cf m) e in
    match vote_for_cf (cf_id cf) now e with
    | (e, Some v) =>
        (let! outcome := with_manager (CM.classify_finalization (cf_id cf) now) in
         let! r := after_outcome outcome in
         sret (Accepted r.1 r.2)) (broadcast (BroadcastVote v) e)
    | (e, None) => (e, Ok (Accepted false None))
    end.

Definition receive_cf (peers : Peers) (env : Engine → Engine) (cf : ConsensusFrame) (now : Z)
    : stm Engine EngineError CfReceiveOutcome := fun e =>
  let local_round := current_round (validator_set e) in
  if negb (CF.verify_id cf) then (e, Err (ECfId (cf_id cf)))
  else if negb (VS.is_valid_proposer (validator_set e) (cf_proposer cf) (cf_round cf))
  then (e, Err (EProposer (cf_proposer cf) (cf_round cf)))
  else if (local_round <? cf_round cf)%Z
  then (e, Ok (NeedsCatchUp (saturating_sub (a_depth (cf_anchor cf)) 1) cf))
  else if (cf_round cf <? local_round)%Z then (e, Ok (Stale (cf_round cf) local_round))
  else
    (let! _ := slift (check_chain_root cf e) in
     if CM.has_cf (consensus_manager e) (cf_id cf) then sret (Accepted false None)
     else
       let! _ := ensure_cf_events_available peers cf now in
       fun e =>
         let cf := filter_embedded_votes_for_strict_mode e cf in
         if strict_vote_signatures e && bool_decide (private_key e = None) then (e, Err EStrictNeedsKey)
         else vote_on_cf cf now (env e)) e.

(** The part of [receive_finalized_cf] under the locks. *)
Definition finalize_received (cf : ConsensusFrame) (now : Z) : stm Engine EngineError (bool * option Anchor) := fun e =>
  if CM.is_finalized_cf (consensus_manager e) (cf_id cf) then (e, Ok (false, None))
  else if negb (CM.verify_cf_merkle_roots cf) then (e, Err EMerkleRoots)
  else
    let m := (CM.apply_cf_state_changes (dm_dag (dag_manager e)) cf (consensus_manager e)).1 in
    (let! outcome := with_manager (CM.receive_finalized_cf cf now) in after_outcome outcome) (set_manager m e).

Definition receive_finalized_cf (peers : Peers) (env : Engine → Engine) (cf : ConsensusFrame) (now : Z)
    : stm Engine EngineError (bool * option Anchor) := fun e =>
  if negb (CF.verify_id cf) then (e, Err (ECfId (cf_id cf)))
  else
    (let! _ := slift (verify_finalized_cf_votes cf e) in
     if CM.is_finalized_cf (consensus_manager e) (cf_id cf) then sret (false, None)
     else
       let! _ := slift (check_chain_root cf e) in
       let! _ := ensure_cf_events_available peers cf now in
       fun e => finalize_received cf now (env e)) e.

Definition receive_vote (vote : Vote) (now : Z) : stm Engine EngineError (bool * option Anchor) := fun e =>
  match find_validator (validator_set e) (v_validator_id vote) with
  | None => (e, Err (ENonValidator (v_validator_id vote)))
  | Some validator =>
      (let! _ := slift (verify_vote_signature_policy e vote (node_public_key (vi_node validator))) in
       let! outcome := with_manager (CM.receive_vote vote now) in after_outcome outcome) e
  end.

Definition run_periodic_maintenance (now : Z) (e : Engine) : Engine :=
  set_manager (CM.cleanup_timeout_cfs now (consensus_manager e)).1 e.

(** *** Reading events *)

Definition get_events_by_ids (e : Engine) (ids : list EventId) : list Event :=
  omap (D.get_event (dm_dag (dag_manager e))) ids.

Definition get_events_by_ids_three_layer (e : Engine) (ids : list EventId) : list Event :=
  let d := dm_dag (dag_manager e) in
  let misses := filter (fun id => D.get_event d id = None) ids in
  omap (D.get_event d) ids ++
  (if bool_decide (misses = []) then [] else eb_get_events_batch (event_store (dag_manager e)) misses).

Definition get_global_state_root (e : Engine) : HashValue := AB.get_global_root (anchor_builder (consensus_manager e)).
Definition get_anchor_chain_root (e : Engine) : HashValue :=
  last_anchor_chain_root (anchor_builder (consensus_manager e)).
End Eng.
End Eng.
