(* ===== verification/EngineSteps.v ===== *)
(** * The steps of the consensus engine

    Every operation of the engine is a sequence of smaller steps ([micro]); the
    invariants are proved once for the steps. *)

From Stdlib Require Import ZArith Lia.
From stdpp Require Import base gmap sets list strings numbers.
From S2P Require Import Prelude Hash Vlc Event Dag Coin StateStore SparseMerkle MerkleStore StateManager Overlay ConsensusTypes AnchorBuilder Consensus ConsensusProps Election EventStore DagManager DagManagerProps Engine.
#[local] Open Scope setu_scope.

Section engine.
Context {B : Blake3} {X : HexCrate} {SB : StateBcs} {St : Type} {B4 : B4Store St} {ED : Ed25519}.
Context {L Es : Type} {LC : LruCache L} {EB : EventStoreBackend Es}.

Implicit Types e : ConsensusEngine L Es St.

(** ** Operations *)

(** The calls an engine receives; [between] are the calls of other tasks that run
    while the events of a frame are fetched. *)
Inductive eop :=
| OAddEvent (envs : nat → DagManager L Es → DagManager L Es) (event : Event) (now : Z)
| ONetEvent (envs : nat → DagManager L Es → DagManager L Es) (event : Event) (now : Z)
| OTryCreate (now : Z)
| OHeartbeat (interval now : Z)
| OReceiveCf (peers : Eng.Peers (L := L) (Es := Es)) (between : list eop) (cf : ConsensusFrame) (now : Z)
| OReceiveFinalizedCf (peers : Eng.Peers (L := L) (Es := Es)) (between : list eop) (cf : ConsensusFrame) (now : Z)
| OReceiveVote (v : Vote) (now : Z)
| OMarkPersisted (a : AnchorId)
| OComplete
| OTakeAnchors
| OTakeCfs
| ODrainCfs (ids : list CFId)
| OAddValidator (info : ValidatorInfo)
| OAdvanceRound
| OMaintenance (now : Z)
| OCreateEvent (parents : list EventId) (now : Z)
| OAllocateTime
| ORestoreTime (t : Z)
| OSetKey (key : option bytes)
| OStrict
| OSetBroadcaster
| OSubscribe.

Fixpoint run_op (o : eop) e {struct o} : ConsensusEngine L Es St :=
  match o with
  | OAddEvent envs event now => (Eng.add_event envs event now e).1
  | ONetEvent envs event now => (Eng.receive_event_from_network envs event now e).1
  | OTryCreate now => (Eng.try_create_cf now e).1
  | OHeartbeat interval now => (Eng.try_create_cf_heartbeat interval now e).1
  | OReceiveCf peers between cf now =>
      (Eng.receive_cf peers (fun e => fold_left (fun e o => run_op o e) between e) cf now e).1
  | OReceiveFinalizedCf peers between cf now =>
      (Eng.receive_finalized_cf peers (fun e => fold_left (fun e o => run_op o e) between e) cf now e).1
  | OReceiveVote v now => (Eng.receive_vote v now e).1
  | OMarkPersisted a => Eng.mark_anchor_persisted a e
  | OComplete => Eng.complete_pending_finalizations e
  | OTakeAnchors => (Eng.take_pending_anchors e).1
  | OTakeCfs => (Eng.take_pending_finalized_cfs e).1
  | ODrainCfs ids => Eng.drain_pending_finalized_cfs ids e
  | OAddValidator info => Eng.add_consensus_validator info e
  | OAdvanceRound => (Eng.advance_round e).1
  | OMaintenance now => Eng.run_periodic_maintenance now e
  | OCreateEvent parents now => (Eng.create_event parents now e).1
  | OAllocateTime => (Eng.allocate_logical_time e).1
  | ORestoreTime t => Eng.restore_logical_time_counter t e
  | OSetKey (Some key) => Eng.set_private_key key e
  | OSetKey None => Eng.clear_private_key e
  | OStrict => Eng.enable_strict_vote_signatures e
  | OSetBroadcaster => Eng.set_broadcaster e
  | OSubscribe => Eng.set_finalization_tx e
  end.

Definition run_ops (ops : list eop) e : ConsensusEngine L Es St := fold_left (fun e o => run_op o e) ops e.

(** A predicate on a call and on all calls nested in it. *)
Fixpoint op_all (P : eop → Prop) (o : eop) {struct o} : Prop :=
  P o ∧
  match o with
  | OReceiveCf _ between _ _ | OReceiveFinalizedCf _ between _ _ => fold_right (fun o p => op_all P o ∧ p) True between
  | _ => True
  end.

(** The anchors reported as persisted by a call and the calls nested in it. *)
Fixpoint marks (o : eop) {struct o} : list AnchorId :=
  match o with
  | OMarkPersisted a => [a]
  | OReceiveCf _ between _ _ | OReceiveFinalizedCf _ between _ _ => fold_right (fun o l => marks o ++ l) [] between
  | _ => []
  end.

(** Induction on calls and the calls nested in them. *)
Lemma eop_ind' (P : eop → Prop)
  (Hcf : ∀ peers between cf now, Forall P between → P (OReceiveCf peers between cf now))
  (Hfin : ∀ peers between cf now, Forall P between → P (OReceiveFinalizedCf peers between cf now))
  (Hrest : ∀ o, (∀ peers between cf now, o ≠ OReceiveCf peers between cf now ∧ o ≠ OReceiveFinalizedCf peers between cf now) → P o) :
  ∀ o, P o.
Proof.
  fix IH 1. intros []; try (apply Hrest; done).
  - apply Hcf. induction between; constructor; [apply IH|done].
  - apply Hfin. induction between; constructor; [apply IH|done].
Qed.

(** What the model leaves to others keeps the DAG well formed. *)
Definition op_tame (o : eop) : Prop :=
  match o with
  | OAddEvent envs _ _ | ONetEvent envs _ _ => ∀ i, tame (envs i)
  | OReceiveCf peers _ _ _ | OReceiveFinalizedCf peers _ _ _ => ∀ r i j, tame (Eng.fetch_envs peers r i j)
  | _ => True
  end.

(** ** Steps *)

(** Steps that concern neither the manager, the validators nor the completions. *)
Record quiet e e' : Prop := mkQuiet {
  q_mgr : consensus_manager e' = consensus_manager e;
  q_vs : validator_set e' = validator_set e;
  q_local : en_local_id e' = en_local_id e;
  q_strict : strict_vote_signatures e = true → strict_vote_signatures e' = true;
  q_comp : pending_completions e' = pending_completions e;
  q_out : ∀ cf, BroadcastFinalized cf ∈ outbox e' → BroadcastFinalized cf ∈ outbox e;
  q_dag : dag_wf (dm_dag (dag_manager e)) → dag_wf (dm_dag (dag_manager e'))
}.

#[local] Instance quiet_refl : Reflexive quiet.
Proof. by constructor. Qed.
#[local] Instance quiet_trans : Transitive quiet.
Proof. intros e1 e2 e3 [] []. constructor; try congruence; eauto. Qed.

(** The public keys of the validators. *)
Definition pubkeys (vs : ValidatorSet) : gmap string bytes := (fun v => node_public_key (vi_node v)) <$> validators vs.

(** [v] carries a signature that verifies under the key of validator [k]. *)
Definition signed_by (vs : ValidatorSet) (k : string) (v : Vote) : Prop :=
  ∃ key, pubkeys vs !! k = Some key ∧ Vt.verify_signature v key = true.

(** Every validator is filed under its own id. *)
Definition vs_keyed (vs : ValidatorSet) : Prop := ∀ k v, validators vs !! k = Some v → node_id (vi_node v) = k.

(** Votes are for the frame and signed by the validator they count for. *)
Definition votes_signed (vs : ValidatorSet) (cf : ConsensusFrame) : Prop :=
  ∀ k v, cf_votes cf !! k = Some v → v_cf_id v = cf_id cf ∧ signed_by vs k v.

(** Each vote of a frame counts for the validator it names. *)
Definition well_keyed (cf : ConsensusFrame) : Prop := ∀ k v, cf_votes cf !! k = Some v → v_validator_id v = k.

(** The calls of the manager that carry votes of others. *)
Definition mop_signed (vs : ValidatorSet) (o : mop) : Prop :=
  match o with
  | OpReceiveCf cf => votes_signed vs cf
  | OpReceiveFinalized cf _ => votes_signed vs cf ∧ well_keyed cf
  | OpReceiveVote v _ => signed_by vs (v_validator_id v) v
  | _ => True
  end.

(** [OpValidators] and [OpPersisted] are parts of other steps. *)
Definition mop_plain (o : mop) : Prop := match o with OpValidators _ | OpPersisted _ => False | _ => True end.

(** [sealed]: signatures are enforced and the validators do not change. *)
Inductive micro (sealed : bool) : list AnchorId → ConsensusEngine L Es St → ConsensusEngine L Es St → Prop :=
| mi_quiet e e' : quiet e e' → micro sealed [] e e'
| mi_manager e o : mop_plain o → (sealed = true → mop_signed (validator_set e) o) →
    micro sealed [] e (Eng.set_manager (run_mop o (consensus_manager e)) e)
| mi_queue e cf : CM.last_finalized_cf (consensus_manager e) = Some cf →
    micro sealed [] e
      (Eng.set_completions (pending_completions e ++
         [mkCompletion cf (a_id (cf_anchor cf)) (current_round (validator_set e)) false]) e)
| mi_mark e a : micro sealed [a] e (Eng.mark_anchor_persisted a e)
| mi_complete e : micro sealed [] e (Eng.complete_pending_finalizations e)
| mi_round e : micro sealed [] e (Eng.set_validators (VS.advance_round (validator_set e)) e)
| mi_validator e info : sealed = false → micro sealed [] e (Eng.add_consensus_validator info e).

(** Runs of steps; [l] contains the anchors they report as persisted. *)
Inductive micros (sealed : bool) (l : list AnchorId) : ConsensusEngine L Es St → ConsensusEngine L Es St → Prop :=
| mis_refl e : micros sealed l e e
| mis_step l1 e1 e2 e3 : micro sealed l1 e1 e2 → l1 ⊆ l → micros sealed l e2 e3 → micros sealed l e1 e3.

Lemma micros_one sealed l e e' : micro sealed l e e' → micros sealed l e e'.
Proof. intros Hm. eapply mis_step; [done..|constructor]. Qed.

Lemma micros_then sealed l e1 e2 e3 : micros sealed l e1 e2 → micros sealed l e2 e3 → micros sealed l e1 e3.
Proof. induction 1; [done|]. intros H2. eapply mis_step; eauto. Qed.

Lemma micros_weaken sealed l l' e e' : l ⊆ l' → micros sealed l e e' → micros sealed l' e e'.
Proof. intros Hl. induction 1; [constructor|]. eapply mis_step; [done|by etrans|done]. Qed.

Lemma micros_nil sealed l e e' : micros sealed [] e e' → micros sealed l e e'.
Proof. apply micros_weaken. by intros ? ?%not_elem_of_nil. Qed.

Lemma micros_cons sealed l e1 e2 e3 : micro sealed [] e1 e2 → micros sealed l e2 e3 → micros sealed l e1 e3.
Proof. intros H1 H2. eapply mis_step; [done| |done]. by intros ? ?%not_elem_of_nil. Qed.

(** *** Silent steps *)

Lemma quiet_dm e d :
  (dag_wf (dm_dag (dag_manager e)) → dag_wf (dm_dag d)) → quiet e (Eng.set_dm d e).
Proof. by constructor. Qed.
Lemma quiet_emit e o : (∀ cf, o ≠ BroadcastFinalized cf) → quiet e (Eng.emit o e).
Proof.
  intros Ho. constructor; try done. cbn. intros cf [?|Hin]%elem_of_app; [done|].
  apply list_elem_of_singleton in Hin. by destruct (Ho cf).
Qed.
Lemma quiet_broadcast e o : (∀ cf, o ≠ BroadcastFinalized cf) → quiet e (Eng.broadcast o e).
Proof. intros Ho. unfold Eng.broadcast. destruct (broadcaster e); [by apply quiet_emit|done]. Qed.
Lemma quiet_notify e cf : quiet e (Eng.notify cf e).
Proof. unfold Eng.notify. destruct (finalization_tx e); [by apply quiet_emit|done]. Qed.
Lemma quiet_legacy e m : quiet e (Eng.send_legacy_message m e).
Proof. unfold Eng.send_legacy_message. by destruct (_ <? _)%nat. Qed.
Lemma quiet_persist e a c : quiet e (Eng.set_persist a c e).
Proof. by constructor. Qed.
Lemma quiet_clock e c t : quiet e (Eng.set_vlc c t e).
Proof. by constructor. Qed.

Lemma quiet_finalize_dag e a : quiet e (Eng.mark_anchor_events_finalized_in_active_dag a e).
Proof. apply quiet_dm. cbn. apply finalize_events_wf. Qed.
Lemma quiet_min_depth e z : quiet e (Eng.set_dm (DM.update_min_depth z (dag_manager e)) e).
Proof. by apply quiet_dm. Qed.

#[local] Hint Resolve quiet_dm quiet_broadcast quiet_notify quiet_legacy quiet_persist quiet_clock quiet_finalize_dag
  quiet_min_depth : quiet.

(** [quiet_chain]: a composition of silent operations is silent. *)
Ltac quiet_chain := repeat (first [reflexivity | etrans; [|solve [auto with quiet | by constructor]]]).

Lemma quiet_inline e frame : quiet e (Eng.inline_finalize frame e).
Proof.
  unfold Eng.inline_finalize. destruct (CM.last_finalized_cf _); quiet_chain.
Qed.

Lemma quiet_announce e backup frame v : quiet e (Eng.announce backup frame v e).
Proof. unfold Eng.announce. destruct v; [destruct backup|]; quiet_chain. Qed.

Lemma quiet_insert e envs event : (∀ i, tame (envs i)) → quiet e (Eng.insert_event envs event e).1.
Proof.
  intros Ht. unfold Eng.insert_event.
  pose proof (retry_loop_wf MAX_RETRY 0 envs event (dag_manager e) Ht) as Hw. unfold DM.add_event_with_retry.
  destruct (DM.retry_loop _ _ _ _ _) as [d r]. by apply quiet_dm.
Qed.

Lemma quiet_add_fetched envs i evs now e :
  (∀ i j, tame (envs i j)) → quiet e (Eng.add_fetched envs i evs now e).1.
Proof.
  intros Ht. revert i e. induction evs as [|ev evs IH]; intros i e; cbn; [done|].
  pose proof (quiet_insert (Eng.merge_clock (vlc_snapshot ev) now e) (envs i) ev (Ht i)) as Hq.
  assert (H0 : quiet e (Eng.merge_clock (vlc_snapshot ev) now e)) by apply quiet_clock.
  destruct (Eng.insert_event _ _ _) as [e1 []]; cbn in Hq |- *; (etrans; [exact H0|]; etrans; [exact Hq|]);
    [apply IH..|done].
Qed.

Lemma quiet_fetch_loop left retry peers cf missing last now e :
  (∀ r i j, tame (Eng.fetch_envs peers r i j)) → quiet e (Eng.fetch_loop left retry peers cf missing last now e).1.
Proof.
  intros Ht. revert retry missing last e. induction left as [|left IH]; intros; cbn; [done|].
  destruct (Eng.request_events peers retry missing) as [evs|]; [|apply IH].
  pose proof (quiet_add_fetched (Eng.fetch_envs peers retry) 0 evs now e (Ht retry)) as Hq.
  destruct (Eng.add_fetched _ _ _ _ _) as [e1 []]; cbn in Hq |- *; [|done].
  destruct (bool_decide _); [done|]. etrans; [exact Hq|apply IH].
Qed.

Lemma quiet_ensure peers cf now e :
  (∀ r i j, tame (Eng.fetch_envs peers r i j)) → quiet e (Eng.ensure_cf_events_available peers cf now e).1.
Proof.
  intros Ht. unfold Eng.ensure_cf_events_available. destruct (bool_decide _); [done|].
  destruct (broadcaster e); [by apply quiet_fetch_loop|done].
Qed.

(** *** Calls of the manager *)

Lemma with_manager_state {A} (f : stm (ConsensusManager St) Empty_set A) e :
  (Eng.with_manager f e).1 = Eng.set_manager (f (consensus_manager e)).1 e ∧
  match (Eng.with_manager f e).2 with
  | Ok a => (f (consensus_manager e)).2 = Ok a
  | Err _ => False
  | Panic => (f (consensus_manager e)).2 = Panic
  end.
Proof. unfold Eng.with_manager. by destruct (f (consensus_manager e)) as [m [a|[]|]]. Qed.

Lemma micros_manager {A} sealed o (f : stm (ConsensusManager St) Empty_set A) e :
  (∀ m, (f m).1 = run_mop o m) → mop_plain o → (sealed = true → mop_signed (validator_set e) o) →
  micros sealed [] e (Eng.with_manager f e).1.
Proof.
  intros Hf Hp Hs. destruct (with_manager_state f e) as [-> _]. rewrite Hf. by apply micros_one, mi_manager.
Qed.

Lemma micros_vote sealed id now e : micros sealed [] e (Eng.vote_for_cf id now e).1.
Proof.
  assert (Hv : (Eng.vote_for_cf id now e).1 =
    Eng.set_manager (run_mop (OpVote ED id true (private_key e) now) (consensus_manager e)) e).
  { unfold Eng.vote_for_cf. cbn. by destruct (CM.vote_for_cf _ _ _ _ _). }
  rewrite Hv. by apply micros_one, mi_manager.
Qed.

Lemma micros_quiet sealed e e' : quiet e e' → micros sealed [] e e'.
Proof. intros. by apply micros_one, mi_quiet. Qed.

Lemma micros_propose sealed backup frame now e : micros sealed [] e (Eng.propose backup frame now e).1.
Proof.
  unfold Eng.propose. pose proof (micros_vote sealed (cf_id frame) now e) as Hv.
  destruct (Eng.vote_for_cf _ _ _) as [e1 [v|]]; cbn [fst] in Hv |- *.
  2: { eapply micros_then; [exact Hv|]. apply micros_quiet, quiet_announce. }
  pose proof (micros_manager sealed (OpCheck (cf_id frame) now)
    (CM.classify_finalization (cf_id frame) now) e1 (fun _ => eq_refl) I (fun _ => I)) as Hc.
  destruct (Eng.with_manager _ e1) as [e2 [o|x|]]; cbn [fst] in Hc |- *; (eapply micros_then; [exact Hv|]);
    [|exact Hc..]. eapply micros_then; [exact Hc|]. apply micros_quiet.
  etrans; [|apply quiet_announce]. destruct (is_finalized o); [apply quiet_inline|done].
Qed.

Lemma micros_created sealed backup now (f : stm (ConsensusManager St) Empty_set (option ConsensusFrame)) o e :
  (∀ m, (f m).1 = run_mop o m) → mop_plain o → (sealed = true → mop_signed (validator_set e) o) →
  micros sealed [] e ((let! cf := Eng.with_manager f in Eng.propose_created backup now cf) e).1.
Proof.
  intros Hf Hp Hs. pose proof (micros_manager sealed o f e Hf Hp Hs) as Hm. unfold sbind.
  destruct (Eng.with_manager f e) as [e1 [[frame|]|x|]]; cbn in Hm |- *; [|done..].
  eapply micros_then; [exact Hm|]. unfold sbind.
  pose proof (micros_propose sealed backup frame now e1) as Hpr.
  by destruct (Eng.propose backup frame now e1) as [e2 []].
Qed.

Lemma micros_try_create sealed now e : micros sealed [] e (Eng.try_create_cf now e).1.
Proof.
  unfold Eng.try_create_cf. destruct (negb _); [constructor|]. destruct (negb _); [constructor|].
  by eapply (micros_created _ _ _ _ (OpPropose _ _ _ _)).
Qed.

Lemma micros_heartbeat sealed interval now e : micros sealed [] e (Eng.try_create_cf_heartbeat interval now e).1.
Proof.
  unfold Eng.try_create_cf_heartbeat. destruct (negb _); [constructor|].
  by eapply (micros_created _ _ _ _ (OpHeartbeat _ _ _ _ _)).
Qed.

Lemma micros_admit sealed after envs event now e :
  (∀ i, tame (envs i)) → (∀ e, quiet e (after e)) → micros sealed [] e (Eng.admit_event after envs event now e).1.
Proof.
  intros Ht Ha. unfold Eng.admit_event.
  set (e1 := Eng.tick _ _). assert (H1 : quiet e e1) by (unfold e1; etrans; apply quiet_clock).
  pose proof (quiet_insert e1 envs event Ht) as Hi. destruct (Eng.insert_event _ _ _) as [e2 r]. cbn in Hi.
  assert (H2 : quiet e e2) by by etrans. destruct r as [id|[]|]; try by apply micros_quiet.
  eapply micros_cons; [apply mi_quiet; etrans; [exact H2|apply Ha]|]. unfold sbind.
  pose proof (micros_try_create sealed now (after e2)) as Hc. by destruct (Eng.try_create_cf now (after e2)) as [e3 []].
Qed.

Lemma micros_handle sealed e : micros sealed [] e (Eng.handle_finalization e).1.
Proof.
  unfold Eng.handle_finalization. destruct (CM.last_finalized_cf _) as [cf|] eqn:Hl; [|constructor].
  eapply micros_cons; [apply mi_quiet; apply quiet_min_depth|]. eapply micros_cons; [apply mi_quiet; apply quiet_finalize_dag|].
  eapply micros_cons; [apply mi_quiet; apply quiet_persist|]. apply micros_one. by apply (mi_queue sealed _ cf).
Qed.

Lemma micros_outcome sealed o e : micros sealed [] e (Eng.after_outcome o e).1.
Proof.
  unfold Eng.after_outcome. destruct (is_finalized o); [|constructor].
  pose proof (micros_handle sealed e) as Hh. by destruct (Eng.handle_finalization e).
Qed.

Lemma micros_vote_on sealed cf now e :
  (sealed = true → votes_signed (validator_set e) cf) → micros sealed [] e (Eng.vote_on_cf cf now e).1.
Proof.
  intros Hs. unfold Eng.vote_on_cf. destruct (CM.has_cf _ _); [constructor|]. destruct (negb _); [constructor|].
  eapply micros_cons; [apply (mi_manager _ _ (OpCfEvents (dm_dag (dag_manager e)) cf)); done|].
  eapply micros_cons; [apply (mi_manager _ _ (OpReceiveCf cf)); done|]. cbn [run_mop].
  match goal with |- context [Eng.vote_for_cf _ _ ?x] => set (e1 := x) end.
  assert (He1 : e1 = Eng.set_manager (CM.receive_cf cf (consensus_manager
    (Eng.set_manager (CM.apply_cf_state_changes (dm_dag (dag_manager e)) cf (consensus_manager e)).1 e)))
    (Eng.set_manager (CM.apply_cf_state_changes (dm_dag (dag_manager e)) cf (consensus_manager e)).1 e)) by done.
  rewrite <-He1. pose proof (micros_vote sealed (cf_id cf) now e1) as Hv.
  destruct (Eng.vote_for_cf _ _ e1) as [e2 [v|]]; cbn in Hv |- *; [|done]. eapply micros_then; [exact Hv|].
  eapply (micros_cons _ _ _ (Eng.broadcast (BroadcastVote v) e2)); [by apply mi_quiet, quiet_broadcast|]. unfold sbind.
  pose proof (micros_manager sealed (OpCheck (cf_id cf) now) (CM.classify_finalization (cf_id cf) now)
    (Eng.broadcast (BroadcastVote v) e2) (fun _ => eq_refl) I (fun _ => I)) as Hc.
  destruct (Eng.with_manager _ _) as [e3 [o|x|]]; cbn [fst] in Hc |- *; [|exact Hc..]. eapply micros_then; [exact Hc|].
  pose proof (micros_outcome sealed o e3) as Ho. by destruct (Eng.after_outcome o e3) as [e4 []].
Qed.

Lemma micros_finalize_received sealed cf now e :
  (sealed = true → votes_signed (validator_set e) cf ∧ well_keyed cf) → micros sealed [] e (Eng.finalize_received cf now e).1.
Proof.
  intros Hs. unfold Eng.finalize_received. destruct (CM.is_finalized_cf _ _); [constructor|].
  destruct (negb _); [constructor|].
  eapply micros_cons; [apply (mi_manager _ _ (OpCfEvents (dm_dag (dag_manager e)) cf)); done|]. cbn [run_mop].
  set (e1 := Eng.set_manager _ e). unfold sbind.
  pose proof (micros_manager sealed (OpReceiveFinalized cf now) (CM.receive_finalized_cf cf now) e1
    (fun _ => eq_refl) I Hs) as Hm.
  destruct (Eng.with_manager _ e1) as [e2 [o|x|]]; cbn [fst] in Hm |- *; [|exact Hm..]. eapply micros_then; [exact Hm|].
  apply micros_outcome.
Qed.

(** ** Signatures *)

Lemma find_validator_lookup vs id : vs_keyed vs → find_validator vs id = validators vs !! id.
Proof.
  intros Hk. unfold find_validator.
  destruct (List.find _ _) as [v|] eqn:Hf.
  - apply List.find_some in Hf as [Hin Hid%bool_decide_eq_true]. apply list_elem_of_In, list_elem_of_fmap in Hin as ([k v'] & -> & Hin).
    apply elem_of_map_to_list in Hin. cbn in *. pose proof (Hk _ _ Hin) as Hn. rewrite Hid in Hn. by subst k.
  - destruct (validators vs !! id) as [v|] eqn:Hv; [|done]. exfalso.
    assert (Hin : v ∈ (map_to_list (validators vs)).*2).
    { apply list_elem_of_fmap. exists (id, v). split; [done|]. by apply elem_of_map_to_list. }
    apply list_elem_of_In in Hin. pose proof (List.find_none _ _ Hf v Hin) as Hn. cbn in Hn.
    apply bool_decide_eq_false in Hn. by destruct (Hn (Hk _ _ Hv)).
Qed.

Lemma policy_strict e v key :
  strict_vote_signatures e = true → Eng.verify_vote_signature_policy e v key = Ok tt → Vt.verify_signature v key = true.
Proof.
  intros Hs. unfold Eng.verify_vote_signature_policy. rewrite Hs.
  destruct (bool_decide _); [done|]. destruct (bool_decide _); [done|]. by destruct (Vt.verify_signature v key).
Qed.

Lemma signed_by_found vs k info v :
  vs_keyed vs → find_validator vs k = Some info → Vt.verify_signature v (node_public_key (vi_node info)) = true →
  signed_by vs k v.
Proof.
  intros Hk. rewrite find_validator_lookup by done. intros Hi Hv. eexists. split; [|exact Hv].
  unfold pubkeys. by rewrite lookup_fmap, Hi.
Qed.

Definition sealed_ok e : Prop := strict_vote_signatures e = true ∧ vs_keyed (validator_set e).

Lemma filtered_signed e cf :
  sealed_ok e → votes_signed (validator_set e) (Eng.filter_embedded_votes_for_strict_mode e cf).
Proof.
  intros [Hs Hk] k v. unfold Eng.filter_embedded_votes_for_strict_mode. rewrite Hs. cbn.
  case_bool_decide as He; cbn; [by rewrite He, lookup_empty|].
  intros [Hv Hkeep]%map_lookup_filter_Some. cbn in Hkeep. unfold Eng.keep_vote in Hkeep.
  case_bool_decide; [done|]. split; [done|].
  destruct (find_validator _ k) as [info|] eqn:Hf; [|done]. cbn zeta in Hkeep. destruct (_ || _); [done|].
  eapply signed_by_found; [done|exact Hf|exact Hkeep].
Qed.

Lemma verify_votes_signed e id l :
  sealed_ok e → Eng.verify_votes e id l = Ok tt →
  ∀ v, v ∈ l → v_cf_id v = id ∧ signed_by (validator_set e) (v_validator_id v) v.
Proof.
  intros [Hs Hk]. induction l as [|v l IH]; cbn; [by intros _ v ?%not_elem_of_nil|].
  case_bool_decide; [done|]. destruct (find_validator _ _) as [info|] eqn:Hf; [|done].
  destruct (Eng.verify_vote_signature_policy e v _) as [[]| |] eqn:Hp; [|done..]. cbn. intros Hr v' [->|Hin]%elem_of_cons.
  - split; [done|]. eapply signed_by_found; [done..|]. by eapply policy_strict.
  - by apply IH.
Qed.

Lemma finalized_votes_signed e cf :
  sealed_ok e → well_keyed cf → Eng.verify_finalized_cf_votes cf e = Ok tt → votes_signed (validator_set e) cf.
Proof.
  intros He Hw. unfold Eng.verify_finalized_cf_votes. destruct (negb _); [done|]. intros Hv k v Hkv.
  rewrite <-(Hw _ _ Hkv). eapply verify_votes_signed; [done..|]. apply list_elem_of_fmap. exists (k, v).
  split; [done|]. by apply elem_of_map_to_list.
Qed.

(** *** The validators of a sealed engine do not change *)

Lemma set_leader_nodes id vs k :
  vi_node <$> validators (VS.set_leader id vs) !! k = vi_node <$> validators vs !! k.
Proof. cbn. rewrite map_lookup_imap. by destruct (validators vs !! k). Qed.

Lemma advance_nodes vs k : vi_node <$> validators (VS.advance_round vs) !! k = vi_node <$> validators vs !! k.
Proof.
  unfold VS.advance_round, VS.set_round, VS.update_leader_for_round.
  destruct (VS.leader_for_round _ _); [by rewrite set_leader_nodes|done].
Qed.

(** Same ids and nodes. *)
Definition same_nodes (vs vs' : ValidatorSet) : Prop :=
  ∀ k, vi_node <$> validators vs' !! k = vi_node <$> validators vs !! k.

Lemma same_nodes_keyed vs vs' : same_nodes vs vs' → vs_keyed vs → vs_keyed vs'.
Proof.
  intros Hn Hk k v Hv. specialize (Hn k). rewrite Hv in Hn. cbn in Hn.
  destruct (validators vs !! k) as [v0|] eqn:H0; [|done]. injection Hn as ->. by apply Hk.
Qed.

Lemma same_nodes_pubkeys vs vs' : same_nodes vs vs' → pubkeys vs' = pubkeys vs.
Proof.
  intros Hn. apply map_eq. intros k. unfold pubkeys. rewrite !lookup_fmap. specialize (Hn k).
  destruct (validators vs' !! k), (validators vs !! k); cbn in *; congruence.
Qed.

Lemma same_nodes_count vs vs' : same_nodes vs vs' → VS.count vs' = VS.count vs.
Proof.
  intros Hn. unfold VS.count. rewrite <-!(size_dom (D := gset string)). f_equal. apply set_eq. intros k.
  rewrite !elem_of_dom. specialize (Hn k). destruct (validators vs' !! k), (validators vs !! k); cbn in *;
    try done; split; intros []; eauto; congruence.
Qed.

(** What a completed entry leaves alone. *)
Record completed e e' : Prop := mkCompleted {
  co_mgr : consensus_manager e' = consensus_manager e;
  co_local : en_local_id e' = en_local_id e;
  co_strict : strict_vote_signatures e' = strict_vote_signatures e;
  co_dm : dag_manager e' = dag_manager e;
  co_comp : pending_completions e' = pending_completions e;
  co_nodes : same_nodes (validator_set e) (validator_set e')
}.

#[local] Instance completed_refl : Reflexive completed.
Proof. by constructor. Qed.
#[local] Instance completed_trans : Transitive completed.
Proof. intros e1 e2 e3 [] []. constructor; congruence. Qed.

Lemma complete_entry_keeps e c : completed e (Eng.complete_entry e c).
Proof.
  unfold Eng.complete_entry.
  set (e1 := Eng.broadcast _ _). assert (H1 : completed e e1).
  { unfold e1, Eng.broadcast, Eng.notify, Eng.send_legacy_message.
    destruct (_ <? _)%nat; cbn; destruct (finalization_tx e); cbn; destruct (broadcaster e); by constructor. }
  destruct (_ =? _)%Z; [|exact H1]. etrans; [exact H1|]. split; try reflexivity. exact (advance_nodes (validator_set e1)).
Qed.

Lemma complete_entries_keep e cs : completed e (foldl Eng.complete_entry e cs).
Proof. revert e. induction cs as [|c cs IH]; intros e; [done|]. cbn. etrans; [apply complete_entry_keeps|apply IH]. Qed.

Lemma micro_sealed l e e' :
  micro true l e e' → sealed_ok e →
  sealed_ok e' ∧ same_nodes (validator_set e) (validator_set e') ∧ en_local_id e' = en_local_id e.
Proof.
  intros Hm [Hs Hk]. destruct Hm as [e e' Hq|e o _ _|e cf _|e a|e|e|e info]; try done.
  - destruct Hq as [_ Hvs Hl Hst _ _ _]. unfold sealed_ok. rewrite Hvs. by split_and!; try apply Hst.
  - unfold Eng.complete_pending_finalizations.
    destruct (complete_entries_keep
      (Eng.set_completions (filter (fun c => ce_persisted c = false) (pending_completions e)) e)
      (filter (fun c => ce_persisted c = true) (pending_completions e))) as [_ Hl Hst _ _ Hn].
    split_and!; [split; [by rewrite Hst|by eapply same_nodes_keyed]|done|done].
  - assert (Hn : same_nodes (validator_set e) (VS.advance_round (validator_set e))) by (intros k; apply advance_nodes).
    split_and!; [split; [done|by eapply same_nodes_keyed]|done|done].
Qed.

Lemma micros_sealed l e e' :
  micros true l e e' → sealed_ok e →
  sealed_ok e' ∧ same_nodes (validator_set e) (validator_set e') ∧ en_local_id e' = en_local_id e.
Proof.
  induction 1 as [e|l1 e1 e2 e3 H1 _ H2 IH]; [by intros He; split_and!|]. intros He.
  destruct (micro_sealed _ _ _ H1 He) as (He2 & Hn & Hl). destruct (IH He2) as (? & Hn' & ?).
  split_and!; [done| |congruence]. intros k. by rewrite Hn'.
Qed.

Lemma votes_signed_nodes vs vs' cf : same_nodes vs vs' → votes_signed vs cf → votes_signed vs' cf.
Proof. intros Hn Hv k v Hkv. unfold signed_by. rewrite (same_nodes_pubkeys vs vs') by done. by apply Hv. Qed.

(** ** Every operation is a sequence of steps *)

(** Sealed runs add no validators, and a finalized frame that is received names
    each voter under its own id. *)
Definition op_sealed (o : eop) : Prop :=
  match o with
  | OAddValidator _ => False
  | OReceiveFinalizedCf _ _ cf _ => well_keyed cf
  | _ => True
  end.

Definition run_sound (o : eop) : Prop := ∀ e sealed,
  op_all op_tame o → (sealed = true → sealed_ok e ∧ op_all op_sealed o) → micros sealed (marks o) e (run_op o e).

Lemma runs_sound ops : Forall run_sound ops → ∀ e sealed,
  fold_right (fun o p => op_all op_tame o ∧ p) True ops →
  (sealed = true → sealed_ok e ∧ fold_right (fun o p => op_all op_sealed o ∧ p) True ops) →
  micros sealed (fold_right (fun o l => marks o ++ l) [] ops) e (run_ops ops e).
Proof.
  induction 1 as [|o ops Ho _ IH]; intros e sealed Ht Hs; [constructor|].
  change (run_ops (o :: ops) e) with (run_ops ops (run_op o e)). destruct Ht as [Ht1 Ht2].
  assert (H1 : micros sealed (marks o) e (run_op o e)).
  { apply Ho; [done|]. intros Hb. by destruct (Hs Hb) as (? & ? & _). }
  cbn [fold_right]. eapply micros_then; [eapply micros_weaken, H1; set_solver|].
  eapply micros_weaken, IH; [set_solver|done|]. intros ->. destruct (Hs eq_refl) as (? & _ & ?).
  split; [|done]. by eapply micros_sealed.
Qed.

Lemma receive_cf_sound sealed peers env cf now e l :
  (∀ r i j, tame (Eng.fetch_envs peers r i j)) → (sealed = true → sealed_ok e) →
  (∀ e, (sealed = true → sealed_ok e) → micros sealed l e (env e)) →
  micros sealed l e (Eng.receive_cf peers env cf now e).1.
Proof.
  intros Ht Hs Henv. unfold Eng.receive_cf, sbind, slift.
  destruct (negb _); [constructor|]. destruct (negb _); [constructor|].
  destruct (_ <? _)%Z; [constructor|]. destruct (_ <? _)%Z; [constructor|].
  destruct (Eng.check_chain_root cf e); [|constructor..]. destruct (CM.has_cf _ _); [constructor|].
  pose proof (quiet_ensure peers cf now e Ht) as Hq.
  destruct (Eng.ensure_cf_events_available peers cf now e) as [e1 []]; cbn [fst] in Hq |- *;
    (eapply micros_cons; [apply mi_quiet, Hq|]); [|constructor..].
  assert (Hs1 : sealed = true → sealed_ok e1).
  { intros ->. eapply (micro_sealed []); [apply mi_quiet, Hq|by apply Hs]. }
  destruct (_ && _); [constructor|]. specialize (Henv e1 Hs1). eapply micros_then; [exact Henv|].
  apply micros_nil, micros_vote_on. intros ->. eapply votes_signed_nodes; [by eapply micros_sealed, Hs1|].
  by apply filtered_signed, Hs1.
Qed.

Lemma receive_finalized_sound sealed peers env cf now e l :
  (∀ r i j, tame (Eng.fetch_envs peers r i j)) → (sealed = true → sealed_ok e ∧ well_keyed cf) →
  (∀ e, (sealed = true → sealed_ok e) → micros sealed l e (env e)) →
  micros sealed l e (Eng.receive_finalized_cf peers env cf now e).1.
Proof.
  intros Ht Hs Henv. unfold Eng.receive_finalized_cf, sbind, slift. destruct (negb _); [constructor|].
  destruct (Eng.verify_finalized_cf_votes cf e) as [[]| |] eqn:Hv; [|constructor..].
  destruct (CM.is_finalized_cf _ _); [constructor|]. destruct (Eng.check_chain_root cf e); [|constructor..].
  pose proof (quiet_ensure peers cf now e Ht) as Hq.
  destruct (Eng.ensure_cf_events_available peers cf now e) as [e1 []]; cbn [fst] in Hq |- *;
    (eapply micros_cons; [apply mi_quiet, Hq|]); [|constructor..].
  assert (Hs1 : sealed = true → sealed_ok e1).
  { intros ->. eapply (micro_sealed []); [apply mi_quiet, Hq|by apply Hs]. }
  specialize (Henv e1 Hs1). eapply micros_then; [exact Henv|].
  apply micros_nil, micros_finalize_received. intros ->. destruct (Hs eq_refl). split; [|done].
  eapply votes_signed_nodes; [by eapply micros_sealed, Hs1|]. rewrite (q_vs _ _ Hq). by apply finalized_votes_signed.
Qed.

Lemma op_sound o : run_sound o.
Proof.
  induction o as [peers between cf now IH|peers between cf now IH|o Ho] using eop_ind'; intros e sealed Ht Hs.
  - destruct Ht as [Ht Hb]. cbn [run_op marks]. apply receive_cf_sound; [done|by intros ->; apply Hs|].
    intros e1 Hs1. apply (runs_sound _ IH); [done|]. intros ->. split; [by apply Hs1|]. by apply (Hs eq_refl).
  - destruct Ht as [Ht Hb]. cbn [run_op marks]. apply receive_finalized_sound; [done| |].
    + intros ->. split; [by apply Hs|]. by destruct (Hs eq_refl) as (_ & ? & _).
    + intros e1 Hs1. apply (runs_sound _ IH); [done|]. intros ->. split; [by apply Hs1|]. by apply (Hs eq_refl).
  - destruct o; cbn [run_op marks]; try by destruct (Ho peers between cf now).
    + apply micros_admit; [apply Ht|]. intros e1. quiet_chain.
    + apply micros_admit; [apply Ht|done].
    + apply micros_try_create.
    + apply micros_heartbeat.
    + unfold Eng.receive_vote. destruct (find_validator _ _) as [info|] eqn:Hf; [|constructor]. unfold sbind, slift.
      destruct (Eng.verify_vote_signature_policy _ _ _) as [[]| |] eqn:Hp; [|constructor..].
      pose proof (micros_manager sealed (OpReceiveVote v now) (CM.receive_vote v now) e (fun _ => eq_refl) I) as Hm.
      assert (Hsig : sealed = true → mop_signed (validator_set e) (OpReceiveVote v now)).
      { intros ->. destruct (Hs eq_refl) as [[H1 H2] _]. eapply signed_by_found; [done..|]. by eapply policy_strict. }
      specialize (Hm Hsig). destruct (Eng.with_manager _ e) as [e1 [oc|x|]]; cbn [fst] in Hm |- *; [|exact Hm..].
      eapply micros_then; [exact Hm|apply micros_outcome].
    + apply micros_one, mi_mark.
    + apply micros_one, mi_complete.
    + apply micros_quiet. apply quiet_persist.
    + apply micros_quiet. apply quiet_persist.
    + apply micros_quiet. apply quiet_persist.
    + apply micros_one, mi_validator. destruct sealed; [|done]. by destruct (Hs eq_refl) as (_ & [] & _).
    + unfold Eng.advance_round. eapply micros_cons; [apply mi_round|]. apply micros_quiet. cbn [fst].
      destruct (leader_id _); [apply quiet_legacy|done].
    + apply micros_one. by apply (mi_manager _ _ (OpCleanup now)).
    + apply micros_quiet. apply quiet_clock.
    + apply micros_quiet. apply quiet_clock.
    + apply micros_quiet. apply quiet_clock.
    + apply micros_quiet. destruct key; by constructor.
    + apply micros_quiet. by constructor.
    + apply micros_quiet. by constructor.
    + apply micros_quiet. by constructor.
Qed.

(** ** Invariants *)

(** What the manager never changes by itself. *)
Lemma gc_local (m : ConsensusManager St) : local_validator_id (CM.gc_finalized_cfs m) = local_validator_id m.
Proof.
  unfold CM.gc_finalized_cfs. destruct (length _ <=? MAX_FINALIZED_CFS)%nat; [reflexivity|].
  by destruct (CM.gc_retain _ _ _).
Qed.

Lemma classify_frame id now (m : ConsensusManager St) :
  local_validator_id (CM.classify_finalization id now m).1 = local_validator_id m ∧
  cm_config (CM.classify_finalization id now m).1 = cm_config m.
Proof.
  unfold CM.classify_finalization. destruct (pending_cfs m !! id) as [cf|]; [|done].
  destruct (CM.decide_cf _ cf now) as [[]|]; try done.
  destruct (apply_finalized_frame id (CF.finalize cf now) now (CM.set_cfs (delete id) m))
    as (H1 & _ & _ & _ & _ & _ & _ & _ & H2 & _).
  destruct (CM.apply_finalized _ _ now _) as [m1 [[]| |]]; cbn in *; try done.
  split; [by rewrite gc_local|]. by destruct (gc_frame (CM.set_finalized (finalized_cfs m1 ++ [CF.finalize cf now])
    (persisted_anchor_ids m1) (CM.set_failure None m1))) as [-> _].
Qed.

Lemma cleanup_frame ids (m : ConsensusManager St) :
  local_validator_id (foldl CM.cleanup_one m ids) = local_validator_id m ∧
  cm_config (foldl CM.cleanup_one m ids) = cm_config m.
Proof.
  revert m. induction ids as [|id ids IH]; intros m; [done|]. cbn [foldl]. destruct (IH (CM.cleanup_one m id)) as [-> ->].
  unfold CM.cleanup_one. destruct (pending_cfs m !! id); cbn;
    (destruct (last_apply_failure m); [case_bool_decide|]; done).
Qed.

Lemma run_mop_frame o (m : ConsensusManager St) :
  mop_plain o →
  local_validator_id (run_mop o m) = local_validator_id m ∧ cm_config (run_mop o m) = cm_config m.
Proof.
  assert (Hr : ∀ cf m, local_validator_id (CM.receive_cf cf m) = local_validator_id m ∧
                       cm_config (CM.receive_cf (St := St) cf m) = cm_config m).
  { intros cf m0. unfold CM.receive_cf. destruct (pending_cfs m0 !! _); [done|]. by destruct (buffered_votes m0 !! _). }
  destruct o; cbn; try done; intros _.
  - unfold CM.try_create_cf. destruct (negb _); [done|]. by destruct (AB.prepare_build _ _ _ _ _).
  - unfold CM.try_create_cf_heartbeat. destruct (negb _); [done|]. by destruct (AB.prepare_build_heartbeat _ _ _ _ _ _).
  - unfold CM.receive_finalized_cf. destruct (CM.is_finalized_cf m _); [done|].
    cbn zeta. match goal with |- context [CM.classify_finalization ?i ?n ?x] => pose proof (classify_frame i n x) as [-> ->] end.
    destruct (pending_cfs m !! _); [done|apply Hr].
  - unfold CM.vote_for_cf. destruct (pending_cfs m !! id); [|done]. by case_bool_decide.
  - unfold CM.receive_vote. destruct (pending_cfs m !! v_cf_id v); [|done]. case_bool_decide; [done|].
    match goal with |- context [CM.classify_finalization ?i ?n ?x] => by pose proof (classify_frame i n x) as [-> ->] end.
  - apply classify_frame.
  - apply cleanup_frame.
Qed.

(** The invariant of the engine; [M] are the anchors reported as persisted. *)
Record engine_inv (M : list AnchorId) e : Prop := mkEngineInv {
  ei_mgr : Inv (consensus_manager e);
  ei_local : local_validator_id (consensus_manager e) = en_local_id e;
  ei_count : validator_count (cm_config (consensus_manager e)) = VS.count (validator_set e);
  ei_dag : dag_wf (dm_dag (dag_manager e));
  ei_keyed : vs_keyed (validator_set e);
  ei_entries : Forall (fun c => ce_anchor_id c = a_id (cf_anchor (ce_cf c)) ∧ cf_status (ce_cf c) = CFFinalized ∧
                                (ce_persisted c = true → ce_anchor_id c ∈ M)) (pending_completions e);
  ei_sent : ∀ cf, BroadcastFinalized cf ∈ outbox e → a_id (cf_anchor cf) ∈ M ∧ cf_status cf = CFFinalized
}.

Lemma complete_entry_sent e c cf :
  BroadcastFinalized cf ∈ outbox (Eng.complete_entry e c) → BroadcastFinalized cf ∈ outbox e ∨ cf = ce_cf c.
Proof.
  unfold Eng.complete_entry. set (e0 := Eng.notify _ _).
  assert (H0 : BroadcastFinalized cf ∈ outbox e0 → BroadcastFinalized cf ∈ outbox e).
  { apply q_out. unfold e0. etrans; [apply quiet_legacy|apply quiet_notify]. }
  assert (H1 : outbox (Eng.broadcast (BroadcastFinalized (ce_cf c)) e0) = outbox e0 ∨
               outbox (Eng.broadcast (BroadcastFinalized (ce_cf c)) e0) = outbox e0 ++ [BroadcastFinalized (ce_cf c)]).
  { unfold Eng.broadcast. destruct (broadcaster e0); [by right|by left]. }
  destruct (_ =? _)%Z; cbn [Eng.set_validators outbox]; (destruct H1 as [-> | ->];
    [intros Hin; left; by apply H0
    |intros [Hin|[= ->]%list_elem_of_singleton]%elem_of_app; [left; by apply H0|by right]]).
Qed.

Lemma complete_entries_sent e cs cf :
  BroadcastFinalized cf ∈ outbox (foldl Eng.complete_entry e cs) →
  BroadcastFinalized cf ∈ outbox e ∨ ∃ c, c ∈ cs ∧ cf = ce_cf c.
Proof.
  revert e. induction cs as [|c cs IH]; intros e; cbn; [by left|]. intros [Hin|(c' & ? & ->)]%IH.
  - destruct (complete_entry_sent _ _ _ Hin) as [?| ->]; [by left|]. right. exists c. split; [by left|done].
  - right. exists c'. split; [by right|done].
Qed.

Lemma micro_inv sealed l M e e' : micro sealed l e e' → l ⊆ M → engine_inv M e → engine_inv M e'.
Proof.
  intros Hm Hl [Hi Hloc Hc Hd Hk He Hs]. destruct Hm as [e e' Hq|e o Hp _|e cf Hcf|e a|e|e|e info].
  - destruct Hq as [Q1 Q2 Q3 _ Q5 Q6 Q7]. constructor; rewrite ?Q1, ?Q2, ?Q3, ?Q5; auto.
  - destruct (run_mop_frame o (consensus_manager e) Hp) as [F1 F2].
    constructor; cbn; rewrite ?F1, ?F2; auto. by apply inv_run_mop.
  - constructor; cbn; auto. apply Forall_app. split; [done|]. constructor; [|done]. cbn. split_and!; [done| |done].
    pose proof (inv_final _ Hi) as Hf. rewrite list.Forall_forall in Hf. apply Hf.
    unfold CM.last_finalized_cf in Hcf. by apply list.last_Some_elem_of.
  - constructor; cbn; auto; [by apply (inv_run_mop (OpPersisted a))|]. apply Forall_fmap.
    eapply list.Forall_impl; [exact He|]. intros c (H1 & H2 & H3). unfold Eng.mark_entry. cbn.
    case_bool_decide as Ha; cbn; [|done]. split_and!; [done..|]. intros _. rewrite Ha. set_solver.
  - unfold Eng.complete_pending_finalizations. set (e0 := Eng.set_completions _ e). set (cs := filter _ _).
    destruct (complete_entries_keep e0 cs) as [K1 K2 K3 K4 K5 K6].
    constructor; rewrite ?K1, ?K2, ?K4, ?K5; auto.
    + by rewrite (same_nodes_count (validator_set e0)).
    + by eapply same_nodes_keyed.
    + apply list.Forall_forall. intros c [_ Hin]%list_elem_of_filter. revert c Hin. by apply list.Forall_forall.
    + intros cf [?|(c & Hin & ->)]%complete_entries_sent; [by apply Hs|].
      apply list_elem_of_filter in Hin as [Hpe Hin]. rewrite list.Forall_forall in He.
      destruct (He c Hin) as (H1 & H2 & H3). rewrite <-H1. by split; [apply H3|].
  - assert (Hn : same_nodes (validator_set e) (VS.advance_round (validator_set e))) by (intros k; apply advance_nodes).
    constructor; cbn; auto; [by rewrite (same_nodes_count (validator_set e))|by eapply same_nodes_keyed].
  - constructor; cbn; auto; [by eapply inv_same; [|exact Hi]|].
    intros k v. unfold VS.add_validator, VS.rebuild_election. cbn [validators].
    intros [[<- <-]|[_ Hv]]%lookup_insert_Some; [by case_bool_decide|by apply Hk].
Qed.

Lemma micros_inv sealed l e e' : micros sealed l e e' → engine_inv l e → engine_inv l e'.
Proof. induction 1; [done|]. intros Hi. apply IHmicros. by eapply micro_inv. Qed.

Lemma engine_inv_weaken M M' e : M ⊆ M' → engine_inv M e → engine_inv M' e.
Proof.
  intros Hm [Hi Hloc Hc Hd Hk He Hs]. constructor; auto.
  - eapply list.Forall_impl; [exact He|]. intros c (H1 & H2 & H3). split_and!; auto.
  - intros cf Hcf. destruct (Hs cf Hcf). auto.
Qed.

(** *** Signed votes *)

Lemma Forall_sublist {A} (P : A → Prop) (l l' : list A) : l `sublist_of` l' → Forall P l' → Forall P l.
Proof. intros Hl. rewrite !list.Forall_forall. intros Hf x Hx. by eapply Hf, elem_of_sublist. Qed.

Definition vote_ok (vs : ValidatorSet) (local : string) (id : CFId) (k : string) (v : Vote) : Prop :=
  v_cf_id v = id ∧ (k = local ∨ signed_by vs k v).
Definition frame_ok (vs : ValidatorSet) (local : string) (cf : ConsensusFrame) : Prop :=
  map_Forall (vote_ok vs local (cf_id cf)) (cf_votes cf).

Record votes_ok (vs : ValidatorSet) (m : ConsensusManager St) : Prop := mkVotesOk {
  vo_pending : map_Forall (fun _ cf => frame_ok vs (local_validator_id m) cf) (pending_cfs m);
  vo_buffered : map_Forall (fun _ l => Forall (fun v => signed_by vs (v_validator_id v) v) l) (buffered_votes m);
  vo_final : Forall (fun cf => frame_ok vs (local_validator_id m) cf ∧
                               CF.check_quorum cf (validator_count (cm_config m)) = true) (finalized_cfs m)
}.

Lemma frame_add_vote vs local cf v :
  frame_ok vs local cf → vote_ok vs local (cf_id cf) (v_validator_id v) v → frame_ok vs local (CF.add_vote cf v).
Proof. intros Hf Hv. apply map_Forall_insert_2; done. Qed.

Lemma frame_add_votes vs local cf l :
  frame_ok vs local cf → Forall (fun v => vote_ok vs local (cf_id cf) (v_validator_id v) v) l →
  frame_ok vs local (foldl CM.add_first_vote cf l).
Proof.
  revert cf. induction l as [|v l IH]; intros cf Hf Hl; [done|]. apply list.Forall_cons in Hl as [Hv Hl]. cbn. apply IH.
  - unfold CM.add_first_vote. case_bool_decide; [done|by apply frame_add_vote].
  - unfold CM.add_first_vote. by case_bool_decide.
Qed.

Lemma votes_delete vs (m : ConsensusManager St) id : votes_ok vs m → votes_ok vs (CM.discard id m).
Proof. intros [H1 H2 H3]. constructor; cbn; [by apply map_Forall_delete|done|done]. Qed.

Lemma votes_classify vs (m : ConsensusManager St) id now :
  votes_ok vs m → votes_ok vs (CM.classify_finalization id now m).1.
Proof.
  intros Hm. unfold CM.classify_finalization. destruct (pending_cfs m !! id) as [cf|] eqn:Hcf; [|done].
  destruct (CM.decide_cf _ cf now) as [[]|] eqn:Hd; try done; try by apply votes_delete.
  assert (Hq : CF.check_quorum cf (validator_count (cm_config m)) = true).
  { unfold CM.decide_cf in Hd. destruct (CF.check_quorum _ _); [done|].
    destruct (CF.check_rejection _ _); [done|]. by destruct (CF.is_timeout _ _ _). }
  destruct (apply_finalized_frame id (CF.finalize cf now) now (CM.set_cfs (delete id) m))
    as (F1 & _ & F3 & _ & _ & F6 & F7 & _ & F9 & _).
  destruct Hm as [H1 H2 H3]. pose proof (H1 _ _ Hcf) as Hok. cbn in Hok.
  assert (Hm1 : ∀ m1, m1 = (CM.apply_finalized id (CF.finalize cf now) now (CM.set_cfs (delete id) m)).1 → votes_ok vs m1).
  { intros m1 ->. cbn in *. constructor; rewrite ?F1, ?F3, ?F6, ?F7, ?F9; [by apply map_Forall_delete|done|done]. }
  destruct (CM.apply_finalized _ _ now _) as [m1 r]. cbn in *. specialize (Hm1 m1 eq_refl).
  destruct r as [[]|failure|]; cbn; [|by destruct Hm1; constructor|done].
  destruct Hm1 as [M1 M2 M3].
  set (m2 := CM.set_finalized _ _ _). destruct (gc_frame m2) as (G1 & _ & G3 & _ & _ & G6 & _ & _ & G9).
  constructor; rewrite ?G1, ?G3, ?G6, ?gc_local; [exact M1|exact M2|].
  eapply Forall_sublist; [exact G9|]. apply Forall_app. split; [exact M3|].
  apply list.Forall_singleton. cbn. rewrite F1, F9. by split.
Qed.

Lemma votes_receive_cf vs cf (m : ConsensusManager St) :
  Inv m → votes_signed vs cf → votes_ok vs m → votes_ok vs (CM.receive_cf cf m).
Proof.
  intros Hi Hcf [H1 H2 H3]. unfold CM.receive_cf. destruct (pending_cfs m !! cf_id cf) eqn:Hp; [done|].
  assert (Hf : frame_ok vs (local_validator_id m) cf).
  { intros k v Hv. destruct (Hcf k v Hv). split; [done|by right]. }
  destruct (buffered_votes m !! cf_id cf) as [l|] eqn:Hb; constructor; cbn; try done;
    try (apply map_Forall_insert_2; [|done]); try done; [|by apply map_Forall_delete].
  apply frame_add_votes; [done|]. pose proof (H2 _ _ Hb) as Hl. pose proof (inv_buffered _ Hi _ _ Hb) as Hid. cbn in Hl.
  rewrite !list.Forall_forall in *. intros v Hv. split; [by apply Hid|]. right. by apply Hl.
Qed.

Lemma votes_cleanup vs ids (m : ConsensusManager St) : votes_ok vs m → votes_ok vs (foldl CM.cleanup_one m ids).
Proof.
  revert m. induction ids as [|id ids IH]; intros m Hm; [done|]. cbn [foldl]. apply IH. clear IH.
  unfold CM.cleanup_one.
  assert (H1 : votes_ok vs (match pending_cfs m !! id with
                            | Some _ => CM.set_buffered (delete id) (CM.discard id m) | None => m end)).
  { destruct (pending_cfs m !! id); [|done]. destruct (votes_delete vs m id Hm) as [H1 H2 H3].
    constructor; cbn in *; [done|by apply map_Forall_delete|done]. }
  destruct (last_apply_failure _); [case_bool_decide|]; [|done..]. by destruct H1; constructor.
Qed.

(** The vote of the node itself is for the frame and under its own id. *)
Lemma votes_own vs E id approve key now (m : ConsensusManager St) :
  Inv m → votes_ok vs m → votes_ok vs (@CM.vote_for_cf _ E id approve key now m).1.
Proof.
  intros Hi [H1 H2 H3]. unfold CM.vote_for_cf. destruct (pending_cfs m !! id) as [cf|] eqn:Hcf; [|done].
  case_bool_decide; [done|]. cbn. set (v := match key with Some _ => _ | None => _ end).
  assert (Hv : v_validator_id v = local_validator_id m ∧ v_cf_id v = id).
  { unfold v. destruct key as [k|]; [|done]. unfold Vt.sign. by destruct (negb _). }
  constructor; cbn; [|done|done]. apply map_Forall_insert_2; [|done]. apply frame_add_vote; [by apply (H1 id)|].
  rewrite (inv_keyed _ Hi _ _ Hcf). split; [apply Hv|]. left. apply Hv.
Qed.

Lemma votes_created vs r round now (m : ConsensusManager St) :
  votes_ok vs m → votes_ok vs (CM.create_from r round now m).1.
Proof.
  intros [H1 H2 H3]. destruct r as [p| |]; cbn; [|done..]. constructor; cbn; [|done|done].
  by apply map_Forall_insert_2; [apply map_Forall_empty|].
Qed.

Lemma votes_mop vs o (m : ConsensusManager St) :
  Inv m → mop_plain o → mop_signed vs o → votes_ok vs m → votes_ok vs (run_mop o m).
Proof.
  intros Hi Hp Hs Hm. destruct o; cbn [run_mop mop_plain mop_signed] in *; try done.
  - unfold CM.try_create_cf. destruct (negb _); [done|]. by apply votes_created.
  - unfold CM.try_create_cf_heartbeat. destruct (negb _); [done|]. by apply votes_created.
  - by apply votes_receive_cf.
  - destruct Hs as [Hs Hw]. unfold CM.receive_finalized_cf. destruct (CM.is_finalized_cf m _); [done|]. apply votes_classify.
    destruct (pending_cfs m !! cf_id cf) as [c|] eqn:Hc; [|by apply votes_receive_cf].
    pose proof (inv_keyed _ Hi _ _ Hc) as Hid. destruct Hm as [H1 H2 H3]. constructor; cbn; [|done|done].
    apply map_Forall_insert_2; [|done]. apply frame_add_votes; [by apply (H1 (cf_id cf))|].
    apply list.Forall_forall. intros v ([k v'] & -> & Hin)%list_elem_of_fmap. apply elem_of_map_to_list in Hin. cbn in *.
    destruct (Hs _ _ Hin) as [Hv1 Hv2]. rewrite (Hw _ _ Hin), Hid. split; [done|by right].
  - by destruct Hm; constructor.
  - by apply votes_own.
  - unfold CM.receive_vote. destruct (pending_cfs m !! v_cf_id v) as [cf|] eqn:Hcf.
    + case_bool_decide; [done|]. apply votes_classify. destruct Hm as [H1 H2 H3]. constructor; cbn; [|done|done].
      apply map_Forall_insert_2; [|done]. apply frame_add_vote; [by apply (H1 (v_cf_id v))|].
      rewrite (inv_keyed _ Hi _ _ Hcf). split; [done|by right].
    + destruct Hm as [H1 H2 H3]. constructor; cbn; [done| |done]. apply map_Forall_insert_2; [|done].
      apply Forall_app. split; [|by apply list.Forall_singleton]. destruct (buffered_votes m !! v_cf_id v) eqn:Hb; [|done].
      by apply (H2 (v_cf_id v)).
  - by apply votes_classify.
  - by apply votes_cleanup.
Qed.

Lemma votes_ok_nodes vs vs' (m : ConsensusManager St) : same_nodes vs vs' → votes_ok vs m → votes_ok vs' m.
Proof.
  intros Hn [H1 H2 H3]. pose proof (same_nodes_pubkeys vs vs' Hn) as He.
  assert (Hsig : ∀ k v, signed_by vs k v → signed_by vs' k v) by (intros k v; unfold signed_by; by rewrite He).
  assert (Hf : ∀ cf, frame_ok vs (local_validator_id m) cf → frame_ok vs' (local_validator_id m) cf).
  { intros cf Hcf k v Hv. destruct (Hcf k v Hv) as [? [?|?]]; split; auto. }
  constructor.
  - intros k cf Hcf. by eapply Hf, H1.
  - intros k l Hl. eapply list.Forall_impl; [by apply (H2 k)|]. auto.
  - eapply list.Forall_impl; [exact H3|]. intros cf [? ?]. auto.
Qed.

Lemma micro_votes l e e' :
  micro true l e e' → Inv (consensus_manager e) → votes_ok (validator_set e) (consensus_manager e) →
  votes_ok (validator_set e') (consensus_manager e').
Proof.
  intros Hm Hi Hv. destruct Hm as [e e' Hq|e o Hp Hs|e cf Hcf|e a|e|e|e info]; try done.
  - by rewrite (q_mgr _ _ Hq), (q_vs _ _ Hq).
  - by apply votes_mop; [..|apply Hs|].
  - destruct Hv. by constructor.
  - unfold Eng.complete_pending_finalizations.
    destruct (complete_entries_keep
      (Eng.set_completions (filter (fun c => ce_persisted c = false) (pending_completions e)) e)
      (filter (fun c => ce_persisted c = true) (pending_completions e))) as [-> _ _ _ _ Hn].
    by eapply votes_ok_nodes.
  - cbn. eapply votes_ok_nodes; [|exact Hv]. intros k. apply advance_nodes.
Qed.

Lemma micros_votes l e e' :
  micros true l e e' → engine_inv l e → votes_ok (validator_set e) (consensus_manager e) →
  votes_ok (validator_set e') (consensus_manager e').
Proof.
  induction 1 as [e|l1 e1 e2 e3 H1 Hl H2 IH]; [done|]. intros Hi Hv. apply IH; [by eapply micro_inv|].
  eapply micro_votes; [exact H1|apply Hi|done].
Qed.
End engine.
