(* ===== verification/EngineProps.v ===== *)
(** * Properties of the consensus engine *)

From Stdlib Require Import ZArith Lia Strings.Byte.
From stdpp Require Import base gmap sets list strings numbers.
From S2P Require Import Prelude Hash Vlc Event Dag Coin StateStore SparseMerkle MerkleStore StateManager StateProps Overlay ConsensusTypes AnchorBuilder AnchorProps Consensus ConsensusProps Election EventStore DagManager DagManagerProps Engine EngineSteps.
#[local] Open Scope setu_scope.

Section lemmas.
Context {B : Blake3} {X : HexCrate} {SB : StateBcs} {St : Type} {B4 : B4Store St} {ED : Ed25519}.
Context {L Es : Type} {LC : LruCache L} {EB : EventStoreBackend Es}.

Implicit Types e : ConsensusEngine L Es St.

(** The anchors that the calls of a run report as persisted. *)
Definition all_marks (ops : list (eop (L := L) (Es := Es))) : list AnchorId := fold_right (fun o l => marks o ++ l) [] ops.

Lemma fold_right_Forall {A} (P : A → Prop) l : Forall P l → fold_right (fun o p => P o ∧ p) True l.
Proof. by induction 1. Qed.

Lemma run_ops_micros sealed ops e :
  Forall (op_all op_tame) ops → (sealed = true → sealed_ok e ∧ Forall (op_all op_sealed) ops) →
  micros sealed (all_marks ops) e (run_ops ops e).
Proof.
  intros Ht Hs. apply runs_sound; [|by apply fold_right_Forall|].
  - apply list.Forall_forall. intros o _. apply op_sound.
  - intros Hb. destruct (Hs Hb) as [? ?]. split; [done|by apply fold_right_Forall].
Qed.

Lemma built_inv config id vs shared (store : Es) now e :
  Eng.with_stores config id vs shared store now = Ok e → validator_count config = VS.count vs → vs_keyed vs →
  engine_inv [] e ∧ votes_ok vs (consensus_manager e) ∧ validator_set e = vs ∧ pending_completions e = [].
Proof.
  unfold Eng.with_stores, Eng.build. destruct (DM.new _ _ _) as [dm| |] eqn:Hd; [|done..]. cbn. intros [= <-] Hc Hk.
  assert (Hdag : dm_dag dm = D.new).
  { unfold DM.new in Hd. destruct (RC.new _); [|done..]. by injection Hd as <-. }
  split_and!; [|by constructor|done|done].
  constructor; cbn; [apply inv_new|done|done|by rewrite Hdag; apply new_wf|done|done|by intros ? ?%not_elem_of_nil].
Qed.

Lemma run_inv config id vs shared (store : Es) now e ops :
  Eng.with_stores config id vs shared store now = Ok e → validator_count config = VS.count vs → vs_keyed vs →
  Forall (op_all op_tame) ops → engine_inv (all_marks ops) (run_ops ops e).
Proof.
  intros He Hc Hk Ht. destruct (built_inv _ _ _ _ _ _ _ He Hc Hk) as (Hi & _).
  eapply (micros_inv false); [by apply run_ops_micros|]. eapply engine_inv_weaken; [|exact Hi].
  by intros ? ?%not_elem_of_nil.
Qed.

Lemma quorum_approvers cf vs : CF.check_quorum cf (VS.count vs) = true → (VS.quorum_size vs ≤ size (approvers cf))%nat.
Proof. unfold CF.check_quorum. rewrite Nat.leb_le, approve_count_size. done. Qed.

(** ** Completion *)

(** The round after completing frames expected at the rounds of [cs]. *)
Definition rounds_after (r : Z) (cs : list CompletionEntry) : Z :=
  foldl (fun r c => if (r =? ce_expected_round c)%Z then u64_add r 1 else r) r cs.

Lemma advance_round_number vs : current_round (VS.advance_round vs) = u64_add (current_round vs) 1.
Proof.
  unfold VS.advance_round, VS.set_round, VS.update_leader_for_round. by destruct (VS.leader_for_round _ _).
Qed.

Lemma complete_entry_round e c :
  current_round (validator_set (Eng.complete_entry e c)) =
    if (current_round (validator_set e) =? ce_expected_round c)%Z
    then u64_add (current_round (validator_set e)) 1 else current_round (validator_set e).
Proof.
  unfold Eng.complete_entry. set (e1 := Eng.broadcast _ _).
  assert (H1 : validator_set e1 = validator_set e).
  { unfold e1, Eng.broadcast, Eng.notify, Eng.send_legacy_message. destruct (_ <? _)%nat; cbn;
      destruct (finalization_tx e); cbn; by destruct (broadcaster e). }
  rewrite H1. destruct (_ =? _)%Z; cbn; [|by rewrite H1]. by rewrite advance_round_number.
Qed.

Lemma complete_entries_round e cs :
  current_round (validator_set (foldl Eng.complete_entry e cs)) = rounds_after (current_round (validator_set e)) cs.
Proof.
  revert e. induction cs as [|c cs IH]; intros e; [done|]. cbn [foldl]. rewrite IH. unfold rounds_after. cbn [foldl].
  by rewrite complete_entry_round.
Qed.

Lemma u64_succ_ne r : u64_add r 1 ≠ r.
Proof.
  intros Hr. unfold u64_add, wrap64 in Hr. pose proof (Z.mod_pos_bound (r + 1) (2 ^ 64) ltac:(lia)) as Hb. rewrite Hr in Hb.
  pose proof (Z.div_mod (r + 1) (2 ^ 64) ltac:(lia)) as Hd. rewrite Hr in Hd. lia.
Qed.

Lemma rounds_after_same r cs :
  Forall (fun c => ce_expected_round c = r) cs → cs ≠ [] → rounds_after r cs = u64_add r 1.
Proof.
  intros Hall Hne. destruct cs as [|c cs]; [done|]. apply list.Forall_cons in Hall as [Hc Hcs].
  unfold rounds_after. cbn [foldl]. rewrite Hc, Z.eqb_refl. clear Hc Hne c. induction Hcs as [|c cs Hc Hcs IH]; [done|].
  cbn [foldl]. rewrite Hc. by rewrite (proj2 (Z.eqb_neq _ _) (u64_succ_ne r)).
Qed.

Lemma complete_nothing e :
  Forall (fun c => ce_persisted c = false) (pending_completions e) → Eng.complete_pending_finalizations e = e.
Proof.
  intros Hf. unfold Eng.complete_pending_finalizations.
  assert (H1 : filter (fun c => ce_persisted c = true) (pending_completions e) = []).
  { induction Hf as [|c l Hc Hl IH]; [done|]. rewrite filter_cons_False by congruence. done. }
  assert (H2 : filter (fun c => ce_persisted c = false) (pending_completions e) = pending_completions e).
  { clear H1. induction Hf as [|c l Hc Hl IH]; [done|]. rewrite filter_cons_True by done. by f_equal. }
  rewrite H1, H2. by destruct e.
Qed.

(** What is sent for one completed frame. *)
Definition completion_outputs e (c : CompletionEntry) : list Output :=
  (if finalization_tx e then [NotifySubscribers (ce_cf c)] else []) ++
  (if broadcaster e then [BroadcastFinalized (ce_cf c)] else []).

Lemma complete_entry_outputs e c :
  outbox (Eng.complete_entry e c) = outbox e ++ completion_outputs e c ∧
  finalization_tx (Eng.complete_entry e c) = finalization_tx e ∧ broadcaster (Eng.complete_entry e c) = broadcaster e.
Proof.
  unfold Eng.complete_entry, completion_outputs, Eng.broadcast, Eng.notify, Eng.send_legacy_message.
  destruct (_ <? _)%nat; cbn; destruct (finalization_tx e) eqn:Hf; cbn; destruct (broadcaster e) eqn:Hb; cbn;
    destruct (_ =? _)%Z; cbn; rewrite ?Hf, ?Hb, ?app_nil_r, <-?app_assoc; done.
Qed.

Lemma complete_entries_outputs e cs :
  outbox (foldl Eng.complete_entry e cs) = outbox e ++ concat (completion_outputs e <$> cs).
Proof.
  revert e. induction cs as [|c cs IH]; intros e; [by rewrite app_nil_r|]. cbn [foldl]. rewrite IH.
  destruct (complete_entry_outputs e c) as (-> & Hf & Hb). cbn. rewrite <-app_assoc. do 2 f_equal.
  f_equal. apply list_fmap_ext. intros i c' _. unfold completion_outputs. by rewrite Hf, Hb.
Qed.
(** ** Fetching *)

(** Only the clock and the DAG differ. *)
Record fetched e e' : Prop := mkFetched {
  fe_mgr : consensus_manager e' = consensus_manager e;
  fe_vs : validator_set e' = validator_set e;
  fe_comp : pending_completions e' = pending_completions e;
  fe_out : outbox e' = outbox e;
  fe_strict : strict_vote_signatures e' = strict_vote_signatures e
}.

#[local] Instance fetched_refl : Reflexive fetched.
Proof. by constructor. Qed.
#[local] Instance fetched_trans : Transitive fetched.
Proof. intros e1 e2 e3 [] []. constructor; congruence. Qed.

Lemma insert_event_spec envs event e :
  fetched e (Eng.insert_event envs event e).1 ∧ (Eng.insert_event envs event e).2 ≠ Panic.
Proof.
  unfold Eng.insert_event, DM.add_event_with_retry.
  pose proof (retry_loop_spec MAX_RETRY 0 envs event (dag_manager e) eq_refl ltac:(unfold MAX_RETRY; lia)) as Hr.
  destruct (DM.retry_loop _ _ _ _ _) as [d r]. cbn in *. split; [done|]. by intros ->.
Qed.

Lemma add_fetched_spec envs i evs now e :
  fetched e (Eng.add_fetched envs i evs now e).1 ∧ (Eng.add_fetched envs i evs now e).2 = true.
Proof.
  revert i e. induction evs as [|ev evs IH]; intros i e; cbn; [done|].
  destruct (insert_event_spec (envs i) ev (Eng.merge_clock (vlc_snapshot ev) now e)) as [Hf Hn].
  assert (H0 : fetched e (Eng.merge_clock (vlc_snapshot ev) now e)) by by constructor.
  destruct (Eng.insert_event _ _ _) as [e1 r]. cbn in *. destruct (IH (S i) e1) as [Hf2 Hb].
  destruct r; [| |done]; (split; [|exact Hb]; etrans; [exact H0|]; etrans; [exact Hf|exact Hf2]).
Qed.

Lemma fetch_loop_spec left retry peers cf last now e :
  Eng.missing_events cf e ≠ [] →
  let '(e', r) := Eng.fetch_loop left retry peers cf (Eng.missing_events cf e) last now e in
  fetched e e' ∧
  match r with
  | Ok _ => Eng.missing_events cf e' = []
  | Err (EMissingEvents i _) => i = cf_id cf ∧ Eng.missing_events cf e' ≠ []
  | _ => False
  end.
Proof.
  revert retry last e. induction left as [|left IH]; intros retry last e Hm; cbn [Eng.fetch_loop]; [done|].
  destruct (Eng.request_events peers retry _) as [evs|]; [|by apply IH].
  destruct (add_fetched_spec (Eng.fetch_envs peers retry) 0 evs now e) as [Hf Hb].
  destruct (Eng.add_fetched _ _ _ _ _) as [e1 b]. cbn in Hf, Hb. subst b. cbn zeta.
  case_bool_decide as Hd; [by split|]. specialize (IH (S retry) (Some (StillMissing (length (Eng.missing_events cf e1)))) e1 Hd).
  destruct (Eng.fetch_loop _ _ _ _ _ _ _ e1) as [e2 r]. destruct IH as [Hf2 Hr]. split; [by etrans|done].
Qed.

Lemma ensure_spec peers cf now e :
  let '(e', r) := Eng.ensure_cf_events_available peers cf now e in
  fetched e e' ∧
  match r with
  | Ok _ => Eng.missing_events cf e' = []
  | Err (ENoBroadcaster i n) =>
      e' = e ∧ i = cf_id cf ∧ broadcaster e = false ∧ n = length (Eng.missing_events cf e) ∧ n ≠ 0%nat
  | Err (EMissingEvents i _) => i = cf_id cf ∧ broadcaster e = true ∧ Eng.missing_events cf e' ≠ []
  | _ => False
  end.
Proof.
  unfold Eng.ensure_cf_events_available. case_bool_decide as Hm; [done|].
  destruct (broadcaster e) eqn:Hb; cbn [negb].
  - pose proof (fetch_loop_spec FETCH_RETRY 0 peers cf None now e Hm) as Hf.
    destruct (Eng.fetch_loop _ _ _ _ _ _ _ _) as [e' [u|[]|]]; destruct Hf as [Hf Hr]; try done.
    destruct Hr. by split_and!.
  - split_and!; try done. by destruct (Eng.missing_events cf e).
Qed.

Lemma no_missing cf e :
  Eng.missing_events cf e = [] ↔ ∀ id, id ∈ a_event_ids (cf_anchor cf) → D.contains (dm_dag (dag_manager e)) id = true.
Proof.
  unfold Eng.missing_events. split.
  - intros Hf id Hid. destruct (D.contains _ id) eqn:Hc; [done|].
    assert (Hin : id ∈ filter (fun id => D.contains (dm_dag (dag_manager e)) id = false) (a_event_ids (cf_anchor cf)))
      by (by apply list_elem_of_filter). rewrite Hf in Hin. by apply not_elem_of_nil in Hin.
  - intros Hall. destruct (filter _ _) as [|x l] eqn:Hf; [done|].
    assert (Hin : x ∈ filter (fun id => D.contains (dm_dag (dag_manager e)) id = false) (a_event_ids (cf_anchor cf)))
      by (rewrite Hf; left). apply list_elem_of_filter in Hin as [Hx Hin]. by rewrite Hall in Hx.
Qed.
End lemmas.

(** ** Theorems *)


(** C10: no finality is announced to the peers before the anchor is durable.
    Whatever the operations and their interleaving, a finalized frame is
    broadcast only after the caller reported its anchor as persisted; and only
    frames that are final are broadcast.  (Every prefix of a run is a run, so the
    report comes first.) *)
Theorem broadcast_after_persistence (B : Blake3) (X : HexCrate) (SB : StateBcs) (St : Type) (B4 : B4Store St) (ED : Ed25519)
    (L Es : Type) (LC : LruCache L) (EB : EventStoreBackend Es)
    (config : ConsensusConfig) (id : string) (vs : ValidatorSet) (shared : SharedStateManager St) (store : Es) (now : Z)
    (e0 : ConsensusEngine L Es St) (ops : list eop) (cf : ConsensusFrame)
    (Hnew : Eng.with_stores config id vs shared store now = Ok e0)
    (Hcount : validator_count config = VS.count vs) (Hkeyed : vs_keyed vs)
    (Htame : Forall (op_all op_tame) ops)
    (Hsent : BroadcastFinalized cf ∈ outbox (run_ops ops e0)) :
  a_id (cf_anchor cf) ∈ all_marks ops ∧ cf_status cf = CFFinalized.
Proof. by apply (ei_sent _ _ (run_inv _ _ _ _ _ _ _ ops Hnew Hcount Hkeyed Htame)). Qed.

(** Completing the finalized frames.  Exactly the frames whose anchors are
    persisted leave the queue, in order, each with one notification and one
    broadcast; the others stay.  The round moves only for a frame that expects
    the current round: frames finalized in the same round move it once, together.
    A second call finds nothing to do. *)
Theorem completion_once (B : Blake3) (X : HexCrate) (SB : StateBcs) (St : Type) (B4 : B4Store St)
    (L Es : Type) (e : ConsensusEngine L Es St) :
  let done := filter (fun c => ce_persisted c = true) (pending_completions e) in
  let e' := Eng.complete_pending_finalizations e in
  pending_completions e' = filter (fun c => ce_persisted c = false) (pending_completions e) ∧
  outbox e' = outbox e ++ concat (completion_outputs e <$> done) ∧
  current_round (validator_set e') = rounds_after (current_round (validator_set e)) done ∧
  consensus_manager e' = consensus_manager e ∧ dag_manager e' = dag_manager e ∧
  (Forall (fun c => ce_expected_round c = current_round (validator_set e)) done → done ≠ [] →
   current_round (validator_set e') = u64_add (current_round (validator_set e)) 1) ∧
  Eng.complete_pending_finalizations e' = e'.
Proof.
  cbn zeta. set (cs := filter (fun c => ce_persisted c = true) (pending_completions e)).
  set (e0 := Eng.set_completions (filter (fun c => ce_persisted c = false) (pending_completions e)) e).
  assert (He : Eng.complete_pending_finalizations e = foldl Eng.complete_entry e0 cs) by done. rewrite He.
  destruct (complete_entries_keep e0 cs) as [K1 K2 K3 K4 K5 K6].
  split_and!; [by rewrite K5|by rewrite complete_entries_outputs|by rewrite complete_entries_round|done|done| |].
  - intros Hall Hne. rewrite complete_entries_round. cbn [e0 Eng.set_completions validator_set].
    by apply rounds_after_same.
  - apply complete_nothing. rewrite K5. apply list.Forall_forall. by intros c [? _]%list_elem_of_filter.
Qed.

(** C3: with signatures enforced, finality is what the validators signed.  Take
    an engine with signature enforcement on and any run in which no validator is
    added and every finalized frame that is received lists each vote under the
    id of its voter.  Every frame the engine finalized was approved by a quorum
    of distinct validators, and each of them other than the node itself signed
    its approval of this very frame with its own key. *)
Theorem strict_finality_signed (B : Blake3) (X : HexCrate) (SB : StateBcs) (St : Type) (B4 : B4Store St) (ED : Ed25519)
    (L Es : Type) (LC : LruCache L) (EB : EventStoreBackend Es)
    (config : ConsensusConfig) (id : string) (vs : ValidatorSet) (shared : SharedStateManager St) (store : Es) (now : Z)
    (e0 : ConsensusEngine L Es St) (ops : list eop) (cf : ConsensusFrame)
    (Hnew : Eng.with_stores config id vs shared store now = Ok e0)
    (Hcount : validator_count config = VS.count vs) (Hkeyed : vs_keyed vs) (Hlocal : id ∈ dom (validators vs))
    (Htame : Forall (op_all op_tame) ops) (Hsealed : Forall (op_all op_sealed) ops)
    (Hcf : cf ∈ finalized_cfs (consensus_manager (run_ops ops (Eng.enable_strict_vote_signatures e0)))) :
  ∃ V : gset string, V ⊆ dom (validators vs) ∧ (VS.quorum_size vs ≤ size V)%nat ∧
    ∀ k, k ∈ V → ∃ v, cf_votes cf !! k = Some v ∧ v_approve v = true ∧ v_cf_id v = cf_id cf ∧
      (k = id ∨ signed_by vs k v).
Proof.
  destruct (built_inv _ _ _ _ _ _ _ Hnew Hcount Hkeyed) as (Hi & Hv & Hvs & _).
  set (e := Eng.enable_strict_vote_signatures e0) in *.
  assert (Hse : sealed_ok e) by (split; [done|]; cbn; by rewrite Hvs).
  assert (Hie : engine_inv (all_marks ops) e).
  { eapply engine_inv_weaken; [|by destruct Hi; constructor]. by intros ? ?%not_elem_of_nil. }
  pose proof (run_ops_micros true ops e Htame (fun _ => conj Hse Hsealed)) as Hm.
  destruct (micros_sealed _ _ _ Hm Hse) as (_ & Hn & Hl). pose proof (micros_inv _ _ _ _ Hm Hie) as Hi'.
  assert (Hve : votes_ok (validator_set e) (consensus_manager e)) by (cbn; by rewrite Hvs).
  pose proof (micros_votes _ _ _ Hm Hie Hve) as Hv'. set (e' := run_ops ops e) in *.
  pose proof (vo_final _ _ Hv') as Hf. rewrite list.Forall_forall in Hf. destruct (Hf cf Hcf) as [Hok Hq].
  assert (Hvs' : validator_set e = vs) by done. rewrite Hvs' in Hn.
  assert (Hid : local_validator_id (consensus_manager e') = id).
  { rewrite (ei_local _ _ Hi'), Hl. clear -Hnew. cbn. unfold Eng.with_stores, Eng.build in Hnew.
    destruct (DM.new _ _ _); [|done..]. by injection Hnew as <-. }
  assert (Hsig : ∀ k v, signed_by (validator_set e') k v → signed_by vs k v).
  { intros k v. unfold signed_by. by rewrite (same_nodes_pubkeys _ _ Hn). }
  assert (Happ : ∀ k, k ∈ approvers cf → ∃ v, cf_votes cf !! k = Some v ∧ v_approve v = true ∧ v_cf_id v = cf_id cf ∧
      (k = id ∨ signed_by vs k v)).
  { intros k Hk. unfold approvers in Hk. apply elem_of_dom in Hk as [v [Hkv Ha]%map_lookup_filter_Some].
    destruct (Hok k v Hkv) as [Hc Hk]. rewrite Hid in Hk. exists v. split_and!; [done..|]. destruct Hk; auto. }
  exists (approvers cf). split_and!; [|by apply quorum_approvers; rewrite (ei_count _ _ Hi'), (same_nodes_count vs) in Hq|done].
  intros k (v & _ & _ & _ & [->|(key & Hk & _)])%Happ; [done|]. unfold pubkeys in Hk. rewrite lookup_fmap in Hk.
  apply elem_of_dom. destruct (validators vs !! k); [by eexists|done].
Qed.

Section receiving.
Context {B : Blake3} {X : HexCrate} {SB : StateBcs} {St : Type} {B4 : B4Store St} {ED : Ed25519}.
Context {L Es : Type} {LC : LruCache L} {EB : EventStoreBackend Es}.
Implicit Types e : ConsensusEngine L Es St.

(** What queueing a finalized frame gives the caller. *)
Lemma handle_finalization_last e f :
  CM.last_finalized_cf (consensus_manager e) = Some f →
  (Eng.handle_finalization e).2 = (true, Some (cf_anchor f)) ∧
  list.last (pending_completions (Eng.handle_finalization e).1) =
    Some (mkCompletion f (a_id (cf_anchor f)) (current_round (validator_set e)) false).
Proof. intros Hf. unfold Eng.handle_finalization. rewrite Hf. cbn. split; [done|]. apply last_snoc. Qed.

Lemma vote_keeps id approve key now (m : ConsensusManager St) :
  persisted_anchor_ids (CM.vote_for_cf id approve key now m).1 = persisted_anchor_ids m ∧
  ∀ cf, pending_cfs (CM.vote_for_cf id approve key now m).1 !! id = Some cf →
    ∃ cf0, pending_cfs m !! id = Some cf0 ∧ cf_id cf = cf_id cf0 ∧ cf_anchor cf = cf_anchor cf0.
Proof.
  unfold CM.vote_for_cf. destruct (pending_cfs m !! id) as [cf0|] eqn:Hc; [|split; [done|]; cbn; congruence].
  case_bool_decide; cbn; [split; [done|]; intros cf Hcf; exists cf0; by simplify_eq|].
  split; [done|]. intros cf. rewrite lookup_insert_eq. intros [= <-]. by exists cf0.
Qed.

Lemma receive_keeps cf (m : ConsensusManager St) :
  CM.has_cf m (cf_id cf) = false →
  persisted_anchor_ids (CM.receive_cf cf m) = persisted_anchor_ids m ∧
  ∃ cf0, pending_cfs (CM.receive_cf cf m) !! cf_id cf = Some cf0 ∧ cf_id cf0 = cf_id cf ∧ cf_anchor cf0 = cf_anchor cf.
Proof.
  intros [Hp _]%orb_false_iff. apply bool_decide_eq_false, eq_None_not_Some in Hp. unfold CM.receive_cf. rewrite Hp.
  destruct (buffered_votes m !! cf_id cf) as [l|]; cbn; rewrite lookup_insert_eq; (split; [done|]); [|by exists cf].
  destruct (add_first_vote_anchor cf l). by eexists.
Qed.

Lemma vote_on_cf_spec cf now e :
  let '(e', r) := Eng.vote_on_cf cf now e in
  match r with
  | Ok (Accepted fin anchor) =>
      (CM.has_cf (consensus_manager e) (cf_id cf) = true → e' = e ∧ fin = false ∧ anchor = None) ∧
      (fin = true → a_id (cf_anchor cf) ∉ persisted_anchor_ids (consensus_manager e) →
       anchor = Some (cf_anchor cf) ∧
       ∃ f, cf_id f = cf_id cf ∧ cf_anchor f = cf_anchor cf ∧ cf_status f = CFFinalized ∧
         list.last (pending_completions e') =
           Some (mkCompletion f (a_id (cf_anchor cf)) (current_round (validator_set e)) false))
  | Err x => x = EMerkleRoots ∧ e' = e ∧ CM.verify_cf_merkle_roots cf = false
  | Ok _ => False
  | Panic => True
  end.
Proof.
  unfold Eng.vote_on_cf. destruct (CM.has_cf _ _) eqn:Hh; [done|].
  destruct (CM.verify_cf_merkle_roots cf) eqn:Hv; cbn [negb]; [|done].
  set (m0 := (CM.apply_cf_state_changes _ _ _).1).
  assert (Hh0 : CM.has_cf m0 (cf_id cf) = false) by done.
  destruct (receive_keeps cf m0 Hh0) as (Hp & cf0 & Hc0 & Hid & Ha).
  unfold Eng.vote_for_cf. cbn [Eng.set_manager private_key consensus_manager].
  destruct (vote_keeps (cf_id cf) true (private_key e) now (CM.receive_cf cf m0)) as [Hp1 Hc1].
  destruct (CM.vote_for_cf _ _ _ _ _) as [m1 [v|]]; cbn [fst] in Hp1, Hc1; [|done].
  set (e1 := Eng.broadcast _ _). assert (He1 : consensus_manager e1 = m1 ∧ validator_set e1 = validator_set e).
  { unfold e1, Eng.broadcast. by destruct (broadcaster _). }
  destruct He1 as [Hm1 Hvs]. unfold sbind, Eng.with_manager. rewrite Hm1.
  destruct (CM.classify_finalization (cf_id cf) now m1) as [m2 [o|[]|]] eqn:Hcl; [|done].
  unfold Eng.after_outcome. destruct o; cbn [is_finalized]; try done.
  destruct (classify_finalized _ _ _ _ _ Hcl) as (c & Hc & Hlast). destruct (Hc1 c Hc) as (c0 & Hc0' & Hid' & Ha').
  assert (c0 = cf0) as -> by congruence. rewrite Ha' in Hlast. rewrite Ha in Hlast, Ha'. rewrite Hp1, Hp in Hlast.
  destruct (Eng.handle_finalization (Eng.set_manager m2 e1)) as [e3 r] eqn:Hh3. cbn. split; [done|]. intros _ Hn.
  destruct (handle_finalization_last (Eng.set_manager m2 e1) (CF.finalize c now) (Hlast Hn)) as [Hr Hl].
  rewrite Hh3 in Hr, Hl. cbn in Hr, Hl. subst r. cbn. rewrite Ha' in *. rewrite Hvs in Hl. split; [done|].
  exists (CF.finalize c now). cbn. split_and!; [congruence|done|done|done].
Qed.
(** A decided frame leaves the frames under vote; an undecided one stays. *)
Lemma classify_pending id now (m m' : ConsensusManager St) f o :
  pending_cfs m !! id = Some f → CM.classify_finalization id now m = (m', Ok o) →
  CM.decide_cf (cm_config m) f now = None ∧ pending_cfs m' !! id = Some f ∧ is_finalized o = false ∨
  ∃ d, CM.decide_cf (cm_config m) f now = Some d ∧ pending_cfs m' !! id = None ∧ (is_finalized o = true → d = DFinalize).
Proof.
  intros Hf. unfold CM.classify_finalization. rewrite Hf.
  destruct (CM.decide_cf (cm_config m) f now) as [d|]; intros Hcl; [right; exists d; split; [done|]|injection Hcl as <- <-; by left].
  destruct d; [|injection Hcl as <- <-; cbn; by rewrite lookup_delete_eq..].
  destruct (apply_finalized_frame id (CF.finalize f now) now (CM.set_cfs (delete id) m)) as (_ & _ & Hc & _).
  destruct (CM.apply_finalized _ _ now _) as [m1 [u|x|]]; cbn in Hc; [| |done]; injection Hcl as <- <-; (split; [|done]).
  - match goal with |- pending_cfs (CM.gc_finalized_cfs ?x) !! _ = _ => destruct (gc_frame x) as (_ & _ & Gc & _) end.
    rewrite Gc. cbn. by rewrite Hc, lookup_delete_eq.
  - cbn. by rewrite Hc, lookup_delete_eq.
Qed.

(** How a new frame is taken: it is recorded with the votes that came with it or
    before it.  If one of them is the node's own it stays under vote; otherwise
    the node approves it and sends the vote, and the frame is decided with it, or
    stays under vote. *)
Definition voted_on (cf : ConsensusFrame) (now : Z) (e e' : ConsensusEngine L Es St) (fin : bool) : Prop :=
  let m := consensus_manager e in
  let m' := consensus_manager e' in
  let me := local_validator_id m in
  ∃ f, pending_cfs (CM.receive_cf cf m) !! cf_id cf = Some f ∧ cf_id f = cf_id cf ∧ cf_anchor f = cf_anchor cf ∧
    (is_Some (cf_votes f !! me) ∧ pending_cfs m' !! cf_id cf = Some f ∧ fin = false ∨
     ∃ v, v_validator_id v = me ∧ v_approve v = true ∧ v_cf_id v = cf_id cf ∧
       outbox e' = outbox e ++ (if broadcaster e then [BroadcastVote v] else []) ∧
       (CM.decide_cf (cm_config m) (CF.add_vote f v) now = None ∧
        pending_cfs m' !! cf_id cf = Some (CF.add_vote f v) ∧ fin = false ∨
        ∃ d, CM.decide_cf (cm_config m) (CF.add_vote f v) now = Some d ∧ pending_cfs m' !! cf_id cf = None ∧
          (fin = true → d = DFinalize))).

Lemma handle_finalization_frame e :
  consensus_manager (Eng.handle_finalization e).1 = consensus_manager e ∧
  outbox (Eng.handle_finalization e).1 = outbox e.
Proof. unfold Eng.handle_finalization. by destruct (CM.last_finalized_cf _). Qed.

Lemma signed_fields v key : let v' := match Vt.sign v key with Ok v => v | _ => v end in
  v_validator_id v' = v_validator_id v ∧ v_approve v' = v_approve v ∧ v_cf_id v' = v_cf_id v.
Proof. unfold Vt.sign. by destruct (negb _). Qed.

Lemma vote_on_new cf now e :
  CM.has_cf (consensus_manager e) (cf_id cf) = false →
  match Eng.vote_on_cf cf now e with
  | (e', Ok (Accepted fin _)) => voted_on cf now e e' fin
  | _ => True
  end.
Proof.
  intros Hh. unfold Eng.vote_on_cf. rewrite Hh. destruct (negb _); [done|].
  set (m0 := (CM.apply_cf_state_changes _ _ _).1).
  assert (Hm0 : pending_cfs m0 = pending_cfs (consensus_manager e) ∧ buffered_votes m0 = buffered_votes (consensus_manager e) ∧
    local_validator_id m0 = local_validator_id (consensus_manager e) ∧ cm_config m0 = cm_config (consensus_manager e)) by done.
  destruct Hm0 as (Hp0 & Hb0 & Hl0 & Hcfg0).
  assert (Hrec : pending_cfs (CM.receive_cf cf m0) = pending_cfs (CM.receive_cf cf (consensus_manager e))).
  { unfold CM.receive_cf. rewrite Hp0, Hb0. destruct (pending_cfs _ !! _); [done|]. by destruct (buffered_votes _ !! _). }
  assert (Hkeep : local_validator_id (CM.receive_cf cf m0) = local_validator_id m0 ∧ cm_config (CM.receive_cf cf m0) = cm_config m0).
  { unfold CM.receive_cf. destruct (pending_cfs _ !! _); [done|]. by destruct (buffered_votes _ !! _). }
  destruct Hkeep as [Hl1 Hcfg1].
  destruct (receive_keeps cf m0 ltac:(done)) as (_ & f & Hf & Hid & Ha).
  unfold Eng.vote_for_cf, CM.vote_for_cf. cbn [Eng.set_manager consensus_manager private_key]. rewrite Hf, Hl1, Hl0.
  case_bool_decide as Hmine.
  { exists f. rewrite <-Hrec. split_and!; [done..|]. left. by split_and!. }
  set (v0 := Vt.new _ _ _ _). set (v := match private_key e with Some key => _ | None => v0 end).
  assert (Hv : v_validator_id v = local_validator_id (consensus_manager e) ∧ v_approve v = true ∧ v_cf_id v = cf_id cf).
  { unfold v. destruct (private_key e) as [key|]; [|done]. by destruct (signed_fields v0 key) as (-> & -> & ->). }
  destruct Hv as (Hv1 & Hv2 & Hv3). set (m1 := CM.set_cfs _ _). set (e1 := Eng.broadcast _ _).
  assert (He1 : consensus_manager e1 = m1 ∧ outbox e1 = outbox e ++ (if broadcaster e then [BroadcastVote v] else [])).
  { unfold e1, Eng.broadcast. cbn. destruct (broadcaster e); cbn; [done|]. by rewrite app_nil_r. }
  destruct He1 as [Hm1 Ho1]. unfold sbind, Eng.with_manager. rewrite Hm1.
  destruct (CM.classify_finalization (cf_id cf) now m1) as [m2 [o|[]|]] eqn:Hcl; [|done].
  assert (Hf1 : pending_cfs m1 !! cf_id cf = Some (CF.add_vote f v)) by (cbn; by rewrite lookup_insert_eq).
  pose proof (classify_pending _ _ _ _ _ _ Hf1 Hcl) as Hcase. replace (cm_config m1) with (cm_config (consensus_manager e)) in Hcase
    by (change (cm_config m1) with (cm_config (CM.receive_cf cf m0)); congruence).
  assert (Hgoal : ∀ e', consensus_manager e' = m2 → outbox e' = outbox e1 → voted_on cf now e e' (is_finalized o)).
  { intros e' Hme Hoe. exists f. rewrite <-Hrec. split_and!; [done..|]. right. exists v. rewrite Hme, Hoe. by split_and!. }
  unfold Eng.after_outcome. destruct (is_finalized o); [|by apply Hgoal].
  destruct (handle_finalization_frame (Eng.set_manager m2 e1)) as [Hm3 Ho3].
  destruct (Eng.handle_finalization (Eng.set_manager m2 e1)) as [e3 [fin anchor]] eqn:Hh3. cbn in Hm3, Ho3. cbn.
  assert (fin = true) as ->.
  { unfold Eng.handle_finalization in Hh3. by destruct (CM.last_finalized_cf _); injection Hh3 as <- <- <-. }
  by apply Hgoal.
Qed.

End receiving.


(** ** Instances *)

Section Instances.
#[local] Existing Instance toy_blake3.
#[local] Existing Instance hex_lower.
#[local] Existing Instance wit_bcs.
#[local] Existing Instance list_lru.

(** A signature scheme in which the signature shows the key. *)
Definition toy_ed25519 : Ed25519 := {|
  VerifyingKey := bytes; key_from_bytes := Some; ed_sign k m := k ++ m; ed_verify k m s := bool_decide (s = k ++ m) |}.
#[local] Existing Instance toy_ed25519.

(** Four validators; the node is ["b"], and ["a"] leads round 0. *)
Definition wit_key (b : Byte.byte) : bytes := replicate 32 b.
Definition wit_validator (id : string) (b : Byte.byte) : ValidatorInfo :=
  validator_info_new (mkNode id Validator Active "" 0 (wit_key b) 0 false) false.
Definition wit_set : ValidatorSet :=
  VS.add_validator (wit_validator "d" Byte.x04) (VS.add_validator (wit_validator "c" Byte.x03)
    (VS.add_validator (wit_validator "b" Byte.x02) (VS.add_validator (wit_validator "a" Byte.x01) (VS.new (O := elements_order))))).
Definition wit_cfg : ConsensusConfig := mkConfig 1 1 10 1000 4.
Definition wit_shared : SharedStateManager InMemoryMerkleStore := Shared.new (GS.with_store IM.new).
Definition wit_engine : ConsensusEngine (nat * list entry) EventStore InMemoryMerkleStore :=
  mkEngine wit_cfg
    (mkDagManager D.new (mkRecent (lru_new (recent_cache_capacity dag_config_default)) (recent_cache_capacity dag_config_default) 0 0 0)
       ES.new dag_config_default 0 false [])
    (Node.new "b" 0) 0 wit_set (CM.with_shared_state_manager wit_cfg "b" wit_shared) "b" None false [] false false [] [] [] false [].

Lemma wit_engine_new : Eng.with_stores wit_cfg "b" wit_set wit_shared ES.new 0 = Ok wit_engine.
Proof. reflexivity. Qed.

Lemma wit_set_keyed : vs_keyed wit_set.
Proof.
  assert (Hall : map_Forall (fun k v => node_id (vi_node v) = k) (validators wit_set)); [|exact Hall].
  apply (bool_decide_unpack _). vm_compute. exact I.
Qed.

Definition no_peers : Eng.Peers (L := nat * list entry) (Es := EventStore) :=
  Eng.mkPeers (fun _ _ => None) (fun _ _ _ m => m).

(** The frame of ["a"] for round 0 with an empty anchor made at [t], and the
    signed approval of a validator. *)
Definition wit_cf (t : Z) : ConsensusFrame :=
  CF.new 0 (Anch.with_merkle_roots [] (Vlc.snapshot wit_clock)
              (mkRoots zero_hash zero_hash (Eng.get_anchor_chain_root wit_engine) ∅) None 0 t) "a" t.
Definition signed (who : string) (b : Byte.byte) (cf : ConsensusFrame) : Vote :=
  match Vt.sign (Vt.new who (cf_id cf) true 5) (wit_key b) with Ok v => v | _ => Vt.new who (cf_id cf) true 5 end.

(** A leader that makes two frames for its round gets the vote of the node for
    both: nothing records that the node already voted in the round. *)
Theorem equivocating_leader_gets_both_votes :
  let e := run_ops [OSetBroadcaster; OReceiveCf no_peers [] (wit_cf 5) 6; OReceiveCf no_peers [] (wit_cf 6) 7] wit_engine in
  CF.verify_id (wit_cf 5) = true ∧ CF.verify_id (wit_cf 6) = true ∧ cf_id (wit_cf 5) ≠ cf_id (wit_cf 6) ∧
  outbox e = [BroadcastVote (Vt.new "b" (cf_id (wit_cf 5)) true 6); BroadcastVote (Vt.new "b" (cf_id (wit_cf 6)) true 7)].
Proof. vm_compute. by split_and!. Qed.

(** A frame that names no roots, so that it extends any chain. *)
Definition wit_plain (proposer : string) (round : Z) : ConsensusFrame :=
  CF.new round (Anch.new [] (Vlc.snapshot wit_clock) "" None 0 5) proposer 5.

(** The same signed vote of ["d"] under three names. *)
Definition wit_forged : ConsensusFrame :=
  let cf := wit_plain "d" 0 in
  let v := signed "d" Byte.x04 cf in
  mkCF (cf_id cf) (cf_round cf) (cf_anchor cf) "d" Proposed (<["d" := v]> (<["x" := v]> {["y" := v]})) 5 None.

(** A finalized frame is counted by the names its votes are listed under, and
    only the names inside the votes are checked: with signatures enforced, one
    validator of four finalizes a frame of its own, in a round it does not
    lead. *)
Theorem forged_quorum_accepted :
  let e := Eng.enable_strict_vote_signatures wit_engine in
  let '(e', r) := Eng.receive_finalized_cf no_peers (fun e => e) wit_forged 9 e in
  VS.quorum_size (validator_set e) = 3%nat ∧ VS.is_valid_proposer (validator_set e) "d" 0 = false ∧
  map_Forall (fun _ v => v_validator_id v = "d") (cf_votes wit_forged) ∧
  r = Ok (true, Some (cf_anchor wit_forged)) ∧ length (finalized_cfs (consensus_manager e')) = 1%nat.
Proof.
  cbn zeta.
  assert (H1 : (Eng.receive_finalized_cf no_peers (fun e => e) wit_forged 9
                  (Eng.enable_strict_vote_signatures wit_engine)).2 = Ok (true, Some (cf_anchor wit_forged)))
    by (vm_compute; reflexivity).
  assert (H2 : length (finalized_cfs (consensus_manager (Eng.receive_finalized_cf no_peers (fun e => e) wit_forged 9
                  (Eng.enable_strict_vote_signatures wit_engine)).1)) = 1%nat) by (vm_compute; reflexivity).
  destruct (Eng.receive_finalized_cf _ _ _ _ _) as [e' r]. cbn in H1, H2.
  split; [vm_compute; reflexivity|]. split; [vm_compute; reflexivity|]. split; [|by split].
  apply (bool_decide_unpack _). vm_compute. exact I.
Qed.

(** A leader without a key counts its own unsigned vote although signatures are
    enforced: alone in its set, it finalizes a frame that nobody signed. *)
Theorem keyless_leader_counts_itself :
  let vs := VS.add_validator (wit_validator "a" Byte.x01) (VS.new (O := elements_order)) in
  match Eng.with_stores (mkConfig 1 1 10 1000 1) "a" vs wit_shared ES.new 0 with
  | Ok e0 =>
      let e := run_ops (L := nat * list entry) [OAddEvent (fun _ m => m) (mkEvent "g" System [] None [] (Snap.new 0) "v1" Pending None 0) 5] (Eng.enable_strict_vote_signatures e0) in
      private_key e = None ∧
      ((fun cf => (v_approve <$> cf_votes cf !! "a", v_signature <$> cf_votes cf !! "a"))
        <$> finalized_cfs (consensus_manager e)) = [(Some true, Some [])]
  | _ => False
  end.
Proof. vm_compute. by split. Qed.

(** The node receives a frame with the leader's vote in it, votes, and receives
    the vote of ["c"]; then the anchor is persisted and the frame completed. *)
Definition wit_ops : list (eop (L := nat * list entry) (Es := EventStore)) :=
  let cf := wit_plain "a" 0 in
  [OSetKey (Some (wit_key Byte.x02)); OSetBroadcaster;
   OReceiveCf no_peers [OTryCreate 6] (CF.add_vote cf (signed "a" Byte.x01 cf)) 6;
   OReceiveVote (signed "c" Byte.x03 cf) 7; OMarkPersisted (a_id (cf_anchor cf)); OComplete].

Lemma wit_ops_tame : Forall (op_all op_tame) wit_ops.
Proof. apply list.Forall_forall. intros o Ho. repeat (apply elem_of_cons in Ho as [->|Ho]; [cbn; unfold tame; naive_solver|]). by apply not_elem_of_nil in Ho. Qed.
Lemma wit_ops_sealed : Forall (op_all op_sealed) wit_ops.
Proof. apply list.Forall_forall. intros o Ho. repeat (apply elem_of_cons in Ho as [->|Ho]; [cbn; unfold tame; naive_solver|]). by apply not_elem_of_nil in Ho. Qed.


Lemma broadcast_after_persistence_witness :
  ∃ cf, BroadcastFinalized cf ∈ outbox (run_ops wit_ops wit_engine) ∧
    a_id (cf_anchor cf) ∈ all_marks wit_ops ∧ cf_status cf = CFFinalized.
Proof.
  destruct (outbox (run_ops wit_ops wit_engine)) as [|o [|[| | |cf|] [|]]] eqn:Ho.
  all: try (exfalso; assert (Hx : (fun l => match l with [_; BroadcastFinalized _] => true | _ => false end)
              (outbox (run_ops wit_ops wit_engine)) = true) by (vm_compute; reflexivity);
            rewrite Ho in Hx; discriminate Hx).
  assert (Hin : BroadcastFinalized cf ∈ outbox (run_ops wit_ops wit_engine)) by (rewrite Ho; right; left).
  exists cf. split; [rewrite <-Ho; exact Hin|].
  exact (broadcast_after_persistence _ _ _ _ _ _ _ _ _ _ wit_cfg "b" wit_set wit_shared ES.new 0 wit_engine wit_ops cf
           wit_engine_new eq_refl wit_set_keyed wit_ops_tame Hin).
Defined.

Lemma strict_finality_signed_witness :
  ∃ cf (V : gset string), V ⊆ dom (validators wit_set) ∧ (3 ≤ size V)%nat ∧
    ∀ k, k ∈ V → ∃ v, cf_votes cf !! k = Some v ∧ v_approve v = true ∧ v_cf_id v = cf_id cf ∧
      (k = "b" ∨ signed_by wit_set k v).
Proof.
  destruct (finalized_cfs (consensus_manager (run_ops wit_ops (Eng.enable_strict_vote_signatures wit_engine))))
    as [|cf l] eqn:Hf.
  { exfalso. assert (Hx : length (finalized_cfs (consensus_manager
      (run_ops wit_ops (Eng.enable_strict_vote_signatures wit_engine)))) = 1%nat) by (vm_compute; reflexivity).
    rewrite Hf in Hx. discriminate Hx. }
  assert (Hin : cf ∈ finalized_cfs (consensus_manager (run_ops wit_ops (Eng.enable_strict_vote_signatures wit_engine))))
    by (rewrite Hf; left).
  destruct (strict_finality_signed _ _ _ _ _ _ _ _ _ _ wit_cfg "b" wit_set wit_shared ES.new 0 wit_engine wit_ops cf
              wit_engine_new eq_refl wit_set_keyed) as (V & H1 & H2 & H3).
  - apply (bool_decide_unpack _). vm_compute. exact I.
  - exact wit_ops_tame.
  - exact wit_ops_sealed.
  - exact Hin.
  - exists cf, V. split; [exact H1|]. split; [exact H2|exact H3].
Defined.
End Instances.
