(* ===== verification/FinalityStores.v ===== *)
(** * Stores of anchors and consensus frames

    [storage/src/memory/anchor_store.rs] and [cf_store.rs], with the traits of
    [storage/src/backends/anchor.rs] and [cf.rs] as classes.  Concurrent maps are
    finite maps; each operation is one step.  A store behind the traits may fail;
    what it must keep when it does is a law of the class. *)

From Stdlib Require Import ZArith Lia.
From stdpp Require Import base gmap sets list sorting strings numbers.
From S2P Require Import Prelude Hash Vlc Event Coin StateStore SparseMerkle MerkleStore StateManager ConsensusTypes EventStore.
#[local] Open Scope setu_scope.

(** ** Anchors *)

Record AnchorStore := mkAnchorStore {
  as_anchors : gmap AnchorId Anchor;
  as_chain : list AnchorId
}.

(** [(anchor_chain_root, depth, total_count, last_fold_vlc)]. *)
Abbreviation RecoveryState := (HashValue * Z * Z * Z)%type.

Module AS.
Definition new : AnchorStore := mkAnchorStore ∅ [].

Definition store (a : Anchor) (s : AnchorStore) : AnchorStore :=
  mkAnchorStore (<[a_id a := a]> (as_anchors s)) (as_chain s ++ [a_id a]).

Definition get (s : AnchorStore) (id : AnchorId) : option Anchor := as_anchors s !! id.

Definition get_latest (s : AnchorStore) : option Anchor := list.last (as_chain s) ≫= get s.

Definition get_by_depth (s : AnchorStore) (depth : Z) : option Anchor :=
  List.find (fun a => (a_depth a =? depth)%Z) (map_to_list (as_anchors s)).*2.

Definition count (s : AnchorStore) : nat := size (as_anchors s).
Definition get_chain (s : AnchorStore) : list AnchorId := as_chain s.

(** The chain root after the anchor, computed from the root it declares. *)
Definition root_after `{Blake3} `{HexCrate} (a : Anchor) : option HashValue :=
  (fun r => chain_hash (anchor_chain_root r) (Anch.compute_hash a)) <$> merkle_roots a.

Definition get_recovery_state `{Blake3} `{HexCrate} (s : AnchorStore) : option RecoveryState :=
  a ← get_latest s;
  root ← root_after a;
  Some (root, a_depth a, Z.of_nat (length (as_chain s)), logical_time (a_vlc_snapshot a)).

Definition get_recent_anchors (s : AnchorStore) (n : nat) : list Anchor :=
  omap (get s) (reverse (drop (length (as_chain s) - n) (as_chain s))).
End AS.

Class AnchorStoreBackend (A : Type) := {
  ab_store : Anchor → A → A * result string unit;
  ab_get : A → AnchorId → option Anchor;
  ab_get_latest : A → option Anchor;
  ab_get_recovery_state : A → option RecoveryState;
  ab_get_recent_anchors : A → nat → list Anchor
}.

(** A store keeps what it has, and holds nothing it was not given: after a
    successful write the anchor is there, and a failed one adds at most it. *)
Class AnchorStoreLaws (A : Type) `{AnchorStoreBackend A} := {
  ab_store_ok : ∀ a s s', ab_store a s = (s', Ok tt) → ab_get s' (a_id a) = Some a;
  ab_store_other : ∀ a s id, id ≠ a_id a → ab_get (ab_store a s).1 id = ab_get s id;
  ab_store_same : ∀ a s, ab_get (ab_store a s).1 (a_id a) = Some a ∨ ab_get (ab_store a s).1 (a_id a) = ab_get s (a_id a);
  ab_store_no_panic : ∀ a s, (ab_store a s).2 ≠ Panic
}.

Section AnchorInstance.
Context `{Blake3} `{HexCrate}.

#[global] Instance AnchorStore_backend : AnchorStoreBackend AnchorStore := {
  ab_store a s := (AS.store a s, Ok tt);
  ab_get := AS.get;
  ab_get_latest := AS.get_latest;
  ab_get_recovery_state := AS.get_recovery_state;
  ab_get_recent_anchors := AS.get_recent_anchors
}.

#[global] Instance AnchorStore_laws : AnchorStoreLaws AnchorStore.
Proof.
  split; cbn; unfold AS.get, AS.store; cbn.
  - intros a s s' [= <-]. apply lookup_insert_eq.
  - intros a s id Hne. by rewrite lookup_insert_ne.
  - intros a s. left. apply lookup_insert_eq.
  - done.
Qed.
End AnchorInstance.

(** ** Consensus frames *)

Record CFStore := mkCFStore {
  cs_frames : gmap CFId ConsensusFrame;
  cs_pending : list CFId;
  cs_finalized : list CFId
}.

Definition depth_asc (a b : ConsensusFrame) : Prop := (a_depth (cf_anchor a) ≤ a_depth (cf_anchor b))%Z.
#[global] Instance depth_asc_dec : RelDecision depth_asc.
Proof. intros a b. unfold depth_asc. apply _. Defined.

Module CFS.
Definition new : CFStore := mkCFStore ∅ [] [].

Definition store (cf : ConsensusFrame) (s : CFStore) : CFStore :=
  if bool_decide (cf_status cf = CFFinalized)
  then mkCFStore (<[cf_id cf := cf]> (cs_frames s)) (cs_pending s) (cs_finalized s ++ [cf_id cf])
  else mkCFStore (<[cf_id cf := cf]> (cs_frames s)) (cs_pending s ++ [cf_id cf]) (cs_finalized s).

Definition get (s : CFStore) (id : CFId) : option ConsensusFrame := cs_frames s !! id.

Definition mark_finalized (id : CFId) (now : Z) (s : CFStore) : CFStore * result string unit :=
  match cs_frames s !! id with
  | None => (s, Err ("CF not found: " +:+ id)%string)
  | Some cf =>
      (mkCFStore (<[id := CF.finalize cf now]> (cs_frames s)) (filter (fun i => i ≠ id) (cs_pending s))
         (if bool_decide (id ∈ cs_finalized s) then cs_finalized s else cs_finalized s ++ [id]), Ok tt)
  end.

Definition get_pending (s : CFStore) : list ConsensusFrame := omap (get s) (cs_pending s).
Definition get_finalized (s : CFStore) : list ConsensusFrame := omap (get s) (cs_finalized s).
Definition latest_finalized (s : CFStore) : option ConsensusFrame := list.last (cs_finalized s) ≫= get s.
Definition finalized_count (s : CFStore) : nat := length (cs_finalized s).
Definition pending_count (s : CFStore) : nat := length (cs_pending s).

Definition get_finalized_after_depth (s : CFStore) (after_depth : Z) (limit : nat) : list ConsensusFrame :=
  if (limit =? 0)%nat then []
  else take limit (merge_sort depth_asc (filter (fun cf => (after_depth < a_depth (cf_anchor cf))%Z) (get_finalized s))).

(** [max().unwrap_or(0)]; depths are not negative. *)
Definition highest_finalized_depth (s : CFStore) : Z :=
  foldr Z.max 0%Z ((fun cf => a_depth (cf_anchor cf)) <$> get_finalized s).
End CFS.

Class CFStoreBackend (C : Type) := {
  cb_store : ConsensusFrame → C → C * result string unit;
  cb_get : C → CFId → option ConsensusFrame;
  cb_mark_finalized : CFId → Z → C → C * result string unit;
  cb_get_finalized_after_depth : C → Z → nat → result string (list ConsensusFrame);
  cb_highest_finalized_depth : C → result string Z
}.

#[global] Instance CFStore_backend : CFStoreBackend CFStore := {
  cb_store cf s := (CFS.store cf s, Ok tt);
  cb_get := CFS.get;
  cb_mark_finalized := CFS.mark_finalized;
  cb_get_finalized_after_depth s d n := Ok (CFS.get_finalized_after_depth s d n);
  cb_highest_finalized_depth s := Ok (CFS.highest_finalized_depth s)
}.

(** ** What the persistence of anchors needs of the event store *)

(** The event is stored with its depth, the condition the store's readers rely on. *)
Definition has_event {Es} `{EventStoreBackend Es} (s : Es) (id : EventId) : Prop :=
  eb_exists s id = true ∧ is_Some (eb_get_depth s id).

(** A batch loses nothing, and one without critical failures is all there. *)
Class EventStoreLaws (Es : Type) `{EventStoreBackend Es} := {
  eb_batch_keeps : ∀ l s id, has_event s id → has_event (eb_store_batch_with_depth l s).1 id;
  eb_batch_stored : ∀ l s e d,
    BSR.has_critical_failures (eb_store_batch_with_depth l s).2 = false → (e, d) ∈ l →
    has_event (eb_store_batch_with_depth l s).1 (ev_id e)
}.

Lemma has_event_mem (s : EventStore) id : has_event s id ↔ is_Some (es_events s !! id) ∧ is_Some (es_depths s !! id).
Proof. unfold has_event. cbn. unfold ES.exists_, ES.get_depth. by rewrite bool_decide_eq_true. Qed.

Lemma batch_step_keeps st ed id : has_event st.1 id → has_event (ES.batch_step st ed).1 id.
Proof.
  destruct st as [s r], ed as [e d]. cbn. rewrite !has_event_mem. unfold ES.exists_.
  case_bool_decide; cbn; rewrite ?lookup_insert_is_Some'; tauto.
Qed.

Lemma batch_step_adds st e d : has_event (ES.batch_step st (e, d)).1 (ev_id e).
Proof.
  destruct st as [s r]. cbn. unfold ES.exists_. rewrite !has_event_mem.
  case_bool_decide; cbn; rewrite ?lookup_insert_eq; eauto.
Qed.

Lemma batch_foldl_keeps l st id : has_event st.1 id → has_event (foldl ES.batch_step st l).1 id.
Proof. revert st. induction l as [|ed l IH]; intros st Hs; [done|]. cbn. by apply IH, batch_step_keeps. Qed.

#[global] Instance EventStore_laws : EventStoreLaws EventStore.
Proof.
  split; cbn; unfold ES.store_batch_with_depth.
  - intros l s id. apply (batch_foldl_keeps l (s, BSR.new)).
  - intros l s e d _ Hin. generalize (s, BSR.new). induction l as [|ed l IH]; [by apply not_elem_of_nil in Hin|].
    intros st. apply elem_of_cons in Hin as [<-|Hin]; cbn; [|by apply IH].
    apply batch_foldl_keeps, batch_step_adds.
Qed.

(** ** What the indexing of frames needs of the frame store *)

Class CFStoreLaws (C : Type) `{CFStoreBackend C} := {
  cb_store_stored : ∀ cf s s', cb_store cf s = (s', Ok tt) → is_Some (cb_get s' (cf_id cf));
  cb_store_keeps : ∀ cf s i, is_Some (cb_get s i) → is_Some (cb_get (cb_store cf s).1 i);
  cb_mark_keeps : ∀ id now s i, is_Some (cb_get s i) → is_Some (cb_get (cb_mark_finalized id now s).1 i);
  cb_store_no_panic : ∀ cf s, (cb_store cf s).2 ≠ Panic;
  cb_mark_no_panic : ∀ id now s, (cb_mark_finalized id now s).2 ≠ Panic
}.

Lemma cfs_store_get cf s i : CFS.get (CFS.store cf s) i = if decide (i = cf_id cf) then Some cf else CFS.get s i.
Proof.
  unfold CFS.get, CFS.store. case_bool_decide; cbn; (destruct (decide (i = cf_id cf)) as [->|];
    [by rewrite lookup_insert_eq|by rewrite lookup_insert_ne]).
Qed.

#[global] Instance CFStore_laws : CFStoreLaws CFStore.
Proof.
  split; cbn; try done.
  - intros cf s s' [= <-]. rewrite cfs_store_get, decide_True by done. eauto.
  - intros cf s i. rewrite cfs_store_get. destruct (decide _); eauto.
  - intros id now s i. unfold CFS.mark_finalized. destruct (cs_frames s !! id); [|done]. cbn. unfold CFS.get. cbn.
    rewrite lookup_insert_is_Some'. tauto.
  - intros id now s. unfold CFS.mark_finalized. by destruct (cs_frames s !! id).
Qed.
