(* ===== verification/Persistence.v ===== *)
(** * Persistence of finalized frames and the validator around the engine

    [setu-validator/src/persistence.rs] (the trait [FinalizationPersister]),
    [consensus_integration.rs] ([ConsensusValidator]) and
    [network_adapter/router.rs] ([MessageRouter]).  Both implement the trait over
    the same engine and stores, each with a retry counter of its own; the event
    store is the one of the engine's DAG manager, which the code shares.

    [env] is what other tasks do while the persister waits for a store: the
    first index names the step, the second the turn of its loop.  Clocks are arguments; errors of the stores are texts. *)

From Stdlib Require Import ZArith Lia.
From stdpp Require Import base gmap sets list strings numbers.
From S2P Require Import Prelude Hash Vlc Event Dag Coin StateStore SparseMerkle MerkleStore StateManager Overlay ConsensusTypes AnchorBuilder Consensus Election EventStore DagManager Engine FinalityStores.
#[local] Open Scope setu_scope.

Definition MAX_CF_INDEX_RETRIES : Z := 5.

Inductive PersistenceError :=
| EventPersistenceFailed (anchor_id : AnchorId) (failed_count total_count : nat)
| AnchorPersistenceFailed (anchor_id : AnchorId) (reason : string)
| CFIndexEscalated (id : CFId) (retries : Z) (reason : string).

(** Who persists: the validator or the router, with their retry counters. *)
Inductive Persister := ByValidator | ByRouter.

Record ConsensusValidator (L Es Cs As St : Type) := mkConsensusValidator {
  cv_engine : ConsensusEngine L Es St;
  cv_validator_set : ValidatorSet;
  cv_cf_store : Cs;
  cv_anchor_store : As;
  cv_index_retries : gmap CFId Z;
  mr_index_retries : gmap CFId Z;
  catch_up_in_progress : bool
}.
Arguments mkConsensusValidator {L Es Cs As St}.
Arguments cv_engine {L Es Cs As St} _.
Arguments cv_validator_set {L Es Cs As St} _.
Arguments cv_cf_store {L Es Cs As St} _.
Arguments cv_anchor_store {L Es Cs As St} _.
Arguments cv_index_retries {L Es Cs As St} _.
Arguments mr_index_retries {L Es Cs As St} _.
Arguments catch_up_in_progress {L Es Cs As St} _.

Module FP.
Section FP.
Context `{Blake3} `{HexCrate} `{StateBcs} {St : Type} `{B4Store St} `{Ed25519}.
Context {L Es Cs As : Type} `{LruCache L} `{EventStoreBackend Es} `{CFStoreBackend Cs} `{AnchorStoreBackend As}.

Abbreviation V := (ConsensusValidator L Es Cs As St).

(** Field updates. *)
Definition set_engine (e : ConsensusEngine L Es St) (v : V) : V :=
  mkConsensusValidator e (cv_validator_set v) (cv_cf_store v) (cv_anchor_store v) (cv_index_retries v) (mr_index_retries v)
    (catch_up_in_progress v).
Definition on_engine (f : ConsensusEngine L Es St → ConsensusEngine L Es St) (v : V) : V := set_engine (f (cv_engine v)) v.
Definition set_cf_store (s : Cs) (v : V) : V :=
  mkConsensusValidator (cv_engine v) (cv_validator_set v) s (cv_anchor_store v) (cv_index_retries v) (mr_index_retries v)
    (catch_up_in_progress v).
Definition set_anchor_store (s : As) (v : V) : V :=
  mkConsensusValidator (cv_engine v) (cv_validator_set v) (cv_cf_store v) s (cv_index_retries v) (mr_index_retries v)
    (catch_up_in_progress v).
Definition set_local_set (s : ValidatorSet) (v : V) : V :=
  mkConsensusValidator (cv_engine v) s (cv_cf_store v) (cv_anchor_store v) (cv_index_retries v) (mr_index_retries v)
    (catch_up_in_progress v).
Definition set_catch_up (b : bool) (v : V) : V :=
  mkConsensusValidator (cv_engine v) (cv_validator_set v) (cv_cf_store v) (cv_anchor_store v) (cv_index_retries v)
    (mr_index_retries v) b.

Definition retries (who : Persister) (v : V) : gmap CFId Z :=
  match who with ByValidator => cv_index_retries v | ByRouter => mr_index_retries v end.
Definition set_retries (who : Persister) (r : gmap CFId Z) (v : V) : V :=
  match who with
  | ByValidator => mkConsensusValidator (cv_engine v) (cv_validator_set v) (cv_cf_store v) (cv_anchor_store v) r
                     (mr_index_retries v) (catch_up_in_progress v)
  | ByRouter => mkConsensusValidator (cv_engine v) (cv_validator_set v) (cv_cf_store v) (cv_anchor_store v)
                  (cv_index_retries v) r (catch_up_in_progress v)
  end.

(** The event store shared with the DAG manager. *)
Definition cv_event_store (v : V) : Es := event_store (dag_manager (cv_engine v)).
Definition set_event_store (s : Es) (v : V) : V :=
  on_engine (fun e => Eng.set_dm
    (mkDagManager (dm_dag (dag_manager e)) (recent_cache (dag_manager e)) s (dm_config (dag_manager e))
       (dm_min_depth (dag_manager e)) (warming_up (dag_manager e)) (pending_queue (dag_manager e))) e) v.

(** ** Indexing finalized frames *)

Definition drain (stored : list CFId) (v : V) : V :=
  if bool_decide (stored = []) then v else on_engine (Eng.drain_pending_finalized_cfs stored) v.

(** The loop over the frames that were queued when it started; [stored] are the
    ones written so far, [env i] runs before frame [i] is written. *)
Fixpoint index_cfs (who : Persister) (env : nat → V → V) (now : Z) (i : nat) (cfs : list ConsensusFrame)
    (stored : list CFId) : stm V PersistenceError (list CFId) := fun v =>
  match cfs with
  | [] => (v, Ok stored)
  | cf :: rest =>
      let v := env i v in
      let id := cf_id cf in
      let '(s, r) := match cb_get (cv_cf_store v) id with
                     | None => cb_store cf (cv_cf_store v)
                     | Some _ => cb_mark_finalized id now (cv_cf_store v)
                     end in
      let v := set_cf_store s v in
      match r with
      | Ok _ => index_cfs who env now (S i) rest (stored ++ [id]) (set_retries who (delete id (retries who v)) v)
      | Err reason =>
          let attempts := (default 0 (retries who v !! id) + 1)%Z in
          let v := set_retries who (<[id := attempts]> (retries who v)) v in
          if (MAX_CF_INDEX_RETRIES <=? attempts)%Z
          then (drain stored v, Err (CFIndexEscalated id attempts reason))
          else index_cfs who env now (S i) rest stored v
      | Panic => (v, Panic)
      end
  end.

Definition persist_pending_finalized_cfs (who : Persister) (env : nat → V → V) (now : Z)
    : stm V PersistenceError unit := fun v =>
  match index_cfs who env now 0 (pending_persist_cfs (cv_engine v)) [] v with
  | (v, Ok stored) => (drain stored v, Ok tt)
  | (v, Err e) => (v, Err e)
  | (v, Panic) => (v, Panic)
  end.

(** ** Persisting an anchor *)

(** The events of the anchor with their depths, and the ids that are not in the
    DAG; an event without a depth is a failed [expect]. *)
Fixpoint collect_events (d : Dag) (ids : list EventId) : option (list (Event * Z) * list EventId) :=
  match ids with
  | [] => Some ([], [])
  | id :: rest =>
      match D.get_event d id with
      | Some ev =>
          depth ← D.get_depth d id;
          '(evs, missing) ← collect_events d rest;
          Some ((ev, depth) :: evs, missing)
      | None => '(evs, missing) ← collect_events d rest; Some (evs, id :: missing)
      end
  end.

(** Steps 1 to 3: the events are read and written. *)
Definition persist_events (env : V → V) (anchor : Anchor) : stm V PersistenceError unit := fun v =>
  match collect_events (dm_dag (dag_manager (cv_engine v))) (a_event_ids anchor) with
  | None => (v, Panic)
  | Some (evs, missing) =>
      if negb (bool_decide (missing = []))
      then (v, Err (EventPersistenceFailed (a_id anchor) (length missing) (length (a_event_ids anchor))))
      else
        let v := env v in
        let '(s, r) := eb_store_batch_with_depth evs (cv_event_store v) in
        let v := set_event_store s v in
        if BSR.has_critical_failures r
        then (v, Err (EventPersistenceFailed (a_id anchor) (failed r) (length evs)))
        else (v, Ok tt)
  end.

(** Step 5: the anchor is the mark that all of it was written. *)
Definition commit_anchor (anchor : Anchor) : stm V PersistenceError unit := fun v =>
  match ab_store anchor (cv_anchor_store v) with
  | (s, Ok _) => (set_anchor_store s v, Ok tt)
  | (s, Err reason) => (set_anchor_store s v, Err (AnchorPersistenceFailed (a_id anchor) reason))
  | (s, Panic) => (set_anchor_store s v, Panic)
  end.

(** Step 7; an error of the collection is only logged, and there is none. *)
Definition collect_garbage (anchor : Anchor) (now : Z) : stm V PersistenceError unit := fun v =>
  match DM.on_anchor_finalized anchor now (dag_manager (cv_engine v)) with
  | Ok (m, _) => (on_engine (Eng.set_dm m) v, Ok tt)
  | Err _ => (v, Ok tt)
  | Panic => (v, Panic)
  end.

(** Steps in sequence; the first error ends them. *)
Fixpoint run_steps (steps : list (stm V PersistenceError unit)) : stm V PersistenceError unit := fun v =>
  match steps with
  | [] => (v, Ok tt)
  | step :: rest => (let! _ := step in run_steps rest) v
  end.

(** What others do while the persister waits. *)
Definition wait (f : V → V) : stm V PersistenceError unit := fun v => (f v, Ok tt).

Definition mark_persisted (anchor : Anchor) : stm V PersistenceError unit := fun v =>
  (on_engine (Eng.mark_anchor_persisted (a_id anchor)) v, Ok tt).

(** The step 0 of an anchor that is already stored. *)
Definition already_persisted_steps (who : Persister) (env : nat → nat → V → V) (anchor : Anchor) (now : Z)
    : list (stm V PersistenceError unit) :=
  [wait (env 0 0); persist_pending_finalized_cfs who (env 1) now; wait (env 2 0); mark_persisted anchor]%nat.

(** The steps 1 to 7. *)
Definition persist_steps (who : Persister) (env : nat → nat → V → V) (anchor : Anchor) (now : Z)
    : list (stm V PersistenceError unit) :=
  [wait (env 0 0); persist_events (env 1 0) anchor; wait (env 2 0); persist_pending_finalized_cfs who (env 3) now;
   wait (env 4 0); commit_anchor anchor; wait (env 5 0); mark_persisted anchor; wait (env 6 0);
   collect_garbage anchor now]%nat.

(** Which of the two is chosen once, by the idempotency check. *)
Definition anchor_steps (who : Persister) (env : nat → nat → V → V) (anchor : Anchor) (now : Z) (v : V)
    : list (stm V PersistenceError unit) :=
  if bool_decide (is_Some (ab_get (cv_anchor_store v) (a_id anchor)))
  then already_persisted_steps who env anchor now else persist_steps who env anchor now.

Definition persist_finalized_anchor (who : Persister) (env : nat → nat → V → V) (anchor : Anchor) (now : Z)
    : stm V PersistenceError unit := fun v => run_steps (anchor_steps who env anchor now v) v.
End FP.
End FP.

(** ** The validator *)

Inductive ValidatorError :=
| VInvalidId (id : EventId)
| VExecutionFailed (reason : string)
| VEngine (e : EngineError).

(** The telemetry of [/health]. *)
Record ConsensusHealth := mkHealth {
  consensus_round : Z;
  health_anchor_depth : Z;
  last_finalized_anchor_id : option AnchorId;
  last_finalized_anchor_depth : option Z;
  finalized_cf_buffer_len : nat;
  pending_cf_count : nat;
  health_strict : bool
}.

Module CV.
Section CV.
Context `{Blake3} `{HexCrate} `{StateBcs} {St : Type} `{B4Store St} `{Ed25519}.
Context {L Es Cs As : Type} `{LruCache L} `{EventStoreBackend Es} `{CFStoreBackend Cs} `{AnchorStoreBackend As}.

Abbreviation V := (ConsensusValidator L Es Cs As St).

Definition with_all_backends `{O : KeyOrder} (config : ConsensusConfig) (node : NodeInfo) (is_leader : bool)
    (shared : SharedStateManager St) (events : Es) (cfs : Cs) (anchors : As) (now : Z) : result Empty_set V :=
  let vs := VS.add_validator (validator_info_new node is_leader) VS.new in
  let? e := Eng.with_stores config (node_id node) vs shared events now in
  Ok (mkConsensusValidator (Eng.set_outcomes_sink (Eng.set_finalization_tx e)) vs cfs anchors ∅ ∅ false).

(** Runs an operation of the engine. *)
Definition engine_op {A} (f : stm (ConsensusEngine L Es St) EngineError A) : stm V ValidatorError A := fun v =>
  match f (cv_engine v) with
  | (e, Ok a) => (FP.set_engine e v, Ok a)
  | (e, Err x) => (FP.set_engine e v, Err (VEngine x))
  | (e, Panic) => (FP.set_engine e v, Panic)
  end.

Definition add_peer_validator (node : NodeInfo) (v : V) : V :=
  let info := validator_info_new node false in
  FP.on_engine (Eng.add_consensus_validator info)
    (FP.set_local_set (VS.add_validator info (cv_validator_set v)) v).

(** [add_validator] and [remove_validator] change the local copy of the set only. *)
Definition add_validator (info : ValidatorInfo) (v : V) : V :=
  FP.set_local_set (VS.add_validator info (cv_validator_set v)) v.
Definition remove_validator (id : string) (v : V) : V :=
  FP.set_local_set (VS.remove_validator id (cv_validator_set v)).1 v.

Definition event_for_http_projection (id : EventId) (v : V) : option Event :=
  match D.get_event (dm_dag (dag_manager (cv_engine v))) id with
  | Some e => Some e
  | None => eb_get (FP.cv_event_store v) id
  end.

(** ** Recovery *)

Definition restore_builder (r : RecoveryState) (e : ConsensusEngine L Es St) : ConsensusEngine L Es St :=
  let '(root, depth, count, vlc_time) := r in
  let m := consensus_manager e in
  let e := Eng.set_manager (CM.set_builder (AB.restore_state root depth count vlc_time (anchor_builder m)) m) e in
  let e := Eng.set_validators (VS.set_round count (validator_set e)) e in
  let e := Eng.set_dm (DM.update_min_depth (u64_add depth 1) (dag_manager e)) e in
  Eng.restore_logical_time_counter vlc_time e.

Definition recover_from_storage (v : V) : V :=
  let recent := ab_get_recent_anchors (cv_anchor_store v) 10 in
  if bool_decide (length recent = 0%nat) then v
  else
    let v := FP.on_engine (fun e => Eng.set_dm (DM.warmup_from_anchors recent (dag_manager e)).1 e) v in
    let v := match ab_get_recovery_state (cv_anchor_store v) with
             | Some r => FP.set_local_set (VS.set_round r.1.2 (cv_validator_set v)) (FP.on_engine (restore_builder r) v)
             | None => v
             end in
    match ab_get_latest (cv_anchor_store v) with
    | Some a => FP.on_engine (fun e => Eng.set_vlc (Node.restore_from_snapshot (vlc e) (a_vlc_snapshot a))
                                         (logical_time_counter e) e) v
    | None => v
    end.

(** ** Events, frames and votes *)

(** Persist, and mark the anchor when it worked; an error is logged. *)
Definition persist_and_mark (env : nat → nat → V → V) (anchor : Anchor) (now : Z) : stm V ValidatorError bool := fun v =>
  match FP.persist_finalized_anchor ByValidator env anchor now v with
  | (v, Ok _) => (FP.on_engine (Eng.mark_anchor_persisted (a_id anchor)) v, Ok true)
  | (v, Err _) => (v, Ok false)
  | (v, Panic) => (v, Panic)
  end.

Fixpoint persist_all (envs : nat → nat → nat → V → V) (i : nat) (anchors : list Anchor) (now : Z)
    : stm V ValidatorError unit :=
  match anchors with
  | [] => sret tt
  | a :: rest => let! _ := persist_and_mark (envs i) a now in persist_all envs (S i) rest now
  end.

Definition complete : stm V ValidatorError unit := fun v => (FP.on_engine Eng.complete_pending_finalizations v, Ok tt).

(** The anchors finalized inline are taken from the engine, persisted, and the
    persisted ones completed. *)
Definition persist_inline (envs : nat → nat → nat → V → V) (now : Z) : stm V ValidatorError unit := fun v =>
  let '(e, anchors) := Eng.take_pending_anchors (cv_engine v) in
  (let! _ := persist_all envs 0 anchors now in complete) (FP.set_engine e v).

Definition submit_event (dag_envs : nat → DagManager L Es → DagManager L Es) (envs : nat → nat → nat → V → V)
    (event : Event) (now : Z) : stm V ValidatorError EventId := fun v =>
  if negb (verify_id event) then (v, Err (VInvalidId (ev_id event)))
  else
    let submit := (let! id := engine_op (Eng.add_event dag_envs event now) in
                   let! _ := persist_inline envs now in sret id) in
    match execution_result event with
    | Some r =>
        if negb (er_success r)
        then (v, Err (VExecutionFailed (default "execution failed without a reported reason"%string (er_message r))))
        else submit v
    | None => submit v
    end.

Definition receive_event (dag_envs : nat → DagManager L Es → DagManager L Es) (event : Event) (now : Z)
    : stm V ValidatorError EventId :=
  engine_op (Eng.receive_event_from_network dag_envs event now).

(** What follows a frame that may have been finalized. *)
Definition persist_finalized (env : nat → nat → V → V) (now : Z) (r : bool * option Anchor) : stm V ValidatorError unit :=
  match r with
  | (true, Some a) => let! done := persist_and_mark env a now in if (done : bool) then complete else sret tt
  | _ => sret tt
  end.

Definition receive_cf (peers : Eng.Peers (L := L) (Es := Es))
    (env : ConsensusEngine L Es St → ConsensusEngine L Es St) (penv : nat → nat → V → V) (cf : ConsensusFrame) (now : Z)
    : stm V ValidatorError (bool * option Anchor) :=
  let! outcome := engine_op (Eng.receive_cf peers env cf now) in
  let r := match outcome with Accepted finalized anchor => (finalized, anchor) | _ => (false, None) end in
  let! _ := persist_finalized penv now r in
  sret r.

Definition receive_vote (penv : nat → nat → V → V) (vote : Vote) (now : Z) : stm V ValidatorError (bool * option Anchor) :=
  let! r := engine_op (Eng.receive_vote vote now) in
  let! _ := persist_finalized penv now r in
  sret r.

Definition try_heartbeat (heartbeat_interval : Z) (envs : nat → nat → nat → V → V) (now : Z) : stm V ValidatorError unit :=
  let! created := engine_op (Eng.try_create_cf_heartbeat heartbeat_interval now) in
  match created with Some _ => persist_inline envs now | None => sret tt end.

Definition run_periodic_maintenance (now : Z) (v : V) : V := FP.on_engine (Eng.run_periodic_maintenance now) v.

(** The handler of the internal channel; errors are logged. *)
Definition handle_message (dag_envs : nat → DagManager L Es → DagManager L Es) (peers : Eng.Peers (L := L) (Es := Es))
    (env : ConsensusEngine L Es St → ConsensusEngine L Es St) (penv : nat → nat → V → V) (msg : ConsensusMessage) (now : Z)
    : stm V Empty_set unit := fun v =>
  match (match msg with
         | MNewEvent event => let! _ := receive_event dag_envs event now in sret tt
         | MProposeFrame cf => let! _ := receive_cf peers env penv cf now in sret tt
         | MVote vote => let! _ := receive_vote penv vote now in sret tt
         | MFrameFinalized _ | MLeaderChanged _ _ => sret tt
         end) v with
  | (v, Ok _) | (v, Err _) => (v, Ok tt)
  | (v, Panic) => (v, Panic)
  end.

(** ** Reading *)

Definition is_leader (v : V) : bool := Eng.is_current_leader (cv_engine v).
Definition round (v : V) : Z := current_round (validator_set (cv_engine v)).
Definition validator_count (v : V) : nat := VS.count (cv_validator_set v).

Definition consensus_health_snapshot (v : V) : ConsensusHealth :=
  let m := consensus_manager (cv_engine v) in
  let last := CM.last_finalized_cf m in
  mkHealth (round v) (anchor_depth (anchor_builder m)) ((fun cf => a_id (cf_anchor cf)) <$> last)
    ((fun cf => a_depth (cf_anchor cf)) <$> last) (CM.finalized_count m) (size (pending_cfs m))
    (strict_vote_signatures (cv_engine v)).
End CV.
End CV.
