(* ===== verification/PersistenceProps.v ===== *)
(** * Persistence: crash consistency, retries and recovery *)

From Stdlib Require Import ZArith Lia.
From stdpp Require Import base gmap sets list strings numbers.
From S2P Require Import Prelude Hash Vlc Event Dag Coin StateStore SparseMerkle MerkleStore StateManager StateProps Overlay ConsensusTypes AnchorBuilder AnchorProps Consensus ConsensusProps Election EventStore DagManager DagManagerProps Engine EngineSteps EngineProps FinalityStores Persistence.
#[local] Open Scope setu_scope.

Section Crash.
Context `{Blake3} `{HexCrate} `{StateBcs} {St : Type} `{B4Store St} `{Ed25519}.
Context {L Es Cs As : Type} `{LruCache L} `{EventStoreLaws Es} `{CFStoreBackend Cs} `{AnchorStoreLaws As}.

Abbreviation V := (ConsensusValidator L Es Cs As St).

Definition has_events (v : V) (a : Anchor) : Prop := ∀ i, i ∈ a_event_ids a → has_event (FP.cv_event_store v) i.

(** The anchor is the mark of a complete write: every event of a stored anchor is
    stored with its depth. *)
Definition durable (v : V) : Prop := ∀ id a, ab_get (cv_anchor_store v) id = Some a → has_events v a.

(** What a step may do to the stores. *)
Record grows (v v' : V) : Prop := mkGrows {
  grows_events : ∀ i, has_event (FP.cv_event_store v) i → has_event (FP.cv_event_store v') i;
  grows_anchors : ∀ id, is_Some (ab_get (cv_anchor_store v) id) → is_Some (ab_get (cv_anchor_store v') id);
  grows_durable : durable v → durable v'
}.

#[global] Instance grows_preorder : PreOrder grows.
Proof. split; [by intros v; split|]. intros a b c [] []. split; eauto. Qed.

(** The invariant of the DAG. *)
Definition dag_ok (v : V) : Prop := dag_wf (dm_dag (dag_manager (cv_engine v))).

(** Other tasks keep the stores the same way, and the DAG well formed. *)
Record benign (env : nat → nat → V → V) : Prop := mkBenign {
  benign_grows : ∀ i j v, grows v (env i j v);
  benign_dag : ∀ i j v, dag_ok v → dag_ok (env i j v)
}.

Lemma grows_has_events v v' a : grows v v' → has_events v a → has_events v' a.
Proof. intros Hg Hh i Hi. by eapply grows_events, Hh. Qed.

Lemma same_stores_grows (v v' : V) :
  FP.cv_event_store v' = FP.cv_event_store v → cv_anchor_store v' = cv_anchor_store v → grows v v'.
Proof. intros E1 E2. split; unfold durable, has_events; rewrite ?E1, ?E2; done. Qed.

(** ** The steps *)

Definition step_grows {A} (m : stm V PersistenceError A) : Prop := ∀ v, grows v (m v).1.

Lemma set_retries_stores who r (v : V) :
  FP.cv_event_store (FP.set_retries who r v) = FP.cv_event_store v ∧
  cv_anchor_store (FP.set_retries who r v) = cv_anchor_store v ∧
  cv_engine (FP.set_retries who r v) = cv_engine v ∧ cv_cf_store (FP.set_retries who r v) = cv_cf_store v.
Proof. by destruct who. Qed.

Lemma set_retries_grows who r (v : V) : grows v (FP.set_retries who r v).
Proof. apply same_stores_grows; apply set_retries_stores. Qed.

Lemma drain_grows ids (v : V) : grows v (FP.drain ids v).
Proof. unfold FP.drain. case_bool_decide; [done|]. by apply same_stores_grows. Qed.

Lemma index_cfs_grows who env now i cfs stored :
  (∀ j v, grows v (env j v)) → step_grows (FP.index_cfs who env now i cfs stored).
Proof.
  intros Henv. revert i stored. induction cfs as [|cf cfs IH]; intros i stored v; [done|]. cbn.
  destruct (match cb_get _ _ with None => _ | Some _ => _ end) as [s r].
  assert (Hs : grows v (FP.set_cf_store s (env i v))).
  { transitivity (env i v); [apply Henv|]. by apply same_stores_grows. }
  destruct r as [u|reason|]; cbn; [| |done].
  - etransitivity; [exact Hs|]. etransitivity; [apply set_retries_grows|apply IH].
  - etransitivity; [exact Hs|]. etransitivity; [apply set_retries_grows|].
    destruct (_ <=? _)%Z; cbn; [apply drain_grows|apply IH].
Qed.

Lemma persist_pending_grows who env now :
  (∀ j v, grows v (env j v)) → step_grows (FP.persist_pending_finalized_cfs who env now).
Proof.
  intros Henv v. unfold FP.persist_pending_finalized_cfs.
  pose proof (index_cfs_grows who env now 0 (pending_persist_cfs (cv_engine v)) [] Henv v) as Hg.
  destruct (FP.index_cfs _ _ _ _ _ _ _) as [v' [ids|e|]]; cbn in *; [|done..].
  etransitivity; [exact Hg|apply drain_grows].
Qed.

Lemma set_event_store_stores s (v : V) :
  FP.cv_event_store (FP.set_event_store s v) = s ∧ cv_anchor_store (FP.set_event_store s v) = cv_anchor_store v.
Proof. done. Qed.

Lemma batch_grows l (v : V) :
  grows v (FP.set_event_store (eb_store_batch_with_depth l (FP.cv_event_store v)).1 v).
Proof.
  assert (He : ∀ i, has_event (FP.cv_event_store v) i →
    has_event (FP.cv_event_store (FP.set_event_store (eb_store_batch_with_depth l (FP.cv_event_store v)).1 v)) i).
  { intros i. cbn. apply eb_batch_keeps. }
  split; [exact He|done|]. intros Hd id a Ha i Hi. by apply He, (Hd id a).
Qed.

Lemma collect_events_ids d ids evs :
  FP.collect_events d ids = Some (evs, []) → ∀ i, i ∈ ids → ∃ e dep, (e, dep) ∈ evs ∧ D.get_event d i = Some e.
Proof.
  revert evs. induction ids as [|id ids IH]; intros evs; cbn; [set_solver|].
  destruct (D.get_event d id) as [e|] eqn:Ee.
  - destruct (D.get_depth d id) as [dep|]; cbn; [|done].
    destruct (FP.collect_events d ids) as [[evs' miss]|]; cbn; [|done]. intros [= <- ->] i [->|Hi]%elem_of_cons.
    + exists e, dep. split; [left|done].
    + destruct (IH evs' eq_refl i Hi) as (e' & dep' & ? & ?). exists e', dep'. split; [by right|done].
  - destruct (FP.collect_events d ids) as [[evs' miss]|]; cbn; [|done]. by intros [=].
Qed.

Lemma persist_events_grows env anchor : (∀ v, grows v (env v)) → step_grows (FP.persist_events env anchor).
Proof.
  intros Henv v. unfold FP.persist_events.
  destruct (FP.collect_events _ _) as [[evs miss]|]; [|done]. case_bool_decide; cbn [negb]; [|done].
  pose proof (batch_grows evs (env v)) as Hg. destruct (eb_store_batch_with_depth _ _) as [s r]. cbn in Hg.
  destruct (BSR.has_critical_failures r); cbn; (etransitivity; [apply Henv|exact Hg]).
Qed.

Lemma persist_events_stored env anchor v v' :
  dag_ok v → FP.persist_events env anchor v = (v', Ok tt) → has_events v' anchor.
Proof.
  intros Hk. unfold FP.persist_events.
  destruct (FP.collect_events _ _) as [[evs miss]|] eqn:Ec; [|done].
  case_bool_decide as Hm; cbn [negb]; [subst miss|done].
  destruct (eb_store_batch_with_depth _ _) as [s r] eqn:Eb.
  destruct (BSR.has_critical_failures r) eqn:Er; cbn; [done|]. intros [= <-] i Hi.
  destruct (collect_events_ids _ _ _ Ec i Hi) as (e & dep & Hin & He). rewrite <-(wf_id _ Hk i e He). cbn.
  pose proof (eb_batch_stored evs (FP.cv_event_store (env v)) e dep) as Hs. rewrite Eb in Hs. by apply Hs.
Qed.

Lemma commit_anchor_grows anchor v : has_events v anchor → grows v (FP.commit_anchor anchor v).1.
Proof.
  intros Hh. pose proof (ab_store_other anchor (cv_anchor_store v)) as Ho.
  pose proof (ab_store_same anchor (cv_anchor_store v)) as Hsame. unfold FP.commit_anchor.
  destruct (ab_store anchor (cv_anchor_store v)) as [s r]. cbn in Ho, Hsame.
  assert (Hg : grows v (FP.set_anchor_store s v)).
  { split; [done| |].
    - intros id. cbn. destruct (decide (id = a_id anchor)) as [->|Hne]; [|by rewrite Ho].
      destruct Hsame as [->| ->]; eauto.
    - intros Hd id a. cbn. destruct (decide (id = a_id anchor)) as [->|Hne]; [|rewrite Ho by done; apply Hd].
      destruct Hsame as [->| ->]; [by intros [= <-]|apply Hd]. }
  by destruct r.
Qed.

Lemma mark_persisted_grows anchor : step_grows (FP.mark_persisted anchor).
Proof. intros v. by apply same_stores_grows. Qed.

Lemma on_anchor_finalized_store anchor now m m' g :
  DM.on_anchor_finalized anchor now m = Ok (m', g) → event_store m' = event_store (Es := Es) (L := L) m.
Proof.
  unfold DM.on_anchor_finalized, DM.cache_step, DM.gc_step. cbn.
  destruct (DM.cache_events _ _ _ _ _) as [c|[]|]; cbn; [|done].
  destruct (D.gc_finalized_events _ _) as [[d st]|]; [|done]. by intros [= <- _].
Qed.

Lemma cache_events_total d aid now ids (c : RecentEventCache L) :
  dag_wf d → ∃ c', DM.cache_events d aid now ids c = Ok c'.
Proof.
  intros Hwf. revert c. induction ids as [|id ids IH]; intros c; cbn; [eauto|].
  destruct (D.get_event d id) as [ev|] eqn:Ee; [|apply IH].
  assert (Hz : is_Some (D.get_depth d id)).
  { apply elem_of_dom. rewrite (wf_dom d Hwf). apply elem_of_dom. eauto. }
  destruct Hz as [z Hz]. rewrite Hz. apply IH.
Qed.

Lemma on_anchor_finalized_total anchor now (m : DagManager L Es) :
  dag_wf (dm_dag m) → ∃ m' g, DM.on_anchor_finalized anchor now m = Ok (m', g) ∧ dag_wf (dm_dag m').
Proof.
  intros Hwf. unfold DM.on_anchor_finalized, DM.cache_step, DM.gc_step.
  assert (Hwf1 : dag_wf (dm_dag (DM.finalize_step anchor m))) by (cbn; by apply finalize_events_wf).
  destruct (cache_events_total (dm_dag (DM.finalize_step anchor m)) (a_id anchor) now (a_event_ids anchor)
              (recent_cache (DM.finalize_step anchor m)) Hwf1) as [c ->].
  destruct (gc_finalized_spec (dm_dag (DM.finalize_step anchor m)) (a_event_ids anchor) Hwf1) as (d & st & Hgc & Hp & _).
  { intros id Hid e. cbn. rewrite finalize_events_lookup. destruct (events (dm_dag m) !! id); [|done].
    cbn. rewrite decide_True by done. by intros [= <-]. }
  cbn [rbind DM.set_cache dm_dag]. rewrite Hgc. eexists _, _. split; [done|apply Hp].
Qed.

Lemma collect_events_total d ids : dag_wf d → is_Some (FP.collect_events d ids).
Proof.
  intros Hwf. induction ids as [|id ids [[evs miss] IH]]; cbn; [eauto|]. rewrite IH.
  destruct (D.get_event d id) as [ev|] eqn:Ee; [|cbn; eauto].
  assert (Hz : is_Some (D.get_depth d id)).
  { apply elem_of_dom. rewrite (wf_dom d Hwf). apply elem_of_dom. eauto. }
  destruct Hz as [z ->]. cbn. eauto.
Qed.

Lemma collect_garbage_grows anchor now : step_grows (FP.collect_garbage anchor now).
Proof.
  intros v. unfold FP.collect_garbage.
  destruct (DM.on_anchor_finalized _ _ _) as [[m g]|[]|] eqn:E; [|done].
  apply same_stores_grows; [|done]. exact (on_anchor_finalized_store _ _ _ _ _ E).
Qed.

Lemma wait_grows f : (∀ v, grows v (f v)) → step_grows (FP.wait f).
Proof. by intros Hf v. Qed.

(** ** The DAG *)

Lemma index_cfs_dag who env now i cfs stored v :
  (∀ j v, dag_ok v → dag_ok (env j v)) → dag_ok v → dag_ok (FP.index_cfs who env now i cfs stored v).1.
Proof.
  intros Henv. revert i stored v. induction cfs as [|cf cfs IH]; intros i stored v Hv; [done|]. cbn.
  destruct (match cb_get _ _ with None => _ | Some _ => _ end) as [s r]. apply (Henv i) in Hv.
  destruct r as [u|reason|]; cbn; [|destruct (_ <=? _)%Z; cbn|done].
  - apply IH. by destruct who.
  - unfold FP.drain. case_bool_decide; by destruct who.
  - apply IH. by destruct who.
Qed.

Lemma persist_pending_env_dag who env now v :
  (∀ j v, dag_ok v → dag_ok (env j v)) → dag_ok v → dag_ok (FP.persist_pending_finalized_cfs who env now v).1.
Proof.
  intros Henv Hv. unfold FP.persist_pending_finalized_cfs.
  pose proof (index_cfs_dag who env now 0 (pending_persist_cfs (cv_engine v)) [] v Henv Hv) as Hi.
  destruct (FP.index_cfs _ _ _ _ _ _ _) as [w [ids|e|]]; cbn in *; [|done..]. unfold FP.drain. by case_bool_decide.
Qed.

Lemma persist_events_dag env anchor v :
  (∀ v, dag_ok v → dag_ok (env v)) → dag_ok v → dag_ok (FP.persist_events env anchor v).1.
Proof.
  intros Henv Hv. unfold FP.persist_events. destruct (FP.collect_events _ _) as [[evs miss]|]; [|done].
  destruct (negb _); [done|]. destruct (eb_store_batch_with_depth _ _).
  destruct (BSR.has_critical_failures _); by apply Henv.
Qed.

Lemma commit_anchor_dag anchor v : dag_ok v → dag_ok (FP.commit_anchor anchor v).1.
Proof. unfold FP.commit_anchor. by destruct (ab_store _ _) as [s []]. Qed.

Lemma collect_garbage_dag anchor now v : dag_ok v → dag_ok (FP.collect_garbage anchor now v).1.
Proof.
  intros Hv. unfold FP.collect_garbage.
  destruct (on_anchor_finalized_total anchor now (dag_manager (cv_engine v)) Hv) as (m & g & -> & Hm). done.
Qed.

(** ** Crash safety of a sequence of steps *)

(** A crash after [k] steps leaves [D]: [m] turns [P] into [Q] and keeps [D]
    on every path, and the rest does so from [Q]. *)
Lemma run_steps_crash (D P Q : V → Prop) m rest :
  (∀ v, P v → D v) →
  (∀ v, P v → D (m v).1 ∧ ((m v).2 = Ok tt → Q (m v).1)) →
  (∀ k v, Q v → D (FP.run_steps (take k rest) v).1) →
  ∀ k v, P v → D (FP.run_steps (take k (m :: rest)) v).1.
Proof.
  intros HP Hm Hr [|k] v Hv; [by apply HP|]. cbn. unfold sbind. destruct (Hm v Hv) as [HD HQ].
  destruct (m v) as [v' [[]|e|]]; cbn in *; [by apply Hr, HQ|done..].
Qed.

Lemma run_steps_grows (D P : V → Prop) m rest :
  (∀ v, P v → D v) → (∀ v v', grows v v' → P v → P v') → step_grows m →
  (∀ k v, P v → D (FP.run_steps (take k rest) v).1) →
  ∀ k v, P v → D (FP.run_steps (take k (m :: rest)) v).1.
Proof.
  intros HP Hs Hg. apply (run_steps_crash D P P); [done|]. intros v Hv.
  split; [apply HP|intros _]; (eapply Hs; [apply Hg|done]).
Qed.
Section Steps.
Variables (who : Persister) (env : nat → nat → V → V) (anchor : Anchor) (now : Z).
Hypothesis Henv : benign env.

Lemma already_steps_crash k v :
  durable v → durable (FP.run_steps (take k (FP.already_persisted_steps who env anchor now)) v).1.
Proof.
  revert k v. unfold FP.already_persisted_steps.
  repeat (apply (run_steps_grows durable durable); [done|intros ??; apply grows_durable| |]).
  - apply wait_grows, Henv.
  - apply persist_pending_grows, Henv.
  - apply wait_grows, Henv.
  - apply mark_persisted_grows.
  - by intros [|k] v.
Qed.

(** From the point where the events are written. *)
Definition written (v : V) : Prop := durable v ∧ has_events v anchor.

Lemma written_grows v v' : grows v v' → written v → written v'.
Proof. intros Hg [Hd Hh]. split; [by eapply grows_durable|by eapply grows_has_events]. Qed.

Lemma persist_steps_crash k v :
  dag_ok v → durable v → durable (FP.run_steps (take k (FP.persist_steps who env anchor now)) v).1.
Proof.
  intros Hk Hd. assert (Hv : durable v ∧ dag_ok v) by done. clear Hk Hd. revert k v Hv. unfold FP.persist_steps.
  apply (run_steps_crash durable _ (fun v => durable v ∧ dag_ok v)); [by intros ? []| |].
  { intros v [Hd Hk]. split; [|intros _; split]; [by eapply grows_durable, Hd; apply Henv..|by apply Henv]. }
  apply (run_steps_crash durable _ written); [by intros ? []| |].
  { intros v [Hd Hk]. assert (Hd' : durable (FP.persist_events (env 1%nat 0%nat) anchor v).1).
    { eapply grows_durable, Hd. apply persist_events_grows. intros ?. apply Henv. }
    split; [done|]. intros Hok. split; [done|].
    destruct (FP.persist_events _ anchor v) as [v' r] eqn:E. cbn in *. subst r. by eapply persist_events_stored. }
  do 3 (apply (run_steps_grows durable written); [by intros ? []|apply written_grows| |];
    [first [apply wait_grows, Henv|apply persist_pending_grows, Henv]|]).
  apply (run_steps_crash durable _ durable); [by intros ? []| |].
  { intros v [Hd Hh]. assert (durable (FP.commit_anchor anchor v).1) by (by eapply grows_durable, Hd; apply commit_anchor_grows).
    done. }
  repeat (apply (run_steps_grows durable durable); [done|intros ??; apply grows_durable| |]).
  - apply wait_grows, Henv.
  - apply mark_persisted_grows.
  - apply wait_grows, Henv.
  - apply collect_garbage_grows.
  - by intros [|k] v.
Qed.

(** C32: crash consistency.  Whatever other tasks do to the stores in the same
    discipline, and at whichever step [persist_finalized_anchor] is interrupted,
    every anchor in the anchor store has all its events in the event store, each
    with its depth: the anchor is a commit marker, never written before its
    events and never after a failed batch. *)
Theorem persist_crash_safe k v :
  dag_ok v → durable v → durable (FP.run_steps (take k (FP.anchor_steps who env anchor now v)) v).1.
Proof.
  intros Hk Hd. unfold FP.anchor_steps. case_bool_decide; [by apply already_steps_crash|by apply persist_steps_crash].
Qed.
End Steps.
End Crash.

(** ** Indexing without interference *)

Section Index.
Context `{Blake3} `{HexCrate} `{StateBcs} {St : Type} `{B4Store St} `{Ed25519}.
Context {L Es Cs As : Type} `{LruCache L} `{EventStoreBackend Es} `{CFStoreLaws Cs} `{AnchorStoreBackend As}.

Abbreviation V := (ConsensusValidator L Es Cs As St).
Variables (who : Persister) (now : Z).

Definition calm (_ : nat) (v : V) : V := v.

Lemma retries_set r (v : V) : FP.retries who (FP.set_retries who r v) = r.
Proof. by destruct who. Qed.

Lemma retries_engine e (v : V) : FP.retries who (FP.set_engine e v) = FP.retries who v.
Proof. by destruct who. Qed.

Lemma retries_drain ids (v : V) : FP.retries who (FP.drain ids v) = FP.retries who v.
Proof. unfold FP.drain. case_bool_decide; [done|]. apply retries_engine. Qed.

(** The loop has handled [seen], of which [stored] were written. *)
Record indexed_so_far (v0 : V) (seen stored : list CFId) (v : V) : Prop := mkIndexed {
  ix_engine : cv_engine v = cv_engine v0;
  ix_stored : ∀ i, i ∈ stored → is_Some (cb_get (cv_cf_store v) i) ∧ FP.retries who v !! i = None;
  ix_failed : ∀ i, i ∈ seen → i ∉ stored →
    ∃ n, FP.retries who v !! i = Some n ∧ n = (default 0 (FP.retries who v0 !! i) + 1)%Z ∧ (n < MAX_CF_INDEX_RETRIES)%Z;
  ix_rest : ∀ i, i ∉ seen → FP.retries who v !! i = FP.retries who v0 !! i
}.

(** One write: to the store when the frame is new, the mark otherwise. *)
Definition write_cf (cf : ConsensusFrame) (v : V) : Cs * result string unit :=
  match cb_get (cv_cf_store v) (cf_id cf) with
  | None => cb_store cf (cv_cf_store v)
  | Some _ => cb_mark_finalized (cf_id cf) now (cv_cf_store v)
  end.

Lemma write_cf_keeps cf v i : is_Some (cb_get (cv_cf_store v) i) → is_Some (cb_get (write_cf cf v).1 i).
Proof. unfold write_cf. destruct (cb_get _ (cf_id cf)); [apply cb_mark_keeps|apply cb_store_keeps]. Qed.

Lemma write_cf_stored cf v s : write_cf cf v = (s, Ok tt) → is_Some (cb_get s (cf_id cf)).
Proof.
  unfold write_cf. destruct (cb_get _ (cf_id cf)) eqn:E; [|apply cb_store_stored].
  intros Hw. pose proof (cb_mark_keeps (cf_id cf) now (cv_cf_store v) (cf_id cf)) as Hm. rewrite Hw, E in Hm. eauto.
Qed.

Lemma write_cf_no_panic cf v : (write_cf cf v).2 ≠ Panic.
Proof. unfold write_cf. destruct (cb_get _ (cf_id cf)); [apply cb_mark_no_panic|apply cb_store_no_panic]. Qed.

Lemma indexed_ok v0 seen stored v cf s :
  cf_id cf ∉ seen → write_cf cf v = (s, Ok tt) → indexed_so_far v0 seen stored v →
  indexed_so_far v0 (seen ++ [cf_id cf]) (stored ++ [cf_id cf])
    (FP.set_retries who (delete (cf_id cf) (FP.retries who (FP.set_cf_store s v))) (FP.set_cf_store s v)).
Proof.
  intros Hn Hw [He Hs Hf Hr]. assert (Hret : FP.retries who (FP.set_cf_store s v) = FP.retries who v) by (by destruct who).
  set (v' := FP.set_retries _ _ _).
  assert (Hget : cv_cf_store v' = s) by (unfold v'; by destruct who).
  assert (Hret' : FP.retries who v' = delete (cf_id cf) (FP.retries who v)) by (unfold v'; by rewrite retries_set, Hret).
  split.
  - rewrite <-He. unfold v'. by destruct who.
  - intros i [Hi| ->%list_elem_of_singleton]%elem_of_app; rewrite Hget, Hret'.
    + destruct (Hs i Hi) as [Hg Hd]. split; [|by rewrite lookup_delete_None; right].
      pose proof (write_cf_keeps cf v i Hg) as Hk. by rewrite Hw in Hk.
    + split; [by eapply write_cf_stored|apply lookup_delete_eq].
  - intros i Hi Hns. rewrite Hret'. assert (i ≠ cf_id cf) by set_solver.
    rewrite lookup_delete_ne by done. apply Hf; set_solver.
  - intros i Hi. rewrite Hret', lookup_delete_ne by set_solver. apply Hr. set_solver.
Qed.

Lemma indexed_err v0 seen stored v cf s n :
  cf_id cf ∉ seen → cf_id cf ∉ stored → (write_cf cf v).1 = s → n = (default 0 (FP.retries who v !! cf_id cf) + 1)%Z →
  (n < MAX_CF_INDEX_RETRIES)%Z → indexed_so_far v0 seen stored v →
  indexed_so_far v0 (seen ++ [cf_id cf]) stored
    (FP.set_retries who (<[cf_id cf := n]> (FP.retries who (FP.set_cf_store s v))) (FP.set_cf_store s v)).
Proof.
  intros Hn Hnst Hw En Hlt [He Hs Hf Hr].
  assert (Hret : FP.retries who (FP.set_cf_store s v) = FP.retries who v) by (by destruct who).
  set (v' := FP.set_retries _ _ _).
  assert (Hget : cv_cf_store v' = s) by (unfold v'; by destruct who).
  assert (Hret' : FP.retries who v' = <[cf_id cf := n]> (FP.retries who v)) by (unfold v'; by rewrite retries_set, Hret).
  split.
  - rewrite <-He. unfold v'. by destruct who.
  - intros i Hi. rewrite Hget, Hret', lookup_insert_ne by set_solver.
    destruct (Hs i Hi) as [Hg Hd]. split; [|done]. pose proof (write_cf_keeps cf v i Hg) as Hk. by rewrite Hw in Hk.
  - intros i Hi Hns. rewrite Hret'. destruct (decide (i = cf_id cf)) as [->|Hne].
    + rewrite lookup_insert_eq. exists n. by rewrite <-Hr.
    + rewrite lookup_insert_ne by done. apply Hf; set_solver.
  - intros i Hi. rewrite Hret', lookup_insert_ne by set_solver. apply Hr. set_solver.
Qed.
(** How the loop ends. *)
Definition index_result (v0 : V) (seen : list CFId) (r : V * result PersistenceError (list CFId)) : Prop :=
  match r with
  | (v, Ok stored) => indexed_so_far v0 seen stored v ∧ stored ⊆ seen
  | (v, Err e) => ∃ id n reason w seen' stored, e = CFIndexEscalated id n reason ∧ (MAX_CF_INDEX_RETRIES ≤ n)%Z ∧
      v = FP.drain stored w ∧ cv_engine w = cv_engine v0 ∧ FP.retries who w !! id = Some n ∧
      id ∈ seen ∧ id ∉ seen' ∧ stored ⊆ seen' ∧ ∀ i, i ∈ stored → is_Some (cb_get (cv_cf_store w) i)
  | (_, Panic) => False
  end.

Lemma index_cfs_result v0 cfs : ∀ i seen stored v,
  NoDup (seen ++ (cf_id <$> cfs)) → stored ⊆ seen → indexed_so_far v0 seen stored v →
  index_result v0 (seen ++ (cf_id <$> cfs)) (FP.index_cfs who calm now i cfs stored v).
Proof.
  induction cfs as [|cf cfs IH]; intros i seen stored v Hnd Hsub Hix.
  { cbn. by rewrite app_nil_r. }
  cbn [FP.index_cfs]. change (calm i v) with v. fold (write_cf cf v). rewrite fmap_cons in Hnd |- *.
  assert (Hn : cf_id cf ∉ seen) by (apply list.NoDup_app in Hnd as (_ & Hd & _); intros Hi; apply (Hd _ Hi); left).
  pose proof (write_cf_no_panic cf v) as Hnp. destruct (write_cf cf v) as [s [[]|reason|]] eqn:Ew; [| |done].
  - rewrite cons_middle, app_assoc in Hnd |- *. apply IH; [done|set_solver|]. by apply indexed_ok.
  - set (n := (default 0 (FP.retries who (FP.set_cf_store s v) !! cf_id cf) + 1)%Z).
    destruct (Z.leb_spec MAX_CF_INDEX_RETRIES n) as [Hle|Hlt].
    + exists (cf_id cf), n, reason, (FP.set_retries who (<[cf_id cf := n]> (FP.retries who (FP.set_cf_store s v)))
        (FP.set_cf_store s v)), seen, stored. split_and!; [done..| | |set_solver|done|done|].
      * rewrite <-(ix_engine _ _ _ _ Hix). by destruct who.
      * rewrite retries_set. apply lookup_insert_eq.
      * intros j Hj. pose proof (write_cf_keeps cf v j (proj1 (ix_stored _ _ _ _ Hix j Hj))) as Hk.
        rewrite Ew in Hk. by destruct who.
    + rewrite cons_middle, app_assoc in Hnd |- *. apply IH; [done|set_solver|].
      apply indexed_err; [done|set_solver|by rewrite Ew| |done|done]. unfold n. by destruct who.
Qed.

Lemma drain_pending ids (v : V) cf :
  cf ∈ pending_persist_cfs (cv_engine (FP.drain ids v)) ↔ cf ∈ pending_persist_cfs (cv_engine v) ∧ cf_id cf ∉ ids.
Proof.
  unfold FP.drain. case_bool_decide as Hd; [subst ids; set_solver|]. cbn. rewrite list_elem_of_filter. tauto.
Qed.

Lemma drain_cf_store ids (v : V) : cv_cf_store (FP.drain ids v) = cv_cf_store v.
Proof. unfold FP.drain. by case_bool_decide. Qed.

(** Indexing finalized frames, on every branch.  A frame leaves the queue
    exactly when it was written, and then it is in the frame store and its retry
    counter is gone; a frame whose write failed stays queued with its counter one
    higher; the fifth failure of a frame ends the round with
    [CFIndexEscalated], with that frame still queued. *)
Theorem cf_index_behaviour v :
  NoDup (cf_id <$> pending_persist_cfs (cv_engine v)) →
  match FP.persist_pending_finalized_cfs who calm now v with
  | (v', Ok _) => ∀ cf, cf ∈ pending_persist_cfs (cv_engine v) →
      (cf ∉ pending_persist_cfs (cv_engine v') ∧ is_Some (cb_get (cv_cf_store v') (cf_id cf)) ∧
       FP.retries who v' !! cf_id cf = None) ∨
      (cf ∈ pending_persist_cfs (cv_engine v') ∧ ∃ n, FP.retries who v' !! cf_id cf = Some n ∧
       n = (default 0 (FP.retries who v !! cf_id cf) + 1)%Z ∧ (n < MAX_CF_INDEX_RETRIES)%Z)
  | (v', Err e) => ∃ cf n reason, e = CFIndexEscalated (cf_id cf) n reason ∧ (MAX_CF_INDEX_RETRIES ≤ n)%Z ∧
      cf ∈ pending_persist_cfs (cv_engine v') ∧ FP.retries who v' !! cf_id cf = Some n ∧
      ∀ cf', cf' ∈ pending_persist_cfs (cv_engine v) → cf' ∉ pending_persist_cfs (cv_engine v') →
        is_Some (cb_get (cv_cf_store v') (cf_id cf'))
  | (_, Panic) => False
  end.
Proof.
  intros Hnd. unfold FP.persist_pending_finalized_cfs. set (cfs := pending_persist_cfs (cv_engine v)) in *.
  assert (Hix : indexed_so_far v [] [] v) by (split; [done|set_solver|set_solver|done]).
  pose proof (index_cfs_result v cfs 0 [] [] v Hnd ltac:(set_solver) Hix) as Hr. cbn [app] in Hr.
  destruct (FP.index_cfs _ _ _ _ _ _ v) as [w [stored|e|]]; cbn in Hr; [| |done].
  - destruct Hr as [[He Hs Hf _] Hsub]. intros cf Hcf. rewrite drain_pending, drain_cf_store, retries_drain, He.
    fold cfs. assert (cf_id cf ∈ cf_id <$> cfs) by (by apply list_elem_of_fmap_2).
    destruct (decide (cf_id cf ∈ stored)) as [Hin|Hin]; [left|right]; [split; [tauto|by apply Hs]|split; [done|by apply Hf]].
  - destruct Hr as (id & n & reason & w' & seen' & stored & -> & Hle & -> & He & Hret & Hid & Hns & Hsub & Hst).
    apply list_elem_of_fmap in Hid as (cf & -> & Hcf). exists cf, n, reason.
    rewrite retries_drain, drain_cf_store. split_and!; [done..| |done|].
    + rewrite drain_pending, He. split; [done|]. set_solver.
    + intros cf' Hcf'. rewrite drain_pending, He. intros Hno. apply Hst. destruct (decide (cf_id cf' ∈ stored)); [done|tauto].
Qed.
End Index.

(** ** Persisting without interference *)

Section Outcome.
Context `{Blake3} `{HexCrate} `{StateBcs} {St : Type} `{B4Store St} `{Ed25519}.
Context {L Es Cs As : Type} `{LruCache L} `{EventStoreLaws Es} `{CFStoreLaws Cs} `{AnchorStoreLaws As}.

Abbreviation V := (ConsensusValidator L Es Cs As St).

Definition quiet (_ _ : nat) (v : V) : V := v.

Lemma quiet_benign : benign quiet.
Proof. by split. Qed.

(** What waits for an anchor to be stored is the same. *)
Definition same_waiting (v v' : V) : Prop :=
  pending_completions (cv_engine v') = pending_completions (cv_engine v) ∧
  pending_persist_anchors (cv_engine v') = pending_persist_anchors (cv_engine v).

Definition same_marks (v v' : V) : Prop := cv_anchor_store v' = cv_anchor_store v ∧ same_waiting v v'.

Lemma drain_same_marks ids (v : V) : same_marks v (FP.drain ids v).
Proof. unfold FP.drain. by case_bool_decide. Qed.

Lemma set_retries_same_marks who r (v : V) : same_marks v (FP.set_retries who r v).
Proof. by destruct who. Qed.

#[local] Instance same_marks_preorder : PreOrder same_marks.
Proof. split; [done|]. intros a b c (E1 & E2 & E3) (E4 & E5 & E6). unfold same_marks, same_waiting.
  split_and!; congruence.
Qed.

Lemma index_cfs_same_marks who now i cfs stored (v : V) :
  same_marks v (FP.index_cfs who calm now i cfs stored v).1.
Proof.
  revert i stored v. induction cfs as [|cf cfs IH]; intros i stored v; [done|]. cbn.
  destruct (match cb_get _ _ with None => _ | Some _ => _ end) as [s r].
  assert (Hs : same_marks v (FP.set_cf_store s v)) by done.
  destruct r as [u|reason|]; cbn; [| |done]; (etransitivity; [exact Hs|]);
    (etransitivity; [apply set_retries_same_marks|]); [apply IH|].
  destruct (_ <=? _)%Z; cbn; [apply drain_same_marks|apply IH].
Qed.

Lemma persist_pending_same_marks who now (v : V) : same_marks v (FP.persist_pending_finalized_cfs who calm now v).1.
Proof.
  unfold FP.persist_pending_finalized_cfs.
  pose proof (index_cfs_same_marks who now 0 (pending_persist_cfs (cv_engine v)) [] v) as Hg.
  destruct (FP.index_cfs _ _ _ _ _ _ _) as [v' [ids|e|]]; cbn in *; [|done..].
  etransitivity; [exact Hg|apply drain_same_marks].
Qed.

Lemma persist_events_same_marks env anchor (v : V) :
  (∀ v, env v = v) → same_marks v (FP.persist_events env anchor v).1.
Proof.
  intros Henv. unfold FP.persist_events.
  destruct (FP.collect_events _ _) as [[evs miss]|]; [|done]. case_bool_decide; cbn [negb]; [|done]. rewrite Henv.
  destruct (eb_store_batch_with_depth _ _) as [s r]. by destruct (BSR.has_critical_failures r).
Qed.

Lemma persist_events_no_panic env anchor (v : V) : dag_ok v → (FP.persist_events env anchor v).2 ≠ Panic.
Proof.
  intros Hk. unfold FP.persist_events. destruct (collect_events_total _ (a_event_ids anchor) Hk) as [[evs miss] ->].
  destruct (negb _); [done|]. destruct (eb_store_batch_with_depth _ _). by destruct (BSR.has_critical_failures _).
Qed.

Lemma persist_pending_no_panic who now (v : V) : (FP.persist_pending_finalized_cfs who calm now v).2 ≠ Panic.
Proof.
  unfold FP.persist_pending_finalized_cfs.
  assert (Hi : ∀ cfs i stored (u : V), (FP.index_cfs who calm now i cfs stored u).2 ≠ Panic).
  { intros cfs. induction cfs as [|cf cfs IH]; intros i stored u; [done|]. cbn [FP.index_cfs].
    change (calm i u) with u. fold (write_cf now cf u). pose proof (write_cf_no_panic now cf u) as Hw.
    destruct (write_cf now cf u) as [s [x|reason|]]; [apply IH| |done]. destruct (_ <=? _)%Z; [done|apply IH]. }
  specialize (Hi (pending_persist_cfs (cv_engine v)) 0%nat [] v). by destruct (FP.index_cfs _ _ _ _ _ _ _) as [w []].
Qed.

Lemma persist_pending_error who now (v v' : V) e :
  FP.persist_pending_finalized_cfs who calm now v = (v', Err e) → ∃ id n reason, e = CFIndexEscalated id n reason.
Proof.
  unfold FP.persist_pending_finalized_cfs. destruct (FP.index_cfs _ _ _ _ _ _ _) as [w [ids|e'|]] eqn:E; [done| |done].
  intros [= -> ->]. revert E. generalize (pending_persist_cfs (cv_engine v)) as cfs. generalize 0%nat (@nil CFId) v.
  intros i stored u cfs. revert i stored u. induction cfs as [|cf cfs IH]; intros i stored u; cbn; [by intros [=]|].
  destruct (match cb_get _ _ with None => _ | Some _ => _ end) as [s [x|reason|]]; [apply IH| |done].
  destruct (_ <=? _)%Z; [|apply IH]. intros [= _ <-]. eauto.
Qed.

Lemma persist_events_error env anchor (v v' : V) e :
  FP.persist_events env anchor v = (v', Err e) → ∃ n total, e = EventPersistenceFailed (a_id anchor) n total ∧ (0 < n)%nat.
Proof.
  unfold FP.persist_events. destruct (FP.collect_events _ _) as [[evs miss]|]; [|done].
  case_bool_decide as Hm; cbn [negb].
  - destruct (eb_store_batch_with_depth _ _) as [s r]. destruct (BSR.has_critical_failures r) eqn:Ef; [|done].
    intros [= _ <-]. eexists _, _. split; [done|]. unfold BSR.has_critical_failures in Ef. by apply Nat.ltb_lt in Ef.
  - intros [= _ <-]. eexists _, _. split; [done|]. destruct miss; [done|cbn; lia].
Qed.

Lemma run_cons m rest (v : V) :
  FP.run_steps (m :: rest) v =
    match m v with
    | (v', Ok _) => FP.run_steps rest v'
    | (v', Err e) => (v', Err e)
    | (v', Panic) => (v', Panic)
    end.
Proof. done. Qed.

Lemma run_wait f rest (v : V) : FP.run_steps (FP.wait f :: rest) v = FP.run_steps rest (f v).
Proof. done. Qed.

(** The ways a first persist ends. *)
Definition persist_outcome (anchor : Anchor) (v : V) (r : V * result PersistenceError unit) : Prop :=
  let '(v', res) := r in
  durable v' ∧
  match res with
  | Ok _ => ab_store anchor (cv_anchor_store v) = (cv_anchor_store v', Ok tt) ∧
      ab_get (cv_anchor_store v') (a_id anchor) = Some anchor ∧ has_events v' anchor ∧
      ∀ c, c ∈ pending_completions (cv_engine v') → ce_anchor_id c = a_id anchor → ce_persisted c = true
  | Err (EventPersistenceFailed id n _) => id = a_id anchor ∧ (0 < n)%nat ∧ same_marks v v'
  | Err (CFIndexEscalated _ _ _) => same_marks v v'
  | Err (AnchorPersistenceFailed id reason) => id = a_id anchor ∧
      ab_store anchor (cv_anchor_store v) = (cv_anchor_store v', Err reason) ∧ same_waiting v v'
  | Panic => False
  end.

(** The part after the anchor was written. *)
Lemma after_commit_outcome anchor now (v w : V) :
  dag_ok w → durable w → has_events w anchor → ab_store anchor (cv_anchor_store v) = (cv_anchor_store w, Ok tt) →
  persist_outcome anchor v
    (FP.run_steps [FP.wait (quiet 5 0); FP.mark_persisted anchor; FP.wait (quiet 6 0); FP.collect_garbage anchor now]%nat w).
Proof.
  intros Hk Hd Hh Hs. cbn. unfold sbind, FP.wait, quiet. cbn.
  set (w1 := FP.on_engine _ w). assert (Hg1 : grows w w1) by (by apply same_stores_grows).
  pose proof (collect_garbage_grows anchor now w1) as Hg2.
  destruct (on_anchor_finalized_total anchor now (dag_manager (cv_engine w1)) Hk) as (m & g & Em & _).
  unfold FP.collect_garbage in *. rewrite Em in *. cbn in Hg2 |- *.
  assert (Hg : grows w (FP.on_engine (Eng.set_dm m) w1)) by (by etransitivity).
  split; [by eapply grows_durable|]. split_and!; [done|by eapply ab_store_ok|by eapply grows_has_events|].
  intros c [c' [-> Hc']]%list_elem_of_fmap. unfold Eng.mark_entry. by case_bool_decide.
Qed.

Lemma persist_ends who anchor now v :
  ab_get (cv_anchor_store v) (a_id anchor) = None → dag_ok v → durable v →
  persist_outcome anchor v (FP.persist_finalized_anchor who quiet anchor now v).
Proof.
  intros Hno Hk Hd. unfold FP.persist_finalized_anchor, FP.anchor_steps.
  rewrite bool_decide_eq_false_2 by (rewrite Hno; by intros [? ?]).
  unfold FP.persist_steps. rewrite run_wait. change (quiet 0 0 v) with v. rewrite run_cons.
  pose proof (persist_events_grows (quiet 1 0) anchor (fun v => reflexivity v) v) as Hg1.
  pose proof (persist_events_same_marks (quiet 1 0) anchor v (fun _ => eq_refl)) as Hm1.
  destruct (FP.persist_events (quiet 1 0) anchor v) as [v1 [[]|e|]] eqn:E1; cbn [fst] in Hg1, Hm1.
  2: { destruct (persist_events_error _ _ _ _ _ E1) as (n & total & -> & Hn). split; [by eapply grows_durable|done]. }
  2: { pose proof (persist_events_no_panic (quiet 1 0) anchor v Hk) as Hx. rewrite E1 in Hx. by destruct Hx. }
  pose proof (persist_events_stored _ _ _ _ Hk E1) as Hh1.
  assert (Hk1 : dag_ok v1) by (pose proof (persist_events_dag (quiet 1 0) anchor v (fun _ k => k) Hk) as Hx; by rewrite E1 in Hx).
  rewrite run_wait. change (quiet 2 0 v1) with v1. rewrite run_cons.
  pose proof (persist_pending_grows who (quiet 3) now (fun _ v => reflexivity v) v1) as Hg2.
  pose proof (persist_pending_same_marks who now v1) as Hm2. change calm with (quiet 3) in Hm2.
  assert (Hm12 : same_marks v (FP.persist_pending_finalized_cfs who (quiet 3) now v1).1) by (by etransitivity).
  destruct (FP.persist_pending_finalized_cfs who (quiet 3) now v1) as [v2 [[]|e|]] eqn:E2; cbn [fst] in *.
  2: { destruct (persist_pending_error _ _ _ _ _ E2) as (id & n & reason & ->).
       split; [by eapply grows_durable, grows_durable|done]. }
  2: { pose proof (persist_pending_no_panic who now v1) as Hx. change calm with (quiet 3) in Hx. rewrite E2 in Hx. by destruct Hx. }
  assert (Hd2 : durable v2) by (by eapply grows_durable, grows_durable).
  assert (Hh2 : has_events v2 anchor) by (by eapply grows_has_events).
  rewrite run_wait. change (quiet 4 0 v2) with v2. rewrite run_cons.
  pose proof (commit_anchor_grows anchor v2 Hh2) as Hg3. destruct Hm12 as [Ea Ew].
  pose proof (ab_store_no_panic anchor (cv_anchor_store v2)) as Hnp. unfold FP.commit_anchor in *.
  destruct (ab_store anchor (cv_anchor_store v2)) as [s [[]|reason|]] eqn:E3; cbn [fst] in Hg3.
  - apply after_commit_outcome; [|by eapply grows_durable|by eapply grows_has_events|by rewrite <-Ea].
    apply (persist_pending_env_dag who (quiet 3) now v1 (fun _ _ k => k)) in Hk1. by rewrite E2 in Hk1.
  - split; [by eapply grows_durable|]. rewrite <-Ea. by destruct Ew.
  - done.
Qed.
(** Persisting a finalized anchor, on every branch.  On success the anchor is
    stored, every event of it is stored with its depth, and its completion entries
    are marked.  On a failure of the events or of the frame index the anchor store
    is as it was; on a failure of the anchor store its own error is returned; and
    no failure marks a completion, so nothing is announced for this anchor.  There
    is no panic. *)
Theorem persist_behaviour who anchor now v :
  ab_get (cv_anchor_store v) (a_id anchor) = None → dag_ok v → durable v →
  persist_outcome anchor v (FP.persist_finalized_anchor who quiet anchor now v).
Proof. apply persist_ends. Qed.
End Outcome.

(** ** Anchors finalized inline *)

Section Inline.
Context `{Blake3} `{HexCrate} `{StateBcs} {St : Type} `{B4Store St} `{Ed25519}.
Context {L Es Cs As : Type} `{LruCache L} `{EventStoreLaws Es} `{CFStoreLaws Cs} `{AnchorStoreLaws As}.

Abbreviation V := (ConsensusValidator L Es Cs As St).

(** The validator once the engine has handed over its anchors. *)
Definition taken (v : V) : V := FP.set_engine (Eng.take_pending_anchors (cv_engine v)).1 v.

Lemma complete_keeps_unmarked (v : V) c :
  c ∈ pending_completions (cv_engine v) → ce_persisted c = false →
  c ∈ pending_completions (Eng.complete_pending_finalizations (cv_engine v)).
Proof.
  intros Hc Hp. unfold Eng.complete_pending_finalizations.
  assert (Hk : ∀ l e, pending_completions (foldl Eng.complete_entry e l) = pending_completions (L := L) (Es := Es) (St := St) e).
  { intros l. induction l as [|x l IH]; intros e; [done|]. cbn [foldl]. rewrite IH. unfold Eng.complete_entry.
    unfold Eng.broadcast, Eng.notify, Eng.send_legacy_message. repeat case_match; done. }
  rewrite Hk. cbn. by apply list_elem_of_filter.
Qed.

Lemma complete_anchors (v : V) :
  pending_persist_anchors (Eng.complete_pending_finalizations (cv_engine v)) = pending_persist_anchors (cv_engine v).
Proof.
  unfold Eng.complete_pending_finalizations.
  assert (Hk : ∀ l e, pending_persist_anchors (foldl Eng.complete_entry e l) = pending_persist_anchors (L := L) (Es := Es) (St := St) e).
  { intros l. induction l as [|x l IH]; intros e; [done|]. cbn [foldl]. rewrite IH. unfold Eng.complete_entry.
    unfold Eng.broadcast, Eng.notify, Eng.send_legacy_message. repeat case_match; done. }
  by rewrite Hk.
Qed.

(** An anchor that was finalized inline and could not be persisted is forgotten:
    [submit_event] and [try_heartbeat] take it out of the engine before they
    persist it, so afterwards nothing is queued for another attempt, while its
    completion entry waits for the mark. *)
Theorem failed_inline_persist_forgotten anchor now v w e c :
  pending_persist_anchors (cv_engine v) = [anchor] →
  ab_get (cv_anchor_store v) (a_id anchor) = None → dag_ok v → durable v →
  FP.persist_finalized_anchor ByValidator quiet anchor now (taken v) = (w, Err e) →
  c ∈ pending_completions (cv_engine v) → ce_anchor_id c = a_id anchor → ce_persisted c = false →
  ∃ v', CV.persist_inline (fun _ => quiet) now v = (v', Ok tt) ∧
    pending_persist_anchors (cv_engine v') = [] ∧ c ∈ pending_completions (cv_engine v').
Proof.
  intros Hq Hno Hk Hd Hp Hc Hca Hcp.
  assert (Hw : same_waiting (taken v) w).
  { pose proof (persist_ends ByValidator anchor now (taken v) Hno Hk Hd) as Ho. rewrite Hp in Ho.
    destruct Ho as [_ Ho]. destruct e; apply Ho. }
  assert (Et : Eng.take_pending_anchors (cv_engine v) = ((Eng.take_pending_anchors (cv_engine v)).1, [anchor]))
    by (by rewrite <-Hq).
  destruct Hw as [Ec Ea]. unfold CV.persist_inline. rewrite Et. fold (taken v). cbn [CV.persist_all].
  unfold sbind, CV.persist_and_mark. rewrite Hp. cbn [sret]. eexists. split; [reflexivity|]. split.
  - cbn [FP.on_engine FP.set_engine cv_engine]. rewrite complete_anchors. by rewrite Ea.
  - apply complete_keeps_unmarked; [by rewrite Ec|done].
Qed.
End Inline.

(** ** Recovery *)

Section Recovery.
Context `{Blake3} `{HexCrate} `{StateBcs} {St : Type} `{B4Store St} `{Ed25519}.
Context {L Es Cs : Type} `{LruCache L} `{EventStoreBackend Es} `{CFStoreBackend Cs}.

Abbreviation V := (ConsensusValidator L Es Cs AnchorStore St).

Lemma set_round_round r vs : current_round (VS.set_round r vs) = r.
Proof. unfold VS.set_round, VS.update_leader_for_round. repeat case_match; done. Qed.

Lemma get_latest_store a s : AS.get_latest (AS.store a s) = Some a.
Proof. unfold AS.get_latest, AS.get, AS.store. cbn. rewrite last_snoc. cbn. apply lookup_insert_eq. Qed.

Lemma recent_nonempty s a n :
  list.last (as_chain s) = Some (a_id a) → AS.get s (a_id a) = Some a → (0 < n)%nat → AS.get_recent_anchors s n ≠ [].
Proof.
  intros Hl Hg Hn. apply list.last_Some in Hl as [l El]. unfold AS.get_recent_anchors. rewrite El, length_app. cbn.
  rewrite drop_app_le by lia. rewrite reverse_snoc. cbn. by rewrite Hg.
Qed.

Lemma warmup_keeps anchors m :
  let m' := (DM.warmup_from_anchors (L := L) (Es := Es) anchors m).1 in
  event_store m' = event_store m ∧ dm_dag m' = dm_dag m ∧ dm_min_depth m' = dm_min_depth m.
Proof.
  unfold DM.warmup_from_anchors. cbn zeta.
  set (P := fun st : DagManager L Es * nat =>
    event_store st.1 = event_store m ∧ dm_dag st.1 = dm_dag m ∧ dm_min_depth st.1 = dm_min_depth m).
  assert (Hw : ∀ a st id, P st → P (DM.warm_event a st id)).
  { intros a [m1 k] id Hp. unfold DM.warm_event. repeat case_match; done. }
  assert (Hl : ∀ a l st, P st → P (foldl (DM.warm_event a) st l)).
  { intros a l. induction l as [|id l IH]; intros st Hp; [done|]. by apply IH, Hw. }
  assert (Ha : ∀ l st, P st → P (foldl (fun st a => foldl (DM.warm_event a) st (a_event_ids a)) st l)).
  { intros l. induction l as [|a l IH]; intros st Hp; [done|]. by apply IH, Hl. }
  by apply (Ha anchors (m, 0%nat)).
Qed.
(** What recovery reads when the last write was [anchor]. *)
Lemma recovery_of_store anchor s roots :
  merkle_roots anchor = Some roots →
  AS.get_recovery_state (AS.store anchor s) =
    Some (chain_hash (anchor_chain_root roots) (Anch.compute_hash anchor), a_depth anchor,
          Z.of_nat (S (length (as_chain s))), logical_time (a_vlc_snapshot anchor)).
Proof.
  intros Hr. unfold AS.get_recovery_state. rewrite get_latest_store. cbn. unfold AS.root_after. rewrite Hr. cbn.
  rewrite length_app, Nat.add_comm. done.
Qed.

(** The whole recovery, unfolded once. *)
Lemma recover_engine anchor s roots (w : V) :
  merkle_roots anchor = Some roots → cv_anchor_store w = AS.store anchor s →
  let recent := AS.get_recent_anchors (cv_anchor_store w) 10 in
  let r := (chain_hash (anchor_chain_root roots) (Anch.compute_hash anchor), a_depth anchor,
            Z.of_nat (S (length (as_chain s))), logical_time (a_vlc_snapshot anchor)) in
  let e1 := Eng.set_dm (DM.warmup_from_anchors recent (dag_manager (cv_engine w))).1 (cv_engine w) in
  let e2 := CV.restore_builder r e1 in
  CV.recover_from_storage w =
    FP.set_engine (Eng.set_vlc (Node.restore_from_snapshot (vlc e2) (a_vlc_snapshot anchor)) (logical_time_counter e2) e2)
      (FP.set_local_set (VS.set_round r.1.2 (cv_validator_set w)) w).
Proof.
  intros Hr Hs. cbn zeta. unfold CV.recover_from_storage.
  assert (Hrec : AS.get_recent_anchors (cv_anchor_store w) 10 ≠ []).
  { apply (recent_nonempty _ anchor); [by rewrite Hs; cbn; rewrite last_snoc| |lia].
    rewrite Hs. unfold AS.get. cbn. apply lookup_insert_eq. }
  rewrite bool_decide_eq_false_2 by (cbn; intros Hz; apply Hrec; by apply length_zero_iff_nil in Hz).
  cbn [ab_get_recent_anchors ab_get_recovery_state ab_get_latest AnchorStore_backend].
  change (cv_anchor_store (FP.on_engine ?f w)) with (cv_anchor_store w).
  rewrite Hs, (recovery_of_store anchor s roots Hr). cbv beta iota.
  change (cv_anchor_store (FP.set_local_set ?x ?y)) with (cv_anchor_store y).
  change (cv_anchor_store (FP.on_engine ?f ?y)) with (cv_anchor_store y).
  change (cv_anchor_store (FP.on_engine ?f w)) with (cv_anchor_store w). rewrite Hs, get_latest_store. done.
Qed.
Section Roundtrip.
Context `{!EventStoreLaws Es} `{!CFStoreLaws Cs}.
Variables (who : Persister) (anchor : Anchor) (roots : AnchorMerkleRoots) (now : Z) (v v' w : V) (b0 : AnchorBuilder St).
Hypothesis Hnew : AS.get (cv_anchor_store v) (a_id anchor) = None.
Hypothesis Hdag : dag_ok v.
Hypothesis Hdurable : durable v.
Hypothesis Hpersist : FP.persist_finalized_anchor who quiet anchor now v = (v', Ok tt).
Hypothesis Hroots : merkle_roots anchor = Some roots.
Hypothesis Hrestart : cv_anchor_store w = cv_anchor_store v'.

Lemma persisted_store : cv_anchor_store w = AS.store anchor (cv_anchor_store v).
Proof.
  pose proof (persist_ends who anchor now v Hnew Hdag Hdurable) as Ho. rewrite Hpersist in Ho.
  destruct Ho as [_ (Hs & _)]. cbn in Hs. injection Hs as Hs. by rewrite Hrestart, Hs.
Qed.

(** C33: recovery gives back what was persisted.  After an anchor was persisted, a
    validator restarted over the same anchor store and recovered has the chain
    root and the fold clock that finalizing the anchor gave the live builder
    ([live]), counts the stored anchors, is at the round of that count in the
    engine's and in its own validator set, has the clock and the logical time of
    the anchor, refuses events at or below its depth, and has changed no store. *)
Theorem recovery_roundtrip :
  let live := AB.synchronize_finalized_anchor anchor now b0 in
  let w' := CV.recover_from_storage w in
  let e := cv_engine w' in
  let b := anchor_builder (consensus_manager e) in
  let n := Z.of_nat (S (length (as_chain (cv_anchor_store v)))) in
  last_anchor_chain_root b = last_anchor_chain_root live ∧ last_fold_vlc b = last_fold_vlc live ∧
  total_anchor_count b = n ∧ current_round (validator_set e) = n ∧ current_round (cv_validator_set w') = n ∧
  vlc e = Node.restore_from_snapshot (vlc (cv_engine w)) (a_vlc_snapshot anchor) ∧
  logical_time_counter e = logical_time (a_vlc_snapshot anchor) ∧
  (u64_add (a_depth anchor) 1 ≤ dm_min_depth (dag_manager e))%Z ∧
  FP.cv_event_store w' = FP.cv_event_store w ∧ cv_anchor_store w' = cv_anchor_store w ∧ cv_cf_store w' = cv_cf_store w.
Proof.
  cbn zeta. pose proof (recover_engine anchor (cv_anchor_store v) roots w Hroots persisted_store) as Hw. cbn zeta in Hw.
  pose proof (warmup_keeps (AS.get_recent_anchors (cv_anchor_store w) 10) (dag_manager (cv_engine w))) as (Hes & _ & _).
  rewrite Hw. unfold AB.synchronize_finalized_anchor. rewrite Hroots.
  split_and!; try reflexivity; try apply set_round_round; [apply Z.le_max_r|exact Hes].
Qed.

(** The recovered builder is not the one of a node that kept running: it starts
    one depth lower, at the depth of the anchor, and it has no last anchor when
    the restarted builder has none, so its next anchor names no predecessor. *)
Theorem recovered_builder_behind :
  let live := AB.synchronize_finalized_anchor anchor now b0 in
  let b := anchor_builder (consensus_manager (cv_engine (CV.recover_from_storage w))) in
  anchor_depth b = a_depth anchor ∧ anchor_depth live = u64_add (a_depth anchor) 1 ∧
  last_anchor b = last_anchor (anchor_builder (consensus_manager (cv_engine w))) ∧ last_anchor live = Some anchor.
Proof.
  cbn zeta. pose proof (recover_engine anchor (cv_anchor_store v) roots w Hroots persisted_store) as Hw. cbn zeta in Hw.
  by rewrite Hw.
Qed.
End Roundtrip.
End Recovery.

(** ** Instances *)

Section Instances.
#[local] Existing Instance toy_blake3.
#[local] Existing Instance hex_lower.
#[local] Existing Instance wit_bcs.
#[local] Existing Instance list_lru.
#[local] Existing Instance toy_ed25519.

Abbreviation WV := (ConsensusValidator (nat * list entry) EventStore CFStore AnchorStore InMemoryMerkleStore).

(** A node with one event in its DAG, which the anchor folds; the frame of the
    anchor is queued and its completion waits. *)
Definition wit_ev : Event := mkEvent "g" Genesis [] None [] (Vlc.snapshot wit_clock) "a" Pending None 0.
Definition wit_folded : Anchor :=
  Anch.with_merkle_roots ["g"] (Vlc.snapshot wit_clock) (mkRoots zero_hash zero_hash zero_hash ∅) None 0 5.
Definition wit_final : ConsensusFrame := CF.finalize (CF.new 0 wit_folded "a" 5) 6.
Definition wit_node : WV :=
  let e := Eng.set_dm (DM.set_dag (fun d => match D.add_event d wit_ev with Ok (d, _) => d | _ => d end)
                         (dag_manager wit_engine)) wit_engine in
  let e := Eng.set_persist [wit_folded] [wit_final] e in
  mkConsensusValidator (Eng.set_completions [mkCompletion wit_final (a_id wit_folded) 0 false] e) wit_set CFS.new AS.new ∅ ∅ false.

Lemma wit_node_dag : dag_ok wit_node.
Proof.
  unfold dag_ok, wit_node. cbn. destruct (D.add_event D.new wit_ev) as [[d id]| |] eqn:E; [|apply new_wf..].
  by destruct (add_event_wf _ _ _ _ new_wf E).
Qed.

Lemma wit_node_durable : durable wit_node.
Proof. done. Qed.

(** Maintenance runs at every wait. *)
Definition wit_busy (_ _ : nat) (v : WV) : WV := FP.on_engine (Eng.run_periodic_maintenance 5) v.

Lemma wit_busy_benign : benign wit_busy.
Proof. split; [|done]. intros i j v. by apply same_stores_grows. Qed.

Lemma persist_crash_safe_witness :
  let v := (FP.run_steps (take 6 (FP.anchor_steps ByValidator wit_busy wit_folded 7 wit_node)) wit_node).1 in
  durable v ∧ AS.get (cv_anchor_store v) (a_id wit_folded) = Some wit_folded.
Proof.
  intros v. split.
  - exact (persist_crash_safe ByValidator wit_busy wit_folded 7 wit_busy_benign 6 wit_node wit_node_dag wit_node_durable).
  - vm_compute. reflexivity.
Defined.

Lemma cf_index_behaviour_witness :
  let v' := (FP.persist_pending_finalized_cfs ByRouter calm 7 wit_node).1 in
  wit_final ∉ pending_persist_cfs (cv_engine v') ∧ is_Some (CFS.get (cv_cf_store v') (cf_id wit_final)).
Proof.
  assert (Hnd : NoDup (cf_id <$> pending_persist_cfs (cv_engine wit_node))) by apply NoDup_singleton.
  pose proof (cf_index_behaviour ByRouter 7 wit_node Hnd) as Hi.
  assert (Hok : (FP.persist_pending_finalized_cfs ByRouter calm 7 wit_node).2 = Ok tt) by (vm_compute; reflexivity).
  assert (Hq : pending_persist_cfs (cv_engine (FP.persist_pending_finalized_cfs ByRouter calm 7 wit_node).1) = [])
    by (vm_compute; reflexivity).
  destruct (FP.persist_pending_finalized_cfs ByRouter calm 7 wit_node) as [v' r]. cbn [fst snd] in *. subst r.
  destruct (Hi wit_final) as [(H1 & H2 & _)|[H1 _]]; [left|by split|]. rewrite Hq in H1. by apply not_elem_of_nil in H1.
Defined.

Lemma persist_behaviour_witness :
  let '(v', r) := FP.persist_finalized_anchor ByValidator quiet wit_folded 7 wit_node in
  r = Ok tt ∧ AS.get (cv_anchor_store v') (a_id wit_folded) = Some wit_folded ∧ has_events v' wit_folded.
Proof.
  pose proof (persist_behaviour ByValidator wit_folded 7 wit_node eq_refl wit_node_dag wit_node_durable) as Ho.
  assert (Hok : (FP.persist_finalized_anchor ByValidator quiet wit_folded 7 wit_node).2 = Ok tt) by (vm_compute; reflexivity).
  destruct (FP.persist_finalized_anchor ByValidator quiet wit_folded 7 wit_node) as [v' r]. cbn [snd] in Hok. subst r.
  destruct Ho as (_ & _ & H1 & H2 & _). split; [reflexivity|]. split; [exact H1|exact H2].
Defined.

(** The restarted node: new in memory, over the stores it left. *)
Definition wit_left : WV := (FP.persist_finalized_anchor ByValidator quiet wit_folded 7 wit_node).1.
Definition wit_restart (v : WV) : WV :=
  mkConsensusValidator wit_engine wit_set (cv_cf_store v) (cv_anchor_store v) ∅ ∅ false.

Lemma wit_restart_anchors v : cv_anchor_store (wit_restart v) = cv_anchor_store v.
Proof. reflexivity. Qed.

Lemma recovery_roundtrip_witness :
  let b := anchor_builder (consensus_manager (cv_engine (CV.recover_from_storage (wit_restart wit_left)))) in
  last_anchor_chain_root b = chain_hash zero_hash (Anch.compute_hash wit_folded) ∧ total_anchor_count b = 1%Z ∧
  total_anchor_count (anchor_builder (consensus_manager (cv_engine (wit_restart wit_left)))) = 0%Z.
Proof.
  assert (Hok : (FP.persist_finalized_anchor ByValidator quiet wit_folded 7 wit_node).2 = Ok tt) by (vm_compute; reflexivity).
  assert (Hp : FP.persist_finalized_anchor ByValidator quiet wit_folded 7 wit_node = (wit_left, Ok tt)).
  { unfold wit_left. rewrite <-Hok. apply surjective_pairing. }
  destruct (recovery_roundtrip ByValidator wit_folded (mkRoots zero_hash zero_hash zero_hash ∅) 7 wit_node wit_left (wit_restart wit_left)
              (anchor_builder (consensus_manager wit_engine)) eq_refl wit_node_dag wit_node_durable Hp eq_refl (wit_restart_anchors wit_left))
    as (H1 & _ & H2 & _).
  split; [exact H1|]. split; [exact H2|reflexivity].
Defined.
End Instances.
