(* ===== verification/Sync.v ===== *)
(** * Messages between validators and catching up

    [setu-validator/src/protocol/message.rs] ([SetuMessage], [NetworkEvent]),
    [network_adapter/setu_handler.rs] and [consensus_store.rs] (answering a peer),
    [state_sync_client.rs] (asking peers), [router.rs] ([MessageRouter]) and
    [startup_catchup.rs] (the loop that pulls finalized frames).

    The transport and [bincode] are parameters: [send] gives the bytes a peer
    answers, or nothing when the call fails or times out.  The clock of the
    catch-up loop is a function of the turn and of the reading inside it. *)

From Stdlib Require Import ZArith Lia.
From stdpp Require Import base gmap sets list sorting strings numbers.
From S2P Require Import Prelude Hash Vlc Event Dag Coin StateStore SparseMerkle MerkleStore StateManager Overlay ConsensusTypes AnchorBuilder Consensus Election EventStore DagManager Engine FinalityStores Persistence.
#[local] Open Scope setu_scope.

(** ** Messages *)

Module Net.
Inductive NetworkEvent :=
| PeerConnected (peer_id : string) (node_info : NodeInfo)
| PeerDisconnected (peer_id : string)
| EventReceived (peer_id : string) (event : Event)
| CFProposal (peer_id : string) (cf : ConsensusFrame)
| VoteReceived (peer_id : string) (vote : Vote)
| CFFinalized (peer_id : string) (cf : ConsensusFrame).

Definition peer_id (e : NetworkEvent) : string :=
  match e with
  | PeerConnected p _ | PeerDisconnected p | EventReceived p _ | CFProposal p _ | VoteReceived p _ | CFFinalized p _ => p
  end.
End Net.

Module Msg.
Inductive SetuMessage :=
| EventBroadcast (event : Event) (sender_id : string)
| CFProposal (cf : ConsensusFrame) (proposer_id : string)
| CFVote (vote : Vote)
| CFFinalized (cf : ConsensusFrame) (sender_id : string)
| RequestEvents (event_ids : list EventId) (requester_id : string)
| EventsResponse (events : list Event) (responder_id : string)
| Ping (timestamp nonce : Z)
| Pong (timestamp nonce : Z)
| RequestFinalizedCFs (after_depth limit : Z) (requester_id : string)
| FinalizedCFsResponse (cfs : list ConsensusFrame) (highest_finalized_depth : Z) (responder_id : string).

Definition expects_response (m : SetuMessage) : bool :=
  match m with RequestEvents _ _ | Ping _ _ | RequestFinalizedCFs _ _ _ => true | _ => false end.

Definition is_consensus_message (m : SetuMessage) : bool :=
  match m with CFProposal _ _ | CFVote _ | CFFinalized _ _ => true | _ => false end.
End Msg.

Record SerializedEvent := mkSerialized { se_seq : Z; se_id : EventId; se_data : bytes }.

(** What the code uses of [bincode]: a value that serializes is read back. *)
Class Bincode := {
  ser_event : Event → option bytes;
  de_event : bytes → option Event;
  ser_message : Msg.SetuMessage → option bytes;
  de_message : bytes → option Msg.SetuMessage
}.
Class BincodeLaws `{Bincode} := {
  de_ser_event : ∀ e b, ser_event e = Some b → de_event b = Some e;
  de_ser_message : ∀ m b, ser_message m = Some b → de_message b = Some m
}.

(** ** Answering a peer *)

Class MessageHandlerStore (S : Type) := {
  get_events_by_ids : S → list EventId → result string (list SerializedEvent);
  store_events : list SerializedEvent → S → S * result string unit;
  get_finalized_cfs_after_depth : S → Z → Z → result string (list ConsensusFrame * Z)
}.

Inductive HandlerError := HDeserialize | HSerialize.

Definition SETU_ROUTE : string := "/setu".
Definition MAX_BATCH : Z := 64.

Module SH.
Section SH.
Context `{Bincode} {S : Type} `{MessageHandlerStore S}.

(** The answer, and the network events sent to the router. *)
Definition handle_message (store : S) (local_node_id : string) (m : Msg.SetuMessage)
    : option Msg.SetuMessage * list Net.NetworkEvent :=
  match m with
  | Msg.RequestEvents ids _ =>
      let events := match get_events_by_ids store ids with
                    | Ok ses => omap (fun se => de_event (se_data se)) ses
                    | _ => []
                    end in
      (Some (Msg.EventsResponse events local_node_id), [])
  | Msg.Ping t n => (Some (Msg.Pong t n), [])
  | Msg.RequestFinalizedCFs after_depth limit _ =>
      let '(cfs, highest) := match get_finalized_cfs_after_depth store after_depth (Z.min limit MAX_BATCH) with
                             | Ok r => r
                             | _ => ([], 0%Z)
                             end in
      (Some (Msg.FinalizedCFsResponse cfs highest local_node_id), [])
  | Msg.EventBroadcast event sender => (None, [Net.EventReceived sender event])
  | Msg.CFProposal cf proposer => (None, [Net.CFProposal proposer cf])
  | Msg.CFVote vote => (None, [Net.VoteReceived (v_validator_id vote) vote])
  | Msg.CFFinalized cf sender => (None, [Net.CFFinalized sender cf])
  | Msg.EventsResponse _ _ | Msg.Pong _ _ | Msg.FinalizedCFsResponse _ _ _ => (None, [])
  end.

Definition handle (store : S) (local_node_id : string) (route : string) (body : bytes)
    : result HandlerError (option bytes) * list Net.NetworkEvent :=
  if negb (bool_decide (route = SETU_ROUTE)) then (Ok None, [])
  else match de_message body with
       | None => (Err HDeserialize, [])
       | Some m =>
           match handle_message store local_node_id m with
           | (None, sent) => (Ok None, sent)
           | (Some response, sent) =>
               (match ser_message response with Some b => Ok (Some b) | None => Err HSerialize end, sent)
           end
       end.
End SH.
End SH.

(** The engine and its stores behind the handler. *)
Section EngineStore.
Context `{Bincode} `{Blake3} `{HexCrate} `{StateBcs} {St : Type} `{B4Store St} `{Ed25519}.
Context {L Es Cs As : Type} `{LruCache L} `{EventStoreBackend Es} `{CFStoreBackend Cs} `{AnchorStoreBackend As}.

Abbreviation V := (ConsensusValidator L Es Cs As St).

Definition engine_get_events_by_ids (v : V) (ids : list EventId) : result string (list SerializedEvent) :=
  Ok ((fun e => mkSerialized 0 (ev_id e) (default [] (ser_event e))) <$>
      Eng.get_events_by_ids_three_layer (cv_engine v) ids).

(** Events that do not parse or whose id is not the envelope's are dropped, and
    errors of the store are logged. *)
Definition engine_store_event (v : V) (se : SerializedEvent) : V :=
  match de_event (se_data se) with
  | Some e =>
      if bool_decide (ev_id e = se_id se) then FP.set_event_store (eb_store e (FP.cv_event_store v)).1 v else v
  | None => v
  end.

Definition engine_store_events (ses : list SerializedEvent) (v : V) : V * result string unit :=
  (foldl engine_store_event v ses, Ok tt).

Definition engine_get_finalized_cfs_after_depth (v : V) (after_depth limit : Z)
    : result string (list ConsensusFrame * Z) :=
  let? cfs := cb_get_finalized_after_depth (cv_cf_store v) after_depth (Z.to_nat limit) in
  let? highest := cb_highest_finalized_depth (cv_cf_store v) in
  Ok (cfs, highest).

#[global] Instance ConsensusEngineStore : MessageHandlerStore V := {
  get_events_by_ids := engine_get_events_by_ids;
  store_events := engine_store_events;
  get_finalized_cfs_after_depth := engine_get_finalized_cfs_after_depth
}.
End EngineStore.

(** ** Asking peers *)

Inductive SyncError := NoPeers | AllPeersFailed | UnexpectedVariant | SSerialize | SDeserialize.

Module SC.
Section SC.
Context `{Bincode} `{HexCrate}.
Variables (local_id : string) (peers : list string) (send : bytes → bytes → option bytes).

Definition parse_peer_id (s : string) : option bytes :=
  match hex_decode s with
  | Some b => if (length b =? 32)%nat then Some b else None
  | None => None
  end.

(** The first peer that answers decides. *)
Fixpoint first_answer (ps : list string) (request : bytes) : result SyncError Msg.SetuMessage :=
  match ps with
  | [] => Err AllPeersFailed
  | p :: rest =>
      match parse_peer_id p with
      | None => first_answer rest request
      | Some id =>
          match send id request with
          | Some b => match de_message b with Some m => Ok m | None => Err SDeserialize end
          | None => first_answer rest request
          end
      end
  end.

Definition ask (m : Msg.SetuMessage) : result SyncError Msg.SetuMessage :=
  match ser_message m with
  | None => Err SSerialize
  | Some b => if bool_decide (peers = []) then Err NoPeers else first_answer peers b
  end.

Definition pull_finalized_after_depth (after_depth : Z) : result SyncError (list ConsensusFrame * Z) :=
  let? m := ask (Msg.RequestFinalizedCFs after_depth MAX_BATCH local_id) in
  match m with Msg.FinalizedCFsResponse cfs highest _ => Ok (cfs, highest) | _ => Err UnexpectedVariant end.

Definition pull_events_by_ids (ids : list EventId) : result SyncError (list Event) :=
  if bool_decide (ids = []) then Ok []
  else
    let? m := ask (Msg.RequestEvents ids local_id) in
    match m with Msg.EventsResponse events _ => Ok events | _ => Err UnexpectedVariant end.
End SC.
End SC.

(** ** The catch-up loop *)

Inductive CatchUpError :=
| NoProgress (d : Z)
| BudgetExceeded (d : Z)
| ApplyFailed (e : EngineError)
| CfPull (e : SyncError)
| CStore (reason : string).

Record CatchUpStats := mkCatchUpStats {
  cfs_applied : Z;
  final_depth : Z;
  peer_highest_seen : Z;
  cs_elapsed : Z
}.

Record CatchUpConfig := mkCatchUpConfig {
  no_progress_timeout : Z;
  wall_clock_budget : Z;
  idle_poll_interval : Z
}.

(** Milliseconds. *)
Definition catch_up_config_default : CatchUpConfig := mkCatchUpConfig 30000 60000 250.

(** Where frames come from, by turn, and where they go. *)
Definition CatchUpSource : Type := nat → Z → result CatchUpError (list ConsensusFrame * Z).

Record CatchUpApplier (A : Type) := mkApplier {
  ca_highest_finalized_depth : A → result CatchUpError Z;
  ca_apply_cf : ConsensusFrame → stm A CatchUpError unit
}.
Arguments mkApplier {A}.
Arguments ca_highest_finalized_depth {A} _.
Arguments ca_apply_cf {A} _.

Module CU.
Section CU.
Context {A : Type} (source : CatchUpSource) (applier : CatchUpApplier A) (config : CatchUpConfig).
Variables (clock : nat → nat → Z) (start : Z) (env : nat → A → A).

Definition stats_default : CatchUpStats := mkCatchUpStats 0 0 0 0.

(** The loop over the frames of turn [i]; the time of the last one is kept. *)
Fixpoint apply_all (i k : nat) (cfs : list ConsensusFrame) (applied last_progress : Z)
    : stm A CatchUpError (Z * Z) :=
  match cfs with
  | [] => sret (applied, last_progress)
  | cf :: rest =>
      let! _ := ca_apply_cf applier cf in
      apply_all i (S k) rest (u64_add applied 1) (clock i (3 + k))
  end.

(** The loop; [env i] is what other tasks did before turn [i], and the result is
    nothing when the turns given are used up. *)
Fixpoint catch_up_loop (fuel i : nat) (last_progress : Z) (stats : CatchUpStats) (a : A)
    : option (A * result CatchUpError CatchUpStats) :=
  match fuel with
  | O => None
  | S fuel' =>
      let a := env i a in
      let elapsed := (clock i 0 - start)%Z in
      if (wall_clock_budget config <? elapsed)%Z then Some (a, Err (BudgetExceeded elapsed))
      else
        match ca_highest_finalized_depth applier a with
        | Err e => Some (a, Err e)
        | Panic => Some (a, Panic)
        | Ok local_depth =>
            match source i local_depth with
            | Err e => Some (a, Err e)
            | Panic => Some (a, Panic)
            | Ok (cfs, peer_highest) =>
                let seen := Z.max (peer_highest_seen stats) peer_highest in
                let stats := mkCatchUpStats (cfs_applied stats) local_depth seen (cs_elapsed stats) in
                if bool_decide (cfs = []) then
                  if (peer_highest <=? local_depth)%Z
                  then Some (a, Ok (mkCatchUpStats (cfs_applied stats) local_depth seen (clock i 1 - start)))
                  else if (no_progress_timeout config <? clock i 1 - last_progress)%Z
                  then Some (a, Err (NoProgress (clock i 2 - last_progress)))
                  else catch_up_loop fuel' (S i) last_progress stats a
                else
                  match apply_all i 0 (merge_sort depth_asc cfs) (cfs_applied stats) last_progress a with
                  | (a, Ok (applied, lp)) =>
                      catch_up_loop fuel' (S i) lp (mkCatchUpStats applied local_depth seen (cs_elapsed stats)) a
                  | (a, Err e) => Some (a, Err e)
                  | (a, Panic) => Some (a, Panic)
                  end
            end
        end
  end.

Definition run_startup_catch_up (fuel : nat) (a : A) : option (A * result CatchUpError CatchUpStats) :=
  catch_up_loop fuel 0 start stats_default a.
End CU.
End CU.

(** The gate in front of the HTTP server ([main.rs]). *)
Definition http_ready (r : result CatchUpError CatchUpStats) : bool := match r with Ok _ => true | _ => false end.

Section Bridges.
Context `{Bincode} `{Blake3} `{HexCrate} `{StateBcs} {St : Type} `{B4Store St} `{Ed25519}.
Context {L Es Cs As : Type} `{LruCache L} `{EventStoreBackend Es} `{CFStoreBackend Cs} `{AnchorStoreBackend As}.

Abbreviation V := (ConsensusValidator L Es Cs As St).

Definition StateSyncCatchUpSource (local_id : string) (peers : nat → list string) (send : nat → bytes → bytes → option bytes)
    : CatchUpSource := fun i after_depth =>
  match SC.pull_finalized_after_depth local_id (peers i) (send i) after_depth with
  | Ok r => Ok r
  | Err e => Err (CfPull e)
  | Panic => Panic
  end.

Definition EngineCatchUpApplier (peers : Eng.Peers (L := L) (Es := Es))
    (env : ConsensusEngine L Es St → ConsensusEngine L Es St) (now : Z) : CatchUpApplier V := mkApplier
  (fun v => match cb_highest_finalized_depth (cv_cf_store v) with Ok d => Ok d | Err e => Err (CStore e) | Panic => Panic end)
  (fun cf v =>
     match Eng.receive_finalized_cf peers env cf now (cv_engine v) with
     | (e, Ok _) => (FP.set_engine e v, Ok tt)
     | (e, Err x) => (FP.set_engine e v, Err (ApplyFailed x))
     | (e, Panic) => (FP.set_engine e v, Panic)
     end).
End Bridges.

(** ** The router *)

(** What the handlers read from outside, and what others do while they wait. *)
Record RouterEnv (L Es Cs As St : Type) := mkRouterEnv {
  re_now : Z;
  re_dag : nat → nat → DagManager L Es → DagManager L Es;
  re_request : list EventId → option (list Event);
  re_peers : Eng.Peers (L := L) (Es := Es);
  re_engine : ConsensusEngine L Es St → ConsensusEngine L Es St;
  re_persist : nat → nat → ConsensusValidator L Es Cs As St → ConsensusValidator L Es Cs As St;
  state_sync_client : bool
}.
Arguments mkRouterEnv {L Es Cs As St}.
Arguments re_now {L Es Cs As St} _.
Arguments re_dag {L Es Cs As St} _.
Arguments re_request {L Es Cs As St} _.
Arguments re_peers {L Es Cs As St} _.
Arguments re_engine {L Es Cs As St} _.
Arguments re_persist {L Es Cs As St} _.
Arguments state_sync_client {L Es Cs As St} _.

Module MR.
Section MR.
Context `{Blake3} `{HexCrate} `{StateBcs} {St : Type} `{B4Store St} `{Ed25519}.
Context {L Es Cs As : Type} `{LruCache L} `{EventStoreBackend Es} `{CFStoreBackend Cs} `{AnchorStoreBackend As}.

Abbreviation V := (ConsensusValidator L Es Cs As St).
Abbreviation Env := (RouterEnv L Es Cs As St).
(** A handler logs its errors; a panic ends the task. *)
Abbreviation task := (stm V Empty_set).

(** An operation of the engine with its error as a value. *)
Definition attempt {A} (f : stm (ConsensusEngine L Es St) EngineError A) : task (A + EngineError) := fun v =>
  match f (cv_engine v) with
  | (e, Ok a) => (FP.set_engine e v, Ok (inl a))
  | (e, Err x) => (FP.set_engine e v, Ok (inr x))
  | (e, Panic) => (FP.set_engine e v, Panic)
  end.

(** [error_str.contains("Missing parent")]. *)
Definition is_missing_parent (x : EngineError) : bool :=
  match x with
  | EDagManager (DmMissingParent _) | EDagManager (DmDag (MissingParent _)) => true
  | _ => false
  end.

Fixpoint add_parents (env : Env) (i : nat) (parents : list Event) : task unit :=
  match parents with
  | [] => sret tt
  | p :: rest =>
      let! _ := attempt (Eng.receive_event_from_network (re_dag env i) p (re_now env)) in
      add_parents env (S i) rest
  end.

Definition handle_event (env : Env) (event : Event) : task unit := fun v =>
  if negb (verify_id event) then (v, Ok tt)
  else
    (let! r := attempt (Eng.receive_event_from_network (re_dag env 0) event (re_now env)) in
     match r with
     | inl _ => sret tt
     | inr x =>
         if is_missing_parent x then
           fun v =>
             if broadcaster (cv_engine v) then
               match re_request env (parent_ids event) with
               | Some parents =>
                   (let! _ := add_parents env 1 parents in
                    let! _ := attempt (Eng.receive_event_from_network (re_dag env (S (length parents))) event (re_now env)) in
                    sret tt) v
               | None => (v, Ok tt)
               end
             else (v, Ok tt)
         else sret tt
     end) v.

(** What every handler of frames does with a finalized anchor. *)
Definition persist_finalized (env : Env) (r : bool * option Anchor) : task unit := fun v =>
  match r with
  | (true, Some a) =>
      match FP.persist_finalized_anchor ByRouter (re_persist env) a (re_now env) v with
      | (v, Ok _) => (FP.on_engine Eng.complete_pending_finalizations v, Ok tt)
      | (v, Err _) => (v, Ok tt)
      | (v, Panic) => (v, Panic)
      end
  | _ => (v, Ok tt)
  end.

(** Takes the flag; the result is whether a catch-up task was spawned. *)
Definition trigger_catch_up_for_cf (env : Env) : task bool := fun v =>
  if negb (state_sync_client env) then (v, Ok false)
  else if catch_up_in_progress v then (v, Ok false)
  else (FP.set_catch_up true v, Ok true).

(** The spawned task: the loop, and the flag is released. *)
Definition catch_up_task (source : CatchUpSource) (peers : Eng.Peers (L := L) (Es := Es))
    (eenv : ConsensusEngine L Es St → ConsensusEngine L Es St) (clock : nat → nat → Z) (start now : Z)
    (env : nat → V → V) (fuel : nat) (v : V) : option V :=
  match CU.run_startup_catch_up source (EngineCatchUpApplier peers eenv now) catch_up_config_default clock start env fuel v with
  | Some (v, Panic) => Some v
  | Some (v, _) => Some (FP.set_catch_up false v)
  | None => None
  end.

Definition handle_cf_proposal (env : Env) (cf : ConsensusFrame) : task bool :=
  let! r := attempt (Eng.receive_cf (re_peers env) (re_engine env) cf (re_now env)) in
  match r with
  | inl (Accepted finalized anchor) => let! _ := persist_finalized env (finalized, anchor) in sret false
  | inl (NeedsCatchUp _ _) => trigger_catch_up_for_cf env
  | inl (Stale _ _) | inr _ => sret false
  end.

Definition handle_vote (env : Env) (vote : Vote) : task unit :=
  let! r := attempt (Eng.receive_vote vote (re_now env)) in
  match r with inl fa => persist_finalized env fa | inr _ => sret tt end.

Definition handle_cf_finalized (env : Env) (cf : ConsensusFrame) : task unit :=
  let! r := attempt (Eng.receive_finalized_cf (re_peers env) (re_engine env) cf (re_now env)) in
  match r with inl fa => persist_finalized env fa | inr _ => sret tt end.

Definition route_event (env : Env) (e : Net.NetworkEvent) : task bool :=
  match e with
  | Net.EventReceived _ event => let! _ := handle_event env event in sret false
  | Net.CFProposal _ cf => handle_cf_proposal env cf
  | Net.VoteReceived _ vote => let! _ := handle_vote env vote in sret false
  | Net.CFFinalized _ cf => let! _ := handle_cf_finalized env cf in sret false
  | Net.PeerConnected _ _ | Net.PeerDisconnected _ => sret false
  end.

(** The loop of [start] over the events received, each with its environment;
    it ends when the channel is closed or a handler panics. *)
Fixpoint router_loop (events : list (Env * Net.NetworkEvent)) (v : V) : V :=
  match events with
  | [] => v
  | (env, e) :: rest =>
      match route_event env e v with
      | (v, Panic) => v
      | (v, _) => router_loop rest v
      end
  end.
End MR.
End MR.
