(* ===== verification/NodeProps.v ===== *)
(** * The stores of a node under any traffic

    What the operations of the engine do to the DAG and to the event store, and
    the crash consistency of a node as an invariant of everything it does:
    messages routed from peers, local submissions, heartbeats, maintenance. *)

From Stdlib Require Import ZArith Lia.
From stdpp Require Import base gmap sets list strings numbers.
From S2P Require Import Prelude Hash Vlc Event Dag Coin StateStore SparseMerkle MerkleStore StateManager StateProps Overlay ConsensusTypes AnchorBuilder AnchorProps Consensus ConsensusProps Election EventStore DagManager DagManagerProps Engine EngineSteps EngineProps FinalityStores Persistence PersistenceProps Sync.
#[local] Open Scope setu_scope.

Section Kept.
Context `{Blake3} `{HexCrate} `{StateBcs} {St : Type} `{B4Store St} `{Ed25519}.
Context {L Es : Type} `{LruCache L} `{EventStoreBackend Es}.

Abbreviation Engine := (ConsensusEngine L Es St).
Abbreviation Dm := (DagManager L Es).

(** The DAG stays well formed and no stored event is lost. *)
Record dm_kept (m m' : Dm) : Prop := mkDmKept {
  dk_dag : dag_wf (dm_dag m) → dag_wf (dm_dag m');
  dk_events : ∀ i, has_event (event_store m) i → has_event (event_store m') i
}.

#[global] Instance dm_kept_preorder : PreOrder dm_kept.
Proof. split; [by split|]. intros a b c [] []. split; eauto. Qed.

Definition kept (e e' : Engine) : Prop := dm_kept (dag_manager e) (dag_manager e').
#[global] Instance kept_preorder : PreOrder kept.
Proof. split; [by intros e|]. intros a b c. unfold kept. apply transitivity. Qed.

Definition keeps {A} (m : stm Engine EngineError A) : Prop := ∀ e, kept e (m e).1.

Lemma kept_same (e e' : Engine) : dag_manager e' = dag_manager e → kept e e'.
Proof. unfold kept. by intros ->. Qed.

Lemma keeps_bind {A B'} (m : stm Engine EngineError A) (k : A → stm Engine EngineError B') :
  keeps m → (∀ a, keeps (k a)) → keeps (sbind m k).
Proof.
  intros Hm Hk e. unfold sbind. specialize (Hm e). destruct (m e) as [e' [a|x|]]; cbn in *; [|done..].
  etransitivity; [exact Hm|apply Hk].
Qed.

Lemma keeps_ret {A} (a : A) : keeps (sret a).
Proof. by intros e. Qed.

Lemma keeps_with_manager {A} (f : stm (ConsensusManager St) Empty_set A) : keeps (Eng.with_manager f).
Proof. intros e. unfold Eng.with_manager. by destruct (f _) as [m [a|[]|]]. Qed.

(** *** Inserting events *)

Lemma insert_resolved_store e rp (m : Dm) : event_store (DM.insert_resolved e rp m).1 = event_store m.
Proof. unfold DM.insert_resolved. destruct (DM.check_in_dag _ _); [|done..]. by destruct (D.add_event_with_depth _ _ _) as [[]| |]. Qed.

Lemma resolve_store e (m : Dm) : event_store (DM.resolve_parents e m).1 = event_store m.
Proof.
  pose proof (resolve_parents_ok e m) as Hr. destruct (DM.resolve_parents e m). destruct Hr as [Hl _]. apply Hl.
Qed.

Lemma resolve_and_insert_kept env e (m : Dm) :
  (∀ m, dm_kept m (env m)) → dm_kept m (DM.resolve_and_insert env e m).1.
Proof.
  intros Henv. split; [apply resolve_and_insert_wf; intros m'; apply Henv|]. intros i Hi.
  unfold DM.resolve_and_insert, sbind. pose proof (resolve_store e m) as Hs.
  destruct (DM.resolve_parents e m) as [m1 [rp|x|]]; cbn in *; [|by rewrite Hs..].
  rewrite insert_resolved_store. apply Henv. by rewrite Hs.
Qed.

Lemma add_event_kept env e (m : Dm) : (∀ m, dm_kept m (env m)) → dm_kept m (DM.add_event env e m).1.
Proof.
  intros Henv. split; [apply dm_add_event_wf; intros m'; apply Henv|]. intros i Hi. unfold DM.add_event.
  destruct (warming_up m); [|by apply resolve_and_insert_kept]. pose proof (resolve_store e m) as Hs.
  destruct (DM.resolve_parents e m) as [m1 [rp|[]|]]; cbn in Hs |- *; try by rewrite Hs.
  - apply resolve_and_insert_kept; [done|]. by rewrite Hs.
  - destruct (_ <=? _)%nat; cbn; by rewrite Hs.
Qed.

Lemma retry_loop_kept left attempt envs e (m : Dm) :
  (∀ i m, dm_kept m (envs i m)) → dm_kept m (DM.retry_loop left attempt envs e m).1.
Proof.
  intros Henv. revert attempt m. induction left as [|left IH]; intros attempt m; cbn [DM.retry_loop]; [done|].
  pose proof (add_event_kept (envs attempt) e m (Henv attempt)) as K1.
  destruct (DM.add_event (envs attempt) e m) as [m1 [id|[]|]]; cbn [fst] in *; try done.
  destruct (attempt <? MAX_RETRY - 1)%nat; [|done]. etransitivity; [exact K1|apply IH].
Qed.

Lemma insert_event_kept envs event (e : Engine) :
  (∀ i m, dm_kept m (envs i m)) → kept e (Eng.insert_event envs event e).1.
Proof.
  intros Henv. unfold Eng.insert_event, DM.add_event_with_retry.
  pose proof (retry_loop_kept MAX_RETRY 0 envs event (dag_manager e) Henv) as Hk. by destruct (DM.retry_loop _ _ _ _ _).
Qed.

(** *** Creating frames *)

Lemma mark_events_kept a (e : Engine) : kept e (Eng.mark_anchor_events_finalized_in_active_dag a e).
Proof. split; [cbn; apply finalize_events_wf|done]. Qed.

Lemma min_depth_kept z (e : Engine) : kept e (Eng.set_dm (DM.update_min_depth z (dag_manager e)) e).
Proof. by split. Qed.

Lemma broadcast_dm o (e : Engine) : dag_manager (Eng.broadcast o e) = dag_manager e.
Proof. unfold Eng.broadcast. by destruct (broadcaster e). Qed.
Lemma legacy_dm m (e : Engine) : dag_manager (Eng.send_legacy_message m e) = dag_manager e.
Proof. unfold Eng.send_legacy_message. by destruct (_ <? _)%nat. Qed.
Lemma notify_dm cf (e : Engine) : dag_manager (Eng.notify cf e) = dag_manager e.
Proof. unfold Eng.notify. by destruct (finalization_tx e). Qed.

Lemma inline_finalize_kept frame (e : Engine) : kept e (Eng.inline_finalize frame e).
Proof.
  unfold Eng.inline_finalize. etransitivity; [apply min_depth_kept|]. etransitivity; [apply mark_events_kept|].
  destruct (CM.last_finalized_cf _); [|done]. apply kept_same. by rewrite notify_dm.
Qed.

Lemma announce_dm backup frame v (e : Engine) : dag_manager (Eng.announce backup frame v e) = dag_manager e.
Proof. unfold Eng.announce. destruct v; [destruct backup|]; by rewrite ?broadcast_dm, ?legacy_dm. Qed.

Lemma vote_dm id now (e : Engine) : dag_manager (Eng.vote_for_cf id now e).1 = dag_manager e.
Proof. unfold Eng.vote_for_cf. by destruct (CM.vote_for_cf _ _ _ _ _). Qed.

Lemma propose_keeps backup frame now : keeps (Eng.propose backup frame now).
Proof.
  intros e. unfold Eng.propose. pose proof (vote_dm (cf_id frame) now e) as Hv.
  destruct (Eng.vote_for_cf _ _ _) as [e1 [v|]]; cbn [fst] in *.
  2: { apply kept_same. by rewrite announce_dm. }
  pose proof (keeps_with_manager (CM.classify_finalization (cf_id frame) now) e1) as Hm.
  assert (K1 : kept e e1) by by apply kept_same.
  destruct (Eng.with_manager _ e1) as [e2 [o|x|]]; cbn [fst] in *; (etransitivity; [exact K1|]; etransitivity; [exact Hm|]); [|done..].
  etransitivity; [|apply kept_same, announce_dm]. destruct (is_finalized o); [apply inline_finalize_kept|done].
Qed.

Lemma propose_created_keeps backup now cf : keeps (Eng.propose_created backup now cf).
Proof. destruct cf; [|apply keeps_ret]. apply keeps_bind; [apply propose_keeps|intros; apply keeps_ret]. Qed.

Lemma try_create_keeps now : keeps (Eng.try_create_cf now).
Proof.
  intros e. unfold Eng.try_create_cf. destruct (negb _); [done|]. destruct (negb _); [done|].
  apply (keeps_bind _ _ (keeps_with_manager _) (propose_created_keeps true now)).
Qed.

Lemma heartbeat_keeps interval now : keeps (Eng.try_create_cf_heartbeat interval now).
Proof.
  intros e. unfold Eng.try_create_cf_heartbeat. destruct (negb _); [done|].
  apply (keeps_bind _ _ (keeps_with_manager _) (propose_created_keeps false now)).
Qed.

Lemma admit_keeps after envs event now :
  (∀ e, dag_manager (after e) = dag_manager e) → (∀ i m, dm_kept m (envs i m)) →
  keeps (Eng.admit_event after envs event now).
Proof.
  intros Ha Henv e. unfold Eng.admit_event. set (e1 := Eng.tick _ _).
  pose proof (insert_event_kept envs event e1 Henv) as Hi. assert (K1 : kept e e1) by by apply kept_same.
  destruct (Eng.insert_event envs event e1) as [e2 [id|[]|]]; cbn [fst] in *; try (by etransitivity; [exact K1|]).
  etransitivity; [exact K1|]. etransitivity; [exact Hi|]. etransitivity; [apply kept_same, Ha|].
  apply (keeps_bind _ _ (try_create_keeps now)). intros. apply keeps_ret.
Qed.

Lemma add_event_keeps envs event now : (∀ i m, dm_kept m (envs i m)) → keeps (Eng.add_event envs event now).
Proof. apply admit_keeps. intros e. by rewrite legacy_dm, broadcast_dm. Qed.

Lemma net_event_keeps envs event now :
  (∀ i m, dm_kept m (envs i m)) → keeps (Eng.receive_event_from_network envs event now).
Proof. by apply admit_keeps. Qed.

(** *** Receiving frames and votes *)

Definition peers_keep (peers : Eng.Peers (L := L) (Es := Es)) : Prop := ∀ r i j m, dm_kept m (Eng.fetch_envs peers r i j m).

Lemma add_fetched_kept envs i evs now (e : Engine) :
  (∀ i j m, dm_kept m (envs i j m)) → kept e (Eng.add_fetched envs i evs now e).1.
Proof.
  intros Henv. revert i e. induction evs as [|ev evs IH]; intros i e; cbn; [done|].
  pose proof (insert_event_kept (envs i) ev (Eng.merge_clock (vlc_snapshot ev) now e) (Henv i)) as Hi.
  destruct (Eng.insert_event _ _ _) as [e1 [r|x|]]; cbn in *; [| |done]; (etransitivity; [exact Hi|apply IH]).
Qed.

Lemma fetch_loop_keeps left retry peers cf missing last now :
  peers_keep peers → keeps (Eng.fetch_loop left retry peers cf missing last now).
Proof.
  intros Hp. revert retry missing last. induction left as [|left IH]; intros retry missing last e; cbn [Eng.fetch_loop]; [done|].
  destruct (Eng.request_events _ _ _) as [evs|]; [|apply IH].
  pose proof (add_fetched_kept (Eng.fetch_envs peers retry) 0 evs now e (Hp retry)) as Hf.
  destruct (Eng.add_fetched _ _ _ _ _) as [e1 []]; cbn [fst] in *; [|done].
  destruct (bool_decide _); [done|]. etransitivity; [exact Hf|apply IH].
Qed.

Lemma ensure_keeps peers cf now : peers_keep peers → keeps (Eng.ensure_cf_events_available peers cf now).
Proof.
  intros Hp e. unfold Eng.ensure_cf_events_available. destruct (bool_decide _); [done|].
  destruct (negb _); [done|by apply fetch_loop_keeps].
Qed.

Lemma handle_finalization_kept (e : Engine) : kept e (Eng.handle_finalization e).1.
Proof.
  unfold Eng.handle_finalization. destruct (CM.last_finalized_cf _) as [cf|]; [|done]. cbn [fst].
  etransitivity; [apply min_depth_kept|]. etransitivity; [apply mark_events_kept|]. by apply kept_same.
Qed.

Lemma after_outcome_keeps o : keeps (Eng.after_outcome o).
Proof.
  intros e. unfold Eng.after_outcome. destruct (is_finalized o); [|done].
  pose proof (handle_finalization_kept e) as Hh. by destruct (Eng.handle_finalization e).
Qed.

Lemma vote_on_keeps cf now : keeps (Eng.vote_on_cf cf now).
Proof.
  intros e. unfold Eng.vote_on_cf. destruct (CM.has_cf _ _); [done|]. destruct (negb _); [done|].
  match goal with |- context [Eng.vote_for_cf _ _ ?x] => set (e1 := x) end.
  pose proof (vote_dm (cf_id cf) now e1) as Hv. destruct (Eng.vote_for_cf _ _ e1) as [e2 [v|]]; cbn [fst] in *;
    [|by apply kept_same]. etransitivity; [|apply keeps_bind; [apply keeps_with_manager|]].
  - apply kept_same. by rewrite broadcast_dm.
  - intros o. apply keeps_bind; [apply after_outcome_keeps|intros; apply keeps_ret].
Qed.

Lemma receive_cf_keeps peers env cf now :
  peers_keep peers → (∀ e, kept e (env e)) → keeps (Eng.receive_cf peers env cf now).
Proof.
  intros Hp Henv e. unfold Eng.receive_cf. do 4 (destruct (_ : bool); [done|]).
  destruct (Eng.check_chain_root cf e) as [[]|x|]; cbn; [|done..].
  destruct (CM.has_cf _ _); [done|]. apply (keeps_bind _ _ (ensure_keeps peers cf now Hp)). intros _ e'.
  destruct (_ && _); [done|]. etransitivity; [apply Henv|apply vote_on_keeps].
Qed.

Lemma finalize_received_keeps cf now : keeps (Eng.finalize_received cf now).
Proof.
  intros e. unfold Eng.finalize_received. destruct (CM.is_finalized_cf _ _); [done|]. destruct (negb _); [done|].
  etransitivity; [|apply keeps_bind; [apply keeps_with_manager|apply after_outcome_keeps]]. by apply kept_same.
Qed.

Lemma receive_finalized_keeps peers env cf now :
  peers_keep peers → (∀ e, kept e (env e)) → keeps (Eng.receive_finalized_cf peers env cf now).
Proof.
  intros Hp Henv e. unfold Eng.receive_finalized_cf. destruct (negb _); [done|].
  destruct (Eng.verify_finalized_cf_votes cf e) as [[]|x|]; cbn; [|done..].
  destruct (CM.is_finalized_cf _ _); [done|].
  destruct (Eng.check_chain_root cf e) as [[]|x|]; cbn; [|done..].
  apply (keeps_bind _ _ (ensure_keeps peers cf now Hp)). intros _ e'.
  etransitivity; [apply Henv|apply finalize_received_keeps].
Qed.

Lemma receive_vote_keeps vote now : keeps (Eng.receive_vote vote now).
Proof.
  intros e. unfold Eng.receive_vote. destruct (find_validator _ _); [|done].
  destruct (Eng.verify_vote_signature_policy _ _ _) as [[]|x|]; cbn; [|done..].
  apply (keeps_bind _ _ (keeps_with_manager _) after_outcome_keeps).
Qed.

Lemma complete_dm (e : Engine) : dag_manager (Eng.complete_pending_finalizations e) = dag_manager e.
Proof. unfold Eng.complete_pending_finalizations. by rewrite (co_dm _ _ (complete_entries_keep _ _)). Qed.
End Kept.

(** ** The node *)

Section Node.
Context `{Blake3} `{HexCrate} `{StateBcs} {St : Type} `{B4Store St} `{Ed25519}.
Context {L Es Cs As : Type} `{LruCache L} `{EventStoreLaws Es} `{CFStoreBackend Cs} `{AnchorStoreLaws As}.

Abbreviation V := (ConsensusValidator L Es Cs As St).

(** Crash-consistent stores and a well-formed DAG. *)
Definition node_ok (v : V) : Prop := durable v ∧ dag_ok v.

Definition preserves {E A} (m : stm V E A) : Prop := ∀ v, node_ok v → node_ok (m v).1.

Lemma preserves_bind {E A B'} (m : stm V E A) (k : A → stm V E B') :
  preserves m → (∀ a, preserves (k a)) → preserves (sbind m k).
Proof.
  intros Hm Hk v Hv. unfold sbind. specialize (Hm v Hv). destruct (m v) as [v' [a|x|]]; cbn in *; [by apply Hk|done..].
Qed.

Lemma preserves_ret {E A} (a : A) : preserves (E := E) (sret a).
Proof. by intros v. Qed.

(** An operation of the engine leaves the anchors and keeps the events. *)
Lemma engine_node_ok e (v : V) : kept (cv_engine v) e → node_ok v → node_ok (FP.set_engine e v).
Proof.
  intros [Hd He] [Hdur Hok]. split; [|by apply Hd]. intros id a Ha i Hi. apply He. by apply (Hdur id a).
Qed.

Lemma attempt_preserves {A} (f : stm (ConsensusEngine L Es St) EngineError A) : keeps f → preserves (MR.attempt f).
Proof.
  intros Hf v Hv. unfold MR.attempt. specialize (Hf (cv_engine v)). destruct (f (cv_engine v)) as [e [a|x|]]; cbn in *;
    by apply engine_node_ok.
Qed.

Lemma engine_op_preserves {A} (f : stm (ConsensusEngine L Es St) EngineError A) : keeps f → preserves (CV.engine_op f).
Proof.
  intros Hf v Hv. unfold CV.engine_op. specialize (Hf (cv_engine v)). destruct (f (cv_engine v)) as [e [a|x|]]; cbn in *;
    by apply engine_node_ok.
Qed.

(** *** Persisting *)

Lemma run_steps_dag steps (v : V) :
  Forall (fun m : stm V PersistenceError unit => ∀ v, dag_ok v → dag_ok (m v).1) steps → dag_ok v →
  dag_ok (FP.run_steps steps v).1.
Proof.
  intros Hs. revert v. induction Hs as [|m steps Hm Hs IH]; intros v Hv; [done|]. cbn. unfold sbind.
  specialize (Hm v Hv). destruct (m v) as [v' [a|x|]]; cbn in *; [by apply IH|done..].
Qed.

Lemma persist_preserves who env anchor now : benign env → preserves (FP.persist_finalized_anchor who env anchor now).
Proof.
  intros Henv v [Hd Hk]. unfold FP.persist_finalized_anchor. set (steps := FP.anchor_steps who env anchor now v). split.
  - rewrite <-(take_ge steps (length steps)) by lia. unfold steps, FP.anchor_steps.
    case_bool_decide; [by apply already_steps_crash|by apply persist_steps_crash].
  - apply run_steps_dag; [|done]. unfold steps, FP.anchor_steps.
    case_bool_decide; repeat (apply list.Forall_cons; split); try apply list.Forall_nil_2; intros u Hu;
      first [by apply (benign_dag env Henv)|by apply persist_pending_env_dag; [intros j; apply Henv|]
            |by apply persist_events_dag; [apply Henv|]|by apply commit_anchor_dag|by apply collect_garbage_dag|done].
Qed.

Lemma complete_node_ok (v : V) : node_ok v → node_ok (FP.on_engine Eng.complete_pending_finalizations v).
Proof. apply engine_node_ok, kept_same, complete_dm. Qed.

Lemma mark_node_ok a (v : V) : node_ok v → node_ok (FP.on_engine (Eng.mark_anchor_persisted a) v).
Proof. by apply engine_node_ok, kept_same. Qed.

(** *** The router *)

Record env_ok (env : RouterEnv L Es Cs As St) : Prop := mkEnvOk {
  eo_dag : ∀ i j m, dm_kept m (re_dag env i j m);
  eo_peers : peers_keep (re_peers env);
  eo_engine : ∀ e, kept e (re_engine env e);
  eo_persist : benign (re_persist env)
}.

Lemma router_persist_preserves env r : env_ok env → preserves (MR.persist_finalized env r).
Proof.
  intros He v Hv. unfold MR.persist_finalized. destruct r as [[] [a|]]; [|done..].
  pose proof (persist_preserves ByRouter (re_persist env) a (re_now env) (eo_persist env He) v Hv) as Hp.
  destruct (FP.persist_finalized_anchor _ _ _ _ v) as [v' [u|x|]]; cbn in *; [by apply complete_node_ok|done..].
Qed.

Lemma add_parents_preserves env i ps : env_ok env → preserves (MR.add_parents env i ps).
Proof.
  intros He. revert i. induction ps as [|p ps IH]; intros i; [apply preserves_ret|].
  apply preserves_bind; [|intros _; apply IH]. apply attempt_preserves, net_event_keeps, He.
Qed.

Lemma handle_event_preserves env event : env_ok env → preserves (MR.handle_event env event).
Proof.
  intros He v Hv. unfold MR.handle_event. destruct (negb _); [done|].
  assert (Hn : ∀ i, preserves (MR.attempt (Eng.receive_event_from_network (re_dag env i) event (re_now env)))).
  { intros i. apply attempt_preserves, net_event_keeps, He. }
  revert v Hv. apply (preserves_bind _ _ (Hn 0%nat)). intros [id|x]; [apply preserves_ret|].
  destruct (MR.is_missing_parent x); [|apply preserves_ret]. intros v Hv.
  destruct (broadcaster _); [|done]. destruct (re_request env _) as [ps|]; [|done]. revert v Hv.
  apply preserves_bind; [by apply add_parents_preserves|intros _]. apply preserves_bind; [apply Hn|intros _; apply preserves_ret].
Qed.

Lemma trigger_preserves env : preserves (MR.trigger_catch_up_for_cf env).
Proof. intros v Hv. unfold MR.trigger_catch_up_for_cf. destruct (negb _); [done|]. by destruct (catch_up_in_progress v). Qed.

Lemma route_event_preserves env e : env_ok env → preserves (MR.route_event env e).
Proof.
  intros He. destruct e; cbn; try apply preserves_ret.
  - apply preserves_bind; [by apply handle_event_preserves|intros _; apply preserves_ret].
  - apply preserves_bind; [apply attempt_preserves, receive_cf_keeps; apply He|].
    intros [[] |]; try apply preserves_ret; [|apply trigger_preserves].
    apply preserves_bind; [by apply router_persist_preserves|intros _; apply preserves_ret].
  - apply preserves_bind; [|intros _; apply preserves_ret].
    apply preserves_bind; [apply attempt_preserves, receive_vote_keeps|].
    intros []; [by apply router_persist_preserves|apply preserves_ret].
  - apply preserves_bind; [|intros _; apply preserves_ret].
    apply preserves_bind; [apply attempt_preserves, receive_finalized_keeps; apply He|].
    intros []; [by apply router_persist_preserves|apply preserves_ret].
Qed.

(** *** The validator *)

Lemma persist_and_mark_preserves env a now : benign env → preserves (CV.persist_and_mark env a now).
Proof.
  intros He v Hv. unfold CV.persist_and_mark. pose proof (persist_preserves ByValidator env a now He v Hv) as Hp.
  destruct (FP.persist_finalized_anchor _ _ _ _ v) as [v' [u|x|]]; cbn in *; [by apply mark_node_ok|done..].
Qed.

Lemma persist_inline_preserves envs now : (∀ i, benign (envs i)) → preserves (CV.persist_inline envs now).
Proof.
  intros He v Hv. unfold CV.persist_inline. cbn [Eng.take_pending_anchors].
  assert (Ha : ∀ l i, preserves (CV.persist_all envs i l now)).
  { intros l. induction l as [|a l IH]; intros i; [apply preserves_ret|].
    apply preserves_bind; [by apply persist_and_mark_preserves|intros _; apply IH]. }
  apply preserves_bind; [apply Ha|intros _ u; apply complete_node_ok|]. by apply engine_node_ok; [apply kept_same|].
Qed.

Lemma submit_preserves dag_envs envs event now :
  (∀ i m, dm_kept m (dag_envs i m)) → (∀ i, benign (envs i)) → preserves (CV.submit_event dag_envs envs event now).
Proof.
  intros Hd He v Hv. unfold CV.submit_event. destruct (negb _); [done|].
  assert (Hs : preserves (let! id := CV.engine_op (Eng.add_event dag_envs event now) in
                          let! _ := CV.persist_inline envs now in sret id)).
  { apply preserves_bind; [by apply engine_op_preserves, add_event_keeps|intros id].
    apply preserves_bind; [by apply persist_inline_preserves|intros _; apply preserves_ret]. }
  destruct (execution_result event) as [r|]; [destruct (negb _); [done|]|]; by apply Hs.
Qed.

Lemma heartbeat_preserves interval envs now :
  (∀ i, benign (envs i)) → preserves (CV.try_heartbeat interval envs now).
Proof.
  intros He. apply preserves_bind; [apply engine_op_preserves, heartbeat_keeps|].
  intros []; [by apply persist_inline_preserves|apply preserves_ret].
Qed.

Lemma finalized_preserves env now r : benign env → preserves (CV.persist_finalized env now r).
Proof.
  intros He. destruct r as [[] [a|]]; try apply preserves_ret.
  apply preserves_bind; [by apply persist_and_mark_preserves|]. intros []; [|apply preserves_ret].
  intros u. apply complete_node_ok.
Qed.

Lemma handle_message_preserves dag_envs peers env penv msg now :
  (∀ i m, dm_kept m (dag_envs i m)) → peers_keep peers → (∀ e, kept e (env e)) → benign penv →
  preserves (CV.handle_message dag_envs peers env penv msg now).
Proof.
  intros Hd Hp He Hb v Hv. unfold CV.handle_message.
  match goal with |- context [match ?m v with _ => _ end] => assert (Hm : preserves m) end.
  { destruct msg; try apply preserves_ret; (apply preserves_bind; [|intros ?; apply preserves_ret]).
    - by apply engine_op_preserves, net_event_keeps.
    - apply preserves_bind; [by apply engine_op_preserves, receive_cf_keeps|intros o].
      apply preserves_bind; [by apply finalized_preserves|intros _; apply preserves_ret].
    - apply preserves_bind; [apply engine_op_preserves, receive_vote_keeps|intros r].
      apply preserves_bind; [by apply finalized_preserves|intros _; apply preserves_ret]. }
  specialize (Hm v Hv). match type of Hm with context [(?p).1] => by destruct p as [w []] end.
Qed.

Lemma apply_cf_preserves peers env now cf :
  peers_keep peers → (∀ e, kept e (env e)) →
  preserves (ca_apply_cf (EngineCatchUpApplier (Cs := Cs) (As := As) peers env now) cf).
Proof.
  intros Hp He v Hv. cbn. pose proof (receive_finalized_keeps peers env cf now Hp He (cv_engine v)) as Hk.
  destruct (Eng.receive_finalized_cf _ _ _ _ _) as [e [a|x|]]; cbn in *; by apply engine_node_ok.
Qed.

Lemma recover_node_ok (v : V) : node_ok v → node_ok (CV.recover_from_storage v).
Proof.
  intros Hv. unfold CV.recover_from_storage. case_bool_decide; [done|].
  set (v1 := FP.on_engine _ v). assert (H1' : node_ok v1).
  { apply engine_node_ok; [|done].
    pose proof (warmup_keeps (ab_get_recent_anchors (cv_anchor_store v) 10) (dag_manager (cv_engine v))) as (Hs & Hd & _).
    split; cbn; [by rewrite Hd|by rewrite Hs]. }
  set (v2 := match ab_get_recovery_state (cv_anchor_store v1) with Some _ => _ | None => _ end).
  assert (H2' : node_ok v2).
  { unfold v2. destruct (ab_get_recovery_state _) as [[[[root depth] count] t]|]; [|done].
    assert (Hb : node_ok (FP.on_engine (CV.restore_builder (root, depth, count, t)) v1)); [|exact Hb].
    apply engine_node_ok; [by split|done]. }
  destruct (ab_get_latest (cv_anchor_store v2)); [|done]. by apply engine_node_ok; [apply kept_same|].
Qed.

(** What a running node does: messages of peers, local events, heartbeats,
    maintenance, frames of a catch-up, recovery after a restart.  A restart keeps
    the stores and starts from an empty DAG. *)
Inductive node_step : V → V → Prop :=
| ns_route env e v : env_ok env → node_step v (MR.route_event env e v).1
| ns_submit dag_envs envs event now v :
    (∀ i m, dm_kept m (dag_envs i m)) → (∀ i, benign (envs i)) →
    node_step v (CV.submit_event dag_envs envs event now v).1
| ns_heartbeat interval envs now v : (∀ i, benign (envs i)) → node_step v (CV.try_heartbeat interval envs now v).1
| ns_message dag_envs peers env penv msg now v :
    (∀ i m, dm_kept m (dag_envs i m)) → peers_keep peers → (∀ e, kept e (env e)) → benign penv →
    node_step v (CV.handle_message dag_envs peers env penv msg now v).1
| ns_maintenance now v : node_step v (CV.run_periodic_maintenance now v)
| ns_catch_up peers env now cf v : peers_keep peers → (∀ e, kept e (env e)) →
    node_step v (ca_apply_cf (EngineCatchUpApplier peers env now) cf v).1
| ns_restart (O : KeyOrder) config node is_leader shared v v' now :
    CV.with_all_backends config node is_leader shared (FP.cv_event_store v) (cv_cf_store v) (cv_anchor_store v) now = Ok v' →
    node_step v (CV.recover_from_storage v').

Lemma restart_node_ok `{O : KeyOrder} config node is_leader shared (v v' : V) now :
  CV.with_all_backends config node is_leader shared (FP.cv_event_store v) (cv_cf_store v) (cv_anchor_store v) now = Ok v' →
  node_ok v → node_ok v'.
Proof.
  unfold CV.with_all_backends, Eng.with_stores, Eng.build. destruct (DM.new _ _ _) as [dm| |] eqn:Hd; [|done..]. cbn.
  intros [= <-] [Hdur _]. unfold DM.new in Hd. destruct (RC.new _); [|done..]. injection Hd as <-.
  split; [exact Hdur|apply new_wf].
Qed.

(** C14: a node's stores are crash consistent whatever happens.  Start from
    consistent stores and a well-formed DAG (a new node has both) and let the node
    do anything it does, in any order and with other tasks running at every wait:
    route any messages, honest or not, submit events, beat, maintain, catch up,
    restart and recover.  Every anchor it has stored has all its events stored with
    their depths. *)
Theorem node_crash_consistent (v v' : V) : durable v → dag_ok v → rtc node_step v v' → durable v' ∧ dag_ok v'.
Proof.
  intros Hd Hk Hr. assert (Hv : node_ok v) by done. clear Hd Hk.
  induction Hr as [v|v1 v2 v3 Hs Hr IH]; [done|]. apply IH. clear IH Hr.
  destruct Hs as [env e v He|de envs ev now v Hd He|iv envs now v He|de peers env pe msg now v H1' H2' H3' H4'|now v|peers env now cf v Hp He|c n l s v v' now Hn].
  - by apply route_event_preserves.
  - by apply submit_preserves.
  - by apply heartbeat_preserves.
  - by apply handle_message_preserves.
  - by apply engine_node_ok; [apply kept_same|].
  - by apply apply_cf_preserves.
  - by eapply recover_node_ok, restart_node_ok.
Qed.
End Node.

Section Instances.
#[local] Existing Instance toy_blake3.
#[local] Existing Instance hex_lower.
#[local] Existing Instance wit_bcs.
#[local] Existing Instance list_lru.
#[local] Existing Instance toy_ed25519.

Abbreviation WV := (ConsensusValidator (nat * list entry) EventStore CFStore AnchorStore InMemoryMerkleStore).

(** The node ["b"] with its key, before any message. *)
Definition wit_start : WV :=
  mkConsensusValidator (Eng.set_private_key (wit_key Byte.x02) (Eng.set_broadcaster wit_engine)) wit_set CFS.new AS.new ∅ ∅ false.

Definition wit_env : RouterEnv (nat * list entry) EventStore CFStore AnchorStore InMemoryMerkleStore :=
  mkRouterEnv 7 (fun _ _ m => m) (fun _ => None) no_peers (fun e => e) PersistenceProps.quiet false.

Lemma wit_env_ok : env_ok wit_env.
Proof. split; [done..|apply quiet_benign]. Qed.

(** The leader's proposal with its vote, then the vote of ["c"]: a quorum with the
    node's own. *)
Definition wit_proposal : Net.NetworkEvent :=
  let cf := wit_plain "a" 0 in Net.CFProposal "a" (CF.add_vote cf (signed "a" Byte.x01 cf)).
Definition wit_vote : Net.NetworkEvent := Net.VoteReceived "c" (signed "c" Byte.x03 (wit_plain "a" 0)).

Lemma node_crash_consistent_witness :
  let v := (MR.route_event wit_env wit_vote (MR.route_event wit_env wit_proposal wit_start).1).1 in
  durable v ∧ AS.count (cv_anchor_store v) = 1%nat ∧ CFS.finalized_count (cv_cf_store v) = 1%nat ∧
  current_round (validator_set (cv_engine v)) = 1%Z.
Proof.
  intros v. split; [|split; [|split]].
  - refine (proj1 (node_crash_consistent wit_start v _ _ _)).
    + done.
    + apply new_wf.
    + eapply rtc_l; [exact (ns_route wit_env wit_proposal wit_start wit_env_ok)|].
      eapply rtc_l; [exact (ns_route wit_env wit_vote _ wit_env_ok)|]. apply rtc_refl.
  - vm_compute. reflexivity.
  - vm_compute. reflexivity.
  - vm_compute. reflexivity.
Defined.
End Instances.
