(* ===== verification/SyncProps.v ===== *)
(** * Catching up: answers of peers, termination and progress of the loop *)

From Stdlib Require Import ZArith Lia.
From stdpp Require Import base gmap sets list sorting strings numbers.
From S2P Require Import Prelude Hash Vlc Event Dag Coin StateStore SparseMerkle MerkleStore StateManager StateProps Overlay ConsensusTypes AnchorBuilder AnchorProps Consensus Election EventStore DagManager DagManagerProps Engine EngineSteps EngineProps FinalityStores Persistence Sync.
#[local] Open Scope setu_scope.

Abbreviation cf_depth := (fun cf => a_depth (cf_anchor cf)).

(** ** The answer of a peer *)

#[global] Instance depth_asc_total : Total depth_asc.
Proof. intros a b. unfold depth_asc. lia. Qed.
#[global] Instance depth_asc_trans : Transitive depth_asc.
Proof. intros a b c. unfold depth_asc. lia. Qed.

Lemma highest_ge (s : CFStore) cf : cf ∈ CFS.get_finalized s → (cf_depth cf ≤ CFS.highest_finalized_depth s)%Z.
Proof.
  unfold CFS.highest_finalized_depth. generalize (CFS.get_finalized s) as l. intros l.
  induction l as [|x l IH]; cbn; [by intros ?%not_elem_of_nil|]. intros [->|Hin]%elem_of_cons; [lia|].
  specialize (IH Hin). lia.
Qed.

Lemma highest_reached (s : CFStore) :
  (0 < CFS.highest_finalized_depth s)%Z → ∃ cf, cf ∈ CFS.get_finalized s ∧ cf_depth cf = CFS.highest_finalized_depth s.
Proof.
  unfold CFS.highest_finalized_depth. generalize (CFS.get_finalized s) as l. intros l.
  induction l as [|x l IH]; cbn; [lia|]. intros Hpos.
  destruct (Z.max_spec (a_depth (cf_anchor x)) (foldr Z.max 0 ((fun cf => a_depth (cf_anchor cf)) <$> l))) as [[Hlt E]|[Hle E]].
  - rewrite E in *. destruct (IH Hpos) as (cf & Hin & Hd). exists cf. split; [by right|done].
  - rewrite E. exists x. split; [left|done].
Qed.

(** What a store answers to a request for the frames after [after]. *)
Record served (s : CFStore) (after : Z) (limit : nat) (cfs : list ConsensusFrame) : Prop := mkServed {
  sv_bound : (length cfs ≤ limit)%nat;
  sv_sorted : Sorted depth_asc cfs;
  sv_deeper : ∀ cf, cf ∈ cfs → cf ∈ CFS.get_finalized s ∧ (after < cf_depth cf)%Z;
  sv_first : ∀ cf, cf ∈ CFS.get_finalized s → (after < cf_depth cf)%Z →
    cf ∈ cfs ∨ (length cfs = limit ∧ ∀ cf', cf' ∈ cfs → (cf_depth cf' ≤ cf_depth cf)%Z)
}.

Lemma sorted_take_first (l : list ConsensusFrame) n cf :
  Sorted depth_asc l → cf ∈ l →
  cf ∈ take n l ∨ (length (take n l) = n ∧ ∀ cf', cf' ∈ take n l → (cf_depth cf' ≤ cf_depth cf)%Z).
Proof.
  intros Hs Hin. rewrite <-(take_drop n l) in Hin. apply elem_of_app in Hin as [Hin|Hin]; [by left|right].
  assert (Hn : (n < length l)%nat).
  { destruct (decide (n < length l)%nat) as [?|Hge]; [done|]. rewrite drop_ge in Hin by lia. by apply not_elem_of_nil in Hin. }
  split; [rewrite length_take; lia|]. intros cf' Hin'.
  apply (Sorted_StronglySorted _) in Hs. rewrite <-(take_drop n l) in Hs. apply StronglySorted_app in Hs as (Hf & _ & _).
  by apply Hf.
Qed.

Lemma after_depth_served s after limit : served s after limit (CFS.get_finalized_after_depth s after limit).
Proof.
  unfold CFS.get_finalized_after_depth. destruct (Nat.eqb_spec limit 0) as [->|Hl].
  { split; cbn; [lia|constructor|by intros ? ?%not_elem_of_nil|]. intros cf _ _. right. split; [done|]. by intros ? ?%not_elem_of_nil. }
  set (l := merge_sort depth_asc _).
  assert (Hp : l ≡ₚ filter (fun cf => (after < cf_depth cf)%Z) (CFS.get_finalized s)) by apply merge_sort_Permutation.
  assert (Hs : Sorted depth_asc l) by (apply Sorted_merge_sort; apply _).
  split.
  - rewrite length_take. lia.
  - apply StronglySorted_Sorted. apply Sorted_StronglySorted in Hs; [|apply _].
    rewrite <-(take_drop limit l) in Hs. by apply StronglySorted_app in Hs as (_ & ? & _).
  - intros cf Hin. apply (subseteq_take limit l) in Hin. rewrite Hp in Hin. apply list_elem_of_filter in Hin. tauto.
  - intros cf Hcf Hd. apply sorted_take_first; [done|]. rewrite Hp. by apply list_elem_of_filter.
Qed.

Section Wire.
Context `{BincodeLaws} `{Blake3} `{HexCrate} `{StateBcs} {St : Type} `{B4Store St} `{Ed25519}.
Context {L Es As : Type} `{LruCache L} `{EventStoreBackend Es} `{AnchorStoreBackend As}.

Abbreviation V := (ConsensusValidator L Es CFStore As St).

(** A peer that runs the handler over its stores. *)
Definition serve (peer : V) (peer_node : string) (b : bytes) : option bytes :=
  match (SH.handle peer peer_node SETU_ROUTE b).1 with Ok r => r | _ => None end.

Variables (local_id peer_node : string) (peer : V) (send : bytes → bytes → option bytes).
Variables (down : list string) (p : string) (rest : list string) (after : Z) (pid breq bresp : bytes).

(** The peers before [p] cannot be reached, and [p] answers. *)
Hypothesis Hdown : ∀ q, q ∈ down → SC.parse_peer_id q = None ∨ ∃ i, SC.parse_peer_id q = Some i ∧ send i breq = None.
Hypothesis Hp : SC.parse_peer_id p = Some pid.
Hypothesis Hsend : send pid breq = serve peer peer_node breq.
Hypothesis Hreq : ser_message (Msg.RequestFinalizedCFs after MAX_BATCH local_id) = Some breq.
Hypothesis Hresp : ser_message (Msg.FinalizedCFsResponse (CFS.get_finalized_after_depth (cv_cf_store peer) after 64)
                                  (CFS.highest_finalized_depth (cv_cf_store peer)) peer_node) = Some bresp.

Lemma handle_request :
  SH.handle_message peer peer_node (Msg.RequestFinalizedCFs after MAX_BATCH local_id) =
    (Some (Msg.FinalizedCFsResponse (CFS.get_finalized_after_depth (cv_cf_store peer) after 64)
             (CFS.highest_finalized_depth (cv_cf_store peer)) peer_node), []).
Proof. reflexivity. Qed.

Lemma served_bytes : serve peer peer_node breq = Some bresp.
Proof.
  unfold serve, SH.handle. rewrite bool_decide_eq_true_2 by done. cbn [negb].
  by rewrite (de_ser_message _ _ Hreq), handle_request, Hresp.
Qed.

Lemma pull_answer :
  SC.pull_finalized_after_depth local_id (down ++ p :: rest) send after =
    Ok (CFS.get_finalized_after_depth (cv_cf_store peer) after 64, CFS.highest_finalized_depth (cv_cf_store peer)).
Proof.
  unfold SC.pull_finalized_after_depth, SC.ask. rewrite Hreq. rewrite bool_decide_eq_false_2 by (by destruct down).
  assert (Hf : SC.first_answer send (down ++ p :: rest) breq =
    Ok (Msg.FinalizedCFsResponse (CFS.get_finalized_after_depth (cv_cf_store peer) after 64)
          (CFS.highest_finalized_depth (cv_cf_store peer)) peer_node)).
  { pose proof served_bytes as Hb. clear Hreq. induction down as [|q qs IH]; cbn [SC.first_answer app].
    - rewrite Hp, Hsend, Hb. by rewrite (de_ser_message _ _ Hresp).
    - assert (Hq : q ∈ q :: qs) by left. destruct (Hdown q Hq) as [->|(i & -> & ->)]; apply IH; intros x Hx; apply Hdown; by right. }
  by rewrite Hf.
Qed.

(** A request for finalized frames over the wire.  Whatever peers before it
    are unreachable, the first peer that answers decides, and when it runs the
    handler over its frame store the requester receives: at most 64 finalized
    frames of the peer, all deeper than asked, in ascending order of depth; a
    frame is left out only when 64 others that are not deeper were sent; and a
    depth that no frame of the peer exceeds, with at least one frame as long as
    the requester is behind it. *)
Theorem catch_up_answer :
  ∃ cfs highest, SC.pull_finalized_after_depth local_id (down ++ p :: rest) send after = Ok (cfs, highest) ∧
    served (cv_cf_store peer) after 64 cfs ∧
    (∀ cf, cf ∈ CFS.get_finalized (cv_cf_store peer) → (cf_depth cf ≤ highest)%Z) ∧
    ((0 ≤ after < highest)%Z → cfs ≠ []).
Proof.
  eexists _, _. split; [apply pull_answer|]. split; [apply after_depth_served|]. split; [apply highest_ge|].
  intros [H0' Hlt] Hnil. destruct (highest_reached (cv_cf_store peer) ltac:(lia)) as (cf & Hin & Hd).
  destruct (sv_first _ _ _ _ (after_depth_served (cv_cf_store peer) after 64) cf Hin) as [Hc|[Hc _]]; [by rewrite Hd| |];
    rewrite Hnil in Hc; [by apply not_elem_of_nil in Hc|done].
Qed.
End Wire.

(** ** The loop *)

Section Loop.
Context {A : Type} (source : CatchUpSource) (applier : CatchUpApplier A) (config : CatchUpConfig).
Variables (clock : nat → nat → Z) (start : Z) (env : nat → A → A).

Abbreviation loop := (CU.catch_up_loop source applier config clock start env).
Abbreviation run := (CU.run_startup_catch_up source applier config clock start env).

(** *** Termination *)

Section Termination.
Variable delta : Z.
Hypothesis Hdelta : (0 < delta)%Z.
Hypothesis Hclock : ∀ i, (start + Z.of_nat i * delta ≤ clock i 0)%Z.
Hypothesis Hbudget : (0 ≤ wall_clock_budget config)%Z.

(** The turn at which the budget is used up. *)
Definition last_turn : nat := S (Z.to_nat (wall_clock_budget config / delta)).

Lemma last_turn_over i : (last_turn ≤ i)%nat → (wall_clock_budget config < clock i 0 - start)%Z.
Proof.
  intros Hi. specialize (Hclock i). unfold last_turn in Hi.
  pose proof (Z.div_pos (wall_clock_budget config) delta Hbudget Hdelta) as Hq.
  pose proof (Z.mul_succ_div_gt (wall_clock_budget config) delta Hdelta) as Hgt.
  assert (Z.succ (wall_clock_budget config / delta) ≤ Z.of_nat i)%Z by lia. nia.
Qed.

Lemma loop_ends fuel i lp stats a : (i ≤ last_turn)%nat → (last_turn < i + fuel)%nat → loop fuel i lp stats a ≠ None.
Proof.
  revert i lp stats a. induction fuel as [|fuel IH]; intros i lp stats a Hi Hf; [lia|]. cbn [CU.catch_up_loop].
  destruct (Z.ltb_spec (wall_clock_budget config) (clock i 0 - start)) as [Hover|Hin]; [done|].
  assert (Hlt : (i < last_turn)%nat).
  { destruct (decide (i < last_turn)%nat) as [?|Hge]; [done|]. pose proof (last_turn_over i ltac:(lia)). lia. }
  destruct (ca_highest_finalized_depth applier (env i a)) as [d|e|]; [|done..].
  destruct (source i d) as [[cfs ph]|e|]; [|done..]. case_bool_decide.
  - destruct (_ <=? _)%Z; [done|]. destruct (_ <? _)%Z; [done|]. apply IH; lia.
  - destruct (CU.apply_all _ _ _ _ _ _ _ _) as [a' [[n lp']|e|]]; [|done..]. apply IH; lia.
Qed.

(** C35: the catch-up loop terminates.  Whatever the peers answer, whatever the
    applier does and whatever else runs, if every turn takes at least [delta] of
    wall-clock time then the loop returns within [budget / delta + 2] turns. *)
Theorem catch_up_terminates a : ∃ r, run (S last_turn) a = Some r.
Proof.
  pose proof (loop_ends (S last_turn) 0 start CU.stats_default a ltac:(lia) ltac:(lia)) as Hn. unfold CU.run_startup_catch_up.
  destruct (loop _ _ _ _ _) as [r|]; [eauto|done].
Qed.
End Termination.

(** *** Progress *)

(** What a source promises: the frames the peer has beyond a depth, as long as
    there are any. *)
Definition honest_source (offered : ConsensusFrame → Prop) (top : Z) : Prop := ∀ i d, (0 ≤ d)%Z →
  ∃ cfs, source i d = Ok (cfs, top) ∧ (∀ cf, cf ∈ cfs → offered cf ∧ (d < cf_depth cf)%Z) ∧
    ((d < top)%Z → cfs ≠ []) ∧ ((top ≤ d)%Z → cfs = []).

(** What an applier promises: an applied frame counts in the depth it reports. *)
Record advancing_applier (offered : ConsensusFrame → Prop) (good : A → Prop) (depth : A → Z) : Prop := mkAdvancing {
  ad_depth : ∀ a, good a → ca_highest_finalized_depth applier a = Ok (depth a) ∧ (0 ≤ depth a)%Z;
  ad_apply : ∀ a cf, good a → offered cf → ∃ a', ca_apply_cf applier cf a = (a', Ok tt) ∧ good a' ∧
    (depth a ≤ depth a')%Z ∧ (cf_depth cf ≤ depth a')%Z;
  ad_env : ∀ i a, good a → good (env i a) ∧ (depth a ≤ depth (env i a))%Z
}.

Section Progress.
Context (offered : ConsensusFrame → Prop) (good : A → Prop) (depth : A → Z) (top : Z).
Hypothesis Hsource : honest_source offered top.
Hypothesis Happlier : advancing_applier offered good depth.

Lemma apply_all_advances i k cfs n lp a :
  good a → (∀ cf, cf ∈ cfs → offered cf) →
  ∃ a' r, CU.apply_all applier clock i k cfs n lp a = (a', Ok r) ∧ good a' ∧ (depth a ≤ depth a')%Z ∧
    ∀ cf, cf ∈ cfs → (cf_depth cf ≤ depth a')%Z.
Proof.
  revert k n lp a. induction cfs as [|cf cfs IH]; intros k n lp a Hg Ho.
  - exists a, (n, lp). split_and!; [done..|]. by intros ? ?%not_elem_of_nil.
  - destruct (ad_apply _ _ _ Happlier a cf Hg) as (a1 & Ha & Hg1 & H1 & H2); [apply Ho; left|].
    destruct (IH (S k) (u64_add n 1) (clock i (3 + k)) a1 Hg1) as (a2 & r & Hr & Hg2 & H3 & H4); [intros; apply Ho; by right|].
    exists a2, r. split_and!; [|done|lia|].
    + cbn [CU.apply_all]. unfold sbind. by rewrite Ha.
    + intros cf' [->|Hin]%elem_of_cons; [lia|by apply H4].
Qed.

Lemma loop_reaches fuel i lp stats a :
  good a → (Z.to_nat (top - depth a) < fuel)%nat →
  (∀ j, (i ≤ j < i + fuel)%nat → (clock j 0 - start ≤ wall_clock_budget config)%Z) →
  ∃ a' stats', loop fuel i lp stats a = Some (a', Ok stats') ∧ good a' ∧ (top ≤ depth a')%Z ∧
    final_depth stats' = depth a' ∧ (top ≤ peer_highest_seen stats')%Z.
Proof.
  revert i lp stats a. induction fuel as [|fuel IH]; intros i lp stats a Hg Hf Ht; [lia|]. cbn [CU.catch_up_loop].
  rewrite (proj2 (Z.ltb_ge _ _)) by (apply Ht; lia).
  destruct (ad_env _ _ _ Happlier i a Hg) as [Hg1 Hle]. destruct (ad_depth _ _ _ Happlier _ Hg1) as [-> H0].
  destruct (Hsource i (depth (env i a)) H0) as (cfs & -> & Hc & Hne & Hnil).
  destruct (decide (top ≤ depth (env i a))%Z) as [Htop|Hbelow].
  - rewrite (Hnil Htop), bool_decide_eq_true_2 by done. rewrite (proj2 (Z.leb_le _ _)) by done.
    eexists _, _. split_and!; [done..|cbn; lia].
  - specialize (Hne ltac:(lia)). rewrite bool_decide_eq_false_2 by done.
    assert (Hin : ∀ cf, cf ∈ merge_sort depth_asc cfs → cf ∈ cfs) by (intros cf; by rewrite (merge_sort_Permutation depth_asc cfs)).
    destruct (apply_all_advances i 0 (merge_sort depth_asc cfs) (cfs_applied stats) lp (env i a) Hg1)
      as (a2 & [n lp'] & Hr & Hg2 & H1 & H2); [intros cf Hcf; by apply Hc, Hin|].
    cbn [cfs_applied]. rewrite Hr.
    assert (Hdeep : (depth (env i a) < depth a2)%Z).
    { destruct cfs as [|cf cfs]; [done|]. assert (Hcf : cf ∈ cf :: cfs) by left.
      destruct (Hc cf Hcf) as [_ Hd]. pose proof (H2 cf). rewrite (merge_sort_Permutation depth_asc (cf :: cfs)) in H.
      specialize (H Hcf). lia. }
    apply IH; [done|lia|]. intros j Hj. apply Ht. lia.
Qed.

(** Catching up succeeds.  With a source that serves what its peer has and an
    applier whose reported depth follows what it applied, and with time for one
    turn per missing depth, the loop returns success: the node has reached the
    depth of the peer, and that is the depth it reports. *)
Theorem catch_up_succeeds a :
  good a →
  (∀ j, (j ≤ Z.to_nat (top - depth a))%nat → (clock j 0 - start ≤ wall_clock_budget config)%Z) →
  ∃ a' stats, run (S (Z.to_nat (top - depth a))) a = Some (a', Ok stats) ∧ http_ready (Ok stats) = true ∧
    (top ≤ depth a')%Z ∧ final_depth stats = depth a' ∧ (top ≤ peer_highest_seen stats)%Z.
Proof.
  intros Hg Ht. destruct (loop_reaches (S (Z.to_nat (top - depth a))) 0 start CU.stats_default a Hg) as (a' & st & H1 & _ & H2 & H3 & H4);
    [lia|intros j Hj; apply Ht; lia|]. exists a', st. by split_and!.
Qed.
End Progress.
End Loop.

(** ** The engine as applier *)

Section Stall.
Context `{Bincode} `{Blake3} `{HexCrate} `{StateBcs} {St : Type} `{B4Store St} `{Ed25519}.
Context {L Es Cs As : Type} `{LruCache L} `{EventStoreBackend Es} `{CFStoreBackend Cs} `{AnchorStoreBackend As}.

Abbreviation V := (ConsensusValidator L Es Cs As St).
Variables (peers : Eng.Peers (L := L) (Es := Es)) (eenv : ConsensusEngine L Es St → ConsensusEngine L Es St) (now : Z).
Variables (source : CatchUpSource) (config : CatchUpConfig) (clock : nat → nat → Z) (start : Z) (env : nat → V → V).

Abbreviation applier := (EngineCatchUpApplier (Cs := Cs) (As := As) peers eenv now).

(** Applying a frame does not reach the frame store. *)
Lemma apply_all_cf_store i k cfs n lp v :
  cv_cf_store (CU.apply_all applier clock i k cfs n lp v).1 = cv_cf_store v.
Proof.
  revert k n lp v. induction cfs as [|cf cfs IH]; intros k n lp v; [done|]. cbn. unfold sbind.
  destruct (Eng.receive_finalized_cf _ _ _ _ _) as [e [r|x|]]; [|done..]. by rewrite IH.
Qed.

(** The engine's applier never gets a node past its first request.  It reports
    the depth of the frame store, and what it applies stays in the engine: as
    long as no other task indexes frames and the peer has frames beyond the depth
    of the store, the loop asks for the same frames again and never succeeds, so
    the HTTP server of a node that starts behind its peers is not started. *)
Theorem engine_catch_up_stalls fuel v v' r d :
  (∀ i u, cv_cf_store (env i u) = cv_cf_store u) →
  cb_highest_finalized_depth (cv_cf_store v) = Ok d →
  (∀ i, ∃ cfs top, source i d = Ok (cfs, top) ∧ cfs ≠ []) →
  CU.run_startup_catch_up source applier config clock start env fuel v = Some (v', r) → http_ready r = false.
Proof.
  intros Henv Hd Hsrc. unfold CU.run_startup_catch_up.
  enough (Hl : ∀ i lp stats, CU.catch_up_loop source applier config clock start env fuel i lp stats v = Some (v', r) →
    http_ready r = false) by apply Hl.
  revert v Hd. induction fuel as [|fuel IH]; intros v Hd i lp stats; cbn [CU.catch_up_loop]; [done|].
  destruct (_ <? _)%Z; [by intros [= _ <-]|]. cbn [ca_highest_finalized_depth EngineCatchUpApplier]. rewrite Henv, Hd.
  destruct (Hsrc i) as (cfs & top & -> & Hne). rewrite bool_decide_eq_false_2 by done.
  pose proof (apply_all_cf_store i 0 (merge_sort depth_asc cfs) (cfs_applied stats) lp (env i v)) as Hs.
  cbn [cfs_applied]. destruct (CU.apply_all _ _ _ _ _ _ _ _) as [w [[n lp']|e|]]; cbn in Hs; [|by intros [= _ <-]..].
  apply IH. by rewrite Hs, Henv.
Qed.
End Stall.

(** ** Instances *)

#[global] Instance AnchorMerkleRoots_eq_dec : EqDecision AnchorMerkleRoots.
Proof. solve_decision. Defined.
#[global] Instance Anchor_eq_dec : EqDecision Anchor.
Proof. solve_decision. Defined.
#[global] Instance Vote_eq_dec : EqDecision Vote.
Proof. solve_decision. Defined.
#[global] Instance ConsensusFrame_eq_dec : EqDecision ConsensusFrame.
Proof. solve_decision. Defined.

Section Instances.
#[local] Existing Instance toy_blake3.
#[local] Existing Instance hex_lower.
#[local] Existing Instance wit_bcs.
#[local] Existing Instance list_lru.
#[local] Existing Instance toy_ed25519.

Abbreviation WV := (ConsensusValidator (nat * list entry) EventStore CFStore AnchorStore InMemoryMerkleStore).

(** A peer with two finalized frames, at depths 1 and 2. *)
Definition wit_at (d : Z) : ConsensusFrame :=
  CF.finalize (CF.new 0 (Anch.new [] (Vlc.snapshot wit_clock) "" None d d) "a" d) 6.
Definition wit_frames : CFStore := CFS.store (wit_at 2) (CFS.store (wit_at 1) CFS.new).
Definition wit_peer : WV := mkConsensusValidator wit_engine wit_set wit_frames AS.new ∅ ∅ false.

(** A codec for one question and its answer. *)
Definition wit_question : Msg.SetuMessage := Msg.RequestFinalizedCFs 1 MAX_BATCH "b".
Definition wit_answer : Msg.SetuMessage := Msg.FinalizedCFsResponse [wit_at 2] 2 "a".

Definition toy_bincode : Bincode := {|
  ser_event _ := None;
  de_event _ := None;
  ser_message m :=
    match m with
    | Msg.RequestFinalizedCFs d n r => if decide (d = 1%Z ∧ n = MAX_BATCH ∧ r = "b"%string) then Some [Byte.x01] else None
    | Msg.FinalizedCFsResponse cfs h r => if decide (cfs = [wit_at 2] ∧ h = 2%Z ∧ r = "a"%string) then Some [Byte.x02] else None
    | _ => None
    end;
  de_message b :=
    match b with
    | [Byte.x01] => Some wit_question
    | [Byte.x02] => Some wit_answer
    | _ => None
    end
|}.
#[local] Existing Instance toy_bincode.

#[local] Instance toy_bincode_laws : BincodeLaws.
Proof.
  split; [done|]. intros m b. destruct m; cbn; try done.
  - destruct (decide _) as [(-> & -> & ->)|]; [|done]. by intros [= <-].
  - destruct (decide _) as [(-> & -> & ->)|]; [|done]. by intros [= <-].
Qed.

Definition wit_peer_id : string := hex_encode (replicate 32 Byte.x07).

Lemma catch_up_answer_witness :
  ∃ cfs highest,
    SC.pull_finalized_after_depth "b" (["??"] ++ wit_peer_id :: []) (fun _ => serve wit_peer "a") 1 = Ok (cfs, highest) ∧
    highest = 2%Z ∧ cfs ≠ [] ∧ served wit_frames 1 64 cfs.
Proof.
  destruct (catch_up_answer "b" "a" wit_peer (fun _ => serve wit_peer "a") ["??"%string] wit_peer_id [] 1
              (replicate 32 Byte.x07) [Byte.x01] [Byte.x02]) as (cfs & h & H1 & H2 & _ & H3).
  - intros q Hq. apply list_elem_of_singleton in Hq as ->. left. vm_compute. reflexivity.
  - vm_compute. reflexivity.
  - reflexivity.
  - vm_compute. reflexivity.
  - vm_compute. reflexivity.
  - assert (Hh : h = 2%Z).
    { assert (Hp : (SC.pull_finalized_after_depth "b" (["??"%string] ++ wit_peer_id :: []) (fun _ => serve wit_peer "a") 1)
               = Ok ([wit_at 2], 2%Z)) by (vm_compute; reflexivity). rewrite Hp in H1. by injection H1 as _ <-. }
    exists cfs, h. split; [exact H1|]. split; [exact Hh|]. split; [apply H3; rewrite Hh; lia|exact H2].
Defined.

(** An applier that only keeps the depth, a source that reads the peer's store one
    frame at a time, and a clock of one second per turn. *)
Definition wit_applier : CatchUpApplier Z :=
  mkApplier (fun d => Ok d) (fun cf d => (Z.max d (a_depth (cf_anchor cf)), Ok tt)).
Definition wit_source : CatchUpSource := fun _ d =>
  Ok (CFS.get_finalized_after_depth wit_frames d 1, CFS.highest_finalized_depth wit_frames).
Definition wit_ticks (i _ : nat) : Z := (Z.of_nat i * 1000)%Z.

Lemma wit_source_honest : honest_source wit_source (fun _ => True) (CFS.highest_finalized_depth wit_frames).
Proof.
  intros i d Hd. exists (CFS.get_finalized_after_depth wit_frames d 1).
  destruct (after_depth_served wit_frames d 1) as [_ _ Hdeep Hfirst]. split_and!; [done| | |].
  - intros cf Hcf. split; [done|]. by apply Hdeep.
  - intros Hlt Hnil. destruct (highest_reached wit_frames ltac:(lia)) as (cf & Hin & Hc).
    destruct (Hfirst cf Hin) as [Hx|[Hx _]]; [by rewrite Hc| |]; rewrite Hnil in Hx; [by apply not_elem_of_nil in Hx|done].
  - intros Hge. destruct (CFS.get_finalized_after_depth wit_frames d 1) as [|cf l]; [done|].
    destruct (Hdeep cf) as [Hin Hlt]; [left|]. pose proof (highest_ge wit_frames cf Hin) as Hx. cbn beta in Hx, Hlt. lia.
Qed.

Lemma wit_applier_advances :
  advancing_applier wit_applier (fun _ d => d) (fun _ => True) (fun d => (0 ≤ d)%Z) (fun d => d).
Proof.
  split; [done| |done]. intros a cf Ha _. eexists. split; [reflexivity|]. cbn. lia.
Qed.

Lemma catch_up_succeeds_witness :
  ∃ d stats, CU.run_startup_catch_up wit_source wit_applier catch_up_config_default wit_ticks 0 (fun _ d => d) 3 0 = Some (d, Ok stats) ∧
    (2 ≤ d)%Z ∧ cfs_applied stats = 2%Z.
Proof.
  assert (Htop : CFS.highest_finalized_depth wit_frames = 2%Z) by (vm_compute; reflexivity).
  destruct (catch_up_succeeds wit_source wit_applier catch_up_config_default wit_ticks 0 (fun _ d => d)
              (fun _ => True) (fun d => (0 ≤ d)%Z) (fun d => d) _ wit_source_honest wit_applier_advances 0%Z)
    as (d & stats & H1 & _ & H2 & _).
  - lia.
  - rewrite Htop. intros j Hj. change (Z.to_nat (2 - 0)) with 2%nat in Hj. unfold wit_ticks. cbn. lia.
  - rewrite Htop in H1, H2. change (S (Z.to_nat (2 - 0))) with 3%nat in H1. exists d, stats.
    split; [exact H1|]. split; [exact H2|]. vm_compute in H1. by injection H1 as _ <-.
Defined.

(** A peer that claims a depth and sends nothing: the loop gives up. *)
Lemma catch_up_terminates_witness :
  ∃ r, CU.run_startup_catch_up (fun _ _ => Ok ([], 1%Z)) wit_applier catch_up_config_default wit_ticks 0 (fun _ d => d) 62 0 = Some r ∧
    http_ready r.2 = false.
Proof.
  destruct (catch_up_terminates (fun _ _ => Ok ([], 1%Z)) wit_applier catch_up_config_default wit_ticks 0 (fun _ d => d) 1000)
    with (a := 0%Z) as [r Hr].
  - lia.
  - intros i. unfold wit_ticks. lia.
  - cbn. lia.
  - exists r. change (S (last_turn catch_up_config_default 1000)) with 62%nat in Hr. split; [exact Hr|].
    vm_compute in Hr. by injection Hr as <-.
Defined.
(** The stall of a node one frame behind: it finalizes the frame in its first turn,
    asks for it in every turn, and gives up when the minute is over. *)
Definition wit_ahead : ConsensusFrame :=
  let cf := CF.new 0 (Anch.new [] (Vlc.snapshot wit_clock) "" None 1 5) "a" 5 in
  CF.add_vote (CF.add_vote (CF.add_vote cf (signed "a" Byte.x01 cf)) (signed "c" Byte.x03 cf)) (signed "d" Byte.x04 cf).

Lemma engine_catch_up_stalls_example :
  let start : WV := mkConsensusValidator wit_engine wit_set CFS.new AS.new ∅ ∅ false in
  match CU.run_startup_catch_up (fun _ _ => Ok ([wit_ahead], 1%Z)) (EngineCatchUpApplier no_peers (fun e => e) 7)
          catch_up_config_default wit_ticks 0 (fun _ v => v) 62 start with
  | Some (v, Err (BudgetExceeded t)) =>
      t = 61000%Z ∧ length (finalized_cfs (consensus_manager (cv_engine v))) = 1%nat ∧
      length (pending_persist_cfs (cv_engine v)) = 1%nat ∧ CFS.finalized_count (cv_cf_store v) = 0%nat
  | _ => False
  end.
Proof. vm_compute. by split_and!. Qed.
End Instances.
