(* ===== verification/Reservation.v ===== *)
(** * Reservation of coins

    [setu-validator/src/coin_reservation.rs]: a coin is reserved before a task
    that spends it is sent to an enclave, so that concurrent tasks do not spend
    it twice.  Time is in nanoseconds of the monotonic clock; the random id of a
    reservation is an argument.  Each call works on one entry of a concurrent
    map and is one step; a batch is several, and [envs] is what other tasks do
    between them. *)

From Stdlib Require Import ZArith Lia Sorting.Sorted.
From stdpp Require Import base gmap sets list sorting strings numbers.
From S2P Require Import Prelude Hash Event Coin.
#[local] Open Scope Z_scope.

(** [Uuid]; the nil id marks a reservation that was not recorded. *)
Definition Uuid : Type := Z.
Definition uuid_nil : Uuid := 0.

Record Reservation := mkReservation {
  rv_id : Uuid;
  rv_amount : Z;
  rv_created_at : Z;
  rv_transfer_id : string
}.

Record ReservationHandle := mkHandle { reservation_id : Uuid; rh_coin_id : ObjectId }.

#[global] Instance ReservationHandle_eq_dec : EqDecision ReservationHandle.
Proof. solve_decision. Defined.

Record CoinReservationManager := mkReservations {
  reservations : gmap ObjectId Reservation;
  rv_ttl : Z;
  rv_enabled : bool
}.

Module CR.
Definition new (ttl : Z) : CoinReservationManager := mkReservations ∅ ttl true.
Definition with_default_ttl : CoinReservationManager := new 30000000000.

Definition update (f : gmap ObjectId Reservation → gmap ObjectId Reservation) (m : CoinReservationManager)
    : CoinReservationManager :=
  mkReservations (f (reservations m)) (rv_ttl m) (rv_enabled m).

(** [elapsed() > ttl]; [elapsed] is 0 for an instant in the future. *)
Definition expired (m : CoinReservationManager) (now : Z) (r : Reservation) : bool :=
  rv_ttl m <? Z.max 0 (now - rv_created_at r).

Definition try_reserve (coin : ObjectId) (amount : Z) (transfer_id : string) (fresh : Uuid) (now : Z)
    (m : CoinReservationManager) : CoinReservationManager * option ReservationHandle :=
  if negb (rv_enabled m) then (m, Some (mkHandle uuid_nil coin))
  else
    let granted := (update <[coin := mkReservation fresh amount now transfer_id]> m, Some (mkHandle fresh coin)) in
    match reservations m !! coin with
    | None => granted
    | Some r => if expired m now r then granted else (m, None)
    end.

Definition release (h : ReservationHandle) (m : CoinReservationManager) : CoinReservationManager :=
  if negb (rv_enabled m) then m
  else if reservation_id h =? uuid_nil then m
  else
    match reservations m !! rh_coin_id h with
    | Some r => if rv_id r =? reservation_id h then update (delete (rh_coin_id h)) m else m
    | None => m
    end.

Definition cleanup_expired (now : Z) (m : CoinReservationManager) : CoinReservationManager * nat :=
  let kept := filter (fun kv : ObjectId * Reservation => expired m now kv.2 = false) (reservations m) in
  (update (fun _ => kept) m, (size (reservations m) - size kept)%nat).

Definition set_enabled (b : bool) (m : CoinReservationManager) : CoinReservationManager :=
  mkReservations (if b then reservations m else ∅) (rv_ttl m) b.

Definition reservation_count (m : CoinReservationManager) : nat := size (reservations m).

Definition release_batch (handles : list ReservationHandle) (m : CoinReservationManager) : CoinReservationManager :=
  foldl (fun m h => release h m) m handles.

(** What each reservation of a batch finds: the interference before it, the
    random id and the time. *)
Record Turn := mkTurn { turn_env : CoinReservationManager → CoinReservationManager; turn_id : Uuid; turn_now : Z }.

Fixpoint reserve_loop (turns : nat → Turn) (i : nat) (coins : list (ObjectId * Z)) (transfer_id : string)
    (handles : list ReservationHandle) (m : CoinReservationManager)
    : CoinReservationManager * option (list ReservationHandle) :=
  match coins with
  | [] => (m, Some handles)
  | (coin, amount) :: rest =>
      let t := turns i in
      match try_reserve coin amount transfer_id (turn_id t) (turn_now t) (turn_env t m) with
      | (m, Some h) => reserve_loop turns (S i) rest transfer_id (handles ++ [h]) m
      | (m, None) => (release_batch handles m, None)
      end
  end.

Definition try_reserve_batch (turns : nat → Turn) (coins : list (ObjectId * Z)) (transfer_id : string)
    (m : CoinReservationManager) : CoinReservationManager * option (list ReservationHandle) :=
  reserve_loop turns 0 coins transfer_id [] m.
End CR.

(** ** Runs *)

Inductive rop :=
| RReserve (coin : ObjectId) (amount : Z) (transfer_id : string) (fresh : Uuid)
| RRelease (h : ReservationHandle)
| RCleanup
| RSetEnabled (b : bool).

(** A call, and the handles that were granted and not released. *)
Definition rstep (st : CoinReservationManager * list (ReservationHandle * Z)) (c : Z * rop)
    : CoinReservationManager * list (ReservationHandle * Z) :=
  let '(m, held) := st in
  let '(now, o) := c in
  match o with
  | RReserve coin amount tid fresh =>
      match CR.try_reserve coin amount tid fresh now m with
      | (m, Some h) => (m, (h, now) :: held)
      | (m, None) => (m, held)
      end
  | RRelease h => (CR.release h m, filter (fun e => reservation_id e.1 ≠ reservation_id h) held)
  | RCleanup => ((CR.cleanup_expired now m).1, held)
  | RSetEnabled b => (CR.set_enabled b m, held)
  end.

Definition rrun (ttl : Z) (calls : list (Z * rop)) : CoinReservationManager * list (ReservationHandle * Z) :=
  foldl rstep (CR.new ttl, []) calls.

(** A handle protects its coin for the lifetime of a reservation. *)
Definition protects (ttl now : Z) (e : ReservationHandle * Z) : Prop := now - e.2 ≤ ttl.

(** Every handle that still protects its coin is the recorded reservation. *)
Record rinv (now : Z) (st : CoinReservationManager * list (ReservationHandle * Z)) : Prop := mkRinv {
  ri_enabled : rv_enabled st.1 = true;
  ri_past : Forall (fun e => e.2 ≤ now) st.2;
  ri_held : ∀ h t, (h, t) ∈ st.2 → protects (rv_ttl st.1) now (h, t) →
    ∃ r, reservations st.1 !! rh_coin_id h = Some r ∧ rv_id r = reservation_id h ∧ rv_created_at r = t
}.

Lemma rinv_later now now' st : now ≤ now' → rinv now st → rinv now' st.
Proof.
  intros Hle [He Hp Hh]. constructor; [done| |].
  - eapply list.Forall_impl; [exact Hp|]. cbn. lia.
  - intros h t Hin Hpr. apply Hh; [done|]. unfold protects in *. cbn in *. lia.
Qed.

Lemma rstep_inv now st o :
  0 ≤ rv_ttl st.1 → rinv now st → o ≠ RSetEnabled false →
  rinv now (rstep st (now, o)) ∧ rv_ttl (rstep st (now, o)).1 = rv_ttl st.1.
Proof.
  destruct st as [m held]. intros Httl [He Hp Hh] Ho. cbn in *.
  assert (Hlive : ∀ h t r, (h, t) ∈ held → protects (rv_ttl m) now (h, t) →
    reservations m !! rh_coin_id h = Some r → CR.expired m now r = false).
  { intros h t r Hin Hpr Hr. destruct (Hh h t Hin Hpr) as (r' & Hr' & _ & Ht). simplify_eq.
    unfold CR.expired, protects in *. cbn in *. apply Z.ltb_ge. lia. }
  destruct o as [coin amount tid fresh|h| |[]]; [| | |by split|done].
  - unfold CR.try_reserve. rewrite He. cbn [negb].
    assert (Hgrant : (∀ h t, (h, t) ∈ held → protects (rv_ttl m) now (h, t) → rh_coin_id h ≠ coin) →
      rinv now (CR.update <[coin := mkReservation fresh amount now tid]> m, (mkHandle fresh coin, now) :: held)).
    { intros Hne. constructor; cbn; [done|by constructor; [cbn; lia|]|].
      intros h t [[= -> ->]|Hin]%elem_of_cons Hpr; [by eexists; rewrite lookup_insert_eq|].
      rewrite lookup_insert_ne by (intros Heq; by eapply Hne). by apply Hh. }
    destruct (reservations m !! coin) as [r|] eqn:Hr.
    + destruct (CR.expired m now r) eqn:Hx; [|by split]. split; [|done]. apply Hgrant.
      intros h t Hin Hpr <-. specialize (Hlive h t r Hin Hpr Hr). congruence.
    + split; [|done]. apply Hgrant. intros h t Hin Hpr <-. destruct (Hh h t Hin Hpr) as (r & Hr' & _). congruence.
  - assert (Hkeep : ∀ h' t, (h', t) ∈ filter (fun e => reservation_id e.1 ≠ reservation_id h) held →
      protects (rv_ttl m) now (h', t) → ∃ r, reservations (CR.release h m) !! rh_coin_id h' = Some r ∧
        rv_id r = reservation_id h' ∧ rv_created_at r = t).
    { intros h' t [Hne Hin]%list_elem_of_filter Hpr. destruct (Hh h' t Hin Hpr) as (r & Hr & Hi & Ht). exists r.
      split; [|done]. unfold CR.release. rewrite He. cbn [negb]. destruct (_ =? uuid_nil)%Z; [done|].
      destruct (reservations m !! rh_coin_id h) as [r0|] eqn:H0; [|done].
      destruct (Z.eqb_spec (rv_id r0) (reservation_id h)) as [Heq|]; [|done]. cbn.
      rewrite lookup_delete_ne; [done|]. intros Hc. rewrite Hc in H0. cbn in Hne. congruence. }
    assert (Hm : rv_ttl (CR.release h m) = rv_ttl m ∧ rv_enabled (CR.release h m) = true).
    { unfold CR.release. rewrite He. cbn [negb]. destruct (_ =? uuid_nil)%Z; [done|].
      destruct (reservations m !! rh_coin_id h); [|done]. by destruct (_ =? _)%Z. }
    destruct Hm as [Hm1 Hm2]. split; [|done]. constructor; cbn; [done| |by rewrite Hm1].
    apply list.Forall_forall. intros e [_ Hin]%list_elem_of_filter. revert e Hin. by apply list.Forall_forall.
  - split; [|done]. constructor; cbn; [done|done|]. intros h t Hin Hpr.
    destruct (Hh h t Hin Hpr) as (r & Hr & Hi & Ht). exists r. split; [|done].
    apply map_lookup_filter_Some. split; [done|]. by eapply Hlive.
Qed.

Lemma rrun_inv now calls t0 st :
  0 ≤ rv_ttl st.1 → rinv t0 st → StronglySorted Z.le (t0 :: calls.*1 ++ [now]) →
  Forall (fun c => c.2 ≠ RSetEnabled false) calls →
  rinv now (foldl rstep st calls) ∧ rv_ttl (foldl rstep st calls).1 = rv_ttl st.1.
Proof.
  revert t0 st. induction calls as [|[t o] calls IH]; intros t0 st Httl Hi Hs Hon.
  - apply StronglySorted_inv in Hs as [_ Hle]. cbn in Hle. apply list.Forall_cons in Hle as [Hle _].
    split; [by apply (rinv_later t0)|done].
  - apply StronglySorted_inv in Hs as [Hs Hle]. cbn in Hs, Hle. apply list.Forall_cons in Hle as [Hle _], Hon as [Ho Hon].
    destruct (rstep_inv t st o Httl (rinv_later t0 t st Hle Hi) Ho) as [Hi' Ht'].
    cbn [foldl]. destruct (IH t (rstep st (t, o))) as [H1 H2]; [by rewrite Ht'|done|done|done|].
    split; [done|]. by rewrite H2.
Qed.

(** ** Batches *)

(** Releasing removes reservations, and none of them is left under a released
    handle. *)
Lemma release_lookup h m c r :
  rv_enabled m = true → reservations (CR.release h m) !! c = Some r →
  reservations m !! c = Some r ∧ (reservation_id h = uuid_nil ∨ mkHandle (rv_id r) c ≠ h).
Proof.
  intros He. unfold CR.release. rewrite He. cbn [negb].
  destruct (Z.eqb_spec (reservation_id h) uuid_nil) as [|Hn]; [by intros ?; split; [|left]|].
  destruct (reservations m !! rh_coin_id h) as [r0|] eqn:H0.
  2: { intros Hr. split; [done|]. right. intros <-. cbn in H0. congruence. }
  destruct (Z.eqb_spec (rv_id r0) (reservation_id h)) as [Heq|Hne]; cbn.
  - intros [Hc Hr]%lookup_delete_Some. split; [done|]. right. by intros <-.
  - intros Hr. split; [done|]. right. intros <-. cbn in *. congruence.
Qed.

Lemma release_enabled h m : rv_enabled (CR.release h m) = rv_enabled m.
Proof.
  unfold CR.release. destruct (negb _); [done|]. destruct (_ =? _); [done|].
  destruct (reservations m !! _); [|done]. by destruct (_ =? _).
Qed.

Lemma release_batch_lookup hs m c r :
  rv_enabled m = true → Forall (fun h => reservation_id h ≠ uuid_nil) hs →
  reservations (CR.release_batch hs m) !! c = Some r →
  reservations m !! c = Some r ∧ mkHandle (rv_id r) c ∉ hs.
Proof.
  revert m. induction hs as [|h hs IH]; intros m He Hn; cbn; [intros Hr; split; [done|apply not_elem_of_nil]|].
  apply list.Forall_cons in Hn as [Hh Hn]. intros Hr. destruct (IH (CR.release h m)) as [H1 H2];
    [by rewrite release_enabled|done|exact Hr|].
  destruct (release_lookup _ _ _ _ He H1) as [H3 [?|H4]]; [done|]. split; [done|].
  by intros [?|?]%elem_of_cons.
Qed.

Section batch.
Variable turns : nat → CR.Turn.

(** [r] was made by this batch. *)
Definition own (r : Reservation) : Prop := ∃ i, rv_id r = CR.turn_id (turns i).

(** Other tasks neither switch the manager off nor use the ids of the batch. *)
Definition foreign : Prop := ∀ i m,
  rv_enabled (CR.turn_env (turns i) m) = rv_enabled m ∧
  ∀ c r, reservations (CR.turn_env (turns i) m) !! c = Some r → own r → reservations m !! c = Some r.

(** The reservations of the batch are those of its handles. *)
Definition tracked (m : CoinReservationManager) (hs : list ReservationHandle) : Prop :=
  ∀ c r, reservations m !! c = Some r → own r → mkHandle (rv_id r) c ∈ hs.

Lemma reserve_loop_spec coins i tid hs m :
  foreign → (∀ j, CR.turn_id (turns j) ≠ uuid_nil) → rv_enabled m = true → tracked m hs →
  Forall (fun h => reservation_id h ≠ uuid_nil) hs →
  match CR.reserve_loop turns i coins tid hs m with
  | (m', Some hs') =>
      hs' = hs ++ imap (fun j c => mkHandle (CR.turn_id (turns (i + j)%nat)) c.1) coins ∧
      rv_enabled m' = true ∧ tracked m' hs' ∧ Forall (fun h => reservation_id h ≠ uuid_nil) hs'
  | (m', None) => ∀ c r, reservations m' !! c = Some r → ¬ own r
  end.
Proof.
  intros Hf Hids. revert i hs m. induction coins as [|[coin amount] coins IH]; intros i hs m He Ht Hn.
  { cbn. by rewrite app_nil_r. }
  cbn [CR.reserve_loop]. destruct (Hf i m) as [He1 Hf1]. set (m1 := CR.turn_env (turns i) m) in *. rewrite He in He1.
  assert (Ht1 : tracked m1 hs) by (intros c r Hr Ho; apply Ht; [by apply Hf1|done]).
  assert (Hgrant : ∀ m2, m2 = CR.update <[coin := mkReservation (CR.turn_id (turns i)) amount (CR.turn_now (turns i)) tid]> m1 →
    match CR.reserve_loop turns (S i) coins tid (hs ++ [mkHandle (CR.turn_id (turns i)) coin]) m2 with
    | (m', Some hs') =>
        hs' = hs ++ imap (fun j c => mkHandle (CR.turn_id (turns (i + j)%nat)) c.1) ((coin, amount) :: coins) ∧
        rv_enabled m' = true ∧ tracked m' hs' ∧ Forall (fun h => reservation_id h ≠ uuid_nil) hs'
    | (m', None) => ∀ c r, reservations m' !! c = Some r → ¬ own r
    end).
  { intros m2 ->. specialize (IH (S i) (hs ++ [mkHandle (CR.turn_id (turns i)) coin])
      (CR.update <[coin := mkReservation (CR.turn_id (turns i)) amount (CR.turn_now (turns i)) tid]> m1)).
    assert (Htr : tracked (CR.update <[coin := mkReservation (CR.turn_id (turns i)) amount (CR.turn_now (turns i)) tid]> m1)
                    (hs ++ [mkHandle (CR.turn_id (turns i)) coin])).
    { intros c r. cbn. intros [[<- <-]|[_ Hr]]%lookup_insert_Some Ho; apply elem_of_app; [right; by left|left; by apply Ht1]. }
    assert (Hn' : Forall (fun h => reservation_id h ≠ uuid_nil) (hs ++ [mkHandle (CR.turn_id (turns i)) coin])).
    { apply Forall_app. split; [done|]. apply list.Forall_singleton, Hids. }
    specialize (IH He1 Htr Hn'). destruct (CR.reserve_loop _ _ _ _ _ _) as [m' [hs'|]]; [|exact IH].
    destruct IH as (-> & IH). split; [|exact IH]. rewrite <-app_assoc. cbn. rewrite Nat.add_0_r. do 2 f_equal.
    apply imap_ext. intros j c _. cbn. by rewrite Nat.add_succ_r. }
  assert (Hback : ∀ c r, reservations (CR.release_batch hs m1) !! c = Some r → ¬ own r).
  { intros c r Hr Ho. destruct (release_batch_lookup hs m1 c r He1 Hn Hr) as [H1 H2]. by apply H2, Ht1. }
  unfold CR.try_reserve. rewrite He1. cbn [negb]. destruct (reservations m1 !! coin) as [r|]; [|by apply Hgrant].
  destruct (CR.expired m1 _ r); [by apply Hgrant|done].
Qed.
End batch.

(** ** Theorems *)

(** C34: a reserved coin has one holder.  In any run of reservations, releases and
    clean-ups by any number of tasks, at any time at most one handle that was
    granted for a coin and not released is still within its lifetime; and while
    there is one, no further reservation of the coin is granted. *)
Theorem reservation_exclusive (ttl now : Z) (calls : list (Z * rop)) (h1 h2 : ReservationHandle) (t1 t2 : Z)
    (Httl : 0 ≤ ttl) (Htime : StronglySorted Z.le (calls.*1 ++ [now]))
    (Hon : Forall (fun c => c.2 ≠ RSetEnabled false) calls)
    (H1 : (h1, t1) ∈ (rrun ttl calls).2) (H2 : (h2, t2) ∈ (rrun ttl calls).2)
    (Hcoin : rh_coin_id h1 = rh_coin_id h2)
    (Hl1 : protects ttl now (h1, t1)) (Hl2 : protects ttl now (h2, t2)) :
  h1 = h2 ∧ t1 = t2 ∧
  ∀ amount transfer_id fresh,
    CR.try_reserve (rh_coin_id h1) amount transfer_id fresh now (rrun ttl calls).1 = ((rrun ttl calls).1, None).
Proof.
  assert (Hs : StronglySorted Z.le (default now (head (calls.*1)) :: calls.*1 ++ [now])).
  { constructor; [done|]. destruct calls as [|c calls]; cbn in *; [by apply list.Forall_singleton|].
    apply StronglySorted_inv in Htime as [_ Hle]. by constructor. }
  assert (Hr0 : rinv (default now (head (calls.*1))) (CR.new ttl, [])) by (constructor; [done..|by intros ? ? ?%not_elem_of_nil]).
  destruct (rrun_inv now calls _ (CR.new ttl, []) Httl Hr0 Hs Hon) as [[He Hp Hh] Ht].
  change (foldl rstep (CR.new ttl, []) calls) with (rrun ttl calls) in *. cbn in Ht. rewrite Ht in Hh.
  destruct (Hh h1 t1 H1 Hl1) as (r1 & Hr1 & Hi1 & Hc1). destruct (Hh h2 t2 H2 Hl2) as (r2 & Hr2 & Hi2 & Hc2).
  rewrite Hcoin in Hr1. assert (r2 = r1) as -> by congruence. split_and!; [|congruence|].
  - destruct h1, h2. cbn in *. congruence.
  - intros amount tid fresh. unfold CR.try_reserve. rewrite He, Hcoin, Hr1. cbn [negb].
    assert (Hx : CR.expired (rrun ttl calls).1 now r1 = false); [|by rewrite Hx].
    unfold CR.expired, protects in *. cbn in Hl1. rewrite Ht. apply Z.ltb_ge. lia.
Qed.

(** A batch reserves all of its coins or leaves nothing behind, whatever
    other tasks do between its steps.  When it fails, no reservation made by it
    remains; when it succeeds, it returns one handle per coin, in order, and
    releasing them leaves no reservation of the batch. *)
Theorem batch_all_or_nothing (turns : nat → CR.Turn) (coins : list (ObjectId * Z)) (transfer_id : string)
    (m : CoinReservationManager)
    (Henabled : rv_enabled m = true) (Hids : ∀ i, CR.turn_id (turns i) ≠ uuid_nil) (Hforeign : foreign turns)
    (Hfresh : ∀ c r, reservations m !! c = Some r → ¬ own turns r) :
  match CR.try_reserve_batch turns coins transfer_id m with
  | (m', Some hs) =>
      hs = imap (fun i c => mkHandle (CR.turn_id (turns i)) c.1) coins ∧
      ∀ c r, reservations (CR.release_batch hs m') !! c = Some r → ¬ own turns r
  | (m', None) => ∀ c r, reservations m' !! c = Some r → ¬ own turns r
  end.
Proof.
  pose proof (reserve_loop_spec turns coins 0 transfer_id [] m Hforeign Hids Henabled) as Hl.
  unfold CR.try_reserve_batch. destruct (CR.reserve_loop _ _ _ _ _ _) as [m' [hs|]].
  - destruct Hl as (-> & He & Ht & Hn); [by intros c r Hr Ho; destruct (Hfresh c r Hr)|done|]. split; [done|].
    intros c r Hr Ho. destruct (release_batch_lookup _ _ _ _ He Hn Hr) as [H1 H2]. by apply H2, Ht.
  - apply Hl; [by intros c r Hr Ho; destruct (Hfresh c r Hr)|done].
Qed.

(** The coin is reserved at 0, its reservation expires after 10, and another task
    reserves it at 11; the first release comes too late to free it. *)
Lemma reservation_exclusive_witness :
  let calls := [(0, RReserve zero_hash 5 "t1" 1); (11, RReserve zero_hash 5 "t2" 2); (12, RRelease (mkHandle 1 zero_hash))] in
  (CR.try_reserve zero_hash 7 "t3" 3 13 (rrun 10 calls).1).2 = None.
Proof.
  intros calls.
  assert (Hin : (mkHandle 2 zero_hash, 11) ∈ (rrun 10 calls).2) by (apply (bool_decide_unpack _); vm_compute; exact I).
  destruct (reservation_exclusive 10 13 calls (mkHandle 2 zero_hash) (mkHandle 2 zero_hash) 11 11) as (_ & _ & Hr).
  - lia.
  - cbn. repeat constructor; lia.
  - apply list.Forall_forall. intros c Hc. repeat (apply elem_of_cons in Hc as [->|Hc]; [discriminate|]).
    apply not_elem_of_nil in Hc. destruct Hc.
  - exact Hin.
  - exact Hin.
  - reflexivity.
  - unfold protects. cbn. lia.
  - unfold protects. cbn. lia.
  - specialize (Hr 7 "t3" 3). cbn [rh_coin_id] in Hr. rewrite Hr. reflexivity.
Defined.

(** The second coin of the batch is taken by another task before its turn. *)
Lemma batch_all_or_nothing_witness :
  let other := (CR.try_reserve SUBNET_GOVERNANCE 1 "other" 9 0 (CR.new 10)).1 in
  let turns i := CR.mkTurn (fun m => m) (Z.of_nat i + 100) 1 in
  (CR.try_reserve_batch turns [(zero_hash, 1); (SUBNET_GOVERNANCE, 1)] "t" other).2 = None ∧
  ∀ c r, reservations (CR.try_reserve_batch turns [(zero_hash, 1); (SUBNET_GOVERNANCE, 1)] "t" other).1 !! c = Some r →
    ¬ own turns r.
Proof.
  intros other turns.
  pose proof (batch_all_or_nothing turns [(zero_hash, 1); (SUBNET_GOVERNANCE, 1)] "t" other eq_refl) as Ht.
  assert (Hr : (CR.try_reserve_batch turns [(zero_hash, 1); (SUBNET_GOVERNANCE, 1)] "t" other).2 = None) by (vm_compute; reflexivity).
  split; [exact Hr|]. destruct (CR.try_reserve_batch _ _ _ _) as [m' [hs|]]; [discriminate Hr|]. cbn [fst]. apply Ht.
  - intros i. unfold turns, uuid_nil. cbn. lia.
  - intros i m. cbn. split; [reflexivity|]. intros c r Hc _. exact Hc.
  - intros c r Hc [i Hi]. change (reservations other) with
      (<[SUBNET_GOVERNANCE := mkReservation 9 1 0 "other"]> (∅ : gmap ObjectId Reservation)) in Hc.
    apply lookup_insert_Some in Hc as [[_ <-]|[_ Hc]]; [cbn in Hi; lia|]. rewrite lookup_empty in Hc. discriminate Hc.
Defined.
