(* ===== verification/Governance.v ===== *)
(** * Governance: proposals, decisions and system subnets

    [types/src/governance.rs], the crate [setu-governance] (validation, state
    machine and effects of proposals) and
    [setu-validator/src/governance/executor.rs], which turns them into events.
    A proposal is an object of the governance subnet; a decision is an event that
    replaces it and, when it approves, carries out the effect of the proposal.
    [serde_json] is a class per type, of which reading inverts printing. *)

From Stdlib Require Import ZArith Lia Strings.Byte.
From stdpp Require Import base gmap sets list strings numbers.
From S2P Require Import Prelude Hash Vlc Event Coin StateStore Resource SparseMerkle MerkleStore StateManager ConsensusTypes.
#[local] Open Scope setu_scope.
#[local] Open Scope string_scope.

(** ** Serialization *)

(** [serde_json::to_vec] and [from_slice] of a type; printing may fail. *)
Class Serde (A : Type) := {
  to_vec : A → option bytes;
  from_slice : bytes → option A;
  from_slice_to_vec : ∀ a b, to_vec a = Some b → from_slice b = Some a
}.

Lemma to_vec_inj `{Serde A} (x y : A) b : to_vec x = Some b → to_vec y = Some b → x = y.
Proof. intros Hx%from_slice_to_vec Hy%from_slice_to_vec. congruence. Qed.

(** ** Data *)

Inductive ProposalType :=
| ParameterChange | ValidatorSlash | DisputeResolution | SubnetPolicy | ResourceParamChangeType.

Inductive ProposalEffect :=
| UpdateParameter (key : string) (value : bytes)
| SlashValidator (validator_id : string) (amount : Z)
| ResolveDispute (dispute_id : HashValue) (resolution : bytes)
| UpdateResourceParam (change : ResourceParamChange).

Record ProposalContent := mkContent {
  pc_proposer : string;
  pc_type : ProposalType;
  pc_title : string;
  pc_description : string;
  pc_action : ProposalEffect
}.

Record GovernanceDecision := mkDecision {
  approved : bool;
  reasoning : string;
  conditions : list string
}.

Inductive ProposalStatus := PsPending | PsApproved | PsRejected | PsFailed.

#[global] Instance ProposalStatus_eq_dec : EqDecision ProposalStatus.
Proof. solve_decision. Defined.

Record GovernanceProposal := mkProposal {
  gp_id : HashValue;
  gp_content : ProposalContent;
  gp_status : ProposalStatus;
  gp_decision : option GovernanceDecision;
  gp_created_at : Z;
  gp_decided_at : option Z
}.

Record SystemSubnetRegistration := mkRegistration {
  sr_subnet_id : SubnetId;
  sr_agent_endpoint : string;
  sr_callback_addr : option string;
  sr_timeout_secs : option Z;
  sr_registrant : string;
  sr_public_key : string;
  sr_signature : string
}.

Inductive GovernanceAction :=
| Propose (content : ProposalContent)
| Execute (decision : GovernanceDecision)
| RegisterSystemSubnet (registration : SystemSubnetRegistration).

Record GovernancePayload := mkGovPayload { pl_proposal_id : HashValue; pl_action : GovernanceAction }.

(** [EventPayload::Governance]: the payload as the bytes of an event. *)
Class GovernanceCodec := {
  governance_payload : GovernancePayload → bytes;
  as_governance : bytes → option GovernancePayload;
  as_governance_payload : ∀ p, as_governance (governance_payload p) = Some p
}.

Inductive GovernanceError :=
| DuplicateProposal
| ProposalNotFound
| InvalidStatus (expected actual : ProposalStatus)
| InvalidContent (msg : string)
| EffectExecutionFailed (msg : string).

Inductive GovernanceEffect :=
| EffUpdateProposal (proposal_id : HashValue) (new_status : ProposalStatus) (decision : option GovernanceDecision)
| EffSlashValidator (validator_id : string) (amount : Z)
| EffUpdateParameter (key : string) (value : bytes)
| EffResolveDispute (dispute_id : HashValue) (resolution : bytes)
| EffUpdateResourceParam (change : ResourceParamChange).

Inductive GovernanceExecutorError :=
| Validation (e : GovernanceError)
| Serialization
| InvalidRegistration (msg : string)
| Unauthorized (msg : string).

Record GenesisValidator := mkGenesisValidator {
  gv_id : string;
  gv_address : string;
  gv_p2p_port : Z;
  gv_public_key : option string
}.

(** ** Subnet ids *)

Module Subnet.
Definition is_root (s : SubnetId) : bool := bool_decide (s = SUBNET_ROOT).
Definition is_system (s : SubnetId) : bool := (HV.byte_at s 0 <=? 1)%Z.
Definition from_hex `{HexCrate} (hex_str : string) : option SubnetId :=
  hex_decode (default hex_str (strip_prefix "0x" hex_str)) ≫= hash_of_bytes.
End Subnet.

(** ** Registrations and their signatures *)

Module Reg.
Definition extend_len_prefixed (b : bytes) : bytes := to_be_bytes 8 (Z.of_nat (length b)) ++ b.

Definition extend_optional_str (value : option string) : bytes :=
  match value with
  | Some v => Byte.x01 :: extend_len_prefixed (as_bytes v)
  | None => [Byte.x00]
  end.

Definition extend_optional_u64 (value : option Z) : bytes :=
  match value with
  | Some v => Byte.x01 :: to_be_bytes 8 v
  | None => [Byte.x00]
  end.

Definition signing_message (r : SystemSubnetRegistration) : bytes :=
  as_bytes "SETU_REGISTER_SYSTEM_SUBNET_V2" ++ hv_bytes (sr_subnet_id r)
    ++ extend_len_prefixed (as_bytes (sr_agent_endpoint r))
    ++ extend_optional_str (sr_callback_addr r)
    ++ extend_optional_u64 (sr_timeout_secs r)
    ++ extend_len_prefixed (as_bytes (sr_registrant r))
    ++ extend_len_prefixed (as_bytes (sr_public_key r)).

Definition with_signature (r : SystemSubnetRegistration) (s : string) : SystemSubnetRegistration :=
  mkRegistration (sr_subnet_id r) (sr_agent_endpoint r) (sr_callback_addr r) (sr_timeout_secs r)
    (sr_registrant r) (sr_public_key r) s.

Section Sign.
Context `{HexCrate} `{Ed25519}.

Definition sign (r : SystemSubnetRegistration) (private_key : bytes) : result string SystemSubnetRegistration :=
  if negb (length private_key =? 32)%nat then Err "Invalid private key length"
  else Ok (with_signature r (hex_encode (ed_sign private_key (signing_message r)))).

(** A signature of the wrong length does not parse; [ed_verify] refuses it. *)
Definition verify_signature (r : SystemSubnetRegistration) (public_key_bytes : bytes) : bool :=
  if bool_decide (sr_signature r = "") || negb (length public_key_bytes =? 32)%nat then false
  else
    match key_from_bytes public_key_bytes with
    | None => false
    | Some key =>
        match hex_decode (sr_signature r) with
        | None => false
        | Some sig => ed_verify key (signing_message r) sig
        end
    end.
End Sign.
End Reg.

(** ** Validation, state machine and effects *)

Module ProposalValidator.
Definition validate_content (c : ProposalContent) : result GovernanceError unit :=
  if bool_decide (pc_title c = "") then Err (InvalidContent "title cannot be empty")
  else if bool_decide (pc_proposer c = "") then Err (InvalidContent "proposer cannot be empty")
  else Ok tt.

Definition validate_propose (c : ProposalContent) (existing : option GovernanceProposal)
    : result GovernanceError unit :=
  match existing with
  | Some _ => Err DuplicateProposal
  | None => validate_content c
  end.

Definition validate_execute (proposal : option GovernanceProposal) (decision : GovernanceDecision)
    : result GovernanceError unit :=
  match proposal with
  | None => Err ProposalNotFound
  | Some p =>
      if bool_decide (gp_status p ≠ PsPending) then Err (InvalidStatus PsPending (gp_status p)) else Ok tt
  end.
End ProposalValidator.

Definition decided_status (d : GovernanceDecision) : ProposalStatus :=
  if approved d then PsApproved else PsRejected.

Module EffectExecutor.
Definition execute (proposal_id : HashValue) (effect : ProposalEffect) (d : GovernanceDecision)
    : list GovernanceEffect :=
  EffUpdateProposal proposal_id (decided_status d) (Some d) ::
  (if approved d then
     [match effect with
      | SlashValidator v a => EffSlashValidator v a
      | UpdateParameter k v => EffUpdateParameter k v
      | ResolveDispute i r => EffResolveDispute i r
      | UpdateResourceParam c => EffUpdateResourceParam c
      end]
   else []).
End EffectExecutor.

Module ProposalStateMachine.
Definition create (proposal_id : HashValue) (c : ProposalContent) (timestamp : Z) : GovernanceProposal :=
  mkProposal proposal_id c PsPending None timestamp None.

Definition transition (p : GovernanceProposal) (d : GovernanceDecision) (timestamp : Z)
    : result GovernanceError (GovernanceProposal * list GovernanceEffect) :=
  if bool_decide (gp_status p ≠ PsPending) then Err (InvalidStatus PsPending (gp_status p))
  else Ok (mkProposal (gp_id p) (gp_content p) (decided_status d) (Some d) (gp_created_at p) (Some timestamp),
           EffectExecutor.execute (gp_id p) (pc_action (gp_content p)) d).
End ProposalStateMachine.

(** ** The executor *)

(** [StateChange::new], [insert], [update] and [with_target_subnet]. *)
Definition change_new (key : string) (old new : option bytes) : StateChange := mkStateChange key old new None.
Definition change_insert (key : string) (value : bytes) : StateChange := change_new key None (Some value).
Definition change_update (key : string) (old new : bytes) : StateChange := change_new key (Some old) (Some new).
Definition with_target_subnet (c : StateChange) (s : SubnetId) : StateChange :=
  mkStateChange (sc_key c) (old_value c) (new_value c) (Some s).

Module GovernanceExecutor.
Section GX.
Context `{Blake3} `{HexCrate} `{SerdeJson} `{Ed25519} `{GovernanceCodec}.
Context `{Serde GovernanceProposal} `{Serde ResourceParams} `{Serde SystemSubnetRegistration}.

(** [format!("oid:{}", hex::encode(id))]. *)
Definition oid (id : HashValue) : string := "oid:" +:+ hex_encode (hv_bytes id).
Definition slash_id (validator_id : string) (amount : Z) : HashValue :=
  blake3 (as_bytes ("slash:" +:+ validator_id +:+ ":" +:+ fmt_u64 amount)).
Definition param_id (key : string) : HashValue := blake3 (as_bytes ("param:" +:+ key)).

Definition serialize `{Serde A} (a : A) : result GovernanceExecutorError bytes := ok_or Serialization (to_vec a).

(** [map_err] with [From<GovernanceError>]. *)
Definition validated {A} (r : result GovernanceError A) : result GovernanceExecutorError A :=
  match r with
  | Ok a => Ok a
  | Err e => Err (Validation e)
  | Panic => Panic
  end.

(** The event that carries the changes; [now] is the clock of [Event::new]. *)
Definition build_event (p : GovernancePayload) (changes : list StateChange) (vlc : VLCSnapshot) (creator : string)
    (now : Z) : Event :=
  set_execution_result (with_payload (event_new Governance [] vlc creator now) (governance_payload p))
    (mkExecutionResult true None changes).

Definition execute_propose (proposal_id : HashValue) (content : ProposalContent) (timestamp : Z)
    (vlc : VLCSnapshot) (existing : option GovernanceProposal) (creator : string) (now : Z)
    : result GovernanceExecutorError Event :=
  let? _ := validated (ProposalValidator.validate_propose content existing) in
  let? value := serialize (ProposalStateMachine.create proposal_id content timestamp) in
  Ok (build_event (mkGovPayload proposal_id (Propose content)) [change_new (oid proposal_id) None (Some value)]
        vlc creator now).

Definition materialize_effect (proposal_id : HashValue) (original updated : GovernanceProposal)
    (current : option ResourceParams) (timestamp : Z) (e : GovernanceEffect)
    : result GovernanceExecutorError StateChange :=
  match e with
  | EffUpdateProposal _ _ _ =>
      let? old := serialize original in
      let? new := serialize updated in
      Ok (change_update (oid proposal_id) old new)
  | EffSlashValidator validator_id amount =>
      let? value := ok_or Serialization (json_to_vec (JObj [("type", JStr "slash");
        ("validator_id", JStr validator_id); ("amount", JNum amount)])) in
      Ok (with_target_subnet (change_insert (oid (slash_id validator_id amount)) value) SUBNET_ROOT)
  | EffUpdateParameter key value =>
      Ok (with_target_subnet (change_insert (oid (param_id key)) value) SUBNET_ROOT)
  | EffResolveDispute dispute_id resolution =>
      Ok (with_target_subnet (change_insert (oid dispute_id) resolution) SUBNET_ROOT)
  | EffUpdateResourceParam change =>
      let updated_params := apply_resource_param_change (default params_default current) change timestamp in
      let? new := serialize updated_params in
      match current with
      | Some p =>
          let? old := serialize p in
          Ok (change_update (oid resource_params_object_id) old new)
      | None => Ok (change_insert (oid resource_params_object_id) new)
      end
  end.

Fixpoint materialize_effects (proposal_id : HashValue) (original updated : GovernanceProposal)
    (effects : list GovernanceEffect) (current : option ResourceParams) (timestamp : Z)
    : result GovernanceExecutorError (list StateChange) :=
  match effects with
  | [] => Ok []
  | e :: rest =>
      let? c := materialize_effect proposal_id original updated current timestamp e in
      let? cs := materialize_effects proposal_id original updated rest current timestamp in
      Ok (c :: cs)
  end.

Definition execute_decision (proposal_id : HashValue) (decision : GovernanceDecision) (timestamp : Z)
    (vlc : VLCSnapshot) (proposal : GovernanceProposal) (creator : string) (current : option ResourceParams) (now : Z)
    : result GovernanceExecutorError Event :=
  let? _ := validated (ProposalValidator.validate_execute (Some proposal) decision) in
  let? (updated, effects) := validated (ProposalStateMachine.transition proposal decision timestamp) in
  let? changes := materialize_effects proposal_id proposal updated effects current timestamp in
  Ok (build_event (mkGovPayload proposal_id (Execute decision)) changes vlc creator now).

Definition check_registrant (r : SystemSubnetRegistration) (genesis_validators : list GenesisValidator)
    : result GovernanceExecutorError unit :=
  match List.find (fun v => bool_decide (gv_id v = sr_registrant r)) genesis_validators with
  | None => Err (Unauthorized ("'" +:+ sr_registrant r +:+ "' is not a genesis validator"))
  | Some v =>
      match gv_public_key v with
      | None => Err (Unauthorized ("Genesis validator '" +:+ sr_registrant r +:+ "' has no public key configured"))
      | Some genesis_pk =>
          if bool_decide (sr_public_key r ≠ genesis_pk)
          then Err (Unauthorized "Public key does not match genesis validator config")
          else
            match hex_decode (sr_public_key r) with
            | None => Err (Unauthorized "Invalid public_key hex")
            | Some pk =>
                if Reg.verify_signature r pk then Ok tt else Err (Unauthorized "Invalid signature")
            end
      end
  end.

Definition execute_register_system_subnet (r : SystemSubnetRegistration) (timestamp : Z) (vlc : VLCSnapshot)
    (creator : string) (existing : option bytes) (genesis_validators : list GenesisValidator) (now : Z)
    : result GovernanceExecutorError Event :=
  if negb (Subnet.is_system (sr_subnet_id r)) || Subnet.is_root (sr_subnet_id r)
  then Err (InvalidRegistration "SubnetId must be a system subnet (is_system() && !is_root())")
  else if negb (starts_with (sr_agent_endpoint r) "http://") && negb (starts_with (sr_agent_endpoint r) "https://")
  then Err (InvalidRegistration "agent_endpoint must start with http:// or https://")
  else
    let? _ := check_registrant r genesis_validators in
    let? value := serialize r in
    let change := match existing with
                  | Some old => change_update (oid (sr_subnet_id r)) old value
                  | None => change_new (oid (sr_subnet_id r)) None (Some value)
                  end in
    Ok (build_event (mkGovPayload (sr_subnet_id r) (RegisterSystemSubnet r)) [change] vlc creator now).
End GX.
End GovernanceExecutor.
