(* ===== verification/GovernanceInst.v ===== *)
(** * A concrete serialization of the governance data

    The data of [Governance] is countable, so it can be printed as bytes and read
    back: instances of the serialization classes, which show that their laws can
    hold and let the examples run. *)

From Stdlib Require Import ZArith Lia Strings.Byte.
From stdpp Require Import base gmap countable list strings numbers.
From S2P Require Import Prelude Hash Vlc Event Coin StateStore Resource ConsensusTypes Governance.

#[local] Open Scope nat_scope.

(** ** Bytes of a positive number, one per bit *)

Fixpoint pos_bytes (p : positive) : bytes :=
  match p with
  | xH => []
  | xO p => Byte.x00 :: pos_bytes p
  | xI p => Byte.x01 :: pos_bytes p
  end.

Fixpoint bytes_pos (b : bytes) : positive :=
  match b with
  | [] => xH
  | Byte.x00 :: b => xO (bytes_pos b)
  | _ :: b => xI (bytes_pos b)
  end.

Lemma bytes_pos_bytes p : bytes_pos (pos_bytes p) = p.
Proof. induction p as [p IH|p IH|]; cbn; congruence. Qed.

Lemma decode_pos_bytes `{Countable A} (a : A) : decode (bytes_pos (pos_bytes (encode a))) = Some a.
Proof. by rewrite bytes_pos_bytes, decode_encode. Qed.

Lemma decode_bytes_of `{Countable A} (a : A) b :
  Some (pos_bytes (encode a)) = Some b → decode (bytes_pos b) = Some a.
Proof. intros [= <-]. apply decode_pos_bytes. Qed.

Definition serde_countable {A} `{Countable A} : Serde A := {|
  to_vec a := Some (pos_bytes (encode a));
  from_slice b := decode (bytes_pos b);
  from_slice_to_vec := decode_bytes_of
|}.

(** ** Countable data *)

#[global] Instance ProposalType_eq_dec : EqDecision ProposalType.
Proof. solve_decision. Defined.
#[global] Instance mode_eq_dec : EqDecision ResourceGovernanceMode.
Proof. solve_decision. Defined.
#[global] Instance ResourceParamChange_eq_dec : EqDecision ResourceParamChange.
Proof. solve_decision. Defined.
#[global] Instance ProposalEffect_eq_dec : EqDecision ProposalEffect.
Proof. solve_decision. Defined.
#[global] Instance ProposalContent_eq_dec : EqDecision ProposalContent.
Proof. solve_decision. Defined.
#[global] Instance GovernanceDecision_eq_dec : EqDecision GovernanceDecision.
Proof. solve_decision. Defined.
#[global] Instance GovernanceProposal_eq_dec : EqDecision GovernanceProposal.
Proof. solve_decision. Defined.
#[global] Instance ResourceParams_eq_dec : EqDecision ResourceParams.
Proof. solve_decision. Defined.
#[global] Instance SystemSubnetRegistration_eq_dec : EqDecision SystemSubnetRegistration.
Proof. solve_decision. Defined.
#[global] Instance GovernanceAction_eq_dec : EqDecision GovernanceAction.
Proof. solve_decision. Defined.
#[global] Instance GovernancePayload_eq_dec : EqDecision GovernancePayload.
Proof. solve_decision. Defined.

#[global] Instance ProposalType_countable : Countable ProposalType.
Proof.
  refine (inj_countable
    (fun t => match t with
              | ParameterChange => 0 | ValidatorSlash => 1 | DisputeResolution => 2 | SubnetPolicy => 3
              | ResourceParamChangeType => 4
              end)
    (fun n => match n with
              | 0 => Some ParameterChange | 1 => Some ValidatorSlash | 2 => Some DisputeResolution
              | 3 => Some SubnetPolicy | 4 => Some ResourceParamChangeType | _ => None
              end) _).
  by intros [].
Defined.

#[global] Instance mode_countable : Countable ResourceGovernanceMode.
Proof.
  refine (inj_countable (fun m => match m with Enabled => 0 | Disabled => 1 | DryRun => 2 end)
    (fun n => match n with 0 => Some Enabled | 1 => Some Disabled | 2 => Some DryRun | _ => None end) _).
  by intros [].
Defined.

#[global] Instance status_countable : Countable ProposalStatus.
Proof.
  refine (inj_countable (fun m => match m with PsPending => 0 | PsApproved => 1 | PsRejected => 2 | PsFailed => 3 end)
    (fun n => match n with
              | 0 => Some PsPending | 1 => Some PsApproved | 2 => Some PsRejected | 3 => Some PsFailed | _ => None
              end) _).
  by intros [].
Defined.

#[global] Instance param_change_countable : Countable ResourceParamChange.
Proof.
  refine (inj_countable (A := nat * (ResourceGovernanceMode + Z))
    (fun c => match c with
      | SetPowerMode v => (0, inl v) | SetPowerCostPerEvent v => (0, inr v) | SetFluxMode v => (1, inl v)
      | SetFluxRewardOnSuccess v => (1, inr v) | SetFluxPenaltyOnFailure v => (2, inr v) | SetGasMode v => (2, inl v)
      | SetGasBasePrice v => (3, inr v) | SetMinTransferAmount v => (4, inr v) | SetMaxTransferAmount v => (5, inr v)
      | SetMaxMergeSources v => (6, inr v) | SetMaxSplitOutputs v => (7, inr v) | SetPowerRevivalPrice v => (8, inr v)
      | SetTransferFeeRateBps v => (9, inr v)
      end)
    (fun x => match x with
      | (0, inl v) => Some (SetPowerMode v) | (0, inr v) => Some (SetPowerCostPerEvent v)
      | (1, inl v) => Some (SetFluxMode v) | (1, inr v) => Some (SetFluxRewardOnSuccess v)
      | (2, inr v) => Some (SetFluxPenaltyOnFailure v) | (2, inl v) => Some (SetGasMode v)
      | (3, inr v) => Some (SetGasBasePrice v) | (4, inr v) => Some (SetMinTransferAmount v)
      | (5, inr v) => Some (SetMaxTransferAmount v) | (6, inr v) => Some (SetMaxMergeSources v)
      | (7, inr v) => Some (SetMaxSplitOutputs v) | (8, inr v) => Some (SetPowerRevivalPrice v)
      | (9, inr v) => Some (SetTransferFeeRateBps v) | _ => None
      end) _).
  by intros [].
Defined.

#[global] Instance effect_countable : Countable ProposalEffect.
Proof.
  refine (inj_countable' (A := ((string * bytes) + (string * Z)) + ((HashValue * bytes) + ResourceParamChange))
    (fun e => match e with
      | UpdateParameter k v => inl (inl (k, v)) | SlashValidator v a => inl (inr (v, a))
      | ResolveDispute i r => inr (inl (i, r)) | UpdateResourceParam c => inr (inr c)
      end)
    (fun x => match x with
      | inl (inl (k, v)) => UpdateParameter k v | inl (inr (v, a)) => SlashValidator v a
      | inr (inl (i, r)) => ResolveDispute i r | inr (inr c) => UpdateResourceParam c
      end) _).
  by intros [].
Defined.

#[global] Instance content_countable : Countable ProposalContent.
Proof.
  refine (inj_countable' (fun c => (pc_proposer c, pc_type c, pc_title c, pc_description c, pc_action c))
    (fun '(a, b, c, d, e) => mkContent a b c d e) _).
  by intros [].
Defined.

#[global] Instance decision_countable : Countable GovernanceDecision.
Proof.
  refine (inj_countable' (fun d => (approved d, reasoning d, conditions d)) (fun '(a, b, c) => mkDecision a b c) _).
  by intros [].
Defined.

#[global] Instance proposal_countable : Countable GovernanceProposal.
Proof.
  refine (inj_countable' (fun p => (gp_id p, gp_content p, gp_status p, gp_decision p, gp_created_at p, gp_decided_at p))
    (fun '(a, b, c, d, e, f) => mkProposal a b c d e f) _).
  by intros [].
Defined.

#[global] Instance params_countable : Countable ResourceParams.
Proof.
  refine (inj_countable'
    (fun p => (power_mode p, power_cost_per_event p, flux_mode p, flux_reward_on_success p, flux_penalty_on_failure p,
               gas_mode p, gas_base_price p, min_transfer_amount p, max_transfer_amount p, max_merge_sources p,
               max_split_outputs p, power_revival_price p, transfer_fee_rate_bps p, rp_version p, last_updated_at p))
    (fun '(a, b, c, d, e, f, g, h, i, j, k, l, m, n, o) => mkResourceParams a b c d e f g h i j k l m n o) _).
  by intros [].
Defined.

#[global] Instance registration_countable : Countable SystemSubnetRegistration.
Proof.
  refine (inj_countable'
    (fun r => (sr_subnet_id r, sr_agent_endpoint r, sr_callback_addr r, sr_timeout_secs r, sr_registrant r,
               sr_public_key r, sr_signature r))
    (fun '(a, b, c, d, e, f, g) => mkRegistration a b c d e f g) _).
  by intros [].
Defined.

#[global] Instance action_countable : Countable GovernanceAction.
Proof.
  refine (inj_countable' (A := ProposalContent + (GovernanceDecision + SystemSubnetRegistration))
    (fun a => match a with Propose c => inl c | Execute d => inr (inl d) | RegisterSystemSubnet r => inr (inr r) end)
    (fun x => match x with inl c => Propose c | inr (inl d) => Execute d | inr (inr r) => RegisterSystemSubnet r end) _).
  by intros [].
Defined.

#[global] Instance payload_countable : Countable GovernancePayload.
Proof.
  refine (inj_countable' (fun p => (pl_proposal_id p, pl_action p)) (fun '(a, b) => mkGovPayload a b) _).
  by intros [].
Defined.

(** ** Instances *)

Definition proposal_serde : Serde GovernanceProposal := serde_countable.
Definition params_serde : Serde ResourceParams := serde_countable.
Definition registration_serde : Serde SystemSubnetRegistration := serde_countable.

Definition governance_codec : GovernanceCodec := {|
  governance_payload p := pos_bytes (encode p);
  as_governance b := decode (bytes_pos b);
  as_governance_payload := decode_pos_bytes
|}.
