(* ===== verification/GovernanceProps.v ===== *)
(** * Governance: theorems

    The events of the executor, applied by the transactional specification of
    the state manager ([StateSpec]): the life of a proposal, what a decision
    changes, and who can register a system subnet. *)

From Stdlib Require Import ZArith Lia Strings.Byte.
From stdpp Require Import base gmap sets list strings numbers.
From S2P Require Import Prelude Hash Vlc Event Coin StateStore Resource SparseMerkle MerkleStore StateManager StateSpec ConsensusTypes Governance GovernanceInst.
Import GovernanceExecutor.
#[local] Open Scope setu_scope.

Section Lemmas.
Context `{B : Blake3} `{X : HexCrate} `{J : SerdeJson} `{K : Ed25519} `{G : GovernanceCodec}.
Context `{SP : Serde GovernanceProposal} `{SR : Serde ResourceParams} `{SS : Serde SystemSubnetRegistration}.

(** ** Keys *)

Lemma parse_oid id : GS.parse_state_change_key (oid id) = id.
Proof using Type.
  unfold GS.parse_state_change_key, oid.
  change (strip_prefix "oid:" ("oid:" +:+ hex_encode (hv_bytes id))%string) with (Some (hex_encode (hv_bytes id))).
  cbv beta iota. by rewrite hex_decode_encode, hash_of_hv_bytes.
Qed.

(** The place in the state a change of a governance event writes. *)
Definition place (c : StateChange) : SubnetId * HashValue := (GS.change_target SUBNET_GOVERNANCE c, change_id c).

Lemma w_get_changes n w cs m k :
  Forall (fun c => (GS.change_target n c, change_id c) ≠ (m, k)) cs →
  w_get (foldl (spec_change n) w cs) m k = w_get w m k.
Proof using Type.
  revert w. induction cs as [|c cs IH]; intros w Hc; [done|]. apply list.Forall_cons in Hc as [Hc Hcs].
  cbn [foldl]. rewrite IH by done. unfold spec_change. rewrite w_get_write. by rewrite decide_False by done.
Qed.

(** ** The changes of a decision *)

(** What the effect of an approved proposal writes: where, over what, and what;
    [None] when a value cannot be serialized. *)
Definition effect_write (current : option ResourceParams) (timestamp : Z) (e : ProposalEffect)
    : option (SubnetId * HashValue * option bytes * bytes) :=
  match e with
  | UpdateParameter key value => Some (SUBNET_ROOT, param_id key, None, value)
  | SlashValidator v a =>
      value ← json_to_vec (JObj [("type", JStr "slash"); ("validator_id", JStr v); ("amount", JNum a)])%string;
      Some (SUBNET_ROOT, slash_id v a, None, value)
  | ResolveDispute id resolution => Some (SUBNET_ROOT, id, None, resolution)
  | UpdateResourceParam change =>
      value ← to_vec (apply_resource_param_change (default params_default current) change timestamp);
      match current with
      | Some p => old ← to_vec p; Some (SUBNET_GOVERNANCE, resource_params_object_id, Some old, value)
      | None => Some (SUBNET_GOVERNANCE, resource_params_object_id, None, value)
      end
  end.

Definition decided (p : GovernanceProposal) (d : GovernanceDecision) (timestamp : Z) : GovernanceProposal :=
  mkProposal (gp_id p) (gp_content p) (decided_status d) (Some d) (gp_created_at p) (Some timestamp).

(** The change that carries out [effect_write]. *)
Definition effect_change (x : SubnetId * HashValue * option bytes * bytes) (c : StateChange) : Prop :=
  let '(n, k, old, new) := x in
  GS.change_target SUBNET_GOVERNANCE c = n ∧ sc_key c = oid k ∧ old_value c = old ∧ new_value c = Some new.

Lemma execute_decision_inv id d ts vlc p cr current now e :
  execute_decision id d ts vlc p cr current now = Ok e →
  gp_status p = PsPending ∧
  ∃ old new cs, to_vec p = Some old ∧ to_vec (decided p d ts) = Some new ∧
    e = build_event (mkGovPayload id (Execute d)) (change_update (oid id) old new :: cs) vlc cr now ∧
    (if approved d
     then ∃ x c, effect_write current ts (pc_action (gp_content p)) = Some x ∧ cs = [c] ∧ effect_change x c
     else cs = []).
Proof using Type.
  unfold execute_decision, ProposalValidator.validate_execute, ProposalStateMachine.transition.
  case_bool_decide as Hs; [done|]. cbn [validated rbind].
  assert (gp_status p = PsPending) by (by destruct (decide (gp_status p = PsPending))).
  unfold EffectExecutor.execute. cbn [materialize_effects materialize_effect].
  fold (decided p d ts). unfold serialize at 1 2.
  destruct (to_vec p) as [old|]; [|done]. cbn [ok_or rbind]. destruct (to_vec (decided p d ts)) as [new|]; [|done].
  cbn [ok_or rbind]. intros He. split; [done|]. destruct (approved d).
  2: { cbn in He. injection He as <-. by eexists old, new, []. }
  destruct (pc_action (gp_content p)) as [k v|v a|i r|ch]; cbn [materialize_effects materialize_effect effect_write] in He |- *.
  - cbn in He. injection He as <-. eexists old, new, _. split_and!; [done..|]. by eexists _, _.
  - destruct (json_to_vec _) as [b|]; [|done]. cbn in He. injection He as <-. eexists old, new, _.
    split_and!; [done..|]. by eexists _, _.
  - cbn in He. injection He as <-. eexists old, new, _. split_and!; [done..|]. by eexists _, _.
  - unfold serialize in He. destruct (to_vec _) as [b|]; [|done]. cbn [ok_or rbind] in He.
    destruct current as [cur|].
    + destruct (to_vec cur) as [o|]; [|done]. cbn in He. injection He as <-. eexists old, new, _.
      split_and!; [done..|]. by eexists _, _.
    + cbn in He. injection He as <-. eexists old, new, _. split_and!; [done..|]. by eexists _, _.
Qed.

Lemma spec_event_build w pl cs vlc cr now :
  spec_event w (build_event pl cs vlc cr now) =
    match spec_conflict SUBNET_GOVERNANCE w w cs with
    | Some key => (w, Conflicted key)
    | None => (foldl (spec_change SUBNET_GOVERNANCE) w cs, Applied)
    end.
Proof using Type. done. Qed.

(** ** Runs of events *)

(** Events made by the executor, from any arguments. *)
Inductive built : Event → Prop :=
| built_propose id c ts vlc ex cr now e : execute_propose id c ts vlc ex cr now = Ok e → built e
| built_decision id d ts vlc p cr current now e : execute_decision id d ts vlc p cr current now = Ok e → built e
| built_register r ts vlc cr ex gvs now e :
    execute_register_system_subnet r ts vlc cr ex gvs now = Ok e → built e.

(** The action of a governance event on the object [id]. *)
Definition action_on (id : HashValue) (e : Event) : option GovernanceAction :=
  match event_type e, as_governance (payload e) with
  | Governance, Some pl => if bool_decide (pl_proposal_id pl = id) then Some (pl_action pl) else None
  | _, _ => None
  end.

(** An event of a run: made by the executor and not a registration under [id],
    or of another kind and not writing the object. *)
Definition run_event (id : HashValue) (e : Event) : Prop :=
  (built e ∧ ∀ r, action_on id e ≠ Some (RegisterSystemSubnet r)) ∨
  (event_type e ≠ Governance ∧
   Forall (fun c => (GS.change_target (get_subnet_id e) c, change_id c) ≠ (SUBNET_GOVERNANCE, id)) (event_changes e)).

Definition applied_action (id : HashValue) (ev : Event * verdict) : option GovernanceAction :=
  match ev.2 with Applied => action_on id ev.1 | _ => None end.

(** The stored proposal after the applied actions: none, pending as proposed, or
    decided by the decision; no other sequence of actions is possible. *)
Definition phase (id : HashValue) (stored : option bytes) (acts : list GovernanceAction) : Prop :=
  match acts with
  | [] => stored = None
  | [Propose c] => ∃ ts b, stored = Some b ∧ to_vec (ProposalStateMachine.create id c ts) = Some b
  | [Propose c; Execute d] =>
      ∃ ts ts' b, stored = Some b ∧ to_vec (decided (ProposalStateMachine.create id c ts) d ts') = Some b
  | _ => False
  end.

(** What one event does to the object. *)
Definition object_step (id : HashValue) (before after : option bytes) (a : option GovernanceAction) : Prop :=
  match a with
  | None => after = before
  | Some (Propose c) => before = None ∧ ∃ ts b, after = Some b ∧ to_vec (ProposalStateMachine.create id c ts) = Some b
  | Some (Execute d) => ∃ p ts old new,
      gp_status p = PsPending ∧ to_vec p = Some old ∧ before = Some old ∧
      to_vec (decided p d ts) = Some new ∧ after = Some new
  | Some (RegisterSystemSubnet _) => False
  end.

Lemma action_on_build id pl cs vlc cr now :
  action_on id (build_event pl cs vlc cr now) = if bool_decide (pl_proposal_id pl = id) then Some (pl_action pl) else None.
Proof using Type. unfold action_on. cbn. by rewrite as_governance_payload. Qed.

(** An event whose changes avoid the object leaves it, whatever the verdict. *)
Lemma spec_event_away w e m k :
  Forall (fun c => (GS.change_target (get_subnet_id e) c, change_id c) ≠ (m, k)) (event_changes e) →
  w_get (spec_event w e).1 m k = w_get w m k.
Proof using Type.
  unfold spec_event, event_changes. destruct (execution_result e) as [res|]; [|done].
  intros Hc. destruct (er_success res); [|done]. destruct (spec_conflict _ _ _ _); [done|]. by apply w_get_changes.
Qed.

Lemma single_away id id' c :
  sc_key c = oid id' → target_subnet c = None → id' ≠ id →
  Forall (fun c => (GS.change_target SUBNET_GOVERNANCE c, change_id c) ≠ (SUBNET_GOVERNANCE, id)) [c].
Proof using Type.
  intros Hk Ht Hne. apply list.Forall_singleton. unfold change_id. rewrite Hk, parse_oid. congruence.
Qed.

Lemma propose_step id' c ts vlc ex cr now e id w :
  execute_propose id' c ts vlc ex cr now = Ok e →
  object_step id (w_get w SUBNET_GOVERNANCE id) (w_get (spec_event w e).1 SUBNET_GOVERNANCE id)
    (applied_action id (e, (spec_event w e).2)).
Proof using Type.
  unfold execute_propose. destruct (ProposalValidator.validate_propose c ex); [|done..]. cbn [validated rbind].
  unfold serialize. destruct (to_vec _) as [v|] eqn:Hv; [|done]. cbn [ok_or rbind]. intros [= <-].
  destruct (decide (id' = id)) as [->|Hne].
  2: { unfold applied_action. cbn [fst snd]. rewrite action_on_build, bool_decide_eq_false_2 by done.
       rewrite spec_event_away; [by destruct (spec_event _ _).2|]. by eapply single_away. }
  rewrite spec_event_build. cbn [spec_conflict]. unfold spec_allowed, change_id. cbn [change_new old_value new_value sc_key].
  rewrite parse_oid. change (GS.change_target SUBNET_GOVERNANCE _) with SUBNET_GOVERNANCE.
  destruct (decide (w_get w SUBNET_GOVERNANCE id = None)) as [Hn|Hn].
  - rewrite bool_decide_eq_true_2 by done. cbn [andb]. unfold applied_action. cbn [fst snd].
    rewrite action_on_build, bool_decide_eq_true_2 by done. cbn [pl_action object_step foldl].
    split; [done|]. exists ts, v. split; [|done]. unfold spec_change, change_id. cbn [change_new sc_key new_value].
    rewrite parse_oid, w_get_write. by rewrite decide_True.
  - by rewrite bool_decide_eq_false_2.
Qed.

Lemma effect_place current ts act n k o v :
  effect_write current ts act = Some (n, k, o, v) → n = SUBNET_ROOT ∨ k = resource_params_object_id.
Proof using Type.
  intros Hx. destruct act as [?|?|?|?]; cbn in Hx; [by simplify_option_eq; left..|].
  destruct (to_vec _); [|done]. cbn in Hx. destruct current; [destruct (to_vec _); [|done]; cbn in Hx|]; simplify_eq; by right.
Qed.

Lemma effect_away current ts act x c id :
  effect_write current ts act = Some x → effect_change x c → id ≠ resource_params_object_id →
  (GS.change_target SUBNET_GOVERNANCE c, change_id c) ≠ (SUBNET_GOVERNANCE, id).
Proof using Type.
  intros Hx Hc Hid. destruct x as [[[n k] old] new]. destruct Hc as (Hn & Hk & _).
  unfold change_id. rewrite Hn, Hk, parse_oid.
  by destruct (effect_place _ _ _ _ _ _ _ Hx) as [-> | ->]; [discriminate|congruence].
Qed.

Lemma decision_step id' d ts vlc p cr current now e id w :
  id ≠ resource_params_object_id → execute_decision id' d ts vlc p cr current now = Ok e →
  object_step id (w_get w SUBNET_GOVERNANCE id) (w_get (spec_event w e).1 SUBNET_GOVERNANCE id)
    (applied_action id (e, (spec_event w e).2)).
Proof using Type.
  intros Hid (Hp & old & new & cs & Hold & Hnew & -> & Hcs)%execute_decision_inv.
  assert (Haway : Forall (fun c => (GS.change_target SUBNET_GOVERNANCE c, change_id c) ≠ (SUBNET_GOVERNANCE, id)) cs).
  { destruct (approved d); [|subst; constructor]. destruct Hcs as (x & c & Hx & -> & Hc).
    apply list.Forall_singleton. by eapply effect_away. }
  destruct (decide (id' = id)) as [->|Hne].
  2: { unfold applied_action. cbn [fst snd]. rewrite action_on_build, bool_decide_eq_false_2 by done.
       rewrite spec_event_away; [by destruct (spec_event _ _).2|]. constructor; [|done].
       unfold change_id. cbn [change_update change_new sc_key]. rewrite parse_oid. cbn. congruence. }
  rewrite spec_event_build. cbn [spec_conflict]. unfold spec_allowed, change_id. cbn [change_update change_new old_value new_value sc_key].
  rewrite parse_oid. change (GS.change_target SUBNET_GOVERNANCE _) with SUBNET_GOVERNANCE.
  case_bool_decide as Ho; [|done]. destruct (spec_conflict _ _ _ _); [done|].
  unfold applied_action. cbn [fst snd]. rewrite action_on_build, bool_decide_eq_true_2 by done. cbn [pl_action object_step foldl].
  exists p, ts, old, new. split_and!; [done..|]. rewrite w_get_changes by done. unfold spec_change, change_id.
  cbn [change_new change_update sc_key new_value]. rewrite parse_oid, w_get_write. by rewrite decide_True.
Qed.

Lemma execute_register_inv r ts vlc cr ex gvs now e :
  execute_register_system_subnet r ts vlc cr ex gvs now = Ok e →
  Subnet.is_system (sr_subnet_id r) = true ∧ sr_subnet_id r ≠ SUBNET_ROOT ∧
  check_registrant r gvs = Ok tt ∧
  ∃ v c, to_vec r = Some v ∧ c = mkStateChange (oid (sr_subnet_id r)) ex (Some v) None ∧
    e = build_event (mkGovPayload (sr_subnet_id r) (RegisterSystemSubnet r)) [c] vlc cr now.
Proof using Type.
  unfold execute_register_system_subnet, Subnet.is_root. destruct (Subnet.is_system _); [|done]. cbn [negb orb].
  case_bool_decide as Hr; [done|]. destruct (_ && _); [done|].
  destruct (check_registrant r gvs) as [[]| |]; [|done..]. cbn [rbind]. unfold serialize.
  destruct (to_vec r) as [v|]; [|done]. cbn [ok_or rbind]. intros [= <-].
  split_and!; [done..|]. exists v, (mkStateChange (oid (sr_subnet_id r)) ex (Some v) None). by destruct ex.
Qed.

Lemma run_event_step id w e :
  id ≠ resource_params_object_id → run_event id e →
  object_step id (w_get w SUBNET_GOVERNANCE id) (w_get (spec_event w e).1 SUBNET_GOVERNANCE id)
    (applied_action id (e, (spec_event w e).2)).
Proof using Type.
  intros Hid [[Hb Hr]|[Ht Hc]].
  - destruct Hb as [id' c ts vlc ex cr now e He|id' d ts vlc p cr cur now e He|r ts vlc cr ex gvs now e He].
    + by eapply propose_step.
    + by eapply decision_step.
    + apply execute_register_inv in He as (_ & _ & _ & v & c & _ & -> & ->).
      rewrite action_on_build in Hr. cbn [pl_proposal_id pl_action] in Hr.
      unfold applied_action. cbn [fst snd]. rewrite action_on_build. cbn [pl_proposal_id pl_action].
      case_bool_decide as Heq; [by destruct (Hr r)|].
      rewrite spec_event_away; [by destruct (spec_event _ _).2|]. by eapply single_away.
  - unfold applied_action. cbn [fst snd].
    assert (action_on id e = None) as -> by (unfold action_on; by destruct (event_type e)).
    rewrite spec_event_away by done. by destruct (spec_event _ _).2.
Qed.

Lemma phase_step id before after acts a :
  phase id before acts → object_step id before after a → phase id after (acts ++ option_list a).
Proof using Type.
  intros Hp. destruct a as [[c|d|r]|]; cbn [object_step option_list]; [| |done|by intros ->; rewrite app_nil_r].
  - intros [-> (ts & b & -> & Hb)]. destruct acts as [|[] [|[] []]]; cbn in Hp; [by exists ts, b|naive_solver..].
  - intros (p & ts & old & new & Hs & Ho & -> & Hn & ->).
    destruct acts as [|[c| |] [|[|d'|] []]]; cbn in Hp; try done.
    + destruct Hp as (ts0 & b & [= <-] & Hb). rewrite (to_vec_inj _ _ _ Ho Hb) in Hn. by exists ts0, ts, new.
    + destruct Hp as (ts0 & ts1 & b & [= <-] & Hb). rewrite (to_vec_inj _ _ _ Ho Hb) in Hs. cbn in Hs.
      unfold decided_status in Hs. by destruct (approved d').
Qed.

Lemma phase_run id es w acts :
  id ≠ resource_params_object_id → Forall (run_event id) es → phase id (w_get w SUBNET_GOVERNANCE id) acts →
  phase id (w_get (spec_events w es).1 SUBNET_GOVERNANCE id) (acts ++ omap (applied_action id) (spec_events w es).2).
Proof using Type.
  intros Hid. revert w acts. induction es as [|e es IH]; intros w acts Hes Hp; cbn [spec_events].
  { cbn. by rewrite app_nil_r. }
  apply list.Forall_cons in Hes as [He Hes]. pose proof (run_event_step id w e Hid He) as Hstep.
  destruct (spec_event w e) as [w1 v] eqn:Hev. cbn [fst snd] in Hstep.
  pose proof (phase_step id _ _ _ _ Hp Hstep) as Hp1. specialize (IH w1 _ Hes Hp1).
  destruct (spec_events w1 es) as [w2 vs]. cbn [fst snd] in IH |- *. rewrite <-app_assoc in IH.
  change (omap (applied_action id) ((e, v) :: vs)) with
    (match applied_action id (e, v) with Some y => y :: omap (applied_action id) vs | None => omap (applied_action id) vs end).
  by destruct (applied_action id (e, v)).
Qed.

(** ** Applying a decision *)

Lemma execute_decision_refused id d ts vlc p cr current now :
  match execute_decision id d ts vlc p cr current now with
  | Ok _ => True
  | Err err =>
      (gp_status p ≠ PsPending ∧ err = Validation (InvalidStatus PsPending (gp_status p))) ∨
      (gp_status p = PsPending ∧ err = Serialization ∧
       (to_vec p = None ∨ to_vec (decided p d ts) = None ∨
        approved d = true ∧ effect_write current ts (pc_action (gp_content p)) = None))
  | Panic => False
  end.
Proof using Type.
  unfold execute_decision, ProposalValidator.validate_execute, ProposalStateMachine.transition.
  case_bool_decide as Hs; [by left|]. cbn [validated rbind].
  unfold EffectExecutor.execute. cbn [materialize_effects materialize_effect].
  fold (decided p d ts). unfold serialize at 1 2.
  destruct (to_vec p) as [old|]; [|by right; auto]. cbn [ok_or rbind].
  destruct (to_vec (decided p d ts)) as [new|]; [|by right; auto]. cbn [ok_or rbind].
  destruct (approved d); [|done]. unfold effect_write.
  destruct (pc_action (gp_content p)) as [k v|v a|i r|ch]; cbn [materialize_effects materialize_effect]; [done| |done|].
  - destruct (json_to_vec _); [done|]. right. naive_solver.
  - unfold serialize. destruct (to_vec _); [|right; naive_solver]. cbn [ok_or rbind].
    destruct current as [cur|]; [|done]. destruct (to_vec cur); [done|]. right. naive_solver.
Qed.

Lemma decided_change w id old new :
  spec_change SUBNET_GOVERNANCE w (change_update (oid id) old new) = w_write w SUBNET_GOVERNANCE id (Some new).
Proof using Type. unfold spec_change, change_id. cbn [change_update change_new sc_key new_value]. by rewrite parse_oid. Qed.

Lemma decided_allowed w id old new cs :
  spec_conflict SUBNET_GOVERNANCE w w (change_update (oid id) old new :: cs) =
    if decide (w_get w SUBNET_GOVERNANCE id = Some old)
    then spec_conflict SUBNET_GOVERNANCE w (w_write w SUBNET_GOVERNANCE id (Some new)) cs
    else Some (oid id).
Proof using Type.
  cbn [spec_conflict]. rewrite decided_change. unfold spec_allowed, change_id. cbn [change_update change_new old_value new_value sc_key].
  rewrite parse_oid. change (GS.change_target SUBNET_GOVERNANCE _) with SUBNET_GOVERNANCE.
  by case_bool_decide; case_decide.
Qed.

Lemma effect_allowed w0 w n k o v c :
  effect_change (n, k, o, v) c → w_get w n k = w_get w0 n k →
  spec_conflict SUBNET_GOVERNANCE w0 w [c] = (if decide (w_get w0 n k = o) then None else Some (oid k)) ∧
  spec_change SUBNET_GOVERNANCE w c = w_write w n k (Some v).
Proof using Type.
  intros (Hn & Hk & Ho & Hv) Hw. cbn [spec_conflict]. unfold spec_change, spec_allowed, change_id.
  rewrite Hn, Hk, Ho, Hv, parse_oid, Hw. split; [|done]. destruct o as [o|]; [by case_bool_decide; case_decide|].
  by case_bool_decide; case_decide.
Qed.

(** What applying a decision does. *)
Definition decision_effect (id : HashValue) (d : GovernanceDecision) (ts : Z) (p : GovernanceProposal)
    (current : option ResourceParams) (e : Event) (old new : bytes) (w : world) : Prop :=
  if decide (w_get w SUBNET_GOVERNANCE id = Some old) then
    let w1 := w_write w SUBNET_GOVERNANCE id (Some new) in
    if approved d then
      ∃ n k o v, effect_write current ts (pc_action (gp_content p)) = Some (n, k, o, v) ∧
        ((n, k) ≠ (SUBNET_GOVERNANCE, id) →
         spec_event w e = if decide (w_get w n k = o) then (w_write w1 n k (Some v), Applied)
                          else (w, Conflicted (oid k)))
    else spec_event w e = (w1, Applied)
  else spec_event w e = (w, Conflicted (oid id)).

Lemma decision_spec id d ts vlc p cr current now e :
  execute_decision id d ts vlc p cr current now = Ok e →
  gp_status p = PsPending ∧
  ∃ old new, to_vec p = Some old ∧ to_vec (decided p d ts) = Some new ∧
    ∀ w, decision_effect id d ts p current e old new w.
Proof using Type.
  intros (Hs & old & new & cs & Ho & Hn & -> & Hcs)%execute_decision_inv. split; [done|].
  exists old, new. split_and!; [done..|]. intros w. unfold decision_effect.
  rewrite spec_event_build, decided_allowed. case_decide as Hw; [|done].
  cbn [foldl]. rewrite decided_change. destruct (approved d).
  - destruct Hcs as ([[[n k] o] v] & c & Hx & -> & Hc). exists n, k, o, v. split; [done|]. intros Hne.
    destruct (effect_allowed w (w_write w SUBNET_GOVERNANCE id (Some new)) n k o v c Hc) as [-> Hch].
    { rewrite w_get_write. by rewrite decide_False by congruence. }
    case_decide; [|done]. cbn [foldl]. by rewrite Hch.
  - by subst cs.
Qed.

Lemma propose_applied w id content b vlc cr now :
  w_get w SUBNET_GOVERNANCE id = None →
  spec_event w (build_event (mkGovPayload id (Propose content)) [change_new (oid id) None (Some b)] vlc cr now) =
    (w_write w SUBNET_GOVERNANCE id (Some b), Applied).
Proof using Type.
  intros Hw. rewrite spec_event_build. cbn [spec_conflict foldl]. unfold spec_allowed, spec_change, change_id.
  cbn [change_new old_value new_value sc_key]. rewrite parse_oid.
  change (GS.change_target SUBNET_GOVERNANCE _) with SUBNET_GOVERNANCE. by rewrite bool_decide_eq_true_2.
Qed.
End Lemmas.

(** ** The message of a registration *)

Section Message.

Lemma to_be_bytes_inj w a b :
  (0 ≤ a < 256 ^ Z.of_nat w)%Z → (0 ≤ b < 256 ^ Z.of_nat w)%Z → to_be_bytes w a = to_be_bytes w b → a = b.
Proof.
  intros Ha Hb E. apply (inj reverse) in E. apply (f_equal of_le_bytes) in E. by rewrite !of_to_le_bytes in E.
Qed.

Lemma to_be_bytes_length w z : length (to_be_bytes w z) = w.
Proof. unfold to_be_bytes. by rewrite length_reverse, to_le_bytes_length. Qed.

Lemma u64_bytes_inj a b x y :
  is_u64 a → is_u64 b → to_be_bytes 8 a ++ x = to_be_bytes 8 b ++ y → a = b ∧ x = y.
Proof.
  intros Ha Hb E. apply app_inj_1 in E as [E ->]; [|by rewrite !to_be_bytes_length].
  split; [|done]. apply to_be_bytes_inj in E; [done|unfold is_u64, u64_max in *; lia..].
Qed.

Lemma len_prefixed_inj (a b x y : bytes) :
  is_u64 (Z.of_nat (length a)) → is_u64 (Z.of_nat (length b)) →
  Reg.extend_len_prefixed a ++ x = Reg.extend_len_prefixed b ++ y → a = b ∧ x = y.
Proof.
  intros Ha Hb E. unfold Reg.extend_len_prefixed in E. rewrite <-!app_assoc in E.
  apply u64_bytes_inj in E as [Hl E]; [|done..]. apply app_inj_1 in E; [done|lia].
Qed.

(** The lengths and the timeout fit their types. *)
Definition fits (s : string) : Prop := is_u64 (Z.of_nat (length (as_bytes s))).

Lemma str_inj a b x y :
  fits a → fits b → Reg.extend_len_prefixed (as_bytes a) ++ x = Reg.extend_len_prefixed (as_bytes b) ++ y → a = b ∧ x = y.
Proof. intros Ha Hb E. apply len_prefixed_inj in E as [E ->]; [|done..]. by apply as_bytes_inj in E. Qed.

Lemma optional_str_inj a b x y :
  from_option fits True a → from_option fits True b →
  Reg.extend_optional_str a ++ x = Reg.extend_optional_str b ++ y → a = b ∧ x = y.
Proof.
  destruct a as [a|], b as [b|]; intros Ha Hb E; [|discriminate..|];
    cbn [Reg.extend_optional_str app] in E; apply (f_equal tail) in E; cbn [tail] in E; [|done].
  apply str_inj in E as [-> ->]; done.
Qed.

Lemma optional_u64_inj a b x y :
  from_option is_u64 True a → from_option is_u64 True b →
  Reg.extend_optional_u64 a ++ x = Reg.extend_optional_u64 b ++ y → a = b ∧ x = y.
Proof.
  destruct a as [a|], b as [b|]; intros Ha Hb E; [|discriminate..|];
    cbn [Reg.extend_optional_u64 app] in E; apply (f_equal tail) in E; cbn [tail] in E; [|done].
  apply u64_bytes_inj in E as [-> ->]; done.
Qed.

Record typed (r : SystemSubnetRegistration) : Prop := mkTyped {
  ty_endpoint : fits (sr_agent_endpoint r);
  ty_callback : from_option fits True (sr_callback_addr r);
  ty_timeout : from_option is_u64 True (sr_timeout_secs r);
  ty_registrant : fits (sr_registrant r);
  ty_key : fits (sr_public_key r)
}.

(** The message determines every field but the signature. *)
Lemma signing_message_inj r1 r2 s :
  typed r1 → typed r2 → Reg.signing_message r1 = Reg.signing_message r2 → Reg.with_signature r1 s = Reg.with_signature r2 s.
Proof.
  intros [] [] E. unfold Reg.signing_message in E. apply app_inv_head in E.
  apply app_inj_1 in E as [Hid%HashValue_eq E]; [|by rewrite !hv_length].
  apply str_inj in E as [He E]; [|done..]. apply optional_str_inj in E as [Hc E]; [|done..].
  apply optional_u64_inj in E as [Ht E]; [|done..]. apply str_inj in E as [Hr E]; [|done..].
  rewrite <-(app_nil_r (Reg.extend_len_prefixed (as_bytes (sr_public_key r1)))),
    <-(app_nil_r (Reg.extend_len_prefixed (as_bytes (sr_public_key r2)))) in E.
  apply str_inj in E as [Hk _]; [|done..]. unfold Reg.with_signature. congruence.
Qed.
End Message.

(** ** Registrations *)

Section Registration.
Context `{B : Blake3} `{X : HexCrate} `{J : SerdeJson} `{K : Ed25519} `{G : GovernanceCodec}.
Context `{SS : Serde SystemSubnetRegistration}.

Lemma check_registrant_inv r gvs :
  check_registrant r gvs = Ok tt →
  ∃ v pk key sig, v ∈ gvs ∧ gv_id v = sr_registrant r ∧ gv_public_key v = Some (sr_public_key r) ∧
    hex_decode (sr_public_key r) = Some pk ∧ key_from_bytes pk = Some key ∧
    hex_decode (sr_signature r) = Some sig ∧ ed_verify key (Reg.signing_message r) sig = true.
Proof using Type.
  unfold check_registrant. destruct (List.find _ gvs) as [v|] eqn:Hf; [|done].
  apply List.find_some in Hf as [Hin%list_elem_of_In Hv%bool_decide_eq_true]. destruct (gv_public_key v) as [gpk|] eqn:Hg; [|done].
  case_bool_decide as Hk; [done|]. subst gpk. destruct (hex_decode (sr_public_key r)) as [pk|] eqn:Hpk; [|done].
  unfold Reg.verify_signature. destruct (_ || _); [done|]. destruct (key_from_bytes pk) as [key|] eqn:Hkey; [|done].
  destruct (hex_decode (sr_signature r)) as [sig|]; [|done]. destruct (ed_verify key _ sig) eqn:Hed; [|done].
  intros _. by exists v, pk, key, sig.
Qed.

(** The object of the registration is replaced if it still has the value that was
    read. *)
Lemma register_spec w r ex v vlc cr now :
  spec_event w (build_event (mkGovPayload (sr_subnet_id r) (RegisterSystemSubnet r))
    [mkStateChange (oid (sr_subnet_id r)) ex (Some v) None] vlc cr now) =
  if decide (w_get w SUBNET_GOVERNANCE (sr_subnet_id r) = ex)
  then (w_write w SUBNET_GOVERNANCE (sr_subnet_id r) (Some v), Applied)
  else (w, Conflicted (oid (sr_subnet_id r))).
Proof using Type.
  rewrite spec_event_build. cbn [spec_conflict foldl]. unfold spec_allowed, spec_change, change_id. cbn [old_value new_value sc_key].
  rewrite parse_oid. change (GS.change_target SUBNET_GOVERNANCE _) with SUBNET_GOVERNANCE.
  destruct ex; by case_bool_decide; case_decide.
Qed.
End Registration.

(** ** Theorems *)

(** A registration replaces a proposal whose id is that of its subnet: the
    handler reads the stored object as the registration that is there, and the
    event that is built applies. *)
Lemma register_overwrites_proposal (B : Blake3) (X : HexCrate) (K : Ed25519) (G : GovernanceCodec)
    (SP : Serde GovernanceProposal) (SS : Serde SystemSubnetRegistration)
    (r : SystemSubnetRegistration) ts vlc cr b gvs now e (p : GovernanceProposal) (w : world) :
  to_vec p = Some b → w_get w SUBNET_GOVERNANCE (sr_subnet_id r) = Some b →
  execute_register_system_subnet r ts vlc cr (Some b) gvs now = Ok e →
  (spec_event w e).2 = Applied ∧ w_get (spec_event w e).1 SUBNET_GOVERNANCE (sr_subnet_id r) = to_vec r.
Proof.
  intros _ Hw He. apply execute_register_inv in He as (_ & _ & _ & v & c & Hv & -> & ->).
  rewrite register_spec, decide_True by done. split; [done|]. cbn [fst]. by rewrite w_get_write, decide_True.
Qed.

(** C30: a proposal is decided once.  Take any list of events, each of which is a
    submission, a decision or a registration made by the executor, from any
    (also stale) proposal, or an event of another kind that does not write the
    proposal's object; among them no registration of a system subnet whose id
    is the proposal's, since that one overwrites the object
    ([register_overwrites_proposal]).  The proposal's id is not that of the
    resource parameters.  Then the actions on a new proposal that take effect
    are none, one submission, or one submission followed by one decision; the
    stored proposal is absent, pending with the submitted content, or decided
    by that decision with the same content.  So no second submission and no
    second decision takes effect. *)
Theorem proposal_decided_once (B : Blake3) (X : HexCrate) (J : SerdeJson) (K : Ed25519) (G : GovernanceCodec)
    (SP : Serde GovernanceProposal) (SR : Serde ResourceParams) (SS : Serde SystemSubnetRegistration)
    (id : HashValue) (es : list Event) (w : world)
    (Hid : id ≠ resource_params_object_id) (Hes : Forall (run_event id) es)
    (Hnew : w_get w SUBNET_GOVERNANCE id = None) :
  let acts := omap (applied_action id) (spec_events w es).2 in
  let stored := w_get (spec_events w es).1 SUBNET_GOVERNANCE id ≫= from_slice (A := GovernanceProposal) in
  (acts = [] ∧ stored = None) ∨
  (∃ c ts, acts = [Propose c] ∧ stored = Some (ProposalStateMachine.create id c ts)) ∨
  (∃ c d ts ts', acts = [Propose c; Execute d] ∧
     stored = Some (decided (ProposalStateMachine.create id c ts) d ts')).
Proof.
  intros acts stored. pose proof (phase_run id es w [] Hid Hes Hnew) as Hp. cbn [app] in Hp.
  change (phase id (w_get (spec_events w es).1 SUBNET_GOVERNANCE id) acts) in Hp. unfold stored.
  destruct acts as [|[c| |] [|[|d|] []]]; cbn in Hp; try done.
  - left. by rewrite Hp.
  - right. left. destruct Hp as (ts & b & -> & Hb%from_slice_to_vec). by exists c, ts.
  - right. right. destruct Hp as (ts & ts' & b & -> & Hb%from_slice_to_vec). by exists c, d, ts, ts'.
Qed.

(** Every outcome of deciding a proposal.  Only a pending proposal can be
    decided; the event that is built conflicts when the stored proposal is not
    the one the decision was based on; a rejection replaces the proposal and
    nothing else; an approval also writes the effect of the proposal, exactly
    when the object it writes has the value the effect is based on (for
    parameters, slashes and disputes: when it does not exist), and otherwise
    changes nothing at all. *)
Theorem decision_behaviour (B : Blake3) (X : HexCrate) (J : SerdeJson) (G : GovernanceCodec)
    (SP : Serde GovernanceProposal) (SR : Serde ResourceParams)
    (id : HashValue) (d : GovernanceDecision) (ts : Z) (vlc : VLCSnapshot) (p : GovernanceProposal)
    (creator : string) (current : option ResourceParams) (now : Z) :
  match execute_decision id d ts vlc p creator current now with
  | Ok e =>
      gp_status p = PsPending ∧
      ∃ old new, to_vec p = Some old ∧ to_vec (decided p d ts) = Some new ∧ ∀ w,
        if decide (w_get w SUBNET_GOVERNANCE id = Some old) then
          let w1 := w_write w SUBNET_GOVERNANCE id (Some new) in
          if approved d then
            ∃ n k o v, effect_write current ts (pc_action (gp_content p)) = Some (n, k, o, v) ∧
              ((n, k) ≠ (SUBNET_GOVERNANCE, id) →
               spec_event w e = if decide (w_get w n k = o) then (w_write w1 n k (Some v), Applied)
                                else (w, Conflicted (oid k)))
          else spec_event w e = (w1, Applied)
        else spec_event w e = (w, Conflicted (oid id))
  | Err err =>
      (gp_status p ≠ PsPending ∧ err = Validation (InvalidStatus PsPending (gp_status p))) ∨
      (gp_status p = PsPending ∧ err = Serialization ∧
       (to_vec p = None ∨ to_vec (decided p d ts) = None ∨
        approved d = true ∧ effect_write current ts (pc_action (gp_content p)) = None))
  | Panic => False
  end.
Proof.
  pose proof (execute_decision_refused id d ts vlc p creator current now) as Hr.
  destruct (execute_decision id d ts vlc p creator current now) as [e| |] eqn:He; [|done..].
  by apply decision_spec in He.
Qed.

(** A parameter can be set once: when two approved proposals update the same
    parameter, the event of the second conflicts, and its proposal stays
    pending. *)
Theorem parameter_set_once (B : Blake3) (X : HexCrate) (J : SerdeJson) (G : GovernanceCodec)
    (SP : Serde GovernanceProposal) (SR : Serde ResourceParams)
    (id : HashValue) (d : GovernanceDecision) (ts : Z) (vlc : VLCSnapshot) (p : GovernanceProposal)
    (creator : string) (current : option ResourceParams) (now : Z) (e : Event) (key : string) (value : bytes) (w : world)
    (He : execute_decision id d ts vlc p creator current now = Ok e) (Hok : approved d = true)
    (Hp : pc_action (gp_content p) = UpdateParameter key value)
    (Hset : is_Some (w_get w SUBNET_ROOT (param_id key))) :
  (spec_event w e).1 = w ∧ ∃ k, (spec_event w e).2 = Conflicted k.
Proof.
  apply execute_decision_inv in He as (_ & old & new & cs & _ & _ & -> & Hcs). rewrite Hok, Hp in Hcs.
  destruct Hcs as (x & c & [= <-] & -> & Hc). rewrite spec_event_build, decided_allowed. case_decide; [|by split; [|eexists]].
  destruct (effect_allowed w (w_write w SUBNET_GOVERNANCE id (Some new)) _ _ _ _ c Hc) as [-> _].
  { rewrite w_get_write. by rewrite decide_False. }
  case_decide as Hn; [by rewrite Hn in Hset; destruct Hset|]. by split; [|eexists].
Qed.

(** Only a genesis validator can register a system subnet.  If signatures
    cannot be forged, every registration the executor accepts was signed, in
    every field, by the key that the genesis configuration lists for its
    registrant; it is for a system subnet other than the root, and the event
    replaces the registration that was read, or conflicts. *)
Theorem registration_authorized (B : Blake3) (X : HexCrate) (K : Ed25519) (G : GovernanceCodec)
    (SS : Serde SystemSubnetRegistration) (signed : VerifyingKey → bytes → Prop)
    (r : SystemSubnetRegistration) (ts : Z) (vlc : VLCSnapshot) (creator : string) (existing : option bytes)
    (gvs : list GenesisValidator) (now : Z) (e : Event)
    (Hunforgeable : ∀ key m sig, ed_verify key m sig = true → signed key m)
    (Htyped : typed r)
    (He : execute_register_system_subnet r ts vlc creator existing gvs now = Ok e) :
  (∃ v pk key, v ∈ gvs ∧ gv_id v = sr_registrant r ∧ gv_public_key v = Some (sr_public_key r) ∧
     hex_decode (sr_public_key r) = Some pk ∧ key_from_bytes pk = Some key ∧
     signed key (Reg.signing_message r)) ∧
  (∀ r', typed r' → Reg.signing_message r' = Reg.signing_message r → Reg.with_signature r' (sr_signature r) = r) ∧
  Subnet.is_system (sr_subnet_id r) = true ∧ sr_subnet_id r ≠ SUBNET_ROOT ∧
  ∃ value, to_vec r = Some value ∧ ∀ w,
    spec_event w e =
      if decide (w_get w SUBNET_GOVERNANCE (sr_subnet_id r) = existing)
      then (w_write w SUBNET_GOVERNANCE (sr_subnet_id r) (Some value), Applied)
      else (w, Conflicted (oid (sr_subnet_id r))).
Proof.
  apply execute_register_inv in He as (Hsys & Hroot & Hc & v & c & Hv & -> & ->).
  apply check_registrant_inv in Hc as (gv & pk & key & sig & Hin & Hid & Hgk & Hpk & Hkey & _ & Hed).
  split_and!; [| |done|done|].
  - exists gv, pk, key. split_and!; [done..|]. by eapply Hunforgeable.
  - intros r' Hr' Hm. rewrite (signing_message_inj r' r (sr_signature r) Hr' Htyped Hm). by destruct r.
  - exists v. split; [done|]. intros w. apply register_spec.
Qed.

(** ** Examples *)

Section Instances.
#[local] Existing Instance toy_blake3.
#[local] Existing Instance hex_lower.
#[local] Existing Instance proposal_serde.
#[local] Existing Instance params_serde.
#[local] Existing Instance registration_serde.
#[local] Existing Instance governance_codec.

Definition gov_json : SerdeJson := {| json_to_vec _ := Some []; json_to_id _ := None; json_of_object _ := JNull |}.
#[local] Existing Instance gov_json.

Definition wit_reg : SystemSubnetRegistration :=
  mkRegistration SUBNET_GOVERNANCE "http://agent:8090" None (Some 60%Z) "v1" (hex_string (replicate 32 Byte.x07)) "2a".

(** A scheme in which one message was signed. *)
Definition one_message : Ed25519 := {|
  VerifyingKey := bytes; key_from_bytes := Some; ed_sign k m := [Byte.x2a];
  ed_verify k m s := bool_decide (m = Reg.signing_message wit_reg ∧ s = [Byte.x2a])
|}.
#[local] Existing Instance one_message.

Definition wit_vlc : VLCSnapshot := mkVLCSnapshot VC.new 1 1.
Definition wit_content : ProposalContent :=
  mkContent "alice" ParameterChange "title" "" (UpdateParameter "max_tps" [Byte.x01]).
Definition wit_id : HashValue := mkHash (replicate 32 Byte.x05) eq_refl.
Definition wit_proposal : GovernanceProposal := ProposalStateMachine.create wit_id wit_content 100.
Definition wit_yes : GovernanceDecision := mkDecision true "ok" [].
Definition wit_no : GovernanceDecision := mkDecision false "no" [].
Definition event_of (r : result GovernanceExecutorError Event) : Event :=
  match r with Ok e => e | _ => event_new System [] wit_vlc "" 0 end.

Lemma event_of_ok r : is_ok r = true → r = Ok (event_of r).
Proof. by destruct r. Qed.

Definition registers (a : option GovernanceAction) : bool :=
  match a with Some (RegisterSystemSubnet _) => true | _ => false end.
Lemma not_registers a r : registers a = false → a ≠ Some (RegisterSystemSubnet r).
Proof. by intros Hr ->. Qed.

Definition wit_propose := execute_propose wit_id wit_content 100 wit_vlc None "v1" 1.
Definition wit_approve := execute_decision wit_id wit_yes 200 wit_vlc wit_proposal "v1" None 2.
Definition wit_reject := execute_decision wit_id wit_no 201 wit_vlc wit_proposal "v2" None 3.

(** Two validators decide on the same pending proposal. *)
Lemma proposal_decided_once_witness :
  let es := [event_of wit_propose; event_of wit_approve; event_of wit_reject] in
  omap (applied_action wit_id) (spec_events ∅ es).2 = [Propose wit_content; Execute wit_yes] ∧
  ∃ c d ts ts', omap (applied_action wit_id) (spec_events ∅ es).2 = [Propose c; Execute d] ∧
    (w_get (spec_events ∅ es).1 SUBNET_GOVERNANCE wit_id ≫= from_slice (A := GovernanceProposal)) =
      Some (decided (ProposalStateMachine.create wit_id c ts) d ts').
Proof.
  intros es. assert (Ha : omap (applied_action wit_id) (spec_events ∅ es).2 = [Propose wit_content; Execute wit_yes])
    by (apply (bool_decide_unpack _); vm_compute; exact I). split; [exact Ha|].
  assert (H1 : wit_propose = Ok (event_of wit_propose)) by (apply event_of_ok; vm_compute; reflexivity).
  assert (H2 : wit_approve = Ok (event_of wit_approve)) by (apply event_of_ok; vm_compute; reflexivity).
  assert (H3 : wit_reject = Ok (event_of wit_reject)) by (apply event_of_ok; vm_compute; reflexivity).
  destruct (proposal_decided_once toy_blake3 hex_lower gov_json one_message governance_codec proposal_serde params_serde
    registration_serde wit_id es ∅) as [[Hn _]|[(c & ts & Hn & _)|Hd]].
  - apply (bool_decide_unpack _). vm_compute. exact I.
  - repeat apply list.Forall_cons_2; [..|apply list.Forall_nil_2]; left; (split; [|intros r; apply not_registers; vm_compute; reflexivity]).
    + exact (built_propose _ _ _ _ _ _ _ _ H1).
    + exact (built_decision _ _ _ _ _ _ _ _ _ H2).
    + exact (built_decision _ _ _ _ _ _ _ _ _ H3).
  - reflexivity.
  - rewrite Ha in Hn. discriminate Hn.
  - rewrite Ha in Hn. discriminate Hn.
  - exact Hd.
Defined.

Lemma registration_authorized_witness :
  let gvs := [mkGenesisValidator "v1" "host" 9000 (Some (hex_string (replicate 32 Byte.x07)))] in
  ∃ e, execute_register_system_subnet wit_reg 1 wit_vlc "v1" None gvs 1 = Ok e ∧ (spec_event ∅ e).2 = Applied ∧
    Reg.with_signature (Reg.with_signature wit_reg "other") "2a" = wit_reg.
Proof.
  intros gvs. set (e := event_of (execute_register_system_subnet wit_reg 1 wit_vlc "v1" None gvs 1)).
  assert (He : execute_register_system_subnet wit_reg 1 wit_vlc "v1" None gvs 1 = Ok e)
    by (apply event_of_ok; vm_compute; reflexivity).
  assert (Ht : typed wit_reg) by (constructor; vm_compute; split; discriminate || exact I).
  exists e. split; [exact He|].
  destruct (registration_authorized toy_blake3 hex_lower one_message governance_codec registration_serde
    (fun _ m => m = Reg.signing_message wit_reg) wit_reg 1 wit_vlc "v1" None gvs 1 e) as (_ & Hm & _ & _ & v & _ & Hw).
  - intros key m sig Hs. cbn in Hs. apply bool_decide_eq_true in Hs. exact (proj1 Hs).
  - exact Ht.
  - exact He.
  - split.
    + rewrite (Hw ∅), decide_True by reflexivity. reflexivity.
    + apply Hm; [|reflexivity]. destruct Ht. by constructor.
Defined.
End Instances.
