(* ===== verification/GovernanceService.v ===== *)
(** * Governance service and handlers

    [setu-validator/src/governance/service.rs] and [handler.rs], and the parts of
    [network/service.rs], [network/event_handler.rs] and [main.rs] that drive
    them: the requests to propose, to decide (the callback of the agent) and to
    register, the polling task, and the side effects of finalized events.

    Instants and durations are nanoseconds.  Random tokens, clocks and the
    answers of the agent are arguments.  [submit] is the submission of an event to
    consensus: its answer, and whatever other tasks do to the node meanwhile.
    Sending a proposal to the agent only logs its result and is left out. *)

From Stdlib Require Import ZArith Lia Strings.Byte.
From stdpp Require Import base gmap sets list strings numbers.
From S2P Require Import Prelude Hash Vlc Event Coin StateStore Resource SparseMerkle MerkleStore StateManager Overlay ConsensusTypes AnchorBuilder Governance.
Import GovernanceExecutor.
#[local] Open Scope setu_scope.
#[local] Open Scope string_scope.

(** ** The service *)

Inductive ConfigSource := Bootstrap | OnChain.

Record SystemSubnetConfig := mkSubnetConfig {
  sc_agent_endpoint : string;
  sc_callback_addr : option string;
  sc_timeout : Z;
  sc_source : ConfigSource
}.

Record PendingProposal := mkPending {
  pp_id : HashValue;
  pp_content : ProposalContent;
  pp_submitted_at : Z;
  pp_callback_token : HashValue;
  pp_created_at : Z
}.

Record GovernanceServiceConfig := mkGovConfig {
  gc_callback_addr : string;
  gc_timeout : Z;
  gc_max_retries : Z;
  gc_takeover_factor : Z
}.

Definition from_secs (s : Z) : Z := s * 1000000000.
Definition as_millis (d : Z) : Z := d / 1000000.
Definition as_secs (d : Z) : Z := d / 1000000000.

Definition gov_config_default : GovernanceServiceConfig := mkGovConfig "127.0.0.1:8080" (from_secs 300) 3 2.

Record GovernanceService := mkGovService {
  gs_config : GovernanceServiceConfig;
  pending_governance : gmap HashValue PendingProposal;
  proposal_tracker : gmap HashValue Z;
  nonce_counter : Z;
  gs_registry : gmap SubnetId SystemSubnetConfig;
  genesis_validators : list GenesisValidator;
  decided_proposals : gmap HashValue GovernanceDecision
}.

(** The loop of [constant_time_eq] over the 32 bytes. *)
Definition constant_time_eq (a b : HashValue) : bool :=
  (foldl (fun diff i => Z.lor diff (Z.lxor (HV.byte_at a i) (HV.byte_at b i))) 0 (seq 0 32) =? 0)%Z.

Module GovSvc.
Definition with_genesis_validators (c : GovernanceServiceConfig) (gvs : list GenesisValidator) : GovernanceService :=
  mkGovService c ∅ ∅ 0 ∅ gvs ∅.
Definition new (c : GovernanceServiceConfig) : GovernanceService := with_genesis_validators c [].

Definition set_pending (f : gmap HashValue PendingProposal → gmap HashValue PendingProposal) (s : GovernanceService)
    : GovernanceService :=
  mkGovService (gs_config s) (f (pending_governance s)) (proposal_tracker s) (nonce_counter s) (gs_registry s)
    (genesis_validators s) (decided_proposals s).

(** [format!("SETU_PROPOSAL:{}:{}:{}", proposer, nonce, timestamp)]; the counter wraps. *)
Definition proposal_preimage (proposer : string) (nonce timestamp : Z) : bytes :=
  as_bytes ("SETU_PROPOSAL:" +:+ proposer +:+ ":" +:+ fmt_u64 nonce +:+ ":" +:+ fmt_u64 timestamp).

Definition generate_proposal_id `{Blake3} (proposer : string) (timestamp : Z) (s : GovernanceService)
    : GovernanceService * HashValue :=
  (mkGovService (gs_config s) (pending_governance s) (proposal_tracker s) (u64_add (nonce_counter s) 1) (gs_registry s)
     (genesis_validators s) (decided_proposals s),
   blake3 (proposal_preimage proposer (nonce_counter s) timestamp)).

Definition insert_pending (p : PendingProposal) : GovernanceService → GovernanceService := set_pending <[pp_id p := p]>.
Definition remove_pending (id : HashValue) (s : GovernanceService) : GovernanceService * option PendingProposal :=
  (set_pending (delete id) s, pending_governance s !! id).
Definition get_pending (s : GovernanceService) (id : HashValue) : option PendingProposal := pending_governance s !! id.

Definition record_decided (id : HashValue) (d : GovernanceDecision) (s : GovernanceService) : GovernanceService :=
  mkGovService (gs_config s) (pending_governance s) (proposal_tracker s) (nonce_counter s) (gs_registry s)
    (genesis_validators s) (<[id := d]> (decided_proposals s)).
Definition get_decided (s : GovernanceService) (id : HashValue) : option GovernanceDecision := decided_proposals s !! id.

Definition validate_callback_token (s : GovernanceService) (id token : HashValue) : bool :=
  match pending_governance s !! id with
  | Some p => constant_time_eq (pp_callback_token p) token
  | None => false
  end.

Definition set_tracker (f : gmap HashValue Z → gmap HashValue Z) (s : GovernanceService) : GovernanceService :=
  mkGovService (gs_config s) (pending_governance s) (f (proposal_tracker s)) (nonce_counter s) (gs_registry s)
    (genesis_validators s) (decided_proposals s).
Definition track_proposal (id : HashValue) (created_at : Z) : GovernanceService → GovernanceService :=
  set_tracker <[id := created_at]>.
Definition untrack_proposal (id : HashValue) : GovernanceService → GovernanceService := set_tracker (delete id).

(** [duration_since] is 0 for an instant in the future. *)
Definition timed_out (s : GovernanceService) (now : Z) (p : PendingProposal) : bool :=
  (gc_timeout (gs_config s) <? Z.max 0 (now - pp_submitted_at p))%Z.
Definition check_timeouts (now : Z) (s : GovernanceService) : list HashValue :=
  (filter (fun kv => timed_out s now kv.2 = true) (map_to_list (pending_governance s))).*1.

Definition takeover_threshold_ms (s : GovernanceService) : Z :=
  wrap64 (gc_takeover_factor (gs_config s) * wrap64 (as_millis (gc_timeout (gs_config s)))).
Definition check_takeover_candidates (now_timestamp : Z) (s : GovernanceService) : list HashValue :=
  (filter (fun kv => (u64_add kv.2 (takeover_threshold_ms s) <? now_timestamp)%Z = true)
     (map_to_list (proposal_tracker s))).*1.

(** One restored proposal per entry, with a fresh token each. *)
Definition restore_from_replay (pending : list (HashValue * ProposalContent * Z)) (token : nat → HashValue) (now : Z)
    (s : GovernanceService) : GovernanceService :=
  foldl (fun s x => insert_pending x s) s
    (imap (fun i '(id, content, created_at) => mkPending id content now (token i) created_at) pending).

Definition register_system_endpoint (subnet : SubnetId) (c : SystemSubnetConfig) (s : GovernanceService)
    : GovernanceService :=
  mkGovService (gs_config s) (pending_governance s) (proposal_tracker s) (nonce_counter s)
    (<[subnet := c]> (gs_registry s)) (genesis_validators s) (decided_proposals s).
Definition resolve_endpoint (s : GovernanceService) (subnet : SubnetId) : option SystemSubnetConfig :=
  gs_registry s !! subnet.
Definition registry_count (s : GovernanceService) : nat := size (gs_registry s).
Definition pending_count (s : GovernanceService) : nat := size (pending_governance s).
Definition tracked_count (s : GovernanceService) : nat := size (proposal_tracker s).
Definition all_pending (s : GovernanceService) : list PendingProposal := (map_to_list (pending_governance s)).*2.
End GovSvc.

(** ** The handler *)

Inductive GovernanceHandlerError :=
| ExecutorError (e : GovernanceExecutorError)
| InvalidRequest (msg : string)
| Forbidden (msg : string).

Record PreparedProposal := mkPrepared {
  pr_event : Event;
  pr_proposal_id : HashValue;
  pr_callback_token : HashValue;
  pr_pending : PendingProposal
}.

Record RegisterSystemSubnetRequest := mkRegRequest {
  rq_subnet_id : string;
  rq_agent_endpoint : string;
  rq_callback_addr : option string;
  rq_timeout_secs : option Z;
  rq_registrant : string;
  rq_public_key : string;
  rq_signature : string
}.

(** What an operation reads of the world: seconds, milliseconds and nanoseconds
    of the clock, the logical time that is allocated, and a random token. *)
Record Clock := mkClock { ck_secs : Z; ck_millis : Z; ck_instant : Z; ck_logical : Z; ck_token : HashValue }.

(** The snapshot the handlers build. *)
Definition clock_vlc (c : Clock) : VLCSnapshot := mkVLCSnapshot VC.new (ck_logical c) (ck_secs c).

Module GovernanceHandler.
Section Handler.
Context `{Blake3} `{HexCrate} `{SerdeJson} `{Ed25519} `{GovernanceCodec}.
Context `{Serde GovernanceProposal} `{Serde ResourceParams} `{Serde SystemSubnetRegistration}.

Definition executed {A} (r : result GovernanceExecutorError A) : result GovernanceHandlerError A :=
  match r with
  | Ok a => Ok a
  | Err e => Err (ExecutorError e)
  | Panic => Panic
  end.

Definition prepare_propose (content : ProposalContent) (c : Clock) (validator_id : string)
    : stm GovernanceService GovernanceHandlerError PreparedProposal := fun s =>
  let '(s, id) := GovSvc.generate_proposal_id (pc_proposer content) (ck_secs c) s in
  (s, let? e := executed (execute_propose id content (ck_secs c) (clock_vlc c) None validator_id (ck_millis c)) in
      Ok (mkPrepared e id (ck_token c) (mkPending id content (ck_instant c) (ck_token c) (ck_secs c)))).

Definition prepare_execute (s : GovernanceService) (id token : HashValue) (d : GovernanceDecision) (c : Clock)
    (proposal : GovernanceProposal) (validator_id : string) (current : option ResourceParams)
    : result GovernanceHandlerError Event :=
  if negb (GovSvc.validate_callback_token s id token) then Err (Forbidden "Invalid callback token")
  else executed (execute_decision id d (ck_secs c) (clock_vlc c) proposal validator_id current (ck_millis c)).

Definition prepare_timeout_execute (s : GovernanceService) (id : HashValue) (c : Clock)
    (proposal : GovernanceProposal) (validator_id : string) (current : option ResourceParams)
    : result GovernanceHandlerError Event :=
  let d := mkDecision false
    ("Agent subnet timeout after " +:+ fmt_u64 (as_secs (gc_timeout (gs_config s))) +:+ "s") [] in
  executed (execute_decision id d (ck_secs c) (clock_vlc c) proposal validator_id current (ck_millis c)).

Definition prepare_register_system_subnet (rq : RegisterSystemSubnetRequest) (c : Clock) (validator_id : string)
    (existing : option bytes) (gvs : list GenesisValidator) : result GovernanceHandlerError Event :=
  match Subnet.from_hex (rq_subnet_id rq) with
  | None => Err (InvalidRequest "Invalid subnet_id hex")
  | Some subnet =>
      executed (execute_register_system_subnet
        (mkRegistration subnet (rq_agent_endpoint rq) (rq_callback_addr rq) (rq_timeout_secs rq) (rq_registrant rq)
           (rq_public_key rq) (rq_signature rq))
        (ck_secs c) (clock_vlc c) validator_id existing gvs (ck_millis c))
  end.
End Handler.
End GovernanceHandler.

(** ** The node *)

(** The parts of [ValidatorNetworkService] governance uses. *)
Record GovNode (St : Type) := mkGovNode {
  gn_service : option GovernanceService;
  gn_shared : SharedStateManager St;
  gn_events : gmap EventId Event;
  gn_dag_events : list EventId;
  execution_outcomes : gmap EventId ExecutionOutcome;
  gn_validator_id : string
}.
Arguments mkGovNode {St}.
Arguments gn_service {St} _.
Arguments gn_shared {St} _.
Arguments gn_events {St} _.
Arguments gn_dag_events {St} _.
Arguments execution_outcomes {St} _.
Arguments gn_validator_id {St} _.

(** [api::SubmitEventResponse]. *)
Record SubmitEventResponse := mkSubmitted {
  sb_success : bool;
  sb_message : string;
  sb_event_id : option string;
  sb_vlc_time : option Z
}.

Inductive StatusCode := OK | BAD_REQUEST | FORBIDDEN | NOT_FOUND | INTERNAL_SERVER_ERROR | SERVICE_UNAVAILABLE.

(** The message of a response: a text, or the printed form of an error. *)
Inductive Message := Text (s : string) | Printed (e : GovernanceHandlerError) | JsonError.

Record ProposeResponse := mkProposeResponse {
  pr_success : bool; pr_id : option string; pr_event_id : option string; pr_message : Message }.
Record CallbackResponse := mkCallbackResponse { cb_success : bool; cb_event_id : option string; cb_message : Message }.
Record StatusResponse := mkStatusResponse { st_found : bool; st_pending : bool; st_id : string; st_message : string }.

Module GovNet.
Section Net.
Context `{B : Blake3} `{X : HexCrate} `{J : SerdeJson} `{K : Ed25519} `{G : GovernanceCodec}.
Context `{SP : Serde GovernanceProposal} `{SR : Serde ResourceParams} `{SS : Serde SystemSubnetRegistration}.
Context {St : Type}.
Implicit Types (n : GovNode St).

Definition set_service (s : GovernanceService) n : GovNode St :=
  mkGovNode (Some s) (gn_shared n) (gn_events n) (gn_dag_events n) (execution_outcomes n) (gn_validator_id n).

(** Changes the service that is there now. *)
Definition with_service (f : GovernanceService → GovernanceService) n : GovNode St :=
  match gn_service n with Some s => set_service (f s) n | None => n end.

Definition get_subnet_object n (subnet : SubnetId) (id : HashValue) : option bytes :=
  Shared.get_subnet_object (Shared.load_overlay_view (gn_shared n)) subnet id.

Definition get_subnet_object_finalized n (subnet : SubnetId) (id : HashValue) : option bytes :=
  GS.get_subnet (Shared.load_snapshot (gn_shared n)) subnet ≫= fun smt => SS.get smt id.

(** [apply_event_state_changes_eager]; a staging error is only logged. *)
Definition apply_event_state_changes_eager (subnet : SubnetId) (e : Event) (now : Z) n : GovNode St :=
  match execution_result e with
  | Some exec =>
      if negb (er_success exec) || bool_decide (length (state_changes exec) = 0%nat) then n
      else
        mkGovNode (gn_service n) (Shared.stage_overlay (ev_id e) subnet (state_changes exec) now (gn_shared n)).1
          (gn_events n) (gn_dag_events n) (execution_outcomes n) (gn_validator_id n)
  | None => n
  end.

Definition quick_check (e : Event) (now_millis : Z) : result string unit :=
  match execution_result e with
  | None => Err "Event has no execution result"
  | Some r =>
      if negb (er_success r)
      then Err ("Event execution failed: " +:+ default "unknown error" (er_message r))
      else if bool_decide (creator e = "") then Err "Event creator is empty"
      else if (u64_add now_millis 60000 <? timestamp e)%Z then Err "Event timestamp is in the future"
      else Ok tt
  end.

(** The submission of an event to consensus: the node afterwards, and the logical
    time ([None] without consensus) or an error. *)
Definition Submit : Type := Event → GovNode St → GovNode St * result string (option Z).

Definition add_event_to_dag (submit : Submit) (e : Event) (now_millis : Z) n : GovNode St * SubmitEventResponse :=
  match quick_check e now_millis with
  | Err m => (n, mkSubmitted false ("Quick check failed: " +:+ m) None None)
  | Panic => (n, mkSubmitted false "" None None)
  | Ok _ =>
      match submit e n with
      | (n, Ok vlc_time) =>
          (mkGovNode (gn_service n) (gn_shared n) (<[ev_id e := e]> (gn_events n)) (gn_dag_events n ++ [ev_id e])%list
             (execution_outcomes n) (gn_validator_id n),
           mkSubmitted true "Event verified and added to DAG" (Some (ev_id e)) vlc_time)
      | (n, Err m) => (n, mkSubmitted false ("Consensus submission failed: " +:+ m) None None)
      | (n, Panic) => (n, mkSubmitted false "" None None)
      end
  end.

(** [hex::decode] of exactly 32 bytes. *)
Definition parse_id (s : string) : option HashValue := hex_decode s ≫= hash_of_bytes.

Definition governance_propose_handler (submit : Submit) (content : ProposalContent) (c : Clock) n
    : GovNode St * (StatusCode * ProposeResponse) :=
  match gn_service n with
  | None => (n, (SERVICE_UNAVAILABLE, mkProposeResponse false None None (Text "Governance not enabled")))
  | Some svc =>
      match GovernanceHandler.prepare_propose content c (gn_validator_id n) svc with
      | (svc, Ok prepared) =>
          match add_event_to_dag submit (pr_event prepared) (ck_millis c) (set_service svc n) with
          | (n, r) =>
              if negb (sb_success r)
              then (n, (SERVICE_UNAVAILABLE, mkProposeResponse false None (sb_event_id r) (Text (sb_message r))))
              else
                let n := with_service (GovSvc.insert_pending (pr_pending prepared)) n in
                let n := apply_event_state_changes_eager SUBNET_GOVERNANCE (pr_event prepared) (ck_instant c) n in
                (n, (OK, mkProposeResponse true (Some (hex_encode (hv_bytes (pr_proposal_id prepared))))
                           (Some (ev_id (pr_event prepared))) (Text "Proposal submitted")))
          end
      | (svc, Err e) => (set_service svc n, (BAD_REQUEST, mkProposeResponse false None None (Printed e)))
      | (svc, Panic) => (set_service svc n, (INTERNAL_SERVER_ERROR, mkProposeResponse false None None (Text "")))
      end
  end.

(** The proposal a pending entry stands for. *)
Definition proposal_of_pending (id : HashValue) (p : PendingProposal) : GovernanceProposal :=
  mkProposal id (pp_content p) PsPending None (pp_created_at p) None.

Definition current_params n : option ResourceParams :=
  get_subnet_object n SUBNET_GOVERNANCE resource_params_object_id ≫= from_slice.

(** The stored proposal, or the pending one when the state has none. *)
Definition read_proposal (svc : GovernanceService) (id : HashValue) n
    : result (StatusCode * Message) GovernanceProposal :=
  match get_subnet_object n SUBNET_GOVERNANCE id with
  | Some b => ok_or (INTERNAL_SERVER_ERROR, JsonError) (from_slice b)
  | None =>
      match GovSvc.get_pending svc id with
      | Some p => Ok (proposal_of_pending id p)
      | None => Err (NOT_FOUND, Text "Proposal not found")
      end
  end.

(** After an accepted decision. *)
Definition conclude (id : HashValue) (d : GovernanceDecision) (e : Event) (c : Clock) n : GovNode St :=
  let n := with_service (fun s => GovSvc.record_decided id d (GovSvc.remove_pending id s).1) n in
  apply_event_state_changes_eager SUBNET_GOVERNANCE e (ck_instant c) n.

Definition governance_callback_handler (submit : Submit) (proposal_id callback_token : string)
    (d : GovernanceDecision) (c : Clock) n : GovNode St * (StatusCode * CallbackResponse) :=
  let refuse code m := (n, (code, mkCallbackResponse false None m)) in
  match gn_service n with
  | None => refuse SERVICE_UNAVAILABLE (Text "Governance not enabled")
  | Some svc =>
      match parse_id proposal_id with
      | None => refuse BAD_REQUEST (Text "Invalid proposal_id hex")
      | Some id =>
          match parse_id callback_token with
          | None => refuse BAD_REQUEST (Text "Invalid callback_token hex")
          | Some token =>
              match read_proposal svc id n with
              | Err (code, m) => refuse code m
              | Panic => refuse INTERNAL_SERVER_ERROR (Text "")
              | Ok proposal =>
                  match GovernanceHandler.prepare_execute svc id token d c proposal (gn_validator_id n) (current_params n) with
                  | Ok e =>
                      match add_event_to_dag submit e (ck_millis c) n with
                      | (n, r) =>
                          if negb (sb_success r)
                          then (n, (SERVICE_UNAVAILABLE, mkCallbackResponse false (sb_event_id r) (Text (sb_message r))))
                          else (conclude id d e c n,
                                (OK, mkCallbackResponse true (Some (ev_id e)) (Text "Decision executed")))
                      end
                  | Err (Forbidden m) => refuse FORBIDDEN (Text m)
                  | Err e => refuse BAD_REQUEST (Printed e)
                  | Panic => refuse INTERNAL_SERVER_ERROR (Text "")
                  end
              end
          end
      end
  end.

Definition governance_status_handler (proposal_id : string) n : StatusResponse :=
  match gn_service n with
  | None => mkStatusResponse false false proposal_id "Governance not enabled"
  | Some svc =>
      match parse_id proposal_id with
      | None => mkStatusResponse false false proposal_id "Invalid proposal_id hex"
      | Some id =>
          if bool_decide (is_Some (GovSvc.get_pending svc id))
          then mkStatusResponse true true proposal_id "Awaiting Agent decision"
          else
            match GovSvc.get_decided svc id with
            | Some d => mkStatusResponse true false proposal_id
                ((if approved d then "Approved" else "Rejected") +:+ ": " +:+ reasoning d)
            | None =>
                if bool_decide (is_Some (get_subnet_object n SUBNET_GOVERNANCE id))
                then mkStatusResponse true false proposal_id "Proposal found in committed state"
                else mkStatusResponse false false proposal_id "Proposal not found"
            end
      end
  end.

Definition governance_register_system_subnet_handler (submit : Submit) (rq : RegisterSystemSubnetRequest) (c : Clock) n
    : GovNode St * (StatusCode * CallbackResponse) :=
  match gn_service n with
  | None => (n, (SERVICE_UNAVAILABLE, mkCallbackResponse false None (Text "Governance not enabled")))
  | Some svc =>
      let existing := Subnet.from_hex (rq_subnet_id rq) ≫= get_subnet_object_finalized n SUBNET_GOVERNANCE in
      match GovernanceHandler.prepare_register_system_subnet rq c (gn_validator_id n) existing (genesis_validators svc) with
      | Ok e =>
          match add_event_to_dag submit e (ck_millis c) n with
          | (n, r) =>
              if negb (sb_success r)
              then (n, (SERVICE_UNAVAILABLE, mkCallbackResponse false (sb_event_id r) (Text (sb_message r))))
              else (apply_event_state_changes_eager SUBNET_GOVERNANCE e (ck_instant c) n,
                    (OK, mkCallbackResponse true (Some (ev_id e)) (Text "System subnet registration submitted to DAG")))
          end
      | Err e => (n, (BAD_REQUEST, mkCallbackResponse false None (Printed e)))
      | Panic => (n, (INTERNAL_SERVER_ERROR, mkCallbackResponse false None (Text "")))
      end
  end.

(** ** The polling task *)

(** [resolve_proposal] of the task: what cannot be read falls back to the
    pending entry. *)
Definition resolve_proposal (p : PendingProposal) n : GovernanceProposal :=
  default (proposal_of_pending (pp_id p) p) (get_subnet_object n SUBNET_GOVERNANCE (pp_id p) ≫= from_slice).

Definition submit_decision (submit : Submit) (p : PendingProposal) (recorded : GovernanceDecision) (c : Clock)
    (r : result GovernanceHandlerError Event) n : GovNode St :=
  match r with
  | Ok e =>
      match add_event_to_dag submit e (ck_millis c) n with
      | (n, r) => if sb_success r then conclude (pp_id p) recorded e c n else n
      end
  | _ => n
  end.

(** The answer of the agent to a poll, and what other tasks do meanwhile. *)
Definition Agent : Type := HashValue → GovNode St → GovNode St * result string (option GovernanceDecision).

(** One pending proposal: a timeout is a rejection, otherwise the agent is asked. *)
Definition poll_pending (submit : Submit) (agent : Agent) (c : Clock) (p : PendingProposal) n : GovNode St :=
  match gn_service n with
  | None => n
  | Some svc =>
      if GovSvc.timed_out svc (ck_instant c) p then
        submit_decision submit p (mkDecision false "Proposal timed out" []) c
          (GovernanceHandler.prepare_timeout_execute svc (pp_id p) c (resolve_proposal p n) (gn_validator_id n)
             (current_params n)) n
      else
        match agent (pp_id p) n with
        | (n, Ok (Some d)) =>
            match gn_service n with
            | None => n
            | Some svc =>
                submit_decision submit p d c
                  (GovernanceHandler.prepare_execute svc (pp_id p) (pp_callback_token p) d c (resolve_proposal p n)
                     (gn_validator_id n) (current_params n)) n
            end
        | (n, _) => n
        end
  end.

(** One round of the task over the proposals that are pending when it starts. *)
Definition poll_tick (submit : Submit) (agent : Agent) (clock : nat → Clock) n : GovNode St :=
  match gn_service n with
  | None => n
  | Some svc => foldl (fun n '(i, p) => poll_pending submit agent (clock i) p n) n (imap pair (GovSvc.all_pending svc))
  end.

(** ** Finalized events *)

Definition system_subnet_config_from_registration (r : SystemSubnetRegistration) : SystemSubnetConfig :=
  mkSubnetConfig (sr_agent_endpoint r) (sr_callback_addr r) (from_secs (default 300%Z (sr_timeout_secs r))) OnChain.

Definition live_governance_event_applied (e : Event) n : bool :=
  match execution_outcomes n !! ev_id e with
  | Some (OApplied _) => true
  | _ => false
  end.

(** The governance branch of [apply_live_finalized_side_effects]. *)
Definition apply_live_finalized_side_effects (e : Event) n : GovNode St :=
  match as_governance (payload e) with
  | None => n
  | Some pl =>
      if negb (live_governance_event_applied e n) then n
      else
        with_service
          (match pl_action pl with
           | Propose _ => GovSvc.track_proposal (pl_proposal_id pl) (timestamp e)
           | Execute _ => GovSvc.untrack_proposal (pl_proposal_id pl)
           | RegisterSystemSubnet r =>
               GovSvc.register_system_endpoint (sr_subnet_id r) (system_subnet_config_from_registration r)
           end) n
  end.
End Net.
End GovNet.
