(* ===== verification/GovernanceServiceProps.v ===== *)
(** * Governance service: theorems

    The comparison of tokens, every answer of the callback, and the path of a
    proposal from its submission to the state. *)

From Stdlib Require Import ZArith Lia Strings.Byte.
From stdpp Require Import base gmap sets list strings numbers.
From S2P Require Import Prelude Hash Vlc Event Coin StateStore Resource SparseMerkle MerkleStore StateManager StateSpec Overlay ConsensusTypes AnchorBuilder Governance GovernanceInst GovernanceProps GovernanceService.
Import GovernanceExecutor.
#[local] Open Scope setu_scope.

(** ** Tokens *)

Lemma lor_fold_zero (f : nat → Z) (l : list nat) (d : Z) :
  foldl (fun diff i => Z.lor diff (f i)) d l = 0%Z ↔ d = 0%Z ∧ Forall (fun i => f i = 0%Z) l.
Proof.
  revert d. induction l as [|i l IH]; intros d; cbn [foldl]; [by split; [split|intros [? _]]|].
  rewrite IH, Z.lor_eq_0_iff, list.Forall_cons. tauto.
Qed.

Lemma byte_at_inj (a b : HashValue) : (∀ i : nat, (i < 32)%nat → HV.byte_at a i = HV.byte_at b i) → a = b.
Proof.
  intros Hab. apply HashValue_eq, list_eq. intros i. destruct (decide (i < 32)%nat) as [Hi|Hi].
  - specialize (Hab i Hi). unfold HV.byte_at in Hab.
    apply byte_Z_inj in Hab. destruct (nth_lookup_or_length (hv_bytes a) i Byte.x00) as [->|?]; [|rewrite hv_length in *; lia].
    destruct (nth_lookup_or_length (hv_bytes b) i Byte.x00) as [->|?]; [|rewrite hv_length in *; lia]. by rewrite Hab.
  - rewrite !lookup_ge_None_2; [done|rewrite hv_length; lia..].
Qed.

(** The comparison in constant time is equality. *)
Lemma constant_time_eq_spec a b : constant_time_eq a b = true ↔ a = b.
Proof.
  unfold constant_time_eq. rewrite Z.eqb_eq, lor_fold_zero, list.Forall_forall. split.
  - intros [_ Hx]. apply byte_at_inj. intros i Hi. apply Z.lxor_eq, Hx. apply elem_of_seq. lia.
  - intros ->. split; [done|]. intros i _. apply Z.lxor_nilpotent.
Qed.

Section Net.
Context `{B : Blake3} `{X : HexCrate} `{J : SerdeJson} `{K : Ed25519} `{G : GovernanceCodec}.
Context `{SP : Serde GovernanceProposal} `{SR : Serde ResourceParams} `{SS : Serde SystemSubnetRegistration}.
Context {St : Type}.
Implicit Types (n : GovNode St) (submit : GovNet.Submit (St := St)).

(** ** Submission *)

Lemma parse_id_encode id : GovNet.parse_id (hex_encode (hv_bytes id)) = Some id.
Proof using Type. unfold GovNet.parse_id. rewrite hex_decode_encode. cbn. apply hash_of_hv_bytes. Qed.

(** A refused submission leaves what consensus left; an accepted one adds the
    event. *)
Lemma add_event_to_dag_spec submit e now n :
  let '(n', r) := GovNet.add_event_to_dag submit e now n in
  if sb_success r
  then ∃ t, (submit e n).2 = Ok t ∧ gn_service n' = gn_service (submit e n).1 ∧
       gn_shared n' = gn_shared (submit e n).1 ∧ gn_events n' !! ev_id e = Some e
  else n' = n ∨ (n' = (submit e n).1 ∧ ∀ t, (submit e n).2 ≠ Ok t).
Proof using Type.
  unfold GovNet.add_event_to_dag. destruct (GovNet.quick_check e now); [|by left..].
  destruct (submit e n) as [n1 [t|m|]]; cbn; [|by right..]. exists t. by rewrite lookup_insert_eq.
Qed.

Lemma eager_service subnet e now n : gn_service (GovNet.apply_event_state_changes_eager subnet e now n) = gn_service n.
Proof using Type.
  unfold GovNet.apply_event_state_changes_eager. destruct (execution_result e); [|done]. by destruct (_ || _).
Qed.

Lemma eager_events subnet e now n : gn_events (GovNet.apply_event_state_changes_eager subnet e now n) = gn_events n.
Proof using Type.
  unfold GovNet.apply_event_state_changes_eager. destruct (execution_result e); [|done]. by destruct (_ || _).
Qed.

Lemma conclude_service id d e c n :
  gn_service (GovNet.conclude id d e c n) =
    (fun s => GovSvc.record_decided id d (GovSvc.remove_pending id s).1) <$> gn_service n.
Proof using Type. unfold GovNet.conclude. rewrite eager_service. unfold GovNet.with_service. destruct (gn_service n) eqn:Hs; [done|by rewrite Hs]. Qed.

Lemma with_service_events f n : gn_events (GovNet.with_service f n) = gn_events n.
Proof using Type. unfold GovNet.with_service. by destruct (gn_service n). Qed.

Lemma conclude_events id d e c n : gn_events (GovNet.conclude id d e c n) = gn_events n.
Proof using Type. unfold GovNet.conclude. by rewrite eager_events, with_service_events. Qed.

Lemma prepare_execute_inv s id token d c p v current e :
  GovernanceHandler.prepare_execute s id token d c p v current = Ok e →
  (∃ q, GovSvc.get_pending s id = Some q ∧ pp_callback_token q = token) ∧
  execute_decision id d (ck_secs c) (clock_vlc c) p v current (ck_millis c) = Ok e.
Proof using Type.
  unfold GovernanceHandler.prepare_execute, GovSvc.validate_callback_token, GovSvc.get_pending.
  destruct (pending_governance s !! id) as [q|]; [|done]. destruct (constant_time_eq _ _) eqn:Hc; [|done].
  apply constant_time_eq_spec in Hc. cbn [negb]. destruct (execute_decision _ _ _ _ _ _ _ _); [|done..].
  intros [= ->]. split; [by exists q|done].
Qed.

(** ** Reading one's own proposal *)

(** [hex::encode] writes two digits per byte. *)
Definition hex_lengths : Prop := ∀ b, String.length (hex_encode b) = (2 * length b)%nat.

Lemma overlay_key id : hex_lengths → Overlay.parse_oid_hex_key (oid id) = Oid id.
Proof using Type.
  intros Hlen. unfold Overlay.parse_oid_hex_key, oid.
  change (strip_prefix "oid:" ("oid:" +:+ hex_encode (hv_bytes id))%string) with (Some (hex_encode (hv_bytes id))).
  cbv beta iota. rewrite Hlen, hv_length, hex_decode_encode, hash_of_hv_bytes. done.
Qed.

(** A staged creation is read back, and other objects are read as before. *)
Lemma eager_read e id v now n :
  hex_lengths → execution_result e = Some (mkExecutionResult true None [change_new (oid id) None (Some v)]) →
  let n' := GovNet.apply_event_state_changes_eager SUBNET_GOVERNANCE e now n in
  GovNet.get_subnet_object n' SUBNET_GOVERNANCE id = Some v ∧
  ∀ id', id' ≠ id → GovNet.get_subnet_object n' SUBNET_GOVERNANCE id' = GovNet.get_subnet_object n SUBNET_GOVERNANCE id'.
Proof using Type.
  intros Hlen He. unfold GovNet.apply_event_state_changes_eager. rewrite He. cbn [er_success negb orb state_changes].
  rewrite bool_decide_eq_false_2 by done. unfold Shared.stage_overlay, Overlay.stage.
  cbn [Overlay.parse_changes change_new sc_key]. rewrite (overlay_key id Hlen). cbn [rbind foldl].
  unfold GovNet.get_subnet_object, Shared.get_subnet_object, Shared.view_lookup, Overlay.get, Overlay.push.
  cbn. split.
  - rewrite lookup_insert_eq. cbn. by rewrite last_snoc.
  - intros id' Hne. by rewrite lookup_insert_ne by congruence.
Qed.

(** Consensus accepts every event, and nothing else happens meanwhile. *)
Definition accepts submit : Prop := ∀ e n, ∃ t, submit e n = (n, Ok t).

Lemma add_accepted submit e now n :
  accepts submit → GovNet.quick_check e now = Ok tt →
  ∃ n' t, GovNet.add_event_to_dag submit e now n = (n', mkSubmitted true "Event verified and added to DAG" (Some (ev_id e)) t) ∧
    gn_service n' = gn_service n ∧ gn_shared n' = gn_shared n ∧ gn_validator_id n' = gn_validator_id n.
Proof using Type.
  intros Ha Hq. unfold GovNet.add_event_to_dag. rewrite Hq. destruct (Ha e n) as [t ->]. by eexists _, t.
Qed.

Lemma quick_check_built pl cs vlc v now :
  v ≠ ""%string → is_u64 (now + 60000) → (0 ≤ now)%Z →
  GovNet.quick_check (build_event pl cs vlc v now) now = Ok tt.
Proof using Type.
  intros Hv Hn Hp. unfold GovNet.quick_check. cbn. rewrite bool_decide_eq_false_2 by done.
  unfold u64_add. rewrite wrap64_small by done. destruct (Z.ltb_spec (now + 60000) now); [lia|done].
Qed.

Lemma eager_validator subnet e now n :
  gn_validator_id (GovNet.apply_event_state_changes_eager subnet e now n) = gn_validator_id n.
Proof using Type.
  unfold GovNet.apply_event_state_changes_eager. destruct (execution_result e); [|done]. by destruct (_ || _).
Qed.

(** ** Submitting and deciding *)

Definition clock_ok (c : Clock) : Prop := (0 ≤ ck_millis c)%Z ∧ is_u64 (ck_millis c + 60000).

Lemma get_object_shared n n' subnet id :
  gn_shared n' = gn_shared n → GovNet.get_subnet_object n' subnet id = GovNet.get_subnet_object n subnet id.
Proof using Type. unfold GovNet.get_subnet_object. by intros ->. Qed.

Lemma with_service_shared f n : gn_shared (GovNet.with_service f n) = gn_shared n.
Proof using Type. unfold GovNet.with_service. by destruct (gn_service n). Qed.

Lemma with_service_validator f n : gn_validator_id (GovNet.with_service f n) = gn_validator_id n.
Proof using Type. unfold GovNet.with_service. by destruct (gn_service n). Qed.

(** A valid proposal is accepted; the node then holds it as pending and reads it
    back from the speculative state. *)
Lemma propose_accepted submit n svc content c b id :
  id = blake3 (GovSvc.proposal_preimage (pc_proposer content) (nonce_counter svc) (ck_secs c)) →
  hex_lengths → accepts submit → gn_service n = Some svc → gn_validator_id n ≠ ""%string → clock_ok c →
  ProposalValidator.validate_content content = Ok tt → to_vec (ProposalStateMachine.create id content (ck_secs c)) = Some b →
  let e := build_event (mkGovPayload id (Propose content)) [change_new (oid id) None (Some b)] (clock_vlc c)
             (gn_validator_id n) (ck_millis c) in
  ∃ n' svc',
    GovNet.governance_propose_handler submit content c n =
      (n', (OK, mkProposeResponse true (Some (hex_encode (hv_bytes id))) (Some (ev_id e)) (Text "Proposal submitted"))) ∧
    gn_service n' = Some svc' ∧ gn_validator_id n' = gn_validator_id n ∧
    GovSvc.get_pending svc' id = Some (mkPending id content (ck_instant c) (ck_token c) (ck_secs c)) ∧
    GovNet.get_subnet_object n' SUBNET_GOVERNANCE id = Some b ∧
    ∀ id', id' ≠ id → GovNet.get_subnet_object n' SUBNET_GOVERNANCE id' = GovNet.get_subnet_object n SUBNET_GOVERNANCE id'.
Proof using Type.
  intros Hid Hlen Hacc Hsvc Hval [Hc0 Hc] Hv Hb e. unfold GovNet.governance_propose_handler. rewrite Hsvc.
  unfold GovernanceHandler.prepare_propose. cbn [GovSvc.generate_proposal_id]. rewrite <-Hid.
  assert (Hx : execute_propose id content (ck_secs c) (clock_vlc c) None (gn_validator_id n) (ck_millis c) = Ok e).
  { unfold execute_propose, ProposalValidator.validate_propose. rewrite Hv. cbn [validated rbind].
    unfold serialize. rewrite Hb. done. }
  rewrite Hx. cbn [GovernanceHandler.executed rbind pr_event].
  destruct (add_accepted submit e (ck_millis c) (GovNet.set_service (GovSvc.generate_proposal_id (pc_proposer content) (ck_secs c) svc).1 n) Hacc)
    as (n1 & t & Hadd & Hs1 & Hsh1 & Hv1); [by apply quick_check_built|]. cbn [GovSvc.generate_proposal_id fst] in Hadd.
  rewrite Hadd. cbn [sb_success negb pr_pending pr_event pr_proposal_id].
  set (n2 := GovNet.with_service _ n1).
  destruct (eager_read e id b (ck_instant c) n2 Hlen eq_refl) as [Hr Hr'].
  assert (Hs2 : gn_service n2 = Some (GovSvc.insert_pending (mkPending id content (ck_instant c) (ck_token c) (ck_secs c))
                  (GovSvc.generate_proposal_id (pc_proposer content) (ck_secs c) svc).1)).
  { unfold n2, GovNet.with_service. by rewrite Hs1. }
  eexists _, _. split; [reflexivity|]. rewrite eager_service, eager_validator. split_and!.
  - exact Hs2.
  - unfold n2. by rewrite with_service_validator, Hv1.
  - unfold GovSvc.get_pending, GovSvc.insert_pending, GovSvc.set_pending. cbn. by rewrite lookup_insert_eq.
  - exact Hr.
  - intros id' Hne. rewrite Hr' by done. apply get_object_shared. unfold n2. by rewrite with_service_shared, Hsh1.
Qed.

(** Deciding a pending proposal that can be read. *)
Lemma callback_accepted submit n svc id q p d c b e :
  accepts submit → gn_service n = Some svc → gn_validator_id n ≠ ""%string → clock_ok c →
  GovSvc.get_pending svc id = Some q → GovNet.get_subnet_object n SUBNET_GOVERNANCE id = Some b → to_vec p = Some b →
  execute_decision id d (ck_secs c) (clock_vlc c) p (gn_validator_id n) (GovNet.current_params n) (ck_millis c) = Ok e →
  ∃ n', GovNet.governance_callback_handler submit (hex_encode (hv_bytes id)) (hex_encode (hv_bytes (pp_callback_token q)))
          d c n = (n', (OK, mkCallbackResponse true (Some (ev_id e)) (Text "Decision executed"))) ∧
    gn_service n' = Some (GovSvc.record_decided id d (GovSvc.remove_pending id svc).1).
Proof using Type.
  intros Hacc Hsvc Hval [Hc0 Hc] Hq Hobj Hb He. unfold GovNet.governance_callback_handler. cbn beta zeta.
  rewrite Hsvc, !parse_id_encode. unfold GovNet.read_proposal. rewrite Hobj, (from_slice_to_vec p b Hb). cbn [ok_or].
  unfold GovernanceHandler.prepare_execute, GovSvc.validate_callback_token. unfold GovSvc.get_pending in Hq. rewrite Hq.
  rewrite (proj2 (constant_time_eq_spec _ _) eq_refl). cbn [negb]. rewrite He. cbn [GovernanceHandler.executed].
  pose proof (execute_decision_inv _ _ _ _ _ _ _ _ _ He) as (_ & old & new & cs & _ & _ & Hev & _).
  destruct (add_accepted submit e (ck_millis c) n Hacc) as (n1 & t & Hadd & Hs1 & _ & _).
  { rewrite Hev. by apply quick_check_built. }
  rewrite Hadd. cbn [sb_success negb]. eexists. split; [reflexivity|]. by rewrite conclude_service, Hs1, Hsvc.
Qed.

(** What a client is told of a proposal. *)
Lemma status_pending (n : GovNode St) svc id q :
  gn_service n = Some svc → GovSvc.get_pending svc id = Some q →
  GovNet.governance_status_handler (hex_encode (hv_bytes id)) n =
    mkStatusResponse true true (hex_encode (hv_bytes id)) "Awaiting Agent decision".
Proof using Type. intros Hs Hq. unfold GovNet.governance_status_handler. by rewrite Hs, parse_id_encode, Hq, bool_decide_eq_true_2. Qed.

Lemma status_decided (n : GovNode St) svc id d :
  gn_service n = Some svc → GovSvc.get_pending svc id = None → GovSvc.get_decided svc id = Some d →
  GovNet.governance_status_handler (hex_encode (hv_bytes id)) n =
    mkStatusResponse true false (hex_encode (hv_bytes id)) ((if approved d then "Approved" else "Rejected") +:+ ": " +:+ reasoning d)%string.
Proof using Type.
  intros Hs Hq Hd. unfold GovNet.governance_status_handler.
  rewrite Hs, parse_id_encode, Hq, bool_decide_eq_false_2, Hd by by intros [? ?]. done.
Qed.
End Net.

(** ** Theorems *)

(** Every answer of the callback.  A decision is accepted only with the token
    of a pending proposal and while the proposal that is read is pending; then
    the event of the decision was taken by consensus, it is recorded, and the
    proposal moves from the pending to the decided ones.  Any other answer leaves
    the node as it was, or as consensus left it when it refused the event: the
    proposal stays pending and can be decided later. *)
Theorem callback_behaviour (B : Blake3) (X : HexCrate) (J : SerdeJson) (G : GovernanceCodec)
    (SP : Serde GovernanceProposal) (SR : Serde ResourceParams) (St : Type)
    (submit : GovNet.Submit) (proposal_id token : string) (d : GovernanceDecision) (c : Clock) (n : GovNode St) :
  let '(n', (code, resp)) := GovNet.governance_callback_handler submit proposal_id token d c n in
  (cb_success resp = true ↔ code = OK) ∧
  (code = OK → ∃ svc id p proposal e t,
     gn_service n = Some svc ∧ GovNet.parse_id proposal_id = Some id ∧
     GovSvc.get_pending svc id = Some p ∧ GovNet.parse_id token = Some (pp_callback_token p) ∧
     GovNet.read_proposal svc id n = Ok proposal ∧ gp_status proposal = PsPending ∧
     execute_decision id d (ck_secs c) (clock_vlc c) proposal (gn_validator_id n) (GovNet.current_params n) (ck_millis c)
       = Ok e ∧
     (submit e n).2 = Ok t ∧ gn_events n' !! ev_id e = Some e ∧
     gn_service n' = (fun s => GovSvc.record_decided id d (GovSvc.remove_pending id s).1) <$> gn_service (submit e n).1) ∧
  (code ≠ OK → n' = n ∨ ∃ e, n' = (submit e n).1 ∧ ∀ t, (submit e n).2 ≠ Ok t).
Proof.
  unfold GovNet.governance_callback_handler. cbn beta zeta.
  destruct (gn_service n) as [svc|] eqn:Hsvc; [|by split_and!; [| |left]].
  destruct (GovNet.parse_id proposal_id) as [id|] eqn:Hid; [|by split_and!; [| |left]].
  destruct (GovNet.parse_id token) as [tk|] eqn:Htk; [|by split_and!; [| |left]].
  destruct (GovNet.read_proposal svc id n) as [p|[code m]|] eqn:Hp; [| |by split_and!; [| |left]].
  2: { assert (code ≠ OK).
       { unfold GovNet.read_proposal in Hp. destruct (GovNet.get_subnet_object _ _ _) as [b|].
         - destruct (from_slice b); naive_solver.
         - destruct (GovSvc.get_pending svc id); naive_solver. }
       by split_and!; [| |left]. }
  destruct (GovernanceHandler.prepare_execute _ _ _ _ _ _ _ _) as [e|[]|] eqn:He; [|by split_and!; [| |left]..].
  pose proof (add_event_to_dag_spec submit e (ck_millis c) n) as Hadd.
  destruct (GovNet.add_event_to_dag submit e (ck_millis c) n) as [n1 r]. destruct (sb_success r) eqn:Hs; cbn [negb].
  - destruct Hadd as (t & Ht & Hg & _ & Hev). apply prepare_execute_inv in He as [(q & Hq & <-) Hx].
    split_and!; [done| |done]. intros _. exists svc, id, q, p, e, t.
    pose proof (execute_decision_inv _ _ _ _ _ _ _ _ _ Hx) as [Hst _]. split_and!; try done.
    + by rewrite conclude_events.
    + by rewrite conclude_service, Hg.
  - split_and!; [done|done|]. intros _. destruct Hadd as [->|[-> Hn]]; [by left|]. right. by exists e.
Qed.

(** C31: a proposal goes from its submission to the state.  On a node with the
    service whose consensus takes the events, a valid proposal is accepted under
    the id of its proposer, nonce and time, and is read back at once: the node's
    state has it and the status handler says that it awaits the decision.  The
    decision of the agent, given with the token of the proposal, is accepted
    before anything is final: the proposal leaves the pending ones and the
    status handler tells the decision.  The effect of the action is defined on
    the parameters that the node reads, and the proposal's id is not that of
    the resource parameters.  Once the two events are applied in this order to
    a state without the proposal in which, for an approval, the place of the
    effect holds the old value that the event names, both take effect: the
    state holds the decided proposal and, when it was approved, its effect.  In
    a state with another value the decision conflicts ([parameter_set_once]). *)
Theorem proposal_end_to_end (B : Blake3) (X : HexCrate) (J : SerdeJson) (G : GovernanceCodec)
    (SP : Serde GovernanceProposal) (SR : Serde ResourceParams) (St : Type)
    (submit : GovNet.Submit) (n : GovNode St) (svc : GovernanceService) (content : ProposalContent)
    (d : GovernanceDecision) (c1 c2 : Clock) (id : HashValue) (b b' : bytes)
    (subnet : SubnetId) (k : HashValue) (o : option bytes) (v : bytes)
    (Hlen : hex_lengths) (Haccepts : accepts submit)
    (Hsvc : gn_service n = Some svc) (Hval : gn_validator_id n ≠ ""%string) (Hc1 : clock_ok c1) (Hc2 : clock_ok c2)
    (Hcontent : ProposalValidator.validate_content content = Ok tt)
    (Hid : id = blake3 (GovSvc.proposal_preimage (pc_proposer content) (nonce_counter svc) (ck_secs c1)))
    (Hother : id ≠ resource_params_object_id)
    (Hb : to_vec (ProposalStateMachine.create id content (ck_secs c1)) = Some b)
    (Hb' : to_vec (decided (ProposalStateMachine.create id content (ck_secs c1)) d (ck_secs c2)) = Some b')
    (Heffect : effect_write (GovNet.current_params n) (ck_secs c2) (pc_action content) = Some (subnet, k, o, v)) :
  ∃ n1 n2 svc2 e1 e2,
    GovNet.governance_propose_handler submit content c1 n =
      (n1, (OK, mkProposeResponse true (Some (hex_encode (hv_bytes id))) (Some (ev_id e1)) (Text "Proposal submitted"))) ∧
    GovNet.get_subnet_object n1 SUBNET_GOVERNANCE id = Some b ∧
    GovNet.governance_status_handler (hex_encode (hv_bytes id)) n1 =
      mkStatusResponse true true (hex_encode (hv_bytes id)) "Awaiting Agent decision" ∧
    GovNet.governance_callback_handler submit (hex_encode (hv_bytes id)) (hex_encode (hv_bytes (ck_token c1))) d c2 n1 =
      (n2, (OK, mkCallbackResponse true (Some (ev_id e2)) (Text "Decision executed"))) ∧
    gn_service n2 = Some svc2 ∧ GovSvc.get_pending svc2 id = None ∧ GovSvc.get_decided svc2 id = Some d ∧
    GovNet.governance_status_handler (hex_encode (hv_bytes id)) n2 =
      mkStatusResponse true false (hex_encode (hv_bytes id)) ((if approved d then "Approved" else "Rejected") +:+ ": " +:+ reasoning d)%string ∧
    ∀ w, w_get w SUBNET_GOVERNANCE id = None → (approved d = true → w_get w subnet k = o) →
      ∃ w2, spec_events w [e1; e2] = (w2, [(e1, Applied); (e2, Applied)]) ∧
        w_get w2 SUBNET_GOVERNANCE id = Some b' ∧ (approved d = true → w_get w2 subnet k = Some v).
Proof.
  destruct (propose_accepted submit n svc content c1 b id Hid Hlen Haccepts Hsvc Hval Hc1 Hcontent Hb)
    as (n1 & svc1 & Hprop & Hs1 & Hv1 & Hp1 & Hr1 & Hr1').
  assert (Hcur : GovNet.current_params n1 = GovNet.current_params n).
  { unfold GovNet.current_params. by rewrite Hr1'. }
  set (p := ProposalStateMachine.create id content (ck_secs c1)) in *.
  destruct (execute_decision id d (ck_secs c2) (clock_vlc c2) p (gn_validator_id n1) (GovNet.current_params n1) (ck_millis c2))
    as [e2| |] eqn:He.
  2,3: pose proof (execute_decision_refused id d (ck_secs c2) (clock_vlc c2) p (gn_validator_id n1) (GovNet.current_params n1) (ck_millis c2)) as Hf;
    rewrite He in Hf; rewrite ?Hcur in Hf; cbn [p ProposalStateMachine.create gp_status gp_content] in Hf; naive_solver.
  destruct (callback_accepted submit n1 svc1 id (mkPending id content (ck_instant c1) (ck_token c1) (ck_secs c1)) p d c2 b e2 Haccepts Hs1)
    as (n2 & Hcb & Hs2); [by rewrite Hv1|done..|].
  eexists n1, n2, _, _, e2. split; [exact Hprop|]. split; [exact Hr1|]. split; [by eapply status_pending|].
  split; [exact Hcb|]. split; [exact Hs2|].
  assert (Hpend : GovSvc.get_pending (GovSvc.record_decided id d (GovSvc.remove_pending id svc1).1) id = None)
    by (unfold GovSvc.get_pending; cbn; by rewrite lookup_delete_eq).
  assert (Hdec : GovSvc.get_decided (GovSvc.record_decided id d (GovSvc.remove_pending id svc1).1) id = Some d)
    by (unfold GovSvc.get_decided; cbn; by rewrite lookup_insert_eq).
  split; [exact Hpend|]. split; [exact Hdec|]. split; [by eapply status_decided|].
  intros w Hw Ho. cbn [spec_events]. rewrite propose_applied by done.
  destruct (decision_spec _ _ _ _ _ _ _ _ _ He) as (_ & old & new & Hold & Hnew & Hd).
  assert (old = b) as -> by congruence. assert (new = b') as -> by congruence.
  specialize (Hd (w_write w SUBNET_GOVERNANCE id (Some b))). unfold decision_effect in Hd.
  rewrite decide_True in Hd by (rewrite w_get_write; by rewrite decide_True). destruct (approved d).
  - destruct Hd as (m & k' & o' & v' & Hx & Hd). rewrite Hcur in Hx. cbn [p ProposalStateMachine.create gp_content] in Hx.
    rewrite Heffect in Hx. injection Hx as <- <- <- <-. assert (Hne : (subnet, k) ≠ (SUBNET_GOVERNANCE, id)).
    { intros [= Hn Hk]. destruct (effect_place _ _ _ _ _ _ _ Heffect) as [E|E]; [rewrite Hn in E; discriminate E|congruence]. }
    rewrite Hd by done. rewrite (decide_True (P := w_get _ subnet k = o)).
    2: { rewrite w_get_write. rewrite decide_False by congruence. by apply Ho. }
    eexists. split; [reflexivity|]. rewrite !w_get_write, (decide_False (P := (subnet, k) = _)) by done.
    by rewrite !decide_True by done.
  - rewrite Hd. eexists. split; [reflexivity|]. rewrite w_get_write, decide_True by done. done.
Qed.

(** A pending entry whose proposal was decided elsewhere is never removed: after
    its timeout the task cannot build a decision, and every later round leaves
    the node as it is. *)
Theorem decided_elsewhere_stays_pending (B : Blake3) (X : HexCrate) (J : SerdeJson) (G : GovernanceCodec)
    (SP : Serde GovernanceProposal) (SR : Serde ResourceParams) (St : Type)
    (submit : GovNet.Submit) (agent : GovNet.Agent) (c : Clock) (p : PendingProposal) (n : GovNode St)
    (svc : GovernanceService)
    (Hsvc : gn_service n = Some svc) (Htime : GovSvc.timed_out svc (ck_instant c) p = true)
    (Hdecided : gp_status (GovNet.resolve_proposal p n) ≠ PsPending) :
  GovNet.poll_pending submit agent c p n = n.
Proof.
  unfold GovNet.poll_pending. rewrite Hsvc, Htime. unfold GovernanceHandler.prepare_timeout_execute.
  unfold execute_decision, ProposalValidator.validate_execute. by rewrite bool_decide_eq_true_2.
Qed.

(** ** Examples *)

Section Instances.
#[local] Existing Instance toy_blake3.
#[local] Existing Instance hex_lower.
#[local] Existing Instance proposal_serde.
#[local] Existing Instance params_serde.
#[local] Existing Instance registration_serde.
#[local] Existing Instance governance_codec.
#[local] Existing Instance gov_json.

Lemma hex_string_length b : String.length (hex_string b) = (2 * length b)%nat.
Proof. induction b as [|x b IH]; cbn; [done|]. rewrite IH. lia. Qed.

Definition wit_service : GovernanceService := GovSvc.new gov_config_default.
Definition wit_node : GovNode InMemoryMerkleStore :=
  mkGovNode (Some wit_service) (Shared.new (GS.with_store IM.new)) ∅ [] ∅ "v1".
Definition wit_submit : GovNet.Submit (St := InMemoryMerkleStore) := fun _ n => (n, Ok None).
Definition wit_clock (s : Z) : Clock := mkClock s (s * 1000) (s * 1000000000) s zero_hash.
Definition wit_pid : HashValue :=
  blake3 (GovSvc.proposal_preimage "alice" (nonce_counter wit_service) (ck_secs (wit_clock 100))).
Definition wit_pending : GovernanceProposal := ProposalStateMachine.create wit_pid wit_content 100.

(** The proposal to set a parameter is submitted at 100 s and approved at 160 s. *)
Lemma proposal_end_to_end_witness :
  ∃ n1 n2 svc2 e1 e2,
    (GovNet.governance_propose_handler wit_submit wit_content (wit_clock 100) wit_node).1 = n1 ∧
    (GovNet.governance_callback_handler wit_submit (hex_string (hv_bytes wit_pid)) (hex_string (hv_bytes zero_hash))
       wit_yes (wit_clock 160) n1).1 = n2 ∧
    gn_service n2 = Some svc2 ∧ GovSvc.get_decided svc2 wit_pid = Some wit_yes ∧
    ∃ w2, spec_events ∅ [e1; e2] = (w2, [(e1, Applied); (e2, Applied)]) ∧
      w_get w2 SUBNET_ROOT (param_id "max_tps") = Some [Byte.x01].
Proof.
  destruct (proposal_end_to_end toy_blake3 hex_lower gov_json governance_codec proposal_serde params_serde
    InMemoryMerkleStore wit_submit wit_node wit_service wit_content wit_yes (wit_clock 100) (wit_clock 160) wit_pid
    (pos_bytes (countable.encode wit_pending)) (pos_bytes (countable.encode (decided wit_pending wit_yes 160)))
    SUBNET_ROOT (param_id "max_tps") None [Byte.x01]) as (n1 & n2 & svc2 & e1 & e2 & Hp & _ & _ & Hc & Hs & _ & Hd & _ & Hw).
  - intros b. apply hex_string_length.
  - intros e n. exists None. reflexivity.
  - reflexivity.
  - discriminate.
  - vm_compute. repeat split; discriminate.
  - vm_compute. repeat split; discriminate.
  - reflexivity.
  - reflexivity.
  - apply (bool_decide_unpack _). vm_compute. exact I.
  - reflexivity.
  - reflexivity.
  - reflexivity.
  - exists n1, n2, svc2, e1, e2. split; [exact (f_equal fst Hp)|]. split; [exact (f_equal fst Hc)|].
    split; [exact Hs|]. split; [exact Hd|].
    destruct (Hw ∅) as (w2 & He & _ & Hv); [reflexivity|reflexivity|]. exists w2. split; [exact He|]. apply Hv. reflexivity.
Defined.
End Instances.
