(* ===== verification/Task.v ===== *)
(** * Transfers and tasks

    What travels between a validator and a solver: [types/src/transfer.rs], the
    payload of events ([types/src/event.rs]), the resolution of subnet names
    ([types/src/subnet.rs]), tasks, gas and attestations ([types/src/task]), the
    commitment to a write set ([types/src/hash_utils.rs]) and the marker of a
    used nonce ([setu-validator/src/user_transfer_nonce.rs]).

    [Event] keeps [transfer] and [payload] as bytes; code that reads them works
    on a [TaskEvent], an event with these two fields. *)

From Stdlib Require Import ZArith Lia Strings.Byte.
From stdpp Require Import base gmap sets list strings numbers.
From S2P Require Import Prelude Hash Vlc Event Coin StateStore Resource StateManager.

#[local] Open Scope string_scope.
#[local] Open Scope list_scope.

(** ** The [sha2] crate *)
Class Sha256 := sha256 : bytes → HashValue.

(** ** Names of subnets *)

Inductive SubnetIdParseError :=
| EmptySubnetId
| InvalidHex (msg : string)
| InvalidGrammar (msg : string).

Module Subnet.

(** Characters. *)
Definition code (c : Ascii.ascii) : N := Ascii.N_of_ascii c.
Definition between (lo hi : N) (c : Ascii.ascii) : bool := ((lo <=? code c) && (code c <=? hi))%N.
Definition is_lower (c : Ascii.ascii) : bool := between 97 122 c.
Definition is_upper (c : Ascii.ascii) : bool := between 65 90 c.
Definition is_digit (c : Ascii.ascii) : bool := between 48 57 c.
Definition is_alphanumeric (c : Ascii.ascii) : bool := is_lower c || is_upper c || is_digit c.
Definition is_hexdigit (c : Ascii.ascii) : bool := is_digit c || between 97 102 c || between 65 70 c.
Definition is_hyphen (c : Ascii.ascii) : bool := (code c =? 45)%N.

(** White space; a name with white space that is not ASCII fails the last
    check of the grammar instead of the first two. *)
Definition is_whitespace (c : Ascii.ascii) : bool := between 9 13 c || (code c =? 32)%N.

Definition chars (s : string) : list Ascii.ascii := String.list_ascii_of_string s.

(** [s.trim() != s] for a string that is not all white space. *)
Definition is_trimmed (s : string) : bool :=
  match chars s with
  | [] => true
  | c :: rest => negb (is_whitespace c) && negb (is_whitespace (List.last rest c))
  end.

Definition is_blank (s : string) : bool := forallb is_whitespace (chars s).

Definition validate_public_id_grammar (raw : string) : result string unit :=
  if is_blank raw then Err "Invalid subnet_id: must not be empty"
  else if negb (is_trimmed raw) then
    Err "Invalid subnet_id: leading/trailing whitespace is not allowed"
  else if ((String.length raw <? 3) || (64 <? String.length raw))%nat then
    Err "Invalid subnet_id: length must be 3-64 characters"
  else if bool_decide (to_ascii_lowercase raw = "root")
          || bool_decide (to_ascii_lowercase raw = "governance") then
    Err "Invalid subnet_id: reserved system id"
  else
    match chars raw with
    | [] => Panic
    | first :: rest =>
        if negb (is_alphanumeric first) || negb (is_alphanumeric (List.last rest first)) then
          Err "Invalid subnet_id: must start and end with a letter or digit"
        else if negb (forallb (fun c => is_lower c || is_digit c || is_hyphen c) (chars raw)) then
          Err "Invalid subnet_id: only lowercase letters, digits, and '-' are allowed"
        else Ok tt
    end.

Section Resolve.
Context `{Blake3} `{HexCrate}.

(** The hash of a name, with the first byte of an application subnet. *)
Definition from_str_id (id : string) : SubnetId :=
  default zero_hash
    (hash_of_bytes (Byte.x02 :: tail (hv_bytes (blake3 (as_bytes "SETU_SUBNET:" ++ as_bytes id))))).

Definition from_hex (s : string) : result string SubnetId :=
  match hex_decode (strip_0x s) with
  | None => Err "Invalid hex string"
  | Some b => ok_or "SubnetId must be 32 bytes" (hash_of_bytes b)
  end.

Definition parse_public_or_hex (value : string) : result SubnetIdParseError SubnetId :=
  if is_blank value then Err EmptySubnetId
  else if bool_decide (value = "ROOT") || bool_decide (value = "root") then Ok SUBNET_ROOT
  else
    let bare := strip_0x value in
    if (String.length bare =? 64)%nat && forallb is_hexdigit (chars bare) then
      match from_hex value with
      | Ok id => Ok id
      | Err e => Err (InvalidHex e)
      | Panic => Panic
      end
    else
      match validate_public_id_grammar value with
      | Ok _ => Ok (from_str_id value)
      | Err e => Err (InvalidGrammar e)
      | Panic => Panic
      end.

Definition to_full_hex (id : SubnetId) : string := show_id id.

Definition canonical_string (id : SubnetId) : string :=
  if bool_decide (id = SUBNET_ROOT) then "ROOT" else to_full_hex id.

(** The type byte is that of the root or of a system subnet. *)
Definition is_system (id : SubnetId) : bool := (HV.byte_at id 0 <=? 1)%Z.
Definition is_app (id : SubnetId) : bool := (HV.byte_at id 0 =? 2)%Z.
End Resolve.
End Subnet.

(** ** Transfers *)

Inductive TransferType := SetuTransfer | TransferPower | TransferTask.

Record AssignedVlc := mkAssignedVlc {
  av_logical_time : Z;
  av_physical_time : Z;
  av_validator_id : string
}.

Record TransferAuthorization := mkAuthorization {
  au_version : Z;
  au_signer : string;
  au_client_nonce : string;
  au_request_digest : HashValue;
  au_scheme : option string;
  au_canonical_message : option string;
  au_signature : option bytes;
  au_public_key : option string;
  au_nostr_pubkey : option bytes
}.

Record TransferReq := mkTransfer {
  tr_id : string;
  tr_from : string;
  tr_to : string;
  tr_amount : Z;
  tr_type : TransferType;
  tr_resources : list string;
  tr_power : Z;
  tr_preferred_solver : option string;
  tr_shard_id : option string;
  tr_subnet_id : option string;
  tr_assigned_vlc : option AssignedVlc;
  tr_authorization : option TransferAuthorization
}.

Module Tr.
Definition authorization_new (signer nonce : string) (digest : HashValue) : TransferAuthorization :=
  mkAuthorization 2 signer nonce digest None None None None None.

Definition new (id from to : string) (amount : Z) : TransferReq :=
  mkTransfer id from to amount SetuTransfer [] 0 None None None None None.

Definition with_assigned_vlc (v : AssignedVlc) (t : TransferReq) : TransferReq :=
  mkTransfer (tr_id t) (tr_from t) (tr_to t) (tr_amount t) (tr_type t) (tr_resources t) (tr_power t)
    (tr_preferred_solver t) (tr_shard_id t) (tr_subnet_id t) (Some v) (tr_authorization t).

Definition with_authorization (a : TransferAuthorization) (t : TransferReq) : TransferReq :=
  mkTransfer (tr_id t) (tr_from t) (tr_to t) (tr_amount t) (tr_type t) (tr_resources t) (tr_power t)
    (tr_preferred_solver t) (tr_shard_id t) (tr_subnet_id t) (tr_assigned_vlc t) (Some a).

Definition resolve_subnet_id `{Blake3} `{HexCrate} (t : TransferReq)
    : result SubnetIdParseError SubnetId :=
  match tr_subnet_id t with
  | None => Ok SUBNET_ROOT
  | Some s => Subnet.parse_public_or_hex s
  end.
End Tr.

(** ** Payloads

    The payloads that tasks carry; the others are kept as bytes. *)

Record MoveCallPayload := mkMoveCall {
  mc_sender : string;
  mc_package : string;
  mc_module : string;
  mc_function : string;
  mc_type_args : list string;
  mc_args : list bytes;
  mc_input_object_ids : list ObjectId;
  mc_shared_object_ids : list ObjectId;
  mc_mutable_indices : option (list nat);
  mc_consumed_indices : option (list nat);
  mc_needs_tx_context : bool;
  mc_dynamic_field_accesses : bytes
}.

Record MovePtbPayload := mkMovePtb { mp_sender : string; mp_ptb : bytes }.

Inductive EventPayload :=
| PayloadNone
| PayloadGenesis (b : bytes)
| PayloadTransfer (t : TransferReq)
| PayloadValidatorRegister (b : bytes)
| PayloadValidatorUnregister (b : bytes)
| PayloadSolverRegister (b : bytes)
| PayloadSolverUnregister (b : bytes)
| PayloadSubnetRegister (b : bytes)
| PayloadUserRegister (b : bytes)
| PayloadPowerConsume (b : bytes)
| PayloadTaskSubmit (b : bytes)
| PayloadAgentChat (agent_id message : string)
| PayloadRelationship (from to relation_type : string)
| PayloadContractCall (target : string) (args : list bytes)
| PayloadContractPublish (modules : list bytes)
| PayloadCoinMerge (target_coin_id : string) (source_coin_ids : list string)
| PayloadCoinSplit (source_coin_id : string) (amounts : list Z)
| PayloadCoinMergeThenTransfer (target_coin_id : string) (source_coin_ids : list string)
    (recipient : string) (amount : Z)
| PayloadGovernance (b : bytes)
| PayloadMoveCall (p : MoveCallPayload)
| PayloadMovePublish (b : bytes)
| PayloadMovePtb (p : MovePtbPayload)
| PayloadMoveUpgrade (b : bytes).

Record TaskEvent := mkTaskEvent {
  te_event : Event;
  te_transfer : option TransferReq;
  te_payload : EventPayload
}.

Module TE.
Definition id (e : TaskEvent) : EventId := ev_id (te_event e).
Definition ts (e : TaskEvent) : Z := timestamp (te_event e).

Definition with_transfer (t : TransferReq) (e : TaskEvent) : TaskEvent :=
  mkTaskEvent (te_event e) (Some t) (PayloadTransfer t).
Definition with_payload (p : EventPayload) (e : TaskEvent) : TaskEvent :=
  mkTaskEvent (te_event e) (te_transfer e) p.
Definition with_subnet (sn : SubnetId) (e : TaskEvent) : TaskEvent :=
  mkTaskEvent (Event.with_subnet (te_event e) sn) (te_transfer e) (te_payload e).
Definition set_execution_result (r : ExecutionResult) (e : TaskEvent) : TaskEvent :=
  mkTaskEvent (Event.set_execution_result (te_event e) r) (te_transfer e) (te_payload e).
Definition set_status (s : EventStatus) (e : TaskEvent) : TaskEvent :=
  mkTaskEvent (Event.set_status (te_event e) s) (te_transfer e) (te_payload e).

(** [Event::new], with the payload [None]. *)
Definition new `{Blake3} `{HexCrate} (t : EventType) (parents : list EventId) (vlc : VLCSnapshot)
    (creator : string) (now : Z) : TaskEvent :=
  mkTaskEvent (event_new t parents vlc creator now) None PayloadNone.

(** [Event::genesis_event_id]. *)
Definition genesis_event_id `{Blake3} `{HexCrate} : EventId :=
  compute_id [] (mkVLCSnapshot VC.new 0 0) "genesis" 0.
End TE.

(** ** Keys of objects *)

Definition object_key `{HexCrate} (id : ObjectId) : string := ("oid:" +:+ hex_encode (hv_bytes id)).

(** ** Gas *)

Record GasBudget := mkGasBudget {
  max_gas_units : Z;
  gas_price : option Z;
  estimated_fee : Z
}.

Record GasUsage := mkGasUsage { gas_used : Z; fee_charged : Z }.

Definition saturating_mul64 (a b : Z) : Z := Z.min u64_max (a * b).

Module Gas.
Definition budget_default : GasBudget := mkGasBudget u64_max None 0.
Definition budget (units price : Z) : GasBudget :=
  mkGasBudget units (Some price) (saturating_mul64 units price).
Definition usage (used : Z) (price : option Z) : GasUsage :=
  mkGasUsage used (saturating_mul64 used (default 0%Z price)).
End Gas.

(** ** Attestations *)

Record AttestationData := mkAttestationData {
  ad_task_id : HashValue;
  ad_input_hash : HashValue;
  ad_pre_state_root : HashValue;
  ad_post_state_root : HashValue
}.

Inductive AttestationType := Mock | AwsNitro | IntelSgx | AmdSev.

#[global] Instance AttestationType_eq_dec : EqDecision AttestationType.
Proof. solve_decision. Defined.

Record Attestation := mkAttestation {
  attestation_type : AttestationType;
  measurement : HashValue;
  user_data : HashValue;
  attestation_data : option AttestationData;
  document : bytes;
  at_timestamp : Z;
  at_solver_id : option string;
  enclave_id : string;
  task_id_binding : HashValue;
  at_input_hash : HashValue;
  at_pre_state_root : HashValue;
  at_post_state_root : HashValue;
  at_signature : bytes
}.

Module Att.
Section Att.
Context `{Sha256}.

(** The bytes hashed by [to_user_data]. *)
Definition data_preimage (d : AttestationData) : bytes :=
  hv_bytes (ad_task_id d) ++ hv_bytes (ad_input_hash d) ++ hv_bytes (ad_pre_state_root d)
    ++ hv_bytes (ad_post_state_root d).

Definition to_user_data (d : AttestationData) : HashValue := sha256 (data_preimage d).

Definition data_verify (d : AttestationData) (user_data : HashValue) : bool :=
  bool_decide (to_user_data d = user_data).

Definition type_name (t : AttestationType) : string :=
  match t with
  | Mock => "Mock"
  | AwsNitro => "AwsNitro"
  | IntelSgx => "IntelSgx"
  | AmdSev => "AmdSev"
  end.

Definition type_byte (t : AttestationType) : byte :=
  match t with
  | Mock => Byte.x00
  | AwsNitro => Byte.x01
  | IntelSgx => Byte.x02
  | AmdSev => Byte.x03
  end.

(** [now] is the wall clock in seconds. *)
Definition new (t : AttestationType) (m user_data : HashValue) (doc : bytes) (now : Z) : Attestation :=
  mkAttestation t m user_data None doc now None (type_name t) zero_hash zero_hash zero_hash
    zero_hash doc.

Definition from_data (t : AttestationType) (m : HashValue) (d : AttestationData) (doc : bytes) (now : Z)
    : Attestation :=
  mkAttestation t m (to_user_data d) (Some d) doc now None (type_name t) (ad_task_id d)
    (ad_input_hash d) (ad_pre_state_root d) (ad_post_state_root d) doc.

Definition mock_measurement : HashValue := sha256 (as_bytes "mock_enclave_v1").
Definition mock_document : bytes := as_bytes "MOCK_ATTESTATION_DOCUMENT".

Definition mock (user_data : HashValue) (now : Z) : Attestation :=
  new Mock mock_measurement user_data mock_document now.

Definition mock_with_data (d : AttestationData) (now : Z) : Attestation :=
  from_data Mock mock_measurement d mock_document now.

Definition with_solver_id (s : string) (a : Attestation) : Attestation :=
  mkAttestation (attestation_type a) (measurement a) (user_data a) (attestation_data a) (document a)
    (at_timestamp a) (Some s) (enclave_id a) (task_id_binding a) (at_input_hash a)
    (at_pre_state_root a) (at_post_state_root a) (at_signature a).

Definition is_mock (a : Attestation) : bool := bool_decide (attestation_type a = Mock).

Definition verify_data (a : Attestation) : bool :=
  match attestation_data a with
  | Some d => data_verify d (user_data a)
  | None => false
  end.

Definition task_id (a : Attestation) : option HashValue := ad_task_id <$> attestation_data a.

Definition hash (a : Attestation) : HashValue :=
  sha256 (type_byte (attestation_type a) :: hv_bytes (measurement a) ++ hv_bytes (user_data a)
            ++ to_le_bytes 8 (at_timestamp a)).
End Att.
End Att.

(** ** Tasks *)

Inductive OperationType :=
| NoOp
| OpTransfer (from_coin_index : nat) (amount : Z)
| OpMergeCoins (target_index : nat) (source_indices : list nat)
| OpSplitCoin (source_index : nat) (amounts : list Z)
| OpMergeThenTransfer (target_index : nat) (source_indices : list nat) (recipient : Address) (amount : Z)
| OpMoveCall (package module_name function_name : string) (type_args : list string)
    (pure_args : list bytes) (mutable_indices consumed_indices : list nat)
| OpMovePublish (modules : list bytes)
| OpProgrammableTransaction (ptb : bytes).

Record ResolvedObject := mkResolvedObject {
  ro_object_id : ObjectId;
  ro_object_type : string;
  ro_expected_version : Z
}.

(** A resolved dynamic field is read by the Move VM only. *)
Record ResolvedInputs := mkResolvedInputs {
  operation : OperationType;
  ri_input_objects : list ResolvedObject;
  dynamic_fields : list bytes
}.

Record ReadSetEntry := mkReadSetEntry {
  rs_key : string;
  rs_value : bytes;
  rs_proof : option bytes
}.

Record SolverTask := mkSolverTask {
  st_task_id : HashValue;
  st_event : TaskEvent;
  st_resolved_inputs : ResolvedInputs;
  st_read_set : list ReadSetEntry;
  st_pre_state_root : HashValue;
  st_subnet_id : SubnetId;
  st_gas_budget : GasBudget;
  st_module_read_set : list ReadSetEntry
}.

Module RI.
Definition new : ResolvedInputs := mkResolvedInputs NoOp [] [].

Definition transfer (coin : ResolvedObject) (amount : Z) : ResolvedInputs :=
  mkResolvedInputs (OpTransfer 0 amount) [coin] [].

Definition merge_coins (target : ResolvedObject) (sources : list ResolvedObject) : ResolvedInputs :=
  mkResolvedInputs (OpMergeCoins 0 (seq 1 (length sources))) (target :: sources) [].

Definition split_coin (source : ResolvedObject) (amounts : list Z) : ResolvedInputs :=
  mkResolvedInputs (OpSplitCoin 0 amounts) [source] [].

Definition merge_then_transfer (target : ResolvedObject) (sources : list ResolvedObject)
    (recipient : Address) (amount : Z) : ResolvedInputs :=
  mkResolvedInputs (OpMergeThenTransfer 0 (seq 1 (length sources)) recipient amount)
    (target :: sources) [].

Definition move_call (package module_name function_name : string) (type_args : list string)
    (pure_args : list bytes) (objs : list ResolvedObject) (mutable_indices consumed_indices : list nat)
    : ResolvedInputs :=
  mkResolvedInputs
    (OpMoveCall package module_name function_name type_args pure_args mutable_indices consumed_indices)
    objs [].

Definition primary_coin (r : ResolvedInputs) : option ResolvedObject :=
  match operation r with
  | OpTransfer i _ | OpMergeCoins i _ | OpSplitCoin i _ | OpMergeThenTransfer i _ _ _ =>
      ri_input_objects r !! i
  | _ => None
  end.
End RI.

Module RS.
Definition new (key : string) (value : bytes) : ReadSetEntry := mkReadSetEntry key value None.
Definition with_proof (proof : bytes) (e : ReadSetEntry) : ReadSetEntry :=
  mkReadSetEntry (rs_key e) (rs_value e) (Some proof).
End RS.

Module ST.
Section ST.
Context `{Blake3}.

Definition new (task_id : HashValue) (event : TaskEvent) (inputs : ResolvedInputs)
    (pre_state_root : HashValue) (subnet : SubnetId) : SolverTask :=
  mkSolverTask task_id event inputs [] pre_state_root subnet Gas.budget_default [].

Definition task_id_preimage (event : TaskEvent) (pre_state_root : HashValue) : bytes :=
  as_bytes "SETU_TASK_ID:" ++ as_bytes (TE.id event) ++ hv_bytes pre_state_root
    ++ to_le_bytes 8 (TE.ts event).

Definition generate_task_id (event : TaskEvent) (pre_state_root : HashValue) : HashValue :=
  blake3 (task_id_preimage event pre_state_root).

Definition with_read_set (rs : list ReadSetEntry) (t : SolverTask) : SolverTask :=
  mkSolverTask (st_task_id t) (st_event t) (st_resolved_inputs t) rs (st_pre_state_root t)
    (st_subnet_id t) (st_gas_budget t) (st_module_read_set t).

Definition with_gas_budget (g : GasBudget) (t : SolverTask) : SolverTask :=
  mkSolverTask (st_task_id t) (st_event t) (st_resolved_inputs t) (st_read_set t)
    (st_pre_state_root t) (st_subnet_id t) g (st_module_read_set t).
End ST.
End ST.

(** ** The commitment to a write set *)

Section Commitment.
Context `{Blake3}.

Definition presence (v : option bytes) : bytes :=
  match v with
  | Some b => Byte.x01 :: b
  | None => [Byte.x00]
  end.

Definition write_set_preimage (changes : list (string * option bytes * option bytes)) : bytes :=
  as_bytes "SETU_WRITE_SET_COMMITMENT:"
    ++ concat ((fun c => (as_bytes c.1.1 ++ presence c.1.2 ++ presence c.2)%list) <$> changes).

Definition compute_write_set_commitment (changes : list (string * option bytes * option bytes))
    : HashValue :=
  blake3 (write_set_preimage changes).
End Commitment.

(** ** The marker of a used nonce *)

Module Nonce.
Section Nonce.
Context `{Blake3} `{HexCrate} `{SerdeJson}.

Definition CLIENT_NONCE_MIN_LEN : nat := 8.
Definition CLIENT_NONCE_MAX_LEN : nat := 128.

Definition nonce_char (c : Ascii.ascii) : bool :=
  Subnet.is_alphanumeric c || existsb (fun n => Subnet.code c =? n)%N [46; 95; 58; 45]%N.

Definition validate_client_nonce (nonce : string) : result string unit :=
  if ((String.length nonce <? CLIENT_NONCE_MIN_LEN) || (CLIENT_NONCE_MAX_LEN <? String.length nonce))%nat then
    Err ("client_nonce length must be " +:+ fmt_u64 (Z.of_nat CLIENT_NONCE_MIN_LEN) +:+ "-"
           +:+ fmt_u64 (Z.of_nat CLIENT_NONCE_MAX_LEN) +:+ " characters")
  else if negb (forallb nonce_char (Subnet.chars nonce)) then
    Err "client_nonce may only contain [A-Za-z0-9._:-]"
  else Ok tt.

Definition request_digest (message : string) : HashValue :=
  blake3 (as_bytes "SETU_TRANSFER_DIGEST_V2:" ++ as_bytes message).

(** Both strings carry their length as a [u16]. *)
Definition nonce_preimage (from nonce : string) : bytes :=
  as_bytes "SETU_USER_TRANSFER_NONCE_V1"
    ++ to_le_bytes 2 (Z.of_nat (String.length from)) ++ as_bytes from
    ++ to_le_bytes 2 (Z.of_nat (String.length nonce)) ++ as_bytes nonce.

Definition nonce_object_id (from nonce : string) : ObjectId := blake3 (nonce_preimage from nonce).

Record UserTransferNonceV1 := mkNonceMarker {
  nm_kind : string;
  nm_from : string;
  nm_client_nonce : string;
  nm_request_digest : string;
  nm_subnet_id : string;
  nm_amount_raw : Z;
  nm_timestamp_ms : Z
}.

Definition marker_new (from nonce : string) (digest : HashValue) (subnet : string) (amount ts : Z)
    : UserTransferNonceV1 :=
  mkNonceMarker "UserTransferNonceV1" from nonce (show_id digest) subnet amount ts.

Definition marker_json (m : UserTransferNonceV1) : json :=
  JObj [("kind", JStr (nm_kind m)); ("from", JStr (nm_from m));
        ("client_nonce", JStr (nm_client_nonce m)); ("request_digest", JStr (nm_request_digest m));
        ("subnet_id", JStr (nm_subnet_id m)); ("amount_raw", JNum (nm_amount_raw m));
        ("timestamp_ms", JNum (nm_timestamp_ms m))].

(** [to_json_bytes]: a printing error would panic. *)
Definition to_json_bytes (m : UserTransferNonceV1) : result string bytes :=
  match json_to_vec (marker_json m) with
  | Some b => Ok b
  | None => Panic
  end.
End Nonce.
End Nonce.
