(* ===== verification/Stf.v ===== *)
(** * The state transition function: its input and output

    [crates/setu-enclave/src/stf.rs] and [traits.rs]; what the solver makes of
    the output ([setu-solver/src/tee.rs], [http_server.rs]) and what the
    validator makes of the solver's answer
    ([build_execution_state_changes] of
    [setu-validator/src/network/tee_executor.rs]). *)

From Stdlib Require Import ZArith Lia Strings.Byte.
From stdpp Require Import base gmap sets list strings numbers pretty.
From S2P Require Import Prelude Hash Vlc Event Coin StateStore Resource StateManager Task.

#[local] Open Scope string_scope.
#[local] Open Scope list_scope.

(** ** Errors *)

Inductive StfError :=
| InvalidPreStateRoot
| ReadSetVerificationFailed (msg : string)
| MerkleProofFailed (object_id reason : string)
| VersionMismatch (expected actual : Z)
| InvalidResolvedInputs (msg : string)
| GasBudgetExceeded (limit used : Z)
| EventExecutionFailed (event_id reason : string)
| StateRootComputationFailed (msg : string)
| AttestationFailed (msg : string)
| ExecutionTimeout
| MemoryLimitExceeded
| InternalError (msg : string)
| StfVMExecutionError (msg : string)
| VMVerificationError (msg : string)
| StfModuleNotFound (module_id : string)
| ObjectTypeMismatch (expected actual : string)
| StfVMNotEnabled.

(** ** The input *)

Record StfInput := mkStfInput {
  si_task_id : HashValue;
  si_subnet_id : SubnetId;
  si_pre_state_root : HashValue;
  si_events : list TaskEvent;
  si_read_set : list ReadSetEntry;
  si_resolved_inputs : ResolvedInputs;
  si_gas_budget : GasBudget;
  si_anchor_id : option Z;
  si_module_read_set : list ReadSetEntry
}.

Module SI.
Definition new (task_id : HashValue) (subnet : SubnetId) (pre_state_root : HashValue)
    (inputs : ResolvedInputs) (budget : GasBudget) : StfInput :=
  mkStfInput task_id subnet pre_state_root [] [] inputs budget None [].

Definition with_events (es : list TaskEvent) (i : StfInput) : StfInput :=
  mkStfInput (si_task_id i) (si_subnet_id i) (si_pre_state_root i) es (si_read_set i)
    (si_resolved_inputs i) (si_gas_budget i) (si_anchor_id i) (si_module_read_set i).

Definition with_read_set (rs : list ReadSetEntry) (i : StfInput) : StfInput :=
  mkStfInput (si_task_id i) (si_subnet_id i) (si_pre_state_root i) (si_events i) rs
    (si_resolved_inputs i) (si_gas_budget i) (si_anchor_id i) (si_module_read_set i).

Definition with_module_read_set (rs : list ReadSetEntry) (i : StfInput) : StfInput :=
  mkStfInput (si_task_id i) (si_subnet_id i) (si_pre_state_root i) (si_events i) (si_read_set i)
    (si_resolved_inputs i) (si_gas_budget i) (si_anchor_id i) rs.

Section Hash.
Context `{Sha256}.

Definition input_preimage (i : StfInput) : bytes :=
  hv_bytes (si_task_id i) ++ hv_bytes (si_subnet_id i) ++ hv_bytes (si_pre_state_root i)
    ++ concat ((fun e => as_bytes (TE.id e)) <$> si_events i)
    ++ concat ((fun r => as_bytes (rs_key r)) <$> si_read_set i)
    ++ to_le_bytes 8 (Z.of_nat (length (ri_input_objects (si_resolved_inputs i)))).

Definition input_hash (i : StfInput) : HashValue := sha256 (input_preimage i).
End Hash.
End SI.

(** ** The state diff *)

Record WriteSetEntry := mkWriteSetEntry {
  ws_key : string;
  ws_old_value : option bytes;
  ws_new_value : bytes
}.

Record StateDiff := mkStateDiff { writes : list WriteSetEntry; sd_deletes : list string }.

Module WS.
Definition new (key : string) (value : bytes) : WriteSetEntry := mkWriteSetEntry key None value.
Definition with_old_value (old : bytes) (e : WriteSetEntry) : WriteSetEntry :=
  mkWriteSetEntry (ws_key e) (Some old) (ws_new_value e).

(** The old value is set when there is one. *)
Definition with_old_opt (old : option bytes) (e : WriteSetEntry) : WriteSetEntry :=
  match old with
  | Some o => with_old_value o e
  | None => e
  end.

Definition from_state_change `{HexCrate} (object_id : ObjectId) (old : option bytes) (new_state : bytes)
    : WriteSetEntry :=
  with_old_opt old (new (object_key object_id) new_state).
End WS.

Module SD.
Definition new : StateDiff := mkStateDiff [] [].
Definition add_write (e : WriteSetEntry) (d : StateDiff) : StateDiff :=
  mkStateDiff (writes d ++ [e]) (sd_deletes d).
Definition add_delete (key : string) (d : StateDiff) : StateDiff :=
  mkStateDiff (writes d) (sd_deletes d ++ [key]).

(** [add_state_changes]: a change without a new state becomes a write of no
    bytes. *)
Definition add_state_changes `{HexCrate} (changes : list RtStateChange) (d : StateDiff) : StateDiff :=
  foldl (fun d c =>
           add_write (WS.from_state_change (rc_object_id c) (old_state c) (default [] (new_state c))) d)
    d changes.

Definition is_empty (d : StateDiff) : bool := bool_decide (writes d = []) && bool_decide (sd_deletes d = []).
Definition len (d : StateDiff) : nat := length (writes d) + length (sd_deletes d).

Definition normalized (d : StateDiff) : list (string * option bytes * option bytes) :=
  ((fun w => (ws_key w, ws_old_value w, Some (ws_new_value w))) <$> writes d)
    ++ ((fun k => (k, None, None)) <$> sd_deletes d).

Definition commitment `{Blake3} (d : StateDiff) : HashValue := compute_write_set_commitment (normalized d).
End SD.

(** ** The output *)

Record FailedEvent := mkFailedEvent { fe_event_id : EventId; fe_reason : string }.

Record ExecutionStats := mkExecutionStats {
  execution_time_us : Z;
  stat_reads : Z;
  stat_writes : Z;
  peak_memory_bytes : Z
}.

Record StfOutput := mkStfOutput {
  so_task_id : HashValue;
  so_subnet_id : SubnetId;
  so_post_state_root : HashValue;
  state_diff : StateDiff;
  events_processed : list EventId;
  events_failed : list FailedEvent;
  gas_usage : GasUsage;
  attestation : Attestation;
  stats : ExecutionStats
}.

(** ** The solver's result *)

Record TeeExecutionResult := mkTeeResult {
  ter_task_id : HashValue;
  ter_subnet_id : SubnetId;
  ter_post_state_root : HashValue;
  ter_state_changes : list StateChange;
  ter_events_processed : nat;
  ter_events_failed : nat;
  failure_reasons : list string;
  ter_gas_usage : GasUsage;
  ter_attestation : Attestation;
  ter_execution_time_us : Z
}.

Record StateChangeDto := mkChangeDto {
  dto_key : string;
  dto_old_value : option bytes;
  dto_new_value : option bytes
}.

Record AttestationDto := mkAttestationDto {
  da_enclave_id : string;
  da_timestamp : Z;
  da_task_id_binding : HashValue;
  da_input_hash : HashValue;
  da_pre_state_root : HashValue;
  da_post_state_root : HashValue;
  da_signature : bytes
}.

Record TeeExecutionResultDto := mkTeeResultDto {
  dr_task_id : HashValue;
  dr_subnet_id : string;
  dr_post_state_root : HashValue;
  dr_state_changes : list StateChangeDto;
  dr_events_processed : nat;
  dr_events_failed : nat;
  dr_gas_used : Z;
  dr_attestation : AttestationDto;
  dr_execution_time_us : Z
}.

Record ExecuteTaskResponse := mkTaskResponse {
  resp_success : bool;
  resp_message : string;
  resp_result : option TeeExecutionResultDto;
  resp_execution_time_us : Z
}.

Module Resp.
Definition success (r : TeeExecutionResultDto) (msg : string) (us : Z) : ExecuteTaskResponse :=
  mkTaskResponse true msg (Some r) us.
Definition error (msg : string) (us : Z) : ExecuteTaskResponse := mkTaskResponse false msg None us.
End Resp.

Module Tee.

(** [s.contains(p)]. *)
Definition contains (p s : string) : bool := bool_decide (is_Some (after_first p s)).

(** [l.join(sep)]. *)
Definition join (sep : string) (l : list string) : string := String.concat sep l.

Definition df_hint (lower : string) : string :=
  if contains "sub status 0" lower then "dynamicfield not preloaded"
  else if contains "sub status 1" lower then "dynamicfield already exists"
  else if contains "sub status 2" lower then "dynamicfield not found"
  else if contains "sub status 3" lower then "dynamicfield type mismatch"
  else if contains "sub status 4" lower then "dynamicfield value has key ability"
  else "dynamicfield error".

Definition annotate_dynamic_field_abort (reason : string) : string :=
  let lower := to_ascii_lowercase reason in
  if negb (contains "dynamic_field" lower) then reason
  else
    let hint := df_hint lower in
    if contains hint lower then reason else (reason +:+ " (" +:+ hint +:+ ")").

Definition diff_changes (d : StateDiff) : list StateChange :=
  ((fun w => mkStateChange (ws_key w) (ws_old_value w) (Some (ws_new_value w)) None) <$> writes d)
    ++ ((fun k => mkStateChange k None None None) <$> sd_deletes d).

Definition from_stf_output (o : StfOutput) : TeeExecutionResult :=
  let reasons :=
    (fun f => (fe_event_id f +:+ ": " +:+ annotate_dynamic_field_abort (fe_reason f))) <$> events_failed o in
  mkTeeResult (so_task_id o) (so_subnet_id o) (so_post_state_root o) (diff_changes (state_diff o))
    (length (events_processed o)) (length reasons) reasons (gas_usage o) (attestation o)
    (execution_time_us (stats o)).

Definition fmt_nat (n : nat) : string := fmt_u64 (Z.of_nat n).

Definition to_execution_result (r : TeeExecutionResult) : ExecutionResult :=
  let total := fmt_nat (ter_events_processed r + ter_events_failed r) in
  mkExecutionResult (ter_events_failed r =? 0)%nat
    (Some (if (ter_events_failed r =? 0)%nat then
             ("Processed " +:+ fmt_nat (ter_events_processed r) +:+ " events in "
                +:+ fmt_u64 (ter_execution_time_us r) +:+ "μs")
           else if bool_decide (failure_reasons r = []) then
             (fmt_nat (ter_events_failed r) +:+ " events failed out of " +:+ total)
           else
             (fmt_nat (ter_events_failed r) +:+ " events failed out of " +:+ total +:+ ": "
                +:+ join "; " (failure_reasons r))))
    (ter_state_changes r).

Definition is_success (r : TeeExecutionResult) : bool := (ter_events_failed r =? 0)%nat.

(** The pass-through from a task to the input of the enclave. *)
Definition stf_input (t : SolverTask) : StfInput :=
  SI.with_module_read_set (st_module_read_set t)
    (SI.with_read_set (st_read_set t)
       (SI.with_events [st_event t]
          (SI.new (st_task_id t) (st_subnet_id t) (st_pre_state_root t) (st_resolved_inputs t)
             (st_gas_budget t)))).

Definition execution_message (r : TeeExecutionResult) : string :=
  let head := ("Task executed: " +:+ fmt_nat (ter_events_processed r) +:+ " events processed, "
                 +:+ fmt_nat (ter_events_failed r) +:+ " failed") in
  if (ter_events_failed r =? 0)%nat || bool_decide (failure_reasons r = []) then head
  else (head +:+ ": " +:+ join "; " (failure_reasons r)).

(** [Display] of a subnet id: its first eight bytes. *)
Definition subnet_display `{HexCrate} (s : SubnetId) : string := ("0x" +:+ hex_encode (take 8 (hv_bytes s))).

Definition convert_to_dto `{HexCrate} (r : TeeExecutionResult) : TeeExecutionResultDto :=
  let a := ter_attestation r in
  mkTeeResultDto (ter_task_id r) (subnet_display (ter_subnet_id r)) (ter_post_state_root r)
    ((fun c => mkChangeDto (sc_key c) (old_value c) (new_value c)) <$> ter_state_changes r)
    (ter_events_processed r) (ter_events_failed r) (gas_used (ter_gas_usage r))
    (mkAttestationDto (enclave_id a) (at_timestamp a) (task_id_binding a) (at_input_hash a)
       (at_pre_state_root a) (at_post_state_root a) (at_signature a))
    (ter_execution_time_us r).
End Tee.

(** ** The validator's reading of a result *)

Module TX.
Section TX.
Context `{Blake3} `{HexCrate} `{SerdeJson}.
#[local] Open Scope setu_scope.

(** The change that creates the marker of an authorized transfer. *)
Definition nonce_marker_change (auth : TransferAuthorization) (task_subnet : SubnetId) (amount ts : Z)
    : result string StateChange :=
  let? value := Nonce.to_json_bytes
    (Nonce.marker_new (au_signer auth) (au_client_nonce auth) (au_request_digest auth)
       (Subnet.canonical_string task_subnet) amount ts) in
  Ok (mkStateChange (object_key (Nonce.nonce_object_id (au_signer auth) (au_client_nonce auth)))
        None (Some value) (Some SUBNET_ROOT)).

Definition build_execution_state_changes (dto : list StateChangeDto) (task_subnet : SubnetId)
    (event : TaskEvent) : result string (list StateChange) :=
  let changes :=
    (fun c => mkStateChange (dto_key c) (dto_old_value c) (dto_new_value c) (Some task_subnet)) <$> dto in
  match te_payload event with
  | PayloadTransfer t =>
      match tr_authorization t with
      | Some auth =>
          let? marker := nonce_marker_change auth task_subnet (tr_amount t) (TE.ts event) in
          Ok (changes ++ [marker])
      | None => Ok changes
      end
  | _ => Ok changes
  end.

Definition solver_execution_message (processed failed : nat) (us : Z) (solver_message suffix : string)
    : string :=
  let head := ("TEE executed: " +:+ Tee.fmt_nat processed +:+ " events in " +:+ fmt_u64 us +:+ "μs"
                 +:+ suffix) in
  if (failed =? 0)%nat then head
  else if negb (Subnet.is_blank solver_message) then solver_message
  else (head +:+ " (" +:+ Tee.fmt_nat failed +:+ " failed)").

(** The event with the execution result of a DTO, as each of the five callers
    builds it; its status is [Executed] whatever the result. *)
Definition executed_event (dto : TeeExecutionResultDto) (message suffix : string)
    (task_subnet : SubnetId) (event : TaskEvent) : result string TaskEvent :=
  let? changes := build_execution_state_changes (dr_state_changes dto) task_subnet event in
  let res :=
    mkExecutionResult (dr_events_failed dto =? 0)%nat
      (Some (solver_execution_message (dr_events_processed dto) (dr_events_failed dto)
               (dr_execution_time_us dto) message suffix))
      changes in
  Ok (TE.set_status Executed (TE.set_execution_result res event)).
End TX.
End TX.
