(* ===== verification/Enclave.v ===== *)
(** * The mock enclave

    [crates/setu-enclave/src/mock/mod.rs]: the execution of a task's events by
    the runtime executor over a store built from the task's read set.  The Move
    virtual machine is a parameter; what the enclave checks before it calls it
    and does with its answer is modelled.

    Tasks of one enclave run concurrently and share the map of processed events
    and, for a task without a read set, the store.  [others] is what the other
    tasks do to the map before this task locks it.  [elapsed] is the time since
    the start, in milliseconds, at each event. *)

From Stdlib Require Import ZArith Lia Strings.Byte Sorting.Sorted.
From stdpp Require Import base gmap sets list sorting strings numbers.
From S2P Require Import Prelude Hash Vlc Event Coin StateStore Resource Executor StateManager Task Stf.

#[local] Open Scope string_scope.
#[local] Open Scope list_scope.
#[local] Open Scope setu_scope.

(** ** Errors as text

    [Display] of [RuntimeError]; the text of a serialization error is that of
    [serde_json] and is left out. *)
Definition show_runtime_error `{HexCrate} (e : RuntimeError) : string :=
  match e with
  | ObjectNotFound id => ("Object not found: " +:+ show_id id)
  | InsufficientBalance a r v =>
      ("Insufficient balance for " +:+ a +:+ ": required " +:+ fmt_u64 r +:+ ", available " +:+ fmt_u64 v)
  | InvalidOwnership id a =>
      ("Invalid ownership: object " +:+ show_id id +:+ " is not owned by " +:+ a)
  | InvalidAddress s => ("Invalid address: " +:+ s)
  | InvalidTransaction s => ("Invalid transaction: " +:+ s)
  | StateError s => ("State error: " +:+ s)
  | SerializationError => "Serialization error: "
  | AccountFrozen s => ("Account frozen: " +:+ s)
  | Unknown s => ("Unknown error: " +:+ s)
  | VMNotEnabled => "Move VM is not enabled"
  | VMInitError s => ("Move VM initialization error: " +:+ s)
  | VMExecutionError s => ("Move VM execution error: " +:+ s)
  | PtbArgumentOutOfBounds s => ("PTB argument out of bounds: " +:+ s)
  | PtbArgumentAlreadyConsumed s => ("PTB argument already consumed: " +:+ s)
  | PtbInvalidCoinLayout s => ("PTB invalid coin layout: " +:+ s)
  | PtbUnsupportedTransferType s => ("PTB unsupported transfer type (B6b is Coin-only): " +:+ s)
  | PtbInvalidTypeTag s => ("PTB invalid type tag: " +:+ s)
  | OutOfGas used => ("PTB out of gas: used " +:+ fmt_u64 used)
  end.

(** ** The Move virtual machine *)

Record InputObject := mkInputObject {
  io_id : ObjectId;
  io_owner : Address;
  io_ownership : Ownership;
  io_version : Z;
  io_envelope_bytes : bytes;
  io_move_data : bytes;
  io_type_tag : string
}.

Record MoveExecutionContext := mkMoveCtx {
  mx_tx_hash : HashValue;
  mx_sender : Address;
  mx_gas_budget : Z;
  mx_current_version : Z;
  mx_epoch : Z;
  mx_needs_tx_context : bool;
  mx_epoch_timestamp_ms : Z
}.

Record ModuleId := mkModuleId { mod_address : Address; mod_name : string }.

Inductive ModuleChange :=
| ModPublish (id : ModuleId) (bytecode : bytes)
| ModPublishWithLinkage (id : ModuleId) (bytecode : bytes) (family_id : ObjectId)
    (package_addr : Address) (version : Z)
| ModUpgrade (id : ModuleId) (bytecode : bytes) (family_id : ObjectId) (prev_package : ObjectId)
    (new_package_addr : Address) (new_version : Z).

Record MoveStateChange := mkMoveChange {
  mv_object_id : ObjectId;
  mv_old_state : option bytes;
  mv_new_state : option bytes
}.

Record MoveExecutionOutput := mkMoveOutput {
  mo_success : bool;
  mo_state_changes : list MoveStateChange;
  mo_module_changes : list ModuleChange;
  mo_error : option string
}.

(** The engine: whether the feature [move-vm] is compiled in and the engine was
    initialized; the parsing of a type tag and of the
    called function with its type arguments; the encoding of envelopes, of
    linkage entries and of addresses; execution. *)
Class MoveVm := {
  vm_feature : bool;
  vm_enabled : bool;
  vm_struct_tag : string → result string string;
  vm_target : MoveCallPayload → result string bytes;
  vm_envelope_bytes : ObjectEnvelope → bytes;
  vm_linkage_bytes : Address → Z → bytes;
  vm_hex_literal : Address → string;
  vm_execute : InMemoryObjectStore → list InputObject → list bytes → bytes → list bytes →
    MoveExecutionContext → list (nat * ObjectId) → result string MoveExecutionOutput;
  vm_execute_ptb : InMemoryObjectStore → bytes → list InputObject → list bytes →
    MoveExecutionContext → result string MoveExecutionOutput
}.

(** [serde_json::from_slice] at the three types of resource objects. *)
Class ResourceJson := {
  power_of_json : bytes → option PowerState;
  flux_of_json : bytes → option FluxState;
  params_of_json : bytes → option ResourceParams
}.

(** ** Module changes *)

Record LinkageWrite := mkLinkageWrite {
  latest_key : string;
  hist_key : string;
  latest : bytes;
  old_latest : option bytes
}.

Module Linkage.

(** A map ordered by family and version, as the [BTreeMap]. *)
Definition lkey : Type := string * Z.
Definition key_leb (a b : lkey) : bool :=
  if bool_decide (a.1 = b.1) then (a.2 <=? b.2)%Z else HV.bytes_leb (as_bytes a.1) (as_bytes b.1).

(** The first write of a family and version is kept. *)
Fixpoint insert (k : lkey) (w : LinkageWrite) (l : list (lkey * LinkageWrite)) : list (lkey * LinkageWrite) :=
  match l with
  | [] => [(k, w)]
  | (k', w') :: rest =>
      if bool_decide (k = k') then l
      else if key_leb k k' then (k, w) :: l else (k', w') :: insert k w rest
  end.

(** [format!("{v:020}")]. *)
Definition pad20 (v : Z) : string :=
  let s := fmt_u64 v in String.string_of_list_ascii (replicate (20 - String.length s) (Ascii.ascii_of_N 48)) +:+ s.

Section Linkage.
Context `{HexCrate} `{MoveVm}.

Definition module_write (id : ModuleId) (bytecode : bytes) : WriteSetEntry :=
  WS.new ("mod:" +:+ vm_hex_literal (mod_address id) +:+ "::" +:+ mod_name id) bytecode.

Definition linkage_write (family : ObjectId) (addr : Address) (version : Z) (old : option bytes)
    : lkey * LinkageWrite :=
  let hex := hex_encode (hv_bytes family) in
  ((hex, version),
   mkLinkageWrite ("linkage:latest:" +:+ hex) ("linkage:hist:" +:+ hex +:+ ":" +:+ pad20 version)
     (vm_linkage_bytes addr version) old).

Definition change_step (st : StateDiff * list (lkey * LinkageWrite)) (mc : ModuleChange)
    : StateDiff * list (lkey * LinkageWrite) :=
  let '(d, l) := st in
  match mc with
  | ModPublish id b => (SD.add_write (module_write id b) d, l)
  | ModPublishWithLinkage id b family addr version =>
      let '(k, w) := linkage_write family addr version None in
      (SD.add_write (module_write id b) d, insert k w l)
  | ModUpgrade id b family prev addr version =>
      let '(k, w) :=
        linkage_write family addr version
          (Some (vm_linkage_bytes prev (saturating_sub version 1))) in
      (SD.add_write (module_write id b) d, insert k w l)
  end.

Definition write_linkage (d : StateDiff) (kw : lkey * LinkageWrite) : StateDiff :=
  let w := kw.2 in
  SD.add_write (WS.new (hist_key w) (latest w))
    (SD.add_write (WS.with_old_opt (old_latest w) (WS.new (latest_key w) (latest w))) d).

Definition apply_module_changes_to_diff (changes : list ModuleChange) (d : StateDiff) : StateDiff :=
  let '(d', l) := foldl change_step (d, []) changes in
  foldl write_linkage d' l.
End Linkage.
End Linkage.

(** ** The enclave *)

Record EnclaveConfig := mkEnclaveConfig {
  ec_enclave_id : string;
  ec_solver_id : string;
  max_execution_time_ms : Z;
  max_memory_bytes : Z;
  enable_debug_logging : bool
}.

Abbreviation Legacy := (gmap string bytes).

(** Entries in the order of their keys. *)
Definition entry_le (a b : string * bytes) : Prop := str_le a.1 b.1.

#[global] Instance entry_le_dec : RelDecision entry_le.
Proof. intros a b. unfold entry_le, str_le. apply _. Defined.

Record MockEnclave := mkMockEnclave {
  me_config : EnclaveConfig;
  me_runtime : InMemoryStateStore;
  legacy_state : Legacy;
  execution_count : Z
}.

(** What the execution of one event works on; the counter is that of its
    execution context. *)
Record EvState (St : Type) := mkEvState {
  es_legacy : Legacy;
  es_diff : StateDiff;
  es_store : St;
  es_counter : Z
}.
Arguments mkEvState {St}.
Arguments es_legacy {St} _.
Arguments es_diff {St} _.
Arguments es_store {St} _.
Arguments es_counter {St} _.

Module ME.
Section ME.
Context `{Blake3} `{Bcs} `{StateBcs} `{HexCrate} `{SerdeJson} `{Sha256} `{MoveVm} `{ResourceJson}.

Definition new (c : EnclaveConfig) : MockEnclave := mkMockEnclave c Mem.new ∅ 0.

Definition derive_tx_hash (event_id : EventId) : HashValue :=
  blake3 (as_bytes "SETU_TX_HASH:" ++ as_bytes event_id).

Definition context (solver_id : string) (event : TaskEvent) : ExecutionContext :=
  mkExecutionContext solver_id (TE.ts event) false (derive_tx_hash (TE.id event)) None.

(** *** The store of a task *)

(** One entry of the read set; [None] skips it. *)
Definition load_entry (entry : ReadSetEntry) : result StfError (option (ObjectId * ObjectEnvelope)) :=
  let coin_state (object_id : ObjectId) (hex_id : string) :=
    match bcs_coin_state_de (rs_value entry) with
    | Some cs => Ok (Some (object_id, from_legacy_coin_state object_id cs))
    | None => Err (InvalidResolvedInputs ("Failed to deserialize CoinState " +:+ hex_id))
    end in
  let object_id (hex_id : string) :=
    match object_id_from_hex hex_id with
    | Ok id => Ok id
    | Err e => Err (InvalidResolvedInputs ("Invalid object ID: " +:+ e))
    | Panic => Panic
    end in
  match strip_prefix "oid:" (rs_key entry) with
  | Some hex_id =>
      let? id := object_id hex_id in
      match rs_value entry with
      | [] => Ok None
      | b0 :: rest =>
          let is_envelope :=
            match rest with
            | b1 :: _ => ((Z.of_N (Byte.to_N b0) + 256 * Z.of_N (Byte.to_N b1)) =? ENVELOPE_MAGIC)%Z
            | [] => false
            end in
          if is_envelope then
            match bcs_envelope_de (rs_value entry) with
            | Some env => Ok (Some (id, env))
            | None => Err (InvalidResolvedInputs ("Failed to deserialize ObjectEnvelope " +:+ hex_id))
            end
          else if bool_decide (b0 = Byte.x7b) then Ok None
          else coin_state id hex_id
      end
  | None =>
      match strip_prefix "coin:" (rs_key entry) with
      | Some hex_id => let? id := object_id hex_id in coin_state id hex_id
      | None => Err (InvalidResolvedInputs ("Unknown read_set key format: " +:+ rs_key entry))
      end
  end.

Fixpoint load_entries (entries : list ReadSetEntry) (s : InMemoryObjectStore)
    : result StfError InMemoryObjectStore :=
  match entries with
  | [] => Ok s
  | e :: rest =>
      let? o := load_entry e in
      load_entries rest (match o with Some (id, env) => OS.set_envelope id env s | None => s end)
  end.

Definition module_key (key : string) : bool :=
  starts_with key "mod:" || starts_with key "linkage:latest:" || starts_with key "linkage:hist:".

Definition build_object_store_from_read_set (read_set module_read_set : list ReadSetEntry)
    : result StfError InMemoryObjectStore :=
  let? s := load_entries read_set OS.new in
  Ok (foldl (fun s e => if module_key (rs_key e) then OS.set_raw (rs_key e) (rs_value e) s else s)
        s module_read_set).

(** *** Resources *)

(** The last entries under the keys of Power and Flux that decode. *)
Definition extract_power_flux (read_set : list ReadSetEntry) (sender : string)
    : option PowerState * option FluxState :=
  let power_key := object_key (power_state_object_id sender) in
  let flux_key := object_key (flux_state_object_id sender) in
  foldl (fun acc e =>
           if bool_decide (rs_key e = power_key) then
             (match power_of_json (rs_value e) with Some p => Some p | None => acc.1 end, acc.2)
           else if bool_decide (rs_key e = flux_key) then
             (acc.1, match flux_of_json (rs_value e) with Some f => Some f | None => acc.2 end)
           else acc) (None, None) read_set.

Fixpoint extract_resource_params (read_set : list ReadSetEntry) : ResourceParams :=
  match read_set with
  | [] => params_default
  | e :: rest =>
      if bool_decide (rs_key e = object_key resource_params_object_id) then
        match params_of_json (rs_value e) with
        | Some rp => rp
        | None => extract_resource_params rest
        end
      else extract_resource_params rest
  end.

(** *** One event *)

Section Event.
Context {St : Type} `{!StateStore St} (solver_id : string) (others : Legacy → Legacy).

Abbreviation ev := (stm (EvState St) string).

(** A call of the runtime, its error as text. *)
Definition rt {A} (prefix : string) (m : Exec.exec (St := St) A) : ev A := fun s =>
  let '((st, n), r) := m (es_store s, es_counter s) in
  (mkEvState (es_legacy s) (es_diff s) st n,
   match r with
   | Ok a => Ok a
   | Err e => Err (prefix +:+ show_runtime_error e)
   | Panic => Panic
   end).

Definition new_context : ev unit := fun s =>
  (mkEvState (es_legacy s) (es_diff s) (es_store s) 0, Ok tt).

Definition on_diff (f : StateDiff → StateDiff) : ev unit := fun s =>
  (mkEvState (es_legacy s) (f (es_diff s)) (es_store s) (es_counter s), Ok tt).

Definition record_event_processed (event : TaskEvent) : ev unit := fun s =>
  let legacy := others (es_legacy s) in
  let key := ("event:" +:+ TE.id event) in
  let value := as_bytes ("processed:" +:+ TE.id event) in
  (mkEvState (<[key := value]> legacy)
     (SD.add_write (WS.with_old_opt (legacy !! key) (WS.new key value)) (es_diff s))
     (es_store s) (es_counter s), Ok tt).

(** [if !output.success { return Err(message) }]. *)
Definition require_success (o : ExecutionOutput) (fallback : string) : ev unit :=
  if success o then sret tt else sfail (default fallback (message o)).

Definition execute_transfer_with_local_runtime (event : TaskEvent) (t : TransferReq)
    (inputs : ResolvedInputs) : ev unit :=
  let ctx := context solver_id event in
  let! _ := new_context in
  match RI.primary_coin inputs with
  | None => sfail "Missing resolved_inputs.primary_coin - TaskPreparer error"
  | Some coin =>
      let! output := rt "Runtime error: "
        (Exec.execute_transfer_with_coin (ro_object_id coin) (tr_from t) (tr_to t) (Some (tr_amount t)) ctx) in
      let! _ := require_success output "Transfer failed" in
      let! _ := on_diff (SD.add_state_changes (out_changes output)) in
      record_event_processed event
  end.

(** [inputs.input_objects[i].object_id]. *)
Definition object_at (inputs : ResolvedInputs) (i : nat) : ev ObjectId :=
  slift (match ri_input_objects inputs !! i with Some o => Ok (ro_object_id o) | None => Panic end).

Fixpoint objects_at (inputs : ResolvedInputs) (idxs : list nat) : ev (list ObjectId) :=
  match idxs with
  | [] => sret []
  | i :: rest =>
      let! id := object_at inputs i in
      let! ids := objects_at inputs rest in
      sret (id :: ids)
  end.

(** The owner of the coin an operation starts from. *)
Definition coin_owner_of (what : string) (id : ObjectId) : ev Address := fun s =>
  (s, match get_object (es_store s) id with
      | Ok (Some c) => ok_or (what +:+ " coin has no owner") (coin_owner c)
      | Ok None => Err (what +:+ " coin " +:+ show_id id +:+ " not found")
      | Err e => Err ("Failed to read " +:+ to_ascii_lowercase what +:+ " coin: " +:+ show_runtime_error e)
      | Panic => Panic
      end).

Definition execute_merge (event : TaskEvent) (inputs : ResolvedInputs) : ev unit :=
  let ctx := context solver_id event in
  let! _ := new_context in
  match operation inputs with
  | OpMergeCoins target sources =>
      let! target_id := object_at inputs target in
      let! source_ids := objects_at inputs sources in
      let! owner := coin_owner_of "Target" target_id in
      let! output := rt "Runtime merge error: " (Exec.execute_merge_coins owner target_id source_ids ctx) in
      let! _ := require_success output "Merge failed" in
      let! _ := on_diff (SD.add_state_changes (out_changes output)) in
      record_event_processed event
  | _ => sfail "CoinMerge payload but operation is not MergeCoins"
  end.

Definition execute_split (event : TaskEvent) (inputs : ResolvedInputs) : ev unit :=
  let ctx := context solver_id event in
  let! _ := new_context in
  match operation inputs with
  | OpSplitCoin source amounts =>
      let! source_id := object_at inputs source in
      let! owner := coin_owner_of "Source" source_id in
      let! output := rt "Runtime split error: " (Exec.execute_split_coin owner source_id amounts ctx) in
      let! _ := require_success output "Split failed" in
      let! _ := on_diff (SD.add_state_changes (out_changes output)) in
      record_event_processed event
  | _ => sfail "CoinSplit payload but operation is not SplitCoin"
  end.

Definition execute_merge_then_transfer (event : TaskEvent) (inputs : ResolvedInputs) : ev unit :=
  let ctx := context solver_id event in
  let! _ := new_context in
  match operation inputs with
  | OpMergeThenTransfer target sources recipient amount =>
      let! target_id := object_at inputs target in
      let! source_ids := objects_at inputs sources in
      let! owner := coin_owner_of "Target" target_id in
      let! merge_output := rt "Runtime merge error: "
        (Exec.execute_merge_coins owner target_id source_ids ctx) in
      let! _ := require_success merge_output "Merge failed" in
      let! transfer_output := rt "Runtime transfer error: "
        (Exec.execute_transfer_with_coin target_id (show_id owner) (show_id recipient) (Some amount) ctx) in
      let! _ := require_success transfer_output "Transfer failed" in
      let! _ := on_diff (SD.add_state_changes (out_changes merge_output ++ out_changes transfer_output)) in
      record_event_processed event
  | _ => sfail "CoinMergeThenTransfer payload but operation is not MergeThenTransfer"
  end.

Definition not_for_tee (name : string) : ev unit :=
  sfail (name +:+ " is a Validator-executed event, should not reach TEE").

(** The path over the shared store. *)
Definition execute_single_event_with_runtime (event : TaskEvent) (inputs : ResolvedInputs) : ev unit :=
  match te_transfer event with
  | Some t => execute_transfer_with_local_runtime event t inputs
  | None =>
      match te_payload event with
      | PayloadSubnetRegister _ => not_for_tee "SubnetRegister"
      | PayloadUserRegister _ => not_for_tee "UserRegister"
      | PayloadContractPublish _ => not_for_tee "ContractPublish"
      | PayloadCoinMerge _ _ => execute_merge event inputs
      | PayloadCoinSplit _ _ => execute_split event inputs
      | PayloadCoinMergeThenTransfer _ _ _ _ => execute_merge_then_transfer event inputs
      | _ => record_event_processed event
      end
  end.
End Event.

(** *** Calls of the Move VM *)

Section Move.
Context (solver_id : string) (others : Legacy → Legacy).
Abbreviation mev := (stm (EvState InMemoryObjectStore) string).

Definition MAX_GAS_BUDGET : Z := 50000000.

Definition resolved_budget (gas_budget : Z) : Z :=
  if (gas_budget =? u64_max)%Z || (gas_budget =? 0)%Z then MAX_GAS_BUDGET / 5 else gas_budget.

(** [InputObject::from_envelope]. *)
Definition from_envelope (id : ObjectId) (env : ObjectEnvelope) : result string InputObject :=
  match vm_struct_tag (type_tag env) with
  | Ok tag =>
      Ok (mkInputObject id (em_owner (env_metadata env)) (em_ownership (env_metadata env))
            (em_version (env_metadata env)) (vm_envelope_bytes env) (env_data env) tag)
  | Err e =>
      Err ("Failed to convert object " +:+ show_id id +:+ ": "
             +:+ show_runtime_error
                   (InvalidTransaction ("Failed to parse type_tag '" +:+ type_tag env +:+ "': " +:+ e)))
  | Panic => Panic
  end.

(** The ownership check of a Move call on the input at [idx]. *)
Definition check_call_input (p : MoveCallPayload) (sender : Address) (idx : nat) (id : ObjectId)
    (o : Ownership) : result string unit :=
  match o with
  | AddressOwner owner =>
      if bool_decide (owner ≠ sender) then
        Err ("Object " +:+ show_id id +:+ " not owned by sender " +:+ mc_sender p)
      else Ok tt
  | Immutable =>
      if bool_decide (idx ∈ default [] (mc_mutable_indices p)) then
        Err ("Object " +:+ show_id id +:+ " is Immutable, rejected for &mut binding at index "
               +:+ Tee.fmt_nat idx)
      else if bool_decide (idx ∈ default [] (mc_consumed_indices p)) then
        Err ("Object " +:+ show_id id +:+ " is Immutable, rejected for by-value consumption at index "
               +:+ Tee.fmt_nat idx)
      else Ok tt
  | ObjectOwner parent =>
      Err ("Object " +:+ show_id id +:+ " is ObjectOwner(parent=" +:+ show_id parent
             +:+ "), rejected from raw input_object_ids at index " +:+ Tee.fmt_nat idx
             +:+ " — DF entries must use dynamic_field_accesses")
  | Shared _ =>
      if bool_decide (id ∉ mc_shared_object_ids p) then
        Err ("Shared object " +:+ show_id id +:+ " not declared in shared_object_ids")
      else Ok tt
  end.

(** The check of a transaction block. *)
Definition check_ptb_input (p : MovePtbPayload) (sender : Address) (idx : nat) (id : ObjectId)
    (o : Ownership) : result string unit :=
  match o with
  | AddressOwner owner =>
      if bool_decide (owner ≠ sender) then
        Err ("PTB object " +:+ show_id id +:+ " not owned by sender " +:+ mp_sender p)
      else Ok tt
  | Immutable => Ok tt
  | ObjectOwner parent =>
      Err ("PTB object " +:+ show_id id +:+ " is ObjectOwner(parent=" +:+ show_id parent
             +:+ ") — DF entries must use dynamic_field_accesses, not raw inputs")
  | Shared _ =>
      Err ("PTB object " +:+ show_id id +:+ " is Shared — Phase 1 PTB does not yet support shared inputs")
  end.

Fixpoint collect_inputs (check : nat → ObjectId → Ownership → result string unit)
    (s : InMemoryObjectStore) (idx : nat) (objs : list ResolvedObject) : result string (list InputObject) :=
  match objs with
  | [] => Ok []
  | ro :: rest =>
      let id := ro_object_id ro in
      let? env := ok_or ("Object " +:+ show_id id +:+ " not found in store") (OS.get_envelope s id) in
      let? _ := check idx id (em_ownership (env_metadata env)) in
      let? io := from_envelope id env in
      let? ios := collect_inputs check s (S idx) rest in
      Ok (io :: ios)
  end.

(** [build_move_call_args] ([crates/setu-move-vm/src/hybrid.rs]). *)
Definition build_move_call_args (ios : list InputObject) (pure_args : list bytes)
    (consumed_indices mutable_indices : list nat) : list bytes * list (nat * ObjectId) :=
  let _ := consumed_indices in
  ((io_move_data <$> ios) ++ pure_args,
   omap (fun k => if bool_decide (k ∈ mutable_indices) then (fun io => (k, io_id io)) <$> ios !! k else None)
     (seq 0 (length ios))).

(** The state changes of the VM, written to the diff. *)
Definition add_move_changes (changes : list MoveStateChange) (d : StateDiff) : StateDiff :=
  foldl (fun d sc =>
           match mv_new_state sc with
           | Some v => SD.add_write (WS.with_old_opt (mv_old_state sc) (WS.new (object_key (mv_object_id sc)) v)) d
           | None => SD.add_delete (object_key (mv_object_id sc)) d
           end) d changes.

Definition vm_sender (prefix s : string) : mev Address :=
  slift (match address_from_hex s with
         | Ok a => Ok a
         | Err e => Err (prefix +:+ e)
         | Panic => Panic
         end).

Definition prefixed {A} (prefix : string) (r : result string A) : mev A :=
  slift (match r with Ok a => Ok a | Err e => Err (prefix +:+ e) | Panic => Panic end).

(** What follows a call of the VM. *)
Definition after_vm (fallback : string) (event : TaskEvent) (o : MoveExecutionOutput) : mev unit :=
  if negb (mo_success o) then sfail (default fallback (mo_error o))
  else
    let! _ := on_diff (add_move_changes (mo_state_changes o)) in
    let! _ := on_diff (Linkage.apply_module_changes_to_diff (mo_module_changes o)) in
    record_event_processed others event.

Definition execute_move_call (event : TaskEvent) (p : MoveCallPayload) (inputs : ResolvedInputs)
    (gas_budget : Z) : mev unit :=
  if negb vm_enabled then sfail "Move VM not enabled"
  else
    let! sender := vm_sender "Invalid sender: " (mc_sender p) in
    let! ios := (fun s => (s, collect_inputs (check_call_input p sender) (es_store s) 0 (ri_input_objects inputs))) in
    let! target := slift (vm_target p) in
    let '(args, mutable_map) := build_move_call_args ios (mc_args p) (default [] (mc_consumed_indices p))
                                 (default [] (mc_mutable_indices p)) in
    let ctx := mkMoveCtx (derive_tx_hash (TE.id event)) sender (resolved_budget gas_budget) 0 0
                 (mc_needs_tx_context p) (TE.ts event) in
    let! o := (fun s => prefixed "Move VM error: "
                          (vm_execute (es_store s) ios (dynamic_fields inputs) target args ctx mutable_map) s) in
    after_vm "MoveCall failed" event o.

Definition execute_move_ptb (event : TaskEvent) (p : MovePtbPayload) (inputs : ResolvedInputs)
    (gas_budget : Z) : mev unit :=
  if negb vm_enabled then sfail "Move VM not enabled"
  else
    let! sender := vm_sender "Invalid PTB sender: " (mp_sender p) in
    let! ios := (fun s => (s, collect_inputs (check_ptb_input p sender) (es_store s) 0 (ri_input_objects inputs))) in
    let ctx := mkMoveCtx (derive_tx_hash (TE.id event)) sender (resolved_budget gas_budget) 0 0
                 true (TE.ts event) in
    let! o := (fun s => prefixed "PTB Move VM error: "
                          (vm_execute_ptb (es_store s) (mp_ptb p) ios (dynamic_fields inputs) ctx) s) in
    after_vm "PTB execution failed" event o.

(** The path over the store of the task.  Without the feature, calls of the Move
    VM fall through to the arm of all other events. *)
Definition execute_single_event_with_object_store (event : TaskEvent) (inputs : ResolvedInputs)
    (gas_budget : Z) : mev unit :=
  match te_transfer event with
  | Some t => execute_transfer_with_local_runtime solver_id others event t inputs
  | None =>
      match te_payload event with
      | PayloadSubnetRegister _ => not_for_tee "SubnetRegister"
      | PayloadUserRegister _ => not_for_tee "UserRegister"
      | PayloadContractPublish _ => not_for_tee "ContractPublish"
      | PayloadMovePublish _ => sfail "MovePublish is a ROOT event, should not reach TEE"
      | PayloadMoveUpgrade _ =>
          sfail "MoveUpgrade is a ROOT event (rides on ContractPublish umbrella), should not reach TEE"
      | PayloadCoinMerge _ _ => execute_merge solver_id others event inputs
      | PayloadCoinSplit _ _ => execute_split solver_id others event inputs
      | PayloadCoinMergeThenTransfer _ _ _ _ => execute_merge_then_transfer solver_id others event inputs
      | PayloadMoveCall p =>
          if vm_feature then execute_move_call event p inputs gas_budget else record_event_processed others event
      | PayloadMovePtb p =>
          if vm_feature then execute_move_ptb event p inputs gas_budget else record_event_processed others event
      | _ => record_event_processed others event
      end
  end.
End Move.

(** *** The events of a task *)

Record RunState (St : Type) := mkRun {
  rn_legacy : Legacy;
  rn_diff : StateDiff;
  rn_store : St;
  rn_power : option PowerState;
  rn_flux : option FluxState;
  rn_processed : list EventId;
  rn_failed : list FailedEvent
}.
#[global] Arguments mkRun {St}.
#[global] Arguments rn_legacy {St} _.
#[global] Arguments rn_diff {St} _.
#[global] Arguments rn_store {St} _.
#[global] Arguments rn_power {St} _.
#[global] Arguments rn_flux {St} _.
#[global] Arguments rn_processed {St} _.
#[global] Arguments rn_failed {St} _.

Definition run_new {St} (legacy : Legacy) (store : St) (power : option PowerState) (flux : option FluxState)
    : RunState St :=
  mkRun legacy SD.new store power flux [] [].

Definition push_failed {St} (id : EventId) (reason : string) (s : RunState St) : RunState St :=
  mkRun (rn_legacy s) (rn_diff s) (rn_store s) (rn_power s) (rn_flux s) (rn_processed s)
    (rn_failed s ++ [mkFailedEvent id reason]).

Definition push_processed {St} (id : EventId) (s : RunState St) : RunState St :=
  mkRun (rn_legacy s) (rn_diff s) (rn_store s) (rn_power s) (rn_flux s) (rn_processed s ++ [id])
    (rn_failed s).

(** The execution of one event on the state of the run. *)
Definition run_event {St} (m : stm (EvState St) string unit) (s : RunState St)
    : RunState St * result string unit :=
  let '(e, r) := m (mkEvState (rn_legacy s) (rn_diff s) (rn_store s) 0) in
  (mkRun (es_legacy e) (es_diff e) (es_store e) (rn_power s) (rn_flux s) (rn_processed s) (rn_failed s), r).

(** The power of the sender is charged before the event; [Some e] is a refusal. *)
Definition charge_power {St} (cost : Z) (s : RunState St) : RunState St * option RuntimeError :=
  match rn_power s with
  | None => (s, None)
  | Some p =>
      let '(p', r) := decrement_power cost p in
      let set d := mkRun (rn_legacy s) d (rn_store s) (Some p') (rn_flux s) (rn_processed s) (rn_failed s) in
      match r with
      | Ok sc => (set (SD.add_state_changes [sc] (rn_diff s)), None)
      | Err e => (set (rn_diff s), Some e)
      | Panic => (s, None) (* [decrement_power] never panics *)
      end
  end.

(** A Flux update; an error of it is only logged. *)
Definition update_flux {St} (f : FluxState → FluxState * result RuntimeError RtStateChange) (s : RunState St)
    : RunState St :=
  match rn_flux s with
  | None => s
  | Some fx =>
      let '(fx', r) := f fx in
      mkRun (rn_legacy s)
        (match r with Ok sc => SD.add_state_changes [sc] (rn_diff s) | _ => rn_diff s end)
        (rn_store s) (rn_power s) (Some fx') (rn_processed s) (rn_failed s)
  end.

(** The body of the loop of [simulate_execution_isolated] after the check of
    the time. *)
Definition isolated_event {St} (params : ResourceParams) (m : stm (EvState St) string unit)
    (event : TaskEvent) (s : RunState St) : RunState St * result StfError unit :=
  let consumes := should_consume_power (event_type (te_event event)) in
  let '(s1, refused) := if consumes then charge_power (power_cost_per_event params) s else (s, None) in
  match refused with
  | Some e => (push_failed (TE.id event) ("Power check failed: " +:+ show_runtime_error e) s1, Ok tt)
  | None =>
      match run_event m s1 with
      | (s2, Ok _) =>
          let s3 :=
            if consumes && (0 <? flux_reward_on_success params)%Z
            then update_flux (increment_flux (TE.ts event) (flux_reward_on_success params)) s2 else s2 in
          (push_processed (TE.id event) s3, Ok tt)
      | (s2, Err reason) =>
          let s3 :=
            if consumes && (0 <? flux_penalty_on_failure params)%Z
            then update_flux (penalize_flux (TE.ts event) (flux_penalty_on_failure params)) s2 else s2 in
          (push_failed (TE.id event) reason s3, Ok tt)
      | (s2, Panic) => (s2, Panic)
      end
  end.

(** The body of the loop of [simulate_execution]. *)
Definition shared_event {St} (m : stm (EvState St) string unit) (event : TaskEvent) (s : RunState St)
    : RunState St * result StfError unit :=
  match run_event m s with
  | (s', Ok _) => (push_processed (TE.id event) s', Ok tt)
  | (s', Err reason) => (push_failed (TE.id event) reason s', Ok tt)
  | (s', Panic) => (s', Panic)
  end.

Fixpoint event_loop {St} (max_ms : Z) (elapsed : nat → Z)
    (body : nat → TaskEvent → RunState St → RunState St * result StfError unit) (i : nat)
    (events : list TaskEvent) (s : RunState St) : RunState St * result StfError unit :=
  match events with
  | [] => (s, Ok tt)
  | e :: rest =>
      if (max_ms <? elapsed i)%Z then (s, Err ExecutionTimeout)
      else
        match body i e s with
        | (s', Ok _) => event_loop max_ms elapsed body (S i) rest s'
        | (s', Err err) => (s', Err err)
        | (s', Panic) => (s', Panic)
        end
  end.

(** The sender is that of the first event. *)
Definition sender_of (events : list TaskEvent) : option string :=
  match events with
  | e :: _ => tr_from <$> te_transfer e
  | [] => None
  end.

Section Run.
Context (others : nat → Legacy → Legacy) (elapsed : nat → Z).

Definition simulate_execution_isolated (input : StfInput) (store : InMemoryObjectStore) (enclave : MockEnclave)
    : RunState InMemoryObjectStore * result StfError unit :=
  let '(power, flux) :=
    match sender_of (si_events input) with
    | Some addr => extract_power_flux (si_read_set input) addr
    | None => (None, None)
    end in
  let params := extract_resource_params (si_read_set input) in
  let solver_id := ec_solver_id (me_config enclave) in
  event_loop (max_execution_time_ms (me_config enclave)) elapsed
    (fun i e => isolated_event params
       (execute_single_event_with_object_store solver_id (others i) e (si_resolved_inputs input)
          (max_gas_units (si_gas_budget input))) e)
    0 (si_events input) (run_new (legacy_state enclave) store power flux).

Definition simulate_execution (input : StfInput) (enclave : MockEnclave)
    : RunState InMemoryStateStore * result StfError unit :=
  let solver_id := ec_solver_id (me_config enclave) in
  event_loop (max_execution_time_ms (me_config enclave)) elapsed
    (fun i e => shared_event
       (execute_single_event_with_runtime solver_id (others i) e (si_resolved_inputs input)) e)
    0 (si_events input) (run_new (legacy_state enclave) (me_runtime enclave) None None).

(** The map of processed events, hashed in the order of its keys. *)
Definition compute_state_root (state : Legacy) : HashValue :=
  blake3 (as_bytes "SETU_MOCK_STATE:"
            ++ concat ((fun kv => as_bytes kv.1 ++ kv.2)
                         <$> merge_sort entry_le (map_to_list state))).

Definition compute_output_hash (subnet : SubnetId) (pre post commitment : HashValue) : HashValue :=
  blake3 (as_bytes "SETU_OUTPUT_HASH:" ++ hv_bytes subnet ++ hv_bytes pre ++ hv_bytes post
            ++ hv_bytes commitment).

Definition has_move_ptb (events : list TaskEvent) : bool :=
  existsb (fun e => match te_payload e with PayloadMovePtb _ => true | _ => false end) events.

Definition use_read_set_state (input : StfInput) : bool :=
  negb (bool_decide (si_read_set input = [])) || negb (bool_decide (si_module_read_set input = []))
  || has_move_ptb (si_events input).

(** The output of a run; [now] is the wall clock in seconds, [us] the duration. *)
Definition stf_output (config : EnclaveConfig) (input : StfInput) (now us : Z) (legacy : Legacy)
    (diff : StateDiff) (processed : list EventId) (failed : list FailedEvent) : StfOutput :=
  let root := compute_state_root legacy in
  let data := mkAttestationData (si_task_id input) (SI.input_hash input) (si_pre_state_root input) root in
  let att := Att.with_solver_id (ec_solver_id config) (Att.mock_with_data data now) in
  let writes_count := Z.of_nat (length (writes diff)) in
  let reads := Z.of_nat (length (si_read_set input)) in
  mkStfOutput (si_task_id input) (si_subnet_id input) root diff processed failed
    (Gas.usage (u64_add (wrap64 (writes_count * 100)) (wrap64 (reads * 10))) (Some 1%Z)) att
    (mkExecutionStats us reads writes_count 0).

Definition set_run (legacy : Legacy) (store : InMemoryStateStore) (counted : bool) (e : MockEnclave) : MockEnclave :=
  mkMockEnclave (me_config e) store legacy
    (if counted then u64_add (execution_count e) 1 else execution_count e).

(** [others (length events)] is the interference before the state root is read. *)
Definition execute_stf (now us : Z) (input : StfInput) : stm MockEnclave StfError StfOutput := fun enclave =>
  let finish {St} (store_of : RunState St → InMemoryStateStore) (run : RunState St * result StfError unit) :=
    match run with
    | (s, Ok _) =>
        let legacy := others (length (si_events input)) (rn_legacy s) in
        (set_run legacy (store_of s) true enclave,
         Ok (stf_output (me_config enclave) input now us legacy (rn_diff s) (rn_processed s) (rn_failed s)))
    | (s, Err e) => (set_run (rn_legacy s) (store_of s) false enclave, Err e)
    | (s, Panic) => (set_run (rn_legacy s) (store_of s) false enclave, Panic)
    end in
  if use_read_set_state input then
    match build_object_store_from_read_set (si_read_set input) (si_module_read_set input) with
    | Ok store => finish (fun _ => me_runtime enclave) (simulate_execution_isolated input store enclave)
    | Err e => (enclave, Err e)
    | Panic => (enclave, Panic)
    end
  else finish rn_store (simulate_execution input enclave).
End Run.

Definition generate_attestation (user_data : HashValue) (now : Z) (e : MockEnclave) : Attestation :=
  Att.with_solver_id (ec_solver_id (me_config e)) (Att.mock user_data now).

Definition verify_attestation (a : Attestation) : bool := Att.is_mock a.
End ME.
End ME.
