(* ===== verification/EnclavePanics.v ===== *)
(** * When an execution of the enclave can panic

    The only panics of an execution are an index of the resolved operation that
    is out of range ([inputs.input_objects[i]]) and a panic of the Move virtual
    machine.  A computation is [calm] when it does not panic and moves the counter
    of outputs by at most [k]. *)

From Stdlib Require Import ZArith Lia.
From stdpp Require Import base gmap sets list strings numbers.
From S2P Require Import Prelude Hash Vlc Event Coin StateStore Resource Executor StateManager Task Stf Enclave.
#[local] Open Scope Z_scope.
#[local] Open Scope setu_scope.

(** ** Stores that do not panic *)

Class CalmStore (St : Type) `{StateStore St} := {
  calm_get s id : get_object s id ≠ Panic;
  calm_set s id c : (set_object id c s).2 ≠ Panic;
  calm_delete s id : (delete_object id s).2 ≠ Panic
}.

#[global] Instance object_store_calm `{Blake3} `{Bcs} `{HexCrate} : CalmStore InMemoryObjectStore.
Proof. by split. Qed.
#[global] Instance state_store_calm : CalmStore InMemoryStateStore.
Proof. by split. Qed.

(** ** The runtime *)

Section Runtime.
Context {St : Type} `{CS : CalmStore St} `{B : Blake3} `{C : Bcs} `{X : HexCrate} `{J : SerdeJson}.

Definition calm {A} (k : Z) (m : Exec.exec (St := St) A) : Prop :=
  ∀ s n, 0 ≤ n → n + k ≤ u32_max → (m (s, n)).2 ≠ Panic ∧ n ≤ (m (s, n)).1.2 ≤ n + k.

Lemma calm_weaken {A} k k' (m : Exec.exec (St := St) A) : k ≤ k' → calm k m → calm k' m.
Proof. intros Hk Hm s n Hn Hle. destruct (Hm s n Hn ltac:(lia)). split; [done|lia]. Qed.

Lemma calm_bind {A D} k k' (m : Exec.exec (St := St) A) (f : A → Exec.exec (St := St) D) :
  0 ≤ k' → calm k m → (∀ a, calm k' (f a)) → calm (k + k') (sbind m f).
Proof.
  intros Hk' Hm Hf s n Hn Hle. destruct (Hm s n Hn ltac:(lia)) as [Hp Hc]. unfold sbind.
  destruct (m (s, n)) as [[s' n'] [a|e|]]; cbn [fst snd] in *; [|split; [done|lia]|done].
  destruct (Hf a s' n' ltac:(lia) ltac:(lia)). split; [done|lia].
Qed.

(** A step that does not touch the counter. *)
Lemma calm_still {A D} k (m : Exec.exec (St := St) A) (f : A → Exec.exec (St := St) D) :
  0 ≤ k → calm 0 m → (∀ a, calm k (f a)) → calm k (sbind m f).
Proof. intros Hk Hm Hf. by apply (calm_bind 0 k). Qed.

Lemma calm_ret {A} k (a : A) : 0 ≤ k → calm k (sret a).
Proof. intros Hk s n Hn Hle. cbn. split; [done|lia]. Qed.
Lemma calm_fail {A} k e : 0 ≤ k → calm k (sfail (A := A) e).
Proof. intros Hk s n Hn Hle. cbn. split; [done|lia]. Qed.
Lemma calm_lift {A} k (r : result RuntimeError A) : 0 ≤ k → r ≠ Panic → calm k (slift r).
Proof. intros Hk Hr s n Hn Hle. cbn. split; [done|lia]. Qed.
Lemma calm_read {A} k (f : St → result RuntimeError A) : 0 ≤ k → (∀ s, f s ≠ Panic) → calm k (Exec.read f).
Proof. intros Hk Hf s n Hn Hle. cbn. split; [apply Hf|lia]. Qed.
Lemma calm_on_store {A} k (m : stm St RuntimeError A) : 0 ≤ k → (∀ s, (m s).2 ≠ Panic) → calm k (Exec.on_store m).
Proof.
  intros Hk Hm s n Hn Hle. unfold Exec.on_store. pose proof (Hm s). destruct (m s). cbn in *. split; [done|lia].
Qed.

Lemma calm_new_coin_id ctx : calm 1 (Exec.new_coin_id ctx).
Proof.
  intros s n Hn Hle. unfold Exec.new_coin_id, Exec.next_output_index, sbind, checked_add. cbv zeta.
  destruct (Z.leb_spec (n + 1) u32_max); [|lia]. cbn. split; [done|lia].
Qed.

Lemma ok_or_calm {A E} (e : E) (o : option A) : ok_or e o ≠ Panic.
Proof. by destruct o. Qed.

Lemma calm_load_coin k id : 0 ≤ k → calm k (Exec.load_coin id).
Proof.
  intros Hk. apply calm_still; [done|apply calm_read; [done|intros; apply calm_get]|].
  intros o. apply calm_lift; [done|apply ok_or_calm].
Qed.
Lemma calm_owner_or k id who c : 0 ≤ k → calm k (Exec.owner_or id who c).
Proof. intros Hk. apply calm_lift; [done|apply ok_or_calm]. Qed.
Lemma calm_or_invalid {A} k (r : result string A) : 0 ≤ k → r ≠ Panic → calm k (Exec.or_invalid r).
Proof. intros Hk Hr. apply calm_lift; [done|]. by destruct r. Qed.
Lemma withdraw_calm b amt : Bal.withdraw b amt ≠ Panic.
Proof. unfold Bal.withdraw. by destruct (_ <? _). Qed.
Lemma deposit_calm a b : Bal.deposit a b ≠ Panic.
Proof. unfold Bal.deposit. by destruct (checked_add _ _ _). Qed.

Hint Resolve calm_ret calm_fail calm_lift calm_read calm_on_store calm_load_coin calm_owner_or calm_or_invalid
  withdraw_calm deposit_calm ok_or_calm calm_get calm_set calm_delete : calm.
Hint Extern 1 (_ ≤ _) => lia : calm.
Hint Extern 1 (slift (Ok _) ≠ Panic) => discriminate : calm.

Ltac calm_steps :=
  repeat first
    [ solve [auto with calm]
    | lazymatch goal with
      | |- calm _ (if ?b then _ else _) => destruct b
      | |- calm _ (sbind (Exec.new_coin_id _) _) => fail
      | |- calm _ (sbind (Exec.split_loop _ _ _ _ _ _) _) => fail
      | |- calm _ (sbind _ _) => apply calm_still; [lia| |intros ?]
      end ].

Lemma calm_transfer tx t ctx : calm 1 (Exec.execute_transfer tx t ctx).
Proof.
  unfold Exec.execute_transfer. destruct (amount t) as [am|]; calm_steps.
  change 1 with (1 + 0). apply calm_bind; [lia|apply calm_new_coin_id|]. intros nid. calm_steps.
Qed.

Lemma parse_address_calm s : calm 0 (Exec.parse_address s).
Proof. apply calm_lift; [lia|]. by destruct (address_from_hex s). Qed.

Lemma calm_transfer_with_coin cid from to amt ctx : calm 1 (Exec.execute_transfer_with_coin cid from to amt ctx).
Proof.
  unfold Exec.execute_transfer_with_coin. apply calm_still; [lia|apply parse_address_calm|]. intros a.
  apply calm_still; [lia|apply parse_address_calm|]. intros b. apply calm_transfer.
Qed.

Lemma calm_merge_loop owner ty sources target changes deleted :
  calm 0 (Exec.merge_loop owner ty sources target changes deleted).
Proof.
  revert target changes deleted. induction sources as [|sid sources IH]; intros; cbn [Exec.merge_loop]; calm_steps.
Qed.

Lemma calm_merge owner target sources ctx : calm 0 (Exec.execute_merge_coins owner target sources ctx).
Proof.
  unfold Exec.execute_merge_coins. calm_steps. destruct (Exec.first_duplicate _ _); calm_steps; [apply calm_merge_loop|].
  destruct a1 as [[target' changes] deleted]. calm_steps.
Qed.

Lemma calm_split_loop owner ctx amounts source changes created :
  calm (Z.of_nat (length amounts)) (Exec.split_loop owner ctx amounts source changes created).
Proof.
  revert source changes created. induction amounts as [|amt amounts IH]; intros; cbn [Exec.split_loop length]; [calm_steps|].
  rewrite Nat2Z.inj_succ, <-Z.add_1_l. apply calm_bind; [lia|apply calm_new_coin_id|]. intros nid. calm_steps.
Qed.

Lemma calm_split owner source amounts ctx : calm 50 (Exec.execute_split_coin owner source amounts ctx).
Proof.
  unfold Exec.execute_split_coin, MAX_SPLIT_OUTPUTS.
  destruct (bool_decide _); [calm_steps|]. destruct (existsb _ _); [calm_steps|].
  destruct (Nat.ltb_spec 50 (length amounts)) as [|Hn]; [calm_steps|]. calm_steps.
  apply (calm_weaken (Z.of_nat (length amounts) + 0)); [lia|].
  apply calm_bind; [lia|apply calm_split_loop|]; intros [[source' changes] created]; calm_steps.
Qed.
End Runtime.

(** ** Events *)

Section Events.
Context {St : Type} `{CS : CalmStore St} `{B : Blake3} `{C : Bcs} `{X : HexCrate} `{J : SerdeJson}.

(** As [calm], for the execution of an event. *)
Definition calm_ev {A} (k : Z) (m : stm (EvState St) string A) : Prop :=
  ∀ s, 0 ≤ es_counter s → es_counter s + k ≤ u32_max →
    (m s).2 ≠ Panic ∧ es_counter s ≤ es_counter (m s).1 ≤ es_counter s + k.

Lemma calm_ev_weaken {A} k k' (m : stm (EvState St) string A) : k ≤ k' → calm_ev k m → calm_ev k' m.
Proof. intros Hk Hm s Hn Hle. destruct (Hm s Hn ltac:(lia)). split; [done|lia]. Qed.

Lemma calm_ev_bind {A D} k k' (m : stm (EvState St) string A) (f : A → stm (EvState St) string D) :
  0 ≤ k' → calm_ev k m → (∀ a, calm_ev k' (f a)) → calm_ev (k + k') (sbind m f).
Proof.
  intros Hk' Hm Hf s Hn Hle. destruct (Hm s Hn ltac:(lia)) as [Hp Hc]. unfold sbind.
  destruct (m s) as [s' [a|e|]]; cbn [fst snd] in *; [|split; [done|lia]|done].
  destruct (Hf a s' ltac:(lia) ltac:(lia)). split; [done|lia].
Qed.

Lemma calm_ev_still {A D} k (m : stm (EvState St) string A) (f : A → stm (EvState St) string D) :
  0 ≤ k → calm_ev 0 m → (∀ a, calm_ev k (f a)) → calm_ev k (sbind m f).
Proof. intros Hk Hm Hf. by apply (calm_ev_bind 0 k). Qed.

(** A step that reads the state. *)
Lemma calm_ev_read {A} k (f : EvState St → result string A) : 0 ≤ k → (∀ s, f s ≠ Panic) → calm_ev k (fun s => (s, f s)).
Proof. intros Hk Hf s Hn Hle. cbn. split; [apply Hf|lia]. Qed.
Lemma calm_ev_ret {A} k (a : A) : 0 ≤ k → calm_ev k (sret a).
Proof. intros. by apply (calm_ev_read k (fun _ => Ok a)). Qed.
Lemma calm_ev_fail {A} k e : 0 ≤ k → calm_ev k (sfail (A := A) e).
Proof. intros. by apply (calm_ev_read k (fun _ => Err e)). Qed.
Lemma calm_ev_lift {A} k (r : result string A) : 0 ≤ k → r ≠ Panic → calm_ev k (slift r).
Proof. intros. by apply (calm_ev_read k (fun _ => r)). Qed.
Lemma calm_ev_rt {A} k prefix (m : Exec.exec (St := St) A) : calm k m → calm_ev k (ME.rt prefix m).
Proof.
  intros Hm s Hn Hle. destruct (Hm (es_store s) (es_counter s) Hn Hle) as [Hp Hc]. unfold ME.rt.
  destruct (m _) as [[st n] r]. cbn in *. split; [by destruct r|done].
Qed.
Lemma calm_ev_on_diff k f : 0 ≤ k → calm_ev k (ME.on_diff f).
Proof. intros Hk s Hn Hle. cbn. split; [done|lia]. Qed.
Lemma calm_ev_record k others event : 0 ≤ k → calm_ev k (ME.record_event_processed others event).
Proof. intros Hk s Hn Hle. cbn. split; [done|lia]. Qed.
Lemma calm_ev_success k o fallback : 0 ≤ k → calm_ev k (ME.require_success o fallback).
Proof. intros Hk. unfold ME.require_success. destruct (success o); [by apply calm_ev_ret|by apply calm_ev_fail]. Qed.

Lemma calm_ev_object_at k inputs i : 0 ≤ k → (i < length (ri_input_objects inputs))%nat → calm_ev k (ME.object_at inputs i).
Proof.
  intros Hk Hi. apply calm_ev_lift; [done|]. by destruct (lookup_lt_is_Some_2 _ _ Hi) as [o ->].
Qed.
Lemma calm_ev_objects_at k inputs idxs :
  0 ≤ k → Forall (fun i => (i < length (ri_input_objects inputs))%nat) idxs → calm_ev k (ME.objects_at inputs idxs).
Proof.
  intros Hk. induction 1 as [|i idxs Hi _ IH]; cbn [ME.objects_at]; [by apply calm_ev_ret|].
  apply calm_ev_still; [done|by apply calm_ev_object_at|]. intros id.
  apply (calm_ev_weaken (k + 0)); [lia|]. apply calm_ev_bind; [lia|done|]. intros ids. by apply calm_ev_ret.
Qed.
Lemma calm_ev_owner k what id : 0 ≤ k → calm_ev k (ME.coin_owner_of what id).
Proof.
  intros Hk. apply calm_ev_read; [done|]. intros s. pose proof (calm_get (es_store s) id).
  destruct (get_object (es_store s) id) as [[c|]|e|]; [apply ok_or_calm|done..].
Qed.

(** A fresh context starts the counter at zero. *)
Lemma calm_new_context k (f : unit → stm (EvState St) string unit) :
  0 ≤ k ≤ u32_max → calm_ev k (f tt) → ∀ s, (sbind ME.new_context f s).2 ≠ Panic.
Proof. intros Hk Hf s. unfold sbind, ME.new_context. apply Hf; cbn; lia. Qed.

(** The indexes of the operation are those of inputs. *)
Definition operation_in_range (inputs : ResolvedInputs) : Prop :=
  let ok i := (i < length (ri_input_objects inputs))%nat in
  match operation inputs with
  | OpMergeCoins target sources | OpMergeThenTransfer target sources _ _ => ok target ∧ Forall ok sources
  | OpSplitCoin source _ => ok source
  | _ => True
  end.
End Events.

#[export] Hint Resolve calm_ev_ret calm_ev_fail calm_ev_lift calm_ev_on_diff calm_ev_record calm_ev_success calm_ev_object_at
  calm_ev_objects_at calm_ev_owner calm_ev_rt : calm_ev.
#[export] Hint Extern 1 (_ ≤ _) => lia : calm_ev.

Ltac calm_ev_steps :=
  repeat first
    [ solve [auto with calm_ev]
    | lazymatch goal with
      | |- calm_ev _ (if ?b then _ else _) => destruct b
      | |- calm_ev _ (sbind _ _) => apply calm_ev_still; [lia| |intros ?]
      end ].

Section Coins.
Context {St : Type} `{CS : CalmStore St} `{B : Blake3} `{C : Bcs} `{X : HexCrate} `{J : SerdeJson}.
Context (solver : string) (others : Legacy → Legacy).

Lemma u32_room k : 0 ≤ k ≤ 60 → 0 ≤ k ≤ u32_max.
Proof. unfold u32_max. lia. Qed.

Lemma transfer_no_panic event t inputs s : (ME.execute_transfer_with_local_runtime (St := St) solver others event t inputs s).2 ≠ Panic.
Proof.
  apply (calm_new_context 1); [by apply u32_room|]. destruct (RI.primary_coin inputs); [|calm_ev_steps].
  change 1 with (1 + 0). apply calm_ev_bind; [lia|apply calm_ev_rt, calm_transfer_with_coin|]. intros o. calm_ev_steps.
Qed.

Lemma merge_no_panic event inputs s : operation_in_range inputs → (ME.execute_merge (St := St) solver others event inputs s).2 ≠ Panic.
Proof.
  unfold operation_in_range. intros Hr. apply (calm_new_context 0); [by apply u32_room|].
  destruct (operation inputs); try solve [calm_ev_steps]. destruct Hr as [Ht Hs]. calm_ev_steps.
  apply calm_ev_rt, calm_merge.
Qed.

(** An index beyond the input objects is not checked before it is used. *)
Lemma out_of_range_panics event inputs s target sources :
  operation inputs = OpMergeCoins target sources → (length (ri_input_objects inputs) ≤ target)%nat →
  (ME.execute_merge (St := St) solver others event inputs s).2 = Panic.
Proof.
  intros Ho Hl. unfold ME.execute_merge, ME.new_context, ME.object_at, sbind, slift. rewrite Ho.
  by rewrite lookup_ge_None_2 by done.
Qed.

Lemma split_no_panic event inputs s : operation_in_range inputs → (ME.execute_split (St := St) solver others event inputs s).2 ≠ Panic.
Proof.
  unfold operation_in_range. intros Hr. apply (calm_new_context (50 + 0)); [by apply u32_room|].
  destruct (operation inputs); try solve [calm_ev_steps].
  apply calm_ev_still; [lia|by apply calm_ev_object_at|]. intros id. apply calm_ev_still; [lia|by apply calm_ev_owner|].
  intros owner. apply calm_ev_bind; [lia|apply calm_ev_rt, calm_split|]. intros o. calm_ev_steps.
Qed.

Lemma merge_then_transfer_no_panic event inputs s :
  operation_in_range inputs → (ME.execute_merge_then_transfer (St := St) solver others event inputs s).2 ≠ Panic.
Proof.
  unfold operation_in_range. intros Hr. apply (calm_new_context (1 + 0)); [by apply u32_room|].
  destruct (operation inputs); try solve [calm_ev_steps]. destruct Hr as [Ht Hs].
  apply calm_ev_still; [lia|by apply calm_ev_object_at|]. intros id. apply calm_ev_still; [lia|by apply calm_ev_objects_at|].
  intros ids. apply calm_ev_still; [lia|by apply calm_ev_owner|]. intros owner.
  apply calm_ev_still; [lia|apply calm_ev_rt, calm_merge|]. intros o. apply calm_ev_still; [lia|by apply calm_ev_success|].
  intros _. apply calm_ev_bind; [lia|apply calm_ev_rt, calm_transfer_with_coin|]. intros o'. calm_ev_steps.
Qed.

Lemma shared_no_panic event inputs s :
  operation_in_range inputs → (ME.execute_single_event_with_runtime (St := St) solver others event inputs s).2 ≠ Panic.
Proof.
  intros Hr. unfold ME.execute_single_event_with_runtime. destruct (te_transfer event); [apply transfer_no_panic|].
  destruct (te_payload event); try done; [by apply merge_no_panic|by apply split_no_panic|by apply merge_then_transfer_no_panic].
Qed.
End Coins.

(** ** The Move virtual machine *)

Section Vm.
Context `{B : Blake3} `{C : Bcs} `{SB : StateBcs} `{X : HexCrate} `{J : SerdeJson} `{V : MoveVm}.

(** The virtual machine does not panic. *)
Record vm_calm : Prop := mkVmCalm {
  vc_tag s : vm_struct_tag s ≠ Panic;
  vc_target p : vm_target p ≠ Panic;
  vc_execute s ios df t args ctx m : vm_execute s ios df t args ctx m ≠ Panic;
  vc_ptb s p ios df ctx : vm_execute_ptb s p ios df ctx ≠ Panic
}.

Context (Hvm : vm_calm) (solver : string) (others : Legacy → Legacy).

Lemma bind_calm {E A D} (m : result E A) (f : A → result E D) : m ≠ Panic → (∀ a, f a ≠ Panic) → rbind m f ≠ Panic.
Proof. intros Hm Hf. destruct m; [apply Hf|done|done]. Qed.

Lemma collect_no_panic check s idx objs :
  (∀ i id o, check i id o ≠ Panic) → ME.collect_inputs check s idx objs ≠ Panic.
Proof using Hvm.
  intros Hc. revert idx. induction objs as [|ro objs IH]; intros idx; cbn [ME.collect_inputs]; [done|].
  apply bind_calm; [apply ok_or_calm|]. intros env. apply bind_calm; [apply Hc|]. intros _. apply bind_calm.
  - unfold ME.from_envelope. pose proof (vc_tag Hvm (type_tag env)). by destruct (vm_struct_tag _).
  - intros io. apply bind_calm; [apply IH|done].
Qed.

Lemma check_call_calm p sender i id o : ME.check_call_input p sender i id o ≠ Panic.
Proof using Type. unfold ME.check_call_input. destruct o; repeat case_bool_decide; done. Qed.
Lemma check_ptb_calm p sender i id o : ME.check_ptb_input p sender i id o ≠ Panic.
Proof using Type. unfold ME.check_ptb_input. destruct o; repeat case_bool_decide; done. Qed.

Lemma calm_sender k prefix s : 0 ≤ k → calm_ev k (ME.vm_sender prefix s).
Proof using Type.
  intros Hk. apply calm_ev_lift; [done|]. unfold address_from_hex, address_from_bytes.
  destruct (hex_decode _) as [b|]; [|done]. by destruct (HV.from_slice b).
Qed.

Lemma calm_after_vm k fallback event o : 0 ≤ k → calm_ev k (ME.after_vm others fallback event o).
Proof using Type. intros Hk. unfold ME.after_vm. destruct (negb _); calm_ev_steps. Qed.

Lemma calm_vm {A} k prefix (f : EvState InMemoryObjectStore → result string A) :
  0 ≤ k → (∀ s, f s ≠ Panic) → calm_ev k (fun s => ME.prefixed prefix (f s) s).
Proof using Type. intros Hk Hf. apply (calm_ev_read k (fun s => match f s with Ok a => Ok a | Err e => _ | Panic => _ end)); [done|].
  intros s. pose proof (Hf s). by destruct (f s).
Qed.

Lemma move_call_calm event p inputs gas : calm_ev 0 (ME.execute_move_call others event p inputs gas).
Proof using Hvm.
  unfold ME.execute_move_call. destruct (negb _); [calm_ev_steps|].
  apply calm_ev_still; [lia|by apply calm_sender|]. intros sender.
  apply calm_ev_still; [lia|apply calm_ev_read; [lia|intros; apply collect_no_panic, check_call_calm]|]. intros ios.
  apply calm_ev_still; [lia|apply calm_ev_lift; [lia|apply (vc_target Hvm)]|]. intros target.
  destruct (ME.build_move_call_args _ _ _ _) as [args mm].
  apply calm_ev_still; [lia|apply calm_vm; [lia|intros; apply (vc_execute Hvm)]|]. intros o. by apply calm_after_vm.
Qed.

Lemma move_ptb_calm event p inputs gas : calm_ev 0 (ME.execute_move_ptb others event p inputs gas).
Proof using Hvm.
  unfold ME.execute_move_ptb. destruct (negb _); [calm_ev_steps|].
  apply calm_ev_still; [lia|by apply calm_sender|]. intros sender.
  apply calm_ev_still; [lia|apply calm_ev_read; [lia|intros; apply collect_no_panic, check_ptb_calm]|]. intros ios.
  apply calm_ev_still; [lia|apply calm_vm; [lia|intros; apply (vc_ptb Hvm)]|]. intros o. by apply calm_after_vm.
Qed.

Lemma isolated_no_panic event inputs gas s : operation_in_range inputs → es_counter s = 0 →
  (ME.execute_single_event_with_object_store solver others event inputs gas s).2 ≠ Panic.
Proof using Hvm.
  intros Hr Hs. unfold ME.execute_single_event_with_object_store. destruct (te_transfer event); [apply transfer_no_panic|].
  assert (Hcalm : ∀ m : stm (EvState InMemoryObjectStore) string unit, calm_ev 0 m → (m s).2 ≠ Panic).
  { intros m Hm. apply Hm; rewrite Hs; [lia|]. unfold u32_max. lia. }
  destruct (te_payload event); try done.
  - by apply merge_no_panic.
  - by apply split_no_panic.
  - by apply merge_then_transfer_no_panic.
  - destruct vm_feature; [apply Hcalm, move_call_calm|done].
  - destruct vm_feature; [apply Hcalm, move_ptb_calm|done].
Qed.

(** ** The read set *)

Lemma load_entry_no_panic e : ME.load_entry e ≠ Panic.
Proof using Type.
  assert (Hid : ∀ x, match object_id_from_hex x with
    | Ok id => Ok id | Err m => Err (InvalidResolvedInputs ("Invalid object ID: " +:+ m)) | Panic => Panic end ≠ (Panic : result StfError ObjectId)).
  { intros x. unfold object_id_from_hex. destruct (hex_decode _) as [b|]; [|done]. by destruct (HV.from_slice b). }
  unfold ME.load_entry. destruct (strip_prefix "oid:" _) as [x|].
  - apply bind_calm; [apply Hid|]. intros id. destruct (rs_value e) as [|b0 rest]; [done|].
    destruct (match rest with [] => _ | _ => _ end); [by destruct (bcs_envelope_de _)|]. case_bool_decide; [done|].
    by destruct (bcs_coin_state_de _).
  - destruct (strip_prefix "coin:" _) as [x|]; [|done]. apply bind_calm; [apply Hid|]. intros id. by destruct (bcs_coin_state_de _).
Qed.

Lemma load_no_panic l m : ME.build_object_store_from_read_set l m ≠ Panic.
Proof using Type.
  apply bind_calm; [|done]. generalize OS.new. induction l as [|e l IH]; intros s; cbn [ME.load_entries]; [done|].
  apply bind_calm; [apply load_entry_no_panic|]. intros o. apply IH.
Qed.
End Vm.
