(* ===== verification/StateProvider.v ===== *)
(** * The state provider

    [storage/src/state/provider.rs] and [batch_snapshot.rs]: what a validator
    reads of the state to prepare tasks.  The trait [StateProvider] is a class;
    [MerkleStateProvider] reads the published snapshot of the shared state and,
    for objects, the speculative overlay. *)

From Stdlib Require Import ZArith Lia.
From stdpp Require Import base gmap sets list strings numbers.
From S2P Require Import Prelude Hash Vlc Event Coin StateStore SparseMerkle StateManager Overlay Task.

#[local] Open Scope string_scope.
#[local] Open Scope list_scope.

Record CoinInfo := mkCoinInfo {
  ci_object_id : ObjectId;
  ci_owner : string;
  ci_balance : Z;
  ci_version : Z;
  ci_coin_type : string
}.

#[global] Instance CoinInfo_eq_dec : EqDecision CoinInfo.
Proof. solve_decision. Defined.

Record SimpleMerkleProof := mkSimpleProof {
  sp_siblings : list HashValue;
  sp_path_bits : list bool;
  sp_leaf_key : HashValue;
  sp_exists : bool
}.

(** ** The trait *)

Class StateProvider (P : Type) := {
  get_coins_for_address : P → string → list CoinInfo;
  get_object : P → ObjectId → option bytes;
  get_object_finalized : P → ObjectId → option bytes;
  get_state_root : P → HashValue;
  get_merkle_proof : P → ObjectId → option SimpleMerkleProof;
  get_last_modifying_event : P → ObjectId → option EventId;
  get_last_modifying_event_depth : P → ObjectId → option (EventId * Z);
  current_finalized_depth : P → Z;
  get_object_from_subnet : P → ObjectId → SubnetId → option bytes;
  get_merkle_proof_from_subnet : P → ObjectId → SubnetId → option SimpleMerkleProof;
  get_raw : P → string → option bytes
}.

(** [resolve_subnet_id]: the canonical subnet of a coin type. *)
Definition resolve_subnet_id `{Blake3} `{HexCrate} (s : string) : SubnetId :=
  match Subnet.parse_public_or_hex s with
  | Ok id => id
  | _ => Subnet.from_str_id s
  end.

(** The methods that no implementation overrides. *)
Section Derived.
Context `{Blake3} `{HexCrate} {P : Type} `{StateProvider P}.

Definition get_coins_for_address_by_type (p : P) (address coin_ty : string) : list CoinInfo :=
  filter (fun c => ci_coin_type c = coin_ty) (get_coins_for_address p address).

Definition get_coins_for_address_in_subnet (p : P) (address : string) (subnet : SubnetId) : list CoinInfo :=
  filter (fun c => resolve_subnet_id (ci_coin_type c) = subnet) (get_coins_for_address p address).

Definition get_object_with_proof (p : P) (id : ObjectId) : option (bytes * SimpleMerkleProof) :=
  match get_object p id with
  | None => None
  | Some data => (fun proof => (data, proof)) <$> get_merkle_proof p id
  end.
End Derived.

(** ** [MerkleStateProvider] *)

Record MerkleStateProvider (St : Type) := mkProvider {
  mp_shared : SharedStateManager St;
  mp_default_subnet : SubnetId;
  mp_tracker : gmap HashValue EventId
}.
Arguments mkProvider {St}.
Arguments mp_shared {St} _.
Arguments mp_default_subnet {St} _.
Arguments mp_tracker {St} _.

Definition coin_state_new_with_type (owner : string) (balance : Z) (coin_ty : string) : CoinState :=
  mkCoinState owner balance 1 coin_ty.

Definition info_of (id : ObjectId) (cs : CoinState) : CoinInfo :=
  mkCoinInfo id (cs_owner cs) (cs_balance cs) (cs_version cs) (cs_coin_type cs).

Module MSP.
Section MSP.
Context `{Blake3} `{HexCrate} `{StateBcs} {St : Type}.

Definition new (shared : SharedStateManager St) : MerkleStateProvider St := mkProvider shared SUBNET_ROOT ∅.
Definition with_subnet (shared : SharedStateManager St) (subnet : SubnetId) : MerkleStateProvider St :=
  mkProvider shared subnet ∅.

Definition snapshot (p : MerkleStateProvider St) : GlobalStateManager St := Shared.load_snapshot (mp_shared p).

Definition record_modifications (event_id : EventId) (ids : list HashValue) (p : MerkleStateProvider St)
    : MerkleStateProvider St :=
  mkProvider (mp_shared p) (mp_default_subnet p)
    (foldl (fun m id => <[id := event_id]> m) (mp_tracker p) ids).

Definition clear_modifications (p : MerkleStateProvider St) : MerkleStateProvider St :=
  mkProvider (mp_shared p) (mp_default_subnet p) ∅.

(** The write state is replaced under its lock. *)
Definition on_write (f : GlobalStateManager St → GlobalStateManager St) (p : MerkleStateProvider St)
    : MerkleStateProvider St :=
  mkProvider (Shared.set_write (f (write_gsm (mp_shared p))) (mp_shared p)) (mp_default_subnet p)
    (mp_tracker p).

Definition register_coin_type (address subnet : string) : MerkleStateProvider St → MerkleStateProvider St :=
  on_write (fun g => GS.register_coin_type g address subnet).

Definition get_coin_types_for_address (p : MerkleStateProvider St) (address : string) : gset string :=
  GS.get_coin_types_for_address (snapshot p) address.

(** The rebuilt index is published. *)
Definition rebuild_coin_type_index (p : MerkleStateProvider St) : MerkleStateProvider St * nat :=
  let '(g, n) := GS.rebuild_coin_type_index (write_gsm (mp_shared p)) in
  (mkProvider (Shared.publish_snapshot g (Shared.set_write g (mp_shared p))) (mp_default_subnet p)
     (mp_tracker p), n).

Definition resolve_owner_address (owner : string) : string := show_id (address_normalize owner).

Definition coin_object_id_with_type (address subnet : string) : ObjectId :=
  deterministic_coin_id_from_str (resolve_owner_address address) subnet.
Definition coin_object_id (address : string) : ObjectId := coin_object_id_with_type address "ROOT".

Definition convert_proof (key : HashValue) (proof : SparseMerkleProof) : SimpleMerkleProof :=
  let sibs := siblings proof in
  mkSimpleProof sibs ((fun i => HV.bit key i) <$> seq 0 (length sibs)) key
    (bool_decide (is_Some (proof_leaf proof))).

(** Objects: committed, and merged with the overlay. *)
Definition subnet_object_finalized (p : MerkleStateProvider St) (id : HashValue) (subnet : SubnetId)
    : option bytes :=
  GS.get_subnet (snapshot p) subnet ≫= fun smt => SS.get smt id.
Definition subnet_object (p : MerkleStateProvider St) (id : HashValue) (subnet : SubnetId) : option bytes :=
  Shared.get_subnet_object (Shared.load_overlay_view (mp_shared p)) subnet id.

Definition proof_from_subnet (p : MerkleStateProvider St) (id : HashValue) (subnet : SubnetId)
    : option SimpleMerkleProof :=
  (fun smt => convert_proof id (SS.prove smt id)) <$> GS.get_subnet (snapshot p) subnet.

(** The coin state stored at an id in a subnet. *)
Definition coin_at (g : GlobalStateManager St) (subnet : SubnetId) (id : HashValue) : option CoinState :=
  GS.get_subnet g subnet ≫= fun smt => SS.get smt id ≫= bcs_coin_state_de.

(** An address without an indexed object falls back to its coin in the root
    subnet, whoever owns it. *)
Definition coins_for_address (p : MerkleStateProvider St) (address : string) : list CoinInfo :=
  let addr_hex := resolve_owner_address address in
  let g := snapshot p in
  match GS.get_coin_objects_for_address g addr_hex with
  | [] =>
      let id := coin_object_id addr_hex in
      match coin_at g SUBNET_ROOT id with
      | Some cs => [info_of id cs]
      | None => []
      end
  | objs =>
      omap (fun o : HashValue * string =>
              match coin_at g (resolve_subnet_id o.2) o.1 with
              | Some cs => if bool_decide (cs_owner cs = addr_hex) then Some (info_of o.1 cs) else None
              | None => None
              end) objs
  end.

Definition last_modifying_event (p : MerkleStateProvider St) (id : HashValue) : option EventId :=
  match GS.get_last_modifying_event (snapshot p) id with
  | Some e => Some e
  | None => mp_tracker p !! id
  end.

Definition last_modifying_event_depth (p : MerkleStateProvider St) (id : HashValue) : option (EventId * Z) :=
  match GS.get_last_modifying_event_depth (snapshot p) id with
  | Some e => Some e
  | None => (fun e => (e, 0%Z)) <$> mp_tracker p !! id
  end.

(** *** Initialization *)

(** The subnet a new coin is stored in: the name [ROOT], hexadecimal, or the
    hash of the name. *)
Definition init_subnet (subnet : string) : SubnetId :=
  if bool_decide (subnet = "ROOT") then SUBNET_ROOT
  else match Subnet.from_hex subnet with Ok id => id | _ => Subnet.from_str_id subnet end.

(** One coin, stored and indexed. *)
Definition put_coin `{Bcs} (owner_hex subnet : string) (balance : Z) (id : ObjectId) (g : GlobalStateManager St)
    : GlobalStateManager St :=
  GS.register_coin_object
    (GS.upsert_object g (init_subnet subnet) id
       (bcs_coin_state (coin_state_new_with_type owner_hex balance subnet))).1
    owner_hex subnet id.

Definition init_coin_with_type `{Bcs} (g : GlobalStateManager St) (owner : string) (balance : Z) (subnet : string)
    : GlobalStateManager St * ObjectId :=
  let owner_hex := resolve_owner_address owner in
  let id := coin_object_id_with_type owner_hex subnet in
  (put_coin owner_hex subnet balance id g, id).

Definition init_coin `{Bcs} (g : GlobalStateManager St) (owner : string) (balance : Z)
    : GlobalStateManager St * ObjectId :=
  init_coin_with_type g owner balance "ROOT".

Definition init_coin_with_provider `{Bcs} (p : MerkleStateProvider St) (owner : string) (balance : Z)
    (subnet : string) : MerkleStateProvider St * ObjectId :=
  let '(g, id) := init_coin_with_type (write_gsm (mp_shared p)) owner balance subnet in
  (register_coin_type owner subnet (on_write (fun _ => g) p), id).

Definition mint_subnet_token `{Bcs} (p : MerkleStateProvider St) (subnet subnet_owner : string) (supply : Z)
    : MerkleStateProvider St * ObjectId :=
  init_coin_with_provider p subnet_owner supply subnet.

(** The balance and the id of the coin at an index of a split; [n] coins. *)
Definition split_balance (total n idx : Z) : Z :=
  if (idx =? n - 1)%Z then total - total / n * (n - 1) else total / n.
Definition split_id (owner_hex subnet : string) (idx : Z) : ObjectId :=
  if (idx =? 0)%Z then coin_object_id_with_type owner_hex subnet
  else deterministic_genesis_coin_id owner_hex subnet idx.

Definition init_coins_split `{Bcs} (g : GlobalStateManager St) (owner : string) (total num_coins : Z)
    (subnet : string) : GlobalStateManager St * list ObjectId :=
  let n := Z.max 1 num_coins in
  if (n =? 1)%Z then
    let '(g', id) := init_coin_with_type g owner total subnet in (g', [id])
  else
    let owner_hex := resolve_owner_address owner in
    let idxs := Z.of_nat <$> seq 0 (Z.to_nat n) in
    (foldl (fun g idx => put_coin owner_hex subnet (split_balance total n idx) (split_id owner_hex subnet idx) g)
       g idxs,
     split_id owner_hex subnet <$> idxs).
End MSP.
End MSP.

#[global] Instance MerkleStateProvider_provider `{Blake3} `{HexCrate} `{StateBcs} {St}
    : StateProvider (MerkleStateProvider St) := {|
  get_coins_for_address := MSP.coins_for_address;
  get_object p id := MSP.subnet_object p id (mp_default_subnet p);
  get_object_finalized p id := MSP.subnet_object_finalized p id (mp_default_subnet p);
  get_state_root p := (GS.compute_global_root (MSP.snapshot p)).1;
  get_merkle_proof p id := MSP.proof_from_subnet p id (mp_default_subnet p);
  get_last_modifying_event := MSP.last_modifying_event;
  get_last_modifying_event_depth := MSP.last_modifying_event_depth;
  current_finalized_depth p := last_finalized_depth (MSP.snapshot p);
  get_object_from_subnet := MSP.subnet_object;
  get_merkle_proof_from_subnet := MSP.proof_from_subnet;
  get_raw p key := Shared.get_raw_data (Shared.load_overlay_view (mp_shared p)) key
|}.

(** ** Batch snapshots *)

Record BatchStateSnapshot := mkBatchSnapshot {
  bs_state_root : HashValue;
  bs_version : Z;
  bs_coins : gmap (string * SubnetId) (list CoinInfo);
  bs_objects : gmap ObjectId bytes;
  bs_proofs : gmap ObjectId SimpleMerkleProof;
  bs_events : gmap ObjectId (EventId * Z);
  bs_finalized_depth : Z
}.

Record CoinQuery := mkCoinQuery {
  cq_sender : string;
  cq_canonical : string;
  cq_subnet : SubnetId;
  cq_object_id : ObjectId
}.

Record BatchSnapshotStats := mkBatchStats {
  bst_pairs : nat;
  bst_coins : nat;
  bst_objects : nat;
  bst_proofs : nat;
  bst_events : nat;
  bst_version : Z
}.

Module BSnap.
Section BSnap.
Context `{Blake3} `{HexCrate} `{StateBcs} {St : Type}.

Definition get_coins_for_sender_subnet (s : BatchStateSnapshot) (sender : string) (subnet : SubnetId)
    : option (list CoinInfo) :=
  bs_coins s !! (sender, subnet).
Definition has_coins_for (s : BatchStateSnapshot) (sender : string) (subnet : SubnetId) : bool :=
  bool_decide (is_Some (bs_coins s !! (sender, subnet))).
Definition total_coin_count (s : BatchStateSnapshot) : nat := map_sum (fun _ l => length l) (bs_coins s).
Definition is_valid (s : BatchStateSnapshot) (current_anchor : Z) : bool := (bs_version s =? current_anchor)%Z.

Definition stats (s : BatchStateSnapshot) : BatchSnapshotStats :=
  mkBatchStats (size (bs_coins s)) (total_coin_count s) (size (bs_objects s)) (size (bs_proofs s))
    (size (bs_events s)) (bs_version s).

(** The coins to fetch for a sender in a subnet: the indexed ones, or the
    deterministic one of the root subnet. *)
Definition queries_for (g : GlobalStateManager St) (pair : string * SubnetId) : list CoinQuery :=
  let '(sender, subnet) := pair in
  let canonical := MSP.resolve_owner_address sender in
  match filter (fun o : HashValue * string => resolve_subnet_id o.2 = subnet)
          (GS.get_coin_objects_for_address g canonical) with
  | [] =>
      if bool_decide (subnet = SUBNET_ROOT) then
        [mkCoinQuery sender canonical subnet
           (MSP.coin_object_id_with_type canonical (Subnet.canonical_string subnet))]
      else []
  | objs => (fun o => mkCoinQuery sender canonical subnet o.1) <$> objs
  end.

(** One query; the coin is kept when the sender owns it. *)
Definition fetch (g : GlobalStateManager St) (s : BatchStateSnapshot) (q : CoinQuery) : BatchStateSnapshot :=
  let id := cq_object_id q in
  match GS.get_subnet g (cq_subnet q) with
  | None => s
  | Some smt =>
      match SS.get smt id with
      | None => s
      | Some data =>
          match bcs_coin_state_de data with
          | None => s
          | Some cs =>
              if bool_decide (cs_owner cs ≠ cq_canonical q) then s
              else
                let key := (cq_sender q, cq_subnet q) in
                mkBatchSnapshot (bs_state_root s) (bs_version s)
                  (<[key := default [] (bs_coins s !! key) ++ [info_of id cs]]> (bs_coins s))
                  (<[id := data]> (bs_objects s))
                  (<[id := MSP.convert_proof id (SS.prove smt id)]> (bs_proofs s))
                  (bs_events s) (bs_finalized_depth s)
          end
      end
  end.

Definition add_event (p : MerkleStateProvider St) (s : BatchStateSnapshot) (id : ObjectId) : BatchStateSnapshot :=
  match MSP.last_modifying_event_depth p id with
  | Some e =>
      mkBatchSnapshot (bs_state_root s) (bs_version s) (bs_coins s) (bs_objects s) (bs_proofs s)
        (<[id := e]> (bs_events s)) (bs_finalized_depth s)
  | None => s
  end.

Definition create_batch_snapshot (p : MerkleStateProvider St) (pairs : list (string * SubnetId))
    : BatchStateSnapshot :=
  let g := MSP.snapshot p in
  let queries := concat (queries_for g <$> pairs) in
  let s := foldl (fetch g)
             (mkBatchSnapshot (GS.compute_global_root g).1 (current_anchor g) ∅ ∅ ∅ ∅ (last_finalized_depth g))
             queries in
  foldl (add_event p) s (cq_object_id <$> queries).
End BSnap.
End BSnap.
