(* ===== verification/TaskPreparer.v ===== *)
(** * The preparation of tasks

    [setu-validator/src/task_preparer]: the choice of coins for a transfer, the
    read set, the parents of the event and the task, for single transfers
    ([single.rs], module [TP]) and for batches ([batch.rs], module [BTP]), with
    and without reservation of the coins.  The tasks of Move calls are not
    modelled.

    [now] is the wall clock in milliseconds, [nanos] in nanoseconds.  A
    reservation is one step of the concurrent map of [Reservation]; [turns] is
    what other tasks do before each. *)

From Stdlib Require Import ZArith Lia.
From stdpp Require Import base gmap sets list strings numbers.
From S2P Require Import Prelude Hash Vlc Event Coin StateStore Resource Executor SparseMerkle StateManager Overlay Reservation Task StateProvider.

#[local] Open Scope string_scope.
#[local] Open Scope list_scope.
#[local] Open Scope setu_scope.

(** [bcs::to_bytes] of a proof; [None] is an error. *)
Class ProofBcs := bcs_proof : SimpleMerkleProof → option bytes.

Definition TP_MAX_MERGE_SOURCES : nat := 50.
Definition MAX_CROSS_CF_DEPTH : Z := 200.
Definition COLD_PARENT_MARGIN : Z := 50.
Definition COLD_PARENT_DROP_THRESHOLD : Z := MAX_CROSS_CF_DEPTH - COLD_PARENT_MARGIN.

Inductive CoinSelectionResult :=
| SingleCoin (c : CoinInfo)
| NeedMerge (target : CoinInfo) (sources : list CoinInfo).

(** The errors of the modelled operations. *)
Inductive TaskPrepareError :=
| TInsufficientBalance (required available : Z)
| NoCoinsFound (msg : string)
| TObjectNotFound (id : string)
| EventCreationFailed (msg : string)
| MerkleProofNotAvailable (id : string)
| AllCoinsReserved (sender : string) (coin_count : nat)
| TInvalidInput (msg : string).

Record TaskPreparer (P : Type) := mkPreparer { tp_validator_id : string; tp_provider : P }.
Arguments mkPreparer {P}.
Arguments tp_validator_id {P} _.
Arguments tp_provider {P} _.

(** ** The choice of coins *)

Module Select.

(** Ascending or descending balance, then ascending id. *)
Definition asc (a b : CoinInfo) : bool :=
  if (ci_balance a =? ci_balance b)%Z then HV.leb (ci_object_id a) (ci_object_id b)
  else (ci_balance a <? ci_balance b)%Z.
Definition desc (a b : CoinInfo) : bool :=
  if (ci_balance a =? ci_balance b)%Z then HV.leb (ci_object_id a) (ci_object_id b)
  else (ci_balance b <? ci_balance a)%Z.

Definition eligible (coins : list CoinInfo) (amount : Z) : list CoinInfo :=
  stable_sort asc (filter (fun c => (amount ≤ ci_balance c)%Z) coins).

(** The loop over the coins, the largest first: the chosen coins and their sum,
    which saturates. *)
Fixpoint greedy (amount : Z) (coins selected : list CoinInfo) (accumulated : Z) : list CoinInfo * Z :=
  match coins with
  | [] => (selected, accumulated)
  | c :: rest =>
      let selected := selected ++ [c] in
      let accumulated := default u64_max (checked_add u64_max accumulated (ci_balance c)) in
      if (amount <=? accumulated)%Z then (selected, accumulated)
      else if (TP_MAX_MERGE_SOURCES + 1 <=? length selected)%nat then (selected, accumulated)
      else greedy amount rest selected accumulated
  end.

Definition select_coins_for_transfer (coins : list CoinInfo) (amount : Z)
    : result TaskPrepareError CoinSelectionResult :=
  if (amount =? 0)%Z then Err (TInvalidInput "Transfer amount must be > 0")
  else if bool_decide (coins = []) then Err (NoCoinsFound "sender has no coins")
  else
    match eligible coins amount with
    | c :: _ => Ok (SingleCoin c)
    | [] =>
        let '(selected, accumulated) := greedy amount (stable_sort desc coins) [] 0 in
        if (accumulated <? amount)%Z then Err (TInsufficientBalance amount accumulated)
        else
          match selected with
          | [] => Panic
          | target :: sources => Ok (NeedMerge target sources)
          end
    end.

Definition select_coin_for_transfer (coins : list CoinInfo) (amount : Z) : result TaskPrepareError CoinInfo :=
  let? sel := select_coins_for_transfer coins amount in
  match sel with
  | SingleCoin c => Ok c
  | NeedMerge target _ => Ok target
  end.
End Select.

(** ** Single transfers *)

Module TP.
Section TP.
Context `{Blake3} `{HexCrate} `{ProofBcs} {P : Type} `{StateProvider P}.
Context (now nanos : Z).

Definition resolved (c : CoinInfo) : ResolvedObject := mkResolvedObject (ci_object_id c) "Coin" (ci_version c).

(** The snapshot with a logical and a physical time. *)
Definition vlc_at (node : string) (logical physical : Z) : VLCSnapshot :=
  mkVLCSnapshot (VC.with_node node) logical physical.

Definition generate_vlc_snapshot (tp : TaskPreparer P) : VLCSnapshot :=
  vlc_at (tp_validator_id tp) nanos (nanos / 1000000).

Definition transfer_vlc (validator_id : string) (t : TransferReq) : VLCSnapshot :=
  match tr_assigned_vlc t with
  | Some v => vlc_at (av_validator_id v) (av_logical_time v) (av_physical_time v)
  | None => vlc_at validator_id nanos (nanos / 1000000)
  end.

Definition create_event_from_transfer (validator_id : string) (t : TransferReq) (parents : list EventId)
    (subnet : SubnetId) : TaskEvent :=
  TE.with_subnet subnet
    (TE.with_transfer t
       (TE.new Transfer parents (transfer_vlc validator_id t) validator_id now)).

(** The parent edge of one object that is kept. *)
Definition kept_parent (floor : Z) (e : EventId * Z) : option EventId :=
  if bool_decide (e.1 = TE.genesis_event_id) then None
  else if (COLD_PARENT_DROP_THRESHOLD <=? saturating_sub floor e.2)%Z then None
  else Some e.1.

Definition derive_dependencies (p : P) (ids : list ObjectId) : list EventId :=
  let floor := current_finalized_depth p in
  foldl (fun parents id =>
           match get_last_modifying_event_depth p id ≫= kept_parent floor with
           | Some e => if bool_decide (e ∈ parents) then parents else parents ++ [e]
           | None => parents
           end) [] ids.

Definition proof_bytes (p : P) (id : ObjectId) (subnet : SubnetId) : bytes :=
  default [] (get_merkle_proof_from_subnet p id subnet ≫= bcs_proof).

(** An object with its proof, from one subnet. *)
Definition read_entry (p : P) (subnet : SubnetId) (id : ObjectId) : result TaskPrepareError ReadSetEntry :=
  match get_object_from_subnet p id subnet with
  | None => Err (TObjectNotFound (hex_encode (hv_bytes id)))
  | Some data => Ok (RS.with_proof (proof_bytes p id subnet) (RS.new (object_key id) data))
  end.

Fixpoint build_read_set (p : P) (subnet : SubnetId) (ids : list ObjectId)
    : result TaskPrepareError (list ReadSetEntry) :=
  match ids with
  | [] => Ok []
  | id :: rest =>
      let? e := read_entry p subnet id in
      let? es := build_read_set p subnet rest in
      Ok (e :: es)
  end.

(** Flux and Power of the sender and the resource parameters, when present. *)
Definition optional_entry (id : ObjectId) (data : option bytes) : list ReadSetEntry :=
  match data with
  | Some b => [RS.new (object_key id) b]
  | None => []
  end.

Definition resource_entries (p : P) (from : string) : list ReadSetEntry :=
  optional_entry (flux_state_object_id from) (get_object p (flux_state_object_id from))
    ++ optional_entry (power_state_object_id from) (get_object p (power_state_object_id from))
    ++ optional_entry resource_params_object_id
         (get_object_from_subnet p resource_params_object_id SUBNET_GOVERNANCE).

Definition make_task (event : TaskEvent) (inputs : ResolvedInputs) (root : HashValue) (subnet : SubnetId)
    (read_set : list ReadSetEntry) : SolverTask :=
  ST.with_gas_budget Gas.budget_default
    (ST.with_read_set read_set
       (ST.new (ST.generate_task_id event root) event inputs root subnet)).

(** The task of a transfer of one coin. *)
Definition single_coin_task (tp : TaskPreparer P) (t : TransferReq) (subnet : SubnetId) (coin : CoinInfo)
    : result TaskPrepareError SolverTask :=
  let p := tp_provider tp in
  let parents := derive_dependencies p [ci_object_id coin] in
  let? entry := read_entry p subnet (ci_object_id coin) in
  Ok (make_task (create_event_from_transfer (tp_validator_id tp) t parents subnet)
        (RI.transfer (resolved coin) (tr_amount t)) (get_state_root p) subnet
        (entry :: resource_entries p (tr_from t))).

(** The tasks of the coin operations: an event of the type with the payload,
    over the read set of the coins. *)
Definition coin_task (tp : TaskPreparer P) (ty : EventType) (pl : EventPayload) (inputs : ResolvedInputs)
    (ids : list ObjectId) (subnet : SubnetId) : result TaskPrepareError SolverTask :=
  let p := tp_provider tp in
  let parents := derive_dependencies p ids in
  let? read_set := build_read_set p subnet ids in
  let event :=
    TE.with_subnet subnet
      (TE.with_payload pl (TE.new ty parents (generate_vlc_snapshot tp) (tp_validator_id tp) now)) in
  Ok (make_task event inputs (get_state_root p) subnet read_set).

Definition hex_id (c : CoinInfo) : string := hex_encode (hv_bytes (ci_object_id c)).

Definition prepare_merge_task (tp : TaskPreparer P) (target : CoinInfo) (sources : list CoinInfo)
    (subnet : SubnetId) : result TaskPrepareError SolverTask :=
  if bool_decide (sources = []) then
    Err (TInvalidInput "Must provide at least one source coin to merge")
  else
    coin_task tp CoinMerge (PayloadCoinMerge (hex_id target) (hex_id <$> sources))
      (RI.merge_coins (resolved target) (resolved <$> sources))
      (ci_object_id target :: (ci_object_id <$> sources)) subnet.

Definition prepare_split_task (tp : TaskPreparer P) (source : CoinInfo) (amounts : list Z) (subnet : SubnetId)
    : result TaskPrepareError SolverTask :=
  if bool_decide (amounts = []) then Err (TInvalidInput "Split amounts cannot be empty")
  else if existsb (fun a => a =? 0)%Z amounts then
    Err (TInvalidInput "Split amount must be > 0 (zero-balance coins are not allowed)")
  else
    match try_sum amounts 0 with
    | None => Err (TInvalidInput "Split amounts overflow u64")
    | Some total =>
        if (ci_balance source <? total)%Z then Err (TInsufficientBalance total (ci_balance source))
        else
          coin_task tp CoinSplit (PayloadCoinSplit (hex_id source) amounts)
            (RI.split_coin (resolved source) amounts) [ci_object_id source] subnet
    end.

(** The sum of the balances wraps around. *)
Definition merged_balance (target : CoinInfo) (sources : list CoinInfo) : Z :=
  u64_add (ci_balance target) (foldl (fun acc c => u64_add acc (ci_balance c)) 0%Z sources).

Definition prepare_merge_then_transfer_task (tp : TaskPreparer P) (target : CoinInfo) (sources : list CoinInfo)
    (recipient : Address) (amount : Z) (subnet : SubnetId) : result TaskPrepareError SolverTask :=
  if bool_decide (sources = []) then
    Err (TInvalidInput "Must provide at least one source coin to merge")
  else if (merged_balance target sources <? amount)%Z then
    Err (TInsufficientBalance amount (merged_balance target sources))
  else
    coin_task tp CoinMergeThenTransfer
      (PayloadCoinMergeThenTransfer (hex_id target) (hex_id <$> sources) (show_id recipient) amount)
      (RI.merge_then_transfer (resolved target) (resolved <$> sources) recipient amount)
      (ci_object_id target :: (ci_object_id <$> sources)) subnet.

Definition prepare_transfer_task (tp : TaskPreparer P) (t : TransferReq) (subnet : SubnetId)
    : result TaskPrepareError SolverTask :=
  let coins := get_coins_for_address_in_subnet (tp_provider tp) (tr_from t) subnet in
  let? selection := Select.select_coins_for_transfer coins (tr_amount t) in
  match selection with
  | NeedMerge target sources =>
      prepare_merge_then_transfer_task tp target sources (address_normalize (tr_to t)) (tr_amount t) subnet
  | SingleCoin coin => single_coin_task tp t subnet coin
  end.

(** *** With reservation *)

(** The first coin that can be reserved. *)
Fixpoint reserve_first (turns : nat → CR.Turn) (i : nat) (coins : list CoinInfo) (amount : Z) (tid : string)
    (m : CoinReservationManager) : CoinReservationManager * option (CoinInfo * ReservationHandle) :=
  match coins with
  | [] => (m, None)
  | c :: rest =>
      let t := turns i in
      match CR.try_reserve (ci_object_id c) amount tid (CR.turn_id t) (CR.turn_now t) (CR.turn_env t m) with
      | (m', Some h) => (m', Some (c, h))
      | (m', None) => reserve_first turns (S i) rest amount tid m'
      end
  end.

Definition prepare_transfer_task_with_reservation (turns : nat → CR.Turn) (tp : TaskPreparer P)
    (t : TransferReq) (subnet : SubnetId)
    : stm CoinReservationManager TaskPrepareError (SolverTask * list ReservationHandle) := fun m =>
  let coins := get_coins_for_address_in_subnet (tp_provider tp) (tr_from t) subnet in
  if bool_decide (coins = []) then
    (m, Err (NoCoinsFound ("sender " +:+ tr_from t +:+ " has no coins in subnet "
                             +:+ Subnet.canonical_string subnet)))
  else
    match Select.select_coins_for_transfer coins (tr_amount t) with
    | Err e => (m, Err e)
    | Panic => (m, Panic)
    | Ok (SingleCoin _) =>
        let eligible := Select.eligible coins (tr_amount t) in
        match reserve_first turns 0 eligible (tr_amount t) (tr_id t) m with
        | (m', None) => (m', Err (AllCoinsReserved (tr_from t) (length eligible)))
        | (m', Some (coin, h)) =>
            (m', let? task := single_coin_task tp t subnet coin in Ok (task, [h]))
        end
    | Ok (NeedMerge target sources) =>
        let items := (fun c => (ci_object_id c, ci_balance c)) <$> (target :: sources) in
        match CR.try_reserve_batch turns items (tr_id t) m with
        | (m', None) => (m', Err (AllCoinsReserved (tr_from t) (1 + length sources)))
        | (m', Some handles) =>
            match prepare_merge_then_transfer_task tp target sources (address_normalize (tr_to t))
                    (tr_amount t) subnet with
            | Ok task => (m', Ok (task, handles))
            | Err e => (CR.release_batch handles m', Err e)
            | Panic => (m', Panic)
            end
        end
    end.
End TP.
End TP.

(** ** Batches *)

Record BatchPrepareStats := mkPrepareStats {
  total_transfers : nat;
  bp_successful : nat;
  bp_failed : nat;
  unique_sender_subnet_pairs : nat;
  coins_selected : nat;
  same_sender_conflicts : nat
}.

Record BatchPrepareResult := mkBatchResult {
  bp_tasks : list SolverTask;
  bp_failures : list (TransferReq * TaskPrepareError);
  bp_stats : BatchPrepareStats;
  bp_snapshot_version : Z;
  bp_reservations : list (option ReservationHandle)
}.

Module BTP.
Section BTP.
Context `{Blake3} `{HexCrate} `{StateBcs} `{ProofBcs} {St : Type}.
Context (now nanos : Z).

Abbreviation Prov := (MerkleStateProvider St).
Abbreviation Groups := (gmap (string * SubnetId) (list (nat * TransferReq))).
Abbreviation Failures := (list (TransferReq * TaskPrepareError)).

(** The text of the resolver's error is left out. *)
Definition resolve (t : TransferReq) : result TaskPrepareError SubnetId :=
  match Tr.resolve_subnet_id t with
  | Ok id => Ok id
  | Err _ => Err (TInvalidInput ("invalid subnet_id " +:+ default "" (tr_subnet_id t)))
  | Panic => Panic
  end.

(** The pairs of a batch, and its transfers by pair; a transfer whose subnet
    does not resolve fails. *)
Definition pairs_of (ts : list TransferReq) : gset (string * SubnetId) :=
  foldl (fun s t => match resolve t with Ok sn => {[(tr_from t, sn)]} ∪ s | _ => s end) ∅ ts.

Definition group_step (st : Groups * Failures) (it : nat * TransferReq) : Groups * Failures :=
  match resolve it.2 with
  | Ok sn => (<[(tr_from it.2, sn) := default [] (st.1 !! (tr_from it.2, sn)) ++ [it]]> st.1, st.2)
  | Err e => (st.1, st.2 ++ [(it.2, e)])
  | Panic => st
  end.

Definition group (ts : list TransferReq) : Groups * Failures :=
  foldl group_step (∅, []) (zip (seq 0 (length ts)) ts).

(** What is left of a coin after the transfers of the batch chosen so far. *)
Definition remaining (rb : gmap ObjectId Z) (c : CoinInfo) : Z := default (ci_balance c) (rb !! ci_object_id c).

Definition deduct (c : CoinInfo) (amount : Z) (rb : gmap ObjectId Z) : gmap ObjectId Z :=
  <[ci_object_id c := saturating_sub (remaining rb c) amount]> rb.

Definition eligible (rb : gmap ObjectId Z) (coins : list CoinInfo) (amount : Z) : list CoinInfo :=
  filter (fun c => (amount ≤ remaining rb c)%Z) coins.

(** [select_coin_for_transfer] of the batch. *)
Definition select_smallest (coins : list CoinInfo) : result TaskPrepareError CoinInfo :=
  match stable_sort Select.asc coins with
  | c :: _ => Ok c
  | [] => Err (NoCoinsFound "no eligible coins with sufficient balance")
  end.

(** The state of the choice: the chosen coins by index, what is left of the
    coins, the failures and the conflicts. *)
Record Chosen (A : Type) := mkChosen {
  ch_coins : gmap nat (CoinInfo * SubnetId * A);
  ch_remaining : gmap ObjectId Z;
  ch_failures : Failures;
  ch_conflicts : nat
}.
#[global] Arguments mkChosen {A}.
#[global] Arguments ch_coins {A} _.
#[global] Arguments ch_remaining {A} _.
#[global] Arguments ch_failures {A} _.
#[global] Arguments ch_conflicts {A} _.

Definition chosen_fail {A} (t : TransferReq) (e : TaskPrepareError) (conflict : bool) (s : Chosen A) : Chosen A :=
  mkChosen (ch_coins s) (ch_remaining s) (ch_failures s ++ [(t, e)])
    (if conflict then S (ch_conflicts s) else ch_conflicts s).

Definition chosen_take {A} (idx : nat) (t : TransferReq) (c : CoinInfo) (sn : SubnetId) (a : A) (s : Chosen A)
    : Chosen A :=
  mkChosen (<[idx := (c, sn, a)]> (ch_coins s)) (deduct c (tr_amount t) (ch_remaining s)) (ch_failures s)
    (ch_conflicts s).

Definition choose (available : list CoinInfo) (sn : SubnetId) (s : Chosen unit) (it : nat * TransferReq)
    : Chosen unit :=
  let el := eligible (ch_remaining s) available (tr_amount it.2) in
  match select_smallest el with
  | Ok c => chosen_take it.1 it.2 c sn tt s
  | Err e =>
      chosen_fail it.2 e (negb (bool_decide (available = [])) && bool_decide (el = [])) s
  | Panic => s
  end.

(** The choice with reservation; the third component counts the attempts. *)
Definition choose_reserved (turns : nat → CR.Turn) (available : list CoinInfo) (sender : string) (sn : SubnetId)
    (st : Chosen ReservationHandle * CoinReservationManager * nat) (it : nat * TransferReq)
    : Chosen ReservationHandle * CoinReservationManager * nat :=
  let '(s, m, i) := st in
  let el := eligible (ch_remaining s) available (tr_amount it.2) in
  if bool_decide (el = []) then
    (chosen_fail it.2 (NoCoinsFound "no eligible coins with sufficient balance")
       (negb (bool_decide (available = []))) s, m, i)
  else
    let sorted := stable_sort (fun a b => ci_balance a <=? ci_balance b)%Z el in
    match TP.reserve_first turns i sorted (tr_amount it.2) (tr_id it.2) m with
    | (m', Some (c, h)) => (chosen_take it.1 it.2 c sn h s, m', (i + length el)%nat)
    | (m', None) => (chosen_fail it.2 (AllCoinsReserved sender (length el)) false s, m', (i + length el)%nat)
    end.

(** [derive_dependencies_from_snapshot]. *)
Definition snapshot_parents (snap : BatchStateSnapshot) (id : ObjectId) : list EventId :=
  match bs_events snap !! id ≫= TP.kept_parent (bs_finalized_depth snap) with
  | Some e => [e]
  | None => []
  end.

Definition assemble_task (bp : TaskPreparer Prov) (t : TransferReq) (coin : CoinInfo) (data : bytes)
    (proof : option SimpleMerkleProof) (subnet : SubnetId) (root : HashValue) (snap : BatchStateSnapshot)
    : SolverTask :=
  let entry := RS.with_proof (default [] (proof ≫= bcs_proof)) (RS.new (object_key (ci_object_id coin)) data) in
  TP.make_task
    (TP.create_event_from_transfer now nanos (tp_validator_id bp) t
       (snapshot_parents snap (ci_object_id coin)) subnet)
    (RI.transfer (TP.resolved coin) (tr_amount t)) root subnet
    (entry :: TP.resource_entries (tp_provider bp) (tr_from t)).

(** One chosen coin becomes a task, or fails. *)
Definition assemble (bp : TaskPreparer Prov) (snap : BatchStateSnapshot) (t : TransferReq) (c : CoinInfo)
    (sn : SubnetId) : result TaskPrepareError SolverTask :=
  match bs_objects snap !! ci_object_id c with
  | None => Err (TObjectNotFound (hex_encode (hv_bytes (ci_object_id c))))
  | Some data =>
      Ok (assemble_task bp t c data (bs_proofs snap !! ci_object_id c) sn (bs_state_root snap) snap)
  end.

Definition stats_of (ts : list TransferReq) (tasks : list SolverTask) (failures : Failures) (selected conflicts : nat)
    : BatchPrepareStats :=
  mkPrepareStats (length ts) (length tasks) (length failures) (size (pairs_of ts)) selected conflicts.

Definition prepare_transfers_batch (bp : TaskPreparer Prov) (ts : list TransferReq) : BatchPrepareResult :=
  if bool_decide (ts = []) then mkBatchResult [] [] (mkPrepareStats 0 0 0 0 0 0) 0 []
  else
    let snap := BSnap.create_batch_snapshot (tp_provider bp) (elements (pairs_of ts)) in
    let '(groups, failures0) := group ts in
    let chosen :=
      foldl (fun s g =>
               let available := default [] (bs_coins snap !! g.1) in
               foldl (choose available g.1.2) s g.2)
        (mkChosen ∅ ∅ failures0 0) (map_to_list groups) in
    let '(tasks, failures) :=
      foldl (fun (acc : list SolverTask * Failures) (e : nat * (CoinInfo * SubnetId * unit)) =>
               match ts !! e.1 with
               | None => acc
               | Some t =>
                   match assemble bp snap t e.2.1.1 e.2.1.2 with
                   | Ok task => (acc.1 ++ [task], acc.2)
                   | Err err => (acc.1, acc.2 ++ [(t, err)])
                   | Panic => acc
                   end
               end) ([], ch_failures chosen) (map_to_list (ch_coins chosen)) in
    mkBatchResult tasks failures
      (stats_of ts tasks failures (size (ch_coins chosen)) (ch_conflicts chosen)) (bs_version snap) [].

Definition prepare_transfers_batch_with_reservation (turns : nat → CR.Turn) (bp : TaskPreparer Prov)
    (ts : list TransferReq) (m : CoinReservationManager) : CoinReservationManager * BatchPrepareResult :=
  if bool_decide (ts = []) then (m, mkBatchResult [] [] (mkPrepareStats 0 0 0 0 0 0) 0 [])
  else
    let snap := BSnap.create_batch_snapshot (tp_provider bp) (elements (pairs_of ts)) in
    let '(groups, failures0) := group ts in
    let '(chosen, m1, _) :=
      foldl (fun st g =>
               let available := default [] (bs_coins snap !! g.1) in
               foldl (choose_reserved turns available g.1.1 g.1.2) st g.2)
        (mkChosen ∅ ∅ failures0 0, m, 0%nat) (map_to_list groups) in
    let entries :=
      omap (fun idx => (fun c => (idx, c)) <$> ch_coins chosen !! idx) (seq 0 (length ts)) in
    let '(tasks, handles, failures, m2) :=
      foldl (fun (acc : list SolverTask * list (option ReservationHandle) * Failures * CoinReservationManager)
                 (e : nat * (CoinInfo * SubnetId * ReservationHandle)) =>
               let '(tasks, handles, failures, m) := acc in
               let '(idx, (c, sn, h)) := e in
               match ts !! idx with
               | None => acc
               | Some t =>
                   match assemble bp snap t c sn with
                   | Ok task => (tasks ++ [task], handles ++ [Some h], failures, m)
                   | Err err => (tasks, handles, failures ++ [(t, err)], CR.release h m)
                   | Panic => acc
                   end
               end) ([], [], ch_failures chosen, m1) entries in
    (m2, mkBatchResult tasks failures
           (stats_of ts tasks failures (size (ch_coins chosen)) (ch_conflicts chosen)) (bs_version snap) handles).
End BTP.
End BTP.
