(* ===== verification/SelectProps.v ===== *)
(** * The choice of coins and parents

    What [select_coins_for_transfer] chooses, that it does not depend on the
    order of the coins, and which parents a prepared event has. *)

From Stdlib Require Import ZArith Lia Sorting.Sorted.
From stdpp Require Import base gmap sets list sorting strings numbers.
From S2P Require Import Prelude Hash Vlc Event Coin StateStore Resource Executor ExecutorSpec ExecutorProps SparseMerkle StateManager Overlay Reservation Task StateProvider TaskPreparer.

#[local] Open Scope list_scope.
#[local] Open Scope Z_scope.

(** ** Sorting *)

Section Sorted.
Context {A : Type} (le : A → A → bool).
Abbreviation R := (fun a b => le a b = true).
Context (le_total : ∀ a b, le a b = true ∨ le b a = true).
Context (le_trans : ∀ a b c, le a b = true → le b c = true → le a c = true).

Lemma sort_insert_sorted x l : StronglySorted R l → StronglySorted R (sort_insert le x l).
Proof.
  induction 1 as [|y l Hl IH Hy]; simpl; [by repeat constructor|].
  destruct (le x y) eqn:E.
  - constructor; [by constructor|]. constructor; [done|].
    eapply list.Forall_impl; [exact Hy|]. simpl. intros z Hz. by apply (le_trans x y z).
  - constructor; [done|]. rewrite sort_insert_perm. constructor; [|done].
    destruct (le_total x y) as [?|?]; [congruence|done].
Qed.

Lemma stable_sort_sorted l : StronglySorted R (stable_sort le l).
Proof. induction l as [|x l IH]; simpl; [constructor|]. by apply sort_insert_sorted. Qed.

(** Sorting forgets the order of elements the relation tells apart. *)
Lemma stable_sort_unique l l' :
  (∀ a b, a ∈ l → b ∈ l → le a b = true → le b a = true → a = b) →
  l ≡ₚ l' → stable_sort le l = stable_sort le l'.
Proof.
  intros Hanti Hp. apply (StronglySorted_unique_strong R).
  - intros a b Ha Hb. rewrite stable_sort_perm in Ha. rewrite stable_sort_perm, <-Hp in Hb.
    by apply Hanti.
  - apply stable_sort_sorted.
  - apply stable_sort_sorted.
  - by rewrite !stable_sort_perm.
Qed.
End Sorted.

Lemma asc_total a b : Select.asc a b = true ∨ Select.asc b a = true.
Proof.
  unfold Select.asc. destruct (Z.eqb_spec (ci_balance a) (ci_balance b)) as [E|E].
  - rewrite <-E, Z.eqb_refl. apply bytes_leb_total.
  - rewrite (proj2 (Z.eqb_neq (ci_balance b) (ci_balance a))) by lia. rewrite !Z.ltb_lt. lia.
Qed.

Lemma asc_trans a b c : Select.asc a b = true → Select.asc b c = true → Select.asc a c = true.
Proof.
  unfold Select.asc, HV.leb.
  destruct (Z.eqb_spec (ci_balance a) (ci_balance b)), (Z.eqb_spec (ci_balance b) (ci_balance c)),
    (Z.eqb_spec (ci_balance a) (ci_balance c)); rewrite ?Z.ltb_lt; try lia.
  apply bytes_leb_trans.
Qed.

Lemma desc_flip a b :
  Select.desc a b = true ↔ ci_balance b < ci_balance a ∨
    ci_balance a = ci_balance b ∧ HV.leb (ci_object_id a) (ci_object_id b) = true.
Proof.
  unfold Select.desc. destruct (Z.eqb_spec (ci_balance a) (ci_balance b)); rewrite ?Z.ltb_lt; intuition lia.
Qed.

Lemma asc_iff a b :
  Select.asc a b = true ↔ ci_balance a < ci_balance b ∨
    ci_balance a = ci_balance b ∧ HV.leb (ci_object_id a) (ci_object_id b) = true.
Proof.
  unfold Select.asc. destruct (Z.eqb_spec (ci_balance a) (ci_balance b)); rewrite ?Z.ltb_lt; intuition lia.
Qed.

Lemma desc_total a b : Select.desc a b = true ∨ Select.desc b a = true.
Proof.
  rewrite !desc_flip. destruct (bytes_leb_total (hv_bytes (ci_object_id a)) (hv_bytes (ci_object_id b)));
    unfold HV.leb; destruct (Z.lt_trichotomy (ci_balance a) (ci_balance b)) as [?|[?|?]]; intuition lia.
Qed.

Lemma desc_trans a b c : Select.desc a b = true → Select.desc b c = true → Select.desc a c = true.
Proof.
  rewrite !desc_flip. unfold HV.leb. intros [?|[? ?]] [?|[? ?]]; [left; lia..|].
  right. split; [lia|]. by eapply bytes_leb_trans.
Qed.

(** Among coins with distinct ids the order is strict. *)
Lemma coins_distinct coins a b :
  NoDup (ci_object_id <$> coins) → a ∈ coins → b ∈ coins →
  HV.leb (ci_object_id a) (ci_object_id b) = true → HV.leb (ci_object_id b) (ci_object_id a) = true → a = b.
Proof.
  intros Hnd Ha Hb Hab Hba.
  assert (E : ci_object_id a = ci_object_id b) by (by apply leb_antisym).
  apply list_elem_of_lookup in Ha as [i Hi], Hb as [j Hj].
  assert (i = j) as ->; [|congruence].
  eapply (NoDup_lookup _ _ _ (ci_object_id a) Hnd); rewrite list_lookup_fmap, ?Hi, ?Hj; simpl; congruence.
Qed.

(** ** Sums of balances *)

Definition total (l : list CoinInfo) : Z := sumZ (ci_balance <$> l).

Definition balances_u64 (l : list CoinInfo) : Prop := Forall (fun c => is_u64 (ci_balance c)) l.

Lemma total_app l l' : total (l ++ l') = total l + total l'.
Proof.
  unfold total. rewrite fmap_app. induction l as [|c l IH]; [done|].
  change (ci_balance c + sumZ ((ci_balance <$> l) ++ (ci_balance <$> l')) =
          ci_balance c + sumZ (ci_balance <$> l) + sumZ (ci_balance <$> l')). lia.
Qed.

Lemma total_cons c l : total (c :: l) = ci_balance c + total l.
Proof. done. Qed.

Lemma total_perm l l' : l ≡ₚ l' → total l = total l'.
Proof. intros H. unfold total. apply sumZ_perm. by rewrite H. Qed.

Lemma total_nonneg l : balances_u64 l → 0 ≤ total l.
Proof. induction 1 as [|c l [? _] _ IH]; [done|]. rewrite total_cons. lia. Qed.

Lemma balances_submseteq l l' : balances_u64 l' → l ⊆+ l' → balances_u64 l.
Proof.
  unfold balances_u64. rewrite !list.Forall_forall. intros H Hs c Hc. apply H. by eapply elem_of_submseteq.
Qed.

(** The first [k] coins of the descending order are the most valuable choice of
    at most [k] coins. *)
Lemma largest_first l s k :
  StronglySorted (fun a b => Select.desc a b = true) l → balances_u64 l →
  s ⊆+ l → (length s ≤ k)%nat → total s ≤ total (take k l).
Proof.
  intros Hl Hb. revert s k. induction Hl as [|x l Hl IH Hx]; intros s k Hs Hk.
  { apply submseteq_nil_r in Hs as ->. by rewrite take_nil. }
  apply list.Forall_cons in Hb as [Hbx Hb]. specialize (IH Hb).
  assert (Hnn : ∀ k, 0 ≤ total (take k l)).
  { intros k'. apply total_nonneg. eapply balances_submseteq; [done|]. apply sublist_submseteq, sublist_take. }
  destruct k as [|k]. { destruct s; [done|simpl in Hk; lia]. }
  cbn [take]. rewrite total_cons.
  apply submseteq_cons_r in Hs as [Hs|(s' & Hs' & Hs)].
  - destruct s as [|y s]. { change (total []) with 0. specialize (Hnn k). destruct Hbx. lia. }
    assert (Hy : ci_balance y ≤ ci_balance x).
    { rewrite list.Forall_forall in Hx. specialize (Hx y). rewrite desc_flip in Hx.
      destruct Hx; [|lia..]. eapply elem_of_submseteq; [|done]. set_solver. }
    rewrite total_cons. assert (total s ≤ total (take k l)); [|lia].
    apply IH; [|simpl in Hk; lia]. etrans; [|done]. by apply submseteq_cons.
  - rewrite (total_perm _ _ Hs'), total_cons. rewrite Hs' in Hk. simpl in Hk.
    specialize (IH s' k Hs ltac:(lia)). lia.
Qed.

(** ** The loop *)

(** Where it stops: with enough, or with as many coins as it may take. *)
Lemma greedy_spec amount coins sel acc :
  balances_u64 (sel ++ coins) → is_u64 amount → acc = Z.min u64_max (total sel) → acc < amount →
  (length sel ≤ TP_MAX_MERGE_SOURCES)%nat →
  ∃ k, let r := Select.greedy amount coins sel acc in
    (length (take k coins) = k)%nat ∧ r = (sel ++ take k coins, Z.min u64_max (total (sel ++ take k coins))) ∧
    (length sel + k ≤ S TP_MAX_MERGE_SOURCES)%nat ∧
    (∀ j, (j < k)%nat → total (sel ++ take j coins) < amount) ∧
    (r.2 < amount → take k coins = coins ∨ (length sel + k = S TP_MAX_MERGE_SOURCES)%nat).
Proof.
  revert sel acc. induction coins as [|c coins IH]; intros sel acc Hb Hu Hacc Hlt Hlen.
  { exists 0%nat. cbn [Select.greedy take length]. rewrite app_nil_r. subst acc. split_and!; [done..|lia| |by left].
    intros j ?. lia. }
  cbn [Select.greedy].
  set (acc' := default u64_max _).
  assert (Hc : is_u64 (ci_balance c)).
  { unfold balances_u64 in Hb. rewrite list.Forall_app, list.Forall_cons in Hb. tauto. }
  assert (Htot : 0 ≤ total sel).
  { apply total_nonneg. unfold balances_u64 in Hb. rewrite list.Forall_app in Hb. tauto. }
  assert (Hacc' : acc' = Z.min u64_max (total (sel ++ [c]))).
  { unfold acc'. rewrite total_app, total_cons. change (total []) with 0. unfold is_u64 in *.
    destruct (checked_add u64_max acc (ci_balance c)) as [z|] eqn:E.
    - apply checked_add_Some in E as [-> ?]. simpl. lia.
    - simpl. unfold checked_add in E. case_match eqn:E'; [done|]. apply Z.leb_gt in E'. lia. }
  assert (Hsel : total sel < amount) by (unfold is_u64 in *; lia).
  rewrite length_app. cbn [length].
  destruct (Z.leb_spec amount acc') as [Hge|Hlt'];
    [|destruct (Nat.leb_spec (TP_MAX_MERGE_SOURCES + 1) (length sel + 1)) as [Hfull|Hroom]].
  - exists 1%nat. simpl. split_and!; [done|by rewrite Hacc'|lia| |lia].
    intros j ?. assert (j = 0)%nat as -> by lia. simpl. by rewrite app_nil_r.
  - exists 1%nat. simpl. split_and!; [done|by rewrite Hacc'|lia| |right; lia].
    intros j ?. assert (j = 0)%nat as -> by lia. simpl. by rewrite app_nil_r.
  - destruct (IH (sel ++ [c]) acc') as (k & Hk & Hr & Hlk & Hj & Hend).
    + by rewrite <-app_assoc.
    + done.
    + done.
    + done.
    + rewrite length_app. simpl. lia.
    + exists (S k). cbn [take length]. rewrite <-app_assoc in Hr. rewrite length_app in Hlk, Hend. simpl in Hlk, Hend.
      split_and!; [by rewrite Hk|exact Hr|lia| |].
      * intros [|j] ?; cbn [take]; [by rewrite app_nil_r|]. specialize (Hj j ltac:(lia)).
        by rewrite <-app_assoc in Hj.
      * intros Hd. destruct (Hend Hd) as [->|?]; [by left|right; lia].
Qed.

(** ** What is chosen *)

(** The contract of the choice: one coin that covers the amount, the smallest
    such coin; or the fewest coins that cover it together, at most 51, when no
    single coin does; a refusal only when no 51 coins do. *)
Definition selection_spec (coins : list CoinInfo) (amount : Z)
    (r : result TaskPrepareError CoinSelectionResult) : Prop :=
  match r with
  | Ok (SingleCoin c) =>
      0 < amount ∧ c ∈ coins ∧ amount ≤ ci_balance c ∧
      ∀ c', c' ∈ coins → amount ≤ ci_balance c' → Select.asc c c' = true
  | Ok (NeedMerge t ss) =>
      0 < amount ∧ (∀ c, c ∈ coins → ci_balance c < amount) ∧
      t :: ss ⊆+ coins ∧ (1 ≤ length ss ≤ TP_MAX_MERGE_SOURCES)%nat ∧ amount ≤ total (t :: ss) ∧
      (∀ c, c ∈ ss → ci_balance c ≤ ci_balance t) ∧
      ∀ s, s ⊆+ coins → amount ≤ total s → (length (t :: ss) ≤ length s)%nat
  | Err (TInvalidInput _) => amount = 0
  | Err (NoCoinsFound _) => 0 < amount ∧ coins = []
  | Err (TInsufficientBalance required available) =>
      0 < amount ∧ coins ≠ [] ∧ required = amount ∧ available < amount ∧
      ∀ s, s ⊆+ coins → (length s ≤ TP_MAX_MERGE_SOURCES + 1)%nat → total s ≤ available
  | _ => False
  end.

Lemma eligible_head coins amount c rest :
  Select.eligible coins amount = c :: rest →
  c ∈ coins ∧ amount ≤ ci_balance c ∧
  ∀ c', c' ∈ coins → amount ≤ ci_balance c' → Select.asc c c' = true.
Proof.
  unfold Select.eligible. intros E. pose proof (stable_sort_perm Select.asc (filter (fun c => amount ≤ ci_balance c) coins)) as Hp.
  pose proof (stable_sort_sorted _ asc_total asc_trans (filter (fun c => amount ≤ ci_balance c) coins)) as Hs.
  rewrite E in Hp, Hs. apply StronglySorted_inv in Hs as [_ Hs].
  assert (Hc : c ∈ filter (fun c => amount ≤ ci_balance c) coins) by (rewrite <-Hp; set_solver).
  apply list_elem_of_filter in Hc as [? ?]. split_and!; [done..|]. intros c' Hc' Hle.
  assert (Hin : c' ∈ c :: rest) by (rewrite Hp; by apply list_elem_of_filter).
  apply elem_of_cons in Hin as [->|Hin].
  - destruct (asc_total c c); done.
  - rewrite list.Forall_forall in Hs. by apply Hs.
Qed.

Lemma eligible_none coins amount :
  Select.eligible coins amount = [] → ∀ c, c ∈ coins → ci_balance c < amount.
Proof.
  unfold Select.eligible. intros E c Hc. destruct (decide (amount ≤ ci_balance c)) as [Hle|]; [|lia].
  assert (Hin : c ∈ stable_sort Select.asc (filter (fun c => amount ≤ ci_balance c) coins)).
  { rewrite stable_sort_perm. by apply list_elem_of_filter. }
  rewrite E in Hin. set_solver.
Qed.

Lemma selection_spec_holds coins amount :
  balances_u64 coins → is_u64 amount →
  selection_spec coins amount (Select.select_coins_for_transfer coins amount).
Proof.
  intros Hb Hu. unfold Select.select_coins_for_transfer.
  destruct (Z.eqb_spec amount 0) as [E|Hne]; [done|].
  assert (Hpos : 0 < amount) by (destruct Hu; lia).
  case_bool_decide as Hnil; [done|].
  destruct (Select.eligible coins amount) as [|c rest] eqn:Hel.
  2: { split; [done|]. by eapply eligible_head. }
  pose proof (eligible_none _ _ Hel) as Hsmall.
  set (sorted := stable_sort Select.desc coins).
  assert (Hperm : sorted ≡ₚ coins) by apply stable_sort_perm.
  assert (Hss := stable_sort_sorted _ desc_total desc_trans coins). fold sorted in Hss.
  assert (Hbs : balances_u64 sorted) by (eapply balances_submseteq; [done|]; by rewrite Hperm).
  destruct (greedy_spec amount sorted [] 0) as (k & Hk & Hr & Hmax & Hj & Hend);
    [done..|unfold TP_MAX_MERGE_SOURCES; simpl; lia|].
  cbn [app] in *. cbn [length] in Hmax, Hend. rewrite Hr in *. cbn [snd] in Hend.
  assert (Hbest : ∀ s j, s ⊆+ coins → (length s ≤ j)%nat → total s ≤ total (take j sorted)).
  { intros s j Hs Hl. apply largest_first; [done..|by rewrite Hperm|done]. }
  assert (Hsub : take k sorted ⊆+ coins).
  { rewrite <-Hperm. apply sublist_submseteq, sublist_take. }
  destruct (Z.ltb_spec (Z.min u64_max (total (take k sorted))) amount) as [Hlt|Hge].
  - split_and!; [done..|]. intros s Hs Hl.
    assert (total s ≤ total (take k sorted)); [|unfold is_u64 in *; lia].
    destruct (Hend Hlt) as [E|E].
    + rewrite E, (total_perm _ _ Hperm).
      rewrite <-(firstn_all2 (n := (TP_MAX_MERGE_SOURCES + 1) `max` length sorted) sorted) in Hperm by lia.
      rewrite <-(total_perm _ _ Hperm). apply Hbest; [done|lia].
    + apply Hbest; [done|]. unfold TP_MAX_MERGE_SOURCES in *. lia.
  - destruct (take k sorted) as [|t ss] eqn:Htake.
    { change (total []) with 0 in Hge. lia. }
    assert (Ht : t ∈ coins) by (eapply elem_of_submseteq; [|done]; set_solver).
    assert (Hcov : amount ≤ total (t :: ss)) by lia.
    cbn [length] in Hk. split_and!; [done..| | |done| |].
    + assert (k ≠ 1)%nat; [|lia]. intros ->. assert (ss = []) as -> by (apply length_zero_iff_nil; lia).
      rewrite total_cons in Hcov. change (total []) with 0 in Hcov. specialize (Hsmall t Ht). lia.
    + unfold TP_MAX_MERGE_SOURCES in *. lia.
    + intros c Hc. assert (Hst : StronglySorted (fun a b => Select.desc a b = true) (t :: ss)).
      { rewrite <-Htake. clear -Hss. revert k. induction Hss as [|x l Hl IH Hx]; intros [|k]; try constructor; [apply IH|].
        rewrite list.Forall_forall in *. intros y Hy. apply Hx. by eapply subseteq_take. }
      apply StronglySorted_inv in Hst as [_ Hst]. rewrite list.Forall_forall in Hst.
      specialize (Hst c Hc). rewrite desc_flip in Hst. lia.
    + intros s Hs Hcs. destruct (Nat.le_gt_cases k (length s)) as [?|Hlt]; [cbn [length]; lia|].
      specialize (Hj (length s) Hlt). specialize (Hbest s (length s) Hs ltac:(lia)). lia.
Qed.

(** The choice does not depend on the order of the coins. *)
Lemma selection_order_free coins coins' amount :
  NoDup (ci_object_id <$> coins) → coins ≡ₚ coins' →
  Select.select_coins_for_transfer coins amount = Select.select_coins_for_transfer coins' amount.
Proof.
  intros Hnd Hp. unfold Select.select_coins_for_transfer.
  assert (Hanti := fun a b => coins_distinct coins a b Hnd).
  rewrite (bool_decide_ext (coins = []) (coins' = [])).
  2: { split; intros ->; [by apply Permutation_nil_l in Hp|by apply Permutation_nil_r in Hp]. }
  assert (Select.eligible coins amount = Select.eligible coins' amount) as ->.
  { apply (stable_sort_unique _ asc_total asc_trans).
    - intros a b [_ Ha]%list_elem_of_filter [_ Hb]%list_elem_of_filter. rewrite !asc_iff.
      intros [?|[? ?]] [?|[? ?]]; [lia..|]. by apply Hanti.
    - by rewrite Hp. }
  rewrite (stable_sort_unique _ desc_total desc_trans coins coins'); [done| |done].
  intros a b Ha Hb. rewrite !desc_flip. intros [?|[? ?]] [?|[? ?]]; [lia..|]. by apply Hanti.
Qed.

(** C19: [select_coins_for_transfer] keeps its contract on every branch: it takes
    the smallest coin that covers the amount, else the fewest coins, at most
    51, that cover it together, the largest as the target of the merge; it
    refuses a positive amount only when no 51 of the coins cover it.  For coins
    with distinct ids the answer is the same whatever the order they come in. *)
Theorem selection_correct coins coins' amount :
  balances_u64 coins → is_u64 amount → NoDup (ci_object_id <$> coins) → coins ≡ₚ coins' →
  selection_spec coins amount (Select.select_coins_for_transfer coins amount) ∧
  Select.select_coins_for_transfer coins' amount = Select.select_coins_for_transfer coins amount.
Proof.
  intros Hb Hu Hnd Hp. split; [by apply selection_spec_holds|]. symmetry. by apply selection_order_free.
Qed.

(** Neither coin of 30, 50 and 20 covers 60; the two largest do. *)
Lemma selection_correct_witness :
  let c i b := mkCoinInfo (wid i) "a" b 1 "ROOT" in
  Select.select_coins_for_transfer [c 2 50; c 3 20; c 1 30] 60 = Ok (NeedMerge (c 2 50) [c 1 30]) ∧
  selection_spec [c 1 30; c 2 50; c 3 20] 60 (Ok (NeedMerge (c 2 50) [c 1 30])).
Proof.
  intros c.
  destruct (selection_correct [c 1 30; c 2 50; c 3 20] [c 2 50; c 3 20; c 1 30] 60) as [H1 H2].
  - unfold balances_u64. repeat (apply list.Forall_cons; split); try (unfold is_u64, u64_max; cbn; lia). apply list.Forall_nil_2.
  - unfold is_u64, u64_max. lia.
  - apply (bool_decide_unpack _). vm_compute. exact I.
  - solve_Permutation.
  - assert (E : Select.select_coins_for_transfer [c 1 30; c 2 50; c 3 20] 60 = Ok (NeedMerge (c 2 50) [c 1 30]))
      by reflexivity.
    rewrite E in H1, H2. split; [exact H2|exact H1].
Defined.
