(* ===== verification/PrepareProps.v ===== *)
(** * Theorems about the preparation of tasks

    Which parents a prepared event has, and that a task prepared with
    reservation works on coins reserved for it. *)

From Stdlib Require Import ZArith Lia.
From stdpp Require Import base gmap sets list strings numbers.
From S2P Require Import Prelude Hash Vlc Event Coin StateStore Resource Executor ExecutorSpec ExecutorProps SparseMerkle StateManager Overlay Reservation Task StateProvider TaskPreparer SelectProps.

#[local] Open Scope list_scope.
#[local] Open Scope Z_scope.

Section Prepare.
Context `{B : Blake3} `{X : HexCrate} `{PB : ProofBcs} {P : Type} `{SP : StateProvider P}.

(** ** Parents *)

(** The edges that are kept: events that last modified an input, other than
    genesis, of a depth near the finalized one. *)
Definition warm_parent (p : P) (ids : list ObjectId) (e : EventId) : Prop :=
  ∃ id d, id ∈ ids ∧ get_last_modifying_event_depth p id = Some (e, d) ∧ e ≠ TE.genesis_event_id ∧
    current_finalized_depth p - d < COLD_PARENT_DROP_THRESHOLD.

Lemma kept_parent_spec floor e d x :
  TP.kept_parent floor (e, d) = Some x ↔ x = e ∧ e ≠ TE.genesis_event_id ∧ floor - d < COLD_PARENT_DROP_THRESHOLD.
Proof.
  unfold TP.kept_parent, saturating_sub. cbn [fst snd]. case_bool_decide as Hg; [naive_solver|].
  destruct (Z.leb_spec COLD_PARENT_DROP_THRESHOLD (Z.max 0 (floor - d))) as [Hle|Hlt].
  - split; [done|]. intros (_ & _ & ?). unfold COLD_PARENT_DROP_THRESHOLD, MAX_CROSS_CF_DEPTH, COLD_PARENT_MARGIN in *. lia.
  - split; [intros Heq; injection Heq as <-; split_and!; [done|done|lia]|by intros (-> & _)].
Qed.

Lemma derive_dependencies_spec p ids :
  NoDup (TP.derive_dependencies p ids) ∧ ∀ e, e ∈ TP.derive_dependencies p ids ↔ warm_parent p ids e.
Proof.
  unfold TP.derive_dependencies.
  induction ids as [|id ids IH] using rev_ind.
  { split; [apply base.NoDup_nil_2|]. intros e. split; [set_solver|intros (? & ? & ? & _); set_solver]. }
  rewrite foldl_app. cbn [foldl]. destruct IH as [Hnd Hin]. set (ps := foldl _ [] ids) in *.
  assert (Hext : ∀ e, warm_parent p (ids ++ [id]) e ↔ warm_parent p ids e ∨
    ∃ d, get_last_modifying_event_depth p id = Some (e, d) ∧ e ≠ TE.genesis_event_id ∧
      current_finalized_depth p - d < COLD_PARENT_DROP_THRESHOLD).
  { intros e. unfold warm_parent. split.
    - intros (i & d & [Hi|Hi]%elem_of_app & Hrest); [by left; exists i, d|].
      apply list_elem_of_singleton in Hi as ->. right. by exists d.
    - intros [(i & d & Hi & Hrest)|(d & Hrest)]; [exists i, d|exists id, d]; (split; [set_solver|done]). }
  destruct (get_last_modifying_event_depth p id) as [[e d]|] eqn:Hl; cbn [mbind option_bind].
  2: { split; [done|]. intros x. rewrite Hin, Hext. split; [by left|]. intros [?|(? & ? & _)]; done. }
  destruct (TP.kept_parent (current_finalized_depth p) (e, d)) as [x|] eqn:Hk.
  - apply kept_parent_spec in Hk as (-> & Hg & Hd). case_bool_decide as Hmem.
    + split; [done|]. intros x. rewrite Hin, Hext. split; [by left|]. intros [?|(d' & Heq & _)]; [done|]. injection Heq as <- <-. by apply Hin.
    + split.
      * apply list.NoDup_app. split_and!; [done| |by apply NoDup_singleton]. set_solver.
      * intros x. rewrite elem_of_app, list_elem_of_singleton, Hin, Hext. split.
        -- intros [?| ->]; [by left|right; by exists d].
        -- intros [?|(d' & Heq & _)]; [by left|]. injection Heq as <- <-. by right.
  - split; [done|]. intros x. rewrite Hin, Hext. split; [by left|]. intros [?|(d' & Heq & Hg & Hd)]; [done|].
    injection Heq as <- <-.
    assert (TP.kept_parent (current_finalized_depth p) (e, d) = Some e) as E; [by apply kept_parent_spec|congruence].
Qed.

(** ** Reservations *)

(** Other tasks leave the reservations of this one alone. *)
Definition respectful (turns : nat → CR.Turn) : Prop := ∀ i m c r,
  reservations m !! c = Some r → own turns r → reservations (CR.turn_env (turns i) m) !! c = Some r.

Definition none_own (turns : nat → CR.Turn) (m : CoinReservationManager) : Prop :=
  ∀ c r, reservations m !! c = Some r → ¬ own turns r.

(** The handle is the recorded reservation of its coin, for the transfer. *)
Definition recorded (m : CoinReservationManager) (tid : string) (h : ReservationHandle) : Prop :=
  ∃ r, reservations m !! rh_coin_id h = Some r ∧ rv_id r = reservation_id h ∧ rv_transfer_id r = tid.

Section Turns.
Context (turns : nat → CR.Turn).
Context (Hforeign : foreign turns) (Hids : ∀ i, CR.turn_id (turns i) ≠ uuid_nil).

(** One attempt on an enabled manager. *)
Lemma try_reserve_cases coin amount tid i m :
  rv_enabled m = true →
  let t := turns i in
  match CR.try_reserve coin amount tid (CR.turn_id t) (CR.turn_now t) (CR.turn_env t m) with
  | (m', Some h) => h = mkHandle (CR.turn_id t) coin ∧ rv_enabled m' = true ∧
      reservations m' = <[coin := mkReservation (CR.turn_id t) amount (CR.turn_now t) tid]> (reservations (CR.turn_env t m))
  | (m', None) => m' = CR.turn_env t m
  end.
Proof.
  intros He t. destruct (Hforeign i m) as [He' _]. unfold CR.try_reserve. fold t in He'. rewrite He', He. cbn [negb].
  destruct (reservations (CR.turn_env t m) !! coin) as [r|]; [destruct (CR.expired _ _ r)|]; cbn; rewrite ?He', ?He; done.
Qed.

Lemma reserve_first_spec coins i amount tid m :
  rv_enabled m = true → none_own turns m →
  match TP.reserve_first turns i coins amount tid m with
  | (m', Some (c, h)) => c ∈ coins ∧ rh_coin_id h = ci_object_id c ∧ recorded m' tid h ∧
      ∃ j, reservation_id h = CR.turn_id (turns j)
  | (m', None) => none_own turns m'
  end.
Proof.
  revert i m. induction coins as [|c coins IH]; intros i m He Hno; [done|]. cbn [TP.reserve_first].
  pose proof (try_reserve_cases (ci_object_id c) amount tid i m He) as Hc. cbv zeta in Hc.
  destruct (CR.try_reserve _ _ _ _ _ _) as [m' [h|]].
  - destruct Hc as (-> & _ & Hm). split_and!; [set_solver|done| |by eexists]. eexists. cbn [rh_coin_id]. by rewrite Hm, lookup_insert_eq.
  - subst m'. destruct (Hforeign i m) as [He' Hf].
    assert (Hno' : none_own turns (CR.turn_env (turns i) m)).
    { intros c' r Hr Ho. by apply (Hno c' r); [apply Hf|]. }
    specialize (IH (S i) _ (eq_trans He' He) Hno').
    destruct (TP.reserve_first _ _ _ _ _ _) as [m' [[c' h]|]]; [|done]. destruct IH as (? & ? & ? & ?).
    split_and!; [by apply list_elem_of_further|done|done|done].
Qed.

Lemma reserve_loop_recorded coins i tid hs m :
  respectful turns → rv_enabled m = true → NoDup ((rh_coin_id <$> hs) ++ coins.*1) →
  Forall (fun h => recorded m tid h ∧ ∃ j, reservation_id h = CR.turn_id (turns j)) hs →
  match CR.reserve_loop turns i coins tid hs m with
  | (m', Some hs') => Forall (recorded m' tid) hs' ∧ (rh_coin_id <$> hs') = (rh_coin_id <$> hs) ++ coins.*1
  | (_, None) => True
  end.
Proof.
  intros Hresp. revert i hs m. induction coins as [|[coin amount] coins IH]; intros i hs m He Hnd Hhs.
  { cbn. rewrite app_nil_r. split; [|done]. eapply list.Forall_impl; [exact Hhs|]. by intros h [? _]. }
  cbn [CR.reserve_loop]. pose proof (try_reserve_cases coin amount tid i m He) as Hc. cbv zeta in Hc.
  destruct (CR.try_reserve _ _ _ _ _ _) as [m' [h|]]; [|done]. destruct Hc as (-> & He' & Hm).
  specialize (IH (S i) (hs ++ [mkHandle (CR.turn_id (turns i)) coin]) m' He').
  rewrite fmap_app in IH. cbn [fmap list_fmap rh_coin_id] in IH. rewrite <-app_assoc in IH.
  destruct (CR.reserve_loop _ _ _ _ _ _) as [m2 [hs'|]]; [|done]. apply IH; [done|].
  apply list.Forall_app. split.
  - rewrite list.Forall_forall in Hhs |- *. intros h Hh. destruct (Hhs h Hh) as [(r & Hr & Hid & Ht) [j Hj]].
    split; [|by exists j]. exists r. split; [|done]. rewrite Hm, lookup_insert_ne.
    + apply Hresp; [done|]. exists j. congruence.
    + intros E. apply list.NoDup_app in Hnd as (_ & Hnd & _). apply (Hnd coin); [|set_solver].
      rewrite E. by apply list_elem_of_fmap_2.
  - apply list.Forall_singleton. split; [|by eexists]. eexists. cbn [rh_coin_id]. by rewrite Hm, lookup_insert_eq.
Qed.

(** A coin that was reserved and then cannot be read stays reserved. *)
Lemma unreadable_coin_stays_reserved now nanos (tp : TaskPreparer P) t sn m c m' id :
  rv_enabled m = true → none_own turns m →
  Select.select_coins_for_transfer (get_coins_for_address_in_subnet (tp_provider tp) (tr_from t) sn) (tr_amount t)
    = Ok (SingleCoin c) →
  TP.prepare_transfer_task_with_reservation now nanos turns tp t sn m = (m', Err (TObjectNotFound id)) →
  ¬ none_own turns m'.
Proof.
  intros Hon Hnone Hsel Hp. unfold TP.prepare_transfer_task_with_reservation in Hp. rewrite Hsel in Hp.
  destruct (bool_decide _); [done|].
  pose proof (reserve_first_spec (Select.eligible (get_coins_for_address_in_subnet (tp_provider tp) (tr_from t) sn)
    (tr_amount t)) 0 (tr_amount t) (tr_id t) m Hon Hnone) as Hrf.
  destruct (TP.reserve_first _ _ _ _ _ _) as [m1 [[c1 h]|]]; [|done]. injection Hp as <- _.
  destruct Hrf as (_ & _ & (r & Hr & Hid & _) & j & Hj). intros Hno. apply (Hno _ r Hr). exists j. congruence.
Qed.

(** C22: a task prepared with reservation works on reserved coins.  When
    preparation succeeds, its handles are, one for one and in order, those of
    the coins the task takes as inputs, each recorded in the manager for this
    transfer, whatever other tasks reserve in the meantime.  When it fails, no
    reservation it made is left, except where the chosen coin cannot be read. *)
Theorem task_coins_reserved (now nanos : Z) (tp : TaskPreparer P) (t : TransferReq) (sn : SubnetId)
    (m : CoinReservationManager)
    (Hresp : respectful turns) (Hon : rv_enabled m = true) (Hnone : none_own turns m)
    (Hamount : is_u64 (tr_amount t))
    (Hcoins : balances_u64 (get_coins_for_address_in_subnet (tp_provider tp) (tr_from t) sn))
    (Hdistinct : NoDup (ci_object_id <$> get_coins_for_address_in_subnet (tp_provider tp) (tr_from t) sn)) :
  match TP.prepare_transfer_task_with_reservation now nanos turns tp t sn m with
  | (m', Ok (task, hs)) =>
      (rh_coin_id <$> hs) = (ro_object_id <$> ri_input_objects (st_resolved_inputs task)) ∧
      hs ≠ [] ∧ NoDup (rh_coin_id <$> hs) ∧ Forall (recorded m' (tr_id t)) hs
  | (m', Err (TObjectNotFound _)) => True
  | (m', Err _) => none_own turns m'
  | (m', Panic) => False
  end.
Proof.
  unfold TP.prepare_transfer_task_with_reservation. set (coins := get_coins_for_address_in_subnet _ _ _) in *.
  destruct (bool_decide (coins = [])); [done|].
  pose proof (selection_spec_holds coins (tr_amount t) Hcoins Hamount) as Hsel.
  destruct (Select.select_coins_for_transfer coins (tr_amount t)) as [[c0|target sources]|e|]; [| |by destruct e|done].
  - pose proof (reserve_first_spec (Select.eligible coins (tr_amount t)) 0 (tr_amount t) (tr_id t) m Hon Hnone) as Hrf.
    destruct (TP.reserve_first _ _ _ _ _ _) as [m' [[c h]|]]; [|done]. destruct Hrf as (_ & Hc & Hrec & _).
    unfold TP.single_coin_task, TP.read_entry. destruct (get_object_from_subnet _ _ _); cbn [rbind]; [|done].
    cbn. rewrite Hc. split_and!; [done|done|apply NoDup_singleton|by apply list.Forall_singleton].
  - destruct Hsel as (_ & _ & Hsub & _).
    assert (Hnd : NoDup (ci_object_id <$> target :: sources)).
    { apply (fmap_submseteq ci_object_id), submseteq_Permutation in Hsub as [k Hk]. rewrite Hk in Hdistinct.
      by apply list.NoDup_app in Hdistinct as [? _]. }
    set (items := (fun c => (ci_object_id c, ci_balance c)) <$> target :: sources).
    assert (Hitems : items.*1 = ci_object_id <$> target :: sources) by (unfold items; by rewrite <-list_fmap_compose).
    pose proof (reserve_loop_spec turns items 0 (tr_id t) [] m Hforeign Hids Hon) as Hall.
    pose proof (reserve_loop_recorded items 0 (tr_id t) [] m Hresp Hon) as Hrec.
    unfold CR.try_reserve_batch. destruct (CR.reserve_loop _ _ _ _ _ _) as [m' [hs|]].
    + destruct Hrec as [Hrec Hids']; [by rewrite Hitems|done|]. cbn [fmap list_fmap app] in Hids'. rewrite Hitems in Hids'.
      destruct Hall as (_ & He & Htr & Hnil); [|done|].
      { intros c r Hr Ho. by destruct (Hnone c r Hr). }
      assert (Hback : none_own turns (CR.release_batch hs m')).
      { intros c r Hr Ho. destruct (release_batch_lookup _ _ _ _ He Hnil Hr) as [H1 H2]. by apply H2, Htr. }
      unfold TP.prepare_merge_then_transfer_task.
      destruct (bool_decide _); [done|]. destruct (_ <? _); [done|]. unfold TP.coin_task.
      destruct (TP.build_read_set _ _ _) as [rs|e|] eqn:Hrs; cbn [rbind].
      * rewrite Hids'. cbn. rewrite <-list_fmap_compose. split_and!; [done| |done|done]. intros ->. done.
      * by destruct e.
      * clear -Hrs. exfalso. revert Hrs. generalize (ci_object_id target :: (ci_object_id <$> sources)).
        intros l. induction l as [|id l IH]; [done|]. cbn [TP.build_read_set].
        unfold TP.read_entry. destruct (get_object_from_subnet _ _ _); cbn [rbind]; [|done].
        destruct (TP.build_read_set _ _ l); cbn [rbind]; [done|done|by destruct IH].
    + intros c r. apply Hall; [|done]. intros c' r' Hr Ho. by destruct (Hnone c' r' Hr).
Qed.
End Turns.
End Prepare.
