(* ===== verification/EnclaveProps.v ===== *)
(** * Theorems about the enclave

    Executions of a task do not depend on the other tasks of the enclave; every
    event of a task is settled once; the attestation binds the task; and a call
    of the Move VM sees only objects its sender may use. *)

From Stdlib Require Import ZArith Lia Strings.Byte.
From stdpp Require Import base gmap sets list strings numbers.
From S2P Require Import Prelude Hash Vlc Event Coin StateStore Resource Executor StateManager Task Stf Enclave EnclavePanics.

#[local] Open Scope list_scope.
#[local] Open Scope setu_scope.

(** ** Diffs that agree

    The old value of the mark of a processed event comes from the map that all
    tasks of the enclave share. *)

Record same_write (x y : WriteSetEntry) : Prop := mkSameWrite {
  sw_key : ws_key x = ws_key y;
  sw_new : ws_new_value x = ws_new_value y;
  sw_old : ws_old_value x = ws_old_value y ∨ ∃ id, ws_key x = ("event:" +:+ id)%string
}.

#[global] Instance same_write_refl : Reflexive same_write.
Proof. intros x. split; auto. Qed.

Record same_diff (d1 d2 : StateDiff) : Prop := mkSameDiff {
  sd_writes : Forall2 same_write (writes d1) (writes d2);
  sd_dels : sd_deletes d1 = sd_deletes d2
}.

Lemma same_diff_write d1 d2 x y : same_diff d1 d2 → same_write x y → same_diff (SD.add_write x d1) (SD.add_write y d2).
Proof. intros [Hw Hd] Hxy. split; cbn; [|done]. apply Forall2_app; [done|]. by constructor. Qed.

Lemma same_diff_delete d1 d2 k : same_diff d1 d2 → same_diff (SD.add_delete k d1) (SD.add_delete k d2).
Proof. intros [Hw Hd]. split; cbn; [done|]. by rewrite Hd. Qed.

Create HintDb same_diff.
#[export] Hint Resolve same_diff_write same_diff_delete same_write_refl : same_diff.

(** A change of the diff that only appends. *)
Definition appends (f : StateDiff → StateDiff) : Prop := ∀ d1 d2, same_diff d1 d2 → same_diff (f d1) (f d2).

Lemma foldl_appends {A} (g : StateDiff → A → StateDiff) l : (∀ a, appends (fun d => g d a)) → appends (fun d => foldl g d l).
Proof. intros Hg. induction l as [|a l IH]; intros d1 d2 Hd; cbn; [done|]. by apply IH, Hg. Qed.

Lemma add_state_changes_appends `{HexCrate} cs : appends (SD.add_state_changes cs).
Proof. apply foldl_appends. intros c d1 d2 Hd. auto with same_diff. Qed.

Section Enclave.
Context `{B : Blake3} `{C : Bcs} `{SB : StateBcs} `{X : HexCrate} `{J : SerdeJson} `{S2 : Sha256}.
Context `{V : MoveVm} `{RJ : ResourceJson}.

Lemma add_move_changes_appends cs : appends (ME.add_move_changes cs).
Proof. apply foldl_appends. intros c d1 d2 Hd. destruct (mv_new_state c); auto with same_diff. Qed.

Lemma module_changes_appends cs : appends (Linkage.apply_module_changes_to_diff cs).
Proof.
  intros d1 d2 Hd. unfold Linkage.apply_module_changes_to_diff.
  assert (Hfold : ∀ l d1 d2, same_diff d1 d2 →
    same_diff (foldl Linkage.change_step (d1, l) cs).1 (foldl Linkage.change_step (d2, l) cs).1 ∧
    (foldl Linkage.change_step (d1, l) cs).2 = (foldl Linkage.change_step (d2, l) cs).2).
  { clear d1 d2 Hd. induction cs as [|c cs IH]; intros l d1 d2 Hd; [done|]. cbn [foldl].
    destruct c; cbn [Linkage.change_step]; apply IH; auto with same_diff. }
  destruct (Hfold [] d1 d2 Hd) as [Hd' Hl]. destruct (foldl Linkage.change_step (d1, []) cs) as [d1' l1],
    (foldl Linkage.change_step (d2, []) cs) as [d2' l2]. cbn [fst snd] in *. subst l2.
  clear -Hd'. revert d1' d2' Hd'. apply foldl_appends. intros kw d1 d2 Hd. unfold Linkage.write_linkage. auto with same_diff.
Qed.

(** ** Executions of one event that agree *)

Section Sim.
Context {St : Type}.

Record ev_sim (s1 s2 : EvState St) : Prop := mkEvSim {
  vs_diff : same_diff (es_diff s1) (es_diff s2);
  vs_store : es_store s1 = es_store s2;
  vs_counter : es_counter s1 = es_counter s2
}.

(** Whatever the shared maps hold. *)
Definition sim {A} (m1 m2 : stm (EvState St) string A) : Prop :=
  ∀ s1 s2, ev_sim s1 s2 → (m1 s1).2 = (m2 s2).2 ∧ ev_sim (m1 s1).1 (m2 s2).1.

Lemma sim_bind {A D} (m1 m2 : stm (EvState St) string A) (k1 k2 : A → stm (EvState St) string D) :
  sim m1 m2 → (∀ a, sim (k1 a) (k2 a)) → sim (sbind m1 k1) (sbind m2 k2).
Proof.
  intros Hm Hk s1 s2 Hs. destruct (Hm s1 s2 Hs) as [Hr Hs']. unfold sbind.
  destruct (m1 s1) as [s1' r1], (m2 s2) as [s2' r2]. cbn in *. subst r2. destruct r1; [by apply Hk|done..].
Qed.
Lemma sim_ret {A} (a : A) : sim (sret a) (sret a).
Proof. by intros s1 s2 Hs. Qed.
Lemma sim_fail {A} e : sim (sfail (A := A) e) (sfail e).
Proof. by intros s1 s2 Hs. Qed.
Lemma sim_lift {A} (r : result string A) : sim (slift r) (slift r).
Proof. by intros s1 s2 Hs. Qed.
(** A step that reads the store. *)
Lemma sim_read {A} (f : St → result string A) : sim (fun s => (s, f (es_store s))) (fun s => (s, f (es_store s))).
Proof. intros s1 s2 Hs. cbn. by rewrite (vs_store _ _ Hs). Qed.
Lemma sim_on_diff f : appends f → sim (ME.on_diff f) (ME.on_diff f).
Proof. intros Hf s1 s2 [Hd Hst Hc]. split; [done|]. split; cbn; [by apply Hf|done|done]. Qed.
Lemma sim_new_context : sim (ME.new_context : stm (EvState St) string unit) ME.new_context.
Proof. intros s1 s2 [Hd Hst Hc]. split; [done|]. by split. Qed.
Lemma sim_rt {A} prefix (m : Exec.exec (St := St) A) : sim (ME.rt prefix m) (ME.rt prefix m).
Proof.
  intros s1 s2 [Hd Hst Hc]. unfold ME.rt. rewrite Hst, Hc. destruct (m _) as [[st n] r]. split; [done|]. by split.
Qed.
Lemma sim_require_success o fallback : sim (ME.require_success o fallback : stm (EvState St) string unit) (ME.require_success o fallback).
Proof. unfold ME.require_success. destruct (success o); [apply sim_ret|apply sim_fail]. Qed.
Lemma sim_record others1 others2 event :
  sim (ME.record_event_processed others1 event : stm (EvState St) string unit) (ME.record_event_processed others2 event).
Proof.
  intros s1 s2 [Hd Hst Hc]. split; [done|]. split; cbn; [|done|done]. apply same_diff_write; [done|].
  split.
  - by destruct (others1 _ !! _), (others2 _ !! _).
  - by destruct (others1 _ !! _), (others2 _ !! _).
  - right. exists (TE.id event). by destruct (others1 _ !! _).
Qed.
Lemma sim_objects_at inputs idxs : sim (ME.objects_at inputs idxs : stm (EvState St) string _) (ME.objects_at inputs idxs).
Proof.
  induction idxs as [|i idxs IH]; cbn; [apply sim_ret|]. apply sim_bind; [apply sim_lift|]. intros id.
  apply sim_bind; [done|]. intros ids. apply sim_ret.
Qed.
End Sim.

Hint Resolve sim_bind sim_ret sim_fail sim_lift sim_read sim_on_diff sim_new_context sim_rt sim_require_success
  sim_record sim_objects_at add_state_changes_appends add_move_changes_appends module_changes_appends : enclave_sim.

Ltac sim_steps :=
  repeat first
    [ solve [auto with enclave_sim]
    | lazymatch goal with |- sim (sbind _ _) (sbind _ _) => apply sim_bind; [|intros ?] end ].

Section Coins.
Context {St : Type} `{!StateStore St} (solver : string) (others1 others2 : Legacy → Legacy).

Lemma sim_owner what id : sim (ME.coin_owner_of (St := St) what id) (ME.coin_owner_of what id).
Proof. apply (sim_read (fun st => match get_object st id with Ok (Some c) => _ | Ok None => _ | Err e => _ | Panic => _ end)). Qed.

Lemma sim_object_at inputs i : sim (ME.object_at inputs i : stm (EvState St) string _) (ME.object_at inputs i).
Proof. apply sim_lift. Qed.

Hint Resolve sim_owner sim_object_at : enclave_sim.

Lemma sim_transfer event t inputs :
  sim (ME.execute_transfer_with_local_runtime (St := St) solver others1 event t inputs)
    (ME.execute_transfer_with_local_runtime solver others2 event t inputs).
Proof.
  unfold ME.execute_transfer_with_local_runtime. sim_steps. destruct (RI.primary_coin inputs); sim_steps.
Qed.
Lemma sim_merge event inputs :
  sim (ME.execute_merge (St := St) solver others1 event inputs) (ME.execute_merge solver others2 event inputs).
Proof. unfold ME.execute_merge. sim_steps. destruct (operation inputs); sim_steps. Qed.
Lemma sim_split event inputs :
  sim (ME.execute_split (St := St) solver others1 event inputs) (ME.execute_split solver others2 event inputs).
Proof. unfold ME.execute_split. sim_steps. destruct (operation inputs); sim_steps. Qed.
Lemma sim_merge_then_transfer event inputs :
  sim (ME.execute_merge_then_transfer (St := St) solver others1 event inputs)
    (ME.execute_merge_then_transfer solver others2 event inputs).
Proof. unfold ME.execute_merge_then_transfer. sim_steps. destruct (operation inputs); sim_steps. Qed.
End Coins.

Lemma sim_after_vm others1 others2 fallback event o :
  sim (ME.after_vm others1 fallback event o) (ME.after_vm others2 fallback event o).
Proof. unfold ME.after_vm. destruct (mo_success o); cbn [negb]; sim_steps. Qed.

Lemma sim_prefixed {A} prefix (f : InMemoryObjectStore → result string A) :
  sim (fun s => ME.prefixed prefix (f (es_store s)) s) (fun s => ME.prefixed prefix (f (es_store s)) s).
Proof. intros s1 s2 Hs. unfold ME.prefixed, slift. cbn. by rewrite (vs_store _ _ Hs). Qed.

Hint Resolve sim_transfer sim_merge sim_split sim_merge_then_transfer sim_after_vm : enclave_sim.

Lemma execute_sim solver others1 others2 event inputs gas :
  sim (ME.execute_single_event_with_object_store solver others1 event inputs gas)
    (ME.execute_single_event_with_object_store solver others2 event inputs gas).
Proof.
  unfold ME.execute_single_event_with_object_store. destruct (te_transfer event) as [t|]; [sim_steps|].
  destruct (te_payload event); unfold ME.not_for_tee; sim_steps.
  - destruct vm_feature; [|sim_steps]. unfold ME.execute_move_call. destruct vm_enabled; cbn [negb]; sim_steps; [apply sim_lift|..].
    + apply (sim_read (fun st => ME.collect_inputs _ st _ _)).
    + destruct (ME.build_move_call_args _ _ _ _) as [args mm]. sim_steps.
      apply (sim_prefixed _ (fun st => vm_execute st _ _ _ _ _ _)).
  - destruct vm_feature; [|sim_steps]. unfold ME.execute_move_ptb. destruct vm_enabled; cbn [negb]; sim_steps; [apply sim_lift|..].
    + apply (sim_read (fun st => ME.collect_inputs _ st _ _)).
    + apply (sim_prefixed _ (fun st => vm_execute_ptb st _ _ _ _)).
Qed.

(** ** Runs that agree *)

Record run_sim {St} (s1 s2 : ME.RunState St) : Prop := mkRunSim {
  us_diff : same_diff (ME.rn_diff s1) (ME.rn_diff s2);
  us_store : ME.rn_store s1 = ME.rn_store s2;
  us_power : ME.rn_power s1 = ME.rn_power s2;
  us_flux : ME.rn_flux s1 = ME.rn_flux s2;
  us_processed : ME.rn_processed s1 = ME.rn_processed s2;
  us_failed : ME.rn_failed s1 = ME.rn_failed s2
}.

Lemma run_event_sim {St} (m1 m2 : stm (EvState St) string unit) s1 s2 :
  sim m1 m2 → run_sim s1 s2 →
  (ME.run_event m1 s1).2 = (ME.run_event m2 s2).2 ∧ run_sim (ME.run_event m1 s1).1 (ME.run_event m2 s2).1.
Proof.
  intros Hm [Hd Hst Hp Hf Hpr Hfa]. unfold ME.run_event.
  destruct (Hm (mkEvState (ME.rn_legacy s1) (ME.rn_diff s1) (ME.rn_store s1) 0)
              (mkEvState (ME.rn_legacy s2) (ME.rn_diff s2) (ME.rn_store s2) 0)) as [Hr [Hd' Hst' _]]; [by split|].
  destruct (m1 _) as [e1 r1], (m2 _) as [e2 r2]. cbn in *. split; [done|]. by split.
Qed.

Lemma charge_power_sim {St} cost (s1 s2 : ME.RunState St) :
  run_sim s1 s2 →
  (ME.charge_power cost s1).2 = (ME.charge_power cost s2).2 ∧ run_sim (ME.charge_power cost s1).1 (ME.charge_power cost s2).1.
Proof.
  intros Hs. pose proof Hs as [Hd Hst Hp Hf Hpr Hfa]. unfold ME.charge_power. rewrite <-Hp.
  destruct (ME.rn_power s1) as [p|]; [|done]. destruct (decrement_power cost p) as [p' [sc|e|]]; [| |done].
  - split; [done|]. split; cbn; try done. by apply (add_state_changes_appends [sc]).
  - split; [done|]. by split.
Qed.

Lemma update_flux_sim {St} f (s1 s2 : ME.RunState St) :
  run_sim s1 s2 → run_sim (ME.update_flux f s1) (ME.update_flux f s2).
Proof.
  intros Hs. pose proof Hs as [Hd Hst Hp Hf Hpr Hfa]. unfold ME.update_flux. rewrite <-Hf.
  destruct (ME.rn_flux s1) as [fx|]; [|done]. destruct (f fx) as [fx' [sc|e|]]; split; cbn; try done.
  by apply (add_state_changes_appends [sc]).
Qed.

Lemma push_processed_sim {St} id (s1 s2 : ME.RunState St) :
  run_sim s1 s2 → run_sim (ME.push_processed id s1) (ME.push_processed id s2).
Proof. intros [Hd Hst Hp Hf Hpr Hfa]. split; cbn; try done. by rewrite Hpr. Qed.
Lemma push_failed_sim {St} id reason (s1 s2 : ME.RunState St) :
  run_sim s1 s2 → run_sim (ME.push_failed id reason s1) (ME.push_failed id reason s2).
Proof. intros [Hd Hst Hp Hf Hpr Hfa]. split; cbn; try done. by rewrite Hfa. Qed.

Lemma isolated_event_sim {St} params (m1 m2 : stm (EvState St) string unit) event s1 s2 :
  sim m1 m2 → run_sim s1 s2 →
  (ME.isolated_event params m1 event s1).2 = (ME.isolated_event params m2 event s2).2 ∧
  run_sim (ME.isolated_event params m1 event s1).1 (ME.isolated_event params m2 event s2).1.
Proof.
  intros Hm Hs. unfold ME.isolated_event. set (consumes := should_consume_power _).
  assert (Hc : (if consumes then ME.charge_power (power_cost_per_event params) s1 else (s1, None)).2
             = (if consumes then ME.charge_power (power_cost_per_event params) s2 else (s2, None)).2 ∧
    run_sim (if consumes then ME.charge_power (power_cost_per_event params) s1 else (s1, None)).1
            (if consumes then ME.charge_power (power_cost_per_event params) s2 else (s2, None)).1).
  { destruct consumes; [by apply charge_power_sim|done]. }
  destruct (if consumes then _ else (s1, None)) as [t1 r1], (if consumes then _ else (s2, None)) as [t2 r2].
  cbn [fst snd] in Hc. destruct Hc as [<- Ht]. destruct r1 as [e|]; [split; [done|by apply push_failed_sim]|].
  destruct (run_event_sim m1 m2 t1 t2 Hm Ht) as [Hr Hs2].
  destruct (ME.run_event m1 t1) as [u1 q1], (ME.run_event m2 t2) as [u2 q2]. cbn [fst snd] in Hr, Hs2. subst q2.
  destruct q1; cbn [fst snd]; (split; [done|]); [apply push_processed_sim|apply push_failed_sim|done];
    (destruct (consumes && _); [by apply update_flux_sim|done]).
Qed.

Lemma event_loop_sim {St} max_ms elapsed body1 body2 i events (s1 s2 : ME.RunState St) :
  (∀ i e s1 s2, run_sim s1 s2 → (body1 i e s1).2 = (body2 i e s2).2 ∧ run_sim (body1 i e s1).1 (body2 i e s2).1) →
  run_sim s1 s2 →
  (ME.event_loop max_ms elapsed body1 i events s1).2 = (ME.event_loop max_ms elapsed body2 i events s2).2 ∧
  run_sim (ME.event_loop max_ms elapsed body1 i events s1).1 (ME.event_loop max_ms elapsed body2 i events s2).1.
Proof.
  intros Hb. revert i s1 s2. induction events as [|e events IH]; intros i s1 s2 Hs; [done|].
  cbn [ME.event_loop]. destruct (_ <? _)%Z; [done|]. destruct (Hb i e s1 s2 Hs) as [Hr Hs'].
  destruct (body1 i e s1) as [t1 r1], (body2 i e s2) as [t2 r2]. cbn [fst snd] in *. subst r2.
  destruct r1; [by apply IH|done..].
Qed.

Lemma simulate_sim others1 others2 elapsed input store e1 e2 :
  me_config e1 = me_config e2 →
  (ME.simulate_execution_isolated others1 elapsed input store e1).2
    = (ME.simulate_execution_isolated others2 elapsed input store e2).2 ∧
  run_sim (ME.simulate_execution_isolated others1 elapsed input store e1).1
    (ME.simulate_execution_isolated others2 elapsed input store e2).1.
Proof.
  intros Hcfg. unfold ME.simulate_execution_isolated. destruct (match ME.sender_of _ with Some _ => _ | None => _ end) as [power flux].
  rewrite Hcfg. apply event_loop_sim.
  - intros i e s1 s2 Hs. apply isolated_event_sim; [apply execute_sim|done].
  - by split; cbn.
Qed.

(** What two executions of a task agree on. *)
Definition outputs_agree (r1 r2 : result StfError StfOutput) : Prop :=
  match r1, r2 with
  | Ok o1, Ok o2 =>
      same_diff (state_diff o1) (state_diff o2) ∧ events_processed o1 = events_processed o2 ∧
      events_failed o1 = events_failed o2 ∧ gas_usage o1 = gas_usage o2 ∧
      at_input_hash (attestation o1) = at_input_hash (attestation o2)
  | Err x, Err y => x = y
  | Panic, Panic => True
  | _, _ => False
  end.

(** C11: the execution of a task with a read set is isolated.  Two enclaves with
    the same configuration and the same times at the checks, whatever each has
    executed before and whatever its other tasks do meanwhile, agree on the
    outcome of the same task: the same error, or the same writes and deletes up to
    the recorded old value of the marks of processed events, the same processed
    and failed events with the same reasons, the same gas and the same hash of the
    input; and neither enclave changes its shared store of coins.  The state root
    that is returned hashes the history of an enclave, and is not compared. *)
Theorem execution_isolated (others1 others2 : nat → Legacy → Legacy) (elapsed : nat → Z) (now1 us1 now2 us2 : Z)
    (input : StfInput) (e1 e2 : MockEnclave)
    (Hrs : ME.use_read_set_state input = true) (Hcfg : me_config e1 = me_config e2) :
  outputs_agree (ME.execute_stf others1 elapsed now1 us1 input e1).2 (ME.execute_stf others2 elapsed now2 us2 input e2).2 ∧
  me_runtime (ME.execute_stf others1 elapsed now1 us1 input e1).1 = me_runtime e1 ∧
  me_runtime (ME.execute_stf others2 elapsed now2 us2 input e2).1 = me_runtime e2.
Proof.
  unfold ME.execute_stf. rewrite Hrs. destruct (ME.build_object_store_from_read_set _ _) as [store|e|]; [|done..].
  destruct (simulate_sim others1 others2 elapsed input store e1 e2 Hcfg) as [Hr Hs].
  destruct (ME.simulate_execution_isolated others1 _ _ _ _) as [s1 r1],
    (ME.simulate_execution_isolated others2 _ _ _ _) as [s2 r2]. cbn [fst snd] in Hr, Hs. subst r2.
  destruct Hs as [Hd _ _ _ Hpr Hfa]. destruct r1; [|done..]. split; [|done]. cbn. split_and!; [done..| |done].
  pose proof (Forall2_length (sd_writes _ _ Hd)) as Hlen. by rewrite Hlen.
Qed.

(** The commitment to a write set does not separate its fields: an update to a
    longer value and a change with both values can have one preimage. *)
Lemma commitment_ambiguous :
  write_set_preimage [("k"%string, Some [Byte.x01], None)] = write_set_preimage [("k"%string, Some [], Some [Byte.x00])].
Proof. reflexivity. Qed.

(** ** Every event is settled *)

(** The events in order, each in one of two lists. *)
Inductive settled : list EventId → list EventId → list EventId → Prop :=
| settled_nil : settled [] [] []
| settled_processed e es p f : settled es p f → settled (es ++ [e]) (p ++ [e]) f
| settled_failed e es p f : settled es p f → settled (es ++ [e]) p (f ++ [e]).

Definition run_settled {St} (es : list EventId) (s : ME.RunState St) : Prop :=
  settled es (ME.rn_processed s) (fe_event_id <$> ME.rn_failed s).

(** One event adds one entry. *)
Definition settles {St} (event : TaskEvent) (s s' : ME.RunState St) (r : result StfError unit) : Prop :=
  match r with
  | Ok _ =>
      ME.rn_processed s' = ME.rn_processed s ++ [TE.id event] ∧ ME.rn_failed s' = ME.rn_failed s ∨
      ME.rn_processed s' = ME.rn_processed s ∧ ∃ reason, ME.rn_failed s' = ME.rn_failed s ++ [mkFailedEvent (TE.id event) reason]
  | Err _ => False
  | Panic => True
  end.

Lemma run_event_lists {St} (m : stm (EvState St) string unit) s :
  ME.rn_processed (ME.run_event m s).1 = ME.rn_processed s ∧ ME.rn_failed (ME.run_event m s).1 = ME.rn_failed s.
Proof. unfold ME.run_event. by destruct (m _). Qed.

Lemma charge_power_lists {St} cost (s : ME.RunState St) :
  ME.rn_processed (ME.charge_power cost s).1 = ME.rn_processed s ∧ ME.rn_failed (ME.charge_power cost s).1 = ME.rn_failed s.
Proof. unfold ME.charge_power. destruct (ME.rn_power s); [|done]. by destruct (decrement_power _ _) as [? []]. Qed.

Lemma update_flux_lists {St} f (s : ME.RunState St) :
  ME.rn_processed (ME.update_flux f s) = ME.rn_processed s ∧ ME.rn_failed (ME.update_flux f s) = ME.rn_failed s.
Proof. unfold ME.update_flux. destruct (ME.rn_flux s); [|done]. by destruct (f _). Qed.

Lemma isolated_settles {St} params (m : stm (EvState St) string unit) event s :
  settles event s (ME.isolated_event params m event s).1 (ME.isolated_event params m event s).2.
Proof.
  unfold ME.isolated_event. set (consumes := should_consume_power _).
  assert (Hc : ∀ x, x = (if consumes then ME.charge_power (power_cost_per_event params) s else (s, None)) →
    ME.rn_processed x.1 = ME.rn_processed s ∧ ME.rn_failed x.1 = ME.rn_failed s).
  { intros x ->. destruct consumes; [apply charge_power_lists|done]. }
  destruct (if consumes then _ else _) as [s1 [e|]]; destruct (Hc _ eq_refl) as [Hp Hf]; cbn [fst] in Hp, Hf.
  { right. cbn. rewrite Hp, Hf. split; [done|by eexists]. }
  destruct (run_event_lists m s1) as [Hp2 Hf2]. destruct (ME.run_event m s1) as [s2 [u|reason|]]; cbn [fst snd] in *; [| |done].
  - left. cbn. destruct (consumes && _); cbn; [destruct (update_flux_lists (increment_flux (TE.ts event)
      (flux_reward_on_success params)) s2) as [-> ->]|]; by rewrite Hp2, Hf2, Hp, Hf.
  - right. cbn. destruct (consumes && _); cbn; [destruct (update_flux_lists (penalize_flux (TE.ts event)
      (flux_penalty_on_failure params)) s2) as [-> ->]|]; rewrite Hp2, Hf2, Hp, Hf; (split; [done|by eexists]).
Qed.

Lemma shared_settles {St} (m : stm (EvState St) string unit) event s :
  settles event s (ME.shared_event m event s).1 (ME.shared_event m event s).2.
Proof.
  unfold ME.shared_event. destruct (run_event_lists m s) as [Hp Hf].
  destruct (ME.run_event m s) as [s' [u|reason|]]; cbn [fst snd] in *; [| |done]; [left|right]; cbn; rewrite Hp, Hf;
    (split; [done|]); [done|by eexists].
Qed.

Lemma event_loop_settles {St} max_ms elapsed body events i es (s : ME.RunState St) :
  (∀ i e s, settles e s (body i e s).1 (body i e s).2) → run_settled es s →
  match ME.event_loop max_ms elapsed body i events s with
  | (s', Ok _) => run_settled (es ++ (TE.id <$> events)) s'
  | (s', Err e) => e = ExecutionTimeout
  | (_, Panic) => True
  end.
Proof.
  intros Hb. revert i es s. induction events as [|e events IH]; intros i es s Hs; cbn [ME.event_loop].
  { by rewrite app_nil_r. }
  destruct (_ <? _)%Z; [done|]. specialize (Hb i e s). destruct (body i e s) as [s' [u|err|]]; cbn [fst snd settles] in Hb; [|done..].
  specialize (IH (S i) (es ++ [TE.id e]) s'). rewrite <-app_assoc in IH. apply IH. unfold run_settled in *.
  destruct Hb as [[-> ->]|[-> [reason ->]]].
  - by apply settled_processed.
  - rewrite fmap_app. by apply settled_failed.
Qed.

Lemma event_loop_no_panic {St} max_ms elapsed body events i (s : ME.RunState St) :
  (∀ i e s, (body i e s).2 ≠ Panic) → (ME.event_loop max_ms elapsed body i events s).2 ≠ Panic.
Proof.
  intros Hb. revert i s. induction events as [|e events IH]; intros i s; cbn [ME.event_loop]; [done|].
  destruct (_ <? _)%Z; [done|]. pose proof (Hb i e s). destruct (body i e s) as [s' [u|err|]]; [apply IH|done|done].
Qed.

Lemma run_event_no_panic {St} (m : stm (EvState St) string unit) s :
  (∀ s, es_counter s = 0%Z → (m s).2 ≠ Panic) → (ME.run_event m s).2 ≠ Panic.
Proof. intros Hm. unfold ME.run_event. specialize (Hm (mkEvState (ME.rn_legacy s) (ME.rn_diff s) (ME.rn_store s) 0) eq_refl). by destruct (m _). Qed.

Lemma isolated_event_no_panic {St} params (m : stm (EvState St) string unit) event s :
  (∀ s, es_counter s = 0%Z → (m s).2 ≠ Panic) → (ME.isolated_event params m event s).2 ≠ Panic.
Proof.
  intros Hm. unfold ME.isolated_event. destruct (if should_consume_power _ then _ else _) as [s1 [e|]]; [done|].
  pose proof (run_event_no_panic m s1 Hm). by destruct (ME.run_event m s1) as [s2 [u|reason|]].
Qed.

Lemma shared_event_no_panic {St} (m : stm (EvState St) string unit) event s :
  (∀ s, es_counter s = 0%Z → (m s).2 ≠ Panic) → (ME.shared_event m event s).2 ≠ Panic.
Proof.
  intros Hm. unfold ME.shared_event. pose proof (run_event_no_panic m s Hm). by destruct (ME.run_event m s) as [s2 [u|reason|]].
Qed.

Lemma execute_stf_no_panic others elapsed now us input e :
  operation_in_range (si_resolved_inputs input) → vm_calm → (ME.execute_stf others elapsed now us input e).2 ≠ Panic.
Proof.
  intros Hr Hvm. unfold ME.execute_stf. destruct (ME.use_read_set_state input).
  - pose proof (load_no_panic (si_read_set input) (si_module_read_set input)).
    destruct (ME.build_object_store_from_read_set _ _) as [store|err|]; [|done|done].
    assert (Hs : (ME.simulate_execution_isolated others elapsed input store e).2 ≠ Panic).
    { unfold ME.simulate_execution_isolated. destruct (match ME.sender_of _ with Some _ => _ | None => _ end).
      apply event_loop_no_panic. intros. apply isolated_event_no_panic. intros. by apply isolated_no_panic. }
    by destruct (ME.simulate_execution_isolated _ _ _ _ _) as [s [u|err|]].
  - assert (Hs : (ME.simulate_execution others elapsed input e).2 ≠ Panic).
    { apply event_loop_no_panic. intros. apply shared_event_no_panic. intros. by apply shared_no_panic. }
    by destruct (ME.simulate_execution _ _ _ _) as [s [u|err|]].
Qed.

(** C20: every event of a task is settled once, and the attestation is of this
    execution.  An execution that returns an output lists each event of its
    input, in order, either as processed or as failed; its attestation verifies,
    and its user data is the hash of the task id, the hash of the input, the
    state root before and the returned root, which is that of the enclave's map of
    processed events.  An error is a timeout, or the read set does not load and
    the enclave is unchanged.  The execution panics only when the resolved
    operation has an index beyond the input objects, or the Move virtual machine
    panics. *)
Theorem execution_settles (others : nat → Legacy → Legacy) (elapsed : nat → Z) (now us : Z) (input : StfInput)
    (e : MockEnclave) :
  match ME.execute_stf others elapsed now us input e with
  | (e', Ok o) =>
      settled (TE.id <$> si_events input) (events_processed o) (fe_event_id <$> events_failed o) ∧
      Att.verify_data (attestation o) = true ∧ ME.verify_attestation (attestation o) = true ∧
      attestation_data (attestation o) = Some (mkAttestationData (si_task_id input) (SI.input_hash input)
        (si_pre_state_root input) (so_post_state_root o)) ∧
      so_post_state_root o = ME.compute_state_root (legacy_state e') ∧
      so_task_id o = si_task_id input ∧ so_subnet_id o = si_subnet_id input ∧
      execution_count e' = u64_add (execution_count e) 1
  | (e', Err err) =>
      execution_count e' = execution_count e ∧
      (err = ExecutionTimeout ∨
       e' = e ∧ ME.build_object_store_from_read_set (si_read_set input) (si_module_read_set input) = Err err)
  | (e', Panic) =>
      execution_count e' = execution_count e ∧ (vm_calm → ¬ operation_in_range (si_resolved_inputs input))
  end.
Proof.
  pose proof (execute_stf_no_panic others elapsed now us input e) as Hnp.
  assert (Hout : ∀ legacy diff processed failed, let o := ME.stf_output (me_config e) input now us legacy diff processed failed in
    Att.verify_data (attestation o) = true ∧ ME.verify_attestation (attestation o) = true).
  { intros legacy diff processed failed o. split; [|done]. unfold Att.verify_data, Att.data_verify. cbn.
    by apply bool_decide_eq_true. }
  assert (Hnil : ∀ St (l : Legacy) (st : St) p f, run_settled [] (ME.run_new l st p f)) by (intros; constructor).
  unfold ME.execute_stf in *. destruct (ME.use_read_set_state input).
  - destruct (ME.build_object_store_from_read_set _ _) as [store|err|]; [|by split; [|right]|split; [done|]; intros Hvm Hr; by apply Hnp].
    unfold ME.simulate_execution_isolated in *. destruct (match ME.sender_of _ with Some _ => _ | None => _ end) as [power flux].
    match goal with |- context [ME.event_loop ?mx ?el ?body 0 ?evs ?s0] =>
      pose proof (event_loop_settles mx el body evs 0 [] s0 (fun i e s => isolated_settles _ _ e s) (Hnil _ _ _ _ _)) as Hl;
      destruct (ME.event_loop mx el body 0 evs s0) as [s [u|err|]] end; [|by split; [|left]|split; [done|]; intros Hvm Hr; by apply Hnp].
    destruct (Hout (others (length (si_events input)) (ME.rn_legacy s)) (ME.rn_diff s) (ME.rn_processed s) (ME.rn_failed s)).
    split_and!; done.
  - unfold ME.simulate_execution in *.
    match goal with |- context [ME.event_loop ?mx ?el ?body 0 ?evs ?s0] =>
      pose proof (event_loop_settles mx el body evs 0 [] s0 (fun i e s => shared_settles _ e s) (Hnil _ _ _ _ _)) as Hl;
      destruct (ME.event_loop mx el body 0 evs s0) as [s [u|err|]] end; [|by split; [|left]|split; [done|]; intros Hvm Hr; by apply Hnp].
    destruct (Hout (others (length (si_events input)) (ME.rn_legacy s)) (ME.rn_diff s) (ME.rn_processed s) (ME.rn_failed s)).
    split_and!; done.
Qed.

(** ** Objects in calls of the Move VM *)

(** Which objects a sender may pass to a call, at which position. *)
Definition may_pass (p : MoveCallPayload) (sender : Address) (idx : nat) (id : ObjectId) (o : Ownership) : Prop :=
  match o with
  | AddressOwner owner => owner = sender
  | Immutable => idx ∉ default [] (mc_mutable_indices p) ∧ idx ∉ default [] (mc_consumed_indices p)
  | Shared _ => id ∈ mc_shared_object_ids p
  | ObjectOwner _ => False
  end.

(** And to a transaction block. *)
Definition may_pass_ptb (sender : Address) (o : Ownership) : Prop :=
  match o with
  | AddressOwner owner => owner = sender
  | Immutable => True
  | _ => False
  end.

Definition all_inputs (Q : nat → ObjectId → Ownership → Prop) (st : InMemoryObjectStore) (objs : list ResolvedObject) : Prop :=
  ∀ i ro, objs !! i = Some ro → ∃ env, OS.get_envelope st (ro_object_id ro) = Some env ∧
    Q i (ro_object_id ro) (em_ownership (env_metadata env)).

Lemma check_call_spec p sender idx id o : ME.check_call_input p sender idx id o = Ok tt ↔ may_pass p sender idx id o.
Proof.
  unfold ME.check_call_input, may_pass. destruct o; repeat case_bool_decide; split; intros; try done; naive_solver.
Qed.

Lemma check_ptb_spec p sender idx id o : ME.check_ptb_input p sender idx id o = Ok tt ↔ may_pass_ptb sender o.
Proof. unfold ME.check_ptb_input, may_pass_ptb. destruct o; repeat case_bool_decide; split; intros; done || naive_solver. Qed.

Lemma collect_inputs_spec check st k objs ios :
  ME.collect_inputs check st k objs = Ok ios →
  all_inputs (fun i id o => check (k + i)%nat id o = Ok tt) st objs.
Proof.
  revert k ios. induction objs as [|ro objs IH]; intros k ios Hc; [intros i ro' Hi; done|].
  cbn [ME.collect_inputs] in Hc. destruct (OS.get_envelope st (ro_object_id ro)) as [env|] eqn:He; [|done]. cbn [ok_or rbind] in Hc.
  destruct (check k (ro_object_id ro) (em_ownership (env_metadata env))) as [[]|e|] eqn:Hck; cbn [rbind] in Hc; [|done..].
  destruct (ME.from_envelope _ _); cbn [rbind] in Hc; [|done..].
  destruct (ME.collect_inputs check st (S k) objs) as [ios'|e|] eqn:Hr; cbn [rbind] in Hc; [|done..].
  intros [|i] ro' Hi; cbn in Hi.
  - simplify_eq. exists env. rewrite Nat.add_0_r. done.
  - destruct (IH _ _ Hr i ro' Hi) as (env' & ? & ?). exists env'. rewrite Nat.add_succ_r. done.
Qed.

(** A call that did not change anything and did not succeed. *)
Definition refused {A} (s : EvState InMemoryObjectStore) (r : EvState InMemoryObjectStore * result string A) : Prop :=
  r.1 = s ∧ ∀ a, r.2 ≠ Ok a.

(** C21: the Move VM runs only on objects the sender may use.  A Move call either
    has an enabled VM, a sender that parses, and inputs that are all in the
    store and owned by the sender, or immutable and bound neither mutably nor by
    value, or shared and declared as such; or it is refused before the VM runs,
    and changes nothing.  A transaction block takes only the sender's own and
    immutable objects.  Objects owned by other objects are never inputs. *)
Theorem move_inputs_authorized (others : Legacy → Legacy) (event : TaskEvent) (inputs : ResolvedInputs) (gas : Z)
    (s : EvState InMemoryObjectStore) :
  (∀ p : MoveCallPayload,
     (vm_enabled = true ∧ ∃ sender, address_from_hex (mc_sender p) = Ok sender ∧
        all_inputs (may_pass p sender) (es_store s) (ri_input_objects inputs)) ∨
     refused s (ME.execute_move_call others event p inputs gas s)) ∧
  (∀ p : MovePtbPayload,
     (vm_enabled = true ∧ ∃ sender, address_from_hex (mp_sender p) = Ok sender ∧
        all_inputs (fun _ _ => may_pass_ptb sender) (es_store s) (ri_input_objects inputs)) ∨
     refused s (ME.execute_move_ptb others event p inputs gas s)).
Proof.
  split; intros p; [unfold ME.execute_move_call|unfold ME.execute_move_ptb];
    (destruct vm_enabled; cbn [negb]; [|by right]); unfold sbind at 1, ME.vm_sender, slift;
    (destruct (address_from_hex _) as [sender|e|]; [|by right..]); unfold sbind at 1.
  - destruct (ME.collect_inputs _ (es_store s) 0 _) as [ios|e|] eqn:Hc; [left|by right..].
    split; [done|]. exists sender. split; [done|]. intros i ro Hi.
    destruct (collect_inputs_spec _ _ _ _ _ Hc i ro Hi) as (env & ? & Hck). exists env. split; [done|]. by apply check_call_spec in Hck.
  - destruct (ME.collect_inputs _ (es_store s) 0 _) as [ios|e|] eqn:Hc; [left|by right..].
    split; [done|]. exists sender. split; [done|]. intros i ro Hi.
    destruct (collect_inputs_spec _ _ _ _ _ Hc i ro Hi) as (env & ? & Hck). exists env. split; [done|]. by apply check_ptb_spec in Hck.
Qed.
End Enclave.
