(* ===== verification/TransferFlow.v ===== *)
(** * A transfer from the choice of the coin to the state

    A transfer of one coin goes through [prepare_transfer_task] (validator),
    [execute_stf] (solver) and [build_execution_state_changes] (validator), and
    its event is then applied to the state.  The lemmas compute what each stage
    hands to the next; the theorems say what the transfer does to the state,
    when it is refused there, and that a nonce is used once. *)

From Stdlib Require Import ZArith Lia Strings.Byte.
From stdpp Require Import base gmap sets list strings numbers.
From S2P Require Import Prelude Hash Vlc Event Coin StateStore Resource Executor ExecutorSpec SparseMerkle StateManager StateSpec Overlay Reservation Task Stf Enclave StateProvider TaskPreparer.

#[local] Open Scope list_scope.
#[local] Open Scope Z_scope.
#[local] Open Scope setu_scope.

(** ** What the encodings promise *)

(** The [hex] crate prints two digits per byte and no prefix; BCS reads back
    what it wrote, and a structure that begins with a short string begins with
    the length of the string. *)
Class EncodingLaws `{HexCrate} `{Bcs} `{StateBcs} : Prop := {
  hex_no_prefix b : strip_0x (hex_encode b) = hex_encode b;
  hex_length b : String.length (hex_encode b) = (2 * length b)%nat;
  coin_state_de_ser cs :
    is_u64 (cs_balance cs) → is_u64 (cs_version cs) → (String.length (cs_owner cs) < 128)%nat →
    bcs_coin_state_de (bcs_coin_state cs) = Some cs;
  coin_state_head cs :
    (String.length (cs_owner cs) < 128)%nat →
    head (bcs_coin_state cs) = Some (byte_of_Z (Z.of_nat (String.length (cs_owner cs))))
}.

(** ** Events whose changes name distinct objects *)

Section Distinct.
Context `{B : Blake3} `{X : HexCrate}.

Definition place_of (n : SubnetId) (c : StateChange) : SubnetId * HashValue := (GS.change_target n c, change_id c).

Lemma parse_object_key id : GS.parse_state_change_key (object_key id) = id.
Proof.
  unfold GS.parse_state_change_key, object_key.
  change (strip_prefix "oid:" ("oid:" +:+ hex_encode (hv_bytes id))%string) with (Some (hex_encode (hv_bytes id))).
  cbv beta iota. by rewrite hex_decode_encode, hash_of_hv_bytes.
Qed.

Lemma changes_frame n w cs m k :
  (m, k) ∉ (place_of n <$> cs) → w_get (foldl (spec_change n) w cs) m k = w_get w m k.
Proof.
  revert w. induction cs as [|c cs IH]; intros w Hc; [done|].
  rewrite fmap_cons, not_elem_of_cons in Hc. destruct Hc as [Hc Hcs].
  cbn [foldl]. rewrite IH by done. unfold spec_change. rewrite w_get_write. by rewrite decide_False by (unfold place_of in Hc; congruence).
Qed.

Lemma changes_get n w cs c :
  NoDup (place_of n <$> cs) → c ∈ cs →
  w_get (foldl (spec_change n) w cs) (GS.change_target n c) (change_id c) = new_value c.
Proof.
  revert w. induction cs as [|c' cs IH]; intros w Hnd Hc; [set_solver|].
  rewrite fmap_cons in Hnd. apply list.NoDup_cons in Hnd as [Hn Hnd]. cbn [foldl].
  apply elem_of_cons in Hc as [->|Hc]; [|by apply IH].
  rewrite changes_frame by done. unfold spec_change. rewrite w_get_write. by rewrite decide_True.
Qed.

(** They are accepted when each is, on the state the event starts from. *)
Lemma distinct_accepted n w0 w cs :
  NoDup (place_of n <$> cs) →
  (∀ c, c ∈ cs → w_get w (GS.change_target n c) (change_id c) = w_get w0 (GS.change_target n c) (change_id c)) →
  (∀ c, c ∈ cs → spec_allowed w0 w0 (GS.change_target n c) c = true) →
  spec_conflict n w0 w cs = None.
Proof.
  revert w. induction cs as [|c cs IH]; intros w Hnd Hw Hok; [done|].
  rewrite fmap_cons in Hnd. apply list.NoDup_cons in Hnd as [Hn Hnd]. cbn [spec_conflict].
  assert (spec_allowed w0 w (GS.change_target n c) c = true) as ->.
  { specialize (Hok c ltac:(set_solver)). unfold spec_allowed in *. by rewrite (Hw c ltac:(set_solver)). }
  apply IH; [done| |set_solver]. intros c' Hc'. unfold spec_change. rewrite w_get_write. rewrite decide_False.
  - apply Hw. set_solver.
  - intros E. apply Hn. change (GS.change_target n c, change_id c) with (place_of n c) in E. rewrite E.
    apply list_elem_of_fmap. by exists c'.
Qed.

(** A change that is not allowed at the start makes the event conflict, when
    it names a place of its own. *)
Lemma refused_conflicts n w0 w cs c :
  NoDup (place_of n <$> cs) → c ∈ cs →
  (∀ c, c ∈ cs → w_get w (GS.change_target n c) (change_id c) = w_get w0 (GS.change_target n c) (change_id c)) →
  spec_allowed w0 w0 (GS.change_target n c) c = false →
  is_Some (spec_conflict n w0 w cs).
Proof.
  revert w. induction cs as [|c' cs IH]; intros w Hnd Hc Hw Hno; [set_solver|].
  rewrite fmap_cons in Hnd. apply list.NoDup_cons in Hnd as [Hn Hnd]. cbn [spec_conflict].
  destruct (spec_allowed w0 w (GS.change_target n c') c') eqn:E; [|done].
  apply elem_of_cons in Hc as [->|Hc].
  - exfalso. unfold spec_allowed in *. rewrite (Hw c' ltac:(set_solver)) in E. congruence.
  - apply IH; [done..| |done]. intros c1 Hc1. unfold spec_change. rewrite w_get_write, decide_False; [set_solver|].
    intros E'. apply Hn. change (GS.change_target n c', change_id c') with (place_of n c') in E'. rewrite E'.
    apply list_elem_of_fmap. by exists c1.
Qed.

(** Creating what is there is a conflict, whatever the other changes are. *)
Lemma create_conflicts n w0 w cs c :
  c ∈ cs → old_value c = None → is_Some (new_value c) →
  is_Some (w_get w0 (GS.change_target n c) (change_id c)) →
  is_Some (spec_conflict n w0 w cs).
Proof.
  revert w. induction cs as [|c' cs IH]; intros w Hc Ho [v Hv] Hw; [set_solver|]. cbn [spec_conflict].
  destruct (spec_allowed w0 w (GS.change_target n c') c') eqn:E; [|done].
  apply elem_of_cons in Hc as [->|Hc]; [|by apply IH].
  exfalso. unfold spec_allowed in E. rewrite Ho, Hv in E. apply andb_true_iff in E as [E _].
  apply bool_decide_eq_true in E. rewrite E in Hw. by destruct Hw.
Qed.
End Distinct.

(** ** The runtime *)

Section Runtime.
Context {St : Type} `{ST : StateStore St} `{L : !StateStoreLaws St}.
Context `{B : Blake3} `{C : Bcs} `{X : HexCrate} `{J : SerdeJson}.

(** The coin that is left and the one that is created by a transfer. *)
Definition transfer_changes (c : Coin) (cid nid : ObjectId) (to : Address) (amt ts : Z) : list RtStateChange :=
  let old := Some (to_coin_state_bytes c) in
  if amt =? coin_balance c then
    [mkRtStateChange Update cid old (Some (to_coin_state_bytes (Obj.transfer_to c to)))]
  else
    [mkRtStateChange Update cid old
       (Some (to_coin_state_bytes (Obj.increment_version (set_balance c (mkBalance (coin_balance c - amt))))));
     mkRtStateChange Create nid None
       (Some (to_coin_state_bytes (create_coin_with_id nid to amt (ct_str (coin_ty c)) ts)))].

Lemma transfer_runs s n c cid from to a b amt ctx :
  ss_inv s → ss_coins s !! cid = Some c → Obj.is_owned c = true → coin_owner c = Some a →
  0 < amt ≤ coin_balance c → n < u32_max → address_from_hex from = Ok a → address_from_hex to = Ok b →
  ∃ s' n' o, Exec.execute_transfer_with_coin cid from to (Some amt) ctx (s, n) = ((s', n'), Ok o) ∧
    success o = true ∧
    out_changes o = transfer_changes c cid (coin_id_from_tx (tx_hash ctx) n) b amt (ctx_timestamp ctx).
Proof.
  intros Hi Hc How Ho Hamt Hn Ha Hb.
  assert (Hu : is_u64 (coin_balance c)) by (by eapply ss_balance).
  assert (W : wp (Exec.execute_transfer_with_coin cid from to (Some amt) ctx) (s, n) (fun _ r =>
    ∃ o, r = Ok o ∧ success o = true ∧
      out_changes o = transfer_changes c cid (coin_id_from_tx (tx_hash ctx) n) b amt (ctx_timestamp ctx))).
  { unfold Exec.execute_transfer_with_coin, Exec.parse_address. apply wp_bind. unfold wp at 1. rewrite Ha. simpl.
    apply wp_bind. unfold wp at 1. rewrite Hb. simpl. unfold Exec.execute_transaction, Exec.execute_transfer. simpl.
    apply wp_bind, wp_load; [done| |congruence]. intros c' Hc'. assert (c' = c) as -> by congruence.
    apply wp_refuse; [by rewrite How|]. intros _.
    apply wp_bind. unfold Exec.owner_or. rewrite Ho. unfold wp at 1. simpl.
    apply wp_refuse; [intros E%bool_decide_eq_true; done|]. intros _.
    apply wp_refuse; [intros E%bool_decide_eq_true; simplify_eq; lia|]. intros _.
    unfold transfer_changes. destruct (Z.eqb_spec amt (coin_balance c)) as [E|E].
    - apply wp_bind, wp_set; [done| |].
      + unfold coin_ok, Obj.transfer_to. rewrite How. split; [exact Hu|]. by eexists.
      + intros s' _ _. apply wp_ret. by eexists.
    - apply wp_bind. unfold wp at 1. simpl. apply wp_bind, wp_withdraw.
      { intros msg ?. unfold coin_balance in *. lia. }
      intros _. apply wp_bind, wp_set; [done| |].
      + split; [|by eexists]. unfold is_u64, coin_balance in *. simpl. lia.
      + intros s' Hi' _. apply wp_bind, wp_new_id; [done|]. apply wp_bind, wp_set; [done| |].
        * split; [|by eexists]. unfold is_u64, coin_balance in *. simpl. lia.
        * intros s'' _ _. apply wp_ret. by eexists. }
  unfold wp in W. destruct (Exec.execute_transfer_with_coin _ _ _ _ _ _) as [[s' n'] r]. cbn [snd] in W.
  destruct W as (o & -> & H1 & H2). by exists s', n', o.
Qed.
End Runtime.

(** ** The enclave *)

Section Enclave.
Context `{B : Blake3} `{C : Bcs} `{SB : StateBcs} `{X : HexCrate} `{J : SerdeJson} `{S2 : Sha256}.
Context `{V : MoveVm} `{RJ : ResourceJson} `{EL : !EncodingLaws}.

Lemma object_key_inj x y : object_key x = object_key y → x = y.
Proof. intros E. rewrite <-(parse_object_key x), <-(parse_object_key y). by rewrite E. Qed.

Lemma object_id_parse id : object_id_from_hex (hex_encode (hv_bytes id)) = Ok id.
Proof.
  unfold object_id_from_hex. rewrite hex_no_prefix, hex_decode_encode. unfold HV.from_slice.
  by rewrite hash_of_hv_bytes.
Qed.

Lemma strip_object_key id : strip_prefix "oid:" (object_key id) = Some (hex_encode (hv_bytes id)).
Proof. done. Qed.

(** The owner of a coin as the state stores it. *)
Definition owned_state (a : Address) (cs : CoinState) : Prop :=
  cs_owner cs = show_id a ∧ is_u64 (cs_balance cs) ∧ is_u64 (cs_version cs).

Lemma show_id_length a : String.length (show_id a) = 66%nat.
Proof.
  unfold show_id. change (String.length ("0x" +:+ hex_encode (hv_bytes a))%string)
    with (S (S (String.length (hex_encode (hv_bytes a))))). by rewrite hex_length, hv_length.
Qed.

Lemma coin_bytes_head a cs : owned_state a cs → ∃ rest, bcs_coin_state cs = Byte.x42 :: rest.
Proof.
  intros [Ho _]. pose proof (coin_state_head cs) as Hh. rewrite Ho, show_id_length in Hh.
  specialize (Hh ltac:(lia)). destruct (bcs_coin_state cs) as [|b rest]; [done|]. exists rest. cbn in Hh. by simplify_eq.
Qed.

(** A coin of the read set is loaded as an envelope. *)
Lemma load_coin_entry id a cs proof :
  owned_state a cs →
  ME.load_entry (mkReadSetEntry (object_key id) (bcs_coin_state cs) proof)
  = Ok (Some (id, from_legacy_coin_state id cs)).
Proof.
  intros Hcs. destruct (coin_bytes_head a cs Hcs) as [rest Hb]. destruct Hcs as (Ho & Hbal & Hver).
  unfold ME.load_entry. cbn [rs_key rs_value]. rewrite strip_object_key, object_id_parse. cbn [rbind].
  rewrite coin_state_de_ser by (rewrite ?Ho, ?show_id_length; done || lia).
  rewrite Hb. destruct rest as [|b1 rest]; [done|].
  assert (E : (Z.of_N (Byte.to_N Byte.x42) + 256 * Z.of_N (Byte.to_N b1) =? ENVELOPE_MAGIC)%Z = false); [|by rewrite E].
  apply Z.eqb_neq. unfold ENVELOPE_MAGIC. change (Z.of_N (Byte.to_N Byte.x42)) with 66. lia.
Qed.

(** A JSON object is skipped. *)
Lemma load_json_entry id v proof :
  head v = Some Byte.x7b → ME.load_entry (mkReadSetEntry (object_key id) v proof) = Ok None.
Proof.
  intros Hv. unfold ME.load_entry. cbn [rs_key rs_value]. rewrite strip_object_key, object_id_parse. cbn [rbind].
  destruct v as [|b0 rest]; [done|]. cbn in Hv. simplify_eq. destruct rest as [|b1 rest]; [done|].
  assert (E : (Z.of_N (Byte.to_N Byte.x7b) + 256 * Z.of_N (Byte.to_N b1) =? ENVELOPE_MAGIC)%Z = false); [|by rewrite E].
  apply Z.eqb_neq. unfold ENVELOPE_MAGIC. change (Z.of_N (Byte.to_N Byte.x7b)) with 123. lia.
Qed.

Definition json_entry (e : ReadSetEntry) : Prop :=
  (∃ id, rs_key e = object_key id) ∧ head (rs_value e) = Some Byte.x7b.

Lemma load_json_entries es s : Forall json_entry es → ME.load_entries es s = Ok s.
Proof.
  induction 1 as [|e es [[id Hk] Hv] _ IH]; [done|]. cbn [ME.load_entries]. destruct e as [k v proof]. cbn in Hk, Hv.
  subst k. by rewrite load_json_entry by done.
Qed.

(** The coin that is read back. *)
Definition coin_of (id : ObjectId) (a : Address) (cs : CoinState) : Coin :=
  mkObject (mkObjectMetadata id (cs_version cs) zero_hash OwnedObject (Some a) (AddressOwner a) 0 0)
    (mkCoinData (mkCoinType (cs_coin_type cs)) (mkBalance (cs_balance cs))).

Lemma store_of_coin id a cs :
  owned_state a cs →
  let s := OS.set_envelope id (from_legacy_coin_state id cs) OS.new in
  os_inv s ∧ os_coins s !! id = Some (env_norm (coin_of id a cs)).
Proof.
  intros (Ho & Hbal & Hver) s.
  assert (E : from_legacy_coin_state id cs = from_coin_object (coin_of id a cs)).
  { unfold from_legacy_coin_state. rewrite Ho. unfold address_normalize. by rewrite address_from_hex_show. }
  subst s. rewrite E. destruct (os_set_inv OS.new id (coin_of id a cs)) as [Hi Hc].
  - apply os_new_inv.
  - split; [exact Hbal|by eexists].
  - split; [exact Hi|]. rewrite Hc. apply lookup_insert_eq.
Qed.

(** *** The writes of a transfer *)

(** The coin after the transfer, and the new coin. *)
Definition debited (cs : CoinState) (b : Address) (amt : Z) : CoinState :=
  if amt =? cs_balance cs
  then mkCoinState (show_id b) (cs_balance cs) (u64_add (cs_version cs) 1) (cs_coin_type cs)
  else mkCoinState (cs_owner cs) (cs_balance cs - amt) (u64_add (cs_version cs) 1) (cs_coin_type cs).
Definition credited (cs : CoinState) (b : Address) (amt : Z) : CoinState :=
  mkCoinState (show_id b) amt 1 (cs_coin_type cs).

Definition coin_writes (cs : CoinState) (id nid : ObjectId) (b : Address) (amt : Z) : list WriteSetEntry :=
  mkWriteSetEntry (object_key id) (Some (bcs_coin_state cs)) (bcs_coin_state (debited cs b amt))
  :: (if amt =? cs_balance cs then []
      else [mkWriteSetEntry (object_key nid) None (bcs_coin_state (credited cs b amt))]).

Definition event_key (eid : EventId) : string := ("event:" +:+ eid)%string.
Definition event_write (eid : EventId) (old : option bytes) : WriteSetEntry :=
  mkWriteSetEntry (event_key eid) old (as_bytes ("processed:" +:+ eid)%string).

Lemma transfer_writes id nid a cs b amt ts d :
  owned_state a cs →
  SD.add_state_changes (transfer_changes (env_norm (coin_of id a cs)) id nid b amt ts) d
  = mkStateDiff (writes d ++ coin_writes cs id nid b amt) (sd_deletes d).
Proof.
  intros (Ho & Hbal & Hver). unfold transfer_changes, coin_writes, debited, credited.
  change (coin_balance (env_norm (coin_of id a cs))) with (cs_balance cs).
  assert (E : bcs_coin_state cs = to_coin_state_bytes (env_norm (coin_of id a cs))).
  { unfold to_coin_state_bytes, to_coin_state. destruct cs as [o bal v ty]. cbn in *. by rewrite Ho. }
  rewrite E, Ho. destruct (amt =? cs_balance cs); unfold SD.add_state_changes; cbn [foldl]; unfold SD.add_write; cbn.
  - done.
  - by rewrite <-app_assoc.
Qed.

(** *** One event *)

Definition transfer_event (e : TaskEvent) (t : TransferReq) : Prop :=
  te_transfer e = Some t ∧ event_type (te_event e) = Transfer.

Lemma run_transfer solver others e t id a b cs gas (s : ME.RunState InMemoryObjectStore) :
  transfer_event e t → owned_state a cs →
  ME.rn_store s = OS.set_envelope id (from_legacy_coin_state id cs) OS.new →
  0 < tr_amount t ≤ cs_balance cs → address_from_hex (tr_from t) = Ok a → address_from_hex (tr_to t) = Ok b →
  ∃ st, ME.run_event
    (ME.execute_single_event_with_object_store solver others e
       (RI.transfer (mkResolvedObject id "Coin" (cs_version cs)) (tr_amount t)) gas) s
  = (ME.mkRun (<[event_key (TE.id e) := as_bytes ("processed:" +:+ TE.id e)%string]> (others (ME.rn_legacy s)))
       (mkStateDiff (writes (ME.rn_diff s)
                       ++ coin_writes cs id (coin_id_from_tx (ME.derive_tx_hash (TE.id e)) 0) b (tr_amount t)
                       ++ [event_write (TE.id e) (others (ME.rn_legacy s) !! event_key (TE.id e))])
          (sd_deletes (ME.rn_diff s)))
       st (ME.rn_power s) (ME.rn_flux s) (ME.rn_processed s) (ME.rn_failed s), Ok tt).
Proof.
  intros [Ht _] Hcs Hst Hamt Ha Hb. destruct (store_of_coin id a cs Hcs) as [Hi Hc].
  destruct (transfer_runs (L := InMemoryObjectStore_laws) (OS.set_envelope id (from_legacy_coin_state id cs) OS.new) 0 _ id (tr_from t) (tr_to t)
              a b (tr_amount t) (ME.context solver e) Hi Hc) as (s' & n' & o & Hrun & Hok & Hch);
    [done|done|exact Hamt|done|exact Ha|exact Hb|].
  exists s'. unfold ME.execute_single_event_with_object_store. rewrite Ht.
  unfold ME.execute_transfer_with_local_runtime, ME.run_event. rewrite Hst.
  change (RI.primary_coin (RI.transfer ?c _)) with (Some c).
  cbv [ME.new_context sbind ro_object_id ME.rt es_store es_counter es_legacy es_diff].
  rewrite Hrun. unfold ME.require_success. rewrite Hok.
  cbv [sret ME.on_diff sbind es_store es_counter es_legacy es_diff]. rewrite Hch, transfer_writes by done.
  unfold ME.record_event_processed, SD.add_write. cbn [es_legacy es_diff es_store es_counter writes sd_deletes].
  rewrite <-app_assoc. unfold event_write, event_key, WS.with_old_opt, WS.with_old_value, WS.new.
  by destruct (others (ME.rn_legacy s) !! _).
Qed.

(** *** Power and Flux *)

Definition spent (cost : Z) (s : PowerState) : PowerState :=
  mkPowerState (pw_address s) (power_remaining s - cost) (u64_add (pw_version s) 1).
Definition rewarded (reward ts : Z) (f : FluxState) : FluxState :=
  mkFluxState (fx_address f) (u64_add (flux f) reward) ts (u64_add (fx_version f) 1).

Definition json_bytes (j : json) : bytes := default [] (json_to_vec j).
Definition prints (j : json) : Prop := is_Some (json_to_vec j).

(** The sender can pay, and what is written can be printed. *)
Definition power_ready (cost : Z) (pw : option PowerState) : Prop :=
  ∀ s, pw = Some s → cost ≤ power_remaining s ∧ prints (power_json s) ∧ prints (power_json (spent cost s)).
Definition flux_ready (reward ts : Z) (fx : option FluxState) : Prop :=
  ∀ f, fx = Some f → prints (flux_json f) ∧ prints (flux_json (rewarded reward ts f)).

Definition power_writes (cost : Z) (pw : option PowerState) : list WriteSetEntry :=
  match pw with
  | Some s => [mkWriteSetEntry (object_key (power_state_object_id (pw_address s))) (Some (json_bytes (power_json s)))
                 (json_bytes (power_json (spent cost s)))]
  | None => []
  end.
Definition flux_writes (reward ts : Z) (fx : option FluxState) : list WriteSetEntry :=
  match fx with
  | Some f =>
      if 0 <? reward then
        [mkWriteSetEntry (object_key (flux_state_object_id (fx_address f))) (Some (json_bytes (flux_json f)))
           (json_bytes (flux_json (rewarded reward ts f)))]
      else []
  | None => []
  end.

Lemma charge_power_ok {St} cost (s : ME.RunState St) :
  power_ready cost (ME.rn_power s) →
  ME.charge_power cost s =
    (ME.mkRun (ME.rn_legacy s)
       (mkStateDiff (writes (ME.rn_diff s) ++ power_writes cost (ME.rn_power s)) (sd_deletes (ME.rn_diff s)))
       (ME.rn_store s) (spent cost <$> ME.rn_power s) (ME.rn_flux s) (ME.rn_processed s) (ME.rn_failed s), None).
Proof.
  intros Hr. unfold ME.charge_power. destruct s as [l [w d] st [p|] f pr fa]; cbn in *.
  2: { by rewrite app_nil_r. }
  destruct (Hr p eq_refl) as (Hle & [old Hold] & [new Hnew]). unfold decrement_power, json_bytes.
  destruct (Z.ltb_spec (power_remaining p) cost); [lia|]. rewrite Hold. unfold json_vec.
  change (mkPowerState (pw_address p) (power_remaining p - cost) (u64_add (pw_version p) 1)) with (spent cost p).
  by rewrite Hnew.
Qed.

Lemma update_flux_ok {St} reward ts (s : ME.RunState St) :
  flux_ready reward ts (ME.rn_flux s) → 0 < reward →
  ∃ fx, ME.update_flux (increment_flux ts reward) s =
    ME.mkRun (ME.rn_legacy s)
       (mkStateDiff (writes (ME.rn_diff s) ++ flux_writes reward ts (ME.rn_flux s)) (sd_deletes (ME.rn_diff s)))
       (ME.rn_store s) (ME.rn_power s) fx (ME.rn_processed s) (ME.rn_failed s).
Proof.
  intros Hr Hpos. unfold ME.update_flux. destruct s as [l [w d] st p [f|] pr fa]; cbn in *.
  2: { exists None. by rewrite app_nil_r. }
  destruct (Hr f eq_refl) as ([old Hold] & [new Hnew]). exists (Some (rewarded reward ts f)).
  rewrite (proj2 (Z.ltb_lt 0 reward)) by done.
  unfold increment_flux, write_flux, json_bytes. rewrite Hold. unfold json_vec.
  change (mkFluxState (fx_address f) (u64_add (flux f) reward) ts (u64_add (fx_version f) 1)) with (rewarded reward ts f).
  by rewrite Hnew.
Qed.

(** *** The task *)

(** Everything a transfer writes, in order. *)
Definition transfer_diff (params : ResourceParams) (pw : option PowerState) (fx : option FluxState)
    (e : TaskEvent) (id : ObjectId) (cs : CoinState) (b : Address) (amt : Z) (old : option bytes)
    : list WriteSetEntry :=
  power_writes (power_cost_per_event params) pw
    ++ coin_writes cs id (coin_id_from_tx (ME.derive_tx_hash (TE.id e)) 0) b amt
    ++ [event_write (TE.id e) old]
    ++ flux_writes (flux_reward_on_success params) (TE.ts e) fx.

Lemma isolated_transfer solver others e t id a b cs gas params (s : ME.RunState InMemoryObjectStore) :
  transfer_event e t → owned_state a cs →
  ME.rn_store s = OS.set_envelope id (from_legacy_coin_state id cs) OS.new →
  0 < tr_amount t ≤ cs_balance cs → address_from_hex (tr_from t) = Ok a → address_from_hex (tr_to t) = Ok b →
  power_ready (power_cost_per_event params) (ME.rn_power s) →
  flux_ready (flux_reward_on_success params) (TE.ts e) (ME.rn_flux s) →
  ∃ st pw fx, ME.isolated_event params
    (ME.execute_single_event_with_object_store solver others e
       (RI.transfer (mkResolvedObject id "Coin" (cs_version cs)) (tr_amount t)) gas) e s
  = (ME.mkRun (<[event_key (TE.id e) := as_bytes ("processed:" +:+ TE.id e)%string]> (others (ME.rn_legacy s)))
       (mkStateDiff (writes (ME.rn_diff s)
                       ++ transfer_diff params (ME.rn_power s) (ME.rn_flux s) e id cs b (tr_amount t)
                            (others (ME.rn_legacy s) !! event_key (TE.id e)))
          (sd_deletes (ME.rn_diff s)))
       st pw fx (ME.rn_processed s ++ [TE.id e]) (ME.rn_failed s), Ok tt).
Proof.
  intros He Hcs Hst Hamt Ha Hb Hpw Hfx. unfold ME.isolated_event.
  rewrite (proj2 He). change (should_consume_power Transfer) with true. cbv iota.
  rewrite charge_power_ok by done. cbv iota beta.
  match goal with |- context [ME.run_event _ ?x] => set (s1 := x) end.
  destruct (run_transfer solver others e t id a b cs gas s1 He Hcs Hst Hamt Ha Hb) as [st Hrun].
  rewrite Hrun. cbv iota beta. cbn [andb]. unfold transfer_diff. subst s1. cbn [ME.rn_legacy ME.rn_diff writes
    sd_deletes ME.rn_power ME.rn_flux ME.rn_processed ME.rn_failed ME.rn_store].
  destruct (Z.ltb_spec 0 (flux_reward_on_success params)) as [Hpos|Hzero].
  - match goal with |- context [ME.update_flux _ ?x] => set (s2 := x) end.
    destruct (update_flux_ok (flux_reward_on_success params) (TE.ts e) s2 Hfx Hpos) as [fx ->].
    exists st. eexists _, _. unfold ME.push_processed. subst s2. cbn [ME.rn_legacy ME.rn_diff writes sd_deletes ME.rn_power ME.rn_flux ME.rn_processed
      ME.rn_failed ME.rn_store].
    by rewrite <-!app_assoc.
  - exists st. eexists _, _. unfold ME.push_processed. cbn [ME.rn_legacy ME.rn_diff writes sd_deletes ME.rn_power ME.rn_flux ME.rn_processed
      ME.rn_failed ME.rn_store].
    assert (flux_writes (flux_reward_on_success params) (TE.ts e) (ME.rn_flux s) = []) as ->.
    { unfold flux_writes. destruct (ME.rn_flux s); [|done]. by destruct (Z.ltb_spec 0 (flux_reward_on_success params)); [lia|]. }
    by rewrite app_nil_r, <-!app_assoc.
Qed.

(** The task of a transfer of one coin whose inputs are as the state has them. *)
Record transfer_task (task : SolverTask) (t : TransferReq) (id : ObjectId) (a b : Address) (cs : CoinState)
    (pw : option PowerState) (fx : option FluxState) (params : ResourceParams) : Prop := mkTransferTask {
  tt_event : transfer_event (st_event task) t;
  tt_inputs : st_resolved_inputs task = RI.transfer (mkResolvedObject id "Coin" (cs_version cs)) (tr_amount t);
  tt_read : ∃ proof rest, st_read_set task = mkReadSetEntry (object_key id) (bcs_coin_state cs) proof :: rest ∧
    Forall json_entry rest;
  tt_modules : st_module_read_set task = [];
  tt_resources : ME.extract_power_flux (st_read_set task) (tr_from t) = (pw, fx);
  tt_params : ME.extract_resource_params (st_read_set task) = params;
  tt_coin : owned_state a cs;
  tt_amount : 0 < tr_amount t ≤ cs_balance cs;
  tt_from : address_from_hex (tr_from t) = Ok a;
  tt_to : address_from_hex (tr_to t) = Ok b;
  tt_power : power_ready (power_cost_per_event params) pw;
  tt_flux : flux_ready (flux_reward_on_success params) (TE.ts (st_event task)) fx
}.

Lemma stf_transfer others elapsed now us task t id a b cs pw fx params enclave :
  transfer_task task t id a b cs pw fx params → elapsed 0%nat ≤ max_execution_time_ms (me_config enclave) →
  ∃ enclave' o, ME.execute_stf others elapsed now us (Tee.stf_input task) enclave = (enclave', Ok o) ∧
    state_diff o = mkStateDiff (transfer_diff params pw fx (st_event task) id cs b (tr_amount t)
                      (others 0%nat (legacy_state enclave) !! event_key (TE.id (st_event task)))) [] ∧
    events_processed o = [TE.id (st_event task)] ∧ events_failed o = [] ∧
    so_task_id o = st_task_id task ∧ so_subnet_id o = st_subnet_id task.
Proof.
  intros [He Hin (proof & rest & Hrs & Hjson) Hmod Hres Hpar Hcs Hamt Ha Hb Hpw Hfx] Htime.
  unfold ME.execute_stf. unfold ME.use_read_set_state.
  change (si_read_set (Tee.stf_input task)) with (st_read_set task).
  change (si_module_read_set (Tee.stf_input task)) with (st_module_read_set task).
  rewrite Hmod. rewrite (bool_decide_eq_false_2 (st_read_set task = [])) by (by rewrite Hrs). cbn [negb orb].
  assert (Hload : ME.load_entries (st_read_set task) OS.new
                  = Ok (OS.set_envelope id (from_legacy_coin_state id cs) OS.new)).
  { rewrite Hrs. cbn [ME.load_entries]. rewrite (load_coin_entry id a cs) by done. cbn [rbind].
    by rewrite load_json_entries. }
  unfold ME.build_object_store_from_read_set. rewrite Hload. cbn [rbind foldl].
  unfold ME.simulate_execution_isolated.
  change (si_events (Tee.stf_input task)) with [st_event task].
  change (si_read_set (Tee.stf_input task)) with (st_read_set task).
  change (si_resolved_inputs (Tee.stf_input task)) with (st_resolved_inputs task).
  unfold ME.sender_of. rewrite (proj1 He). cbn [fmap option_fmap option_map]. rewrite Hres, Hpar, Hin.
  cbn [ME.event_loop]. rewrite (proj2 (Z.ltb_ge _ _)) by done.
  match goal with |- context [ME.isolated_event _ _ _ ?x] => set (s0 := x) end.
  destruct (isolated_transfer (ec_solver_id (me_config enclave)) (others 0%nat) (st_event task) t id a b cs
    (max_gas_units (si_gas_budget (Tee.stf_input task))) params s0 He Hcs) as (st & pw' & fx' & Hrun); [done..|].
  rewrite Hrun. cbv iota beta. eexists _, _. split; [reflexivity|]. cbn. done.
Qed.
End Enclave.
