(* ===== verification/TransferProps.v ===== *)
(** * Theorems about transfers

    What a transfer of one coin does to the state, from its preparation to the
    application of its event; that a nonce is used once; and the transfers that
    the state refuses although they were executed. *)

From Stdlib Require Import ZArith Lia Strings.Byte.
From stdpp Require Import base gmap sets list strings numbers.
From S2P Require Import Prelude Hash Vlc Event Coin StateStore Resource Executor ExecutorSpec SparseMerkle StateManager StateSpec Overlay Reservation Task Stf Enclave StateProvider TaskPreparer TransferFlow ExecutorProps SelectProps PrepareProps EnclaveProps.

#[local] Open Scope list_scope.
#[local] Open Scope Z_scope.
#[local] Open Scope setu_scope.

#[global] Instance verdict_eq_dec : EqDecision verdict.
Proof. solve_decision. Defined.

Section Flow.
Context `{B : Blake3} `{C : Bcs} `{SB : StateBcs} `{X : HexCrate} `{J : SerdeJson} `{S2 : Sha256}.
Context `{V : MoveVm} `{RJ : ResourceJson} `{PB : ProofBcs} `{EL : !EncodingLaws}.
Context {P : Type} `{SP : StateProvider P}.

(** ** What preparation relies on *)

(** A provider shows a state: objects are those of the state, and the coins it
    lists for the address are in the state, owned by the address. *)
Record shows (p : P) (w : world) (from : string) : Prop := mkShows {
  sh_object : ∀ id n, get_object_from_subnet p id n = w_get w n id;
  sh_root : ∀ id, StateProvider.get_object p id = w_get w SUBNET_ROOT id;
  sh_coins : ∀ a n c, address_from_hex from = Ok a → c ∈ get_coins_for_address_in_subnet p from n →
    ∃ cs, c = info_of (ci_object_id c) cs ∧ owned_state a cs ∧
      w_get w n (ci_object_id c) = Some (bcs_coin_state cs)
}.

(** A resource object is stored as the JSON text that its serializer prints. *)
Definition stored_json {A} (w : world) (id : ObjectId) (dec : bytes → option A) (enc : A → json) (o : option A)
    : Prop :=
  match o with
  | None => w_get w SUBNET_ROOT id = None
  | Some a => ∃ b, w_get w SUBNET_ROOT id = Some b ∧ head b = Some Byte.x7b ∧ dec b = Some a ∧
                json_to_vec (enc a) = Some b
  end.

(** The resources of a sender: the Power and Flux of the address, as far as it
    has them, and the parameters. *)
Record resources (p : P) (w : world) (from : string) (pw : option PowerState) (fx : option FluxState) : Prop :=
  mkResources {
  rc_power : stored_json w (power_state_object_id from) power_of_json power_json pw;
  rc_flux : stored_json w (flux_state_object_id from) flux_of_json flux_json fx;
  rc_power_addr : ∀ s, pw = Some s → pw_address s = from;
  rc_flux_addr : ∀ f, fx = Some f → fx_address f = from;
  rc_params : ∀ b, w_get w SUBNET_GOVERNANCE resource_params_object_id = Some b → head b = Some Byte.x7b
}.

Definition params_for (p : P) (from : string) : ResourceParams :=
  ME.extract_resource_params (TP.resource_entries p from).

Definition resource_ids (from : string) : list ObjectId :=
  [power_state_object_id from; flux_state_object_id from; resource_params_object_id].

(** ** Preparation *)

Lemma resource_entries_json p w from pw fx :
  shows p w from → resources p w from pw fx → Forall json_entry (TP.resource_entries p from).
Proof.
  intros Hs [Hp Hf _ _ Hr]. unfold TP.resource_entries, TP.optional_entry.
  rewrite !(sh_root _ _ _ Hs), (sh_object _ _ _ Hs). unfold stored_json in *.
  rewrite !list.Forall_app. split_and!.
  - destruct fx as [f|]; [destruct Hf as (b & -> & ? & _)|by rewrite Hf].
    apply list.Forall_singleton. split; [by eexists|done].
  - destruct pw as [s|]; [destruct Hp as (b & -> & ? & _)|by rewrite Hp].
    apply list.Forall_singleton. split; [by eexists|done].
  - destruct (w_get w SUBNET_GOVERNANCE resource_params_object_id) as [b|] eqn:E; [|done].
    apply list.Forall_singleton. split; [by eexists|]. by apply Hr.
Qed.

Lemma key_eq x y : bool_decide (object_key x = object_key y) = bool_decide (x = y).
Proof. apply bool_decide_ext. split; [apply object_key_inj|by intros ->]. Qed.

Lemma extract_resources p w from pw fx id v proof :
  shows p w from → resources p w from pw fx → NoDup (id :: resource_ids from) →
  ME.extract_power_flux (mkReadSetEntry (object_key id) v proof :: TP.resource_entries p from) from = (pw, fx).
Proof.
  intros Hs [Hp Hf _ _ _] Hnd. unfold resource_ids in Hnd.
  rewrite !list.NoDup_cons, !not_elem_of_cons in Hnd. destruct Hnd as ((? & ? & ? & _) & (? & ? & _) & (? & _) & _).
  unfold TP.resource_entries, TP.optional_entry. rewrite !(sh_root _ _ _ Hs), (sh_object _ _ _ Hs). unfold stored_json in *.
  unfold ME.extract_power_flux. cbn [foldl rs_key]. rewrite !key_eq.
  rewrite (bool_decide_eq_false_2 (id = _)) by done. rewrite (bool_decide_eq_false_2 (id = _)) by done.
  rewrite !foldl_app.
  assert (Hfold : ∀ acc, foldl (fun acc e =>
     if bool_decide (rs_key e = object_key (power_state_object_id from))
     then (match power_of_json (rs_value e) with Some p0 => Some p0 | None => acc.1 end, acc.2)
     else if bool_decide (rs_key e = object_key (flux_state_object_id from))
     then (acc.1, match flux_of_json (rs_value e) with Some f => Some f | None => acc.2 end) else acc) acc
     (match w_get w SUBNET_GOVERNANCE resource_params_object_id with
      | Some b => [RS.new (object_key resource_params_object_id) b] | None => [] end) = acc).
  { intros acc. destruct (w_get w SUBNET_GOVERNANCE resource_params_object_id); [|done].
    cbn [foldl rs_key RS.new]. rewrite !key_eq.
    by rewrite !bool_decide_eq_false_2 by congruence. }
  rewrite Hfold. clear Hfold.
  destruct fx as [f|]; [destruct Hf as (bf & -> & _ & Hdf & _)|rewrite Hf];
    (destruct pw as [s|]; [destruct Hp as (bp & -> & _ & Hdp & _)|rewrite Hp]);
    cbn [foldl rs_key rs_value RS.new]; rewrite ?key_eq, ?Hdf, ?Hdp;
    rewrite ?(bool_decide_eq_true_2 (power_state_object_id from = _)) by done;
    rewrite ?(bool_decide_eq_false_2 (flux_state_object_id from = power_state_object_id from)) by congruence;
    rewrite ?(bool_decide_eq_true_2 (flux_state_object_id from = _)) by done; done.
Qed.

Lemma extract_params p id v proof from :
  id ≠ resource_params_object_id →
  ME.extract_resource_params (mkReadSetEntry (object_key id) v proof :: TP.resource_entries p from)
  = params_for p from.
Proof.
  intros Hne. cbn [ME.extract_resource_params rs_key]. rewrite key_eq.
  by rewrite bool_decide_eq_false_2.
Qed.

(** The task of a coin whose owner can pay. *)
Lemma single_coin_prepared now nanos tp w t sn id a b cs pw fx :
  let p := tp_provider tp in
  shows p w (tr_from t) → resources p w (tr_from t) pw fx → NoDup (id :: resource_ids (tr_from t)) →
  w_get w sn id = Some (bcs_coin_state cs) → owned_state a cs →
  0 < tr_amount t ≤ cs_balance cs → address_from_hex (tr_from t) = Ok a → address_from_hex (tr_to t) = Ok b →
  power_ready (power_cost_per_event (params_for p (tr_from t))) pw →
  flux_ready (flux_reward_on_success (params_for p (tr_from t))) now fx →
  ∃ task, TP.single_coin_task now nanos tp t sn (info_of id cs) = Ok task ∧
    transfer_task task t id a b cs pw fx (params_for p (tr_from t)) ∧ st_subnet_id task = sn ∧
    te_payload (st_event task) = PayloadTransfer t ∧
    TE.ts (st_event task) = now ∧ st_pre_state_root task = get_state_root p.
Proof.
  intros p Hs Hr Hnd Hw Hcs Hamt Ha Hb Hpw Hfx. unfold TP.single_coin_task, TP.read_entry. cbn [info_of ci_object_id].
  rewrite (sh_object _ _ _ Hs), Hw. cbn [rbind]. eexists. split; [reflexivity|]. split; [|done].
  split; try done.
  - eexists _, _. split; [reflexivity|]. by eapply resource_entries_json.
  - by eapply extract_resources.
  - apply extract_params. unfold resource_ids in Hnd. rewrite list.NoDup_cons, !not_elem_of_cons in Hnd. tauto.
Qed.

(** ** The executed event *)

Definition change_of (sn : SubnetId) (w : WriteSetEntry) : StateChange :=
  mkStateChange (ws_key w) (ws_old_value w) (Some (ws_new_value w)) (Some sn).

(** The marker of the nonce of an authorized transfer. *)
Definition marker_of (t : TransferReq) (sn : SubnetId) (ts : Z) : list StateChange :=
  match tr_authorization t with
  | Some auth =>
      [mkStateChange (object_key (Nonce.nonce_object_id (au_signer auth) (au_client_nonce auth))) None
         (Some (json_bytes (Nonce.marker_json
            (Nonce.marker_new (au_signer auth) (au_client_nonce auth) (au_request_digest auth)
               (Subnet.canonical_string sn) (tr_amount t) ts))))
         (Some SUBNET_ROOT)]
  | None => []
  end.

Definition marker_prints (t : TransferReq) (sn : SubnetId) (ts : Z) : Prop :=
  ∀ auth, tr_authorization t = Some auth →
    prints (Nonce.marker_json
      (Nonce.marker_new (au_signer auth) (au_client_nonce auth) (au_request_digest auth)
         (Subnet.canonical_string sn) (tr_amount t) ts)).

Lemma executed_changes dto sn e t :
  te_payload e = PayloadTransfer t → marker_prints t sn (TE.ts e) →
  TX.build_execution_state_changes dto sn e =
  Ok (((fun c => mkStateChange (dto_key c) (dto_old_value c) (dto_new_value c) (Some sn)) <$> dto)
        ++ marker_of t sn (TE.ts e)).
Proof.
  intros He Hm. unfold TX.build_execution_state_changes, marker_of. rewrite He.
  destruct (tr_authorization t) as [auth|] eqn:Hauth; [|by rewrite app_nil_r].
  unfold TX.nonce_marker_change, Nonce.to_json_bytes. destruct (Hm auth Hauth) as [b Hb].
  unfold json_bytes. by rewrite Hb.
Qed.

(** The event made of an output without failures. *)
Lemma executed_event_of_output o ws msg suffix sn e t :
  state_diff o = mkStateDiff ws [] → events_failed o = [] → te_payload e = PayloadTransfer t →
  marker_prints t sn (TE.ts e) →
  ∃ e' res, TX.executed_event (Tee.convert_to_dto (Tee.from_stf_output o)) msg suffix sn e = Ok e' ∧
    execution_result (te_event e') = Some res ∧ er_success res = true ∧
    state_changes res = (change_of sn <$> ws) ++ marker_of t sn (TE.ts e).
Proof.
  intros Hd Hf He Hm. unfold TX.executed_event.
  change (dr_state_changes (Tee.convert_to_dto (Tee.from_stf_output o))) with
    ((fun c => mkChangeDto (sc_key c) (old_value c) (new_value c)) <$> Tee.diff_changes (state_diff o)).
  rewrite (executed_changes _ _ _ t) by done. cbn [rbind]. eexists _, _. split; [reflexivity|].
  split; [reflexivity|]. split; [cbn; by rewrite Hf|]. rewrite Hd. unfold Tee.diff_changes. cbn.
  rewrite app_nil_r, <-!list_fmap_compose. done.
Qed.

(** ** The state after a transfer *)

Definition event_object (e : TaskEvent) : HashValue := GS.parse_state_change_key (event_key (TE.id e)).
Definition new_coin (e : TaskEvent) : ObjectId := coin_id_from_tx (ME.derive_tx_hash (TE.id e)) 0.
Definition nonce_ids (t : TransferReq) : list ObjectId :=
  match tr_authorization t with
  | Some auth => [Nonce.nonce_object_id (au_signer auth) (au_client_nonce auth)]
  | None => []
  end.

(** What a transfer may touch. *)
Definition touched (t : TransferReq) (e : TaskEvent) (id : ObjectId) : list ObjectId :=
  [id; new_coin e; event_object e] ++ resource_ids (tr_from t) ++ nonce_ids t.

(** New objects are new. *)
Record fresh_for (w : world) (sn : SubnetId) (t : TransferReq) (e : TaskEvent) : Prop := mkFreshFor {
  ff_coin : w_get w sn (new_coin e) = None;
  ff_event : w_get w sn (event_object e) = None;
  ff_nonce : ∀ k, k ∈ nonce_ids t → w_get w SUBNET_ROOT k = None
}.

Lemma submseteq_NoDup {A} (l l' : list A) : l ⊆+ l' → NoDup l' → NoDup l.
Proof. intros [k ->]%submseteq_Permutation Hnd. by apply list.NoDup_app in Hnd as [? _]. Qed.

(** The changes of a transfer. *)
Section Changes.
Context (w : world) (sn : SubnetId) (t : TransferReq) (e : TaskEvent) (id : ObjectId) (a b : Address)
  (cs : CoinState) (pw : option PowerState) (fx : option FluxState) (params : ResourceParams).
Context (Hpw : ∀ s, pw = Some s → pw_address s = tr_from t) (Hfx : ∀ f, fx = Some f → fx_address f = tr_from t).

Definition flow_changes : list StateChange :=
  (change_of sn <$> transfer_diff params pw fx e id cs b (tr_amount t) None) ++ marker_of t sn (TE.ts e).

Lemma power_ids : (fun x => GS.parse_state_change_key (ws_key x)) <$> power_writes (power_cost_per_event params) pw
  = match pw with Some _ => [power_state_object_id (tr_from t)] | None => [] end.
Proof. clear Hfx. destruct pw as [s|]; [|done]. cbn. by rewrite parse_object_key, (Hpw s). Qed.

Lemma flux_ids : (fun x => GS.parse_state_change_key (ws_key x)) <$>
    flux_writes (flux_reward_on_success params) (TE.ts e) fx ⊆+ [flux_state_object_id (tr_from t)].
Proof.
  clear Hpw. destruct fx as [f|]; cbn; [|apply submseteq_nil_l]. destruct (0 <? _); [|apply submseteq_nil_l].
  cbn. by rewrite parse_object_key, (Hfx f).
Qed.

Lemma flow_ids : (change_id <$> flow_changes) ⊆+ touched t e id.
Proof.
  unfold flow_changes, transfer_diff. rewrite fmap_app, <-list_fmap_compose.
  change (change_id ∘ change_of sn) with (fun x => GS.parse_state_change_key (ws_key x)).
  rewrite !fmap_app, power_ids.
  assert (Hc : (fun x => GS.parse_state_change_key (ws_key x)) <$>
    coin_writes cs id (coin_id_from_tx (ME.derive_tx_hash (TE.id e)) 0) b (tr_amount t) ⊆+ [id; new_coin e]).
  { unfold coin_writes. destruct (_ =? _); cbn; rewrite ?parse_object_key; [|done]. apply submseteq_skip, submseteq_nil_l. }
  assert (Hn : change_id <$> marker_of t sn (TE.ts e) = nonce_ids t).
  { unfold marker_of, nonce_ids. destruct (tr_authorization t); [|done]. cbn. unfold change_id. cbn. by rewrite parse_object_key. }
  rewrite Hn.
  etrans; [apply submseteq_app; [apply submseteq_app; [reflexivity|]|reflexivity]|].
  { apply submseteq_app; [exact Hc|]. apply submseteq_app; [reflexivity|exact flux_ids]. }
  unfold touched, resource_ids.
  change ((fun x => GS.parse_state_change_key (ws_key x)) <$> [event_write (TE.id e) None]) with [event_object e].
  destruct pw; cbn [app]; solve_submseteq.
Qed.

Lemma flow_targets c : c ∈ flow_changes → target_subnet c = Some sn ∨ target_subnet c = Some SUBNET_ROOT.
Proof.
  unfold flow_changes. intros [(x & -> & _)%list_elem_of_fmap|Hc]%elem_of_app; [by left|right].
  unfold marker_of in Hc. destruct (tr_authorization t); [|set_solver]. by apply list_elem_of_singleton in Hc as ->.
Qed.

(** Updates name what the state holds. *)
Record current : Prop := mkCurrent {
  cu_coin : w_get w sn id = Some (bcs_coin_state cs);
  cu_power : ∀ s, pw = Some s → w_get w sn (power_state_object_id (tr_from t)) = Some (json_bytes (power_json s));
  cu_flux : ∀ f, fx = Some f → w_get w sn (flux_state_object_id (tr_from t)) = Some (json_bytes (flux_json f));
  cu_fresh : fresh_for w sn t e
}.

Lemma flow_allowed n c : current → c ∈ flow_changes → spec_allowed w w (GS.change_target n c) c = true.
Proof.
  intros [Hc Hp Hf [Hn He Hm]]. unfold flow_changes, transfer_diff.
  rewrite !fmap_app, !elem_of_app. intros [[Hin|[Hin|[Hin|Hin]]]|Hin].
  - destruct pw as [s|]; [|cbn in Hin; set_solver]. apply list_elem_of_singleton in Hin as ->.
    unfold spec_allowed, change_id. cbn. rewrite parse_object_key, (Hpw s) by done. by apply bool_decide_eq_true, Hp.
  - unfold coin_writes in Hin. rewrite fmap_cons in Hin. apply elem_of_cons in Hin as [->|Hin].
    + unfold spec_allowed, change_id. cbn. rewrite parse_object_key. by apply bool_decide_eq_true.
    + destruct (_ =? _); [cbn in Hin; set_solver|]. apply list_elem_of_singleton in Hin as ->.
      unfold spec_allowed, change_id. cbn. rewrite parse_object_key. fold (new_coin e). by rewrite Hn.
  - apply list_elem_of_singleton in Hin as ->. unfold spec_allowed, change_id. cbn. fold (event_object e). by rewrite He.
  - destruct fx as [f|]; [|cbn in Hin; set_solver]. unfold flux_writes in Hin. destruct (0 <? _); [|cbn in Hin; set_solver].
    apply list_elem_of_singleton in Hin as ->.
    unfold spec_allowed, change_id. cbn. rewrite parse_object_key, (Hfx f) by done. by apply bool_decide_eq_true, Hf.
  - unfold marker_of, nonce_ids in *. destruct (tr_authorization t) as [auth|]; [|set_solver].
    apply list_elem_of_singleton in Hin as ->. unfold spec_allowed, change_id. cbn. rewrite parse_object_key.
    by rewrite Hm by set_solver.
Qed.

Lemma flow_places n : NoDup (touched t e id) → NoDup (place_of n <$> flow_changes).
Proof.
  intros Hnd. apply (NoDup_fmap_1 snd). rewrite <-list_fmap_compose.
  eapply submseteq_NoDup; [apply flow_ids|done].
Qed.

(** What the transfer leaves in the state. *)
Record transferred (w' : world) : Prop := mkTransferred {
  tf_debit : w_get w' sn id = Some (bcs_coin_state (debited cs b (tr_amount t)));
  tf_credit : tr_amount t ≠ cs_balance cs →
    w_get w' sn (new_coin e) = Some (bcs_coin_state (credited cs b (tr_amount t)));
  tf_power : ∀ s, pw = Some s →
    w_get w' sn (power_state_object_id (tr_from t))
    = Some (json_bytes (power_json (spent (power_cost_per_event params) s)));
  tf_flux : ∀ f, fx = Some f → 0 < flux_reward_on_success params →
    w_get w' sn (flux_state_object_id (tr_from t))
    = Some (json_bytes (flux_json (rewarded (flux_reward_on_success params) (TE.ts e) f)));
  tf_nonce : ∀ k, k ∈ nonce_ids t → is_Some (w_get w' SUBNET_ROOT k);
  tf_mark : w_get w' sn (event_object e) = Some (as_bytes ("processed:" +:+ TE.id e));
  tf_frame : ∀ n k, k ∉ touched t e id ∨ n ≠ sn ∧ n ≠ SUBNET_ROOT → w_get w' n k = w_get w n k
}.

Lemma flow_transferred n : NoDup (touched t e id) → transferred (foldl (spec_change n) w flow_changes).
Proof.
  intros Hnd. pose proof (flow_places n Hnd) as Hpl.
  assert (Hget : ∀ k o v, mkWriteSetEntry (object_key k) o v ∈ transfer_diff params pw fx e id cs b (tr_amount t) None →
    w_get (foldl (spec_change n) w flow_changes) sn k = Some v).
  { intros k o v Hx.
    pose proof (changes_get n w flow_changes (change_of sn (mkWriteSetEntry (object_key k) o v)) Hpl) as Hg.
    unfold change_id in Hg. cbn in Hg. rewrite parse_object_key in Hg. apply Hg.
    unfold flow_changes. apply elem_of_app. left. by apply list_elem_of_fmap_2. }
  unfold transfer_diff in Hget. split.
  - eapply Hget. rewrite !elem_of_app. right; left. apply list_elem_of_here.
  - intros Hne. eapply Hget. rewrite !elem_of_app. right; left. unfold coin_writes.
    rewrite (proj2 (Z.eqb_neq _ _)) by done. apply list_elem_of_further, list_elem_of_here.
  - intros s Hs. rewrite <-(Hpw s Hs). eapply Hget. rewrite !elem_of_app. left.
    unfold power_writes. rewrite Hs. apply list_elem_of_here.
  - intros f Hf Hpos. rewrite <-(Hfx f Hf). eapply Hget. rewrite !elem_of_app. right; right; right.
    unfold flux_writes. rewrite Hf, (proj2 (Z.ltb_lt _ _)) by done. apply list_elem_of_here.
  - intros k Hk. unfold nonce_ids in Hk.
    assert (∃ c, c ∈ marker_of t sn (TE.ts e) ∧ is_Some (new_value c) ∧ place_of n c = (SUBNET_ROOT, k)) as (c & Hc & [v Hv] & Hplc).
    { unfold marker_of. destruct (tr_authorization t) as [auth|]; [|set_solver]. eexists. split; [by apply list_elem_of_here|].
      split; [by eexists|]. unfold place_of, change_id. cbn. rewrite parse_object_key. f_equal. set_solver. }
    injection Hplc as H1 H2. exists v. rewrite <-H1, <-H2, <-Hv. apply changes_get; [done|].
    unfold flow_changes. apply elem_of_app. by right.
  - pose proof (changes_get n w flow_changes (change_of sn (event_write (TE.id e) None)) Hpl) as Hg. apply Hg.
    unfold flow_changes, transfer_diff. rewrite !fmap_app, !elem_of_app. left. right; right; left. apply list_elem_of_here.
  - intros m k Hk. apply changes_frame. intros (c & Hplc & Hc)%list_elem_of_fmap. injection Hplc as -> ->.
    destruct Hk as [Hk|[Hk1 Hk2]].
    + apply Hk. eapply elem_of_submseteq; [|apply flow_ids]. apply list_elem_of_fmap. by exists c.
    + apply flow_targets in Hc. unfold GS.change_target in *. destruct Hc as [Hc|Hc]; rewrite Hc in *; done.
Qed.

Lemma flow_applied ev res :
  current → NoDup (touched t e id) → execution_result ev = Some res → er_success res = true →
  state_changes res = flow_changes →
  ∃ w', spec_event w ev = (w', Applied) ∧ transferred w'.
Proof.
  intros Hcur Hnd Hres Hok Hch. unfold spec_event. rewrite Hres, Hok, Hch.
  rewrite (distinct_accepted _ w w flow_changes).
  - eexists. split; [reflexivity|]. by apply flow_transferred.
  - by apply flow_places.
  - done.
  - intros c Hc. by apply flow_allowed.
Qed.
End Changes.

(** ** The stages together *)

Definition planned_event (now nanos : Z) (tp : TaskPreparer P) (t : TransferReq) (sn : SubnetId) (c : CoinInfo)
    : TaskEvent :=
  TP.create_event_from_transfer now nanos (tp_validator_id tp) t
    (TP.derive_dependencies (tp_provider tp) [ci_object_id c]) sn.

(** A transfer that can be made: a coin covers it, the addresses parse, the
    sender can pay for the event, what is written can be printed and what is new
    is new.  Power and Flux are in the root subnet. *)
Record transferable (tp : TaskPreparer P) (w : world) (now nanos : Z) (t : TransferReq) (sn : SubnetId)
    (c : CoinInfo) (a b : Address) (pw : option PowerState) (fx : option FluxState) : Prop := mkTransferable {
  ta_shows : shows (tp_provider tp) w (tr_from t);
  ta_resources : resources (tp_provider tp) w (tr_from t) pw fx;
  ta_selected : Select.select_coins_for_transfer
      (get_coins_for_address_in_subnet (tp_provider tp) (tr_from t) sn) (tr_amount t) = Ok (SingleCoin c);
  ta_amount : is_u64 (tr_amount t);
  ta_from : address_from_hex (tr_from t) = Ok a;
  ta_to : address_from_hex (tr_to t) = Ok b;
  ta_subnet : sn = SUBNET_ROOT ∨ pw = None ∧ fx = None;
  ta_power : power_ready (power_cost_per_event (params_for (tp_provider tp) (tr_from t))) pw;
  ta_flux : flux_ready (flux_reward_on_success (params_for (tp_provider tp) (tr_from t))) now fx;
  ta_marker : marker_prints t sn now;
  ta_distinct : NoDup (touched t (planned_event now nanos tp t sn c) (ci_object_id c));
  ta_fresh : fresh_for w sn t (planned_event now nanos tp t sn c)
}.

Lemma selected_single coins amount c :
  is_u64 amount → Select.select_coins_for_transfer coins amount = Ok (SingleCoin c) →
  c ∈ coins ∧ 0 < amount ≤ ci_balance c.
Proof.
  intros [Hpos _]. unfold Select.select_coins_for_transfer. destruct (Z.eqb_spec amount 0); [done|].
  destruct (bool_decide _); [done|]. destruct (Select.eligible coins amount) as [|c' rest] eqn:E.
  - destruct (Select.greedy _ _ _ _) as [[|? ?] acc]; by destruct (_ <? _).
  - intros [= <-]. destruct (eligible_head _ _ _ _ E) as (? & ? & _). split; [done|lia].
Qed.

Lemma stored_current {A} w id (dec : bytes → option A) enc o x :
  stored_json w id dec enc o → o = Some x → w_get w SUBNET_ROOT id = Some (json_bytes (enc x)).
Proof. intros Hst ->. destruct Hst as (b & -> & _ & _ & Hb). unfold json_bytes. by rewrite Hb. Qed.

Lemma transferable_current tp w now nanos t sn c a b pw fx cs :
  transferable tp w now nanos t sn c a b pw fx → w_get w sn (ci_object_id c) = Some (bcs_coin_state cs) →
  current w sn t (planned_event now nanos tp t sn c) (ci_object_id c) cs pw fx.
Proof.
  intros H Hcs. destruct (ta_resources _ _ _ _ _ _ _ _ _ _ _ H) as [Hp Hf _ _ _].
  destruct (ta_subnet _ _ _ _ _ _ _ _ _ _ _ H) as [->|[-> ->]]; split; try done; try apply H; intros s Hs.
  - by apply (stored_current w _ power_of_json power_json pw).
  - by apply (stored_current w _ flux_of_json flux_json fx).
Qed.


(** ** Nonces *)

(** The event writes at the place. *)
Definition writes_at (pl : SubnetId * HashValue) (ev : Event) : Prop :=
  pl ∈ (place_of (get_subnet_id ev) <$> event_changes ev).

#[global] Instance writes_at_dec pl ev : Decision (writes_at pl ev).
Proof. unfold writes_at. apply _. Defined.

Definition applied_at (pl : SubnetId * HashValue) (vs : list (Event * verdict)) : list (Event * verdict) :=
  filter (fun v => v.2 = Applied ∧ writes_at pl v.1) vs.

(** The event only creates at the place. *)
Definition only_creates (pl : SubnetId * HashValue) (ev : Event) : Prop :=
  ∀ c, c ∈ event_changes ev → place_of (get_subnet_id ev) c = pl → old_value c = None ∧ is_Some (new_value c).

Lemma changes_keep n w cs m k :
  (∀ c, c ∈ cs → place_of n c = (m, k) → is_Some (new_value c)) →
  is_Some (w_get w m k) ∨ (m, k) ∈ (place_of n <$> cs) → is_Some (w_get (foldl (spec_change n) w cs) m k).
Proof.
  revert w. induction cs as [|c cs IH]; intros w Hc Hor; cbn [foldl].
  { destruct Hor; [done|set_solver]. }
  apply IH; [set_solver|]. unfold spec_change. rewrite w_get_write.
  destruct (decide ((GS.change_target n c, change_id c) = (m, k))) as [E|E].
  - left. apply (Hc c); [set_solver|exact E].
  - destruct Hor as [?|Hin]; [by left|]. rewrite fmap_cons, elem_of_cons in Hin. destruct Hin as [Hpl|?]; [by destruct E|by right].
Qed.

Lemma spec_event_marker w ev m k :
  only_creates (m, k) ev →
  match (spec_event w ev).2 with
  | Applied => (writes_at (m, k) ev → w_get w m k = None ∧ is_Some (w_get (spec_event w ev).1 m k)) ∧
               (is_Some (w_get w m k) → is_Some (w_get (spec_event w ev).1 m k))
  | _ => (spec_event w ev).1 = w
  end.
Proof.
  intros Hc. unfold spec_event. unfold only_creates, writes_at, event_changes in *.
  destruct (execution_result ev) as [res|]; [|done]. destruct (er_success res); [|done].
  destruct (spec_conflict _ w w (state_changes res)) as [key|] eqn:Hcf; [done|]. cbn [fst snd].
  assert (Hn : ∀ c, c ∈ state_changes res → place_of (get_subnet_id ev) c = (m, k) → is_Some (new_value c)).
  { intros c Hin Hpl. by apply (Hc c). }
  split; [|intros Hw; apply changes_keep; [done|by left]].
  intros Hin. split; [|apply changes_keep; [done|by right]].
  apply list_elem_of_fmap in Hin as (c & Hpl & Hin). destruct (Hc c Hin (eq_sym Hpl)) as [Ho Hv].
  destruct (w_get w m k) eqn:E; [|done]. injection Hpl as -> ->.
  destruct (create_conflicts (get_subnet_id ev) w w _ c Hin Ho Hv) as [? ?]; [by rewrite E|congruence].
Qed.

Lemma marker_once es w m k :
  Forall (only_creates (m, k)) es →
  (length (applied_at (m, k) (spec_events w es).2) ≤ 1)%nat ∧
  (is_Some (w_get w m k) → applied_at (m, k) (spec_events w es).2 = []).
Proof.
  intros Hes. revert w. induction Hes as [|ev es Hev _ IH]; intros w; [by split; [cbn; lia|]|].
  cbn [spec_events]. pose proof (spec_event_marker w ev m k Hev) as Hm.
  destruct (spec_event w ev) as [w1 v]. cbn [fst snd] in Hm. specialize (IH w1).
  destruct (spec_events w1 es) as [w2 vs]. cbn [snd] in *. unfold applied_at in *. rewrite filter_cons. cbn [fst snd].
  destruct v; try (rewrite decide_False by (by intros [? _]); subst w1; exact IH).
  destruct Hm as [Hm1 Hm2]. case_decide as Hd.
  - destruct (Hm1 (proj2 Hd)) as [Hnone Hsome]. rewrite (proj2 IH Hsome). split; [cbn; lia|]. rewrite Hnone. by intros [? ?].
  - split; [apply IH|]. intros Hw. by apply IH, Hm2.
Qed.

(** The lengths of both strings are part of the preimage. *)
Lemma nonce_preimage_inj from n from' n' :
  Z.of_nat (String.length from) < 2 ^ 16 → Z.of_nat (String.length n) < 2 ^ 16 →
  Z.of_nat (String.length from') < 2 ^ 16 → Z.of_nat (String.length n') < 2 ^ 16 →
  Nonce.nonce_preimage from n = Nonce.nonce_preimage from' n' → from = from' ∧ n = n'.
Proof.
  intros Hf Hn Hf' Hn' E. unfold Nonce.nonce_preimage in E.
  assert (Hle : ∀ x y, Z.of_nat x < 2 ^ 16 → Z.of_nat y < 2 ^ 16 →
    to_le_bytes 2 (Z.of_nat x) = to_le_bytes 2 (Z.of_nat y) → x = y).
  { intros x y Hx Hy Exy. apply (f_equal of_le_bytes) in Exy. rewrite !of_to_le_bytes in Exy by (cbn; lia). lia. }
  apply app_inv_head in E. apply app_inj_1 in E as [E1 E]; [|done]. apply Hle in E1; [|done..].
  assert (Hlen : ∀ s, length (as_bytes s) = String.length s).
  { intros s. unfold as_bytes, String.list_byte_of_string. rewrite length_map. induction s as [|x s IH]; cbn; [done|by rewrite IH]. }
  apply app_inj_1 in E as [E2 E]; [|by rewrite !Hlen]. apply app_inj_1 in E as [_ E]; [|done].
  split; by apply as_bytes_inj.
Qed.

(** The event of an authorized transfer creates the marker of its nonce. *)
Lemma executed_writes_marker dto msg suffix sn e e' t auth :
  TX.executed_event dto msg suffix sn e = Ok e' → te_payload e = PayloadTransfer t → tr_authorization t = Some auth →
  writes_at (SUBNET_ROOT, Nonce.nonce_object_id (au_signer auth) (au_client_nonce auth)) (te_event e').
Proof.
  unfold TX.executed_event, TX.build_execution_state_changes. intros He Hp Hau. rewrite Hp, Hau in He.
  unfold TX.nonce_marker_change in He. destruct (Nonce.to_json_bytes _); cbn [rbind] in He; [|done..].
  injection He as <-. unfold writes_at, event_changes. cbn. rewrite fmap_app. apply elem_of_app. right.
  apply list_elem_of_singleton. unfold place_of, change_id. cbn. by rewrite parse_object_key.
Qed.


(** ** What the state does not see

    The Power and Flux of a sender are read from the default subnet, and every
    change of the solver is routed to the subnet of the task: outside the root
    subnet the update names an object that is not there, and the transfer, which
    the enclave executed, is refused by the state. *)
Lemma app_subnet_power_conflict w sn t e id b cs s fx params ev res :
  pw_address s = tr_from t → (∀ f, fx = Some f → fx_address f = tr_from t) →
  NoDup (touched t e id) → w_get w sn (power_state_object_id (tr_from t)) = None →
  execution_result ev = Some res → er_success res = true →
  state_changes res = flow_changes sn t e id b cs (Some s) fx params →
  ∃ key, spec_event w ev = (w, Conflicted key).
Proof.
  intros Hs Hfx Hnd Hw Hres Hok Hch. unfold spec_event. rewrite Hres, Hok, Hch.
  assert (Hpw : ∀ s', Some s = Some s' → pw_address s' = tr_from t) by (intros s' [= <-]; done).
  set (x := mkWriteSetEntry (object_key (power_state_object_id (pw_address s))) (Some (json_bytes (power_json s)))
              (json_bytes (power_json (spent (power_cost_per_event params) s)))).
  destruct (refused_conflicts (get_subnet_id ev) w w (flow_changes sn t e id b cs (Some s) fx params) (change_of sn x))
    as [key ->]; [| |done| |by exists key].
  - by apply flow_places.
  - unfold flow_changes, transfer_diff. apply elem_of_app. left. rewrite fmap_app. apply elem_of_app. left.
    apply list_elem_of_here.
  - unfold spec_allowed, change_id. cbn. rewrite parse_object_key, Hs, Hw. done.
Qed.

(** An event that an enclave executes a second time names the mark of its first
    execution as the old value; where the first was not applied, the mark is not
    in the state and the change is refused. *)
Lemma repeated_mark_refused w sn n eid old :
  w_get w sn (GS.parse_state_change_key (event_key eid)) = None →
  let c := change_of sn (event_write eid (Some old)) in
  spec_allowed w w (GS.change_target n c) c = false.
Proof. intros Hw. unfold spec_allowed, change_id. cbn. by rewrite Hw. Qed.

(** The task that merges coins before it pays carries the payload of the merge,
    not the transfer: its event creates no marker, whatever authorization the
    transfer had. *)
Lemma merge_creates_no_marker now nanos tp t sn target sources task dto :
  Select.select_coins_for_transfer (get_coins_for_address_in_subnet (tp_provider tp) (tr_from t) sn) (tr_amount t)
    = Ok (NeedMerge target sources) →
  TP.prepare_transfer_task now nanos tp t sn = Ok task →
  TX.build_execution_state_changes dto (st_subnet_id task) (st_event task)
  = Ok ((fun c => mkStateChange (dto_key c) (dto_old_value c) (dto_new_value c) (Some sn)) <$> dto).
Proof.
  intros Hsel. unfold TP.prepare_transfer_task. rewrite Hsel. cbn [rbind]. unfold TP.prepare_merge_then_transfer_task.
  destruct (bool_decide _); [done|]. destruct (_ <? _); [done|]. unfold TP.coin_task.
  destruct (TP.build_read_set _ _ _); cbn [rbind]; [|done..]. by intros [= <-].
Qed.

(** A deleted object becomes a write of no bytes, and stays in the state. *)
Lemma deletion_leaves_empty_object kind id old d n w :
  let d' := SD.add_state_changes [mkRtStateChange kind id (Some old) None] d in
  ∃ x, writes d' = writes d ++ [x] ∧ sd_deletes d' = sd_deletes d ∧
    w_get (spec_change n w (change_of n x)) n id = Some [].
Proof.
  eexists. split; [reflexivity|]. split; [reflexivity|]. unfold spec_change. rewrite w_get_write.
  rewrite decide_True; [done|]. unfold change_id. cbn. by rewrite parse_object_key.
Qed.

(** The event of an execution with a failed event changes nothing: the Power
    charged before the failure and the Flux penalty after it are not applied. *)
Lemma failed_event_changes_nothing dto msg suffix sn e e' w :
  dr_events_failed dto ≠ 0%nat → TX.executed_event dto msg suffix sn e = Ok e' →
  spec_event w (te_event e') = (w, ExecutionFailed).
Proof.
  unfold TX.executed_event. intros Hf He. destruct (TX.build_execution_state_changes _ _ _); cbn [rbind] in He; [|done..].
  injection He as <-. unfold spec_event. cbn. by rewrite (proj2 (Nat.eqb_neq _ _)).
Qed.
End Flow.

(** ** The provider of the validator shows the published state *)

Section Provider.
Context `{B : Blake3} `{C : Bcs} `{SB : StateBcs} `{X : HexCrate} {St : Type}.

(** The objects of a manager. *)
Definition objects_of (g : GlobalStateManager St) : world :=
  (fun smt => leaves (ss_tree smt)) <$> subnet_states g.

Lemma objects_of_get g n k : w_get (objects_of g) n k = GS.get_subnet g n ≫= fun smt => SS.get smt k.
Proof.
  unfold w_get, w_objects, objects_of, GS.get_subnet. rewrite lookup_fmap.
  destruct (subnet_states g !! n); [done|]. cbn. apply lookup_empty.
Qed.

(** What the index of a manager promises for an address: an indexed coin is in
    the subnet of its own type, and without indexed objects the address owns its
    fallback coin. *)
Record index_sound (g : GlobalStateManager St) (addr : string) : Prop := mkIndexSound {
  is_type : ∀ o cs, o ∈ GS.get_coin_objects_for_address g addr →
    MSP.coin_at g (resolve_subnet_id o.2) o.1 = Some cs →
    resolve_subnet_id (cs_coin_type cs) = resolve_subnet_id o.2;
  is_fallback : ∀ cs, GS.get_coin_objects_for_address g addr = [] →
    MSP.coin_at g SUBNET_ROOT (MSP.coin_object_id addr) = Some cs →
    cs_owner cs = addr ∧ resolve_subnet_id (cs_coin_type cs) = SUBNET_ROOT
}.

(** BCS is canonical: a value has one encoding. *)
Definition bcs_canonical : Prop := ∀ bs cs, bcs_coin_state_de bs = Some cs →
  bs = bcs_coin_state cs ∧ is_u64 (cs_balance cs) ∧ is_u64 (cs_version cs).

Lemma coin_at_spec g n id cs :
  bcs_canonical → MSP.coin_at g n id = Some cs →
  w_get (objects_of g) n id = Some (bcs_coin_state cs) ∧ is_u64 (cs_balance cs) ∧ is_u64 (cs_version cs).
Proof.
  intros Hbcs. unfold MSP.coin_at. rewrite objects_of_get. destruct (GS.get_subnet g n) as [smt|]; [|done]. cbn.
  destruct (SS.get smt id) as [bs|]; [|done]. cbn. intros Hd. destruct (Hbcs _ _ Hd) as (-> & ? & ?). done.
Qed.

Lemma provider_shows (p : MerkleStateProvider St) from :
  bcs_canonical → Overlay.index (sh_overlay (mp_shared p)) = ∅ → mp_default_subnet p = SUBNET_ROOT →
  index_sound (MSP.snapshot p) (MSP.resolve_owner_address from) → shows p (objects_of (MSP.snapshot p)) from.
Proof.
  intros Hbcs Hov Hdef [Hty Hfb].
  assert (Hobj : ∀ id n, MSP.subnet_object p id n = w_get (objects_of (MSP.snapshot p)) n id).
  { intros id n. rewrite objects_of_get. unfold MSP.subnet_object, Shared.get_subnet_object, Shared.view_lookup, Overlay.get.
    cbn. rewrite Hov, lookup_empty. done. }
  split; [exact Hobj|intros id; cbn; rewrite Hdef; apply Hobj|].
  intros a n c Ha. unfold get_coins_for_address_in_subnet. intros [Hn Hc]%list_elem_of_filter. cbn in Hc.
  unfold MSP.coins_for_address, MSP.resolve_owner_address, address_normalize in *. rewrite Ha in *.
  set (g := MSP.snapshot p) in *.
  assert (Hgoal : ∀ m id cs, MSP.coin_at g m id = Some cs → cs_owner cs = show_id a → resolve_subnet_id (cs_coin_type cs) = m →
    c = info_of id cs → ∃ cs, c = info_of (ci_object_id c) cs ∧ owned_state a cs ∧
      w_get (objects_of g) n (ci_object_id c) = Some (bcs_coin_state cs)).
  { intros m id cs Hat Ho Hm ->. cbn in Hn. rewrite Hn in Hm. subst m. exists cs.
    destruct (coin_at_spec g n id cs Hbcs Hat) as (? & ? & ?). done. }
  destruct (GS.get_coin_objects_for_address g (show_id a)) as [|o objs] eqn:Hidx.
  - destruct (MSP.coin_at g SUBNET_ROOT _) as [cs|] eqn:Hat; [|set_solver]. apply list_elem_of_singleton in Hc.
    destruct (Hfb cs eq_refl eq_refl). by eapply Hgoal.
  - apply list_elem_of_omap in Hc as (o' & Hin & Hc). destruct (MSP.coin_at g _ o'.1) as [cs|] eqn:Hat; [|done].
    case_bool_decide as Ho; [|done]. injection Hc as <-. eapply (Hgoal _ _ _ Hat Ho); [|done].
    apply (Hty o' cs); [done|done].
Qed.
End Provider.

(** ** A concrete validator and solver for the witness *)

Module Wit.

(** A coin state: the length of the owner, the owner, balance, version, type;
    only what this writes is read. *)
Definition ser (cs : CoinState) : bytes :=
  byte_of_Z (Z.of_nat (String.length (cs_owner cs))) :: as_bytes (cs_owner cs) ++ to_le_bytes 8 (cs_balance cs)
    ++ to_le_bytes 8 (cs_version cs) ++ as_bytes (cs_coin_type cs).

Definition parse (b : bytes) : CoinState :=
  let n := match b with x :: _ => N.to_nat (Byte.to_N x) | [] => 0%nat end in
  let r := drop n (tail b) in
  mkCoinState (String.string_of_list_byte (take n (tail b))) (of_le_bytes (take 8 r)) (of_le_bytes (take 8 (drop 8 r)))
    (String.string_of_list_byte (drop 16 r)).

Definition in_range (cs : CoinState) : bool := (0 <=? cs_balance cs) && (cs_balance cs <=? u64_max)
  && (0 <=? cs_version cs) && (cs_version cs <=? u64_max).

Definition de (b : bytes) : option CoinState :=
  if bool_decide (ser (parse b) = b) && in_range (parse b) then Some (parse b) else None.

#[global] Instance bcs_wit : Bcs := {|
  bcs_coin_state := ser;
  bcs_coin_data := bcs_toy_data;
  bcs_coin_data_de := bcs_toy_data_de;
  bcs_coin_data_de_ser := bcs_toy_roundtrip
|}.
#[global] Instance state_bcs_wit : StateBcs := {| bcs_envelope_de _ := None; bcs_coin_state_de := de |}.
#[local] Existing Instance hex_lower.

Lemma as_bytes_length s : length (as_bytes s) = String.length s.
Proof. unfold as_bytes, String.list_byte_of_string. rewrite length_map. induction s as [|x s IH]; cbn; [done|by rewrite IH]. Qed.

Lemma parse_ser cs :
  is_u64 (cs_balance cs) → is_u64 (cs_version cs) → (String.length (cs_owner cs) < 128)%nat → parse (ser cs) = cs.
Proof.
  intros Hb Hv Hl. unfold is_u64, u64_max in *. unfold parse, ser. cbn [tail].
  assert (E : N.to_nat (Byte.to_N (byte_of_Z (Z.of_nat (String.length (cs_owner cs))))) = String.length (cs_owner cs)).
  { pose proof (byte_of_Z_spec (Z.of_nat (String.length (cs_owner cs)))) as Hs. rewrite Z.mod_small in Hs by lia. lia. }
  rewrite E. rewrite drop_app_length', take_app_length' by by rewrite as_bytes_length.
  rewrite take_app_length' by by rewrite to_le_bytes_length.
  rewrite (drop_app_length' (to_le_bytes 8 (cs_balance cs))) by by rewrite to_le_bytes_length.
  rewrite take_app_length' by by rewrite to_le_bytes_length.
  rewrite app_assoc, drop_app_length' by by rewrite length_app, !to_le_bytes_length.
  rewrite !of_to_le_bytes by (cbn; lia). unfold as_bytes. rewrite !String.string_of_list_byte_of_string.
  by destruct cs.
Qed.

#[global] Instance encoding_wit : EncodingLaws.
Proof.
  split.
  - intros [|x b]; [done|]. by destruct x.
  - intros b. cbn. induction b as [|x b IH]; [done|]. cbn. rewrite IH. lia.
  - intros cs Hb Hv Hl. cbn. unfold de. rewrite parse_ser by done. rewrite bool_decide_eq_true_2 by done.
    unfold in_range, is_u64 in *. cbn. repeat (rewrite (proj2 (Z.leb_le _ _)) by lia). done.
  - done.
Qed.

Lemma canonical_wit : bcs_canonical.
Proof.
  intros bs cs. cbn. unfold de. case_bool_decide as E; [|done]. cbn [andb]. unfold in_range.
  destruct (_ && _) eqn:R; [|done]. intros [= <-]. rewrite !andb_true_iff, !Z.leb_le in R. unfold is_u64. split; [done|lia].
Qed.

(** JSON: a brace and the numbers. *)
Definition numbers (j : json) : bytes :=
  match j with
  | JObj l => concat ((fun kv => match kv.2 with JNum z => to_le_bytes 8 z | _ => [] end) <$> l)
  | _ => []
  end.

#[global] Instance json_wit : SerdeJson := {|
  json_to_vec j := Some (Byte.x7b :: numbers j);
  json_to_id _ := None;
  json_of_object _ := JNull
|}.

Definition alice : Address := wid 10.
Definition bob : Address := wid 11.
Definition alice_str : string := show_id alice.

#[global] Instance resource_wit : ResourceJson := {|
  power_of_json b := Some (mkPowerState alice_str (of_le_bytes (take 8 (drop 1 b))) (of_le_bytes (take 8 (drop 9 b))));
  flux_of_json _ := None;
  params_of_json _ := None
|}.
#[global] Instance vm_wit : MoveVm := {|
  vm_feature := true;
  vm_enabled := false;
  vm_struct_tag s := Ok s;
  vm_target _ := Ok [];
  vm_envelope_bytes _ := [];
  vm_linkage_bytes _ _ := [];
  vm_hex_literal := show_id;
  vm_execute _ _ _ _ _ _ _ := Ok (mkMoveOutput true [] [] None);
  vm_execute_ptb _ _ _ _ _ := Ok (mkMoveOutput true [] [] None)
|}.
#[local] Existing Instance toy_blake3.
#[global] Instance sha_wit : Sha256 := toy_blake3.
#[global] Instance proof_wit : ProofBcs := fun _ => Some [].

(** Alice has a coin of 100 and 20 units of Power. *)
Definition power : PowerState := mkPowerState alice_str 20 1.
Definition gsm : GlobalStateManager unit :=
  let '(g, _) := MSP.init_coin GS.new alice_str 100 in
  (GS.upsert_object g SUBNET_ROOT (power_state_object_id alice_str) (json_bytes (power_json power))).1.

Definition provider : MerkleStateProvider unit := MSP.new (Shared.new gsm).
Definition preparer : TaskPreparer (MerkleStateProvider unit) := mkPreparer "v1" provider.

(** She sends 30 of it to Bob, under a signed request. *)
Definition request : TransferReq :=
  Tr.with_authorization (Tr.authorization_new alice_str "nonce-0001" (wid 77))
    (Tr.new "t1" alice_str (show_id bob) 30).

Definition coin : CoinInfo :=
  info_of (MSP.coin_object_id alice_str) (mkCoinState alice_str 100 1 "ROOT").

(** An answer of a solver that changes nothing. *)
Definition no_changes : TeeExecutionResultDto :=
  mkTeeResultDto zero_hash "ROOT" zero_hash [] 1 0 0 (mkAttestationDto "e1" 0 zero_hash zero_hash zero_hash zero_hash []) 0.

Definition enclave : MockEnclave := ME.new (mkEnclaveConfig "e1" "s1" 1000 1000 false).
Definition state : world := objects_of (MSP.snapshot provider).

Lemma state_shown : shows provider state alice_str.
Proof.
  apply provider_shows.
  - apply canonical_wit.
  - reflexivity.
  - reflexivity.
  - assert (Hidx : GS.get_coin_objects_for_address (MSP.snapshot provider) (MSP.resolve_owner_address alice_str)
                   = [(MSP.coin_object_id alice_str, "ROOT"%string)]).
    { apply (bool_decide_unpack _). vm_compute. exact I. }
    split.
    + intros o cs. rewrite Hidx. intros ->%list_elem_of_singleton. cbn [fst snd]. intros Hat.
      assert (MSP.coin_at (MSP.snapshot provider) (resolve_subnet_id "ROOT") (MSP.coin_object_id alice_str)
              = Some (mkCoinState alice_str 100 1 "ROOT")) as E.
      { apply (bool_decide_unpack _). vm_compute. exact I. }
      rewrite E in Hat. by injection Hat as <-.
    + rewrite Hidx. intros cs Hnil. discriminate Hnil.
Qed.

Lemma is_single (r : result TaskPrepareError CoinSelectionResult) c :
  match r with Ok (SingleCoin c') => bool_decide (c' = c) | _ => false end = true → r = Ok (SingleCoin c).
Proof. destruct r as [[]| |]; try discriminate. intros E%bool_decide_eq_true. by rewrite E. Qed.

(** Every hypothesis of the theorem holds of the request. *)
Lemma request_transferable :
  transferable preparer state 1000 5000000 request SUBNET_ROOT coin alice bob (Some power) None.
Proof.
  split.
  - apply state_shown.
  - split.
    + exists (json_bytes (power_json power)). split; [|split; [|split]].
      * apply (bool_decide_unpack _). vm_compute. exact I.
      * reflexivity.
      * vm_compute. reflexivity.
      * reflexivity.
    + apply (bool_decide_unpack _). vm_compute. exact I.
    + intros s Hs. injection Hs as <-. reflexivity.
    + intros f Hf. discriminate Hf.
    + intros b Hb. assert (w_get state SUBNET_GOVERNANCE resource_params_object_id = None) as E; [|rewrite E in Hb; discriminate Hb].
      apply (bool_decide_unpack _). vm_compute. exact I.
  - apply is_single. vm_compute. reflexivity.
  - unfold is_u64. cbn. unfold u64_max. lia.
  - apply address_from_hex_show.
  - apply address_from_hex_show.
  - left. reflexivity.
  - intros s Hs. injection Hs as <-. split; [|split; eexists; reflexivity]. apply (bool_decide_unpack _). vm_compute. exact I.
  - intros f Hf. discriminate Hf.
  - intros auth _. eexists. reflexivity.
  - apply (bool_decide_unpack _). vm_compute. exact I.
  - split.
    + apply (bool_decide_unpack _). vm_compute. exact I.
    + apply (bool_decide_unpack _). vm_compute. exact I.
    + intros k ->%list_elem_of_singleton. apply (bool_decide_unpack _). vm_compute. exact I.
Qed.
End Wit.

#[local] Existing Instance toy_blake3.
#[local] Existing Instance hex_lower.


(** The same request, prepared with reservation. *)
Lemma task_coins_reserved_witness :
  let turns i := CR.mkTurn (fun m => m) (Z.of_nat i + 100) 1 in
  match TP.prepare_transfer_task_with_reservation 1000 5000000 turns Wit.preparer Wit.request SUBNET_ROOT (CR.new 10) with
  | (m', Ok (task, hs)) =>
      (rh_coin_id <$> hs) = (ro_object_id <$> ri_input_objects (st_resolved_inputs task)) ∧
      hs ≠ [] ∧ NoDup (rh_coin_id <$> hs) ∧ Forall (recorded m' "t1") hs
  | _ => False
  end.
Proof.
  intros turns.
  assert (Hok : match (TP.prepare_transfer_task_with_reservation 1000 5000000 turns Wit.preparer Wit.request
    SUBNET_ROOT (CR.new 10)).2 with Ok _ => true | _ => false end = true) by (vm_compute; reflexivity).
  pose proof (task_coins_reserved (P := MerkleStateProvider unit) turns) as Ht. specialize (Ht ltac:(intros i m; split; [reflexivity|intros c r Hc _; exact Hc])).
  specialize (Ht ltac:(intros i; unfold turns, uuid_nil; cbn; lia) 1000 5000000 Wit.preparer Wit.request SUBNET_ROOT (CR.new 10)).
  destruct (TP.prepare_transfer_task_with_reservation _ _ _ _ _ _ _) as [m' [[task hs]|e|]]; [|discriminate Hok..].
  apply Ht.
  - intros i m c r Hc _. exact Hc.
  - reflexivity.
  - intros c r Hc. change (reservations (CR.new 10)) with (∅ : gmap ObjectId Reservation) in Hc.
    rewrite lookup_empty in Hc. discriminate Hc.
  - unfold is_u64, u64_max. cbn. lia.
  - unfold balances_u64, is_u64. apply (bool_decide_unpack _). vm_compute. exact I.
  - apply (bool_decide_unpack _). vm_compute. exact I.
Defined.

(** An enclave that has executed the request before gives the same answer as a
    new one, up to the old value of the mark of the event. *)
Lemma execution_isolated_witness :
  let input := match TP.prepare_transfer_task 1000 5000000 Wit.preparer Wit.request SUBNET_ROOT with
               | Ok task => Tee.stf_input task
               | _ => SI.new zero_hash SUBNET_ROOT zero_hash RI.new Gas.budget_default
               end in
  let used := (ME.execute_stf (fun _ l => l) (fun _ => 0) 1 2 input Wit.enclave).1 in
  execution_count used = 1 ∧
  outputs_agree (ME.execute_stf (fun _ l => l) (fun _ => 0) 3 4 input Wit.enclave).2
    (ME.execute_stf (fun _ l => l) (fun _ => 0) 5 6 input used).2.
Proof.
  intros input used. split; [vm_compute; reflexivity|].
  assert (Hrs : ME.use_read_set_state input = true) by (vm_compute; reflexivity).
  assert (Hcfg : me_config Wit.enclave = me_config used) by (vm_compute; reflexivity).
  clearbody input used.
  exact (proj1 (execution_isolated (fun _ l => l) (fun _ l => l) (fun _ => 0) 3 4 5 6 input Wit.enclave used Hrs Hcfg)).
Defined.

