(* ===== verification/SolverRouter.v ===== *)
(** * The solver router

    [crates/setu-router-core]: the choice of a shard for a subnet or an object
    ([strategy/subnet_shard.rs], [strategy/object_shard.rs],
    [unified_router.rs]), the choice of a solver on a hash ring
    ([strategy/consistent_hash.rs], module [CH]) and the registry of solvers
    ([solver.rs], module [Reg]); and the router of the validator,
    [setu-validator/src/router_manager.rs] (module [RM]).

    A [u16] is a [Z]; the remainder by a shard count of 0 panics.  The cached
    ring is a field of the state.  The strategies that compare loads as floating
    point numbers, which the validator does not use, are left out, and so are the
    load metrics of a shard. *)

From Stdlib Require Import ZArith Lia.
From stdpp Require Import base gmap sets list sorting strings numbers pretty.
From S2P Require Import Prelude Hash Event Coin Task.
#[local] Open Scope Z_scope.
#[local] Open Scope setu_scope.

(** ** Shards *)

Abbreviation ShardId := Z (only parsing).
Definition DEFAULT_SHARD_COUNT : Z := 16.

Inductive RoutingMethod := BySubnet | ByObject | BySender.

Inductive RouterError :=
| NoSolverAvailable
| RSolverNotFound (id : string)
| SendFailed (msg : string)
| RoutingFailed (msg : string)
| RInvalidSubnet (e : SubnetIdParseError).

#[global] Instance RoutingMethod_eq_dec : EqDecision RoutingMethod.
Proof. solve_decision. Defined.

(** [u16::from_be_bytes] of the first two bytes. *)
Definition leading_u16 (key : HashValue) : Z := HV.byte_at key 0 * 256 + HV.byte_at key 1.

(** [hash % n]. *)
Definition shard_mod (h n : Z) : result RouterError ShardId := if n =? 0 then Panic else Ok (h mod n).

(** [ShardStrategy]. *)
Class ShardStrategy (T : Type) := strategy_route : T → HashValue → result RouterError ShardId.

Record ObjectShardStrategy := mkObjectStrategy { os_shard_count : Z }.

Module OSS.
Definition new : ObjectShardStrategy := mkObjectStrategy DEFAULT_SHARD_COUNT.
Definition with_shard_count (n : Z) : ObjectShardStrategy := mkObjectStrategy n.

Definition route_object (s : ObjectShardStrategy) (id : HashValue) : result RouterError ShardId :=
  shard_mod (leading_u16 id) (os_shard_count s).

(** [any]: stops at the first object of another shard. *)
Fixpoint any_other (s : ObjectShardStrategy) (shard : ShardId) (ids : list HashValue) : result RouterError bool :=
  match ids with
  | [] => Ok false
  | id :: rest =>
      let? sh := route_object s id in
      if negb (sh =? shard) then Ok true else any_other s shard rest
  end.

Definition is_cross_shard (s : ObjectShardStrategy) (ids : list HashValue) : result RouterError bool :=
  match ids with
  | first :: (_ :: _ as rest) => let? sh := route_object s first in any_other s sh rest
  | _ => Ok false
  end.

Fixpoint route_all (s : ObjectShardStrategy) (ids : list HashValue) : result RouterError (list ShardId) :=
  match ids with
  | [] => Ok []
  | id :: rest => let? sh := route_object s id in let? shs := route_all s rest in Ok (sh :: shs)
  end.

(** [sort] and [dedup]. *)
Definition sort_dedup (l : list ShardId) : list ShardId := merge_sort Z.le (remove_dups l).

Definition get_involved_shards (s : ObjectShardStrategy) (ids : list HashValue) : result RouterError (list ShardId) :=
  let? shs := route_all s ids in Ok (sort_dedup shs).
End OSS.

#[global] Instance object_strategy : ShardStrategy ObjectShardStrategy := OSS.route_object.

Inductive SubnetShardStrategy :=
| HashBased (shard_count : Z)
| Dedicated (mapping : gmap HashValue ShardId) (default_shard : ShardId)
| Hybrid (dedicated : gmap HashValue ShardId) (shared_shard_start : ShardId) (shared_shard_count : Z).

#[global] Instance subnet_strategy : ShardStrategy SubnetShardStrategy := fun s key =>
  match s with
  | HashBased n => shard_mod (leading_u16 key) n
  | Dedicated mapping d => Ok (default d (mapping !! key))
  | Hybrid dedicated start n =>
      match dedicated !! key with
      | Some shard => Ok shard
      | None => let? r := shard_mod (leading_u16 key) n in Ok ((start + r) mod 2 ^ 16)
      end
  end.

Inductive CrossSubnetRoutingDecision :=
| SingleShard (shard : ShardId)
| MultiShard (coordinator_shard : ShardId) (participant_shards : list ShardId) (requires_2pc : bool).

Module SSR.
(** [SubnetShardRouter] without its load metrics is its strategy. *)
Definition new (shard_count : Z) : SubnetShardStrategy := HashBased shard_count.
Definition route (s : SubnetShardStrategy) (subnet : HashValue) : result RouterError ShardId := strategy_route s subnet.

Definition is_cross_subnet (source : HashValue) (targets : list HashValue) : bool :=
  existsb (fun t => negb (bool_decide (t = source))) targets.

Fixpoint any_other (s : SubnetShardStrategy) (shard : ShardId) (targets : list HashValue) : result RouterError bool :=
  match targets with
  | [] => Ok false
  | t :: rest => let? sh := route s t in if negb (sh =? shard) then Ok true else any_other s shard rest
  end.

Definition is_cross_shard (s : SubnetShardStrategy) (source : HashValue) (targets : list HashValue)
    : result RouterError bool :=
  let? sh := route s source in any_other s sh targets.

Fixpoint route_all (s : SubnetShardStrategy) (targets : list HashValue) : result RouterError (list ShardId) :=
  match targets with
  | [] => Ok []
  | t :: rest => let? sh := route s t in let? shs := route_all s rest in Ok (sh :: shs)
  end.

Definition route_cross_subnet (s : SubnetShardStrategy) (source : HashValue) (targets : list HashValue)
    : result RouterError CrossSubnetRoutingDecision :=
  let? src := route s source in
  let? shards := route_all s targets in
  if (size (list_to_set (src :: shards) : gset Z) =? 1)%nat then Ok (SingleShard src)
  else Ok (MultiShard src shards true).

Definition is_simple (d : CrossSubnetRoutingDecision) : bool :=
  match d with SingleShard _ => true | MultiShard _ _ _ => false end.

Definition all_shards (d : CrossSubnetRoutingDecision) : list ShardId :=
  match d with
  | SingleShard s => [s]
  | MultiShard c ps _ => OSS.sort_dedup (c :: ps)
  end.
End SSR.

(** ** The unified router *)

Record RoutingContext := mkRoutingContext {
  rc_subnet_id : option HashValue;
  rc_primary_object : HashValue;
  rc_touched_objects : list HashValue;
  rc_sender : option HashValue
}.

Inductive UnifiedRoutingStrategy :=
| SubnetFirst (subnet_strategy : SubnetShardStrategy) (object_shard_count : Z)
| ObjectOnly (shard_count : Z)
| SubnetOnly (subnet_strategy : SubnetShardStrategy).

Record UnifiedRouter := mkUnifiedRouter {
  ur_strategy : UnifiedRoutingStrategy;
  ur_subnet_router : SubnetShardStrategy;
  ur_object_strategy : ObjectShardStrategy
}.

Record ShardRoutingResult := mkShardRouting {
  sr_primary_shard : ShardId;
  sr_routing_method : RoutingMethod;
  sr_is_cross_shard : bool
}.

Record DetailedRoutingResult := mkDetailedRouting {
  dr_primary_shard : ShardId;
  dr_routing_method : RoutingMethod;
  dr_object_shards : gmap HashValue ShardId;
  dr_all_shards : list ShardId;
  dr_requires_coordination : bool
}.

Module UR.
Definition with_subnet (subnet object : HashValue) : RoutingContext := mkRoutingContext (Some subnet) object [object] None.
Definition with_object (object : HashValue) : RoutingContext := mkRoutingContext None object [object] None.
Definition with_touched_objects (ids : list HashValue) (c : RoutingContext) : RoutingContext :=
  mkRoutingContext (rc_subnet_id c) (rc_primary_object c) ids (rc_sender c).
Definition with_sender (sender : HashValue) (c : RoutingContext) : RoutingContext :=
  mkRoutingContext (rc_subnet_id c) (rc_primary_object c) (rc_touched_objects c) (Some sender).

Definition new : UnifiedRouter :=
  mkUnifiedRouter (SubnetFirst (HashBased DEFAULT_SHARD_COUNT) DEFAULT_SHARD_COUNT)
    (SSR.new DEFAULT_SHARD_COUNT) OSS.new.

Definition with_shard_count (n : Z) : UnifiedRouter :=
  mkUnifiedRouter (SubnetFirst (HashBased n) n) (SSR.new n) (OSS.with_shard_count n).

Definition with_strategy (s : UnifiedRoutingStrategy) : UnifiedRouter :=
  match s with
  | SubnetFirst ss n => mkUnifiedRouter s ss (OSS.with_shard_count n)
  | SubnetOnly ss => mkUnifiedRouter s ss OSS.new
  | ObjectOnly n => mkUnifiedRouter s (SSR.new n) (OSS.with_shard_count n)
  end.

Definition check_cross_shard_objects (r : UnifiedRouter) (c : RoutingContext) (primary : ShardId)
    : result RouterError bool :=
  OSS.any_other (ur_object_strategy r) primary (rc_touched_objects c).

Definition by_subnet (r : UnifiedRouter) (c : RoutingContext) (subnet : HashValue)
    : result RouterError ShardRoutingResult :=
  let? shard := SSR.route (ur_subnet_router r) subnet in
  let? cross := check_cross_shard_objects r c shard in
  Ok (mkShardRouting shard BySubnet cross).

Definition by_object (r : UnifiedRouter) (c : RoutingContext) : result RouterError ShardRoutingResult :=
  let? shard := OSS.route_object (ur_object_strategy r) (rc_primary_object c) in
  let? cross := check_cross_shard_objects r c shard in
  Ok (mkShardRouting shard ByObject cross).

Definition route (r : UnifiedRouter) (c : RoutingContext) : result RouterError ShardRoutingResult :=
  match ur_strategy r with
  | SubnetFirst _ _ =>
      match rc_subnet_id c with
      | Some subnet => by_subnet r c subnet
      | None => by_object r c
      end
  | ObjectOnly _ => by_object r c
  | SubnetOnly _ =>
      let? shard := SSR.route (ur_subnet_router r) (default zero_hash (rc_subnet_id c)) in
      Ok (mkShardRouting shard BySubnet false)
  end.

Definition route_detailed (r : UnifiedRouter) (c : RoutingContext) : result RouterError DetailedRoutingResult :=
  let? primary := route r c in
  let? shards := OSS.route_all (ur_object_strategy r) (rc_touched_objects c) in
  let objects : gmap HashValue Z := list_to_map (zip (rc_touched_objects c) shards) in
  let all := OSS.sort_dedup ((map_to_list objects).*2 ++ [sr_primary_shard primary]) in
  Ok (mkDetailedRouting (sr_primary_shard primary) (sr_routing_method primary) objects all
        (1 <? length all)%nat).
End UR.

(** ** Solvers *)

Inductive SolverStatus := Online | Busy | Offline | Unknown.

#[global] Instance SolverStatus_eq_dec : EqDecision SolverStatus.
Proof. solve_decision. Defined.

(** [SolverInfo]; the instant of the last heartbeat is in nanoseconds. *)
Record RouterSolver := mkRouterSolver {
  rs_id : string;
  rs_address : string;
  rs_status : SolverStatus;
  rs_resource_domains : list string;
  rs_pending_load : Z;
  rs_max_capacity : Z;
  rs_weight : Z;
  rs_last_heartbeat : option Z
}.

#[global] Instance RouterSolver_eq_dec : EqDecision RouterSolver.
Proof. solve_decision. Defined.

Record SolverRegistry := mkRegistry { sg_solvers : gmap string RouterSolver; sg_heartbeat_timeout : Z }.

Module Reg.
Definition solver_new (id address : string) (now : Z) : RouterSolver :=
  mkRouterSolver id address Online [] 0 10000 100 (Some now).

Definition is_available (s : RouterSolver) : bool :=
  bool_decide (rs_status s = Online) && (rs_pending_load s <? rs_max_capacity s).

Definition can_handle_resource (resource : string) (s : RouterSolver) : bool :=
  bool_decide (rs_resource_domains s = []) ||
  existsb (fun domain => String.prefix domain resource || bool_decide (domain = "*"%string)) (rs_resource_domains s).

Definition new : SolverRegistry := mkRegistry ∅ 30000000000.

Definition set_solvers (f : gmap string RouterSolver → gmap string RouterSolver) (r : SolverRegistry) : SolverRegistry :=
  mkRegistry (f (sg_solvers r)) (sg_heartbeat_timeout r).

Definition set_heartbeat (t : option Z) (s : RouterSolver) : RouterSolver :=
  mkRouterSolver (rs_id s) (rs_address s) (rs_status s) (rs_resource_domains s) (rs_pending_load s)
    (rs_max_capacity s) (rs_weight s) t.
Definition set_status (st : SolverStatus) (s : RouterSolver) : RouterSolver :=
  mkRouterSolver (rs_id s) (rs_address s) st (rs_resource_domains s) (rs_pending_load s)
    (rs_max_capacity s) (rs_weight s) (rs_last_heartbeat s).
Definition set_load (load : Z) (s : RouterSolver) : RouterSolver :=
  mkRouterSolver (rs_id s) (rs_address s) (rs_status s) (rs_resource_domains s) load
    (rs_max_capacity s) (rs_weight s) (rs_last_heartbeat s).

Definition register (s : RouterSolver) (now : Z) : SolverRegistry → SolverRegistry :=
  set_solvers <[rs_id s := set_heartbeat (Some now) s]>.
Definition unregister (id : string) : SolverRegistry → SolverRegistry := set_solvers (delete id).

Definition heartbeat (id : string) (now : Z) : SolverRegistry → SolverRegistry :=
  set_solvers (alter (fun s =>
    let s := set_heartbeat (Some now) s in
    if bool_decide (rs_status s = Unknown) then set_status Online s else s) id).
Definition update_status (id : string) (st : SolverStatus) : SolverRegistry → SolverRegistry :=
  set_solvers (alter (set_status st) id).
Definition update_load (id : string) (load : Z) : SolverRegistry → SolverRegistry :=
  set_solvers (alter (set_load load) id).

(** [duration_since] is 0 for an instant in the future. *)
Definition timed_out (now timeout : Z) (s : RouterSolver) : bool :=
  match rs_last_heartbeat s with
  | Some t => timeout <? Z.max 0 (now - t)
  | None => false
  end.

Definition check_timeouts (now : Z) (r : SolverRegistry) : SolverRegistry :=
  set_solvers (fmap (fun s => if timed_out now (sg_heartbeat_timeout r) s then set_status Unknown s else s)) r.

Definition get_available (now : Z) (r : SolverRegistry) : SolverRegistry * list RouterSolver :=
  let r := check_timeouts now r in
  (r, filter (fun s => is_available s = true) (map_to_list (sg_solvers r)).*2).

Definition get_available_for_resource (resource : string) (now : Z) (r : SolverRegistry)
    : SolverRegistry * list RouterSolver :=
  let r := check_timeouts now r in
  (r, filter (fun s => is_available s && can_handle_resource resource s = true) (map_to_list (sg_solvers r)).*2).
End Reg.

(** ** Consistent hashing *)

Record ConsistentHashStrategy := mkConsistentHash {
  ch_virtual_nodes : nat;
  ch_ring_cache : option (Z * gmap Z nat)
}.

Module CH.
Section CH.
Context `{Blake3}.

Definition with_virtual_nodes (n : nat) : ConsistentHashStrategy := mkConsistentHash n None.
Definition new : ConsistentHashStrategy := with_virtual_nodes 150.

Definition hash_key (key : string) : Z := of_le_bytes (take 8 (hv_bytes (blake3 (as_bytes key)))).

(** The ids are hashed one after the other, without a separator. *)
Definition solvers_hash (solvers : list RouterSolver) : Z :=
  of_le_bytes (take 8 (hv_bytes (blake3 (concat ((fun s => as_bytes (rs_id s)) <$> solvers))))).

(** The points of a solver on the ring. *)
Definition points (n : nat) (id : string) : list Z :=
  (fun vn => hash_key (id +:+ ":" +:+ pretty (Z.of_nat vn))%string) <$> seq 0 n.

Definition build_ring (n : nat) (solvers : list RouterSolver) : gmap Z nat :=
  foldl (fun ring (it : nat * RouterSolver) => foldl (fun ring h => <[h := it.1]> ring) ring (points n (rs_id it.2)))
    ∅ (imap pair solvers).

Definition get_or_build_ring (c : ConsistentHashStrategy) (solvers : list RouterSolver)
    : ConsistentHashStrategy * gmap Z nat :=
  let current := solvers_hash solvers in
  let rebuilt :=
    let ring := build_ring (ch_virtual_nodes c) solvers in
    (mkConsistentHash (ch_virtual_nodes c) (Some (current, ring)), ring) in
  match ch_ring_cache c with
  | Some (h, ring) => if h =? current then (c, ring) else rebuilt
  | None => rebuilt
  end.

(** The entry with the least key. *)
Definition least (l : list (Z * nat)) : option (Z * nat) :=
  foldr (fun e acc => match acc with
                      | Some b => if e.1 <=? b.1 then Some e else Some b
                      | None => Some e
                      end) None l.

Definition find_in_ring (ring : gmap Z nat) (h : Z) : option nat :=
  if bool_decide (ring = ∅) then None
  else
    match least (filter (fun e => h ≤ e.1) (map_to_list ring)) with
    | Some e => Some e.2
    | None => snd <$> least (map_to_list ring)
    end.

Definition select (c : ConsistentHashStrategy) (available : list RouterSolver) (key : string)
    : ConsistentHashStrategy * result RouterError RouterSolver :=
  match available with
  | [] => (c, Err NoSolverAvailable)
  | [s] => (c, Ok s)
  | _ =>
      let '(c, ring) := get_or_build_ring c available in
      match find_in_ring ring (hash_key key) with
      | None => (c, Err NoSolverAvailable)
      | Some idx => (c, match available !! idx with Some s => Ok s | None => Panic end)
      end
  end.
End CH.
End CH.

(** ** The router of the validator *)

Record SolverConnection := mkConnection {
  sc_id : string;
  sc_address : string;
  sc_capacity : Z;
  sc_current_load : Z;
  sc_status : SolverStatus;
  sc_shard_id : option string;
  sc_assigned_shard : option ShardId;
  sc_resources : list string;
  sc_permitted_subnets : list SubnetId
}.

#[global] Instance SolverConnection_eq_dec : EqDecision SolverConnection.
Proof. solve_decision. Defined.

(** An unbounded channel: what was sent, and whether its receiver is alive. *)
Record SolverChannel := mkChannel { sch_open : bool; sch_sent : list TransferReq }.

Record RouterManager := mkRouterManager {
  rm_router : UnifiedRouter;
  rm_solver_registry : gmap string SolverConnection;
  rm_solver_channels : gmap string SolverChannel;
  rm_consistent_hash : ConsistentHashStrategy;
  rm_shard_solvers : gmap Z (list string)
}.

Module RM.
Section RM.
Context `{Blake3} `{HexCrate}.

Definition connection_new (id address : string) (capacity : Z) : SolverConnection :=
  mkConnection id address capacity 0 Online None None [] [].

Definition is_available (s : SolverConnection) : bool :=
  bool_decide (sc_status s = Online) && (sc_current_load s <? sc_capacity s).

Definition with_router (r : UnifiedRouter) : RouterManager := mkRouterManager r ∅ ∅ CH.new ∅.
Definition new : RouterManager := with_router UR.new.
Definition with_shard_count (n : Z) : RouterManager := with_router (UR.with_shard_count n).

Definition set_registry (f : gmap string SolverConnection → gmap string SolverConnection) (m : RouterManager)
    : RouterManager :=
  mkRouterManager (rm_router m) (f (rm_solver_registry m)) (rm_solver_channels m) (rm_consistent_hash m)
    (rm_shard_solvers m).
Definition set_channels (f : gmap string SolverChannel → gmap string SolverChannel) (m : RouterManager)
    : RouterManager :=
  mkRouterManager (rm_router m) (rm_solver_registry m) (f (rm_solver_channels m)) (rm_consistent_hash m)
    (rm_shard_solvers m).
Definition set_hash (c : ConsistentHashStrategy) (m : RouterManager) : RouterManager :=
  mkRouterManager (rm_router m) (rm_solver_registry m) (rm_solver_channels m) c (rm_shard_solvers m).
Definition set_shards (f : gmap Z (list string) → gmap Z (list string)) (m : RouterManager) : RouterManager :=
  mkRouterManager (rm_router m) (rm_solver_registry m) (rm_solver_channels m) (rm_consistent_hash m)
    (f (rm_shard_solvers m)).

Definition register_solver (id address : string) (capacity : Z) (ch : SolverChannel) (m : RouterManager)
    : RouterManager :=
  set_channels <[id := ch]> (set_registry <[id := connection_new id address capacity]> m).

(** An empty list of resources or of subnets is the default of the fields. *)
Definition register_solver_with_affinity (id address : string) (capacity : Z) (ch : SolverChannel)
    (shard_id : option string) (assigned_shard : option ShardId) (resources : list string)
    (permitted : list SubnetId) (m : RouterManager) : RouterManager :=
  let conn := mkConnection id address capacity 0 Online shard_id assigned_shard resources permitted in
  let m :=
    match assigned_shard with
    | Some shard => set_shards (fun s => <[shard := default [] (s !! shard) ++ [id]]> s) m
    | None => m
    end in
  set_channels <[id := ch]> (set_registry <[id := conn]> m).

Definition unregister_solver (id : string) (m : RouterManager) : RouterManager :=
  let assigned := rm_solver_registry m !! id ≫= sc_assigned_shard in
  let m := set_channels (delete id) (set_registry (delete id) m) in
  match assigned with
  | Some shard => set_shards (alter (filter (fun i => i ≠ id)) shard) m
  | None => m
  end.

Definition set_load (load : Z) (s : SolverConnection) : SolverConnection :=
  mkConnection (sc_id s) (sc_address s) (sc_capacity s) load (sc_status s) (sc_shard_id s) (sc_assigned_shard s)
    (sc_resources s) (sc_permitted_subnets s).
Definition set_status (st : SolverStatus) (s : SolverConnection) : SolverConnection :=
  mkConnection (sc_id s) (sc_address s) (sc_capacity s) (sc_current_load s) st (sc_shard_id s) (sc_assigned_shard s)
    (sc_resources s) (sc_permitted_subnets s).

Definition update_solver_load (id : string) (load : Z) : RouterManager → RouterManager :=
  set_registry (alter (set_load load) id).
Definition update_solver_status (id : string) (st : SolverStatus) : RouterManager → RouterManager :=
  set_registry (alter (set_status st) id).
(** [u32] with the wrap-around of a release build. *)
Definition increment_solver_load (id : string) : RouterManager → RouterManager :=
  set_registry (alter (fun s => set_load ((sc_current_load s + 1) mod 2 ^ 32) s) id).
Definition decrement_solver_load (id : string) : RouterManager → RouterManager :=
  set_registry (alter (fun s => set_load (saturating_sub (sc_current_load s) 1) s) id).

Definition solver_permits_subnet_inner (subnet : SubnetId) (s : SolverConnection) : bool :=
  bool_decide (sc_permitted_subnets s = []) || bool_decide (subnet ∈ sc_permitted_subnets s).

(** A solver that may be given work of the subnet. *)
Definition serves (subnet : SubnetId) (s : SolverConnection) : bool :=
  is_available s && solver_permits_subnet_inner subnet s.

Definition is_solver_available (id : string) (m : RouterManager) : bool :=
  match rm_solver_registry m !! id with Some s => is_available s | None => false end.

Definition is_solver_available_for_subnet (id : string) (subnet : SubnetId) (m : RouterManager) : bool :=
  match rm_solver_registry m !! id with Some s => serves subnet s | None => false end.

Definition get_available_solvers (m : RouterManager) : list SolverConnection :=
  filter (fun s => is_available s = true) (map_to_list (rm_solver_registry m)).*2.

Definition get_solvers_for_subnet (subnet : SubnetId) (m : RouterManager) : list SolverConnection :=
  filter (fun s => serves subnet s = true) (map_to_list (rm_solver_registry m)).*2.

(** The solvers of a shard, by the index. *)
Definition shard_candidates (ids : list string) (subnet : SubnetId) (m : RouterManager) : list SolverConnection :=
  filter (fun s => serves subnet s = true) (omap (fun id => rm_solver_registry m !! id) ids).

Definition info_of (now : Z) (s : SolverConnection) : RouterSolver :=
  mkRouterSolver (sc_id s) (sc_address s) Online [] (sc_current_load s) (sc_capacity s) 100 (Some now).

Definition select_among (now : Z) (candidates : list SolverConnection) (subnet : SubnetId)
    : stm RouterManager RouterError string := fun m =>
  let '(c, r) := CH.select (rm_consistent_hash m) (info_of now <$> candidates) (hex_encode (hv_bytes subnet)) in
  (set_hash c m,
   match r with
   | Ok s => Ok (rs_id s)
   | Err _ => Err (RoutingFailed "No solver available for routing")
   | Panic => Panic
   end).

Definition fallback (now : Z) (subnet : SubnetId) : stm RouterManager RouterError string := fun m =>
  let available := get_solvers_for_subnet subnet m in
  if bool_decide (available = []) then (m, Err NoSolverAvailable)
  else select_among now available subnet m.

Definition route_transfer (now : Z) (t : TransferReq) : stm RouterManager RouterError string := fun m =>
  match Tr.resolve_subnet_id t with
  | Err e => (m, Err (RInvalidSubnet e))
  | Panic => (m, Panic)
  | Ok subnet =>
      let by_shard :=
        match UR.route (rm_router m) (UR.with_subnet subnet zero_hash) with
        | Err e => (m, Err e)
        | Panic => (m, Panic)
        | Ok r =>
            match rm_shard_solvers m !! sr_primary_shard r with
            | Some ids =>
                let candidates := shard_candidates ids subnet m in
                if bool_decide (candidates = []) then fallback now subnet m
                else select_among now candidates subnet m
            | None => fallback now subnet m
            end
        end in
      match tr_preferred_solver t with
      | Some preferred => if is_solver_available_for_subnet preferred subnet m then (m, Ok preferred) else by_shard
      | None => by_shard
      end
  end.

Definition send_to_solver (id : string) (t : TransferReq) : stm RouterManager RouterError unit := fun m =>
  match rm_solver_channels m !! id with
  | None => (m, Err (RSolverNotFound id))
  | Some ch =>
      if sch_open ch then
        (increment_solver_load id (set_channels <[id := mkChannel true (sch_sent ch ++ [t])]> m), Ok tt)
      else (m, Err (SendFailed "channel closed"))
  end.

Definition route_and_send (now : Z) (t : TransferReq) : stm RouterManager RouterError string :=
  let! id := route_transfer now t in
  let! _ := send_to_solver id t in
  sret id.

Definition solver_count (m : RouterManager) : nat := size (rm_solver_registry m).
Definition available_solver_count (m : RouterManager) : nat := length (get_available_solvers m).
Definition get_solver (id : string) (m : RouterManager) : option SolverConnection := rm_solver_registry m !! id.

(** [find] over the values of the registry. *)
Definition route_any (m : RouterManager) : result RouterError string :=
  match get_available_solvers m with
  | s :: _ => Ok (sc_id s)
  | [] => Err NoSolverAvailable
  end.
End RM.
End RM.
