(* ===== verification/RouterProps.v ===== *)
(** * Theorems on the solver router

    The choice on a hash ring is the owner of the first point at or after the
    hash of the key; it does not change when other solvers leave; a transfer is
    routed to a solver that serves its subnet whenever there is one. *)

From Stdlib Require Import ZArith Lia.
From stdpp Require Import base gmap sets list sorting strings numbers pretty.
From S2P Require Import Prelude Hash Event Coin Task SolverRouter.
#[local] Open Scope Z_scope.

(** ** The least entry *)

Lemma least_None l : CH.least l = None → l = [].
Proof.
  destruct l as [|x l]; [done|]. cbn [CH.least foldr]. change (foldr _ None l) with (CH.least l).
  destruct (CH.least l); [by destruct (_ <=? _)|done].
Qed.

Lemma least_Some l e : CH.least l = Some e → e ∈ l ∧ ∀ e', e' ∈ l → e.1 ≤ e'.1.
Proof.
  revert e. induction l as [|x l IH]; intros e; [done|]. cbn [CH.least foldr].
  change (foldr _ None l) with (CH.least l). destruct (CH.least l) as [b|] eqn:Hb.
  - destruct (IH b eq_refl) as [Hin Hle]. destruct (Z.leb_spec x.1 b.1) as [Hxb|Hxb]; intros [= <-].
    + split; [by left|]. intros e' [->|He']%elem_of_cons; [lia|]. specialize (Hle e' He'). lia.
    + split; [by right|]. intros e' [->|He']%elem_of_cons; [lia|by apply Hle].
  - intros [= <-]. split; [by left|]. intros e' [->|He']%elem_of_cons; [lia|].
    apply least_None in Hb as ->. by apply not_elem_of_nil in He'.
Qed.

(** [k] is the first of the points at or after [h], around the ring. *)
Definition first_point (h k : Z) (D : gset Z) : Prop :=
  k ∈ D ∧ ((h ≤ k ∧ ∀ k', k' ∈ D → h ≤ k' → k ≤ k') ∨ ((∀ k', k' ∈ D → k' < h) ∧ ∀ k', k' ∈ D → k ≤ k')).

Lemma first_point_subset h k D D' : D' ⊆ D → k ∈ D' → first_point h k D → first_point h k D'.
Proof. intros Hs Hk [_ [[H1 H2]|[H1 H2]]]; (split; [done|]); [left|right]; split; try done; set_solver. Qed.

Lemma first_point_unique h k k' D : first_point h k D → first_point h k' D → k = k'.
Proof.
  intros [Hk [[H1 H2]|[H1 H2]]] [Hk' [[H1' H2']|[H1' H2']]].
  - specialize (H2 k' Hk' H1'). specialize (H2' k Hk H1). lia.
  - specialize (H1' k Hk). lia.
  - specialize (H1 k' Hk'). lia.
  - specialize (H2 k' Hk'). specialize (H2' k Hk). lia.
Qed.

Lemma find_in_ring_spec ring h i :
  CH.find_in_ring ring h = Some i ↔ ∃ k, ring !! k = Some i ∧ first_point h k (dom ring).
Proof.
  assert (Hdom : ∀ k, k ∈ dom ring ↔ ∃ j, (k, j) ∈ map_to_list ring).
  { intros k. rewrite elem_of_dom. setoid_rewrite elem_of_map_to_list. done. }
  assert (Hsome : ∀ j, CH.find_in_ring ring h = Some j → ∃ k, ring !! k = Some j ∧ first_point h k (dom ring)).
  { intros j. unfold CH.find_in_ring. case_bool_decide as He; [done|].
    destruct (CH.least (filter _ _)) as [e|] eqn:Hl.
    - intros [= <-]. apply least_Some in Hl as [[Hge Hin]%list_elem_of_filter Hmin]. exists e.1. destruct e as [k j]. cbn in *.
      split; [by apply elem_of_map_to_list|]. split; [by apply Hdom; eexists|]. left. split; [done|].
      intros k' [j' Hj']%Hdom Hh. apply (Hmin (k', j')), list_elem_of_filter. done.
    - destruct (CH.least (map_to_list ring)) as [e|] eqn:Hm; cbn; [|done]. intros [= <-].
      apply least_Some in Hm as [Hin Hmin]. exists e.1. destruct e as [k j]. cbn in *.
      split; [by apply elem_of_map_to_list|]. split; [by apply Hdom; eexists|]. right. split.
      + intros k' [j' Hj']%Hdom. destruct (Z.lt_ge_cases k' h) as [|Hge]; [done|]. apply least_None in Hl.
        assert ((k', j') ∈ filter (fun e => h ≤ e.1) (map_to_list ring)) as Hf by by apply list_elem_of_filter.
        rewrite Hl in Hf. by apply not_elem_of_nil in Hf.
      + intros k' [j' Hj']%Hdom. by apply (Hmin (k', j')). }
  split; [apply Hsome|]. intros (k & Hk & Hf).
  destruct (CH.find_in_ring ring h) as [j|] eqn:Hfind.
  - destruct (Hsome j eq_refl) as (k' & Hk' & Hf'). by rewrite (first_point_unique _ _ _ _ Hf Hf'), Hk' in Hk.
  - exfalso. unfold CH.find_in_ring in Hfind. case_bool_decide as He; [by rewrite He, lookup_empty in Hk|].
    destruct (CH.least (filter _ _)); [done|]. destruct (CH.least (map_to_list ring)) eqn:Hm; [done|].
    apply least_None in Hm. apply map_to_list_empty_iff in Hm. by rewrite Hm, lookup_empty in Hk.
Qed.

Lemma find_in_ring_total ring h : ring ≠ ∅ → ∃ i, CH.find_in_ring ring h = Some i.
Proof.
  intros Hne. unfold CH.find_in_ring. rewrite bool_decide_eq_false_2 by done.
  destruct (CH.least (filter _ _)) as [e|]; [by eexists|].
  destruct (CH.least (map_to_list ring)) as [e|] eqn:Hm; [by eexists|].
  by apply least_None, map_to_list_empty_iff in Hm.
Qed.

(** ** The ring *)

Section Ring.
Context `{B : Blake3}.

Lemma add_points_lookup (idx : nat) (ps : list Z) (ring : gmap Z nat) h :
  foldl (fun ring h => <[h := idx]> ring) ring ps !! h = if bool_decide (h ∈ ps) then Some idx else ring !! h.
Proof.
  revert ring. induction ps as [|p ps IH]; intros ring; [done|]. cbn. rewrite IH.
  destruct (decide (h ∈ ps)) as [Hin|Hin].
  - rewrite !bool_decide_eq_true_2; [done|by right|done].
  - rewrite (bool_decide_eq_false_2 (h ∈ ps)) by done. destruct (decide (h = p)) as [->|Hne].
    + rewrite lookup_insert_eq, bool_decide_eq_true_2; [done|by left].
    + rewrite lookup_insert_ne by done. rewrite bool_decide_eq_false_2; [done|]. by intros [?|?]%elem_of_cons.
Qed.

(** An entry of the ring is a point of the solver at its index, and every
    point has an entry. *)
Lemma build_ring_spec n solvers h :
  match CH.build_ring n solvers !! h with
  | Some i => ∃ s, solvers !! i = Some s ∧ h ∈ CH.points n (rs_id s)
  | None => ∀ s, s ∈ solvers → h ∉ CH.points n (rs_id s)
  end.
Proof.
  unfold CH.build_ring. induction solvers as [|s solvers IH] using rev_ind; [cbn; rewrite lookup_empty; by intros s ?%not_elem_of_nil|].
  rewrite imap_app, foldl_app. cbn. rewrite add_points_lookup. rewrite Nat.add_0_r. case_bool_decide as Hin.
  - exists s. rewrite lookup_app_r, Nat.sub_diag by lia. done.
  - destruct (foldl _ _ _ !! h) as [i|].
    + destruct IH as (t & Ht & Hp). exists t. split; [|done]. by apply lookup_app_l_Some.
    + intros t [Ht|Ht%list_elem_of_singleton]%elem_of_app; [by apply IH|by subst].
Qed.

Lemma build_ring_dom n solvers h :
  h ∈ dom (CH.build_ring n solvers) ↔ ∃ s, s ∈ solvers ∧ h ∈ CH.points n (rs_id s).
Proof.
  pose proof (build_ring_spec n solvers h) as Hs. rewrite elem_of_dom.
  destruct (CH.build_ring n solvers !! h) as [i|]; split.
  - intros _. destruct Hs as (s & Hi & Hp). exists s. split; [by eapply list_elem_of_lookup_2|done].
  - by eauto.
  - by intros [? ?].
  - intros (s & Hin & Hp). by destruct (Hs s Hin).
Qed.

Lemma build_ring_ids n l l' : rs_id <$> l = rs_id <$> l' → CH.build_ring n l = CH.build_ring n l'.
Proof.
  revert l'. induction l as [|s l IH] using rev_ind; intros l' Heq.
  - by destruct l'.
  - rewrite fmap_app in Heq. symmetry in Heq. apply fmap_app_inv in Heq as (l1 & l2 & Heq & Hs & ->).
    destruct l2 as [|t [|u l2]]; [done| |done]. injection Hs as Hs.
    specialize (IH l1 Heq). unfold CH.build_ring in *. rewrite !imap_app, !foldl_app, IH. cbn.
    assert (length l = length l1) as Hlen by (rewrite <-(length_fmap rs_id l), Heq; apply length_fmap).
    by rewrite Hs, Hlen.
Qed.

(** ** The choice *)

(** The cached ring, when its hash is that of the list, is the ring of the list. *)
Definition cache_fits (c : ConsistentHashStrategy) (l : list RouterSolver) : Prop :=
  ∀ h r, ch_ring_cache c = Some (h, r) → h = CH.solvers_hash l → r = CH.build_ring (ch_virtual_nodes c) l.

(** [s] owns the first point of the ring of [l] at or after the key. *)
Definition owns (n : nat) (l : list RouterSolver) (key : string) (s : RouterSolver) : Prop :=
  s ∈ l ∧ ∃ k, k ∈ CH.points n (rs_id s) ∧ first_point (CH.hash_key key) k (dom (CH.build_ring n l)).

Lemma get_or_build_ring_fits c l :
  cache_fits c l →
  (CH.get_or_build_ring c l).2 = CH.build_ring (ch_virtual_nodes c) l ∧
  ch_virtual_nodes (CH.get_or_build_ring c l).1 = ch_virtual_nodes c ∧ cache_fits (CH.get_or_build_ring c l).1 l.
Proof.
  intros Hfit. unfold CH.get_or_build_ring.
  assert (Hnew : cache_fits (mkConsistentHash (ch_virtual_nodes c)
    (Some (CH.solvers_hash l, CH.build_ring (ch_virtual_nodes c) l))) l) by by intros h r [= <- <-].
  destruct (ch_ring_cache c) as [[h r]|] eqn:Hc; [|done].
  destruct (Z.eqb_spec h (CH.solvers_hash l)) as [Heq|]; [|done]. split_and!; [|done|done]. by eapply Hfit.
Qed.

Lemma owner_exists n l key :
  l ≠ [] → n ≠ 0%nat →
  ∃ i s, CH.find_in_ring (CH.build_ring n l) (CH.hash_key key) = Some i ∧ l !! i = Some s ∧ owns n l key s.
Proof.
  intros Hl Hn. destruct (find_in_ring_total (CH.build_ring n l) (CH.hash_key key)) as [i Hi].
  - intros He. destruct l as [|s l]; [done|]. destruct n as [|n]; [done|].
    assert (CH.hash_key (rs_id s +:+ ":" +:+ pretty (Z.of_nat 0))%string ∈ dom (CH.build_ring (S n) (s :: l))) as Hd.
    { apply build_ring_dom. exists s. split; [by left|]. by left. }
    rewrite He, dom_empty_L in Hd. set_solver.
  - apply find_in_ring_spec in Hi as Hk. destruct Hk as (k & Hk & Hf). pose proof (build_ring_spec n l k) as Hs.
    rewrite Hk in Hs. destruct Hs as (s & Hs & Hp). exists i, s. split_and!; [done|done|].
    split; [by eapply list_elem_of_lookup_2|by exists k].
Qed.

(** A choice is always made, and is the owner. *)
Lemma select_owner c l key :
  cache_fits c l → l ≠ [] → ch_virtual_nodes c ≠ 0%nat →
  ∃ s, (CH.select c l key).2 = Ok s ∧ owns (ch_virtual_nodes c) l key s ∧
    ch_virtual_nodes (CH.select c l key).1 = ch_virtual_nodes c ∧ cache_fits (CH.select c l key).1 l.
Proof.
  intros Hfit Hl Hn. destruct (owner_exists _ l key Hl Hn) as (i & s & Hi & Hs & Ho).
  destruct l as [|a [|b l]]; [done| |].
  - exists a. split_and!; [done| |done|done]. destruct Ho as [Hin Ho]. apply list_elem_of_singleton in Hin as ->.
    split; [by left|done].
  - exists s. unfold CH.select. destruct (get_or_build_ring_fits c (a :: b :: l) Hfit) as (Hr & Hv & Hf).
    destruct (CH.get_or_build_ring c (a :: b :: l)) as [c' ring]. cbn [fst snd] in *. subst ring. rewrite Hi, Hs.
    done.
Qed.

(** The points of different solvers are apart. *)
Definition points_apart (n : nat) (l : list RouterSolver) : Prop :=
  ∀ s t k, s ∈ l → t ∈ l → k ∈ CH.points n (rs_id s) → k ∈ CH.points n (rs_id t) → s = t.

Lemma owner_unique n l key s t : points_apart n l → owns n l key s → owns n l key t → s = t.
Proof.
  intros Ha [Hs (k & Hk & Hf)] [Ht (k' & Hk' & Hf')]. rewrite (first_point_unique _ _ _ _ Hf Hf') in Hk. by eapply Ha.
Qed.

Lemma owns_subset n l l' key s : l' ⊆ l → s ∈ l' → owns n l key s → owns n l' key s.
Proof.
  intros Hsub Hin [_ (k & Hk & Hf)]. split; [done|]. exists k. split; [done|]. revert Hf. apply first_point_subset.
  - intros h. rewrite !build_ring_dom. intros (t & Ht & Hp). exists t. split; [by apply Hsub|done].
  - apply build_ring_dom. by exists s.
Qed.

(** Lists with the same ids lead to the same id. *)
Lemma select_ids c c' l l' key :
  rs_id <$> l = rs_id <$> l' → cache_fits c l → cache_fits c' l' → l ≠ [] →
  ch_virtual_nodes c ≠ 0%nat → ch_virtual_nodes c' = ch_virtual_nodes c →
  ∃ s s', (CH.select c l key).2 = Ok s ∧ (CH.select c' l' key).2 = Ok s' ∧ rs_id s = rs_id s'.
Proof.
  intros Heq Hf Hf' Hl Hn Hv.
  assert (Hl' : l' ≠ []) by (intros ->; by destruct l).
  destruct (owner_exists _ l key Hl Hn) as (i & s & Hi & Hs & _).
  destruct (owner_exists _ l' key Hl' Hn) as (i' & s' & Hi' & Hs' & _).
  rewrite (build_ring_ids _ _ _ Heq), Hi' in Hi. injection Hi as ->.
  assert (rs_id s = rs_id s') as Hid.
  { assert ((rs_id <$> l) !! i = (rs_id <$> l') !! i) as Hlk by by rewrite Heq. rewrite !list_lookup_fmap, Hs, Hs' in Hlk. by injection Hlk. }
  destruct l as [|a [|b l]], l' as [|a' [|b' l']]; try done.
  - exists a, a'. split_and!; [done|done|]. by injection Heq.
  - exists s, s'. unfold CH.select.
    destruct (get_or_build_ring_fits c (a :: b :: l) Hf) as (Hr & _).
    destruct (get_or_build_ring_fits c' (a' :: b' :: l') Hf') as (Hr' & _).
    destruct (CH.get_or_build_ring c _) as [c1 r1], (CH.get_or_build_ring c' _) as [c2 r2].
    cbn [fst snd] in *. subst r1 r2. rewrite Hv, Hi', Hs'. rewrite (build_ring_ids _ _ _ Heq), Hi', Hs. done.
Qed.
End Ring.

Section Router.
Context `{B : Blake3} `{X : HexCrate}.

(** Solvers that leave do not move the keys of the others.  On a hash ring
    whose points do not collide, the solver chosen for a key is also chosen, in
    whatever order the solvers are listed, as long as it is among them and no
    solver was added; and every choice is the owner of the first point at or
    after the hash of the key. *)
Theorem selection_stable (c c' : ConsistentHashStrategy) (l l' : list RouterSolver) (key : string) (s : RouterSolver)
    (Hn : ch_virtual_nodes c ≠ 0%nat) (Hv : ch_virtual_nodes c' = ch_virtual_nodes c)
    (Hc : cache_fits c l) (Hc' : cache_fits c' l') (Hapart : points_apart (ch_virtual_nodes c) l)
    (Hsub : l' ⊆ l) (Hsel : (CH.select c l key).2 = Ok s) :
  owns (ch_virtual_nodes c) l key s ∧ (s ∈ l' → (CH.select c' l' key).2 = Ok s).
Proof.
  assert (Hl : l ≠ []) by (intros ->; discriminate Hsel).
  destruct (select_owner c l key Hc Hl Hn) as (s0 & Hs0 & Ho & _). rewrite Hs0 in Hsel. injection Hsel as ->.
  split; [done|]. intros Hin. assert (Hl' : l' ≠ []) by (intros ->; by apply not_elem_of_nil in Hin).
  destruct (select_owner c' l' key Hc' Hl') as (t & Ht & Ho' & _); [by rewrite Hv|]. rewrite Ht. f_equal. rewrite Hv in Ho'.
  apply (owner_unique (ch_virtual_nodes c) l' key); [|done|by eapply owns_subset].
  intros u v k Hu Hv'. apply Hapart; by apply Hsub.
Qed.

(** ** Routing *)

(** The registry is keyed by the ids of the solvers. *)
Definition registered (m : RouterManager) : Prop := map_Forall (fun id s => sc_id s = id) (rm_solver_registry m).

(** The solvers among which a transfer of the subnet is routed. *)
Definition pool (m : RouterManager) (subnet : SubnetId) : list SolverConnection :=
  let all := RM.get_solvers_for_subnet subnet m in
  match UR.route (rm_router m) (UR.with_subnet subnet zero_hash) with
  | Ok r =>
      match rm_shard_solvers m !! sr_primary_shard r with
      | Some ids =>
          let cs := RM.shard_candidates ids subnet m in
          if bool_decide (cs = []) then all else cs
      | None => all
      end
  | _ => []
  end.

(** The router of the manager has shards, and its ring is that of the pool. *)
Record routable (m : RouterManager) (now : Z) (subnet : SubnetId) : Prop := mkRoutable {
  rt_registered : registered m;
  rt_shards : ∃ n, 0 < n ∧ rm_router m = UR.with_shard_count n;
  rt_nodes : ch_virtual_nodes (rm_consistent_hash m) ≠ 0%nat;
  rt_cache : cache_fits (rm_consistent_hash m) (RM.info_of now <$> pool m subnet)
}.

Lemma any_other_ok (s : ObjectShardStrategy) sh ids :
  os_shard_count s ≠ 0 → ∃ b, OSS.any_other s sh ids = Ok b.
Proof.
  intros Hn. induction ids as [|id ids IH]; [by eexists|]. cbn. unfold OSS.route_object, shard_mod.
  destruct (Z.eqb_spec (os_shard_count s) 0); [done|]. cbn. destruct (negb _); [by eexists|done].
Qed.

Lemma route_ok n subnet object :
  0 < n → ∃ r, UR.route (UR.with_shard_count n) (UR.with_subnet subnet object) = Ok r ∧
    sr_primary_shard r = leading_u16 subnet mod n ∧ sr_routing_method r = BySubnet.
Proof.
  intros Hn. unfold UR.route, UR.with_shard_count, UR.with_subnet. cbn [ur_strategy rc_subnet_id].
  unfold UR.by_subnet, SSR.route, strategy_route, subnet_strategy, SSR.new. cbn [ur_subnet_router]. unfold shard_mod.
  destruct (Z.eqb_spec n 0); [lia|]. cbn [rbind]. unfold UR.check_cross_shard_objects. cbn [ur_object_strategy rc_touched_objects].
  destruct (any_other_ok (OSS.with_shard_count n) (leading_u16 subnet mod n) [object]) as [b Hb]; [cbn; lia|].
  rewrite Hb. cbn [rbind]. by eexists.
Qed.

Lemma pool_serves m subnet s :
  s ∈ pool m subnet → ∃ id, rm_solver_registry m !! id = Some s ∧ RM.serves subnet s = true.
Proof.
  assert (Hall : s ∈ RM.get_solvers_for_subnet subnet m → ∃ id, rm_solver_registry m !! id = Some s ∧ RM.serves subnet s = true).
  { unfold RM.get_solvers_for_subnet. intros [Hs ((id & s') & -> & Hin%elem_of_map_to_list)%list_elem_of_fmap]%list_elem_of_filter.
    by exists id. }
  unfold pool. destruct (UR.route _ _) as [r| |]; [|by intros ?%not_elem_of_nil..].
  destruct (rm_shard_solvers m !! _) as [ids|]; [|done]. case_bool_decide as Hc; [done|].
  unfold RM.shard_candidates. intros [Hs (id & _ & Hin)%list_elem_of_omap]%list_elem_of_filter. by exists id.
Qed.

Lemma pool_complete m subnet id s :
  is_ok (UR.route (rm_router m) (UR.with_subnet subnet zero_hash)) = true →
  rm_solver_registry m !! id = Some s → RM.serves subnet s = true → pool m subnet ≠ [].
Proof.
  intros Hok Hs Hserve. assert (Hall : RM.get_solvers_for_subnet subnet m ≠ []).
  { intros He. assert (s ∈ RM.get_solvers_for_subnet subnet m) as Hin; [|rewrite He in Hin; by apply not_elem_of_nil in Hin].
    apply list_elem_of_filter. split; [done|]. apply list_elem_of_fmap. exists (id, s). split; [done|]. by apply elem_of_map_to_list. }
  unfold pool. destruct (UR.route _ _); [|done..]. destruct (rm_shard_solvers m !! _); [|done]. by case_bool_decide.
Qed.

(** Routing without a preferred solver is a choice in the pool. *)
Lemma route_pool now t m subnet n :
  Tr.resolve_subnet_id t = Ok subnet → rm_router m = UR.with_shard_count n → 0 < n →
  (∀ p, tr_preferred_solver t = Some p → RM.is_solver_available_for_subnet p subnet m = false) →
  RM.route_transfer now t m =
    if bool_decide (pool m subnet = []) then (m, Err NoSolverAvailable) else RM.select_among now (pool m subnet) subnet m.
Proof.
  intros Hsn Hr Hn Hp. unfold RM.route_transfer. rewrite Hsn.
  destruct (route_ok n subnet zero_hash Hn) as (r & Hroute & _).
  match goal with |- match _ with Some _ => _ | None => ?b end = ?rhs => assert (b = rhs) as Hb end.
  { unfold pool. rewrite Hr, Hroute. unfold RM.fallback. destruct (rm_shard_solvers m !! _) as [ids|].
    - destruct (decide (RM.shard_candidates ids subnet m = [])) as [He|He].
      + by rewrite !(bool_decide_eq_true_2 _ He).
      + by rewrite !(bool_decide_eq_false_2 _ He).
    - done. }
  destruct (tr_preferred_solver t) as [p|]; [|exact Hb]. by rewrite (Hp p eq_refl).
Qed.

Lemma cache_fits_ids c l l' : rs_id <$> l = rs_id <$> l' → cache_fits c l → cache_fits c l'.
Proof.
  intros Heq Hfit h r Hc Hh. rewrite <-(build_ring_ids _ _ _ Heq). apply (Hfit h r Hc). rewrite Hh.
  unfold CH.solvers_hash. do 5 f_equal. rewrite !(list_fmap_compose rs_id as_bytes). by rewrite Heq.
Qed.

Lemma info_ids now now' (l : list SolverConnection) : rs_id <$> (RM.info_of now <$> l) = rs_id <$> (RM.info_of now' <$> l).
Proof. by rewrite <-!list_fmap_compose. Qed.

(** What the choice in the pool gives, and that it is the same later. *)
Lemma select_among_spec now m subnet :
  routable m now subnet → pool m subnet ≠ [] →
  ∃ id s, (RM.select_among now (pool m subnet) subnet m).2 = Ok id ∧
    rm_solver_registry m !! id = Some s ∧ RM.serves subnet s = true ∧
    ∃ c, (RM.select_among now (pool m subnet) subnet m).1 = RM.set_hash c m ∧
      ∀ now', routable (RM.set_hash c m) now' subnet ∧
        (RM.select_among now' (pool m subnet) subnet (RM.set_hash c m)).2 = Ok id.
Proof.
  intros [Hreg Hsh Hn Hfit] Hne. set (l := pool m subnet) in *.
  assert (Hl : RM.info_of now <$> l ≠ []) by (intros He; apply fmap_nil_inv in He; done).
  destruct (select_owner _ _ (hex_encode (hv_bytes subnet)) Hfit Hl Hn) as (s & Hs & [Hin _] & Hv & Hf').
  unfold RM.select_among. destruct (CH.select _ _ _) as [c r] eqn:Hsel. cbn [fst snd] in *. subst r.
  apply list_elem_of_fmap in Hin as (conn & -> & Hconn). destruct (pool_serves _ _ _ Hconn) as (id & Hid & Hserve).
  assert (rs_id (RM.info_of now conn) = id) as Hrid by exact (Hreg id conn Hid).
  exists id, conn. split_and!; [by rewrite Hrid|done|done|]. exists c. split; [done|]. intros now'.
  assert (Hfits : cache_fits c (RM.info_of now' <$> l)) by (eapply cache_fits_ids; [apply (info_ids now now')|done]).
  split; [split; [done|done|cbn; by rewrite Hv|exact Hfits]|]. cbn [RM.set_hash rm_consistent_hash].
  destruct (select_ids c c (RM.info_of now <$> l) (RM.info_of now' <$> l) (hex_encode (hv_bytes subnet)))
    as (s1 & s2 & H1 & H2 & H12); [apply info_ids|done|done|done|by rewrite Hv|done|].
  destruct (select_ids (rm_consistent_hash m) c (RM.info_of now <$> l) (RM.info_of now <$> l) (hex_encode (hv_bytes subnet)))
    as (s3 & s4 & H3 & H4 & H34); [done|done|done|done|done|by rewrite Hv|].
  rewrite Hsel in H3. injection H3 as <-. rewrite H1 in H4. injection H4 as ->.
  destruct (CH.select c (RM.info_of now' <$> l) _) as [c2 r2]. cbn in *. subst r2. by rewrite <-H12, <-H34, Hrid.
Qed.

(** Every outcome of routing. *)
Lemma route_outcomes (m : RouterManager) (now : Z) (t : TransferReq) (subnet : SubnetId)
    (Hsn : Tr.resolve_subnet_id t = Ok subnet) (Hm : routable m now subnet) :
  let '(m', r) := RM.route_transfer now t m in
  (∃ c, m' = RM.set_hash c m) ∧
  match r with
  | Ok id =>
      (∃ s, rm_solver_registry m !! id = Some s ∧ RM.serves subnet s = true) ∧
      (∀ p, tr_preferred_solver t = Some p → RM.is_solver_available_for_subnet p subnet m = true → id = p) ∧
      (tr_preferred_solver t = None → ∀ now' t', Tr.resolve_subnet_id t' = Ok subnet → tr_preferred_solver t' = None →
         (RM.route_transfer now' t' m').2 = Ok id)
  | Err e => e = NoSolverAvailable ∧ ∀ id s, rm_solver_registry m !! id = Some s → RM.serves subnet s = false
  | Panic => False
  end.
Proof.
  destruct (rt_shards _ _ _ Hm) as (n & Hn & Hr).
  assert (Hsame : ∃ c, m = RM.set_hash c m) by (exists (rm_consistent_hash m); by destruct m).
  assert (Hcase : (∃ p, tr_preferred_solver t = Some p ∧ RM.is_solver_available_for_subnet p subnet m = true) ∨
    ∀ p, tr_preferred_solver t = Some p → RM.is_solver_available_for_subnet p subnet m = false).
  { destruct (tr_preferred_solver t) as [p|]; [|by right]. destruct (RM.is_solver_available_for_subnet p subnet m) eqn:Hp.
    - left. by exists p.
    - right. by intros p' [= <-]. }
  destruct Hcase as [(p & Hp & Hs)|Hpref].
  { unfold RM.route_transfer. rewrite Hsn, Hp, Hs. split; [done|]. split_and!.
    - unfold RM.is_solver_available_for_subnet in Hs. destruct (rm_solver_registry m !! p) as [s|]; [by exists s|done].
    - by intros p' [= ->].
    - done. }
  rewrite (route_pool now t m subnet n Hsn Hr Hn Hpref). case_bool_decide as Hpool.
  - split; [done|]. split; [done|]. intros id s Hs. apply not_true_is_false. intros Hserve.
    eapply pool_complete; [|exact Hs|exact Hserve|exact Hpool]. destruct (route_ok n subnet zero_hash Hn) as (r & Hroute & _). by rewrite Hr, Hroute.
  - destruct (select_among_spec now m subnet Hm Hpool) as (id & s & Hid & Hs & Hserve & c & Hc & Hlater).
    destruct (RM.select_among now _ _ _) as [m' r]. cbn [fst snd] in *. subst m' r. split; [by exists c|]. split_and!.
    + by exists s.
    + intros p Hp Hs'. by rewrite (Hpref p Hp) in Hs'.
    + intros _ now' t' Hsn' Hp'. rewrite (route_pool now' t' (RM.set_hash c m) subnet n Hsn' Hr Hn) by by rewrite Hp'.
      change (pool (RM.set_hash c m) subnet) with (pool m subnet). rewrite bool_decide_eq_false_2 by done. apply Hlater.
Qed.

(** ** Reachable managers *)

Inductive router_step : RouterManager → RouterManager → Prop :=
| step_register id address capacity ch m : router_step m (RM.register_solver id address capacity ch m)
| step_register_affinity id address capacity ch shard assigned resources permitted m :
    router_step m (RM.register_solver_with_affinity id address capacity ch shard assigned resources permitted m)
| step_unregister id m : router_step m (RM.unregister_solver id m)
| step_load id load m : router_step m (RM.update_solver_load id load m)
| step_status id st m : router_step m (RM.update_solver_status id st m)
| step_done id m : router_step m (RM.decrement_solver_load id m)
| step_route now t m : router_step m (RM.route_transfer now t m).1
| step_send id t m : router_step m (RM.send_to_solver id t m).1.

(** A cached ring has points. *)
Definition ring_filled (c : ConsistentHashStrategy) : Prop := ∀ h r, ch_ring_cache c = Some (h, r) → r ≠ ∅.

Definition well_kept (n : Z) (m : RouterManager) : Prop :=
  registered m ∧ rm_router m = UR.with_shard_count n ∧ ch_virtual_nodes (rm_consistent_hash m) = 150%nat ∧
  ring_filled (rm_consistent_hash m).

Lemma registered_alter f id (reg : gmap string SolverConnection) :
  (∀ s, sc_id (f s) = sc_id s) →
  map_Forall (fun id s => sc_id s = id) reg → map_Forall (fun id s => sc_id s = id) (alter f id reg).
Proof.
  intros Hf Hreg i s. rewrite lookup_alter. case_decide as Hi; [|by apply Hreg]. subst i.
  destruct (reg !! id) as [s'|] eqn:Hs; cbn; [|done]. intros [= <-]. rewrite Hf. by apply Hreg.
Qed.

Lemma select_nodes c l key : ch_virtual_nodes (CH.select c l key).1 = ch_virtual_nodes c.
Proof.
  destruct l as [|a [|b l]]; [done..|]. unfold CH.select, CH.get_or_build_ring.
  destruct (ch_ring_cache c) as [[h r]|]; [destruct (h =? _)|]; cbn [fst snd]; by destruct (CH.find_in_ring _ _).
Qed.

Lemma build_ring_filled n l : n ≠ 0%nat → l ≠ [] → CH.build_ring n l ≠ ∅.
Proof.
  intros Hn Hl He. destruct (owner_exists n l "" Hl Hn) as (i & s & Hi & _). by rewrite He in Hi.
Qed.

Lemma select_filled c l key :
  ch_virtual_nodes c ≠ 0%nat → ring_filled c → ring_filled (CH.select c l key).1 ∧ (l ≠ [] → ∀ e, (CH.select c l key).2 ≠ Err e).
Proof.
  intros Hn Hc. destruct l as [|a [|b l]]; [by split|by split|]. unfold CH.select, CH.get_or_build_ring.
  pose proof (build_ring_filled (ch_virtual_nodes c) (a :: b :: l) Hn ltac:(done)) as Hb.
  assert (Hnew : ring_filled (mkConsistentHash (ch_virtual_nodes c) (Some (CH.solvers_hash (a :: b :: l),
    CH.build_ring (ch_virtual_nodes c) (a :: b :: l))))) by (by intros h r [= _ <-]).
  assert (Hfind : ∀ ring, ring ≠ ∅ → ∃ i, CH.find_in_ring ring (CH.hash_key key) = Some i) by (intros; by apply find_in_ring_total).
  destruct (ch_ring_cache c) as [[h r]|] eqn:Hcache; [destruct (h =? _)|].
  - destruct (Hfind r (Hc h r Hcache)) as [i ->]. split; [done|]. intros _ e. by destruct (_ !! i).
  - destruct (Hfind _ Hb) as [i ->]. split; [done|]. intros _ e. by destruct (_ !! i).
  - destruct (Hfind _ Hb) as [i ->]. split; [done|]. intros _ e. by destruct (_ !! i).
Qed.

Lemma select_member c l key s : (CH.select c l key).2 = Ok s → s ∈ l.
Proof.
  destruct l as [|a [|b l]]; [done|intros [= ->]; by left|]. unfold CH.select.
  destruct (CH.get_or_build_ring _ _) as [c' ring]. destruct (CH.find_in_ring _ _) as [i|]; [|done].
  destruct (_ !! i) as [x|] eqn:Hx; [|done]. intros [= ->]. by eapply list_elem_of_lookup_2.
Qed.

Lemma route_only_cache now t m :
  ch_virtual_nodes (rm_consistent_hash m) ≠ 0%nat → ring_filled (rm_consistent_hash m) →
  ∃ c, (RM.route_transfer now t m).1 = RM.set_hash c m ∧ ch_virtual_nodes c = ch_virtual_nodes (rm_consistent_hash m) ∧ ring_filled c.
Proof.
  intros Hn0 Hf0.
  assert (Hsame : ∃ c, m = RM.set_hash c m ∧ ch_virtual_nodes c = ch_virtual_nodes (rm_consistent_hash m) ∧ ring_filled c)
    by (exists (rm_consistent_hash m); by destruct m).
  assert (Hsel : ∀ l sn, ∃ c, (RM.select_among now l sn m).1 = RM.set_hash c m ∧
    ch_virtual_nodes c = ch_virtual_nodes (rm_consistent_hash m) ∧ ring_filled c).
  { intros l sn. unfold RM.select_among. pose proof (select_nodes (rm_consistent_hash m) (RM.info_of now <$> l)
      (hex_encode (hv_bytes sn))) as Hv. destruct (select_filled (rm_consistent_hash m) (RM.info_of now <$> l)
      (hex_encode (hv_bytes sn)) Hn0 Hf0) as [Hf _]. destruct (CH.select _ _ _) as [c r]. by exists c. }
  unfold RM.route_transfer, RM.fallback. destruct (Tr.resolve_subnet_id t) as [sn|e|]; [|done..].
  destruct (tr_preferred_solver t) as [p|]; [destruct (RM.is_solver_available_for_subnet p sn m); [done|]|];
    (destruct (UR.route _ _) as [r|e|]; [|done..]); (destruct (rm_shard_solvers m !! _) as [ids|];
      [case_bool_decide|]); try apply Hsel; case_bool_decide; try done; apply Hsel.
Qed.

(** In every reachable manager the registry is keyed by the ids. *)
Lemma router_invariant n m : rtc router_step (RM.with_shard_count n) m → well_kept n m.
Proof.
  intros Hsteps. revert m Hsteps. apply (rtc_ind_r (R := router_step) (fun m => well_kept n m) (RM.with_shard_count n)).
  { split_and!; [apply map_Forall_empty|done|done|done]. }
  intros m m' _ Hstep (Hreg & Hr & Hv & Hf). destruct Hstep as [| |id m|id load m|id st m|id m|now t m|id t m].
  - split_and!; [|done..]. by apply map_Forall_insert_2.
  - destruct assigned as [shard0|]; (split_and!; [|done..]; by apply map_Forall_insert_2).
  - unfold RM.unregister_solver.
    destruct (rm_solver_registry m !! id ≫= sc_assigned_shard); (split_and!; [|done..]; by apply map_Forall_delete).
  - split_and!; [|done..]. by apply registered_alter.
  - split_and!; [|done..]. by apply registered_alter.
  - split_and!; [|done..]. by apply registered_alter.
  - destruct (route_only_cache now t m) as (c & -> & Hc & Hfc); [by rewrite Hv|done|]. split_and!; [done|done| |done]. cbn. by rewrite Hc.
  - unfold RM.send_to_solver. destruct (rm_solver_channels m !! id) as [ch|]; [|done]. destruct (sch_open ch); [|done].
    split_and!; [|done..]. by apply registered_alter.
Qed.

(** ** Every reachable manager *)

Lemma chars_length s : length (Subnet.chars s) = String.length s.
Proof. unfold Subnet.chars. induction s as [|c s IH]; simpl; [done|]. by rewrite IH. Qed.

Lemma grammar_no_panic s : Subnet.validate_public_id_grammar s ≠ Panic.
Proof.
  unfold Subnet.validate_public_id_grammar. destruct (Subnet.is_blank s); [done|]. destruct (negb _); [done|].
  destruct ((String.length s <? 3) || (64 <? String.length s))%nat eqn:Hl; [done|].
  destruct (bool_decide _ || bool_decide _); [done|]. destruct (Subnet.chars s) as [|c l] eqn:Hc.
  - apply (f_equal length) in Hc. rewrite chars_length in Hc. cbn [length] in Hc. rewrite Hc in Hl. done.
  - destruct (negb (Subnet.is_alphanumeric c) || _); [done|]. by destruct (negb _).
Qed.

Lemma parse_subnet_no_panic s : Subnet.parse_public_or_hex s ≠ Panic.
Proof.
  unfold Subnet.parse_public_or_hex. destruct (Subnet.is_blank s); [done|]. destruct (_ || _); [done|]. destruct (_ && _).
  - unfold Subnet.from_hex. destruct (hex_decode _) as [b|]; [|done]. by destruct (hash_of_bytes b).
  - pose proof (grammar_no_panic s). by destruct (Subnet.validate_public_id_grammar s).
Qed.

Lemma resolve_total t : Tr.resolve_subnet_id t ≠ Panic.
Proof. unfold Tr.resolve_subnet_id. destruct (tr_subnet_id t); [apply parse_subnet_no_panic|done]. Qed.

(** The cached ring, if it is taken for that of the subnet's candidates, is
    theirs: the key of the cache is a hash of the ids one after the other. *)
Definition ring_current (m : RouterManager) (now : Z) (subnet : SubnetId) : Prop :=
  cache_fits (rm_consistent_hash m) (RM.info_of now <$> pool m subnet).

(** A preferred solver, if any, is not available for the subnet. *)
Definition no_preference (t : TransferReq) (subnet : SubnetId) (m : RouterManager) : Prop :=
  ∀ p, tr_preferred_solver t = Some p → RM.is_solver_available_for_subnet p subnet m = false.

Lemma preference_cases t subnet m :
  (∃ p, tr_preferred_solver t = Some p ∧ RM.is_solver_available_for_subnet p subnet m = true) ∨ no_preference t subnet m.
Proof.
  unfold no_preference. destruct (tr_preferred_solver t) as [p|]; [|by right].
  destruct (RM.is_solver_available_for_subnet p subnet m) eqn:Hp; [left; by exists p|]. right. by intros p' [= <-].
Qed.

Lemma select_fits c l key : cache_fits c l → cache_fits (CH.select c l key).1 l.
Proof.
  intros Hf. destruct l as [|a [|b l]]; [done..|]. unfold CH.select.
  destruct (get_or_build_ring_fits c (a :: b :: l) Hf) as (_ & _ & Hf').
  destruct (CH.get_or_build_ring _ _) as [c' ring]. by destruct (CH.find_in_ring _ _).
Qed.

(** What the choice in a pool gives, whatever the cached ring is. *)
Lemma select_among_outcomes n now m subnet :
  well_kept n m → pool m subnet ≠ [] →
  (∀ e, (RM.select_among now (pool m subnet) subnet m).2 ≠ Err e) ∧
  (∀ id, (RM.select_among now (pool m subnet) subnet m).2 = Ok id →
     ∃ s, rm_solver_registry m !! id = Some s ∧ RM.serves subnet s = true) ∧
  (ring_current m now subnet →
     (RM.select_among now (pool m subnet) subnet m).2 ≠ Panic ∧
     ∀ now', ring_current (RM.select_among now (pool m subnet) subnet m).1 now' subnet).
Proof.
  intros (Hreg & _ & Hv & Hf) Hne. assert (Hn : ch_virtual_nodes (rm_consistent_hash m) ≠ 0%nat) by by rewrite Hv.
  assert (Hl : RM.info_of now <$> pool m subnet ≠ []) by (intros He; by apply fmap_nil_inv in He).
  destruct (select_filled _ (RM.info_of now <$> pool m subnet) (hex_encode (hv_bytes subnet)) Hn Hf) as [_ Herr].
  pose proof (select_member (rm_consistent_hash m) (RM.info_of now <$> pool m subnet) (hex_encode (hv_bytes subnet))) as Hmem.
  pose proof (fun H => select_fits (rm_consistent_hash m) (RM.info_of now <$> pool m subnet) (hex_encode (hv_bytes subnet)) H) as Hfits.
  pose proof (fun H => select_owner (rm_consistent_hash m) (RM.info_of now <$> pool m subnet) (hex_encode (hv_bytes subnet)) H Hl Hn) as Hown.
  unfold RM.select_among. destruct (CH.select _ _ _) as [c r]. cbn [fst snd] in *. split_and!.
  - intros e. destruct r as [s|e'|]; [done|by destruct (Herr Hl e')|done].
  - intros id Hid. destruct r as [s|e'|]; [|done..]. injection Hid as <-.
    specialize (Hmem s eq_refl). apply list_elem_of_fmap in Hmem as (conn & -> & Hconn).
    destruct (pool_serves _ _ _ Hconn) as (id & Hid & Hserve). exists conn. split; [|done].
    by rewrite <-(Hreg id conn Hid) in Hid.
  - intros Hcur. destruct (Hown Hcur) as (s & -> & _). split; [done|]. intros now'.
    eapply cache_fits_ids; [apply (info_ids now now')|]. by apply Hfits.
Qed.

(** The same candidates give the same solver. *)
Lemma route_same n now now' t t' m m' subnet id :
  0 < n → well_kept n m → well_kept n m' →
  Tr.resolve_subnet_id t = Ok subnet → Tr.resolve_subnet_id t' = Ok subnet →
  no_preference t subnet m → no_preference t' subnet m' →
  sc_id <$> pool m' subnet = sc_id <$> pool m subnet →
  ring_current m now subnet → ring_current m' now' subnet →
  (RM.route_transfer now t m).2 = Ok id → (RM.route_transfer now' t' m').2 = Ok id.
Proof.
  intros Hn (Hreg & Hr & Hv & _) (Hreg' & Hr' & Hv' & _) Hsn Hsn' Hp Hp' Heq Hc Hc'.
  rewrite (route_pool now t m subnet n Hsn Hr Hn Hp), (route_pool now' t' m' subnet n Hsn' Hr' Hn Hp').
  case_bool_decide as Hne; [done|]. rewrite bool_decide_eq_false_2
    by (intros He; rewrite He in Heq; symmetry in Heq; by apply fmap_nil_inv in Heq).
  unfold RM.select_among.
  destruct (select_ids (rm_consistent_hash m) (rm_consistent_hash m') (RM.info_of now <$> pool m subnet)
    (RM.info_of now' <$> pool m' subnet) (hex_encode (hv_bytes subnet))) as (s & s' & H1 & H2 & H12).
  - rewrite <-!list_fmap_compose. symmetry. exact Heq.
  - done.
  - done.
  - intros He. by apply fmap_nil_inv in He.
  - by rewrite Hv.
  - by rewrite Hv, Hv'.
  - destruct (CH.select _ _ _) as [c r], (CH.select (rm_consistent_hash m') _ _) as [c' r']. cbn [fst snd] in *.
    subst r r'. by rewrite H12.
Qed.

(** C25: a transfer goes to a solver that serves its subnet.  In every manager
    that the operations of the router reach from a fresh one with at least one
    shard, at every time and for every transfer, routing changes nothing but
    the cached ring.  A subnet that does not resolve is refused as invalid.
    Otherwise a chosen solver is registered, online, below its capacity and
    permits the subnet, and is the preferred one when that one serves the
    subnet; the only error is that no registered solver serves the subnet; a
    panic needs a cached ring that is mistaken for that of the candidates (the
    key of the cache is the hash of their ids one after the other; see
    [RouterWit.stale_ring_panics]).  When the ring is current it stays so, and
    the choice is sticky: after any further operations a transfer of the same
    subnet goes to the same solver, as long as the list of candidates has the
    same ids, the ring is current then too, and neither transfer prefers a
    solver that serves the subnet. *)
Theorem routing_correct (n : Z) (m : RouterManager) (now : Z) (t : TransferReq)
    (Hn : 0 < n) (Hm : rtc router_step (RM.with_shard_count n) m) :
  let '(m', r) := RM.route_transfer now t m in
  (∃ c, m' = RM.set_hash c m) ∧
  match Tr.resolve_subnet_id t with
  | Err e => m' = m ∧ r = Err (RInvalidSubnet e)
  | Panic => False
  | Ok subnet =>
      match r with
      | Ok id =>
          (∃ s, rm_solver_registry m !! id = Some s ∧ RM.serves subnet s = true) ∧
          (∀ p, tr_preferred_solver t = Some p → RM.is_solver_available_for_subnet p subnet m = true → id = p) ∧
          (no_preference t subnet m → ring_current m now subnet →
           ∀ m2 now2 t2, rtc router_step m' m2 → sc_id <$> pool m2 subnet = sc_id <$> pool m subnet →
             Tr.resolve_subnet_id t2 = Ok subnet → no_preference t2 subnet m2 → ring_current m2 now2 subnet →
             (RM.route_transfer now2 t2 m2).2 = Ok id)
      | Err e => e = NoSolverAvailable ∧ ∀ id s, rm_solver_registry m !! id = Some s → RM.serves subnet s = false
      | Panic => ¬ ring_current m now subnet
      end ∧
      (ring_current m now subnet → ∀ now', ring_current m' now' subnet)
  end.
Proof.
  pose proof (router_invariant n m Hm) as Hk. destruct Hk as (Hreg & Hr & Hv & Hf).
  assert (Hk : well_kept n m) by done.
  assert (Hlater : ∀ m2, rtc router_step (RM.route_transfer now t m).1 m2 → well_kept n m2).
  { intros m2 H2. apply router_invariant. etrans; [exact Hm|]. eapply rtc_l; [apply step_route|exact H2]. }
  destruct (route_only_cache now t m) as (c & Hc & _); [by rewrite Hv|done|].
  destruct (Tr.resolve_subnet_id t) as [subnet|e|] eqn:Hsn.
  - pose proof (fun now2 t2 m2 id => route_same n now now2 t t2 m m2 subnet id Hn Hk) as Hsame.
    destruct (preference_cases t subnet m) as [(p & Hp & Hs)|Hnp].
    + unfold RM.route_transfer in *. rewrite Hsn, Hp, Hs in *. cbn [fst snd] in *. split; [by exists c|]. split_and!.
      * unfold RM.is_solver_available_for_subnet in Hs. destruct (rm_solver_registry m !! p) as [s|]; [by exists s|done].
      * by intros p' [= ->].
      * intros Hnp. by rewrite (Hnp p Hp) in Hs.
      * intros Hcur now'. eapply cache_fits_ids; [apply (info_ids now now')|exact Hcur].
    + pose proof (route_pool now t m subnet n Hsn Hr Hn Hnp) as Hroute.
      destruct (RM.route_transfer now t m) as [m' r] eqn:Hrt. cbn [fst snd] in *. split; [by exists c|].
      case_bool_decide as Hpool.
      * injection Hroute as -> ->. split; [|intros Hcur now'; eapply cache_fits_ids; [apply (info_ids now now')|exact Hcur]].
        split; [done|]. intros id s Hid. apply not_true_is_false. intros Hserve.
        eapply pool_complete; [|exact Hid|exact Hserve|exact Hpool].
        destruct (route_ok n subnet zero_hash Hn) as (rr & Hrr & _). by rewrite Hr, Hrr.
      * destruct (select_among_outcomes n now m subnet Hk Hpool) as (Herr & Hok & Hcur).
        rewrite <-Hroute in Herr, Hok, Hcur. cbn [fst snd] in *.
        split; [|intros H; by apply Hcur]. destruct r as [id|e|].
        -- split_and!; [by apply Hok|intros p Hp Hs; by rewrite (Hnp p Hp) in Hs|].
           intros _ Hc1 m2 now2 t2 Hst Hids Hsn2 Hnp2 Hc2. eapply (Hsame now2 t2 m2 id); try done. by apply Hlater.
        -- by destruct (Herr e).
        -- intros H. by destruct (Hcur H).
  - unfold RM.route_transfer. rewrite Hsn. split; [exists (rm_consistent_hash m); by destruct m|done].
  - by destruct (resolve_total t).
Qed.
End Router.

(** ** Examples *)

Module RouterWit.
#[local] Existing Instance toy_blake3.
#[local] Existing Instance hex_lower.

Definition solver (id : string) : RouterSolver := Reg.solver_new id "127.0.0.1" 0.
Definition three : list RouterSolver := [solver "a"; solver "b"; solver "c"].
Definition two : list RouterSolver := [solver "a"; solver "bc"].

(** The ids of both lists read the same one after the other, and the ring of the
    first is used for the second: an index is out of range, and the router
    panics. *)
Lemma stale_ring_panics :
  let c := (CH.select (CH.with_virtual_nodes 4) three "k").1 in
  CH.solvers_hash three = CH.solvers_hash two ∧ ∃ key, (CH.select c two key).2 = Panic.
Proof.
  cbv zeta. split; [vm_compute; reflexivity|].
  exists "c:!"%string. vm_compute. reflexivity.
Qed.

(** A solver that registers again for another shard stays in the first. *)
Definition moved : RouterManager :=
  RM.register_solver_with_affinity "s" "127.0.0.1" 10 (mkChannel true []) None (Some 5) [] []
    (RM.register_solver_with_affinity "s" "127.0.0.1" 10 (mkChannel true []) None (Some 0) [] [] RM.new).

Lemma moved_solver_keeps_shard :
  rm_shard_solvers moved !! 0 = Some ["s"%string] ∧ rm_shard_solvers moved !! 5 = Some ["s"%string] ∧
  (rm_solver_registry moved !! "s"%string ≫= sc_assigned_shard) = Some 5 ∧
  rm_shard_solvers (RM.unregister_solver "s" moved) !! 0 = Some ["s"%string].
Proof. vm_compute. done. Qed.

(** Three solvers; the middle one leaves. *)
Definition key : string := "c:!".
Definition left_two : list RouterSolver := [solver "c"; solver "a"].

(** Solver a serves every subnet, b only one. *)
Definition app : SubnetId := Subnet.from_str_id "app".
Definition manager : RouterManager :=
  RM.register_solver_with_affinity "b" "127.0.0.1" 10 (mkChannel true []) None None [] [app]
    (RM.register_solver "a" "127.0.0.1" 10 (mkChannel true []) (RM.with_shard_count 16)).
Definition request : TransferReq := Tr.new "t1" "alice" "bob" 5.

Lemma manager_reached : rtc router_step (RM.with_shard_count 16) manager.
Proof. eapply rtc_l; [apply step_register|]. eapply rtc_l; [apply step_register_affinity|]. apply rtc_refl. Qed.

Lemma request_routable : routable manager 0 SUBNET_ROOT.
Proof.
  split; [apply (router_invariant 16), manager_reached|exists 16; split; [lia|reflexivity]|discriminate|].
  intros h r Hc. discriminate Hc.
Qed.
End RouterWit.

#[local] Existing Instance toy_blake3.
#[local] Existing Instance hex_lower.

Lemma selection_stable_witness :
  (CH.select (CH.with_virtual_nodes 4) RouterWit.left_two RouterWit.key).2 = Ok (RouterWit.solver "c").
Proof.
  refine (proj2 (selection_stable (CH.with_virtual_nodes 4) (CH.with_virtual_nodes 4) RouterWit.three RouterWit.left_two
    RouterWit.key (RouterWit.solver "c") _ eq_refl _ _ _ _ _) _).
  - discriminate.
  - intros h r Hc. discriminate Hc.
  - intros h r Hc. discriminate Hc.
  - assert (Hall : Forall (fun s => Forall (fun t => s = t ∨ Forall (fun k => k ∉ CH.points 4 (rs_id t)) (CH.points 4 (rs_id s)))
      RouterWit.three) RouterWit.three) by (apply (bool_decide_unpack _); vm_compute; exact I).
    intros s t k Hs Ht Hk Hk'. rewrite list.Forall_forall in Hall. specialize (Hall s Hs).
    rewrite list.Forall_forall in Hall. destruct (Hall t Ht) as [|Hn]; [assumption|].
    rewrite list.Forall_forall in Hn. destruct (Hn k Hk Hk').
  - intros s Hs. unfold RouterWit.left_two, RouterWit.three in *. rewrite !elem_of_cons in *. tauto.
  - vm_compute. reflexivity.
  - apply list_elem_of_here.
Defined.

(** The solver of another subnet is not chosen. *)
Lemma routing_correct_witness :
  (RM.route_transfer 0 RouterWit.request RouterWit.manager).2 = Ok "a"%string ∧
  ∃ s, rm_solver_registry RouterWit.manager !! "a"%string = Some s ∧ RM.serves SUBNET_ROOT s = true.
Proof.
  pose proof (routing_correct 16 RouterWit.manager 0 RouterWit.request eq_refl RouterWit.manager_reached) as Hr.
  assert (Ha : (RM.route_transfer 0 RouterWit.request RouterWit.manager).2 = Ok "a"%string) by (vm_compute; reflexivity).
  split; [exact Ha|]. destruct (RM.route_transfer 0 RouterWit.request RouterWit.manager) as [m' r].
  cbn [snd] in Ha. subst r. exact (proj1 (proj1 (proj2 Hr))).
Defined.
