(* ===== verification/TransferService.v ===== *)
(** * Submission of transfers

    [setu-validator/src/network/transfer_handler.rs] (module [TH]) prepares a
    transfer, routes it and has it executed; [network/tee_executor.rs] (modules
    [RG], [TEx]) sends the task to a solver, directly or through the batch
    collector, releases the reserved coins and submits the executed event.

    The solver is reached over HTTP and bincode, both parameters: [http] is the
    answer to a request.  Where the code waits, [aw_env] is what other tasks do
    meanwhile.  A spawned task is recorded, and runs as a step of its own.  A
    guard that goes out of scope is dropped, also when the code panics. *)

From Stdlib Require Import ZArith Lia.
From stdpp Require Import base gmap sets list sorting strings numbers pretty.
From S2P Require Import Prelude Hash Event Coin StateStore Resource Executor StateManager Reservation Task Stf StateProvider TaskPreparer SolverRouter.
#[local] Open Scope Z_scope.
#[local] Open Scope string_scope.
#[local] Open Scope list_scope.
#[local] Open Scope setu_scope.

(** ** Messages *)

Record ProcessingStep := mkStep { ps_step : string; ps_status : string; ps_details : option string; ps_timestamp : Z }.

Record TransferTracker := mkTracker {
  tk_transfer_id : string;
  tk_status : string;
  tk_solver_id : option string;
  tk_event_id : option string;
  tk_processing_steps : list ProcessingStep;
  tk_created_at : Z
}.

(** [SolverInfo] of [network/types.rs]. *)
Record NetSolver := mkNetSolver {
  ns_solver_id : string;
  ns_address : string;
  ns_port : Z;
  ns_capacity : Z;
  ns_shard_id : option string;
  ns_assigned_shard : option Z;
  ns_resources : list string;
  ns_status : string;
  ns_registered_at : Z
}.

Module NS.
Definition http_url (s : NetSolver) : string := "http://" +:+ ns_address s +:+ ":" +:+ fmt_u64 (ns_port s).
Definition execute_task_url (s : NetSolver) : string := http_url s +:+ "/api/v1/execute-task".
Definition execute_batch_url (s : NetSolver) : string := http_url s +:+ "/api/v1/execute-task-batch".
End NS.

Record ExecuteTaskRequest := mkTaskRequest { xr_solver_task : SolverTask; xr_validator_id : string; xr_request_id : string }.
Record ExecuteBatchRequest := mkBatchRequest { xb_tasks : list ExecuteTaskRequest; xb_batch_id : string }.
Record ExecuteBatchResponse := mkBatchResponse {
  xb_results : list ExecuteTaskResponse;
  xb_all_success : bool;
  xb_success_count : nat;
  xb_failure_count : nat;
  xb_echo_id : string;
  xb_total_us : Z
}.

(** bincode, with the text of its errors. *)
Class Bincode := {
  bin_request : ExecuteTaskRequest → string + bytes;
  bin_response : bytes → string + ExecuteTaskResponse;
  bin_batch_request : ExecuteBatchRequest → string + bytes;
  bin_batch_response : bytes → string + ExecuteBatchResponse
}.

(** The outcome of a request: no connection, a status that is not a success, or
    a body that was read or not. *)
Inductive HttpReply :=
| HttpNetworkError (e : string)
| HttpStatus (code : Z) (text body : string)
| HttpBody (read : string + bytes).

(** [ConsensusValidator::submit_event]. *)
Class ConsensusPort (K : Type) := consensus_submit : Event → K → K * result string EventId.

(** The outcome of a task: the event, the time, the events processed, the gas. *)
Abbreviation Outcome := (TaskEvent * Z * nat * Z)%type.

Record SpawnedTask := mkSpawned {
  sp_transfer_id : string;
  sp_solver_id : string;
  sp_task : SolverTask;
  sp_reservation : option ReservationHandle
}.

(** What the tasks of a validator share.  [vs_manager]: the executor has the
    reservation manager; [vs_batch_tx]: it has a batch channel. *)
Record ValidatorService (K : Type) := mkService {
  vs_reservations : CoinReservationManager;
  vs_manager : bool;
  vs_solver_info : gmap string NetSolver;
  vs_transfer_status : gmap string TransferTracker;
  vs_events : gmap string TaskEvent;
  vs_dag_events : list string;
  vs_consensus : option K;
  vs_forced_failure : option string;
  vs_pending : Z;
  vs_router : RouterManager;
  vs_transfer_counter : Z;
  vs_vlc_counter : Z;
  vs_batch_tx : bool;
  vs_batch_alive : bool;
  vs_batch_support : gmap string bool;
  vs_spawned : list SpawnedTask
}.
Arguments mkService {K}.
Arguments vs_reservations {K}. Arguments vs_manager {K}. Arguments vs_solver_info {K}.
Arguments vs_transfer_status {K}. Arguments vs_events {K}. Arguments vs_dag_events {K}.
Arguments vs_consensus {K}. Arguments vs_forced_failure {K}. Arguments vs_pending {K}.
Arguments vs_router {K}. Arguments vs_transfer_counter {K}. Arguments vs_vlc_counter {K}.
Arguments vs_batch_tx {K}. Arguments vs_batch_alive {K}. Arguments vs_batch_support {K}.
Arguments vs_spawned {K}.

Module VS.
Section VS.
Context {K : Type}.
Implicit Type s : ValidatorService K.

Definition on_reservations (f : CoinReservationManager → CoinReservationManager) s :=
  mkService (f (vs_reservations s)) (vs_manager s) (vs_solver_info s) (vs_transfer_status s) (vs_events s)
    (vs_dag_events s) (vs_consensus s) (vs_forced_failure s) (vs_pending s) (vs_router s) (vs_transfer_counter s)
    (vs_vlc_counter s) (vs_batch_tx s) (vs_batch_alive s) (vs_batch_support s) (vs_spawned s).
Definition on_trackers (f : gmap string TransferTracker → gmap string TransferTracker) s :=
  mkService (vs_reservations s) (vs_manager s) (vs_solver_info s) (f (vs_transfer_status s)) (vs_events s)
    (vs_dag_events s) (vs_consensus s) (vs_forced_failure s) (vs_pending s) (vs_router s) (vs_transfer_counter s)
    (vs_vlc_counter s) (vs_batch_tx s) (vs_batch_alive s) (vs_batch_support s) (vs_spawned s).
Definition store_event (id : string) (e : TaskEvent) s :=
  mkService (vs_reservations s) (vs_manager s) (vs_solver_info s) (vs_transfer_status s) (<[id := e]> (vs_events s))
    (vs_dag_events s ++ [id]) (vs_consensus s) (vs_forced_failure s) (vs_pending s) (vs_router s) (vs_transfer_counter s)
    (vs_vlc_counter s) (vs_batch_tx s) (vs_batch_alive s) (vs_batch_support s) (vs_spawned s).
Definition set_consensus (c : option K) s :=
  mkService (vs_reservations s) (vs_manager s) (vs_solver_info s) (vs_transfer_status s) (vs_events s)
    (vs_dag_events s) c (vs_forced_failure s) (vs_pending s) (vs_router s) (vs_transfer_counter s)
    (vs_vlc_counter s) (vs_batch_tx s) (vs_batch_alive s) (vs_batch_support s) (vs_spawned s).
Definition clear_forced s :=
  mkService (vs_reservations s) (vs_manager s) (vs_solver_info s) (vs_transfer_status s) (vs_events s)
    (vs_dag_events s) (vs_consensus s) None (vs_pending s) (vs_router s) (vs_transfer_counter s)
    (vs_vlc_counter s) (vs_batch_tx s) (vs_batch_alive s) (vs_batch_support s) (vs_spawned s).
(** [fetch_add] and [fetch_sub] wrap. *)
Definition add_pending (d : Z) s :=
  mkService (vs_reservations s) (vs_manager s) (vs_solver_info s) (vs_transfer_status s) (vs_events s)
    (vs_dag_events s) (vs_consensus s) (vs_forced_failure s) (wrap64 (vs_pending s + d)) (vs_router s)
    (vs_transfer_counter s) (vs_vlc_counter s) (vs_batch_tx s) (vs_batch_alive s) (vs_batch_support s) (vs_spawned s).
Definition set_router (r : RouterManager) s :=
  mkService (vs_reservations s) (vs_manager s) (vs_solver_info s) (vs_transfer_status s) (vs_events s)
    (vs_dag_events s) (vs_consensus s) (vs_forced_failure s) (vs_pending s) r (vs_transfer_counter s)
    (vs_vlc_counter s) (vs_batch_tx s) (vs_batch_alive s) (vs_batch_support s) (vs_spawned s).
Definition count_transfer s :=
  mkService (vs_reservations s) (vs_manager s) (vs_solver_info s) (vs_transfer_status s) (vs_events s)
    (vs_dag_events s) (vs_consensus s) (vs_forced_failure s) (vs_pending s) (vs_router s)
    (u64_add (vs_transfer_counter s) 1) (vs_vlc_counter s) (vs_batch_tx s) (vs_batch_alive s) (vs_batch_support s)
    (vs_spawned s).
Definition count_vlc s :=
  mkService (vs_reservations s) (vs_manager s) (vs_solver_info s) (vs_transfer_status s) (vs_events s)
    (vs_dag_events s) (vs_consensus s) (vs_forced_failure s) (vs_pending s) (vs_router s)
    (vs_transfer_counter s) (u64_add (vs_vlc_counter s) 1) (vs_batch_tx s) (vs_batch_alive s) (vs_batch_support s)
    (vs_spawned s).
Definition mark_unsupported (solver : string) s :=
  mkService (vs_reservations s) (vs_manager s) (vs_solver_info s) (vs_transfer_status s) (vs_events s)
    (vs_dag_events s) (vs_consensus s) (vs_forced_failure s) (vs_pending s) (vs_router s) (vs_transfer_counter s)
    (vs_vlc_counter s) (vs_batch_tx s) (vs_batch_alive s) (<[solver := false]> (vs_batch_support s)) (vs_spawned s).
Definition spawn (t : SpawnedTask) s :=
  mkService (vs_reservations s) (vs_manager s) (vs_solver_info s) (vs_transfer_status s) (vs_events s)
    (vs_dag_events s) (vs_consensus s) (vs_forced_failure s) (vs_pending s) (vs_router s) (vs_transfer_counter s)
    (vs_vlc_counter s) (vs_batch_tx s) (vs_batch_alive s) (vs_batch_support s) (vs_spawned s ++ [t]).
End VS.
End VS.

(** ** The guard of reservations *)

Record ReservationGuard := mkGuard { rg_manager : bool; rg_handles : list ReservationHandle; rg_transfer_id : string }.

Module RG.
Section RG.
Context {K : Type}.
Implicit Type s : ValidatorService K.

Definition new_batch (s : ValidatorService K) (handles : list ReservationHandle) (tid : string) : ReservationGuard :=
  mkGuard (vs_manager s) handles tid.
Definition new (s : ValidatorService K) (handle : option ReservationHandle) (tid : string) : ReservationGuard :=
  new_batch s (option_list handle) tid.

(** The manager is taken, and the handles are drained. *)
Definition release (g : ReservationGuard) s : ValidatorService K * ReservationGuard :=
  if rg_manager g then
    (VS.on_reservations (CR.release_batch (rg_handles g)) s, mkGuard false [] (rg_transfer_id g))
  else (s, g).

Definition drop (g : ReservationGuard) s : ValidatorService K := (release g s).1.
End RG.
End RG.

Record BatchEntry := mkBatchEntry {
  be_transfer_id : string;
  be_solver_id : string;
  be_solver_base_url : string;
  be_request : ExecuteTaskRequest;
  be_event : TaskEvent;
  be_reservations : ReservationGuard
}.

(** ** The executor *)

Module TEx.
Section TEx.
Context `{Blake3} `{HexCrate} `{SerdeJson} `{Sha256} `{Bincode} {K : Type} `{ConsensusPort K}.
Implicit Type s : ValidatorService K.

(** The waits of one call: whether the semaphore is open, the interference at
    each wait, the id of the request, the answers and the time. *)
Record Awaits := mkAwaits {
  aw_permit : bool;
  aw_env : nat → ValidatorService K → ValidatorService K;
  aw_request_id : string;
  aw_http : string → bytes → HttpReply;
  aw_now : Z
}.

Definition push_step (st : string) (p : ProcessingStep) (t : TransferTracker) : TransferTracker :=
  mkTracker (tk_transfer_id t) st (tk_solver_id t) (tk_event_id t) (tk_processing_steps t ++ [p]) (tk_created_at t).
Definition set_event_id (id : string) (t : TransferTracker) : TransferTracker :=
  mkTracker (tk_transfer_id t) (tk_status t) (tk_solver_id t) (Some id) (tk_processing_steps t) (tk_created_at t).

Definition update_tracker_success (tid event_id : string) (us : Z) (processed : nat) (now : Z) s : ValidatorService K :=
  let p := mkStep "tee_execution" "completed"
             (Some ("TEE executed in " +:+ fmt_u64 us +:+ "μs, " +:+ Tee.fmt_nat processed +:+ " events processed")) now in
  VS.on_trackers (alter (fun t => push_step "executed" p (set_event_id event_id t)) tid) s.

Definition update_tracker_failed (tid error : string) (now : Z) s : ValidatorService K :=
  VS.on_trackers (alter (push_step "failed" (mkStep "tee_execution" "failed" (Some error) now)) tid) s.

Definition http_error (text body : string) : string := "HTTP " +:+ text +:+ ": " +:+ body.

(** The outcome in an answer; a panic while the event is built leaves the guard
    to its drop. *)
Definition accept (g : ReservationGuard) (resp : ExecuteTaskResponse) (missing suffix : string) (subnet : SubnetId)
    (event : TaskEvent) s : ValidatorService K * ReservationGuard * result string Outcome :=
  if resp_success resp then
    match resp_result resp with
    | Some dto =>
        match TX.executed_event dto (resp_message resp) suffix subnet event with
        | Ok e =>
            let '(s, g) := RG.release g s in
            (s, g, Ok (e, dr_execution_time_us dto, dr_events_processed dto, dr_gas_used dto))
        | Err msg => (s, g, Err msg)
        | Panic => (s, g, Panic)
        end
    | None => (s, g, Err missing)
    end
  else (s, g, Err (resp_message resp)).

Definition interpret (g : ReservationGuard) (subnet : SubnetId) (event : TaskEvent) (reply : HttpReply) s
    : ValidatorService K * ReservationGuard * result string Outcome :=
  match reply with
  | HttpBody (inl e) => (s, g, Err ("Failed to read response bytes: " +:+ e))
  | HttpBody (inr b) =>
      match bin_response b with
      | inr resp => accept g resp "No result in response" "" subnet event s
      | inl e => (s, g, Err ("bincode parse error: " +:+ e))
      end
  | HttpStatus code text body => (s, g, Err (http_error text body))
  | HttpNetworkError e => (s, g, Err ("Network error: " +:+ e))
  end.

Definition execute_solver_direct (a : Awaits) (validator_id tid solver_id : string) (task : SolverTask)
    (handles : list ReservationHandle) s : ValidatorService K * result string Outcome :=
  let g := RG.new_batch s handles tid in
  let s := aw_env a 0 s in
  let '(s, g, r) :=
    if negb (aw_permit a) then (s, g, Err "Service shutting down")
    else
      match vs_solver_info s !! solver_id with
      | None => (s, g, Err ("Solver not found: " +:+ solver_id))
      | Some info =>
          match bin_request (mkTaskRequest task validator_id (aw_request_id a)) with
          | inl e => (s, g, Err ("bincode serialize error: " +:+ e))
          | inr body =>
              interpret g (st_subnet_id task) (st_event task) (aw_http a (NS.execute_task_url info) body)
                (aw_env a 1 s)
          end
      end in
  (RG.drop g s, r).

(** ** Batches *)

(** Sending an entry to the collector: the channel is closed, full for too
    long, or takes the entry. *)
Inductive SendOutcome := SendClosed | SendTimeout | SendDone.

(** [collector] is what becomes of an entry in the channel: the answer on its
    channel, or none when it is dropped unanswered. *)
Definition execute_solver_inline_batch (a : Awaits) (sent : SendOutcome)
    (collector : BatchEntry → ValidatorService K → ValidatorService K * option (result string Outcome))
    (validator_id tid solver_id : string) (task : SolverTask) (handles : list ReservationHandle) s
    : ValidatorService K * result string Outcome :=
  if vs_batch_tx s && vs_batch_alive s then
    match vs_solver_info s !! solver_id with
    | None => (s, Err ("Solver not found: " +:+ solver_id))
    | Some info =>
        let entry :=
          mkBatchEntry tid solver_id (NS.http_url info) (mkTaskRequest task validator_id (aw_request_id a))
            (st_event task) (RG.new_batch s handles tid) in
        let s := aw_env a 0 s in
        match sent with
        | SendClosed => (RG.drop (be_reservations entry) s, Err "Batch channel closed")
        | SendTimeout => (RG.drop (be_reservations entry) s, Err "Batch channel send timeout")
        | SendDone =>
            match collector entry s with
            | (s, Some r) => (s, r)
            | (s, None) => (s, Err "Batch result channel dropped")
            end
        end
    end
  else execute_solver_direct a validator_id tid solver_id task handles s.

Definition execute_solver_inline (a : Awaits) (sent : SendOutcome)
    (collector : BatchEntry → ValidatorService K → ValidatorService K * option (result string Outcome))
    (validator_id tid solver_id : string) (task : SolverTask) (handle : option ReservationHandle) s
    : ValidatorService K * result string Outcome :=
  execute_solver_inline_batch a sent collector validator_id tid solver_id task (option_list handle) s.

(** An entry is answered and dropped; a panic drops it unanswered. *)
Definition answered (x : ValidatorService K * ReservationGuard * result string Outcome)
    : ValidatorService K * option (result string Outcome) :=
  let '(s, g, r) := x in
  (RG.drop g s, match r with Panic => None | _ => Some r end).

Definition execute_single_entry_direct (a : Awaits) (entry : BatchEntry) s
    : ValidatorService K * option (result string Outcome) :=
  let g := be_reservations entry in
  answered
    (match bin_request (be_request entry) with
     | inl e => (s, g, Err ("serialize error: " +:+ e))
     | inr body =>
         let s := aw_env a 0 s in
         match aw_http a (be_solver_base_url entry +:+ "/api/v1/execute-task") body with
         | HttpBody read =>
             match bin_response (match read with inr b => b | inl _ => [] end) with
             | inr resp =>
                 accept g resp "No result in response" " (fallback-single)"
                   (st_subnet_id (xr_solver_task (be_request entry))) (be_event entry) s
             | inl e => (s, g, Err ("bincode parse error: " +:+ e))
             end
         | HttpStatus code text body => (s, g, Err (http_error text body))
         | HttpNetworkError e => (s, g, Err ("Network error: " +:+ e))
         end
     end).

(** The loop that answers the entries one after the other, with the answer each
    is given; [None] is an entry whose channel is dropped unanswered. *)
Fixpoint each (f : nat → BatchEntry → ValidatorService K → ValidatorService K * option (result string Outcome))
    (i : nat) (entries : list BatchEntry) s : ValidatorService K * list (option (result string Outcome)) :=
  match entries with
  | [] => (s, [])
  | e :: rest =>
      let '(s, r) := f i e s in
      let '(s, rs) := each f (S i) rest s in
      (s, r :: rs)
  end.

Definition refuse_entry (msg : string) (_ : nat) (e : BatchEntry) s
    : ValidatorService K * option (result string Outcome) :=
  answered (s, be_reservations e, Err msg).

(** A panic at an entry unwinds the loop: the rest is dropped unanswered. *)
Fixpoint scatter (resp : ExecuteBatchResponse) (i : nat) (entries : list BatchEntry) s
    : ValidatorService K * list (option (result string Outcome)) :=
  match entries with
  | [] => (s, [])
  | e :: rest =>
      let g := be_reservations e in
      let x :=
        match xb_results resp !! i with
        | Some r =>
            accept g r "No result in batch response" " (batch)"
              (st_subnet_id (xr_solver_task (be_request e))) (be_event e) s
        | None => (s, g, Err ("Missing result at index " +:+ Tee.fmt_nat i))
        end in
      match x with
      | (s, g, Panic) =>
          (foldl (fun s e => RG.drop (be_reservations e) s) (RG.drop g s) rest, None :: ((fun _ => None) <$> rest))
      | _ =>
          let '(s, r) := answered x in
          let '(s, rs) := scatter resp (S i) rest s in
          (s, r :: rs)
      end
  end.

Definition scatter_batch_results (entries : list BatchEntry) (resp : ExecuteBatchResponse) s
    : ValidatorService K * list (option (result string Outcome)) :=
  scatter resp 0 entries s.

(** The task of the entry at an index ends, and its answer is noted. *)
Definition finish_task (f : nat → BatchEntry → ValidatorService K → ValidatorService K * option (result string Outcome))
    (entries : list BatchEntry) (x : ValidatorService K * list (option (result string Outcome))) (i : nat)
    : ValidatorService K * list (option (result string Outcome)) :=
  match entries !! i with
  | Some e => let '(s, r) := f i e x.1 in (s, <[i := r]> x.2)
  | None => x
  end.

(** One task per entry.  A task touches the service only after its own wait, so
    that the tasks run side by side end one after the other in some [order] of
    the indices. *)
Definition spawn_each (f : nat → BatchEntry → ValidatorService K → ValidatorService K * option (result string Outcome))
    (order : list nat) (entries : list BatchEntry) s : ValidatorService K * list (option (result string Outcome)) :=
  foldl (finish_task f entries) (s, (fun _ => None) <$> entries) order.

(** [singles]: the waits of the single requests that a solver without batches
    is sent, and [order] the order in which they end.  The indexing of an empty
    group panics before anything is done. *)
Definition execute_batch_group (a : Awaits) (singles : nat → Awaits) (order : list nat) (solver_id : string)
    (entries : list BatchEntry) s : ValidatorService K * list (option (result string Outcome)) :=
  match entries with
  | [] => (s, [])
  | first :: _ =>
      let url := be_solver_base_url first +:+ "/api/v1/execute-task-batch" in
      let s := aw_env a 0 s in
      if negb (aw_permit a) then each (refuse_entry "Service shutting down") 0 entries s
      else
        match bin_batch_request (mkBatchRequest (be_request <$> entries) (aw_request_id a)) with
        | inl e => each (refuse_entry ("batch serialize error: " +:+ e)) 0 entries s
        | inr body =>
            let s := aw_env a 1 s in
            match aw_http a url body with
            | HttpBody (inl e) => each (refuse_entry ("Failed to read batch response: " +:+ e)) 0 entries s
            | HttpBody (inr b) =>
                match bin_batch_response b with
                | inr resp => scatter_batch_results entries resp s
                | inl e => each (refuse_entry ("batch bincode parse error: " +:+ e)) 0 entries s
                end
            | HttpStatus code text rbody =>
                if (code =? 404)%Z || (code =? 405)%Z then
                  spawn_each (fun i => execute_single_entry_direct (singles i)) order entries
                    (VS.mark_unsupported solver_id s)
                else each (refuse_entry ("Batch HTTP " +:+ text +:+ ": " +:+ rbody)) 0 entries s
            | HttpNetworkError e => each (refuse_entry ("Batch network error: " +:+ e)) 0 entries s
            end
        end
  end.

(** The entries of a turn of the collector, by solver, and those of solvers
    without batches. *)
Definition group_entry s (acc : gmap string (list BatchEntry) * list BatchEntry) (e : BatchEntry)
    : gmap string (list BatchEntry) * list BatchEntry :=
  if default true (vs_batch_support s !! be_solver_id e)
  then (<[be_solver_id e := default [] (acc.1 !! be_solver_id e) ++ [e]]> acc.1, acc.2)
  else (acc.1, acc.2 ++ [e]).

Definition group_entries s (pending : list BatchEntry) : gmap string (list BatchEntry) * list BatchEntry :=
  foldl (group_entry s) (∅, []) pending.

(** What is in the channel when the service stops is refused. *)
Definition drain (entries : list BatchEntry) s : ValidatorService K * list (option (result string Outcome)) :=
  each (refuse_entry "Service shutting down") 0 entries s.

(** ** Submission of executed events *)

Definition submit_executed_event (a : Awaits) (tid : string) (event : TaskEvent) (us : Z) (processed : nat) s
    : ValidatorService K * result string EventId :=
  let event_id := TE.id event in
  match vs_forced_failure s with
  | Some message => (update_tracker_failed tid message (aw_now a) (VS.clear_forced s), Err message)
  | None =>
      let accepted s :=
        (update_tracker_success tid event_id us processed (aw_now a) (VS.store_event event_id event s), Ok event_id) in
      match vs_consensus s with
      | None => accepted s
      | Some k =>
          let '(k', r) := consensus_submit (te_event event) k in
          let s := aw_env a 2 (VS.set_consensus (Some k') s) in
          match r with
          | Ok _ => accepted s
          | Err e =>
              let message := "Consensus submission failed: " +:+ e in
              (update_tracker_failed tid message (aw_now a) s, Err message)
          | Panic => (s, Panic)
          end
      end
  end.

(** The background task of [spawn_post_execution]. *)
Definition post_execution (a : Awaits) (tid : string) (event : TaskEvent) (us : Z) (processed : nat) s
    : ValidatorService K :=
  let s := aw_env a 3 (VS.add_pending 1 s) in
  match submit_executed_event a tid event us processed s with
  | (s, Panic) => s
  | (s, _) => VS.add_pending (-1) s
  end.

Definition spawn_tee_task_with_reservation (tid solver_id : string) (task : SolverTask)
    (reservation : option ReservationHandle) s : ValidatorService K :=
  VS.spawn (mkSpawned tid solver_id task reservation) s.
Definition spawn_tee_task (tid solver_id : string) (task : SolverTask) s : ValidatorService K :=
  spawn_tee_task_with_reservation tid solver_id task None s.

(** A spawned task.  After an answer that could be used the coins are released
    before the event is submitted; the release at the end is for the other
    answers. *)
Definition execute_tee_task_internal (a : Awaits) (validator_id : string) (t : SpawnedTask) s : ValidatorService K :=
  let tid := sp_transfer_id t in
  let task := sp_task t in
  let g := RG.new s (sp_reservation t) tid in
  let s := aw_env a 0 s in
  let failed g msg s := RG.drop g (VS.add_pending (-1) (update_tracker_failed tid msg (aw_now a) s)) in
  let settle g s := VS.add_pending (-1) (RG.drop g s) in
  if negb (aw_permit a) then RG.drop g (update_tracker_failed tid "Service shutting down" (aw_now a) s)
  else
    let s := VS.add_pending 1 s in
    match vs_solver_info s !! sp_solver_id t with
    | None => failed g ("Solver not found: " +:+ sp_solver_id t) s
    | Some info =>
        match bin_request (mkTaskRequest task validator_id (aw_request_id a)) with
        | inl e => failed g ("bincode serialize error: " +:+ e) s
        | inr body =>
            let s := aw_env a 1 s in
            match aw_http a (NS.execute_task_url info) body with
            | HttpBody (inl e) => failed g ("Failed to read response bytes: " +:+ e) s
            | HttpBody (inr b) =>
                match bin_response b with
                | inl e => settle g (update_tracker_failed tid ("bincode parse error: " +:+ e) (aw_now a) s)
                | inr resp =>
                    match accept g resp "No result in response" "" (st_subnet_id task) (st_event task) s with
                    | (s, g, Ok (e, us, processed, _)) =>
                        match submit_executed_event a tid e us processed s with
                        | (s, Panic) => RG.drop g s
                        | (s, _) => settle g s
                        end
                    | (s, g, Err msg) => settle g (update_tracker_failed tid msg (aw_now a) s)
                    | (s, g, Panic) => RG.drop g s
                    end
                end
            | HttpStatus code text rbody =>
                settle g (update_tracker_failed tid (http_error text rbody) (aw_now a) s)
            | HttpNetworkError e => settle g (update_tracker_failed tid ("Network error: " +:+ e) (aw_now a) s)
            end
        end
    end.
End TEx.
End TEx.

(** ** The handler *)

Record SubmitTransferRequest := mkSubmit {
  sq_from : string;
  sq_to : string;
  sq_amount : Z;
  sq_transfer_type : string;
  sq_preferred_solver : option string;
  sq_shard_id : option string;
  sq_subnet_id : option string;
  sq_resources : list string;
  sq_client_nonce : option string;
  sq_chain_id : option string;
  sq_authorization : option TransferAuthorization
}.

Record SubmitTransferResponse := mkSubmitResponse {
  sp_success : bool;
  sp_message : string;
  sp_transfer : option string;
  sp_event_id : option string;
  sp_solver : option string;
  sp_steps : list ProcessingStep
}.

Record GetTransferStatusResponse := mkStatusResponse {
  gs_found : bool;
  gs_transfer_id : string;
  gs_status : option string;
  gs_solver_id : option string;
  gs_event_id : option string;
  gs_steps : list ProcessingStep
}.

Record BatchTransferResult := mkTransferResult {
  br_index : nat;
  br_success : bool;
  br_transfer_id : option string;
  br_solver_id : option string;
  br_error : option string
}.

Record SubmitTransfersBatchResponse := mkBatchSubmit {
  sb_success : bool;
  sb_message : string;
  sb_submitted : nat;
  sb_failed : nat;
  sb_results : list BatchTransferResult;
  sb_stats : nat * nat * nat * nat
}.

(** The texts of errors. *)
Definition show_prepare_error (e : TaskPrepareError) : string :=
  match e with
  | TInsufficientBalance r a => "Insufficient balance: required " +:+ fmt_u64 r +:+ ", available " +:+ fmt_u64 a
  | NoCoinsFound msg => "No coins found for address " +:+ msg
  | TObjectNotFound id => "Object not found: " +:+ id
  | EventCreationFailed msg => "Failed to create event: " +:+ msg
  | MerkleProofNotAvailable id => "Merkle proof not available for object " +:+ id
  | AllCoinsReserved sender n => "All " +:+ Tee.fmt_nat n +:+ " coins for sender " +:+ sender +:+ " are currently reserved"
  | TInvalidInput msg => "Invalid input: " +:+ msg
  end.

Definition show_subnet_error (e : SubnetIdParseError) : string :=
  match e with
  | EmptySubnetId => "subnet id must not be empty"
  | InvalidHex msg => "invalid subnet hex id: " +:+ msg
  | InvalidGrammar msg => "invalid subnet public id: " +:+ msg
  end.

Definition show_router_error (e : RouterError) : string :=
  match e with
  | NoSolverAvailable => "No solver available"
  | RSolverNotFound id => "Solver not found: " +:+ id
  | SendFailed msg => "Failed to send transfer: " +:+ msg
  | RoutingFailed msg => "Routing failed: " +:+ msg
  | RInvalidSubnet e => "Invalid subnet id: " +:+ show_subnet_error e
  end.

Module TH.
Section TH.
Context `{Blake3} `{HexCrate} `{SerdeJson} `{Sha256} `{Bincode} `{ProofBcs} {K : Type} `{ConsensusPort K}.
Implicit Type s : ValidatorService K.

(** The setters of [Transfer] that both entry points chain. *)
Definition with_routing (resources : list string) (power : Z) (preferred shard subnet : option string)
    (t : TransferReq) : TransferReq :=
  mkTransfer (tr_id t) (tr_from t) (tr_to t) (tr_amount t) SetuTransfer resources power preferred shard subnet
    (tr_assigned_vlc t) (tr_authorization t).

Definition resources_of (r : SubmitTransferRequest) : list string :=
  match sq_resources r with
  | [] => ["account:" +:+ sq_from r; "account:" +:+ sq_to r]
  | l => l
  end.

Definition base_transfer (tid : string) (vlc : AssignedVlc) (r : SubmitTransferRequest) : TransferReq :=
  Tr.with_assigned_vlc vlc
    (with_routing (resources_of r) 10 (sq_preferred_solver r) (sq_shard_id r) (sq_subnet_id r)
       (Tr.new tid (sq_from r) (sq_to r) (sq_amount r))).

Definition transfer_id (now counter : Z) : string := "tx-" +:+ fmt_u64 now +:+ "-" +:+ fmt_u64 counter.

Definition fail_transfer (tid message : string) (steps : list ProcessingStep) (now : Z) s
    : ValidatorService K * SubmitTransferResponse :=
  let steps := steps ++ [mkStep "error" "failed" (Some message) now] in
  (VS.on_trackers <[tid := mkTracker tid "failed" None None steps now]> s,
   mkSubmitResponse false message (Some tid) None None steps).

(** The first three steps are recorded whatever the request. *)
Definition first_steps (tid : string) (vlc_time now : Z) : list ProcessingStep :=
  [mkStep "receive" "completed" (Some ("Transfer " +:+ tid +:+ " received")) now;
   mkStep "vlc_assign" "completed" (Some ("VLC time: " +:+ fmt_u64 vlc_time)) now;
   mkStep "dag_resolve" "completed" (Some "No parent conflicts") now].

Section Submit.
Context {P : Type} `{StateProvider P}.
(** The clock in seconds, milliseconds and nanoseconds, and the turns of the
    reservations. *)
Context (now now_ms nanos : Z) (turns : nat → CR.Turn).

Definition submit_transfer (a : TEx.Awaits (K := K)) (sent : TEx.SendOutcome)
    (collector : BatchEntry → ValidatorService K → ValidatorService K * option (result string Outcome))
    (validator_id : string) (tp : TaskPreparer P) (vlc_time : Z) (request : SubmitTransferRequest) s
    : ValidatorService K * result string SubmitTransferResponse :=
  let tid := transfer_id now (vs_transfer_counter s) in
  let s := VS.count_transfer s in
  let steps := first_steps tid vlc_time now in
  let transfer := base_transfer tid (mkAssignedVlc vlc_time now_ms validator_id) request in
  let transfer :=
    match sq_authorization request with Some au => Tr.with_authorization au transfer | None => transfer end in
  let fails message steps s := let '(s, r) := fail_transfer tid message steps now s in (s, Ok r) in
  match Tr.resolve_subnet_id transfer with
  | Panic => (s, Panic)
  | Err e => fails ("Invalid subnet_id: " +:+ show_subnet_error e) steps s
  | Ok subnet =>
      let '(m, prepared) := TP.prepare_transfer_task_with_reservation now_ms nanos turns tp transfer subnet (vs_reservations s) in
      let s := VS.on_reservations (fun _ => m) s in
      match prepared with
      | Panic => (s, Panic)
      | Err e => fails ("Task preparation failed: " +:+ show_prepare_error e) steps s
      | Ok (task, handles) =>
          let steps := steps ++
            [mkStep "prepare_task" "completed"
               (Some ("SolverTask prepared with reservation: "
                        +:+ Tee.fmt_nat (length (ri_input_objects (st_resolved_inputs task))) +:+ " inputs, "
                        +:+ Tee.fmt_nat (length (st_read_set task)) +:+ " read_set, "
                        +:+ Tee.fmt_nat (length handles) +:+ " coins reserved")) now] in
          let '(r, routed) := RM.route_transfer nanos transfer (vs_router s) in
          let s := VS.set_router r s in
          match routed with
          | Panic => (s, Panic)
          | Err e =>
              fails ("No solver available: " +:+ show_router_error e) steps
                (VS.on_reservations (CR.release_batch handles) s)
          | Ok solver =>
              let steps := steps ++ [mkStep "route" "completed" (Some ("Routed to: " +:+ solver)) now] in
              let s := VS.on_trackers
                <[tid := mkTracker tid "pending_tee_execution" (Some solver) None steps now]> s in
              match TEx.execute_solver_inline_batch a sent collector validator_id tid solver task handles s with
              | (s, Panic) => (s, Panic)
              | (s, Err e) =>
                  (VS.on_trackers
                     (alter (TEx.push_step "failed" (mkStep "tee_execution" "failed" (Some e) now)) tid) s,
                   Ok (mkSubmitResponse false ("TEE execution failed: " +:+ e) (Some tid) None (Some solver) steps))
              | (s, Ok (event, us, processed, _)) =>
                  match TEx.submit_executed_event a tid event us processed s with
                  | (s, Panic) => (s, Panic)
                  | (s, Err e) =>
                      (s, Ok (mkSubmitResponse false e (Some tid) None (Some solver)
                                (steps ++ [mkStep "consensus_submit" "failed" (Some e) now])))
                  | (s, Ok id) =>
                      (s, Ok (mkSubmitResponse true
                                "Transfer executed and accepted into consensus DAG; finality pending"
                                (Some tid) (Some id) (Some solver) steps))
                  end
              end
          end
      end
  end.
End Submit.

Definition get_transfer_status (tid : string) s : GetTransferStatusResponse :=
  match vs_transfer_status s !! tid with
  | Some t =>
      mkStatusResponse true (tk_transfer_id t) (Some (tk_status t)) (tk_solver_id t) (tk_event_id t)
        (tk_processing_steps t)
  | None => mkStatusResponse false tid None None None []
  end.

(** ** Batches of transfers *)

Definition MAX_BATCH_SIZE : nat := 200.

Section Batch.
Context `{StateBcs} {St : Type}.
Context (now now_ms nanos : Z) (turns : nat → CR.Turn).

(** The requests become transfers, each with an id and a logical time. *)
Fixpoint make_transfers (validator_id : string) (reqs : list SubmitTransferRequest) s
    : ValidatorService K * list TransferReq :=
  match reqs with
  | [] => (s, [])
  | r :: rest =>
      let tid := transfer_id now (vs_transfer_counter s) in
      let vlc := mkAssignedVlc (vs_vlc_counter s) now_ms validator_id in
      let '(s, ts) := make_transfers validator_id rest (VS.count_vlc (VS.count_transfer s)) in
      (s, base_transfer tid vlc r :: ts)
  end.

Record BatchAcc := mkBatchAcc {
  ba_results : list BatchTransferResult;
  ba_submitted : nat;
  ba_failed : nat;
  ba_success : gset nat
}.

Definition batch_tracker (tid status : string) (solver : option string) (step st : string) (details : string)
    : TransferTracker :=
  mkTracker tid status solver None [mkStep step st (Some details) now] now.

Definition failure (idx : nat) (tid error : string) (step details : string) (acc : BatchAcc) (success : gset nat) s
    : ValidatorService K * BatchAcc :=
  (VS.on_trackers <[tid := batch_tracker tid "failed" None step "failed" details]> s,
   mkBatchAcc (ba_results acc ++ [mkTransferResult idx false (Some tid) None (Some error)])
     (ba_submitted acc) (S (ba_failed acc)) success).

(** [position] of an id in the list of ids. *)
Definition position (ids : list string) (tid : string) : option nat := fst <$> list_find (eq tid) ids.

(** One prepared task: it is routed and spawned. *)
Definition place_task (ts : list TransferReq) (st : ValidatorService K * result string BatchAcc)
    (it : SolverTask * option ReservationHandle) : ValidatorService K * result string BatchAcc :=
  match st with
  | (s, Ok acc) =>
      let '(task, reservation) := it in
      let tid := match te_transfer (st_event task) with Some t => tr_id t | None => "" end in
      match position (tr_id <$> ts) tid with
      | None => (s, Ok acc)
      | Some idx =>
          let success := {[idx]} ∪ ba_success acc in
          match ts !! idx with
          | None => (s, Panic)
          | Some t =>
              let '(r, routed) := RM.route_transfer nanos t (vs_router s) in
              let s := VS.set_router r s in
              match routed with
              | Panic => (s, Panic)
              | Ok solver =>
                  let s := VS.on_trackers
                    <[tid := batch_tracker tid "pending_tee_execution" (Some solver) "batch_submit" "completed"
                               ("Batch index: " +:+ Tee.fmt_nat idx)]> s in
                  (TEx.spawn_tee_task_with_reservation tid solver task reservation s,
                   Ok (mkBatchAcc (ba_results acc ++ [mkTransferResult idx true (Some tid) (Some solver) None])
                         (S (ba_submitted acc)) (ba_failed acc) success))
              | Err e =>
                  let s := match reservation with
                           | Some h => VS.on_reservations (CR.release h) s
                           | None => s
                           end in
                  let '(s, acc) :=
                    failure idx tid ("Routing failed: " +:+ show_router_error e) "route" (show_router_error e) acc success s in
                  (s, Ok acc)
              end
          end
      end
  | _ => st
  end.

(** One transfer that could not be prepared. *)
Definition place_failure (ids : list string) (st : ValidatorService K * BatchAcc) (it : TransferReq * TaskPrepareError)
    : ValidatorService K * BatchAcc :=
  let '(s, acc) := st in
  match position ids (tr_id it.1) with
  | None => (s, acc)
  | Some idx =>
      if bool_decide (idx ∈ ba_success acc) then (s, acc)
      else
        let e := show_prepare_error it.2 in
        failure idx (tr_id it.1) e "prepare_task" e acc (ba_success acc) s
  end.

Definition by_index (a b : BatchTransferResult) : bool := (br_index a <=? br_index b)%nat.

Definition submit_transfers_batch (validator_id : string) (bp : TaskPreparer (MerkleStateProvider St))
    (reqs : list SubmitTransferRequest) s : ValidatorService K * result string SubmitTransfersBatchResponse :=
  let n := length reqs in
  if (MAX_BATCH_SIZE <? n)%nat then
    (s, Ok (mkBatchSubmit false ("Batch size " +:+ Tee.fmt_nat n +:+ " exceeds maximum allowed ("
                                   +:+ Tee.fmt_nat MAX_BATCH_SIZE +:+ ")") 0 n [] (0, 0, 0, 0)%nat))
  else if (n =? 0)%nat then (s, Ok (mkBatchSubmit true "Empty batch" 0 0 [] (0, 0, 0, 0)%nat))
  else
    let '(s, ts) := make_transfers validator_id reqs s in
    let '(m, br) := BTP.prepare_transfers_batch_with_reservation now_ms nanos turns bp ts (vs_reservations s) in
    let s := VS.on_reservations (fun _ => m) s in
    let items := imap (fun i t => (t, mjoin (bp_reservations br !! i))) (bp_tasks br) in
    match foldl (place_task ts) (s, Ok (mkBatchAcc [] 0 0 ∅)) items with
    | (s, Ok acc) =>
        let '(s, acc) := foldl (place_failure (tr_id <$> ts)) (s, acc) (bp_failures br) in
        let st := bp_stats br in
        (s, Ok (mkBatchSubmit (0 <? ba_submitted acc)%nat
                  ("Batch processed: " +:+ Tee.fmt_nat (ba_submitted acc) +:+ " submitted, "
                     +:+ Tee.fmt_nat (ba_failed acc) +:+ " failed")
                  (ba_submitted acc) (ba_failed acc) (stable_sort by_index (ba_results acc))
                  (total_transfers st, unique_sender_subnet_pairs st, coins_selected st, same_sender_conflicts st)))
    | (s, Err e) => (s, Err e)
    | (s, Panic) => (s, Panic)
    end.
End Batch.
End TH.
End TH.
