(* ===== verification/ServiceProps.v ===== *)
(** * Theorems on the submission of transfers

    Whatever a solver, the network or consensus answers, the coins that were
    reserved for a transfer are released, its tracker tells what became of it,
    and an event is stored only when consensus took it.  The code between a
    reservation and its release runs among other tasks; the theorems ask of
    those only that they leave the reservations and the tracker of this transfer
    alone ([bystander]). *)

From Stdlib Require Import ZArith Lia.
From stdpp Require Import base gmap sets list sorting strings numbers pretty.
From S2P Require Import Prelude Hash Event Coin StateStore Resource Executor ExecutorProps StateManager Reservation Task Stf StateProvider TaskPreparer SelectProps PrepareProps SolverRouter RouterProps TransferService.
#[local] Open Scope Z_scope.

(** ** Reservations of interest *)

Section Ours.
Variable Q : ObjectId → Reservation → Prop.

Definition none_left (m : CoinReservationManager) : Prop := ∀ c r, reservations m !! c = Some r → ¬ Q c r.

(** Those in the manager are those of the handles. *)
Definition covered (m : CoinReservationManager) (hs : list ReservationHandle) : Prop :=
  ∀ c r, reservations m !! c = Some r → Q c r → mkHandle (rv_id r) c ∈ hs.

Abbreviation proper hs := (Forall (fun h => reservation_id h ≠ uuid_nil) hs).

Lemma covered_nil m : covered m [] ↔ none_left m.
Proof.
  split; intros Hc c r Hr Hq; [by eapply not_elem_of_nil, Hc|by destruct (Hc c r Hr)].
Qed.

Lemma release_enabled_batch hs m : rv_enabled (CR.release_batch hs m) = rv_enabled m.
Proof. revert m. induction hs as [|h hs IH]; intros m; [done|].
  change (CR.release_batch (h :: hs) m) with (CR.release_batch hs (CR.release h m)). by rewrite IH, release_enabled.
Qed.

Lemma release_covered hs hs' m :
  rv_enabled m = true → proper hs → covered m (hs ++ hs') → covered (CR.release_batch hs m) hs'.
Proof.
  intros He Hp Hc c r Hr Hq. destruct (release_batch_lookup hs m c r He Hp Hr) as [Hr' Hn].
  by destruct (proj1 (elem_of_app _ _ _) (Hc c r Hr' Hq)).
Qed.

Context {K : Type}.
Implicit Type s : ValidatorService K.

(** Other tasks do not touch what is ours. *)
Record bystander (tid : string) (f : ValidatorService K → ValidatorService K) : Prop := mkBystander {
  by_enabled : ∀ s, rv_enabled (vs_reservations (f s)) = rv_enabled (vs_reservations s);
  by_ours : ∀ s c r, reservations (vs_reservations (f s)) !! c = Some r → Q c r → reservations (vs_reservations s) !! c = Some r;
  by_tracker : ∀ s, vs_transfer_status (f s) !! tid = vs_transfer_status s !! tid
}.

(** Only the handles [hs'] are left, and the tracker is as before. *)
Record settled_from (tid : string) (hs' : list ReservationHandle) (s s' : ValidatorService K) : Prop := mkSettled {
  sf_enabled : rv_enabled (vs_reservations s') = true;
  sf_covered : covered (vs_reservations s') hs';
  sf_tracker : vs_transfer_status s' !! tid = vs_transfer_status s !! tid
}.

Lemma bystander_covered tid f s hs :
  bystander tid f → covered (vs_reservations s) hs → covered (vs_reservations (f s)) hs.
Proof. intros [_ Ho _] Hc c r Hr Hq. by apply Hc; [apply Ho|]. Qed.

Lemma drop_settles tid g hs' s :
  rg_manager g = true → proper (rg_handles g) → rv_enabled (vs_reservations s) = true →
  covered (vs_reservations s) (rg_handles g ++ hs') → settled_from tid hs' s (RG.drop g s).
Proof.
  intros Hm Hp He Hc. unfold RG.drop, RG.release. rewrite Hm. split; cbn; [by rewrite release_enabled_batch| |done].
  by apply release_covered.
Qed.
End Ours.

(** A released guard has nothing left to drop. *)
Lemma drop_after_release {K} (g : ReservationGuard) (s : ValidatorService K) :
  RG.drop (RG.release g s).2 (RG.release g s).1 = RG.drop g s.
Proof. unfold RG.drop, RG.release. by destruct (rg_manager g) eqn:Hm; cbn; rewrite ?Hm. Qed.

(** ** The executor *)

Section Executor.
Context `{B : Blake3} `{X : HexCrate} `{J : SerdeJson} `{S2 : Sha256} `{BC : Bincode} {K : Type} `{CP : ConsensusPort K}.
Implicit Type s : ValidatorService K.

Lemma accept_drop g resp missing suffix sn e s :
  let '(s', g', _) := TEx.accept g resp missing suffix sn e s in RG.drop g' s' = RG.drop g s.
Proof.
  unfold TEx.accept. destruct (resp_success resp); [|done]. destruct (resp_result resp) as [dto|]; [|done].
  destruct (TX.executed_event _ _ _ _ _); [|done..]. pose proof (drop_after_release g s) as Hd.
  by destruct (RG.release g s).
Qed.

Lemma interpret_drop g sn e reply s :
  let '(s', g', _) := TEx.interpret g sn e reply s in RG.drop g' s' = RG.drop g s.
Proof.
  destruct reply as [err|code text body|[err|b]]; [done..|]. cbn. destruct (bin_response b) as [err|resp]; [done|]. apply accept_drop.
Qed.

(** The direct path ends by dropping the guard it made. *)
Lemma direct_drops a v tid sid task hs s :
  ∃ s1, (s1 = TEx.aw_env a 0 s ∨ s1 = TEx.aw_env a 1 (TEx.aw_env a 0 s)) ∧
    (TEx.execute_solver_direct a v tid sid task hs s).1 = RG.drop (RG.new_batch s hs tid) s1.
Proof.
  unfold TEx.execute_solver_direct. destruct (negb _); [by eexists; split; [left|]|].
  destruct (vs_solver_info _ !! sid) as [info|]; [|by eexists; split; [left|]].
  destruct (bin_request _) as [err|body]; [by eexists; split; [left|]|].
  exists (TEx.aw_env a 1 (TEx.aw_env a 0 s)). split; [by right|].
  pose proof (interpret_drop (RG.new_batch s hs tid) (st_subnet_id task) (st_event task)
    (TEx.aw_http a (NS.execute_task_url info) body) (TEx.aw_env a 1 (TEx.aw_env a 0 s))) as Hd.
  by destruct (TEx.interpret _ _ _ _ _) as [[s2 g2] r].
Qed.

Lemma answered_drop x : (TEx.answered (K := K) x).1 = RG.drop x.1.2 x.1.1.
Proof. by destruct x as [[s g] r]. Qed.

Lemma single_drops a e s :
  ∃ s1, (s1 = s ∨ s1 = TEx.aw_env a 0 s) ∧ (TEx.execute_single_entry_direct a e s).1 = RG.drop (be_reservations e) s1.
Proof.
  unfold TEx.execute_single_entry_direct. rewrite answered_drop.
  destruct (bin_request _) as [err|body]; [by exists s; split; [left|]|].
  exists (TEx.aw_env a 0 s). split; [by right|].
  destruct (TEx.aw_http a _ body) as [err|code text b|read]; [done..|].
  destruct (bin_response _) as [err|resp]; [done|].
  match goal with |- RG.drop (?x).1.2 _ = _ => pose proof (accept_drop (be_reservations e) resp "No result in response"
    " (fallback-single)" (st_subnet_id (xr_solver_task (be_request e))) (be_event e) (TEx.aw_env a 0 s)) as Hd end.
  by destruct (TEx.accept _ _ _ _ _ _ _) as [[s2 g2] r].
Qed.

(** ** Groups *)

Definition handles_of (entries : list BatchEntry) : list ReservationHandle :=
  concat ((fun e => rg_handles (be_reservations e)) <$> entries).

Definition guarded (e : BatchEntry) : Prop :=
  rg_manager (be_reservations e) = true ∧ Forall (fun h => reservation_id h ≠ uuid_nil) (rg_handles (be_reservations e)).

Section Group.
Variable Q : ObjectId → Reservation → Prop.
Variable tid : string.

(** Each entry is dropped after what other tasks do. *)
Definition drops_entry (f : nat → BatchEntry → ValidatorService K → ValidatorService K * option (result string Outcome)) : Prop :=
  ∀ i e s, ∃ env, bystander Q tid env ∧ (f i e s).1 = RG.drop (be_reservations e) (env s).

Lemma bystander_id : bystander (K := K) Q tid id.
Proof. by split. Qed.

Lemma each_settles f i entries hs' s :
  drops_entry f → Forall guarded entries → rv_enabled (vs_reservations s) = true →
  covered Q (vs_reservations s) (handles_of entries ++ hs') →
  settled_from Q tid hs' s (TEx.each f i entries s).1 ∧
  length (TEx.each f i entries s).2 = length entries.
Proof.
  intros Hf. revert i s. induction entries as [|e entries IH]; intros i s Hg He Hc; [by split; [split|]|].
  apply list.Forall_cons in Hg as [[Hm Hp] Hg]. cbn. destruct (Hf i e s) as (env & Henv & Hs).
  destruct (f i e s) as [s1 r]. cbn in Hs. subst s1. destruct Henv as [He1 Ho1 Ht1] eqn:Hby.
  destruct (drop_settles Q tid (be_reservations e) (handles_of entries ++ hs') (env s) Hm Hp) as [He2 Hc2 Ht2].
  - by rewrite He1.
  - rewrite app_assoc. by apply (bystander_covered Q tid env).
  - destruct (IH (S i) (RG.drop (be_reservations e) (env s)) Hg He2 Hc2) as [[He3 Hc3 Ht3] Hl].
    destruct (TEx.each f (S i) entries _) as [s3 rs]. cbn in *. split; [|by rewrite Hl]. split; [done|done|].
    by rewrite Ht3, Ht2, Ht1.
Qed.

(** The tasks release the coins in whatever order they end. *)
Lemma spawned_settle f order entries answers hs' s :
  drops_entry f → Forall guarded entries → rv_enabled (vs_reservations s) = true →
  covered Q (vs_reservations s) (handles_of (omap (entries !!.) order) ++ hs') →
  settled_from Q tid hs' s (foldl (TEx.finish_task f entries) (s, answers) order).1.
Proof.
  intros Hf Hg. revert s answers. induction order as [|i order IH]; intros s answers He Hc; [by split|].
  cbn [foldl]. unfold TEx.finish_task at 2. cbn [omap list_omap] in Hc. destruct (entries !! i) as [e|] eqn:Hi; [|by apply IH].
  destruct (proj1 (list.Forall_lookup _ _) Hg i e Hi) as [Hm Hp]. cbn [fst snd]. destruct (Hf i e s) as (env & Henv & Hs).
  destruct (f i e s) as [s1 r]. cbn in Hs. subst s1. destruct Henv as [He1 Ho1 Ht1] eqn:Hby.
  destruct (drop_settles Q tid (be_reservations e) (handles_of (omap (entries !!.) order) ++ hs') (env s) Hm Hp) as [He2 Hc2 Ht2].
  - by rewrite He1.
  - rewrite app_assoc. by apply (bystander_covered Q tid env).
  - destruct (IH (RG.drop (be_reservations e) (env s)) (<[i := r]> answers) He2 Hc2) as [He3 Hc3 Ht3].
    split; [done|done|]. by rewrite Ht3, Ht2, Ht1.
Qed.

Lemma refuse_drops msg : drops_entry (TEx.refuse_entry msg).
Proof. intros i e s. exists id. by split; [apply bystander_id|]. Qed.

(** Scattering drops every entry, also when it panics half way. *)
Lemma scatter_drops resp i entries s :
  (TEx.scatter resp i entries s).1 = foldl (fun s e => RG.drop (be_reservations e) s) s entries ∧
  length (TEx.scatter resp i entries s).2 = length entries.
Proof.
  revert i s. induction entries as [|e entries IH]; intros i s; [done|]. cbn [TEx.scatter foldl length].
  set (x := match xb_results resp !! i with Some r => _ | None => _ end).
  assert (Hx : RG.drop x.1.2 x.1.1 = RG.drop (be_reservations e) s).
  { unfold x. destruct (xb_results resp !! i) as [r|]; [|done].
    match goal with |- RG.drop (?y).1.2 _ = _ => pose proof (accept_drop (be_reservations e) r "No result in batch response"
      " (batch)" (st_subnet_id (xr_solver_task (be_request e))) (be_event e) s) as Hd; destruct y as [[s2 g2] r2] end. done. }
  destruct x as [[s1 g1] r1]. cbn [fst snd] in Hx. unfold TEx.answered. destruct r1 as [o|err|].
  1, 2: rewrite Hx; destruct (IH (S i) (RG.drop (be_reservations e) s)) as [H1 H2];
    destruct (TEx.scatter _ _ _ _) as [s3 rs]; cbn in *; by rewrite H1, H2.
  cbn. by rewrite Hx, length_fmap.
Qed.

Lemma drops_settle entries hs' s :
  Forall guarded entries → rv_enabled (vs_reservations s) = true →
  covered Q (vs_reservations s) (handles_of entries ++ hs') →
  settled_from Q tid hs' s (foldl (fun s e => RG.drop (be_reservations e) s) s entries).
Proof.
  intros Hg He Hc. destruct (each_settles (fun _ e s => (RG.drop (be_reservations e) s, None)) 0 entries hs' s) as [Hs _];
    [|done..|].
  { intros i e s0. exists id. by split; [apply bystander_id|]. }
  assert (Heq : ∀ i s0, (TEx.each (fun _ e s => (RG.drop (be_reservations e) s, None)) i entries s0).1
    = foldl (fun s e => RG.drop (be_reservations e) s) s0 entries).
  { clear. induction entries as [|e entries IH]; intros i s0; [done|]. cbn. rewrite <-(IH (S i)).
    by destruct (TEx.each _ _ _ _). }
  by rewrite Heq in Hs.
Qed.
End Group.

(** The outcome that a response gives, whatever the state. *)
Definition outcome_of (resp : ExecuteTaskResponse) (missing suffix : string) (sn : SubnetId) (e : TaskEvent)
    : result string Outcome :=
  if resp_success resp then
    match resp_result resp with
    | Some dto =>
        rbind (TX.executed_event dto (resp_message resp) suffix sn e)
          (fun ev => Ok (ev, dr_execution_time_us dto, dr_events_processed dto, dr_gas_used dto))
    | None => Err missing
    end
  else Err (resp_message resp).

Lemma accept_outcome g resp missing suffix sn e s :
  (TEx.accept (K := K) g resp missing suffix sn e s).2 = outcome_of resp missing suffix sn e.
Proof.
  unfold TEx.accept, outcome_of. destruct (resp_success resp); [|done]. destruct (resp_result resp) as [dto|]; [|done].
  destruct (TX.executed_event _ _ _ _ _); [|done..]. by destruct (RG.release g s).
Qed.

(** What the entry at an index of a batch is answered. *)
Definition batch_answer (resp : ExecuteBatchResponse) (i : nat) (e : BatchEntry) : result string Outcome :=
  match xb_results resp !! i with
  | Some r => outcome_of r "No result in batch response" " (batch)" (st_subnet_id (xr_solver_task (be_request e))) (be_event e)
  | None => Err ("Missing result at index " +:+ Tee.fmt_nat i)%string
  end.

Lemma scatter_aligned resp i entries s :
  (∀ j e, entries !! j = Some e → batch_answer resp (i + j) e ≠ Panic) →
  (TEx.scatter resp i entries s).2 = imap (fun j e => Some (batch_answer resp (i + j) e)) entries.
Proof.
  revert i s. induction entries as [|e entries IH]; intros i s Hn; [done|]. cbn [TEx.scatter imap].
  set (x := match xb_results resp !! i with Some r => _ | None => _ end).
  assert (Hx : x.2 = batch_answer resp i e).
  { unfold x, batch_answer. destruct (xb_results resp !! i) as [r|]; [apply accept_outcome|done]. }
  specialize (Hn 0%nat e eq_refl) as Hn0. rewrite Nat.add_0_r in *. destruct x as [[s1 g1] r1]. cbn [snd] in Hx. subst r1.
  assert (Htail : ∀ s2, (TEx.scatter resp (S i) entries s2).2
    = imap ((fun j e => Some (batch_answer resp (i + j) e)) ∘ S) entries).
  { intros s2. rewrite IH.
    - apply imap_ext. intros j e' _. cbn. by rewrite Nat.add_succ_r.
    - intros j e' Hj. specialize (Hn (S j) e' Hj). by rewrite Nat.add_succ_r in Hn. }
  unfold TEx.answered. destruct (batch_answer resp i e) as [o|err|]; [| |done];
    specialize (Htail (RG.drop g1 s1)); destruct (TEx.scatter _ _ _ _) as [s3 rs]; cbn in *; by rewrite Htail.
Qed.

Lemma each_answers f g i entries (s : ValidatorService K) :
  (∀ i e s, (f i e s).2 = g i e) → (TEx.each f i entries s).2 = imap (fun j e => g (i + j)%nat e) entries.
Proof.
  intros Hf. revert i s. induction entries as [|e entries IH]; intros i s; [done|]. cbn.
  specialize (Hf i e s). destruct (f i e s) as [s1 r]. cbn in Hf. subst r. specialize (IH (S i) s1).
  destruct (TEx.each f (S i) entries s1) as [s2 rs]. cbn in *. rewrite IH, Nat.add_0_r. f_equal.
  apply imap_ext. intros j e' _. cbn. by rewrite Nat.add_succ_r.
Qed.

Lemma finished_answers f g order entries (s : ValidatorService K) answers j :
  (∀ i e s, (f i e s).2 = g i e) → length answers = length entries →
  (foldl (TEx.finish_task f entries) (s, answers) order).2 !! j =
    if bool_decide (j ∈ order) then g j <$> entries !! j else answers !! j.
Proof.
  intros Hf. revert s answers. induction order as [|i order IH]; intros s answers Hl; [done|].
  cbn [foldl]. unfold TEx.finish_task at 2. cbn [fst snd]. destruct (entries !! i) as [e|] eqn:Hi.
  - specialize (Hf i e s) as Hr. destruct (f i e s) as [s1 r]. cbn in Hr. subst r. rewrite IH by by rewrite length_insert.
    pose proof (lookup_lt_Some _ _ _ Hi) as Hlt. destruct (decide (j ∈ order)) as [Hin|Hin].
    + rewrite !bool_decide_eq_true_2; [done|by right|done].
    + rewrite (bool_decide_eq_false_2 (j ∈ order)) by done. destruct (decide (j = i)) as [->|Hne].
      * rewrite bool_decide_eq_true_2 by by left. rewrite list_lookup_insert_eq by lia. by rewrite Hi.
      * rewrite list_lookup_insert_ne by done. rewrite bool_decide_eq_false_2; [done|]. by intros [?|?]%elem_of_cons.
  - rewrite IH by done. destruct (decide (j = i)) as [->|Hne].
    + rewrite (bool_decide_eq_true_2 (i ∈ i :: order)) by by left. rewrite Hi.
      assert (answers !! i = None) as -> by (apply lookup_ge_None; apply lookup_ge_None in Hi; lia). by case_bool_decide.
    + assert (bool_decide (j ∈ i :: order) = bool_decide (j ∈ order)) as ->; [|done].
      apply bool_decide_ext. rewrite elem_of_cons. naive_solver.
Qed.

(** Every task ends. *)
Definition all_end (order : list nat) (entries : list BatchEntry) : Prop := order ≡ₚ seq 0 (length entries).

Lemma spawned_answers f g order entries (s : ValidatorService K) :
  (∀ i e s, (f i e s).2 = g i e) → all_end order entries → (TEx.spawn_each f order entries s).2 = imap g entries.
Proof.
  intros Hf Ho. apply list_eq. intros j. unfold TEx.spawn_each. rewrite (finished_answers f g) by (done || apply length_fmap).
  rewrite list_lookup_imap. case_bool_decide as Hj; [done|].
  assert (Hge : (length entries ≤ j)%nat).
  { destruct (decide (length entries ≤ j)%nat) as [|Hlt]; [done|]. destruct Hj. rewrite Ho. apply elem_of_seq. lia. }
  apply lookup_ge_None in Hge. by rewrite list_lookup_fmap, Hge.
Qed.

Lemma spawned_length f order entries (x : ValidatorService K * list (option (result string Outcome))) :
  length (foldl (TEx.finish_task f entries) x order).2 = length x.2.
Proof.
  revert x. induction order as [|i order IH]; intros x; [done|]. cbn [foldl]. rewrite IH. unfold TEx.finish_task.
  destruct (entries !! i) as [e|]; [|done]. destruct (f i e x.1). cbn. by rewrite length_insert.
Qed.

Lemma ended_handles order entries h : all_end order entries → h ∈ handles_of entries → h ∈ handles_of (omap (entries !!.) order).
Proof.
  unfold handles_of. intros Ho. rewrite !list_elem_of_In, !in_concat. setoid_rewrite <-list_elem_of_In. intros (hs & Hin & Hh).
  exists hs. split; [|done]. apply list_elem_of_fmap in Hin as (e & -> & [i Hi]%list_elem_of_lookup_1). apply list_elem_of_fmap.
  exists e. split; [done|]. apply list_elem_of_omap. exists i. split; [|done]. rewrite Ho. apply elem_of_seq.
  pose proof (lookup_lt_Some _ _ _ Hi). lia.
Qed.

(** What a single request of a group is answered. *)
Definition single_answer (a : TEx.Awaits (K := K)) (e : BatchEntry) : result string Outcome :=
  match bin_request (be_request e) with
  | inl err => Err ("serialize error: " +:+ err)%string
  | inr body =>
      match TEx.aw_http a (be_solver_base_url e +:+ "/api/v1/execute-task")%string body with
      | HttpBody read =>
          match bin_response (match read with inr b => b | inl _ => [] end) with
          | inr resp => outcome_of resp "No result in response" " (fallback-single)"
              (st_subnet_id (xr_solver_task (be_request e))) (be_event e)
          | inl err => Err ("bincode parse error: " +:+ err)%string
          end
      | HttpStatus _ text body => Err ("HTTP " +:+ text +:+ ": " +:+ body)%string
      | HttpNetworkError err => Err ("Network error: " +:+ err)%string
      end
  end.

Definition sent_answer (r : result string Outcome) : option (result string Outcome) :=
  match r with Panic => None | _ => Some r end.

Lemma answered_sent (x : ValidatorService K * ReservationGuard * result string Outcome) : (TEx.answered x).2 = sent_answer x.2.
Proof. by destruct x as [[s g] r]. Qed.

Lemma single_answered a e (s : ValidatorService K) :
  (TEx.execute_single_entry_direct a e s).2 = sent_answer (single_answer a e).
Proof.
  unfold TEx.execute_single_entry_direct, single_answer. rewrite answered_sent. destruct (bin_request _) as [err|body]; [done|].
  destruct (TEx.aw_http a _ body) as [err|code text b|read]; [done..|]. destruct (bin_response _) as [err|resp]; [done|].
  by rewrite accept_outcome.
Qed.

(** What the entry at an index of a group is answered, by what the semaphore,
    the serializer, the network and the solver do. *)
Definition group_answer (a : TEx.Awaits (K := K)) (singles : nat → TEx.Awaits (K := K)) (entries : list BatchEntry)
    (i : nat) (e : BatchEntry) : result string Outcome :=
  let url := match entries with e0 :: _ => (be_solver_base_url e0 +:+ "/api/v1/execute-task-batch")%string | [] => ""%string end in
  if negb (TEx.aw_permit a) then Err "Service shutting down"%string
  else
    match bin_batch_request (mkBatchRequest (be_request <$> entries) (TEx.aw_request_id a)) with
    | inl err => Err ("batch serialize error: " +:+ err)%string
    | inr body =>
        match TEx.aw_http a url body with
        | HttpNetworkError err => Err ("Batch network error: " +:+ err)%string
        | HttpStatus code text rbody =>
            if (code =? 404)%Z || (code =? 405)%Z then single_answer (singles i) e
            else Err ("Batch HTTP " +:+ text +:+ ": " +:+ rbody)%string
        | HttpBody (inl err) => Err ("Failed to read batch response: " +:+ err)%string
        | HttpBody (inr b) =>
            match bin_batch_response b with
            | inr resp => batch_answer resp i e
            | inl err => Err ("batch bincode parse error: " +:+ err)%string
            end
        end
    end.

Lemma group_answers a singles order sid entries (s : ValidatorService K) :
  all_end order entries → (∀ i e, entries !! i = Some e → group_answer a singles entries i e ≠ Panic) →
  (TEx.execute_batch_group a singles order sid entries s).2 = imap (fun i e => Some (group_answer a singles entries i e)) entries.
Proof.
  intros Ho. unfold TEx.execute_batch_group. destruct entries as [|e0 rest]; [done|]. unfold group_answer. cbv zeta.
  set (entries := e0 :: rest) in *.
  assert (Hrefuse : ∀ msg s0, (TEx.each (TEx.refuse_entry msg) 0 entries s0).2 = imap (fun _ _ => Some (Err msg)) entries)
    by (intros; by apply (each_answers _ (fun _ _ => Some (Err msg)))).
  destruct (negb _); [by rewrite Hrefuse|]. destruct (bin_batch_request _) as [err|body]; [by rewrite Hrefuse|].
  destruct (TEx.aw_http a _ body) as [err|code text rbody|[err|b]]; [by rewrite Hrefuse| |by rewrite Hrefuse|].
  - destruct (_ || _); [|by rewrite Hrefuse]. intros Hn.
    rewrite (spawned_answers _ (fun i e => sent_answer (single_answer (singles i) e))); [|intros; apply single_answered|done].
    apply imap_ext. intros i e Hi. specialize (Hn i e Hi). by destruct (single_answer (singles i) e).
  - destruct (bin_batch_response b) as [err|resp]; [by rewrite Hrefuse|]. intros Hn. by apply (scatter_aligned resp 0).
Qed.

(** A group answers each entry and releases its coins. *)
Lemma group_settles (Q : ObjectId → Reservation → Prop) (tid : string) (a : TEx.Awaits (K := K))
    (singles : nat → TEx.Awaits (K := K)) (order : list nat) (sid : string) (entries : list BatchEntry) (hs' : list ReservationHandle)
    (s : ValidatorService K) :
  (∀ i, bystander Q tid (TEx.aw_env a i)) → (∀ j i, bystander Q tid (TEx.aw_env (singles j) i)) →
  Forall guarded entries → rv_enabled (vs_reservations s) = true →
  covered Q (vs_reservations s) (handles_of entries ++ hs') → all_end order entries →
  let '(s', answers) := TEx.execute_batch_group a singles order sid entries s in
  length answers = length entries ∧ settled_from Q tid hs' s s'.
Proof.
  intros Ha Hsingles Hg He Hc Ho.
  assert (Hby : ∀ i s0, rv_enabled (vs_reservations s0) = true → covered Q (vs_reservations s0) (handles_of entries ++ hs') →
    rv_enabled (vs_reservations (TEx.aw_env a i s0)) = true ∧
    covered Q (vs_reservations (TEx.aw_env a i s0)) (handles_of entries ++ hs') ∧
    vs_transfer_status (TEx.aw_env a i s0) !! tid = vs_transfer_status s0 !! tid).
  { intros i s0 He0 Hc0. destruct (Ha i) as [H1 H2 H3] eqn:E. rewrite H1. split_and!; [done| |done].
    by eapply bystander_covered. }
  destruct (Hby 0%nat s He Hc) as (He1 & Hc1 & Ht1). set (s1 := TEx.aw_env a 0 s) in *.
  destruct (Hby 1%nat s1 He1 Hc1) as (He2 & Hc2 & Ht2). set (s2 := TEx.aw_env a 1 s1) in *.
  assert (Hlift : ∀ s0 (x : ValidatorService K * list (option (result string Outcome))),
    vs_transfer_status s0 !! tid = vs_transfer_status s !! tid →
    settled_from Q tid hs' s0 x.1 ∧ length x.2 = length entries →
    let '(s', answers) := x in length answers = length entries ∧ settled_from Q tid hs' s s').
  { intros s0 [s' answers] Ht [[? ? Ht'] ?]. cbn in *. split; [done|]. split; [done|done|congruence]. }
  assert (Hrefuse : ∀ msg s0, rv_enabled (vs_reservations s0) = true →
    covered Q (vs_reservations s0) (handles_of entries ++ hs') →
    vs_transfer_status s0 !! tid = vs_transfer_status s !! tid →
    let '(s', answers) := TEx.each (TEx.refuse_entry msg) 0 entries s0 in
    length answers = length entries ∧ settled_from Q tid hs' s s').
  { intros msg s0 He0 Hc0 Ht0. apply (Hlift s0); [done|]. apply each_settles; [apply refuse_drops|done..]. }
  unfold TEx.execute_batch_group. destruct entries as [|e0 rest]; [by split; [|split]|]. set (entries := e0 :: rest) in *.
  fold s1. destruct (negb _); [by apply Hrefuse|].
  destruct (bin_batch_request _) as [err|body]; [by apply Hrefuse|]. fold s2.
  assert (Ht : vs_transfer_status s2 !! tid = vs_transfer_status s !! tid) by congruence.
  destruct (TEx.aw_http a _ body) as [err|code text rbody|[err|b]]; [by apply Hrefuse| |by apply Hrefuse|].
  - destruct (_ || _); [|by apply Hrefuse].
    apply (Hlift (VS.mark_unsupported sid s2)); [done|].
    split; [|unfold TEx.spawn_each; rewrite spawned_length; apply length_fmap].
    apply spawned_settle; [|done|done|intros c r Hr Hq; specialize (Hc2 c r Hr Hq); rewrite elem_of_app in *; destruct Hc2;
      [left; by apply ended_handles|by right]].
    intros i e s0. destruct (single_drops (singles i) e s0) as (s3 & [-> | ->] & Hs3).
    + exists id. by split; [apply bystander_id|].
    + by exists (TEx.aw_env (singles i) 0).
  - destruct (bin_batch_response b) as [err|resp]; [by apply Hrefuse|].
    apply (Hlift s2); [done|]. destruct (scatter_drops resp 0 entries s2) as [H1 H2].
    unfold TEx.scatter_batch_results. rewrite H1. split; [by apply drops_settle|done].
Qed.

(** An answer is never a panic: a task that panics is dropped unanswered. *)
Lemma each_no_panic f i entries (s : ValidatorService K) :
  (∀ i e s, (f i e s).2 ≠ Some Panic) → Forall (fun r => r ≠ Some Panic) (TEx.each f i entries s).2.
Proof.
  intros Hf. revert i s. induction entries as [|e entries IH]; intros i s; [by constructor|]. cbn.
  specialize (Hf i e s). destruct (f i e s) as [s1 r]. specialize (IH (S i) s1).
  destruct (TEx.each f (S i) entries s1) as [s2 rs]. by constructor.
Qed.

Lemma answered_no_panic (x : ValidatorService K * ReservationGuard * result string Outcome) : (TEx.answered x).2 ≠ Some Panic.
Proof. by destruct x as [[s g] [o|e|]]. Qed.

Lemma scatter_no_panic resp i entries (s : ValidatorService K) :
  Forall (fun r => r ≠ Some Panic) (TEx.scatter resp i entries s).2.
Proof.
  revert i s. induction entries as [|e entries IH]; intros i s; [by constructor|]. cbn [TEx.scatter].
  set (x := match xb_results resp !! i with Some r => _ | None => _ end). pose proof (answered_no_panic x) as Hx.
  destruct x as [[s1 g1] [o|err|]]; cbn in *.
  1, 2: specialize (IH (S i) (RG.drop g1 s1)); destruct (TEx.scatter _ _ _ _) as [s3 rs]; by constructor.
  constructor; [done|]. by apply list.Forall_fmap, list.Forall_true.
Qed.

Lemma spawned_no_panic f order entries (x : ValidatorService K * list (option (result string Outcome))) :
  (∀ i e s, (f i e s).2 ≠ Some Panic) → Forall (fun r => r ≠ Some Panic) x.2 →
  Forall (fun r => r ≠ Some Panic) (foldl (TEx.finish_task f entries) x order).2.
Proof.
  intros Hf. revert x. induction order as [|i order IH]; intros x Hx; [done|]. cbn [foldl]. apply IH. unfold TEx.finish_task.
  destruct (entries !! i) as [e|]; [|done]. specialize (Hf i e x.1). destruct (f i e x.1) as [s r]. by apply list.Forall_insert.
Qed.

Lemma group_no_panic a singles order sid entries (s : ValidatorService K) :
  Forall (fun r => r ≠ Some Panic) (TEx.execute_batch_group a singles order sid entries s).2.
Proof.
  assert (Hrefuse : ∀ msg s0, Forall (fun r => r ≠ Some Panic) (TEx.each (TEx.refuse_entry msg) 0 entries s0).2)
    by (intros; by apply each_no_panic).
  unfold TEx.execute_batch_group. destruct entries as [|e0 rest]; [by constructor|]. destruct (negb _); [done|]. destruct (bin_batch_request _); [done|].
  destruct (TEx.aw_http _ _ _) as [err|code text rbody|[err|b]]; [done| |done|].
  - destruct (_ || _); [|done]. apply spawned_no_panic; [intros; apply answered_no_panic|]. by apply list.Forall_fmap, list.Forall_true.
  - destruct (bin_batch_response b); [done|]. apply scatter_no_panic.
Qed.

(** C26: every entry of a batch is answered and its coins are released.  Let the
    semaphore, the serializer, the network and the solver do whatever they do
    with a batch of guarded entries: a refusal, an error status, a body that
    does not read or parse, results that are missing, a solver without batches
    (whose entries are then sent one by one, side by side, and end in any
    order).  Then, of the reservations of interest, those of the entries are
    gone, and the tracker of another transfer is not touched by the group.
    Unless the event of some result panics while it is built (its nonce marker
    does not serialize), the answers are, entry by entry and in their order,
    those that [group_answer] names: none is left out, and a result of a batch
    goes to the entry at its index.  The other tasks that run at the waits make
    no reservations of interest and leave that tracker alone. *)
Theorem batch_group_settles (Q : ObjectId → Reservation → Prop) (tid : string) (a : TEx.Awaits (K := K))
    (singles : nat → TEx.Awaits (K := K)) (order : list nat) (sid : string) (entries : list BatchEntry)
    (hs' : list ReservationHandle) (s : ValidatorService K)
    (Ha : ∀ i, bystander Q tid (TEx.aw_env a i)) (Hsingles : ∀ j i, bystander Q tid (TEx.aw_env (singles j) i))
    (Hg : Forall guarded entries) (He : rv_enabled (vs_reservations s) = true)
    (Hc : covered Q (vs_reservations s) (handles_of entries ++ hs')) (Ho : all_end order entries) :
  let '(s', answers) := TEx.execute_batch_group a singles order sid entries s in
  settled_from Q tid hs' s s' ∧ length answers = length entries ∧
  ((∀ i e, entries !! i = Some e → group_answer a singles entries i e ≠ Panic) →
   answers = imap (fun i e => Some (group_answer a singles entries i e)) entries).
Proof.
  pose proof (group_settles Q tid a singles order sid entries hs' s Ha Hsingles Hg He Hc Ho) as Hs.
  pose proof (group_answers a singles order sid entries s Ho) as Hans.
  destruct (TEx.execute_batch_group _ _ _ _ _ _) as [s' answers]. by destruct Hs.
Qed.

(** ** One task *)

(** The collector answers, or drops, an entry after releasing its coins. *)
Definition collector_ok (Q : ObjectId → Reservation → Prop) (tid : string)
    (collector : BatchEntry → ValidatorService K → ValidatorService K * option (result string Outcome)) : Prop :=
  ∀ e s, guarded e → rv_enabled (vs_reservations s) = true →
    covered Q (vs_reservations s) (rg_handles (be_reservations e)) →
    settled_from Q tid [] s (collector e s).1 ∧ (collector e s).2 ≠ Some Panic.

(** The collector that sends the entry as a batch of its own. *)
Definition lone_collector (a : TEx.Awaits (K := K)) (singles : nat → TEx.Awaits (K := K)) (e : BatchEntry)
    (s : ValidatorService K) : ValidatorService K * option (result string Outcome) :=
  let '(s', answers) := TEx.execute_batch_group a singles [0%nat] (be_solver_id e) [e] s in (s', mjoin (head answers)).

Lemma lone_collector_ok Q tid a singles :
  (∀ i, bystander Q tid (TEx.aw_env a i)) → (∀ j i, bystander Q tid (TEx.aw_env (singles j) i)) →
  collector_ok Q tid (lone_collector a singles).
Proof.
  intros Ha Hsingles e s Hg He Hc. unfold lone_collector.
  pose proof (group_settles Q tid a singles [0%nat] (be_solver_id e) [e] [] s Ha Hsingles) as Hs.
  pose proof (group_no_panic a singles [0%nat] (be_solver_id e) [e] s) as Hn.
  destruct (TEx.execute_batch_group _ _ _ _ _ _) as [s' answers]. destruct Hs as [Hl Hset].
  - by apply list.Forall_singleton.
  - done.
  - unfold handles_of. cbn. by rewrite !app_nil_r.
  - by unfold all_end.
  - split; [done|]. destruct answers as [|r [|]]; [done| |done]. cbn in Hn. by apply list.Forall_cons in Hn as [Hn _].
Qed.

(** Both paths of a task release its coins; a solver that is not known is
    refused by the batch path before a guard is made. *)
Lemma inline_settles Q a sent collector v tid sid task hs s :
  (∀ i, bystander Q tid (TEx.aw_env a i)) → collector_ok Q tid collector →
  (vs_batch_tx s && vs_batch_alive s = true → is_Some (vs_solver_info s !! sid)) →
  vs_manager s = true → Forall (fun h => reservation_id h ≠ uuid_nil) hs →
  rv_enabled (vs_reservations s) = true → covered Q (vs_reservations s) hs →
  settled_from Q tid [] s (TEx.execute_solver_inline_batch a sent collector v tid sid task hs s).1.
Proof.
  intros Ha Hcol Hknown Hm Hp He Hc.
  assert (Hdrop : ∀ s1, rv_enabled (vs_reservations s1) = true → covered Q (vs_reservations s1) hs →
    vs_transfer_status s1 !! tid = vs_transfer_status s !! tid →
    settled_from Q tid [] s (RG.drop (RG.new_batch s hs tid) s1)).
  { intros s1 He1 Hc1 Ht1. destruct (drop_settles Q tid (RG.new_batch s hs tid) [] s1) as [H1 H2 H3]; [done..| |].
    - by rewrite app_nil_r.
    - split; [done|done|congruence]. }
  destruct (Ha 0%nat) as [He0 Ho0 Ht0] eqn:E0. assert (Hc0 : covered Q (vs_reservations (TEx.aw_env a 0 s)) hs)
    by by eapply bystander_covered.
  unfold TEx.execute_solver_inline_batch. destruct (vs_batch_tx s && vs_batch_alive s).
  - destruct (Hknown eq_refl) as [info Hinfo]. rewrite Hinfo. cbn [be_reservations]. destruct sent.
    + apply Hdrop; [by rewrite He0|done|by apply Ht0].
    + apply Hdrop; [by rewrite He0|done|by apply Ht0].
    + set (e := mkBatchEntry _ _ _ _ _ _). destruct (Hcol e (TEx.aw_env a 0 s)) as [[H1 H2 H3] _]; [by split|by rewrite He0|done|].
      destruct (collector e (TEx.aw_env a 0 s)) as [s1 [r|]]; cbn in *; (split; [done|done|by rewrite H3, Ht0]).
  - destruct (direct_drops a v tid sid task hs s) as (s1 & [-> | ->] & Hs1); rewrite Hs1.
    + apply Hdrop; [by rewrite He0|done|by apply Ht0].
    + destruct (Ha 1%nat) as [He1 Ho1 Ht1] eqn:E1.
      apply Hdrop; [by rewrite He1, He0|by eapply bystander_covered|by rewrite Ht1, Ht0].
Qed.

(** ** Executed events *)

(** The tracker of the transfer, when there is one, has the status. *)
Definition status_is (tid st : string) (event : option string) (s : ValidatorService K) : Prop :=
  ∃ t, vs_transfer_status s !! tid = Some t ∧ tk_status t = st ∧ tk_event_id t = event ∧ tk_transfer_id t = tid.

(** The transfer has a tracker without an event. *)
Definition tracked_pending (tid : string) (s : ValidatorService K) : Prop :=
  ∃ t, vs_transfer_status s !! tid = Some t ∧ tk_event_id t = None ∧ tk_transfer_id t = tid.

Lemma failed_status tid msg now s : tracked_pending tid s → status_is tid "failed" None (TEx.update_tracker_failed tid msg now s).
Proof.
  intros (t & Ht & He & Hi). eexists. cbn. rewrite lookup_alter_eq, Ht. cbn. by split_and!.
Qed.

Lemma submit_spec Q a tid event us processed s :
  (∀ i, bystander Q tid (TEx.aw_env a i)) → tracked_pending tid s → none_left Q (vs_reservations s) →
  match TEx.submit_executed_event a tid event us processed s with
  | (s', Ok id) =>
      id = TE.id event ∧ vs_events s' !! id = Some event ∧ id ∈ vs_dag_events s' ∧
      status_is tid "executed" (Some id) s' ∧ none_left Q (vs_reservations s') ∧
      ∀ k, vs_consensus s = Some k → is_ok (consensus_submit (te_event event) k).2 = true
  | (s', Err _) => status_is tid "failed" None s' ∧ none_left Q (vs_reservations s')
  | (s', Panic) => none_left Q (vs_reservations s')
  end.
Proof.
  intros Ha Ht Hn. unfold TEx.submit_executed_event. destruct (vs_forced_failure s) as [msg|].
  { split; [|done]. by apply failed_status. }
  assert (Hok : ∀ s1, tracked_pending tid s1 → status_is tid "executed" (Some (TE.id event))
    (TEx.update_tracker_success tid (TE.id event) us processed (TEx.aw_now a) (VS.store_event (TE.id event) event s1))).
  { intros s1 (t & Ht1 & _ & Hi). eexists. cbn. rewrite lookup_alter_eq, Ht1. cbn. by split_and!. }
  destruct (vs_consensus s) as [k|] eqn:Hk.
  - destruct (consensus_submit (te_event event) k) as [k' r] eqn:Hr. destruct (Ha 2%nat) as [H1 H2 H3] eqn:E2.
    set (s1 := TEx.aw_env a 2 (VS.set_consensus (Some k') s)).
    assert (Ht1 : tracked_pending tid s1) by (destruct Ht as (t & ? & ?); exists t; unfold s1; by rewrite H3).
    assert (Hn1 : none_left Q (vs_reservations s1)).
    { intros c rv Hc Hq. by apply (Hn c rv); [apply H2 in Hc|]. }
    destruct r as [i|e|]; [| |done].
    + cbn. rewrite lookup_insert_eq. split_and!; [done|done|apply elem_of_app; right; by left|by apply Hok|done|].
      intros k0 [= <-]. by rewrite Hr.
    + split; [by apply failed_status|done].
  - cbn. rewrite lookup_insert_eq. split_and!; [done|done|apply elem_of_app; right; by left|by apply Hok|done|done].
Qed.
End Executor.

(** ** Preparation *)

Section Prepare.
Context `{B : Blake3} `{X : HexCrate} `{PB : ProofBcs} {P : Type} `{SP : StateProvider P}.
Context (turns : nat → CR.Turn) (Hforeign : foreign turns) (Hids : ∀ i, CR.turn_id (turns i) ≠ uuid_nil).

Abbreviation proper hs := (Forall (fun h => reservation_id h ≠ uuid_nil) hs).

Lemma reserve_first_tracked coins i amount tid m :
  rv_enabled m = true → none_own turns m →
  match TP.reserve_first turns i coins amount tid m with
  | (m', Some (c, h)) => rv_enabled m' = true ∧ tracked turns m' [h] ∧ reservation_id h ≠ uuid_nil ∧ c ∈ coins
  | (m', None) => none_own turns m'
  end.
Proof.
  revert i m. induction coins as [|c coins IH]; intros i m He Hno; [done|]. cbn [TP.reserve_first].
  pose proof (try_reserve_cases turns Hforeign (ci_object_id c) amount tid i m He) as Hc. cbv zeta in Hc.
  destruct (Hforeign i m) as [He' Hf].
  assert (Hno' : none_own turns (CR.turn_env (turns i) m)) by (intros c' r Hr Ho; by apply (Hno c' r); [apply Hf|]).
  destruct (CR.try_reserve _ _ _ _ _ _) as [m' [h|]].
  - destruct Hc as (-> & Hon & Hm). split_and!; [done| |apply Hids|by left]. intros c' r. rewrite Hm.
    intros [[<- <-]|[_ Hr]]%lookup_insert_Some Ho; [by left|]. by destruct (Hno' c' r Hr).
  - subst m'. specialize (IH (S i) _ (eq_trans He' He) Hno').
    destruct (TP.reserve_first _ _ _ _ _ _) as [m' [[c' h]|]]; [|done]. destruct IH as (? & ? & ? & ?).
    split_and!; [done..|by right].
Qed.

(** The coins of the sender can be read. *)
Definition readable (p : P) (sn : SubnetId) (coins : list CoinInfo) : Prop :=
  Forall (fun c => is_ok (TP.read_entry p sn (ci_object_id c)) = true) coins.

(** Preparation answers; the reservations it made are those of its handles,
    and there are none when it fails. *)
Lemma prepare_tracked now nanos (tp : TaskPreparer P) t sn m :
  let coins := get_coins_for_address_in_subnet (tp_provider tp) (tr_from t) sn in
  rv_enabled m = true → none_own turns m → is_u64 (tr_amount t) → balances_u64 coins → readable (tp_provider tp) sn coins →
  match TP.prepare_transfer_task_with_reservation now nanos turns tp t sn m with
  | (m', Ok (_, hs)) => rv_enabled m' = true ∧ tracked turns m' hs ∧ proper hs
  | (m', Err _) => none_own turns m'
  | (m', Panic) => False
  end.
Proof.
  intros coins He Hno Hu Hb Hread. unfold TP.prepare_transfer_task_with_reservation. fold coins.
  destruct (bool_decide (coins = [])); [done|].
  pose proof (selection_spec_holds coins (tr_amount t) Hb Hu) as Hsel.
  destruct (Select.select_coins_for_transfer coins (tr_amount t)) as [[c0|target sources]|e|]; [| |done|done].
  - pose proof (reserve_first_tracked (Select.eligible coins (tr_amount t)) 0 (tr_amount t) (tr_id t) m He Hno) as Hrf.
    destruct (TP.reserve_first _ _ _ _ _ _) as [m' [[c h]|]]; [|done]. destruct Hrf as (Hon & Htr & Hid & Hin).
    assert (Hr : is_ok (TP.read_entry (tp_provider tp) sn (ci_object_id c)) = true).
    { apply (proj1 (list.Forall_forall _ _) Hread). unfold Select.eligible in Hin. rewrite stable_sort_perm in Hin.
      by apply list_elem_of_filter in Hin as [_ ?]. }
    unfold TP.single_coin_task. destruct (TP.read_entry _ _ _); [|done..]. cbn. split_and!; [done|done|by apply list.Forall_singleton].
  - set (items := (fun c => (ci_object_id c, ci_balance c)) <$> target :: sources).
    assert (Htr0 : tracked turns m []) by (intros c r Hr Ho; by destruct (Hno c r Hr)).
    pose proof (reserve_loop_spec turns items 0 (tr_id t) [] m Hforeign Hids He Htr0) as Hall.
    unfold CR.try_reserve_batch. destruct (CR.reserve_loop _ _ _ _ _ _) as [m' [hs|]]; [|intros c r; by apply Hall].
    destruct Hall as (_ & Hon & Htr & Hnil); [done|].
    assert (Hback : none_own turns (CR.release_batch hs m')).
    { intros c r Hr Ho. destruct (release_batch_lookup _ _ _ _ Hon Hnil Hr) as [H1 H2]. by apply H2, Htr. }
    unfold TP.prepare_merge_then_transfer_task. destruct (bool_decide _); [done|]. destruct (_ <? _); [done|].
    unfold TP.coin_task. destruct (TP.build_read_set _ _ _) as [rs|e|] eqn:Hrs; cbn [rbind]; [done|done|].
    clear -Hrs. revert Hrs. generalize (ci_object_id target :: (ci_object_id <$> sources)).
    intros l. induction l as [|id l IH]; [done|]. cbn [TP.build_read_set].
    unfold TP.read_entry. destruct (get_object_from_subnet _ _ _); cbn [rbind]; [|done].
    destruct (TP.build_read_set _ _ l); cbn [rbind]; [done|done|by intros _; apply IH].
Qed.
End Prepare.

(** ** Submission *)

Section Submission.
Context `{B : Blake3} `{X : HexCrate} `{J : SerdeJson} `{S2 : Sha256} `{BC : Bincode} `{PB : ProofBcs}.
Context {K : Type} `{CP : ConsensusPort K} {P : Type} `{SP : StateProvider P}.
Context (turns : nat → CR.Turn) (Hforeign : foreign turns) (Hids : ∀ i, CR.turn_id (turns i) ≠ uuid_nil).

Abbreviation ours := (fun (_ : ObjectId) r => own turns r).

(** No answer makes a task panic: markers of nonces can be printed. *)
Lemma executed_event_ok dto msg suffix sn e :
  (∀ j, is_Some (json_to_vec j)) → TX.executed_event dto msg suffix sn e ≠ Panic.
Proof.
  intros Hj. unfold TX.executed_event, TX.build_execution_state_changes, TX.nonce_marker_change, Nonce.to_json_bytes.
  destruct (te_payload e); try done. destruct (tr_authorization _); [|done]. cbn.
  match goal with |- context [json_to_vec ?j] => destruct (Hj j) as [b Hb]; rewrite Hb end. done.
Qed.

Lemma interpret_ok g sn e reply (s : ValidatorService K) :
  (∀ j, is_Some (json_to_vec j)) → (TEx.interpret g sn e reply s).2 ≠ Panic.
Proof.
  intros Hj. destruct reply as [err|code text body|[err|b]]; [done..|]. cbn. destruct (bin_response b) as [err|resp]; [done|].
  rewrite accept_outcome. unfold outcome_of. destruct (resp_success resp); [|done]. destruct (resp_result resp) as [dto|]; [|done].
  pose proof (executed_event_ok dto (resp_message resp) "" sn e Hj). by destruct (TX.executed_event _ _ _ _ _).
Qed.

Lemma inline_ok a sent collector v tid sid task hs (s : ValidatorService K) :
  (∀ j, is_Some (json_to_vec j)) → (∀ e, be_reservations e = RG.new_batch s hs tid → (collector e (TEx.aw_env a 0 s)).2 ≠ Some Panic) →
  (TEx.execute_solver_inline_batch a sent collector v tid sid task hs s).2 ≠ Panic.
Proof.
  intros Hj Hcol. unfold TEx.execute_solver_inline_batch. destruct (_ && _).
  - destruct (vs_solver_info s !! sid) as [info|]; [|done]. destruct sent; [done|done|]. set (e := mkBatchEntry _ _ _ _ _ _).
    specialize (Hcol e eq_refl). destruct (collector e _) as [s1 [r|]]; [|done]. cbn in *. congruence.
  - unfold TEx.execute_solver_direct. destruct (negb _); [done|]. destruct (vs_solver_info _ !! sid) as [info|]; [|done].
    destruct (bin_request _) as [err|body]; [done|].
    pose proof (interpret_ok (RG.new_batch s hs tid) (st_subnet_id task) (st_event task)
      (TEx.aw_http a (NS.execute_task_url info) body) (TEx.aw_env a 1 (TEx.aw_env a 0 s)) Hj) as Hi.
    by destruct (TEx.interpret _ _ _ _ _) as [[s1 g1] r].
Qed.

(** What is asked of the surroundings of a submission: an executor with the
    reservation manager; other tasks and a collector that leave this transfer
    alone; a provider whose coins can be read; a router whose solvers the
    executor knows when it batches; JSON and consensus that do not panic. *)
Record submittable (now nanos : Z) (a : TEx.Awaits (K := K))
    (collector : BatchEntry → ValidatorService K → ValidatorService K * option (result string Outcome))
    (tp : TaskPreparer P) (request : SubmitTransferRequest) (t : TransferReq) (s : ValidatorService K) : Prop := mkSubmittable {
  sm_manager : vs_manager s = true;
  sm_enabled : rv_enabled (vs_reservations s) = true;
  sm_fresh : none_own turns (vs_reservations s);
  sm_env : ∀ i, bystander ours (TH.transfer_id now (vs_transfer_counter s)) (TEx.aw_env a i);
  sm_collector : collector_ok ours (TH.transfer_id now (vs_transfer_counter s)) collector;
  sm_amount : is_u64 (sq_amount request);
  sm_coins : ∀ sn, Tr.resolve_subnet_id t = Ok sn → balances_u64 (get_coins_for_address_in_subnet (tp_provider tp) (sq_from request) sn) ∧
    readable (tp_provider tp) sn (get_coins_for_address_in_subnet (tp_provider tp) (sq_from request) sn);
  sm_router : ∀ sn, Tr.resolve_subnet_id t = Ok sn → routable (vs_router s) nanos sn;
  sm_known : vs_batch_tx s && vs_batch_alive s = true →
    ∀ id, is_Some (rm_solver_registry (vs_router s) !! id) → is_Some (vs_solver_info s !! id);
  sm_json : ∀ j, is_Some (json_to_vec j);
  sm_consensus : ∀ e (k : K), (consensus_submit e k).2 ≠ Panic
}.

(** The transfer of a request. *)
Definition transfer_of (now now_ms : Z) (v : string) (vlc_time : Z) (request : SubmitTransferRequest) (s : ValidatorService K) : TransferReq :=
  let t := TH.base_transfer (TH.transfer_id now (vs_transfer_counter s)) (mkAssignedVlc vlc_time now_ms v) request in
  match sq_authorization request with Some au => Tr.with_authorization au t | None => t end.

Lemma transfer_of_fields now now_ms v vlc request s :
  let t := transfer_of now now_ms v vlc request s in tr_from t = sq_from request ∧ tr_amount t = sq_amount request.
Proof. unfold transfer_of. by destruct (sq_authorization request). Qed.

(** What a client is told of a transfer is what became of it. *)
Definition told (tid : string) (resp : SubmitTransferResponse) (s : ValidatorService K) : Prop :=
  sp_transfer resp = Some tid ∧
  if sp_success resp then
    ∃ id e, sp_event_id resp = Some id ∧ vs_events s !! id = Some e ∧ TE.id e = id ∧ id ∈ vs_dag_events s ∧
      status_is tid "executed" (Some id) s
  else sp_event_id resp = None ∧ status_is tid "failed" None s.

Lemma fail_told tid msg steps now (s : ValidatorService K) :
  none_own turns (vs_reservations s) →
  let '(s', r) := TH.fail_transfer tid msg steps now s in told tid r s' ∧ none_own turns (vs_reservations s').
Proof.
  intros Hn. cbn. split; [|done]. split; [done|]. cbn. split; [done|]. eexists. cbn. rewrite lookup_insert_eq. by split_and!.
Qed.

(** After the task was routed. *)
Lemma run_told a sent collector v tid sid task hs steps now (s : ValidatorService K) :
  (∀ i, bystander ours tid (TEx.aw_env a i)) → collector_ok ours tid collector →
  (vs_batch_tx s && vs_batch_alive s = true → is_Some (vs_solver_info s !! sid)) →
  vs_manager s = true → rv_enabled (vs_reservations s) = true → tracked turns (vs_reservations s) hs →
  Forall (fun h => reservation_id h ≠ uuid_nil) hs → tracked_pending tid s →
  (∀ j, is_Some (json_to_vec j)) → (∀ e (k : K), (consensus_submit e k).2 ≠ Panic) →
  ∃ s' resp,
    match TEx.execute_solver_inline_batch a sent collector v tid sid task hs s with
    | (s, Panic) => (s, Panic)
    | (s, Err e) =>
        (VS.on_trackers (alter (TEx.push_step "failed" (mkStep "tee_execution" "failed" (Some e) now)) tid) s,
         Ok (mkSubmitResponse false ("TEE execution failed: " +:+ e) (Some tid) None (Some sid) steps))
    | (s, Ok (event, us, processed, _)) =>
        match TEx.submit_executed_event a tid event us processed s with
        | (s, Panic) => (s, Panic)
        | (s, Err e) =>
            (s, Ok (mkSubmitResponse false e (Some tid) None (Some sid)
                      (steps ++ [mkStep "consensus_submit" "failed" (Some e) now])))
        | (s, Ok id) =>
            (s, Ok (mkSubmitResponse true "Transfer executed and accepted into consensus DAG; finality pending"
                      (Some tid) (Some id) (Some sid) steps))
        end
    end = (s', Ok resp : result string SubmitTransferResponse) ∧ told tid resp s' ∧ none_own turns (vs_reservations s').
Proof.
  intros Ha Hcol Hknown Hm He Htr Hp Hpend Hj Hk.
  assert (Hcov : covered ours (vs_reservations s) hs) by (intros c r Hr Ho; by apply Htr).
  destruct (inline_settles ours a sent collector v tid sid task hs s Ha Hcol Hknown Hm Hp He Hcov) as [He1 Hc1 Ht1].
  assert (Hnp : (TEx.execute_solver_inline_batch a sent collector v tid sid task hs s).2 ≠ Panic).
  { apply inline_ok; [done|]. intros e Hres. destruct (Ha 0%nat) as [E1 E2 E3] eqn:E0.
    apply Hcol; rewrite ?Hres; [split; by rewrite Hres|by rewrite E1|by eapply bystander_covered]. }
  destruct (TEx.execute_solver_inline_batch a sent collector v tid sid task hs s) as [s1 [[[[ev us] pr] gas]|err|]]; cbn [fst snd] in *; [| |done].
  - apply covered_nil in Hc1. assert (Hpend1 : tracked_pending tid s1) by (unfold tracked_pending; by rewrite Ht1).
    pose proof (submit_spec ours a tid ev us pr s1 Ha Hpend1 Hc1) as Hs.
    assert (Hnp2 : (TEx.submit_executed_event a tid ev us pr s1).2 ≠ Panic).
    { unfold TEx.submit_executed_event. destruct (vs_forced_failure s1); [done|]. destruct (vs_consensus s1) as [k|]; [|done].
      specialize (Hk (te_event ev) k). by destruct (consensus_submit _ _) as [k' [i|e|]]. }
    destruct (TEx.submit_executed_event a tid ev us pr s1) as [s2 [id|e|]]; [| |done].
    + destruct Hs as (-> & Hev & Hdag & Hst & Hn & _). eexists _, _. split; [done|]. split; [|done]. split; [done|].
      cbn. eexists _, _. by split_and!.
    + destruct Hs as [Hst Hn]. eexists _, _. split; [done|]. by split.
  - apply covered_nil in Hc1. eexists _, _. split; [done|]. split; [|done]. split; [done|]. cbn. split; [done|].
    destruct Hpend as (t & Ht & Hev & Hi). eexists. cbn. rewrite lookup_alter_eq, Ht1, Ht. cbn. by split_and!.
Qed.

(** C23: a submitted transfer is answered, its coins are released, and the
    answer is true.  Under the conditions of [submittable], whatever the
    subnet, the coins of the sender, the semaphore, the serializer, the network
    and the solver do, a request is answered with the id that was counted for
    it; no reservation it made is left; when the answer is a success, the named
    event is stored and the tracker says executed, otherwise no event is named
    and the tracker says failed.  The conditions: the reservation ids that this call
    draws are its own and not nil; reservations are enabled and none of this
    call's is there yet; other tasks and the collector leave the
    transfer alone and the collector releases what it is given; the amount and
    the balances are [u64]; every coin of the sender in the subnet can be read
    (otherwise one stays reserved: [unreadable_coin_stays_reserved]); the router
    has shards and a cached ring that is not mistaken for that of the
    candidates; when tasks are batched the executor knows every solver of the
    router (otherwise the coins stay reserved: [unknown_solver_keeps_coins]);
    JSON and consensus do not panic. *)
Theorem submission_settles (now now_ms nanos : Z) (a : TEx.Awaits (K := K)) (sent : TEx.SendOutcome)
    (collector : BatchEntry → ValidatorService K → ValidatorService K * option (result string Outcome))
    (v : string) (tp : TaskPreparer P) (vlc_time : Z) (request : SubmitTransferRequest) (s : ValidatorService K)
    (Hs : submittable now nanos a collector tp request (transfer_of now now_ms v vlc_time request s) s) :
  ∃ s' resp,
    TH.submit_transfer now now_ms nanos turns a sent collector v tp vlc_time request s = (s', Ok resp) ∧
    told (TH.transfer_id now (vs_transfer_counter s)) resp s' ∧ none_own turns (vs_reservations s').
Proof.
  destruct Hs as [Hm He Hno Henv Hcol Hu Hcoins Hroute Hknown Hj Hk].
  destruct (transfer_of_fields now now_ms v vlc_time request s) as [Hfrom Hamount].
  set (t := transfer_of now now_ms v vlc_time request s) in *. set (tid := TH.transfer_id now (vs_transfer_counter s)) in *.
  unfold TH.submit_transfer. fold tid. change (match sq_authorization request with Some au => _ | None => _ end) with t.
  assert (Hfail : ∀ msg steps s1, none_own turns (vs_reservations s1) →
    ∃ s' resp, (let '(s2, r) := TH.fail_transfer tid msg steps now s1 in (s2, Ok r)) = (s', Ok resp : result string _) ∧
      told tid resp s' ∧ none_own turns (vs_reservations s')).
  { intros msg steps s1 Hn. pose proof (fail_told tid msg steps now s1 Hn) as Hf.
    destruct (TH.fail_transfer tid msg steps now s1) as [s2 r]. by exists s2, r. }
  pose proof (resolve_total t) as Hres. destruct (Tr.resolve_subnet_id t) as [sn|e|] eqn:Hsn; [|by apply Hfail|done].
  destruct (Hcoins sn eq_refl) as [Hb Hrd]. rewrite <-Hfrom in Hb, Hrd.
  pose proof (prepare_tracked turns Hforeign Hids now_ms nanos tp t sn (vs_reservations s) He Hno) as Hprep. cbv zeta in Hprep.
  rewrite Hamount in Hprep. specialize (Hprep Hu Hb Hrd). cbn [VS.count_transfer vs_reservations].
  destruct (TP.prepare_transfer_task_with_reservation now_ms nanos turns tp t sn (vs_reservations s)) as [m [[task hs]|e|]];
    [|by apply Hfail|done].
  destruct Hprep as (Hon & Htr & Hp).
  change (vs_router (VS.on_reservations (fun _ => m) (VS.count_transfer s))) with (vs_router s).
  pose proof (route_outcomes (vs_router s) nanos t sn Hsn (Hroute sn eq_refl)) as Hr.
  destruct (RM.route_transfer nanos t (vs_router s)) as [r' [sid|e|]]; [| |by destruct Hr].
  - destruct Hr as (_ & (conn & Hconn & _) & _). apply run_told; [done|done| |done|done|done|done| |done|done].
    + intros Hbatch. apply Hknown; [done|]. by exists conn.
    + eexists. cbn. rewrite lookup_insert_eq. by split_and!.
  - apply Hfail. cbn. intros c rv Hrv Ho. destruct (release_batch_lookup _ _ _ _ Hon Hp Hrv) as [H1 H2]. by apply H2, Htr.
Qed.

(** Without a guard: a solver that the batch path does not know is refused, and
    the coins stay reserved. *)
Lemma unknown_solver_keeps_coins a sent collector v tid sid task hs (s : ValidatorService K) :
  vs_batch_tx s && vs_batch_alive s = true → vs_solver_info s !! sid = None →
  TEx.execute_solver_inline_batch a sent collector v tid sid task hs s = (s, Err ("Solver not found: " +:+ sid)%string).
Proof. intros Hb Hs. unfold TEx.execute_solver_inline_batch. by rewrite Hb, Hs. Qed.
End Submission.
