(* ===== verification/BatchProps.v ===== *)
(** * Theorems on batches of transfers

    Every transfer of a batch becomes one task or one failure, and every
    request of a batch is answered once, in order. *)

From Stdlib Require Import ZArith Lia Sorting.Sorted.
From stdpp Require Import base gmap sets list sorting strings numbers pretty.
From S2P Require Import Prelude Hash Event Coin StateStore Resource Executor ExecutorProps StateManager Reservation Task Stf StateProvider TaskPreparer SelectProps PrepareProps SolverRouter RouterProps TransferService ServiceProps.
#[local] Open Scope Z_scope.

(** ** Groups of a map of lists *)

Section Multimap.
Context {Key A : Type} `{Countable Key}.

Definition all_items (g : gmap Key (list A)) : list A := mjoin (map_to_list g).*2.

(** Adding an item to the list of a key. *)
Lemma all_items_push (g : gmap Key (list A)) k it :
  all_items (<[k := default [] (g !! k) ++ [it]]> g) ≡ₚ it :: all_items g.
Proof.
  unfold all_items. destruct (g !! k) as [l|] eqn:Hk; cbn [default].
  - rewrite <-insert_delete_eq, map_to_list_insert by apply lookup_delete_eq.
    rewrite <-(map_to_list_delete g k l Hk). cbn. rewrite <-app_assoc. cbn. by rewrite <-Permutation_middle.
  - rewrite map_to_list_insert by done. done.
Qed.
End Multimap.

Section Batch.
Context `{B : Blake3} `{X : HexCrate} `{SB : StateBcs} `{PB : ProofBcs} {St : Type}.
Context (turns : nat → CR.Turn).

Abbreviation Item := (nat * TransferReq)%type.
Definition item_id (it : Item) : string := tr_id it.2.

(** ** Grouping *)

Lemma resolve_no_panic t : BTP.resolve t ≠ Panic.
Proof. unfold BTP.resolve. pose proof (resolve_total t). by destruct (Tr.resolve_subnet_id t). Qed.

(** Each item is in one group, or failed. *)
Lemma group_accounts items g fs :
  ∃ failed, (foldl BTP.group_step (g, fs) items).2.*1 = fs.*1 ++ failed.*2 ∧
    all_items (foldl BTP.group_step (g, fs) items).1 ++ failed ≡ₚ all_items g ++ items.
Proof.
  revert g fs. induction items as [|it items IH]; intros g fs; [exists []; by rewrite !app_nil_r|].
  cbn [foldl]. unfold BTP.group_step at 2 4. pose proof (resolve_no_panic it.2) as Hp.
  destruct (BTP.resolve it.2) as [sn|e|]; [| |done]; cbn [fst snd].
  - destruct (IH (<[(tr_from it.2, sn) := default [] (g !! (tr_from it.2, sn)) ++ [it]]> g) fs) as (failed & Hf & Hperm).
    exists failed. split; [done|]. rewrite Hperm, all_items_push. apply Permutation_middle.
  - destruct (IH g (fs ++ [(it.2, e)])) as (failed & Hf & Hperm). exists (it :: failed). split.
    + rewrite Hf, fmap_app, <-app_assoc. done.
    + rewrite <-Permutation_middle, Hperm. apply Permutation_middle.
Qed.

(** ** Choosing *)

Abbreviation ChSt := (BTP.Chosen ReservationHandle * CoinReservationManager * nat)%type.

(** The items seen are the chosen and the failed. *)
Definition accounts (fs0 : list TransferReq) (seen : list Item) (st : ChSt) : Prop :=
  ∃ taken failed, (map_to_list (BTP.ch_coins st.1.1)).*1 ≡ₚ taken.*1 ∧
    (BTP.ch_failures st.1.1).*1 = fs0 ++ failed.*2 ∧ taken ++ failed ≡ₚ seen.

Lemma choose_accounts available sender sn fs0 seen st it :
  accounts fs0 seen st → it.1 ∉ seen.*1 →
  accounts fs0 (seen ++ [it]) (BTP.choose_reserved turns available sender sn st it).
Proof.
  destruct st as [[c m] i]. intros (taken & failed & Ht & Hf & Hp) Hn.
  assert (Hfail : ∀ e b m' i', accounts fs0 (seen ++ [it]) (BTP.chosen_fail it.2 e b c, m', i')).
  { intros e b m' i'. exists taken, (failed ++ [it]). split_and!; [done| |by rewrite app_assoc, Hp].
    cbn in *. by rewrite !fmap_app, Hf, <-app_assoc. }
  unfold BTP.choose_reserved. case_bool_decide; [apply Hfail|].
  destruct (TP.reserve_first _ _ _ _ _ _) as [m' [[coin h]|]]; [|apply Hfail].
  exists (taken ++ [it]), failed. cbn [fst snd BTP.chosen_take BTP.ch_coins BTP.ch_failures]. split_and!; [|done|].
  - rewrite map_to_list_insert; [cbn; rewrite Ht, fmap_app; cbn; by rewrite Permutation_app_comm|].
    apply not_elem_of_dom. intros Hin. apply Hn. rewrite <-Hp, fmap_app. apply elem_of_app. left. rewrite <-Ht.
    apply elem_of_dom in Hin as [v Hv]. apply list_elem_of_fmap. exists (it.1, v). split; [done|]. by apply elem_of_map_to_list.
  - rewrite <-Hp, <-!app_assoc. apply Permutation_app_head, Permutation_app_comm.
Qed.

Lemma choose_list_accounts available sender sn fs0 items seen st :
  accounts fs0 seen st → NoDup (seen ++ items).*1 →
  accounts fs0 (seen ++ items) (foldl (BTP.choose_reserved turns available sender sn) st items).
Proof.
  revert seen st. induction items as [|it items IH]; intros seen st Ha Hnd; [by rewrite app_nil_r|].
  cbn [foldl]. rewrite (app_assoc seen [it] items : seen ++ it :: items = _). apply IH.
  - apply choose_accounts; [done|]. rewrite fmap_app in Hnd. apply list.NoDup_app in Hnd as (_ & Hnd & _).
    intros Hin. apply (Hnd it.1 Hin). by left.
  - by rewrite <-app_assoc.
Qed.

Lemma choose_groups_accounts (coins : (string * SubnetId) → list CoinInfo) fs0
    (gs : list ((string * SubnetId) * list Item)) seen st :
  accounts fs0 seen st → NoDup (seen ++ mjoin gs.*2).*1 →
  accounts fs0 (seen ++ mjoin gs.*2)
    (foldl (fun st g => foldl (BTP.choose_reserved turns (coins g.1) g.1.1 g.1.2) st g.2) st gs).
Proof.
  revert seen st. induction gs as [|g gs IH]; intros seen st Ha Hnd; [by rewrite app_nil_r|].
  cbn in *. rewrite app_assoc in *. apply IH; [|done]. apply choose_list_accounts; [done|].
  rewrite fmap_app in Hnd. by apply list.NoDup_app in Hnd as [? _].
Qed.

(** ** Assembling *)

Definition task_tid (task : SolverTask) : string :=
  match te_transfer (st_event task) with Some t => tr_id t | None => "" end.

Definition id_at (ts : list TransferReq) (i : nat) : option string := tr_id <$> ts !! i.

Abbreviation Asm := (list SolverTask * list (option ReservationHandle) * list (TransferReq * TaskPrepareError) * CoinReservationManager)%type.

Definition asm_step (now nanos : Z) (bp : TaskPreparer (MerkleStateProvider St)) (snap : BatchStateSnapshot)
    (ts : list TransferReq) (acc : Asm) (e : nat * (CoinInfo * SubnetId * ReservationHandle)) : Asm :=
  let '(tasks, handles, failures, m) := acc in
  let '(idx, (c, sn, h)) := e in
  match ts !! idx with
  | None => acc
  | Some t =>
      match BTP.assemble now nanos bp snap t c sn with
      | Ok task => (tasks ++ [task], handles ++ [Some h], failures, m)
      | Err err => (tasks, handles, failures ++ [(t, err)], CR.release h m)
      | Panic => acc
      end
  end.

(** Each chosen transfer becomes a task or a failure. *)
Lemma assemble_accounts now nanos bp snap ts entries acc :
  let '(tasks, handles, fs, _) := foldl (asm_step now nanos bp snap ts) acc entries in
  (task_tid <$> tasks) ++ (tr_id <$> fs.*1) ≡ₚ
    ((task_tid <$> acc.1.1.1) ++ (tr_id <$> acc.1.2.*1)) ++ omap (id_at ts) entries.*1 ∧
  (length acc.1.1.2 = length acc.1.1.1 → length handles = length tasks).
Proof.
  revert acc. induction entries as [|[idx [[c sn] h]] entries IH]; intros [[[tasks handles] fs] m]; [by rewrite app_nil_r|].
  cbn [foldl]. set (acc' := asm_step _ _ _ _ _ _ _). specialize (IH acc'). subst acc'. unfold asm_step in *.
  change ((idx, (c, sn, h)) :: entries).*1 with (idx :: entries.*1). cbn [omap list_omap].
  unfold id_at at 1. destruct (ts !! idx) as [t|] eqn:Ht; [|exact IH]. cbn [fmap option_fmap option_map].
  assert (Hok : (∃ task, BTP.assemble now nanos bp snap t c sn = Ok task ∧ task_tid task = tr_id t) ∨
    ∃ e, BTP.assemble now nanos bp snap t c sn = Err e).
  { unfold BTP.assemble. destruct (bs_objects snap !! _); [left|right]; eexists; done. }
  destruct Hok as [(task & Hok & Hid)|(e & Hok)]; rewrite Hok in *;
    destruct (foldl _ _ entries) as [[[tasks' handles'] fs'] m']; destruct IH as [IH Hl]; cbn [fst snd] in *.
  - split; [|intros E; apply Hl; rewrite !length_app; cbn; lia]. rewrite IH, fmap_app. cbn. rewrite Hid.
    rewrite <-!app_assoc. apply Permutation_app_head. cbn. rewrite <-!Permutation_middle. done.
  - split; [|done]. rewrite IH, !fmap_app. cbn. rewrite <-!app_assoc. done.
Qed.

(** The chosen indices, in the order of the batch. *)
Lemma entries_indices (coins : gmap nat (CoinInfo * SubnetId * ReservationHandle)) n :
  (∀ i, i ∈ dom coins → (i < n)%nat) →
  (omap (fun idx => (fun c => (idx, c)) <$> coins !! idx) (seq 0 n)).*1 ≡ₚ (map_to_list coins).*1.
Proof.
  intros Hdom. set (l := omap _ _).
  assert (Hl : ∀ i, i ∈ l.*1 ↔ i ∈ dom coins).
  { intros i. unfold l. rewrite list_elem_of_fmap. setoid_rewrite list_elem_of_omap. rewrite elem_of_dom. split.
    - intros ([j v] & -> & k & _ & Hk). destruct (coins !! k) eqn:E; cbn in Hk; [|done]. injection Hk as <- _. cbn. by eexists.
    - intros [v Hv]. exists (i, v). split; [done|]. exists i. rewrite Hv. split; [|done]. apply elem_of_seq.
      pose proof (Hdom i (elem_of_dom_2 _ _ _ Hv)). lia. }
  apply NoDup_Permutation.
  - assert (Hsub : ∀ k, NoDup (omap (fun idx => (fun c => (idx, c)) <$> coins !! idx) (seq k n)).*1).
    { clear. induction n as [|n IH]; intros k; [constructor|]. cbn. destruct (coins !! k) as [v|]; cbn; [|apply IH].
      apply list.NoDup_cons. split; [|apply IH]. intros ([j w] & -> & Hin)%list_elem_of_fmap.
      apply list_elem_of_omap in Hin as (i & Hi%elem_of_seq & Hw). destruct (coins !! i); cbn in Hw; [|done]. injection Hw as -> _.
      cbn in Hi. lia. }
    apply Hsub.
  - apply NoDup_fst_map_to_list.
  - intros i. rewrite Hl, elem_of_dom. rewrite list_elem_of_fmap. split.
    + intros [v Hv]. exists (i, v). split; [done|]. by apply elem_of_map_to_list.
    + intros ([j v] & -> & Hj%elem_of_map_to_list). by exists v.
Qed.

Lemma items_lookup (ts : list TransferReq) it : it ∈ zip (seq 0 (length ts)) ts → ts !! it.1 = Some it.2.
Proof.
  intros (i & Hi)%list_elem_of_lookup. rewrite lookup_zip_with in Hi. destruct (seq 0 (length ts) !! i) as [j|] eqn:Hj; [|done].
  destruct (ts !! i) as [t|] eqn:Ht; [|done]. cbn in Hi. injection Hi as <-. apply lookup_seq in Hj as [-> _]. done.
Qed.

Lemma item_ids ts (l : list Item) :
  (∀ it, it ∈ l → ts !! it.1 = Some it.2) → omap (id_at ts) l.*1 = item_id <$> l.
Proof.
  induction l as [|it l IH]; intros Hl; [done|]. cbn. unfold id_at at 1. rewrite (Hl it (list_elem_of_here _ _)). cbn. f_equal.
  apply IH. intros it' Hin. apply Hl. by right.
Qed.

(** Every transfer of a batch becomes a task or a failure, with its id, and every
    task has a reservation. *)
Lemma batch_prepare_accounts now nanos bp ts m :
  let br := (BTP.prepare_transfers_batch_with_reservation (St := St) now nanos turns bp ts m).2 in
  (task_tid <$> bp_tasks br) ++ (tr_id <$> (bp_failures br).*1) ≡ₚ tr_id <$> ts ∧
  length (bp_reservations br) = length (bp_tasks br).
Proof.
  unfold BTP.prepare_transfers_batch_with_reservation. case_bool_decide as Hnil; [by subst|].
  set (snap := BSnap.create_batch_snapshot _ _). unfold BTP.group. set (items := zip (seq 0 (length ts)) ts).
  destruct (group_accounts items ∅ []) as (failed0 & Hf0 & Hp0). destruct (foldl BTP.group_step (∅, []) items) as [groups fs0].
  cbn [fst snd fmap list_fmap app] in Hf0, Hp0. change (all_items (∅ : gmap (string * SubnetId) (list Item))) with ([] : list Item) in Hp0. cbn [app] in Hp0.
  assert (Hnd : NoDup items.*1) by (unfold items; rewrite fst_zip; [apply NoDup_seq|rewrite length_seq; lia]).
  pose proof (choose_groups_accounts (fun k => default [] (bs_coins snap !! k)) (fs0.*1) (map_to_list groups) []
    (BTP.mkChosen ∅ ∅ fs0 0, m, 0%nat)) as Hch.
  destruct Hch as (taken & failed & Ht & Hf & Hp).
  { exists [], []. split_and!; [done|by rewrite app_nil_r|done]. }
  { cbn [app]. change (mjoin (map_to_list groups).*2) with (all_items groups). rewrite <-Hp0, fmap_app in Hnd. by apply list.NoDup_app in Hnd as [? _]. }
  cbn [app] in Hp. change (mjoin (map_to_list groups).*2) with (all_items groups) in Hp.
  destruct (foldl _ (BTP.mkChosen ∅ ∅ fs0 0, m, 0%nat) (map_to_list groups)) as [[chosen m1] k]. cbn [fst snd] in *.
  assert (Hin : ∀ it, it ∈ taken → ts !! it.1 = Some it.2).
  { intros it Hit. apply items_lookup. fold items. rewrite <-Hp0, <-Hp. set_solver. }
  set (entries := omap _ _).
  pose proof (assemble_accounts now nanos bp snap ts entries ([], [], BTP.ch_failures chosen, m1)) as Has.
  change (foldl _ ([], [], BTP.ch_failures chosen, m1) entries) with (foldl (asm_step now nanos bp snap ts) ([], [], BTP.ch_failures chosen, m1) entries).
  destruct (foldl _ _ entries) as [[[tasks handles] fs] m2]. destruct Has as [Has Hl]. cbn [fst snd bp_tasks bp_failures bp_reservations] in *.
  split; [|by apply Hl]. rewrite Has. cbn [fmap list_fmap app].
  assert (Hent : entries.*1 ≡ₚ taken.*1).
  { rewrite <-Ht. apply entries_indices. intros i [v Hv]%elem_of_dom.
    assert (i ∈ taken.*1) as (it & -> & Hit)%list_elem_of_fmap.
    { rewrite <-Ht. apply list_elem_of_fmap. exists (i, v). split; [done|]. by apply elem_of_map_to_list. }
    apply Hin in Hit. by eapply lookup_lt_Some. }
  rewrite Hent, (item_ids ts taken Hin), Hf, Hf0, !fmap_app.
  assert (Hids : tr_id <$> ts = item_id <$> items).
  { unfold items. rewrite <-(snd_zip (seq 0 (length ts)) ts) at 1 by (rewrite length_seq; lia). by rewrite <-list_fmap_compose. }
  rewrite Hids, <-Hp0, <-Hp, !fmap_app. unfold item_id. rewrite <-!list_fmap_compose.
  rewrite (Permutation_app_comm (_ <$> failed0)). rewrite <-app_assoc. rewrite (Permutation_app_comm (_ <$> failed0)).
  rewrite app_assoc. apply Permutation_app_tail, Permutation_app_comm.
Qed.
End Batch.

(** ** A router that keeps working *)

Section Steady.
Context `{B : Blake3} `{X : HexCrate}.

(** The cached ring is that of a list of solvers, perhaps one that has since
    changed, and a subnet whose candidates have the hash of the list has its ids. *)
Definition cache_apart (m : RouterManager) : Prop :=
  match ch_ring_cache (rm_consistent_hash m) with
  | Some (h, r) => ∃ l, h = CH.solvers_hash l ∧ r = CH.build_ring (ch_virtual_nodes (rm_consistent_hash m)) l ∧
      ∀ sn now, CH.solvers_hash l = CH.solvers_hash (RM.info_of now <$> pool m sn) → rs_id <$> l = sc_id <$> pool m sn
  | None => True
  end.

Record steady (m : RouterManager) : Prop := mkSteady {
  st_registered : registered m;
  st_shards : ∃ n, 0 < n ∧ rm_router m = UR.with_shard_count n;
  st_nodes : ch_virtual_nodes (rm_consistent_hash m) ≠ 0%nat;
  st_cache : cache_apart m;
  st_distinct : ∀ sn sn' now now', CH.solvers_hash (RM.info_of now <$> pool m sn) = CH.solvers_hash (RM.info_of now' <$> pool m sn') →
    sc_id <$> pool m sn = sc_id <$> pool m sn'
}.

Lemma steady_routable m now sn : steady m → routable m now sn.
Proof.
  intros [Hr Hs Hn Hc Hd]. split; [done|done|done|]. intros h r Hcache Hh. unfold cache_apart in Hc. rewrite Hcache in Hc.
  destruct Hc as (l & -> & -> & Hids). apply build_ring_ids. rewrite (Hids sn now Hh). by rewrite <-list_fmap_compose.
Qed.

Lemma select_cache c l key :
  (CH.select c l key).1 = c ∨ (CH.select c l key).1 = mkConsistentHash (ch_virtual_nodes c) (Some (CH.solvers_hash l, CH.build_ring (ch_virtual_nodes c) l)).
Proof.
  destruct l as [|a [|b l]]; [by left..|]. unfold CH.select, CH.get_or_build_ring.
  destruct (ch_ring_cache c) as [[h r]|]; [destruct (h =? _)|];
    (destruct (CH.find_in_ring _ _); cbn [fst]; [|]); first [by left|by right].
Qed.

Lemma steady_hash m c :
  steady m → ch_virtual_nodes c = ch_virtual_nodes (rm_consistent_hash m) → cache_apart (RM.set_hash c m) → steady (RM.set_hash c m).
Proof. intros [Hr Hs Hn Hc Hd] Hv Hc'. split; [done|done|cbn; by rewrite Hv|done|exact Hd]. Qed.

Lemma steady_route now t m : steady m → ∃ c, (RM.route_transfer now t m).1 = RM.set_hash c m ∧ steady (RM.set_hash c m).
Proof.
  intros Hst. assert (Hsame : ∃ c, m = RM.set_hash c m ∧ steady (RM.set_hash c m)).
  { exists (rm_consistent_hash m). by destruct m. }
  pose proof (resolve_total t) as Hp. destruct (Tr.resolve_subnet_id t) as [net|e|] eqn:Hsn; [|unfold RM.route_transfer; by rewrite Hsn|done].
  destruct (st_shards _ Hst) as (n & Hn & Hr).
  destruct (tr_preferred_solver t) as [p|] eqn:Hpref; [destruct (RM.is_solver_available_for_subnet p net m) eqn:Hav|].
  { unfold RM.route_transfer. by rewrite Hsn, Hpref, Hav. }
  all: rewrite (route_pool now t m net n Hsn Hr Hn) by (rewrite Hpref; by intros ? [= <-]).
  all: case_bool_decide; [done|]; unfold RM.select_among.
  all: destruct (select_cache (rm_consistent_hash m) (RM.info_of now <$> pool m net) (hex_encode (hv_bytes net))) as [Hc|Hc];
    destruct (CH.select _ _ _) as [c r]; cbn [fst] in *; subst c; eexists; (split; [done|]); apply steady_hash; try done;
    try exact (st_cache _ Hst).
  all: cbn; eexists; (split_and!; [done|done|]); intros sn' now' Hh.
  all: etrans; [|exact (st_distinct _ Hst net sn' now now' Hh)]; by rewrite <-list_fmap_compose.
Qed.
End Steady.

(** ** Answers *)

Lemma position_lookup (ids : list string) i tid : NoDup ids → ids !! i = Some tid → TH.position ids tid = Some i.
Proof.
  intros Hnd Hi. unfold TH.position.
  destruct (list_find_elem_of (eq tid) ids tid) as [[j x] Hj]; [by eapply list_elem_of_lookup_2|done|]. rewrite Hj. cbn. f_equal.
  apply list_find_Some in Hj as (Hj & -> & _). by eapply NoDup_lookup.
Qed.

Section Answers.
Context `{B : Blake3} `{X : HexCrate} {K : Type}.
Context (now nanos : Z) (ids : list string) (Hnd : NoDup ids).
Implicit Type s : ValidatorService K.

(** What a result says is what the tracker says, and a submitted task was
    spawned. *)
Definition result_told s (r : BatchTransferResult) : Prop :=
  ∃ tid t, br_transfer_id r = Some tid ∧ ids !! br_index r = Some tid ∧ vs_transfer_status s !! tid = Some t ∧
    if br_success r then
      tk_status t = "pending_tee_execution"%string ∧ tk_solver_id t = br_solver_id r ∧
      ∃ sp, sp ∈ vs_spawned s ∧ sp_transfer_id sp = tid
    else tk_status t = "failed"%string ∧ is_Some (br_error r).

(** The transfers [seen] so far have their results. *)
Record placed (seen : list string) s (acc : TH.BatchAcc) : Prop := mkPlaced {
  pl_indices : br_index <$> TH.ba_results acc = omap (TH.position ids) seen;
  pl_counts : (TH.ba_submitted acc + TH.ba_failed acc)%nat = length seen;
  pl_told : ∀ r, r ∈ TH.ba_results acc → result_told s r
}.

(** A new result, with its tracker. *)
Lemma placed_step seen s s' acc acc' r tid i tr :
  placed seen s acc → ids !! i = Some tid → tid ∉ seen → (∀ x, x ∈ seen → x ∈ ids) →
  TH.ba_results acc' = TH.ba_results acc ++ [r] → br_index r = i →
  (TH.ba_submitted acc' + TH.ba_failed acc' = S (TH.ba_submitted acc + TH.ba_failed acc))%nat →
  vs_transfer_status s' = <[tid := tr]> (vs_transfer_status s) → vs_spawned s ⊆ vs_spawned s' →
  result_told s' r → placed (seen ++ [tid]) s' acc'.
Proof.
  intros [Hi Hc Ht] Hlk Hnew Hsub Hres Hidx Hcount Htr Hsp Hr. split.
  - rewrite Hres, fmap_app, omap_app, Hi. cbn. by rewrite (position_lookup ids i tid Hnd Hlk), Hidx.
  - rewrite Hcount, Hc, length_app. cbn. lia.
  - intros r' Hr'. rewrite Hres in Hr'. apply elem_of_app in Hr' as [Hr'| ->%list_elem_of_singleton]; [|done].
    destruct (Ht r' Hr') as (tid' & t & H1 & H2 & H3 & H4). exists tid', t. split_and!; [done|done| |].
    + rewrite Htr, lookup_insert_ne; [done|]. intros <-. apply Hnew.
      assert (br_index r' ∈ omap (TH.position ids) seen) as (x & Hx & Hpos)%list_elem_of_omap
        by (rewrite <-Hi; by apply list_elem_of_fmap_2).
      destruct (proj1 (list_elem_of_lookup _ _) (Hsub x Hx)) as [j Hj].
      rewrite (position_lookup ids j x Hnd Hj) in Hpos. injection Hpos as ->. rewrite Hj in H2. by injection H2 as <-.
    + destruct (br_success r'); [|done]. destruct H4 as (? & ? & sp & Hin & ?). split_and!; [done..|]. exists sp. split; [by apply Hsp|done].
Qed.

Lemma place_tasks_spec (ts : list TransferReq) items seen s acc :
  ids = tr_id <$> ts → steady (vs_router s) → placed seen s acc → TH.ba_success acc = list_to_set (omap (TH.position ids) seen) →
  NoDup (seen ++ (task_tid <$> items.*1)) → (∀ x, x ∈ seen ++ (task_tid <$> items.*1) → x ∈ ids) →
  ∃ s' acc', foldl (TH.place_task now nanos ts) (s, Ok acc) items = (s', Ok acc' : result string _) ∧
    placed (seen ++ (task_tid <$> items.*1)) s' acc' ∧
    TH.ba_success acc' = list_to_set (omap (TH.position ids) (seen ++ (task_tid <$> items.*1))).
Proof.
  intros Hids. revert seen s acc. induction items as [|[task rsv] items IH]; intros seen s acc Hst Hpl Hsucc Hndup Hsub.
  { exists s, acc. cbn. by rewrite app_nil_r. }
  cbn [foldl]. unfold TH.place_task at 2. change (match te_transfer (st_event task) with Some t => tr_id t | None => ""%string end) with (task_tid task).
  set (tid := task_tid task) in *. change ((task, rsv) :: items).*1 with (task :: items.*1) in *. cbn [fmap list_fmap] in *. fold tid in Hndup, Hsub |- *.
  assert (Hin : tid ∈ ids) by (apply Hsub, elem_of_app; right; by left).
  apply list_elem_of_lookup in Hin as [i Hi]. rewrite <-Hids, (position_lookup ids i tid Hnd Hi).
  assert (Hts : ∃ t, ts !! i = Some t).
  { rewrite Hids, list_lookup_fmap in Hi. destruct (ts !! i) as [t|]; [by exists t|done]. }
  destruct Hts as [t Ht]. rewrite Ht.
  assert (Hnew : tid ∉ seen).
  { apply list.NoDup_app in Hndup as (_ & Hd & _). intros Hs. apply (Hd tid Hs). by left. }
  assert (Hsub' : ∀ x, x ∈ seen → x ∈ ids) by (intros x Hx; apply Hsub, elem_of_app; by left).
  assert (Hset : {[i]} ∪ TH.ba_success acc = (list_to_set (omap (TH.position ids) (seen ++ [tid])) : gset nat)).
  { rewrite Hsucc, omap_app, list_to_set_app_L. cbn. rewrite (position_lookup ids i tid Hnd Hi). cbn. set_solver. }
  assert (Happ : seen ++ tid :: (task_tid <$> items.*1) = (seen ++ [tid]) ++ (task_tid <$> items.*1)) by by rewrite <-app_assoc.
  rewrite Happ in *. destruct (steady_route nanos t (vs_router s) Hst) as (c & Hc & Hst').
  assert (Hnp : (RM.route_transfer nanos t (vs_router s)).2 ≠ Panic).
  { pose proof (resolve_total t) as Hp. destruct (Tr.resolve_subnet_id t) as [net|e|] eqn:Hsn; [| |done].
    - pose proof (route_outcomes (vs_router s) nanos t net Hsn (steady_routable _ _ _ Hst)) as Hr.
      destruct (RM.route_transfer _ _ _) as [m [x|x|]]; [done|done|by destruct Hr].
    - unfold RM.route_transfer. by rewrite Hsn. }
  destruct (RM.route_transfer nanos t (vs_router s)) as [m [solver|e|]]; [| |done]; cbn [fst] in Hc; subst m.
  - apply IH; [done| |done|done|done].
    eapply placed_step; [exact Hpl|exact Hi|exact Hnew|exact Hsub'|done|done|cbn; lia|done|cbn; set_solver|].
    eexists tid, _. cbn. rewrite lookup_insert_eq. split_and!; [done|done|done|done|done|]. eexists. split; [apply elem_of_app; right; by left|done].
  - destruct rsv as [h|]; cbn [fst snd TH.failure].
    all: apply IH; [done| |done|done|done].
    all: eapply placed_step; [exact Hpl|exact Hi|exact Hnew|exact Hsub'|done|done|cbn; lia|done|done|].
    all: eexists tid, _; cbn; rewrite lookup_insert_eq; split_and!; [done|done|done|done|by eexists].
Qed.

Lemma place_failures_spec (fs : list (TransferReq * TaskPrepareError)) seen s acc tasks :
  placed seen s acc → TH.ba_success acc = list_to_set (omap (TH.position ids) tasks) →
  NoDup (seen ++ (tr_id <$> fs.*1)) → tasks ⊆ seen → (∀ x, x ∈ seen ++ (tr_id <$> fs.*1) → x ∈ ids) →
  let '(s', acc') := foldl (TH.place_failure now ids) (s, acc) fs in placed (seen ++ (tr_id <$> fs.*1)) s' acc'.
Proof.
  revert seen s acc. induction fs as [|[t e] fs IH]; intros seen s acc Hpl Hsucc Hndup Htasks Hsub; [by rewrite app_nil_r|].
  cbn [foldl]. unfold TH.place_failure at 2. cbn [fst snd fmap list_fmap] in *. set (tid := tr_id t) in *.
  assert (Hin : tid ∈ ids) by (apply Hsub, elem_of_app; right; by left).
  apply list_elem_of_lookup in Hin as [i Hi]. rewrite (position_lookup ids i tid Hnd Hi).
  assert (Hnew : tid ∉ seen).
  { apply list.NoDup_app in Hndup as (_ & Hd & _). intros Hs. apply (Hd tid Hs). by left. }
  assert (Hsub' : ∀ x, x ∈ seen → x ∈ ids) by (intros x Hx; apply Hsub, elem_of_app; by left).
  rewrite bool_decide_eq_false_2.
  2: { rewrite Hsucc, elem_of_list_to_set. intros (x & Hx & Hpos)%list_elem_of_omap. apply Hnew.
       destruct (proj1 (list_elem_of_lookup _ _) (Hsub' x (Htasks x Hx))) as [j Hj].
       rewrite (position_lookup ids j x Hnd Hj) in Hpos. injection Hpos as ->. rewrite Hj in Hi. injection Hi as ->. by apply Htasks. }
  assert (Happ : seen ++ tid :: (tr_id <$> fs.*1) = (seen ++ [tid]) ++ (tr_id <$> fs.*1)) by by rewrite <-app_assoc.
  rewrite Happ in *. cbn [TH.failure]. apply IH; [|done|done|set_solver|done].
  eapply placed_step; [exact Hpl|exact Hi|exact Hnew|exact Hsub'|done|done|cbn; lia|done|done|].
  eexists tid, _. cbn. rewrite lookup_insert_eq. split_and!; [done|done|done|done|by eexists].
Qed.
End Answers.

Lemma imap_fst {A C} (f : nat → A → A * C) l : (∀ i a, (f i a).1 = a) → (imap f l).*1 = l.
Proof.
  revert f. induction l as [|a l IH]; intros f Hf; [done|]. cbn. rewrite Hf. f_equal. apply IH. intros i a'. apply Hf.
Qed.

Section Submit.
Context `{B : Blake3} `{X : HexCrate} `{SB : StateBcs} `{PB : ProofBcs} {K St : Type}.
Context (now now_ms nanos : Z) (turns : nat → CR.Turn).
Implicit Type s : ValidatorService K.

Definition ids_from (counter : Z) (n : nat) : list string := (fun i => TH.transfer_id now (counter + Z.of_nat i)) <$> seq 0 n.

Lemma transfer_id_inj c c' : TH.transfer_id now c = TH.transfer_id now c' → c = c'.
Proof. unfold TH.transfer_id, fmt_u64. intros Heq. by repeat (apply (inj _) in Heq). Qed.

Lemma ids_from_NoDup counter n : NoDup (ids_from counter n).
Proof.
  unfold ids_from. apply NoDup_fmap_2_strong; [|apply NoDup_seq]. intros i j _ _ Heq%transfer_id_inj. lia.
Qed.

Lemma ids_from_succ counter n : ids_from counter (S n) = TH.transfer_id now counter :: ids_from (counter + 1) n.
Proof.
  unfold ids_from. cbn [seq]. rewrite fmap_cons, Z.add_0_r. f_equal. rewrite <-fmap_S_seq, <-list_fmap_compose.
  apply list_fmap_ext. intros i x _. cbn. f_equal. lia.
Qed.

Lemma make_transfers_spec v reqs s :
  0 ≤ vs_transfer_counter s → vs_transfer_counter s + Z.of_nat (length reqs) ≤ u64_max →
  let '(s', ts) := TH.make_transfers now now_ms v reqs s in
  tr_id <$> ts = ids_from (vs_transfer_counter s) (length reqs) ∧ vs_router s' = vs_router s.
Proof.
  revert s. induction reqs as [|r reqs IH]; intros s H0 Hu; [done|]. cbn [TH.make_transfers length] in *.
  specialize (IH (VS.count_vlc (VS.count_transfer s))).
  assert (Hnext : vs_transfer_counter (VS.count_vlc (VS.count_transfer s)) = vs_transfer_counter s + 1).
  { cbn. unfold u64_add. apply wrap64_small. unfold is_u64. lia. }
  rewrite Hnext in IH. destruct (TH.make_transfers _ _ _ reqs _) as [s' ts]. destruct IH as [IH Hr]; [lia|lia|].
  rewrite ids_from_succ. cbn. rewrite IH. done.
Qed.

Lemma by_index_sorted (l : list BatchTransferResult) n :
  br_index <$> l ≡ₚ seq 0 n → br_index <$> stable_sort TH.by_index l = seq 0 n.
Proof.
  intros Hp. apply (StronglySorted_unique_strong (Nat.le)).
  - intros a b _ _. lia.
  - assert (Hs : StronglySorted (fun a b => TH.by_index a b = true) (stable_sort TH.by_index l)).
    { apply stable_sort_sorted; unfold TH.by_index; intros *; rewrite !Nat.leb_le; lia. }
    revert Hs. generalize (stable_sort TH.by_index l). intros k. induction 1 as [|a k Hk IH Ha]; cbn; constructor; [done|].
    apply list.Forall_fmap. eapply list.Forall_impl; [exact Ha|]. intros b. unfold TH.by_index. cbn. by rewrite Nat.leb_le.
  - clear. generalize 0%nat. induction n as [|n IH]; intros k; cbn; constructor; [apply IH|].
    apply list.Forall_forall. intros x Hx%elem_of_seq. lia.
  - by rewrite (stable_sort_perm TH.by_index l).
Qed.

(** C24: a batch answers every request once, in order.  A batch of 1 to 200
    requests for which the counter of transfers does not overflow, whatever
    coins and subnets there are, is answered with one result per request, at
    its index; the counts add up; each result names the id that was counted for
    its request, and is true: a submitted transfer is tracked as pending at its
    solver and its task is spawned, a failed one is tracked as failed and has
    an error.  The router is [steady]: its registry is keyed by the ids, it has
    shards, and of the candidates of the subnets and the list of the cached ring
    no two with different ids have the same hash of the ids one after the other;
    otherwise routing may index a stale ring out of range and the batch panics
    ([RouterWit.stale_ring_panics]). *)
Theorem batch_answers_all (v : string) (bp : TaskPreparer (MerkleStateProvider St)) (reqs : list SubmitTransferRequest)
    (s : ValidatorService K)
    (Hn : (0 < length reqs ≤ 200)%nat) (Hc0 : 0 ≤ vs_transfer_counter s)
    (Hc : vs_transfer_counter s + Z.of_nat (length reqs) ≤ u64_max) (Hrouter : steady (vs_router s)) :
  let n := length reqs in
  ∃ s' resp, TH.submit_transfers_batch now now_ms nanos turns v bp reqs s = (s', Ok resp) ∧
    br_index <$> sb_results resp = seq 0 n ∧ (sb_submitted resp + sb_failed resp)%nat = n ∧
    ∀ r, r ∈ sb_results resp → result_told (ids_from (vs_transfer_counter s) n) s' r.
Proof.
  intros n. unfold TH.submit_transfers_batch. fold n.
  destruct (Nat.ltb_spec TH.MAX_BATCH_SIZE n) as [Hgt|_]; [unfold TH.MAX_BATCH_SIZE in Hgt; lia|].
  destruct (Nat.eqb_spec n 0) as [|_]; [lia|].
  pose proof (make_transfers_spec v reqs s Hc0 Hc) as Hm. destruct (TH.make_transfers _ _ _ reqs s) as [s1 ts]. destruct Hm as [Hids Hr1].
  pose proof (batch_prepare_accounts turns now_ms nanos bp ts (vs_reservations s1)) as Hacc. cbv zeta in Hacc.
  destruct (BTP.prepare_transfers_batch_with_reservation _ _ _ _ _ _) as [m br]. cbn [snd] in Hacc. destruct Hacc as [Hacc _].
  fold n in Hids. set (ids := ids_from (vs_transfer_counter s) n) in *. pose proof (ids_from_NoDup (vs_transfer_counter s) n) as Hnd. fold ids in Hnd.
  set (items := imap _ _). assert (Hitems : items.*1 = bp_tasks br).
  { apply imap_fst. done. }
  rewrite Hids in Hacc.
  assert (Hnd2 : NoDup ((task_tid <$> bp_tasks br) ++ (tr_id <$> (bp_failures br).*1))) by by rewrite Hacc.
  destruct (place_tasks_spec now nanos ids Hnd ts items [] (VS.on_reservations (fun _ => m) s1) (TH.mkBatchAcc [] 0 0 ∅))
    as (s2 & acc & Hfold & Hpl & Hsucc).
  - by symmetry.
  - cbn. by rewrite Hr1.
  - split; [done|done|by intros r ?%not_elem_of_nil].
  - done.
  - rewrite Hitems. cbn. by apply list.NoDup_app in Hnd2 as [? _].
  - rewrite Hitems. cbn. intros x Hx. rewrite <-Hacc. apply elem_of_app. by left.
  - rewrite Hfold. rewrite Hitems in Hpl, Hsucc. cbn [app] in Hpl, Hsucc. rewrite Hids.
    pose proof (place_failures_spec now ids Hnd (bp_failures br) (task_tid <$> bp_tasks br) s2 acc (task_tid <$> bp_tasks br)
      Hpl Hsucc Hnd2 ltac:(done)) as Hf.
    destruct (foldl _ (s2, acc) (bp_failures br)) as [s3 acc3]. destruct Hf as [Hi Hcount Htold].
    { intros x Hx. by rewrite <-Hacc. }
    eexists _, _. split; [done|]. cbn [sb_results sb_submitted sb_failed]. split_and!.
    + apply by_index_sorted. rewrite Hi, Hacc.
      assert (Hall : ∀ l k, (∀ j x, l !! j = Some x → ids !! (k + j)%nat = Some x) → omap (TH.position ids) l = seq k (length l)).
      { clear -Hnd. induction l as [|x l IHl]; intros k Hl; [done|]. cbn.
        rewrite (position_lookup ids k x Hnd) by (rewrite <-(Nat.add_0_r k); by apply Hl). f_equal. apply IHl.
        intros j y Hj. rewrite Nat.add_succ_comm. by apply Hl. }
      rewrite (Hall ids 0%nat) by done. unfold ids, ids_from. by rewrite length_fmap, length_seq.
    + rewrite Hcount, Hacc. unfold ids, ids_from. by rewrite length_fmap, length_seq.
    + intros r Hr. apply Htold. by rewrite (stable_sort_perm TH.by_index) in Hr.
Qed.
End Submit.

(** ** Spawned tasks *)

Section Spawned.
Context `{B : Blake3} `{X : HexCrate} `{J : SerdeJson} `{S2 : Sha256} `{BC : Bincode} {K : Type} `{CP : ConsensusPort K}.
Variable Q : ObjectId → Reservation → Prop.
Implicit Type s : ValidatorService K.

(** The tracker tells the end of the task, and nothing is reserved for it. *)
Definition task_ended (tid : string) s : Prop :=
  none_left Q (vs_reservations s) ∧ ((∃ id, status_is tid "executed" (Some id) s) ∨ status_is tid "failed" None s).

Lemma drop_ended tid g s :
  rg_manager g = true → Forall (fun h => reservation_id h ≠ uuid_nil) (rg_handles g) → rv_enabled (vs_reservations s) = true →
  covered Q (vs_reservations s) (rg_handles g) → status_is tid "failed" None s → task_ended tid (RG.drop g s).
Proof.
  intros Hm Hp He Hc (t & Ht & Hst). destruct (drop_settles Q tid g [] s Hm Hp He) as [_ Hc' Ht']; [by rewrite app_nil_r|].
  split; [by apply covered_nil|]. right. exists t. by rewrite Ht'.
Qed.

Lemma ended_pending tid d s : task_ended tid s → task_ended tid (VS.add_pending d s).
Proof. done. Qed.

(** A spawned task ends: its coin is released and its tracker says executed or
    failed, whatever the answer. *)
Lemma spawned_task_settles (a : TEx.Awaits (K := K)) (v : string) (t : SpawnedTask) s :
  (∀ i, bystander Q (sp_transfer_id t) (TEx.aw_env a i)) → vs_manager s = true →
  rv_enabled (vs_reservations s) = true → covered Q (vs_reservations s) (option_list (sp_reservation t)) →
  Forall (fun h => reservation_id h ≠ uuid_nil) (option_list (sp_reservation t)) → tracked_pending (sp_transfer_id t) s →
  (∀ j, is_Some (json_to_vec j)) → (∀ e (k : K), (consensus_submit e k).2 ≠ Panic) →
  task_ended (sp_transfer_id t) (TEx.execute_tee_task_internal a v t s).
Proof.
  intros Ha Hm He Hc Hp Hpend Hj Hk. set (tid := sp_transfer_id t) in *. unfold TEx.execute_tee_task_internal. fold tid.
  set (g := RG.new s (sp_reservation t) tid).
  assert (Henv : ∀ i s0, rv_enabled (vs_reservations s0) = true → covered Q (vs_reservations s0) (rg_handles g) → tracked_pending tid s0 →
    rv_enabled (vs_reservations (TEx.aw_env a i s0)) = true ∧ covered Q (vs_reservations (TEx.aw_env a i s0)) (rg_handles g) ∧
    tracked_pending tid (TEx.aw_env a i s0)).
  { intros i s0 H1 H2 H3. destruct (Ha i) as [E1 E2 E3] eqn:E. split_and!; [by rewrite E1|by eapply bystander_covered|].
    unfold tracked_pending. by rewrite E3. }
  destruct (Henv 0%nat s He Hc Hpend) as (He0 & Hc0 & Hp0). set (s0 := TEx.aw_env a 0 s) in *.
  assert (Hfail : ∀ msg d s1, rv_enabled (vs_reservations s1) = true → covered Q (vs_reservations s1) (rg_handles g) → tracked_pending tid s1 →
    task_ended tid (RG.drop g (VS.add_pending d (TEx.update_tracker_failed tid msg (TEx.aw_now a) s1))) ∧
    task_ended tid (RG.drop g (TEx.update_tracker_failed tid msg (TEx.aw_now a) s1))).
  { intros msg d s1 H1 H2 H3. pose proof (failed_status tid msg (TEx.aw_now a) s1 H3) as Hst. split; by apply drop_ended. }
  destruct (negb (TEx.aw_permit a)); [by apply (Hfail _ 0)|].
  set (s1 := VS.add_pending 1 s0).
  destruct (vs_solver_info s1 !! sp_solver_id t) as [info|]; [|by apply Hfail].
  destruct (bin_request _) as [err|body]; [by apply Hfail|].
  destruct (Henv 1%nat s1 He0 Hc0 Hp0) as (He2 & Hc2 & Hp2). set (s2 := TEx.aw_env a 1 s1) in *.
  assert (Hsettle : ∀ msg, task_ended tid (VS.add_pending (-1) (RG.drop g (TEx.update_tracker_failed tid msg (TEx.aw_now a) s2)))).
  { intros msg. apply ended_pending. by apply (Hfail msg 0). }
  destruct (TEx.aw_http a _ body) as [err|code text rbody|[err|b]]; [apply Hsettle|apply Hsettle|by apply Hfail|].
  destruct (bin_response b) as [err|resp]; [apply Hsettle|].
  pose proof (accept_outcome g resp "No result in response" "" (st_subnet_id (sp_task t)) (st_event (sp_task t)) s2) as Hout.
  unfold TEx.accept in *. destruct (resp_success resp) eqn:Hsu; [|apply Hsettle]. destruct (resp_result resp) as [dto|]; [|apply Hsettle].
  pose proof (executed_event_ok dto (resp_message resp) "" (st_subnet_id (sp_task t)) (st_event (sp_task t)) Hj) as Hne.
  destruct (TX.executed_event _ _ _ _ _) as [e|msg|]; [|apply Hsettle|done]. clear Hout.
  destruct (drop_settles Q tid g [] s2 Hm Hp He2) as [He3 Hc3 Ht3]; [by rewrite app_nil_r|].
  pose proof (drop_after_release g s2) as Hd. unfold RG.drop in He3, Hc3, Ht3, Hd. destruct (RG.release g s2) as [s3 g3] eqn:Hrel. cbn [fst snd] in *.
  apply covered_nil in Hc3.
  assert (Hp3 : tracked_pending tid s3) by (unfold tracked_pending; by rewrite Ht3).
  assert (Hg3 : ∀ s4, RG.drop g3 s4 = s4).
  { intros s4. unfold RG.release in Hrel. change (rg_manager g) with (vs_manager s) in Hrel. rewrite Hm in Hrel. by injection Hrel as _ <-. }
  pose proof (submit_spec Q a tid e (dr_execution_time_us dto) (dr_events_processed dto) s3 Ha Hp3 Hc3) as Hs.
  assert (Hnp : (TEx.submit_executed_event a tid e (dr_execution_time_us dto) (dr_events_processed dto) s3).2 ≠ Panic).
  { unfold TEx.submit_executed_event. destruct (vs_forced_failure s3); [done|]. destruct (vs_consensus s3) as [k|]; [|done].
    specialize (Hk (te_event e) k). by destruct (consensus_submit _ _) as [k' [i|e'|]]. }
  destruct (TEx.submit_executed_event _ _ _ _ _ s3) as [s4 [id|err|]]; [| |done]; rewrite Hg3; apply ended_pending.
  - destruct Hs as (_ & _ & _ & Hst & Hn & _). split; [done|]. left. by exists id.
  - destruct Hs as [Hst Hn]. split; [done|]. by right.
Qed.
End Spawned.
