(* ===== verification/ServiceWit.v ===== *)
(** * An example of a submission

    The request of [TransferProps], submitted to a validator that batches tasks,
    with a solver that answers.  The hypotheses of the theorems of
    [ServiceProps] and [BatchProps] hold of it. *)

From Stdlib Require Import ZArith Lia.
From stdpp Require Import base gmap sets list sorting strings numbers.
From S2P Require Import Prelude Hash Event Coin StateStore Resource Executor ExecutorProps StateManager Reservation Task Stf StateProvider TaskPreparer SelectProps PrepareProps TransferProps SolverRouter RouterProps TransferService ServiceProps BatchProps.
#[local] Open Scope Z_scope.
#[local] Existing Instance toy_blake3.
#[local] Existing Instance hex_lower.

Module SWit.
(** Consensus takes every event. *)
#[global] Instance port : ConsensusPort unit := fun e k => (k, Ok (ev_id e)).

(** The solver answers every task without changes. *)
Definition response : ExecuteTaskResponse := mkTaskResponse true "ok" (Some Wit.no_changes) 0.
#[global] Instance bincode : Bincode := {|
  bin_request _ := inr [];
  bin_response _ := inr response;
  bin_batch_request _ := inr [];
  bin_batch_response _ := inr (mkBatchResponse [response] true 1 0 "" 0)
|}.

Definition awaits : TEx.Awaits (K := unit) := TEx.mkAwaits true (fun _ s => s) "r1" (fun _ _ => HttpBody (inr [])) 7.
Definition turns (i : nat) : CR.Turn := CR.mkTurn (fun m => m) (Z.of_nat i + 100) 1.

Definition service : ValidatorService unit :=
  mkService (CR.new 10) true {["a"%string := mkNetSolver "a" "127.0.0.1" 9000 10 None None [] "active" 0;
                               "b"%string := mkNetSolver "b" "127.0.0.1" 9001 10 None None [] "active" 0]}
    ∅ ∅ [] (Some tt) None 0 RouterWit.manager 3 0 true true ∅ [].

Definition request : SubmitTransferRequest :=
  mkSubmit Wit.alice_str (show_id Wit.bob) 30 "setu" None None None [] None None
    (Some (Tr.authorization_new Wit.alice_str "nonce-0001" (wid 77))).

Definition collector := lone_collector awaits (fun _ => awaits).

Lemma awaits_bystander Q tid i : bystander (K := unit) Q tid (TEx.aw_env awaits i).
Proof. by split. Qed.

Lemma turns_foreign : foreign turns.
Proof. intros i m. by split. Qed.

Lemma turns_ids i : CR.turn_id (turns i) ≠ uuid_nil.
Proof. unfold turns, uuid_nil. cbn. lia. Qed.

Lemma request_submittable :
  submittable turns 9 9 awaits collector Wit.preparer request
    (transfer_of 9 9000 "v1" 5 request service) service.
Proof.
  split.
  - reflexivity.
  - reflexivity.
  - intros c r Hr. change (reservations (vs_reservations service)) with (∅ : gmap ObjectId Reservation) in Hr.
    rewrite lookup_empty in Hr. discriminate Hr.
  - intros i. apply awaits_bystander.
  - apply lone_collector_ok; intros; apply awaits_bystander.
  - unfold is_u64, u64_max. cbn. lia.
  - intros sn Hsn. assert (Hroot : Tr.resolve_subnet_id (transfer_of 9 9000 "v1" 5 request service) = Ok SUBNET_ROOT) by (vm_compute; reflexivity).
    rewrite Hroot in Hsn. injection Hsn as <-. split.
    + unfold balances_u64, is_u64. apply (bool_decide_unpack _). vm_compute. exact I.
    + unfold readable. apply (bool_decide_unpack _). vm_compute. exact I.
  - intros sn Hsn. assert (Hroot : Tr.resolve_subnet_id (transfer_of 9 9000 "v1" 5 request service) = Ok SUBNET_ROOT) by (vm_compute; reflexivity).
    rewrite Hroot in Hsn. injection Hsn as <-. destruct RouterWit.request_routable as [H1 H2 H3 H4]. split; [exact H1|exact H2|exact H3|].
    intros h r Hc. discriminate Hc.
  - intros _ id [conn Hid]. change (rm_solver_registry (vs_router service)) with
      (<["b"%string := mkConnection "b" "127.0.0.1" 10 0 Online None None [] [RouterWit.app]]>
        (<["a"%string := RM.connection_new "a" "127.0.0.1" 10]> (∅ : gmap string SolverConnection))) in Hid.
    apply lookup_insert_Some in Hid as [[<- _]|[_ Hid]]; [vm_compute; eexists; reflexivity|].
    apply lookup_insert_Some in Hid as [[<- _]|[_ Hid]]; [vm_compute; eexists; reflexivity|].
    rewrite lookup_empty in Hid. discriminate Hid.
  - intros j. eexists. reflexivity.
  - intros e k. discriminate.
Qed.

(** Two entries of a group. *)
Definition task : SolverTask :=
  match TP.prepare_transfer_task 1000 5000000 Wit.preparer Wit.request SUBNET_ROOT with
  | Ok task => task
  | _ => ST.new zero_hash (TP.create_event_from_transfer 1000 5000000 "v1" Wit.request [] SUBNET_ROOT) RI.new zero_hash SUBNET_ROOT
  end.
Definition entry (n : Z) : BatchEntry :=
  mkBatchEntry "t1" "a" "http://127.0.0.1:9000" (mkTaskRequest task "v1" "r1") (st_event task)
    (mkGuard true [mkHandle n (wid n)] "t1").
Definition busy : ValidatorService unit :=
  VS.on_reservations (fun m => (CR.try_reserve (wid 2) 5 "t2" 2 0 (CR.try_reserve (wid 1) 5 "t1" 1 0 m).1).1) service.

(** The solvers of a subnet are both, or the one that serves every subnet. *)
Lemma pool_cases sn :
  pool RouterWit.manager sn = (map_to_list (rm_solver_registry RouterWit.manager)).*2 ∨
  pool RouterWit.manager sn = [RM.connection_new "a" "127.0.0.1" 10].
Proof.
  unfold pool. destruct (route_ok 16 sn zero_hash) as (r & Hr & _); [lia|].
  change (rm_router RouterWit.manager) with (UR.with_shard_count 16). rewrite Hr.
  change (rm_shard_solvers RouterWit.manager) with (∅ : gmap Z (list string)). rewrite lookup_empty.
  unfold RM.get_solvers_for_subnet.
  assert (Hl : (map_to_list (rm_solver_registry RouterWit.manager)).*2 ≡ₚ
    [mkConnection "b" "127.0.0.1" 10 0 Online None None [] [RouterWit.app]; RM.connection_new "a" "127.0.0.1" 10]).
  { change (rm_solver_registry RouterWit.manager) with
      (<["b"%string := mkConnection "b" "127.0.0.1" 10 0 Online None None [] [RouterWit.app]]>
        (<["a"%string := RM.connection_new "a" "127.0.0.1" 10]> (∅ : gmap string SolverConnection))).
    rewrite map_to_list_insert by (vm_compute; reflexivity). rewrite map_to_list_insert by (apply lookup_empty).
    rewrite map_to_list_empty. reflexivity. }
  revert Hl. generalize (map_to_list (rm_solver_registry RouterWit.manager)).*2. intros l Hl.
  destruct (decide (sn = RouterWit.app)) as [->|Hne].
  - left. apply list_filter_id. intros x Hx. rewrite Hl in Hx. apply elem_of_cons in Hx as [->|Hx]; [vm_compute; reflexivity|].
    apply list_elem_of_singleton in Hx as ->. reflexivity.
  - right. apply Permutation_singleton_r. rewrite Hl. rewrite filter_cons_False, filter_cons_True; [reflexivity|reflexivity|].
    unfold RM.serves, RM.solver_permits_subnet_inner. cbn [sc_permitted_subnets].
    rewrite (bool_decide_eq_false_2 (sn ∈ [RouterWit.app])); [discriminate|].
    intros Hin. apply list_elem_of_singleton in Hin. exact (Hne Hin).
Qed.

Lemma manager_steady : steady RouterWit.manager.
Proof.
  destruct RouterWit.request_routable as [H1 H2 H3 _]. split; [exact H1|exact H2|exact H3|exact I|].
  intros sn sn' now now'. destruct (pool_cases sn) as [-> | ->], (pool_cases sn') as [-> | ->]; intros Heq; try reflexivity;
    vm_compute in Heq; discriminate Heq.
Qed.
End SWit.

(** The request is accepted, and its coin is free again. *)
Lemma submission_settles_witness :
  ∃ s' resp,
    TH.submit_transfer 9 9000 9 SWit.turns SWit.awaits TEx.SendDone SWit.collector "v1" Wit.preparer 5 SWit.request SWit.service
      = (s', Ok resp) ∧
    sp_success resp = true ∧ told "tx-9-3" resp s' ∧ none_own SWit.turns (vs_reservations s').
Proof.
  assert (Hok : match (TH.submit_transfer 9 9000 9 SWit.turns SWit.awaits TEx.SendDone SWit.collector "v1" Wit.preparer 5 SWit.request
    SWit.service).2 with Ok r => sp_success r | _ => false end = true) by (vm_compute; reflexivity).
  pose proof (submission_settles SWit.turns SWit.turns_foreign SWit.turns_ids 9 9000 9 SWit.awaits TEx.SendDone SWit.collector "v1"
    Wit.preparer 5 SWit.request SWit.service SWit.request_submittable) as Hs.
  change (TH.transfer_id 9 (vs_transfer_counter SWit.service)) with "tx-9-3"%string in Hs.
  destruct Hs as (s' & resp & Hs & Htold & Hn). exists s', resp. split; [exact Hs|]. rewrite Hs in Hok. split; [exact Hok|].
  split; [exact Htold|exact Hn].
Defined.

Lemma batch_group_settles_witness :
  let entries := [SWit.entry 1; SWit.entry 2] in
  let '(s', answers) := TEx.execute_batch_group SWit.awaits (fun _ => SWit.awaits) [1; 0]%nat "a" entries SWit.busy in
  settled_from (fun _ _ => True) "other" [] SWit.busy s' ∧
  answers = imap (fun i e => Some (group_answer SWit.awaits (fun _ => SWit.awaits) entries i e)) entries.
Proof.
  cbv zeta.
  assert (Hg : Forall guarded [SWit.entry 1; SWit.entry 2]) by (repeat constructor; discriminate).
  assert (Hm : map_Forall (fun c r => mkHandle (rv_id r) c ∈ handles_of [SWit.entry 1; SWit.entry 2] ++ [])
    (reservations (vs_reservations SWit.busy))) by (apply (bool_decide_unpack _); vm_compute; exact I).
  assert (Hc : covered (fun _ _ => True) (vs_reservations SWit.busy) (handles_of [SWit.entry 1; SWit.entry 2] ++ []))
    by (intros c r Hr _; exact (Hm c r Hr)).
  assert (He : rv_enabled (vs_reservations SWit.busy) = true) by (vm_compute; reflexivity).
  assert (Ho : all_end [1; 0]%nat [SWit.entry 1; SWit.entry 2]) by apply perm_swap.
  assert (Hp : (match group_answer SWit.awaits (fun _ => SWit.awaits) [SWit.entry 1; SWit.entry 2] 0 (SWit.entry 1) with Panic => false | _ => true end
    && match group_answer SWit.awaits (fun _ => SWit.awaits) [SWit.entry 1; SWit.entry 2] 1 (SWit.entry 2) with Panic => false | _ => true end)
    = true) by (vm_compute; reflexivity).
  apply andb_prop in Hp as [Hp0 Hp1].
  pose proof (batch_group_settles (fun _ _ => True) "other" SWit.awaits (fun _ => SWit.awaits) [1; 0]%nat "a"
    [SWit.entry 1; SWit.entry 2] [] SWit.busy (SWit.awaits_bystander _ _) (fun _ => SWit.awaits_bystander _ _) Hg He Hc Ho) as Hs.
  destruct (TEx.execute_batch_group _ _ _ _ _ _) as [s' answers]. destruct Hs as (Hs & _ & Hans). split; [exact Hs|].
  apply Hans. intros [|[|i]] e [= <-] Heq; [rewrite Heq in Hp0; discriminate Hp0|rewrite Heq in Hp1; discriminate Hp1].
Defined.

(** Alice asks for 30 and for 500, which she does not have. *)
Lemma batch_answers_all_witness :
  let reqs := [SWit.request; mkSubmit Wit.alice_str (show_id Wit.bob) 500 "setu" None None None [] None None None] in
  ∃ s' resp,
    TH.submit_transfers_batch 9 9000 9 SWit.turns "v1" Wit.preparer reqs SWit.service = (s', Ok resp) ∧
    br_index <$> sb_results resp = [0; 1]%nat ∧ sb_submitted resp = 1%nat ∧ sb_failed resp = 1%nat.
Proof.
  intros reqs.
  assert (Hok : match (TH.submit_transfers_batch 9 9000 9 SWit.turns "v1" Wit.preparer reqs SWit.service).2 with
                | Ok r => (sb_submitted r =? 1)%nat | _ => false end = true) by (vm_compute; reflexivity).
  assert (Hn : (0 < length reqs ≤ 200)%nat) by (cbn; lia).
  assert (Hc0 : 0 ≤ vs_transfer_counter SWit.service) by (cbn; lia).
  assert (Hc : vs_transfer_counter SWit.service + Z.of_nat (length reqs) ≤ u64_max) by (unfold u64_max; cbn; lia).
  destruct (batch_answers_all 9 9000 9 SWit.turns "v1" Wit.preparer reqs SWit.service Hn Hc0 Hc SWit.manager_steady)
    as (s' & resp & Hs & Hi & Hcount & _).
  rewrite Hs in Hok. cbn [snd] in Hok. apply Nat.eqb_eq in Hok. exists s', resp. split; [exact Hs|]. split; [exact Hi|].
  split; [exact Hok|]. change (length reqs) with 2%nat in Hcount. lia.
Defined.
