(* ===== verification/Amount.v ===== *)
(** * Amounts

    [types/src/amount.rs]: decimal strings of users and the raw units of the
    chain.  Strings are ASCII; a character outside it is refused like any other
    that is not a digit. *)

From Stdlib Require Import ZArith Lia.
From stdpp Require Import base gmap sets list strings numbers pretty.
From S2P Require Import Prelude Hash Vlc Event Coin StateStore Resource StateManager Task.

#[local] Open Scope string_scope.
#[local] Open Scope list_scope.
#[local] Open Scope Z_scope.
#[local] Open Scope setu_scope.

Abbreviation chars := Subnet.chars.
Abbreviation text := String.string_of_list_ascii.

Definition SETU_SYMBOL : string := "SETU".
Definition SETU_COIN_TYPE : string := "ROOT".
Definition SETU_DECIMALS : nat := 8.

Inductive AmountParseError :=
| AmountEmpty
| AmountInvalidCharacter (c : Ascii.ascii)
| MultipleDecimalPoints
| MissingDigits
| TooManyFractionalDigits (actual max : nat)
| DecimalScaleOverflow (decimals : nat)
| AmountOverflow.

Module Amount.
Definition is_dot (c : Ascii.ascii) : bool := (Subnet.code c =? 46)%N.
Definition digit (c : Ascii.ascii) : Z := Z.of_N (Subnet.code c) - 48.

(** [s.trim()]. *)
Fixpoint trim_start (cs : list Ascii.ascii) : list Ascii.ascii :=
  match cs with
  | c :: rest => if Subnet.is_whitespace c then trim_start rest else cs
  | [] => []
  end.
Definition trim (cs : list Ascii.ascii) : list Ascii.ascii := rev (trim_start (rev (trim_start cs))).

(** The scan of the characters, with the number of points seen. *)
Fixpoint scan (dots : nat) (cs : list Ascii.ascii) : result AmountParseError unit :=
  match cs with
  | [] => Ok tt
  | c :: rest =>
      if is_dot c then (if (0 <? dots)%nat then Err MultipleDecimalPoints else scan (S dots) rest)
      else if Subnet.is_digit c then scan dots rest
      else Err (AmountInvalidCharacter c)
  end.

Fixpoint scale_loop (decimals n : nat) (scale : Z) : result AmountParseError Z :=
  match n with
  | O => Ok scale
  | S n' => if u64_max <? scale * 10 then Err (DecimalScaleOverflow decimals) else scale_loop decimals n' (scale * 10)
  end.
Definition decimal_scale (decimals : nat) : result AmountParseError Z := scale_loop decimals decimals 1.

Definition u128_max : Z := 2 ^ 128 - 1.
Definition checked_u128 (z : Z) : result AmountParseError Z := if u128_max <? z then Err AmountOverflow else Ok z.

Fixpoint digits_loop (value : Z) (cs : list Ascii.ascii) : result AmountParseError Z :=
  match cs with
  | [] => Ok value
  | c :: rest =>
      if negb (Subnet.is_digit c) then Err (AmountInvalidCharacter c)
      else
        let? v := checked_u128 (value * 10) in
        let? v := checked_u128 (v + digit c) in
        digits_loop v rest
  end.
Definition parse_digits_u128 (cs : list Ascii.ascii) : result AmountParseError Z := digits_loop 0 cs.

(** [s.split_once('.')]. *)
Fixpoint split_dot (cs : list Ascii.ascii) : option (list Ascii.ascii * list Ascii.ascii) :=
  match cs with
  | [] => None
  | c :: rest => if is_dot c then Some ([], rest) else (fun '(a, b) => (c :: a, b)) <$> split_dot rest
  end.

(** The digits before and after the point. *)
Definition parts (decimals : nat) (trimmed : list Ascii.ascii)
    : result AmountParseError (list Ascii.ascii * list Ascii.ascii) :=
  match split_dot trimmed with
  | Some (whole, fractional) =>
      if bool_decide (whole = []) || bool_decide (fractional = []) then Err MissingDigits
      else if (decimals <? length fractional)%nat then Err (TooManyFractionalDigits (length fractional) decimals)
      else Ok (whole, fractional)
  | None => Ok (trimmed, [])
  end.

Definition fractional_units (decimals : nat) (fractional : list Ascii.ascii) : result AmountParseError Z :=
  if bool_decide (fractional = []) then Ok 0
  else
    let? v := parse_digits_u128 fractional in
    let? s := decimal_scale (decimals - length fractional) in
    checked_u128 (v * s).

Definition parse_display_amount_to_units (input : string) (decimals : nat) : result AmountParseError Z :=
  let trimmed := trim (chars input) in
  if bool_decide (trimmed = []) then Err AmountEmpty
  else
    let? _ := scan 0 trimmed in
    let? scale := decimal_scale decimals in
    let? (whole, fractional) := parts decimals trimmed in
    if bool_decide (whole = []) || negb (forallb Subnet.is_digit whole) then Err MissingDigits
    else
      let? w := parse_digits_u128 whole in
      let? w := checked_u128 (w * scale) in
      let? f := fractional_units decimals fractional in
      let? units := checked_u128 (w + f) in
      if u64_max <? units then Err AmountOverflow else Ok units.

Definition parse_setu_amount_to_units (input : string) : result AmountParseError Z :=
  parse_display_amount_to_units input SETU_DECIMALS.

(** [format!("{:0width$}", z)]. *)
Definition zero_padded (width : nat) (z : Z) : list Ascii.ascii :=
  let s := chars (fmt_u64 z) in replicate (width - length s) (Ascii.ascii_of_N 48) ++ s.

Definition is_zero (c : Ascii.ascii) : bool := (Subnet.code c =? 48)%N.

(** [while s.ends_with('0') { s.pop(); }], on the reversed characters. *)
Fixpoint drop_zeros (cs : list Ascii.ascii) : list Ascii.ascii :=
  match cs with
  | c :: rest => if is_zero c then drop_zeros rest else cs
  | [] => []
  end.

Definition format_units_to_display (units : Z) (decimals : nat) : string :=
  match decimal_scale decimals with
  | Ok scale =>
      if (decimals =? 0)%nat then fmt_u64 units
      else
        let whole := units / scale in
        let fractional := units mod scale in
        if fractional =? 0 then fmt_u64 whole
        else
          (fmt_u64 whole +:+ "." +:+ text (rev (drop_zeros (rev (zero_padded decimals fractional)))))%string
  | _ => fmt_u64 units
  end.

Definition format_setu_units (units : Z) : string := format_units_to_display units SETU_DECIMALS.

Definition eq_ignore_ascii_case (a b : string) : bool :=
  bool_decide (to_ascii_lowercase a = to_ascii_lowercase b).

Definition is_setu_token_identifier (value : string) : bool :=
  eq_ignore_ascii_case value "setu" || eq_ignore_ascii_case value SETU_COIN_TYPE.
End Amount.
