(* ===== verification/AmountProps.v ===== *)
(** * Amounts are exact

    The value of a text of digits, what the parser of [Amount] accepts, and the
    round trip of the printer. *)

From Stdlib Require Import ZArith Lia.
From stdpp Require Import base gmap sets list strings numbers pretty.
From S2P Require Import Prelude Hash Vlc Event Coin StateStore Resource StateManager Task Amount.

#[local] Open Scope string_scope.
#[local] Open Scope list_scope.
#[local] Open Scope Z_scope.
#[local] Open Scope setu_scope.
Import Amount.

(** ** Digits *)

Abbreviation digits cs := (Forall (fun c => Subnet.is_digit c = true) cs).

Fixpoint value (v : Z) (cs : list Ascii.ascii) : Z :=
  match cs with
  | [] => v
  | c :: rest => value (v * 10 + digit c) rest
  end.

Lemma digit_bounds c : Subnet.is_digit c = true → 0 ≤ digit c ≤ 9.
Proof.
  unfold Subnet.is_digit, Subnet.between, digit. rewrite andb_true_iff, !N.leb_le. lia.
Qed.

Lemma value_app v a b : value v (a ++ b) = value (value v a) b.
Proof. revert v. induction a as [|c a IH]; intros v; cbn; [done|apply IH]. Qed.

Lemma value_shift v cs : value v cs = v * 10 ^ Z.of_nat (length cs) + value 0 cs.
Proof.
  revert v. induction cs as [|c cs IH]; intros v; cbn [value length]; [lia|].
  rewrite (IH (v * 10 + _)), (IH (0 * 10 + _)), Nat2Z.inj_succ, Z.pow_succ_r by lia. nia.
Qed.

Lemma value_bounds cs : digits cs → 0 ≤ value 0 cs < 10 ^ Z.of_nat (length cs).
Proof.
  induction 1 as [|c cs Hc Hcs IH]; cbn [value length]; [lia|].
  rewrite value_shift, Nat2Z.inj_succ, Z.pow_succ_r by lia. pose proof (digit_bounds c Hc). nia.
Qed.

Lemma value_ge v cs : 0 ≤ v → digits cs → v ≤ value v cs.
Proof.
  intros Hv Hd. rewrite value_shift. pose proof (value_bounds cs Hd).
  assert (0 < 10 ^ Z.of_nat (length cs)) by (apply Z.pow_pos_nonneg; lia). nia.
Qed.

Lemma pretty_char_digit (n : N) : (n < 10)%N →
  Subnet.is_digit (pretty_N_char n) = true ∧ digit (pretty_N_char n) = Z.of_N n.
Proof.
  intros Hn. assert (Hc : n ∈ [0; 1; 2; 3; 4; 5; 6; 7; 8; 9]%N).
  { rewrite !elem_of_cons. lia. }
  rewrite !elem_of_cons, elem_of_nil in Hc. by destruct_or! Hc; subst.
Qed.

Lemma pretty_go_digits (n : N) (s : string) : digits (chars s) →
  digits (chars (pretty_N_go n s)) ∧
  value 0 (chars (pretty_N_go n s)) = Z.of_N n * 10 ^ Z.of_nat (length (chars s)) + value 0 (chars s) ∧
  (length (chars s) ≤ length (chars (pretty_N_go n s)))%nat.
Proof.
  revert s. induction (N.lt_wf_0 n) as [n _ IH]; intros s Hs. destruct (decide (0 < n)%N) as [Hpos|Hz].
  - rewrite pretty_N_go_step by done.
    assert (Hm : (n `mod` 10 < 10)%N) by (apply N.mod_lt; lia). destruct (pretty_char_digit _ Hm) as [Hd Hv].
    destruct (IH (n `div` 10)%N) with (s := String (pretty_N_char (n `mod` 10)) s) as (H1 & H2 & H3).
    { apply N.div_lt; lia. }
    { cbn. by constructor. }
    set (c := pretty_N_char _) in *. change (chars (String c s)) with (c :: chars s) in *. cbn [length value] in *.
    split_and!; [done| |lia]. rewrite H2, (value_shift (0 * 10 + _)), Hv.
    rewrite Nat2Z.inj_succ, Z.pow_succ_r by lia. pose proof (N.div_mod n 10 ltac:(lia)). nia.
  - assert (n = 0%N) as -> by lia. rewrite pretty_N_go_0. split_and!; [done|lia|done].
Qed.

Lemma fmt_digits (z : Z) : 0 ≤ z →
  digits (chars (fmt_u64 z)) ∧ value 0 (chars (fmt_u64 z)) = z ∧ chars (fmt_u64 z) ≠ [].
Proof.
  intros Hz. unfold fmt_u64. destruct z as [|p|p]; [|clear Hz|lia].
  { split_and!; [repeat constructor|done|done]. }
  change (pretty (Z.pos p)) with (pretty_N_go (N.pos p) "").
  destruct (pretty_go_digits (N.pos p) "") as (H1 & H2 & H3); [constructor|].
  change (length (chars "")) with 0%nat in H2. change (value 0 (chars "")) with 0 in H2. rewrite Z.pow_0_r in H2.
  split_and!; [done|lia|]. intros Heq. rewrite Heq in H2. cbn [value] in H2. lia.
Qed.

(** ** The parser *)

Lemma digits_loop_spec v cs r : 0 ≤ v →
  digits_loop v cs = Ok r ↔ digits cs ∧ r = value v cs ∧ (cs ≠ [] → value v cs ≤ u128_max).
Proof.
  revert v. induction cs as [|c cs IH]; intros v Hv; cbn [digits_loop value].
  { split; [intros [= <-]; by split_and!|intros (_ & -> & _); done]. }
  destruct (Subnet.is_digit c) eqn:Hc; cbn [negb].
  2:{ split; [done|]. intros (Hd & _). inversion Hd; congruence. }
  pose proof (digit_bounds c Hc) as Hb. unfold checked_u128.
  destruct (Z.ltb_spec u128_max (v * 10)) as [Hover|Hfit]; cbn [rbind].
  { split; [done|]. intros (Hd & _ & Hle). inversion Hd as [|? ? _ Hcs]. specialize (Hle ltac:(done)).
    pose proof (value_ge (v * 10 + digit c) cs ltac:(lia) Hcs). lia. }
  destruct (Z.ltb_spec u128_max (v * 10 + digit c)) as [Hover|Hfit']; cbn [rbind].
  { split; [done|]. intros (Hd & _ & Hle). inversion Hd as [|? ? _ Hcs]. specialize (Hle ltac:(done)).
    pose proof (value_ge (v * 10 + digit c) cs ltac:(lia) Hcs). lia. }
  rewrite IH by lia. split.
  - intros (Hd & -> & Hle). split_and!; [by constructor|done|]. intros _. destruct cs; [cbn; lia|by apply Hle].
  - intros (Hd & -> & Hle). inversion Hd. split_and!; [done|done|]. intros _. by apply Hle.
Qed.

Lemma scale_loop_spec d n scale : 0 < scale →
  scale_loop d n scale =
    if (scale * 10 ^ Z.of_nat n <=? u64_max) || (n =? 0)%nat then Ok (scale * 10 ^ Z.of_nat n)
    else Err (DecimalScaleOverflow d).
Proof.
  revert scale. induction n as [|n IH]; intros scale Hs; cbn [scale_loop].
  { rewrite orb_true_r. f_equal. cbn. lia. }
  rewrite Nat2Z.inj_succ, Z.pow_succ_r, orb_false_r by lia.
  assert (Hp : 0 < 10 ^ Z.of_nat n) by (apply Z.pow_pos_nonneg; lia).
  destruct (Z.ltb_spec u64_max (scale * 10)) as [Hover|Hfit].
  - destruct (Z.leb_spec (scale * (10 * 10 ^ Z.of_nat n)) u64_max); [nia|done].
  - rewrite IH by lia. replace (scale * 10 * 10 ^ Z.of_nat n) with (scale * (10 * 10 ^ Z.of_nat n)) by lia.
    destruct (Z.leb_spec (scale * (10 * 10 ^ Z.of_nat n)) u64_max) as [|Hn]; [done|]. cbn [orb].
    destruct n; [rewrite Z.pow_0_r in Hn; lia|done].
Qed.

Lemma decimal_scale_spec d :
  decimal_scale d = if 10 ^ Z.of_nat d <=? u64_max then Ok (10 ^ Z.of_nat d) else Err (DecimalScaleOverflow d).
Proof.
  unfold decimal_scale. rewrite scale_loop_spec by lia. rewrite !Z.mul_1_l.
  destruct d; [done|]. by rewrite orb_false_r.
Qed.

(** The point. *)
Definition dot : Ascii.ascii := Ascii.ascii_of_N 46.
#[local] Arguments dot : simpl never.

(** The text of a decimal number, with its point. *)
Definition decimal_text (whole fractional : list Ascii.ascii) : list Ascii.ascii :=
  whole ++ match fractional with [] => [] | _ => dot :: fractional end.

Lemma digit_not_dot c : Subnet.is_digit c = true → is_dot c = false.
Proof.
  unfold Subnet.is_digit, Subnet.between, is_dot. rewrite andb_true_iff, !N.leb_le, N.eqb_neq. lia.
Qed.

Lemma dot_char c : is_dot c = true → c = dot.
Proof. unfold is_dot, Subnet.code. rewrite N.eqb_eq. intros H. unfold dot. by rewrite <-H, Ascii.ascii_N_embedding. Qed.

Lemma scan_digits n cs : digits cs → scan n cs = Ok tt.
Proof. induction 1 as [|c cs Hc _ IH]; cbn; [done|]. by rewrite (digit_not_dot c Hc), Hc. Qed.

Lemma scan_prefix n a b : digits a → scan n (a ++ b) = scan n b.
Proof. induction 1 as [|c cs Hc _ IH]; cbn; [done|]. by rewrite (digit_not_dot c Hc), Hc. Qed.

Lemma scan_after cs : scan 1 cs = Ok tt → digits cs.
Proof.
  induction cs as [|c cs IH]; cbn; [constructor|]. destruct (is_dot c); [done|].
  destruct (Subnet.is_digit c) eqn:Hc; [|done]. intros Hs. constructor; [done|by apply IH].
Qed.

(** What the scan lets through. *)
Lemma scan_split cs : scan 0 cs = Ok tt →
  match split_dot cs with
  | Some (a, b) => cs = a ++ dot :: b ∧ digits a ∧ digits b
  | None => digits cs
  end.
Proof.
  induction cs as [|c cs IH]; cbn; [by constructor|]. destruct (is_dot c) eqn:Hd.
  { intros Hs%scan_after. by rewrite (dot_char c Hd). }
  destruct (Subnet.is_digit c) eqn:Hc; [|done]. intros Hs. specialize (IH Hs).
  destruct (split_dot cs) as [[a b]|]; cbn; [|by constructor]. destruct IH as (-> & Ha & Hb).
  split_and!; [done|by constructor|done].
Qed.

Lemma split_digits a : digits a → split_dot a = None.
Proof. induction 1 as [|c cs Hc _ IH]; cbn; [done|]. by rewrite (digit_not_dot c Hc), IH. Qed.

Lemma split_dotted a b : digits a → split_dot (a ++ dot :: b) = Some (a, b).
Proof. induction 1 as [|c cs Hc _ IH]; cbn; [done|]. by rewrite (digit_not_dot c Hc), IH. Qed.

Lemma digits_forallb cs : digits cs → forallb Subnet.is_digit cs = true.
Proof. induction 1 as [|c cs Hc _ IH]; cbn; [done|by rewrite Hc, IH]. Qed.

(** The number that a text denotes, in units of [10 ^ -d]. *)
Definition denotes (d : nat) (s : string) (u : Z) : Prop :=
  0 ≤ u ≤ u64_max ∧ 10 ^ Z.of_nat d ≤ u64_max ∧
  ∃ whole fractional,
    trim (chars s) = decimal_text whole fractional ∧ whole ≠ [] ∧ digits whole ∧ digits fractional ∧
    (length fractional ≤ d)%nat ∧
    u = value 0 whole * 10 ^ Z.of_nat d + value 0 fractional * 10 ^ Z.of_nat (d - length fractional).

Lemma checked_ok z r : checked_u128 z = Ok r ↔ r = z ∧ z ≤ u128_max.
Proof. unfold checked_u128. destruct (Z.ltb_spec u128_max z); split; [done|intros [-> ?]; lia|by intros [= <-]|by intros [-> _]]. Qed.

Lemma bind_ok {E A B} (m : result E A) (k : A → result E B) r :
  rbind m k = Ok r ↔ ∃ a, m = Ok a ∧ k a = Ok r.
Proof. destruct m; cbn; split; try by intros (? & ? & ?). all: naive_solver. Qed.

Lemma pow10_pos n : 0 < 10 ^ Z.of_nat n.
Proof. apply Z.pow_pos_nonneg; lia. Qed.

Lemma fractional_units_spec d f r :
  10 ^ Z.of_nat d ≤ u64_max → (length f ≤ d)%nat →
  fractional_units d f = Ok r ↔
    digits f ∧ r = value 0 f * 10 ^ Z.of_nat (d - length f) ∧ (f ≠ [] → value 0 f ≤ u128_max ∧ r ≤ u128_max).
Proof.
  intros Hd Hl. unfold fractional_units. case_bool_decide as Hf; [subst f; cbn|].
  { split; [intros [= <-]; split_and!; [constructor|lia|done]|]. by intros (_ & -> & _). }
  rewrite bind_ok. setoid_rewrite bind_ok. unfold parse_digits_u128. setoid_rewrite digits_loop_spec; [|lia..].
  assert (Hs : decimal_scale (d - length f) = Ok (10 ^ Z.of_nat (d - length f))).
  { rewrite decimal_scale_spec. destruct (Z.leb_spec (10 ^ Z.of_nat (d - length f)) u64_max) as [|Hgt]; [done|].
    pose proof (Z.pow_le_mono_r 10 (Z.of_nat (d - length f)) (Z.of_nat d) ltac:(lia) ltac:(lia)). lia. }
  rewrite Hs. setoid_rewrite checked_ok. split.
  - intros (v & (H1 & -> & H2) & s & [= <-] & -> & H3). split_and!; [done|done|]. intros _. split; [by apply H2|done].
  - intros (H1 & -> & H2). destruct (H2 Hf) as [H3 H4]. exists (value 0 f). split; [done|]. eexists. by split.
Qed.

Lemma trimmed_text s : trim (chars s) = [] → ∀ w f, w ≠ [] → trim (chars s) ≠ decimal_text w f.
Proof. intros -> w f Hw Heq. symmetry in Heq. unfold decimal_text in Heq. by apply app_eq_nil in Heq as [? _]. Qed.

Lemma u64_fits_u128 z : z ≤ u64_max → z ≤ u128_max.
Proof. assert (u64_max ≤ u128_max) by (vm_compute; done). lia. Qed.

Lemma text_parts d w f : w ≠ [] → digits w → digits f → (length f ≤ d)%nat →
  scan 0 (decimal_text w f) = Ok tt ∧ parts d (decimal_text w f) = Ok (w, f).
Proof.
  intros Hw Hdw Hdf Hl. unfold decimal_text, parts. destruct f as [|c f].
  - rewrite app_nil_r, scan_digits, split_digits by done. done.
  - rewrite scan_prefix, split_dotted by done. rewrite !bool_decide_eq_false_2 by done. cbn [orb].
    change (scan 0 (dot :: c :: f)) with (scan 1 (c :: f)). split; [by apply scan_digits|]. destruct (Nat.ltb_spec d (length (c :: f))); [lia|done].
Qed.

Lemma parts_text d cs w f : scan 0 cs = Ok tt → parts d cs = Ok (w, f) →
  cs = decimal_text w f ∧ digits w ∧ digits f ∧ (length f ≤ d)%nat.
Proof.
  intros Hs%scan_split. unfold parts. destruct (split_dot cs) as [[a b]|].
  - destruct Hs as (-> & Ha & Hb). case_bool_decide; [done|]. case_bool_decide as Hb'; [done|]. cbn [orb].
    destruct (Nat.ltb_spec d (length b)); [done|]. intros [= <- <-]. split_and!; [|done|done|done].
    unfold decimal_text. by destruct b.
  - intros [= <- <-]. unfold decimal_text. rewrite app_nil_r. split_and!; [done|done|constructor|cbn; lia].
Qed.

(** ** The printer *)

Lemma parse_denotes d s u : parse_display_amount_to_units s d = Ok u ↔ denotes d s u.
Proof.
  unfold parse_display_amount_to_units, denotes. case_bool_decide as Ht.
  { split; [done|]. intros (_ & _ & w & f & Heq & Hw & _). by destruct (trimmed_text s Ht w f Hw). }
  rewrite decimal_scale_spec. pose proof (pow10_pos d) as Hp. split.
  - rewrite bind_ok. intros ([] & Hscan & H). destruct (Z.leb_spec (10 ^ Z.of_nat d) u64_max) as [Hd|]; [|done].
    cbn [rbind] in H. apply bind_ok in H as ([w f] & Hparts & H).
    destruct (parts_text _ _ _ _ Hscan Hparts) as (Htext & Hdw & Hdf & Hl).
    case_bool_decide as Hw; [done|]. rewrite (digits_forallb w Hdw) in H. cbn [orb negb] in H.
    apply bind_ok in H as (v & Hv & H). unfold parse_digits_u128 in Hv. apply digits_loop_spec in Hv as (_ & -> & _); [|lia].
    apply bind_ok in H as (v & Hv & H). apply checked_ok in Hv as [-> _].
    apply bind_ok in H as (g & Hg & H). apply (fractional_units_spec d f g Hd Hl) in Hg as (_ & -> & _).
    apply bind_ok in H as (x & Hx & H). apply checked_ok in Hx as [-> _].
    destruct (Z.ltb_spec u64_max (value 0 w * 10 ^ Z.of_nat d + value 0 f * 10 ^ Z.of_nat (d - length f))); [done|].
    injection H as <-. pose proof (value_bounds w Hdw). pose proof (value_bounds f Hdf).
    pose proof (pow10_pos (d - length f)). split; [nia|]. split; [done|]. by exists w, f.
  - intros (Hu & Hd & w & f & Htext & Hw & Hdw & Hdf & Hl & ->). rewrite Htext.
    destruct (text_parts d w f Hw Hdw Hdf Hl) as [-> ->]. cbn [rbind].
    destruct (Z.leb_spec (10 ^ Z.of_nat d) u64_max); [|lia]. cbn [rbind].
    rewrite bool_decide_eq_false_2, (digits_forallb w Hdw) by done. cbn [orb negb].
    pose proof (value_bounds w Hdw). pose proof (value_bounds f Hdf). pose proof (pow10_pos (d - length f)).
    apply bind_ok. exists (value 0 w). split.
    { apply digits_loop_spec; [lia|]. split_and!; [done|done|]. intros _. apply u64_fits_u128. nia. }
    apply bind_ok. exists (value 0 w * 10 ^ Z.of_nat d). split; [apply checked_ok; split; [done|apply u64_fits_u128; nia]|].
    apply bind_ok. eexists. split.
    { apply (fractional_units_spec d f _ Hd Hl). split_and!; [done|done|]. intros _. split; apply u64_fits_u128; nia. }
    apply bind_ok. eexists. split; [apply checked_ok; split; [done|apply u64_fits_u128; nia]|].
    destruct (Z.ltb_spec u64_max (value 0 w * 10 ^ Z.of_nat d + value 0 f * 10 ^ Z.of_nat (d - length f))); [lia|done].
Qed.

Lemma pretty_go_length (n : N) (s : string) :
  ∃ k, length (chars (pretty_N_go n s)) = (k + length (chars s))%nat ∧
    ((0 < n)%N → (0 < k)%nat ∧ 10 ^ Z.of_nat (k - 1) ≤ Z.of_N n).
Proof.
  revert s. induction (N.lt_wf_0 n) as [n _ IH]; intros s. destruct (decide (0 < n)%N) as [Hpos|Hz].
  2:{ assert (n = 0%N) as -> by lia. exists 0%nat. rewrite pretty_N_go_0. split; [done|lia]. }
  rewrite pretty_N_go_step by done. set (c := pretty_N_char _).
  destruct (IH (n `div` 10)%N ltac:(apply N.div_lt; lia) (String c s)) as (k & Hk & Hle).
  change (chars (String c s)) with (c :: chars s) in Hk. exists (S k). split; [rewrite Hk; cbn [length]; lia|].
  intros _. split; [lia|]. destruct (decide (0 < n `div` 10)%N) as [Hd|Hd].
  - destruct (Hle Hd) as [Hk0 Hle']. replace (S k - 1)%nat with (S (k - 1)) by lia.
    rewrite Nat2Z.inj_succ, Z.pow_succ_r by lia. pose proof (N.div_mod n 10 ltac:(lia)). lia.
  - assert (k = 0%nat) as ->; [|change (10 ^ Z.of_nat (1 - 1)) with 1; lia].
    assert (Hz : (n `div` 10 = 0)%N) by lia. rewrite Hz, pretty_N_go_0 in Hk.
    change (chars (String c s)) with (c :: chars s) in Hk. cbn [length] in Hk. lia.
Qed.

Lemma fmt_length (z : Z) (w : nat) : 0 < z < 10 ^ Z.of_nat w → (length (chars (fmt_u64 z)) ≤ w)%nat.
Proof.
  intros [Hz Hw]. destruct z as [|p|p]; [lia| |lia]. change (fmt_u64 (Z.pos p)) with (pretty_N_go (N.pos p) "").
  destruct (pretty_go_length (N.pos p) "") as (k & Hk & Hle). destruct Hle as [Hk0 Hle]; [lia|].
  rewrite Hk. change (length (chars "")) with 0%nat. assert (Z.of_nat (k - 1) < Z.of_nat w); [|lia].
  apply (Z.pow_lt_mono_r_iff 10); lia.
Qed.

Lemma chars_app a b : chars (a +:+ b) = chars a ++ chars b.
Proof. unfold Subnet.chars. induction a as [|c a IH]; simpl; [done|]. by rewrite IH. Qed.

Lemma chars_text l : chars (text l) = l.
Proof. apply String.list_ascii_of_string_of_list_ascii. Qed.

Abbreviation black cs := (Forall (fun c => Subnet.is_whitespace c = false) cs).

Lemma trim_black cs : black cs → trim cs = cs.
Proof.
  assert (Hs : ∀ l, black l → trim_start l = l).
  { intros l Hl. destruct Hl as [|c l Hc _]; [done|]. cbn. by rewrite Hc. }
  intros Hb. unfold trim. rewrite (Hs cs Hb), (Hs (rev cs)); [apply rev_involutive|].
  by apply List.Forall_rev.
Qed.

Lemma digits_black cs : digits cs → black cs.
Proof.
  intros Hd. eapply list.Forall_impl; [exact Hd|]. intros c. cbn.
  unfold Subnet.is_digit, Subnet.is_whitespace, Subnet.between. rewrite andb_true_iff, !N.leb_le. intros Hc.
  rewrite orb_false_iff, andb_false_iff, !N.leb_gt, N.eqb_neq. lia.
Qed.

Lemma text_black w f : digits w → digits f → black (decimal_text w f).
Proof.
  intros Hw Hf. apply Forall_app. split; [by apply digits_black|]. destruct f; [constructor|].
  constructor; [done|by apply digits_black].
Qed.

Abbreviation zero := (Ascii.ascii_of_N 48).

Lemma value_zeros v k : value v (replicate k zero) = v * 10 ^ Z.of_nat k.
Proof.
  revert v. induction k as [|k IH]; intros v; cbn [replicate value]; [lia|].
  change (digit zero) with 0. rewrite IH, Nat2Z.inj_succ, Z.pow_succ_r by lia. lia.
Qed.

Lemma zero_char c : is_zero c = true → c = zero.
Proof. unfold is_zero, Subnet.code. rewrite N.eqb_eq. intros H. by rewrite <-H, Ascii.ascii_N_embedding. Qed.

Lemma drop_zeros_spec cs : ∃ k, cs = replicate k zero ++ drop_zeros cs.
Proof.
  induction cs as [|c cs (k & IH)]; [by exists 0%nat|]. cbn [drop_zeros]. destruct (is_zero c) eqn:Hc; [|by exists 0%nat].
  exists (S k). rewrite (zero_char c Hc). cbn [replicate app]. by f_equal.
Qed.

(** The digits of a fraction, without the zeros at its end. *)
Lemma fraction_text (d : nat) (z : Z) : 0 < z < 10 ^ Z.of_nat d →
  let f := rev (drop_zeros (rev (zero_padded d z))) in
  f ≠ [] ∧ digits f ∧ (length f ≤ d)%nat ∧ value 0 f * 10 ^ Z.of_nat (d - length f) = z.
Proof.
  intros Hz. pose proof (fmt_length z d Hz) as Hl. destruct (fmt_digits z ltac:(lia)) as (Hd & Hv & _).
  set (p := zero_padded d z). assert (Hp : digits p ∧ length p = d ∧ value 0 p = z).
  { unfold p, zero_padded. split_and!.
    - apply Forall_app. split; [|done]. apply Forall_replicate. done.
    - rewrite length_app, length_replicate. lia.
    - rewrite value_app, value_zeros. by rewrite Z.mul_0_l. }
  destruct Hp as (Hpd & Hpl & Hpv). destruct (drop_zeros_spec (rev p)) as (k & Hk).
  set (g := drop_zeros (rev p)) in *. assert (Heq : p = rev g ++ replicate k zero).
  { rewrite <-(rev_involutive p), Hk, rev_app_distr. f_equal. rewrite rev_alt. apply reverse_replicate. }
  cbv zeta. rewrite Heq, value_app, value_zeros in Hpv. rewrite Heq, length_app, length_replicate in Hpl.
  rewrite Heq in Hpd. apply Forall_app in Hpd as [Hgd _]. split_and!.
  - intros Hn. rewrite Hn in Hpv. cbn in Hpv. lia.
  - done.
  - lia.
  - by replace (d - length (rev g))%nat with k by lia.
Qed.

Lemma format_denotes (d : nat) (u : Z) :
  0 ≤ u ≤ u64_max → 10 ^ Z.of_nat d ≤ u64_max → denotes d (format_units_to_display u d) u.
Proof.
  intros Hu Hd. split_and!; [lia..|done|]. unfold format_units_to_display. rewrite decimal_scale_spec.
  destruct (Z.leb_spec (10 ^ Z.of_nat d) u64_max); [|lia]. pose proof (pow10_pos d) as Hp.
  assert (Hwhole : ∀ z, 0 ≤ z → u = z * 10 ^ Z.of_nat d → ∃ w f, trim (chars (fmt_u64 z)) = decimal_text w f ∧
    w ≠ [] ∧ digits w ∧ digits f ∧ (length f ≤ d)%nat ∧
    u = value 0 w * 10 ^ Z.of_nat d + value 0 f * 10 ^ Z.of_nat (d - length f)).
  { intros z Hz Heq. destruct (fmt_digits z Hz) as (H1 & H2 & H3). exists (chars (fmt_u64 z)), [].
    rewrite trim_black by by apply digits_black. unfold decimal_text. rewrite app_nil_r, H2.
    split_and!; [done|done|done|constructor|cbn; lia|cbn; lia]. }
  destruct (Nat.eqb_spec d 0) as [Hd0|Hd0]; [apply Hwhole; [lia|]; subst d; change (10 ^ Z.of_nat 0) with 1; lia|].
  pose proof (Z.div_mod u (10 ^ Z.of_nat d) ltac:(lia)) as Hdm.
  pose proof (Z.mod_pos_bound u (10 ^ Z.of_nat d) Hp) as Hm.
  assert (Hq : 0 ≤ u / 10 ^ Z.of_nat d) by (apply Z.div_pos; lia).
  destruct (Z.eqb_spec (u mod 10 ^ Z.of_nat d) 0) as [Hz|Hz]; [apply Hwhole; lia|].
  destruct (fraction_text d (u mod 10 ^ Z.of_nat d) ltac:(lia)) as (F1 & F2 & F3 & F4).
  destruct (fmt_digits (u / 10 ^ Z.of_nat d) Hq) as (H1 & H2 & H3). set (f := rev _) in *.
  exists (chars (fmt_u64 (u / 10 ^ Z.of_nat d))), f.
  assert (Ht : chars (fmt_u64 (u / 10 ^ Z.of_nat d) +:+ "." +:+ text f) = decimal_text (chars (fmt_u64 (u / 10 ^ Z.of_nat d))) f).
  { rewrite !chars_app, chars_text. unfold decimal_text. by destruct f. }
  rewrite Ht, trim_black, H2, F4 by by apply text_black. split_and!; [done|done|done|done|done|lia].
Qed.

(** Amounts are parsed exactly.  With a number of decimals whose scale fits
    a [u64], the parser accepts a text exactly when, without the white space
    around it, it is a sequence of digits with at most one point, digits on
    both sides of the point, at most as many decimals as the token has, and a
    number of units that fits a [u64]; the result is that number, never
    rounded.  Printing units and parsing the text gives the units back. *)
Theorem amounts_exact (d : nat) (s : string) (u : Z) :
  (parse_display_amount_to_units s d = Ok u ↔ denotes d s u) ∧
  (0 ≤ u ≤ u64_max → 10 ^ Z.of_nat d ≤ u64_max →
     parse_display_amount_to_units (format_units_to_display u d) d = Ok u).
Proof. split; [apply parse_denotes|]. intros Hu Hd. by apply parse_denotes, format_denotes. Qed.
