(* ===== verification/Keys.v ===== *)
(** * Keys and signatures of users

    [crates/setu-keys/src]: the schemes, public keys and signatures of
    [crypto.rs], the addresses of [address_derive.rs] and the three ways a user
    signs ([verify.rs]).  The curves, the hashes and base64 are crates. *)

From Stdlib Require Import ZArith Lia Strings.Byte.
From stdpp Require Import base gmap sets list strings numbers.
From S2P Require Import Prelude Hash Vlc Event Coin StateStore Resource StateManager Task Stf Amount.

#[local] Open Scope string_scope.
#[local] Open Scope list_scope.
#[local] Open Scope setu_scope.

Inductive SignatureScheme := ED25519 | Secp256k1 | Secp256r1.

#[global] Instance SignatureScheme_eq_dec : EqDecision SignatureScheme.
Proof. solve_decision. Defined.

Inductive KeyError :=
| KeyGeneration (msg : string)
| InvalidDerivationPath (msg : string)
| UnsupportedScheme (msg : string)
| InvalidKeyFormat (msg : string)
| InvalidMnemonic (msg : string)
| SignatureVerification (msg : string)
| KeyNotFound (msg : string)
| AliasExists (msg : string)
| AliasNotFound (msg : string)
| KeyIo (msg : string)
| KeySerialization (msg : string)
| Decoding (msg : string).

Definition show_key_error (e : KeyError) : string :=
  match e with
  | KeyGeneration m => "Key generation failed: " +:+ m
  | InvalidDerivationPath m => "Invalid derivation path: " +:+ m
  | UnsupportedScheme m => "Unsupported signature scheme: " +:+ m
  | InvalidKeyFormat m => "Invalid key format: " +:+ m
  | InvalidMnemonic m => "Invalid mnemonic phrase: " +:+ m
  | SignatureVerification m => "Signature verification failed: " +:+ m
  | KeyNotFound m => "Key not found for address: " +:+ m
  | AliasExists m => "Alias already exists: " +:+ m
  | AliasNotFound m => "Alias not found: " +:+ m
  | KeyIo m => "IO error: " +:+ m
  | KeySerialization m => "Serialization error: " +:+ m
  | Decoding m => "Decoding error: " +:+ m
  end.

(** A key or a signature that was parsed is kept as the bytes it prints. *)
Record PublicKey := mkPublicKey { pk_scheme : SignatureScheme; pk_bytes : bytes }.
Record KeySignature := mkKeySignature { sig_scheme : SignatureScheme; sig_bytes : bytes }.

(** The crates: parsing gives the text of an error or the bytes of the value,
    verification the text of an error. *)
Class KeyCrates := {
  base64_decode : string → string + bytes;
  base64_encode : bytes → string;
  hex_error : string → string;
  blake2b256 : bytes → HashValue;
  keccak256 : bytes → HashValue;
  parse_key : SignatureScheme → bytes → string + bytes;
  parse_signature : SignatureScheme → bytes → string + bytes;
  crate_verify : SignatureScheme → bytes → bytes → bytes → option string;
  recoverable_signature : bytes → string + bytes;
  recover_from_prehash : HashValue → bytes → bool → string + bytes;
  schnorr_key : bytes → string + bytes;
  schnorr_signature : bytes → string + bytes;
  schnorr_verify : bytes → bytes → bytes → option string
}.

(** [r.map_err(f)]. *)
Definition or_err {A} (f : string → KeyError) (r : string + A) : result KeyError A :=
  match r with inl e => Err (f e) | inr a => Ok a end.

Definition verified (r : option string) : result KeyError unit :=
  match r with Some e => Err (SignatureVerification e) | None => Ok tt end.

Module Scheme.
Definition flag (s : SignatureScheme) : byte :=
  match s with ED25519 => Byte.x00 | Secp256k1 => Byte.x01 | Secp256r1 => Byte.x02 end.

Definition from_flag (b : byte) : result KeyError SignatureScheme :=
  match b with
  | Byte.x00 => Ok ED25519
  | Byte.x01 => Ok Secp256k1
  | Byte.x02 => Ok Secp256r1
  | _ => Err (UnsupportedScheme ("Unknown flag: " +:+ fmt_u64 (Z.of_N (Byte.to_N b))))
  end.
End Scheme.

Module Keys.
Section Keys.
Context `{KeyCrates} `{HexCrate} `{Sha256}.

(** [PublicKey::from_bytes]. *)
Definition key_from_bytes (s : SignatureScheme) (b : bytes) : result KeyError PublicKey :=
  if bool_decide (s = ED25519) && negb (length b =? 32)%nat then
    Err (InvalidKeyFormat "Ed25519 public key must be 32 bytes")
  else let? k := or_err InvalidKeyFormat (parse_key s b) in Ok (mkPublicKey s k).

(** [Signature::from_bytes]. *)
Definition signature_from_bytes (s : SignatureScheme) (b : bytes) : result KeyError KeySignature :=
  if bool_decide (s = ED25519) then
    if negb (length b =? 64)%nat then Err (InvalidKeyFormat "Ed25519 signature must be 64 bytes")
    else Ok (mkKeySignature s b)
  else let? x := or_err InvalidKeyFormat (parse_signature s b) in Ok (mkKeySignature s x).

(** The flag of the scheme, then the bytes. *)
Definition flagged (k : PublicKey) : bytes := Scheme.flag (pk_scheme k) :: pk_bytes k.

Definition encode_base64 (k : PublicKey) : string := base64_encode (flagged k).

Definition key_of_flagged (empty : string) (b : bytes) : result KeyError PublicKey :=
  match b with
  | [] => Err (Decoding empty)
  | f :: rest => let? s := Scheme.from_flag f in key_from_bytes s rest
  end.

Definition signature_of_flagged (empty : string) (b : bytes) : result KeyError KeySignature :=
  match b with
  | [] => Err (Decoding empty)
  | f :: rest => let? s := Scheme.from_flag f in signature_from_bytes s rest
  end.

(** [PublicKey::decode_base64] and [Signature::decode_base64]. *)
Definition decode_base64 (s : string) : result KeyError PublicKey :=
  let? b := or_err Decoding (base64_decode s) in key_of_flagged "Empty public key" b.
Definition signature_decode_base64 (s : string) : result KeyError KeySignature :=
  let? b := or_err Decoding (base64_decode s) in signature_of_flagged "Empty signature" b.

(** [PublicKey::verify]. *)
Definition verify (k : PublicKey) (msg : bytes) (sig : KeySignature) : result KeyError unit :=
  if bool_decide (pk_scheme k = sig_scheme sig)
  then verified (crate_verify (pk_scheme k) (pk_bytes k) msg (sig_bytes sig))
  else Err (SignatureVerification "Signature scheme mismatch").

(** [SetuAddress::from]. *)
Definition key_address (k : PublicKey) : HashValue := blake2b256 (flagged k).

Definition derive_address_from_secp256k1 (key : bytes) : result KeyError HashValue :=
  if negb (length key =? 65)%nat then
    Err (InvalidKeyFormat ("Expected 65-byte uncompressed secp256k1 public key, got "
                             +:+ Tee.fmt_nat (length key) +:+ " bytes"))
  else
    match key with
    | Byte.x04 :: rest => Ok (keccak256 rest)
    | _ => Err (InvalidKeyFormat "Public key must start with 0x04 (uncompressed format)")
    end.

Definition derive_address_from_nostr_pubkey (key : bytes) : result KeyError HashValue :=
  if negb (length key =? 32)%nat then
    Err (InvalidKeyFormat ("Expected 32-byte Nostr public key, got " +:+ Tee.fmt_nat (length key) +:+ " bytes"))
  else Ok (sha256 key).

(** [address_from_hex] of [address_derive.rs]. *)
Definition key_address_from_hex (s : string) : result KeyError HashValue :=
  match hex_decode (strip_0x s) with
  | None => Err (Decoding (hex_error (strip_0x s)))
  | Some b =>
      match hash_of_bytes b with
      | Some a => Ok a
      | None => Err (Decoding ("Invalid Setu address length: expected 32, got " +:+ Tee.fmt_nat (length b)))
      end
  end.

Definition verify_setu_native_inner (address : string) (k : PublicKey) (sig : KeySignature) (msg : bytes)
    : result KeyError unit :=
  let? _ := verify k msg sig in
  if Amount.eq_ignore_ascii_case address (show_id (key_address k)) then Ok tt
  else Err (SignatureVerification "Address does not match public key").

Definition verify_setu_native (address key signature : string) (msg : bytes) : result KeyError unit :=
  let? k := decode_base64 key in
  let? sig := signature_decode_base64 signature in
  verify_setu_native_inner address k sig msg.

Definition verify_setu_native_raw (address : string) (key signature msg : bytes) : result KeyError unit :=
  if bool_decide (key = []) then Err (Decoding "Empty public key bytes")
  else if bool_decide (signature = []) then Err (Decoding "Empty signature bytes")
  else
    let? k := key_of_flagged "Empty public key bytes" key in
    let? sig := signature_of_flagged "Empty signature bytes" signature in
    verify_setu_native_inner address k sig msg.

(** The text that a wallet signs. *)
Definition personal_message (message : string) : string :=
  String (Ascii.ascii_of_N 25) ("Ethereum Signed Message:" +:+ String (Ascii.ascii_of_N 10)
    (Tee.fmt_nat (String.length message) +:+ message)).

Definition recovery_parity (v : byte) : result KeyError bool :=
  match v with
  | Byte.x1b | Byte.x00 => Ok false
  | Byte.x1c | Byte.x01 => Ok true
  | _ => Err (SignatureVerification ("Invalid recovery ID v=" +:+ fmt_u64 (Z.of_N (Byte.to_N v))))
  end.

Definition verify_metamask_personal_sign (address : string) (signature : bytes) (message : string)
    : result KeyError unit :=
  if negb (length signature =? 65)%nat then
    Err (SignatureVerification ("MetaMask signature must be 65 bytes, got " +:+ Tee.fmt_nat (length signature)))
  else
    let hash := keccak256 (as_bytes (personal_message message)) in
    let? odd := recovery_parity (List.nth 64 signature Byte.x00) in
    let? sig := or_err SignatureVerification (recoverable_signature (take 64 signature)) in
    let? key := or_err SignatureVerification (recover_from_prehash hash sig odd) in
    let? derived := derive_address_from_secp256k1 key in
    let? provided := key_address_from_hex address in
    if bool_decide (derived = provided) then Ok tt
    else Err (SignatureVerification "Recovered address does not match provided address").

Definition verify_nostr_schnorr (address : string) (key signature msg : bytes) : result KeyError unit :=
  let? derived := derive_address_from_nostr_pubkey key in
  let? provided := key_address_from_hex address in
  if negb (bool_decide (derived = provided))
  then Err (SignatureVerification "Address does not match Nostr public key")
  else
    let? vk := or_err SignatureVerification (schnorr_key key) in
    let? sig := or_err SignatureVerification (schnorr_signature signature) in
    verified (schnorr_verify vk msg sig).
End Keys.
End Keys.
