(* ===== verification/InfraService.v ===== *)
(** * The infrastructure of a validator

    What a validator executes itself: the events of registrations, profiles and
    memberships ([setu-validator/src/infra_executor.rs], module [IE]), the
    submission of events ([network/event_handler.rs], [EH]) and the handlers of
    registrations ([network/registration.rs], [RH]) with the tables of
    [network/service.rs].  Publishing and upgrading Move packages is left out:
    it reads bytecode. *)

From Stdlib Require Import ZArith Lia Strings.Byte.
From stdpp Require Import base gmap sets list strings numbers pretty.
From S2P Require Import Prelude Hash Vlc Event Coin StateStore Resource Executor StateManager Task Stf Enclave Reservation StateProvider TaskPreparer SolverRouter TransferService Amount.

#[local] Open Scope string_scope.
#[local] Open Scope list_scope.
#[local] Open Scope setu_scope.

(** ** Registrations *)

Record UserRegistration := mkUserRegistration {
  ur_address : string;
  ur_nostr_pubkey : option bytes;
  ur_signature : option bytes;
  ur_message : option string;
  ur_timestamp : Z;
  ur_subnet_id : option string;
  ur_display_name : option string;
  ur_metadata : option string;
  ur_invited_by : option string;
  ur_invite_code : option string;
  ur_public_key : option string
}.

Inductive SubnetType := TypeRoot | TypeSystemReserved | TypeApp | TypeOrganization | TypePersonal | TypeUnknown.

Record SubnetResourceLimits := mkLimits { rl_max_tps : option Z; rl_max_storage_bytes : option Z; rl_max_compute_units : option Z }.
Record TokenConfig := mkTokenConfig { tc_decimals : Z; tc_max_supply : option Z; tc_mintable : bool; tc_burnable : bool }.

Record SubnetRegistration := mkSubnetRegistration {
  nr_subnet_id : string;
  nr_name : string;
  nr_description : option string;
  nr_owner : string;
  nr_max_users : option Z;
  nr_resource_limits : option SubnetResourceLimits;
  nr_assigned_solvers : list string;
  nr_subnet_type : SubnetType;
  nr_parent_subnet_id : option string;
  nr_token_symbol : option string;
  nr_initial_token_supply : option Z;
  nr_token_config : option TokenConfig;
  nr_user_airdrop_amount : option Z
}.

Record SolverRegistration := mkSolverRegistration {
  sl_solver_id : string;
  sl_address : string;
  sl_port : Z;
  sl_account_address : string;
  sl_public_key : bytes;
  sl_signature : bytes;
  sl_capacity : Z;
  sl_shard_id : option string;
  sl_assigned_shard : option Z;
  sl_resources : list string;
  sl_permitted_subnets : list SubnetId
}.

Record ValidatorRegistration := mkValidatorRegistration {
  vl_validator_id : string;
  vl_address : string;
  vl_port : Z;
  vl_account_address : string;
  vl_public_key : bytes;
  vl_signature : bytes;
  vl_stake_amount : Z;
  vl_commission_rate : Z
}.

(** The payloads as bytes. *)
Class RegistrationBytes := {
  user_payload : UserRegistration → bytes;
  subnet_payload : SubnetRegistration → bytes;
  solver_payload : SolverRegistration → bytes;
  validator_payload : ValidatorRegistration → bytes
}.

(** [serde_json::from_slice::<Value>]: the text of an error, or the value. *)
Class JsonRead := json_of_slice : bytes → string + json.

(** ** Tables *)

Record ValidatorInfo := mkValidatorInfo {
  vi_validator_id : string;
  vi_address : string;
  vi_port : Z;
  vi_status : string;
  vi_registered_at : Z
}.

Record SubnetInfo := mkSubnetInfo {
  si_subnet_id : string;
  si_canonical_id : SubnetId;
  si_name : string;
  si_owner : string;
  si_subnet_type : string;
  si_token_symbol : string;
  si_status : string;
  si_registered_at : Z
}.

(** [ConsensusValidator]: the logical time it hands out and shows, and the
    validators it knows. *)
Class ConsensusNode (K : Type) := {
  node_port :: ConsensusPort K;
  allocate_logical_time : K → K * Z;
  vlc_logical_time : K → Z;
  add_peer_validator : string → string → Z → K → K
}.

(** [ValidatorNetworkService], with the part that transfers use. *)
Record NetworkService (K : Type) := mkNetwork {
  nw_core : ValidatorService K;
  nw_validator_id : string;
  nw_chain_id : string;
  nw_subnets : gmap string SubnetInfo;
  nw_validators : gmap string ValidatorInfo;
  nw_pending_events : list string;
  nw_event_counter : Z
}.
Arguments mkNetwork {K}. Arguments nw_core {K}. Arguments nw_validator_id {K}. Arguments nw_chain_id {K}.
Arguments nw_subnets {K}. Arguments nw_validators {K}. Arguments nw_pending_events {K}. Arguments nw_event_counter {K}.

Record SubmitEventResponse := mkSubmitEvent {
  se_success : bool;
  se_message : string;
  se_event_id : option EventId;
  se_vlc_time : option Z
}.

Module NW.
Section NW.
Context {K : Type} `{ConsensusNode K}.
Implicit Type n : NetworkService K.

Definition on_core (f : ValidatorService K → ValidatorService K) n : NetworkService K :=
  mkNetwork (f (nw_core n)) (nw_validator_id n) (nw_chain_id n) (nw_subnets n) (nw_validators n)
    (nw_pending_events n) (nw_event_counter n).
Definition on_validators (f : gmap string ValidatorInfo → gmap string ValidatorInfo) n : NetworkService K :=
  mkNetwork (nw_core n) (nw_validator_id n) (nw_chain_id n) (nw_subnets n) (f (nw_validators n))
    (nw_pending_events n) (nw_event_counter n).
Definition on_pending (f : list string → list string) n : NetworkService K :=
  mkNetwork (nw_core n) (nw_validator_id n) (nw_chain_id n) (nw_subnets n) (nw_validators n)
    (f (nw_pending_events n)) (nw_event_counter n).
Definition count_event n : NetworkService K :=
  mkNetwork (nw_core n) (nw_validator_id n) (nw_chain_id n) (nw_subnets n) (nw_validators n)
    (nw_pending_events n) (u64_add (nw_event_counter n) 1).

Definition add_subnet (i : SubnetInfo) n : NetworkService K :=
  mkNetwork (nw_core n) (nw_validator_id n) (nw_chain_id n) (<[si_subnet_id i := i]> (nw_subnets n)) (nw_validators n)
    (nw_pending_events n) (nw_event_counter n).

Definition get_subnet_info (id : string) n : option SubnetInfo := nw_subnets n !! id.

(** [find] over the registry. *)
Definition get_subnet_info_by_canonical (id : SubnetId) n : option SubnetInfo :=
  snd <$> List.find (fun e => bool_decide (si_canonical_id e.2 = id)) (map_to_list (nw_subnets n)).

Definition add_validator (i : ValidatorInfo) : NetworkService K → NetworkService K :=
  on_validators <[vi_validator_id i := i]>.
Definition unregister_validator (id : string) : NetworkService K → NetworkService K := on_validators (delete id).

Definition get_vlc_time n : NetworkService K * Z :=
  match vs_consensus (nw_core n) with
  | Some k => let '(k', t) := allocate_logical_time k in (on_core (VS.set_consensus (Some k')) n, t)
  | None => (on_core VS.count_vlc n, vs_vlc_counter (nw_core n))
  end.

(** The snapshot of a new event: the clock of this validator, ticked once. *)
Definition build_vlc_snapshot (now_ms : Z) n : NetworkService K * VLCSnapshot :=
  let '(n', t) := get_vlc_time n in
  (n', mkVLCSnapshot (VC.increment VC.new (nw_validator_id n)).1 t now_ms).
End NW.
End NW.

(** ** Submission of events *)

Module EH.
Section EH.
Context {K : Type} `{ConsensusNode K}.
Implicit Type n : NetworkService K.

Definition quick_check (now_ms : Z) (e : TaskEvent) : result string unit :=
  match execution_result (te_event e) with
  | None => Err "Event has no execution result"
  | Some r =>
      if negb (er_success r) then Err ("Event execution failed: " +:+ default "unknown error" (er_message r))
      else if bool_decide (creator (te_event e) = "") then Err "Event creator is empty"
      else if (u64_add now_ms 60000 <? TE.ts e)%Z then Err "Event timestamp is in the future"
      else Ok tt
  end.

(** Registrations and removals of validators, as the payload has them. *)
Inductive SideEffect := NoEffect | RegisterValidator (r : ValidatorRegistration) | RemoveValidator (node : string).

Definition apply_event_side_effects (e : TaskEvent) (s : SideEffect) n : NetworkService K :=
  match s with
  | RegisterValidator r =>
      NW.add_validator (mkValidatorInfo (vl_validator_id r) (vl_address r) (vl_port r) "online" (TE.ts e / 1000)) n
  | RemoveValidator id => NW.unregister_validator id n
  | NoEffect => n
  end.

Definition refused (msg : string) : SubmitEventResponse := mkSubmitEvent false msg None None.

(** [env] is the interference while consensus is awaited. *)
Definition add_event_to_dag (env : NetworkService K → NetworkService K) (now_ms : Z) (e : TaskEvent) n
    : NetworkService K * result string SubmitEventResponse :=
  match quick_check now_ms e with
  | Err m => (n, Ok (refused ("Quick check failed: " +:+ m)))
  | Panic => (n, Panic)
  | Ok _ =>
      let stored vlc n :=
        (NW.on_core (VS.store_event (TE.id e) e) n,
         Ok (mkSubmitEvent true "Event verified and added to DAG" (Some (TE.id e)) vlc)) in
      match vs_consensus (nw_core n) with
      | None => stored None n
      | Some k =>
          let '(k', r) := consensus_submit (te_event e) k in
          let n := env (NW.on_core (VS.set_consensus (Some k')) n) in
          match r with
          | Ok _ => stored (vlc_logical_time <$> vs_consensus (nw_core n)) n
          | Err m => (n, Ok (refused ("Consensus submission failed: " +:+ m)))
          | Panic => (n, Panic)
          end
      end
  end.

(** The sampling of every tenth event only logs. *)
Definition submit_event (env : NetworkService K → NetworkService K) (now_ms : Z) (e : TaskEvent) (s : SideEffect) n
    : NetworkService K * result string SubmitEventResponse :=
  match quick_check now_ms e with
  | Err m => (n, Ok (refused ("Quick check failed: " +:+ m)))
  | Panic => (n, Panic)
  | Ok _ =>
      let id := TE.id e in
      let n := NW.count_event (NW.on_pending (fun l => l ++ [id]) n) in
      let settled := filter (fun x => x ≠ id) in
      let stored n := apply_event_side_effects e s (NW.on_pending settled (NW.on_core (VS.store_event id e) n)) in
      match vs_consensus (nw_core n) with
      | Some k =>
          let '(k', r) := consensus_submit (te_event e) k in
          let n := env (NW.on_core (VS.set_consensus (Some k')) n) in
          match r with
          | Ok _ =>
              (stored n, Ok (mkSubmitEvent true "Event verified and added to consensus DAG" (Some id)
                               (vlc_logical_time <$> vs_consensus (nw_core n))))
          | Err m => (NW.on_pending settled n, Ok (refused ("Consensus submission failed: " +:+ m)))
          | Panic => (n, Panic)
          end
      | None =>
          let t := u64_add (vs_vlc_counter (nw_core n)) 1 in
          (stored (NW.on_core VS.count_vlc n), Ok (mkSubmitEvent true "Event verified and added to DAG" (Some id) (Some t)))
      end
  end.

Definition get_events n : list TaskEvent := (map_to_list (vs_events (nw_core n))).*2.
End EH.
End EH.

(** ** The executor of infrastructure events *)

Module IE.
Section IE.
Context {P : Type} `{StateProvider P} `{Blake3} `{Bcs} `{HexCrate} `{SerdeJson} `{RegistrationBytes} `{JsonRead}.
(** The validator, its provider and the clock. *)
Context (validator_id : string) (provider : P) (now_ms : Z).

Definition tx_hash_of (domain : string) (parts : list string) : HashValue :=
  blake3 (as_bytes domain ++ concat (as_bytes <$> parts) ++ to_le_bytes 8 now_ms).

Definition context (domain : string) (parts : list string) : ExecutionContext :=
  mkExecutionContext validator_id now_ms false (tx_hash_of domain parts) None.

(** A run of the executor on a store of its own. *)
Definition run (m : Exec.exec (St := InMemoryStateStore) ExecutionOutput) (store : InMemoryStateStore)
    (failed : string) : result string ExecutionOutput :=
  match (m (store, 0%Z)).2 with
  | Ok out => if success out then Ok out else Err (default failed (message out))
  | Err e => Err ("Runtime error: " +:+ show_runtime_error e)
  | Panic => Panic
  end.

Definition parse_address (what s : string) : result string Address :=
  match address_from_hex s with
  | Ok a => Ok a
  | Err e => Err ("Invalid " +:+ what +:+ "address '" +:+ s +:+ "': " +:+ e)
  | Panic => Panic
  end.

Definition with_result (out : ExecutionOutput) (changes : list StateChange) (e : TaskEvent) : TaskEvent :=
  TE.set_execution_result (mkExecutionResult true (message out) changes) e.

Definition system_event (vlc : VLCSnapshot) : TaskEvent := TE.new System [] vlc validator_id now_ms.

Definition set_target (sn : SubnetId) (c : StateChange) : StateChange :=
  mkStateChange (sc_key c) (old_value c) (new_value c) (Some sn).

Definition execute_subnet_register (r : SubnetRegistration) (vlc : VLCSnapshot) : result string TaskEvent :=
  let ctx := context "SETU_TX_HASH:VALIDATOR:SUBNET:" [nr_subnet_id r] in
  let? owner := parse_address "owner " (nr_owner r) in
  let? out :=
    run (Exec.execute_subnet_register (nr_subnet_id r) (nr_name r) owner (nr_token_symbol r)
           (nr_initial_token_supply r) ctx) Mem.new "Subnet registration failed" in
  let target := resolve_subnet_id (nr_subnet_id r) in
  let changes :=
    (fun c => if bool_decide (rc_object_id c ∈ created_objects out)
              then set_target target (to_event_state_change c) else to_event_state_change c) <$> out_changes out in
  Ok (with_result out changes
        (TE.with_payload (PayloadSubnetRegister (subnet_payload r)) (TE.new SubnetRegister [] vlc validator_id now_ms))).

(** An object of the provider is put in the store of the run. *)
Definition seed (id : ObjectId) (store : InMemoryStateStore) : result string InMemoryStateStore :=
  match StateProvider.get_object provider id with
  | None => Ok store
  | Some b =>
      match StateStore.set_raw_object id b store with
      | (s, Ok _) => Ok s
      | (_, Err e) => Err ("Runtime state seed error: " +:+ show_runtime_error e)
      | (_, Panic) => Panic
      end
  end.

Definition execute_user_register (r : UserRegistration) (vlc : VLCSnapshot) : result string TaskEvent :=
  let ctx := context "SETU_TX_HASH:VALIDATOR:USER:" [ur_address r] in
  let? user := parse_address "user " (ur_address r) in
  let subnet := default "subnet-0" (ur_subnet_id r) in
  let? store := seed (flux_state_object_id (show_id user)) Mem.new in
  let? store := seed (power_state_object_id (show_id user)) store in
  let? out := run (Exec.execute_user_register user subnet ctx) store "User registration failed" in
  Ok (with_result out (to_event_state_change <$> out_changes out)
        (TE.with_payload (PayloadUserRegister (user_payload r)) (TE.new UserRegister [] vlc validator_id now_ms))).

Definition as_u64 (j : json) : option Z :=
  match j with JNum z => if (0 <=? z)%Z && (z <=? u64_max)%Z then Some z else None | _ => None end.

(** [value["created_at"] = json!(z)] on an object. *)
Definition json_set (key : string) (v : json) (j : json) : result string json :=
  match j with
  | JObj l =>
      Ok (JObj (if existsb (fun kv => bool_decide (kv.1 = key)) l
                then (fun kv => if bool_decide (kv.1 = key) then (key, v) else kv) <$> l
                else l ++ [(key, v)]))
  | JNull => Ok (JObj [(key, v)])
  | _ => Panic
  end.

(** The change of a profile that exists: it keeps the time of its creation. *)
Definition keep_created_at (existing : bytes) (id : ObjectId) (changes : list StateChange)
    : result string (list StateChange) :=
  match changes with
  | [c] =>
      if negb (bool_decide (sc_key c = object_key id)) then
        Err ("Profile update state key mismatch: expected " +:+ object_key id +:+ ", got " +:+ sc_key c)
      else
        match json_of_slice existing with
        | inl e => Err ("Existing profile state decode error: " +:+ e)
        | inr old =>
            match json_get old "created_at" ≫= as_u64 with
            | Some t =>
                match new_value c with
                | None => Err "Profile update missing new profile state"
                | Some b =>
                    match json_of_slice b with
                    | inl e => Err ("New profile state decode error: " +:+ e)
                    | inr j =>
                        let? j' := json_set "created_at" (JNum t) j in
                        match json_to_vec j' with
                        | Some b' => Ok [mkStateChange (sc_key c) (Some existing) (Some b') (target_subnet c)]
                        | None => Err "Profile update state encode error"
                        end
                    end
                end
            | None => Err "Existing profile state missing created_at"
            end
        end
  | _ => Err ("Profile update expected 1 state change, got " +:+ Tee.fmt_nat (length changes))
  end.

Definition profile_id (user : string) : ObjectId := Exec.meta_id "SETU_PROFILE:" ("profile:" +:+ user).

Definition execute_profile_update (address : string) (display_name avatar_url bio : option string)
    (attributes : gmap string string) (vlc : VLCSnapshot) : result string TaskEvent :=
  let ctx := context "SETU_TX_HASH:VALIDATOR:PROFILE:" [address] in
  let? user := parse_address "" address in
  let id := profile_id (show_id user) in
  let? out := run (Exec.execute_profile_update user display_name avatar_url bio attributes ctx) Mem.new
                "Profile update failed" in
  let changes := to_event_state_change <$> out_changes out in
  let? changes :=
    match StateProvider.get_object provider id with
    | Some existing => keep_created_at existing id changes
    | None => Ok changes
    end in
  Ok (with_result out changes (system_event vlc)).

Definition execute_subnet_join (address subnet : string) (vlc : VLCSnapshot) : result string TaskEvent :=
  let ctx := context "SETU_TX_HASH:VALIDATOR:JOIN:" [address; subnet] in
  let? user := parse_address "" address in
  let? out := run (Exec.execute_subnet_join user subnet ctx) Mem.new "Subnet join failed" in
  Ok (with_result out (to_event_state_change <$> out_changes out) (system_event vlc)).

Definition execute_subnet_leave (address subnet : string) (vlc : VLCSnapshot) : result string TaskEvent :=
  let? user := parse_address "" address in
  let? out := run (Exec.execute_subnet_leave user subnet) Mem.new "Subnet leave failed" in
  Ok (with_result out (to_event_state_change <$> out_changes out) (system_event vlc)).
End IE.
End IE.

(** ** The handlers of registrations *)

Record RegisterSolverRequest := mkRegisterSolver {
  qs_solver_id : string;
  qs_address : string;
  qs_port : Z;
  qs_account_address : string;
  qs_public_key : bytes;
  qs_signature : bytes;
  qs_capacity : Z;
  qs_shard_id : option string;
  qs_assigned_shard : option Z;
  qs_resources : list string;
  qs_permitted_subnets : list string
}.

Record RegisterValidatorRequest := mkRegisterValidator {
  qv_validator_id : string;
  qv_address : string;
  qv_port : Z;
  qv_account_address : string;
  qv_public_key : bytes;
  qv_signature : bytes;
  qv_stake_amount : Z;
  qv_commission_rate : Z
}.

Record RegisterSubnetRequest := mkRegisterSubnet {
  qn_subnet_id : string;
  qn_name : string;
  qn_description : option string;
  qn_owner : string;
  qn_subnet_type : option string;
  qn_parent_subnet_id : option string;
  qn_max_users : option Z;
  qn_max_tps : option Z;
  qn_max_storage_bytes : option Z;
  qn_token_symbol : string;
  qn_initial_token_supply : option Z;
  qn_token_decimals : option Z;
  qn_token_max_supply : option Z;
  qn_token_mintable : option bool;
  qn_token_burnable : option bool;
  qn_user_airdrop_amount : option Z;
  qn_assigned_solvers : list string
}.

(** The answers to registrations: of solvers (the assigned id), of validators,
    and of subnets (the id, the event). *)
Record RegisterResponse := mkRegisterResponse {
  rp_success : bool;
  rp_message : string;
  rp_id : option string;
  rp_event_id : option EventId
}.

Inductive NodeType := NodeSolver | NodeValidator.

Record SolverListItem := mkSolverItem {
  it_solver_id : string;
  it_address : string;
  it_port : Z;
  it_capacity : Z;
  it_current_load : Z;
  it_status : string;
  it_shard_id : option string;
  it_routable : bool
}.

Module RH.
Section RH.
Context {P : Type} `{StateProvider P} `{Blake3} `{Bcs} `{HexCrate} `{SerdeJson} `{RegistrationBytes} `{JsonRead}.
Context {K : Type} `{ConsensusNode K}.
Implicit Type n : NetworkService K.
(** The provider, the clock and what other tasks do while consensus is
    awaited. *)
Context (provider : P) (now now_ms : Z) (env : NetworkService K → NetworkService K).

Definition failed (msg : string) : RegisterResponse := mkRegisterResponse false msg None None.

Definition on_solver_info (f : gmap string NetSolver → gmap string NetSolver) (s : ValidatorService K)
    : ValidatorService K :=
  mkService (vs_reservations s) (vs_manager s) (f (vs_solver_info s)) (vs_transfer_status s) (vs_events s)
    (vs_dag_events s) (vs_consensus s) (vs_forced_failure s) (vs_pending s) (vs_router s) (vs_transfer_counter s)
    (vs_vlc_counter s) (vs_batch_tx s) (vs_batch_alive s) (vs_batch_support s) (vs_spawned s).

Definition permitted (l : list string) : list SubnetId :=
  omap (fun s => match Subnet.parse_public_or_hex s with Ok id => Some id | _ => None end) l.

(** The receiving half of the channel of the router is dropped on return. *)
Definition register_solver_internal (r : RegisterSolverRequest) n : NetworkService K :=
  let info :=
    mkNetSolver (qs_solver_id r) (qs_address r) (qs_port r) (qs_capacity r) (qs_shard_id r) (qs_assigned_shard r)
      (qs_resources r) "active" now in
  NW.on_core (fun s =>
    let s := on_solver_info <[qs_solver_id r := info]> s in
    VS.set_router
      (RM.register_solver_with_affinity (qs_solver_id r) (qs_address r +:+ ":" +:+ fmt_u64 (qs_port r)) (qs_capacity r)
         (mkChannel false []) (qs_shard_id r) (qs_assigned_shard r) (qs_resources r) (permitted (qs_permitted_subnets r))
         (vs_router s)) s) n.

Definition unregister_solver (id : string) n : NetworkService K :=
  NW.on_core (fun s => on_solver_info (delete id) (VS.set_router (RM.unregister_solver id (vs_router s)) s)) n.

(** The registration in the event: the assigned shard and the permitted subnets
    of the request are not in it, and a missing shard is an empty one. *)
Definition solver_registration (r : RegisterSolverRequest) : SolverRegistration :=
  mkSolverRegistration (qs_solver_id r) (qs_address r) (qs_port r) (qs_account_address r) (qs_public_key r)
    (qs_signature r) (qs_capacity r) (Some (default "" (qs_shard_id r))) None (qs_resources r) [].

Definition registered_change (kind id address : string) (port : Z) : StateChange :=
  mkStateChange (kind +:+ ":" +:+ id) None (Some (as_bytes ("registered:" +:+ address +:+ ":" +:+ fmt_u64 port))) None.

Definition register_solver (r : RegisterSolverRequest) n : NetworkService K * result string RegisterResponse :=
  let '(n, vlc) := NW.build_vlc_snapshot now_ms n in
  let e :=
    TE.set_execution_result
      (mkExecutionResult true (Some "Solver registration executed")
         [registered_change "solver" (qs_solver_id r) (qs_address r) (qs_port r)])
      (TE.with_payload (PayloadSolverRegister (solver_payload (solver_registration r)))
         (TE.new SolverRegister [] vlc (qs_solver_id r) now_ms)) in
  match EH.add_event_to_dag env now_ms e n with
  | (n, Ok resp) =>
      if negb (se_success resp) then (n, Ok (failed (se_message resp)))
      else (register_solver_internal r n,
            Ok (mkRegisterResponse true "Solver registered successfully" (Some (qs_solver_id r)) None))
  | (n, Err e) => (n, Err e)
  | (n, Panic) => (n, Panic)
  end.

Definition register_validator (r : RegisterValidatorRequest) n : NetworkService K * result string RegisterResponse :=
  let '(n, vlc) := NW.build_vlc_snapshot now_ms n in
  let reg :=
    mkValidatorRegistration (qv_validator_id r) (qv_address r) (qv_port r) (qv_account_address r) (qv_public_key r)
      (qv_signature r) (qv_stake_amount r) (Z.min (qv_commission_rate r) 100) in
  let e :=
    TE.set_execution_result
      (mkExecutionResult true (Some "Validator registration executed")
         [registered_change "validator" (qv_validator_id r) (qv_address r) (qv_port r)])
      (TE.with_payload (PayloadValidatorRegister (validator_payload reg))
         (TE.new ValidatorRegister [] vlc (qv_validator_id r) now_ms)) in
  match EH.add_event_to_dag env now_ms e n with
  | (n, Ok resp) =>
      if negb (se_success resp) then (n, Ok (failed (se_message resp)))
      else
        let n := NW.add_validator (mkValidatorInfo (qv_validator_id r) (qv_address r) (qv_port r) "online" now) n in
        (NW.on_core (fun s =>
           match vs_consensus s with
           | Some k => VS.set_consensus (Some (add_peer_validator (qv_validator_id r) (qv_address r) (qv_port r) k)) s
           | None => s
           end) n,
         Ok (mkRegisterResponse true "Validator registered successfully" None None))
  | (n, Err e) => (n, Err e)
  | (n, Panic) => (n, Panic)
  end.

Definition is_control (c : Ascii.ascii) : bool := Subnet.between 0 31 c || Subnet.between 127 127 c.

Definition validate_public_subnet_name (raw : string) : result string unit :=
  if Subnet.is_blank raw then Err "Invalid subnet name: must not be empty"
  else if negb (Subnet.is_trimmed raw) then Err "Invalid subnet name: leading/trailing whitespace is not allowed"
  else if (128 <? String.length raw)%nat then Err "Invalid subnet name: length must be <= 128 characters"
  else if existsb is_control (chars raw) then Err "Invalid subnet name: control characters are not allowed"
  else Ok tt.

Definition owner_ok (owner : string) : bool :=
  match chars owner with
  | c :: c' :: rest =>
      (Subnet.code c =? 48)%N && (Subnet.code c' =? 120)%N && (length rest =? 64)%nat && forallb Subnet.is_hexdigit rest
  | _ => false
  end.

Definition symbol_ok (s : string) : bool :=
  (0 <? String.length s)%nat && (String.length s <=? 10)%nat
    && forallb (fun c => Subnet.is_upper c || Subnet.is_digit c) (chars s).

Definition parse_subnet_type (t : option string) : result string SubnetType :=
  match t with
  | None => Ok TypeApp
  | Some t =>
      let l := to_ascii_lowercase t in
      if bool_decide (l = "app") || bool_decide (l = "application") then Ok TypeApp
      else if bool_decide (l = "organization") || bool_decide (l = "org") then Ok TypeOrganization
      else if bool_decide (l = "personal") then Ok TypePersonal
      else Err ("Unknown subnet type '" +:+ l +:+ "' (valid: app, organization, personal)")
  end.

Definition show_subnet_type (t : SubnetType) : string :=
  match t with
  | TypeRoot => "Root"
  | TypeSystemReserved => "SystemReserved"
  | TypeApp => "App"
  | TypeOrganization => "Organization"
  | TypePersonal => "Personal"
  | TypeUnknown => "Unknown"
  end.

Definition subnet_registration (r : RegisterSubnetRequest) (t : SubnetType) : SubnetRegistration :=
  mkSubnetRegistration (qn_subnet_id r) (qn_name r) (qn_description r) (qn_owner r) (qn_max_users r)
    (match qn_max_tps r, qn_max_storage_bytes r with
     | None, None => None
     | tps, storage => Some (mkLimits tps storage None)
     end)
    (qn_assigned_solvers r) t (qn_parent_subnet_id r) (Some (qn_token_symbol r)) (qn_initial_token_supply r)
    (Some (mkTokenConfig (default 8%Z (qn_token_decimals r)) (qn_token_max_supply r)
             (default false (qn_token_mintable r)) (default true (qn_token_burnable r))))
    (qn_user_airdrop_amount r).

Definition register_subnet (r : RegisterSubnetRequest) n : NetworkService K * result string RegisterResponse :=
  match Subnet.validate_public_id_grammar (qn_subnet_id r) with
  | Panic => (n, Panic)
  | Err m => (n, Ok (failed m))
  | Ok _ =>
      match validate_public_subnet_name (qn_name r) with
      | Panic => (n, Panic)
      | Err m => (n, Ok (failed m))
      | Ok _ =>
          if bool_decide (is_Some (NW.get_subnet_info (qn_subnet_id r) n)) then
            (n, Ok (mkRegisterResponse false ("Subnet '" +:+ qn_subnet_id r +:+ "' is already registered")
                      (Some (qn_subnet_id r)) None))
          else if negb (owner_ok (qn_owner r)) then
            (n, Ok (failed "Invalid owner address format (expected 0x + 64 hex chars)"))
          else if negb (symbol_ok (qn_token_symbol r)) then
            (n, Ok (failed "Invalid token_symbol (must be 1-10 uppercase alphanumeric characters)"))
          else
            match parse_subnet_type (qn_subnet_type r) with
            | Panic => (n, Panic)
            | Err m => (n, Ok (failed m))
            | Ok t =>
                let reg := subnet_registration r t in
                let '(n, vlc) := NW.build_vlc_snapshot now_ms n in
                match IE.execute_subnet_register (nw_validator_id n) now_ms reg vlc with
                | Panic => (n, Panic)
                | Err e => (n, Ok (failed ("Subnet registration failed: " +:+ e)))
                | Ok e =>
                    match EH.add_event_to_dag env now_ms e n with
                    | (n, Panic) => (n, Panic)
                    | (n, Err e) => (n, Err e)
                    | (n, Ok resp) =>
                        if negb (se_success resp) then (n, Ok (failed (se_message resp)))
                        else
                          (NW.add_subnet
                             (mkSubnetInfo (qn_subnet_id r) (resolve_subnet_id (qn_subnet_id r)) (qn_name r) (qn_owner r)
                                (show_subnet_type t) (qn_token_symbol r) "active" now) n,
                           Ok (mkRegisterResponse true "Subnet registered successfully" (Some (qn_subnet_id r))
                                 (Some (TE.id e))))
                    end
                end
            end
      end
  end.

Definition unregister (id : string) (t : NodeType) n : NetworkService K * string :=
  match t with
  | NodeSolver => (unregister_solver id n, "Solver unregistered successfully")
  | NodeValidator => (NW.unregister_validator id n, "Validator unregistered successfully")
  end.

(** Whether the solver is known; the load it reports. *)
Definition heartbeat (id : string) (load : option Z) n : NetworkService K * bool :=
  match RM.get_solver id (vs_router (nw_core n)) with
  | None => (n, false)
  | Some _ =>
      (match load with
       | Some l => NW.on_core (fun s => VS.set_router (RM.update_solver_load id l (vs_router s)) s) n
       | None => n
       end, true)
  end.

Definition get_solver_list (shard : option string) n : list SolverListItem :=
  let item (s : NetSolver) :=
    let routed := RM.get_solver (ns_solver_id s) (vs_router (nw_core n)) in
    mkSolverItem (ns_solver_id s) (ns_address s) (ns_port s) (ns_capacity s) (default 0%Z (sc_current_load <$> routed))
      (ns_status s) (ns_shard_id s) (bool_decide (is_Some routed)) in
  item <$> filter (fun s => (match shard with Some _ => bool_decide (ns_shard_id s = shard) | None => true end) = true)
             (map_to_list (vs_solver_info (nw_core n))).*2.
End RH.
End RH.
