(* ===== verification/UserHandler.v ===== *)
(** * The handlers of user requests

    [setu-validator/src/user_handler.rs] (module [UH]) with the requests and
    answers of [setu-rpc/src/user.rs]: registration, signed transfers, profiles,
    memberships of subnets, and the queries of accounts.  Strings are ASCII. *)

From Stdlib Require Import ZArith Lia Strings.Byte.
From stdpp Require Import base gmap sets list strings numbers pretty.
From S2P Require Import Prelude Hash Vlc Event Coin StateStore Resource Executor StateManager Task Stf Enclave Reservation StateProvider TaskPreparer SolverRouter TransferService Amount Keys InfraService.

#[local] Open Scope string_scope.
#[local] Open Scope list_scope.
#[local] Open Scope setu_scope.

(** ** Requests and answers *)

Record RegisterUserRequest := mkRegisterUser {
  ru_address : string;
  ru_nostr_pubkey : option bytes;
  ru_signature : option bytes;
  ru_message : option string;
  ru_timestamp : Z;
  ru_subnet_id : option string;
  ru_display_name : option string;
  ru_metadata : option string;
  ru_invite_code : option string;
  ru_public_key : option string
}.

Record RegisterUserResponse := mkRegisterUserResponse {
  rr_success : bool;
  rr_message : string;
  rr_address : string;
  rr_event_id : option EventId;
  rr_initial_setu : Z;
  rr_initial_power : Z;
  rr_initial_flux : Z
}.

Record TransferRequest := mkTransferRequest {
  tq_from : string;
  tq_to : string;
  tq_amount : option Z;
  tq_display_amount : option string;
  tq_coin_type : option string;
  tq_subnet_id : option string;
  tq_client_nonce : option string;
  tq_chain_id : option string;
  tq_memo : option string;
  tq_message : option string;
  tq_timestamp : Z;
  tq_signature : option bytes;
  tq_public_key : option string;
  tq_nostr_pubkey : option bytes
}.

Record TransferResponse := mkTransferResponse {
  tn_success : bool;
  tn_message : string;
  tn_event_id : option EventId;
  tn_estimated_confirmation : option Z
}.

(** The part that requests on profiles and memberships share, and their
    answer. *)
Record SignedPart := mkSignedPart {
  sg_address : string;
  sg_signature : bytes;
  sg_message : string;
  sg_timestamp : Z;
  sg_public_key : option string;
  sg_nostr_pubkey : option bytes
}.

Record UpdateProfileRequest := mkUpdateProfile {
  up_signed : SignedPart;
  up_display_name : option string;
  up_avatar_url : option string;
  up_bio : option string;
  up_attributes : option (gmap string string)
}.

Record SubnetRequest := mkSubnetRequest { mr_signed : SignedPart; mr_subnet_id : string }.

Record UserResponse := mkUserResponse { us_success : bool; us_message : string; us_event_id : option EventId }.

Record CoinBalance := mkCoinBalance {
  cb_coin_type : string;
  cb_balance : Z;
  cb_coin_count : Z;
  cb_symbol : string;
  cb_decimals : nat;
  cb_display_balance : string
}.

Record GetBalanceResponse := mkBalanceResponse {
  gb_found : bool;
  gb_address : string;
  gb_balances : list CoinBalance;
  gb_total_balance : Z;
  gb_total_display : option (string * nat * string)
}.

Record GetAccountResponse := mkAccountResponse {
  ga_found : bool;
  ga_address : string;
  ga_setu_balance : Z;
  ga_setu_display_balance : string;
  ga_power : Z;
  ga_flux : Z
}.

Record ProfileInfo := mkProfileInfo {
  pi_display_name : option string;
  pi_avatar_url : option string;
  pi_bio : option string;
  pi_created_at : Z
}.

Module UH.

(** ** Checks *)

Definition starts_0x (s : string) : bool :=
  match chars s with
  | c :: c' :: _ => (Subnet.code c =? 48)%N && (Subnet.code c' =? 120)%N
  | _ => false
  end.

Definition is_user_address (address : string) : bool :=
  starts_0x address && ((String.length address =? 66)%nat || (String.length address =? 42)%nat).

(** [now_secs.abs_diff(timestamp / 1000) > 300]. *)
Definition check_timestamp (now : Z) (timestamp : Z) : result string unit :=
  if (300 <? Z.abs (now - timestamp / 1000))%Z
  then Err "Timestamp too old or too far in the future (5 min window)"
  else Ok tt.

Definition show_amount_error (e : AmountParseError) : string :=
  match e with
  | AmountEmpty => "amount cannot be empty"
  | AmountInvalidCharacter c => "amount contains invalid character: " +:+ String c ""
  | MultipleDecimalPoints => "amount contains multiple decimal points"
  | MissingDigits => "amount must include digits before and after decimal point"
  | TooManyFractionalDigits actual max =>
      "amount has too many fractional digits: " +:+ Tee.fmt_nat actual +:+ ", max " +:+ Tee.fmt_nat max
  | DecimalScaleOverflow d => "decimal scale overflows u64 for decimals=" +:+ Tee.fmt_nat d
  | AmountOverflow => "amount overflows u64 raw units"
  end.

Definition resolve_transfer_amount (r : TransferRequest) (coin_type : string) : result string Z :=
  if negb (Amount.is_setu_token_identifier coin_type) then
    Err "Signed user transfers currently support SETU only; non-SETU token transfers are deferred"
  else
    let? display :=
      match tq_display_amount r with
      | Some s =>
          match Amount.parse_setu_amount_to_units s with
          | Ok u => Ok (Some u)
          | Err e => Err ("Invalid display_amount: " +:+ show_amount_error e)
          | Panic => Panic
          end
      | None => Ok None
      end in
    match tq_amount r, display with
    | Some raw, Some units =>
        if negb (raw =? units)%Z then Err "amount and display_amount do not match after SETU decimal conversion"
        else Ok raw
    | Some raw, None => Ok raw
    | None, Some units => Ok units
    | None, None => Err "Transfer amount is required"
    end.

Definition resolve_subnet_transfer_amount (r : TransferRequest) : result string Z :=
  match tq_display_amount r with
  | Some _ => Err "display_amount is not supported for subnet token transfer; use raw amount units"
  | None =>
      match tq_amount r with
      | Some raw => if (0 <? raw)%Z then Ok raw else Err "Transfer amount must be greater than zero"
      | None => Err "Transfer amount (raw units) is required for subnet token transfer"
      end
  end.

Definition coin_type_matches_filter (coin_type flt : string) : bool :=
  if Amount.is_setu_token_identifier flt then Amount.is_setu_token_identifier coin_type
  else bool_decide (coin_type = flt).

Definition display_coin_balance (coin_type : string) (balance count : Z) : CoinBalance :=
  if Amount.is_setu_token_identifier coin_type
  then mkCoinBalance coin_type balance count SETU_SYMBOL SETU_DECIMALS (Amount.format_setu_units balance)
  else mkCoinBalance coin_type balance count coin_type 0 (fmt_u64 balance).

Definition newline : string := String (Ascii.ascii_of_N 10) "".

(** A field with its length. *)
Definition field (name value : string) : string :=
  name +:+ "_len=" +:+ Tee.fmt_nat (String.length value) +:+ ";" +:+ name +:+ "=" +:+ value +:+ newline.

Definition canonical_transfer_message_v2 (chain_id from to : string) (amount : Z) (subnet nonce : string)
    (timestamp : Z) : string :=
  "SETU_TRANSFER_V2" +:+ newline +:+ field "chain_id" chain_id +:+ field "from" from +:+ field "to" to
    +:+ "amount_raw=" +:+ fmt_u64 amount +:+ newline +:+ field "subnet_id" subnet +:+ field "client_nonce" nonce
    +:+ "timestamp_ms=" +:+ fmt_u64 timestamp.

Definition normalize_address (address : string) : string := to_ascii_lowercase address.

Section Verify.
Context `{KeyCrates} `{HexCrate} `{Sha256}.
(** [SETU_SKIP_SIG_VERIFY] is set. *)
Context (skip : bool).

Definition verify_by_scheme (address : string) (signature : bytes) (message : string) (nostr : option bytes)
    (public_key : option string) : result KeyError unit :=
  match nostr, public_key with
  | Some npk, _ => Keys.verify_nostr_schnorr address npk signature (as_bytes message)
  | None, Some pk =>
      let? k := Keys.decode_base64 pk in
      Keys.verify_setu_native_raw address (Keys.flagged k) signature (as_bytes message)
  | None, None => Keys.verify_metamask_personal_sign address signature message
  end.

Definition verify_signature (address : string) (signature : bytes) (message : string) (nostr : option bytes)
    (public_key : option string) : result string unit :=
  if skip then Ok tt
  else
    match verify_by_scheme address signature message nostr public_key with
    | Ok _ => Ok tt
    | Err e => Err ("Signature verification failed: " +:+ show_key_error e)
    | Panic => Panic
    end.
End Verify.

Section Handlers.
Context `{KeyCrates} `{Blake3} `{HexCrate} `{Sha256} `{SerdeJson} `{Bcs} `{RegistrationBytes} `{JsonRead} `{ResourceJson}.
Context `{Bincode} `{ProofBcs}.
Context {P : Type} `{StateProvider P} {K : Type} `{ConsensusNode K}.
Implicit Type n : NetworkService K.

(** The setting, the clock, the preparer whose provider the infrastructure
    executor shares, and what other tasks do while consensus is awaited. *)
Context (skip : bool) (now now_ms nanos : Z) (tp : TaskPreparer P) (env : NetworkService K → NetworkService K).
#[local] Abbreviation state_object id := (StateProvider.get_object (tp_provider tp) id).

Definition membership_oid (address subnet : string) : ObjectId :=
  Exec.meta_id "SETU_MEMBERSHIP:" ("user:" +:+ address +:+ ":subnet:" +:+ subnet).

(** ** Registration *)

Definition reg_err (message address : string) : RegisterUserResponse :=
  mkRegisterUserResponse false message address None 0 0 0.

Definition nostr_part_ok (r : RegisterUserRequest) : result string unit :=
  match ru_nostr_pubkey r with
  | None => Ok tt
  | Some k =>
      if negb (length k =? 32)%nat then Err "Nostr public key must be 32 bytes"
      else
        match ru_signature r with
        | Some (_ :: _) => Ok tt
        | _ => Err "Nostr signature cannot be empty"
        end
  end.

Definition registration_signed (r : RegisterUserRequest) : result string unit :=
  if skip then Ok tt
  else
    match ru_message r with
    | None => Err "Signed message is required for registration"
    | Some m =>
        match ru_signature r with
        | Some ((_ :: _) as sig) =>
            match verify_by_scheme (ru_address r) sig m (ru_nostr_pubkey r) (ru_public_key r) with
            | Ok _ => Ok tt
            | Err e => Err ("Signature verification failed: " +:+ show_key_error e)
            | Panic => Panic
            end
        | _ => Err "Signature is required for registration"
        end
    end.

(** The checks before anything is built, in order. *)
Definition registration_admitted (r : RegisterUserRequest) : result string unit :=
  let subnet := default "subnet-0" (ru_subnet_id r) in
  if bool_decide (ru_address r = "") then Err "Wallet address cannot be empty"
  else if negb (is_user_address (ru_address r)) then
    Err "Invalid address format: expected 0x + 64 hex (Setu) or 0x + 40 hex (Ethereum)"
  else
    let? _ := nostr_part_ok r in
    let? _ := check_timestamp now (ru_timestamp r) in
    let? _ := registration_signed r in
    if bool_decide (is_Some (state_object (membership_oid (ru_address r) subnet)))
    then Err ("User " +:+ ru_address r +:+ " already registered in subnet '" +:+ subnet +:+ "'")
    else Ok tt.

Definition user_registration (r : RegisterUserRequest) : UserRegistration :=
  mkUserRegistration (ru_address r) (ru_nostr_pubkey r) (ru_signature r) (ru_message r) (ru_timestamp r)
    (ru_subnet_id r) (ru_display_name r) (ru_metadata r) None (ru_invite_code r) (ru_public_key r).

Definition register_user (r : RegisterUserRequest) n : NetworkService K * result string RegisterUserResponse :=
  match registration_admitted r with
  | Panic => (n, Panic)
  | Err m => (n, Ok (reg_err m (ru_address r)))
  | Ok _ =>
      let '(n, vlc) := NW.build_vlc_snapshot now_ms n in
      match IE.execute_user_register (nw_validator_id n) (tp_provider tp) now_ms (user_registration r) vlc with
      | Panic => (n, Panic)
      | Err e => (n, Ok (reg_err ("Registration failed: " +:+ e) (ru_address r)))
      | Ok e =>
          match EH.add_event_to_dag env now_ms e n with
          | (n, Ok resp) =>
              (n, Ok (if negb (se_success resp) then reg_err (se_message resp) (ru_address r)
                      else mkRegisterUserResponse true "User registered successfully" (ru_address r) (Some (TE.id e)) 0
                             INITIAL_POWER INITIAL_FLUX))
          | (n, Err e) => (n, Err e)
          | (n, Panic) => (n, Panic)
          end
      end
  end.

(** ** Profiles and memberships *)

Definition user_err (m : string) : UserResponse := mkUserResponse false m None.

(** The checks that the three requests share. *)
Definition signed_admitted (s : SignedPart) : result string unit :=
  if negb (is_user_address (sg_address s)) then Err "Invalid address format"
  else
    let? _ := check_timestamp now (sg_timestamp s) in
    verify_signature skip (sg_address s) (sg_signature s) (sg_message s) (sg_nostr_pubkey s) (sg_public_key s).

(** An event that was built, or not, goes to the DAG. *)
Definition submit_user_event (failed done : string) (built : result string TaskEvent) n
    : NetworkService K * result string UserResponse :=
  match built with
  | Panic => (n, Panic)
  | Err e => (n, Ok (user_err (failed +:+ ": " +:+ e)))
  | Ok e =>
      match EH.add_event_to_dag env now_ms e n with
      | (n, Ok resp) =>
          (n, Ok (if negb (se_success resp) then user_err (se_message resp)
                  else mkUserResponse true done (Some (TE.id e))))
      | (n, Err e) => (n, Err e)
      | (n, Panic) => (n, Panic)
      end
  end.

Definition admit_then (admitted : result string unit)
    (k : NetworkService K → NetworkService K * result string UserResponse) n
    : NetworkService K * result string UserResponse :=
  match admitted with
  | Panic => (n, Panic)
  | Err m => (n, Ok (user_err m))
  | Ok _ => k n
  end.

Definition update_profile (r : UpdateProfileRequest) n : NetworkService K * result string UserResponse :=
  admit_then (signed_admitted (up_signed r)) (fun n =>
    let '(n, vlc) := NW.build_vlc_snapshot now_ms n in
    submit_user_event "Profile update failed" "Profile updated"
      (IE.execute_profile_update (nw_validator_id n) (tp_provider tp) now_ms (sg_address (up_signed r))
         (up_display_name r) (up_avatar_url r) (up_bio r) (default ∅ (up_attributes r)) vlc) n) n.

Definition join_admitted (r : SubnetRequest) n : result string unit :=
  let? _ := signed_admitted (mr_signed r) in
  if bool_decide (NW.get_subnet_info (mr_subnet_id r) n = None)
  then Err ("INFRA_SUBNET: Subnet '" +:+ mr_subnet_id r +:+ "' is not registered")
  else if bool_decide (is_Some (state_object (membership_oid (sg_address (mr_signed r)) (mr_subnet_id r))))
  then Err ("User " +:+ sg_address (mr_signed r) +:+ " already a member of subnet '" +:+ mr_subnet_id r +:+ "'")
  else Ok tt.

Definition join_subnet (r : SubnetRequest) n : NetworkService K * result string UserResponse :=
  admit_then (join_admitted r n) (fun n =>
    let '(n, vlc) := NW.build_vlc_snapshot now_ms n in
    submit_user_event "Subnet join failed" "Joined subnet"
      (IE.execute_subnet_join (nw_validator_id n) now_ms (sg_address (mr_signed r)) (mr_subnet_id r) vlc) n) n.

Definition leave_admitted (r : SubnetRequest) : result string unit :=
  let? _ := signed_admitted (mr_signed r) in
  if bool_decide (is_Some (state_object (membership_oid (sg_address (mr_signed r)) (mr_subnet_id r))))
  then Ok tt
  else Err ("User " +:+ sg_address (mr_signed r) +:+ " is not a member of subnet '" +:+ mr_subnet_id r +:+ "'").

Definition leave_subnet (r : SubnetRequest) n : NetworkService K * result string UserResponse :=
  admit_then (leave_admitted r) (fun n =>
    let '(n, vlc) := NW.build_vlc_snapshot now_ms n in
    submit_user_event "Subnet leave failed" "Left subnet"
      (IE.execute_subnet_leave (nw_validator_id n) now_ms (sg_address (mr_signed r)) (mr_subnet_id r) vlc) n) n.

(** Whether the user is a member, and since when; a value that cannot be read
    is [Null]. *)
Definition check_membership (address subnet : string) : option (option Z) :=
  (fun b => match json_of_slice b with inr j => json_get j "joined_at" ≫= IE.as_u64 | inl _ => None end)
    <$> state_object (membership_oid address subnet).

Definition get_user_subnets (address : string) n : list string :=
  filter (fun s => is_Some (state_object (membership_oid address s))) (si_subnet_id <$> (map_to_list (nw_subnets n)).*2).

Definition json_str (j : json) (key : string) : option string :=
  match json_get j key with Some (JStr s) => Some s | _ => None end.

Definition get_profile (address : string) : option ProfileInfo :=
  (fun b =>
     let j := match json_of_slice b with inr j => j | inl _ => JNull end in
     mkProfileInfo (json_str j "display_name") (json_str j "avatar_url") (json_str j "bio")
       (default 0%Z (json_get j "created_at" ≫= IE.as_u64)))
    <$> state_object (IE.profile_id address).

(** ** Accounts *)

(** [iter.sum()]. *)
Definition sum_u64 (l : list Z) : Z := foldl u64_add 0%Z l.

Definition power_of (address : string) : option PowerState := state_object (power_state_object_id address) ≫= power_of_json.
Definition flux_of (address : string) : option FluxState := state_object (flux_state_object_id address) ≫= flux_of_json.

Definition get_account (address : string) : GetAccountResponse :=
  let coins := get_coins_for_address (tp_provider tp) address in
  let setu := sum_u64 (ci_balance <$> filter (fun c => Amount.is_setu_token_identifier (ci_coin_type c) = true) coins) in
  mkAccountResponse (negb (bool_decide (coins = []))) address setu (Amount.format_setu_units setu)
    (default 0%Z (power_remaining <$> power_of address)) (default 0%Z (flux <$> flux_of address)).

Definition aggregate (coins : list CoinInfo) : gmap string (Z * Z) :=
  foldl (fun m c =>
           let '(b, k) := default (0%Z, 0%Z) (m !! ci_coin_type c) in
           <[ci_coin_type c := (u64_add b (ci_balance c), ((k + 1) mod 2 ^ 32)%Z)]> m) ∅ coins.

(** The order of coin types, which are distinct. *)
Definition balance_le (a b : CoinBalance) : bool :=
  HV.bytes_leb (as_bytes (cb_coin_type a)) (as_bytes (cb_coin_type b)).

Definition get_balance (address : string) (coin_type subnet_id : option string) : GetBalanceResponse :=
  let coins :=
    match subnet_id with
    | Some s =>
        match Subnet.parse_public_or_hex s with
        | Ok sn => get_coins_for_address_in_subnet (tp_provider tp) address sn
        | _ => []
        end
    | None => get_coins_for_address (tp_provider tp) address
    end in
  let wanted ct := match coin_type with Some flt => coin_type_matches_filter ct flt | None => true end in
  let balances :=
    stable_sort balance_le
      ((fun e : string * (Z * Z) => display_coin_balance e.1 e.2.1 e.2.2)
         <$> filter (fun e => wanted e.1 = true) (map_to_list (aggregate coins))) in
  mkBalanceResponse (negb (bool_decide (coins = []))) address balances (sum_u64 (cb_balance <$> balances))
    (match balances with [b] => Some (cb_display_balance b, cb_decimals b, cb_symbol b) | _ => None end).

(** ** Signed transfers *)

Definition transfer_err (m : string) : TransferResponse := mkTransferResponse false m None None.

(** What a request that passed the checks asks for. *)
Record Admission := mkAdmission {
  am_subnet : SubnetId;
  am_amount : Z;
  am_nonce : string
}.

(** The amount, by the rules of the subnet. *)
Definition transfer_amount (r : TransferRequest) (subnet : SubnetId) n : result string Z :=
  let? amount :=
    if bool_decide (subnet = SUBNET_ROOT) then
      resolve_transfer_amount r (to_ascii_lowercase (default "setu" (tq_coin_type r)))
    else if bool_decide (is_Some (tq_coin_type r)) then
      Err "coin_type must be omitted for subnet token transfer; the subnet_id determines the token"
    else if bool_decide (NW.get_subnet_info_by_canonical subnet n = None) then
      Err "Unknown subnet: not registered or not active"
    else resolve_subnet_transfer_amount r in
  if (amount =? 0)%Z then Err "Transfer amount must be greater than zero" else Ok amount.

Definition request_message (r : TransferRequest) (chain_id : string) (d : Admission) : string :=
  canonical_transfer_message_v2 chain_id (normalize_address (tq_from r)) (normalize_address (tq_to r)) (am_amount d)
    (Subnet.canonical_string (am_subnet d)) (am_nonce d) (tq_timestamp r).

(** The checks, in order; the last one is for a nonce that was used. *)
Definition transfer_admitted (r : TransferRequest) n : result string Admission :=
  if negb (is_user_address (tq_from r)) then
    Err "Invalid from address format: expected 0x + 64 hex (Setu) or 0x + 40 hex (Ethereum)"
  else if negb (is_user_address (tq_to r)) then
    Err "Invalid to address format: expected 0x + 64 hex (Setu) or 0x + 40 hex (Ethereum)"
  else
    let? subnet :=
      match tq_subnet_id r with
      | None => Ok SUBNET_ROOT
      | Some s =>
          match Subnet.parse_public_or_hex s with
          | Ok id => Ok id
          | Err e => Err ("Invalid subnet_id: " +:+ show_subnet_error e)
          | Panic => Panic
          end
      end in
    let? amount := transfer_amount r subnet n in
    let? nonce :=
      match tq_client_nonce r with
      | Some nonce => let? _ := Nonce.validate_client_nonce nonce in Ok nonce
      | None => Err "client_nonce is required for V2 signed transfer"
      end in
    let? _ :=
      match tq_chain_id r with
      | Some c => if bool_decide (c = nw_chain_id n) then Ok tt else Err "chain_id does not match this validator's chain"
      | None => Err "chain_id is required for V2 signed transfer"
      end in
    let? _ := check_timestamp now (tq_timestamp r) in
    let d := mkAdmission subnet amount nonce in
    let expected := request_message r (nw_chain_id n) d in
    let? message :=
      match tq_message r with
      | Some m => if bool_decide (m = "") then Err "Signed message is required for transfer" else Ok m
      | None => Err "Signed message is required for transfer"
      end in
    if negb (bool_decide (message = expected)) then Err "Transfer signed message does not match request fields"
    else
      let? signature :=
        match tq_signature r with
        | Some ((_ :: _) as s) => Ok s
        | _ => Err "Signature is required for transfer"
        end in
      let? _ := verify_signature skip (tq_from r) signature message (tq_nostr_pubkey r) (tq_public_key r) in
      if bool_decide (is_Some (state_object (Nonce.nonce_object_id (normalize_address (tq_from r)) nonce)))
      then Err "Duplicate client_nonce: this transfer authorization was already consumed"
      else Ok d.

Definition authorized_request (r : TransferRequest) (chain_id : string) (d : Admission) : SubmitTransferRequest :=
  mkSubmit (tq_from r) (tq_to r) (am_amount d) "setu" None None (Some (Subnet.canonical_string (am_subnet d))) []
    (Some (am_nonce d)) (Some chain_id)
    (Some (Tr.authorization_new (normalize_address (tq_from r)) (am_nonce d)
             (Nonce.request_digest (request_message r chain_id d)))).

(** [ValidatorNetworkService::submit_transfer]. *)
Definition submit_transfer (turns : nat → CR.Turn) (a : TEx.Awaits (K := K)) (sent : TEx.SendOutcome)
    (collector : BatchEntry → ValidatorService K → ValidatorService K * option (result string Outcome))
    (r : SubmitTransferRequest) n : NetworkService K * result string SubmitTransferResponse :=
  let '(n, t) := NW.get_vlc_time n in
  let '(s, resp) :=
    TH.submit_transfer now now_ms nanos turns a sent collector (nw_validator_id n) tp t r (nw_core n) in
  (NW.on_core (fun _ => s) n, resp).

Definition transfer (turns : nat → CR.Turn) (a : TEx.Awaits (K := K)) (sent : TEx.SendOutcome)
    (collector : BatchEntry → ValidatorService K → ValidatorService K * option (result string Outcome))
    (r : TransferRequest) n : NetworkService K * result string TransferResponse :=
  match transfer_admitted r n with
  | Panic => (n, Panic)
  | Err m => (n, Ok (transfer_err m))
  | Ok d =>
      match submit_transfer turns a sent collector (authorized_request r (nw_chain_id n) d) n with
      | (n, Ok resp) => (n, Ok (mkTransferResponse (sp_success resp) (sp_message resp) (sp_event_id resp) (Some 2%Z)))
      | (n, Err e) => (n, Err e)
      | (n, Panic) => (n, Panic)
      end
  end.
End Handlers.
End UH.
