(* ===== verification/UserProps.v ===== *)
(** * Signed requests of users: theorems

    What the signed message of a transfer determines, and what is known of a
    transfer that a validator submits for a user. *)

From Stdlib Require Import ZArith Lia Strings.Byte.
From stdpp Require Import base gmap sets list strings numbers pretty.
From S2P Require Import Prelude Hash Vlc Event Coin StateStore Resource Executor StateManager Task Stf Enclave Reservation StateProvider TaskPreparer SolverRouter RouterProps TransferService Amount AmountProps Keys InfraService UserHandler.

#[local] Open Scope string_scope.
#[local] Open Scope list_scope.
#[local] Open Scope setu_scope.

(** ** The message *)

Lemma digits_until (a b x y : list Ascii.ascii) (c : Ascii.ascii) :
  Subnet.is_digit c = false → digits a → digits b → a ++ c :: x = b ++ c :: y → a = b ∧ x = y.
Proof.
  intros Hc Ha. revert b. induction Ha as [|d a Hd Ha IH]; intros b Hb E; destruct Hb as [|d' b Hd' Hb]; cbn in E.
  - by injection E.
  - injection E as -> _. congruence.
  - injection E as <- _. congruence.
  - injection E as <- E. apply IH in E as [-> ->]; done.
Qed.

Lemma fmt_inj z z' : (0 ≤ z)%Z → (0 ≤ z')%Z → chars (fmt_u64 z) = chars (fmt_u64 z') → z = z'.
Proof.
  intros Hz Hz' E. destruct (fmt_digits z Hz) as (_ & <- & _), (fmt_digits z' Hz') as (_ & <- & _). by rewrite E.
Qed.

Lemma number_inj z z' c x y : Subnet.is_digit c = false → (0 ≤ z)%Z → (0 ≤ z')%Z →
  chars (fmt_u64 z) ++ c :: x = chars (fmt_u64 z') ++ c :: y → z = z' ∧ x = y.
Proof.
  intros Hc Hz Hz' E. apply digits_until in E as [E ->]; [|done|by apply fmt_digits|by apply fmt_digits].
  split; [by apply fmt_inj|done].
Qed.

Lemma chars_inj s s' : chars s = chars s' → s = s'.
Proof. intros E. rewrite <-(String.string_of_list_ascii_of_string s), <-(String.string_of_list_ascii_of_string s'). by f_equal. Qed.

(** A field with its length can be read off the front of what follows. *)
Lemma field_inj name v v' x y : chars (UH.field name v) ++ x = chars (UH.field name v') ++ y → v = v' ∧ x = y.
Proof.
  unfold UH.field, Tee.fmt_nat. rewrite !chars_app, <-!app_assoc. intros E. apply app_inv_head in E. apply app_inv_head in E.
  change (chars ";") with [Ascii.ascii_of_N 59] in E. cbn [app] in E. apply number_inj in E as [El E]; [|done|lia|lia].
  apply app_inv_head in E. apply app_inv_head in E. apply app_inj_1 in E as [Ev E].
  - apply app_inv_head in E. split; [by apply chars_inj|done].
  - apply Nat2Z.inj in El. by rewrite !chars_length.
Qed.

(** The message determines every field. *)
Lemma message_inj c c' f f' t t' a a' s s' n n' ts ts' :
  (0 ≤ a)%Z → (0 ≤ a')%Z → (0 ≤ ts)%Z → (0 ≤ ts')%Z →
  UH.canonical_transfer_message_v2 c f t a s n ts = UH.canonical_transfer_message_v2 c' f' t' a' s' n' ts' →
  c = c' ∧ f = f' ∧ t = t' ∧ a = a' ∧ s = s' ∧ n = n' ∧ ts = ts'.
Proof.
  intros Ha Ha' Hts Hts' E. apply (f_equal chars) in E. unfold UH.canonical_transfer_message_v2 in E.
  rewrite !chars_app in E. apply app_inv_head in E. apply app_inv_head in E.
  apply field_inj in E as [-> E]. apply field_inj in E as [-> E]. apply field_inj in E as [-> E].
  apply app_inv_head in E. change (chars UH.newline) with [Ascii.ascii_of_N 10] in E. cbn [app] in E.
  apply number_inj in E as [-> E]; [|done..]. apply field_inj in E as [-> E]. apply field_inj in E as [-> E].
  apply app_inv_head in E. apply fmt_inj in E; [|done..]. by split_and!.
Qed.

(** ** Who signed *)

Section Users.
Context `{KC : KeyCrates} `{B : Blake3} `{X : HexCrate} `{S2 : Sha256} `{J : SerdeJson} `{BC : Bcs} `{RB : RegistrationBytes}
  `{JR : JsonRead} `{RJ : ResourceJson} `{BN : Bincode} `{PB : ProofBcs}.
Context {P : Type} `{SP : StateProvider P} {K : Type} `{CN : ConsensusNode K}.

Lemma show_id_inj a b : show_id a = show_id b → a = b.
Proof using Type.
  unfold show_id. intros E. apply HashValue_eq, hex_encode_inj. by injection E.
Qed.

Lemma canonical_inj a b : Subnet.canonical_string a = Subnet.canonical_string b → a = b.
Proof using Type.
  unfold Subnet.canonical_string, Subnet.to_full_hex. repeat case_bool_decide; subst; try done. apply show_id_inj.
Qed.

(** The owner of the address signed the message, with a key the address is
    derived from, in one of the three ways. *)
Inductive vouches (address : string) (signature : bytes) (message : string) : option bytes → option string → Prop :=
| VouchNostr npk pk vk sig :
    length npk = 32%nat → Keys.key_address_from_hex address = Ok (sha256 npk) →
    schnorr_key npk = inr vk → schnorr_signature signature = inr sig →
    schnorr_verify vk (as_bytes message) sig = None →
    vouches address signature message (Some npk) pk
| VouchNative text k scheme key sig :
    Keys.decode_base64 text = Ok k →
    Keys.key_of_flagged "Empty public key bytes" (Keys.flagged k) = Ok (mkPublicKey scheme key) →
    Keys.signature_of_flagged "Empty signature bytes" signature = Ok (mkKeySignature scheme sig) →
    crate_verify scheme key (as_bytes message) sig = None →
    Amount.eq_ignore_ascii_case address (show_id (blake2b256 (Scheme.flag scheme :: key))) = true →
    vouches address signature message None (Some text)
| VouchWallet odd sig key :
    length signature = 65%nat → recoverable_signature (take 64 signature) = inr sig →
    recover_from_prehash (keccak256 (as_bytes (Keys.personal_message message))) sig odd = inr (Byte.x04 :: key) →
    Keys.key_address_from_hex address = Ok (keccak256 key) →
    vouches address signature message None None.

Lemma or_err_ok {A} f (r : string + A) a : or_err f r = Ok a → r = inr a.
Proof using Type. destruct r; cbn; congruence. Qed.

Lemma verified_ok r : verified r = Ok tt → r = None.
Proof using Type. by destruct r. Qed.

Lemma verify_nostr_vouches address npk sig msg pk :
  Keys.verify_nostr_schnorr address npk sig (as_bytes msg) = Ok tt → vouches address sig msg (Some npk) pk.
Proof using Type.
  unfold Keys.verify_nostr_schnorr, Keys.derive_address_from_nostr_pubkey.
  destruct (Nat.eqb_spec (length npk) 32) as [Hl|]; [|done]. cbn [negb rbind].
  destruct (Keys.key_address_from_hex address) as [a|e|] eqn:Ha; [|done..]. cbn [rbind].
  case_bool_decide as Heq; [|done]. subst a. cbn [negb]. intros H. apply bind_ok in H as (vk & Hvk%or_err_ok & H).
  apply bind_ok in H as (s & Hs%or_err_ok & H%verified_ok). by eapply VouchNostr.
Qed.

Lemma verify_native_vouches address text sig msg :
  (let? k := Keys.decode_base64 text in Keys.verify_setu_native_raw address (Keys.flagged k) sig (as_bytes msg)) = Ok tt →
  vouches address sig msg None (Some text).
Proof using Type.
  intros H. apply bind_ok in H as (k & Hk & H). unfold Keys.verify_setu_native_raw in H.
  case_bool_decide; [done|]. case_bool_decide; [done|]. apply bind_ok in H as ([scheme key] & Hkey & H).
  apply bind_ok in H as ([scheme' s] & Hs & H). unfold Keys.verify_setu_native_inner in H.
  apply bind_ok in H as ([] & Hv & H). unfold Keys.verify in Hv. cbn [pk_scheme sig_scheme pk_bytes sig_bytes] in Hv.
  case_bool_decide; [|done]. subst scheme'. apply verified_ok in Hv.
  destruct (Amount.eq_ignore_ascii_case _ _) eqn:Ha; [|done]. by eapply VouchNative.
Qed.

Lemma verify_wallet_vouches address sig msg :
  Keys.verify_metamask_personal_sign address sig msg = Ok tt → vouches address sig msg None None.
Proof using Type.
  unfold Keys.verify_metamask_personal_sign. destruct (Nat.eqb_spec (length sig) 65) as [Hl|]; [|done]. cbn [negb]. intros H.
  apply bind_ok in H as (odd & _ & H). apply bind_ok in H as (s & Hs%or_err_ok & H). apply bind_ok in H as (key & Hk%or_err_ok & H).
  apply bind_ok in H as (d & Hd & H). apply bind_ok in H as (a & Ha & H). case_bool_decide as Heq; [|done]. subst a.
  unfold Keys.derive_address_from_secp256k1 in Hd. destruct (_ =? 65)%nat; [|done]. cbn [negb] in Hd.
  destruct key as [|k0 key]; [done|]. destruct k0; try done. injection Hd as <-. by eapply VouchWallet.
Qed.

Lemma verify_vouches address sig msg nostr pk :
  UH.verify_signature false address sig msg nostr pk = Ok tt → vouches address sig msg nostr pk.
Proof using Type.
  unfold UH.verify_signature, UH.verify_by_scheme. destruct nostr as [npk|], pk as [text|].
  - destruct (Keys.verify_nostr_schnorr _ _ _ _) as [[]|e|] eqn:Hv; [|done..]. intros _. by apply verify_nostr_vouches.
  - destruct (Keys.verify_nostr_schnorr _ _ _ _) as [[]|e|] eqn:Hv; [|done..]. intros _. by apply verify_nostr_vouches.
  - destruct (rbind _ _) as [[]|e|] eqn:Hv; [|done..]. intros _. by apply verify_native_vouches.
  - destruct (Keys.verify_metamask_personal_sign _ _ _) as [[]|e|] eqn:Hv; [|done..]. intros _. by apply verify_wallet_vouches.
Qed.

(** ** Signed transfers *)

Abbreviation service := (NetworkService K).

(** A subnet that transfers may name: the root, or one that is registered. *)
Definition subnet_known (sn : SubnetId) (n : service) : Prop :=
  sn = SUBNET_ROOT ∨ ∃ i, i ∈ (map_to_list (nw_subnets n)).*2 ∧ si_canonical_id i = sn.

(** The amount a request names, raw or as a decimal number. *)
Definition amount_named (r : TransferRequest) (a : Z) : Prop :=
  (∀ raw, tq_amount r = Some raw → raw = a) ∧
  (∀ s, tq_display_amount r = Some s → denotes SETU_DECIMALS s a) ∧
  (is_Some (tq_amount r) ∨ is_Some (tq_display_amount r)).

Lemma canonical_known sn (n : service) : NW.get_subnet_info_by_canonical sn n ≠ None → subnet_known sn n.
Proof using Type.
  unfold NW.get_subnet_info_by_canonical. destruct (List.find _ _) as [[id i]|] eqn:Hf; [|done]. intros _. right.
  apply List.find_some in Hf as [Hin%list_elem_of_In Hi%bool_decide_eq_true]. exists i. split; [|done].
  apply list_elem_of_fmap. by exists (id, i).
Qed.

Lemma resolve_amount_named r ct a : UH.resolve_transfer_amount r ct = Ok a → amount_named r a.
Proof using Type.
  unfold UH.resolve_transfer_amount, amount_named. destruct (Amount.is_setu_token_identifier ct); [|done]. cbn [negb].
  destruct (tq_display_amount r) as [s|].
  - destruct (Amount.parse_setu_amount_to_units s) as [u|e|] eqn:Hu; [|done..]. apply parse_denotes in Hu. cbn [rbind].
    destruct (tq_amount r) as [raw|].
    + destruct (Z.eqb_spec raw u) as [->|]; [|done]. cbn [negb]. intros [= <-]. split_and!; [congruence|congruence|eauto].
    + intros [= <-]. split_and!; [congruence|congruence|eauto].
  - cbn [rbind]. destruct (tq_amount r) as [raw|]; [|done]. intros [= <-]. split_and!; [congruence|congruence|eauto].
Qed.

Lemma subnet_amount_named r a : UH.resolve_subnet_transfer_amount r = Ok a → amount_named r a.
Proof using Type.
  unfold UH.resolve_subnet_transfer_amount, amount_named. destruct (tq_display_amount r); [done|].
  destruct (tq_amount r) as [raw|]; [|done]. destruct (0 <? raw)%Z; [|done]. intros [= <-]. split_and!; [congruence|congruence|eauto].
Qed.

Lemma transfer_amount_spec r sn (n : service) a :
  UH.transfer_amount r sn n = Ok a → a ≠ 0%Z ∧ amount_named r a ∧ subnet_known sn n.
Proof using Type.
  unfold UH.transfer_amount. intros H. apply bind_ok in H as (x & Hx & H). destruct (Z.eqb_spec x 0) as [|Hnz]; [done|].
  injection H as <-. split; [done|]. case_bool_decide as Hroot.
  { split; [by eapply resolve_amount_named|by left]. }
  case_bool_decide; [done|]. case_bool_decide as Hs; [done|]. split; [by apply subnet_amount_named|by apply canonical_known].
Qed.

(** What is known of a request that passes the checks. *)
Record authorized (skip : bool) (now : Z) (p : P) (r : TransferRequest) (n : service) (d : UH.Admission) : Prop := mkAuthorized {
  az_amount : UH.am_amount d ≠ 0%Z ∧ amount_named r (UH.am_amount d);
  az_subnet : subnet_known (UH.am_subnet d) n;
  az_named : match tq_subnet_id r with
             | Some s => Subnet.parse_public_or_hex s = Ok (UH.am_subnet d)
             | None => UH.am_subnet d = SUBNET_ROOT
             end;
  az_nonce : tq_client_nonce r = Some (UH.am_nonce d) ∧ Nonce.validate_client_nonce (UH.am_nonce d) = Ok tt;
  az_chain : tq_chain_id r = Some (nw_chain_id n);
  az_fresh : (Z.abs (now - tq_timestamp r / 1000) ≤ 300)%Z;
  az_message : tq_message r = Some (UH.request_message r (nw_chain_id n) d);
  az_signed : skip = false → ∃ sig, tq_signature r = Some sig ∧
    vouches (tq_from r) sig (UH.request_message r (nw_chain_id n) d) (tq_nostr_pubkey r) (tq_public_key r);
  az_unused : StateProvider.get_object p (Nonce.nonce_object_id (UH.normalize_address (tq_from r)) (UH.am_nonce d)) = None
}.

Lemma verify_skip skip address sig msg nostr pk :
  UH.verify_signature skip address sig msg nostr pk = Ok tt → skip = false → vouches address sig msg nostr pk.
Proof using Type. intros H ->. by apply verify_vouches. Qed.

Lemma admitted_authorized skip now (tp : TaskPreparer P) r (n : service) d :
  UH.transfer_admitted skip now tp r n = Ok d → authorized skip now (tp_provider tp) r n d.
Proof using Type.
  unfold UH.transfer_admitted. destruct (UH.is_user_address (tq_from r)); [|done].
  destruct (UH.is_user_address (tq_to r)); [|done]. cbn [negb]. intros H.
  apply bind_ok in H as (sn & Hsn & H). apply bind_ok in H as (a & Ha & H). apply bind_ok in H as (nonce & Hnonce & H).
  apply bind_ok in H as ([] & Hchain & H). apply bind_ok in H as ([] & Hts & H). apply bind_ok in H as (m & Hm & H).
  case_bool_decide as Hmsg; [|done]. cbn [negb] in H. apply bind_ok in H as (sig & Hsig & H).
  apply bind_ok in H as ([] & Hver & H). case_bool_decide as Hmark; [done|]. injection H as <-.
  destruct (transfer_amount_spec r sn n a Ha) as (Hnz & Hname & Hknown).
  assert (Hm' : tq_message r = Some m).
  { destruct (tq_message r) as [x|]; [|done]. case_bool_decide; [done|congruence]. }
  split; cbn [UH.am_amount UH.am_subnet UH.am_nonce].
  - done.
  - done.
  - destruct (tq_subnet_id r) as [s|]; [|congruence]. destruct (Subnet.parse_public_or_hex s); congruence.
  - destruct (tq_client_nonce r) as [x|]; [|done]. apply bind_ok in Hnonce as ([] & Hv & [= ->]). done.
  - destruct (tq_chain_id r) as [c|]; [|done]. case_bool_decide; [congruence|done].
  - unfold UH.check_timestamp in Hts. destruct (Z.ltb_spec 300 (Z.abs (now - tq_timestamp r / 1000))); [done|lia].
  - congruence.
  - intros Hskip. exists sig. split.
    + destruct (tq_signature r) as [[|b0 l]|]; congruence.
    + rewrite <-Hmsg. by eapply verify_skip.
  - by apply eq_None_not_Some.
Qed.

(** No check panics. *)
Lemma bind_no_panic {E A C} (m : result E A) (k : A → result E C) :
  m ≠ Panic → (∀ a, m = Ok a → k a ≠ Panic) → rbind m k ≠ Panic.
Proof using Type. destruct m; cbn; naive_solver. Qed.

Lemma or_err_no_panic {A} f (r : string + A) : or_err f r ≠ Panic.
Proof using Type. by destruct r. Qed.

Lemma from_flag_no_panic b : Scheme.from_flag b ≠ Panic.
Proof using Type. by destruct b. Qed.

Lemma key_of_flagged_no_panic e b : Keys.key_of_flagged e b ≠ Panic.
Proof using Type.
  destruct b as [|f b]; [done|]. apply bind_no_panic; [apply from_flag_no_panic|]. intros s _. unfold Keys.key_from_bytes.
  destruct (_ && _); [done|]. apply bind_no_panic; [apply or_err_no_panic|done].
Qed.

Lemma signature_of_flagged_no_panic e b : Keys.signature_of_flagged e b ≠ Panic.
Proof using Type.
  destruct b as [|f b]; [done|]. apply bind_no_panic; [apply from_flag_no_panic|]. intros s _. unfold Keys.signature_from_bytes.
  case_bool_decide; [by destruct (negb _)|]. apply bind_no_panic; [apply or_err_no_panic|done].
Qed.

Lemma address_no_panic s : Keys.key_address_from_hex s ≠ Panic.
Proof using Type. unfold Keys.key_address_from_hex. destruct (hex_decode _) as [b|]; [|done]. by destruct (hash_of_bytes b). Qed.

Lemma verify_by_scheme_no_panic address sig msg nostr pk : UH.verify_by_scheme address sig msg nostr pk ≠ Panic.
Proof using Type.
  unfold UH.verify_by_scheme. destruct nostr as [npk|]; [|destruct pk as [text|]].
  - unfold Keys.verify_nostr_schnorr. apply bind_no_panic; [unfold Keys.derive_address_from_nostr_pubkey; by destruct (negb _)|].
    intros d _. apply bind_no_panic; [apply address_no_panic|]. intros q _. destruct (negb _); [done|].
    apply bind_no_panic; [apply or_err_no_panic|]. intros vk _. apply bind_no_panic; [apply or_err_no_panic|].
    intros s _. unfold verified. by destruct (schnorr_verify _ _ _).
  - apply bind_no_panic.
    { unfold Keys.decode_base64. apply bind_no_panic; [apply or_err_no_panic|]. intros; apply key_of_flagged_no_panic. }
    intros k _. unfold Keys.verify_setu_native_raw. case_bool_decide; [done|]. case_bool_decide; [done|].
    apply bind_no_panic; [apply key_of_flagged_no_panic|]. intros k' _.
    apply bind_no_panic; [apply signature_of_flagged_no_panic|]. intros s _. unfold Keys.verify_setu_native_inner.
    apply bind_no_panic.
    { unfold Keys.verify. case_bool_decide; [|done]. unfold verified. by destruct (crate_verify _ _ _ _). }
    intros _ _. by destruct (Amount.eq_ignore_ascii_case _ _).
  - unfold Keys.verify_metamask_personal_sign. destruct (negb _); [done|].
    apply bind_no_panic; [by destruct (List.nth _ _ _)|]. intros odd _. apply bind_no_panic; [apply or_err_no_panic|].
    intros s _. apply bind_no_panic; [apply or_err_no_panic|]. intros key _.
    apply bind_no_panic; [unfold Keys.derive_address_from_secp256k1; destruct (negb _); [done|]; destruct key as [|[] ?]; done|].
    intros d _. apply bind_no_panic; [apply address_no_panic|]. intros q _. by case_bool_decide.
Qed.

Lemma verify_no_panic skip address sig msg nostr pk : UH.verify_signature skip address sig msg nostr pk ≠ Panic.
Proof using Type.
  unfold UH.verify_signature. destruct skip; [done|]. pose proof (verify_by_scheme_no_panic address sig msg nostr pk).
  by destruct (UH.verify_by_scheme _ _ _ _ _).
Qed.

Lemma parse_amount_no_panic s d : Amount.parse_display_amount_to_units s d ≠ Panic.
Proof using Type.
  assert (Hc : ∀ z, Amount.checked_u128 z ≠ Panic) by (intros z; unfold Amount.checked_u128; by destruct (_ <? z)%Z).
  assert (Hd : ∀ cs v, Amount.digits_loop v cs ≠ Panic).
  { induction cs as [|c cs IH]; intros v; cbn; [done|]. destruct (negb _); [done|].
    apply bind_no_panic; [apply Hc|]. intros x _. apply bind_no_panic; [apply Hc|]. intros; apply IH. }
  assert (Hs : ∀ e, Amount.decimal_scale e ≠ Panic) by (intros e; rewrite decimal_scale_spec; by destruct (_ <=? _)%Z).
  assert (Hscan : ∀ cs k, Amount.scan k cs ≠ Panic).
  { induction cs as [|c cs IH]; intros k; cbn [Amount.scan]; [done|]. destruct (Amount.is_dot c); [by destruct (_ <? _)%nat|].
    by destruct (Subnet.is_digit c). }
  unfold Amount.parse_display_amount_to_units. case_bool_decide; [done|]. apply bind_no_panic; [apply Hscan|]. intros _ _.
  apply bind_no_panic; [apply Hs|]. intros scale _. apply bind_no_panic.
  { unfold Amount.parts. destruct (Amount.split_dot _) as [[w f]|]; [|done]. destruct (_ || _); [done|]. by destruct (_ <? _)%nat. }
  intros [w f] _. destruct (_ || _); [done|]. apply bind_no_panic; [apply Hd|]. intros v _.
  apply bind_no_panic; [apply Hc|]. intros v' _. apply bind_no_panic.
  { unfold Amount.fractional_units. case_bool_decide; [done|]. apply bind_no_panic; [apply Hd|]. intros y _.
    apply bind_no_panic; [apply Hs|]. intros; apply Hc. }
  intros g _. apply bind_no_panic; [apply Hc|]. intros u _. by destruct (_ <? u)%Z.
Qed.

Lemma transfer_amount_no_panic r sn (n : service) : UH.transfer_amount r sn n ≠ Panic.
Proof using Type.
  unfold UH.transfer_amount. apply bind_no_panic; [|intros a _; by destruct (_ =? _)%Z]. case_bool_decide.
  - unfold UH.resolve_transfer_amount. destruct (negb _); [done|]. apply bind_no_panic.
    + destruct (tq_display_amount r) as [s|]; [|done]. pose proof (parse_amount_no_panic s SETU_DECIMALS).
      unfold Amount.parse_setu_amount_to_units. by destruct (Amount.parse_display_amount_to_units _ _).
    + intros [u|] _; destruct (tq_amount r); try done. by destruct (negb _).
  - case_bool_decide; [done|]. case_bool_decide; [done|]. unfold UH.resolve_subnet_transfer_amount.
    destruct (tq_display_amount r); [done|]. destruct (tq_amount r); [|done]. by destruct (_ <? _)%Z.
Qed.

Lemma admitted_no_panic skip now (tp : TaskPreparer P) r (n : service) : UH.transfer_admitted skip now tp r n ≠ Panic.
Proof using Type.
  unfold UH.transfer_admitted. destruct (negb _); [done|]. destruct (negb _); [done|]. apply bind_no_panic.
  { destruct (tq_subnet_id r) as [s|]; [|done]. pose proof (parse_subnet_no_panic s). by destruct (Subnet.parse_public_or_hex s). }
  intros sn _. apply bind_no_panic; [apply transfer_amount_no_panic|]. intros a _. apply bind_no_panic.
  { destruct (tq_client_nonce r); [|done]. apply bind_no_panic; [|done]. unfold Nonce.validate_client_nonce.
    destruct (_ || _); [done|]. by destruct (negb _). }
  intros nonce _. apply bind_no_panic; [destruct (tq_chain_id r); [by case_bool_decide|done]|]. intros _ _.
  apply bind_no_panic; [unfold UH.check_timestamp; by destruct (_ <? _)%Z|]. intros _ _.
  apply bind_no_panic; [destruct (tq_message r); [by case_bool_decide|done]|]. intros m _. destruct (negb _); [done|].
  apply bind_no_panic; [by destruct (tq_signature r) as [[|? ?]|]|]. intros sig _.
  apply bind_no_panic; [apply verify_no_panic|]. intros _ _. by case_bool_decide.
Qed.

(** The transfer that is submitted: the fields of the request, and the
    authorization of its signer over the signed message. *)
Record carries (r : TransferRequest) (chain : string) (d : UH.Admission) (q : SubmitTransferRequest) : Prop := mkCarries {
  cr_parties : sq_from q = tq_from r ∧ sq_to q = tq_to r ∧ sq_amount q = UH.am_amount d;
  cr_subnet : sq_subnet_id q = Some (Subnet.canonical_string (UH.am_subnet d));
  cr_auth : ∃ au, sq_authorization q = Some au ∧ au_signer au = UH.normalize_address (tq_from r) ∧
    au_client_nonce au = UH.am_nonce d ∧ au_request_digest au = Nonce.request_digest (UH.request_message r chain d)
}.

(** A transfer is submitted for a user only when the user signed it.
    Whatever a client sends, the request is either refused, and then nothing
    changes, or it is authorized: the amount is not zero and is the one the
    request names, raw or in decimals; the subnet is the root or registered;
    the nonce is well formed and has no marker in the state; the time is
    within five minutes; and the owner of the sender's address signed the
    message of exactly this chain, sender, receiver, amount, subnet, nonce and
    time.  What is then submitted has these fields and the authorization of
    the signer over that message. *)
Theorem signed_transfer_authorized (now now_ms nanos : Z) (tp : TaskPreparer P) (turns : nat → CR.Turn)
    (a : TEx.Awaits (K := K)) (sent : TEx.SendOutcome)
    (collector : BatchEntry → ValidatorService K → ValidatorService K * option (result string Outcome))
    (r : TransferRequest) (n : service) :
  let '(n', res) := UH.transfer false now now_ms nanos tp turns a sent collector r n in
  (∃ m, n' = n ∧ res = Ok (UH.transfer_err m)) ∨
  ∃ d q sub, authorized false now (tp_provider tp) r n d ∧ carries r (nw_chain_id n) d q ∧
    UH.submit_transfer now now_ms nanos tp turns a sent collector q n = (n', sub) ∧
    ∀ resp, sub = Ok resp → ∃ out, res = Ok out ∧ tn_success out = sp_success resp ∧ tn_event_id out = sp_event_id resp.
Proof using Type.
  unfold UH.transfer. pose proof (admitted_no_panic false now tp r n) as Hnp.
  destruct (UH.transfer_admitted false now tp r n) as [d|m|] eqn:Had; [|by left; exists m|done].
  destruct (UH.submit_transfer _ _ _ _ _ _ _ _ _ _) as [n' sub] eqn:Hsub.
  assert (Hr : authorized false now (tp_provider tp) r n d ∧ carries r (nw_chain_id n) d (UH.authorized_request r (nw_chain_id n) d)).
  { split; [by apply admitted_authorized|]. split; [done|done|].
    exists (Tr.authorization_new (UH.normalize_address (tq_from r)) (UH.am_nonce d)
      (Nonce.request_digest (UH.request_message r (nw_chain_id n) d))). done. }
  destruct Hr as [Haz Hcr]. destruct sub as [resp|e|]; right; exists d, (UH.authorized_request r (nw_chain_id n) d); eexists;
    (split; [done|split; [done|split; [exact Hsub|]]]); [|done|done].
  intros resp' [= <-]. eexists. by split_and!.
Qed.

(** A signature is good for one transfer.  When two requests are accepted,
    on any validators and at any times, with the same signed message, they
    agree on the chain, the sender and the receiver up to the case of their
    letters, the amount, the subnet, the nonce and the time; so their
    transfers create the same marker, of which the state applies one. *)
Theorem signed_message_binds (skip skip' : bool) (now now' : Z) (tp tp' : TaskPreparer P) (r r' : TransferRequest)
    (n n' : service) (d d' : UH.Admission)
    (Hr : UH.transfer_admitted skip now tp r n = Ok d) (Hr' : UH.transfer_admitted skip' now' tp' r' n' = Ok d')
    (Hm : tq_message r = tq_message r')
    (Ht : (0 ≤ tq_timestamp r)%Z) (Ht' : (0 ≤ tq_timestamp r')%Z)
    (Ha : (0 ≤ default 0 (tq_amount r))%Z) (Ha' : (0 ≤ default 0 (tq_amount r'))%Z) :
  nw_chain_id n = nw_chain_id n' ∧ d = d' ∧ tq_timestamp r = tq_timestamp r' ∧
  UH.normalize_address (tq_from r) = UH.normalize_address (tq_from r') ∧
  UH.normalize_address (tq_to r) = UH.normalize_address (tq_to r') ∧
  Nonce.nonce_object_id (UH.normalize_address (tq_from r)) (UH.am_nonce d) =
    Nonce.nonce_object_id (UH.normalize_address (tq_from r')) (UH.am_nonce d').
Proof using Type.
  assert (Hpos : ∀ r a, (0 ≤ default 0 (tq_amount r))%Z → amount_named r a → (0 ≤ a)%Z).
  { intros r0 x Hx (H1 & H2 & [[y Hy]|[s Hs]]).
    - rewrite Hy in Hx. by rewrite <-(H1 y Hy).
    - destruct (H2 s Hs) as [? _]. lia. }
  apply admitted_authorized in Hr as [[_ H1] _ _ _ _ _ H2 _ _]. apply admitted_authorized in Hr' as [[_ H1'] _ _ _ _ _ H2' _ _].
  rewrite Hm, H2' in H2. apply (inj Some) in H2 as E. symmetry in E. unfold UH.request_message in E.
  apply message_inj in E as (Ec & Ef & Et & Eamt & Es & En & Ets); [|exact (Hpos _ _ Ha H1)|exact (Hpos _ _ Ha' H1')|done|done].
  apply canonical_inj in Es. destruct d as [sn amt nonce], d' as [sn' amt' nonce']. cbn [UH.am_subnet UH.am_amount UH.am_nonce] in *.
  subst sn' amt' nonce'. rewrite Ef. by split_and!.
Qed.
End Users.
