(* ===== verification/MemberProps.v ===== *)
(** * Memberships of subnets: theorems

    The events of joins and leaves, applied by the specification of the state
    manager, behave like a membership flag; and what a signature on a request
    about a profile or a membership does not say. *)

From Stdlib Require Import ZArith Lia Strings.Byte.
From stdpp Require Import base gmap sets list strings numbers pretty.
From S2P Require Import Prelude Hash Vlc Event Coin StateStore Resource Executor StateManager StateSpec Task Stf Enclave Reservation StateProvider TaskPreparer SolverRouter TransferService TransferFlow Amount AmountProps Keys InfraService UserHandler UserProps.

#[local] Open Scope string_scope.
#[local] Open Scope list_scope.
#[local] Open Scope setu_scope.

(** ** The abstract membership *)

Inductive member_action := MJoin | MLeave.

(** The flag after an action, and whether the action takes effect. *)
Definition member_step (m : bool) (a : member_action) : bool * bool :=
  match a with
  | MJoin => (true, negb m)
  | MLeave => (false, true)
  end.

Fixpoint member_run (m : bool) (l : list (option member_action)) : bool * list (option bool) :=
  match l with
  | [] => (m, [])
  | None :: l' => let '(m', oks) := member_run m l' in (m', None :: oks)
  | Some a :: l' =>
      let '(m1, ok) := member_step m a in
      let '(m', oks) := member_run m1 l' in
      (m', Some ok :: oks)
  end.

Section Members.
Context `{B : Blake3} `{X : HexCrate} `{J : SerdeJson} `{BC : Bcs} `{RB : RegistrationBytes} `{JR : JsonRead}.
Context {P : Type} `{SP : StateProvider P}.
Context (user : Address) (subnet : string).

Abbreviation mid := (Exec.membership_id user subnet).
Abbreviation rid := (Exec.reverse_member_id user subnet).

Context (Hids : mid ≠ rid).

(** An event of the executor that joins or leaves. *)
Definition membership_event (a : member_action) (e : Event) : Prop :=
  ∃ vid now address vlc te, address_from_hex address = Ok user ∧ te_event te = e ∧
    match a with
    | MJoin => IE.execute_subnet_join vid now address subnet vlc = Ok te
    | MLeave => IE.execute_subnet_leave vid now address subnet vlc = Ok te
    end.

(** An event that writes neither object of the membership. *)
Definition bystander_event (e : Event) : Prop :=
  (SUBNET_ROOT, mid) ∉ (place_of (get_subnet_id e) <$> event_changes e) ∧
  (SUBNET_ROOT, rid) ∉ (place_of (get_subnet_id e) <$> event_changes e).

(** The world has both objects, or none. *)
Definition member_view (w : world) (m : bool) : Prop :=
  bool_decide (is_Some (w_get w SUBNET_ROOT mid)) = m ∧ bool_decide (is_Some (w_get w SUBNET_ROOT rid)) = m.

Lemma event_shape vid now vlc out changes :
  let e := te_event (IE.with_result out changes (IE.system_event vid now vlc)) in
  get_subnet_id e = SUBNET_ROOT ∧ event_changes e = changes ∧
  ∀ w, spec_event w e =
    match spec_conflict SUBNET_ROOT w w changes with
    | Some key => (w, Conflicted key)
    | None => (foldl (spec_change SUBNET_ROOT) w changes, Applied)
    end.
Proof using Type. by split_and!. Qed.

Definition object_change (id : ObjectId) (v : option bytes) : StateChange := mkStateChange (object_key id) None v None.

Lemma object_change_id id v : change_id (object_change id v) = id.
Proof using Type. unfold change_id. apply parse_object_key. Qed.

Lemma join_shape vid now address vlc te : address_from_hex address = Ok user →
  IE.execute_subnet_join vid now address subnet vlc = Ok te →
  ∃ out b, te = IE.with_result out [object_change mid (Some b); object_change rid (Some b)] (IE.system_event vid now vlc).
Proof using Type.
  intros Ha. unfold IE.execute_subnet_join, IE.parse_address. rewrite Ha. cbn [rbind]. intros H.
  apply bind_ok in H as (out & Hout & [= <-]). unfold IE.run, Exec.execute_subnet_join, Exec.to_vec in Hout. cbn in Hout.
  destruct (json_to_vec _) as [b|]; [|done]. cbn in Hout. injection Hout as <-. by eexists _, b.
Qed.

Lemma leave_shape vid now address vlc te : address_from_hex address = Ok user →
  IE.execute_subnet_leave vid now address subnet vlc = Ok te →
  ∃ out, te = IE.with_result out [object_change mid None; object_change rid None] (IE.system_event vid now vlc).
Proof using Type.
  intros Ha. unfold IE.execute_subnet_leave, IE.parse_address. rewrite Ha. cbn [rbind]. intros H.
  apply bind_ok in H as (out & Hout & [= <-]). cbn in Hout. injection Hout as <-. by eexists.
Qed.

Lemma get_after_pair w v v' :
  let w' := foldl (spec_change SUBNET_ROOT) w [object_change mid v; object_change rid v'] in
  w_get w' SUBNET_ROOT mid = v ∧ w_get w' SUBNET_ROOT rid = v'.
Proof using Hids.
  cbn [foldl]. unfold spec_change. rewrite !object_change_id, !w_get_write.
  change (GS.change_target SUBNET_ROOT _) with SUBNET_ROOT. cbn [new_value object_change].
  split; [rewrite decide_False by congruence; by rewrite decide_True|by rewrite decide_True].
Qed.

Lemma conflict_pair w b m : member_view w m →
  spec_conflict SUBNET_ROOT w w [object_change mid (Some b); object_change rid (Some b)] =
    if m then Some (object_key mid) else None.
Proof using Hids.
  intros [Hm Hr]. cbn [spec_conflict]. unfold spec_allowed. rewrite !object_change_id. cbn [old_value new_value object_change].
  change (GS.change_target SUBNET_ROOT _) with SUBNET_ROOT. unfold spec_change. rewrite object_change_id, w_get_write.
  rewrite decide_False by (change (GS.change_target SUBNET_ROOT _) with SUBNET_ROOT; congruence).
  destruct m.
  - apply bool_decide_eq_true in Hm. rewrite bool_decide_eq_false_2; [done|]. by apply not_eq_None_Some.
  - apply bool_decide_eq_false, eq_None_not_Some in Hm. apply bool_decide_eq_false, eq_None_not_Some in Hr.
    rewrite !bool_decide_eq_true_2 by done. done.
Qed.

(** One action. *)
Lemma action_step a e w m : membership_event a e → member_view w m →
  let '(w', v) := spec_event w e in
  let '(m', ok) := member_step m a in
  member_view w' m' ∧ if ok then v = Applied else ∃ key, v = Conflicted key.
Proof using Hids.
  intros (vid & now & address & vlc & te & Ha & <- & He) Hw. destruct a.
  - destruct (join_shape _ _ _ _ _ Ha He) as (out & b & ->). destruct (event_shape vid now vlc out
      [object_change mid (Some b); object_change rid (Some b)]) as (_ & _ & Hs). rewrite Hs, (conflict_pair w b m Hw). destruct m; cbn [member_step negb].
    + split; [done|]. by eexists.
    + split; [|done]. destruct (get_after_pair w (Some b) (Some b)) as [H1 H2]. unfold member_view.
      rewrite H1, H2. done.
  - destruct (leave_shape _ _ _ _ _ Ha He) as (out & ->). destruct (event_shape vid now vlc out
      [object_change mid None; object_change rid None]) as (_ & _ & Hs). rewrite Hs. cbn [member_step].
    destruct (get_after_pair w None None) as [H1 H2]. change (spec_conflict SUBNET_ROOT w w _) with (@None string).
    split; [|done]. unfold member_view. rewrite H1, H2. done.
Qed.

Lemma bystander_step e w m : bystander_event e → member_view w m → member_view (spec_event w e).1 m.
Proof using Type.
  intros [H1 H2] Hw. unfold spec_event. unfold event_changes in H1, H2.
  destruct (execution_result e) as [res|]; [|done]. destruct (er_success res); [|done].
  destruct (spec_conflict _ _ _ _); [done|]. cbn [fst]. unfold member_view. by rewrite !changes_frame.
Qed.

(** How a verdict answers an action. *)
Definition answers (v : Event * verdict) (ok : option bool) : Prop :=
  match ok with
  | Some true => v.2 = Applied
  | Some false => ∃ key, v.2 = Conflicted key
  | None => True
  end.

Definition membership_run (it : option member_action * Event) : Prop :=
  match it.1 with
  | Some a => membership_event a it.2
  | None => bystander_event it.2
  end.

Lemma run_refines es w m : Forall membership_run es → member_view w m →
  member_view (spec_events w es.*2).1 (member_run m es.*1).1 ∧
  Forall2 answers (spec_events w es.*2).2 (member_run m es.*1).2.
Proof using Hids.
  intros Hes. revert w m. induction Hes as [|[[a|] e] es He _ IH]; intros w m Hw; cbn [fmap list_fmap fst snd spec_events member_run].
  - by split.
  - pose proof (action_step a e w m He Hw) as Hs. destruct (spec_event w e) as [w1 v], (member_step m a) as [m1 ok].
    destruct Hs as [Hw1 Hv]. specialize (IH w1 m1 Hw1). destruct (spec_events w1 _) as [w2 vs], (member_run m1 _) as [m2 oks].
    destruct IH as [IH1 IH2]. split; [done|]. constructor; [by destruct ok|done].
  - pose proof (bystander_step e w m He Hw) as Hw1. destruct (spec_event w e) as [w1 v]. cbn [fst] in Hw1.
    specialize (IH w1 m Hw1). destruct (spec_events w1 _) as [w2 vs], (member_run m _) as [m2 oks].
    destruct IH as [IH1 IH2]. split; [done|]. by constructor.
Qed.

(** ** Through the handlers *)

Context `{KC : KeyCrates} `{S2 : Sha256} {K : Type} `{CN : ConsensusNode K}.

(** A provider that reads the objects of the root subnet. *)
Definition reads (p : P) (w : world) : Prop := ∀ id, StateProvider.get_object p id = w_get w SUBNET_ROOT id.

Lemma oid_is_mid : UH.membership_oid (show_id user) subnet = mid.
Proof using Type. done. Qed.

Lemma join_needs_absence skip now tp r (n : NetworkService K) w m :
  reads (tp_provider tp) w → member_view w m → sg_address (mr_signed r) = show_id user → mr_subnet_id r = subnet →
  UH.join_admitted skip now tp r n = Ok tt → m = false.
Proof using Type.
  intros Hp [Hm _] Ha Hs. unfold UH.join_admitted. rewrite Ha, Hs. intros H. apply bind_ok in H as ([] & _ & H).
  case_bool_decide; [done|]. rewrite oid_is_mid, Hp, Hm in H. by destruct m.
Qed.

Lemma leave_needs_presence skip now tp r w m :
  reads (tp_provider tp) w → member_view w m → sg_address (mr_signed r) = show_id user → mr_subnet_id r = subnet →
  UH.leave_admitted skip now tp r = Ok tt → m = true.
Proof using Type.
  intros Hp [Hm _] Ha Hs. unfold UH.leave_admitted. rewrite Ha, Hs. intros H. apply bind_ok in H as ([] & _ & H).
  rewrite oid_is_mid, Hp, Hm in H. by destruct m.
Qed.
End Members.

(** Memberships follow the joins and leaves that are applied.  Whatever
    validators build the events of joins and leaves of a user and a subnet, at
    whatever times and in whatever order they are applied, between other
    events that do not write the two objects of the membership, the state has
    both objects exactly when the last of them that took effect was a join: a
    join takes effect unless the user is a member, and otherwise conflicts and
    changes nothing; a leave always takes effect.  A handler that reads this
    state admits a join only of a user that is not a member, and a leave only
    of one that is. *)
Theorem memberships_refine (B : Blake3) (X : HexCrate) (J : SerdeJson) (BC : Bcs) (KC : KeyCrates) (S2 : Sha256)
    (P : Type) (SP : StateProvider P) (K : Type) (CN : ConsensusNode K)
    (user : Address) (subnet : string) (es : list (option member_action * Event)) (w : world) (m : bool)
    (Hids : Exec.membership_id user subnet ≠ Exec.reverse_member_id user subnet)
    (Hes : Forall (membership_run user subnet) es) (Hw : member_view user subnet w m) :
  let '(w', vs) := spec_events w es.*2 in
  let '(m', oks) := member_run m es.*1 in
  member_view user subnet w' m' ∧ Forall2 answers vs oks ∧
  ∀ skip now (tp : TaskPreparer P) r (n : NetworkService K),
    reads (tp_provider tp) w' → sg_address (mr_signed r) = show_id user → mr_subnet_id r = subnet →
    (UH.join_admitted skip now tp r n = Ok tt → m' = false) ∧ (UH.leave_admitted skip now tp r = Ok tt → m' = true).
Proof.
  pose proof (run_refines user subnet Hids es w m Hes Hw) as Hr.
  destruct (spec_events w es.*2) as [w' vs], (member_run m es.*1) as [m' oks]. destruct Hr as [H1 H2].
  split; [done|]. split; [done|]. intros skip now tp r n Hp Ha Hs.
  split; [by eapply join_needs_absence|by eapply leave_needs_presence].
Qed.

(** ** What is not signed *)

Section Unbound.
Context `{KC : KeyCrates} `{X : HexCrate} `{S2 : Sha256}.

Definition at_time (s : SignedPart) (t : Z) : SignedPart :=
  mkSignedPart (sg_address s) (sg_signature s) (sg_message s) t (sg_public_key s) (sg_nostr_pubkey s).

(** A signature that was accepted once is accepted with every fresh time, for
    every profile, join and leave of the address: neither the time nor the
    content of the request is compared with the signed message. *)
Lemma signature_outlives_request (now now' t : Z) (s : SignedPart) :
  UH.signed_admitted false now s = Ok tt → (Z.abs (now' - t / 1000) ≤ 300)%Z →
  UH.signed_admitted false now' (at_time s t) = Ok tt.
Proof.
  unfold UH.signed_admitted. cbn [at_time sg_address sg_timestamp sg_signature sg_message sg_nostr_pubkey sg_public_key].
  destruct (negb _); [done|]. intros H Ht. apply bind_ok in H as ([] & _ & H). unfold UH.check_timestamp.
  destruct (Z.ltb_spec 300 (Z.abs (now' - t / 1000))); [lia|]. cbn [rbind]. exact H.
Qed.
End Unbound.
