(* ===== verification/UserWit.v ===== *)
(** * An example of requests

    Alice of [TransferProps] signs a transfer with her wallet, and joins and
    leaves a subnet; the hypotheses of the theorems of [UserProps] and
    [MemberProps] hold of her requests.  Then two requests that the checks of
    addresses and memberships treat unlike the executor. *)

From Stdlib Require Import ZArith Lia Strings.Byte.
From stdpp Require Import base gmap sets list strings numbers.
From S2P Require Import Prelude Hash Vlc Event Coin StateStore Resource Executor ExecutorProps StateManager StateSpec Reservation Task Stf Enclave StateProvider TaskPreparer TransferProps SolverRouter RouterProps TransferService ServiceProps BatchProps ServiceWit TransferFlow Amount AmountProps Keys InfraService UserHandler UserProps MemberProps.
#[local] Open Scope Z_scope.
#[local] Existing Instance toy_blake3.
#[local] Existing Instance hex_lower.

Module UWit.
(** A key of 64 zeros, of which Alice's address is the hash; a signature is
    good when it starts with the hash of the message. *)
#[global] Instance key_crates : KeyCrates := {|
  base64_decode _ := inl "base64"%string;
  base64_encode _ := ""%string;
  hex_error s := s;
  blake2b256 := blake3;
  keccak256 b := if bool_decide (b = replicate 64 Byte.x00) then Wit.alice else blake3 b;
  parse_key _ b := inr b;
  parse_signature _ b := inr b;
  crate_verify _ _ _ _ := Some "bad signature"%string;
  recoverable_signature b := inr b;
  recover_from_prehash h s _ :=
    if bool_decide (take 32 s = hv_bytes h) then inr (Byte.x04 :: replicate 64 Byte.x00) else inl "no point"%string;
  schnorr_key _ := inl "point"%string;
  schnorr_signature b := inr b;
  schnorr_verify _ _ _ := Some "bad signature"%string
|}.
#[global] Instance registration_bytes : RegistrationBytes :=
  {| user_payload _ := []; subnet_payload _ := []; solver_payload _ := []; validator_payload _ := [] |}.
#[global] Instance json_read : JsonRead := fun _ => inr JNull.
#[global] Instance node : ConsensusNode unit :=
  {| node_port := SWit.port; allocate_logical_time k := (k, 5); vlc_logical_time _ := 5; add_peer_validator _ _ _ k := k |}.

Definition network : NetworkService unit := mkNetwork SWit.service "v1" "setu-test" ∅ ∅ [] 0.
Definition unsigned : TransferRequest :=
  mkTransferRequest Wit.alice_str (show_id Wit.bob) (Some 30) None None None (Some "nonce-0001"%string) (Some "setu-test"%string) None None
    1000000 None None None.
Definition admission : UH.Admission := UH.mkAdmission SUBNET_ROOT 30 "nonce-0001".
Definition message : string := UH.request_message unsigned "setu-test" admission.

(** Thirty two bytes that answer the message, as many zeros, and parity 27. *)
Definition signature (m : string) : bytes :=
  hv_bytes (keccak256 (as_bytes (Keys.personal_message m))) ++ replicate 32 Byte.x00 ++ [Byte.x1b].

Definition request (sig : bytes) : TransferRequest :=
  mkTransferRequest Wit.alice_str (show_id Wit.bob) (Some 30) None None None (Some "nonce-0001"%string) (Some "setu-test"%string) None
    (Some message) 1000000 (Some sig) None None.
Definition signed : TransferRequest := request (signature message).

(** The same with the amount in decimals, and a memo. *)
Definition spelled : TransferRequest :=
  mkTransferRequest Wit.alice_str (show_id Wit.bob) None (Some (Amount.format_setu_units 30)) (Some "SETU"%string) None
    (Some "nonce-0001"%string) (Some "setu-test"%string) (Some "rent"%string) (Some message) 1000000 (Some (signature message)) None None.

Lemma admitted_is (x : result string UH.Admission) :
  match x with
  | Ok d => bool_decide (UH.am_subnet d = SUBNET_ROOT) && (UH.am_amount d =? 30) && bool_decide (UH.am_nonce d = "nonce-0001"%string)
  | _ => false
  end = true → x = Ok admission.
Proof.
  destruct x as [[sn a nc]| |]; try discriminate. cbn [UH.am_subnet UH.am_amount UH.am_nonce].
  rewrite !andb_true_iff, Z.eqb_eq, !bool_decide_eq_true. intros [[-> ->] ->]. reflexivity.
Qed.

Lemma admission_at now r : tq_timestamp r = 1000000 → Z.abs (now - 1000) ≤ 300 →
  UH.transfer_admitted false now Wit.preparer r network = UH.transfer_admitted false 1000 Wit.preparer r network.
Proof.
  intros Hr Hn. assert (Ht : UH.check_timestamp now (tq_timestamp r) = UH.check_timestamp 1000 (tq_timestamp r)).
  { rewrite Hr. unfold UH.check_timestamp. change (1000000 / 1000) with 1000. destruct (Z.ltb_spec 300 (Z.abs (now - 1000))); [lia|reflexivity]. }
  unfold UH.transfer_admitted. rewrite Ht. reflexivity.
Qed.

Lemma signed_admission : UH.transfer_admitted false 1000 Wit.preparer signed network = Ok admission.
Proof. apply admitted_is. vm_compute. reflexivity. Qed.

Lemma spelled_admission : UH.transfer_admitted false 1120 Wit.preparer spelled network = Ok admission.
Proof. rewrite admission_at; [|reflexivity|lia]. apply admitted_is. vm_compute. reflexivity. Qed.
End UWit.

(** The signed request is authorized and its transfer accepted; with another
    signature it is refused. *)
Lemma signed_transfer_authorized_witness :
  let run r := UH.transfer false 1000 1000000 9 Wit.preparer SWit.turns SWit.awaits TEx.SendDone SWit.collector r UWit.network in
  (∃ d n' out, authorized false 1000 Wit.provider UWit.signed UWit.network d ∧
     run UWit.signed = (n', Ok out) ∧ tn_success out = true) ∧
  ∃ m, run (UWit.request (replicate 65 Byte.x00)) = (UWit.network, Ok (UH.transfer_err m)).
Proof.
  intros run. split.
  - assert (Hok : match (run UWit.signed).2 with Ok r => tn_success r | _ => false end = true) by (vm_compute; reflexivity).
    pose proof (signed_transfer_authorized 1000 1000000 9 Wit.preparer SWit.turns SWit.awaits TEx.SendDone SWit.collector
      UWit.signed UWit.network) as Hs.
    fold (run UWit.signed) in Hs. destruct (run UWit.signed) as [n' res] eqn:Hrun. cbn [snd] in Hok.
    destruct res as [out| |]; [|discriminate Hok|discriminate Hok].
    destruct Hs as [(m & _ & Hm)|(d & q & sub & Haz & _)].
    + injection Hm as ->. discriminate Hok.
    + exists d, n', out. split; [exact Haz|]. split; [reflexivity|exact Hok].
  - assert (Had : match UH.transfer_admitted false 1000 Wit.preparer (UWit.request (replicate 65 Byte.x00)) UWit.network with Err _ => true | _ => false end = true)
      by (vm_compute; reflexivity).
    unfold run, UH.transfer. destruct (UH.transfer_admitted _ _ _ _ _) as [|m|]; [discriminate Had| |discriminate Had].
    exists m. reflexivity.
Defined.

(** The request is sent again two minutes later, with the same signature and
    the amount in decimals. *)
Lemma signed_message_binds_witness :
  let marker r := Nonce.nonce_object_id (UH.normalize_address (tq_from r)) (UH.am_nonce UWit.admission) in
  UH.transfer_admitted false 1000 Wit.preparer UWit.signed UWit.network = Ok UWit.admission ∧
  UH.transfer_admitted false 1120 Wit.preparer UWit.spelled UWit.network = Ok UWit.admission ∧
  marker UWit.signed = marker UWit.spelled.
Proof.
  intros marker.
  assert (Ht : 0 ≤ tq_timestamp UWit.signed) by (cbn; lia).
  assert (Ha : 0 ≤ default 0 (tq_amount UWit.signed)) by (cbn; lia).
  assert (Ha' : 0 ≤ default 0 (tq_amount UWit.spelled)) by (cbn; lia).
  split; [exact UWit.signed_admission|]. split; [exact UWit.spelled_admission|].
  apply (signed_message_binds false false 1000 1120 Wit.preparer Wit.preparer UWit.signed UWit.spelled
    UWit.network UWit.network UWit.admission UWit.admission UWit.signed_admission UWit.spelled_admission eq_refl Ht Ht Ha Ha').
Defined.

Module MWit.
Definition vlc : VLCSnapshot := mkVLCSnapshot VC.new 1 1.
Definition blank : Event := te_event (IE.system_event "v1" 1 vlc).
Definition built (r : result string TaskEvent) : Event := match r with Ok te => te_event te | _ => blank end.
Definition join (t : Z) : Event := built (IE.execute_subnet_join "v1" t Wit.alice_str "games" vlc).
Definition leave (t : Z) : Event := built (IE.execute_subnet_leave "v2" t Wit.alice_str "games" vlc).

(** Alice joins, joins again, leaves and joins; an event without effect is
    between. *)
Definition events : list (option member_action * Event) :=
  [(Some MJoin, join 1); (None, blank); (Some MJoin, join 2); (Some MLeave, leave 3); (Some MJoin, join 4)].

Lemma join_ok t : membership_event Wit.alice "games" MJoin (join t).
Proof.
  assert (Ha : address_from_hex Wit.alice_str = Ok Wit.alice) by apply address_from_hex_show.
  destruct (IE.execute_subnet_join "v1" t Wit.alice_str "games" vlc) as [te|e|] eqn:He.
  - exists "v1"%string, t, Wit.alice_str, vlc, te. split; [exact Ha|]. split; [|exact He]. unfold join. rewrite He. reflexivity.
  - unfold IE.execute_subnet_join, IE.parse_address in He. rewrite Ha in He. discriminate He.
  - unfold IE.execute_subnet_join, IE.parse_address in He. rewrite Ha in He. discriminate He.
Qed.

Lemma leave_ok t : membership_event Wit.alice "games" MLeave (leave t).
Proof.
  assert (Ha : address_from_hex Wit.alice_str = Ok Wit.alice) by apply address_from_hex_show.
  destruct (IE.execute_subnet_leave "v2" t Wit.alice_str "games" vlc) as [te|e|] eqn:He.
  - exists "v2"%string, t, Wit.alice_str, vlc, te. split; [exact Ha|]. split; [|exact He]. unfold leave. rewrite He. reflexivity.
  - unfold IE.execute_subnet_leave, IE.parse_address in He. rewrite Ha in He. discriminate He.
  - unfold IE.execute_subnet_leave, IE.parse_address in He. rewrite Ha in He. discriminate He.
Qed.

Lemma blank_ok : bystander_event Wit.alice "games" blank.
Proof. split; apply not_elem_of_nil. Qed.

Lemma events_ok : Forall (membership_run Wit.alice "games") events.
Proof.
  unfold events. apply list.Forall_cons; split; [apply join_ok|]. apply list.Forall_cons; split; [apply blank_ok|].
  apply list.Forall_cons; split; [apply join_ok|]. apply list.Forall_cons; split; [apply leave_ok|].
  apply list.Forall_cons; split; [apply join_ok|]. constructor.
Qed.
End MWit.

(** The second join conflicts, and Alice is a member at the end. *)
Lemma memberships_refine_witness :
  let '(w', vs) := spec_events ∅ MWit.events.*2 in
  member_view Wit.alice "games" w' true ∧
  Forall2 answers vs [Some true; None; Some false; Some true; Some true].
Proof.
  assert (Hids : Exec.membership_id Wit.alice "games" ≠ Exec.reverse_member_id Wit.alice "games")
    by (apply (bool_decide_unpack _); vm_compute; exact I).
  assert (Hes : Forall (membership_run Wit.alice "games") MWit.events) by exact MWit.events_ok.
  assert (Hw : member_view Wit.alice "games" ∅ false)
    by (unfold member_view, w_get, w_objects; rewrite lookup_empty; cbn [default from_option id]; rewrite !lookup_empty; split; reflexivity).
  pose proof (memberships_refine toy_blake3 hex_lower Wit.json_wit Wit.bcs_wit UWit.key_crates Wit.sha_wit
    (MerkleStateProvider unit) _ unit UWit.node Wit.alice "games" MWit.events ∅ false Hids Hes Hw) as Hr.
  revert Hr. change (member_run false MWit.events.*1) with (true, [Some true; None; Some false; Some true; Some true]).
  generalize (spec_events ∅ MWit.events.*2). intros [w' vs] Hr. destruct Hr as (H1 & H2 & _). split; [exact H1|exact H2].
Defined.
